(* ===== verification/_CoqProject ===== *)
-Q . S2P
Prelude.v
SafeMath.v
Monads.v
Bag.v
Bits.v
Snowball.v
SnowballFacts.v
Tree.v
TreeFacts.v
TreeEager.v
Consensus.v
Topological.v
SnowmanWf.v
SnowmanPref.v
Snowman.v
Gas.v
GasPrice.v
Sorting.v
GoLibrary.v
ValidatorFee.v
Acp176.v
Reward.v
LinkedList.v
OrderedMap.v
LinkedHashmap.v
Lru.v
PollSet.v
MapOrder.v
Bootstrapper.v
VoteGraph.v
Prefixes.v
EarlyTerm.v
EarlyTermSnowman.v
Validators.v
Secp256k1fx.v
PlatformUtxo.v
FlowChecker.v
Sampler.v
SamplerFacts.v
Database.v
Memdb.v
Versiondb.v
VersiondbFacts.v
Prefixdb.v
Heap.v
BTree.v
Iterators.v
Stakers.v
StakersFacts.v
ValidatorMetadata.v
L1Validators.v
Chain.v
ChainDiff.v
ApplyFacts.v
ChainState.v
ChainTheorems.v
DiffKeys.v
ValidatorHistory.v
HistoryTheorems.v
HistoryChanges.v
HistoryRecord.v
Deque.v
Window.v
SetBits.v
WarpSets.v
WarpSignature.v
PlatformValidators.v
PlatformValidatorsFacts.v
Interval.v
IntervalFacts.v
BootstrapStorage.v
BootstrapFacts.v
MerkleKey.v
MerkleCodec.v
MerkleSpec.v
MerkleView.v
MerkleViewFacts.v
MerkleHash.v
MerkleTheorems.v
