(* ===== verification/Prelude.v ===== *)
(** * A verification library for go-titan

    go-titan is a node of the Titan network: AvalancheGo ([src/avalanchego]) with
    the EVM chain of [src/coreth].  Validators poll each other; the answers drive
    a tree of binary decisions (Snowball) for every block (Snowman), and the
    decided blocks are executed by the chains, whose fees follow the gas consumed.
    This library models the deterministic core of the node in Rocq and proves what
    it is relied on for.

    ** Parts and files

    Foundations.
    - [Prelude]: error results, machine integers, lists and maps.
    - [Monads]: the state and error monad [M St E A] of methods that mutate their
      receiver, loops on fuel and weakest preconditions.
    - [SafeMath] ([utils/math/safe_math.go]): checked unsigned arithmetic.
    - [Bag] ([utils/bag]): multisets of votes.
    - [Bits] ([ids/bits.go], [ids/id.go]): identifiers as bit strings.
    - [MapOrder]: the order in which Go visits a map, as a class.
    - [GoLibrary], [Sorting] (with [utils/sorting.go]): [sort.Search],
      [encoding/binary] and the comparisons of the Go library as the source uses
      them.

    Consensus on identifiers, [snow/consensus/snowball].
    - [Snowball]: slush, snowflake and snowball instances, unary, binary and n-nary,
      their factories and the flat instance; [SnowballFacts]: what finalizes them.
    - [Tree]: the patricia tree of instances of [tree.go]; [TreeFacts]: its
      invariant, finality and the irrevocability of decided bits; [TreeEager]: the
      lazily propagated counter resets refine immediate ones.
    - [Consensus]: the Go interface [snowball.Consensus] as a class with laws, which
      the tree satisfies.

    Consensus on blocks, [snow/consensus/snowman].
    - [Topological] ([topological.go], [snowman_block.go]): the tree of processing
      blocks; one method, one computation.
    - [SnowmanWf], [SnowmanPref]: its structural invariant, the
      transitive count of votes, the preferred branch; [Snowman]: the theorems
      about all reachable states.

    Polls, [snow/consensus/snowman/poll] and [.../bootstrapper].
    - [PollSet] ([set.go], [interfaces.go]): the outstanding polls over the
      interface [Poll].
    - [VoteGraph] ([graph.go]), [Prefixes] ([prefix.go]), [EarlyTerm]
      ([early_term_traversal.go]): the poll that ends when no outstanding answer
      matters, an instance of [PollSet]'s [Poll]; [EarlyTermSnowman]: the block tree
      of [Topological] gives it the parents it asks for.
    - [Bootstrapper] ([requests.go], [minority.go], [majority.go]): the polls of a
      node that joins.

    Containers.
    - [LinkedList] ([utils/linked/list.go]): doubly linked lists
      over an explicit store.
    - [OrderedMap]: the contract of an ordered map, and the client side of iterators;
      [LinkedHashmap] ([utils/linked/hashmap.go]) implements it.
    - [Lru] ([cache/lru]): the caches, over any ordered map.
    - [Validators] ([snow/validators]): the validator set of a subnet and the manager
      of all sets, with their listeners.

    Sampling, [utils/sampler].
    - [Sampler]: random integers in a range, the uniform sampler, the heap of weights
      and weighted sampling without replacement; [SamplerFacts]: what they return,
      also to the validator sets of [Validators].

    Transactions.
    - [Secp256k1fx] ([vms/secp256k1fx]): owners, inputs, outputs, credentials and the
      check of signatures.
    - [PlatformUtxo] ([vms/platformvm/utxo/verifier.go], [vms/platformvm/stakeable],
      [vms/components/avax]): which UTXOs a P-chain transaction may consume and
      produce, with funds locked until a time.
    - [FlowChecker] ([vms/components/avax/flow_checker.go], [transferables.go]): the
      syntactic check of inputs, outputs and fee.

    Databases, [database].
    - [Database] ([database.go], [iterator.go], [batch.go], [helpers.go]): the
      interface of key-value stores with its contract, [DatabaseLaws].
    - [Memdb] ([memdb/db.go]): the database in memory.
    - [Versiondb], [VersiondbFacts] ([versiondb/db.go]): a transaction over any
      database.
    - [Prefixdb] ([prefixdb/db.go]): a database in the keys with a prefix of another.

    Ordered containers.
    - [BTree]: the sorted tree of a package outside the repository, as a class.
    - [Heap] ([utils/heap/queue.go] and [container/heap] of the Go library): binary
      heaps in a slice.
    - [Iterators] ([utils/iterator]): iterators over slices and trees, filtered and
      merged through a heap of iterators, and trees of items with a key.

    The chain state of the P-chain, [vms/platformvm/state].
    - [Stakers], [StakersFacts] ([staker.go], [staker_status.go], [stakers.go]): the
      sets of stakers, the changes to a set and the weight that a node gains by a
      change.
    - [ValidatorMetadata] ([metadata_validator.go]): uptimes and delegatee rewards.
    - [L1Validators] ([l1_validator.go], [expiry.go],
      [subnet_id_node_id.go]): L1 validators, expiry entries and changes to them.
    - [Chain] ([state.go]): the interface [Chain] as a class, an abstract chain state
      [CState] and the laws [ChainLaws] that tie an implementation to it.
    - [ChainDiff] ([diff.go]): the changes of a block over a parent state, itself a
      [Chain]; it keeps the laws when its parent does.
    - [ChainState] ([state.go]): the state with the changes since the last commit in
      memory, over [Persisted], what its caches and databases answer; it keeps the
      laws.
    - [ApplyFacts]: what [diff.Apply] does to
      any implementation; [ChainTheorems]: the theorems and their witnesses.

    The history of validator sets.
    - [DiffKeys] ([disk_staker_diff_iterator.go]): the keys and values of the changes,
      with the heights in reverse order.
    - [ValidatorHistory] ([state.go]): the calculation and the writing of the changes of
      a block, and the four loops that take validator sets back.
    - [HistoryTheorems]: databases that have recorded a
      range of heights give back the sets of all of them.
    - [HistoryChanges], [HistoryRecord]: a block whose changes are written is recorded.
    - [Deque] ([utils/buffer/unbounded_deque.go]), [Window]
      ([utils/buffer/bounded_nonblocking_queue.go], [utils/window]): the ring buffer,
      the bounded queue and the window of recent elements.
    - [PlatformValidators], [PlatformValidatorsFacts] ([vms/platformvm/validators]): the
      validator sets by height, with their caches.

    Warp messages.
    - [SetBits] ([utils/set/bits.go]): sets of indices.
    - [WarpSets] ([snow/validators/warp.go]): the canonical form of a validator set.
    - [WarpSignature] ([vms/platformvm/warp], [utils/crypto/bls]): signing, and the
      verification of aggregate signatures.

    Bootstrapping storage, [snow/engine/snowman/bootstrap].
    - [Interval], [IntervalFacts] ([interval/]): the set of fetched heights as a tree
      of intervals that is mirrored in a database.
    - [BootstrapStorage], [BootstrapFacts] ([storage.go]): which blocks are missing,
      how fetched blocks are stored and how they are executed.

    The Merkle trie, [x/merkledb].
    - [MerkleKey] ([key.go]): keys as strings of bits in bytes, and what every operation
      does to the bits and to the tokens.
    - [MerkleCodec] ([node.go], [codec.go], [hashing.go]): nodes, their encodings with
      their readers and writers, and what is hashed of a node; in its module [Varint]
      the integers of [encoding/binary].
    - [MerkleSpec]: the trie of a map from paths to values, node by node.
    - [MerkleView] ([view.go], [trie.go]): the changes of a view over a parent trie.
    - [MerkleViewFacts]: the invariant of a view that is being changed, which insertion,
      removal and the compression of paths keep.
    - [MerkleHash]: the hashing of the changed nodes, whose keys are built in buffers that
      the calls share and leave dirty.
    - [MerkleTheorems]: a view over any trie, itself a parent of views; what the root
      identifier commits to.

    Fees and rewards.
    - [Gas], [GasPrice] ([vms/components/gas]): dimensions, gas state and price.
    - [ValidatorFee] ([vms/platformvm/validators/fee]): the fee of an L1 validator.
    - [Acp176] ([vms/evm/acp176], [vms/evm/acp226]): gas target, price and block delay
      of the EVM chains.
    - [Reward] ([vms/platformvm/reward]): rewards and their split.

    Clients are proved against interfaces: [Topological] against the class
    [Consensus], the tree against [SnowLaws], the caches and the poll set against
    [OrderedMapLaws], the poll set against [Poll], versiondb, prefixdb and the
    bootstrapping storage against [DatabaseLaws], the interval tree against
    [WriterLaws] and [BTreeLaws], diffs and [Apply] against [ChainLaws], the window
    against [DequeLaws], the history against [DatabaseLaws] and [BLSLaws], the
    validator sets by height against [OrderedMapLaws] too, views of the Merkle trie
    against [ParentTrie], which a view is itself.  The implementations
    discharge the laws and the witnesses run them.

    ** How the code is modelled

    A Go method that mutates its receiver is a computation over the receiver's
    struct, a [Record]; its error values are constructors and a nil dereference,
    an index out of range or a division by 0 is the error [Panic].  The mutations
    made before an error stay.  Methods that share objects through pointers
    (lists, hashmaps, validator sets, polls) work on an explicit store.  Objects
    with a single owner (nodes of the snowball tree) are values that the method
    returns.  An unsigned integer of width [w] is a [Z] below [2^w] with its wrap
    written out; an [int] is a [Z] or a [nat].  [uint256], which is not part of
    the repository, is the class [Uint256] of its documented operations.  A [range]
    over a map takes its order from a class ([KeyOrder], [Runtime]); no theorem
    depends on it.  A lock makes a method one step.  Calls into the VM and to
    listeners are recorded in a log; whether a VM call fails is a parameter that
    may depend on the log.

    In the chain state a time is a number of Unix seconds, and the current and the
    pending stakers are two values of one type ([Kind]).  The versions of a diff are
    a function to the states as they are when the diff is asked.  [CState] has, next
    to what the queries answer, the IDs that were ever used ([s_used], [c_l1_used])
    and the nodes that refuse a validator ([s_refuse]): a caller must not use an ID
    twice, and a diff refuses a validator on a node whose validator it has deleted.
    [applicable] lists what [Apply] needs of a diff beyond that: no weight of a
    subnet overflows on the way, whatever the order of the map ([peak]), and L1
    validators do not take over a node within the block as [Apply_order_errors]
    shows.

    A validator set at a height is an [entry], weight and bytes of the key, for every
    subnet and node ([sets]).  [next_height] ties two heights to the state: its stakers
    have gone from the commit through the steps [base_step], in which no node's
    validator is both added and deleted, and L1 validators that are not active count
    under the empty node ID.  [records] and [opened] say what the four databases hold,
    each a database of its own, as prefixdbs are.  [ctx] tells in which iteration of a
    loop the caller has given up.  The library [blst] is the classes [BLS] and [Blst];
    [math/big] is of the standard library, and its integers are [Z].

    The nodes of a view of the Merkle trie are in a heap, as they are shared between its
    root, its changes and the variables of a method; what the parent hands out is a copy.
    A trie is the one that belongs to its contents: [MerkleSpec.tnode] gives every node
    by the paths below it.  A computation over the buffers of keys fails where the code
    would index out of range.

    Loops run on fuel and every theorem about them also says that the fuel is
    enough: [Topological] loops run at most once per block ([tree_fuel], the number
    of blocks plus 2) and its sort visits each vertex once; the list loops get the
    length of the list plus 2; the halvings of [sort.Search] are at most 64; the
    exponential series ends within [price_fuel] = 800 terms, as its terms then
    divide to 0; the prefix splitting of [n] identifiers handles at most [2n]
    groups and 256 bits; the vote graph is bounded by the heights of its blocks;
    a descent in the heap of weights visits at most its length; a rejection loop of
    the random integers gets [draws] numbers, which are enough for a source that is
    fair ([SamplerFacts.fair]: one of [draws] consecutive numbers is below 2^62);
    the heap operations get the length of the heap, and an iterator what is left of
    it ([cost]);
    the stale elements of a window are at most its length; the loops over the history
    get more than the number of entries of the four databases;
    a descent in a view lengthens the key, and hashing goes to changed nodes with longer
    keys ([hash_fuel]); ten groups of 7 bits are enough for an integer of 64 bits;
    an iteration over a database gets more than the number of its entries and
    [process] two more than the number of ancestors.

    ** What is proved

    - Safety of consensus: blocks are decided at most once and accepted in one chain
      with one block per height; the competitors of an accepted block and what descends
      from them are rejected, and nothing else is; decided bits and finalized
      preferences never change; a poll that ends early decides what all answers would
      have decided.
    - Safety of transactions: no value is created, nothing is spent before its locktime
      or, once bootstrapping is over and signatures are verified, without its owners'
      signatures.
    - Safety of storage: a versiondb commits all or nothing, prefixdbs, also through
      their batches, do not touch each other's keys, bootstrapping executes each fetched block once and in order.
    - The chain state: a diff and the state are two implementations of one abstract
      chain state, so diffs stack on each other; [Apply] makes the changes of a diff on
      any implementation, in every order of the maps; the changes it refuses although
      the diff took them are exhibited.  Weight differences are exact, the metadata
      that is written is the changed one, merged iterators are sorted.
    - The history: what a commit writes records one more height, and the validator set
      of any recorded height is given back exactly, with weights and keys.
    - Warp messages are accepted exactly with a quorum of the weight of the canonical
      set, which has one entry per key in the order of the keys.
    - Merkle nodes and keys have one encoding; what is hashed of a node determines it
      up to its children's identifiers and its value's digest.  A view is the trie of the
      changed contents, whatever the order and the number of the changes, with the
      identifiers of its nodes; equal root identifiers have equal contents, or two
      inputs hashed for the two tries collide.
    - Samples: by weight, without repetition beyond the weight, never endless.
    - Invariants: the block tree, the patricia tree, the counters, the caches, the
      capacity of the gas state.
    - Refinements: transitive votes against the naive count, lazy resets against
      eager ones, pointer lists against sequences, the hashmap against an ordered
      map, the ring buffer against lists, the poll set against a queue, validator sets
      and their manager against maps that every listener can tell from its calls, the
      interval tree against a set of heights in memory and on disk, the 256-bit price against unbounded integers.
    - Termination and absence of panics of [RecordPoll], the poll traversals, the
      price loop, the seconds that some funds pay for.
    - Bounds, round trips, errors: dimensions, states as bytes, all-or-nothing
      consumption, the overrun of the size-bounded cache; the interval tree that is
      loaded from a database is the one that wrote it.
    [PROJECT.json] names the theorem, the witness and the definitions of each
    property, and the findings.

    ** Not modelled

    Networking, throttling and peers, the engine's message handlers and the
    networking part of bootstrapping, the API services, the node and its
    configuration, metrics and logging: input and output and glue around the
    modelled parts.  The storage engines below [Database] are third-party packages.
    Codecs, the commit and the loading of the P-chain state apart from its history of
    validator sets, the execution of transactions, the storage of the Merkle trie with
    its proofs and its synchronisation, and the transaction pools of the EVM: core
    logic that this library does not reach yet.  Hashes, signatures and the EVM
    interpreter come from packages outside the repository. *)

From Stdlib Require Export ZArith Lia Bool.
From stdpp Require Export base gmap sets strings option list.

#[global] Open Scope Z_scope.

(** ** Error results

    A Go function that returns [(T, error)] is modelled by a value of
    [result E T]; [E] is the enumeration of the sentinel errors the function
    can return. *)
Inductive result (E A : Type) : Type :=
  | Ok (a : A)
  | Err (e : E).
Arguments Ok {E A} a.
Arguments Err {E A} e.

#[global] Instance result_ret E : MRet (result E) := fun A a => Ok a.
#[global] Instance result_bind E : MBind (result E) := fun A B k m =>
  match m with Ok a => k a | Err e => Err e end.
#[global] Instance result_fmap E : FMap (result E) := fun A B f m =>
  match m with Ok a => Ok (f a) | Err e => Err e end.

#[global] Instance result_eq_dec {E A} `{EqDecision E, EqDecision A} :
  EqDecision (result E A).
Proof. solve_decision. Defined.

Definition is_ok {E A} (r : result E A) : bool :=
  match r with Ok _ => true | Err _ => false end.

Lemma bind_ok {E A B} (m : result E A) (k : A -> result E B) b :
  (m ≫= k) = Ok b <-> exists a, m = Ok a /\ k a = Ok b.
Proof. destruct m; cbn; split; naive_solver. Qed.

(** ** Machine integers

    A Go unsigned integer of width [w] is a [Z] in [0 <= z < 2^w]; the
    wrap-around of its arithmetic is [wrap w]. A Go [int] is the [Z] it
    denotes: the program's [int]s are counters and lengths. *)
Definition wrap (w z : Z) : Z := z mod 2 ^ w.
Definition is_uint (w z : Z) : Prop := 0 <= z < 2 ^ w.
Abbreviation is_u64 := (is_uint 64).
Abbreviation wrap64 := (wrap 64).

Definition MaxUint64 : Z := 18446744073709551615.

#[global] Instance is_uint_dec w z : Decision (is_uint w z).
Proof. unfold is_uint. apply _. Defined.

Lemma pow2_pos w : 0 <= w -> 0 < 2 ^ w.
Proof. intros. apply Z.pow_pos_nonneg; lia. Qed.

Lemma wrap_small w z : is_uint w z -> wrap w z = z.
Proof. apply Z.mod_small. Qed.

Lemma wrap_uint w z : 0 <= w -> is_uint w (wrap w z).
Proof. intros. apply Z.mod_pos_bound, pow2_pos; done. Qed.

Lemma is_u64_max z : is_u64 z <-> 0 <= z <= MaxUint64.
Proof. unfold is_uint, MaxUint64. lia. Qed.

Lemma wrap64_small z : 0 <= z <= MaxUint64 -> wrap64 z = z.
Proof. intros. by apply wrap_small, is_u64_max. Qed.

(** ** Sums over finite maps *)
Section msum.
Context `{Countable K}.
Implicit Types m : gmap K Z.

Definition msum (m : gmap K Z) : Z := map_fold (fun _ c acc => c + acc) 0 m.
Definition mpos (m : gmap K Z) : Prop := map_Forall (fun _ c => 0 < c) m.

Lemma msum_empty : msum ∅ = 0.
Proof. apply map_fold_empty. Qed.

Lemma msum_delete m k c : m !! k = Some c -> msum m = c + msum (delete k m).
Proof. intros ?. apply (map_fold_delete_L (fun _ c acc => c + acc)); [lia|done]. Qed.

Lemma msum_insert_None m k c :
  m !! k = None -> msum (<[k := c]> m) = c + msum m.
Proof. intros ?. apply (map_fold_insert_L (fun _ c acc => c + acc)); [lia|done]. Qed.

Lemma msum_insert m k c :
  msum (<[k := c]> m) = msum m - default 0 (m !! k) + c.
Proof.
  destruct (m !! k) as [d|] eqn:E; cbn.
  - rewrite (msum_delete (<[k := c]> m) k c) by apply lookup_insert_eq.
    rewrite delete_insert_eq, (msum_delete m k d) by done. lia.
  - rewrite msum_insert_None by done. lia.
Qed.

Lemma msum_delete_default m k : msum (delete k m) = msum m - default 0 (m !! k).
Proof.
  destruct (m !! k) as [d|] eqn:E; cbn.
  - rewrite (msum_delete m k d) by done. lia.
  - rewrite delete_id by done. lia.
Qed.

Lemma msum_nonneg m : map_Forall (fun _ c => 0 <= c) m -> 0 <= msum m.
Proof.
  induction m as [|k c m Hk IH] using map_ind; intros Hm.
  - by rewrite msum_empty.
  - apply map_Forall_insert in Hm as [? ?]; [|done].
    rewrite msum_insert_None by done. specialize (IH ltac:(done)). lia.
Qed.

Lemma msum_zero m : (forall k, default 0 (m !! k) = 0) -> msum m = 0.
Proof.
  induction m as [|k c m Hk IH] using map_ind; intros Hm; [apply msum_empty|].
  rewrite msum_insert_None by done. pose proof (Hm k) as Hc.
  rewrite lookup_insert_eq in Hc. cbn in Hc. rewrite IH; [lia|].
  intros k'. destruct (decide (k' = k)) as [->|]; [by rewrite Hk|].
  specialize (Hm k'). by rewrite lookup_insert_ne in Hm.
Qed.

Lemma msum_lookup_le m k c :
  map_Forall (fun _ c => 0 <= c) m -> m !! k = Some c -> c <= msum m.
Proof.
  intros Hm Hk. rewrite (msum_delete m k c) by done.
  pose proof (msum_nonneg (delete k m) ltac:(by apply map_Forall_delete)). lia.
Qed.
End msum.

(** ** Sums over lists *)
Definition zsum {A} (f : A -> Z) (l : list A) : Z := foldr (fun x z => f x + z) 0 l.

Lemma zsum_app {A} (f : A -> Z) l1 l2 : zsum f (l1 ++ l2) = zsum f l1 + zsum f l2.
Proof. induction l1 as [|x l1 IH]; cbn; [done|]. fold (zsum f (l1 ++ l2)) (zsum f l1). lia. Qed.

Lemma zsum_perm {A} (f : A -> Z) l1 l2 : l1 ≡ₚ l2 -> zsum f l1 = zsum f l2.
Proof. induction 1; cbn; unfold zsum in *; lia. Qed.

#[export] Instance zsum_proper {A} (f : A -> Z) : Proper ((≡ₚ) ==> (=)) (zsum f).
Proof. intros l1 l2. apply zsum_perm. Qed.

Lemma zsum_ext {A} (f g : A -> Z) l : (forall x, x ∈ l -> f x = g x) -> zsum f l = zsum g l.
Proof.
  induction l as [|x l IH]; intros Hfg; [done|]. cbn. rewrite Hfg by (by left). f_equal. apply IH. intros. apply Hfg. by right.
Qed.

Lemma zsum_le {A} (f g : A -> Z) l : (forall x, x ∈ l -> f x <= g x) -> zsum f l <= zsum g l.
Proof.
  induction l as [|x l IH]; intros Hfg; [done|]. cbn. pose proof (Hfg x ltac:(by left)).
  enough (zsum f l <= zsum g l) by (unfold zsum in *; lia). apply IH. intros. apply Hfg. by right.
Qed.

Lemma zsum_zero {A} (f : A -> Z) l : (forall x, x ∈ l -> f x = 0) -> zsum f l = 0.
Proof.
  induction l as [|x l IH]; intros Hf; [done|]. cbn. fold (zsum f l). rewrite (Hf x) by (by left). rewrite IH; [done|]. intros. apply Hf. by right.
Qed.

Lemma zsum_filter {A} (P : A -> Prop) `{!forall x, Decision (P x)} (f : A -> Z) l :
  zsum (fun x => if bool_decide (P x) then f x else 0) l = zsum f (filter P l).
Proof.
  induction l as [|x l IH]; [done|]. rewrite filter_cons. cbn. fold (zsum (fun x => if bool_decide (P x) then f x else 0) l).
  rewrite IH. case_bool_decide; case_decide; (done || lia).
Qed.

Lemma zsum_fmap {A B} (f : B -> Z) (g : A -> B) l : zsum f (g <$> l) = zsum (fun x => f (g x)) l.
Proof. induction l as [|x l IH]; [done|]. cbn. unfold zsum in IH. by rewrite IH. Qed.

Lemma msum_list `{Countable K} (m : gmap K Z) : msum m = zsum snd (map_to_list m).
Proof.
  induction m as [|k c m Hk IH] using map_ind; [by rewrite msum_empty, map_to_list_empty|].
  rewrite msum_insert_None, map_to_list_insert by done. cbn. by rewrite IH.
Qed.

(** ** Automation *)
Create HintDb go discriminated.
#[export] Hint Resolve wrap_uint : go.

(** Case analysis on every boolean comparison of integers in sight. *)
Ltac zcase :=
  repeat match goal with
  | |- context [Z.ltb ?a ?b] => destruct (Z.ltb_spec a b)
  | |- context [Z.leb ?a ?b] => destruct (Z.leb_spec a b)
  | |- context [Z.eqb ?a ?b] => destruct (Z.eqb_spec a b)
  | H : context [Z.ltb ?a ?b] |- _ => destruct (Z.ltb_spec a b)
  | H : context [Z.leb ?a ?b] |- _ => destruct (Z.leb_spec a b)
  | H : context [Z.eqb ?a ?b] |- _ => destruct (Z.eqb_spec a b)
  end.

(** Membership in finite sets as a propositional goal. *)
Ltac set_tauto :=
  rewrite ?elem_of_difference, ?elem_of_union, ?elem_of_singleton; tauto.

(** Integer goals after unfolding the bounds of the machine integers. *)
Ltac ulia := unfold is_uint, MaxUint64 in *; lia.

(** Linear goals with divisions and remainders by constants. *)
Ltac dlia := Z.div_mod_to_equations; lia.
