(* ===== verification/SafeMath.v ===== *)
(** * Checked unsigned arithmetic

    Models [avalanchego/utils/math/safe_math.go]: addition, subtraction and
    multiplication of unsigned integers that report an overflow as an error. *)

From S2P Require Import Prelude.

Module SafeMath.

Inductive MathError := ErrOverflow | ErrUnderflow.

#[global] Instance MathError_eq_dec : EqDecision MathError.
Proof. solve_decision. Defined.

(** The type argument [T constraints.Unsigned] is its width [w]. *)
Definition MaxUint (w : Z) : Z := Z.ones w.

Definition Add (w a b : Z) : result MathError Z :=
  if wrap w (MaxUint w - b) <? a then Err ErrOverflow else Ok (wrap w (a + b)).

Definition Sub (w a b : Z) : result MathError Z :=
  if a <? b then Err ErrUnderflow else Ok (wrap w (a - b)).

Definition Mul (w a b : Z) : result MathError Z :=
  if negb (b =? 0) && (MaxUint w / b <? a) then Err ErrOverflow
  else Ok (wrap w (a * b)).

Definition AbsDiff (w a b : Z) : Z := wrap w (Z.max a b - Z.min a b).

Section spec.
Context (w : Z) (Hw : 0 <= w).

Lemma MaxUint_eq : MaxUint w = 2 ^ w - 1.
Proof. unfold MaxUint. rewrite Z.ones_equiv. lia. Qed.

Lemma Add_spec a b : is_uint w a -> is_uint w b ->
  Add w a b = if a + b <? 2 ^ w then Ok (a + b) else Err ErrOverflow.
Proof.
  intros [? ?] [? ?]. unfold Add. rewrite MaxUint_eq.
  rewrite (wrap_small w (2 ^ w - 1 - b)) by (unfold is_uint; lia).
  zcase; try lia; rewrite ?wrap_small by ulia; done.
Qed.

Lemma Sub_spec a b : is_uint w a -> is_uint w b ->
  Sub w a b = if b <=? a then Ok (a - b) else Err ErrUnderflow.
Proof.
  intros [? ?] [? ?]. unfold Sub. zcase; try lia; rewrite ?wrap_small by ulia; done.
Qed.

Lemma Mul_spec a b : is_uint w a -> is_uint w b ->
  Mul w a b = if a * b <? 2 ^ w then Ok (a * b) else Err ErrOverflow.
Proof.
  intros [? ?] [? ?]. unfold Mul. rewrite MaxUint_eq.
  destruct (Z.eqb_spec b 0) as [->|Hb]; cbn [negb andb].
  - rewrite Z.mul_0_r, wrap_small by ulia. zcase; [done|lia].
  - assert ((2 ^ w - 1) / b < a <-> 2 ^ w <= a * b) as Hiff.
    { pose proof (Z.div_lt_upper_bound (2 ^ w - 1) b a ltac:(lia)).
      pose proof (Z.mul_div_le (2 ^ w - 1) b ltac:(lia)).
      split; intros; [|by nia]. destruct (Z.lt_ge_cases (a * b) (2 ^ w)); [|done].
      pose proof (Z.div_le_lower_bound (2 ^ w - 1) b a ltac:(lia)). lia. }
    zcase; try lia; rewrite ?wrap_small by (unfold is_uint; nia); done.
Qed.
End spec.

End SafeMath.
