(* ===== verification/Monads.v ===== *)
(** * The state and error monad

    Go methods that mutate their receiver and may return an error (or panic) are
    computations [M St E A]: they map a state to the new state and a result, and
    the mutations made before an error stay.  [loop] is a [for] loop that runs on
    fuel; the development proves for every loop it models that the fuel is
    enough.

    [wp ok m Q s] is the weakest precondition: from [s] the computation [m]
    ends with a value and a state that satisfy [Q], or with an error that [ok]
    permits.  A panic or the exhaustion of the fuel is an error [ok] does not
    permit. *)

From S2P Require Import Prelude.

Definition M (St E A : Type) : Type := St -> St * result E A.

#[global] Instance M_ret St E : MRet (M St E) := fun A a s => (s, Ok a).
#[global] Instance M_bind St E : MBind (M St E) := fun A B k m s =>
  match m s with
  | (s', Ok a) => k a s'
  | (s', Err e) => (s', Err e)
  end.

Section ops.
Context {St E : Type}.

Definition get : M St E St := fun s => (s, Ok s).
Definition modify (f : St -> St) : M St E unit := fun s => (f s, Ok tt).
Definition fail {A} (e : E) : M St E A := fun s => (s, Err e).
Definition lift {A} (r : result E A) : M St E A := fun s => (s, r).

Definition when (b : bool) (m : M St E unit) : M St E unit :=
  if b then m else mret tt.

Definition must {A} (e : E) (o : option A) : M St E A :=
  match o with Some a => mret a | None => fail e end.

(** [for _, x := range l { a = f(a, x) }] *)
Fixpoint foldM {A B} (f : A -> B -> M St E A) (l : list B) (a : A) : M St E A :=
  match l with
  | [] => mret a
  | x :: l => a ← f a x; foldM f l a
  end.

(** [for { ... }]: the body continues with [inl] or leaves the loop with [inr]. *)
Fixpoint loop {A B} (oof : E) (fuel : nat) (body : A -> M St E (A + B)) (a : A)
  : M St E B :=
  match fuel with
  | O => fail oof
  | S fuel =>
      r ← body a;
      match r with
      | inl a => loop oof fuel body a
      | inr b => mret b
      end
  end.

(** A computation on a part of the state. *)
Definition zoom {T A} (g : T -> St) (p : St -> T -> T) (m : M St E A) : M T E A :=
  fun t => let '(s, r) := m (g t) in (p s t, r).
End ops.

Section wp.
Context {St E : Type} (ok : E -> Prop).

Definition wp {A} (m : M St E A) (Q : A -> St -> Prop) (s : St) : Prop :=
  match m s with
  | (s', Ok a) => Q a s'
  | (s', Err e) => ok e
  end.

Lemma wp_ret {A} (a : A) Q s : Q a s -> wp (mret a) Q s.
Proof. done. Qed.

Lemma wp_bind {A B} (m : M St E A) (k : A -> M St E B) Q s :
  wp m (fun a => wp (k a) Q) s -> wp (m ≫= k) Q s.
Proof. unfold wp, mbind, M_bind. by destruct (m s) as [s' [a|e]]. Qed.

Lemma wp_mono {A} (m : M St E A) (P Q : A -> St -> Prop) s :
  wp m P s -> (forall a s', P a s' -> Q a s') -> wp m Q s.
Proof. unfold wp. destruct (m s) as [s' [a|e]]; eauto. Qed.

Lemma wp_get Q s : Q s s -> wp get Q s.
Proof. done. Qed.

Lemma wp_modify f Q s : Q tt (f s) -> wp (modify f) Q s.
Proof. done. Qed.

Lemma wp_fail {A} e (Q : A -> St -> Prop) s : ok e -> wp (fail e) Q s.
Proof. done. Qed.

Lemma wp_lift {A} (r : result E A) (Q : A -> St -> Prop) s :
  match r with Ok a => Q a s | Err e => ok e end -> wp (lift r) Q s.
Proof. by destruct r. Qed.

Lemma wp_must {A} e (o : option A) Q s :
  (exists a, o = Some a /\ Q a s) -> wp (must e o) Q s.
Proof. by intros (a & -> & HQ). Qed.

Lemma wp_when b m Q s :
  (b = true -> wp m Q s) -> (b = false -> Q tt s) -> wp (when b m) Q s.
Proof. destruct b; cbn; [auto|intros _ HQ; by apply HQ]. Qed.

(** The rule of a [range] loop: the invariant speaks of the elements done. *)
Lemma wp_foldM {A B} (f : A -> B -> M St E A) l a s
    (I : list B -> A -> St -> Prop) Q :
  I [] a s ->
  (forall done x rest a s, l = done ++ x :: rest -> I done a s ->
     wp (f a x) (fun a' s' => I (done ++ [x]) a' s') s) ->
  (forall a s, I l a s -> Q a s) ->
  wp (foldM f l a) Q s.
Proof.
  intros H0 Hs Hq.
  enough (forall done rest a s, l = done ++ rest -> I done a s ->
    wp (foldM f rest a) Q s) as Hg by (by apply (Hg [])).
  clear H0 a s. intros done rest. revert done.
  induction rest as [|x rest IH]; intros done a s Hl HI.
  - rewrite app_nil_r in Hl. subst. by apply Hq.
  - cbn. apply wp_bind. eapply wp_mono; [by eapply Hs|]. cbn.
    intros a' s' HI'. apply (IH (done ++ [x])); [|done]. by rewrite <- app_assoc.
Qed.

(** The rule of a loop: the invariant carries a bound [k] of the iterations
    that are still possible, and the fuel exceeds it. *)
Lemma wp_loop {A B} oof (I : nat -> A -> St -> Prop) fuel
    (body : A -> M St E (A + B)) a s k Q :
  I k a s -> (k < fuel)%nat ->
  (forall k a s, I k a s ->
     wp (body a) (fun r s' => match r with
       | inl a' => exists k', (k' < k)%nat /\ I k' a' s'
       | inr b => Q b s' end) s) ->
  wp (loop oof fuel body a) Q s.
Proof.
  intros HI Hk Hs. revert k a s HI Hk.
  induction fuel as [|fuel IH]; intros k a s HI Hk; [lia|].
  cbn. apply wp_bind. eapply wp_mono; [by eapply Hs|]. cbn.
  intros [a'|b] s' HQ; [|done]. destruct HQ as (k' & Hlt & HI'). eapply IH; [done|lia].
Qed.

Lemma wp_forall {X A} (P : X -> Prop) (m : M St E A) (Q : X -> A -> St -> Prop) s :
  (exists x, P x) -> (forall x, P x -> wp m (Q x) s) ->
  wp m (fun a s' => forall x, P x -> Q x a s') s.
Proof.
  unfold wp. intros [x Hx] H. pose proof (H x Hx) as H0. destruct (m s) as [s' [a|e]]; [|done].
  intros y Hy. by apply H.
Qed.

(** What holds of a run that ends with a value. *)
Lemma wp_run {A} (m : M St E A) Q s s' a : wp m Q s -> m s = (s', Ok a) -> Q a s'.
Proof. unfold wp. intros Hw Hm. by rewrite Hm in Hw. Qed.
End wp.

(** A computation that cannot fail at all. *)
Definition never {E : Type} (e : E) : Prop := False.

Lemma wp_never {St E A} (ok : E -> Prop) (m : M St E A) Q s :
  wp never m Q s -> wp ok m Q s.
Proof. unfold wp. by destruct (m s) as [s' [a|e]]. Qed.

(** A part of the state with errors of its own. *)
Definition zoom_err {St T E E' A} (g : T -> St) (p : St -> T -> T) (f : E -> E') (m : M St E A) : M T E' A :=
  fun t => let '(s, r) := m (g t) in (p s t, match r with Ok a => Ok a | Err e => Err (f e) end).

Lemma wp_zoom_err {St T E E' A} (ok : E' -> Prop) (g : T -> St) (p : St -> T -> T) (f : E -> E') (c : M St E A) Q t :
  wp (fun e => ok (f e)) c (fun a s => Q a (p s t)) (g t) -> wp ok (zoom_err g p f c) Q t.
Proof. unfold wp, zoom_err. by destruct (c (g t)) as [s [a|e]]. Qed.

(** ** Loops without an accumulator *)
Definition forM {St E A} (l : list A) (f : A -> M St E unit) : M St E unit := foldM (fun _ => f) l tt.

Section forM.
Context {B E : Type} (ok : E -> Prop).

Lemma wp_forM {A} (l : list A) (f : A -> M B E unit) (I : list A -> B -> Prop) b :
  I [] b -> (forall done x rest b, l = done ++ x :: rest -> I done b -> wp ok (f x) (fun _ b' => I (done ++ [x]) b') b) ->
  wp ok (forM l f) (fun _ => I l) b.
Proof.
  intros Hb Hstep. unfold forM. eapply (wp_foldM ok _ _ _ _ (fun done _ b => I done b)); [done| |by intros [] ?].
  intros done x rest [] b' Hl HI. eapply wp_mono; [by eapply Hstep|]. done.
Qed.

(** A loop that puts the entries of a map one by one. *)
Lemma wp_forM_map {K V W} `{Countable K} (l : list (K * V)) (lk : K -> option V) (f : K * V -> M B E unit) (R : gmap K W -> B -> Prop)
    (u : V -> option W) X Z b :
  (forall k v, (k, v) ∈ l <-> lk k = Some v) ->
  (forall Y k v b, lk k = Some v -> R Y b -> wp ok (f (k, v)) (fun _ => R (partial_alter (fun _ => u v) k Y)) b) ->
  (forall k, Z !! k = match lk k with Some v => u v | None => X !! k end) ->
  R X b -> wp ok (forM l f) (fun _ => R Z) b.
Proof.
  intros Hl Hf HZ HX.
  eapply wp_mono; [apply (wp_forM l f (fun done b => exists Y, R Y b /\ forall k, Y !! k = if decide (k ∈ done.*1) then Z !! k else X !! k))|].
  - exists X. split; [done|]. intros k. by rewrite decide_False by apply not_elem_of_nil.
  - intros done [k v] rest b' Heq (Y & HY & HYk). assert (lk k = Some v) as Hk by (apply Hl; rewrite Heq, elem_of_app, elem_of_cons; tauto).
    eapply wp_mono; [by eapply Hf|]. intros [] b2 HR. eexists. split; [exact HR|]. intros k'. rewrite fmap_app. cbn.
    destruct (decide (k' = k)) as [Hkk|Hne].
    + rewrite Hkk, lookup_partial_alter_eq, decide_True by set_solver. by rewrite HZ, Hk.
    + rewrite lookup_partial_alter_ne, HYk by done. by destruct (decide (k' ∈ done.*1)), (decide (k' ∈ done.*1 ++ [k])); try done; set_solver.
  - cbn. intros [] b' (Y & HY & HYk). assert (Y = Z) as <-; [|done]. apply map_eq. intros k. rewrite HYk. case_decide as Hk; [done|].
    rewrite HZ. destruct (lk k) as [v|] eqn:Hv; [|done]. destruct Hk. apply list_elem_of_fmap. exists (k, v). by rewrite Hl.
Qed.
End forM.

Lemma wp_weaken {St E A} (ok ok' : E -> Prop) (m : M St E A) Q s :
  (forall e, ok e -> ok' e) -> wp ok m Q s -> wp ok' m Q s.
Proof. unfold wp. intros Hok. destruct (m s) as [s' [a|e]]; auto. Qed.

Lemma wp_zoom {St T E A} (ok : E -> Prop) (g : T -> St) (p : St -> T -> T) (m : M St E A) Q t :
  wp ok m (fun a s => Q a (p s t)) (g t) -> wp ok (zoom g p m) Q t.
Proof. unfold wp, zoom. by destruct (m (g t)) as [s' [a|e]]. Qed.

Lemma wp_total {St E A} (m : M St E A) Q s :
  wp never m Q s -> exists a s', m s = (s', Ok a) /\ Q a s'.
Proof. unfold wp. destruct (m s) as [s' [a|e]]; [eauto|done]. Qed.

(** Walks through the binds and the state accesses of a computation. *)
Ltac wp_step :=
  lazymatch goal with
  | |- wp _ (mbind _ _) _ _ => apply wp_bind
  | |- wp _ (mret _) _ _ => apply wp_ret
  | |- wp _ get _ _ => apply wp_get
  | |- wp _ (modify _) _ _ => apply wp_modify
  | |- wp _ (fail _) _ _ => apply wp_fail
  | |- wp _ (lift _) _ _ => apply wp_lift
  end.
Ltac wp_steps := repeat (wp_step; cbn beta).
