(* ===== verification/Bag.v ===== *)
(** * Multisets

    Models [avalanchego/utils/bag/bag.go].  A bag counts how often each element
    was added; polls are bags of block identifiers.  Go's nil map and its empty
    map are indistinguishable through this interface, so [init] has no
    counterpart, and every loop over [b.counts] is a [map_fold]: the theorems
    hold for every iteration order because they characterise the result. *)

From S2P Require Import Prelude.

Module Bag.

Record Bag (T : Type) `{Countable T} := mkBag {
  counts : gmap T Z;
  size : Z;
  threshold : Z;
  metThreshold : gset T;
}.
Arguments mkBag {T _ _} _ _ _ _.
Arguments counts {T _ _} _.
Arguments size {T _ _} _.
Arguments threshold {T _ _} _.
Arguments metThreshold {T _ _} _.

Section ops.
Context `{Countable T}.
Implicit Types b : Bag T.

(** The zero value [Bag[T]{}]. *)
Definition empty : Bag T := mkBag ∅ 0 0 ∅.

Definition Count (b : Bag T) (elt : T) : Z := default 0 (counts b !! elt).

Definition Len (b : Bag T) : Z := size b.

Definition AddCount (b : Bag T) (elt : T) (count : Z) : Bag T :=
  if count <=? 0 then b
  else
    let totalCount := default 0 (counts b !! elt) + count in
    mkBag (<[elt := totalCount]> (counts b)) (size b + count) (threshold b)
      (if threshold b <=? totalCount
       then {[elt]} ∪ metThreshold b else metThreshold b).

Definition Add (b : Bag T) (elts : list T) : Bag T :=
  foldl (fun acc elt => AddCount acc elt 1) b elts.

Definition Of (elts : list T) : Bag T := Add empty elts.

Definition SetThreshold (b : Bag T) (t : Z) : Bag T :=
  if threshold b =? t then b
  else mkBag (counts b) (size b) t
    (map_fold (fun vote count met => if t <=? count then {[vote]} ∪ met else met)
       ∅ (counts b)).

Definition List (b : Bag T) : list T := (map_to_list (counts b)).*1.

Definition Equals (b other : Bag T) : bool :=
  (size b =? size other) && bool_decide (counts b = counts other).

(** The loop of [Mode]; [order] is the order in which the runtime iterates
    over the map and [zero] the zero value of [T]. *)
Fixpoint Mode_loop (order : list (T * Z)) (mode : T) (modeFreq : Z) : T * Z :=
  match order with
  | [] => (mode, modeFreq)
  | (elt, count) :: rest =>
      if modeFreq <? count then Mode_loop rest elt count
      else Mode_loop rest mode modeFreq
  end.

Definition Mode (zero : T) (order : list (T * Z)) : T * Z :=
  Mode_loop order zero 0.

Definition Threshold (b : Bag T) : gset T := metThreshold b.

Definition Filter (b : Bag T) (filterFunc : T -> bool) : Bag T :=
  map_fold (fun vote count newBag =>
    if filterFunc vote then AddCount newBag vote count else newBag)
    empty (counts b).

(** [Split] returns the pair of the bags at index 0 and 1. *)
Definition Split (b : Bag T) (splitFunc : T -> bool) : Bag T * Bag T :=
  map_fold (fun vote count '(b0, b1) =>
    if splitFunc vote then (b0, AddCount b1 vote count)
    else (AddCount b0 vote count, b1))
    (empty, empty) (counts b).

Definition Remove (b : Bag T) (elt : T) : Bag T :=
  let count := default 0 (counts b !! elt) in
  mkBag (delete elt (counts b)) (size b - count) (threshold b) (metThreshold b).

Definition Clone (b : Bag T) : Bag T :=
  map_fold (fun id count clone => AddCount clone id count) empty (counts b).
End ops.

#[global] Arguments AddCount : simpl never.

(** ** Invariants *)
Section theory.
Context `{Countable T}.
Implicit Types (b : Bag T) (f : T -> bool).

(** Counts are positive and [size] is their sum. *)
Record wf (b : Bag T) : Prop := {
  wf_pos : mpos (counts b);
  wf_size : size b = msum (counts b);
}.

(** The threshold set holds exactly the elements counted often enough. *)
Definition met_ok (b : Bag T) : Prop :=
  forall x, x ∈ metThreshold b <->
    exists c, counts b !! x = Some c /\ threshold b <= c.

Lemma empty_wf : wf empty.
Proof. split; cbn; [apply map_Forall_empty|done]. Qed.

Lemma empty_met_ok : met_ok empty.
Proof. intros x; cbn. set_solver. Qed.

Lemma AddCount_nop b x c : c <= 0 -> AddCount b x c = b.
Proof. intros. unfold AddCount. zcase; (done || lia). Qed.

Lemma Count_AddCount b x c y :
  Count (AddCount b x c) y = Count b y + (if decide (x = y) then Z.max 0 c else 0).
Proof.
  unfold Count, AddCount. zcase; cbn; rewrite ?lookup_insert; repeat case_decide;
    subst; cbn; lia.
Qed.

Lemma Len_AddCount b x c : Len (AddCount b x c) = Len b + Z.max 0 c.
Proof. unfold Len, AddCount. zcase; cbn; lia. Qed.

Lemma wf_count_nonneg b x : wf b -> 0 <= Count b x.
Proof.
  intros [Hp _]. unfold Count. destruct (counts b !! x) eqn:E; cbn; [|lia].
  apply Hp in E. lia.
Qed.

Lemma AddCount_wf b x c : wf b -> wf (AddCount b x c).
Proof.
  intros Hw. pose proof (wf_count_nonneg b x Hw) as Hc.
  destruct Hw as [Hp Hs]. unfold AddCount, Count in *.
  destruct (Z.leb_spec c 0); [by split|]. split; cbn.
  - apply map_Forall_insert_2; [lia|done].
  - rewrite msum_insert, Hs. lia.
Qed.

Lemma AddCount_met_ok b x c : wf b -> met_ok b -> met_ok (AddCount b x c).
Proof.
  intros Hw Hm y. pose proof (wf_count_nonneg b x Hw) as Hc.
  unfold AddCount, Count in *. destruct (Z.leb_spec c 0); [apply Hm|]. cbn.
  rewrite lookup_insert. specialize (Hm y). case_decide; subst; zcase.
  - set_solver by eauto with lia.
  - rewrite Hm. split; [|intros (? & [= <-] & ?); lia].
    intros (d & Hd & ?). rewrite Hd in *. cbn in *. eexists; split; [done|lia].
  - rewrite elem_of_union, Hm. set_solver.
  - apply Hm.
Qed.

Lemma Add_wf b l : wf b -> wf (Add b l).
Proof.
  unfold Add. revert b. induction l as [|x l IH]; intros b Hb; cbn; [done|].
  by apply IH, AddCount_wf.
Qed.

Lemma SetThreshold_met_ok b t : met_ok b -> met_ok (SetThreshold b t).
Proof.
  intros Hm. unfold SetThreshold. destruct (Z.eqb_spec (threshold b) t); [done|].
  intros x; cbn. clear Hm.
  apply (map_fold_weak_ind (fun met (m : gmap T Z) =>
    x ∈ met <-> exists c, m !! x = Some c /\ t <= c)); [set_solver|].
  intros i c m r Hi IH. rewrite lookup_insert. case_decide; subst.
  - rewrite Hi in IH. zcase; set_solver by eauto with lia.
  - zcase; set_solver.
Qed.

Lemma SetThreshold_wf b t : wf b -> wf (SetThreshold b t).
Proof. intros [? ?]. unfold SetThreshold. zcase; by split. Qed.

(** *** Filter and Split *)
Lemma Count_counts b1 b2 :
  wf b1 -> wf b2 -> (forall x, Count b1 x = Count b2 x) -> counts b1 = counts b2.
Proof.
  intros [H1 _] [H2 _] Heq. apply map_eq. intros x. specialize (Heq x).
  unfold Count in Heq. unfold mpos, map_Forall in *.
  specialize (H1 x). specialize (H2 x).
  destruct (counts b1 !! x) as [c|], (counts b2 !! x) as [d|]; cbn in *; subst;
    try done; exfalso; [specialize (H1 _ eq_refl)|specialize (H2 _ eq_refl)]; lia.
Qed.

Lemma Filter_spec b f :
  wf b ->
  wf (Filter b f) /\
  forall x, Count (Filter b f) x = if f x then Count b x else 0.
Proof.
  intros [Hp _]. unfold Filter, mpos in *.
  assert (forall x, Count b x = default 0 (counts b !! x)) as HE by done.
  setoid_rewrite HE. clear HE. revert Hp. apply (map_fold_weak_ind (fun r (m : gmap T Z) =>
    map_Forall (fun _ c => 0 < c) m -> wf r /\
    forall x, Count r x = if f x then default 0 (m !! x) else 0)).
  - intros _. split; [apply empty_wf|]. intros x. rewrite lookup_empty.
    unfold Count; cbn. by destruct (f x).
  - intros i c m r Hi IH Hm. apply map_Forall_insert in Hm as [Hc Hm]; [|done].
    destruct (IH Hm) as [Hr HC]. split.
    + destruct (f i); [by apply AddCount_wf|done].
    + intros x. rewrite lookup_insert. destruct (f i) eqn:Ei.
      * rewrite Count_AddCount, HC. case_decide; subst; [|destruct (f x); lia].
        rewrite Ei, Hi; cbn. lia.
      * rewrite HC. case_decide; subst; [by rewrite Ei|done].
Qed.

Lemma Split_Filter b f :
  Split b f = (Filter b (fun x => negb (f x)), Filter b f).
Proof.
  unfold Split, Filter. rewrite !map_fold_foldr.
  induction (map_to_list (counts b)) as [|[x c] l IH]; cbn; [done|].
  rewrite IH. by destruct (f x).
Qed.

Lemma Clone_spec b : wf b -> wf (Clone b) /\ counts (Clone b) = counts b.
Proof.
  intros Hw. assert (Clone b = Filter b (fun _ => true)) as -> by done.
  destruct (Filter_spec b (fun _ => true) Hw) as [Hf HC]. split; [done|].
  apply Count_counts; [done..|]. intros x. by rewrite HC.
Qed.

Lemma Len_filter_split b f :
  wf b -> Len b = Len (Filter b (fun x => negb (f x))) + Len (Filter b f).
Proof.
  intros [Hp Hs]. unfold Len. rewrite Hs. clear Hs.
  assert (Split b f = (Filter b (fun x => negb (f x)), Filter b f)) as HS
    by apply Split_Filter.
  assert (forall b0 b1, Split b f = (b0, b1) -> msum (counts b) = size b0 + size b1)
    as HL; [|by rewrite (HL _ _ HS)].
  clear HS. unfold Split. revert Hp.
  apply (map_fold_weak_ind (fun r (m : gmap T Z) => mpos m ->
    forall b0 b1, r = (b0, b1) -> msum m = size b0 + size b1)).
  - intros _ ? ? [= <- <-]. by rewrite msum_empty.
  - intros i c m [r0 r1] Hi IH Hm b0 b1 E.
    apply map_Forall_insert in Hm as [Hc Hm]; [|done].
    rewrite msum_insert_None, (IH Hm r0 r1) by done.
    destruct (f i); injection E as <- <-; pose proof (Len_AddCount r0 i c);
      pose proof (Len_AddCount r1 i c); unfold Len in *; lia.
Qed.

(** *** Mode *)
Lemma Mode_loop_spec (l : list (T * Z)) m fr : 0 <= fr ->
  let r := Mode_loop l m fr in
  fr <= r.2 /\ (r = (m, fr) \/ r ∈ l /\ fr < r.2) /\ (forall x c, (x, c) ∈ l -> c <= r.2).
Proof.
  revert m fr. induction l as [|[x c] l IH]; intros m fr Hfr; cbn.
  { repeat split; [lia|by left|set_solver]. }
  destruct (Z.ltb_spec fr c).
  - destruct (IH x c ltac:(lia)) as (H1 & H2 & H3). split; [lia|]. split.
    + right. destruct H2 as [->|[? ?]]; cbn; split; try lia; set_solver.
    + intros y d [[= -> ->]|?]%elem_of_cons; eauto.
  - destruct (IH m fr Hfr) as (H1 & H2 & H3). split; [lia|]. split.
    + destruct H2 as [?|[? ?]]; [by left|right]; split; [set_solver|done].
    + intros y d [[= -> ->]|?]%elem_of_cons; [lia|eauto].
Qed.

(** Whatever the iteration order, [Mode] returns an element with the largest
    count, and the zero value with count 0 exactly for the empty bag. *)
Lemma Mode_spec b (zero : T) order : wf b -> order ≡ₚ map_to_list (counts b) ->
  (forall x, Count b x <= (Mode zero order).2) /\
  (Count b (Mode zero order).1 = (Mode zero order).2 \/
   (counts b = ∅ /\ Mode zero order = (zero, 0))).
Proof.
  intros [Hp _] Ho. unfold Mode.
  destruct (Mode_loop_spec order zero 0 ltac:(lia)) as (H1 & H2 & H3). split.
  - intros x. unfold Count. destruct (counts b !! x) eqn:E; cbn; [|lia].
    apply (H3 x). rewrite Ho. by apply elem_of_map_to_list.
  - destruct H2 as [E|[Hin Hlt]].
    + destruct (map_choose_or_empty (counts b)) as [(x & c & Hx)|?]; [|by right].
      rewrite E in H3. specialize (H3 x c). apply Hp in Hx as ?. cbn in *.
      exfalso. enough (c <= 0) by lia. apply H3. rewrite Ho.
      by apply elem_of_map_to_list.
    + left. destruct (Mode_loop order zero 0) as [x c]. rewrite Ho in Hin.
      apply elem_of_map_to_list in Hin. unfold Count. cbn. by rewrite Hin.
Qed.

Lemma Mode_zero_nonneg (zero : T) order : 0 <= (Mode zero order).2.
Proof. apply (Mode_loop_spec order zero 0). lia. Qed.

Lemma Remove_wf b x : wf b -> wf (Remove b x) /\ Count (Remove b x) x = 0.
Proof.
  intros [Hp Hs]. split; [split|]; cbn.
  - by apply map_Forall_delete.
  - rewrite Hs, msum_delete_default. done.
  - unfold Count; cbn. by rewrite lookup_delete_eq.
Qed.
End theory.

(** The bag a poll is filtered or split into: [Filter] keeps the counts of the
    accepted elements, [Split] partitions the bag, no vote is lost or counted
    twice, and the results are again well formed. *)
Theorem Filter_Split_correct `{Countable T} (b : Bag T) (f : T -> bool) :
  wf b ->
  let s := Split b f in
  (forall x, Count (Filter b f) x = if f x then Count b x else 0) /\
  (forall x, Count s.1 x = (if f x then 0 else Count b x) /\
             Count s.2 x = (if f x then Count b x else 0)) /\
  Len s.1 + Len s.2 = Len b /\ wf (Filter b f) /\ wf s.1 /\ wf s.2.
Proof.
  intros Hw. cbn zeta. rewrite Split_Filter. cbn [fst snd].
  destruct (Filter_spec b f Hw) as [W1 C1].
  destruct (Filter_spec b (fun x => negb (f x)) Hw) as [W0 C0].
  split_and!; try done; [|by rewrite (Len_filter_split b f)].
  intros x. rewrite C0, C1. by destruct (f x).
Qed.

Lemma Filter_Split_correct_witness :
  let b := Of [1; 2; 2; 3; 3; 3] in
  Len (Split b Z.odd).1 + Len (Split b Z.odd).2 = Len b /\ Len (Split b Z.odd).2 = 4.
Proof.
  split; [|vm_compute; reflexivity].
  apply (Filter_Split_correct (Of [1; 2; 2; 3; 3; 3]) Z.odd), Add_wf, empty_wf.
Defined.

(** Whatever order the runtime iterates in, [Mode] returns a most frequent
    element together with its count; the zero value with count 0 exactly for an
    empty bag. *)
Theorem Mode_correct `{Countable T} (b : Bag T) (zero : T) (order : list (T * Z)) :
  wf b -> order ≡ₚ map_to_list (counts b) ->
  (forall x, Count b x <= (Mode zero order).2) /\
  (Count b (Mode zero order).1 = (Mode zero order).2 \/
   (counts b = ∅ /\ Mode zero order = (zero, 0))).
Proof. apply Mode_spec. Qed.

Lemma Mode_correct_witness :
  Count (Of [1; 2; 2]) 2 <= (Mode 0 [(2, 2); (1, 1)]).2.
Proof.
  apply (Mode_correct (Of [1; 2; 2]) 0 [(2, 2); (1, 1)]).
  - apply Add_wf, empty_wf.
  - vm_compute. first [reflexivity | apply perm_swap].
Defined.

#[export] Hint Resolve empty_wf AddCount_wf Add_wf : go.

End Bag.
