(* ===== verification/Bits.v ===== *)
(** * Identifiers and their bits

    Models [ids.ID] and its bit access ([avalanchego/ids/id.go], [Bit]) and the
    masked comparisons of [avalanchego/ids/bits.go].  An
    identifier is its list of 32 bytes, a byte a [Z] below 256. *)

From S2P Require Import Prelude.

Module Bits.

Definition NumBits : Z := 256.
Definition BitsPerByte : Z := 8.

Definition ID : Type := list Z.

Definition wf_id (id : ID) : Prop :=
  length id = 32%nat /\ Forall (fun b => is_uint 8 b) id.

(** Array access; every index the code uses is in range. *)
Definition byte_at (id : ID) (i : Z) : Z := nth (Z.to_nat i) id 0.

(** [id[lo:hi]] *)
Definition slice (id : ID) (lo hi : Z) : list Z :=
  take (Z.to_nat (hi - lo)) (drop (Z.to_nat lo) id).

Definition Bit (id : ID) (i : Z) : Z :=
  let byteIndex := i / BitsPerByte in
  let bitIndex := i mod BitsPerByte in
  Z.land (Z.shiftr (byte_at id byteIndex) bitIndex) 1.

Definition EqualSubset (start stop : Z) (id1 id2 : ID) : bool :=
  let stop := stop - 1 in
  if (stop <? start) || (stop <? 0) then true
  else if NumBits <=? stop then false
  else
    let startIndex := start / BitsPerByte in
    let stopIndex := stop / BitsPerByte in
    if (startIndex + 1 <? stopIndex) &&
       negb (bool_decide (slice id1 (startIndex + 1) stopIndex =
                          slice id2 (startIndex + 1) stopIndex))
    then false
    else
      let startBit := start mod BitsPerByte in
      let stopBit := stop mod BitsPerByte in
      let startMask := Z.shiftl (-1) startBit in
      let stopMask := Z.shiftl 1 (stopBit + 1) - 1 in
      if startIndex =? stopIndex then
        let mask := Z.land startMask stopMask in
        let b1 := Z.land mask (byte_at id1 startIndex) in
        let b2 := Z.land mask (byte_at id2 startIndex) in
        b1 =? b2
      else
        let start1 := Z.land startMask (byte_at id1 startIndex) in
        let start2 := Z.land startMask (byte_at id2 startIndex) in
        let stop1 := Z.land stopMask (byte_at id1 stopIndex) in
        let stop2 := Z.land stopMask (byte_at id2 stopIndex) in
        (start1 =? start2) && (stop1 =? stop2).

(** Go's [bits.TrailingZeros8]: the index of the lowest set bit, 8 for 0. *)
Fixpoint trailing_zeros (n : nat) (i x : Z) : Z :=
  match n with
  | O => i
  | S n => if Z.testbit x i then i else trailing_zeros n (i + 1) x
  end.

Definition TrailingZeros8 (x : Z) : Z := trailing_zeros 8 0 x.

(** The loop over the interior bytes, [n] of them from index [i]. *)
Fixpoint first_diff_byte (n : nat) (i : Z) (id1 id2 : ID) : option Z :=
  match n with
  | O => None
  | S n =>
      let b1 := byte_at id1 i in
      let b2 := byte_at id2 i in
      if b1 =? b2 then first_diff_byte n (i + 1) id1 id2
      else Some (TrailingZeros8 (wrap 8 (Z.lxor b1 b2)) + i * BitsPerByte)
  end.

(** [None] is the Go result [(0, false)]. *)
Definition FirstDifferenceSubset (start stop : Z) (id1 id2 : ID) : option Z :=
  let stop := stop - 1 in
  if (stop <? start) || (stop <? 0) || (NumBits <=? stop) then None
  else
    let startIndex := start / BitsPerByte in
    let stopIndex := stop / BitsPerByte in
    let startBit := start mod BitsPerByte in
    let stopBit := stop mod BitsPerByte in
    let startMask := Z.shiftl (-1) startBit in
    let stopMask := Z.shiftl 1 (stopBit + 1) - 1 in
    if startIndex =? stopIndex then
      let mask := Z.land startMask stopMask in
      let b1 := Z.land mask (byte_at id1 startIndex) in
      let b2 := Z.land mask (byte_at id2 startIndex) in
      if b1 =? b2 then None
      else Some (TrailingZeros8 (wrap 8 (Z.lxor b1 b2)) + startIndex * BitsPerByte)
    else
      let start1 := Z.land startMask (byte_at id1 startIndex) in
      let start2 := Z.land startMask (byte_at id2 startIndex) in
      if negb (start1 =? start2) then
        Some (TrailingZeros8 (wrap 8 (Z.lxor start1 start2)) + startIndex * BitsPerByte)
      else
        match first_diff_byte (Z.to_nat (stopIndex - (startIndex + 1)))
                (startIndex + 1) id1 id2 with
        | Some d => Some d
        | None =>
            let stop1 := Z.land stopMask (byte_at id1 stopIndex) in
            let stop2 := Z.land stopMask (byte_at id2 stopIndex) in
            if negb (stop1 =? stop2) then
              Some (TrailingZeros8 (wrap 8 (Z.lxor stop1 stop2)) + stopIndex * BitsPerByte)
            else None
        end.

(** ** Bit-level specification *)

(** Bit [i] of an identifier: least significant bit of byte 0 first. *)
Definition bit (id : ID) (i : Z) : bool :=
  Z.testbit (byte_at id (i / 8)) (i mod 8).

(** The two identifiers agree on the bits [lo <= i < hi]. *)
Definition agree (lo hi : Z) (id1 id2 : ID) : Prop :=
  forall i, lo <= i < hi -> bit id1 i = bit id2 i.

Lemma Bit_bit id i : Bit id i = Z.b2z (bit id i).
Proof.
  unfold Bit, bit. change BitsPerByte with 8.
  rewrite (Z.land_ones _ 1) by lia. rewrite <- Z.bit0_mod, Z.shiftr_spec by lia.
  done.
Qed.

Lemma agree_refl lo hi id : agree lo hi id id.
Proof. by intros i. Qed.
Lemma agree_sym lo hi a b : agree lo hi a b -> agree lo hi b a.
Proof. intros Hab i Hi. symmetry. by apply Hab. Qed.
Lemma agree_trans lo hi a b c : agree lo hi a b -> agree lo hi b c -> agree lo hi a c.
Proof. intros Hab Hbc i Hi. rewrite Hab by done. by apply Hbc. Qed.
Lemma agree_weaken lo hi lo' hi' a b :
  lo <= lo' -> hi' <= hi -> agree lo hi a b -> agree lo' hi' a b.
Proof. intros ? ? Hab i Hi. apply Hab. lia. Qed.
Lemma agree_split lo mid hi a b :
  agree lo mid a b -> agree mid hi a b -> agree lo hi a b.
Proof. intros H1 H2 i Hi. destruct (Z.lt_ge_cases i mid); [apply H1|apply H2]; lia. Qed.
Lemma agree_step lo hi a b :
  agree lo hi a b -> bit a hi = bit b hi -> agree lo (hi + 1) a b.
Proof.
  intros Hab ? i Hi. destruct (decide (i = hi)) as [->|]; [done|]. apply Hab. lia.
Qed.

(** *** Bytes *)
Section bytes.
Context (a b : Z) (Ha : is_uint 8 a) (Hb : is_uint 8 b).

Lemma byte_high x j : is_uint 8 x -> 8 <= j -> Z.testbit x j = false.
Proof.
  intros [? ?] ?. apply Z.bits_above_log2; [lia|].
  destruct (decide (x = 0)) as [->|]; [cbn; lia|].
  apply Z.log2_lt_pow2; [lia|]. pose proof (Z.pow_le_mono_r 2 8 j). lia.
Qed.

(** Masked bytes are equal exactly when the bytes agree where the mask is set. *)
Lemma masked_eq M :
  Z.land M a = Z.land M b <->
  forall j, 0 <= j < 8 -> Z.testbit M j = true -> Z.testbit a j = Z.testbit b j.
Proof.
  split.
  - intros E j Hj HM. apply (f_equal (fun z => Z.testbit z j)) in E.
    by rewrite !Z.land_spec, HM in E.
  - intros E. apply Z.bits_inj'. intros j Hj. rewrite !Z.land_spec.
    destruct (Z.testbit M j) eqn:HM; cbn; [|done].
    destruct (Z.lt_ge_cases j 8); [apply E; [lia|done]|].
    by rewrite !byte_high.
Qed.

Lemma masked_diff_bit M j : 0 <= j < 8 ->
  Z.testbit (wrap 8 (Z.lxor (Z.land M a) (Z.land M b))) j =
  Z.testbit M j && xorb (Z.testbit a j) (Z.testbit b j).
Proof.
  intros Hj. unfold wrap. rewrite Z.mod_pow2_bits_low by lia.
  rewrite Z.lxor_spec, !Z.land_spec. by destruct (Z.testbit M j).
Qed.
End bytes.

Lemma trailing_zeros_spec n i x :
  let t := trailing_zeros n i x in
  i <= t <= i + Z.of_nat n /\ (forall j, i <= j < t -> Z.testbit x j = false) /\
  (t < i + Z.of_nat n -> Z.testbit x t = true).
Proof.
  revert i. induction n as [|n IH]; intros i; cbn -[Z.testbit Z.add].
  - repeat split; intros; lia.
  - destruct (Z.testbit x i) eqn:E.
    + repeat split; try lia. done.
    + destruct (IH (i + 1)) as (H1 & H2 & H3). repeat split; try lia.
      * intros j Hj. destruct (decide (j = i)) as [->|]; [done|]. apply H2. lia.
      * intros. apply H3. lia.
Qed.

(** The first differing bit of two masked bytes. *)
Lemma masked_diff_spec a b M :
  is_uint 8 a -> is_uint 8 b -> Z.land M a <> Z.land M b ->
  let t := TrailingZeros8 (wrap 8 (Z.lxor (Z.land M a) (Z.land M b))) in
  0 <= t < 8 /\ Z.testbit M t = true /\ Z.testbit a t <> Z.testbit b t /\
  forall j, 0 <= j < t -> Z.testbit M j = true -> Z.testbit a j = Z.testbit b j.
Proof.
  intros Ha Hb Hne. unfold TrailingZeros8.
  set (x := wrap 8 _). destruct (trailing_zeros_spec 8 0 x) as (H1 & H2 & H3).
  set (t := trailing_zeros 8 0 x) in *. cbn zeta.
  assert (forall j, 0 <= j < t -> j < 8 -> Z.testbit M j = true ->
    Z.testbit a j = Z.testbit b j) as Hlow.
  { intros j Hj ? HM. specialize (H2 j ltac:(lia)). unfold x in H2.
    rewrite masked_diff_bit, HM in H2 by lia.
    by destruct (Z.testbit a j), (Z.testbit b j). }
  destruct (decide (t < 8)) as [Ht|].
  - specialize (H3 ltac:(lia)). unfold x in H3. rewrite masked_diff_bit in H3 by lia.
    apply andb_true_iff in H3 as [HM Hx]. split; [lia|]. split; [done|].
    split; [by destruct (Z.testbit a t), (Z.testbit b t)|].
    intros. apply Hlow; [lia|lia|done].
  - exfalso. apply Hne, masked_eq; [done..|]. intros. apply Hlow; [lia|lia|done].
Qed.

Lemma startMask_bit s j : 0 <= s -> 0 <= j ->
  Z.testbit (Z.shiftl (-1) s) j = (s <=? j).
Proof.
  intros. rewrite Z.shiftl_spec by lia. zcase.
  - apply Z.bits_m1. lia.
  - apply Z.testbit_neg_r. lia.
Qed.

Lemma stopMask_bit e j : 0 <= e -> 0 <= j ->
  Z.testbit (Z.shiftl 1 (e + 1) - 1) j = (j <=? e).
Proof.
  intros. rewrite Z.shiftl_1_l, Z.sub_1_r, <- Z.ones_equiv.
  rewrite Z.testbit_ones_nonneg by lia. zcase; lia.
Qed.

Lemma byte_at_wf id i : wf_id id -> is_uint 8 (byte_at id i).
Proof.
  intros [_ Hf]. unfold byte_at.
  destruct (nth_in_or_default (Z.to_nat i) id 0) as [Hin| ->]; [|unfold is_uint; lia].
  rewrite Forall_forall in Hf. apply Hf, list_elem_of_In. exact Hin.
Qed.

(** Agreement on a range of bits, byte by byte. *)
Lemma agree_bytes lo hi id1 id2 : 0 <= lo ->
  agree lo hi id1 id2 <->
  forall k j, 0 <= j < 8 -> lo <= k * 8 + j < hi ->
    Z.testbit (byte_at id1 k) j = Z.testbit (byte_at id2 k) j.
Proof.
  intros Hlo. split.
  - intros Ha k j Hj Hr. specialize (Ha (k * 8 + j) Hr). unfold bit in Ha.
    replace ((k * 8 + j) / 8) with k in Ha by dlia.
    replace ((k * 8 + j) mod 8) with j in Ha by dlia. done.
  - intros Hb i Hi. unfold bit. apply Hb; dlia.
Qed.

Lemma byte_eq_bits a b : is_uint 8 a -> is_uint 8 b ->
  a = b <-> forall j, 0 <= j < 8 -> Z.testbit a j = Z.testbit b j.
Proof.
  intros Ha Hb. pose proof (masked_eq a b Ha Hb (-1)) as HM.
  rewrite !Z.land_m1_l in HM. rewrite HM. split; intros Hj j ?; [|intros _]; apply Hj; try done.
  apply Z.bits_m1. lia.
Qed.

Lemma slice_eq id1 id2 lo hi : wf_id id1 -> wf_id id2 ->
  0 <= lo -> lo <= hi <= 32 ->
  slice id1 lo hi = slice id2 lo hi <->
  forall k, lo <= k < hi -> byte_at id1 k = byte_at id2 k.
Proof.
  intros [L1 _] [L2 _] Hlo Hhi. unfold slice, byte_at. split.
  - intros E k Hk.
    apply (f_equal (fun l => nth (Z.to_nat (k - lo)) l 0)) in E.
    rewrite !nth_lookup, !lookup_take_lt, !lookup_drop in E by lia.
    replace (Z.to_nat lo + Z.to_nat (k - lo))%nat with (Z.to_nat k) in E by lia.
    by rewrite !nth_lookup.
  - intros E. apply list_eq. intros i.
    destruct (decide (i < Z.to_nat (hi - lo))%nat) as [Hi|Hi].
    + rewrite !lookup_take_lt, !lookup_drop by lia.
      specialize (E (lo + Z.of_nat i) ltac:(lia)).
      rewrite !nth_lookup in E.
      replace (Z.to_nat (lo + Z.of_nat i)) with (Z.to_nat lo + i)%nat in E by lia.
      destruct (lookup_lt_is_Some_2 id1 (Z.to_nat lo + i)) as [x Hx]; [lia|].
      destruct (lookup_lt_is_Some_2 id2 (Z.to_nat lo + i)) as [y Hy]; [lia|].
      rewrite Hx, Hy in *. cbn in E. by subst.
    + by rewrite !lookup_take_ge by lia.
Qed.

(** *** The masked comparisons of [EqualSubset] and [FirstDifferenceSubset] *)
Section ids.
Context (id1 id2 : ID) (W1 : wf_id id1) (W2 : wf_id id2).

Notation B1 k := (byte_at id1 k).
Notation B2 k := (byte_at id2 k).

(** Equality under a mask that selects the bits [P]. *)
Lemma byte_masked_eq M k (P : Z -> bool) :
  (forall j, 0 <= j < 8 -> Z.testbit M j = P j) ->
  Z.land M (B1 k) = Z.land M (B2 k) <->
  forall j, 0 <= j < 8 -> P j = true -> Z.testbit (B1 k) j = Z.testbit (B2 k) j.
Proof.
  intros HP. rewrite masked_eq by (by apply byte_at_wf).
  split; intros Hm j Hj Hp; apply Hm; try done; by rewrite ?HP in *.
Qed.

Lemma byte_masked_diff M k (P : Z -> bool) (lo hi : Z) :
  (forall j, 0 <= j < 8 -> Z.testbit M j = P j) ->
  (forall j, 0 <= j < 8 -> P j = true <-> lo <= k * 8 + j < hi) ->
  0 <= lo -> Z.land M (B1 k) <> Z.land M (B2 k) ->
  (forall k' j, 0 <= j < 8 -> k' < k -> lo <= k' * 8 + j < hi ->
     Z.testbit (B1 k') j = Z.testbit (B2 k') j) ->
  let d := TrailingZeros8 (wrap 8 (Z.lxor (Z.land M (B1 k)) (Z.land M (B2 k)))) + k * 8 in
  lo <= d < hi /\ agree lo d id1 id2 /\ bit id1 d <> bit id2 d.
Proof.
  intros HM HP Hlo Hne Hbelow.
  destruct (masked_diff_spec (B1 k) (B2 k) M) as (Ht & HMt & Hd & Hlow);
    [by apply byte_at_wf..|done|].
  set (t := TrailingZeros8 _) in *. cbn zeta.
  pose proof HMt as HPt. rewrite HM in HPt by lia. apply HP in HPt; [|lia].
  split; [lia|]. split.
  - apply agree_bytes; [done|]. intros k' j Hj Hr.
    destruct (decide (k' = k)) as [->|].
    + apply Hlow; [lia|]. rewrite HM by lia. apply HP; lia.
    + apply Hbelow; lia.
  - unfold bit. replace ((t + k * 8) / 8) with k by dlia.
    replace ((t + k * 8) mod 8) with t by dlia. done.
Qed.

(** The range [start, stop) in bytes: first byte [ks] from bit [bs], last
    byte [ke] up to bit [be]. *)
Section range.
Context (start stop ks ke bs be : Z).
Context (Hstart : start = ks * 8 + bs) (Hbs : 0 <= bs < 8).
Context (Hstop : stop - 1 = ke * 8 + be) (Hbe : 0 <= be < 8).
Context (Hpos : 0 <= ks) (Hlt : start < stop).

Local Notation startMask := (Z.shiftl (-1) bs).
Local Notation stopMask := (Z.shiftl 1 (be + 1) - 1).
Local Notation eqbyte P k := (forall j, 0 <= j < 8 -> P j = true ->
  Z.testbit (B1 k) j = Z.testbit (B2 k) j).

Lemma both_eq : Z.land (Z.land startMask stopMask) (B1 ks) =
                Z.land (Z.land startMask stopMask) (B2 ks) <->
                eqbyte (fun j => (bs <=? j) && (j <=? be)) ks.
Proof.
  apply byte_masked_eq. intros.
  by rewrite Z.land_spec, startMask_bit, stopMask_bit by lia.
Qed.

Lemma start_eq : Z.land startMask (B1 ks) = Z.land startMask (B2 ks) <->
                 eqbyte (fun j => bs <=? j) ks.
Proof. apply byte_masked_eq. intros. apply startMask_bit; lia. Qed.

Lemma stop_eq : Z.land stopMask (B1 ke) = Z.land stopMask (B2 ke) <->
                eqbyte (fun j => j <=? be) ke.
Proof. apply byte_masked_eq. intros. apply stopMask_bit; lia. Qed.

Lemma agree_one_byte : ks = ke ->
  agree start stop id1 id2 <-> eqbyte (fun j => (bs <=? j) && (j <=? be)) ks.
Proof.
  intros E. rewrite agree_bytes by lia. split.
  - intros Hm j Hj HP. apply Hm; [done|]. zcase; cbn in *; lia.
  - intros Hm k j Hj Hr. assert (k = ks) as -> by lia. apply Hm; [done|].
    zcase; cbn; lia.
Qed.

Lemma agree_many_bytes : ks < ke ->
  agree start stop id1 id2 <->
  (forall k, ks < k < ke -> B1 k = B2 k) /\
  eqbyte (fun j => bs <=? j) ks /\ eqbyte (fun j => j <=? be) ke.
Proof.
  intros E. rewrite agree_bytes by lia. split.
  - intros Ha. split; [|split].
    + intros k Hk. apply byte_eq_bits; [by apply byte_at_wf..|].
      intros j Hj. apply Ha; lia.
    + intros j Hj Hb. apply Ha; [done|]. zcase; lia.
    + intros j Hj Hb. apply Ha; [done|]. zcase; lia.
  - intros (Hm & Hl & Hh) k j Hj Hr.
    destruct (decide (k = ks)) as [->|]; [apply Hl; [done|]; zcase; lia|].
    destruct (decide (k = ke)) as [->|]; [apply Hh; [done|]; zcase; lia|].
    by rewrite Hm by lia.
Qed.
End range.

Lemma EqualSubset_spec start stop : 0 <= start -> stop <= NumBits ->
  EqualSubset start stop id1 id2 = true <-> agree start stop id1 id2.
Proof.
  unfold NumBits. intros Hs He. unfold EqualSubset, NumBits, BitsPerByte.
  destruct (Z.ltb_spec (stop - 1) start); cbn [orb].
  { split; [|done]. intros _ i Hi. lia. }
  destruct (Z.ltb_spec (stop - 1) 0); [lia|]. destruct (Z.leb_spec 256 (stop - 1)); [lia|].
  set (ks := start / 8). set (ke := (stop - 1) / 8).
  set (bs := start mod 8). set (be := (stop - 1) mod 8).
  assert (start = ks * 8 + bs /\ 0 <= bs < 8 /\ 0 <= ks) as (? & ? & ?)
    by (unfold ks, bs; dlia).
  assert (stop - 1 = ke * 8 + be /\ 0 <= be < 8 /\ ke < 32) as (? & ? & ?)
    by (unfold ke, be; dlia).
  destruct (Z.eqb_spec ks ke) as [Ek|Ek].
  - destruct (Z.ltb_spec (ks + 1) ke); [lia|]. cbn [andb]. rewrite Z.eqb_eq.
    by rewrite both_eq, (agree_one_byte start stop ks ke bs be) by lia.
  - rewrite (agree_many_bytes start stop ks ke bs be) by lia.
    rewrite <- start_eq, <- stop_eq, <- !Z.eqb_eq, <- andb_true_iff by lia.
    destruct (Z.ltb_spec (ks + 1) ke); cbn [andb].
    + case_bool_decide as Hsl; rewrite slice_eq in Hsl by (done || lia); cbn [negb].
      * split; [intros ?; split; [|done]; intros; apply Hsl; lia|by intros [_ ?]].
      * split; [done|]. intros [Hm _]. destruct Hsl. intros; apply Hm; lia.
    + split; [intros ?; split; [intros; lia|done]|by intros [_ ?]].
Qed.

(** *** The interior loop *)
Lemma first_diff_byte_spec n i :
  match first_diff_byte n i id1 id2 with
  | None => forall k, i <= k < i + Z.of_nat n -> B1 k = B2 k
  | Some d => exists k, i <= k < i + Z.of_nat n /\ B1 k <> B2 k /\
      (forall k', i <= k' < k -> B1 k' = B2 k') /\
      d = TrailingZeros8 (wrap 8 (Z.lxor (B1 k) (B2 k))) + k * 8
  end.
Proof.
  revert i. induction n as [|n IH]; intros i; cbn -[Z.of_nat].
  { intros; lia. }
  destruct (Z.eqb_spec (B1 i) (B2 i)) as [E|E].
  - specialize (IH (i + 1)). destruct (first_diff_byte n (i + 1) id1 id2) as [d|].
    + destruct IH as (k & ? & ? & Hb & ->). exists k. repeat split; try lia.
      intros k' ?. destruct (decide (k' = i)) as [->|]; [done|]. apply Hb. lia.
    + intros k ?. destruct (decide (k = i)) as [->|]; [done|]. apply IH. lia.
  - exists i. repeat split; try lia.
Qed.

Definition first_difference (start stop : Z) (r : option Z) : Prop :=
  match r with
  | None => agree start stop id1 id2
  | Some d => start <= d < stop /\ agree start d id1 id2 /\ bit id1 d <> bit id2 d
  end.

Lemma FirstDifferenceSubset_spec start stop : 0 <= start -> stop <= NumBits ->
  first_difference start stop (FirstDifferenceSubset start stop id1 id2).
Proof.
  unfold NumBits. intros Hs He. unfold FirstDifferenceSubset, NumBits, BitsPerByte.
  destruct (Z.ltb_spec (stop - 1) start); cbn [orb]; [intros i Hi; lia|].
  destruct (Z.ltb_spec (stop - 1) 0); [lia|]. destruct (Z.leb_spec 256 (stop - 1)); [lia|].
  cbn [orb]. set (ks := start / 8). set (ke := (stop - 1) / 8).
  set (bs := start mod 8). set (be := (stop - 1) mod 8).
  assert (start = ks * 8 + bs /\ 0 <= bs < 8 /\ 0 <= ks) as (? & ? & ?)
    by (unfold ks, bs; dlia).
  assert (stop - 1 = ke * 8 + be /\ 0 <= be < 8 /\ ke < 32) as (? & ? & ?)
    by (unfold ke, be; dlia).
  destruct (Z.eqb_spec ks ke) as [Ek|Ek].
  - case_match eqn:E.
    + rewrite Z.eqb_eq, both_eq in E by lia. apply (agree_one_byte start stop ks ke bs be); done || lia.
    + apply Z.eqb_neq in E.
      apply (byte_masked_diff _ ks (fun j => (bs <=? j) && (j <=? be))); try done.
      * intros. by rewrite Z.land_spec, startMask_bit, stopMask_bit by lia.
      * intros. zcase; cbn; lia.
      * intros; lia.
  - case_match eqn:E; [|apply negb_false_iff, Z.eqb_eq in E].
    { apply negb_true_iff, Z.eqb_neq in E.
      apply (byte_masked_diff _ ks (fun j => bs <=? j)); try done.
      - intros. apply startMask_bit; lia.
      - intros. zcase; lia.
      - intros; lia. }
    pose proof (proj1 (start_eq ks bs ltac:(lia)) E) as Hst.
    assert (forall k, ks < k -> (forall k', ks < k' < k -> B1 k' = B2 k') ->
      forall k' j, 0 <= j < 8 -> k' < k -> start <= k' * 8 + j < stop ->
      Z.testbit (B1 k') j = Z.testbit (B2 k') j) as Hbelow.
    { intros k _ Hk k' j Hj ? ?. destruct (decide (k' = ks)) as [->|].
      - apply Hst; [done|]. zcase; lia.
      - by rewrite Hk by lia. }
    pose proof (first_diff_byte_spec (Z.to_nat (ke - (ks + 1))) (ks + 1)) as Hmid.
    destruct (first_diff_byte _ _ _ _) as [d|].
    { destruct Hmid as (k & ? & Hne & Hb & ->).
      pose proof (byte_masked_diff (-1) k (fun _ => true) start stop) as Hd.
      rewrite !Z.land_m1_l in Hd. apply Hd; try done; [|intros; lia|].
      - intros. apply Z.bits_m1. lia.
      - apply Hbelow; [lia|]. intros; apply Hb; lia. }
    case_match eqn:E2; [|apply negb_false_iff, Z.eqb_eq in E2].
    + apply negb_true_iff, Z.eqb_neq in E2.
      apply (byte_masked_diff _ ke (fun j => j <=? be)); try done.
      * intros. apply stopMask_bit; lia.
      * intros. zcase; lia.
      * apply Hbelow; [lia|]. intros; apply Hmid; lia.
    + apply (agree_many_bytes start stop ks ke bs be); try lia.
      split; [intros; apply Hmid; lia|]. split; [done|].
      apply stop_eq; done || lia.
Qed.
End ids.

(** the byte-masked comparisons implement the bit-wise specification:
    [EqualSubset] decides agreement on the bits [start, stop), and
    [FirstDifferenceSubset] returns the least differing bit of the range, or
    nothing when the identifiers agree on it. *)
Theorem bit_comparisons_correct (id1 id2 : ID) (start stop : Z) :
  wf_id id1 -> wf_id id2 -> 0 <= start -> stop <= NumBits ->
  (EqualSubset start stop id1 id2 = true <-> agree start stop id1 id2) /\
  first_difference id1 id2 start stop (FirstDifferenceSubset start stop id1 id2).
Proof.
  intros. split; [by apply EqualSubset_spec|by apply FirstDifferenceSubset_spec].
Qed.

(** An identifier with the given first bytes. *)
Definition id_of (bytes : list Z) : ID := bytes ++ replicate (32 - length bytes) 0.

Definition wf_idb (id : ID) : bool :=
  bool_decide (length id = 32%nat) && forallb (fun b => (0 <=? b) && (b <? 256)) id.

Lemma wf_idb_wf id : wf_idb id = true -> wf_id id.
Proof.
  unfold wf_idb. rewrite andb_true_iff, bool_decide_eq_true, forallb_forall.
  intros [? Hb]. split; [done|]. rewrite Forall_forall. intros b Hin.
  apply list_elem_of_In, Hb in Hin. unfold is_uint. zcase; cbn in *; lia.
Qed.

Lemma bit_comparisons_correct_witness :
  first_difference (id_of [255; 1; 7]) (id_of [255; 1; 5]) 4 256 (Some 17) /\
  FirstDifferenceSubset 4 256 (id_of [255; 1; 7]) (id_of [255; 1; 5]) = Some 17.
Proof.
  split; [|reflexivity].
  apply (bit_comparisons_correct (id_of [255; 1; 7]) (id_of [255; 1; 5]) 4 256);
    first [apply wf_idb_wf; reflexivity | vm_compute; congruence].
Defined.

End Bits.
