(* ===== verification/Snowball.v ===== *)
(** * Snowflake and snowball instances

    Models [avalanchego/snow/consensus/snowball]: [parameters.go], the slush,
    snowflake and snowball instances ([unary_*.go], [binary_*.go],
    [nnary_*.go]), the two factories ([factory.go]) and the naive multi-choice
    instance ([flat.go]).  The interfaces [Unary], [Binary] and [Nnary] of
    [consensus.go] are type classes; [SnowLaws] states what the tree of
    [Tree.v] relies on and both factories satisfy it.

    A binary choice is the [bool] of its index in Go's [2]-arrays. *)

From S2P Require Import Prelude Bits Bag.

Module Snowball.
Import Bits.

(** ** Parameters *)
Record Parameters := mkParameters {
  K : Z;
  AlphaPreference : Z;
  AlphaConfidence : Z;
  Beta : Z;
  ConcurrentRepolls : Z;
  OptimalProcessing : Z;
  MaxOutstandingItems : Z;
  MaxItemProcessingTime : Z;
}.

(** The cases of [Verify] that wrap [ErrParametersInvalid], in source order. *)
Inductive ErrParametersInvalid :=
  | AlphaPreferenceTooLow | AlphaConfidenceBelowPreference | AlphaConfidenceAboveK
  | AlphaSwapped | ConcurrentRepollsNotPositive | ConcurrentRepollsAboveBeta
  | OptimalProcessingNotPositive | MaxOutstandingItemsNotPositive
  | MaxItemProcessingTimeNotPositive.

(** Go's [/] truncates towards zero. *)
Definition Verify (p : Parameters) : result ErrParametersInvalid unit :=
  if AlphaPreference p <=? Z.quot (K p) 2 then Err AlphaPreferenceTooLow
  else if AlphaConfidence p <? AlphaPreference p then Err AlphaConfidenceBelowPreference
  else if K p <? AlphaConfidence p then Err AlphaConfidenceAboveK
  else if (AlphaConfidence p =? 3) && (AlphaPreference p =? 28) then Err AlphaSwapped
  else if ConcurrentRepolls p <=? 0 then Err ConcurrentRepollsNotPositive
  else if Beta p <? ConcurrentRepolls p then Err ConcurrentRepollsAboveBeta
  else if OptimalProcessing p <=? 0 then Err OptimalProcessingNotPositive
  else if MaxOutstandingItems p <=? 0 then Err MaxOutstandingItemsNotPositive
  else if MaxItemProcessingTime p <=? 0 then Err MaxItemProcessingTimeNotPositive
  else Ok tt.

Definition DefaultParameters : Parameters :=
  mkParameters 20 15 15 20 4 10 256 (30 * 1000000000).

Record terminationCondition := mkTC { alphaConfidence : Z; beta : Z }.

Definition newSingleTerminationCondition (alphaConfidence beta : Z)
  : list terminationCondition := [mkTC alphaConfidence beta].

(** ** The loop shared by the three snowflake instances *)

(** Go's [clear] on a slice. *)
Definition clear (l : list Z) : list Z := map (fun _ => 0) l.

(** [for i, terminationCondition := range sf.terminationConditions]: the new
    [confidence] and whether the loop set [finalized]. *)
Fixpoint recordLoop (count : Z) (tcs : list terminationCondition)
    (confidence : list Z) : list Z * bool :=
  match tcs, confidence with
  | tc :: tcs, c :: cs =>
      if count <? alphaConfidence tc then (clear (c :: cs), false)
      else
        let c := c + 1 in
        if beta tc <=? c then (c :: cs, true)
        else let '(cs, fin) := recordLoop count tcs cs in (c :: cs, fin)
  | _, _ => (confidence, false)
  end.

(** ** Unary snowflake and snowball *)
Record unarySnowflake := mkUF {
  uf_alphaPreference : Z;
  uf_terminationConditions : list terminationCondition;
  uf_confidence : list Z;
  uf_finalized : bool;
}.

Definition newUnarySnowflake (alphaPreference : Z) (tcs : list terminationCondition) :=
  mkUF alphaPreference tcs (replicate (length tcs) 0) false.

Definition uf_RecordPoll (sf : unarySnowflake) (count : Z) : unarySnowflake :=
  let '(conf, fin) :=
    recordLoop count (uf_terminationConditions sf) (uf_confidence sf) in
  mkUF (uf_alphaPreference sf) (uf_terminationConditions sf) conf
    (if fin then true else uf_finalized sf).

Definition uf_RecordUnsuccessfulPoll (sf : unarySnowflake) : unarySnowflake :=
  mkUF (uf_alphaPreference sf) (uf_terminationConditions sf)
    (clear (uf_confidence sf)) (uf_finalized sf).

Record binarySnowflake := mkBF {
  bf_slush : bool;  (* binarySlush.preference *)
  bf_alphaPreference : Z;
  bf_terminationConditions : list terminationCondition;
  bf_confidence : list Z;
  bf_finalized : bool;
}.

Definition uf_Extend (sf : unarySnowflake) (choice : bool) : binarySnowflake :=
  mkBF choice (uf_alphaPreference sf) (uf_terminationConditions sf)
    (uf_confidence sf) (uf_finalized sf).

(** A copy with a cloned slice: the same value. *)
Definition uf_Clone (sf : unarySnowflake) : unarySnowflake := sf.

Record unarySnowball := mkUB {
  ub_flake : unarySnowflake;
  ub_preferenceStrength : Z;
}.

Definition newUnarySnowball (alphaPreference : Z) (tcs : list terminationCondition) :=
  mkUB (newUnarySnowflake alphaPreference tcs) 0.

Definition ub_RecordPoll (sb : unarySnowball) (count : Z) : unarySnowball :=
  mkUB (uf_RecordPoll (ub_flake sb) count)
    (if uf_alphaPreference (ub_flake sb) <=? count
     then ub_preferenceStrength sb + 1 else ub_preferenceStrength sb).

(** Promoted from the embedded snowflake. *)
Definition ub_RecordUnsuccessfulPoll (sb : unarySnowball) : unarySnowball :=
  mkUB (uf_RecordUnsuccessfulPoll (ub_flake sb)) (ub_preferenceStrength sb).

(** ** Binary snowflake and snowball *)
Definition newBinarySnowflake (alphaPreference : Z) (tcs : list terminationCondition)
    (choice : bool) :=
  mkBF choice alphaPreference tcs (replicate (length tcs) 0) false.

Definition bf_RecordUnsuccessfulPoll (sf : binarySnowflake) : binarySnowflake :=
  mkBF (bf_slush sf) (bf_alphaPreference sf) (bf_terminationConditions sf)
    (clear (bf_confidence sf)) (bf_finalized sf).

Definition bf_RecordPoll (sf : binarySnowflake) (count : Z) (choice : bool)
  : binarySnowflake :=
  if bf_finalized sf then sf
  else if count <? bf_alphaPreference sf then bf_RecordUnsuccessfulPoll sf
  else
    let conf := if eqb choice (bf_slush sf) then bf_confidence sf
                else clear (bf_confidence sf) in
    let '(conf, fin) := recordLoop count (bf_terminationConditions sf) conf in
    mkBF choice (bf_alphaPreference sf) (bf_terminationConditions sf) conf
      (if fin then true else bf_finalized sf).

Record binarySnowball := mkBB {
  bb_flake : binarySnowflake;
  bb_preference : bool;
  bb_preferenceStrength : Z * Z;
}.

Definition newBinarySnowball (alphaPreference : Z) (tcs : list terminationCondition)
    (choice : bool) :=
  mkBB (newBinarySnowflake alphaPreference tcs choice) choice (0, 0).

(** Access to a Go array of length two. *)
Definition sel {A} (i : bool) (p : A * A) : A := if i then p.2 else p.1.
Definition upd {A} (i : bool) (x : A) (p : A * A) : A * A :=
  if i then (p.1, x) else (x, p.2).

Definition bb_Preference (sb : binarySnowball) : bool :=
  if bf_finalized (bb_flake sb) then bf_slush (bb_flake sb) else bb_preference sb.

Definition bb_RecordPoll (sb : binarySnowball) (count : Z) (choice : bool)
  : binarySnowball :=
  let '(pref, strength) :=
    if bf_alphaPreference (bb_flake sb) <=? count then
      let strength := upd choice (sel choice (bb_preferenceStrength sb) + 1)
                        (bb_preferenceStrength sb) in
      (if sel (negb choice) strength <? sel choice strength
       then choice else bb_preference sb, strength)
    else (bb_preference sb, bb_preferenceStrength sb) in
  mkBB (bf_RecordPoll (bb_flake sb) count choice) pref strength.

Definition bb_RecordUnsuccessfulPoll (sb : binarySnowball) : binarySnowball :=
  mkBB (bf_RecordUnsuccessfulPoll (bb_flake sb)) (bb_preference sb)
    (bb_preferenceStrength sb).

Definition ub_Extend (sb : unarySnowball) (choice : bool) : binarySnowball :=
  mkBB (mkBF choice (uf_alphaPreference (ub_flake sb))
          (uf_terminationConditions (ub_flake sb))
          (uf_confidence (ub_flake sb)) (uf_finalized (ub_flake sb)))
    choice (upd choice (ub_preferenceStrength sb) (0, 0)).

Definition ub_Clone (sb : unarySnowball) : unarySnowball := sb.

(** ** N-nary snowflake and snowball *)
Record nnarySnowflake := mkNF {
  nf_slush : ID;  (* nnarySlush.preference *)
  nf_alphaPreference : Z;
  nf_terminationConditions : list terminationCondition;
  nf_confidence : list Z;
  nf_finalized : bool;
}.

Definition newNnarySnowflake (alphaPreference : Z) (tcs : list terminationCondition)
    (choice : ID) :=
  mkNF choice alphaPreference tcs (replicate (length tcs) 0) false.

Definition nf_RecordUnsuccessfulPoll (sf : nnarySnowflake) : nnarySnowflake :=
  mkNF (nf_slush sf) (nf_alphaPreference sf) (nf_terminationConditions sf)
    (clear (nf_confidence sf)) (nf_finalized sf).

Definition nf_RecordPoll (sf : nnarySnowflake) (count : Z) (choice : ID)
  : nnarySnowflake :=
  if nf_finalized sf then sf
  else if count <? nf_alphaPreference sf then nf_RecordUnsuccessfulPoll sf
  else
    let conf := if bool_decide (choice = nf_slush sf) then nf_confidence sf
                else clear (nf_confidence sf) in
    let '(conf, fin) := recordLoop count (nf_terminationConditions sf) conf in
    mkNF choice (nf_alphaPreference sf) (nf_terminationConditions sf) conf
      (if fin then true else nf_finalized sf).

(** [Add] of a snowflake ignores the choice. *)
Definition nf_Add (sf : nnarySnowflake) (_ : ID) : nnarySnowflake := sf.

Record nnarySnowball := mkNB {
  nb_flake : nnarySnowflake;
  nb_preference : ID;
  nb_maxPreferenceStrength : Z;
  nb_preferenceStrength : gmap ID Z;
}.

Definition newNnarySnowball (alphaPreference : Z) (tcs : list terminationCondition)
    (choice : ID) :=
  mkNB (newNnarySnowflake alphaPreference tcs choice) choice 0 ∅.

Definition nb_Preference (sb : nnarySnowball) : ID :=
  if nf_finalized (nb_flake sb) then nf_slush (nb_flake sb) else nb_preference sb.

Definition nb_RecordPoll (sb : nnarySnowball) (count : Z) (choice : ID)
  : nnarySnowball :=
  let flake := nf_RecordPoll (nb_flake sb) count choice in
  if nf_alphaPreference (nb_flake sb) <=? count then
    let preferenceStrength := default 0 (nb_preferenceStrength sb !! choice) + 1 in
    let strengths := <[choice := preferenceStrength]> (nb_preferenceStrength sb) in
    if nb_maxPreferenceStrength sb <? preferenceStrength
    then mkNB flake choice preferenceStrength strengths
    else mkNB flake (nb_preference sb) (nb_maxPreferenceStrength sb) strengths
  else mkNB flake (nb_preference sb) (nb_maxPreferenceStrength sb)
         (nb_preferenceStrength sb).

Definition nb_RecordUnsuccessfulPoll (sb : nnarySnowball) : nnarySnowball :=
  mkNB (nf_RecordUnsuccessfulPoll (nb_flake sb)) (nb_preference sb)
    (nb_maxPreferenceStrength sb) (nb_preferenceStrength sb).

(** ** The interfaces of [consensus.go] *)
Class Nnary (N : Type) := {
  n_Add : N -> ID -> N;
  n_Preference : N -> ID;
  n_RecordPoll : N -> Z -> ID -> N;
  n_RecordUnsuccessfulPoll : N -> N;
  n_Finalized : N -> bool;
}.

Class Binary (B : Type) := {
  b_Preference : B -> bool;
  b_RecordPoll : B -> Z -> bool -> B;
  b_RecordUnsuccessfulPoll : B -> B;
  b_Finalized : B -> bool;
}.

Class Unary (U B : Type) := {
  u_RecordPoll : U -> Z -> U;
  u_RecordUnsuccessfulPoll : U -> U;
  u_Finalized : U -> bool;
  u_Extend : U -> bool -> B;
  u_Clone : U -> U;
}.

Class Factory (N U B : Type) `{Nnary N, Unary U B, Binary B} := {
  NewNnary : Parameters -> ID -> N;
  NewUnary : Parameters -> U;
}.

#[global] Instance nnarySnowflake_Nnary : Nnary nnarySnowflake := {|
  n_Add := nf_Add; n_Preference := nf_slush; n_RecordPoll := nf_RecordPoll;
  n_RecordUnsuccessfulPoll := nf_RecordUnsuccessfulPoll; n_Finalized := nf_finalized;
|}.
#[global] Instance binarySnowflake_Binary : Binary binarySnowflake := {|
  b_Preference := bf_slush; b_RecordPoll := bf_RecordPoll;
  b_RecordUnsuccessfulPoll := bf_RecordUnsuccessfulPoll; b_Finalized := bf_finalized;
|}.
#[global] Instance unarySnowflake_Unary : Unary unarySnowflake binarySnowflake := {|
  u_RecordPoll := uf_RecordPoll; u_RecordUnsuccessfulPoll := uf_RecordUnsuccessfulPoll;
  u_Finalized := uf_finalized; u_Extend := uf_Extend; u_Clone := uf_Clone;
|}.
#[global] Instance snowflakeFactory :
  Factory nnarySnowflake unarySnowflake binarySnowflake := {|
  NewNnary p choice := newNnarySnowflake (AlphaPreference p)
    (newSingleTerminationCondition (AlphaConfidence p) (Beta p)) choice;
  NewUnary p := newUnarySnowflake (AlphaPreference p)
    (newSingleTerminationCondition (AlphaConfidence p) (Beta p));
|}.

#[global] Instance nnarySnowball_Nnary : Nnary nnarySnowball := {|
  n_Add sb choice := mkNB (nf_Add (nb_flake sb) choice) (nb_preference sb)
    (nb_maxPreferenceStrength sb) (nb_preferenceStrength sb);
  n_Preference := nb_Preference; n_RecordPoll := nb_RecordPoll;
  n_RecordUnsuccessfulPoll := nb_RecordUnsuccessfulPoll;
  n_Finalized sb := nf_finalized (nb_flake sb);
|}.
#[global] Instance binarySnowball_Binary : Binary binarySnowball := {|
  b_Preference := bb_Preference; b_RecordPoll := bb_RecordPoll;
  b_RecordUnsuccessfulPoll := bb_RecordUnsuccessfulPoll;
  b_Finalized sb := bf_finalized (bb_flake sb);
|}.
#[global] Instance unarySnowball_Unary : Unary unarySnowball binarySnowball := {|
  u_RecordPoll := ub_RecordPoll; u_RecordUnsuccessfulPoll := ub_RecordUnsuccessfulPoll;
  u_Finalized sb := uf_finalized (ub_flake sb); u_Extend := ub_Extend; u_Clone := ub_Clone;
|}.
#[global] Instance snowballFactory :
  Factory nnarySnowball unarySnowball binarySnowball := {|
  NewNnary p choice := newNnarySnowball (AlphaPreference p)
    (newSingleTerminationCondition (AlphaConfidence p) (Beta p)) choice;
  NewUnary p := newUnarySnowball (AlphaPreference p)
    (newSingleTerminationCondition (AlphaConfidence p) (Beta p));
|}.

(** ** Flat: one n-nary instance that follows the mode of every poll *)
Section flat.
Context {NN : Type} `{Nnary NN}.

(** [order] is the iteration order of the vote bag inside [Mode]; [ids.Empty]
    is the zero identifier. *)
Definition EmptyID : ID := replicate 32 0.

Definition Flat_RecordPoll (params : Parameters) (f : NN) (order : list (ID * Z))
  : NN * bool :=
  let '(pollMode, numVotes) := Bag.Mode EmptyID order in
  (n_RecordPoll f numVotes pollMode, AlphaPreference params <=? numVotes).
End flat.

(** ** Valid parameters *)
Record valid (p : Parameters) : Prop := {
  valid_majority : K p < 2 * AlphaPreference p;
  valid_alpha : 0 < AlphaPreference p <= AlphaConfidence p;
  valid_K : AlphaConfidence p <= K p;
  valid_beta : 0 < ConcurrentRepolls p <= Beta p;
  valid_limits : 0 < OptimalProcessing p /\ 0 < MaxOutstandingItems p /\
                 0 < MaxItemProcessingTime p;
}.

Lemma Verify_valid p : Verify p = Ok tt <-> valid p.
Proof.
  unfold Verify. pose proof (Z.quot_rem (K p) 2 ltac:(lia)) as Hq.
  pose proof (Z.rem_bound_abs (K p) 2 ltac:(lia)) as Hr.
  pose proof (Z.rem_sign_nz (K p) 2 ltac:(lia)) as Hs.
  assert (Z.rem (K p) 2 = 0 \/ Z.rem (K p) 2 <> 0 /\ Z.sgn (Z.rem (K p) 2) = Z.sgn (K p))
    as Hsg by (destruct (decide (Z.rem (K p) 2 = 0)); auto).
  split.
  - zcase; cbn [andb]; try discriminate; intros _; split; try lia; repeat split; lia.
  - intros [? ? ? ? (? & ? & ?)]. zcase; cbn [andb]; try reflexivity; exfalso; lia.
Qed.

(** ** What the tree relies on *)
Class SnowLaws (U B : Type) `{Unary U B, Binary B} (p : Parameters) (new : U) := {
  okU : U -> Prop;
  okB : B -> Prop;
  confU : U -> Z;
  confB : B -> Z;
  slushB : B -> bool;

  okU_new : okU new;
  okU_poll u c : okU u -> okU (u_RecordPoll u c);
  okU_reset u : okU u -> okU (u_RecordUnsuccessfulPoll u);
  okB_extend u x : okU u -> okB (u_Extend u x);
  okB_poll b c x : okB b -> okB (b_RecordPoll b c x);
  okB_reset b : okB b -> okB (b_RecordUnsuccessfulPoll b);

  confU_new : confU new = 0;
  finU_new : u_Finalized new = false;
  confU_nonneg u : okU u -> 0 <= confU u;
  confU_fin u : okU u -> u_Finalized u = false -> confU u < Beta p;
  confU_reset u : okU u -> confU (u_RecordUnsuccessfulPoll u) = 0;
  finU_reset u : u_Finalized (u_RecordUnsuccessfulPoll u) = u_Finalized u;
  resetU_conf0 u : okU u -> confU u = 0 -> u_RecordUnsuccessfulPoll u = u;
  confU_poll u c : okU u ->
    confU (u_RecordPoll u c) = if AlphaConfidence p <=? c then confU u + 1 else 0;
  finU_poll u c : okU u ->
    u_Finalized (u_RecordPoll u c) =
      u_Finalized u || ((AlphaConfidence p <=? c) && (Beta p <=? confU u + 1));
  clone_id u : u_Clone u = u;

  confB_extend u x : okU u -> confB (u_Extend u x) = confU u;
  slushB_extend u x : slushB (u_Extend u x) = x;
  prefB_extend u x : b_Preference (u_Extend u x) = x;
  finB_extend u x : b_Finalized (u_Extend u x) = u_Finalized u;
  resetB_extend u x : b_RecordUnsuccessfulPoll (u_Extend u x) =
                      u_Extend (u_RecordUnsuccessfulPoll u) x;

  confB_nonneg b : okB b -> 0 <= confB b;
  confB_fin b : okB b -> b_Finalized b = false -> confB b < Beta p;
  confB_reset b : okB b -> confB (b_RecordUnsuccessfulPoll b) = 0;
  slushB_reset b : slushB (b_RecordUnsuccessfulPoll b) = slushB b;
  prefB_reset b : b_Preference (b_RecordUnsuccessfulPoll b) = b_Preference b;
  finB_reset b : b_Finalized (b_RecordUnsuccessfulPoll b) = b_Finalized b;
  resetB_conf0 b : okB b -> confB b = 0 -> b_RecordUnsuccessfulPoll b = b;
  prefB_fin b : b_Finalized b = true -> b_Preference b = slushB b;
  finB_stays b c x : b_Finalized b = true ->
    b_Finalized (b_RecordPoll b c x) = true /\ slushB (b_RecordPoll b c x) = slushB b;
  slushB_poll b c x : b_Finalized b = false -> AlphaPreference p <= c -> okB b ->
    slushB (b_RecordPoll b c x) = x;
  confB_poll b c x : okB b -> b_Finalized b = false -> AlphaPreference p <= c ->
    confB (b_RecordPoll b c x) =
      if AlphaConfidence p <=? c
      then (if eqb x (slushB b) then confB b else 0) + 1 else 0;
  finB_poll b c x : okB b -> b_Finalized b = false -> AlphaPreference p <= c ->
    b_Finalized (b_RecordPoll b c x) =
      (AlphaConfidence p <=? c) &&
      (Beta p <=? (if eqb x (slushB b) then confB b else 0) + 1);
}.

(** The state of an instance with the single termination condition of the
    factories: one counter, below [Beta] until the instance finalizes. *)
Definition single_ok (p : Parameters) (alphaPref : Z) (tcs : list terminationCondition)
    (conf : list Z) (fin : bool) : Prop :=
  alphaPref = AlphaPreference p /\
  tcs = newSingleTerminationCondition (AlphaConfidence p) (Beta p) /\
  exists c, conf = [c] /\ 0 <= c /\ (fin = false -> c < Beta p).

Lemma single_loop p count c :
  recordLoop count (newSingleTerminationCondition (AlphaConfidence p) (Beta p)) [c] =
    if AlphaConfidence p <=? count then ([c + 1], Beta p <=? c + 1) else ([0], false).
Proof. cbn. zcase; try lia; reflexivity. Qed.

Definition conf_of (l : list Z) : Z := default 0 (head l).

Section laws.
Context (p : Parameters) (Hp : valid p).

Lemma new_ok : single_ok p (AlphaPreference p)
  (newSingleTerminationCondition (AlphaConfidence p) (Beta p)) [0] false.
Proof. destruct Hp. split; [done|]. split; [done|]. exists 0. repeat split; lia. Qed.

Lemma clear_ok a tcs conf fin : single_ok p a tcs conf fin ->
  single_ok p a tcs (clear conf) fin.
Proof.
  intros (-> & -> & c & -> & ? & ?). destruct Hp.
  split; [done|]. split; [done|]. exists 0. repeat split; lia.
Qed.

Lemma loop_ok count a tcs conf fin : single_ok p a tcs conf fin ->
  single_ok p a tcs (recordLoop count tcs conf).1
    (if (recordLoop count tcs conf).2 then true else fin).
Proof.
  intros (-> & -> & c & -> & ? & ?). destruct Hp. rewrite single_loop.
  split; [done|]. split; [done|].
  destruct (Z.leb_spec (AlphaConfidence p) count); cbn.
  - exists (c + 1). zcase; repeat split; lia || done.
  - exists 0. repeat split; lia.
Qed.

Definition uf_ok (u : unarySnowflake) : Prop :=
  single_ok p (uf_alphaPreference u) (uf_terminationConditions u)
    (uf_confidence u) (uf_finalized u).
Definition bf_ok (b : binarySnowflake) : Prop :=
  single_ok p (bf_alphaPreference b) (bf_terminationConditions b)
    (bf_confidence b) (bf_finalized b).

Lemma uf_poll_ok u c : uf_ok u -> uf_ok (uf_RecordPoll u c).
Proof.
  intros Hu. unfold uf_RecordPoll. pose proof (loop_ok c _ _ _ _ Hu) as Hl.
  by destruct (recordLoop _ _ _).
Qed.

Lemma bf_poll_ok b c x : bf_ok b -> bf_ok (bf_RecordPoll b c x).
Proof.
  intros Hb. unfold bf_RecordPoll. destruct (bf_finalized b) eqn:Hf; [done|].
  case_match; [by apply clear_ok|]. rewrite <- Hf.
  assert (single_ok p (bf_alphaPreference b) (bf_terminationConditions b)
    (if eqb x (bf_slush b) then bf_confidence b else clear (bf_confidence b))
    (bf_finalized b)) as Hc by (destruct (eqb _ _); [done|by apply clear_ok]).
  apply (loop_ok c) in Hc. by destruct (recordLoop _ _ _).
Qed.

(** One poll of a live binary instance that reaches [AlphaPreference]. *)
Lemma bf_poll_step b c x : bf_ok b -> bf_finalized b = false ->
  AlphaPreference p <= c ->
  let n := (if eqb x (bf_slush b) then conf_of (bf_confidence b) else 0) + 1 in
  bf_RecordPoll b c x =
    mkBF x (bf_alphaPreference b) (bf_terminationConditions b)
      [if AlphaConfidence p <=? c then n else 0]
      ((AlphaConfidence p <=? c) && (Beta p <=? n)).
Proof.
  intros (Ha & Ht & k & Hc & ? & ?) Hf ?. cbn zeta. unfold bf_RecordPoll.
  rewrite Hf, Ha, Hc, Ht. destruct (Z.ltb_spec c (AlphaPreference p)); [lia|].
  change (conf_of [k]) with k.
  assert ((if eqb x (bf_slush b) then [k] else clear [k]) =
    [if eqb x (bf_slush b) then k else 0]) as -> by by destruct (eqb _ _).
  rewrite single_loop. destruct (AlphaConfidence p <=? c); [|done].
  by destruct (Beta p <=? _).
Qed.

Lemma bf_final_poll b c x : bf_finalized b = true -> bf_RecordPoll b c x = b.
Proof. intros Hf. unfold bf_RecordPoll. by rewrite Hf. Qed.

Lemma uf_poll_step u c : uf_ok u ->
  let n := conf_of (uf_confidence u) + 1 in
  uf_RecordPoll u c =
    mkUF (uf_alphaPreference u) (uf_terminationConditions u)
      [if AlphaConfidence p <=? c then n else 0]
      (uf_finalized u || ((AlphaConfidence p <=? c) && (Beta p <=? n))).
Proof.
  intros (Ha & Ht & k & Hc & ? & ?). cbn zeta. unfold uf_RecordPoll. rewrite Ht, Hc, single_loop.
  change (conf_of [k]) with k. destruct (AlphaConfidence p <=? c); cbn [andb].
  - destruct (Beta p <=? k + 1); by destruct (uf_finalized u).
  - by destruct (uf_finalized u).
Qed.

Lemma single_conf a tcs conf fin : single_ok p a tcs conf fin ->
  0 <= conf_of conf /\ (fin = false -> conf_of conf < Beta p) /\
  (conf_of conf = 0 -> clear conf = conf) /\ conf_of (clear conf) = 0.
Proof. intros (_ & _ & c & -> & ? & ?). cbn. repeat split; [done..|]. by intros ->. Qed.

Lemma clear_clear l : clear (clear l) = clear l.
Proof. unfold clear. by rewrite map_map. Qed.

Lemma uf_reset_conf0 u : uf_ok u -> conf_of (uf_confidence u) = 0 ->
  uf_RecordUnsuccessfulPoll u = u.
Proof.
  intros Hu H0. destruct (single_conf _ _ _ _ Hu) as (_ & _ & E & _).
  unfold uf_RecordUnsuccessfulPoll. rewrite E by done. by destruct u.
Qed.

Lemma bf_reset_conf0 b : bf_ok b -> conf_of (bf_confidence b) = 0 ->
  bf_RecordUnsuccessfulPoll b = b.
Proof.
  intros Hb H0. destruct (single_conf _ _ _ _ Hb) as (_ & _ & E & _).
  unfold bf_RecordUnsuccessfulPoll. rewrite E by done. by destruct b.
Qed.

Ltac solve_law :=
  intros; cbn in *;
  first [ done
        | by apply clear_ok
        | by apply uf_reset_conf0
        | by apply bf_reset_conf0
        | by rewrite uf_poll_step
        | by rewrite bf_poll_step
        | by rewrite bf_final_poll
        | by eapply single_conf ].

#[export] Program Instance snowflake_laws :
  SnowLaws unarySnowflake binarySnowflake p (NewUnary p) := {|
  okU := uf_ok; okB := bf_ok;
  confU u := conf_of (uf_confidence u); confB b := conf_of (bf_confidence b);
  slushB := bf_slush;
  okU_new := new_ok; okU_poll := uf_poll_ok; okB_poll := bf_poll_ok;
|}.
Solve All Obligations with solve_law.

(** A snowball instance behaves like its snowflake, and remembers the
    preference strengths besides. *)
Lemma ub_reset_conf0 u : uf_ok (ub_flake u) -> conf_of (uf_confidence (ub_flake u)) = 0 ->
  ub_RecordUnsuccessfulPoll u = u.
Proof.
  intros Hu H0. unfold ub_RecordUnsuccessfulPoll. rewrite uf_reset_conf0 by done.
  by destruct u.
Qed.

Lemma bb_reset_conf0 b : bf_ok (bb_flake b) -> conf_of (bf_confidence (bb_flake b)) = 0 ->
  bb_RecordUnsuccessfulPoll b = b.
Proof.
  intros Hb H0. unfold bb_RecordUnsuccessfulPoll. rewrite bf_reset_conf0 by done.
  by destruct b.
Qed.

Lemma bb_poll_flake b c x : bb_flake (bb_RecordPoll b c x) = bf_RecordPoll (bb_flake b) c x.
Proof. unfold bb_RecordPoll. by destruct (_ <=? _). Qed.

Ltac solve_snowball_law :=
  intros; cbn in *; unfold bb_Preference in *; rewrite ?bb_poll_flake in *; cbn in *;
  first [ solve_law
        | by apply ub_reset_conf0
        | by apply bb_reset_conf0
        | by apply bf_poll_ok
        | by apply uf_poll_ok
        | by case_match
        | by case_match; congruence ].

#[export] Program Instance snowball_laws :
  SnowLaws unarySnowball binarySnowball p (NewUnary p) := {|
  okU u := uf_ok (ub_flake u); okB b := bf_ok (bb_flake b);
  confU u := conf_of (uf_confidence (ub_flake u));
  confB b := conf_of (bf_confidence (bb_flake b));
  slushB b := bf_slush (bb_flake b);
  okU_new := new_ok;
|}.
Solve All Obligations with solve_snowball_law.
End laws.

End Snowball.
