(* ===== verification/SnowballFacts.v ===== *)
(** * What snowflake and snowball instances decide

    Properties of the instances of [Snowball.v]: the counter invariant the
    source states for them, the polls that finalize an n-nary snowflake, and the
    preference of an n-nary snowball. *)

From S2P Require Import Prelude Bits Bag Snowball.

Module SnowballFacts.
Import Bits Snowball.

(** ** The counter invariant

    "confidence[i] >= confidence[i+1] (except after finalizing due to early
    termination)". *)
Definition nonincreasing (l : list Z) : Prop :=
  forall i j x y, (i <= j)%nat -> l !! i = Some x -> l !! j = Some y -> y <= x.

Record counters_ok (tcs : list terminationCondition) (conf : list Z) (fin : bool) : Prop := {
  co_length : length conf = length tcs;
  co_nonneg : Forall (fun c => 0 <= c) conf;
  co_order : fin = false -> nonincreasing conf;
  co_below : fin = false -> Forall2 (fun tc c => c < beta tc) tcs conf;
}.

Lemma nonincreasing_cons c l :
  Forall (fun x => x <= c) l -> nonincreasing l -> nonincreasing (c :: l).
Proof.
  intros Hf Hl [|i] [|j] x y Hij; cbn; try lia.
  - intros [= ->] [= ->]. done.
  - intros [= ->] Hy. rewrite Forall_lookup in Hf. eauto.
  - intros. apply (Hl i j); [lia|done..].
Qed.

Lemma nonincreasing_inv c l :
  nonincreasing (c :: l) -> Forall (fun x => x <= c) l /\ nonincreasing l.
Proof.
  intros Hn. split.
  - rewrite Forall_lookup. intros i x Hx. apply (Hn 0%nat (S i)); [lia|done..].
  - intros i j x y Hij Hx Hy. apply (Hn (S i) (S j)); [lia|done..].
Qed.

Lemma nonincreasing_const n : nonincreasing (replicate n 0).
Proof. by intros i j x y _ [-> _]%lookup_replicate [-> _]%lookup_replicate. Qed.

Lemma clear_replicate l : clear l = replicate (length l) 0.
Proof. unfold clear. induction l; cbn; congruence. Qed.

Lemma clear_counters tcs conf fin :
  Forall (fun tc => 0 < beta tc) tcs -> length conf = length tcs ->
  counters_ok tcs (clear conf) fin.
Proof.
  intros Hb Hl. rewrite clear_replicate, Hl. split.
  - by rewrite length_replicate.
  - apply Forall_replicate. lia.
  - intros _. apply nonincreasing_const.
  - intros _. by apply Forall2_replicate_r.
Qed.

Lemma recordLoop_length n tcs conf :
  length conf = length tcs -> length (recordLoop n tcs conf).1 = length tcs.
Proof.
  revert conf. induction tcs as [|tc tcs IH]; intros [|c conf] Hl; cbn; try done.
  case_match; cbn; [by rewrite clear_replicate, length_replicate; f_equal; injection Hl|].
  case_match; [done|]. injection Hl as Hl. specialize (IH conf Hl).
  destruct (recordLoop n tcs conf). cbn in *. congruence.
Qed.

Lemma recordLoop_nonneg n tcs conf :
  Forall (fun c => 0 <= c) conf -> Forall (fun c => 0 <= c) (recordLoop n tcs conf).1.
Proof.
  revert conf. induction tcs as [|tc tcs IH]; intros [|c conf] Hc; cbn; try done.
  case_match; cbn.
  { constructor; [lia|]. rewrite clear_replicate. apply Forall_replicate. lia. }
  apply Forall_cons in Hc as [? Hc]. specialize (IH conf Hc).
  case_match; [constructor; [lia|done]|].
  destruct (recordLoop n tcs conf). constructor; [lia|done].
Qed.

(** A pass over the counters that does not finalize keeps them in order and
    below their thresholds; no counter grows by more than one. *)
Lemma recordLoop_order n tcs conf M :
  Forall (fun tc => 0 < beta tc) tcs -> length conf = length tcs ->
  0 <= M -> Forall (fun c => c <= M) conf -> nonincreasing conf ->
  Forall (fun c => 0 <= c) conf ->
  (recordLoop n tcs conf).2 = false ->
  Forall (fun c => c <= M + 1) (recordLoop n tcs conf).1 /\
  nonincreasing (recordLoop n tcs conf).1 /\
  Forall2 (fun tc c => c < beta tc) tcs (recordLoop n tcs conf).1.
Proof.
  revert conf M. induction tcs as [|tc tcs IH]; intros [|c conf] M Hb Hl HM Hle Hn Hp;
    try done; cbn -[clear].
  case_match.
  { intros _. cbn [fst]. destruct (clear_counters (tc :: tcs) (c :: conf) false Hb Hl).
    split; [|by auto]. rewrite clear_replicate. apply Forall_replicate. lia. }
  apply nonincreasing_inv in Hn as [Hc Hn]. apply Forall_cons in Hle as [? Hle].
  apply Forall_cons in Hb as [? Hb]. apply Forall_cons in Hp as [? Hp].
  destruct (Z.leb_spec (beta tc) (c + 1)); [done|].
  injection Hl as Hl. specialize (IH conf c Hb Hl ltac:(lia) Hc Hn Hp).
  destruct (recordLoop n tcs conf) as [cs f]. cbn in *. intros ->.
  destruct (IH eq_refl) as (G3 & G4 & G5). split; [|split].
  - constructor; [lia|]. eapply Forall_impl; [exact G3|]. cbn. lia.
  - by apply nonincreasing_cons.
  - by constructor.
Qed.

Lemma bounded_above (l : list Z) : exists M, 0 <= M /\ Forall (fun c => c <= M) l.
Proof.
  induction l as [|c l (M & ? & IH)]; [by exists 0|]. exists (Z.max M c). split; [lia|].
  constructor; [lia|]. eapply Forall_impl; [exact IH|]. cbn. lia.
Qed.

Lemma recordLoop_counters n tcs conf fin :
  Forall (fun tc => 0 < beta tc) tcs -> counters_ok tcs conf fin ->
  counters_ok tcs (recordLoop n tcs conf).1
    (if (recordLoop n tcs conf).2 then true else fin).
Proof.
  intros Hb [Hl Hp Hn Hlt]. split.
  - by apply recordLoop_length.
  - by apply recordLoop_nonneg.
  - destruct (recordLoop n tcs conf).2 eqn:E; [done|]. intros Hf.
    destruct (bounded_above conf) as (M & HM & Hle).
    by eapply (recordLoop_order n tcs conf M); auto.
  - destruct (recordLoop n tcs conf).2 eqn:E; [done|]. intros Hf.
    destruct (bounded_above conf) as (M & HM & Hle).
    by eapply (recordLoop_order n tcs conf M); auto.
Qed.

Section nnary.
Context (alphaPref : Z) (tcs : list terminationCondition) (choice : ID).

(** The operations of an n-nary snowflake in any order. *)
Inductive nf_op := Poll (count : Z) (x : ID) | Unsuccessful.

Definition nf_step (s : nnarySnowflake) (o : nf_op) : nnarySnowflake :=
  match o with
  | Poll c x => nf_RecordPoll s c x
  | Unsuccessful => nf_RecordUnsuccessfulPoll s
  end.

Definition nf_ok (s : nnarySnowflake) : Prop :=
  nf_terminationConditions s = tcs /\
  counters_ok tcs (nf_confidence s) (nf_finalized s).

Lemma nf_step_ok s o : Forall (fun tc => 0 < beta tc) tcs ->
  nf_ok s -> nf_ok (nf_step s o).
Proof.
  intros Hb [Ht Hc]. pose proof (co_length _ _ _ Hc).
  destruct o as [c x|]; cbn; [|split; [done|by apply clear_counters]].
  unfold nf_RecordPoll. destruct (nf_finalized s) eqn:Hf; [split; [done|by rewrite Hf]|].
  case_match; [split; [done|by apply clear_counters]|].
  assert (counters_ok tcs (if bool_decide (x = nf_slush s) then nf_confidence s
    else clear (nf_confidence s)) false) as Hc'
    by (case_bool_decide; [done|by apply clear_counters]).
  apply (recordLoop_counters c) in Hc'; [|done]. rewrite Ht.
  by destruct (recordLoop c tcs _).
Qed.

(** the invariant documented on [nnarySnowflake]. *)
Theorem nf_counters_invariant (ops : list nf_op) :
  Forall (fun tc => 0 < beta tc) tcs ->
  let s := foldl nf_step (newNnarySnowflake alphaPref tcs choice) ops in
  counters_ok tcs (nf_confidence s) (nf_finalized s).
Proof.
  intros Hb. enough (nf_ok (foldl nf_step (newNnarySnowflake alphaPref tcs choice) ops))
    as [_ ?] by done.
  induction ops as [|o ops IH] using rev_ind; [|rewrite foldl_snoc; by apply nf_step_ok].
  split; [done|]. pose proof (clear_counters tcs (replicate (length tcs) 0) false Hb) as Hc.
  rewrite clear_replicate, !length_replicate in Hc. by apply Hc.
Qed.
End nnary.

(** ** When an n-nary snowflake of the factory finalizes *)
Section finalize.
Context (p : Parameters) (Hp : valid p) (x0 : ID).

Definition nf_run (polls : list (Z * ID)) : nnarySnowflake :=
  foldl (fun s '(c, x) => nf_RecordPoll s c x) (NewNnary p x0) polls.

(** Polls that all reached [AlphaConfidence] for the same choice [x]. *)
Definition confident (x : ID) (polls : list (Z * ID)) : Prop :=
  Forall (fun '(c, y) => AlphaConfidence p <= c /\ y = x) polls.

Lemma nf_final_poll s c x : nf_finalized s = true -> nf_RecordPoll s c x = s.
Proof. intros Hf. unfold nf_RecordPoll. by rewrite Hf. Qed.

Definition nf_single (s : nnarySnowflake) : Prop :=
  single_ok p (nf_alphaPreference s) (nf_terminationConditions s)
    (nf_confidence s) (nf_finalized s).

Lemma nf_poll_step s c x : nf_single s -> nf_finalized s = false ->
  let n := (if bool_decide (x = nf_slush s) then conf_of (nf_confidence s) else 0) + 1 in
  nf_RecordPoll s c x =
    if c <? AlphaPreference p then nf_RecordUnsuccessfulPoll s
    else mkNF x (nf_alphaPreference s) (nf_terminationConditions s)
      [if AlphaConfidence p <=? c then n else 0]
      ((AlphaConfidence p <=? c) && (Beta p <=? n)).
Proof.
  intros (Ha & Ht & k & Hc & ? & ?) Hf. cbn zeta. unfold nf_RecordPoll.
  rewrite Hf, Ha, Hc, Ht. case_match; [done|].
  change (conf_of [k]) with k.
  assert ((if bool_decide (x = nf_slush s) then [k] else clear [k]) =
    [if bool_decide (x = nf_slush s) then k else 0]) as -> by by destruct (bool_decide _).
  rewrite single_loop. destruct (AlphaConfidence p <=? c); [|done].
  by destruct (Beta p <=? _).
Qed.

(** What the state of an unfinalized instance says about the polls so far: the
    counter is the length of the longest confident run they end with. *)
Record live (polls : list (Z * ID)) (s : nnarySnowflake) : Prop := {
  live_run : exists pre run, polls = pre ++ run /\ confident (nf_slush s) run /\
    Z.of_nat (length run) = conf_of (nf_confidence s);
  live_max : forall pre run x, polls = pre ++ run -> run <> [] -> confident x run ->
    x = nf_slush s /\ Z.of_nat (length run) <= conf_of (nf_confidence s);
}.

Definition decided (polls : list (Z * ID)) (x : ID) : Prop :=
  exists pre run post, polls = pre ++ run ++ post /\ confident x run /\
    Z.of_nat (length run) = Beta p.

Lemma confident_nil x : confident x [].
Proof. apply Forall_nil_2. Qed.

Lemma confident_snoc x l c : confident x l -> AlphaConfidence p <= c ->
  confident x (l ++ [(c, x)]).
Proof. intros. apply Forall_app. split; [done|]. by apply Forall_singleton. Qed.

Lemma snoc_suffix {A} (l pre run : list A) a :
  l ++ [a] = pre ++ run -> run <> [] -> exists run', run = run' ++ [a] /\ l = pre ++ run'.
Proof.
  intros E Hne. destruct run as [|b run _] using rev_ind; [done|].
  rewrite app_assoc in E. apply app_inj_tail in E as [-> ->]. eauto.
Qed.

(** The longest confident run for [x] the polls end with, before a poll for
    [x] is recorded. *)
Definition streak (s : nnarySnowflake) (x : ID) : Z :=
  if bool_decide (x = nf_slush s) then conf_of (nf_confidence s) else 0.

Lemma streak_run polls s x : live polls s ->
  exists pre run, polls = pre ++ run /\ confident x run /\
    Z.of_nat (length run) = streak s x.
Proof.
  intros [(pre & run & ? & ? & ?) _]. unfold streak. case_bool_decide.
  - subst x. eauto.
  - exists polls, []. rewrite app_nil_r. eauto using confident_nil.
Qed.

Lemma streak_max polls s c x pre run y :
  live polls s -> 0 <= streak s x ->
  polls ++ [(c, x)] = pre ++ run -> run <> [] -> confident y run ->
  AlphaConfidence p <= c /\ y = x /\ Z.of_nat (length run) <= streak s x + 1.
Proof.
  intros [_ Hmax] H0 E Hne Hc. apply snoc_suffix in E as (r & -> & Er); [|done].
  apply Forall_app in Hc as [Hc1 Hc]. apply Forall_singleton in Hc as [? <-].
  split; [done|]. split; [done|]. rewrite length_app; cbn.
  destruct (decide (r = [])) as [->|Hne']; [cbn; lia|].
  destruct (Hmax _ _ _ Er Hne' Hc1) as [Ex ?]. unfold streak.
  rewrite bool_decide_eq_true_2 by done. lia.
Qed.

Lemma live_unsuccessful polls s c x : nf_single s -> c < AlphaConfidence p ->
  conf_of (nf_confidence s) = 0 -> live (polls ++ [(c, x)]) s.
Proof.
  intros Hs Hc H0. split; rewrite H0.
  - exists (polls ++ [(c, x)]), []. rewrite app_nil_r. eauto using confident_nil.
  - intros pre run y E Hne Hr. apply snoc_suffix in E as (r & -> & _); [|done].
    apply Forall_app in Hr as [_ Hr]. apply Forall_singleton in Hr as [? _]. lia.
Qed.

Lemma nf_poll_single s c x : nf_single s -> nf_single (nf_RecordPoll s c x).
Proof.
  intros Hs. destruct (nf_finalized s) eqn:Hf; [by rewrite nf_final_poll|].
  destruct (single_conf _ _ _ _ _ Hs) as (Hk & Hlt & _ & _). specialize (Hlt Hf).
  pose proof (valid_beta p Hp). rewrite nf_poll_step by done.
  destruct (c <? _); [by apply clear_ok|]. destruct Hs as (Ha & Ht & _).
  split; [done|]. split; [done|]. eexists; split; [done|].
  destruct (AlphaConfidence p <=? c); cbn; [|lia].
  destruct (bool_decide _); zcase; split; intros; done || lia.
Qed.

Lemma live_step polls s c x : nf_single s -> nf_finalized s = false ->
  live polls s -> let s' := nf_RecordPoll s c x in
  if nf_finalized s' then decided (polls ++ [(c, x)]) (nf_slush s')
  else live (polls ++ [(c, x)]) s'.
Proof.
  intros Hs Hf Hlive. cbn zeta. pose proof (nf_poll_single s c x Hs) as Hs'.
  rewrite nf_poll_step in Hs' |- * by done.
  pose proof (valid_alpha p Hp). pose proof (valid_beta p Hp).
  destruct (single_conf _ _ _ _ _ Hs) as (Hk & Hlt & _ & Hcl). specialize (Hlt Hf).
  destruct (Z.ltb_spec c (AlphaPreference p)).
  { cbn. rewrite Hf. apply live_unsuccessful; [done|lia|done]. }
  fold (streak s x) in *.
  assert (0 <= streak s x < Beta p) by (unfold streak; destruct (bool_decide _); lia).
  destruct (Z.leb_spec (AlphaConfidence p) c); cbn [andb nf_finalized nf_slush].
  2: { by apply live_unsuccessful. }
  destruct (streak_run polls s x Hlive) as (pre1 & run1 & E1 & Hr1 & Hl1).
  destruct (Z.leb_spec (Beta p) (streak s x + 1)).
  - exists pre1, (run1 ++ [(c, x)]), []. rewrite app_nil_r, app_assoc, <- E1.
    split; [done|]. split; [by apply confident_snoc|]. rewrite length_app. cbn. lia.
  - split; cbn.
    + exists pre1, (run1 ++ [(c, x)]). rewrite app_assoc, <- E1.
      split; [done|]. split; [by apply confident_snoc|]. rewrite length_app. cbn. lia.
    + intros pre run y E Hne Hc. destruct (streak_max polls s c x pre run y) as (_ & ? & ?); done || lia.
Qed.

Lemma decided_app polls l x : decided polls x -> decided (polls ++ l) x.
Proof.
  intros (pre & run & post & -> & ? & ?). exists pre, run, (post ++ l).
  by rewrite <- !app_assoc.
Qed.

Lemma nf_run_snoc polls c x : nf_run (polls ++ [(c, x)]) = nf_RecordPoll (nf_run polls) c x.
Proof. unfold nf_run. by rewrite foldl_snoc. Qed.

Lemma nf_run_inv polls :
  nf_single (nf_run polls) /\
  if nf_finalized (nf_run polls) then decided polls (nf_slush (nf_run polls))
  else live polls (nf_run polls).
Proof.
  induction polls as [|[c x] polls [Hs IH]] using rev_ind.
  - split; [by apply new_ok|]. cbn. split; cbn.
    + exists [], []. eauto using confident_nil.
    + intros pre run x E. symmetry in E. by apply app_eq_nil in E as [_ ->].
  - rewrite nf_run_snoc. split; [by apply nf_poll_single|].
    destruct (nf_finalized (nf_run polls)) eqn:Hf; [|by apply live_step].
    rewrite nf_final_poll, Hf by done. by apply decided_app.
Qed.

Lemma nf_run_final polls l : nf_finalized (nf_run polls) = true ->
  nf_run (polls ++ l) = nf_run polls.
Proof.
  intros Hf. induction l as [|[c x] l IH] using rev_ind; [by rewrite app_nil_r|].
  rewrite app_assoc, nf_run_snoc, IH. by apply nf_final_poll.
Qed.

(** a snowflake of the factory finalizes exactly when some [Beta]
    consecutive polls all reached [AlphaConfidence] for one choice, the choice
    it then prefers is that of such a run, and it never changes again. *)
Theorem nf_finalizes_iff (polls : list (Z * ID)) :
  (nf_finalized (nf_run polls) = true <-> exists x, decided polls x) /\
  (nf_finalized (nf_run polls) = true ->
     decided polls (nf_slush (nf_run polls)) /\
     forall later, nf_run (polls ++ later) = nf_run polls).
Proof.
  assert (forall polls, nf_finalized (nf_run polls) = true ->
    decided polls (nf_slush (nf_run polls))) as Hdec.
  { intros l Hf. destruct (nf_run_inv l) as [_ Hl]. by rewrite Hf in Hl. }
  split; [split|].
  - eauto.
  - intros (x & pre & run & post & -> & Hrun & Hlen).
    destruct (nf_finalized (nf_run (pre ++ run))) eqn:Hf.
    { by rewrite app_assoc, nf_run_final. }
    destruct (nf_run_inv (pre ++ run)) as [Hs Hlive]. rewrite Hf in Hlive.
    pose proof (valid_beta p Hp). destruct Hlive as [_ Hmax].
    destruct (Hmax pre run x eq_refl) as [_ ?]; [by intros ->; cbn in *; lia|done|].
    destruct (single_conf _ _ _ _ _ Hs) as (_ & Hlt & _). specialize (Hlt Hf). lia.
  - split; [by apply Hdec|]. intros; by apply nf_run_final.
Qed.
End finalize.

(** ** The preference of an n-nary snowball *)
Section strength.
Context (p : Parameters) (x0 : ID).

Definition nb_run (polls : list (Z * ID)) : nnarySnowball :=
  foldl (fun s '(c, x) => nb_RecordPoll s c x) (NewNnary p x0) polls.

(** How many polls reached [AlphaPreference] for [x]. *)
Definition wins (polls : list (Z * ID)) (x : ID) : Z :=
  Z.of_nat (length (filter (fun cx => AlphaPreference p <= cx.1 /\ cx.2 = x) polls)).

Definition strength (s : nnarySnowball) (x : ID) : Z :=
  default 0 (nb_preferenceStrength s !! x).

Record strength_ok (polls : list (Z * ID)) (s : nnarySnowball) : Prop := {
  so_alpha : nf_alphaPreference (nb_flake s) = AlphaPreference p;
  so_wins : forall x, strength s x = wins polls x;
  so_max : forall x, strength s x <= nb_maxPreferenceStrength s;
  so_pref : strength s (nb_preference s) = nb_maxPreferenceStrength s;
  so_first : nb_maxPreferenceStrength s = 0 -> nb_preference s = x0;
}.

Lemma wins_snoc polls c x y : wins (polls ++ [(c, x)]) y =
  wins polls y + (if decide (AlphaPreference p <= c /\ x = y) then 1 else 0).
Proof.
  unfold wins. rewrite filter_app, length_app, filter_cons, filter_nil. cbn.
  case_decide; cbn; lia.
Qed.

Lemma nf_poll_alpha s c x :
  nf_alphaPreference (nf_RecordPoll s c x) = nf_alphaPreference s.
Proof.
  unfold nf_RecordPoll. destruct (nf_finalized s); [done|].
  destruct (_ <? _); [done|]. by destruct (recordLoop _ _ _).
Qed.

Lemma nb_poll_ok polls s c x :
  strength_ok polls s -> strength_ok (polls ++ [(c, x)]) (nb_RecordPoll s c x).
Proof.
  intros [Ha Hw Hm Hp H0]. unfold nb_RecordPoll. rewrite Ha.
  pose proof (nf_poll_alpha (nb_flake s) c x) as Ha'. rewrite Ha in Ha'.
  assert (forall y, strength s y = default 0 (nb_preferenceStrength s !! y)) as Hst by done.
  destruct (Z.leb_spec (AlphaPreference p) c).
  - assert (forall y, default 0 (<[x := default 0 (nb_preferenceStrength s !! x) + 1]>
      (nb_preferenceStrength s) !! y) = wins (polls ++ [(c, x)]) y) as Hw'.
    { intros y. rewrite wins_snoc, <- Hw, lookup_insert, <- Hst.
      repeat case_decide; subst; cbn; rewrite ?Hst; try lia; naive_solver lia. }
    assert (0 <= wins polls x) by (unfold wins; lia).
    assert (forall y, wins (polls ++ [(c, x)]) y <= Z.max (nb_maxPreferenceStrength s)
      (strength s x + 1)) as Hmx.
    { intros y. rewrite wins_snoc, <- Hw. specialize (Hm y). case_decide; naive_solver lia. }
    assert (wins (polls ++ [(c, x)]) x = strength s x + 1) as Hx.
    { rewrite wins_snoc, <- Hw. case_decide; naive_solver lia. }
    rewrite <- Hst in *.
    destruct (Z.ltb_spec (nb_maxPreferenceStrength s) (strength s x + 1));
      split; cbn; unfold strength; cbn; try done.
    + intros y. rewrite <- (Hst x), Hw'. specialize (Hmx y). lia.
    + rewrite <- (Hst x), Hw'. lia.
    + rewrite <- (Hst x). rewrite Hw in *. lia.
    + intros y. rewrite <- (Hst x), Hw'. specialize (Hmx y). lia.
    + rewrite <- (Hst x), Hw', wins_snoc, <- Hw, Hp. case_decide; [naive_solver lia|lia].
  - split; cbn; try done. intros y. rewrite wins_snoc. unfold strength in *; cbn.
    rewrite Hw. case_decide; naive_solver lia.
Qed.

(** the preference of an unfinalized n-nary snowball is a choice with the
    largest number of polls that reached [AlphaPreference] for it, and the
    initial choice as long as there was none. *)
Theorem nb_preference_strongest (polls : list (Z * ID)) :
  nf_finalized (nb_flake (nb_run polls)) = false ->
  (forall x, wins polls x <= wins polls (nb_Preference (nb_run polls))) /\
  ((forall x, wins polls x = 0) -> nb_Preference (nb_run polls) = x0).
Proof.
  intros Hf. unfold nb_Preference. rewrite Hf.
  enough (strength_ok polls (nb_run polls)) as [_ Hw Hm Hp H0].
  { split.
    - intros x. by rewrite <- !Hw, Hp.
    - intros Hz. apply H0. by rewrite <- Hp, Hw. }
  clear Hf. induction polls as [|[c x] polls IH] using rev_ind.
  - by split.
  - unfold nb_run. rewrite foldl_snoc. by apply nb_poll_ok.
Qed.
End strength.

(** ** Concrete instances *)
Definition example_params : Parameters := mkParameters 3 2 2 2 1 1 1 1.

Lemma example_valid : valid example_params.
Proof. by apply Verify_valid. Qed.

Definition red : ID := [1].
Definition blue : ID := [2].

Lemma nf_counters_invariant_witness :
  let tcs := [mkTC 2 3; mkTC 3 2] in
  let s := foldl nf_step (newNnarySnowflake 2 tcs red)
             [Poll 3 blue; Poll 2 blue; Unsuccessful; Poll 3 red] in
  counters_ok tcs (nf_confidence s) (nf_finalized s) /\ nf_confidence s = [1; 1].
Proof.
  split; [|reflexivity].
  apply (nf_counters_invariant 2 [mkTC 2 3; mkTC 3 2] red); by repeat constructor.
Defined.

(** Two confident polls for [blue] finalize the instance that started with
    [red]; the interrupted run before them does not. *)
Lemma nf_finalizes_iff_witness :
  let polls := [(2, red); (1, red); (2, blue); (3, blue); (3, red)] in
  (nf_finalized (nf_run example_params red polls) = true <->
     exists x, decided example_params polls x) /\
  nf_slush (nf_run example_params red polls) = blue.
Proof.
  split; [|reflexivity].
  apply (nf_finalizes_iff example_params example_valid red).
Defined.

Lemma nb_preference_strongest_witness :
  let polls := [(2, blue); (1, red); (2, red)] in
  wins example_params polls red <=
    wins example_params polls (nb_Preference (nb_run example_params red polls)).
Proof.
  apply (nb_preference_strongest example_params red [(2, blue); (1, red); (2, red)]).
  reflexivity.
Defined.
End SnowballFacts.
