(* ===== verification/Tree.v ===== *)
(** * The snowball tree

    Models [avalanchego/snow/consensus/snowball/tree.go]: a patricia tree of
    unary and binary snow instances that decides an identifier bit by bit.

    A Go [node] is [Nil], a [unaryNode] or a [binaryNode]; the back pointer to
    the tree is replaced by the section's [params] and factory.  Nodes are owned
    by one parent, so mutation in place becomes the returned node.
    [RecordPoll] mutates its receiver and returns a node that may be another one
    (a decided node returns its child), so the model returns both. *)

From S2P Require Import Prelude Bits Bag Snowball.

Module Tree.
Import Bits Snowball.

Section tree.
Context {NN U B : Type} `{Factory NN U B}.
Context (params : Parameters).

Inductive node :=
  | Nil
  | unaryNode (preference : ID) (decidedPrefix commonPrefix : Z) (snow : U)
      (shouldReset : bool) (child : node)
  | binaryNode (preferences : ID * ID) (dbit : Z) (snow : B)
      (shouldReset : bool * bool) (child0 child1 : node).

Definition is_nil (n : node) : bool := match n with Nil => true | _ => false end.

(** On [Nil] the code panics; no reachable call does that. *)
Definition Preference (n : node) : ID :=
  match n with
  | Nil => EmptyID
  | unaryNode pref _ _ _ _ _ => pref
  | binaryNode prefs _ snow _ _ _ => sel (b_Preference snow) prefs
  end.

Definition DecidedPrefix (n : node) : Z :=
  match n with
  | Nil => 0
  | unaryNode _ dp _ _ _ _ => dp
  | binaryNode _ i _ _ _ _ => i
  end.

Definition Finalized (n : node) : bool :=
  match n with
  | Nil => false
  | unaryNode _ _ _ snow _ _ => u_Finalized snow
  | binaryNode _ _ snow _ _ _ => b_Finalized snow
  end.

(** The binary node a unary node is split into at [index]; [c] becomes the
    child for the preferred bit and [c'] the other one. *)
Definition split_node (pref newChoice : ID) (index : Z) (snow : U) (rst : bool)
    (c c' : node) : node :=
  let bit := Bit pref index =? 1 in
  binaryNode (upd (negb bit) newChoice (upd bit pref (EmptyID, EmptyID))) index
    (u_Extend snow bit) (rst, rst)
    (sel bit (c, c')) (sel bit (c', c)).

(** A new chain to the end of the identifier. *)
Definition new_leaf (newChoice : ID) (index : Z) : node :=
  unaryNode newChoice (index + 1) NumBits (NewUnary params) false Nil.

(** The methods of the two node types; a method of a child is passed in as
    [childAdd], [childPoll]. *)
Definition unaryNode_Add (pref : ID) (dp cp : Z) (snow : U) (rst : bool)
    (child : node) (childAdd : ID -> node) (newChoice : ID) : node :=
  let u := unaryNode pref dp cp snow rst child in
  if u_Finalized snow then u
  else
    match FirstDifferenceSubset dp cp pref newChoice with
    | None =>
        if is_nil child then u
        else unaryNode pref dp cp snow rst (childAdd newChoice)
    | Some index =>
        let newChild := new_leaf newChoice index in
        let last := if is_nil child then Nil else newChild in
        if dp =? cp - 1 then
          split_node pref newChoice index snow rst child last
        else if index =? dp then
          split_node pref newChoice index snow rst
            (unaryNode pref (dp + 1) cp snow rst child) newChild
        else if index =? cp - 1 then
          unaryNode pref dp (cp - 1) snow rst
            (split_node pref newChoice index snow rst child last)
        else
          unaryNode pref dp index (u_Clone snow) false
            (split_node pref newChoice index snow rst
               (unaryNode pref (index + 1) cp snow rst child) newChild)
    end.

Definition binaryNode_Add (prefs : ID * ID) (i : Z) (snow : B) (rst : bool * bool)
    (c0 c1 : node) (childAdd : (ID -> node) * (ID -> node)) (id : ID) : node :=
  if Bit id i =? 1 then
    if is_nil c1 then binaryNode prefs i snow rst c0 c1
    else binaryNode prefs i snow rst c0 (sel true childAdd id)
  else
    if is_nil c0 then binaryNode prefs i snow rst c0 c1
    else binaryNode prefs i snow rst (sel false childAdd id) c1.

(** Dynamic dispatch on the node. *)
Fixpoint Add (n : node) : ID -> node :=
  match n with
  | Nil => fun _ => Nil
  | unaryNode pref dp cp snow rst child =>
      unaryNode_Add pref dp cp snow rst child (Add child)
  | binaryNode prefs i snow rst c0 c1 =>
      binaryNode_Add prefs i snow rst c0 c1 (Add c0, Add c1)
  end.

(** The mutated receiver, the returned node and whether the poll succeeded. *)
Definition poll_result : Type := node * node * bool.

Definition unaryNode_RecordPoll (pref : ID) (dp cp : Z) (snow : U) (rst : bool)
    (child : node) (childPoll : Bag.Bag ID -> bool -> poll_result)
    (votes : Bag.Bag ID) (reset : bool) : poll_result :=
  let snow := if reset then u_RecordUnsuccessfulPoll snow else snow in
  let rst := if reset then true else rst in
  let numVotes := Bag.Len votes in
  if numVotes <? AlphaPreference params then
    let u := unaryNode pref dp cp (u_RecordUnsuccessfulPoll snow) true child in
    (u, u, false)
  else
    let snow := u_RecordPoll snow numVotes in
    if is_nil child then
      let u := unaryNode pref dp cp snow false child in (u, u, true)
    else
      let '(child, newChild, _) := childPoll votes rst in
      if u_Finalized snow then (unaryNode pref dp cp snow rst child, newChild, true)
      else
        let u := unaryNode (Preference child) dp cp snow false child in
        (u, u, true).

Definition binaryNode_RecordPoll (prefs : ID * ID) (i : Z) (snow : B)
    (rst : bool * bool) (c0 c1 : node)
    (childPoll : (Bag.Bag ID -> bool -> poll_result) * (Bag.Bag ID -> bool -> poll_result))
    (votes : Bag.Bag ID) (reset : bool) : poll_result :=
  let splitVotes := Bag.Split votes (fun id => Bit id i =? 1) in
  let bit := AlphaPreference params <=? Bag.Len (sel true splitVotes) in
  let snow := if reset then b_RecordUnsuccessfulPoll snow else snow in
  let rst := if reset then upd bit true rst else rst in
  let rst := upd (negb bit) true rst in
  let prunedVotes := sel bit splitVotes in
  let numVotes := Bag.Len prunedVotes in
  if numVotes <? AlphaPreference params then
    let b := binaryNode prefs i (b_RecordUnsuccessfulPoll snow)
               (upd bit true rst) c0 c1 in
    (b, b, false)
  else
    let snow := b_RecordPoll snow numVotes bit in
    if is_nil (sel bit (c0, c1)) then
      let b := binaryNode prefs i snow (upd bit false rst) c0 c1 in
      (b, b, true)
    else
      let '(child, newChild, _) := sel bit childPoll prunedVotes (sel bit rst) in
      let cs := upd bit child (c0, c1) in
      if b_Finalized snow then
        (binaryNode prefs i snow rst cs.1 cs.2, newChild, true)
      else
        let b := binaryNode (upd bit (Preference newChild) prefs) i snow
                   (upd bit false rst) cs.1 cs.2 in
        (b, b, true).

Fixpoint RecordPoll (n : node) : Bag.Bag ID -> bool -> poll_result :=
  match n with
  | Nil => fun _ _ => (Nil, Nil, false)
  | unaryNode pref dp cp snow rst child =>
      unaryNode_RecordPoll pref dp cp snow rst child (RecordPoll child)
  | binaryNode prefs i snow rst c0 c1 =>
      binaryNode_RecordPoll prefs i snow rst c0 c1 (RecordPoll c0, RecordPoll c1)
  end.

(** ** The tree *)
Record Tree := mkTree { tnode : node; shouldReset : bool }.

Definition NewTree (choice : ID) : Tree :=
  mkTree (unaryNode choice 0 NumBits (NewUnary params) false Nil) false.

Definition Tree_Add (t : Tree) (choice : ID) : Tree :=
  if EqualSubset 0 (DecidedPrefix (tnode t)) (Preference (tnode t)) choice
  then mkTree (Add (tnode t) choice) (shouldReset t)
  else t.

Definition Tree_RecordPoll (t : Tree) (votes : Bag.Bag ID) : Tree * bool :=
  let decidedPrefix := DecidedPrefix (tnode t) in
  let preference := Preference (tnode t) in
  let filteredVotes :=
    Bag.Filter votes (fun id => EqualSubset 0 decidedPrefix preference id) in
  let '(_, node, successful) := RecordPoll (tnode t) filteredVotes (shouldReset t) in
  (mkTree node false, successful).

Definition Tree_RecordUnsuccessfulPoll (t : Tree) : Tree := mkTree (tnode t) true.
End tree.

Arguments node U B : clear implicits.
Arguments Tree U B : clear implicits.
End Tree.
