(* ===== verification/TreeFacts.v ===== *)
(** * Correctness of the snowball tree

    The structural invariant of the tree of [Tree.v], the irrevocability of its
    decided prefix, and the refinement of the lazy counter resets
    ([shouldReset]) by a tree that resets eagerly.  Everything is proved for any
    snow instances that satisfy [SnowLaws], hence for both factories. *)

From S2P Require Import Prelude Bits Bag Snowball SnowballFacts Tree.

Module TreeFacts.
Import Bits Snowball Tree.

Lemma sel_upd {A} x y (a : A) q : sel x (upd y a q) = if eqb x y then a else sel x q.
Proof. by destruct x, y. Qed.

(** The poll of the selected child is the selected poll of the children. *)
Lemma sel_app {A C} (f : A -> C) x a b : sel x (f a, f b) = f (sel x (a, b)).
Proof. by destruct x. Qed.

Lemma sel_const {A} x (a : A) : sel x (a, a) = a.
Proof. by destruct x. Qed.

Lemma Bit_1 id i : (Bit id i =? 1) = bit id i.
Proof. rewrite Bit_bit. by destruct (bit id i). Qed.

Section invariant.
Context {NN U B : Type} `{HF : Factory NN U B} (p : Parameters) (Hp : valid p).
Context `{L : !SnowLaws U B p (NewUnary p)}.

Notation node := (node U B).
Implicit Types (n c : node) (votes : Bag.Bag ID).

Definition nconf n : Z :=
  match n with
  | Nil => 0
  | unaryNode _ _ _ snow _ _ => confU snow
  | binaryNode _ _ snow _ _ _ => confB snow
  end.

(** What a live node requires of its child: the child decides from bit [lo]
    on, it agrees on the preference, and it has not been polled successfully
    more often than its parent ([bound]) unless its reset is pending. *)
Record child_ok (bound : Z) (rst : bool) (pref : ID) (lo : Z) (c : node) : Prop := {
  ch_live : Finalized c = false;
  ch_pref : Preference c = pref;
  ch_prefix : DecidedPrefix c = lo;
  ch_conf : rst = false -> nconf c <= bound;
}.

Definition unary_ok (pref : ID) (dp cp : Z) (snow : U) (rst : bool) : Prop :=
  wf_id pref /\ 0 <= dp < cp /\ cp <= NumBits /\ okU snow /\
  (rst = true -> confU snow = 0).

Definition binary_ok (prefs : ID * ID) (i : Z) (snow : B) : Prop :=
  0 <= i < NumBits /\ (forall x, wf_id (sel x prefs) /\ bit (sel x prefs) i = x) /\
  agree 0 i (sel false prefs) (sel true prefs) /\ okB snow.

Fixpoint wf (n : node) : Prop :=
  match n with
  | Nil => True
  | unaryNode pref dp cp snow rst child =>
      unary_ok pref dp cp snow rst /\
      (if is_nil child then cp = NumBits
       else u_Finalized snow = false /\ child_ok (confU snow) rst pref cp child) /\
      wf child
  | binaryNode prefs i snow rst c0 c1 =>
      binary_ok prefs i snow /\
      (if is_nil c0 then c1 = Nil /\ i = NumBits - 1
       else is_nil c1 = false /\ b_Finalized snow = false /\
         forall x, child_ok (if eqb (slushB snow) x then confB snow else 0)
           (sel x rst) (sel x prefs) (i + 1) (sel x (c0, c1))) /\
      wf c0 /\ wf c1
  end.

Lemma wf_bounds n : wf n -> is_nil n = false ->
  wf_id (Preference n) /\ 0 <= DecidedPrefix n < NumBits.
Proof.
  destruct n as [|pref dp cp snow rst child|prefs i snow rst c0 c1]; cbn; [done|..].
  - intros [(? & ? & ? & _) _] _. split; [done|lia].
  - intros [(? & Hx & _) _] _. split; [apply Hx|lia].
Qed.

Lemma nconf_nonneg n : wf n -> 0 <= nconf n.
Proof.
  destruct n; cbn; [done|..].
  - intros [(_ & _ & _ & ? & _) _]. by apply confU_nonneg.
  - intros [(_ & _ & _ & ?) _]. by apply confB_nonneg.
Qed.

(** *** Adding a choice *)
Record same_root (n n' : node) : Prop := {
  sr_nil : is_nil n' = false;
  sr_pref : Preference n' = Preference n;
  sr_prefix : DecidedPrefix n' = DecidedPrefix n;
  sr_fin : Finalized n' = Finalized n;
  sr_conf : nconf n' = nconf n;
}.

Lemma same_root_refl n : is_nil n = false -> same_root n n.
Proof. by split. Qed.

Lemma child_ok_same bound rst pref lo c c' :
  same_root c c' -> child_ok bound rst pref lo c -> child_ok bound rst pref lo c'.
Proof. intros [] []. split; congruence || (intros; rewrite sr_conf0; auto). Qed.

Lemma leaf_ok pref i bound rst :
  wf_id pref -> 0 <= i -> i + 1 < NumBits -> 0 <= bound ->
  wf (new_leaf (NN:=NN) p pref i) /\ child_ok bound rst pref (i + 1) (new_leaf (NN:=NN) p pref i).
Proof.
  intros ? ? ? ?. split.
  - cbn. split; [|done]. split; [done|]. split; [lia|]. split; [done|].
    split; [apply okU_new|intros; apply confU_new].
  - split; cbn; try done; [apply finU_new|]. intros. rewrite confU_new. done.
Qed.

Lemma split_ok pref newChoice index snow rst c c' :
  wf_id pref -> wf_id newChoice -> 0 <= index < NumBits ->
  agree 0 index pref newChoice -> bit pref index <> bit newChoice index ->
  okU snow -> u_Finalized snow = false ->
  (if is_nil c then index = NumBits - 1 /\ c' = Nil
   else child_ok (confU snow) rst pref (index + 1) c /\
        c' = new_leaf (NN:=NN) p newChoice index) ->
  wf c ->
  let s := split_node pref newChoice index snow rst c c' in
  wf s /\ Preference s = pref /\ DecidedPrefix s = index /\
  Finalized s = false /\ nconf s = confU snow.
Proof.
  intros Hpref Hnew Hi Hag Hbit Hok Hfin Hc Hwf. cbn zeta. unfold split_node.
  rewrite Bit_1. remember (bit pref index) as x eqn:Hx.
  assert (bit newChoice index = negb x) as Hbit'
    by (destruct (bit newChoice index), x; done).
  set (prefs := upd (negb x) newChoice (upd x pref (EmptyID, EmptyID))).
  assert (forall y, sel y prefs = if eqb y x then pref else newChoice) as Hsel
    by (intros y; unfold prefs; rewrite !sel_upd; by destruct y, x).
  assert (binary_ok prefs index (u_Extend snow x)) as Hbin.
  { split; [done|]. split; [|split].
    - intros y. rewrite Hsel. by destruct y, x.
    - rewrite !Hsel. destruct x; cbn; [by apply agree_sym|done].
    - by apply okB_extend. }
  assert (Finalized (binaryNode prefs index (u_Extend snow x) (rst, rst)
    (sel x (c, c')) (sel x (c', c))) = false) as Hf by (cbn; by rewrite finB_extend).
  split; [|split; [|split; [done|split; [done|by apply confB_extend]]]].
  2: { cbn. rewrite prefB_extend, Hsel. by rewrite eqb_reflx. }
  cbn. split; [done|]. rewrite slushB_extend, finB_extend, confB_extend by done.
  destruct (is_nil c) eqn:Hnil.
  - destruct Hc as [-> ->]. destruct c; try done. by destruct x.
  - destruct Hc as [Hc ->]. pose proof (ch_prefix _ _ _ _ _ Hc) as Hpre.
    destruct (wf_bounds c Hwf Hnil) as [_ Hb].
    destruct (leaf_ok newChoice index 0 rst) as [Hlw Hlc]; [done|lia..|].
    split; [|by destruct x].
    replace (is_nil (sel x (c, _))) with false by by destruct x.
    split; [by destruct x|]. split; [done|]. intros y. rewrite Hsel, sel_const.
    destruct x, y; cbn; done.
Qed.

Definition agrees_below (n : node) (id : ID) : Prop :=
  agree 0 (DecidedPrefix n) (Preference n) id.

(** The unary node's side of the four ways to split it at [d]. *)
Section unary_split.
Context (pref id : ID) (dp cp d : Z) (snow : U) (rst : bool) (child : node).
Context (Hid : wf_id id) (Hok : unary_ok pref dp cp snow rst).
Context (Hfin : u_Finalized snow = false) (Hwc : wf child).
Context (Hch : if is_nil child then cp = NumBits
  else u_Finalized snow = false /\ child_ok (confU snow) rst pref cp child).
Context (Hd : dp <= d < cp) (Hag : agree 0 d pref id) (Hne : bit pref d <> bit id d).

Local Notation tail := (unaryNode pref (d + 1) cp snow rst child).
Local Notation last := (if is_nil child then Nil else new_leaf (NN:=NN) p id d).

Local Notation splits s := (wf s /\ Preference s = pref /\ DecidedPrefix s = d /\
  Finalized s = false /\ nconf s = confU snow).

Lemma split_last : d = cp - 1 -> splits (split_node pref id d snow rst child last).
Proof.
  intros E. destruct Hok as (? & ? & ? & ? & ?). apply split_ok; try done; [lia|].
  replace (d + 1) with cp by lia. revert Hch. destruct (is_nil child).
  - intros ->. split; [lia|done].
  - by intros [_ ?].
Qed.

Lemma split_tail : d + 1 < cp ->
  splits (split_node pref id d snow rst tail (new_leaf (NN:=NN) p id d)).
Proof.
  intros E. destruct Hok as (? & ? & ? & ? & ?).
  apply split_ok; try done; [lia|].
  cbn. split; [|done]. split; [done|]. split; [lia|]. done.
Qed.

Lemma splits_root s : splits s -> is_nil s = false -> d = dp ->
  same_root (unaryNode pref dp cp snow rst child) s.
Proof. intros (_ & ? & ? & ? & ?) ? ?. split; cbn; congruence. Qed.

(** A shortened unary node over the binary node [s]. *)
Lemma above_split s rst' : splits s -> dp < d -> (rst' = true -> confU snow = 0) ->
  wf (unaryNode pref dp d snow rst' s).
Proof.
  intros (Hs & Hp' & Hpre & Hf & Hc) ? ?. destruct Hok as (? & ? & ? & ? & ?).
  cbn. split; [split; [done|split; [lia|split; [lia|done]]]|]. split; [|done].
  destruct (is_nil s) eqn:E; [destruct s; cbn in *; done || lia|]. split; [done|]. split; try done. lia.
Qed.
End unary_split.

(** Replacing a child of a binary node by one with the same root. *)
Lemma binary_replace prefs i snow rst c0 c1 x c' :
  wf (binaryNode prefs i snow rst c0 c1) -> wf c' ->
  is_nil (sel x (c0, c1)) = false -> same_root (sel x (c0, c1)) c' ->
  wf (binaryNode prefs i snow rst (upd x c' (c0, c1)).1 (upd x c' (c0, c1)).2).
Proof.
  cbn. intros (Hok & Hch & Hw0 & Hw1) Hw' Hnil Hs. split; [done|].
  pose proof (sr_nil _ _ Hs) as Hnil'.
  assert (is_nil c0 = false) as E0.
  { destruct (is_nil c0) eqn:E0; [|done]. destruct Hch as [-> _].
    destruct x; cbn in Hnil; congruence. }
  rewrite E0 in Hch. destruct Hch as (E1 & Hf & Hch).
  split; [|by destruct x].
  replace (is_nil _) with false by by destruct x.
  split; [by destruct x|]. split; [done|]. intros y.
  destruct (decide (y = x)) as [->|Hne].
  - specialize (Hch x). eapply child_ok_same in Hch; [|done]. by destruct x.
  - specialize (Hch y). by destruct x, y.
Qed.

(** A choice below a binary node agrees with the preference of its side. *)
Lemma binary_agrees prefs i snow id : binary_ok prefs i snow ->
  agree 0 i (sel (b_Preference snow) prefs) id ->
  agree 0 (i + 1) (sel (bit id i) prefs) id.
Proof.
  intros (Hi & Hx & Hag & _) Hid. apply agree_step; [|apply Hx].
  destruct (b_Preference snow), (bit id i); try done;
    (eapply agree_trans; [|exact Hid]); done || by apply agree_sym.
Qed.

Lemma Add_ok n id : wf n -> is_nil n = false -> wf_id id -> agrees_below n id ->
  wf (Add p n id) /\ same_root n (Add p n id).
Proof.
  intros Hwf Hnil Hid. revert Hwf Hnil.
  induction n as [|pref dp cp snow rst child IH|prefs i snow rst c0 IH0 c1 IH1];
    intros Hwf Hnil Hag; [done|..].
  - cbn [Add]; unfold unaryNode_Add, binaryNode_Add. destruct (u_Finalized snow) eqn:Hfin; [by split|].
    cbn in Hwf. destruct Hwf as (Hok & Hch & Hwc). unfold agrees_below in Hag; cbn in Hag.
    pose proof Hok as (Hpref & Hdp & Hcp & _ & Hrst).
    pose proof (FirstDifferenceSubset_spec pref id Hpref Hid dp cp ltac:(lia) Hcp) as Hd.
    destruct (FirstDifferenceSubset dp cp pref id) as [d|]; cbn in Hd.
    + destruct Hd as (Hr & Hag' & Hne).
      assert (agree 0 d pref id) as Had by by eapply agree_split.
      destruct (Z.eqb_spec dp (cp - 1)) as [E1|E1].
      { pose proof (split_last pref id dp cp d snow rst child) as Hs.
        split; [apply Hs; done || lia|]. apply (splits_root pref dp cp d); [done|..|done|lia].
        apply Hs; done || lia. }
      destruct (Z.eqb_spec d dp) as [E2|E2].
      { subst d. pose proof (split_tail pref id dp cp dp snow rst child) as Hs.
        split; [apply Hs; done || lia|].
        apply (splits_root pref dp cp dp); [done|..|done|lia]. apply Hs; done || lia. }
      destruct (Z.eqb_spec d (cp - 1)) as [E3|E3].
      * rewrite <- E3. split; [|by split].
        eapply above_split; try done; [|lia]. by eapply split_last.
      * rewrite clone_id. split; [|by split].
        eapply above_split; try done; [|lia]. eapply split_tail; try done. lia.
    + destruct (is_nil child) eqn:En; [by split; [cbn; rewrite En|split]|].
      destruct Hch as [_ Hch]. pose proof Hch as [_ Hp1 Hp2 _].
      destruct (IH Hwc eq_refl) as [Hw Hs].
      { unfold agrees_below. rewrite Hp1, Hp2. by eapply agree_split. }
      split; [|by split]. cbn. rewrite (sr_nil _ _ Hs).
      split; [done|]. split; [|done]. split; [done|]. by eapply child_ok_same.
  - cbn [Add]; unfold unaryNode_Add, binaryNode_Add. rewrite Bit_1. cbn in Hwf. destruct Hwf as (Hok & Hch & Hw0 & Hw1).
    unfold agrees_below in Hag; cbn in Hag. apply (binary_agrees _ _ _ _ Hok) in Hag.
    assert (forall x, bit id i = x -> is_nil (sel x (c0, c1)) = false ->
      agrees_below (sel x (c0, c1)) id) as Hbelow.
    { intros x <- Hn. destruct (is_nil c0) eqn:E0.
      { destruct Hch as [-> _]. destruct (bit id i); cbn in Hn; congruence. }
      destruct Hch as (_ & _ & Hch). destruct (Hch (bit id i)) as [_ E1 E2 _].
      unfold agrees_below. by rewrite E1, E2. }
    assert (wf (binaryNode prefs i snow rst c0 c1)) as Hw by done.
    destruct (bit id i) eqn:Eb.
    + destruct (is_nil c1) eqn:En; [by split|].
      destruct (IH1 Hw1 eq_refl (Hbelow true eq_refl En)) as [Hw' Hs].
      split; [by apply (binary_replace _ _ _ _ c0 c1 true)|by split].
    + destruct (is_nil c0) eqn:En; [by split|].
      destruct (IH0 Hw0 eq_refl (Hbelow false eq_refl En)) as [Hw' Hs].
      split; [by apply (binary_replace _ _ _ _ c0 c1 false)|by split].
Qed.

(** *** Recording a poll *)

(** The counter a poll starts from. *)
Definition eff (reset : bool) (conf : Z) : Z := if reset then 0 else conf.

(** What a poll of [n] guarantees about the mutated node [n'] and the returned
    node [r]: they are the same node unless [n'] was decided, and the bits
    [n] had decided are decided in the same way below [r]. *)
Record poll_ok (n n' r : node) (votes : Bag.Bag ID) (reset : bool) : Prop := {
  po_nil : is_nil r = false;
  po_wf : wf r;
  po_self : Finalized n' = false -> r = n';
  po_safe : agree 0 (DecidedPrefix n) (Preference n) (Preference r);
  po_mono : DecidedPrefix n <= DecidedPrefix r;
  po_prefix : Finalized n' = false -> DecidedPrefix r = DecidedPrefix n;
  po_conf : Finalized n' = false ->
    nconf n' <= if AlphaConfidence p <=? Bag.Len votes
                then eff reset (nconf n) + 1 else 0;
  po_fin : Finalized n = false -> Finalized n' = true ->
    AlphaConfidence p <= Bag.Len votes /\ Beta p <= eff reset (nconf n) + 1;
}.

Lemma resetU_state snow reset : okU snow ->
  let snow' := if reset : bool then u_RecordUnsuccessfulPoll snow else snow in
  okU snow' /\ u_Finalized snow' = u_Finalized snow /\ confU snow' = eff reset (confU snow).
Proof.
  intros. destruct reset; cbn; [|done]. split; [by apply okU_reset|].
  split; [apply finU_reset|by apply confU_reset].
Qed.

Lemma resetB_state snow reset : okB snow ->
  let snow' := if reset : bool then b_RecordUnsuccessfulPoll snow else snow in
  okB snow' /\ b_Finalized snow' = b_Finalized snow /\ slushB snow' = slushB snow /\
  b_Preference snow' = b_Preference snow /\ confB snow' = eff reset (confB snow).
Proof.
  intros. destruct reset; cbn; [|done]. split; [by apply okB_reset|].
  split; [apply finB_reset|]. split; [apply slushB_reset|].
  split; [apply prefB_reset|by apply confB_reset].
Qed.

Lemma unary_ok_snow pref pref' dp cp snow rst snow' rst' :
  unary_ok pref dp cp snow rst -> wf_id pref' -> okU snow' ->
  (rst' = true -> confU snow' = 0) -> unary_ok pref' dp cp snow' rst'.
Proof. intros (? & ? & ? & ? & ?) ? ? ?. by split. Qed.

(** A poll that misses [AlphaPreference] at a unary node. *)
Lemma unary_miss pref dp cp snow rst child votes reset :
  let n := unaryNode pref dp cp snow rst child in
  wf n -> Bag.Len votes < AlphaPreference p ->
  let u := unaryNode pref dp cp
    (u_RecordUnsuccessfulPoll (if reset : bool then u_RecordUnsuccessfulPoll snow else snow))
    true child in
  poll_ok n u u votes reset.
Proof.
  intros n (Huok & Hch & Hwc) Hlt u. pose proof (valid_alpha p Hp).
  pose proof Huok as (? & ? & ? & Hok & _).
  destruct (resetU_state snow reset Hok) as (Hok' & Hf & Hc).
  assert (confU (u_RecordUnsuccessfulPoll
    (if reset then u_RecordUnsuccessfulPoll snow else snow)) = 0) as HR by by apply confU_reset.
  split; cbn; rewrite ?finU_reset, ?Hf; try done.
  - split; [by eapply unary_ok_snow; eauto using okU_reset|]. split; [|done].
    destruct (is_nil child); [done|]. destruct Hch as [? []]. by repeat split.
  - intros _. rewrite HR. zcase; lia.
  - by intros ->.
Qed.

Lemma unary_leaf_poll pref dp cp snow rst votes reset :
  let n := unaryNode pref dp cp snow rst Nil in
  wf n -> AlphaPreference p <= Bag.Len votes ->
  let u := unaryNode pref dp cp (u_RecordPoll
    (if reset : bool then u_RecordUnsuccessfulPoll snow else snow) (Bag.Len votes))
    false Nil in
  poll_ok n u u votes reset.
Proof.
  intros n (Huok & Hch & Hwc) Hlt u. pose proof Huok as (? & ? & ? & Hok & _).
  destruct (resetU_state snow reset Hok) as (Hok' & Hf & Hc).
  split; cbn; rewrite ?finU_poll, ?confU_poll, ?Hf, ?Hc by done; try done.
  - split; [by eapply unary_ok_snow; eauto using okU_poll|done].
  - intros -> Hfin. cbn in Hfin. apply andb_true_iff in Hfin as [? ?]. zcase; done || lia.
Qed.

Lemma unary_child_poll pref dp cp snow rst child votes reset child' newChild :
  let n := unaryNode pref dp cp snow rst child in
  let snow0 := if reset : bool then u_RecordUnsuccessfulPoll snow else snow in
  let rst0 := if reset then true else rst in
  let snow1 := u_RecordPoll snow0 (Bag.Len votes) in
  wf n -> is_nil child = false -> poll_ok child child' newChild votes rst0 ->
  if u_Finalized snow1
  then poll_ok n (unaryNode pref dp cp snow1 rst0 child') newChild votes reset
  else newChild = child' /\
    let u := unaryNode (Preference child') dp cp snow1 false child' in
    poll_ok n u u votes reset.
Proof.
  intros n snow0 rst0 snow1 (Huok & Hch & Hwc) Hnil
    [Hrn Hrw Hself Hsafe Hmono Hprefix Hconf Hfin].
  pose proof Huok as (Hpref & Hdp & Hcp & Hok & Hrst).
  destruct (resetU_state snow reset Hok) as (Hok' & Hf & Hc). fold snow0 in Hok', Hf, Hc.
  rewrite Hnil in Hch. destruct Hch as [Hlive [Hl Hp1 Hp2 Hcc]].
  assert (eff rst0 (nconf child) <= confU snow0) as Hle.
  { rewrite Hc. unfold eff, rst0. pose proof (confU_nonneg snow Hok).
    destruct reset; [lia|]. destruct rst; [lia|auto]. }
  rewrite Hp1, Hp2 in *. pose proof (finU_poll snow0 (Bag.Len votes) Hok') as Hfp.
  pose proof (confU_poll snow0 (Bag.Len votes) Hok') as Hcp'. fold snow1 in Hfp, Hcp'.
  rewrite Hf, Hlive in Hfp. cbn in Hfp. rewrite Hc in Hfp, Hcp'.
  destruct (u_Finalized snow1) eqn:E.
  - split; cbn; try done; try congruence.
    + eapply agree_weaken; [| |exact Hsafe]; lia.
    + lia.
    + intros _ _. symmetry in Hfp. apply andb_true_iff in Hfp as [? ?]. zcase; done || lia.
  - assert (Finalized child' = false) as Hfc.
    { destruct (Finalized child') eqn:Ec; [|done]. destruct (Hfin Hl eq_refl) as [? ?].
      exfalso. symmetry in Hfp. apply andb_false_iff in Hfp as [?|?]; zcase; done || lia. }
    specialize (Hself Hfc). split; [done|]. subst newChild.
    pose proof (wf_bounds child' Hrw Hrn) as [Hid _].
    split; cbn; try done; rewrite ?E; try done.
    + split; [by eapply unary_ok_snow; eauto using okU_poll|]. rewrite Hrn.
      split; [|done]. split; [done|]. split; try done; [auto|]. intros _.
      etransitivity; [by apply Hconf|]. rewrite Hcp'.
      destruct (_ <=? _); [|done]. rewrite <- Hc. lia.
    + eapply agree_weaken; [| |exact Hsafe]; lia.
    + intros _. by rewrite Hcp'.
Qed.

Lemma binary_ok_snow prefs i snow snow' :
  binary_ok prefs i snow -> okB snow' -> binary_ok prefs i snow'.
Proof. intros (? & ? & ? & ?) ?. by split. Qed.

Lemma binary_agree prefs i snow x y : binary_ok prefs i snow ->
  agree 0 i (sel x prefs) (sel y prefs).
Proof.
  intros (_ & _ & Ha & _). destruct x, y; cbn in *;
    done || apply agree_refl || by apply agree_sym.
Qed.

Lemma binary_miss prefs i snow rst c0 c1 votes numVotes reset rst' :
  let n := binaryNode prefs i snow rst c0 c1 in
  wf n -> numVotes < AlphaPreference p -> (forall x, sel x rst' = true) ->
  let b := binaryNode prefs i
    (b_RecordUnsuccessfulPoll (if reset : bool then b_RecordUnsuccessfulPoll snow else snow))
    rst' c0 c1 in
  poll_ok n b b votes reset.
Proof.
  intros n (Hbok & Hch & Hw0 & Hw1) Hlt Hrst b. pose proof Hbok as (? & ? & ? & Hok).
  destruct (resetB_state snow reset Hok) as (Hok' & Hf & Hs & Hpf & Hc).
  pose proof (confB_reset _ Hok') as HR. pose proof (confB_nonneg snow Hok).
  split; cbn; rewrite ?finB_reset, ?slushB_reset, ?prefB_reset, ?Hf, ?Hs, ?Hpf; try done.
  - split; [by eapply binary_ok_snow; eauto using okB_reset|]. split; [|done].
    destruct (is_nil c0); [done|]. destruct Hch as (? & ? & Hch).
    split; [done|]. split; [done|]. intros x. destruct (Hch x).
    split; try done. by rewrite Hrst.
  - intros _. rewrite HR. unfold eff. destruct reset; zcase; lia.
  - by intros ->.
Qed.

(** The votes at the winning child of a binary node are among its votes. *)
Definition poll_votes (votes : Bag.Bag ID) (numVotes : Z) : Prop :=
  AlphaPreference p <= numVotes <= Bag.Len votes.

Lemma poll_bound snow x votes numVotes reset : okB snow ->
  poll_votes votes numVotes ->
  let e := eff reset (confB snow) in
  let n := if eqb x (slushB snow) then e else 0 in
  (if AlphaConfidence p <=? numVotes then n + 1 else 0) <=
  (if AlphaConfidence p <=? Bag.Len votes then e + 1 else 0).
Proof.
  intros Hok [? ?] e n. pose proof (confB_nonneg snow Hok).
  assert (0 <= n <= e) by (unfold n, e, eff; destruct reset, (eqb _ _); lia).
  zcase; lia.
Qed.

Lemma binary_leaf_poll prefs i snow rst x votes numVotes reset rst' :
  let n := binaryNode prefs i snow rst Nil Nil in
  wf n -> poll_votes votes numVotes ->
  let b := binaryNode prefs i (b_RecordPoll
    (if reset : bool then b_RecordUnsuccessfulPoll snow else snow) numVotes x) rst' Nil Nil in
  poll_ok n b b votes reset.
Proof.
  intros n (Hbok & Hch & Hw0 & Hw1) Hv b. pose proof Hbok as (? & ? & ? & Hok).
  pose proof (poll_bound snow x votes numVotes reset Hok Hv) as Hb. cbn zeta in Hb.
  destruct Hv as [Hv1 Hv2].
  destruct (resetB_state snow reset Hok) as (Hok' & Hf & Hs & Hpf & Hc).
  set (snow0 := if reset then b_RecordUnsuccessfulPoll snow else snow) in *.
  split; cbn; try done.
  - split; [by eapply binary_ok_snow; eauto using okB_poll|done].
  - by eapply binary_agree.
  - intros Hfin. assert (b_Finalized snow0 = false) as Hf0.
    { destruct (b_Finalized snow0) eqn:E; [|done].
      destruct (finB_stays snow0 numVotes x E). congruence. }
    rewrite confB_poll, Hs, Hc by done. exact Hb.
  - intros Hl Hfin. rewrite Hl in Hf.
    rewrite finB_poll, Hs, Hc in Hfin by done. apply andb_true_iff in Hfin as [? ?].
    revert Hb. zcase; done || lia.
Qed.

Lemma binary_child_poll prefs i snow rst c0 c1 x votes pruned reset child' newChild :
  let n := binaryNode prefs i snow rst c0 c1 in
  let snow0 := if reset : bool then b_RecordUnsuccessfulPoll snow else snow in
  let rst0 := upd (negb x) true (if reset then upd x true rst else rst) in
  let snow1 := b_RecordPoll snow0 (Bag.Len pruned) x in
  let cs := upd x child' (c0, c1) in
  wf n -> is_nil (sel x (c0, c1)) = false -> poll_votes votes (Bag.Len pruned) ->
  poll_ok (sel x (c0, c1)) child' newChild pruned (sel x rst0) ->
  if b_Finalized snow1
  then poll_ok n (binaryNode prefs i snow1 rst0 cs.1 cs.2) newChild votes reset
  else newChild = child' /\
    let b := binaryNode (upd x (Preference newChild) prefs) i snow1
      (upd x false rst0) cs.1 cs.2 in
    poll_ok n b b votes reset.
Proof.
  intros n snow0 rst0 snow1 cs (Hbok & Hch & Hw0 & Hw1) Hnil Hv
    [Hrn Hrw Hself Hsafe Hmono Hprefix Hconf Hfin].
  pose proof Hbok as (? & Hprefs & Hpag & Hok).
  pose proof (poll_bound snow x votes _ reset Hok Hv) as Hb. cbn zeta in Hb.
  destruct Hv as [Hv1 Hv2].
  destruct (resetB_state snow reset Hok) as (Hok' & Hf & Hs & Hpf & Hc).
  fold snow0 in Hok', Hf, Hs, Hpf, Hc.
  assert (is_nil c0 = false) as E0.
  { destruct (is_nil c0) eqn:E; [|done]. destruct Hch as [-> _].
    destruct x; cbn in Hnil; congruence. }
  rewrite E0 in Hch. destruct Hch as (E1 & Hlive & Hch).
  pose proof (Hch x) as [Hl Hp1 Hp2 Hcc]. rewrite Hp1, Hp2 in *.
  rewrite Hlive in Hf.
  set (k := if eqb x (slushB snow) then eff reset (confB snow) else 0) in *.
  assert (eff (sel x rst0) (nconf (sel x (c0, c1))) <= k) as Hle.
  { unfold rst0, k. rewrite sel_upd. replace (eqb x (negb x)) with false by by destruct x.
    pose proof (confB_nonneg snow Hok). unfold eff.
    destruct reset; rewrite ?sel_upd, ?eqb_reflx; [destruct (eqb _ _); lia|].
    destruct (sel x rst); [destruct (eqb _ _); lia|]. specialize (Hcc eq_refl).
    replace (eqb x (slushB snow)) with (eqb (slushB snow) x) by by destruct x, (slushB snow).
    done. }
  pose proof (finB_poll snow0 (Bag.Len pruned) x Hok' Hf Hv1) as Hfp.
  pose proof (confB_poll snow0 (Bag.Len pruned) x Hok' Hf Hv1) as Hcp.
  pose proof (slushB_poll snow0 (Bag.Len pruned) x Hf Hv1 Hok') as Hsl.
  fold snow1 in Hfp, Hcp, Hsl. rewrite Hs, Hc in Hfp, Hcp. fold k in Hfp, Hcp.
  destruct (b_Finalized snow1) eqn:E.
  - split; cbn; try done; try congruence; try lia.
    + eapply agree_trans; [by eapply (binary_agree _ _ _ _ x)|].
      eapply agree_weaken; [| |exact Hsafe]; lia.
    + intros _ _. symmetry in Hfp. apply andb_true_iff in Hfp as [? ?].
      revert Hb. zcase; done || lia.
  - assert (Finalized child' = false) as Hfc.
    { destruct (Finalized child') eqn:Ec; [|done]. destruct (Hfin Hl eq_refl) as [? ?].
      exfalso. symmetry in Hfp. apply andb_false_iff in Hfp as [?|?]; zcase; done || lia. }
    specialize (Hself Hfc). split; [done|]. subst newChild. specialize (Hprefix Hfc).
    pose proof (wf_bounds child' Hrw Hrn) as [Hid _].
    assert (binary_ok (upd x (Preference child') prefs) i snow1) as Hbok'.
    { split; [done|]. split; [|split; [|by apply okB_poll]].
      - intros y. rewrite sel_upd. destruct (eqb y x) eqn:Ey; [|done].
        apply eqb_prop in Ey as ->. split; [done|]. rewrite <- (Hsafe i) by lia. apply Hprefs.
      - assert (agree 0 i (sel x prefs) (Preference child')) as Hc'
          by (eapply agree_weaken; [| |exact Hsafe]; lia).
        rewrite !sel_upd. destruct x; cbn in *.
        + by eapply agree_trans.
        + eapply agree_trans; [by apply agree_sym|done]. }
    split; cbn; try done; rewrite ?E; try done.
    + split; [done|]. replace (is_nil _) with false by (destruct x; cbn in *; done).
      split; [|destruct x; cbn in *; done].
      split; [by destruct x|]. split; [done|]. intros y. rewrite !sel_upd.
      destruct (eqb y x) eqn:Ey.
      * apply eqb_prop in Ey as ->. rewrite Hsl, eqb_reflx.
        replace (sel x (cs.1, cs.2)) with child' by (unfold cs; by destruct x).
        split; try done. intros _. rewrite Hcp. etransitivity; [by apply Hconf|].
        zcase; lia.
      * assert (y = negb x) as -> by by destruct x, y.
        replace (sel (negb x) (cs.1, cs.2)) with (sel (negb x) (c0, c1))
          by (unfold cs; by destruct x).
        destruct (Hch (negb x)). split; try done.
        unfold rst0. rewrite sel_upd, eqb_reflx. done.
    + destruct Hbok' as (_ & _ & Hag' & _).
      eapply agree_trans; [by eapply (binary_agree _ _ _ _ (negb x))|].
      pose proof (sel_upd (negb x) x (Preference child') prefs) as Hn.
      replace (eqb (negb x) x) with false in Hn by by destruct x. rewrite <- Hn.
      destruct x, (b_Preference snow1); cbn in *; done || apply agree_refl || by apply agree_sym.
    + intros _. rewrite Hcp. exact Hb.
Qed.

Lemma split_votes votes i : Bag.wf votes ->
  let s := Bag.Split votes (fun id => Bit id i =? 1) in
  (forall x, Bag.wf (sel x s)) /\ (forall x, 0 <= Bag.Len (sel x s)) /\
  Bag.Len (sel false s) + Bag.Len (sel true s) = Bag.Len votes.
Proof.
  intros Hv s. unfold s. rewrite Bag.Split_Filter.
  pose proof (Bag.Filter_spec votes (fun id => Bit id i =? 1) Hv) as [Hf1 _].
  pose proof (Bag.Filter_spec votes (fun id => negb (Bit id i =? 1)) Hv) as [Hf0 _].
  pose proof (Bag.Len_filter_split votes (fun id => Bit id i =? 1) Hv) as Hl.
  assert (forall b : Bag.Bag ID, Bag.wf b -> 0 <= Bag.Len b) as Hnn.
  { intros b [Hb Hs]. unfold Bag.Len. rewrite Hs. apply msum_nonneg.
    eapply map_Forall_impl; [exact Hb|]. cbn. lia. }
  split; [by intros []|]. split; [intros []; cbn; by apply Hnn|]. by rewrite Hl.
Qed.

Lemma RecordPoll_ok n votes reset : wf n -> is_nil n = false -> Bag.wf votes ->
  poll_ok n (RecordPoll p n votes reset).1.1 (RecordPoll p n votes reset).1.2 votes reset.
Proof.
  revert votes reset.
  induction n as [|pref dp cp snow rst child IH|prefs i snow rst c0 IH0 c1 IH1];
    intros votes reset Hwf Hnil Hv; [done|..]; cbn [RecordPoll]; unfold unaryNode_RecordPoll, binaryNode_RecordPoll; rewrite ?(sel_app (Tree.RecordPoll p)).
  - destruct (Z.ltb_spec (Bag.Len votes) (AlphaPreference p)); [by apply unary_miss|].
    destruct (is_nil child) eqn:En.
    { destruct child; try done. by apply unary_leaf_poll. }
    pose proof Hwf as (_ & _ & Hwc).
    specialize (IH votes (if reset then true else rst) Hwc eq_refl Hv).
    pose proof (unary_child_poll pref dp cp snow rst child votes reset _ _ Hwf En IH) as Hu.
    destruct (RecordPoll p child votes _) as [[child' newChild] ok]. cbn in Hu |- *.
    destruct (u_Finalized _); [done|apply Hu].
  - destruct (split_votes votes i Hv) as (Hsw & Hsn & Hsl).
    set (s := Bag.Split votes _) in *.
    set (x := AlphaPreference p <=? Bag.Len (sel true s)).
    assert (Bag.Len (sel x s) <= Bag.Len votes) as Hle.
    { pose proof (Hsn true). pose proof (Hsn false). destruct x; lia. }
    destruct (Z.ltb_spec (Bag.Len (sel x s)) (AlphaPreference p)).
    { eapply binary_miss; [done|done|]. intros y. rewrite !sel_upd.
      by destruct reset, y, x; rewrite ?sel_upd. }
    destruct (is_nil (sel x (c0, c1))) eqn:En.
    { pose proof Hwf as (_ & Hch & _). assert (c0 = Nil /\ c1 = Nil) as [-> ->].
      { destruct (is_nil c0) eqn:E0; [destruct c0; naive_solver|].
        destruct Hch as [? _]. destruct x; cbn in En; congruence. }
      eapply binary_leaf_poll; [done|]. by split. }
    pose proof Hwf as (_ & _ & Hw0 & Hw1).
    set (rst0 := upd (negb x) true (if reset then upd x true rst else rst)).
    assert (poll_ok (sel x (c0, c1))
      (RecordPoll p (sel x (c0, c1)) (sel x s) (sel x rst0)).1.1
      (RecordPoll p (sel x (c0, c1)) (sel x s) (sel x rst0)).1.2
      (sel x s) (sel x rst0)) as IH.
    { specialize (Hsw x). destruct x; cbn in En |- *; [apply IH1|apply IH0]; done. }
    pose proof (binary_child_poll prefs i snow rst c0 c1 x votes (sel x s) reset
      _ _ Hwf En (conj H2 Hle) IH) as Hb.
    destruct (RecordPoll p (sel x (c0, c1)) _ _) as [[child' newChild] ok].
    cbn [fst snd] in Hb |- *. fold rst0 in Hb. cbn zeta in Hb.
    destruct (b_Finalized _); [done|apply Hb].
Qed.

(** ** The tree *)
Inductive tree_op :=
  | OpAdd (choice : ID)
  | OpRecordPoll (votes : Bag.Bag ID)
  | OpRecordUnsuccessfulPoll.

Definition tree_step (t : Tree U B) (o : tree_op) : Tree U B :=
  match o with
  | OpAdd c => Tree_Add p t c
  | OpRecordPoll v => (Tree_RecordPoll p t v).1
  | OpRecordUnsuccessfulPoll => Tree_RecordUnsuccessfulPoll t
  end.

Definition op_ok (o : tree_op) : Prop :=
  match o with
  | OpAdd c => wf_id c
  | OpRecordPoll v => Bag.wf v
  | OpRecordUnsuccessfulPoll => True
  end.

Definition tree_wf (t : Tree U B) : Prop := wf (tnode t) /\ is_nil (tnode t) = false.

(** The bits [t] has decided are decided in the same way by [t']. *)
Definition extends (t t' : Tree U B) : Prop :=
  DecidedPrefix (tnode t) <= DecidedPrefix (tnode t') /\
  agree 0 (DecidedPrefix (tnode t)) (Preference (tnode t)) (Preference (tnode t')).

Lemma extends_refl t : extends t t.
Proof. split; [done|apply agree_refl]. Qed.

Lemma extends_trans t1 t2 t3 : extends t1 t2 -> extends t2 t3 -> extends t1 t3.
Proof.
  intros [? H12] [? H23]. split; [lia|]. eapply agree_trans; [done|].
  eapply agree_weaken; [| |exact H23]; lia.
Qed.

Lemma NewTree_wf choice : wf_id choice -> tree_wf (NewTree p choice).
Proof.
  intros Hid. split; [|done]. cbn. split; [|done]. split; [done|]. split; [unfold NumBits; lia|].
  split; [done|]. split; [apply okU_new|done].
Qed.

Lemma tree_step_ok t o : tree_wf t -> op_ok o ->
  tree_wf (tree_step t o) /\ extends t (tree_step t o).
Proof.
  intros [Hw Hn] Ho. destruct o as [c|v|]; cbn.
  - unfold Tree_Add. case_match eqn:E; [|split; [done|apply extends_refl]].
    destruct (wf_bounds _ Hw Hn) as [Hid Hb].
    rewrite EqualSubset_spec in E by (done || lia).
    destruct (Add_ok (tnode t) c Hw Hn Ho E) as [Hw' [Hn' Hp' Hd' _ _]].
    split; [by split|]. split; cbn [tnode]; rewrite ?Hd'; [done|]. rewrite Hp'. apply agree_refl.
  - unfold Tree_RecordPoll. set (v' := Bag.Filter v _).
    destruct (Bag.Filter_spec v (fun id => EqualSubset 0 (DecidedPrefix (tnode t))
      (Preference (tnode t)) id) Ho) as [Hv' _]. fold v' in Hv'.
    pose proof (RecordPoll_ok (tnode t) v' (shouldReset t) Hw Hn Hv') as [].
    destruct (RecordPoll p (tnode t) v' _) as [[n' r] ok]. cbn in *. by split; split.
  - by split.
Qed.

Definition tree_run (choice : ID) (ops : list tree_op) : Tree U B :=
  foldl tree_step (NewTree p choice) ops.

Lemma tree_run_wf (choice : ID) (ops : list tree_op) :
  wf_id choice -> Forall op_ok ops -> tree_wf (tree_run choice ops).
Proof.
  intros Hid. unfold tree_run. induction ops as [|o ops IH] using rev_ind; intros Ho.
  - by apply NewTree_wf.
  - apply Forall_app in Ho as [Ho [Hlast _]%Forall_cons]. rewrite foldl_snoc.
    apply tree_step_ok; auto.
Qed.

(** The consecutive successes that a node counts with in the next poll, when a reset
    that is pending above it has been executed or not ([reset]). *)
Definition counted (reset : bool) n : Z := if reset then 0 else nconf n.

(** No child counts with more than its parent, and the children that the parent does
    not prefer count with none.  [reset]: a reset of [n] itself is pending. *)
Fixpoint no_child_ahead (reset : bool) n : Prop :=
  match n with
  | Nil => True
  | unaryNode _ _ _ snow rst child =>
      counted (reset || rst) child <= (if reset then 0 else confU snow) /\
      no_child_ahead (reset || rst) child
  | binaryNode _ _ snow rst c0 c1 =>
      (forall x, counted (reset || sel x rst) (sel x (c0, c1)) <=
         if reset || negb (eqb (slushB snow) x) then 0 else confB snow) /\
      no_child_ahead (reset || sel false rst) c0 /\ no_child_ahead (reset || sel true rst) c1
  end.

Lemma counted_le reset rst pref lo bound c : 0 <= bound -> (is_nil c = false -> child_ok bound rst pref lo c) ->
  counted (reset || rst) c <= if reset then 0 else bound.
Proof.
  intros Hb Hc. unfold counted. destruct reset; [done|]. cbn. destruct rst; [done|].
  destruct (is_nil c) eqn:Hn; [by destruct c|]. by apply (ch_conf _ _ _ _ _ (Hc eq_refl)).
Qed.

Lemma wf_no_child_ahead reset n : wf n -> no_child_ahead reset n.
Proof.
  revert reset. induction n as [|pref dp cp snow rst child IH|prefs i snow rst c0 IH0 c1 IH1]; intros reset; cbn; [done|..].
  - intros ((_ & _ & _ & Hok & _) & Hch & Hwc). split; [|by apply IH].
    apply (counted_le _ _ pref cp); [by apply confU_nonneg|]. intros Hn. rewrite Hn in Hch. apply Hch.
  - intros ((_ & _ & _ & Hok) & Hch & Hw0 & Hw1). split; [|split; [by apply IH0|by apply IH1]].
    intros x. pose proof (confB_nonneg snow Hok) as Hpos.
    replace (if reset || negb (eqb (slushB snow) x) then 0 else confB snow)
      with (if reset then 0 else if eqb (slushB snow) x then confB snow else 0) by (by destruct reset, (eqb (slushB snow) x)).
    apply (counted_le _ _ (sel x prefs) (i + 1)); [destruct (eqb (slushB snow) x); lia|]. intros Hn.
    destruct (is_nil c0) eqn:Hn0; [|by apply Hch]. destruct Hch as [-> _]. destruct c0; [|done..]. by destruct x.
Qed.

(** C8: in every reachable state the tree is a patricia trie over the decided
    prefixes, the preference of a live node is the preference of its preferred child,
    every node with children is undecided, as are its children; and no child counts
    with more consecutive successes than its parent, where a node below a reset that
    is pending counts with none: its stored counter, which may be higher, is only
    bounded by the parent's when its reset is not pending. *)
Theorem tree_invariant (choice : ID) (ops : list tree_op) :
  wf_id choice -> Forall op_ok ops ->
  let t := tree_run choice ops in tree_wf t /\ no_child_ahead (shouldReset t) (tnode t).
Proof.
  intros Hid Ho t. pose proof (tree_run_wf choice ops Hid Ho) as Hw. split; [done|].
  apply wf_no_child_ahead, Hw.
Qed.

Lemma tree_run_app choice ops1 ops2 :
  tree_run choice (ops1 ++ ops2) = foldl tree_step (tree_run choice ops1) ops2.
Proof. apply foldl_app. Qed.

(** C7: once a bit of the identifier is decided it stays decided, and every
    later preference has the same decided bits. *)
Theorem tree_decisions_irrevocable (choice : ID) (ops1 ops2 : list tree_op) :
  wf_id choice -> Forall op_ok (ops1 ++ ops2) ->
  extends (tree_run choice ops1) (tree_run choice (ops1 ++ ops2)).
Proof.
  intros Hid. induction ops2 as [|o ops IH] using rev_ind; intros Ho.
  - rewrite app_nil_r. apply extends_refl.
  - rewrite app_assoc in *. apply Forall_app in Ho as [Ho [Hlast _]%Forall_cons].
    eapply extends_trans; [by apply IH|]. rewrite (tree_run_app _ (ops1 ++ ops)). cbn.
    apply tree_step_ok; [by apply tree_run_wf|done].
Qed.

(** *** Finality *)
Lemma final_leaf n : wf n -> Finalized n = true ->
  match n with
  | Nil => False
  | unaryNode _ _ _ _ _ child => child = Nil
  | binaryNode _ _ _ _ c0 c1 => c0 = Nil /\ c1 = Nil
  end.
Proof.
  destruct n as [|pref dp cp snow rst child|prefs i snow rst c0 c1]; cbn; [done|..].
  - intros (_ & Hch & _) Hf. destruct (is_nil child) eqn:E; [by destruct child|].
    destruct Hch as [? _]. congruence.
  - intros (_ & Hch & _) Hf. destruct (is_nil c0) eqn:E; [destruct c0; naive_solver|].
    destruct Hch as (_ & ? & _). congruence.
Qed.

Lemma final_Add n id : wf n -> Finalized n = true -> Add p n id = n.
Proof.
  intros Hw Hf. pose proof (final_leaf n Hw Hf) as Hl. destruct n; cbn in *;
    [done|unfold unaryNode_Add|unfold binaryNode_Add].
  - by rewrite Hf.
  - destruct Hl as [-> ->]. cbn. by destruct (_ =? _).
Qed.

Lemma final_RecordPoll n votes reset : wf n -> Finalized n = true ->
  let r := (RecordPoll p n votes reset).1.2 in
  Finalized r = true /\ Preference r = Preference n.
Proof.
  intros Hw Hf. pose proof (final_leaf n Hw Hf) as Hl.
  destruct n as [|pref dp cp snow rst child|prefs i snow rst c0 c1]; cbn in Hl; [done|..].
  - subst child. destruct Hw as [(_ & _ & _ & Hok & _) _]. cbn [RecordPoll]; unfold unaryNode_RecordPoll, binaryNode_RecordPoll; rewrite ?(sel_app (Tree.RecordPoll p)).
    destruct (resetU_state snow reset Hok) as (Hok' & Hf' & _).
    set (snow0 := if reset then u_RecordUnsuccessfulPoll snow else snow) in *.
    cbn in Hf. destruct (Bag.Len votes <? AlphaPreference p); cbn.
    + by rewrite finU_reset, Hf'.
    + by rewrite finU_poll, Hf', Hf.
  - destruct Hl as [-> ->]. destruct Hw as [(_ & _ & _ & Hok) _]. cbn [RecordPoll]; unfold unaryNode_RecordPoll, binaryNode_RecordPoll; rewrite ?(sel_app (Tree.RecordPoll p)).
    destruct (resetB_state snow reset Hok) as (Hok' & Hf' & Hs & Hp' & _).
    set (snow0 := if reset then b_RecordUnsuccessfulPoll snow else snow) in *.
    set (s := Bag.Split votes _). set (x := AlphaPreference p <=? _).
    cbn in Hf. rewrite Hf in Hf'.
    destruct (Bag.Len (sel x s) <? AlphaPreference p); cbn.
    + by rewrite finB_reset, prefB_reset, Hf', Hp'.
    + replace (is_nil (sel x (Nil, Nil))) with true by by destruct x. cbn.
      destruct (finB_stays snow0 (Bag.Len (sel x s)) x Hf') as [Hf2 Hs2].
      split; [exact Hf2|]. by rewrite (prefB_fin _ Hf2), Hs2, Hs, (prefB_fin _ Hf).
Qed.

(** C10: a finalized tree stays finalized with the same preference. *)
Theorem tree_finality (choice : ID) (ops1 ops2 : list tree_op) :
  wf_id choice -> Forall op_ok (ops1 ++ ops2) ->
  Finalized (tnode (tree_run choice ops1)) = true ->
  Finalized (tnode (tree_run choice (ops1 ++ ops2))) = true /\
  Preference (tnode (tree_run choice (ops1 ++ ops2))) =
    Preference (tnode (tree_run choice ops1)).
Proof.
  intros Hid. induction ops2 as [|o ops IH] using rev_ind; intros Ho Hf.
  { by rewrite app_nil_r. }
  rewrite app_assoc in *. apply Forall_app in Ho as [Ho _].
  destruct (IH Ho Hf) as [Hf' Hp']. rewrite (tree_run_app _ (ops1 ++ ops)). cbn.
  rewrite <- Hp'. destruct (tree_run_wf choice (ops1 ++ ops) Hid Ho) as [Hw _].
  set (t := tree_run choice (ops1 ++ ops)) in *. destruct o as [c|v|]; cbn; [| |done].
  - unfold Tree_Add. case_match; [|done]. cbn. by rewrite final_Add.
  - unfold Tree_RecordPoll. set (v' := Bag.Filter v _).
    pose proof (final_RecordPoll (tnode t) v' (shouldReset t) Hw Hf') as Hr.
    by destruct (RecordPoll p (tnode t) v' _) as [[n' r] ok].
Qed.
End invariant.

(** ** A concrete tree

    Snowflake instances with [Beta = 2] over identifiers that differ in their
    first byte: 0 and 1 differ in bit 0, 0 and 4 in bit 2. *)
Module Example.
Definition params : Parameters := SnowballFacts.SnowballFacts.example_params.
Definition valid_params : valid params := SnowballFacts.SnowballFacts.example_valid.

#[export] Instance laws :
  SnowLaws unarySnowflake binarySnowflake params (NewUnary (N:=nnarySnowflake) params) :=
  snowflake_laws params valid_params.

Definition a : ID := id_of [0].
Definition b : ID := id_of [1].
Definition c : ID := id_of [4].

Definition op := tree_op.

(** [b] and [c] are added; two polls prefer [c] and decide everything. *)
Definition setup : list op := [OpAdd b; OpAdd c; OpRecordPoll (Bag.Of [a; b])].
Definition polls : list op :=
  [OpRecordPoll (Bag.Of [c; c; a]); OpRecordUnsuccessfulPoll;
   OpRecordPoll (Bag.Of [c; c; c]); OpRecordPoll (Bag.Of [c; c; b])].

Lemma wf_a : wf_id a.
Proof. by apply wf_idb_wf. Qed.

Lemma ops_ok : Forall op_ok (setup ++ polls).
Proof.
  repeat (constructor; [first [exact I | apply Bag.Add_wf, Bag.empty_wf
    | by apply wf_idb_wf]|]). constructor.
Qed.

Abbreviation run ops := (tree_run (NN:=nnarySnowflake) (U:=unarySnowflake)
  (B:=binarySnowflake) params a ops).
End Example.

Lemma tree_invariant_witness :
  let t := Example.run (Example.setup ++ Example.polls) in
  tree_wf (NN:=nnarySnowflake) (L:=Example.laws) Example.params t /\
  no_child_ahead (L:=Example.laws) Example.params (shouldReset t) (tnode t).
Proof.
  apply (tree_invariant (NN:=nnarySnowflake) (L:=Example.laws) Example.params Example.valid_params); [exact Example.wf_a|].
  exact Example.ops_ok.
Defined.

Lemma tree_decisions_irrevocable_witness :
  extends (Example.run Example.setup) (Example.run (Example.setup ++ Example.polls)) /\
  DecidedPrefix (tnode (Example.run (Example.setup ++ Example.polls))) = 3.
Proof.
  split; [|vm_compute; reflexivity].
  apply (tree_decisions_irrevocable (NN:=nnarySnowflake) (L:=Example.laws) Example.params Example.valid_params);
    [exact Example.wf_a|exact Example.ops_ok].
Defined.

Lemma tree_finality_witness :
  let final := Example.run (Example.setup ++ Example.polls) in
  let later := Example.run ((Example.setup ++ Example.polls) ++
                 [OpRecordPoll (Bag.Of [Example.a; Example.a; Example.a])]) in
  Finalized (tnode final) = true /\ Preference (tnode final) = Example.c /\
  Finalized (tnode later) = true /\ Preference (tnode later) = Preference (tnode final).
Proof.
  split; [vm_compute; reflexivity|]. split; [vm_compute; reflexivity|].
  apply (tree_finality (NN:=nnarySnowflake) (L:=Example.laws) Example.params Example.valid_params Example.a
    (Example.setup ++ Example.polls)); [exact Example.wf_a| |vm_compute; reflexivity].
  apply Forall_app. split; [exact Example.ops_ok|]. constructor; [|constructor].
  apply Bag.Add_wf, Bag.empty_wf.
Defined.
End TreeFacts.
