(* ===== verification/TreeEager.v ===== *)
(** * Lazy counter resets

    The tree of [Tree.v] does not reset the counters of a sub-tree that lost a
    poll; it sets [shouldReset] and resets on the next traversal.  This file
    defines the reference that resets the whole sub-tree at once and proves that
    the lazy tree refines it: preferences, finality and poll results agree in
    every reachable state. *)

From S2P Require Import Prelude Bits Bag Snowball Tree TreeFacts.

Module TreeEager.
Import Bits Snowball Tree TreeFacts.

Section eager.
Context {NN U B : Type} `{HF : Factory NN U B} (p : Parameters) (Hp : valid p).
Context `{L : !SnowLaws U B p (NewUnary p)}.

Abbreviation node := (node U B).
Implicit Types (n c : node) (votes : Bag.Bag ID).
Abbreviation Add := (Add (NN:=NN) p).
Abbreviation RecordPoll := (RecordPoll p).

(** ** The reference: no flags, resets reach every instance at once *)
Fixpoint resetAll n : node :=
  match n with
  | Nil => Nil
  | unaryNode pref dp cp snow _ child =>
      unaryNode pref dp cp (u_RecordUnsuccessfulPoll snow) false (resetAll child)
  | binaryNode prefs i snow _ c0 c1 =>
      binaryNode prefs i (b_RecordUnsuccessfulPoll snow) (false, false)
        (resetAll c0) (resetAll c1)
  end.

Fixpoint eager_RecordPoll n votes : node * bool :=
  match n with
  | Nil => (Nil, false)
  | unaryNode pref dp cp snow _ child =>
      if Bag.Len votes <? AlphaPreference p then (resetAll n, false)
      else
        let snow := u_RecordPoll snow (Bag.Len votes) in
        if is_nil child then (unaryNode pref dp cp snow false child, true)
        else
          let child := (eager_RecordPoll child votes).1 in
          (if u_Finalized snow then child
           else unaryNode (Preference child) dp cp snow false child, true)
  | binaryNode prefs i snow _ c0 c1 =>
      let splitVotes := Bag.Split votes (fun id => Bit id i =? 1) in
      let x := AlphaPreference p <=? Bag.Len (sel true splitVotes) in
      let votes := sel x splitVotes in
      if Bag.Len votes <? AlphaPreference p then (resetAll n, false)
      else
        let snow := b_RecordPoll snow (Bag.Len votes) x in
        let cs := (resetAll c0, resetAll c1) in
        if is_nil (sel x (c0, c1)) then
          (binaryNode prefs i snow (false, false) c0 c1, true)
        else
          let child := (eager_RecordPoll (sel x (c0, c1)) votes).1 in
          let cs := upd x child cs in
          (if b_Finalized snow then child
           else binaryNode (upd x (Preference child) prefs) i snow (false, false)
                  cs.1 cs.2, true)
  end.

(** ** Executing the pending resets of a lazy node *)
Fixpoint force n : node :=
  match n with
  | Nil => Nil
  | unaryNode pref dp cp snow rst child =>
      unaryNode pref dp cp snow false (if rst then resetAll child else force child)
  | binaryNode prefs i snow rst c0 c1 =>
      binaryNode prefs i snow (false, false)
        (if sel false rst then resetAll c0 else force c0)
        (if sel true rst then resetAll c1 else force c1)
  end.

Definition norm (rst : bool) n : node := if rst then resetAll n else force n.

Lemma norm_nil rst n : is_nil (norm rst n) = is_nil n.
Proof. by destruct n, rst. Qed.
Lemma norm_prefix rst n : DecidedPrefix (norm rst n) = DecidedPrefix n.
Proof. by destruct n, rst. Qed.
Lemma norm_fin rst n : Finalized (norm rst n) = Finalized n.
Proof. destruct n, rst; cbn; rewrite ?finU_reset, ?finB_reset; done. Qed.
Lemma norm_pref rst n : Preference (norm rst n) = Preference n.
Proof. destruct n, rst; cbn; rewrite ?prefB_reset; done. Qed.

Lemma resetU_idem snow : okU snow ->
  u_RecordUnsuccessfulPoll (u_RecordUnsuccessfulPoll snow) = u_RecordUnsuccessfulPoll snow.
Proof. intros. apply resetU_conf0; [by apply okU_reset|by apply confU_reset]. Qed.

Lemma resetB_idem snow : okB snow ->
  b_RecordUnsuccessfulPoll (b_RecordUnsuccessfulPoll snow) = b_RecordUnsuccessfulPoll snow.
Proof. intros. apply resetB_conf0; [by apply okB_reset|by apply confB_reset]. Qed.

Lemma resetAll_norm rst n : wf p n -> resetAll (norm rst n) = resetAll n.
Proof.
  revert rst. induction n as [|pref dp cp snow r child IH|prefs i snow r c0 IH0 c1 IH1];
    intros rst Hw; [by destruct rst|..].
  - destruct Hw as ((_ & _ & _ & Hok & _) & _ & Hwc). destruct rst; cbn.
    + rewrite resetU_idem by done. f_equal. by apply (IH true).
    + f_equal. by apply (IH r).
  - destruct Hw as ((_ & _ & _ & Hok) & _ & Hw0 & Hw1). destruct rst; cbn.
    + rewrite resetB_idem by done. f_equal; [by apply (IH0 true)|by apply (IH1 true)].
    + f_equal; [by apply (IH0 (sel false r))|by apply (IH1 (sel true r))].
Qed.

(** ** Adding a choice commutes with executing the resets *)
Lemma norm_leaf rst id i : norm rst (new_leaf (NN:=NN) p id i) = new_leaf p id i.
Proof.
  destruct rst; cbn; [|done]. unfold new_leaf. f_equal.
  apply resetU_conf0; [apply okU_new|apply confU_new].
Qed.

Lemma norm_tail rst pref dp cp snow child : okU snow -> (rst = true -> confU snow = 0) ->
  norm rst (unaryNode pref dp cp snow rst child) =
  unaryNode pref dp cp snow false (norm rst child).
Proof. intros. destruct rst; cbn; [by rewrite resetU_conf0 by auto|done]. Qed.

Lemma norm_split rst rst' pref id i snow c c' :
  okU snow -> (rst = true -> confU snow = 0) -> (rst = true -> rst' = true) ->
  norm rst (split_node pref id i snow rst' c c') =
  split_node pref id i snow false (norm rst' c) (norm rst' c').
Proof.
  intros Hok Hr Hrr. unfold split_node. destruct rst; cbn [norm].
  - rewrite (Hrr eq_refl). cbn [resetAll]. rewrite resetB_extend, resetU_conf0 by auto.
    by destruct (Bit pref i =? 1).
  - cbn [force]. rewrite ?sel_const. by destruct (Bit pref i =? 1).
Qed.

Lemma Add_resetAll n id : Add (resetAll n) id = resetAll (Add n id).
Proof.
  assert (forall pref d snow rst c c', resetAll (split_node pref id d snow rst c c') =
    split_node pref id d (u_RecordUnsuccessfulPoll snow) false (resetAll c) (resetAll c'))
    as Hsplit.
  { intros. unfold split_node. cbn. rewrite resetB_extend. by destruct (_ =? _). }
  assert (forall i, resetAll (new_leaf (NN:=NN) p id i) = new_leaf p id i) as Hleaf
    by (intros; apply (norm_leaf true)).
  induction n as [|pref dp cp snow r child IH|prefs i snow r c0 IH0 c1 IH1]; [done|..].
  - cbn [resetAll Tree.Add]; unfold unaryNode_Add, binaryNode_Add; cbn [resetAll Tree.Add]. rewrite finU_reset. destruct (u_Finalized snow); [done|].
    pose proof (norm_nil true child) as Hn. cbn in Hn. rewrite Hn.
    destruct (FirstDifferenceSubset dp cp pref id) as [d|].
    + assert (resetAll (if is_nil child then Nil else new_leaf (NN:=NN) p id d) =
        (if is_nil child then Nil else new_leaf p id d)) as Hl
        by (destruct (is_nil child); [done|apply Hleaf]).
      destruct (dp =? cp - 1); [by rewrite Hsplit, Hl|].
      destruct (d =? dp); [by rewrite Hsplit, Hleaf|].
      destruct (d =? cp - 1); [cbn [resetAll]; by rewrite Hsplit, Hl|].
      cbn [resetAll]. by rewrite !clone_id, Hsplit, Hleaf.
    + destruct (is_nil child); [done|]. cbn [resetAll]. by rewrite IH.
  - cbn [resetAll Tree.Add]; unfold unaryNode_Add, binaryNode_Add; cbn [resetAll Tree.Add].
    pose proof (norm_nil true c0) as Hn0. pose proof (norm_nil true c1) as Hn1.
    cbn in Hn0, Hn1. rewrite Hn0, Hn1.
    destruct (Bit id i =? 1).
    + destruct (is_nil c1); [done|]. cbn [resetAll sel snd]. by rewrite IH1.
    + destruct (is_nil c0); [done|]. cbn [resetAll sel fst]. by rewrite IH0.
Qed.

Lemma Add_force n id : wf p n -> Add (force n) id = force (Add n id).
Proof.
  assert (forall c rst, Add (force c) id = force (Add c id) ->
    Add (norm rst c) id = norm rst (Add c id)) as Hnorm
    by (intros c [] Hc; [apply Add_resetAll|done]).
  assert (forall pref d snow rst c c', force (split_node pref id d snow rst c c') =
    split_node pref id d snow false (norm rst c) (norm rst c')) as Hsplit.
  { intros. unfold split_node. cbn. rewrite ?sel_const. by destruct (_ =? _). }
  induction n as [|pref dp cp snow r child IH|prefs i snow r c0 IH0 c1 IH1]; intros Hw; [done|..].
  - destruct Hw as ((_ & _ & _ & Hok & Hr) & _ & Hwc). specialize (IH Hwc).
    cbn [force Tree.Add]; unfold unaryNode_Add, binaryNode_Add; cbn [force Tree.Add]. fold (norm r child). rewrite norm_nil.
    destruct (u_Finalized snow); [done|].
    destruct (FirstDifferenceSubset dp cp pref id) as [d|].
    + assert (norm r (if is_nil child then Nil else new_leaf (NN:=NN) p id d) =
        (if is_nil child then Nil else new_leaf p id d)) as Hl
        by (destruct (is_nil child); [by destruct r|apply norm_leaf]).
      destruct (dp =? cp - 1); [by rewrite Hsplit, Hl|].
      destruct (d =? dp); [by rewrite Hsplit, norm_leaf, norm_tail|].
      destruct (d =? cp - 1).
      * cbn [force]. fold (norm r (split_node pref id d snow r child
          (if is_nil child then Nil else new_leaf (NN:=NN) p id d))).
        by rewrite norm_split, Hl by done.
      * cbn [force]. by rewrite !clone_id, Hsplit, norm_leaf, norm_tail.
    + destruct (is_nil child); [done|]. cbn [force].
      f_equal. by apply Hnorm.
  - destruct Hw as (_ & _ & Hw0 & Hw1). specialize (IH0 Hw0). specialize (IH1 Hw1).
    cbn [force Tree.Add]; unfold unaryNode_Add, binaryNode_Add; cbn [force Tree.Add]. fold (norm (sel false r) c0). fold (norm (sel true r) c1).
    rewrite !norm_nil. destruct (Bit id i =? 1).
    + destruct (is_nil c1); [done|]. cbn [force sel snd]. f_equal. by apply Hnorm.
    + destruct (is_nil c0); [done|]. cbn [force sel fst]. f_equal. by apply Hnorm.
Qed.

(** ** Polls *)
Lemma eager_unary_miss pref dp cp snow rst child votes reset :
  let n := unaryNode pref dp cp snow rst child in
  wf p n -> Bag.Len votes < AlphaPreference p ->
  eager_RecordPoll (norm reset n) votes =
    (force (unaryNode pref dp cp (u_RecordUnsuccessfulPoll
      (if reset then u_RecordUnsuccessfulPoll snow else snow)) true child), false).
Proof.
  intros n Hw Hlt.
  assert (eager_RecordPoll (norm reset n) votes = (resetAll (norm reset n), false)) as ->.
  { destruct reset; cbn; by destruct (Z.ltb_spec (Bag.Len votes) (AlphaPreference p)); [|lia]. }
  rewrite resetAll_norm by done. destruct Hw as ((_ & _ & _ & Hok & _) & _).
  destruct reset; cbn; by rewrite ?resetU_idem by done.
Qed.

Lemma eager_binary_miss prefs i snow rst c0 c1 votes x reset rst' :
  let n := binaryNode prefs i snow rst c0 c1 in
  let s := Bag.Split votes (fun id => Bit id i =? 1) in
  wf p n -> x = (AlphaPreference p <=? Bag.Len (sel true s)) ->
  Bag.Len (sel x s) < AlphaPreference p -> (forall y, sel y rst' = true) ->
  eager_RecordPoll (norm reset n) votes =
    (force (binaryNode prefs i (b_RecordUnsuccessfulPoll
      (if reset then b_RecordUnsuccessfulPoll snow else snow)) rst' c0 c1), false).
Proof.
  intros n s Hw Hx Hlt Hrst.
  assert (eager_RecordPoll (norm reset n) votes = (resetAll (norm reset n), false)) as ->.
  { subst x. unfold n, s in *. apply Z.ltb_lt in Hlt.
    destruct reset; cbn [norm resetAll force eager_RecordPoll]; by rewrite Hlt. }
  rewrite resetAll_norm by done. destruct Hw as ((_ & _ & _ & Hok) & _).
  cbn [force]. rewrite !Hrst.
  destruct reset; cbn; by rewrite ?resetB_idem by done.
Qed.

Lemma eager_poll n votes reset : wf p n -> is_nil n = false -> Bag.wf votes ->
  eager_RecordPoll (norm reset n) votes =
    (force (RecordPoll n votes reset).1.2, (RecordPoll n votes reset).2).
Proof.
  revert votes reset.
  induction n as [|pref dp cp snow rst child IH|prefs i snow rst c0 IH0 c1 IH1];
    intros votes reset Hwf Hnil Hv; [done|..]; cbn [Tree.RecordPoll]; unfold unaryNode_RecordPoll, binaryNode_RecordPoll; rewrite ?(sel_app (Tree.RecordPoll p)).
  - destruct (Z.ltb_spec (Bag.Len votes) (AlphaPreference p)) as [Hlt|Hge];
      [by apply eager_unary_miss|].
    pose proof Hwf as (_ & _ & Hwc).
    set (snow0 := if reset then u_RecordUnsuccessfulPoll snow else snow).
    set (rst0 := if reset then true else rst).
    assert (norm reset (unaryNode pref dp cp snow rst child) =
      unaryNode pref dp cp snow0 false (norm rst0 child)) as -> by by destruct reset.
    cbn [eager_RecordPoll]. rewrite norm_nil.
    destruct (Z.ltb_spec (Bag.Len votes) (AlphaPreference p)); [lia|].
    destruct (is_nil child) eqn:En.
    { destruct child; try done. cbn. by destruct rst0. }
    specialize (IH votes rst0 Hwc eq_refl Hv). rewrite IH.
    pose proof (RecordPoll_ok p Hp child votes rst0 Hwc En Hv) as Hok.
    pose proof (unary_child_poll p pref dp cp snow rst child votes reset _ _ Hwf En Hok) as Hu.
    fold snow0 in Hu. fold rst0 in Hu, IH |- *.
    destruct (RecordPoll child votes rst0) as [[child' newChild] ok]. cbn in Hu |- *.
    destruct (u_Finalized _); [done|]. destruct Hu as [-> _]. cbn.
    by rewrite (norm_pref false).
  - destruct (split_votes votes i Hv) as (Hsw & Hsn & Hsl).
    set (s := Bag.Split votes _) in *.
    set (x := AlphaPreference p <=? Bag.Len (sel true s)).
    destruct (Z.ltb_spec (Bag.Len (sel x s)) (AlphaPreference p)) as [Hlt|Hge].
    { eapply (eager_binary_miss _ _ _ _ _ _ _ x); [done..|]. intros y.
      rewrite !sel_upd. by destruct reset, y, x; rewrite ?sel_upd. }
    set (snow0 := if reset then b_RecordUnsuccessfulPoll snow else snow).
    set (rst0 := upd (negb x) true (if reset then upd x true rst else rst)).
    set (rs := fun y => if reset then true else sel y rst).
    assert (norm reset (binaryNode prefs i snow rst c0 c1) =
      binaryNode prefs i snow0 (false, false) (norm (rs false) c0) (norm (rs true) c1)) as ->
      by by destruct reset.
    assert (sel x rst0 = rs x) as Hrx.
    { unfold rst0, rs. rewrite sel_upd. destruct x, reset; cbn; done. }
    cbn [eager_RecordPoll]. fold s x.
    destruct (Z.ltb_spec (Bag.Len (sel x s)) (AlphaPreference p)); [lia|].
    assert (sel x (norm (rs false) c0, norm (rs true) c1) = norm (rs x) (sel x (c0, c1)))
      as -> by by destruct x.
    rewrite norm_nil.
    pose proof Hwf as (_ & Hch & Hw0 & Hw1).
    destruct (is_nil (sel x (c0, c1))) eqn:En.
    { assert (c0 = Nil /\ c1 = Nil) as [-> ->].
      { destruct (is_nil c0) eqn:E0; [destruct c0; naive_solver|].
        destruct Hch as [? _]. destruct x; cbn in En; congruence. }
      cbn [fst snd force norm]. by destruct (rs false), (rs true),
        (sel false (upd x false rst0)), (sel true (upd x false rst0)). }
    assert (eager_RecordPoll (norm (rs x) (sel x (c0, c1))) (sel x s) =
      (force (RecordPoll (sel x (c0, c1)) (sel x s) (sel x rst0)).1.2,
       (RecordPoll (sel x (c0, c1)) (sel x s) (sel x rst0)).2)) as IH.
    { rewrite Hrx. specialize (Hsw x). destruct x; cbn in En |- *; [apply IH1|apply IH0]; done. }
    rewrite IH, !resetAll_norm by done.
    assert (poll_votes p votes (Bag.Len (sel x s))) as Hpv.
    { split; [done|]. pose proof (Hsn true). pose proof (Hsn false). destruct x; lia. }
    assert (wf p (sel x (c0, c1))) as Hwx by by destruct x.
    pose proof (RecordPoll_ok p Hp _ (sel x s) (sel x rst0) Hwx En (Hsw x)) as Hok.
    pose proof (binary_child_poll p prefs i snow rst c0 c1 x votes (sel x s) reset
      _ _ Hwf En Hpv Hok) as Hb.
    destruct (RecordPoll (sel x (c0, c1)) _ _) as [[child' newChild] ok].
    cbn [fst snd] in Hb |- *. fold snow0 rst0 in Hb. cbn zeta in Hb.
    destruct (b_Finalized (b_RecordPoll snow0 (Bag.Len (sel x s)) x)); [done|]. destruct Hb as [-> _]. cbn [fst snd force].
    pose proof (norm_pref false child') as Hpc. cbn [norm] in Hpc. rewrite Hpc.
    unfold rst0. by destruct x.
Qed.

(** ** The eager tree *)
Definition eager_step (n : node) (o : tree_op) : node :=
  match o with
  | OpAdd c =>
      if EqualSubset 0 (DecidedPrefix n) (Preference n) c then Add n c else n
  | OpRecordPoll v =>
      (eager_RecordPoll n (Bag.Filter v (fun id =>
         EqualSubset 0 (DecidedPrefix n) (Preference n) id))).1
  | OpRecordUnsuccessfulPoll => resetAll n
  end.

(** The eager node a lazy tree stands for. *)
Definition abs (t : Tree U B) : node := norm (shouldReset t) (tnode t).

Lemma abs_step t o : tree_wf p t -> op_ok o ->
  abs (tree_step p t o) = eager_step (abs t) o.
Proof.
  intros [Hw Hn] Ho. unfold abs. destruct o as [c|v|]; cbn [tree_step eager_step].
  - rewrite norm_prefix, norm_pref. unfold Tree_Add.
    destruct (EqualSubset _ _ _ _); [|done]. cbn.
    destruct (shouldReset t); cbn; [by rewrite Add_resetAll|by rewrite Add_force].
  - rewrite norm_prefix, norm_pref. unfold Tree_RecordPoll.
    set (v' := Bag.Filter v _).
    assert (Bag.wf v') as Hv' by (by apply Bag.Filter_spec).
    rewrite eager_poll by done.
    by destruct (RecordPoll (tnode t) v' (shouldReset t)) as [[n' r] ok].
  - cbn. by rewrite resetAll_norm.
Qed.

Lemma abs_run choice ops : wf_id choice -> Forall op_ok ops ->
  abs (tree_run p choice ops) = foldl eager_step (abs (NewTree p choice)) ops.
Proof.
  intros Hid. induction ops as [|o ops IH] using rev_ind; intros Ho; [done|].
  pose proof Ho as [Ho' [Hlast _]%Forall_cons]%Forall_app.
  unfold tree_run in *. rewrite !foldl_snoc, abs_step, IH; try done.
  by apply tree_run_wf.
Qed.

(** C9: the lazily reset tree refines the eager one: after any operations both
    prefer the same identifier, have decided the same bits, agree on being
    finalized and on the success of the next poll. *)
Theorem lazy_resets_refine_eager (choice : ID) (ops : list tree_op) (votes : Bag.Bag ID) :
  wf_id choice -> Forall op_ok ops -> Bag.wf votes ->
  let t := tree_run p choice ops in
  let n := foldl eager_step (abs (NewTree p choice)) ops in
  Preference (tnode t) = Preference n /\
  DecidedPrefix (tnode t) = DecidedPrefix n /\
  Finalized (tnode t) = Finalized n /\
  (Tree_RecordPoll p t votes).2 =
    (eager_RecordPoll n (Bag.Filter votes (fun id =>
       EqualSubset 0 (DecidedPrefix n) (Preference n) id))).2.
Proof.
  intros Hid Ho Hv t n.
  assert (n = abs t) as -> by (symmetry; by apply abs_run).
  destruct (tree_run_wf p Hp choice ops Hid Ho) as [Hw Hn]. fold t in Hw, Hn.
  unfold abs. rewrite norm_pref, norm_prefix, norm_fin. split_and!; try done.
  unfold Tree_RecordPoll. set (v' := Bag.Filter votes _).
  rewrite eager_poll by (done || by apply Bag.Filter_spec).
  by destruct (RecordPoll (tnode t) v' (shouldReset t)) as [[n' r] ok].
Qed.
End eager.

Lemma lazy_resets_refine_eager_witness :
  let ops := TreeFacts.Example.setup in
  let n := foldl (eager_step (NN:=nnarySnowflake) TreeFacts.Example.params)
    (abs (NewTree (NN:=nnarySnowflake) TreeFacts.Example.params TreeFacts.Example.a)) ops in
  Preference (tnode (TreeFacts.Example.run ops)) = Preference n.
Proof.
  apply (lazy_resets_refine_eager (NN:=nnarySnowflake)
    (L:=TreeFacts.Example.laws) TreeFacts.Example.params
    TreeFacts.Example.valid_params TreeFacts.Example.a TreeFacts.Example.setup
    Bag.empty).
  - exact TreeFacts.Example.wf_a.
  - pose proof TreeFacts.Example.ops_ok as Ho. by apply Forall_app in Ho as [Ho _].
  - apply Bag.empty_wf.
Defined.
End TreeEager.
