(* ===== verification/Consensus.v ===== *)
(** * The interface of a snow instance

    Models the Go interface [Consensus] of
    [avalanchego/snow/consensus/snowball/consensus.go]: the operations, the laws
    its clients rely on, and the proof that the snowball tree obeys them.  The
    client is [Topological], which decides between the children of a block with
    one such instance per block. *)

From S2P Require Import Prelude Bits Bag Snowball Tree TreeFacts.

Module Consensus.
Import Bits Snowball.

Class Consensus (T : Type) := {
  New : ID -> T;
  Add : T -> ID -> T;
  Preference : T -> ID;
  RecordPoll : T -> Bag.Bag ID -> T * bool;
  RecordUnsuccessfulPoll : T -> T;
  Finalized : T -> bool;
}.

(** [inv t S]: [t] is a reachable instance that was asked to decide between the
    identifiers of [S]. *)
Class ConsensusLaws (T : Type) `{Consensus T} := {
  inv : T -> gset ID -> Prop;
  inv_New c : wf_id c -> inv (New c) {[c]};
  inv_Add t S c : inv t S -> wf_id c -> inv (Add t c) ({[c]} ∪ S);
  inv_RecordPoll t S v : inv t S -> Bag.wf v -> inv (RecordPoll t v).1 S;
  inv_RecordUnsuccessfulPoll t S : inv t S -> inv (RecordUnsuccessfulPoll t) S;
  Preference_New c : Preference (New c) = c;
  Preference_Add t S c : inv t S -> wf_id c -> Preference (Add t c) = Preference t;
  Preference_unsuccessful t : Preference (RecordUnsuccessfulPoll t) = Preference t;
  Preference_in t S : inv t S -> Preference t ∈ S;
}.

(** ** The tree is such an instance *)
Section tree.
Context {NN U B : Type} `{F : Factory NN U B} (p : Parameters)
  `{L : !SnowLaws U B p (NewUnary p)} (Hp : valid p).

#[local] Instance tree_consensus : Consensus (Tree.Tree U B) := {|
  New := Tree.NewTree p;
  Add := Tree.Tree_Add p;
  Preference t := Tree.Preference (Tree.tnode t);
  RecordPoll := Tree.Tree_RecordPoll p;
  RecordUnsuccessfulPoll := Tree.Tree_RecordUnsuccessfulPoll;
  Finalized t := Tree.Finalized (Tree.tnode t);
|}.

(** Every identifier a node names is one of [S]. *)
Fixpoint names (S : gset ID) (n : Tree.node U B) : Prop :=
  match n with
  | Tree.Nil => True
  | Tree.unaryNode pref _ _ _ _ child => pref ∈ S /\ names S child
  | Tree.binaryNode prefs _ _ _ c0 c1 =>
      prefs.1 ∈ S /\ prefs.2 ∈ S /\ names S c0 /\ names S c1
  end.

Lemma names_mono (S S' : gset ID) n : S ⊆ S' -> names S n -> names S' n.
Proof. intros HS. induction n; cbn; naive_solver set_solver. Qed.

Lemma names_Preference S n : names S n -> Tree.is_nil n = false ->
  Tree.Preference n ∈ S.
Proof.
  destruct n as [| |prefs i snow rst c0 c1]; cbn; [done|naive_solver|].
  intros (? & ? & _) _. by destruct (b_Preference snow).
Qed.

Lemma names_split S pref c i snow rst n n' :
  pref ∈ S -> c ∈ S -> names S n -> names S n' ->
  names S (Tree.split_node pref c i snow rst n n').
Proof. intros. unfold Tree.split_node. by destruct (_ =? _). Qed.

Lemma names_Add S n c : names S n -> c ∈ S -> names S (Tree.Add p n c).
Proof.
  intros Hn Hc. induction n as [|pref dp cp snow rst child IH|prefs i snow rst c0 IH0 c1 IH1];
    cbn in *; [done|unfold Tree.unaryNode_Add|unfold Tree.binaryNode_Add].
  - destruct Hn as [Hp' Hch]. specialize (IH Hch).
    assert (names S (Tree.new_leaf (NN:=NN) p c 0)) by by split.
    repeat case_match; cbn [names]; split_and?;
      try apply names_split; try done; by split.
  - destruct Hn as (? & ? & Hw0 & Hw1). specialize (IH0 Hw0). specialize (IH1 Hw1).
    by repeat case_match.
Qed.

Lemma names_poll S n votes reset : names S n -> Tree.is_nil n = false ->
  let r := Tree.RecordPoll p n votes reset in
  (names S r.1.1 /\ Tree.is_nil r.1.1 = false) /\
  (names S r.1.2 /\ Tree.is_nil r.1.2 = false).
Proof.
  revert votes reset.
  induction n as [|pref dp cp snow rst child IH|prefs i snow rst c0 IH0 c1 IH1];
    intros votes reset Hn Hnil; cbn in Hn; [done|..]; cbn [Tree.RecordPoll];
    unfold Tree.unaryNode_RecordPoll, Tree.binaryNode_RecordPoll.
  - destruct Hn as [Hpref Hch].
    destruct (_ <? _); [done|]. destruct (Tree.is_nil child) eqn:En; [done|].
    specialize (IH votes (if reset then true else rst) Hch eq_refl) as [[Hc Hcn] [Hr Hrn]].
    destruct (Tree.RecordPoll p child votes _) as [[child' r] ok]; cbn in *.
    destruct (u_Finalized _); cbn; [done|]. pose proof (names_Preference _ _ Hc Hcn). done.
  - destruct Hn as (Hp0 & Hp1 & Hw0 & Hw1).
    set (s := Bag.Split votes _). set (x := _ <=? _). cbn zeta.
    destruct (_ <? _); [done|]. destruct (Tree.is_nil (sel x _)) eqn:En; [done|].
    assert (forall v r, let q := sel x (Tree.RecordPoll p c0, Tree.RecordPoll p c1) v r in
      (names S q.1.1 /\ Tree.is_nil q.1.1 = false) /\
      (names S q.1.2 /\ Tree.is_nil q.1.2 = false)) as IH
      by (destruct x; [by intros; apply IH1|by intros; apply IH0]).
    match goal with |- context [sel x (Tree.RecordPoll p c0, _) ?v ?r] =>
      specialize (IH v r); destruct (sel x (Tree.RecordPoll p c0, _) v r)
        as [[child' n'] ok] end.
    cbn in IH. destruct IH as [[Hc Hcn] [Hr Hrn]].
    pose proof (names_Preference _ _ Hr Hrn).
    destruct (b_Finalized _); destruct x; done.
Qed.

Definition tree_inv (t : Tree.Tree U B) (S : gset ID) : Prop :=
  TreeFacts.tree_wf p t /\ names S (Tree.tnode t).

#[local] Program Instance tree_laws : ConsensusLaws (Tree.Tree U B) := {|
  inv := tree_inv;
|}.
Next Obligation.
  intros c Hc. split; [by apply TreeFacts.NewTree_wf|]. cbn. set_solver.
Qed.
Next Obligation.
  intros t S c [Hw Hn] Hc. split.
  - by apply (TreeFacts.tree_step_ok p Hp t (TreeFacts.OpAdd c)).
  - cbn. unfold Tree.Tree_Add. destruct (EqualSubset _ _ _ _); cbn;
      [apply names_Add; [|set_solver]|]; apply (names_mono S); try done; set_solver.
Qed.
Next Obligation.
  intros t S v [Hw Hn] Hv. split.
  - by apply (TreeFacts.tree_step_ok p Hp t (TreeFacts.OpRecordPoll v)).
  - cbn. unfold Tree.Tree_RecordPoll.
    set (v' := Bag.Filter v _).
    pose proof (names_poll S (Tree.tnode t) v' (Tree.shouldReset t) Hn (proj2 Hw)) as [_ [Hr _]].
    by destruct (Tree.RecordPoll p (Tree.tnode t) v' _) as [[n' r] ok].
Qed.
Next Obligation. intros t S Hi. exact Hi. Qed.
Next Obligation. done. Qed.
Next Obligation.
  intros t S c [[Hw Hn] _] Hc. cbn. unfold Tree.Tree_Add. case_match eqn:E; [|done].
  destruct (TreeFacts.wf_bounds p _ Hw Hn) as [Hid Hb].
  rewrite EqualSubset_spec in E by (done || lia).
  apply (TreeFacts.Add_ok p (Tree.tnode t) c Hw Hn Hc E).
Qed.
Next Obligation. done. Qed.
Next Obligation. intros t S [[Hw Hn] Hs]. by apply names_Preference. Qed.
End tree.
End Consensus.
