(* ===== verification/Topological.v ===== *)
(** * Snowman consensus over a tree of blocks

    Models [avalanchego/snow/consensus/snowman/topological.go] and
    [snowman_block.go]: the tree of processing blocks with one snow instance per
    block, the transitive application of votes by a topological sort, acceptance
    and rejection, and the bookkeeping of the preferred branch.

    The methods are computations over the struct [Topological].  Pointers to a
    [snowmanBlock] are keys of the [blocks] map: every pointer the code holds is
    in the map while it is written through.  The calls into the VM
    ([Block.Accept], [Block.Reject], [BlockAcceptor.Accept]) are recorded in
    [events]; whether they fail is a parameter that may depend on all calls so
    far.  The order in which Go ranges over a map and the element [Set.Pop]
    returns are parameters that may depend on the whole state.  Logging and the
    metrics are left out, except for the outcome of each poll. *)

From S2P Require Import Prelude Monads Bits Bag Snowball Consensus.

Module Topological.
Import Bits Snowball Consensus.

Record Block := mkBlock { BlkID : ID; Parent : ID; Height : Z }.

#[global] Instance Block_eq_dec : EqDecision Block.
Proof. solve_decision. Defined.

(** Calls out of the consensus engine, in the order they are made. *)
Inductive Event :=
  | BlockAcceptorAccept (b : Block)
  | Accept (b : Block)
  | Reject (b : Block)
  | SuccessfulPoll
  | FailedPoll.

(** [ErrVM] is an error of the VM or of the acceptor; [Panic] a nil dereference;
    [OutOfFuel] is no behaviour of the code. *)
Inductive TopErr (E : Type) :=
  | errDuplicateAdd
  | errUnknownParentBlock
  | ErrParams (e : ErrParametersInvalid)
  | ErrVM (e : E)
  | Panic
  | OutOfFuel.
Arguments errDuplicateAdd {E}.
Arguments errUnknownParentBlock {E}.
Arguments ErrParams {E} e.
Arguments ErrVM {E} e.
Arguments Panic {E}.
Arguments OutOfFuel {E}.

Record snowmanBlock (T : Type) := mkNode {
  blk : option Block;
  shouldFalter : bool;
  sb : option T;
  children : gmap ID Block;
}.
Arguments mkNode {T}.
Arguments blk {T}.
Arguments shouldFalter {T}.
Arguments sb {T}.
Arguments children {T}.

Record kahnNode := mkKahn { inDegree : Z; kvotes : Bag.Bag ID }.
Record votes := mkVotes { parentID : ID; vbag : Bag.Bag ID }.

Record Topological (T : Type) := mkTop {
  pollNumber : Z;
  lastAcceptedID : ID;
  lastAcceptedHeight : Z;
  blocks : gmap ID (snowmanBlock T);
  preferredIDs : gset ID;
  preferredHeights : gmap Z ID;
  preference : ID;
  leaves : gset ID;
  kahnNodes : gmap ID kahnNode;
  events : list Event;
}.
Arguments mkTop {T}.
Arguments pollNumber {T}.
Arguments lastAcceptedID {T}.
Arguments lastAcceptedHeight {T}.
Arguments blocks {T}.
Arguments preferredIDs {T}.
Arguments preferredHeights {T}.
Arguments preference {T}.
Arguments leaves {T}.
Arguments kahnNodes {T}.
Arguments events {T}.

(** ** Field updates *)
Section setters.
Context {T : Type}.
Implicit Types ts : Topological T.

Definition set_blocks (f : gmap ID (snowmanBlock T) -> gmap ID (snowmanBlock T)) ts :=
  mkTop (pollNumber ts) (lastAcceptedID ts) (lastAcceptedHeight ts) (f (blocks ts))
    (preferredIDs ts) (preferredHeights ts) (preference ts) (leaves ts) (kahnNodes ts)
    (events ts).

Definition set_preferred (pref : ID) (ids : gset ID) (hs : gmap Z ID) ts :=
  mkTop (pollNumber ts) (lastAcceptedID ts) (lastAcceptedHeight ts) (blocks ts)
    ids hs pref (leaves ts) (kahnNodes ts) (events ts).

Definition set_lastAccepted (id : ID) (h : Z) ts :=
  mkTop (pollNumber ts) id h (blocks ts)
    (preferredIDs ts) (preferredHeights ts) (preference ts) (leaves ts) (kahnNodes ts)
    (events ts).

Definition set_kahn (ls : gset ID) (ks : gmap ID kahnNode) ts :=
  mkTop (pollNumber ts) (lastAcceptedID ts) (lastAcceptedHeight ts) (blocks ts)
    (preferredIDs ts) (preferredHeights ts) (preference ts) ls ks (events ts).

Definition log_event (e : Event) ts :=
  mkTop (pollNumber ts) (lastAcceptedID ts) (lastAcceptedHeight ts) (blocks ts)
    (preferredIDs ts) (preferredHeights ts) (preference ts) (leaves ts) (kahnNodes ts)
    (events ts ++ [e]).

Definition next_poll ts :=
  mkTop (wrap64 (pollNumber ts + 1)) (lastAcceptedID ts) (lastAcceptedHeight ts)
    (blocks ts) (preferredIDs ts) (preferredHeights ts) (preference ts) (leaves ts)
    (kahnNodes ts) (events ts).
End setters.

(** ** What the run time leaves open *)
Class Runtime (T : Type) := {
  range_children : Topological T -> gmap ID Block -> list (ID * Block);
  range_votes : Topological T -> Bag.Bag ID -> list ID;
  pop_leaf : Topological T -> gset ID -> ID;
  range_children_spec ts m : range_children ts m ≡ₚ map_to_list m;
  range_votes_spec ts b : range_votes ts b ≡ₚ Bag.List b;
  pop_leaf_spec ts X : X <> ∅ -> pop_leaf ts X ∈ X;
}.

(** The calls into the VM: an error, or [None] for [nil]. *)
Record VM (E : Type) := mkVM {
  acceptor_Accept : list Event -> Block -> option E;
  blk_Accept : list Event -> Block -> option E;
  blk_Reject : list Event -> Block -> option E;
}.
Arguments mkVM {E}.
Arguments acceptor_Accept {E}.
Arguments blk_Accept {E}.
Arguments blk_Reject {E}.

Section topological.
Context {T E : Type} `{C : Consensus T} `{R : Runtime T}.
Context (params : Parameters) (vm : VM E).

Abbreviation Top := (Topological T).
Abbreviation MT := (M Top (TopErr E)).

(** A call that may return an error; it is made before its error is seen. *)
Definition call (f : list Event -> Block -> option E) (e : Block -> Event) (b : Block)
  : MT unit :=
  ts ← get;
  modify (log_event (e b));;
  match f (events ts) b with
  | Some err => fail (ErrVM err)
  | None => mret tt
  end.

(** ** snowman_block.go *)
Definition AddChild (n : snowmanBlock T) (child : Block) : snowmanBlock T :=
  let childID := BlkID child in
  mkNode (blk n) (shouldFalter n)
    (Some (match sb n with None => New childID | Some t => Add t childID end))
    (<[childID := child]> (children n)).

Definition Decided (ts : Top) (n : snowmanBlock T) : bool :=
  match blk n with
  | None => true
  | Some b => Height b <=? lastAcceptedHeight ts
  end.

(** ** topological.go *)
Definition Initialize (lastAcceptedID : ID) (lastAcceptedHeight : Z)
  : result (TopErr E) Top :=
  match Verify params with
  | Err e => Err (ErrParams e)
  | Ok _ => Ok (mkTop 0 lastAcceptedID lastAcceptedHeight
                  {[lastAcceptedID := mkNode None false None ∅]}
                  ∅ ∅ lastAcceptedID ∅ ∅ [])
  end.

Definition NumProcessing (ts : Top) : Z := Z.of_nat (size (blocks ts)) - 1.

Definition Processing (ts : Top) (blkID : ID) : bool :=
  if decide (blkID = lastAcceptedID ts) then false
  else bool_decide (is_Some (blocks ts !! blkID)).

Definition Add (b : Block) : MT unit :=
  ts ← get;
  if Processing ts (BlkID b) then fail errDuplicateAdd
  else
    match blocks ts !! Parent b with
    | None => fail errUnknownParentBlock
    | Some parentNode =>
        modify (set_blocks (fun m =>
          <[BlkID b := mkNode (Some b) false None ∅]>
            (<[Parent b := AddChild parentNode b]> m)));;
        when (bool_decide (preference ts = Parent b))
          (modify (set_preferred (BlkID b) ({[BlkID b]} ∪ preferredIDs ts)
             (<[Height b := BlkID b]> (preferredHeights ts))))
    end.

Definition IsPreferred (ts : Top) (blkID : ID) : bool :=
  bool_decide (blkID = lastAcceptedID ts) || bool_decide (blkID ∈ preferredIDs ts).

Definition LastAccepted (ts : Top) : ID * Z := (lastAcceptedID ts, lastAcceptedHeight ts).

Definition PreferenceAtHeight (ts : Top) (height : Z) : option ID :=
  if height =? lastAcceptedHeight ts then Some (lastAcceptedID ts)
  else preferredHeights ts !! height.

Definition GetParent (ts : Top) (id : ID) : option ID :=
  match blocks ts !! id with
  | Some n => match blk n with Some b => Some (Parent b) | None => None end
  | None => None
  end.

(** The fuel of the loops that follow the links of the block tree. *)
Definition tree_fuel (ts : Top) : nat := S (S (size (blocks ts))).

Definition get_kahn (ts : Top) (id : ID) : kahnNode :=
  default (mkKahn 0 Bag.empty) (kahnNodes ts !! id).

(** The loop of [calculateInDegree] over the ancestors of a vote; [p] is
    [parentID].  [Decided] of a missing block dereferences nil. *)
Definition markAncestors_step (p : ID) : MT (ID + unit) :=
  ts ← get;
  n ← must Panic (blocks ts !! p);
  if Decided ts n then mret (inr tt)
  else
    b ← must Panic (blk n);
    let p := Parent b in
    let kahn := get_kahn ts p in
    let previouslySeen := bool_decide (is_Some (kahnNodes ts !! p)) in
    modify (set_kahn (leaves ts)
      (<[p := mkKahn (inDegree kahn + 1) (kvotes kahn)]> (kahnNodes ts)));;
    if previouslySeen then
      modify (fun ts => set_kahn (leaves ts ∖ {[p]}) (kahnNodes ts) ts);;
      mret (inr tt)
    else mret (inl p).

Definition countVote (voteBag : Bag.Bag ID) (vote : ID) : MT unit :=
  ts ← get;
  match blocks ts !! vote with
  | None => mret tt
  | Some votedBlock =>
      if Decided ts votedBlock then mret tt
      else
        b ← must Panic (blk votedBlock);
        let p := Parent b in
        let numVotes := Bag.Count voteBag vote in
        let kahn := get_kahn ts p in
        let previouslySeen := bool_decide (is_Some (kahnNodes ts !! p)) in
        modify (set_kahn (leaves ts)
          (<[p := mkKahn (inDegree kahn) (Bag.AddCount (kvotes kahn) vote numVotes)]>
             (kahnNodes ts)));;
        if previouslySeen then mret tt
        else
          modify (fun ts => set_kahn ({[p]} ∪ leaves ts) (kahnNodes ts) ts);;
          loop OutOfFuel (tree_fuel ts) markAncestors_step p
  end.

Definition calculateInDegree (voteBag : Bag.Bag ID) : MT unit :=
  modify (set_kahn ∅ ∅);;
  ts ← get;
  foldM (fun _ vote => countVote voteBag vote) (range_votes ts voteBag) tt.

Definition pushVotes_step (voteStack : list votes) : MT (list votes + list votes) :=
  ts ← get;
  if bool_decide (leaves ts = ∅) then mret (inr voteStack)
  else
    let leafID := pop_leaf ts (leaves ts) in
    modify (set_kahn (leaves ts ∖ {[leafID]}) (kahnNodes ts));;
    let kahn := get_kahn ts leafID in
    block ← must Panic (blocks ts !! leafID);
    let voteStack :=
      if AlphaPreference params <=? Bag.Len (kvotes kahn)
      then voteStack ++ [mkVotes leafID (kvotes kahn)] else voteStack in
    if Decided ts block then mret (inl voteStack)
    else
      b ← must Panic (blk block);
      let p := Parent b in
      let pk := get_kahn ts p in
      let pk := mkKahn (inDegree pk - 1)
                  (Bag.AddCount (kvotes pk) leafID (Bag.Len (kvotes kahn))) in
      modify (fun ts => set_kahn (leaves ts) (<[p := pk]> (kahnNodes ts)) ts);;
      when (inDegree pk =? 0)
        (modify (fun ts => set_kahn ({[p]} ∪ leaves ts) (kahnNodes ts) ts));;
      mret (inl voteStack).

Definition pushVotes : MT (list votes) :=
  ts ← get;
  loop OutOfFuel (S (size (kahnNodes ts))) pushVotes_step [].

Definition rejectChild (rejects : list ID) (c : ID * Block) : MT (list ID) :=
  call (blk_Reject vm) Reject c.2;;
  mret (rejects ++ [c.1]).

(** The stack is a list with its top at the end. *)
Definition rejectTransitively_step (rejected : list ID) : MT (list ID + unit) :=
  match last rejected with
  | None => mret (inr tt)
  | Some rejectedID =>
      ts ← get;
      rejectedNode ← must Panic (blocks ts !! rejectedID);
      modify (set_blocks (delete rejectedID));;
      ts ← get;
      rejected ← foldM rejectChild (range_children ts (children rejectedNode))
                   (take (length rejected - 1) rejected);
      mret (inl rejected)
  end.

Definition rejectTransitively (rejected : list ID) : MT unit :=
  ts ← get;
  loop OutOfFuel (tree_fuel ts) rejectTransitively_step rejected.

Definition acceptPreferredChild (n : snowmanBlock T) : MT unit :=
  t ← must Panic (sb n);
  let pref := Preference t in
  child ← must Panic (children n !! pref);
  call (acceptor_Accept vm) BlockAcceptorAccept child;;
  call (blk_Accept vm) Accept child;;
  modify (set_lastAccepted pref (Height child));;
  modify (fun ts => set_preferred (preference ts) (preferredIDs ts ∖ {[pref]})
    (delete (Height child) (preferredHeights ts)) ts);;
  ts ← get;
  rejects ← foldM (fun rejects c =>
      if bool_decide (c.1 = pref) then mret rejects else rejectChild rejects c)
    (range_children ts (children n)) [];
  rejectTransitively rejects.

(** [childBlock.shouldFalter = true] *)
Definition deferReset (childID : ID) : MT unit :=
  modify (set_blocks (alter (fun n => mkNode (blk n) true (sb n) (children n)) childID)).

(** One iteration of the loop of [vote]: the vote on the top of the stack and
    the rest of the stack. *)
Definition vote_step (v : votes) (nextID : ID) (acc : ID * bool * bool)
  : MT (option (ID * bool * bool)) :=
  let '(newPreferred, onPreferredBranch, pollSuccessful) := acc in
  ts ← get;
  match blocks ts !! parentID v with
  | None => mret None
  | Some parentBlock =>
      let shouldTransitivelyFalter := shouldFalter parentBlock in
      t ← must Panic (sb parentBlock);
      let t := if shouldTransitivelyFalter then RecordUnsuccessfulPoll t else t in
      let '(t, successful) := RecordPoll t (vbag v) in
      let parentBlock := mkNode (blk parentBlock) false (Some t) (children parentBlock) in
      modify (set_blocks (<[parentID v := parentBlock]>));;
      when (Finalized t && bool_decide (lastAcceptedID ts = parentID v))
        (acceptPreferredChild parentBlock;;
         modify (set_blocks (delete (parentID v))));;
      let parentPreference := Preference t in
      let newPreferred := if onPreferredBranch then parentPreference else newPreferred in
      let onPreferredBranch :=
        onPreferredBranch && bool_decide (nextID = parentPreference) in
      ts ← get;
      foldM (fun _ c =>
          if negb shouldTransitivelyFalter && bool_decide (c.1 = nextID) then mret tt
          else deferReset c.1)
        (range_children ts (children parentBlock)) tt;;
      mret (Some (newPreferred, onPreferredBranch, successful || pollSuccessful))
  end.

(** The head of the list is the top of the stack. *)
Fixpoint vote_loop (voteStack : list votes) (acc : ID * bool * bool)
  : MT (ID * bool * bool) :=
  match voteStack with
  | [] => mret acc
  | v :: voteStack =>
      let nextID := match voteStack with [] => EmptyID | v' :: _ => parentID v' end in
      r ← vote_step v nextID acc;
      match r with
      | None => mret acc
      | Some acc => vote_loop voteStack acc
      end
  end.

Definition vote (voteStack : list votes) : MT ID :=
  ts ← get;
  match voteStack with
  | [] =>
      must Panic (blocks ts !! lastAcceptedID ts);;
      deferReset (lastAcceptedID ts);;
      when (1 <? Z.of_nat (size (blocks ts))) (modify (log_event FailedPoll));;
      mret (preference ts)
  | _ =>
      acc ← vote_loop (rev voteStack) (lastAcceptedID ts, true, false);
      let '(newPreferred, _, pollSuccessful) := acc in
      modify (log_event (if pollSuccessful : bool then SuccessfulPoll else FailedPoll));;
      mret newPreferred
  end.

(** The two loops that rebuild the preferred branch; [id] is the key of the
    loop variable [block]. *)
Definition ascend_step (id : ID) : MT (ID + unit) :=
  ts ← get;
  block ← must Panic (blocks ts !! id);
  if Decided ts block then mret (inr tt)
  else
    b ← must Panic (blk block);
    modify (set_preferred (preference ts) ({[BlkID b]} ∪ preferredIDs ts)
      (<[Height b := BlkID b]> (preferredHeights ts)));;
    mret (inl (Parent b)).

Definition descend_step (id : ID) : MT (ID + unit) :=
  ts ← get;
  block ← must Panic (blocks ts !! id);
  match sb block with
  | None => mret (inr tt)
  | Some t =>
      let pref := Preference t in
      child ← must Panic (blocks ts !! pref);
      b ← must Panic (blk child);
      modify (set_preferred pref ({[pref]} ∪ preferredIDs ts)
        (<[Height b := pref]> (preferredHeights ts)));;
      mret (inl pref)
  end.

Definition updatePreference (preferred : ID) : MT unit :=
  ts ← get;
  if bool_decide (preferred ∈ preferredIDs ts) then mret tt
  else
    modify (set_preferred preferred ∅ ∅);;
    loop OutOfFuel (tree_fuel ts) ascend_step preferred;;
    loop OutOfFuel (tree_fuel ts) descend_step preferred.

Definition TopRecordPoll (voteBag : Bag.Bag ID) : MT unit :=
  modify next_poll;;
  voteStack ←
    (if AlphaPreference params <=? Bag.Len voteBag
     then calculateInDegree voteBag;; pushVotes
     else mret []);
  preferred ← vote voteStack;
  updatePreference preferred.

(** *** Health *)
Inductive HealthError := errTooManyProcessingBlocks | errBlockProcessingTooLong.

(** [maxTimeProcessing] is what the metrics measure. *)
Definition HealthCheck (ts : Top) (maxTimeProcessing : Z) : list HealthError :=
  (if MaxOutstandingItems params <? NumProcessing ts
   then [errTooManyProcessingBlocks] else []) ++
  (if MaxItemProcessingTime params <? maxTimeProcessing
   then [errBlockProcessingTooLong] else []).
End topological.
End Topological.
