(* ===== verification/SnowmanWf.v ===== *)
(** * The block tree of [Topological]

    The structural invariant [WF] of the block tree, its preservation by [Add],
    and the effect of [acceptPreferredChild]: the accepted child becomes the
    root, and exactly the blocks that do not descend from it are rejected, each
    of them once. *)
From S2P Require Import Prelude Monads Bag Bits Snowball Consensus Topological.

Module SnowmanWf.
Import Bits Snowball Consensus Topological.

Section wf.
Context {T E : Type} `{L : ConsensusLaws T} `{R : Runtime T}.
Context (params : Parameters) (vm : VM E).

Abbreviation Top := (Topological T).
Implicit Types (ts : Top) (m : gmap ID (snowmanBlock T)) (id p x y : ID) (b : Block).

(** The errors the VM may raise. *)
Definition vm_error (e : TopErr E) : Prop := exists err, e = ErrVM err.

(** ** The structure *)
Definition parent_in (root : ID) m x : option ID :=
  if decide (x = root) then None
  else match m !! x with
       | Some n => match blk n with Some b => Some (Parent b) | None => None end
       | None => None
       end.

Definition parent ts x : option ID := parent_in (lastAcceptedID ts) (blocks ts) x.

Definition height ts x : Z :=
  match blocks ts !! x with
  | Some n => match blk n with Some b => Height b | None => lastAcceptedHeight ts end
  | None => lastAcceptedHeight ts
  end.

Record WF ts : Prop := {
  wf_root : exists n, blocks ts !! lastAcceptedID ts = Some n /\
    forall b, blk n = Some b ->
      BlkID b = lastAcceptedID ts /\ Height b = lastAcceptedHeight ts;
  wf_blk x n : blocks ts !! x = Some n -> x <> lastAcceptedID ts ->
    exists b, blk n = Some b /\ BlkID b = x /\ is_Some (blocks ts !! Parent b) /\
      Height b = height ts (Parent b) + 1 /\ lastAcceptedHeight ts < Height b;
  wf_children x n c b : blocks ts !! x = Some n ->
    children n !! c = Some b <->
    c <> lastAcceptedID ts /\ Parent b = x /\
      exists nc, blocks ts !! c = Some nc /\ blk nc = Some b;
  wf_sb x n : blocks ts !! x = Some n ->
    match sb n with
    | None => children n = ∅
    | Some t => inv t (dom (children n))
    end;
}.

Lemma parent_Some ts x p : parent ts x = Some p <->
  x <> lastAcceptedID ts /\
  exists n b, blocks ts !! x = Some n /\ blk n = Some b /\ Parent b = p.
Proof. unfold parent, parent_in. repeat case_match; naive_solver. Qed.

Lemma wf_parent ts x : WF ts -> x <> lastAcceptedID ts -> is_Some (blocks ts !! x) ->
  exists p, parent ts x = Some p /\ is_Some (blocks ts !! p) /\
    height ts x = height ts p + 1.
Proof.
  intros W Hx [n Hn]. destruct (wf_blk ts W x n Hn Hx) as (b & Hb & Hid & Hp & Hh & _).
  exists (Parent b). split; [|split; [done|]].
  - apply parent_Some. eauto 10.
  - rewrite <- Hh. unfold height. by rewrite Hn, Hb.
Qed.

Lemma wf_height_root ts : WF ts -> height ts (lastAcceptedID ts) = lastAcceptedHeight ts.
Proof.
  intros W. destruct (wf_root ts W) as (n & Hn & Hb). unfold height. rewrite Hn.
  destruct (blk n) eqn:Eb; [|done]. by apply Hb.
Qed.

Lemma wf_height ts x : WF ts -> x <> lastAcceptedID ts -> is_Some (blocks ts !! x) ->
  lastAcceptedHeight ts < height ts x.
Proof.
  intros W Hx [n Hn]. destruct (wf_blk ts W x n Hn Hx) as (b & Hb & _ & _ & _ & Hl).
  unfold height. by rewrite Hn, Hb.
Qed.

(** [Decided] tells the root from the processing blocks. *)
Lemma wf_Decided ts x n : WF ts -> blocks ts !! x = Some n ->
  Decided ts n = bool_decide (x = lastAcceptedID ts).
Proof.
  intros W Hn. case_bool_decide as Hx.
  - subst. destruct (wf_root ts W) as (n' & Hn' & Hb). simplify_eq.
    unfold Decided. destruct (blk n) as [b|] eqn:Eb; [|done].
    destruct (Hb b eq_refl) as [_ ->]. lia.
  - destruct (wf_blk ts W x n Hn Hx) as (b & Hb & _ & _ & _ & Hl).
    unfold Decided. rewrite Hb. lia.
Qed.

Lemma wf_child ts x n c : WF ts -> blocks ts !! x = Some n ->
  is_Some (children n !! c) <-> parent ts c = Some x.
Proof.
  intros W Hn. rewrite parent_Some. split.
  - intros [b Hb]. apply (wf_children ts W x n) in Hb as (? & ? & nc & ? & ?); eauto 10.
  - intros (Hc & nc & b & Hnc & Hb & Hp). exists b. apply (wf_children ts W x n); eauto.
Qed.

(** The block a node's snow instance prefers is one of its children. *)
Lemma wf_preferred ts x n t : WF ts -> blocks ts !! x = Some n -> sb n = Some t ->
  parent ts (Preference t) = Some x.
Proof.
  intros W Hn Ht. pose proof (wf_sb ts W x n Hn) as Hs. rewrite Ht in Hs.
  apply (wf_child ts x n); [done..|]. apply elem_of_dom. by apply Preference_in in Hs.
Qed.

(** ** Initialize *)
Lemma Initialize_WF id h ts : Initialize (E:=E) params id h = Ok ts -> WF ts.
Proof.
  unfold Initialize. destruct (Verify params); [|done]. intros [= <-].
  split; cbn.
  - exists (mkNode None false None ∅). by rewrite lookup_singleton_eq.
  - intros x n Hn Hx. by rewrite lookup_singleton_ne in Hn.
  - intros x n c b [-> <-]%lookup_singleton_Some. cbn. rewrite lookup_empty.
    split; [done|]. intros (Hc & _ & nc & Hnc & _). by rewrite lookup_singleton_ne in Hnc.
  - by intros x n [-> <-]%lookup_singleton_Some.
Qed.

(** ** Add *)

(** What the caller of [Add] guarantees of a block. *)
Definition issuable ts b : Prop :=
  wf_id (BlkID b) /\ BlkID b <> lastAcceptedID ts /\
  (is_Some (blocks ts !! Parent b) -> Height b = height ts (Parent b) + 1).

Definition added ts b (parentNode : snowmanBlock T) : gmap ID (snowmanBlock T) :=
  <[BlkID b := mkNode (Some b) false None ∅]>
    (<[Parent b := AddChild parentNode b]> (blocks ts)).

Section add.
Context (ts : Top) (b : Block) (pn : snowmanBlock T) (W : WF ts) (Hi : issuable ts b).
Context (Hnew : blocks ts !! BlkID b = None) (Hpn : blocks ts !! Parent b = Some pn).

Lemma added_lookup x : added ts b pn !! x =
  if decide (x = BlkID b) then Some (mkNode (Some b) false None ∅)
  else if decide (x = Parent b) then Some (AddChild pn b) else blocks ts !! x.
Proof.
  unfold added. destruct (decide (x = BlkID b)) as [->|]; [by rewrite lookup_insert_eq|].
  rewrite lookup_insert_ne by done.
  destruct (decide (x = Parent b)) as [->|]; [by rewrite lookup_insert_eq|].
  by rewrite lookup_insert_ne.
Qed.

Lemma added_parent_ne : Parent b <> BlkID b.
Proof. congruence. Qed.

(** The nodes of [added] and the nodes they come from. *)
Lemma added_old x n : x <> BlkID b -> added ts b pn !! x = Some n ->
  exists n0, blocks ts !! x = Some n0 /\ blk n = blk n0.
Proof.
  intros Hx. rewrite added_lookup, decide_False by done.
  case_decide; [subst; intros [= <-]; by exists pn|by exists n].
Qed.

Lemma added_Some x : is_Some (blocks ts !! x) -> is_Some (added ts b pn !! x).
Proof. intros ?. rewrite added_lookup. by repeat case_decide. Qed.

Lemma added_height ts' x : blocks ts' = added ts b pn ->
  lastAcceptedHeight ts' = lastAcceptedHeight ts -> x <> BlkID b ->
  height ts' x = height ts x.
Proof.
  intros Hb Hh Hx. unfold height. rewrite Hb, Hh, added_lookup, decide_False by done.
  case_decide; [|done]. subst. by rewrite Hpn.
Qed.

Lemma parent_height_root : lastAcceptedHeight ts <= height ts (Parent b).
Proof.
  destruct (decide (Parent b = lastAcceptedID ts)) as [->|].
  - by rewrite wf_height_root.
  - pose proof (wf_height ts (Parent b) W ltac:(done) ltac:(eauto)). lia.
Qed.

Lemma added_children x n c b' : added ts b pn !! x = Some n ->
  children n !! c = Some b' <->
  c <> lastAcceptedID ts /\ Parent b' = x /\
    exists nc, added ts b pn !! c = Some nc /\ blk nc = Some b'.
Proof.
  destruct Hi as (Hid & Hr & _). pose proof added_parent_ne as Hne.
  assert (forall c b', c <> BlkID b ->
    (exists nc, added ts b pn !! c = Some nc /\ blk nc = Some b') <->
    (exists nc, blocks ts !! c = Some nc /\ blk nc = Some b')) as Hold.
  { intros c0 b0 Hc0. rewrite added_lookup, decide_False by done.
    case_decide; [subst c0|done]. split; intros (nc & Hnc & Hb).
    - exists pn. split; [done|]. by injection Hnc as <-.
    - exists (AddChild pn b). split; [done|]. by simplify_eq. }
  intros Hn. destruct (decide (c = BlkID b)) as [->|Hc].
  - assert ((exists nc, added ts b pn !! BlkID b = Some nc /\ blk nc = Some b') <-> b' = b) as ->.
    { rewrite added_lookup, decide_True by done. naive_solver. }
    rewrite added_lookup in Hn. case_decide; [|case_decide].
    + injection Hn as <-. cbn. rewrite lookup_empty. naive_solver.
    + injection Hn as <-. cbn. rewrite lookup_insert_eq. naive_solver.
    + split; [|naive_solver]. intros (_ & _ & nc & ? & _)%(wf_children ts W x n _ _ Hn); congruence.
  - rewrite Hold by done. rewrite added_lookup in Hn. case_decide; [|case_decide].
    + injection Hn as <-. subst x. cbn. rewrite lookup_empty. split; [done|].
      intros (Hcr & Hp & nc & Hnc & Hb). exfalso.
      destruct (wf_blk ts W c nc Hnc Hcr) as (? & ? & _ & [? ?] & _). congruence.
    + injection Hn as <-. subst x. cbn. rewrite lookup_insert_ne by done.
      by apply (wf_children ts W).
    + by apply (wf_children ts W).
Qed.

Lemma added_sb x n : added ts b pn !! x = Some n ->
  match sb n with None => children n = ∅ | Some t => inv t (dom (children n)) end.
Proof.
  destruct Hi as (Hid & _). rewrite added_lookup. case_decide; [by intros [= <-]|].
  case_decide; [|by apply (wf_sb ts W)]. intros [= <-]. cbn.
  pose proof (wf_sb ts W _ _ Hpn) as Hs. rewrite dom_insert_L.
  destruct (sb pn) as [t|]; [by apply inv_Add|].
  rewrite Hs, dom_empty_L, union_empty_r_L. by apply inv_New.
Qed.

Lemma added_WF ts' : blocks ts' = added ts b pn ->
  lastAcceptedID ts' = lastAcceptedID ts ->
  lastAcceptedHeight ts' = lastAcceptedHeight ts -> WF ts'.
Proof.
  intros Hb Hr Hh. destruct Hi as (Hid & Hrt & Hht). specialize (Hht ltac:(eauto)).
  pose proof parent_height_root as Hph. split; rewrite ?Hb, ?Hr, ?Hh.
  - destruct (wf_root ts W) as (n & Hn & Hb'). rewrite added_lookup, decide_False by done.
    case_decide as Hp; [|by exists n]. exists (AddChild pn b). split; [done|].
    rewrite Hp in Hn. simplify_eq. exact Hb'.
  - intros x n Hn Hx. destruct (decide (x = BlkID b)) as [->|Hxb].
    + rewrite added_lookup, decide_True in Hn by done. injection Hn as <-.
      exists b. split_and!; try done.
      * apply added_Some; eauto.
      * by rewrite (added_height ts') by (done || apply added_parent_ne).
      * lia.
    + destruct (added_old x n Hxb Hn) as (n0 & Hn0 & Hbk). rewrite Hbk.
      destruct (wf_blk ts W x n0 Hn0 Hx) as (b' & ? & ? & Hp & ? & ?).
      exists b'. split_and!; try done; [by apply added_Some|].
      rewrite (added_height ts'); [done..|]. intros Heq. destruct Hp as [? Hp]. congruence.
  - apply added_children.
  - apply added_sb.
Qed.
End add.

Definition add_error (e : TopErr E) : Prop :=
  e = errDuplicateAdd \/ e = errUnknownParentBlock.

Lemma not_processing ts b : WF ts -> issuable ts b ->
  Processing ts (BlkID b) = false -> blocks ts !! BlkID b = None.
Proof.
  intros W (_ & Hr & _). unfold Processing. rewrite decide_False by done.
  case_bool_decide as Hs; [done|]. intros _. by apply eq_None_not_Some.
Qed.

(** ** Accepting and rejecting *)

(** The blocks of the nodes of a map. *)
Definition procs m : list Block := omap (fun kv => blk kv.2) (map_to_list m).

(** The nodes that are not in [l]. *)
Definition live m (l : list ID) : gmap ID (snowmanBlock T) :=
  filter (fun kv => kv.1 ∉ l) m.

Lemma live_lookup m l x : live m l !! x = if decide (x ∈ l) then None else m !! x.
Proof.
  unfold live. rewrite map_lookup_filter. destruct (m !! x); cbn; repeat case_decide;
    by try case_guard.
Qed.

Lemma procs_delete m x n : m !! x = Some n ->
  procs m ≡ₚ option_list (blk n) ++ procs (delete x m).
Proof.
  intros Hx. unfold procs. rewrite <- (map_to_list_delete m x n Hx). cbn.
  by destruct (blk n).
Qed.

Lemma live_pair m x y : live m [x; y] = delete y (delete x m).
Proof.
  apply map_eq. intros z. rewrite live_lookup, !lookup_delete.
  case_decide as Hz; rewrite !elem_of_cons, elem_of_nil in Hz; repeat case_decide; naive_solver.
Qed.

(** Taking the children [cs] out of the live nodes. *)
Lemma live_rejects m (cs : list (ID * Block)) l :
  NoDup cs.*1 ->
  (forall c b, (c, b) ∈ cs -> c ∉ l /\ exists n, m !! c = Some n /\ blk n = Some b) ->
  procs (live m l) ≡ₚ cs.*2 ++ procs (live m (l ++ cs.*1)).
Proof.
  revert l. induction cs as [|[c b] cs IH]; intros l Hnd Hcs; cbn.
  - by rewrite app_nil_r.
  - apply NoDup_cons in Hnd as [Hc Hnd].
    destruct (Hcs c b) as (Hl & n & Hn & Hb); [by left|].
    rewrite (procs_delete _ c n) by by rewrite live_lookup, decide_False.
    rewrite Hb. cbn. f_equiv.
    assert (delete c (live m l) = live m (l ++ [c])) as ->.
    { apply map_eq. intros x. rewrite lookup_delete, !live_lookup.
      destruct (decide (c = x)) as [->|Hx].
      - by rewrite decide_True by (rewrite elem_of_app, list_elem_of_singleton; by right).
      - apply decide_ext. rewrite elem_of_app, list_elem_of_singleton. intuition congruence. }
    rewrite (IH (l ++ [c])); [by rewrite <- app_assoc|done|].
    intros c' b' Hin. destruct (Hcs c' b') as (Hl' & Hn'); [by right|]. split; [|done].
    rewrite elem_of_app, list_elem_of_singleton. intros [?| ->]; [done|].
    apply Hc, list_elem_of_fmap. by exists (c, b').
Qed.

Definition log_events (es : list Event) ts : Top :=
  mkTop (pollNumber ts) (lastAcceptedID ts) (lastAcceptedHeight ts) (blocks ts)
    (preferredIDs ts) (preferredHeights ts) (preference ts) (leaves ts) (kahnNodes ts)
    (events ts ++ es).

Lemma log_events_app es es' ts :
  log_events es' (log_events es ts) = log_events (es ++ es') ts.
Proof. unfold log_events; cbn. by rewrite app_assoc. Qed.

Lemma call_spec f e b ts : wp vm_error (call f e b)
  (fun _ ts' => ts' = log_events [e b] ts) ts.
Proof.
  unfold call. wp_steps. case_match; wp_steps; [by eexists|done].
Qed.

(** [Reject] is called on the children [f] selects. *)
Lemma rejects_spec (f : list ID -> ID * Block -> M Top (TopErr E) (list ID))
    (sel : ID * Block -> Prop) `{forall c, Decision (sel c)} cs a ts :
  (forall a c ts, wp vm_error (f a c) (fun a' ts' =>
     if decide (sel c) then a' = a ++ [c.1] /\ ts' = log_events [Reject c.2] ts
     else a' = a /\ ts' = ts) ts) ->
  wp vm_error (foldM f cs a) (fun a' ts' =>
    a' = a ++ (filter sel cs).*1 /\ ts' = log_events (Reject <$> (filter sel cs).*2) ts) ts.
Proof.
  intros Hf. apply wp_foldM with (I := fun cs a' ts' =>
    a' = a ++ (filter sel cs).*1 /\
    ts' = log_events (Reject <$> (filter sel cs).*2) ts).
  - cbn. rewrite app_nil_r. split; [done|]. unfold log_events. cbn.
    rewrite app_nil_r. by destruct ts.
  - intros done x rest a1 ts1 _ [-> ->]. eapply wp_mono; [apply Hf|]. cbn.
    intros a' ts'. rewrite filter_app. rewrite (filter_cons sel x []), filter_nil.
    case_decide; intros [-> ->]; rewrite ?app_nil_r; [|done].
    rewrite !fmap_app, log_events_app. cbn. by rewrite app_assoc.
  - done.
Qed.

Lemma rejectChild_spec a c ts : wp vm_error (rejectChild vm a c)
  (fun a' ts' => a' = a ++ [c.1] /\ ts' = log_events [Reject c.2] ts) ts.
Proof.
  unfold rejectChild. wp_steps. eapply wp_mono; [apply call_spec|]. by cbn.
Qed.

(** *** The loop of [rejectTransitively]

    [ts0] is the state before the acceptance, [p] its root and [pref] the
    accepted child.  [m] are the blocks left, [st] the stack and [rej] the
    blocks rejected so far. *)
Section reject.
Context (ts0 : Top) (W : WF ts0) (pref : ID).
#[local] Abbreviation p := (lastAcceptedID ts0).
#[local] Abbreviation par := (parent ts0).
Context (Hpref : par pref = Some p).

Record rej_inv (st : list ID) m (rej : list Block) : Prop := {
  ri_sub : m ⊆ blocks ts0;
  ri_p : is_Some (m !! p);
  ri_pref : is_Some (m !! pref);
  ri_nodup : NoDup st;
  ri_stack x : x ∈ st -> is_Some (m !! x) /\ x <> p /\ x <> pref /\
    forall q, par x = Some q -> q = p \/ m !! q = None;
  ri_live x q : par x = Some q -> is_Some (m !! x) -> x <> pref -> x ∉ st ->
    q <> p /\ is_Some (m !! q);
  ri_child x q : par x = Some q -> q <> p -> is_Some (m !! q) -> is_Some (m !! x);
  ri_procs : procs (live (blocks ts0) [p; pref]) ≡ₚ rej ++ procs (live m (p :: pref :: st));
}.

Lemma pref_ne : pref <> p.
Proof. apply parent_Some in Hpref. tauto. Qed.

(** The children of a node, in any order the run time lists them. *)
Lemma range_elem ts x n c b : blocks ts0 !! x = Some n ->
  (c, b) ∈ range_children ts (children n) <->
  par c = Some x /\ exists nc, blocks ts0 !! c = Some nc /\ blk nc = Some b.
Proof.
  intros Hn. rewrite (range_children_spec ts), elem_of_map_to_list.
  rewrite (wf_children ts0 W x n) by done. rewrite parent_Some. naive_solver.
Qed.

Lemma range_nodup ts (cm : gmap ID Block) : NoDup (range_children ts cm).*1.
Proof. rewrite (range_children_spec ts). apply NoDup_fst_map_to_list. Qed.

Lemma rej_inv_pop st y m rej ts n :
  rej_inv (st ++ [y]) m rej -> m !! y = Some n ->
  let cs := range_children ts (children n) in
  rej_inv (st ++ cs.*1) (delete y m) (rej ++ cs.*2).
Proof.
  intros [Hsub Hp Hq Hnd Hst Hlive Hch Hprocs] Hn cs.
  pose proof (lookup_weaken _ _ _ _ Hn Hsub) as Hn0.
  apply NoDup_app in Hnd as (Hnd & Hy & _).
  assert (y ∉ st) as Hyst by (intros Hin; apply (Hy y Hin); by left).
  destruct (Hst y) as (_ & Hyp & Hyq & Hypar); [rewrite elem_of_app; right; by left|].
  assert (forall c, c ∈ cs.*1 <-> par c = Some y) as Hcs.
  { intros c. rewrite list_elem_of_fmap. split.
    - intros ([c' b] & -> & Hin). by apply (range_elem ts y n c' b Hn0) in Hin as [? _].
    - intros Hc. pose proof Hc as (_ & nc & b & Hnc & Hb & _)%parent_Some.
      exists (c, b). split; [done|]. apply (range_elem ts y n c b Hn0). eauto. }
  assert (forall c, par c = Some y -> is_Some (m !! c) /\ c <> y /\ c <> p /\ c <> pref /\ c ∉ st)
    as Hkid.
  { intros c Hc. assert (c <> pref) by congruence.
    pose proof Hc as (Hcp & nc & b & Hnc & Hb & Hpb)%parent_Some.
    assert (c <> y).
    { intros ->. destruct (wf_parent ts0 y W Hyp ltac:(eauto)) as (q & Hq' & _ & Hh).
      simplify_eq. lia. }
    split_and!; try done; [by apply (Hch c y); eauto|].
    intros Hin. destruct (Hst c) as (_ & _ & _ & Hor); [rewrite elem_of_app; by left|].
    destruct (Hor y Hc); [done|congruence]. }
  split.
  - etrans; [apply delete_subseteq|done].
  - by rewrite lookup_delete_ne.
  - by rewrite lookup_delete_ne.
  - apply NoDup_app. split_and!; [done| |apply range_nodup].
    intros c Hc Hin. apply Hcs in Hin. by apply (Hkid c Hin).
  - intros x Hx. apply elem_of_app in Hx as [Hx|Hx].
    + destruct (Hst x) as (Hm & ? & ? & Hor); [rewrite elem_of_app; by left|].
      assert (x <> y) by congruence. rewrite lookup_delete_ne by done.
      split_and!; try done. intros q Hxq. rewrite lookup_delete_None. naive_solver.
    + apply Hcs in Hx. destruct (Hkid x Hx) as (? & ? & ? & ? & ?).
      rewrite lookup_delete_ne by done. split_and!; try done.
      intros q Hq'. simplify_eq. right. apply lookup_delete_eq.
  - intros x q Hxq Hm Hx Hnin. rewrite elem_of_app, Hcs in Hnin.
    assert (x <> y). { intros ->. rewrite lookup_delete_eq in Hm. by destruct Hm. }
    rewrite lookup_delete_ne in Hm by done.
    destruct (Hlive x q Hxq Hm Hx) as [? ?].
    { rewrite elem_of_app, list_elem_of_singleton. naive_solver. }
    split; [done|]. rewrite lookup_delete_ne; [done|naive_solver].
  - intros x q Hxq Hqp Hm.
    assert (q <> y). { intros ->. rewrite lookup_delete_eq in Hm. by destruct Hm. }
    rewrite lookup_delete_ne in Hm by done. rewrite lookup_delete_ne; [by eapply Hch|].
    intros <-. destruct (Hypar q Hxq); [done|]. rewrite H1 in Hm. by destruct Hm.
  - rewrite Hprocs, <- app_assoc. f_equiv.
    assert (live m (p :: pref :: st ++ [y]) = live (delete y m) (p :: pref :: st)) as ->.
    { apply map_eq. intros x. rewrite !live_lookup.
      destruct (decide (x = y)) as [->|Hx].
      - rewrite decide_True, lookup_delete_eq by by rewrite !elem_of_cons, elem_of_app, list_elem_of_singleton; auto.
        by case_decide.
      - rewrite lookup_delete_ne by done. apply decide_ext.
        rewrite !elem_of_cons, elem_of_app, list_elem_of_singleton. tauto. }
    rewrite (live_rejects _ cs); [done|apply range_nodup|].
    intros c b Hin. apply (range_elem ts y n c b Hn0) in Hin as [Hc (nc & Hnc & Hb)].
    destruct (Hkid c Hc) as ([nc' Hm] & ? & ? & ? & ?). split.
    { rewrite !elem_of_cons. naive_solver. }
    exists nc'. rewrite lookup_delete_ne by done. split; [done|].
    pose proof (lookup_weaken _ _ _ _ Hm Hsub). congruence.
Qed.

(** The first rejects are the siblings of the accepted block. *)
Lemma rej_inv_init ts n : blocks ts0 !! p = Some n ->
  let cs := filter (fun c => c.1 <> pref) (range_children ts (children n)) in
  rej_inv cs.*1 (blocks ts0) cs.*2.
Proof.
  intros Hn cs.
  assert (forall c b, (c, b) ∈ cs <-> c <> pref /\ par c = Some p /\
    exists nc, blocks ts0 !! c = Some nc /\ blk nc = Some b) as Hel.
  { intros c b. unfold cs. rewrite list_elem_of_filter, (range_elem ts p n c b Hn). cbn. tauto. }
  assert (forall c, c ∈ cs.*1 <-> c <> pref /\ par c = Some p) as Hcs.
  { intros c. rewrite list_elem_of_fmap. split.
    - intros ([c' b] & -> & Hin). apply Hel in Hin. naive_solver.
    - intros [Hc Hp]. pose proof Hp as (_ & nc & b & Hnc & Hb & _)%parent_Some.
      exists (c, b). split; [done|]. apply Hel. eauto. }
  assert (NoDup cs.*1) as Hnd.
  { eapply sublist_NoDup; [apply (range_nodup ts (children n))|].
    apply fmap_sublist, sublist_filter. }
  pose proof pref_ne. split; try done.
  - apply parent_Some in Hpref. naive_solver.
  - intros x [Hx Hp]%Hcs. pose proof Hp as (? & nc & ? & ? & _)%parent_Some.
    split_and!; [by exists nc|done|done|]. intros q Hq. left. congruence.
  - intros x q Hxq Hm Hx Hnin. rewrite Hcs in Hnin. split; [naive_solver|].
    apply parent_Some in Hxq as (? & nc & b & Hnc & Hb & <-).
    destruct (wf_blk ts0 W x nc Hnc) as (b' & ? & _ & ? & _); [done|]. by simplify_eq.
  - intros x q (? & nc & b & ? & _)%parent_Some _ _. by exists nc.
  - apply (live_rejects (blocks ts0) cs); [done|].
    intros c b (Hc & Hp & nc & Hb)%Hel. split; [|by exists nc].
    apply parent_Some in Hp. rewrite !elem_of_cons, elem_of_nil. naive_solver.
Qed.

Context (base : Top).

(** The state of the loop: only the blocks and the events change. *)
Definition rejecting m (rej : list Block) : Top :=
  set_blocks (fun _ => m) (log_events (Reject <$> rej) base).

Lemma rejectAll_spec m rej cs a :
  wp vm_error (foldM (rejectChild vm) cs a) (fun a' ts' =>
    a' = a ++ cs.*1 /\ ts' = rejecting m (rej ++ cs.*2)) (rejecting m rej).
Proof.
  eapply wp_mono.
  - apply (rejects_spec _ (fun _ => True)). intros a0 c ts.
    eapply wp_mono; [apply rejectChild_spec|]. cbn. intros ? ? ?. by rewrite decide_True.
  - cbn. intros a' ts' [-> ->].
    assert (filter (fun _ : ID * Block => True) cs = cs) as ->.
    { clear. induction cs as [|c cs IH]; [done|]. rewrite filter_cons, decide_True by done.
      by rewrite IH. }
    split; [done|]. unfold rejecting, log_events. cbn. by rewrite fmap_app, app_assoc.
Qed.

Lemma rejectTransitively_spec st m rej :
  rej_inv st m rej ->
  wp vm_error (rejectTransitively vm st)
    (fun _ ts' => exists m' rej', ts' = rejecting m' rej' /\ rej_inv [] m' rej')
    (rejecting m rej).
Proof.
  intros Hinv. unfold rejectTransitively. wp_steps.
  apply wp_loop with (k := size m) (I := fun k st ts => exists m rej,
    ts = rejecting m rej /\ rej_inv st m rej /\ k = size m).
  - by exists m, rej.
  - unfold tree_fuel. cbn. lia.
  - clear m rej st Hinv. intros k st ts (m & rej & -> & Hinv & ->). unfold rejectTransitively_step.
    destruct st as [|y st _] using rev_ind; [wp_steps; by exists m, rej|].
    rewrite last_snoc. wp_steps. cbn [blocks rejecting set_blocks].
    destruct (ri_stack _ _ _ Hinv y) as ([n Hn] & _); [rewrite elem_of_app; right; by left|].
    apply wp_must. exists n. split; [done|]. wp_steps.
    change (set_blocks (delete y) (rejecting m rej)) with (rejecting (delete y m) rej).
    eapply wp_mono; [apply rejectAll_spec|]. cbn. intros a ts' [-> ->]. wp_steps.
    exists (size (delete y m)). split.
    { rewrite map_size_delete_Some by done.
      enough (0 < size m)%nat by lia.
      destruct (decide (size m = 0)%nat) as [H0|]; [|lia].
      apply map_size_empty_iff in H0. subst. by rewrite lookup_empty in Hn. }
    eexists _, _. split; [done|]. split; [|done].
    replace (take (length (st ++ [y]) - 1) (st ++ [y])) with st.
    { by eapply rej_inv_pop. }
    rewrite length_app. cbn. by rewrite Nat.add_sub, take_app_length.
Qed.
End reject.

(** *** Acceptance *)
Record accepted_to ts (pref : ID) ts' : Prop := {
  at_WF : WF ts';
  at_root : lastAcceptedID ts' = pref;
  at_height : lastAcceptedHeight ts' = lastAcceptedHeight ts + 1;
  at_sub : blocks ts' ⊆ blocks ts;
  at_gone : blocks ts' !! lastAcceptedID ts = None;
  at_child x q : parent ts x = Some q -> is_Some (blocks ts' !! q) -> is_Some (blocks ts' !! x);
  at_preferredIDs : preferredIDs ts' = preferredIDs ts ∖ {[pref]};
  at_preferredHeights :
    preferredHeights ts' = delete (lastAcceptedHeight ts + 1) (preferredHeights ts);
  at_preference : preference ts' = preference ts;
  at_events : exists b rej, BlkID b = pref /\ Parent b = lastAcceptedID ts /\
    events ts' = events ts ++ [BlockAcceptorAccept b; Accept b] ++ (Reject <$> rej) /\
    procs (delete (lastAcceptedID ts) (blocks ts)) ≡ₚ
      b :: rej ++ procs (delete pref (blocks ts'));
}.

Lemma reject_done ts pref m rej ts' :
  WF ts -> parent ts pref = Some (lastAcceptedID ts) -> rej_inv ts pref [] m rej ->
  blocks ts' = delete (lastAcceptedID ts) m -> lastAcceptedID ts' = pref ->
  lastAcceptedHeight ts' = lastAcceptedHeight ts + 1 -> WF ts'.
Proof.
  intros W Hpref Hinv Hb Hr Hh. destruct Hinv as [Hsub Hp Hq _ _ Hlive Hch _].
  pose proof (pref_ne ts pref Hpref) as Hne.
  pose proof (wf_height_root ts W) as Hroot.
  assert (forall x n, blocks ts' !! x = Some n ->
    blocks ts !! x = Some n /\ m !! x = Some n /\ x <> lastAcceptedID ts) as Hin.
  { intros x n. rewrite Hb, lookup_delete_Some. intros [? ?].
    split_and!; [by eapply lookup_weaken|done|done]. }
  assert (forall x, is_Some (m !! x) -> x <> lastAcceptedID ts -> height ts' x = height ts x)
    as Hheight.
  { intros x [n Hn] Hx. unfold height. rewrite Hb, lookup_delete_ne, Hn by done.
    pose proof (lookup_weaken _ _ _ _ Hn Hsub) as Hn0. rewrite Hn0.
    by destruct (wf_blk ts W x n Hn0 Hx) as (b & -> & _). }
  split; rewrite ?Hr, ?Hh.
  - destruct Hq as [n Hn]. exists n. split; [by rewrite Hb, lookup_delete_ne|].
    intros b Hbn. pose proof (lookup_weaken _ _ _ _ Hn Hsub) as Hn0.
    apply parent_Some in Hpref as (_ & n' & b' & ? & ? & Hpb).
    assert (b' = b) as -> by congruence.
    destruct (wf_blk ts W pref n Hn0 Hne) as (b' & ? & ? & _ & Hbh & _).
    assert (b' = b) as -> by congruence. split; [done|]. by rewrite Hbh, Hpb, Hroot.
  - intros x n Hn Hx. destruct (Hin x n Hn) as (Hn0 & Hnm & Hxp).
    destruct (wf_blk ts W x n Hn0 Hxp) as (b & Hbk & Hid & Hpar & Hhb & _).
    destruct (Hlive x (Parent b)) as [Hqp Hqm];
      [apply parent_Some; eauto 10|eauto|done|by intros ?%elem_of_nil|].
    exists b. rewrite Hb, lookup_delete_ne, Hheight by done. split_and!; try done.
    pose proof (wf_height ts (Parent b) W Hqp Hpar). lia.
  - intros x n c b Hn. destruct (Hin x n Hn) as (Hn0 & Hnm & Hxp).
    rewrite (wf_children ts W x n c b Hn0). split.
    + intros (Hc & Hpb & nc & Hnc & Hbc).
      assert (parent ts c = Some x) as Hpar by (apply parent_Some; eauto 10).
      split_and!; [congruence|done|].
      destruct (Hch c x Hpar Hxp ltac:(eauto)) as [nc' Hnc'].
      exists nc'. rewrite Hb, lookup_delete_ne by done. split; [done|].
      pose proof (lookup_weaken _ _ _ _ Hnc' Hsub). congruence.
    + intros (Hc & Hpb & nc & (? & _ & ?)%Hin & Hbc). eauto 10.
  - intros x n (Hn0 & _)%Hin. by apply (wf_sb ts W x n).
Qed.

Lemma accept_spec ts n t :
  WF ts -> blocks ts !! lastAcceptedID ts = Some n -> sb n = Some t ->
  wp vm_error (acceptPreferredChild vm n;; modify (set_blocks (delete (lastAcceptedID ts))))
    (fun _ ts' => accepted_to ts (Preference t) ts') ts.
Proof.
  intros W Hn Ht. set (pref := Preference t).
  pose proof (wf_preferred ts _ n t W Hn Ht) as Hpref. fold pref in Hpref.
  pose proof (proj2 (wf_child ts _ n pref W Hn) Hpref) as [child Hc].
  pose proof Hc as (_ & Hpc & nc & Hnc & Hbc)%(wf_children ts W _ n _ _ Hn).
  pose proof (pref_ne ts pref Hpref) as Hne.
  destruct (wf_blk ts W pref nc Hnc Hne) as (b' & Hb' & Hid & _ & Hh & _).
  assert (b' = child) as -> by congruence.
  rewrite Hpc, (wf_height_root ts W) in Hh.
  apply wp_bind. unfold acceptPreferredChild. wp_steps.
  apply wp_must. exists t. split; [done|]. wp_steps. fold pref.
  apply wp_must. exists child. split; [done|]. wp_steps.
  eapply wp_mono; [apply call_spec|]. cbn beta. intros _ ts1 ->. wp_steps.
  eapply wp_mono; [apply call_spec|]. cbn beta. intros _ ts1 ->. wp_steps.
  rewrite log_events_app. cbn [app].
  set (base := set_preferred _ _ _ _).
  eapply wp_mono.
  { apply (rejects_spec _ (fun c => c.1 <> pref)). intros a c ts1.
    case_bool_decide as Hcp.
    - apply wp_ret. by rewrite decide_False by by intros [].
    - eapply wp_mono; [apply rejectChild_spec|]. intros ? ? ?. by rewrite decide_True. }
  cbn beta. intros rejects ts1 [-> ->].
  set (cs := filter _ _).
  pose proof (rej_inv_init ts W pref Hpref base n Hn) as Hinv. fold cs in Hinv.
  change (log_events (Reject <$> cs.*2) base) with (rejecting base (blocks ts) cs.*2).
  eapply wp_mono; [by apply (rejectTransitively_spec ts W pref Hpref base)|].
  cbn beta. intros _ ts2 (m & rej & -> & Hinv'). wp_steps.
  split; try done.
  - by apply (reject_done ts pref m rej).
  - cbn. etrans; [apply delete_subseteq|apply Hinv'].
  - cbn. apply lookup_delete_eq.
  - cbn. intros x q Hxq Hq.
    assert (q <> lastAcceptedID ts).
    { intros ->. rewrite lookup_delete_eq in Hq. by destruct Hq. }
    rewrite lookup_delete_ne in Hq by done. pose proof Hxq as [Hx _]%parent_Some.
    rewrite lookup_delete_ne by done. by eapply (ri_child _ _ _ _ _ Hinv').
  - cbn. by rewrite Hh, Z.add_comm.
  - exists child, rej. split_and!; try done.
    + cbn. by rewrite <- app_assoc.
    + cbn [rejecting set_blocks blocks log_events lastAcceptedID].
      rewrite (procs_delete _ pref nc) by by rewrite lookup_delete_ne.
      rewrite Hb'. cbn. f_equiv. rewrite <- !live_pair. apply (ri_procs _ _ _ _ _ Hinv').
Qed.
End wf.
End SnowmanWf.

(** ** Transitive vote counting

    [calculateInDegree] and [pushVotes] of [Topological] sort the part of the
    block tree below the votes topologically and push the votes towards the last
    accepted block.  This file proves that the result is the naive count: the
    votes for a child are the votes for the blocks that descend from it. *)
Module SnowmanVotes.
Import Bits Snowball Consensus Topological SnowmanWf.

Section votes.
Context {T E : Type} `{L : ConsensusLaws T} `{R : Runtime T}.
Context (params : Parameters).

Abbreviation Top := (Topological T).
Implicit Types (ts : Top) (x p q c v : ID) (m : gmap ID Z).

(** ** Paths to the last accepted block *)
Section path_fuel.
Context (ts : Top).

Fixpoint path_fuel (fuel : nat) x : list ID :=
  match fuel with
  | O => []
  | S fuel => match parent ts x with Some p => x :: path_fuel fuel p | None => [] end
  end.
End path_fuel.

(** [x] and its processing ancestors. *)
Definition path ts x : list ID :=
  path_fuel ts (Z.to_nat (height ts x - lastAcceptedHeight ts)) x.

(** The strict ancestors of [x], the last accepted block included. *)
Definition ancestors ts x : list ID := omap (parent ts) (path ts x).

(** The votes for the blocks that descend from [x], and from a child of [p]. *)
Definition weight ts (m : gmap ID Z) x : Z := msum (filter (fun kv => x ∈ path ts kv.1) m).
Definition sub_weight ts (m : gmap ID Z) p : Z :=
  msum (filter (fun kv => p ∈ ancestors ts kv.1) m).

Section tree.
Context (ts : Top) (W : WF ts).

Lemma parent_step x p : parent ts x = Some p ->
  x <> lastAcceptedID ts /\ is_Some (blocks ts !! x) /\ is_Some (blocks ts !! p) /\
  height ts x = height ts p + 1 /\ lastAcceptedHeight ts < height ts x.
Proof.
  intros Hp. pose proof Hp as (Hx & n & b & Hn & _)%parent_Some.
  destruct (wf_parent ts x W Hx ltac:(eauto)) as (p' & Hp' & ? & ?). simplify_eq.
  pose proof (wf_height ts x W Hx ltac:(eauto)). eauto 10.
Qed.

Lemma parent_None x : is_Some (blocks ts !! x) -> parent ts x = None ->
  x = lastAcceptedID ts.
Proof.
  intros Hx Hp. destruct (decide (x = lastAcceptedID ts)); [done|].
  destruct (wf_parent ts x W) as (? & ? & _); congruence.
Qed.

Lemma parent_root : parent ts (lastAcceptedID ts) = None.
Proof. unfold parent, parent_in. by rewrite decide_True. Qed.

Lemma path_eq x :
  path ts x = match parent ts x with Some p => x :: path ts p | None => [] end.
Proof.
  unfold path. destruct (parent ts x) as [p|] eqn:Hp.
  - destruct (parent_step x p Hp) as (_ & _ & _ & Hh & Hl). rewrite Hh.
    replace (Z.to_nat _) with (S (Z.to_nat (height ts p - lastAcceptedHeight ts))) by lia.
    cbn. by rewrite Hp.
  - destruct (Z.to_nat _); cbn; [done|]. by rewrite Hp.
Qed.

(** Induction from the last accepted block upwards. *)
Lemma tree_ind (P : ID -> Prop) :
  (forall x, parent ts x = None -> P x) ->
  (forall x p, parent ts x = Some p -> P p -> P x) -> forall x, P x.
Proof.
  intros H0 Hs x. remember (Z.to_nat (height ts x - lastAcceptedHeight ts)) as k eqn:Hk.
  revert x Hk. induction k as [|k IH]; intros x Hk;
    (destruct (parent ts x) as [p|] eqn:Hp; [|by apply H0]);
    destruct (parent_step x p Hp) as (_ & _ & _ & Hh & Hl); [lia|].
  apply (Hs x p Hp), IH. lia.
Qed.

Lemma path_length x : is_Some (blocks ts !! x) ->
  Z.of_nat (length (path ts x)) = height ts x - lastAcceptedHeight ts.
Proof.
  induction x as [x Hp|x p Hp IH] using tree_ind; intros Hx; rewrite path_eq, Hp; cbn.
  - rewrite (parent_None x Hx Hp), wf_height_root by done. lia.
  - destruct (parent_step x p Hp) as (_ & _ & Hpb & Hh & _). specialize (IH Hpb). lia.
Qed.

Lemma path_elem x y : y ∈ path ts x ->
  is_Some (parent ts y) /\ is_Some (blocks ts !! y) /\ height ts y <= height ts x.
Proof.
  induction x as [x Hp|x p Hp IH] using tree_ind; rewrite path_eq, Hp.
  - by intros ?%elem_of_nil.
  - destruct (parent_step x p Hp) as (_ & Hx & _ & Hh & _).
    intros [->|Hy]%elem_of_cons; [split_and!; [by rewrite Hp|done|lia]|].
    destruct (IH Hy) as (? & ? & ?). split_and!; [done..|lia].
Qed.

Lemma path_NoDup x : NoDup (path ts x).
Proof.
  induction x as [x Hp|x p Hp IH] using tree_ind; rewrite path_eq, Hp; [constructor|].
  constructor; [|done]. intros Hx. apply path_elem in Hx as (_ & _ & ?).
  destruct (parent_step x p Hp) as (_ & _ & _ & ? & _). lia.
Qed.

(** The fuel of the loops that climb the tree is enough. *)
Lemma path_bound x : is_Some (blocks ts !! x) ->
  (Z.to_nat (height ts x - lastAcceptedHeight ts) <= size (blocks ts))%nat.
Proof.
  intros Hx. rewrite <- (path_length x Hx), Nat2Z.id, <- size_dom.
  rewrite <- (size_list_to_set (C:=gset ID) (path ts x)) by apply path_NoDup.
  apply subseteq_size. intros y. rewrite elem_of_list_to_set, elem_of_dom.
  intros Hy. apply (path_elem x y Hy).
Qed.

Lemma ancestors_eq x :
  ancestors ts x = match parent ts x with Some p => p :: ancestors ts p | None => [] end.
Proof.
  unfold ancestors. rewrite path_eq. destruct (parent ts x) eqn:Hp; [|done].
  cbn. by rewrite Hp.
Qed.

Lemma ancestors_child x p : p ∈ ancestors ts x <->
  exists c, c ∈ path ts x /\ parent ts c = Some p.
Proof. unfold ancestors. apply list_elem_of_omap. Qed.

(** The path of a processing block is the block and its processing ancestors. *)
Lemma path_ancestors x y : is_Some (parent ts y) ->
  y ∈ path ts x <-> x = y \/ y ∈ ancestors ts x.
Proof.
  intros [q Hq]. induction x as [x Hp|x p Hp IH] using tree_ind.
  - rewrite path_eq, ancestors_eq, Hp, elem_of_nil. split; [done|].
    intros [->|[]]; congruence.
  - rewrite path_eq, ancestors_eq, Hp, !elem_of_cons, IH. naive_solver.
Qed.

Lemma ancestors_height x p : p ∈ ancestors ts x ->
  is_Some (blocks ts !! p) /\ height ts p < height ts x.
Proof.
  intros (c & Hc & Hp)%ancestors_child. apply path_elem in Hc as (_ & _ & ?).
  destruct (parent_step c p Hp) as (_ & _ & ? & ? & _). split; [done|lia].
Qed.

Lemma ancestors_trans x p q : p ∈ ancestors ts x -> q ∈ ancestors ts p -> q ∈ ancestors ts x.
Proof.
  induction x as [x Hp|x y Hp IH] using tree_ind; rewrite (ancestors_eq x), Hp.
  - by intros ?%elem_of_nil.
  - intros [->|Hy]%elem_of_cons Hq; apply elem_of_cons; auto.
Qed.

(** Two ancestors of one block are ordered. *)
Lemma ancestors_linear x p q : p ∈ ancestors ts x -> q ∈ ancestors ts x ->
  p = q \/ p ∈ ancestors ts q \/ q ∈ ancestors ts p.
Proof.
  induction x as [x Hp|x y Hp IH] using tree_ind; rewrite (ancestors_eq x), Hp.
  - by intros ?%elem_of_nil.
  - intros [->|Hpy]%elem_of_cons [->|Hqy]%elem_of_cons; auto.
Qed.

(** At most one child of [p] is on a path. *)
Lemma path_child_unique x p c c' : c ∈ path ts x -> c' ∈ path ts x ->
  parent ts c = Some p -> parent ts c' = Some p -> c = c'.
Proof.
  intros Hc Hc' Hp Hp'.
  apply path_ancestors in Hc; [|by rewrite Hp]. apply path_ancestors in Hc'; [|by rewrite Hp'].
  assert (forall y, y ∈ ancestors ts c -> height ts y < height ts c' ) as Ha.
  { intros y Hy. apply ancestors_height in Hy as [_ ?].
    destruct (parent_step c p Hp) as (_ & _ & _ & ? & _).
    destruct (parent_step c' p Hp') as (_ & _ & _ & ? & _). lia. }
  assert (height ts c = height ts c').
  { destruct (parent_step c p Hp) as (_ & _ & _ & ? & _).
    destruct (parent_step c' p Hp') as (_ & _ & _ & ? & _). lia. }
  destruct Hc as [->|Hc], Hc' as [->|Hc']; [done| | |].
  - apply ancestors_height in Hc' as [_ ?]. lia.
  - apply ancestors_height in Hc as [_ ?]. lia.
  - destruct (ancestors_linear x c c' Hc Hc') as [?|[H1|H1]]; [done| |];
      apply ancestors_height in H1 as [_ ?]; lia.
Qed.

(** ** Weights *)
Lemma weight_insert m v n x : m !! v = None ->
  weight ts (<[v := n]> m) x = weight ts m x + if decide (x ∈ path ts v) then n else 0.
Proof.
  intros Hv. unfold weight. rewrite map_filter_insert. cbn.
  case_decide as Hx.
  - rewrite msum_insert, map_lookup_filter_None_2 by naive_solver. cbn. lia.
  - rewrite delete_id by done. lia.
Qed.

Lemma sub_weight_insert m v n p : m !! v = None ->
  sub_weight ts (<[v := n]> m) p =
    sub_weight ts m p + if decide (p ∈ ancestors ts v) then n else 0.
Proof.
  intros Hv. unfold sub_weight. rewrite map_filter_insert. cbn.
  case_decide as Hx.
  - rewrite msum_insert, map_lookup_filter_None_2 by naive_solver. cbn. lia.
  - rewrite delete_id by done. lia.
Qed.

(** The votes for [x] and its descendants. *)
Lemma weight_eq m x : is_Some (parent ts x) ->
  weight ts m x = default 0 (m !! x) + sub_weight ts m x.
Proof.
  intros Hx. induction m as [|v n m Hv IH] using map_ind.
  - unfold weight, sub_weight. by rewrite !map_filter_empty, msum_empty, lookup_empty.
  - rewrite weight_insert, sub_weight_insert, IH by done.
    pose proof (path_ancestors v x Hx) as Hpa.
    assert (x ∈ ancestors ts v -> v <> x) as Hne.
    { intros Ha ->. apply ancestors_height in Ha as [_ ?]. lia. }
    destruct (decide (v = x)) as [->|Hvx].
    + rewrite lookup_insert_eq, Hv. cbn. repeat case_decide; naive_solver lia.
    + rewrite lookup_insert_ne by done. repeat case_decide; naive_solver lia.
Qed.

(** The votes below [p] are the votes for its children. *)
Lemma children_weight m p (cm : gmap ID Z) :
  (forall c, default 0 (cm !! c) = if decide (parent ts c = Some p) then weight ts m c else 0) ->
  msum cm = sub_weight ts m p.
Proof.
  revert cm. induction m as [|v n m Hv IH] using map_ind; intros cm Hcm.
  - unfold sub_weight. rewrite map_filter_empty, msum_empty.
    apply msum_zero. intros c. rewrite Hcm. unfold weight.
    rewrite map_filter_empty, msum_empty. by case_decide.
  - rewrite sub_weight_insert by done. case_decide as Hp.
    + apply ancestors_child in Hp as (c & Hc & Hcp).
      rewrite <- (IH (<[c := default 0 (cm !! c) - n]> cm)).
      { rewrite msum_insert. lia. }
      intros c'. destruct (decide (c' = c)) as [->|Hne].
      * rewrite lookup_insert_eq. cbn. rewrite Hcm, weight_insert by done.
        rewrite !decide_True by done. lia.
      * rewrite lookup_insert_ne, Hcm, weight_insert by done.
        case_decide; [|done]. rewrite decide_False; [lia|].
        intros Hc'. by apply Hne, (path_child_unique v p).
    + rewrite <- (IH cm); [lia|]. intros c. rewrite Hcm, weight_insert by done.
      case_decide as Hc; [|done]. rewrite decide_False; [lia|].
      intros Hv'. apply Hp, ancestors_child. by exists c.
Qed.

Lemma weight_nonneg m x : mpos m -> 0 <= weight ts m x.
Proof.
  intros Hm. apply msum_nonneg. intros v n [Hn _]%map_lookup_filter_Some.
  specialize (Hm v n Hn). cbn in Hm. lia.
Qed.

Lemma sub_weight_nonneg m p : mpos m -> 0 <= sub_weight ts m p.
Proof.
  intros Hm. apply msum_nonneg. intros v n [Hn _]%map_lookup_filter_Some.
  specialize (Hm v n Hn). cbn in Hm. lia.
Qed.

(** Closer to the root there are at least as many votes. *)
Lemma sub_weight_mono m p q : mpos m -> q ∈ ancestors ts p ->
  sub_weight ts m p <= sub_weight ts m q.
Proof.
  intros Hm Hq. induction m as [|v n m Hv IH] using map_ind.
  - unfold sub_weight. by rewrite !map_filter_empty.
  - apply map_Forall_insert in Hm as [Hn Hm]; [|done]. specialize (IH Hm).
    rewrite !sub_weight_insert by done.
    destruct (decide (p ∈ ancestors ts v)) as [Hp|Hp].
    + rewrite decide_True; [lia|]. by eapply ancestors_trans.
    + case_decide; cbn in Hn; lia.
Qed.

(** Two blocks that share no vote have disjoint votes below them. *)
Lemma sub_weight_disjoint m p q : mpos m ->
  (forall v, v ∈ dom m -> p ∈ ancestors ts v -> q ∈ ancestors ts v -> False) ->
  sub_weight ts m p + sub_weight ts m q <= msum m.
Proof.
  intros Hm. induction m as [|v n m Hv IH] using map_ind; intros Hd.
  - unfold sub_weight. rewrite !map_filter_empty, !(msum_empty (K:=ID)). apply Z.le_refl.
  - apply map_Forall_insert in Hm as [Hn Hm]; [|done].
    specialize (IH Hm ltac:(set_solver)).
    rewrite !sub_weight_insert, msum_insert_None by done. cbn in Hn.
    specialize (Hd v ltac:(set_solver)).
    repeat case_decide; naive_solver lia.
Qed.

(** Two blocks below which there are more than half of the votes are on one branch. *)
Lemma heavy_comparable m p q : mpos m -> msum m < sub_weight ts m p + sub_weight ts m q ->
  p = q \/ p ∈ ancestors ts q \/ q ∈ ancestors ts p.
Proof.
  intros Hm Hlt. destruct (decide (p = q \/ p ∈ ancestors ts q \/ q ∈ ancestors ts p)); [done|].
  exfalso. apply (Z.lt_irrefl (msum m)), (Z.lt_le_trans _ _ _ Hlt).
  apply sub_weight_disjoint; [done|]. intros v _ Hp Hq.
  by pose proof (ancestors_linear v p q Hp Hq).
Qed.
End tree.

(** ** The topological sort *)
Section kahn.
Context (ts0 : Top) (W : WF ts0) (voteBag : Bag.Bag ID) (Hvb : Bag.wf voteBag).
#[local] Abbreviation par := (parent ts0).
Implicit Types (D lv pend : gset ID) (K : gmap ID kahnNode) (k : kahnNode).

(** The number of children of [p] in [D]. *)
Definition deg D p : Z := Z.of_nat (size (filter (fun c => par c = Some p) D)).

Lemma deg_insert c D p : c ∉ D ->
  deg ({[c]} ∪ D) p = deg D p + if decide (par c = Some p) then 1 else 0.
Proof.
  intros Hc. unfold deg. set (P := fun c => par c = Some p).
  destruct (decide (par c = Some p)) as [Hp|Hp].
  - assert (filter P ({[c]} ∪ D) = {[c]} ∪ filter P D) as -> by set_solver.
    rewrite size_union by set_solver. rewrite size_singleton. lia.
  - assert (filter P ({[c]} ∪ D) = filter P D) as -> by set_solver. lia.
Qed.

Lemma deg_delete c D p : c ∈ D ->
  deg (D ∖ {[c]}) p = deg D p - if decide (par c = Some p) then 1 else 0.
Proof.
  intros Hc. rewrite (union_difference_singleton_L c D) at 2 by done.
  rewrite deg_insert by set_solver. lia.
Qed.

Lemma deg_zero D p : deg D p = 0 <-> forall c, c ∈ D -> par c <> Some p.
Proof.
  unfold deg. rewrite <- Nat2Z.inj_0, Nat2Z.inj_iff, size_empty_iff.
  split; [intros H0 c Hc Hp; apply (not_elem_of_empty (C:=gset ID) c); rewrite <- H0
         |intros H0; apply set_equiv]; set_solver.
Qed.

Lemma deg_nonneg D p : 0 <= deg D p.
Proof. unfold deg. lia. Qed.

(** The invariant of [calculateInDegree].  [done] are the votes counted so far,
    [pend] holds the node whose parent is not linked to it yet. *)
Record kinv (pend : gset ID) (done : list ID) lv K : Prop := {
  ki_blocks x : x ∈ dom K -> is_Some (blocks ts0 !! x);
  ki_closed x q : x ∈ dom K -> x ∉ pend -> par x = Some q -> q ∈ dom K;
  ki_votes v q : v ∈ done -> par v = Some q -> q ∈ dom K;
  ki_deg p k : K !! p = Some k -> inDegree k = deg (dom K ∖ pend) p;
  ki_leaves p : p ∈ lv <-> exists k, K !! p = Some k /\ inDegree k = 0;
  ki_bag p k c : K !! p = Some k -> Bag.Count (kvotes k) c =
    if decide (c ∈ done /\ par c = Some p) then Bag.Count voteBag c else 0;
  ki_wf p k : K !! p = Some k -> Bag.wf (kvotes k);
}.

Lemma kinv_init : kinv ∅ [] ∅ ∅.
Proof.
  split; intros *; rewrite ?dom_empty_L, ?lookup_empty; try set_solver.
Qed.

(** A vote that is dropped. *)
Lemma kinv_drop done lv K v : par v = None -> kinv ∅ done lv K -> kinv ∅ (done ++ [v]) lv K.
Proof.
  intros Hv []. split; try done.
  - intros v' q [?|Hv']%elem_of_app; [eauto|].
    apply list_elem_of_singleton in Hv' as ->. congruence.
  - intros p k c Hk. rewrite (ki_bag0 p k c Hk). apply decide_ext.
    rewrite elem_of_app, list_elem_of_singleton. naive_solver congruence.
Qed.

Lemma decide_snoc {A} (done : list ID) v c (P : Prop) `{Decision P} (a b : A) :
  (if decide (c ∈ done ++ [v] /\ P) then a else b) =
  if decide ((c ∈ done \/ c = v) /\ P) then a else b.
Proof. apply decide_ext. rewrite elem_of_app, list_elem_of_singleton. tauto. Qed.

Definition with_vote K p v : gmap ID kahnNode :=
  let kahn := default (mkKahn 0 Bag.empty) (K !! p) in
  <[p := mkKahn (inDegree kahn)
           (Bag.AddCount (kvotes kahn) v (Bag.Count voteBag v))]> K.

Lemma with_vote_bag done lv K p v : v ∉ done -> par v = Some p -> kinv ∅ done lv K ->
  forall p' k, with_vote K p v !! p' = Some k -> Bag.wf (kvotes k) /\
  forall c, Bag.Count (kvotes k) c =
    if decide (c ∈ done ++ [v] /\ par c = Some p') then Bag.Count voteBag c else 0.
Proof.
  intros Hv Hp [] p' k. pose proof (Bag.wf_count_nonneg _ v Hvb) as Hn.
  unfold with_vote. destruct (decide (p' = p)) as [->|Hne].
  - rewrite lookup_insert_eq. intros [= <-]. cbn.
    set (k0 := default _ _).
    assert (Bag.wf (kvotes k0) /\ forall c, Bag.Count (kvotes k0) c =
      if decide (c ∈ done /\ par c = Some p) then Bag.Count voteBag c else 0) as [Hw Hc].
    { unfold k0. destruct (K !! p) as [k|] eqn:Hk; cbn; [eauto|].
      split; [apply Bag.empty_wf|]. intros c. rewrite decide_False; [done|].
      intros [Hd Hpc]. apply not_elem_of_dom in Hk. eauto. }
    split; [by apply Bag.AddCount_wf|]. intros c. rewrite Bag.Count_AddCount, Hc, decide_snoc.
    destruct (decide (c = v)) as [->|Hcv].
    + rewrite (decide_False (P := v ∈ done /\ _)) by naive_solver.
      rewrite decide_True by auto. repeat case_decide; naive_solver lia.
    + repeat case_decide; naive_solver lia.
  - rewrite lookup_insert_ne by done. intros Hk. split; [eauto|]. intros c.
    rewrite (ki_bag0 p' k c Hk). apply decide_ext.
    rewrite elem_of_app, list_elem_of_singleton. naive_solver congruence.
Qed.

Lemma with_vote_dom K p v : dom (with_vote K p v) = {[p]} ∪ dom K.
Proof. apply dom_insert_L. Qed.

Lemma with_vote_deg K p v p' k : with_vote K p v !! p' = Some k ->
  (exists k0, K !! p' = Some k0 /\ inDegree k = inDegree k0) \/
  (K !! p' = None /\ p' = p /\ inDegree k = 0).
Proof.
  unfold with_vote. destruct (decide (p' = p)) as [->|Hne].
  - rewrite lookup_insert_eq. intros [= <-]. destruct (K !! p) as [k0|]; cbn; eauto.
  - rewrite lookup_insert_ne by done. eauto.
Qed.

(** A vote for a child of a node that was seen before. *)
Lemma kinv_seen done lv K p v : v ∉ done -> par v = Some p -> p ∈ dom K ->
  kinv ∅ done lv K -> kinv ∅ (done ++ [v]) lv (with_vote K p v).
Proof.
  intros Hv Hp Hd Hk. pose proof (with_vote_bag _ _ _ p v Hv Hp Hk) as Hbag.
  destruct Hk as [Hb Hc Hvs Hdeg Hlv _ _].
  assert (dom (with_vote K p v) = dom K) as Hdom by (rewrite with_vote_dom; set_solver).
  split; rewrite ?Hdom; try done.
  - intros v' q [?|Hv']%elem_of_app; [eauto|].
    apply list_elem_of_singleton in Hv' as ->. congruence.
  - intros p' k [(k0 & Hk0 & ->)|(Hn & -> & _)]%with_vote_deg; [eauto|].
    by apply not_elem_of_dom in Hn.
  - intros p'. rewrite Hlv. unfold with_vote. split; intros (k & Hk & H0).
    + destruct (decide (p' = p)) as [->|]; [|rewrite lookup_insert_ne by done; eauto].
      rewrite lookup_insert_eq, Hk. eauto.
    + apply with_vote_deg in Hk as [(k0 & ? & ?)|(Hn & -> & _)]; [|by apply not_elem_of_dom in Hn].
      exists k0. split; [done|congruence].
  - intros p' k c Hk. by apply Hbag.
  - intros p' k Hk. by apply (Hbag p' k).
Qed.

(** A node seen for the first time is a leaf and waits to be linked. *)
Lemma kinv_new done lv K p v : v ∉ done -> par v = Some p -> p ∉ dom K ->
  kinv ∅ done lv K -> kinv {[p]} (done ++ [v]) ({[p]} ∪ lv) (with_vote K p v).
Proof.
  intros Hv Hp Hd Hk. pose proof (with_vote_bag _ _ _ p v Hv Hp Hk) as Hbag.
  destruct Hk as [Hb Hc Hvs Hdeg Hlv _ _].
  assert (dom (with_vote K p v) ∖ {[p]} = dom K ∖ ∅) as Hdom by (rewrite with_vote_dom; set_solver).
  split; rewrite ?with_vote_dom.
  - intros x [->%elem_of_singleton|?]%elem_of_union; [|eauto].
    by destruct (parent_step ts0 W v p Hp) as (_ & _ & ? & _).
  - intros x q Hx Hxp Hq. set_solver.
  - intros v' q [?|Hv']%elem_of_app; [set_solver|].
    apply list_elem_of_singleton in Hv' as ->. set_solver.
  - intros p' k Hk. rewrite <- with_vote_dom with (v := v), Hdom.
    apply with_vote_deg in Hk as [(k0 & Hk0 & ->)|(Hn & -> & ->)]; [eauto|].
    symmetry. apply deg_zero. intros c Hcd Hcp. apply Hd, (Hc c); set_solver.
  - intros p'. rewrite elem_of_union, elem_of_singleton, Hlv. unfold with_vote.
    apply not_elem_of_dom in Hd. destruct (decide (p' = p)) as [->|Hne].
    + rewrite lookup_insert_eq, Hd. cbn. split; [eauto|by left].
    + rewrite lookup_insert_ne by done. naive_solver.
  - intros p' k c Hk. by apply Hbag.
  - intros p' k Hk. by apply (Hbag p' k).
Qed.

Definition linked K q : gmap ID kahnNode :=
  let kahn := default (mkKahn 0 Bag.empty) (K !! q) in
  <[q := mkKahn (inDegree kahn + 1) (kvotes kahn)]> K.

Lemma linked_dom K q : dom (linked K q) = {[q]} ∪ dom K.
Proof. apply dom_insert_L. Qed.

Lemma linked_bag pend done lv K q : kinv pend done lv K ->
  forall p k, linked K q !! p = Some k -> Bag.wf (kvotes k) /\
  forall c, Bag.Count (kvotes k) c =
    if decide (c ∈ done /\ par c = Some p) then Bag.Count voteBag c else 0.
Proof.
  intros [] p k. unfold linked. destruct (decide (p = q)) as [->|];
    [|rewrite lookup_insert_ne by done; split; eauto].
  rewrite lookup_insert_eq. intros [= <-]. cbn. destruct (K !! q) as [k|] eqn:Hk; cbn; [eauto|].
  split; [apply Bag.empty_wf|]. intros c. rewrite decide_False; [done|].
  intros [Hd Hp]. apply not_elem_of_dom in Hk. eauto.
Qed.

(** The pending node is the last accepted block: nothing is linked. *)
Lemma kinv_root done lv K x : x ∈ dom K -> par x = None ->
  kinv {[x]} done lv K -> kinv ∅ done lv K.
Proof.
  intros Hx Hp []. split; try done.
  - intros y q Hy _ Hq. apply (ki_closed0 y); [done| |done].
    intros ->%elem_of_singleton. congruence.
  - intros p k Hk. rewrite (ki_deg0 p k Hk), deg_delete, decide_False by (done || congruence).
    rewrite difference_empty_L. lia.
Qed.

(** The pending node is linked to its parent [q]; the parent is pending if it
    was not seen before. *)
Lemma kinv_link done lv K x q : x ∈ dom K -> par x = Some q ->
  kinv {[x]} done lv K ->
  if decide (q ∈ dom K) then kinv ∅ done (lv ∖ {[q]}) (linked K q)
  else kinv {[q]} done lv (linked K q).
Proof.
  intros Hx Hq Hk. pose proof (linked_bag _ _ _ _ q Hk) as Hbag.
  destruct (parent_step ts0 W x q Hq) as (_ & _ & Hqb & Hh & _).
  destruct Hk as [Hb Hc Hvs Hdeg Hlv _ _].
  assert (forall p, deg (dom K) p =
    deg (dom K ∖ {[x]}) p + if decide (q = p) then 1 else 0) as Hd.
  { intros p. rewrite deg_delete by done. rewrite Hq.
    repeat case_decide; naive_solver lia. }
  assert (forall p k, linked K q !! p = Some k -> inDegree k = deg (dom K) p) as Hdeg'.
  { intros p k. rewrite Hd. unfold linked. case_decide as Hpq.
    - subst. rewrite lookup_insert_eq. intros [= <-]. cbn.
      destruct (K !! p) as [k|] eqn:Hk; cbn; [by rewrite (Hdeg p k)|].
      apply not_elem_of_dom in Hk.
      enough (deg (dom K ∖ {[x]}) p = 0) by lia.
      apply deg_zero. intros c Hcd Hcp. apply Hk, (Hc c); set_solver.
    - rewrite lookup_insert_ne by done. intros Hk. rewrite (Hdeg p k Hk). lia. }
  assert (forall p, p ∈ lv ∖ {[q]} <-> exists k, linked K q !! p = Some k /\ inDegree k = 0) as Hlv'.
  { intros p. rewrite elem_of_difference, elem_of_singleton, Hlv. unfold linked.
    destruct (decide (p = q)) as [->|Hpq].
    - rewrite lookup_insert_eq. split; [naive_solver|]. intros (k & [= <-] & H0). cbn in H0.
      pose proof (Hdeg' q) as Hd'. unfold linked in Hd'. rewrite lookup_insert_eq in Hd'.
      specialize (Hd' _ eq_refl). cbn in Hd'. rewrite Hd, decide_True in Hd' by done.
      pose proof (deg_nonneg (dom K ∖ {[x]}) q). lia.
    - rewrite lookup_insert_ne by done. naive_solver. }
  case_decide as Hqd.
  - assert (dom (linked K q) = dom K) as Hdom by (rewrite linked_dom; set_solver).
    split; rewrite ?Hdom; try done.
    + intros y p Hy _ Hp. destruct (decide (y = x)) as [->|]; [by simplify_eq|].
      apply (Hc y); set_solver.
    + intros p k Hk. rewrite difference_empty_L. by apply Hdeg'.
    + intros p k c Hk. by apply Hbag.
    + intros p k Hk. by apply (Hbag p k).
  - assert (dom (linked K q) ∖ {[q]} = dom K) as Hdom by (rewrite linked_dom; set_solver).
    split; rewrite ?linked_dom.
    + intros y [->%elem_of_singleton|?]%elem_of_union; eauto.
    + intros y p Hy Hyq Hp. destruct (decide (y = x)) as [->|]; [set_solver|].
      apply elem_of_union_r, (Hc y); set_solver.
    + intros v p Hv Hp. apply elem_of_union_r. eauto.
    + intros p k Hk. rewrite <- linked_dom, Hdom. by apply Hdeg'.
    + intros p. rewrite <- Hlv', elem_of_difference, elem_of_singleton.
      split; [|tauto]. intros Hp. split; [done|]. intros ->.
      apply Hlv in Hp as (k & Hk & _). apply Hqd, elem_of_dom. eauto.
    + intros p k c Hk. by apply Hbag.
    + intros p k Hk. by apply (Hbag p k).
Qed.

(** The computations of this part only touch [leaves] and [kahnNodes]. *)
Definition sorted_in (P : gset ID -> gmap ID kahnNode -> Prop) (ts : Top) : Prop :=
  exists lv K, ts = set_kahn lv K ts0 /\ P lv K.

Lemma mark_spec done lv K x :
  x ∈ dom K -> kinv {[x]} done lv K ->
  wp never (loop (OutOfFuel (E:=E)) (tree_fuel ts0) markAncestors_step x)
    (fun _ => sorted_in (kinv ∅ done)) (set_kahn lv K ts0 : Top).
Proof.
  intros Hx Hk.
  apply wp_loop with (k := Z.to_nat (height ts0 x - lastAcceptedHeight ts0))
    (I := fun j x ts => j = Z.to_nat (height ts0 x - lastAcceptedHeight ts0) /\
      sorted_in (fun lv K => x ∈ dom K /\ kinv {[x]} done lv K) ts).
  - split; [done|]. by exists lv, K.
  - unfold tree_fuel. pose proof (path_bound ts0 W x). pose proof (ki_blocks _ _ _ _ Hk x Hx).
    naive_solver lia.
  - clear lv K x Hx Hk. intros j x ts (-> & lv & K & -> & Hx & Hk).
    unfold markAncestors_step. wp_steps. cbn [blocks set_kahn].
    destruct (ki_blocks _ _ _ _ Hk x Hx) as [n Hn]. apply wp_must. exists n. split; [done|].
    change (Decided (set_kahn lv K ts0) n) with (Decided ts0 n).
    rewrite (wf_Decided ts0 x n W Hn). case_bool_decide as Hr.
    { wp_steps. exists lv, K. split; [done|]. apply (kinv_root done lv K x); [done| |done].
      rewrite Hr. apply parent_root. }
    destruct (wf_blk ts0 W x n Hn Hr) as (b & Hb & _). wp_steps.
    apply wp_must. exists b. split; [done|]. wp_steps.
    assert (par x = Some (Parent b)) as Hp by (apply parent_Some; eauto 10).
    pose proof (kinv_link done lv K x (Parent b) Hx Hp Hk) as Hl.
    destruct (parent_step ts0 W x _ Hp) as (_ & _ & _ & Hh & Hlt).
    cbn [kahnNodes set_kahn]. case_bool_decide as Hs.
    + rewrite decide_True in Hl by by apply elem_of_dom. wp_steps.
      by exists (lv ∖ {[Parent b]}), (linked K (Parent b)).
    + rewrite decide_False in Hl by by rewrite elem_of_dom. wp_steps.
      exists (Z.to_nat (height ts0 (Parent b) - lastAcceptedHeight ts0)).
      split; [lia|]. split; [done|]. exists lv, (linked K (Parent b)). split; [done|].
      split; [|done]. rewrite linked_dom. set_solver.
Qed.

Lemma countVote_spec done v lv K : v ∉ done -> kinv ∅ done lv K ->
  wp never (countVote (E:=E) voteBag v) (fun _ => sorted_in (kinv ∅ (done ++ [v])))
    (set_kahn lv K ts0 : Top).
Proof.
  intros Hv Hk. unfold countVote. wp_steps. cbn [blocks set_kahn].
  assert (par v = None -> sorted_in (kinv ∅ (done ++ [v])) (set_kahn lv K ts0)) as Hdrop.
  { intros Hp. exists lv, K. split; [done|]. by apply kinv_drop. }
  destruct (blocks ts0 !! v) as [n|] eqn:Hn.
  2:{ wp_steps. apply Hdrop. unfold parent, parent_in. rewrite Hn. by case_decide. }
  change (Decided (set_kahn lv K ts0) n) with (Decided ts0 n).
  rewrite (wf_Decided ts0 v n W Hn). case_bool_decide as Hr.
  { wp_steps. apply Hdrop. rewrite Hr. apply parent_root. }
  destruct (wf_blk ts0 W v n Hn Hr) as (b & Hb & _). wp_steps.
  apply wp_must. exists b. split; [done|]. wp_steps.
  assert (par v = Some (Parent b)) as Hp by (apply parent_Some; eauto 10).
  cbn [kahnNodes set_kahn]. case_bool_decide as Hs.
  - wp_steps. exists lv, (with_vote K (Parent b) v). split; [done|].
    by apply kinv_seen; [|..|apply elem_of_dom|].
  - wp_steps. apply (mark_spec (done ++ [v]) ({[Parent b]} ∪ lv) (with_vote K (Parent b) v)).
    + rewrite with_vote_dom. set_solver.
    + apply kinv_new; [done..| |done]. by rewrite elem_of_dom.
Qed.

Lemma calculateInDegree_spec : wp never (calculateInDegree (E:=E) voteBag)
  (fun _ => sorted_in (fun lv K => exists done, done ≡ₚ Bag.List voteBag /\ kinv ∅ done lv K))
  ts0.
Proof.
  unfold calculateInDegree. wp_steps.
  set (l := range_votes _ _).
  assert (l ≡ₚ Bag.List voteBag) as Hl by apply range_votes_spec.
  assert (NoDup l) as Hnd by (rewrite Hl; apply NoDup_fst_map_to_list).
  apply wp_foldM with (I := fun done _ => sorted_in (kinv ∅ done)).
  - exists ∅, ∅. split; [done|]. apply kinv_init.
  - intros done v rest _ ts -> (lv & K & -> & Hk).
    eapply wp_mono; [apply countVote_spec; [|done]|done].
    intros Hv. apply NoDup_app in Hnd as (_ & Hd & _). apply (Hd v Hv). by left.
  - intros _ ts (lv & K & -> & Hk). exists lv, K. split; [done|]. by exists l.
Qed.

(** *** Pushing the votes *)
Abbreviation counted := (Bag.counts voteBag).

(** What a vote on the stack carries. *)
Definition vote_ok (v : votes) : Prop :=
  Bag.wf (vbag v) /\ Bag.Len (vbag v) = sub_weight ts0 counted (parentID v) /\
  forall c, Bag.Count (vbag v) c =
    if decide (par c = Some (parentID v)) then weight ts0 counted c else 0.

(** No vote is followed by a vote on a descendant. *)
Definition upwards (s : list votes) : Prop :=
  forall s1 (v : votes) s2 (w : votes), s = s1 ++ v :: s2 -> w ∈ s2 -> parentID v ∉ ancestors ts0 (parentID w).

(** [P] are the nodes popped so far. *)
Record pinv (P : gset ID) lv K (s : list votes) : Prop := {
  pi_sub : P ⊆ dom K;
  pi_blocks x : x ∈ dom K -> is_Some (blocks ts0 !! x);
  pi_closed x q : x ∈ dom K -> par x = Some q -> q ∈ dom K;
  pi_votes v q : is_Some (counted !! v) -> par v = Some q -> q ∈ dom K;
  pi_down x q : x ∈ dom K -> par x = Some q -> q ∈ P -> x ∈ P;
  pi_deg p k : K !! p = Some k -> p ∉ P -> inDegree k = deg (dom K ∖ P) p;
  pi_leaves p : p ∈ lv <-> p ∈ dom K ∖ P /\ deg (dom K ∖ P) p = 0;
  pi_bag p k : K !! p = Some k -> p ∉ P -> Bag.wf (kvotes k) /\
    forall c, Bag.Count (kvotes k) c = if decide (par c = Some p) then
      Bag.Count voteBag c + (if decide (c ∈ P) then sub_weight ts0 counted c else 0) else 0;
  pi_mem p : p ∈ parentID <$> s <->
    p ∈ P /\ AlphaPreference params <= sub_weight ts0 counted p;
  pi_nodup : NoDup (parentID <$> s);
  pi_ok (vt : votes) : vt ∈ s -> vote_ok vt;
  pi_up : upwards s;
}.

Lemma pinv_init done lv K : done ≡ₚ Bag.List voteBag -> kinv ∅ done lv K -> pinv ∅ lv K [].
Proof.
  intros Hd [].
  assert (forall c, c ∈ done <-> is_Some (counted !! c)) as Hdone.
  { intros c. rewrite Hd. unfold Bag.List. rewrite list_elem_of_fmap. split.
    - intros ([c' n] & -> & Hin). apply elem_of_map_to_list in Hin. eauto.
    - intros [n Hn]. exists (c, n). split; [done|]. by apply elem_of_map_to_list. }
  split; try done.
  - intros x q Hx. apply ki_closed0; set_solver.
  - intros v q Hv. apply ki_votes0. by apply Hdone.
  - intros p k Hk _. by rewrite (ki_deg0 p k Hk), difference_empty_L.
  - intros p. rewrite ki_leaves0, difference_empty_L. rewrite elem_of_dom.
    split; [intros (k & Hk & H0)|intros [[k Hk] H0]].
    + rewrite (ki_deg0 p k Hk), difference_empty_L in H0. eauto.
    + exists k. by rewrite (ki_deg0 p k Hk), difference_empty_L.
  - intros p k Hk _. split; [eauto|]. intros c. rewrite (ki_bag0 p k c Hk).
    rewrite (decide_False (P := c ∈ ∅)) by set_solver.
    destruct (decide (par c = Some p)) as [Hp|Hp]; [|by rewrite decide_False by tauto].
    destruct (decide (c ∈ done)) as [Hc|Hc]; [rewrite decide_True by done; lia|].
    rewrite decide_False by tauto. unfold Bag.Count.
    rewrite Hdone, <- eq_None_not_Some in Hc. by rewrite Hc.
  - intros p. cbn. set_solver.
  - constructor.
  - intros vt Hv. by apply elem_of_nil in Hv.
  - intros s1 vt s2 w Hs. by destruct s1.
Qed.

(** Ancestors of a vote are nodes of the sort. *)
Lemma pinv_ancestors P lv K s v c : pinv P lv K s -> is_Some (counted !! v) ->
  c ∈ ancestors ts0 v -> c ∈ dom K.
Proof.
  intros Hi Hv. rewrite (ancestors_eq ts0 W). destruct (par v) as [q|] eqn:Hq;
    [|by intros ?%elem_of_nil].
  pose proof (pi_votes _ _ _ _ Hi v q Hv Hq) as Hqd. clear v Hv Hq. revert Hqd.
  rewrite elem_of_cons. intros Hqd [->|Hc]; [done|]. revert Hqd Hc.
  induction q as [x Hp|x y Hp IH] using (tree_ind ts0 W); intros Hx;
    rewrite (ancestors_eq ts0 W), Hp; [by intros ?%elem_of_nil|].
  pose proof (pi_closed _ _ _ _ Hi x y Hx Hp) as Hy.
  intros [->|Hc]%elem_of_cons; [done|]. by apply IH.
Qed.

Lemma pinv_sub_zero P lv K s c : pinv P lv K s -> c ∉ dom K ->
  sub_weight ts0 counted c = 0.
Proof.
  intros Hi Hc. apply msum_zero. intros v.
  destruct (filter _ _ !! v) as [n|] eqn:Hv; [|done].
  apply map_lookup_filter_Some in Hv as [Hv Ha].
  exfalso. apply Hc. eapply pinv_ancestors; eauto.
Qed.

Lemma pinv_down P lv K s p x : pinv P lv K s -> p ∈ dom K -> x ∈ P ->
  x ∈ ancestors ts0 p -> p ∈ P.
Proof.
  intros Hi Hp Hx. revert Hp.
  induction p as [y Hy|y q Hy IH] using (tree_ind ts0 W); intros Hp;
    rewrite (ancestors_eq ts0 W), Hy; [by intros ?%elem_of_nil|].
  intros Ha. apply (pi_down _ _ _ _ Hi y q Hp Hy).
  apply elem_of_cons in Ha as [->|Ha]; [done|]. apply IH; [by eapply pi_closed|done].
Qed.

(** The votes of a leaf are complete. *)
Lemma pinv_leaf P lv K s p k : pinv P lv K s -> p ∈ lv -> K !! p = Some k ->
  vote_ok (mkVotes p (kvotes k)).
Proof.
  intros Hi Hp Hk. apply (pi_leaves _ _ _ _ Hi) in Hp as [Hp H0].
  destruct (pi_bag _ _ _ _ Hi p k Hk) as [Hw Hc]; [set_solver|].
  assert (forall c, Bag.Count (kvotes k) c =
    if decide (par c = Some p) then weight ts0 counted c else 0) as Hc'.
  { intros c. rewrite Hc. case_decide as Hpc; [|done].
    rewrite (weight_eq ts0 W) by by rewrite Hpc. unfold Bag.Count. f_equal.
    case_decide as HcP; [done|]. symmetry. eapply pinv_sub_zero; [done|].
    intros Hcd. apply deg_zero with (c := c) in H0; [done|set_solver]. }
  split_and!; [done| |done]. cbn. unfold Bag.Len. destruct Hw as [_ ->].
  apply (children_weight ts0 W). intros c. apply (Hc' c).
Qed.

(** Popping the leaf [p] leaves the stack right. *)
Definition pushed (p : ID) k (s : list votes) : list votes :=
  if AlphaPreference params <=? Bag.Len (kvotes k)
  then s ++ [mkVotes p (kvotes k)] else s.

Lemma pushed_ok P lv K s p k : pinv P lv K s -> p ∈ lv -> K !! p = Some k ->
  let s' := pushed p k s in
  (forall x, x ∈ parentID <$> s' <->
    x ∈ {[p]} ∪ P /\ AlphaPreference params <= sub_weight ts0 counted x) /\
  NoDup (parentID <$> s') /\ (forall vt : votes, vt ∈ s' -> vote_ok vt) /\ upwards s'.
Proof.
  intros Hi Hp Hk. pose proof (pinv_leaf _ _ _ _ _ _ Hi Hp Hk) as Hok.
  pose proof Hok as (_ & Hlen & _). cbn in Hlen.
  assert (p ∈ dom K /\ p ∉ P) as [Hd HpP].
  { apply (pi_leaves _ _ _ _ Hi) in Hp. set_solver. }
  unfold pushed. destruct (Z.leb_spec (AlphaPreference params) (Bag.Len (kvotes k))) as [Hle|Hlt].
  - split_and!.
    + intros x. rewrite fmap_app, elem_of_app, (pi_mem _ _ _ _ Hi). cbn.
      rewrite list_elem_of_singleton, elem_of_union, elem_of_singleton.
      split; [intros [?| ->]|]; [tauto| |tauto]. split; [by left|lia].
    + rewrite fmap_app. apply NoDup_app. split_and!; [apply Hi| |apply NoDup_singleton].
      intros x [Hx _]%(pi_mem _ _ _ _ Hi) ->%list_elem_of_singleton. done.
    + intros vt [?| ->%list_elem_of_singleton]%elem_of_app; [by apply Hi|done].
    + intros s1 vt s2 w Hs Hw. destruct s2 as [|w' s2 _] using rev_ind.
      { by apply elem_of_nil in Hw. }
      rewrite app_comm_cons, app_assoc in Hs. apply app_inj_tail in Hs as [Hs <-].
      apply elem_of_app in Hw as [Hw| ->%list_elem_of_singleton].
      * by apply (pi_up _ _ _ _ Hi s1 vt s2 w Hs).
      * cbn. intros Ha. apply HpP, (pinv_down _ _ _ _ p (parentID vt) Hi Hd); [|done].
        apply (pi_mem _ _ _ _ Hi). rewrite Hs, fmap_app. apply elem_of_app; right; by left.
  - split_and!; try apply Hi.
    intros x. rewrite (pi_mem _ _ _ _ Hi), elem_of_union, elem_of_singleton.
    split; [tauto|]. intros [[->|?] ?]; [lia|done].
Qed.

(** The popped node is the last accepted block. *)
Lemma pinv_pop_root P lv K s p k : pinv P lv K s -> p ∈ lv -> K !! p = Some k ->
  par p = None -> pinv ({[p]} ∪ P) (lv ∖ {[p]}) K (pushed p k s).
Proof.
  intros Hi Hp Hk Hroot. destruct (pushed_ok _ _ _ _ _ _ Hi Hp Hk) as (Hs1 & Hs2 & Hs3 & Hs4).
  pose proof (proj1 (pi_leaves _ _ _ _ Hi p) Hp) as [Hpd Hz].
  assert (forall p', deg (dom K ∖ ({[p]} ∪ P)) p' = deg (dom K ∖ P) p') as Hdeg.
  { intros p'. replace (dom K ∖ ({[p]} ∪ P)) with ((dom K ∖ P) ∖ {[p]}) by set_solver.
    rewrite deg_delete, decide_False by (done || congruence). lia. }
  split; try done; try apply Hi.
  - pose proof (pi_sub _ _ _ _ Hi). set_solver.
  - intros x q Hx Hq Hin. pose proof (pi_down _ _ _ _ Hi x q Hx Hq).
    destruct (decide (x ∈ P)); [set_tauto|].
    destruct (decide (q = p)) as [->|]; [|set_solver].
    destruct (proj1 (deg_zero _ _) Hz x); [set_tauto|done].
  - intros p' k' Hk' Hn. rewrite Hdeg. apply (pi_deg _ _ _ _ Hi); set_solver.
  - intros p'. rewrite Hdeg, elem_of_difference, (pi_leaves _ _ _ _ Hi). set_tauto.
  - intros p' k' Hk' Hn. destruct (pi_bag _ _ _ _ Hi p' k' Hk') as [Hw Hc]; [set_solver|].
    split; [done|]. intros c. rewrite Hc. case_decide as Hcp; [|done]. f_equal.
    apply decide_ext. split; [set_solver|]. intros [->%elem_of_singleton|?]%elem_of_union; [|done].
    congruence.
Qed.

(** The votes of the popped node move to its parent [q]. *)
Lemma pinv_pop P lv K s p k q : pinv P lv K s -> p ∈ lv -> K !! p = Some k ->
  par p = Some q ->
  let kq := default (mkKahn 0 Bag.empty) (K !! q) in
  let kq := mkKahn (inDegree kq - 1)
              (Bag.AddCount (kvotes kq) p (Bag.Len (kvotes k))) in
  pinv ({[p]} ∪ P) (if inDegree kq =? 0 then {[q]} ∪ (lv ∖ {[p]}) else lv ∖ {[p]})
    (<[q := kq]> K) (pushed p k s).
Proof.
  intros Hi Hp Hk Hq. destruct (pushed_ok _ _ _ _ _ _ Hi Hp Hk) as (Hs1 & Hs2 & Hs3 & Hs4).
  pose proof (pinv_leaf _ _ _ _ _ _ Hi Hp Hk) as (_ & Hlen & _). cbn in Hlen.
  pose proof (proj1 (pi_leaves _ _ _ _ Hi p) Hp) as [Hpd Hz].
  assert (q ∈ dom K) as Hqd by (apply (pi_closed _ _ _ _ Hi p q); set_solver).
  assert (q ∉ P) as HqP by (intros ?; pose proof (pi_down _ _ _ _ Hi p q); set_solver).
  assert (q <> p) as Hne by (destruct (parent_step ts0 W p q Hq) as (_ & _ & _ & ? & _); intros ->; lia).
  pose proof Hqd as [k0 Hk0]%elem_of_dom. rewrite Hk0. cbn zeta. cbn [default].
  set (kq := mkKahn _ _).
  assert (dom (<[q := kq]> K) = dom K) as Hdom by (rewrite dom_insert_L; set_solver).
  assert (forall p', deg (dom K ∖ P) p' =
    deg (dom K ∖ ({[p]} ∪ P)) p' + if decide (p' = q) then 1 else 0) as Hdeg.
  { intros p'. replace (dom K ∖ ({[p]} ∪ P)) with ((dom K ∖ P) ∖ {[p]}) by set_solver.
    rewrite deg_delete by done. rewrite Hq. repeat case_decide; naive_solver lia. }
  pose proof (pi_deg _ _ _ _ Hi q k0 Hk0 HqP) as Hd0. rewrite Hdeg, decide_True in Hd0 by done.
  assert (inDegree kq = deg (dom K ∖ ({[p]} ∪ P)) q) as Hdq by (cbn; lia).
  split; rewrite ?Hdom; try done; try apply Hi.
  - pose proof (pi_sub _ _ _ _ Hi). set_solver.
  - intros x y Hx Hy Hin. pose proof (pi_down _ _ _ _ Hi x y Hx Hy).
    destruct (decide (x ∈ P)); [set_tauto|].
    destruct (decide (y = p)) as [->|]; [|set_solver].
    destruct (proj1 (deg_zero _ _) Hz x); [set_tauto|done].
  - intros p' k' Hk' Hn. destruct (decide (p' = q)) as [->|Hpq].
    { rewrite lookup_insert_eq in Hk'. by injection Hk' as <-. }
    rewrite lookup_insert_ne in Hk' by done.
    rewrite (pi_deg _ _ _ _ Hi p' k'), Hdeg, decide_False by (done || set_solver). lia.
  - intros p'. assert (p' ∈ lv ∖ {[p]} <-> p' ∈ dom K ∖ ({[p]} ∪ P) /\ deg (dom K ∖ P) p' = 0) as Hl.
    { rewrite elem_of_difference, (pi_leaves _ _ _ _ Hi). set_tauto. }
    rewrite Hdq. pose proof (deg_nonneg (dom K ∖ ({[p]} ∪ P)) q).
    destruct (decide (p' = q)) as [->|Hpq].
    + rewrite Hdeg, decide_True in Hl by done. destruct (Z.eqb_spec (deg (dom K ∖ ({[p]} ∪ P)) q) 0); [set_solver|].
      rewrite Hl. intuition lia.
    + rewrite Hdeg, decide_False, Z.add_0_r in Hl by done. case_match; set_solver.
  - intros p' k' Hk' Hn. destruct (decide (p' = q)) as [->|Hpq].
    + rewrite lookup_insert_eq in Hk'. injection Hk' as <-. cbn.
      destruct (pi_bag _ _ _ _ Hi q k0 Hk0 HqP) as [Hw Hc]. split; [by apply Bag.AddCount_wf|].
      intros c. rewrite Bag.Count_AddCount, Hc, Hlen.
      pose proof (sub_weight_nonneg ts0 counted p (Bag.wf_pos _ Hvb)).
      destruct (decide (p = c)) as [<-|Hpc].
      * rewrite !(decide_True (P := par p = Some q)) by done.
        assert (p ∉ P) by set_solver.
        rewrite (decide_False (P := p ∈ P)), decide_True by set_tauto. lia.
      * rewrite Z.add_0_r. case_decide; [|done]. f_equal. apply decide_ext. set_solver.
    + rewrite lookup_insert_ne in Hk' by done.
      destruct (pi_bag _ _ _ _ Hi p' k' Hk') as [Hw Hc]; [set_solver|].
      split; [done|]. intros c. rewrite Hc. case_decide as Hcp; [|done]. f_equal.
      apply decide_ext. split; [set_solver|].
      intros [->%elem_of_singleton|?]%elem_of_union; [congruence|done].
Qed.

(** A node of greatest height that was not popped is a leaf. *)
Lemma pinv_finished P K s : pinv P ∅ K s -> dom K ⊆ P.
Proof.
  intros Hi x Hx. destruct (decide (x ∈ P)) as [|HxP]; [done|]. exfalso.
  set (above := fun y z => height ts0 z <= height ts0 y).
  assert (Transitive above) by (intros ???; unfold above; lia).
  assert (forall y z, Decision (above y z)) by (unfold above; apply _).
  destruct (minimal_exists_elem_of_L above (dom K ∖ P)) as (y & Hy & Hmin); [set_solver|].
  apply (not_elem_of_empty (C:=gset ID) y), (pi_leaves _ _ _ _ Hi). split; [done|].
  apply deg_zero. intros c Hc Hp. specialize (Hmin c Hc).
  destruct (parent_step ts0 W c y Hp) as (_ & _ & _ & Hh & _). unfold above in Hmin. lia.
Qed.

(** What the sort promises of the stack of votes. *)
Definition counted_votes (s : list votes) : Prop :=
  (forall x, x ∈ parentID <$> s <-> AlphaPreference params <= sub_weight ts0 counted x) /\
  NoDup (parentID <$> s) /\ (forall vt : votes, vt ∈ s -> vote_ok vt) /\ upwards s.

Lemma pinv_counted P K s : 0 < AlphaPreference params -> pinv P ∅ K s -> counted_votes s.
Proof.
  intros Ha Hi. split_and!; try apply Hi. intros x. rewrite (pi_mem _ _ _ _ Hi).
  split; [tauto|]. intros Hx. split; [|done]. apply (pinv_finished P K s Hi).
  destruct (decide (x ∈ dom K)); [done|]. rewrite (pinv_sub_zero P ∅ K s) in Hx by done. lia.
Qed.

Lemma pushVotes_spec lv K : 0 < AlphaPreference params -> pinv ∅ lv K [] ->
  wp never (pushVotes (E:=E) params) (fun s => sorted_in (fun _ _ => counted_votes s))
    (set_kahn lv K ts0 : Top).
Proof.
  intros Ha Hi. unfold pushVotes. wp_steps. cbn [kahnNodes set_kahn].
  apply wp_loop with (k := size (dom K))
    (I := fun j s => sorted_in (fun lv K => exists P, pinv P lv K s /\ j = size (dom K ∖ P))).
  - exists lv, K. split; [done|]. exists ∅. by rewrite difference_empty_L.
  - rewrite size_dom. lia.
  - clear lv K Hi. intros j s ts (lv & K & -> & P & Hi & ->).
    unfold pushVotes_step. wp_steps. cbn [leaves blocks set_kahn].
    case_bool_decide as Hlv.
    { wp_steps. exists lv, K. split; [done|]. subst. by eapply pinv_counted. }
    wp_steps. set (p := pop_leaf _ lv).
    assert (p ∈ lv) as Hp by by apply pop_leaf_spec.
    pose proof (proj1 (pi_leaves _ _ _ _ Hi p) Hp) as [Hpd _].
    assert (p ∈ dom K) as Hpk by set_solver. pose proof Hpk as [k Hk]%elem_of_dom.
    destruct (pi_blocks _ _ _ _ Hi p Hpk) as [n Hn].
    assert (get_kahn (set_kahn lv K ts0) p = k) as -> by (unfold get_kahn; cbn; by rewrite Hk).
    fold (pushed p k s).
    assert (size (dom K ∖ ({[p]} ∪ P)) < size (dom K ∖ P))%nat as Hlt
      by (apply subset_size; set_solver).
    apply wp_must. exists n. split; [done|].
    change (Decided (set_kahn lv K ts0) n) with (Decided ts0 n).
    rewrite (wf_Decided ts0 p n W Hn). case_bool_decide as Hr.
    { wp_steps. exists (size (dom K ∖ ({[p]} ∪ P))). split; [done|].
      exists (lv ∖ {[p]}), K. split; [done|]. exists ({[p]} ∪ P). split; [|done].
      apply pinv_pop_root; [done..|]. rewrite Hr. apply parent_root. }
    destruct (wf_blk ts0 W p n Hn Hr) as (b & Hb & _). wp_steps.
    apply wp_must. exists b. split; [done|]. wp_steps.
    assert (par p = Some (Parent b)) as Hq by (apply parent_Some; eauto 10).
    pose proof (pinv_pop P lv K s p k (Parent b) Hi Hp Hk Hq) as Hpop. cbn zeta in Hpop.
    unfold get_kahn. cbn [kahnNodes set_kahn].
    assert (forall kq, dom (<[Parent b := kq]> K) = dom K) as Hdom.
    { intros kq. rewrite dom_insert_L. pose proof (pi_closed _ _ _ _ Hi p _ Hpk Hq). set_solver. }
    apply wp_when; intros Hz; rewrite Hz in Hpop; wp_steps;
      (exists (size (dom K ∖ ({[p]} ∪ P))); split; [done|]);
      eexists _, _; (split; [reflexivity|]); exists ({[p]} ∪ P);
      (split; [exact Hpop|]); cbn [kahnNodes set_kahn]; by rewrite Hdom.
Qed.

Lemma count_spec : 0 < AlphaPreference params ->
  wp never (calculateInDegree (E:=E) voteBag;; pushVotes (E:=E) params)
    (fun s => sorted_in (fun _ _ => counted_votes s)) ts0.
Proof.
  intros Ha. apply wp_bind. eapply wp_mono; [apply calculateInDegree_spec|].
  intros _ ts (lv & K & -> & done & Hd & Hk). apply pushVotes_spec; [done|].
  by eapply pinv_init.
Qed.
End kahn.
End votes.
End SnowmanVotes.
