(* ===== verification/SnowmanPref.v ===== *)
(** * The preferred branch

    [RecordPoll] of [Topological] applies the counted votes from the last
    accepted block upwards, accepts what is final and keeps the preferred branch.
    This file proves that it preserves the structure and the preferred branch,
    that it cannot panic, and what it accepts and rejects. *)

From S2P Require Import Prelude Monads Bits Bag Snowball Consensus Topological SnowmanWf.

Module SnowmanPref.
Import Bits Snowball Consensus Topological SnowmanWf SnowmanVotes.

Section pref.
Context {T E : Type} `{L : ConsensusLaws T} `{R : Runtime T}.
Context (params : Parameters) (vm : VM E).

Abbreviation Top := (Topological T).
Implicit Types (ts : Top) (x y p q c : ID) (l : list ID) (b : Block).

(** ** The votes form a branch *)

(** Every element is the parent of the next one. *)
Fixpoint chain (par : ID -> option ID) (l : list ID) : Prop :=
  match l with
  | [] => True
  | x :: l => match l with [] => True | y :: _ => par y = Some x /\ chain par l end
  end.

Lemma chain_snoc par l x y : chain par (l ++ [x]) -> par y = Some x ->
  chain par (l ++ [x; y]).
Proof.
  intros Hc Hy. induction l as [|z l IH]; [by cbn|].
  destruct l as [|z' l]; cbn in *; [naive_solver|]. destruct Hc as [? Hc]. split; [done|by apply IH].
Qed.

Section branch.
Context (ts : Top) (W : WF ts) (voteBag : Bag.Bag ID) (Hvb : Bag.wf voteBag).
Context (s : list votes) (Hs : counted_votes params ts voteBag s).
Context (Hp : 0 < AlphaPreference params)
  (Hk : Bag.Len voteBag < 2 * AlphaPreference params).
Abbreviation u := (parentID <$> s).

(** A later vote is for an ancestor. *)
Lemma later_ancestor u1 x u2 y : u = u1 ++ x :: u2 -> y ∈ u2 -> y ∈ ancestors ts x.
Proof.
  intros Hu Hy. destruct Hs as (Hm & Hnd & _ & Hup).
  assert (x ∈ u) as Hxu by (rewrite Hu, elem_of_app; right; by left).
  assert (y ∈ u) as Hyu by (rewrite Hu, elem_of_app; right; by right).
  destruct (heavy_comparable ts W (Bag.counts voteBag) x y) as [->|[Ha|Ha]]; [apply Hvb| | |  |done].
  - apply Hm in Hxu, Hyu. unfold Bag.Len in Hk. rewrite (Bag.wf_size _ Hvb) in Hk. lia.
  - rewrite Hu in Hnd. apply NoDup_app in Hnd as (_ & _ & Hnd). by apply NoDup_cons in Hnd as [? _].
  - exfalso. apply fmap_app_inv in Hu as (s1 & s2 & -> & Hs2 & ->).
    symmetry in Hs2. apply fmap_cons_inv in Hs2 as (v & s2' & -> & Hs2 & ->).
    rewrite Hs2 in Hy. apply list_elem_of_fmap in Hy as (w & -> & Hw).
    by apply (Hup s1 v s2' w).
Qed.

Lemma vote_parent x q : x ∈ u -> parent ts x = Some q -> q ∈ u.
Proof.
  intros Hx Hq. destruct Hs as (Hm & _). apply Hm. apply Hm in Hx.
  etrans; [exact Hx|]. apply sub_weight_mono; [done|apply Hvb|].
  rewrite ancestors_eq, Hq by done. by left.
Qed.

Lemma vote_block x : x ∈ u -> is_Some (blocks ts !! x) /\ exists c, parent ts c = Some x.
Proof.
  intros Hx. destruct Hs as (Hm & _). apply Hm in Hx.
  unfold sub_weight in Hx. set (f := filter _ _) in Hx.
  destruct (decide (f = ∅)) as [Hf|(v & n & Hv)%map_choose].
  { rewrite Hf in Hx. change (msum ∅) with 0 in Hx. lia. }
  apply map_lookup_filter_Some in Hv as [_ Ha].
  pose proof (ancestors_height ts W v x Ha) as [? _]. split; [done|].
  apply ancestors_child in Ha as (c & _ & Hc). eauto.
Qed.

Lemma next_vote u1 x u2 : u = u1 ++ x :: u2 ->
  match u2 with [] => x = lastAcceptedID ts | y :: _ => parent ts x = Some y end.
Proof.
  intros Hu. assert (x ∈ u) as Hx by (rewrite Hu, elem_of_app; right; by left).
  destruct (parent ts x) as [q|] eqn:Hq.
  - pose proof (vote_parent x q Hx Hq) as Hqu. rewrite Hu in Hqu.
    destruct (parent_step ts W x q Hq) as (_ & _ & _ & Hh & _).
    apply elem_of_app in Hqu as [Hqu|Hqu].
    { apply list_elem_of_split in Hqu as (a & a' & ->).
      rewrite <- app_assoc in Hu. cbn in Hu.
      assert (x ∈ ancestors ts q) as Ha.
      { apply (later_ancestor _ _ _ _ Hu), elem_of_app; right; by left. }
      apply ancestors_height in Ha as [_ ?]; [lia|done]. }
    apply elem_of_cons in Hqu as [->|Hqu]; [lia|].
    destruct u2 as [|y u3]; [by apply elem_of_nil in Hqu|].
    apply elem_of_cons in Hqu as [->|Hqu]; [done|]. exfalso.
    assert (y ∈ ancestors ts x) as Hy by (apply (later_ancestor _ _ _ _ Hu); by left).
    assert (q ∈ ancestors ts y) as Hqy.
    { apply (later_ancestor (u1 ++ [x]) y u3); [by rewrite <- app_assoc|done]. }
    apply ancestors_height in Hy as [_ ?]; [|done].
    apply ancestors_height in Hqy as [_ ?]; [lia|done].
  - assert (x = lastAcceptedID ts) as Hr by (apply parent_None; [done|by apply vote_block|done]).
    destruct u2 as [|y u3]; [done|].
    assert (y ∈ ancestors ts x) as Hy by (apply (later_ancestor _ _ _ _ Hu); by left).
    rewrite ancestors_eq, Hq in Hy by done. by apply elem_of_nil in Hy.
Qed.

Lemma rev_chain : u = [] \/ exists l, rev u = lastAcceptedID ts :: l /\
  chain (parent ts) (lastAcceptedID ts :: l).
Proof.
  assert (forall u1 u2, u = u1 ++ u2 -> u2 = [] \/ exists l,
    rev u2 = lastAcceptedID ts :: l /\ chain (parent ts) (lastAcceptedID ts :: l)) as Hg.
  2:{ by apply (Hg []). }
  intros u1 u2. revert u1. induction u2 as [|x u2 IH]; intros u1 Hu; [by left|]. right.
  pose proof (next_vote u1 x u2 Hu) as Hn. destruct u2 as [|y u3].
  - subst x. by exists [].
  - destruct (IH (u1 ++ [x])) as [?|(l & Hl & Hc)]; [by rewrite <- app_assoc|done|].
    exists (l ++ [x]). split; [cbn in *; by rewrite Hl|].
    rewrite app_comm_cons. cbn in Hl. rewrite <- Hl in *. rewrite <- app_assoc. cbn.
    by apply chain_snoc.
Qed.
End branch.

(** ** Following the preferences *)
Definition prefOf ts x : option ID :=
  match blocks ts !! x with Some n => Preference <$> sb n | None => None end.

(** The number of blocks above [x], a bound of the preferences that follow. *)
Definition above ts x : nat :=
  size (filter (fun y => height ts x < height ts y) (dom (blocks ts))).

Section prefs_fuel.
Context (ts : Top).

Fixpoint prefs_fuel (fuel : nat) x : list ID :=
  match fuel with
  | O => []
  | S fuel => match prefOf ts x with Some y => y :: prefs_fuel fuel y | None => [] end
  end.
End prefs_fuel.

(** The preferred blocks above [x], in the order of their heights. *)
Definition prefs ts x : list ID := prefs_fuel ts (above ts x) x.

(** The preferred branch starts at the last accepted block. *)
Abbreviation preferred_branch ts := (prefs ts (lastAcceptedID ts)).

Section prefs.
Context (ts : Top) (W : WF ts).

Lemma prefOf_parent x y : prefOf ts x = Some y -> parent ts y = Some x.
Proof.
  unfold prefOf. destruct (blocks ts !! x) as [n|] eqn:Hn; [|done].
  destruct (sb n) as [t|] eqn:Ht; [|done]. intros [= <-]. by eapply wf_preferred.
Qed.

Lemma above_lt x y : parent ts y = Some x -> (above ts y < above ts x)%nat.
Proof.
  intros Hp. destruct (parent_step ts W y x Hp) as (_ & Hy & _ & Hh & _).
  apply subset_size. split.
  - intros z. rewrite !elem_of_filter. intros [? ?]. split; [lia|done].
  - intros Hsub. specialize (Hsub y). rewrite !elem_of_filter, elem_of_dom in Hsub.
    destruct Hsub; [split; [lia|done]|lia].
Qed.

Lemma prefs_fuel_enough f1 f2 x : (above ts x <= f1)%nat -> (above ts x <= f2)%nat ->
  prefs_fuel ts f1 x = prefs_fuel ts f2 x.
Proof.
  assert (forall x f, above ts x = 0%nat -> prefs_fuel ts f x = []) as H0.
  { intros z [|f] Hz; [done|]. cbn. destruct (prefOf ts z) as [y|] eqn:Hy; [|done].
    pose proof (above_lt z y (prefOf_parent z y Hy)). lia. }
  revert f2 x. induction f1 as [|f1 IH]; intros [|f2] x H1 H2;
    try (rewrite !H0 by lia; done).
  cbn. destruct (prefOf ts x) as [y|] eqn:Hy; [|done].
  pose proof (above_lt x y (prefOf_parent x y Hy)). f_equal. apply IH; lia.
Qed.

Lemma prefs_eq x :
  prefs ts x = match prefOf ts x with Some y => y :: prefs ts y | None => [] end.
Proof.
  unfold prefs. destruct (prefOf ts x) as [y|] eqn:Hy.
  - pose proof (above_lt x y (prefOf_parent x y Hy)).
    destruct (above ts x) as [|f] eqn:Hf; [lia|]. cbn. rewrite Hy. f_equal.
    apply prefs_fuel_enough; lia.
  - destruct (above ts x); cbn; [done|]. by rewrite Hy.
Qed.

(** Induction along the preferences. *)
Lemma prefs_ind (P : ID -> Prop) :
  (forall x, prefOf ts x = None -> P x) ->
  (forall x y, prefOf ts x = Some y -> P y -> P x) -> forall x, P x.
Proof.
  intros H0 Hs x. remember (above ts x) as k eqn:Hk.
  revert x Hk. induction (lt_wf k) as [k _ IH]. intros x ->.
  destruct (prefOf ts x) as [y|] eqn:Hy; [|by apply H0].
  apply (Hs x y Hy). eapply IH; [|done]. by apply above_lt, prefOf_parent.
Qed.

(** A preferred block is the preference of its parent, which is preferred. *)
Lemma prefs_elem x y : y ∈ prefs ts x ->
  exists q, parent ts y = Some q /\ prefOf ts q = Some y /\ (q = x \/ q ∈ prefs ts x) /\
    height ts x < height ts y.
Proof.
  induction x as [x Hx|x z Hz IH] using prefs_ind; rewrite prefs_eq.
  - rewrite Hx. by intros ?%elem_of_nil.
  - rewrite Hz. pose proof (prefOf_parent x z Hz) as Hp.
    destruct (parent_step ts W z x Hp) as (_ & _ & _ & Hh & _).
    intros [->|Hy]%elem_of_cons.
    + exists x. split_and!; [done..|by left|lia].
    + destruct (IH Hy) as (q & Hq & Hqy & Hor & ?). exists q. rewrite elem_of_cons.
      split_and!; [done..|naive_solver|lia].
Qed.

Lemma prefs_block x y : y ∈ prefs ts x -> is_Some (blocks ts !! y).
Proof.
  intros Hy. destruct (prefs_elem x y Hy) as (q & Hq & _).
  by destruct (parent_step ts W y q Hq) as (_ & ? & _).
Qed.

Lemma prefs_trans x y z : y ∈ prefs ts x -> z ∈ prefs ts y -> z ∈ prefs ts x.
Proof.
  induction x as [x Hx|x w Hw IH] using prefs_ind; rewrite (prefs_eq x), ?Hx, ?Hw.
  - by intros ?%elem_of_nil.
  - intros [->|Hy]%elem_of_cons Hz; apply elem_of_cons; auto.
Qed.

Lemma prefs_path x y p : parent ts x = Some p -> y ∈ prefs ts x -> x ∈ path ts y.
Proof.
  intros Hp. induction y as [y Hy|y q Hq IH] using (tree_ind ts W); intros Hin;
    destruct (prefs_elem x y Hin) as (q' & Hq' & _ & Hor & _); [congruence|].
  simplify_eq. rewrite (path_eq ts W y), Hq. apply elem_of_cons; right.
  destruct Hor as [->|Hor]; [|by apply IH]. rewrite (path_eq ts W x), Hp. by left.
Qed.

(** Two blocks of a preferred branch are ordered. *)
Lemma prefs_linear x y z : y ∈ prefs ts x -> z ∈ prefs ts x ->
  z ∈ path ts y \/ z ∈ prefs ts y.
Proof.
  induction x as [x Hx|x w Hw IH] using prefs_ind; rewrite (prefs_eq x), ?Hx, ?Hw.
  - by intros ?%elem_of_nil.
  - pose proof (prefOf_parent x w Hw) as Hp.
    intros [->|Hy]%elem_of_cons [->|Hz]%elem_of_cons; auto.
    + left. rewrite (path_eq ts W), Hp. by left.
    + left. by eapply prefs_path.
Qed.

(** The preferred branch through one of its blocks. *)
Lemma branch_through y : y = lastAcceptedID ts \/ y ∈ preferred_branch ts ->
  forall z, z ∈ preferred_branch ts <-> z ∈ path ts y \/ z ∈ prefs ts y.
Proof.
  intros [->|Hy] z.
  - rewrite (path_eq ts W), (parent_root ts). rewrite elem_of_nil. tauto.
  - split; [by apply prefs_linear|]. intros [Hz|Hz]; [|by eapply prefs_trans].
    revert Hy Hz. induction y as [y Hp|y q Hq IH] using (tree_ind ts W);
      intros Hy; rewrite (path_eq ts W).
    + rewrite Hp. by intros ?%elem_of_nil.
    + rewrite Hq. intros [->|Hz]%elem_of_cons; [done|].
      destruct (prefs_elem _ _ Hy) as (q' & Hq' & _ & Hor & _). simplify_eq.
      destruct Hor as [->|Hor]; [|by apply IH].
      rewrite (path_eq ts W), (parent_root ts) in Hz. by apply elem_of_nil in Hz.
Qed.

(** The tail of the preferences from [x]. *)
Definition tail x : ID := default x (last (prefs ts x)).

Lemma tail_eq x : tail x = match prefOf ts x with Some y => tail y | None => x end.
Proof.
  unfold tail. rewrite (prefs_eq x). destruct (prefOf ts x) as [y|]; [|done].
  destruct (prefs ts y) as [|z l] eqn:Hl; [done|].
  rewrite last_cons_cons. by destruct (last (z :: l)) eqn:Hz; [|apply last_None in Hz].
Qed.

Lemma tail_through x y : y = x \/ y ∈ prefs ts x -> tail x = tail y.
Proof.
  intros [->|Hy]; [done|]. revert Hy.
  induction x as [x Hx|x w Hw IH] using prefs_ind; rewrite (prefs_eq x), ?Hx, ?Hw.
  - by intros ?%elem_of_nil.
  - intros [->|Hy]%elem_of_cons; rewrite (tail_eq x), Hw; auto.
Qed.
End prefs.

(** ** The bookkeeping of the preferred branch *)

(** [hm] maps the heights of the blocks of [X] to these blocks. *)
Definition heights_ok ts (X : gset ID) (hm : gmap Z ID) : Prop :=
  forall h x, hm !! h = Some x <-> x ∈ X /\ height ts x = h.

Record PREF ts : Prop := {
  pr_ids : preferredIDs ts = list_to_set (preferred_branch ts);
  pr_heights : heights_ok ts (preferredIDs ts) (preferredHeights ts);
  pr_tail : preference ts = tail ts (lastAcceptedID ts);
}.

(** [preferredIDs] is closed under parents, up to the last accepted block, among
    the blocks of the tree; it may hold blocks that were rejected. *)
Definition ids_closed ts : Prop := forall y, y ∈ preferredIDs ts ->
  is_Some (blocks ts !! y) ->
  exists q, parent ts y = Some q /\ (q = lastAcceptedID ts \/ q ∈ preferredIDs ts).

(** The state while the votes are applied; [x] is the preferred block so far. *)
Record voting ts x : Prop := {
  vo_WF : WF ts;
  vo_closed : ids_closed ts;
  vo_on : x = lastAcceptedID ts \/ x ∈ preferred_branch ts;
  vo_pref : x ∈ preferredIDs ts -> PREF ts;
  vo_root : x = lastAcceptedID ts ->
    PREF ts \/ forall y, y ∈ preferredIDs ts -> blocks ts !! y = None;
}.

Lemma PREF_closed ts : WF ts -> PREF ts -> ids_closed ts.
Proof.
  intros W [Hids _ _] y Hy _. rewrite Hids, elem_of_list_to_set in *.
  destruct (prefs_elem ts W _ y Hy) as (q & Hq & _ & Hor & _).
  exists q. by rewrite elem_of_list_to_set.
Qed.

Lemma PREF_voting ts x : WF ts -> PREF ts ->
  x = lastAcceptedID ts \/ x ∈ preferred_branch ts -> voting ts x.
Proof. intros W P Hx. split; auto using PREF_closed. Qed.

(** The decisions among the events. *)
Definition accepts (es : list Event) : list Block :=
  omap (fun e => match e with Accept b => Some b | _ => None end) es.
Definition rejections (es : list Event) : list Block :=
  omap (fun e => match e with Reject b => Some b | _ => None end) es.

(** ** Votes and deferred resets keep the shape of the tree *)
Definition same_node (n n' : snowmanBlock T) : Prop :=
  blk n' = blk n /\ children n' = children n /\
  match sb n, sb n' with
  | None, None => True
  | Some _, Some t => inv t (dom (children n))
  | _, _ => False
  end.

Record shape ts ts' : Prop := {
  sh_root : lastAcceptedID ts' = lastAcceptedID ts;
  sh_rootHeight : lastAcceptedHeight ts' = lastAcceptedHeight ts;
  sh_ids : preferredIDs ts' = preferredIDs ts;
  sh_heights : preferredHeights ts' = preferredHeights ts;
  sh_pref : preference ts' = preference ts;
  sh_accepts : accepts (events ts') = accepts (events ts);
  sh_rejections : rejections (events ts') = rejections (events ts);
  sh_blocks x : option_Forall2 same_node (blocks ts !! x) (blocks ts' !! x);
}.

Section shape.
Context (ts ts' : Top) (S : shape ts ts').

Lemma shape_Some x : is_Some (blocks ts' !! x) <-> is_Some (blocks ts !! x).
Proof.
  destruct (sh_blocks _ _ S x); [|done]. by rewrite !is_Some_alt.
Qed.

Lemma shape_back x n' : blocks ts' !! x = Some n' ->
  exists n, blocks ts !! x = Some n /\ same_node n n'.
Proof. intros Hn. destruct (sh_blocks _ _ S x); simplify_eq; eauto. Qed.

Lemma shape_forth x n : blocks ts !! x = Some n ->
  exists n', blocks ts' !! x = Some n' /\ same_node n n'.
Proof. intros Hn. destruct (sh_blocks _ _ S x); simplify_eq; eauto. Qed.

Lemma shape_parent x : parent ts' x = parent ts x.
Proof.
  unfold parent, parent_in. rewrite (sh_root _ _ S).
  by destruct (sh_blocks _ _ S x) as [n n' (-> & _)|].
Qed.

Lemma shape_height x : height ts' x = height ts x.
Proof.
  unfold height. rewrite (sh_rootHeight _ _ S).
  by destruct (sh_blocks _ _ S x) as [n n' (-> & _)|].
Qed.

Lemma shape_WF : WF ts -> WF ts'.
Proof.
  intros W. split; rewrite ?(sh_root _ _ S), ?(sh_rootHeight _ _ S).
  - destruct (wf_root ts W) as (n & Hn & Hb).
    destruct (shape_forth _ n Hn) as (n' & Hn' & Hbk & _). exists n'. by rewrite Hbk.
  - intros x n' Hn' Hx. destruct (shape_back x n' Hn') as (n & Hn & -> & _).
    destruct (wf_blk ts W x n Hn Hx) as (b & ? & ? & ? & ? & ?). exists b.
    by rewrite shape_Some, shape_height.
  - intros x n' c b Hn'. destruct (shape_back x n' Hn') as (n & Hn & _ & -> & _).
    rewrite (wf_children ts W x n c b Hn). split; intros (? & ? & nc & Hnc & ?).
    + destruct (shape_forth c nc Hnc) as (nc' & ? & Hbk & _). rewrite <- Hbk in *. eauto 10.
    + destruct (shape_back c nc Hnc) as (nc' & ? & Hbk & _). rewrite Hbk in *. eauto 10.
  - intros x n' Hn'. destruct (shape_back x n' Hn') as (n & Hn & _ & -> & Hs).
    pose proof (wf_sb ts W x n Hn). by destruct (sb n), (sb n').
Qed.

Lemma shape_sb x n' : blocks ts' !! x = Some n' ->
  (forall n, blocks ts !! x = Some n -> sb n <> None) -> sb n' <> None.
Proof.
  intros Hn' Hs. destruct (shape_back x n' Hn') as (n & Hn & _ & _ & Hsb).
  specialize (Hs n Hn). by destruct (sb n), (sb n').
Qed.

Context (W : WF ts).

(** Preferences that did not change give the same branch. *)
Lemma shape_prefs x : prefOf ts' x = prefOf ts x ->
  (forall z, z ∈ prefs ts x -> prefOf ts' z = prefOf ts z) -> prefs ts' x = prefs ts x.
Proof.
  pose proof (shape_WF W) as W'.
  induction x as [x Hx|x y Hy IH] using (prefs_ind ts W); intros Hp Hz;
    rewrite (prefs_eq ts' W'), (prefs_eq ts W), Hp.
  - by rewrite Hx.
  - rewrite Hy. f_equal. rewrite (prefs_eq ts W), Hy in Hz. apply IH; [apply Hz; by left|].
    intros z ?. apply Hz. by right.
Qed.

Lemma shape_PREF : (forall z, z = lastAcceptedID ts \/ z ∈ preferred_branch ts ->
    prefOf ts' z = prefOf ts z) -> PREF ts -> PREF ts'.
Proof.
  intros Hz [Hi Hh Ht].
  assert (preferred_branch ts' = preferred_branch ts) as Hb
    by (rewrite (sh_root _ _ S); apply shape_prefs; auto).
  split.
  - by rewrite (sh_ids _ _ S), Hb.
  - intros h x. by rewrite (sh_heights _ _ S), (sh_ids _ _ S), shape_height.
  - rewrite (sh_pref _ _ S), Ht. unfold tail. by rewrite Hb, (sh_root _ _ S).
Qed.

Lemma shape_closed : ids_closed ts -> ids_closed ts'.
Proof.
  intros Hc y. rewrite (sh_ids _ _ S), shape_Some, (sh_root _ _ S).
  setoid_rewrite shape_parent. apply Hc.
Qed.

(** Votes off the preferred branch, and deferred resets. *)
Lemma voting_off x :
  (forall z, z = lastAcceptedID ts \/ z ∈ preferred_branch ts -> prefOf ts' z = prefOf ts z) ->
  voting ts x -> voting ts' x.
Proof.
  intros Hz [_ Hc Ho Hp Hr].
  assert (preferred_branch ts' = preferred_branch ts) as Hb
    by (rewrite (sh_root _ _ S); apply shape_prefs; auto).
  split; rewrite ?Hb, ?(sh_root _ _ S), ?(sh_ids _ _ S).
  - by apply shape_WF.
  - by apply shape_closed.
  - done.
  - intros Hx. apply shape_PREF; auto.
  - intros Hx. destruct (Hr Hx) as [?|Hd]; [left; by apply shape_PREF|right].
    intros y Hy. apply eq_None_not_Some. rewrite shape_Some, (Hd y Hy). by intros [].
Qed.

(** Only the preference of [p] changed, and [p] is on the preferred branch: its
    new preference is the new preferred block. *)
Lemma voting_on p pp : voting ts p -> (forall z, z <> p -> prefOf ts' z = prefOf ts z) ->
  prefOf ts' p = Some pp -> voting ts' pp.
Proof.
  intros [_ Hc Ho Hp Hr] Hz Hpp. pose proof (shape_WF W) as W'.
  pose proof (prefOf_parent ts' W' p pp Hpp) as Hpar. rewrite shape_parent in Hpar.
  destruct (parent_step ts W pp p Hpar) as (Hnr & Hb & _ & Hh & _).
  assert (forall y, y = lastAcceptedID ts \/ y ∈ preferred_branch ts ->
    height ts y <= height ts p -> y = lastAcceptedID ts \/ y ∈ preferred_branch ts') as Hup.
  { intros y. induction y as [y Hy|y q Hq IH] using (tree_ind ts W); intros [->|Hin] Hle; auto.
    - destruct (prefs_elem ts W _ y Hin) as (q & Hq & _). congruence.
    - destruct (prefs_elem ts W _ y Hin) as (q' & Hq' & Hqy & Hor & _). simplify_eq.
      destruct (parent_step ts W y q Hq) as (_ & _ & _ & Hyq & _). right.
      rewrite <- Hz in Hqy by (intros ->; lia). rewrite (sh_root _ _ S).
      destruct (IH Hor) as [->|Hin']; [lia| |].
      + rewrite (prefs_eq ts' W'), Hqy. by left.
      + rewrite (sh_root _ _ S) in Hin'. eapply (prefs_trans ts' W'); [exact Hin'|].
        rewrite (prefs_eq ts' W'), Hqy. by left. }
  split.
  - done.
  - by apply shape_closed.
  - right. rewrite (sh_root _ _ S) in *. destruct (Hup p Ho) as [Hpr|Hin]; [lia| |].
    + rewrite (prefs_eq ts' W'), <- Hpr, Hpp. by left.
    + eapply (prefs_trans ts' W'); [exact Hin|]. rewrite (prefs_eq ts' W'), Hpp. by left.
  - rewrite (sh_ids _ _ S). intros Hin.
    assert (PREF ts) as P.
    { destruct (Hc pp Hin Hb) as (q & Hq & Hor). simplify_eq.
      destruct Hor as [Hpr|Hpin]; [|by apply Hp].
      destruct (Hr Hpr) as [?|Hd]; [done|]. rewrite (Hd pp Hin) in Hb. by destruct Hb. }
    apply shape_PREF; [|done]. intros z _. destruct (decide (z = p)) as [->|]; [|by apply Hz].
    destruct P as [Hi _ _]. rewrite Hi, elem_of_list_to_set in Hin.
    destruct (prefs_elem ts W _ pp Hin) as (q & Hq & Hqp & _). congruence.
  - rewrite (sh_root _ _ S). done.
Qed.
End shape.

(** ** Acceptance keeps the preferred branch *)
Section accept.
Context (ts ts' : Top) (pp : ID) (W : WF ts).
Context (Hpar : parent ts pp = Some (lastAcceptedID ts)) (A : accepted_to ts pp ts').
#[local] Abbreviation p := (lastAcceptedID ts).

Lemma acc_block x n : blocks ts' !! x = Some n -> blocks ts !! x = Some n /\ x <> p.
Proof.
  intros Hn. split; [eapply lookup_weaken; [done|apply A]|].
  intros ->. by rewrite (at_gone _ _ _ A) in Hn.
Qed.

Lemma acc_parent x : is_Some (blocks ts' !! x) -> x <> pp -> parent ts' x = parent ts x.
Proof.
  intros [n Hn] Hx. destruct (acc_block x n Hn) as [Hn0 Hxp].
  unfold parent, parent_in. rewrite (at_root _ _ _ A), Hn, Hn0.
  by rewrite !decide_False.
Qed.

(** The parent of a block that is left, other than the accepted one, is left. *)
Lemma acc_parent_left x q : is_Some (blocks ts' !! x) -> x <> pp ->
  parent ts x = Some q -> is_Some (blocks ts' !! q) /\ q <> p.
Proof.
  intros Hx Hne Hq. rewrite <- acc_parent in Hq by done.
  destruct (parent_step ts' (at_WF _ _ _ A) x q Hq) as (_ & _ & [n Hn] & _).
  split; [eauto|]. by destruct (acc_block q n Hn).
Qed.

Lemma acc_height x : is_Some (blocks ts' !! x) -> height ts' x = height ts x.
Proof.
  intros [n Hn]. destruct (acc_block x n Hn) as [Hn0 Hxp]. unfold height. rewrite Hn, Hn0.
  by destruct (wf_blk ts W x n Hn0 Hxp) as (b & -> & _).
Qed.

Lemma acc_prefs x : is_Some (blocks ts' !! x) -> prefs ts' x = prefs ts x.
Proof.
  pose proof (at_WF _ _ _ A) as W'. intros Hx. revert Hx.
  induction x as [x Hx|x y Hy IH] using (prefs_ind ts W); intros Hb;
    rewrite (prefs_eq ts' W'), (prefs_eq ts W);
    (assert (prefOf ts' x = prefOf ts x) as ->
      by (destruct Hb as [n Hn]; destruct (acc_block x n Hn) as [Hn0 _];
          unfold prefOf; by rewrite Hn, Hn0)).
  - by rewrite Hx.
  - rewrite Hy. f_equal. apply IH.
    by apply (at_child _ _ _ A y x); [apply (prefOf_parent ts W)|].
Qed.

Lemma acc_root_left : is_Some (blocks ts' !! pp).
Proof.
  destruct (wf_root ts' (at_WF _ _ _ A)) as (n & Hn & _). rewrite (at_root _ _ _ A) in Hn. eauto.
Qed.

Lemma acc_closed : ids_closed ts -> ids_closed ts'.
Proof.
  intros Hc y. rewrite (at_preferredIDs _ _ _ A), (at_root _ _ _ A).
  intros [Hy Hne]%elem_of_difference Hb. rewrite elem_of_singleton in Hne.
  pose proof Hb as [n Hn]. destruct (acc_block y n Hn) as [Hn0 _].
  destruct (Hc y Hy ltac:(eauto)) as (q & Hq & Hor). exists q. rewrite acc_parent by done.
  destruct (acc_parent_left y q Hb Hne Hq) as [_ Hqp]. split; [done|].
  destruct (decide (q = pp)); [by left|right]. set_solver.
Qed.

Lemma acc_PREF : prefOf ts p = Some pp -> PREF ts -> PREF ts'.
Proof.
  intros Hpp [Hi Hh Ht]. pose proof acc_root_left as Hr.
  destruct (parent_step ts W pp p Hpar) as (_ & Hb & _ & Hhp & _).
  pose proof (acc_prefs pp Hr) as Hprefs.
  rewrite (wf_height_root ts W) in Hhp.
  assert (preferred_branch ts = pp :: prefs ts pp) as Hbr by by rewrite (prefs_eq ts W), Hpp.
  assert (forall y, y ∈ prefs ts pp -> y <> pp /\ is_Some (blocks ts' !! y)) as Hnot.
  { intros y Hy. split.
    - intros ->. destruct (prefs_elem ts W _ _ Hy) as (_ & _ & _ & _ & ?). lia.
    - rewrite <- Hprefs in Hy. by apply (prefs_block ts' (at_WF _ _ _ A) pp). }
  split; rewrite ?(at_root _ _ _ A).
  - rewrite (at_preferredIDs _ _ _ A), Hi, Hprefs, Hbr. apply set_eq. intros y.
    rewrite elem_of_difference, !elem_of_list_to_set, elem_of_cons, elem_of_singleton.
    specialize (Hnot y). naive_solver.
  - intros h x. rewrite (at_preferredHeights _ _ _ A), (at_preferredIDs _ _ _ A).
    rewrite lookup_delete_Some, (Hh h x), elem_of_difference, elem_of_singleton.
    assert (x ∈ preferredIDs ts -> x = pp \/ height ts' x = height ts x /\ lastAcceptedHeight ts + 1 < height ts x) as Hx.
    { rewrite Hi, Hbr, elem_of_list_to_set, elem_of_cons. intros [?|Hx]; [by left|right].
      destruct (Hnot x Hx). destruct (prefs_elem ts W _ x Hx) as (_ & _ & _ & _ & ?).
      rewrite acc_height by done. lia. }
    split.
    + intros (Hne & Hx' & Hhx). destruct (Hx Hx') as [->|[? ?]]; [congruence|].
      split_and!; [done|intros ->|]; lia.
    + intros ([Hx' Hne] & Hhx). destruct (Hx Hx') as [->|[? ?]]; [done|].
      split_and!; [lia|done|lia].
  - rewrite (at_preference _ _ _ A), Ht. rewrite (tail_eq ts W), Hpp.
    unfold tail. by rewrite Hprefs.
Qed.

(** A branch that does not start with the accepted block is gone. *)
Lemma acc_diverged : ids_closed ts -> pp ∉ preferredIDs ts ->
  forall y, y ∈ preferredIDs ts' -> blocks ts' !! y = None.
Proof.
  intros Hc Hpp y. rewrite (at_preferredIDs _ _ _ A). intros [Hy _]%elem_of_difference.
  apply eq_None_not_Some. intros Hb. revert Hy Hb.
  induction y as [y Hq|y q Hq IH] using (tree_ind ts W); intros Hy Hb;
    pose proof Hb as [n Hn]; destruct (acc_block y n Hn) as [Hn0 _];
    destruct (Hc y Hy ltac:(eauto)) as (q' & Hq' & Hor); [congruence|]. simplify_eq.
  destruct (acc_parent_left y q Hb) as [Hqb Hqp]; [by intros ->|done|].
  destruct Hor as [->|Hqi]; [done|]. by apply IH.
Qed.
End accept.

(** [p], the last accepted block, was polled and its preference [pp] accepted. *)
Lemma voting_accept ts ts1 ts2 pp : shape ts ts1 -> WF ts ->
  voting ts (lastAcceptedID ts) ->
  (forall z, z <> lastAcceptedID ts -> prefOf ts1 z = prefOf ts z) ->
  prefOf ts1 (lastAcceptedID ts) = Some pp -> accepted_to ts1 pp ts2 -> voting ts2 pp.
Proof.
  intros S W V Hz Hpp A. pose proof (shape_WF ts ts1 S W) as W1.
  pose proof (voting_on ts ts1 S W _ pp V Hz Hpp) as V1.
  rewrite <- (sh_root _ _ S) in Hpp.
  pose proof (prefOf_parent ts1 W1 _ pp Hpp) as Hpar.
  split.
  - apply A.
  - apply (acc_closed ts1 ts2 pp W1 Hpar A), V1.
  - left. symmetry. apply A.
  - rewrite (at_preferredIDs _ _ _ A). set_solver.
  - intros _. destruct (decide (pp ∈ preferredIDs ts1)) as [Hin|Hin].
    + left. by apply (acc_PREF ts1 ts2 pp W1 Hpar A), V1.
    + right. apply (acc_diverged ts1 ts2 pp W1 A); [apply V1|done].
Qed.

(** ** The history of decisions *)
(** The accepted blocks extend [x] to [y] one parent link at a time. *)
Fixpoint accepted_chain x (acc : list Block) y : Prop :=
  match acc with
  | [] => x = y
  | b :: acc => Parent b = x /\ accepted_chain (BlkID b) acc y
  end.

Lemma accepted_chain_app x acc y acc' z :
  accepted_chain x acc y -> accepted_chain y acc' z -> accepted_chain x (acc ++ acc') z.
Proof.
  revert x. induction acc as [|b acc IH]; cbn; intros x; [by intros ->|].
  intros [? ?] ?. auto.
Qed.

(** The processing blocks. *)
Definition processing ts : list Block := procs (delete (lastAcceptedID ts) (blocks ts)).

(** Why [r] was rejected: its sibling was accepted or its parent was rejected. *)
Definition reason (acc rej : list Block) (r : Block) : Prop :=
  (exists a, a ∈ acc /\ Parent a = Parent r /\ Height a = Height r) \/
  exists q : Block, q ∈ rej /\ BlkID q = Parent r.

Lemma reason_mono acc rej acc' rej' r : acc ⊆ acc' -> rej ⊆ rej' ->
  reason acc rej r -> reason acc' rej' r.
Proof. unfold reason. set_solver. Qed.

(** The accepted blocks are at the heights that follow [h], up to [h']. *)
Definition heights h (acc : list Block) h' : Prop :=
  Height <$> acc = seqZ (h + 1) (Z.of_nat (length acc)) /\ h' = h + Z.of_nat (length acc).

Lemma heights_app h acc h1 acc' h2 :
  heights h acc h1 -> heights h1 acc' h2 -> heights h (acc ++ acc') h2.
Proof.
  intros [Ha ->] [Ha' ->]. unfold heights. rewrite fmap_app, length_app, Nat2Z.inj_add, Ha, Ha'.
  split; [|lia]. rewrite seqZ_app by lia. do 2 f_equal. lia.
Qed.

(** Between [ts] and [ts'] the blocks [acc] were accepted and [rej] rejected. *)
Definition history ts (acc rej : list Block) ts' : Prop :=
  accepted_chain (lastAcceptedID ts) acc (lastAcceptedID ts') /\
  heights (lastAcceptedHeight ts) acc (lastAcceptedHeight ts') /\
  Forall (reason acc rej) rej /\
  accepts (events ts') = accepts (events ts) ++ acc /\
  rejections (events ts') = rejections (events ts) ++ rej /\
  processing ts ≡ₚ acc ++ rej ++ processing ts'.

Definition progress ts ts' : Prop := exists acc rej, history ts acc rej ts'.

Lemma progress_refl ts : progress ts ts.
Proof. exists [], []. split_and!; rewrite ?app_nil_r; try done. split; cbn; [done|lia]. Qed.

Lemma progress_trans ts1 ts2 ts3 : progress ts1 ts2 -> progress ts2 ts3 -> progress ts1 ts3.
Proof.
  intros (acc & rej & Hc & Hh & Hw & Ha & Hr & Hp) (acc' & rej' & Hc' & Hh' & Hw' & Ha' & Hr' & Hp').
  exists (acc ++ acc'), (rej ++ rej'). split_and!.
  - by eapply accepted_chain_app.
  - by eapply heights_app.
  - apply Forall_app. split; (eapply Forall_impl; [eassumption|]); intros r; apply reason_mono; set_solver.
  - by rewrite Ha', Ha, app_assoc.
  - by rewrite Hr', Hr, app_assoc.
  - rewrite Hp, Hp'. solve_Permutation.
Qed.

(** Processing blocks only depend on the blocks the nodes hold. *)
Lemma procs_ext (m m' : gmap ID (snowmanBlock T)) :
  (forall x, option_Forall2 (fun n n' => blk n' = blk n) (m !! x) (m' !! x)) ->
  procs m ≡ₚ procs m'.
Proof.
  revert m'. induction m as [|x n m Hx IH] using map_ind; intros m' Hs.
  - assert (m' = ∅) as ->; [|done]. apply map_eq. intros y. specialize (Hs y).
    rewrite lookup_empty in *. by inversion Hs.
  - pose proof (Hs x) as Hsx. rewrite lookup_insert_eq in Hsx.
    inversion Hsx as [? n' Hb Heq Hn'|]; subst.
    rewrite (procs_delete _ x n) by apply lookup_insert_eq.
    rewrite (procs_delete m' x n') by done. rewrite Hb. f_equiv.
    rewrite delete_insert_id by done. apply IH. intros y. specialize (Hs y).
    destruct (decide (y = x)) as [->|Hy]; [rewrite Hx, lookup_delete_eq; constructor|].
    by rewrite lookup_insert_ne, lookup_delete_ne in * by done.
Qed.

Lemma shape_processing ts ts' : shape ts ts' -> processing ts ≡ₚ processing ts'.
Proof.
  intros S. unfold processing. rewrite (sh_root _ _ S). apply procs_ext. intros x.
  rewrite !lookup_delete. case_decide; [constructor|].
  by destruct (sh_blocks _ _ S x) as [n n' (Hb & _)|]; constructor.
Qed.

Lemma shape_progress ts ts' : shape ts ts' -> progress ts ts'.
Proof.
  intros S. exists [], []. split_and!; rewrite ?app_nil_r.
  - cbn. symmetry. apply S.
  - split; cbn; [done|]. rewrite (sh_rootHeight _ _ S). lia.
  - done.
  - apply S.
  - apply S.
  - cbn. by apply shape_processing.
Qed.

(** The processing blocks, by their identifiers. *)
Lemma elem_processing ts b : WF ts ->
  b ∈ processing ts <-> BlkID b <> lastAcceptedID ts /\ exists n, blocks ts !! BlkID b = Some n /\ blk n = Some b.
Proof.
  intros W. unfold processing, procs. rewrite list_elem_of_omap. split.
  - intros ([x n] & Hx & Hb). apply elem_of_map_to_list, lookup_delete_Some in Hx as [Hne Hn].
    destruct (wf_blk ts W x n Hn ltac:(congruence)) as (b' & Hb' & <- & _). cbn in Hb.
    assert (b' = b) as -> by congruence. split; [congruence|eauto].
  - intros (Hne & n & Hn & Hb). exists (BlkID b, n). split; [|done].
    apply elem_of_map_to_list. by rewrite lookup_delete_ne by congruence.
Qed.

Lemma processing_NoDup ts : WF ts -> NoDup (processing ts).
Proof.
  intros W. apply (NoDup_fmap_1 BlkID). unfold processing, procs.
  assert (forall l : list (ID * snowmanBlock T), Forall (fun kv => BlkID <$> blk kv.2 = Some kv.1) l ->
    BlkID <$> omap (fun kv => blk kv.2) l = l.*1) as Heq.
  { intros l Hl. induction Hl as [|[x n] l Hx _ IH]; [done|]. cbn in *. destruct (blk n) as [b|]; [|done].
    injection Hx as Hx. cbn. by rewrite IH, Hx. }
  rewrite Heq; [apply NoDup_fst_map_to_list|]. apply Forall_forall. intros [x n] [Hne Hn]%elem_of_map_to_list%lookup_delete_Some.
  destruct (wf_blk ts W x n Hn ltac:(congruence)) as (b & Hb & <- & _). cbn. by rewrite Hb.
Qed.

(** What is rejected with the acceptance of [b] is a sibling of [b] or a child of
    another block that is rejected with it. *)
Lemma accepted_reasons ts pp ts' b rej : WF ts -> accepted_to ts pp ts' -> BlkID b = pp ->
  Parent b = lastAcceptedID ts -> Height b = lastAcceptedHeight ts + 1 ->
  processing ts ≡ₚ b :: rej ++ procs (delete pp (blocks ts')) -> Forall (reason [b] rej) rej.
Proof.
  intros W A Hb Hp Hh Hperm. pose proof (processing_NoDup ts W) as Hnd. rewrite Hperm in Hnd.
  apply NoDup_cons in Hnd as [Hbn (_ & Hdisj & _)%NoDup_app].
  assert (procs (delete pp (blocks ts')) = processing ts') as Heq by (unfold processing; by rewrite (at_root _ _ _ A)).
  rewrite Heq in *. pose proof (at_WF _ _ _ A) as W'.
  apply Forall_forall. intros r Hr. assert (r ∈ processing ts) as Hrp by (rewrite Hperm; set_solver).
  apply (elem_processing ts r W) in Hrp as (Hrne & n & Hn & Hnb).
  destruct (wf_blk ts W _ n Hn Hrne) as (r' & Hr' & _ & [m Hm] & Hhr & _). assert (r' = r) as -> by congruence.
  destruct (decide (Parent r = lastAcceptedID ts)) as [Hroot|Hroot].
  { left. exists b. split; [by left|]. split; [congruence|]. rewrite Hh, Hhr, Hroot. by rewrite wf_height_root. }
  destruct (wf_blk ts W _ m Hm Hroot) as (q & Hq & Hqid & _).
  assert (q ∈ processing ts) as Hqp by (apply (elem_processing ts q W); rewrite Hqid; eauto).
  assert (parent ts (BlkID r) = Some (Parent r)) as Hpar by (apply parent_Some; eauto 10).
  assert (~ is_Some (blocks ts' !! Parent r)) as Hgone.
  { intros Hs. pose proof (at_child _ _ _ A _ _ Hpar Hs) as [n' Hn'].
    pose proof (lookup_weaken _ _ _ _ Hn' (at_sub _ _ _ A)). assert (n' = n) as -> by congruence.
    destruct (decide (BlkID r = pp)) as [Heqr|Hner].
    - apply Hbn. assert (b = r) as ->; [|set_solver]. assert (b ∈ processing ts) as Hbp by (rewrite Hperm; set_solver).
      apply (elem_processing ts b W) in Hbp as (_ & n2 & Hn2 & Hb2). congruence.
    - apply (Hdisj r Hr), (elem_processing ts' r W'). rewrite (at_root _ _ _ A). eauto. }
  right. exists q. split; [|done]. rewrite Hperm in Hqp. apply elem_of_cons in Hqp as [->|[Hqr|Hqn]%elem_of_app].
  - destruct Hgone. rewrite <- Hqid, Hb, <- (at_root _ _ _ A). destruct (wf_root ts' W') as (? & ? & _). eauto.
  - done.
  - apply (elem_processing ts' q W') in Hqn as (_ & n2 & Hn2 & _). destruct Hgone. rewrite <- Hqid. eauto.
Qed.

Lemma accepted_progress ts pp ts' : WF ts -> accepted_to ts pp ts' -> progress ts ts'.
Proof.
  intros W A. destruct (at_events _ _ _ A) as (b & rej & Hid & Hp & He & Hprocs).
  assert (Height b = lastAcceptedHeight ts + 1) as Hh.
  { assert (b ∈ processing ts) as Hb by (unfold processing; rewrite Hprocs; set_solver).
    apply (elem_processing ts b W) in Hb as (Hne & n & Hn & Hb). destruct (wf_blk ts W _ n Hn Hne) as (b' & Hb' & _ & _ & Hhb & _).
    assert (b' = b) as -> by congruence. by rewrite Hhb, Hp, wf_height_root. }
  exists [b], rej. unfold history, accepts, rejections. rewrite He.
  split_and!.
  - cbn. by rewrite Hid, (at_root _ _ _ A).
  - split; cbn; [by rewrite Hh|]. apply A.
  - by eapply accepted_reasons.
  - rewrite !omap_app. cbn. f_equal. f_equal. clear; induction rej as [|r rej IH]; [done|exact IH].
  - rewrite !omap_app. cbn. f_equal. clear; induction rej as [|r rej IH]; [done|]. cbn. by f_equal.
  - unfold processing. by rewrite Hprocs, (at_root _ _ _ A).
Qed.

(** ** One vote *)
Lemma same_node_refl ts x n : WF ts -> blocks ts !! x = Some n -> same_node n n.
Proof.
  intros W Hn. split_and!; [done..|]. pose proof (wf_sb ts W x n Hn). by destruct (sb n).
Qed.

Lemma update_shape ts x n n' : WF ts -> blocks ts !! x = Some n -> same_node n n' ->
  shape ts (set_blocks (<[x := n']>) ts).
Proof.
  intros W Hn Hs. split; try done. intros y. cbn. destruct (decide (y = x)) as [->|Hy].
  - rewrite Hn, lookup_insert_eq. by constructor.
  - rewrite lookup_insert_ne by done. destruct (blocks ts !! y) eqn:Hy'; constructor.
    by eapply same_node_refl.
Qed.

Lemma shape_refl ts : WF ts -> shape ts ts.
Proof.
  intros W. split; try done. intros x. destruct (blocks ts !! x) eqn:Hx; constructor.
  by eapply same_node_refl.
Qed.

Lemma shape_trans ts1 ts2 ts3 : shape ts1 ts2 -> shape ts2 ts3 -> shape ts1 ts3.
Proof.
  intros [] []. split; try congruence. intros x.
  specialize (sh_blocks0 x). specialize (sh_blocks1 x).
  destruct sh_blocks0 as [n1 n2 (Hb & Hc & Hs)|]; inversion sh_blocks1 as [? n3 (Hb' & Hc' & Hs')|];
    subst; constructor.
  split_and!; [congruence..|]. rewrite Hc in Hs'. by destruct (sb n1), (sb n2), (sb n3).
Qed.

(** A change of the shape that keeps every preference. *)
Definition quiet ts ts' : Prop := shape ts ts' /\ forall z, prefOf ts' z = prefOf ts z.

Lemma deferReset_spec c ts : WF ts -> wp vm_error (deferReset (E:=E) c)
  (fun _ ts' => quiet ts ts') ts.
Proof.
  intros W. unfold deferReset. wp_steps.
  split; [split; try done|]; intros z; unfold prefOf; cbn;
    (destruct (decide (z = c)) as [->|Hz]; [rewrite lookup_alter_eq|by rewrite lookup_alter_ne by done;
       try apply (shape_refl ts W)]);
    destruct (blocks ts !! c) as [n|] eqn:Hn; try constructor; try done.
  by eapply (same_node_refl ts c n).
Qed.

Lemma falter_spec {A} (f : A -> ID * Block -> M Top (TopErr E) A)
    (cs : list (ID * Block)) a ts : WF ts ->
  (forall a (kc : ID * Block) ts, WF ts ->
     wp vm_error (f a kc) (fun _ ts' => quiet ts ts') ts) ->
  wp vm_error (foldM f cs a) (fun _ ts' => quiet ts ts') ts.
Proof.
  intros W Hf. apply wp_foldM with (I := fun _ _ ts' => quiet ts ts').
  - split; [by apply shape_refl|done].
  - intros _ kc _ a' ts' _ [S Hq]. eapply wp_mono; [apply Hf; by eapply shape_WF|].
    intros _ ts2 [S' Hq']. split; [by eapply shape_trans|]. intros z. by rewrite Hq'.
  - done.
Qed.

(** What one vote on [p] does to the state. *)
Record voted (p : ID) ts (on : bool) (nextID x : ID) ts' (on' : bool) : Prop := {
  vd_voting : voting ts' x;
  vd_progress : progress ts ts';
  vd_blocks y : is_Some (blocks ts' !! y) -> is_Some (blocks ts !! y);
  vd_sb y n' : blocks ts' !! y = Some n' ->
    (forall n, blocks ts !! y = Some n -> sb n <> None) -> sb n' <> None;
  vd_parent y q : is_Some (blocks ts' !! y) -> parent ts y = Some q ->
    parent ts' y = Some q \/ q = p;
  vd_on : on' = true -> x = nextID;
  vd_off : on' = false -> is_Some (blocks ts' !! nextID) -> parent ts nextID = Some p ->
    nextID <> lastAcceptedID ts' /\ nextID ∉ preferred_branch ts';
}.

Section vote.
Context (ts ts1 ts2 ts3 : Top) (p pp : ID) (W : WF ts).
Context (S1 : shape ts ts1) (Hz : forall z, z <> p -> prefOf ts1 z = prefOf ts z).
Context (Hpp : prefOf ts1 p = Some pp).
Context (Hacc : ts2 = ts1 \/ (lastAcceptedID ts = p /\ accepted_to ts1 pp ts2)).
Context (Q3 : quiet ts2 ts3).

Lemma ts1_WF : WF ts1.
Proof. by apply (shape_WF ts ts1). Qed.

Lemma ts2_WF : WF ts2.
Proof. destruct Hacc as [->|[_ A]]; [apply ts1_WF|apply A]. Qed.

Lemma ts2_block y n : blocks ts2 !! y = Some n -> blocks ts1 !! y = Some n.
Proof. destruct Hacc as [->|[_ A]]; [done|]. intros Hn. by apply (acc_block ts1 ts2 pp A y n). Qed.

Lemma pp_parent : parent ts pp = Some p.
Proof. rewrite <- (shape_parent ts ts1 S1). apply (prefOf_parent ts1 ts1_WF), Hpp. Qed.

Lemma ts2_parent y : is_Some (blocks ts2 !! y) -> y <> pp -> parent ts2 y = parent ts y.
Proof.
  intros Hy Hne. rewrite <- (shape_parent ts ts1 S1 y).
  destruct Hacc as [->|[_ A]]; [done|]. by apply (acc_parent ts1 ts2 pp A).
Qed.

Lemma ts3_progress : progress ts ts3.
Proof.
  eapply progress_trans; [by apply shape_progress|].
  eapply (progress_trans ts1 ts2); [|apply shape_progress, Q3].
  destruct Hacc as [->|[_ A]]; [apply progress_refl|eapply accepted_progress; [exact ts1_WF|exact A]].
Qed.

Lemma ts3_blocks y : is_Some (blocks ts3 !! y) -> is_Some (blocks ts !! y).
Proof.
  rewrite (shape_Some ts2 ts3 (proj1 Q3)), <- (shape_Some ts ts1 S1).
  intros [n Hn]. eauto using ts2_block.
Qed.

Lemma ts3_sb y n' : blocks ts3 !! y = Some n' ->
  (forall n, blocks ts !! y = Some n -> sb n <> None) -> sb n' <> None.
Proof.
  intros Hn' Hs. apply (shape_sb ts2 ts3 (proj1 Q3) y n' Hn'). intros n Hn.
  apply (shape_sb ts ts1 S1 y n); [by apply ts2_block|done].
Qed.

Lemma ts3_parent y q : is_Some (blocks ts3 !! y) -> parent ts y = Some q ->
  parent ts3 y = Some q \/ q = p.
Proof.
  rewrite (shape_Some ts2 ts3 (proj1 Q3)), (shape_parent ts2 ts3 (proj1 Q3)).
  intros Hy Hq. destruct (decide (y = pp)) as [->|Hne]; [right; rewrite pp_parent in Hq; congruence|].
  left. by rewrite ts2_parent.
Qed.

(** A child of [p] other than its preference is off the preferred branch. *)
Lemma off_branch y : is_Some (blocks ts3 !! y) -> parent ts y = Some p -> y <> pp ->
  y <> lastAcceptedID ts3 /\ y ∉ preferred_branch ts3.
Proof.
  intros Hy Hp Hne. rewrite (shape_Some ts2 ts3 (proj1 Q3)) in Hy.
  pose proof (ts2_parent y Hy Hne) as Hp2. rewrite Hp in Hp2.
  pose proof (parent_step ts2 ts2_WF y p Hp2) as (Hyr & _ & [n Hn] & _).
  rewrite (sh_root _ _ (proj1 Q3)). split; [done|].
  rewrite (shape_prefs ts2 ts3 (proj1 Q3) ts2_WF) by (intros; apply Q3).
  intros Hin. destruct (prefs_elem ts2 ts2_WF _ y Hin) as (q & Hq & Hqy & _).
  assert (q = p) as -> by congruence.
  assert (prefOf ts2 p = prefOf ts1 p) as Heq by (unfold prefOf; by rewrite Hn, (ts2_block p n Hn)).
  congruence.
Qed.

(** The vote was on the preferred branch. *)
Lemma voted_on nextID : voting ts p ->
  voted p ts true nextID pp ts3 (bool_decide (nextID = pp)).
Proof.
  intros V. split.
  - apply (voting_off ts2 ts3 (proj1 Q3) ts2_WF); [intros; apply Q3|].
    destruct Hacc as [->|[<- A]]; [by apply (voting_on ts ts1 S1 W p)|].
    by apply (voting_accept ts ts1 ts2).
  - apply ts3_progress.
  - apply ts3_blocks.
  - apply ts3_sb.
  - apply ts3_parent.
  - by intros ?%bool_decide_eq_true.
  - intros ?%bool_decide_eq_false Hb Hp. by apply off_branch.
Qed.

(** The vote was off the preferred branch. *)
Lemma voted_off x nextID : voting ts x -> p <> lastAcceptedID ts ->
  p ∉ preferred_branch ts -> voted p ts false nextID x ts3 false.
Proof.
  intros V Hr Hb.
  assert (ts2 = ts1) as Heq by (destruct Hacc as [?|[? _]]; [done|congruence]).
  assert (forall z, z = lastAcceptedID ts \/ z ∈ preferred_branch ts ->
    prefOf ts3 z = prefOf ts z) as Hz3.
  { intros z Hin. rewrite (proj2 Q3), Heq. apply Hz. naive_solver. }
  assert (shape ts ts3) as S3
    by (apply (shape_trans ts ts1 ts3 S1); rewrite <- Heq; apply Q3).
  split.
  - by apply (voting_off ts ts3 S3 W).
  - apply ts3_progress.
  - apply ts3_blocks.
  - apply ts3_sb.
  - apply ts3_parent.
  - done.
  - intros _ _ Hp. destruct (parent_step ts W nextID p Hp) as (Hnr & _).
    rewrite (sh_root _ _ S3). split; [done|].
    rewrite (shape_prefs ts ts3 S3 W) by auto. intros Hin.
    destruct (prefs_elem ts W _ nextID Hin) as (q & Hq & _ & Hor & _).
    assert (q = p) as -> by congruence. naive_solver.
Qed.
End vote.

Lemma vote_step_spec ts (v : votes) nextID x (on succ : bool) n : voting ts x ->
  blocks ts !! parentID v = Some n -> sb n <> None -> Bag.wf (vbag v) ->
  (if on then x = parentID v
   else parentID v <> lastAcceptedID ts /\ parentID v ∉ preferred_branch ts) ->
  wp vm_error (vote_step vm v nextID (x, on, succ)) (fun r ts' =>
    exists x' (on' succ' : bool), r = Some (x', on', succ') /\ voted (parentID v) ts on nextID x' ts' on') ts.
Proof.
  intros V Hn Hsb Hbag Hpos. pose proof (vo_WF _ _ V) as W.
  unfold vote_step. wp_steps. rewrite Hn.
  destruct (sb n) as [t0|] eqn:Ht0; [|done]. wp_steps. apply wp_must. exists t0. split; [done|].
  pose proof (wf_sb ts W _ n Hn) as Hinv. rewrite Ht0 in Hinv.
  set (t1 := if shouldFalter n then _ else _).
  assert (inv t1 (dom (children n))) as Hinv1.
  { unfold t1. destruct (shouldFalter n); [by apply inv_RecordUnsuccessfulPoll|done]. }
  pose proof (inv_RecordPoll t1 _ (vbag v) Hinv1 Hbag) as Hinv2.
  destruct (RecordPoll t1 (vbag v)) as [t ok]. cbn [fst] in Hinv2. wp_steps.
  set (n1 := mkNode (blk n) false (Some t) (children n)).
  assert (same_node n n1) as Hs by (split_and!; [done..|cbn; by rewrite Ht0]).
  pose proof (update_shape ts (parentID v) n n1 W Hn Hs) as S1.
  set (ts1 := set_blocks (<[parentID v := n1]>) ts) in *.
  assert (blocks ts1 !! parentID v = Some n1) as Hn1 by apply lookup_insert_eq.
  assert (prefOf ts1 (parentID v) = Some (Preference t)) as Hpp by (unfold prefOf; by rewrite Hn1).
  assert (forall z, z <> parentID v -> prefOf ts1 z = prefOf ts z) as Hz.
  { intros z Hne. unfold prefOf. cbn. by rewrite lookup_insert_ne. }
  pose proof (shape_WF ts ts1 S1 W) as W1.
  apply (wp_mono _ _ (fun _ ts2 =>
    ts2 = ts1 \/ (lastAcceptedID ts = parentID v /\ accepted_to ts1 (Preference t) ts2))).
  { apply wp_when; [|by left]. intros [_ Hr%bool_decide_eq_true]%andb_true_iff.
    rewrite <- Hr in Hn1 |- *.
    eapply wp_mono; [by apply (accept_spec vm ts1 n1 t W1)|]. by right. }
  intros _ ts2 Hacc. wp_steps.
  eapply wp_mono.
  { apply falter_spec; [by destruct Hacc as [->|[_ A]]; [|apply A]|]. intros _ c ts' W'. destruct (negb _ && _).
    - apply wp_ret. split; [by apply shape_refl|done].
    - by apply deferReset_spec. }
  intros u3 ts3 Q3. wp_steps. eexists _, _, _. split; [done|].
  destruct on; cbn [andb].
  - subst x. by apply (voted_on ts ts1 ts2 ts3).
  - destruct Hpos. by apply (voted_off ts ts1 ts2 ts3 _ (Preference t)).
Qed.

(** ** All votes *)
Record stack_ok ts (stack : list votes) : Prop := {
  so_wf v : v ∈ stack -> Bag.wf (vbag v);
  so_nodup : NoDup (parentID <$> stack);
  so_sb v n : v ∈ stack -> blocks ts !! parentID v = Some n -> sb n <> None;
  so_chain (l1 : list votes) v w (l2 : list votes) : stack = l1 ++ v :: w :: l2 -> is_Some (blocks ts !! parentID w) ->
    parent ts (parentID w) = Some (parentID v);
}.

Lemma stack_ok_voted ts (v : votes) stack on nextID x ts' on' : stack_ok ts (v :: stack) ->
  voted (parentID v) ts on nextID x ts' on' -> stack_ok ts' stack.
Proof.
  intros [Hw Hnd Hsb Hc] D. apply NoDup_cons in Hnd as [Hv Hnd]. split.
  - intros w Hin. apply Hw. by right.
  - done.
  - intros w n' Hin Hn'. apply (vd_sb _ _ _ _ _ _ _ D _ n' Hn'). intros n.
    apply Hsb. by right.
  - intros l1 a w l2 -> Hw'. destruct (vd_parent _ _ _ _ _ _ _ D _ (parentID a) Hw') as [?|Heq].
    + apply (Hc (v :: l1) a w l2); [done|]. by apply (vd_blocks _ _ _ _ _ _ _ D).
    + done.
    + exfalso. apply Hv. rewrite <- Heq. apply list_elem_of_fmap_2, elem_of_app. right. by left.
Qed.

Lemma vote_loop_spec stack : forall ts x on succ, voting ts x -> stack_ok ts stack ->
  match stack with
  | [] => True
  | v :: _ => if on : bool then x = parentID v else is_Some (blocks ts !! parentID v) ->
      parentID v <> lastAcceptedID ts /\ parentID v ∉ preferred_branch ts
  end ->
  wp vm_error (vote_loop vm stack (x, on, succ))
    (fun acc ts' => voting ts' acc.1.1 /\ progress ts ts') ts.
Proof.
  induction stack as [|v stack IH]; intros ts x on succ V Hs Hpos; cbn [vote_loop].
  { wp_steps. split; [done|apply progress_refl]. }
  set (nextID := match stack with [] => _ | _ => _ end). wp_steps.
  destruct (blocks ts !! parentID v) as [n|] eqn:Hn.
  2:{ unfold vote_step. wp_steps. rewrite Hn. wp_steps. split; [done|apply progress_refl]. }
  eapply wp_mono.
  { apply (vote_step_spec ts v nextID x on succ n V Hn).
    - eapply so_sb; [done|by left|done].
    - apply (so_wf _ _ Hs). by left.
    - destruct on; [done|]. apply Hpos. eauto. }
  intros r ts' (x' & on' & succ' & -> & D). cbn beta iota.
  pose proof (stack_ok_voted _ _ _ _ _ _ _ _ Hs D) as Hs'.
  eapply wp_mono; [apply IH; [apply D|done|]|].
  - destruct stack as [|w stack]; [done|]. destruct on'; [by apply D|]. intros Hw.
    apply (vd_off _ _ _ _ _ _ _ D); [done..|].
    apply (so_chain _ _ Hs []  v w stack); [done|]. by apply (vd_blocks _ _ _ _ _ _ _ D).
  - intros acc ts2 [V2 P2]. split; [done|]. eapply progress_trans; [apply D|done].
Qed.

Lemma same_tree_quiet ts ts' : WF ts -> lastAcceptedID ts' = lastAcceptedID ts ->
  lastAcceptedHeight ts' = lastAcceptedHeight ts -> blocks ts' = blocks ts ->
  preferredIDs ts' = preferredIDs ts -> preferredHeights ts' = preferredHeights ts ->
  preference ts' = preference ts -> accepts (events ts') = accepts (events ts) ->
  rejections (events ts') = rejections (events ts) -> quiet ts ts'.
Proof.
  intros W ? ? Hb ? ? ? ? ?. split; [split; try done|].
  - rewrite Hb. apply (shape_refl ts W).
  - intros z. unfold prefOf. by rewrite Hb.
Qed.

Lemma quiet_PREF ts ts' : WF ts -> quiet ts ts' -> PREF ts -> PREF ts'.
Proof. intros W [S Hz]. apply shape_PREF; auto. Qed.

Lemma tail_in ts x : WF ts -> tail ts x = x \/ tail ts x ∈ prefs ts x.
Proof.
  intros W. unfold tail. destruct (last (prefs ts x)) as [y|] eqn:Hy; [right|by left].
  by apply last_Some_elem_of.
Qed.

Lemma log_quiet ts e : WF ts -> accepts [e] = [] -> rejections [e] = [] ->
  quiet ts (log_event e ts).
Proof.
  intros W Ha Hr. apply same_tree_quiet; try done; cbn; unfold accepts, rejections in *;
    rewrite omap_app.
  - by rewrite Ha, app_nil_r.
  - by rewrite Hr, app_nil_r.
Qed.

Lemma counted_stack_ok ts voteBag s : WF ts -> Bag.wf voteBag ->
  0 < AlphaPreference params -> Bag.Len voteBag < 2 * AlphaPreference params ->
  counted_votes params ts voteBag s ->
  stack_ok ts (rev s) /\ match rev s with [] => s = [] | v :: _ => parentID v = lastAcceptedID ts end.
Proof.
  intros W Hvb Ha Hk Hs.
  pose proof (rev_chain ts W voteBag Hvb s Hs Ha Hk) as Hc.
  pose proof Hs as (Hm & Hnd & Hok & _).
  assert (parentID <$> rev s = rev (parentID <$> s)) as Hrev by apply map_rev.
  split.
  - split.
    + intros v Hv%list_elem_of_In%in_rev%list_elem_of_In. by apply Hok.
    + rewrite Hrev. apply NoDup_ListNoDup, NoDup_rev. by apply NoDup_ListNoDup.
    + intros v n Hv%list_elem_of_In%in_rev%list_elem_of_In Hn Hsb.
      destruct (vote_block ts W voteBag s Hs Ha (parentID v)) as [_ [c Hcp]].
      { by apply list_elem_of_fmap_2. }
      apply (wf_child ts _ n c W Hn) in Hcp. pose proof (wf_sb ts W _ n Hn) as Hch.
      rewrite Hsb in Hch. rewrite Hch in Hcp. by destruct Hcp.
    + intros l1 v w l2 Hl _. assert (chain (parent ts) (parentID <$> rev s)) as Hch.
      { rewrite Hrev. destruct Hc as [->|(l & -> & ?)]; done. }
      rewrite Hl, fmap_app in Hch. clear - Hch. induction l1 as [|z l1 IH]; cbn in *; [apply Hch|].
      apply IH. destruct l1; apply Hch.
  - destruct Hc as [Hn|(l & Hl & _)].
    + apply fmap_nil_inv in Hn. by subst.
    + rewrite <- Hrev in Hl. destruct (rev s) as [|v s']; [done|]. by injection Hl.
Qed.

Lemma vote_spec ts voteBag s : WF ts -> PREF ts -> Bag.wf voteBag ->
  0 < AlphaPreference params -> Bag.Len voteBag < 2 * AlphaPreference params ->
  counted_votes params ts voteBag s \/ s = [] ->
  wp vm_error (vote vm s) (fun x ts' => voting ts' x /\ progress ts ts') ts.
Proof.
  intros W P Hvb Ha Hk Hs. unfold vote. wp_steps. destruct s as [|v0 s0].
  - wp_steps. destruct (wf_root ts W) as (n & Hn & _).
    apply wp_must. exists n. split; [done|]. wp_steps.
    eapply wp_mono; [by apply deferReset_spec|]. intros u1 ts1 Q1. wp_steps.
    pose proof (shape_WF _ _ (proj1 Q1) W) as W1.
    assert (forall ts2, quiet ts1 ts2 -> voting ts2 (preference ts) /\ progress ts ts2) as Hdone.
    { intros ts2 Q2. pose proof (shape_WF _ _ (proj1 Q2) W1) as W2.
      pose proof (quiet_PREF _ _ W1 Q2 (quiet_PREF _ _ W Q1 P)) as P2. split.
      - apply PREF_voting; [done..|].
        replace (preference ts) with (preference ts2).
        2:{ by rewrite (sh_pref _ _ (proj1 Q2)), (sh_pref _ _ (proj1 Q1)). }
        rewrite (pr_tail _ P2). by apply tail_in.
      - apply shape_progress, (shape_trans ts ts1); [apply Q1|apply Q2]. }
    apply wp_when; intros _; wp_steps; apply Hdone; [by apply log_quiet|].
    split; [by apply shape_refl|done].
  - destruct Hs as [Hs|]; [|done].
    destruct (counted_stack_ok ts voteBag (v0 :: s0) W Hvb Ha Hk Hs) as [Hso Hroot].
    wp_steps. eapply wp_mono.
    + apply vote_loop_spec; [apply PREF_voting; auto|exact Hso|].
      destruct (rev (v0 :: s0)); [done|]. by symmetry.
    + intros [[x on] succ] ts1 [V1 P1]. wp_steps.
      assert (quiet ts1 (log_event (if succ then SuccessfulPoll else FailedPoll) ts1)) as Q
        by (apply log_quiet; [apply V1|by destruct succ|by destruct succ]).
      split.
      * apply (voting_off ts1 _ (proj1 Q)); [apply V1|intros; apply Q|done].
      * eapply progress_trans; [exact P1|]. apply shape_progress, Q.
Qed.

(** ** Rebuilding the preferred branch *)
Lemma WF_ext ts ts' : blocks ts' = blocks ts -> lastAcceptedID ts' = lastAcceptedID ts ->
  lastAcceptedHeight ts' = lastAcceptedHeight ts -> WF ts -> WF ts'.
Proof.
  intros Hb Hr Hh [H1 H2 H3 H4]. split; rewrite ?Hb, ?Hr, ?Hh.
  - done.
  - intros x n Hn Hx. destruct (H2 x n Hn Hx) as (b & ? & ? & ? & Hhb & ?). exists b.
    split_and!; try done. rewrite Hhb. unfold height. by rewrite Hb, Hh.
  - done.
  - done.
Qed.

Section rebuild.
Context (ts : Top) (W : WF ts) (x : ID).
Context (Hx : x = lastAcceptedID ts \/ x ∈ preferred_branch ts).

Definition rebuilding (P : gset ID -> gmap Z ID -> Prop) y ts' : Prop :=
  exists X hm, ts' = set_preferred y X hm ts /\ heights_ok ts X hm /\ P X hm.

Lemma on_branch_block : is_Some (blocks ts !! x).
Proof.
  destruct Hx as [->|Hin]; [|by eapply prefs_block].
  destruct (wf_root ts W) as (n & Hn & _). eauto.
Qed.

Lemma heights_ok_insert X hm y : heights_ok ts X hm ->
  (forall z, z ∈ X -> height ts z <> height ts y) ->
  heights_ok ts ({[y]} ∪ X) (<[height ts y := y]> hm).
Proof.
  intros Hok Hne h z. rewrite lookup_insert_Some, (Hok h z), elem_of_union, elem_of_singleton.
  split; [naive_solver|]. intros [[->|Hz] Hh]; [by left|right].
  specialize (Hne z Hz). split; [congruence|done].
Qed.

(** From [x] down to the last accepted block. *)
Lemma ascend_spec : wp vm_error (loop (OutOfFuel (E:=E)) (tree_fuel ts) ascend_step x)
  (fun _ => rebuilding (fun X _ => X = list_to_set (path ts x)) x) (set_preferred x ∅ ∅ ts).
Proof.
  apply wp_loop with (k := Z.to_nat (height ts x - lastAcceptedHeight ts))
    (I := fun k y ts' => k = Z.to_nat (height ts y - lastAcceptedHeight ts) /\
      is_Some (blocks ts !! y) /\
      rebuilding (fun X _ => list_to_set (path ts x) = X ∪ list_to_set (path ts y) /\
        forall z, z ∈ X -> height ts y < height ts z) x ts').
  - split_and!; [done|apply on_branch_block|]. exists ∅, ∅.
    split; [done|]. split; [intros h z; rewrite lookup_empty; set_solver|]. set_solver.
  - pose proof (path_bound ts W x on_branch_block). unfold tree_fuel. lia.
  - intros k y ts' (-> & [n Hn] & X & hm & -> & Hok & Hp & Hlt). unfold ascend_step. wp_steps.
    cbn [blocks set_preferred]. apply wp_must. exists n. split; [done|].
    change (Decided (set_preferred x X hm ts) n) with (Decided ts n).
    rewrite (wf_Decided ts y n W Hn). case_bool_decide as Hr.
    { wp_steps. exists X, hm. split_and!; [done..|]. subst y.
      rewrite Hp, (path_eq ts W (lastAcceptedID ts)), parent_root. set_solver. }
    destruct (wf_blk ts W y n Hn Hr) as (b & Hb & Hid & Hpb & _). wp_steps.
    apply wp_must. exists b. split; [done|]. wp_steps.
    assert (parent ts y = Some (Parent b)) as Hpar by (apply parent_Some; eauto 10).
    destruct (parent_step ts W y _ Hpar) as (_ & _ & _ & Hh & Hl).
    assert (Height b = height ts y) as -> by (unfold height; by rewrite Hn, Hb).
    rewrite Hid. exists (Z.to_nat (height ts (Parent b) - lastAcceptedHeight ts)).
    split; [lia|]. split_and!; [done..|].
    exists ({[y]} ∪ X), (<[height ts y := y]> hm). split_and!; [done| | |].
    + apply heights_ok_insert; [done|]. intros z Hz. specialize (Hlt z Hz). lia.
    + rewrite Hp, (path_eq ts W y), Hpar. set_solver.
    + intros z [->%elem_of_singleton|Hz]%elem_of_union; [lia|]. specialize (Hlt z Hz). lia.
Qed.

(** From [x] along the preferences. *)
Lemma descend_spec X hm : heights_ok ts X hm -> X = list_to_set (path ts x) ->
  wp vm_error (loop (OutOfFuel (E:=E)) (tree_fuel ts) descend_step x)
    (fun _ ts' => exists y, rebuilding (fun X _ => prefOf ts y = None /\
       (y = x \/ y ∈ prefs ts x) /\
       forall z, z ∈ X <-> z ∈ path ts x \/ z ∈ prefs ts x) y ts')
    (set_preferred x X hm ts).
Proof.
  intros Hok HX.
  assert (forall z, z ∈ path ts x -> height ts z <= height ts x) as Hpath
    by (intros z Hz; by apply (path_elem ts W)).
  assert (forall z, z ∈ prefs ts x -> height ts x < height ts z) as Hprefs
    by (intros z Hz; by destruct (prefs_elem ts W _ z Hz) as (_ & _ & _ & _ & ?)).
  apply wp_loop with (k := above ts x)
    (I := fun k y ts' => k = above ts y /\ (y = x \/ y ∈ prefs ts x) /\
      rebuilding (fun X _ => forall z, z ∈ X <->
        z ∈ path ts x \/ (z ∈ prefs ts x /\ height ts z <= height ts y)) y ts').
  - split_and!; [done|by left|]. exists X, hm. split_and!; [done..|]. intros z.
    rewrite HX, elem_of_list_to_set. split; [auto|].
    intros [?|[Hz ?]]; [done|]. specialize (Hprefs z Hz). lia.
  - unfold tree_fuel, above. rewrite <- size_dom.
    pose proof (subseteq_size (filter (fun y => height ts x < height ts y) (dom (blocks ts)))
      (dom (blocks ts)) ltac:(set_solver)). lia.
  - clear X hm Hok HX. intros k y ts' (-> & Hy & X & hm & -> & Hok & Hmem).
    unfold descend_step. wp_steps. cbn [blocks set_preferred].
    assert (is_Some (blocks ts !! y)) as [n Hn].
    { destruct Hy as [->|Hy]; [apply on_branch_block|by eapply prefs_block]. }
    apply wp_must. exists n. split; [done|].
    destruct (sb n) as [t|] eqn:Ht.
    + set (w := Preference t).
      assert (prefOf ts y = Some w) as Hw by (unfold prefOf; by rewrite Hn, Ht).
      pose proof (prefOf_parent ts W y w Hw) as Hpar.
      pose proof Hpar as (_ & nw & b & Hnw & Hb & Hpb)%parent_Some.
      destruct (parent_step ts W w y Hpar) as (_ & _ & _ & Hh & _).
      wp_steps. apply wp_must. exists nw. split; [done|]. wp_steps.
      apply wp_must. exists b. split; [done|]. wp_steps.
      assert (w ∈ prefs ts x) as Hwx.
      { destruct Hy as [->|Hy]; [|eapply prefs_trans; [done..|exact Hy|]];
          rewrite (prefs_eq ts W), Hw; by left. }
      assert (Height b = height ts w) as -> by (unfold height; by rewrite Hnw, Hb).
      exists (above ts w). split; [by apply above_lt|]. split_and!; [done|by right|].
      exists ({[w]} ∪ X), (<[height ts w := w]> hm). split_and!; [done| |].
      * apply heights_ok_insert; [done|]. intros z [Hz|[_ Hz]]%Hmem; [|lia].
        specialize (Hpath z Hz). destruct Hy as [->|Hy]; [lia|]. specialize (Hprefs y Hy). lia.
      * intros z. rewrite elem_of_union, elem_of_singleton, Hmem. split.
        -- intros [->|[?|[? ?]]]; [right; split; [done|lia]|by left|right; split; [done|lia]].
        -- intros [?|[Hz Hle]]; [auto|]. destruct (decide (z = w)) as [|Hzw]; [auto|].
           right; right. split; [done|].
           destruct (prefs_linear ts W x w z Hwx Hz) as [Hzp|Hzp].
           ++ rewrite (path_eq ts W w), Hpar in Hzp. apply elem_of_cons in Hzp as [?|Hzp]; [done|].
              by apply (path_elem ts W) in Hzp as (_ & _ & ?).
           ++ destruct (prefs_elem ts W _ z Hzp) as (_ & _ & _ & _ & ?). lia.
    + wp_steps. exists y, X, hm. split_and!; [done|done| |done|].
      { unfold prefOf. by rewrite Hn, Ht. }
      intros z. rewrite Hmem. split; [tauto|]. intros [?|Hz]; [auto|]. right. split; [done|].
      destruct Hy as [->|Hy].
      * rewrite (prefs_eq ts W) in Hz. unfold prefOf in Hz. rewrite Hn, Ht in Hz.
        by apply elem_of_nil in Hz.
      * destruct (prefs_linear ts W x y z Hy Hz) as [Hzp|Hzp].
        -- by apply (path_elem ts W) in Hzp as (_ & _ & ?).
        -- rewrite (prefs_eq ts W) in Hzp. unfold prefOf in Hzp. rewrite Hn, Ht in Hzp.
           by apply elem_of_nil in Hzp.
Qed.
End rebuild.

Lemma updatePreference_spec ts x : voting ts x ->
  wp vm_error (updatePreference (E:=E) x) (fun _ ts' => WF ts' /\ PREF ts' /\ progress ts ts') ts.
Proof.
  intros V. pose proof (vo_WF _ _ V) as W. unfold updatePreference. wp_steps.
  case_bool_decide as Hin.
  { wp_steps. split_and!; [done|by apply V|apply progress_refl]. }
  wp_steps. eapply wp_mono; [by apply (ascend_spec ts W x), V|].
  intros u1 ts1 (X & hm & -> & Hok & HX).
  eapply wp_mono; [by apply (descend_spec ts W x (vo_on _ _ V) X hm)|].
  intros u2 ts2 (y & X' & hm' & -> & Hok' & Hend & Hy & Hmem). split_and!.
  - by apply (WF_ext ts).
  - split.
    + change (X' = list_to_set (preferred_branch ts)). apply set_eq. intros z.
      rewrite elem_of_list_to_set, Hmem. symmetry. apply (branch_through ts W), V.
    + exact Hok'.
    + change (y = tail ts (lastAcceptedID ts)).
      rewrite (tail_through ts W _ x (vo_on _ _ V)), (tail_through ts W x y Hy).
      by rewrite (tail_eq ts W), Hend.
  - exact (progress_refl ts).
Qed.

(** ** RecordPoll *)
Lemma TopRecordPoll_spec ts voteBag : WF ts -> PREF ts -> Bag.wf voteBag ->
  0 < AlphaPreference params -> Bag.Len voteBag < 2 * AlphaPreference params ->
  wp vm_error (TopRecordPoll params vm voteBag)
    (fun _ ts' => WF ts' /\ PREF ts' /\ progress ts ts') ts.
Proof.
  intros W P Hvb Ha Hk. unfold TopRecordPoll. wp_steps.
  set (ts0 := next_poll ts).
  assert (quiet ts ts0) as Q0 by by apply same_tree_quiet.
  pose proof (shape_WF _ _ (proj1 Q0) W) as W0.
  apply (wp_mono _ _ (fun s ts1 => quiet ts ts1 /\ (counted_votes params ts1 voteBag s \/ s = []))).
  { case_match; [|wp_steps; auto]. apply wp_never.
    eapply wp_mono; [by apply (count_spec params ts0 W0 voteBag)|].
    intros s ts1 (lv & K & -> & Hs). split; [by apply same_tree_quiet|by left]. }
  intros s ts1 [Q1 Hs]. pose proof (shape_WF _ _ (proj1 Q1) W) as W1.
  wp_steps. eapply wp_mono.
  { apply (vote_spec ts1 voteBag s W1 (quiet_PREF _ _ W Q1 P) Hvb Ha Hk Hs). }
  intros x ts2 [V2 P2]. eapply wp_mono; [by apply updatePreference_spec|].
  intros u3 ts3 (W3 & PR3 & P3). split_and!; [done..|].
  eapply progress_trans; [by apply shape_progress, Q1|]. by eapply progress_trans.
Qed.
End pref.
End SnowmanPref.
