(* ===== verification/Snowman.v ===== *)
(** * Snowman consensus: what it guarantees

    The theorems about the reachable states of [Topological]: the structure of
    the block tree and of the preferred branch, the answers of the queries, the
    transitive count of the votes, the absence of panics, and the fate of every
    issued block.  They hold for every [Consensus] instance that obeys its laws,
    every run time and every VM; the witnesses run the snowball tree. *)

From S2P Require Import Prelude Monads Bits Bag Snowball SnowballFacts Tree TreeFacts Consensus Topological SnowmanWf SnowmanPref.

Module Snowman.
Import Bits Snowball Consensus Topological SnowmanWf SnowmanVotes SnowmanPref.

Section snowman.
Context {T E : Type} `{L : ConsensusLaws T} `{R : Runtime T}.
Context (params : Parameters) (vm : VM E).

Abbreviation Top := (Topological T).
Abbreviation preferred_branch ts := (prefs ts (lastAcceptedID ts)).
Implicit Types (ts : Top) (x y p c : ID) (b : Block).

(** ** Adding a block *)
Lemma prefs_ext ts ts' x : WF ts -> WF ts' -> prefOf ts' x = prefOf ts x ->
  (forall z, z ∈ prefs ts x -> prefOf ts' z = prefOf ts z) -> prefs ts' x = prefs ts x.
Proof.
  intros W W'. induction x as [x Hx|x y Hy IH] using (prefs_ind ts W); intros Hp Hz;
    rewrite (prefs_eq ts' W'), (prefs_eq ts W), Hp.
  - by rewrite Hx.
  - rewrite Hy. f_equal. rewrite (prefs_eq ts W), Hy in Hz. apply IH; [apply Hz; by left|].
    intros z ?. apply Hz. by right.
Qed.

(** A preferred branch grows at its tail [p]. *)
Lemma prefs_grow ts ts' p c x : WF ts -> WF ts' -> tail ts x = p ->
  prefOf ts' p = Some c -> prefOf ts' c = None ->
  (forall z, z = x \/ z ∈ prefs ts x -> z <> p -> prefOf ts' z = prefOf ts z) ->
  prefs ts' x = prefs ts x ++ [c].
Proof.
  intros W W' Ht Hp Hb. revert Ht.
  induction x as [x Hx|x y Hy IH] using (prefs_ind ts W); intros Ht Hz;
    rewrite (prefs_eq ts' W'), (prefs_eq ts W x); rewrite (tail_eq ts W) in Ht.
  - rewrite Hx in *. subst. rewrite Hp. by rewrite (prefs_eq ts' W'), Hb.
  - rewrite Hy in *.
    destruct (decide (x = p)) as [->|Hne].
    { exfalso. destruct (tail_in ts y W) as [Hty|Hty].
      - assert (height ts y = height ts p) by congruence.
        pose proof (prefOf_parent ts W _ _ Hy) as Hpar.
        destruct (parent_step ts W _ _ Hpar) as (_ & _ & _ & ? & _). lia.
      - rewrite Ht in Hty. destruct (prefs_elem ts W _ _ Hty) as (_ & _ & _ & _ & ?).
        pose proof (prefOf_parent ts W _ _ Hy) as Hpar.
        destruct (parent_step ts W _ _ Hpar) as (_ & _ & _ & ? & _). lia. }
    rewrite (Hz x) by auto. rewrite Hy. cbn. f_equal. apply IH; [done|].
    intros z Hin Hzp. apply Hz; [|done]. right. rewrite (prefs_eq ts W x), Hy, elem_of_cons.
    naive_solver.
Qed.

Section add.
Context (ts ts' : Top) (b : Block) (pn : snowmanBlock T).
Context (W : WF ts) (P : PREF ts) (Hi : issuable ts b).
Context (Hnew : blocks ts !! BlkID b = None) (Hpn : blocks ts !! Parent b = Some pn).
Context (Hb : blocks ts' = added ts b pn).
Context (Hr : lastAcceptedID ts' = lastAcceptedID ts)
  (Hh : lastAcceptedHeight ts' = lastAcceptedHeight ts).

Lemma added_wf : WF ts'.
Proof. by apply (added_WF ts b pn W Hi Hnew Hpn). Qed.

Lemma added_prefOf x : x <> BlkID b -> x <> Parent b \/ sb pn <> None ->
  prefOf ts' x = prefOf ts x.
Proof.
  intros Hx Hor. unfold prefOf. rewrite Hb, (added_lookup ts b pn), decide_False by done.
  case_decide as Hp; [|done]. subst x. rewrite Hpn. cbn.
  destruct (sb pn) as [t|] eqn:Ht; [|naive_solver]. cbn. f_equal.
  pose proof (wf_sb ts W _ _ Hpn) as Hs. rewrite Ht in Hs.
  eapply Preference_Add; [done|]. by apply Hi.
Qed.

Lemma added_branch_old x : x = lastAcceptedID ts \/ x ∈ preferred_branch ts ->
  x <> BlkID b /\ is_Some (blocks ts !! x).
Proof.
  intros Hx. assert (is_Some (blocks ts !! x)) as Hs.
  { destruct Hx as [->|Hx]; [|by eapply prefs_block].
    destruct (wf_root ts W) as (n & Hn & _). eauto. }
  split; [|done]. intros ->. rewrite Hnew in Hs. by destruct Hs.
Qed.

(** The block extends the preferred branch. *)
Lemma added_extends : preference ts = Parent b ->
  prefs ts' (lastAcceptedID ts') = preferred_branch ts ++ [BlkID b].
Proof.
  intros Hp. pose proof (pr_tail _ P) as Ht. rewrite Hp in Ht. rewrite Hr.
  pose proof (added_parent_ne ts b pn Hnew Hpn) as Hne.
  assert (prefOf ts (Parent b) = None) as Hnone.
  { destruct (prefOf ts (Parent b)) as [y|] eqn:Hy; [|done]. exfalso.
    assert (tail ts (Parent b) = Parent b) as Htt.
    { rewrite Ht at 2. symmetry. apply (tail_through ts W). rewrite Ht. by apply tail_in. }
    rewrite (tail_eq ts W), Hy in Htt.
    pose proof (prefOf_parent ts W _ _ Hy) as Hpar.
    destruct (parent_step ts W _ _ Hpar) as (_ & _ & _ & ? & _).
    destruct (tail_in ts y W) as [Hty|Hty]; rewrite Htt in Hty; [subst; lia|].
    destruct (prefs_elem ts W _ _ Hty) as (_ & _ & _ & _ & ?). lia. }
  apply (prefs_grow ts ts' (Parent b)); [done|apply added_wf|done| | |].
  - unfold prefOf. rewrite Hb, (added_lookup ts b pn), decide_False, decide_True by done.
    unfold prefOf in Hnone. rewrite Hpn in Hnone. cbn. destruct (sb pn); [done|].
    cbn. by rewrite Preference_New.
  - unfold prefOf. by rewrite Hb, (added_lookup ts b pn), decide_True.
  - intros z Hz Hzp. apply added_prefOf; [by apply added_branch_old|by left].
Qed.

(** The block is off the preferred branch. *)
Lemma added_off : preference ts <> Parent b ->
  prefs ts' (lastAcceptedID ts') = preferred_branch ts.
Proof.
  intros Hp. rewrite Hr.
  assert (forall z, z = lastAcceptedID ts \/ z ∈ preferred_branch ts ->
    prefOf ts' z = prefOf ts z) as Hz.
  { intros z Hz. apply added_prefOf; [by apply added_branch_old|].
    destruct (decide (z = Parent b)) as [->|]; [right|by left]. intros Hsb.
    apply Hp. rewrite (pr_tail _ P), (tail_through ts W _ (Parent b)) by naive_solver.
    rewrite (tail_eq ts W). unfold prefOf. by rewrite Hpn, Hsb. }
  apply prefs_ext; auto using added_wf.
Qed.

Lemma added_heights x : x = lastAcceptedID ts \/ x ∈ preferred_branch ts ->
  height ts' x = height ts x.
Proof.
  intros Hx. apply (added_height ts b pn Hpn); try done. by apply added_branch_old.
Qed.

Lemma new_height : height ts' (BlkID b) = Height b.
Proof. unfold height. by rewrite Hb, (added_lookup ts b pn), decide_True. Qed.

(** Everything on the preferred branch is below a block that extends it. *)
Lemma added_above x : preference ts = Parent b -> x ∈ preferred_branch ts ->
  height ts x < Height b.
Proof.
  intros Hp Hx. destruct Hi as (_ & _ & Hhb). rewrite Hhb by eauto.
  rewrite <- Hp, (pr_tail _ P). set (r := lastAcceptedID ts) in *.
  enough (height ts x <= height ts (tail ts r)) by lia.
  rewrite (tail_through ts W r x) by auto.
  destruct (tail_in ts x W) as [->|Ht]; [done|].
  destruct (prefs_elem ts W _ _ Ht) as (_ & _ & _ & _ & ?). lia.
Qed.

Lemma added_PREF :
  (if decide (preference ts = Parent b) then
     preference ts' = BlkID b /\ preferredIDs ts' = {[BlkID b]} ∪ preferredIDs ts /\
     preferredHeights ts' = <[Height b := BlkID b]> (preferredHeights ts)
   else preference ts' = preference ts /\ preferredIDs ts' = preferredIDs ts /\
     preferredHeights ts' = preferredHeights ts) -> PREF ts'.
Proof.
  destruct P as [Hids Hhm Ht]. assert (forall x, x ∈ preferredIDs ts <-> x ∈ preferred_branch ts)
    as Hmem by (intros x; by rewrite Hids, elem_of_list_to_set).
  case_decide as Hp; intros (Hp' & Hi' & Hh').
  - pose proof (added_extends Hp) as Hbr. split.
    + rewrite Hi', Hbr, Hids. set_solver.
    + intros h x. rewrite Hh', Hi', lookup_insert_Some, (Hhm h x), elem_of_union,
        elem_of_singleton, Hmem.
      pose proof (added_above x Hp) as Habove. pose proof new_height.
      split; [intros [[<- <-]|(Hne & Hx & Hhx)]; [by auto|split; [by right|]]|].
      * rewrite added_heights by auto. done.
      * intros [[->|Hx] Hhx]; [left; split; congruence|right].
        rewrite added_heights in Hhx by auto. specialize (Habove Hx). split_and!; [lia|done|done].
    + unfold tail. by rewrite Hbr, last_snoc.
  - pose proof (added_off Hp) as Hbr. split.
    + by rewrite Hi', Hbr.
    + intros h x. rewrite Hh', Hi', (Hhm h x), Hmem. split; intros [Hx Hhx]; (split; [done|]).
      * by rewrite added_heights by auto.
      * by rewrite added_heights in Hhx by auto.
    + rewrite Hp', Ht. unfold tail. by rewrite Hbr, Hr.
Qed.

Lemma added_processing : processing ts' ≡ₚ b :: processing ts.
Proof.
  destruct Hi as (_ & Hrt & _). unfold processing. rewrite Hr, Hb.
  rewrite (procs_delete _ (BlkID b) (mkNode (Some b) false None ∅)).
  2:{ rewrite lookup_delete_ne, (added_lookup ts b pn), decide_True by congruence. done. }
  cbn. f_equiv. apply procs_ext. intros x. rewrite !lookup_delete.
  rewrite (added_lookup ts b pn). repeat case_decide; subst; try constructor; try done.
  - rewrite Hnew. constructor.
  - rewrite Hpn. by constructor.
  - destruct (blocks ts !! x); by constructor.
Qed.
End add.

(** What [Add] does: an error leaves the state as it was, otherwise the block is
    processing. *)
Lemma Add_run ts b ts' r : WF ts -> PREF ts -> issuable ts b ->
  Topological.Add (E:=E) b ts = (ts', r) ->
  match r with
  | Ok _ => WF ts' /\ PREF ts' /\ processing ts' ≡ₚ b :: processing ts /\
      Processing ts (BlkID b) = false /\ is_Some (blocks ts !! Parent b) /\
      lastAcceptedID ts' = lastAcceptedID ts /\
      lastAcceptedHeight ts' = lastAcceptedHeight ts /\ events ts' = events ts
  | Err e => ts' = ts /\
      ((e = errDuplicateAdd /\ Processing ts (BlkID b) = true) \/
       (e = errUnknownParentBlock /\ Processing ts (BlkID b) = false /\
        blocks ts !! Parent b = None))
  end.
Proof.
  intros W P Hi. unfold Topological.Add, mbind, M_bind, get.
  destruct (Processing ts (BlkID b)) eqn:Hproc.
  { intros [= <- <-]. auto. }
  pose proof (not_processing ts b W Hi Hproc) as Hnew.
  destruct (blocks ts !! Parent b) as [pn|] eqn:Hpn; [|intros [= <- <-]; auto 10].
  unfold modify, when. case_bool_decide as Hp; intros [= <- <-].
  all: split; [by apply (added_WF ts b pn W Hi Hnew Hpn)|].
  all: split; [apply (added_PREF ts _ b pn W P Hi Hnew Hpn); try done; by case_decide|].
  all: split; [by apply (added_processing ts _ b pn Hi Hnew Hpn)|by eauto].
Qed.

(** ** Reachable states

    [reachable id0 h0 issued ts]: the engine was initialised with the last
    accepted block [id0] at height [h0], the blocks [issued] were added without
    an error, and [ts] is its state.  A block is added with its height one above
    its parent's, as the VM verified it, and a poll carries at most [K] votes. *)
Inductive reachable (id0 : ID) (h0 : Z) : list Block -> Top -> Prop :=
  | reach_init ts : Initialize (E:=E) params id0 h0 = Ok ts -> reachable id0 h0 [] ts
  | reach_Add issued ts b ts' : reachable id0 h0 issued ts -> issuable ts b ->
      Topological.Add (E:=E) b ts = (ts', Ok tt) -> reachable id0 h0 (issued ++ [b]) ts'
  | reach_Add_error issued ts b ts' e : reachable id0 h0 issued ts -> issuable ts b ->
      Topological.Add (E:=E) b ts = (ts', Err e) -> reachable id0 h0 issued ts'
  | reach_RecordPoll issued ts voteBag ts' : reachable id0 h0 issued ts ->
      Bag.wf voteBag -> Bag.Len voteBag <= K params ->
      TopRecordPoll params vm voteBag ts = (ts', Ok tt) -> reachable id0 h0 issued ts'.

Lemma reachable_params id0 h0 issued ts : reachable id0 h0 issued ts -> valid params.
Proof.
  induction 1 as [ts Hi| | |]; try done. unfold Initialize in Hi. apply Verify_valid.
  by destruct (Verify params) as [[]|].
Qed.

Lemma poll_bounds (voteBag : Bag.Bag ID) : valid params -> Bag.Len voteBag <= K params ->
  0 < AlphaPreference params /\ Bag.Len voteBag < 2 * AlphaPreference params.
Proof. intros []. lia. Qed.

(** Everything the rule induction needs at once. *)
Record reached (id0 : ID) (h0 : Z) (issued : list Block) ts : Prop := {
  re_WF : WF ts;
  re_PREF : PREF ts;
  re_chain : accepted_chain id0 (accepts (events ts)) (lastAcceptedID ts);
  re_heights : heights h0 (accepts (events ts)) (lastAcceptedHeight ts);
  re_reasons : Forall (reason (accepts (events ts)) (rejections (events ts))) (rejections (events ts));
  re_issued : issued ≡ₚ processing ts ++ accepts (events ts) ++ rejections (events ts);
}.

Lemma init_reached id0 h0 ts : Initialize (E:=E) params id0 h0 = Ok ts -> reached id0 h0 [] ts.
Proof.
  intros Hi. pose proof (Initialize_WF params id0 h0 ts Hi) as W.
  unfold Initialize in Hi. destruct (Verify params); [|done]. injection Hi as <-.
  split; [done| |done|split; cbn; [done|lia]|done|].
  - assert (forall x, prefOf (mkTop 0 id0 h0 {[id0 := mkNode (T:=T) None false None ∅]}
      ∅ ∅ id0 ∅ ∅ []) x = None) as Hn.
    { intros x. unfold prefOf. cbn. destruct (decide (x = id0)) as [->|].
      - by rewrite lookup_singleton_eq.
      - by rewrite lookup_singleton_ne. }
    split; [cbn| |]; rewrite ?(prefs_eq _ W), ?(tail_eq _ W), ?Hn; try done.
    intros h x. cbn. rewrite lookup_empty. set_solver.
  - cbn. unfold processing. cbn. by rewrite delete_singleton_eq.
Qed.

Lemma reachable_reached id0 h0 issued ts : reachable id0 h0 issued ts -> reached id0 h0 issued ts.
Proof.
  induction 1 as [ts Hi|issued ts b ts' _ [W P Hc Hh Hw Hp] Hi Ha
    |issued ts b ts' e _ IH Hi Ha|issued ts vb ts' Hr [W P Hc Hh Hw Hp] Hvb Hk Hpoll].
  - by eapply init_reached.
  - pose proof (Add_run ts b ts' _ W P Hi Ha) as (W' & P' & Hproc & _ & _ & Hl & Hlh & He).
    split; rewrite ?Hl, ?Hlh, ?He; try done. rewrite Hproc, Hp. solve_Permutation.
  - destruct IH. pose proof (Add_run ts b ts' _ re_WF0 re_PREF0 Hi Ha) as [-> _]. by split.
  - pose proof (reachable_params _ _ _ _ Hr) as Hv. destruct (poll_bounds vb Hv Hk).
    pose proof (wp_run _ _ _ _ _ _ (TopRecordPoll_spec params vm ts vb W P Hvb H0 H1) Hpoll)
      as (W' & P' & acc & rej & Hc' & Hh' & Hw' & Ha' & Hr' & Hp').
    split; [done|done| | | |].
    + rewrite Ha'. by eapply accepted_chain_app.
    + rewrite Ha'. by eapply heights_app.
    + rewrite Ha', Hr'. apply Forall_app. split; (eapply Forall_impl; [eassumption|]); intros x; apply reason_mono; set_solver.
    + rewrite Ha', Hr', Hp, Hp'. solve_Permutation.
Qed.

(** ** The properties *)

(** C4: in every reachable state the blocks form a tree rooted at the last accepted
    block: every other block has its parent in the tree one height below, the
    children of a node are the blocks that name it as parent, and a node has a
    snow instance over exactly its children if it has any. *)
Theorem snowman_tree_invariant (id0 : ID) (h0 : Z) (issued : list Block) (ts : Top) :
  reachable id0 h0 issued ts -> WF ts.
Proof. intros Hr. apply (reachable_reached _ _ _ _ Hr). Qed.

(** C3: the cached preference is the branch obtained by following the preference
    of every snow instance from the last accepted block: the queries answer for
    that branch, at every height. *)
Theorem preference_queries (id0 : ID) (h0 : Z) (issued : list Block) (ts : Top) :
  reachable id0 h0 issued ts ->
  let branch := prefs ts (lastAcceptedID ts) in
  preference ts = default (lastAcceptedID ts) (last branch) /\
  (forall x, IsPreferred ts x = true <-> x = lastAcceptedID ts \/ x ∈ branch) /\
  (forall h x, PreferenceAtHeight ts h = Some x <->
    (x = lastAcceptedID ts \/ x ∈ branch) /\ height ts x = h).
Proof.
  intros Hr. destruct (reachable_reached _ _ _ _ Hr) as [W [Hi Hh Ht] _ _ _ _].
  cbn zeta. split_and!; [exact Ht| |].
  - intros x. unfold IsPreferred. rewrite orb_true_iff, !bool_decide_eq_true, Hi.
    by rewrite elem_of_list_to_set.
  - intros h x. unfold PreferenceAtHeight.
    assert (forall y, y ∈ preferredIDs ts -> lastAcceptedHeight ts < height ts y) as Hgt.
    { intros y. rewrite Hi, elem_of_list_to_set. intros Hy.
      destruct (prefs_elem ts W _ y Hy) as (_ & _ & _ & _ & Hlt).
      by rewrite wf_height_root in Hlt. }
    destruct (Z.eqb_spec h (lastAcceptedHeight ts)) as [->|Hne].
    + split; [intros [= <-]; split; [by left|by apply wf_height_root]|].
      intros [[->|Hx] Hhx]; [done|]. specialize (Hgt x). rewrite Hi, elem_of_list_to_set in Hgt.
      specialize (Hgt Hx). lia.
    + rewrite (Hh h x), Hi, elem_of_list_to_set. split; [intros [? ?]; auto|].
      intros [[->|Hx] Hhx]; [|done]. by rewrite wf_height_root in Hhx.
Qed.

(** C5: a poll never panics and all its loops end: from a reachable state it
    returns, and if it returns an error then the VM raised it. *)
Theorem RecordPoll_no_panic (id0 : ID) (h0 : Z) (issued : list Block) (ts : Top)
    (voteBag : Bag.Bag ID) :
  reachable id0 h0 issued ts -> Bag.wf voteBag -> Bag.Len voteBag <= K params ->
  (TopRecordPoll params vm voteBag ts).2 = Ok tt \/
  exists e, (TopRecordPoll params vm voteBag ts).2 = Err (ErrVM e).
Proof.
  intros Hr Hvb Hk. pose proof (reachable_params _ _ _ _ Hr) as Hv.
  destruct (poll_bounds voteBag Hv Hk) as [Ha Hl].
  destruct (reachable_reached _ _ _ _ Hr) as [W P _ _ _ _].
  pose proof (TopRecordPoll_spec params vm ts voteBag W P Hvb Ha Hl) as Hw. unfold wp in Hw.
  destruct (TopRecordPoll params vm voteBag ts) as [ts' [[]|e]]; [by left|right].
  destruct Hw as [err ->]. eauto.
Qed.

(** Accepted blocks of the same height are the same. *)
Lemma heights_inj h acc h' a b :
  heights h acc h' -> a ∈ acc -> b ∈ acc -> Height a = Height b -> a = b.
Proof.
  intros [Hs _] [i Ha]%list_elem_of_lookup [j Hb]%list_elem_of_lookup Heq.
  assert (forall k (d : Block), acc !! k = Some d -> Height d = h + 1 + Z.of_nat k) as Hk.
  { intros k d Hd. apply (f_equal (.!! k)) in Hs. rewrite list_lookup_fmap, Hd in Hs. symmetry in Hs.
    by apply lookup_seqZ in Hs as [-> _]. }
  rewrite (Hk i a Ha), (Hk j b Hb) in Heq. assert (i = j) as -> by lia. congruence.
Qed.

(** What is left in the tree is above the last accepted block and descends from it. *)
Lemma processing_above ts b : WF ts -> b ∈ processing ts ->
  lastAcceptedHeight ts < Height b /\
  (Parent b = lastAcceptedID ts /\ Height b = lastAcceptedHeight ts + 1 \/
   exists q : Block, q ∈ processing ts /\ BlkID q = Parent b /\ Height b = Height q + 1).
Proof.
  intros W (Hne & n & Hn & Hb)%(elem_processing ts b W).
  destruct (wf_blk ts W _ n Hn Hne) as (b' & Hb' & _ & [m Hm] & Hh & Hlt). assert (b' = b) as -> by congruence.
  split; [done|]. rewrite Hh. destruct (decide (Parent b = lastAcceptedID ts)) as [Hr|Hr].
  - left. split; [done|]. by rewrite Hr, wf_height_root.
  - right. destruct (wf_blk ts W _ m Hm Hr) as (q & Hq & Hid & _). exists q. split; [|split; [done|]].
    + apply (elem_processing ts q W). rewrite Hid. eauto.
    + f_equal. unfold height. by rewrite Hm, Hq.
Qed.

(** C1: every issued block is processing, was accepted once or was rejected once, and
    no other block is accepted or rejected; the accepted blocks are one chain of
    parent links from the initial block to the last accepted one, one per height; a
    block that competes with an accepted one, as it has the same height, is rejected;
    a block is rejected only when its sibling was accepted or its parent rejected; and
    every block that is still processing is above the last accepted block and
    descends from it, so nothing that descends from a competitor is left. *)
Theorem blocks_decided_once (id0 : ID) (h0 : Z) (issued : list Block) (ts : Top) :
  reachable id0 h0 issued ts ->
  issued ≡ₚ processing ts ++ accepts (events ts) ++ rejections (events ts) /\
  accepted_chain id0 (accepts (events ts)) (lastAcceptedID ts) /\
  heights h0 (accepts (events ts)) (lastAcceptedHeight ts) /\
  (forall a b, a ∈ accepts (events ts) -> b ∈ issued -> Height b = Height a ->
     b = a \/ b ∈ rejections (events ts)) /\
  (forall r, r ∈ rejections (events ts) -> reason (accepts (events ts)) (rejections (events ts)) r) /\
  (forall b, b ∈ processing ts -> lastAcceptedHeight ts < Height b /\
     (Parent b = lastAcceptedID ts /\ Height b = lastAcceptedHeight ts + 1 \/
      exists q : Block, q ∈ processing ts /\ BlkID q = Parent b /\ Height b = Height q + 1)).
Proof.
  intros Hr. destruct (reachable_reached _ _ _ _ Hr) as [W _ Hc Hh Hw Hi]. split_and!; [done..| | |].
  - intros a b Ha Hb Heq. rewrite Hi in Hb. apply elem_of_app in Hb as [Hb|[Hb|Hb]%elem_of_app]; [|left|by right].
    + pose proof (processing_above ts b W Hb) as [Hlt _]. pose proof Hh as [Hs Hl]. exfalso.
      assert (Height a ∈ Height <$> accepts (events ts)) as Hin by by apply list_elem_of_fmap_2.
      rewrite Hs, elem_of_seqZ in Hin. lia.
    + by eapply heights_inj.
  - by apply Forall_forall.
  - intros b. by apply processing_above.
Qed.

(** C2: the topological sort counts votes transitively: it ends without an error,
    the stack holds one entry for each block below which at least
    [AlphaPreference] votes were cast, its votes for a child are the votes for the
    child and its descendants, and no entry is followed by one for a descendant. *)
Theorem votes_counted_transitively (id0 : ID) (h0 : Z) (issued : list Block) (ts : Top)
    (voteBag : Bag.Bag ID) :
  reachable id0 h0 issued ts -> Bag.wf voteBag ->
  exists ts' stack,
    (calculateInDegree (E:=E) voteBag;; pushVotes (E:=E) params) ts = (ts', Ok stack) /\
    counted_votes params ts voteBag stack.
Proof.
  intros Hr Hvb. pose proof (reachable_params _ _ _ _ Hr) as Hv.
  destruct (reachable_reached _ _ _ _ Hr) as [W _ _ _ _ _].
  pose proof (count_spec (E:=E) params ts W voteBag Hvb (proj1 (valid_alpha _ Hv))) as Hw.
  unfold wp in Hw.
  destruct ((calculateInDegree (E:=E) voteBag;; pushVotes (E:=E) params) ts) as [ts' [stack|e]]; [|done].
  destruct Hw as (lv & K & -> & Hs). eauto.
Qed.
End snowman.

(** ** A concrete run

    Two conflicting blocks and a child of the first one, over snowflake trees
    with [K = 3], [AlphaPreference = 2] and [Beta = 2]; polls that accept the first
    block and its child and reject the conflict. *)
Module Example.
Abbreviation params := TreeFacts.Example.params.
Abbreviation tree := (Tree.Tree unarySnowflake binarySnowflake).

#[export] Instance tree_consensus : Consensus tree :=
  Consensus.tree_consensus (NN:=nnarySnowflake) params.

#[export] Instance tree_laws : ConsensusLaws tree :=
  Consensus.tree_laws (NN:=nnarySnowflake) (L:=TreeFacts.Example.laws) params
    TreeFacts.Example.valid_params.

#[export, refine] Instance run_time : Runtime tree := {|
  range_children _ m := map_to_list m;
  range_votes _ b := Bag.List b;
  pop_leaf _ X := default [] (head (elements X));
|}.
Proof.
  - done.
  - done.
  - intros _ X HX. apply elem_of_elements.
    destruct (elements X) as [|x l] eqn:He; [|by left].
    exfalso. apply HX, leibniz_equiv. by apply elements_empty_iff.
Defined.

(** A VM without errors. *)
Definition vm : VM Empty_set :=
  mkVM (fun _ _ => None) (fun _ _ => None) (fun _ _ => None).

Definition g : ID := id_of [9].
Definition x : Block := mkBlock (id_of [8]) g 6.
Definition y : Block := mkBlock (id_of [1]) g 6.
Definition z : Block := mkBlock (id_of [4]) (BlkID x) 7.

Definition st0 : Topological tree :=
  mkTop 0 g 5 {[g := mkNode None false None ∅]} ∅ ∅ g ∅ ∅ [].
Definition st1 := (Topological.Add (E:=Empty_set) x st0).1.
Definition st2 := (Topological.Add (E:=Empty_set) y st1).1.
Definition st3 := (Topological.Add (E:=Empty_set) z st2).1.
Definition poll1 : Bag.Bag ID := Bag.Of [BlkID z; BlkID z; BlkID x].
Definition poll2 : Bag.Bag ID := Bag.Of [BlkID z; BlkID z; BlkID z].
Definition st4 := (TopRecordPoll params vm poll1 st3).1.
Definition st5 := (TopRecordPoll params vm poll2 st4).1.

Lemma run_ok {A} (m : M (Topological tree) (TopErr Empty_set) A) s a :
  (m s).2 = Ok a -> m s = ((m s).1, Ok a).
Proof. destruct (m s) as [s' r]. cbn. by intros ->. Qed.

Lemma bag_wf l : Bag.wf (Bag.Of (T:=ID) l).
Proof. apply Bag.Add_wf, Bag.empty_wf. Qed.

Lemma reach2 : reachable params vm g 5 [x; y] st2.
Proof.
  apply (reach_Add params vm g 5 [x] st1 y); [apply (reach_Add params vm g 5 [] st0 x)|..].
  - apply reach_init. reflexivity.
  - split_and!; [by apply wf_idb_wf|done|by intros _].
  - by apply run_ok.
  - split_and!; [by apply wf_idb_wf|done|by intros _].
  - apply run_ok. by vm_compute.
Qed.

Lemma reach3 : reachable params vm g 5 [x; y; z] st3.
Proof.
  apply (reach_Add params vm g 5 [x; y] st2 z _ reach2).
  - split_and!; [by apply wf_idb_wf|done|intros _; by vm_compute].
  - apply run_ok. by vm_compute.
Qed.

Lemma reach5 : reachable params vm g 5 [x; y; z] st5.
Proof.
  apply (reach_RecordPoll params vm g 5 _ st4 poll2);
    [apply (reach_RecordPoll params vm g 5 _ st3 poll1 _ reach3)|..];
    try apply bag_wf; try (vm_compute; congruence); apply run_ok; by vm_compute.
Qed.
End Example.

Import Example.

Lemma snowman_tree_invariant_witness : WF st5 /\ size (blocks st3) = 4%nat.
Proof.
  split; [apply (snowman_tree_invariant params vm g 5 _ st5 reach5)|by vm_compute].
Defined.

(** Before the polls the branch through [x] and [z] is preferred. *)
Lemma preference_queries_witness :
  preference st3 = default g (last (prefs st3 g)) /\ preference st3 = BlkID z.
Proof.
  split; [apply (preference_queries params vm g 5 _ st3 reach3)|by vm_compute].
Defined.

Lemma RecordPoll_no_panic_witness :
  (TopRecordPoll params vm poll1 st3).2 = Ok tt \/
  exists e, (TopRecordPoll params vm poll1 st3).2 = Err (ErrVM e).
Proof.
  apply (RecordPoll_no_panic params vm g 5 _ st3 poll1 reach3);
    [apply bag_wf|vm_compute; congruence].
Defined.

(** [x] and [z] are accepted and [y] is rejected. *)
Lemma blocks_decided_once_witness :
  [x; y; z] ≡ₚ processing st5 ++ accepts (events st5) ++ rejections (events st5) /\
  accepted_chain g (accepts (events st5)) (lastAcceptedID st5) /\
  (y = x \/ y ∈ rejections (events st5)) /\
  accepts (events st5) = [x; z] /\ rejections (events st5) = [y].
Proof.
  assert (accepts (events st5) = [x; z] /\ rejections (events st5) = [y]) as Hev by (vm_compute; split; reflexivity).
  destruct (blocks_decided_once params vm g 5 _ st5 reach5) as (Hi & Hc & _ & Hcomp & _).
  split; [exact Hi|]. split; [exact Hc|]. split; [|exact Hev].
  apply (Hcomp x y); [rewrite (proj1 Hev); apply list_elem_of_here|apply list_elem_of_further, list_elem_of_here|reflexivity].
Defined.

(** Two votes for [z] and one for [x] are three votes below [g], two below [x]. *)
Lemma votes_counted_transitively_witness :
  (exists ts' stack,
    (calculateInDegree (E:=Empty_set) poll1;; pushVotes (E:=Empty_set) params) st3 =
      (ts', Ok stack) /\ counted_votes params st3 poll1 stack) /\
  sub_weight st3 (Bag.counts poll1) g = 3 /\ sub_weight st3 (Bag.counts poll1) (BlkID x) = 2.
Proof.
  split; [|by vm_compute].
  apply (votes_counted_transitively params vm g 5 _ st3 poll1 reach3), bag_wf.
Defined.
End Snowman.
