(* ===== verification/Gas.v ===== *)
(** * Dynamic gas pricing

    Models [avalanchego/vms/components/gas]: the fee dimensions, the state of the
    gas mechanism and the price of gas, an integer approximation of an
    exponential ([CalculatePrice]).

    The 256-bit integers of the package [uint256] are not part of the
    repository; they are the class [Uint256] of operations with their documented
    results.  Its values are the integers they denote. *)

From S2P Require Import Prelude SafeMath.

(** Operations of [github.com/holiman/uint256] on values below [2^256]. *)
Class Uint256 := {
  U256_Add : Z -> Z -> Z;
  U256_Mul : Z -> Z -> Z;
  U256_Div : Z -> Z -> Z;
  U256_Add_spec a b : is_uint 256 a -> is_uint 256 b -> U256_Add a b = wrap 256 (a + b);
  U256_Mul_spec a b : is_uint 256 a -> is_uint 256 b -> U256_Mul a b = wrap 256 (a * b);
  U256_Div_spec a b : is_uint 256 a -> is_uint 256 b ->
    U256_Div a b = if b =? 0 then 0 else a / b;
}.

(** The integers modulo [2^256] are an implementation. *)
#[export, refine] Instance modular256 : Uint256 := {|
  U256_Add a b := wrap 256 (a + b);
  U256_Mul a b := wrap 256 (a * b);
  U256_Div a b := if b =? 0 then 0 else a / b;
|}.
Proof. all: done. Defined.

Module Gas.
Import SafeMath.

(** ** gas.go *)
Definition Cost (g price : Z) : result MathError Z := Mul 64 g price.

Definition AddOverTime (g gasRate duration : Z) : Z :=
  match Mul 64 gasRate duration with
  | Err _ => MaxUint64
  | Ok newGas =>
      match Add 64 g newGas with
      | Err _ => MaxUint64
      | Ok totalGas => totalGas
      end
  end.

Definition SubOverTime (g gasRate duration : Z) : Z :=
  match Mul 64 gasRate duration with
  | Err _ => 0
  | Ok gasToRemove =>
      match Sub 64 g gasToRemove with
      | Err _ => 0
      | Ok totalGas => totalGas
      end
  end.

Section price.
Context `{Uint256}.

(** The loop of [CalculatePrice]; [None] is the exhaustion of the fuel. *)
Fixpoint price_loop (fuel : nat) (numerator denominator maxOutput i output
    numeratorAccum : Z) : option Z :=
  match fuel with
  | O => None
  | S fuel =>
      if 0 <? numeratorAccum then
        let output := U256_Add output numeratorAccum in
        if maxOutput <=? output then Some MaxUint64
        else
          let numeratorAccum := U256_Mul numeratorAccum numerator in
          let numeratorAccum := U256_Div numeratorAccum denominator in
          let numeratorAccum := U256_Div numeratorAccum i in
          price_loop fuel numerator denominator maxOutput (U256_Add i 1) output
            numeratorAccum
      else Some (wrap64 (U256_Div output denominator))
  end.

Definition price_fuel : nat := 800.

Definition price_run (minPrice excess excessConversionConstant : Z) : option Z :=
  let numerator := excess in
  let denominator := excessConversionConstant in
  let numeratorAccum := U256_Mul minPrice denominator in
  let maxOutput := U256_Mul denominator MaxUint64 in
  price_loop price_fuel numerator denominator maxOutput 1 0 numeratorAccum.

(** [price_run] always returns, see [price_run_spec]. *)
Definition CalculatePrice (minPrice excess excessConversionConstant : Z) : Z :=
  default 0 (price_run minPrice excess excessConversionConstant).
End price.

(** ** dimensions.go

    A [Dimensions] is an array of [NumDimensions] values. *)
Definition NumDimensions : nat := 4.

Abbreviation Dimensions := (list Z).

(** [for i := range o { d[i], err = f(d[i], o[i]) }]: the array as it is when the
    loop ends, and the error. A failed operation stores 0. *)
Fixpoint zip_checked (f : Z -> Z -> result MathError Z) (d o : Dimensions)
  : Dimensions * option MathError :=
  match d, o with
  | x :: d, y :: o =>
      match f x y with
      | Ok v => let '(d, err) := zip_checked f d o in (v :: d, err)
      | Err e => (0 :: d, Some e)
      end
  | _, _ => (d, None)
  end.

Fixpoint Dimensions_fold (f : Z -> Z -> result MathError Z) (d : Dimensions)
    (os : list Dimensions) : Dimensions * option MathError :=
  match os with
  | [] => (d, None)
  | o :: os =>
      match zip_checked f d o with
      | (d, None) => Dimensions_fold f d os
      | (d, Some e) => (d, Some e)
      end
  end.

Definition Dimensions_Add (d : Dimensions) (os : list Dimensions) :=
  Dimensions_fold (Add 64) d os.

Definition Dimensions_Sub (d : Dimensions) (os : list Dimensions) :=
  Dimensions_fold (Sub 64) d os.

Fixpoint ToGas_loop (d weights : Dimensions) (res : Z) : result MathError Z :=
  match d, weights with
  | x :: d, w :: weights =>
      v ← Mul 64 x w;
      res ← Add 64 res v;
      ToGas_loop d weights res
  | _, _ => Ok res
  end.

Definition ToGas (d weights : Dimensions) : result MathError Z := ToGas_loop d weights 0.

(** ** config.go *)
Record Config := mkConfig {
  Weights : Dimensions;
  cfgMaxCapacity : Z;
  MaxPerSecond : Z;
  TargetPerSecond : Z;
  MinPrice : Z;
  ExcessConversionConstant : Z;
}.

(** ** state.go *)
Inductive StateError := ErrInsufficientCapacity.

Record State := mkState { Capacity : Z; Excess : Z }.

Definition AdvanceTime (s : State) (maxCapacity capacityRate targetRate duration : Z)
  : State :=
  mkState (Z.min (AddOverTime (Capacity s) capacityRate duration) maxCapacity)
    (SubOverTime (Excess s) targetRate duration).

Definition ConsumeGas (s : State) (gas : Z) : result StateError State :=
  match Sub 64 (Capacity s) gas with
  | Err _ => Err ErrInsufficientCapacity
  | Ok newCapacity =>
      match Add 64 (Excess s) gas with
      | Err _ => Ok (mkState newCapacity MaxUint64)
      | Ok newExcess => Ok (mkState newCapacity newExcess)
      end
  end.

(** ** Saturating arithmetic *)
Lemma AddOverTime_spec g r d : is_u64 g -> is_u64 r -> is_u64 d ->
  AddOverTime g r d = Z.min (g + r * d) MaxUint64.
Proof.
  intros Hg Hr Hd. unfold AddOverTime. rewrite Mul_spec by (done || lia).
  destruct (Z.ltb_spec (r * d) (2 ^ 64)).
  - rewrite Add_spec by (done || unfold is_uint in *; nia).
    destruct (Z.ltb_spec (g + r * d) (2 ^ 64)); unfold MaxUint64; lia.
  - unfold MaxUint64, is_uint in *. lia.
Qed.

Lemma SubOverTime_spec g r d : is_u64 g -> is_u64 r -> is_u64 d ->
  SubOverTime g r d = Z.max (g - r * d) 0.
Proof.
  intros Hg Hr Hd. unfold SubOverTime. rewrite Mul_spec by (done || lia).
  destruct (Z.ltb_spec (r * d) (2 ^ 64)).
  - rewrite Sub_spec by (done || unfold is_uint in *; nia).
    destruct (Z.leb_spec (r * d) g); lia.
  - unfold is_uint in *. lia.
Qed.

Definition wf (s : State) : Prop := is_u64 (Capacity s) /\ is_u64 (Excess s).

Lemma AdvanceTime_spec s mc cr tr d : wf s -> is_u64 mc -> is_u64 cr -> is_u64 tr ->
  is_u64 d -> AdvanceTime s mc cr tr d =
    mkState (Z.min (Capacity s + cr * d) mc) (Z.max (Excess s - tr * d) 0).
Proof.
  intros [? ?] ? ? ? ?. unfold AdvanceTime.
  rewrite AddOverTime_spec, SubOverTime_spec by done. f_equal. ulia.
Qed.

Lemma AdvanceTime_wf s mc cr tr d : wf s -> is_u64 mc -> is_u64 cr -> is_u64 tr ->
  is_u64 d -> wf (AdvanceTime s mc cr tr d).
Proof.
  intros Hs ? ? ? ?. rewrite AdvanceTime_spec by done. destruct Hs. split; cbn;
    unfold is_uint in *; nia.
Qed.

Lemma ConsumeGas_spec s g : wf s -> is_u64 g ->
  ConsumeGas s g = if g <=? Capacity s
    then Ok (mkState (Capacity s - g) (Z.min (Excess s + g) MaxUint64))
    else Err ErrInsufficientCapacity.
Proof.
  intros [? ?] ?. unfold ConsumeGas. rewrite Sub_spec, Add_spec by (done || lia).
  zcase; try done; do 2 f_equal; unfold MaxUint64; lia.
Qed.

(** the gas state obeys the saturating laws of ACP-103: capacity grows at the
    capacity rate up to its maximum, excess shrinks at the target rate down to 0,
    two steps of time are one step of the sum, and gas is consumed exactly or
    refused without a change. *)
Theorem gas_state_laws (s : State) (maxCapacity capacityRate targetRate d1 d2 gas : Z) :
  wf s -> is_u64 maxCapacity -> is_u64 capacityRate -> is_u64 targetRate ->
  is_u64 d1 -> is_u64 d2 -> is_u64 (d1 + d2) -> is_u64 gas ->
  AdvanceTime s maxCapacity capacityRate targetRate d1 =
    mkState (Z.min (Capacity s + capacityRate * d1) maxCapacity)
      (Z.max (Excess s - targetRate * d1) 0) /\
  AdvanceTime (AdvanceTime s maxCapacity capacityRate targetRate d1)
      maxCapacity capacityRate targetRate d2 =
    AdvanceTime s maxCapacity capacityRate targetRate (d1 + d2) /\
  ConsumeGas s gas = (if gas <=? Capacity s
    then Ok (mkState (Capacity s - gas) (Z.min (Excess s + gas) MaxUint64))
    else Err ErrInsufficientCapacity).
Proof.
  intros Hs Hm Hc Ht H1 H2 H12 Hg. split; [by apply AdvanceTime_spec|].
  split; [|by apply ConsumeGas_spec].
  rewrite (AdvanceTime_spec (AdvanceTime _ _ _ _ _)) by (try apply AdvanceTime_wf; done).
  rewrite !AdvanceTime_spec by done. destruct Hs. cbn.
  unfold is_uint in *. f_equal; nia.
Qed.

Lemma gas_state_laws_witness :
  AdvanceTime (mkState 10 25) 40 7 3 4 = mkState 38 13 /\
  AdvanceTime (AdvanceTime (mkState 10 25) 40 7 3 4) 40 7 3 5 =
    AdvanceTime (mkState 10 25) 40 7 3 9 /\
  ConsumeGas (mkState 10 25) 11 = Err ErrInsufficientCapacity.
Proof. apply (gas_state_laws (mkState 10 25) 40 7 3 4 5 11); done. Defined.

(** ** Dimensions *)
Definition dims_ok (d : Dimensions) : Prop := length d = NumDimensions /\ Forall is_u64 d.

(** The sums without a bound on the width. *)
Definition dims_sum (d : Dimensions) (os : list Dimensions) : Dimensions :=
  foldl (zip_with Z.add) d os.

Definition dot (d weights : Dimensions) : Z :=
  foldr Z.add 0 (zip_with Z.mul d weights).

Lemma zip_checked_Add d o : Forall is_u64 d -> Forall is_u64 o -> length d = length o ->
  (Forall is_u64 (zip_with Z.add d o) -> zip_checked (Add 64) d o = (zip_with Z.add d o, None)) /\
  (~ Forall is_u64 (zip_with Z.add d o) -> (zip_checked (Add 64) d o).2 = Some ErrOverflow).
Proof.
  revert o. induction d as [|x d IH]; intros [|y o] Hd Ho Hl; try done.
  apply Forall_cons in Hd as [Hx Hd]. apply Forall_cons in Ho as [Hy Ho].
  injection Hl as Hl. destruct (IH o Hd Ho Hl) as [IH1 IH2]. cbn.
  rewrite Add_spec by (done || lia). rewrite Forall_cons.
  destruct (Z.ltb_spec (x + y) (2 ^ 64)) as [Hlt|Hge].
  - assert (is_u64 (x + y)) as Hxy by ulia. split.
    + intros [_ Hf]. by rewrite IH1.
    + intros Hn. specialize (IH2 ltac:(tauto)). by destruct (zip_checked _ d o).
  - split; [intros [Hxy _]; ulia|done].
Qed.

Lemma dims_sum_le d os i x y : (forall o, o ∈ os -> Forall is_u64 o) ->
  d !! i = Some x -> dims_sum d os !! i = Some y -> x <= y.
Proof.
  revert d x. induction os as [|o os IH]; intros d x Hos Hx Hy; cbn in Hy; [simplify_eq; lia|].
  destruct (o !! i) as [z|] eqn:Hz.
  - assert (zip_with Z.add d o !! i = Some (x + z)) as Hxz
      by (rewrite lookup_zip_with, Hx; cbn; by rewrite Hz).
    pose proof (IH _ _ ltac:(intros; apply Hos; by right) Hxz Hy).
    pose proof (Hos o ltac:(by left)) as Ho. rewrite Forall_lookup in Ho.
    specialize (Ho i z Hz). ulia.
  - exfalso. assert (zip_with Z.add d o !! i = None) as Hn
      by (rewrite lookup_zip_with, Hx; cbn; by rewrite Hz).
    clear IH Hos Hx. revert Hy Hn. generalize (zip_with Z.add d o). induction os as [|o' os IH];
      cbn; intros l Hy Hn; [congruence|]. apply (IH _ Hy). rewrite lookup_zip_with, Hn. done.
Qed.

Lemma dims_sum_length d os : (forall o, o ∈ os -> length o = length d) ->
  length (dims_sum d os) = length d.
Proof.
  revert d. induction os as [|o os IH]; intros d Hos; [done|]. cbn.
  rewrite IH; rewrite length_zip_with_l_eq; try done.
  - symmetry. apply Hos. by left.
  - intros o' Ho'. apply Hos. by right.
  - symmetry. apply Hos. by left.
Qed.

(** [Dimensions.Add] succeeds exactly when every total fits 64 bits, whatever
    the order of the summands, and then returns the totals; otherwise it reports
    an overflow. *)
Theorem Dimensions_Add_correct (d : Dimensions) (os : list Dimensions) :
  dims_ok d -> (forall o, o ∈ os -> dims_ok o) ->
  (Forall is_u64 (dims_sum d os) -> Dimensions_Add d os = (dims_sum d os, None)) /\
  (~ Forall is_u64 (dims_sum d os) -> (Dimensions_Add d os).2 = Some ErrOverflow).
Proof.
  unfold Dimensions_Add. revert d. induction os as [|o os IH]; intros d Hd Hos; [split; [done|]; intros []; apply Hd|].
  assert (dims_ok o) as Ho by (apply Hos; by left).
  assert (forall o', o' ∈ os -> dims_ok o') as Hos' by (intros; apply Hos; by right).
  destruct Hd as [Hdl Hd], Ho as [Hol Ho]. cbn [Dimensions_fold dims_sum foldl].
  destruct (zip_checked_Add d o Hd Ho) as [H1 H2]; [congruence|].
  assert (length (zip_with Z.add d o) = NumDimensions) as Hl
    by (rewrite length_zip_with_l_eq; congruence).
  destruct (decide (Forall is_u64 (zip_with Z.add d o))) as [Hf|Hf].
  - rewrite H1 by done. by apply IH.
  - specialize (H2 Hf). destruct (zip_checked _ d o) as [d' [e|]]; [|done].
    split; [|done]. intros Hs. exfalso. apply Hf. rewrite Forall_lookup in *.
    intros i x Hx. pose proof (dims_sum_length (zip_with Z.add d o) os) as Hlen.
    destruct (lookup_lt_is_Some_2 (dims_sum (zip_with Z.add d o) os) i) as [y Hy].
    { rewrite Hlen; [by eapply lookup_lt_Some|]. intros o' Ho'. rewrite Hl. by apply Hos'. }
    pose proof (dims_sum_le _ os i x y ltac:(intros; by apply Hos') Hx Hy).
    specialize (Hs i y Hy). apply lookup_zip_with_Some in Hx as (a & b & -> & Ha & Hb).
    specialize (Hd i a Ha). specialize (Ho i b Hb). ulia.
Qed.

Lemma Dimensions_Add_correct_witness :
  Dimensions_Add [1; 2; 3; 4] [[5; 6; 7; 8]; [9; 10; 11; 12]] = ([15; 18; 21; 24], None) /\
  (Dimensions_Add [1; 2; 3; MaxUint64] [[0; 0; 0; 0]; [0; 0; 0; 1]]).2 = Some ErrOverflow.
Proof.
  split.
  - refine (proj1 (Dimensions_Add_correct _ _ _ _) _); [by apply (bool_decide_unpack _)| |by apply (bool_decide_unpack _)].
    intros o Ho. repeat (apply elem_of_cons in Ho as [->|Ho]; [by apply (bool_decide_unpack _)|]).
    by apply not_elem_of_nil in Ho.
  - refine (proj2 (Dimensions_Add_correct _ _ _ _) _); [by apply (bool_decide_unpack _)| |by apply (bool_decide_unpack _)].
    intros o Ho. repeat (apply elem_of_cons in Ho as [->|Ho]; [by apply (bool_decide_unpack _)|]).
    by apply not_elem_of_nil in Ho.
Defined.

Lemma ToGas_loop_spec d weights res : Forall is_u64 d -> Forall is_u64 weights ->
  length d = length weights -> is_u64 res ->
  ToGas_loop d weights res =
    if res + dot d weights <? 2 ^ 64 then Ok (res + dot d weights) else Err ErrOverflow.
Proof.
  revert weights res. induction d as [|x d IH]; intros [|w weights] res Hd Hw Hl Hr; try done.
  { cbn. rewrite Z.add_0_r. zcase; [done|ulia]. }
  apply Forall_cons in Hd as [Hx Hd]. apply Forall_cons in Hw as [Hwx Hw].
  injection Hl as Hl.
  assert (forall d weights, Forall is_u64 d -> Forall is_u64 weights -> 0 <= dot d weights) as Hdot.
  { clear. unfold dot. induction d as [|x d IH]; intros [|w weights] Hd Hw; cbn; try lia.
    apply Forall_cons in Hd as [Hx Hd]. apply Forall_cons in Hw as [Hwx Hw].
    specialize (IH weights Hd Hw). unfold is_uint in *. nia. }
  specialize (Hdot d weights Hd Hw).
  change (dot (x :: d) (w :: weights)) with (x * w + dot d weights).
  cbn [ToGas_loop]. rewrite Mul_spec by (done || lia).
  assert (0 <= x * w) by (unfold is_uint in *; nia).
  destruct (Z.ltb_spec (x * w) (2 ^ 64)); cbn.
  2:{ zcase; [ulia|done]. }
  rewrite Add_spec by (done || ulia).
  destruct (Z.ltb_spec (res + x * w) (2 ^ 64)); cbn.
  2:{ zcase; [lia|done]. }
  rewrite IH by (done || ulia). by rewrite Z.add_assoc.
Qed.

(** [Dimensions.ToGas] is the dot product with the weights, and reports an
    overflow exactly when the product does not fit 64 bits. *)
Theorem ToGas_correct (d weights : Dimensions) :
  dims_ok d -> dims_ok weights ->
  ToGas d weights =
    if dot d weights <? 2 ^ 64 then Ok (dot d weights) else Err ErrOverflow.
Proof.
  intros [Hl Hd] [Hlw Hw]. unfold ToGas. rewrite ToGas_loop_spec by (done || congruence). done.
Qed.
Lemma ToGas_correct_witness :
  ToGas [1; 2; 3; 4] [10; 20; 30; 40] = Ok 300 /\
  ToGas [1; 2; 3; MaxUint64] [10; 20; 30; 40] = Err ErrOverflow.
Proof.
  split; (etransitivity; [apply ToGas_correct; by apply (bool_decide_unpack _)|done]).
Defined.
End Gas.
