(* ===== verification/GasPrice.v ===== *)
(** * The exponential gas price

    [CalculatePrice] of [avalanchego/vms/components/gas/gas.go] computes the
    EIP-4844 fake exponential in 256-bit arithmetic and stops early at the largest
    64-bit price.  Here: it equals the exponential sum over the unbounded integers
    capped at [MaxUint64], the loop ends, no intermediate result wraps, and the
    price is monotone in the excess. *)

From S2P Require Import Prelude SafeMath Gas.

Module GasPrice.
Import Gas.

Section reference.
Context (m e k : Z).

(** The accumulator of the EIP-4844 [fake_exponential] in unbounded integers: the
    terms of [m * k * exp(e / k)], each rounded down. *)
Fixpoint term (n : nat) : Z :=
  match n with
  | O => m * k
  | S n => term n * e / (k * Z.of_nat (S n))
  end.

Fixpoint partial (n : nat) : Z :=
  match n with
  | O => 0
  | S n => partial n + term n
  end.
End reference.

Lemma term_S m e k n : 0 < k -> term m e k (S n) = term m e k n * e / k / Z.of_nat (S n).
Proof. intros. cbn [term]. by rewrite Z.div_div by lia. Qed.

Section monotone.
Context (m e e' k : Z) (Hm : 0 <= m) (He : 0 <= e <= e') (Hk : 0 < k).

Lemma term_nonneg n : 0 <= term m e k n.
Proof.
  induction n as [|n IH]; [cbn; nia|]. rewrite term_S by done.
  apply Z.div_pos; [|lia]. apply Z.div_pos; [nia|lia].
Qed.

Lemma term_mono n : term m e k n <= term m e' k n.
Proof.
  induction n as [|n IH]; [done|]. rewrite !term_S by done. pose proof (term_nonneg n).
  apply Z.div_le_mono; [lia|]. apply Z.div_le_mono; [lia|]. nia.
Qed.

Lemma partial_mono_excess n : partial m e k n <= partial m e' k n.
Proof. induction n as [|n IH]; cbn; [lia|]. pose proof (term_mono n). lia. Qed.

Lemma partial_mono a b : (a <= b)%nat -> partial m e k a <= partial m e k b.
Proof. induction 1; cbn; [lia|]. pose proof (term_nonneg m0). lia. Qed.

Lemma partial_nonneg n : 0 <= partial m e k n.
Proof. pose proof (partial_mono 0 n ltac:(lia)). cbn in *. lia. Qed.

Lemma term_zero a b : (a <= b)%nat -> term m e k a = 0 -> term m e k b = 0.
Proof.
  induction 1 as [|b Hab IH]; intros Ha; [done|]. rewrite term_S by done.
  by rewrite IH, Z.mul_0_l, !Zdiv_0_l by done.
Qed.

Lemma partial_zero a b : (a <= b)%nat -> term m e k a = 0 -> partial m e k b = partial m e k a.
Proof.
  induction 1 as [|b Hab IH]; intros Ha; [done|]. cbn [partial].
  rewrite IH, (term_zero a b) by done. lia.
Qed.
End monotone.

Section price.
Context `{Uint256} (m e k : Z) (Hm : is_u64 m) (He : is_u64 e) (Hk : is_u64 k) (Hk0 : 0 < k).

Abbreviation t := (term m e k).
Abbreviation P := (partial m e k).
Abbreviation maxOutput := (k * MaxUint64).
Abbreviation loop_at fuel n :=
  (price_loop fuel e k maxOutput (Z.of_nat (S n)) (P n) (t n)).

Lemma m0 : 0 <= m. Proof. apply Hm. Qed.
Lemma e0 : 0 <= e <= e. Proof. destruct He. lia. Qed.
Hint Resolve m0 e0 : core.

Lemma maxOutput_bound : 0 < maxOutput < 2 ^ 128.
Proof.
  split; [unfold MaxUint64; lia|].
  apply (Z.lt_le_trans _ (2 ^ 64 * 2 ^ 64)); [|done]. unfold MaxUint64, is_uint in *. nia.
Qed.

Lemma t_nonneg n : 0 <= t n.
Proof. by eapply term_nonneg. Qed.

(** The first step of an iteration does not wrap: every term stays below
    [2^192] as long as the sum so far is below the cap. *)
Lemma term_bound n : P n < maxOutput -> t n < 2 ^ 192.
Proof.
  pose proof maxOutput_bound. destruct n as [|n]; intros HP; [cbn [term]|rewrite term_S by done; cbn [partial] in HP].
  - unfold is_uint in *. assert (m * k < 2 ^ 64 * 2 ^ 64) by nia. lia.
  - pose proof (t_nonneg n). pose proof (partial_nonneg m e e k m0 e0 Hk0 n).
    apply Z.div_lt_upper_bound; [lia|]. apply Z.div_lt_upper_bound; [lia|].
    assert (t n * e < 2 ^ 128 * 2 ^ 64) by (unfold is_uint in *; nia). nia.
Qed.

(** One iteration of the machine loop is one step of the sum. *)
Lemma loop_step fuel n : P n < maxOutput -> (n < 1000)%nat ->
  loop_at (S fuel) n =
    if 0 <? t n then
      if maxOutput <=? P (S n) then Some MaxUint64 else loop_at fuel (S n)
    else Some (P n / k).
Proof.
  intros HP Hn. cbn [price_loop]. pose proof maxOutput_bound.
  pose proof (t_nonneg n). pose proof (term_bound n HP).
  pose proof (partial_nonneg m e e k m0 e0 Hk0 n).
  destruct (Z.ltb_spec 0 (t n)).
  - rewrite U256_Add_spec, wrap_small by (unfold is_uint; lia). cbn [partial].
    destruct (Z.leb_spec maxOutput (P n + t n)); [done|].
    assert (0 <= t n * e < 2 ^ 192).
    { change (2 ^ 192) with (2 ^ 128 * 2 ^ 64). unfold is_uint in *.
      split; [nia|]. apply Z.mul_lt_mono_nonneg; lia. }
    assert (0 <= t n * e / k <= t n * e).
    { split; [apply Z.div_pos; lia|]. apply Z.div_le_upper_bound; [lia|]. nia. }
    rewrite U256_Mul_spec, wrap_small by (unfold is_uint in *; lia).
    rewrite (U256_Div_spec (t n * e) k), (proj2 (Z.eqb_neq k 0))
      by (unfold is_uint in *; lia).
    rewrite U256_Div_spec, (proj2 (Z.eqb_neq (Z.of_nat (S n)) 0))
      by (unfold is_uint in *; lia).
    rewrite U256_Add_spec, wrap_small by (unfold is_uint in *; lia).
    replace (Z.of_nat (S n) + 1) with (Z.of_nat (S (S n))) by lia.
    by rewrite (term_S m e k n).
  - rewrite U256_Div_spec by (unfold is_uint in *; lia).
    rewrite (proj2 (Z.eqb_neq k 0)) by lia. f_equal. apply wrap64_small.
    assert (P n / k < MaxUint64) by (apply Z.div_lt_upper_bound; lia).
    split; [apply Z.div_pos|]; lia.
Qed.

(** What a run that ends returns. *)
Lemma loop_result fuel n r N : P n < maxOutput -> (n + fuel <= 1000)%nat ->
  loop_at fuel n = Some r -> (n + fuel <= N)%nat -> r = Z.min (P N / k) MaxUint64.
Proof.
  revert n. induction fuel as [|fuel IH]; intros n HP Hn Hr HN; [done|].
  rewrite loop_step in Hr by (done || lia). pose proof maxOutput_bound.
  destruct (Z.ltb_spec 0 (t n)) as [Ht|Ht].
  - destruct (Z.leb_spec maxOutput (P (S n))) as [Hc|Hc].
    + injection Hr as <-. pose proof (partial_mono m e e k m0 e0 Hk0 (S n) N ltac:(lia)).
      assert (MaxUint64 <= P N / k) by (apply Z.div_le_lower_bound; lia). lia.
    + apply (IH (S n)); [done|lia|done|lia].
  - injection Hr as <-. pose proof (t_nonneg n).
    rewrite (partial_zero m e k Hk0 n N) by lia.
    assert (P n / k < MaxUint64) by (apply Z.div_lt_upper_bound; lia). lia.
Qed.

(** *** The loop ends

    Past the 520th term the terms halve when [e < 260 * k]; otherwise the first
    terms double until the cap is reached. *)
Lemma loop_halving d : forall fuel n, e < 260 * k -> (520 <= n)%nat -> (n + fuel <= 1000)%nat ->
  P n < maxOutput -> t n < 2 ^ Z.of_nat d -> (d < fuel)%nat -> is_Some (loop_at fuel n).
Proof.
  induction d as [|d IH]; intros fuel n Hek Hn Hb HP Ht Hf;
    (destruct fuel as [|fuel]; [lia|]); rewrite loop_step by (done || lia);
    pose proof (t_nonneg n); (destruct (Z.ltb_spec 0 (t n)); [|by eexists]).
  - cbn in Ht. lia.
  - destruct (Z.leb_spec maxOutput (P (S n))); [by eexists|].
    apply (IH fuel (S n)); try done; try lia. rewrite term_S by done.
    apply Z.div_lt_upper_bound; [lia|]. apply Z.div_lt_upper_bound; [lia|].
    rewrite Nat2Z.inj_succ, Z.pow_succ_r in Ht by lia.
    assert (t n * e <= t n * (260 * k)) by (apply Z.mul_le_mono_nonneg_l; lia).
    assert (260 * t n < Z.of_nat (S n) * 2 ^ Z.of_nat d) by nia.
    nia.
Qed.

Lemma loop_start_small d : forall fuel n, e < 260 * k -> (n + d = 520)%nat ->
  (d + 200 <= fuel)%nat -> (n + fuel <= 1000)%nat -> P n < maxOutput ->
  is_Some (loop_at fuel n).
Proof.
  induction d as [|d IH]; intros fuel n Hek Hn Hf Hb HP.
  - apply (loop_halving 192); try done; try lia. by apply term_bound.
  - destruct fuel as [|fuel]; [lia|]. rewrite loop_step by (done || lia).
    destruct (Z.ltb_spec 0 (t n)); [|by eexists].
    destruct (Z.leb_spec maxOutput (P (S n))); [by eexists|].
    apply (IH fuel (S n)); done || lia.
Qed.

Lemma loop_start_large d : forall fuel n, 260 * k <= e -> (n + d = 129)%nat ->
  (d < fuel)%nat -> (n + fuel <= 1000)%nat -> P n < maxOutput ->
  (0 < t n -> 2 ^ Z.of_nat n <= t n) -> is_Some (loop_at fuel n).
Proof.
  pose proof maxOutput_bound as Hmax.
  induction d as [|d IH]; intros fuel n Hek Hn Hf Hb HP Ht;
    (destruct fuel as [|fuel]; [lia|]); rewrite loop_step by (done || lia);
    (destruct (Z.ltb_spec 0 (t n)) as [Ht0|Ht0]; [|by eexists]); specialize (Ht Ht0);
    pose proof (partial_nonneg m e e k m0 e0 Hk0 n);
    (destruct (Z.leb_spec maxOutput (P (S n))) as [|Hc]; [by eexists|]).
  - cbn [partial] in Hc. replace (Z.of_nat n) with 129 in Ht by lia. lia.
  - apply (IH fuel (S n)); try done; try lia. intros _. rewrite term_S by done.
    apply Z.div_le_lower_bound; [lia|]. apply Z.div_le_lower_bound; [lia|].
    rewrite Nat2Z.inj_succ, Z.pow_succ_r by lia.
    assert (t n * (260 * k) <= t n * e) by (apply Z.mul_le_mono_nonneg_l; lia).
    assert (Z.succ (Z.of_nat n) * (2 * 2 ^ Z.of_nat n) <= 130 * (2 * t n)) by nia.
    nia.
Qed.

Lemma price_fuel_eq : price_fuel = 800%nat.
Proof. done. Qed.
#[local] Opaque price_fuel.

Lemma price_run_loop : price_run m e k = loop_at price_fuel 0.
Proof.
  unfold price_run. pose proof maxOutput_bound.
  assert (m * k < 2 ^ 64 * 2 ^ 64) by (unfold is_uint in *; nia).
  by rewrite !U256_Mul_spec, !wrap_small by (unfold MaxUint64, is_uint in *; nia || lia).
Qed.

Lemma price_run_ends : is_Some (price_run m e k).
Proof.
  rewrite price_run_loop. pose proof maxOutput_bound. pose proof price_fuel_eq.
  assert (P 0 < maxOutput) by (cbn; lia). destruct (Z.lt_ge_cases e (260 * k)).
  - apply (loop_start_small 520); done || lia.
  - apply (loop_start_large 129); done || lia.
Qed.

(** The price is the capped sum of any number of terms from the fuel on. *)
Lemma price_run_spec N : (price_fuel <= N)%nat ->
  price_run m e k = Some (Z.min (P N / k) MaxUint64).
Proof.
  intros HN. destruct price_run_ends as [r Hr]. rewrite Hr. f_equal.
  rewrite price_run_loop in Hr. pose proof maxOutput_bound. pose proof price_fuel_eq.
  apply (loop_result price_fuel 0); try done; [cbn; lia|lia].
Qed.

Lemma CalculatePrice_spec N : (price_fuel <= N)%nat ->
  CalculatePrice m e k = Z.min (P N / k) MaxUint64.
Proof. intros HN. unfold CalculatePrice. by rewrite (price_run_spec N). Qed.
End price.

(** The fuel and the price are used through their lemmas. *)
#[global] Opaque price_fuel.

Section corollaries.
Context `{Uint256}.

Lemma CalculatePrice_zero m e : is_u64 m -> is_u64 e -> CalculatePrice m e 0 = 0.
Proof.
  intros Hm He. unfold CalculatePrice, price_run. rewrite price_fuel_eq.
  rewrite !U256_Mul_spec, Z.mul_0_r, Z.mul_0_l by (unfold MaxUint64, is_uint in *; lia).
  rewrite !wrap_small by done. cbn [price_loop Z.ltb Z.compare].
  by rewrite U256_Div_spec.
Qed.

Lemma CalculatePrice_bounds m e k : is_u64 m -> is_u64 e -> is_u64 k -> 0 < k ->
  m <= CalculatePrice m e k <= MaxUint64.
Proof.
  intros Hm He Hk H0. rewrite (CalculatePrice_spec m e k Hm He Hk H0 price_fuel) by done.
  pose proof (partial_mono m e e k ltac:(apply Hm) ltac:(destruct He; lia) H0 1 price_fuel
    ltac:(rewrite price_fuel_eq; lia)) as Hp.
  cbn [partial term] in Hp.
  assert (m <= partial m e k price_fuel / k) by (apply Z.div_le_lower_bound; lia).
  unfold is_uint, MaxUint64 in *. lia.
Qed.

Lemma CalculatePrice_u64 m e k : is_u64 m -> is_u64 e -> is_u64 k ->
  is_u64 (CalculatePrice m e k).
Proof.
  intros Hm He Hk. destruct (decide (k = 0)) as [->|].
  - by rewrite CalculatePrice_zero.
  - pose proof (CalculatePrice_bounds m e k Hm He Hk ltac:(ulia)). ulia.
Qed.

Lemma CalculatePrice_mono m e e' k : is_u64 m -> is_u64 e -> is_u64 e' -> is_u64 k ->
  e <= e' -> CalculatePrice m e k <= CalculatePrice m e' k.
Proof.
  intros Hm He He' Hk Hle. destruct (decide (k = 0)) as [->|]; [by rewrite !CalculatePrice_zero|].
  assert (0 < k) as H0 by ulia.
  rewrite !(CalculatePrice_spec m _ k) with (N := price_fuel) by done.
  pose proof (partial_mono_excess m e e' k ltac:(apply Hm) ltac:(destruct He; lia) H0 price_fuel).
  pose proof (Z.div_le_mono (partial m e k price_fuel) (partial m e' k price_fuel) k H0 ltac:(done)).
  lia.
Qed.

Lemma CalculatePrice_no_excess m k : is_u64 m -> is_u64 k -> 0 < k -> CalculatePrice m 0 k = m.
Proof.
  intros Hm Hk H0. rewrite (CalculatePrice_spec m 0 k Hm ltac:(done) Hk H0 price_fuel) by done.
  rewrite (partial_zero m 0 k H0 1)
    by ((rewrite price_fuel_eq; lia) || by rewrite term_S, Z.mul_0_r, !Zdiv_0_l).
  cbn [partial term]. rewrite Z.add_0_l, Z.div_mul by lia. unfold is_uint, MaxUint64 in *. lia.
Qed.

(** C39: the 256-bit loop computes the EIP-4844 exponential: for a positive
    conversion constant it ends, and its result is the sum of the exponential
    series in unbounded integers, for any number of terms from the fuel on,
    divided by the constant and capped at [MaxUint64]. *)
Theorem CalculatePrice_exponential (m e k : Z) (N : nat) :
  is_u64 m -> is_u64 e -> is_u64 k -> 0 < k -> (price_fuel <= N)%nat ->
  price_run m e k = Some (CalculatePrice m e k) /\
  CalculatePrice m e k = Z.min (partial m e k N / k) MaxUint64.
Proof.
  intros Hm He Hk H0 HN. split; [|by apply CalculatePrice_spec].
  unfold CalculatePrice. by rewrite (price_run_spec m e k Hm He Hk H0 N).
Qed.

(** The gas price is at least the minimum price, equal to it without excess,
    and monotone in the excess; every truncation of the exponential series is a
    lower bound of it, up to the cap. *)
Theorem CalculatePrice_monotone (m e e' k : Z) (n : nat) :
  is_u64 m -> is_u64 e -> is_u64 e' -> is_u64 k -> 0 < k -> e <= e' ->
  m = CalculatePrice m 0 k /\ m <= CalculatePrice m e k <= CalculatePrice m e' k /\
  Z.min (partial m e k n / k) MaxUint64 <= CalculatePrice m e k.
Proof.
  intros Hm He He' Hk H0 Hle. split; [by rewrite CalculatePrice_no_excess|].
  split; [split; [by apply CalculatePrice_bounds|by apply CalculatePrice_mono]|].
  rewrite (CalculatePrice_spec m e k Hm He Hk H0 (price_fuel + n)) by lia.
  apply Z.min_le_compat_r, Z.div_le_mono; [done|].
  apply (partial_mono m e e k); (done || lia || apply Hm || destruct He; lia).
Qed.
End corollaries.
#[global] Opaque CalculatePrice.

Lemma CalculatePrice_exponential_witness :
  price_run 10 30 7 = Some (CalculatePrice 10 30 7) /\
  CalculatePrice 10 30 7 = Z.min (partial 10 30 7 800 / 7) MaxUint64.
Proof. by apply CalculatePrice_exponential. Defined.

Lemma CalculatePrice_monotone_witness :
  10 = CalculatePrice 10 0 7 /\ 10 <= CalculatePrice 10 30 7 <= CalculatePrice 10 31 7 /\
  Z.min (partial 10 30 7 2 / 7) MaxUint64 <= CalculatePrice 10 30 7.
Proof. by apply CalculatePrice_monotone. Defined.
End GasPrice.
