(* ===== verification/Sorting.v ===== *)
(** * Sorted slices

    Models [avalanchego/utils/sorting.go] and the comparison of byte strings,
    [bytes.Compare] of the Go standard library, that identifiers use. *)

From Stdlib Require Import Sorting.Sorted.
From S2P Require Import Prelude.

Module Sorting.

(** [bytes.Compare] *)
Fixpoint bytes_Compare (a b : list Z) : Z :=
  match a, b with
  | [], [] => 0
  | [], _ => -1
  | _, [] => 1
  | x :: a, y :: b => if x <? y then -1 else if y <? x then 1 else bytes_Compare a b
  end.

(** [cmp.Compare] on integers *)
Definition cmp_Compare (x y : Z) : Z := if x <? y then -1 else if y <? x then 1 else 0.

Section sorted.
Context {T : Type} (Compare : T -> T -> Z).

Fixpoint IsSortedAndUnique (s : list T) : bool :=
  match s with
  | x :: (y :: _) as s' => if 0 <=? Compare x y then false else IsSortedAndUnique s'
  | _ => true
  end.
End sorted.

Definition IsSortedAndUniqueOrdered (s : list Z) : bool := IsSortedAndUnique cmp_Compare s.

Lemma bytes_Compare_eq a b : bytes_Compare a b = 0 <-> a = b.
Proof.
  revert b. induction a as [|x a IH]; intros [|y b]; cbn; try (split; done).
  destruct (Z.ltb_spec x y); [split; [done|intros [= -> _]; lia]|].
  destruct (Z.ltb_spec y x); [split; [done|intros [= -> _]; lia]|].
  assert (x = y) as -> by lia. rewrite IH. split; [by intros ->|by intros [= ->]].
Qed.

Lemma bytes_Compare_trans a b c : bytes_Compare a b < 0 -> bytes_Compare b c < 0 -> bytes_Compare a c < 0.
Proof.
  revert b c. induction a as [|x a IH]; intros [|y b] [|z c]; cbn; try lia.
  destruct (Z.ltb_spec x y), (Z.ltb_spec y z), (Z.ltb_spec x z), (Z.ltb_spec y x), (Z.ltb_spec z y), (Z.ltb_spec z x); try lia.
  apply IH.
Qed.

Lemma cmp_Compare_lt x y : cmp_Compare x y < 0 <-> x < y.
Proof. unfold cmp_Compare. destruct (Z.ltb_spec x y), (Z.ltb_spec y x); lia. Qed.

(** A slice that is sorted and unique for a strict order has no duplicates. *)
Lemma IsSortedAndUnique_sorted {T} (Compare : T -> T -> Z) s :
  IsSortedAndUnique Compare s = true <-> Sorted (fun x y => Compare x y < 0) s.
Proof.
  induction s as [|x s IH]; [split; [constructor|done]|].
  destruct s as [|y s]; [split; [by repeat constructor|done]|].
  change (IsSortedAndUnique Compare (x :: y :: s)) with
    (if 0 <=? Compare x y then false else IsSortedAndUnique Compare (y :: s)).
  destruct (Z.leb_spec 0 (Compare x y)).
  - split; [done|]. intros Hs. inversion Hs as [|? ? ? Hd]. inversion Hd. lia.
  - rewrite IH. split; [intros Hs; constructor; [exact Hs|by constructor]|]. by inversion 1.
Qed.

Lemma IsSortedAndUnique_nodup {T} (Compare : T -> T -> Z) s :
  (forall x y z, Compare x y < 0 -> Compare y z < 0 -> Compare x z < 0) -> (forall x, ~ Compare x x < 0) ->
  IsSortedAndUnique Compare s = true -> NoDup s.
Proof.
  intros Htrans Hirr Hs. apply IsSortedAndUnique_sorted, Sorted_StronglySorted in Hs; [|exact Htrans].
  induction Hs as [|x s _ IH Hx]; constructor; [|done]. intros Hin.
  rewrite Forall_forall in Hx. by apply (Hirr x), Hx.
Qed.

Lemma sorted_bytes_nodup s : IsSortedAndUnique bytes_Compare s = true -> NoDup s.
Proof.
  apply IsSortedAndUnique_nodup; [intros x y z; apply bytes_Compare_trans|].
  intros x. assert (bytes_Compare x x = 0) as -> by (by apply bytes_Compare_eq). lia.
Qed.

Lemma sorted_ordered_nodup s : IsSortedAndUniqueOrdered s = true -> NoDup s.
Proof.
  apply IsSortedAndUnique_nodup; [intros x y z; rewrite !cmp_Compare_lt; lia|]. intros x. rewrite cmp_Compare_lt. lia.
Qed.
End Sorting.
