(* ===== verification/GoLibrary.v ===== *)
(** * Packages of the Go standard library
    [sort.Search] and [encoding/binary.BigEndian] as the source uses them. *)
From S2P Require Import Prelude.

(** ** Binary search of the Go standard library

    [sort.Search] as the packages [acp176] and [acp226] use it: the smallest index
    in [0, n) at which a monotone predicate holds, or [n]. *)
Module SortSearch.

(** [for i < j { h := int(uint(i+j) >> 1); if !f(h) { i = h + 1 } else { j = h } }];
    64 halvings exhaust every interval of [int]s. *)
Fixpoint search_loop (fuel : nat) (f : Z -> bool) (i j : Z) : Z :=
  match fuel with
  | O => i
  | S fuel =>
      if i <? j then
        let h := Z.shiftr (i + j) 1 in
        if negb (f h) then search_loop fuel f (h + 1) j else search_loop fuel f i h
      else i
  end.

Definition Search (n : Z) (f : Z -> bool) : Z := search_loop 64 f 0 n.

Section spec.
Context (f : Z -> bool).

(** The loop invariant: [f] is false below [i] and true at [j], unless [j] is the
    bound. *)
Lemma search_loop_spec (n : Z) fuel i j :
  (forall x y, 0 <= x <= y -> y < n -> f x = true -> f y = true) ->
  0 <= i <= j -> j <= n -> j - i < 2 ^ Z.of_nat fuel ->
  (forall x, 0 <= x < i -> f x = false) -> (j < n -> f j = true) ->
  let r := search_loop fuel f i j in
  0 <= r <= n /\ (forall x, 0 <= x < r -> f x = false) /\ (r < n -> f r = true).
Proof.
  intros Hmono. revert i j. induction fuel as [|fuel IH]; intros i j Hij Hjn Hd Hi Hj;
    cbn [search_loop].
  { cbn in Hd. replace i with j in * by lia. repeat split; try done; lia. }
  destruct (Z.ltb_spec i j) as [Hlt|]; cycle 1.
  { replace i with j in * by lia. repeat split; try done; lia. }
  rewrite Nat2Z.inj_succ, Z.pow_succ_r in Hd by lia.
  rewrite Z.shiftr_div_pow2 by lia. change (2 ^ 1) with 2.
  set (h := (i + j) / 2). assert (i <= h < j) as Hh by (subst h; dlia).
  assert (j <= 2 * h + 1 - i /\ 2 * h <= i + j) as Hh2 by (subst h; dlia).
  destruct (f h) eqn:E; cbn [negb].
  - apply IH; try done; lia.
  - apply IH; try done; try lia. intros x Hx. destruct (f x) eqn:Ex; [|done].
    rewrite (Hmono x h) in E; (done || lia).
Qed.

Lemma Search_spec (n : Z) :
  (forall x y, 0 <= x <= y -> y < n -> f x = true -> f y = true) -> 0 <= n < 2 ^ 63 ->
  let r := Search n f in
  0 <= r <= n /\ (forall x, 0 <= x < r -> f x = false) /\ (r < n -> f r = true).
Proof. intros Hmono Hn. apply search_loop_spec; try done; lia. Qed.
End spec.
#[global] Opaque Search.
End SortSearch.

(** ** Big-endian integers

    [encoding/binary.BigEndian] of the Go standard library, as the states of the
    fee mechanisms, the packer and the databases use it.  A byte is a [Z] below
    256. *)
Module BigEndian.

Abbreviation byte := Z (only parsing).
Definition is_byte (b : Z) : Prop := 0 <= b < 256.
#[global] Instance is_byte_dec b : Decision (is_byte b).
Proof. unfold is_byte. apply _. Defined.

(** [PutUint64], [PutUint32] and [PutUint16]: the [n] bytes of a value. *)
Fixpoint put (n : nat) (v : Z) : list Z :=
  match n with
  | O => []
  | S n => Z.land (Z.shiftr v (8 * Z.of_nat n)) 255 :: put n v
  end.

(** [Uint64], [Uint32] and [Uint16]: the value of the first [n] bytes. *)
Definition get (n : nat) (bytes : list Z) : Z :=
  foldl (fun acc b => Z.lor (Z.shiftl acc 8) b) 0 (take n bytes).

Lemma length_put n v : length (put n v) = n.
Proof. induction n; cbn; congruence. Qed.

Lemma put_bytes n v : Forall is_byte (put n v).
Proof.
  induction n; cbn; constructor; [|done].
  change 255 with (Z.ones 8). rewrite Z.land_ones by lia. apply Z.mod_pos_bound. done.
Qed.

Lemma shl_lor_byte acc b : is_byte b -> Z.lor (Z.shiftl acc 8) b = acc * 256 + b.
Proof.
  intros Hb. assert (Z.land (Z.shiftl acc 8) b = 0) as Hz;
    [|pose proof (Z.add_lor_land (Z.shiftl acc 8) b) as Hs; rewrite Hz, Z.add_0_r in Hs;
      rewrite Hs; by rewrite Z.shiftl_mul_pow2 by lia].
  apply Z.bits_inj'. intros i Hi. rewrite Z.bits_0, Z.land_spec.
  destruct (Z.lt_ge_cases i 8); [by rewrite Z.shiftl_spec_low|].
  destruct (Z.eq_dec b 0) as [->|]; [by rewrite Z.bits_0, andb_false_r|].
  rewrite (Z.bits_above_log2 b i), andb_false_r; [done|apply Hb|].
  apply Z.log2_lt_pow2; [destruct Hb; lia|].
  apply (Z.lt_le_trans _ (2 ^ 8)); [apply Hb|]. apply Z.pow_le_mono_r; lia.
Qed.

Definition be_value (acc : Z) (bytes : list Z) : Z :=
  foldl (fun acc b => acc * 256 + b) acc bytes.

Lemma get_value n bytes : Forall is_byte bytes -> get n bytes = be_value 0 (take n bytes).
Proof.
  intros Hb. unfold get, be_value. generalize 0 as acc.
  assert (Forall is_byte (take n bytes)) as Ht by by apply Forall_take.
  revert Ht. generalize (take n bytes) as l. clear.
  induction l as [|b l IH]; intros Hl acc; [done|]. cbn.
  apply Forall_cons in Hl as [Hb Hl]. rewrite shl_lor_byte by done. by apply IH.
Qed.

Lemma be_value_acc acc bytes :
  be_value acc bytes = acc * 256 ^ Z.of_nat (length bytes) + be_value 0 bytes.
Proof.
  revert acc. induction bytes as [|b l IH]; intros acc; [cbn; lia|].
  cbn [be_value foldl length]. fold (be_value (acc * 256 + b) l). fold (be_value (0 * 256 + b) l).
  rewrite IH, (IH (0 * 256 + b)), Nat2Z.inj_succ, Z.pow_succ_r by lia. lia.
Qed.

Lemma be_value_bound bytes : Forall is_byte bytes ->
  0 <= be_value 0 bytes < 256 ^ Z.of_nat (length bytes).
Proof.
  induction bytes as [|b l IH]; intros Hl; [done|].
  apply Forall_cons in Hl as [Hb Hl]. specialize (IH Hl).
  cbn [be_value foldl length]. fold (be_value (0 * 256 + b) l).
  rewrite be_value_acc, Nat2Z.inj_succ, Z.pow_succ_r by lia. unfold is_byte in Hb. nia.
Qed.

Lemma put_value n v : 0 <= v -> be_value 0 (put n v) = v mod 256 ^ Z.of_nat n.
Proof.
  intros Hv. induction n as [|n IH]; [by rewrite Z.mod_1_r|].
  cbn [put]. set (b := Z.land _ _). cbn [be_value foldl]. fold (be_value (0 * 256 + b) (put n v)).
  rewrite be_value_acc, length_put, IH. subst b. change 255 with (Z.ones 8).
  rewrite Z.land_ones, Z.shiftr_div_pow2 by lia.
  rewrite Z.pow_mul_r by lia. change (2 ^ 8) with 256.
  rewrite Nat2Z.inj_succ, Z.pow_succ_r by lia. rewrite (Z.mul_comm 256).
  rewrite Z.rem_mul_r by (try apply Z.pow_nonzero; lia). lia.
Qed.

Lemma pow256 n : 256 ^ Z.of_nat n = 2 ^ (8 * Z.of_nat n).
Proof. rewrite Z.pow_mul_r by lia. done. Qed.

Lemma get_put n v rest : is_uint (8 * Z.of_nat n) v -> Forall is_byte rest ->
  get n (put n v ++ rest) = v.
Proof.
  intros Hv Hr. rewrite get_value by (apply Forall_app; split; [apply put_bytes|done]).
  rewrite take_app_length' by (by rewrite length_put).
  rewrite put_value, pow256 by apply Hv. by apply Z.mod_small.
Qed.

Lemma get_uint n bytes : Forall is_byte bytes -> (n <= length bytes)%nat ->
  is_uint (8 * Z.of_nat n) (get n bytes).
Proof.
  intros Hb Hl. rewrite get_value by done. unfold is_uint. rewrite <- pow256.
  pose proof (be_value_bound (take n bytes) ltac:(by apply Forall_take)) as Hv.
  rewrite length_take, Nat.min_l in Hv by lia. done.
Qed.

Lemma be_value_inj l1 l2 : Forall is_byte l1 -> Forall is_byte l2 -> length l1 = length l2 ->
  be_value 0 l1 = be_value 0 l2 -> l1 = l2.
Proof.
  revert l2. induction l1 as [|a l1 IH]; intros [|b l2] H1 H2 Hl Hv; try done.
  apply Forall_cons in H1 as [Ha H1]. apply Forall_cons in H2 as [Hb H2].
  injection Hl as Hl. cbn [be_value foldl] in Hv.
  fold (be_value (0 * 256 + a) l1) (be_value (0 * 256 + b) l2) in Hv.
  rewrite be_value_acc, (be_value_acc (0 * 256 + b)), Hl in Hv.
  pose proof (be_value_bound l1 H1) as B1. pose proof (be_value_bound l2 H2) as B2.
  rewrite Hl in B1. set (p := 256 ^ Z.of_nat (length l2)) in *.
  assert (a = b) as -> by nia. f_equal. apply IH; try done. lia.
Qed.

Lemma put_get n bytes : Forall is_byte bytes -> (n <= length bytes)%nat ->
  put n (get n bytes) = take n bytes.
Proof.
  intros Hb Hl. pose proof (get_uint n bytes Hb Hl) as Hu.
  apply be_value_inj; [apply put_bytes|by apply Forall_take|rewrite length_put, length_take; lia|].
  rewrite put_value, pow256, <- get_value by (done || apply Hu). by apply Z.mod_small.
Qed.
End BigEndian.
