(* ===== verification/ValidatorFee.v ===== *)
(** * The continuous fee of L1 validators

    Models [avalanchego/vms/platformvm/validators/fee/fee.go] (ACP-77): the
    excess that moves with the number of active validators, the cost of a number
    of seconds and the number of seconds some funds pay for. *)

From S2P Require Import Prelude SafeMath Gas GasPrice.

Module ValidatorFee.
Import SafeMath Gas GasPrice.

Record Config := mkConfig {
  cfgCapacity : Z;
  Target : Z;
  MinPrice : Z;
  ExcessConversionConstant : Z;
}.

Record State := mkState { Current : Z; Excess : Z }.

Definition AdvanceTime (s : State) (target seconds : Z) : State :=
  mkState (Current s)
    (if Current s <? target then SubOverTime (Excess s) (wrap64 (target - Current s)) seconds
     else if target <? Current s then AddOverTime (Excess s) (wrap64 (Current s - target)) seconds
     else Excess s).

Section fee.
Context `{Uint256}.

(** The loop of [CostOf] from second [i] on; the fuel is the number of seconds. *)
Fixpoint CostOf_loop (fuel : nat) (s : State) (c : Config) (seconds i cost : Z) : Z :=
  match fuel with
  | O => cost
  | S fuel =>
      if i <? seconds then
        let s := AdvanceTime s (Target c) 1 in
        if Excess s =? 0 then
          let secondsWithZeroExcess := wrap64 (seconds - i) in
          match Mul 64 (MinPrice c) secondsWithZeroExcess with
          | Err _ => MaxUint64
          | Ok zeroExcessCost =>
              match Add 64 cost zeroExcessCost with
              | Err _ => MaxUint64
              | Ok cost => cost
              end
          end
        else
          let price := CalculatePrice (MinPrice c) (Excess s) (ExcessConversionConstant c) in
          match Add 64 cost price with
          | Err _ => MaxUint64
          | Ok cost => CostOf_loop fuel s c seconds (wrap64 (i + 1)) cost
          end
      else cost
  end.

Definition CostOf (s : State) (c : Config) (seconds : Z) : Z :=
  if Current s =? Target c then
    let price := CalculatePrice (MinPrice c) (Excess s) (ExcessConversionConstant c) in
    match Mul 64 seconds price with
    | Err _ => MaxUint64
    | Ok cost => cost
    end
  else CostOf_loop (Z.to_nat seconds) s c seconds 0 0.

Fixpoint SecondsRemaining_loop (fuel : nat) (s : State) (c : Config)
    (maxSeconds fundsRemaining seconds : Z) : Z :=
  match fuel with
  | O => maxSeconds
  | S fuel =>
      if seconds <? maxSeconds then
        let s := AdvanceTime s (Target c) 1 in
        if Excess s =? 0 then
          let secondsWithZeroExcess := fundsRemaining / MinPrice c in
          match Add 64 seconds secondsWithZeroExcess with
          | Err _ => maxSeconds
          | Ok totalSeconds => Z.min totalSeconds maxSeconds
          end
        else
          let price := CalculatePrice (MinPrice c) (Excess s) (ExcessConversionConstant c) in
          if fundsRemaining <? price then seconds
          else SecondsRemaining_loop fuel s c maxSeconds
                 (wrap64 (fundsRemaining - price)) (wrap64 (seconds + 1))
      else maxSeconds
  end.

(** [None] is the run-time panic of a division by 0. *)
Definition SecondsRemaining (s : State) (c : Config) (maxSeconds fundsRemaining : Z)
  : option Z :=
  if MinPrice c =? 0 then Some maxSeconds
  else if Current s =? Target c then
    let price := CalculatePrice (MinPrice c) (Excess s) (ExcessConversionConstant c) in
    if price =? 0 then None
    else let seconds := fundsRemaining / price in Some (Z.min seconds maxSeconds)
  else Some (SecondsRemaining_loop (Z.to_nat maxSeconds) s c maxSeconds fundsRemaining 0).

(** ** The specification

    The excess after [i] seconds is the drift of [i] seconds, clamped; a second is
    charged at the price of the excess at its end. No width, no shortcut. *)
Definition excess_after (s : State) (target i : Z) : Z :=
  Z.max 0 (Z.min MaxUint64 (Excess s + i * (Current s - target))).

Definition price_of (s : State) (c : Config) (i : nat) : Z :=
  CalculatePrice (MinPrice c) (excess_after s (Target c) (Z.of_nat i))
    (ExcessConversionConstant c).

Fixpoint total_cost (s : State) (c : Config) (n : nat) : Z :=
  match n with
  | O => 0
  | S n => total_cost s c n + price_of s c (S n)
  end.

Definition wf (s : State) : Prop := is_u64 (Current s) /\ is_u64 (Excess s).
Definition cfg_wf (c : Config) : Prop :=
  is_u64 (Target c) /\ is_u64 (MinPrice c) /\
  is_u64 (ExcessConversionConstant c) /\ 0 < ExcessConversionConstant c.

#[global] Instance wf_dec s : Decision (wf s).
Proof. unfold wf. apply _. Defined.
#[global] Instance cfg_wf_dec c : Decision (cfg_wf c).
Proof. unfold cfg_wf. apply _. Defined.

Lemma fee_AdvanceTime_spec s target seconds : wf s -> is_u64 target -> is_u64 seconds ->
  AdvanceTime s target seconds = mkState (Current s) (excess_after s target seconds).
Proof.
  intros [Hc He] Ht Hs. unfold AdvanceTime, excess_after. f_equal. zcase.
  - rewrite wrap_small, SubOverTime_spec by (done || ulia). unfold is_uint, MaxUint64 in *. nia.
  - rewrite wrap_small, AddOverTime_spec by (done || ulia). unfold is_uint, MaxUint64 in *. nia.
  - unfold is_uint, MaxUint64 in *. nia.
Qed.

Lemma excess_after_u64 s target i : is_u64 (excess_after s target i).
Proof. unfold excess_after. ulia. Qed.

Lemma excess_after_0 s target : wf s -> excess_after s target 0 = Excess s.
Proof. intros [_ ?]. unfold excess_after. ulia. Qed.

Section run.
Context (s : State) (c : Config) (Hs : wf s) (Hc : cfg_wf c).

Abbreviation at_second i := (mkState (Current s) (excess_after s (Target c) i)).

Lemma at_second_wf i : wf (at_second i).
Proof. split; [apply Hs|apply excess_after_u64]. Qed.

(** Advancing second by second is advancing by the sum. *)
Lemma AdvanceTime_step i : 0 <= i ->
  AdvanceTime (at_second i) (Target c) 1 = at_second (i + 1).
Proof.
  intros Hi. rewrite fee_AdvanceTime_spec by (apply at_second_wf || apply Hc || done).
  f_equal. unfold excess_after; cbn [Current Excess]. destruct Hs as [_ He].
  unfold is_uint, MaxUint64 in *. nia.
Qed.

(** Once the excess is 0 it remains 0. *)
Lemma excess_zero_stays i j : Current s <> Target c -> 0 <= i <= j ->
  excess_after s (Target c) i = 0 -> 0 < i -> excess_after s (Target c) j = 0.
Proof.
  unfold excess_after. destruct Hs as [_ He]. unfold is_uint, MaxUint64 in *.
  intros Hne Hij Hz Hi. nia.
Qed.

Lemma price_of_eq i :
  price_of s c i = CalculatePrice (MinPrice c)
    (excess_after s (Target c) (Z.of_nat i)) (ExcessConversionConstant c).
Proof. done. Qed.

Lemma price_of_bounds i : MinPrice c <= price_of s c i <= MaxUint64.
Proof. apply CalculatePrice_bounds; apply Hc || apply excess_after_u64. Qed.

Lemma price_of_u64 i : is_u64 (price_of s c i).
Proof. pose proof (price_of_bounds i). destruct Hc as (_ & ? & _). ulia. Qed.

Lemma price_of_zero_excess i : excess_after s (Target c) (Z.of_nat i) = 0 ->
  price_of s c i = MinPrice c.
Proof. intros Hz. unfold price_of. rewrite Hz. apply CalculatePrice_no_excess; apply Hc. Qed.

Lemma total_cost_mono a b : (a <= b)%nat ->
  total_cost s c a + Z.of_nat (b - a) * MinPrice c <= total_cost s c b.
Proof.
  induction 1 as [|b Hab IH]; [lia|]. cbn [total_cost].
  pose proof (price_of_bounds (S b)). replace (S b - a)%nat with (S (b - a)) by lia. nia.
Qed.

Lemma total_cost_le a b : (a <= b)%nat -> total_cost s c a <= total_cost s c b.
Proof.
  intros Hab. pose proof (total_cost_mono a b Hab). destruct Hc as (_ & [? _] & _). nia.
Qed.

Lemma total_cost_nonneg n : 0 <= total_cost s c n.
Proof. apply (total_cost_le 0 n). lia. Qed.

Lemma total_cost_zero a b : Current s <> Target c -> (a <= b)%nat ->
  excess_after s (Target c) (Z.of_nat (S a)) = 0 ->
  total_cost s c b = total_cost s c a + Z.of_nat (b - a) * MinPrice c.
Proof.
  intros Hne Hab Hz. induction Hab as [|b Hab IH]; [lia|]. cbn [total_cost].
  rewrite price_of_zero_excess, IH.
  - replace (S b - a)%nat with (S (b - a)) by lia. lia.
  - apply (excess_zero_stays (Z.of_nat (S a))); done || lia.
Qed.

Lemma total_cost_constant n : Current s = Target c ->
  total_cost s c n = Z.of_nat n *
    CalculatePrice (MinPrice c) (Excess s) (ExcessConversionConstant c).
Proof.
  intros Heq. induction n as [|n IH]; [done|]. cbn [total_cost]. rewrite IH. unfold price_of.
  replace (excess_after s (Target c) (Z.of_nat (S n))) with (Excess s); [lia|].
  unfold excess_after. rewrite Heq, Z.sub_diag, Z.mul_0_r, Z.add_0_r.
  destruct Hs as [_ ?]. ulia.
Qed.

Lemma CostOf_loop_spec fuel i n : Current s <> Target c -> (n = i + fuel)%nat ->
  is_u64 (Z.of_nat n) -> total_cost s c i <= MaxUint64 ->
  CostOf_loop fuel (at_second (Z.of_nat i)) c (Z.of_nat n) (Z.of_nat i) (total_cost s c i) =
    Z.min (total_cost s c n) MaxUint64.
Proof.
  intros Hne. revert i. induction fuel as [|fuel IH]; intros i Hn Hu Ht; cbn [CostOf_loop].
  { replace n with i by lia. lia. }
  rewrite (proj2 (Z.ltb_lt (Z.of_nat i) (Z.of_nat n))), AdvanceTime_step by lia.
  replace (Z.of_nat i + 1) with (Z.of_nat (S i)) by lia. cbn [Excess].
  pose proof (total_cost_nonneg i). pose proof (price_of_u64 (S i)) as Hp.
  destruct (Z.eqb_spec (excess_after s (Target c) (Z.of_nat (S i))) 0) as [Hz|Hz].
  - rewrite (total_cost_zero i n) by (done || lia).
    rewrite (wrap_small 64 (Z.of_nat n - Z.of_nat i)) by ulia.
    replace (Z.of_nat n - Z.of_nat i) with (Z.of_nat (n - i)) by lia.
    destruct Hc as (_ & Hm & _). rewrite Mul_spec by (done || ulia).
    rewrite (Z.mul_comm (MinPrice c)). assert (0 <= Z.of_nat (n - i) * MinPrice c) by (unfold is_uint in *; nia).
    destruct (Z.ltb_spec (Z.of_nat (n - i) * MinPrice c) (2 ^ 64)); [|ulia].
    rewrite Add_spec by (done || ulia). zcase; ulia.
  - rewrite <- price_of_eq.
    rewrite Add_spec by (done || ulia).
    pose proof (total_cost_le (S i) n ltac:(lia)) as Hle. cbn [total_cost] in Hle.
    destruct (Z.ltb_spec (total_cost s c i + price_of s c (S i)) (2 ^ 64)); [|ulia].
    rewrite wrap_small by ulia.
    apply (IH (S i)); cbn [total_cost]; (done || lia || ulia).
Qed.

Lemma SecondsRemaining_loop_spec fuel i m funds : Current s <> Target c -> 0 < MinPrice c ->
  (m = i + fuel)%nat -> is_u64 (Z.of_nat m) -> is_u64 funds -> total_cost s c i <= funds ->
  exists r, SecondsRemaining_loop fuel (at_second (Z.of_nat i)) c (Z.of_nat m)
      (funds - total_cost s c i) (Z.of_nat i) = Z.of_nat r /\
    (r <= m)%nat /\ total_cost s c r <= funds /\
    ((r < m)%nat -> funds < total_cost s c (S r)).
Proof.
  intros Hne Hm0. revert i. induction fuel as [|fuel IH]; intros i Hn Hu Hf Ht;
    cbn [SecondsRemaining_loop].
  { exists m. replace i with m in Ht by lia. repeat split; try done; lia. }
  rewrite (proj2 (Z.ltb_lt (Z.of_nat i) (Z.of_nat m))), AdvanceTime_step by lia.
  replace (Z.of_nat i + 1) with (Z.of_nat (S i)) by lia. cbn [Excess].
  pose proof (total_cost_nonneg i). pose proof (price_of_u64 (S i)) as Hp.
  destruct (Z.eqb_spec (excess_after s (Target c) (Z.of_nat (S i))) 0) as [Hz|Hz].
  - set (q := (funds - total_cost s c i) / MinPrice c).
    assert (0 <= q) by (apply Z.div_pos; lia).
    pose proof (Z.mul_div_le (funds - total_cost s c i) (MinPrice c) Hm0) as Hq1.
    pose proof (Z.mul_succ_div_gt (funds - total_cost s c i) (MinPrice c) Hm0) as Hq2.
    fold q in Hq1, Hq2.
    assert (Z.of_nat i + q < 2 ^ 64).
    { pose proof (total_cost_mono 0 i ltac:(lia)) as Hi. cbn [total_cost] in Hi.
      rewrite Nat.sub_0_r in Hi. unfold is_uint in *. nia. }
    rewrite Add_spec by (done || ulia). zcase; [|lia].
    exists (Nat.min (i + Z.to_nat q) m). split; [lia|]. split; [lia|].
    split; [|intros Hlt]; rewrite (total_cost_zero i) by (done || lia); nia.
  - rewrite <- price_of_eq.
    destruct (Z.ltb_spec (funds - total_cost s c i) (price_of s c (S i))).
    { exists i. split; [done|]. split; [lia|]. split; [done|]. intros _. cbn [total_cost]. lia. }
    rewrite !wrap_small by ulia.
    replace (funds - total_cost s c i - price_of s c (S i)) with
      (funds - total_cost s c (S i)) by (cbn [total_cost]; lia).
    apply IH; cbn [total_cost]; (done || lia).
Qed.
End run.

(** C: [AdvanceTime] moves the excess by the drift of the elapsed seconds, clamped
    to the range of [uint64], and [seconds] single steps are one step. *)
Theorem AdvanceTime_correct (s : State) (c : Config) (i seconds : Z) :
  wf s -> cfg_wf c -> is_u64 i -> is_u64 seconds -> is_u64 (i + seconds) ->
  AdvanceTime s (Target c) i = mkState (Current s) (excess_after s (Target c) i) /\
  AdvanceTime (AdvanceTime s (Target c) i) (Target c) seconds =
    AdvanceTime s (Target c) (i + seconds).
Proof.
  intros Hs Hc Hi Hu Hiu. split; [by apply fee_AdvanceTime_spec; [|apply Hc|]|].
  assert (is_u64 (Target c)) as Ht by apply Hc.
  rewrite (fee_AdvanceTime_spec s _ i), (fee_AdvanceTime_spec s) by done.
  rewrite fee_AdvanceTime_spec by (done || by apply at_second_wf).
  f_equal. unfold excess_after; cbn [Current Excess]. destruct Hs as [_ He].
  rewrite Z.mul_add_distr_r. set (d := Current s - Target c).
  unfold is_uint, MaxUint64 in *. destruct (Z.le_ge_cases d 0).
  - assert (i * d <= 0 /\ seconds * d <= 0) by nia. lia.
  - assert (0 <= i * d /\ 0 <= seconds * d) by nia. lia.
Qed.

(** [CostOf] with its shortcuts for a constant price and for a zero excess is the
    sum of the prices of the seconds, capped at [MaxUint64]. *)
Theorem CostOf_correct (s : State) (c : Config) (seconds : Z) :
  wf s -> cfg_wf c -> is_u64 seconds ->
  CostOf s c seconds = Z.min (total_cost s c (Z.to_nat seconds)) MaxUint64.
Proof.
  intros Hs Hc Hu. unfold CostOf. destruct (Z.eqb_spec (Current s) (Target c)) as [Heq|Hne].
  - rewrite (total_cost_constant s c Hs) by done.
    rewrite Mul_spec by (try apply CalculatePrice_u64; try apply Hc; try apply Hs; done || lia).
    rewrite Z2Nat.id by (unfold is_uint in Hu; lia). zcase; ulia.
  - pose proof (CostOf_loop_spec s c Hs Hc (Z.to_nat seconds) 0 (Z.to_nat seconds) Hne) as Hl.
    rewrite Z2Nat.id in Hl by (unfold is_uint in Hu; lia). cbn [Z.of_nat total_cost] in Hl.
    rewrite excess_after_0 in Hl by done. destruct s as [cu ex].
    apply Hl; (done || lia || ulia).
Qed.

(** [SecondsRemaining] does not panic and returns the largest number of seconds,
    up to the maximum, whose cost the funds cover. *)
Theorem SecondsRemaining_correct (s : State) (c : Config) (maxSeconds funds : Z) :
  wf s -> cfg_wf c -> 0 < MinPrice c -> is_u64 maxSeconds -> is_u64 funds ->
  exists r, SecondsRemaining s c maxSeconds funds = Some r /\
    0 <= r <= maxSeconds /\ total_cost s c (Z.to_nat r) <= funds /\
    (r < maxSeconds -> funds < total_cost s c (S (Z.to_nat r))).
Proof.
  intros Hs Hc Hm Hu Hf. unfold SecondsRemaining. rewrite (proj2 (Z.eqb_neq _ _)) by lia.
  destruct (Z.eqb_spec (Current s) (Target c)) as [Heq|Hne].
  - pose proof (CalculatePrice_bounds (MinPrice c) (Excess s) (ExcessConversionConstant c)
      ltac:(apply Hc) ltac:(apply Hs) ltac:(apply Hc) ltac:(apply Hc)) as Hp.
    set (p := CalculatePrice _ _ _) in *. rewrite (proj2 (Z.eqb_neq p 0)) by lia.
    eexists. split; [done|]. assert (0 <= funds / p) by (apply Z.div_pos; ulia).
    pose proof (Z.mul_div_le funds p ltac:(lia)).
    pose proof (Z.mul_succ_div_gt funds p ltac:(lia)).
    rewrite !(total_cost_constant s c Hs) by done. fold p.
    unfold is_uint in *. split; [lia|]. split; [nia|]. intros. nia.
  - destruct (SecondsRemaining_loop_spec s c Hs Hc (Z.to_nat maxSeconds) 0
      (Z.to_nat maxSeconds) funds Hne Hm) as (r & Hr & Hrm & Hle & Hgt);
      try (done || lia || (cbn; ulia)).
    rewrite Z2Nat.id in Hr by ulia. change (Z.of_nat 0) with 0 in Hr. cbn [total_cost] in Hr.
    rewrite excess_after_0, Z.sub_0_r in Hr by done. destruct s as [cu ex].
    exists (Z.of_nat r). cbn [Current Excess] in Hr. rewrite Hr, Nat2Z.id.
    repeat split; try done; try ulia.
Qed.

(** The sanity check of [SecondsRemaining] leaves the conversion constant out. *)
Lemma SecondsRemaining_panics s c maxSeconds funds :
  wf s -> is_u64 (MinPrice c) -> MinPrice c <> 0 -> Current s = Target c ->
  ExcessConversionConstant c = 0 -> SecondsRemaining s c maxSeconds funds = None.
Proof.
  intros Hs Hm Hm0 Heq Hk. unfold SecondsRemaining.
  rewrite (proj2 (Z.eqb_neq _ _)), (proj2 (Z.eqb_eq _ _)), Hk, CalculatePrice_zero
    by (done || apply Hs). done.
Qed.
End fee.

Lemma AdvanceTime_correct_witness :
  AdvanceTime (mkState 3 20) 8 2 = mkState 3 10 /\
  AdvanceTime (AdvanceTime (mkState 3 20) 8 2) 8 5 = mkState 3 0.
Proof.
  split.
  - apply (AdvanceTime_correct (mkState 3 20) (mkConfig 100 8 2 7) 2 5); by apply (bool_decide_unpack _).
  - apply (AdvanceTime_correct (mkState 3 20) (mkConfig 100 8 2 7) 2 5); by apply (bool_decide_unpack _).
Defined.

Lemma CostOf_correct_witness :
  CostOf (mkState 3 20) (mkConfig 100 8 2 7) 6 =
    Z.min (total_cost (mkState 3 20) (mkConfig 100 8 2 7) 6) MaxUint64.
Proof. apply (CostOf_correct (mkState 3 20) (mkConfig 100 8 2 7) 6); by apply (bool_decide_unpack _). Defined.

Lemma SecondsRemaining_correct_witness :
  exists r, SecondsRemaining (mkState 9 20) (mkConfig 100 8 2 7) 10 200 = Some r /\
    0 <= r <= 10 /\ total_cost (mkState 9 20) (mkConfig 100 8 2 7) (Z.to_nat r) <= 200 /\
    (r < 10 -> 200 < total_cost (mkState 9 20) (mkConfig 100 8 2 7) (S (Z.to_nat r))).
Proof.
  apply (SecondsRemaining_correct (mkState 9 20) (mkConfig 100 8 2 7) 10 200); by apply (bool_decide_unpack _).
Defined.
End ValidatorFee.
