(* ===== verification/Acp176.v ===== *)
(** * Dynamic gas limit and block delay of the EVM chains

    Models [avalanchego/vms/evm/acp176/acp176.go], the gas target that block
    proposers move, the price and the capacity that follow it and the 24 bytes
    the state is stored as; and [avalanchego/vms/evm/acp226/acp226.go], the
    minimum block delay that moves the same way. *)

From S2P Require Import Prelude SafeMath Gas GasPrice GoLibrary.

Module Acp176.
Import SafeMath GasPrice SortSearch BigEndian.
Import Gas (Cost, CalculatePrice, price_fuel).

Definition LongLen : nat := 8.
Definition StateSize : nat := 3 * LongLen.
Definition maxTargetExcess : Z := 1024950627.

Inductive StateError := ErrStateInsufficientLength.

Record Params := mkParams {
  MinTargetPerSecond : Z;
  TargetConversion : Z;
  MaxTargetExcessDiff : Z;
  MinGasPrice : Z;
  TimeToFillCapacity : Z;
  TargetToMax : Z;
  TargetToPriceUpdateConversion : Z;
}.

Definition DefaultParams : Params := {|
  MinTargetPerSecond := 1000000;
  TargetConversion := 1024 * 2 ^ 15;
  MaxTargetExcessDiff := 2 ^ 15;
  MinGasPrice := 1;
  TimeToFillCapacity := 5;
  TargetToMax := 2;
  TargetToPriceUpdateConversion := 87;
|}.

Record State := mkState { GasState : Gas.State; TargetExcess : Z }.

Definition ParseState (bytes : list Z) : result StateError State :=
  if (length bytes <? StateSize)%nat then Err ErrStateInsufficientLength
  else Ok (mkState
    (Gas.mkState (get 8 bytes) (get 8 (drop LongLen bytes)))
    (get 8 (drop (2 * LongLen) bytes))).

Definition Bytes (s : State) : list Z :=
  put 8 (Gas.Capacity (GasState s)) ++ put 8 (Gas.Excess (GasState s)) ++
  put 8 (TargetExcess s).

Definition mulWithUpperBound (a b : Z) : Z :=
  match Mul 64 a b with
  | Err _ => MaxUint64
  | Ok product => product
  end.

Definition targetExcess (excess desired maxChange : Z) : Z :=
  let change := AbsDiff 64 excess desired in
  let change := Z.min change maxChange in
  if excess <? desired then wrap64 (excess + change) else wrap64 (excess - change).

Section ops.
Context `{Uint256}.

Definition scaleExcess (excess newTargetPerSecond previousTargetPerSecond : Z) : Z :=
  let bigExcess := U256_Mul excess newTargetPerSecond in
  let bigExcess := U256_Div bigExcess previousTargetPerSecond in
  if bigExcess <=? MaxUint64 then bigExcess else MaxUint64.

Definition TargetWith (s : State) (p : Params) : Z :=
  CalculatePrice (MinTargetPerSecond p) (TargetExcess s) (TargetConversion p).

Definition MaxCapacityWith (s : State) (p : Params) : Z :=
  let targetPerSecond := TargetWith s p in
  let targetToMaxCapacity := mulWithUpperBound (TargetToMax p) (TimeToFillCapacity p) in
  mulWithUpperBound targetPerSecond targetToMaxCapacity.

Definition GasPriceWith (s : State) (p : Params) : Z :=
  let targetPerSecond := TargetWith s p in
  let priceUpdateConversion :=
    mulWithUpperBound targetPerSecond (TargetToPriceUpdateConversion p) in
  CalculatePrice (MinGasPrice p) (Gas.Excess (GasState s)) priceUpdateConversion.

Definition AdvanceSecondsWith (s : State) (p : Params) (seconds : Z) : State :=
  let targetPerSecond := TargetWith s p in
  let maxPerSecond := mulWithUpperBound targetPerSecond (TargetToMax p) in
  let maxCapacity := mulWithUpperBound maxPerSecond (TimeToFillCapacity p) in
  mkState (Gas.AdvanceTime (GasState s) maxCapacity maxPerSecond targetPerSecond seconds)
    (TargetExcess s).

Definition AdvanceMillisecondsWith (s : State) (p : Params) (milliseconds : Z) : State :=
  let targetPerSecond := TargetWith s p in
  let targetPerMS := targetPerSecond / 1000 in
  let maxPerMS := wrap64 (targetPerMS * TargetToMax p) in
  let maxPerSecond := mulWithUpperBound targetPerSecond (TargetToMax p) in
  let maxCapacity := mulWithUpperBound maxPerSecond (TimeToFillCapacity p) in
  mkState (Gas.AdvanceTime (GasState s) maxCapacity maxPerMS targetPerMS milliseconds)
    (TargetExcess s).

(** [extraGasUsed] is a [*big.Int]: [None] is [nil]. *)
Definition ConsumeGas (s : State) (gasUsed : Z) (extraGasUsed : option Z)
  : result Gas.StateError State :=
  newGas ← Gas.ConsumeGas (GasState s) gasUsed;
  match extraGasUsed with
  | None => Ok (mkState newGas (TargetExcess s))
  | Some extra =>
      if negb ((0 <=? extra) && (extra <=? MaxUint64)) then Err Gas.ErrInsufficientCapacity
      else
        newGas ← Gas.ConsumeGas newGas extra;
        Ok (mkState newGas (TargetExcess s))
  end.

Definition UpdateTargetExcessWith (s : State) (p : Params) (desiredTargetExcess : Z) : State :=
  let previousTargetPerSecond := TargetWith s p in
  let s := mkState (GasState s)
    (targetExcess (TargetExcess s) desiredTargetExcess (MaxTargetExcessDiff p)) in
  let newTargetPerSecond := TargetWith s p in
  let excess := scaleExcess (Gas.Excess (GasState s)) newTargetPerSecond
    previousTargetPerSecond in
  let targetToMaxCapacity := mulWithUpperBound (TargetToMax p) (TimeToFillCapacity p) in
  let newMaxCapacity := mulWithUpperBound newTargetPerSecond targetToMaxCapacity in
  mkState (Gas.mkState (Z.min (Gas.Capacity (GasState s)) newMaxCapacity) excess)
    (TargetExcess s).

Definition DesiredTargetExcessWith (p : Params) (desiredTarget : Z) : Z :=
  Search maxTargetExcess (fun targetExcessGuess =>
    let state := mkState (Gas.mkState 0 0) targetExcessGuess in
    desiredTarget <=? TargetWith state p).

(** The operations with the default parameters. *)
Definition Target (s : State) : Z := TargetWith s DefaultParams.
Definition MaxCapacity (s : State) : Z := MaxCapacityWith s DefaultParams.
Definition GasPrice (s : State) : Z := GasPriceWith s DefaultParams.
Definition AdvanceSeconds (s : State) (seconds : Z) : State :=
  AdvanceSecondsWith s DefaultParams seconds.
Definition AdvanceMilliseconds (s : State) (milliseconds : Z) : State :=
  AdvanceMillisecondsWith s DefaultParams milliseconds.
Definition UpdateTargetExcess (s : State) (desiredTargetExcess : Z) : State :=
  UpdateTargetExcessWith s DefaultParams desiredTargetExcess.
Definition DesiredTargetExcess (desiredTarget : Z) : Z :=
  DesiredTargetExcessWith DefaultParams desiredTarget.

(** ** Well-formed states and parameters *)
Definition wf (s : State) : Prop := Gas.wf (GasState s) /\ is_u64 (TargetExcess s).

Record params_wf (p : Params) : Prop := {
  pw_target : is_u64 (MinTargetPerSecond p);
  pw_conv : is_u64 (TargetConversion p);
  pw_diff : is_u64 (MaxTargetExcessDiff p);
  pw_price : is_u64 (MinGasPrice p);
  pw_fill : is_u64 (TimeToFillCapacity p);
  pw_max : is_u64 (TargetToMax p);
  pw_upd : is_u64 (TargetToPriceUpdateConversion p);
}.

Lemma DefaultParams_wf : params_wf DefaultParams.
Proof. by split. Qed.
Hint Resolve pw_target pw_conv pw_diff pw_price pw_fill pw_max pw_upd : go.

Lemma mulWithUpperBound_spec a b : is_u64 a -> is_u64 b ->
  mulWithUpperBound a b = Z.min (a * b) MaxUint64.
Proof.
  intros. unfold mulWithUpperBound. rewrite Mul_spec by (done || lia).
  zcase; unfold MaxUint64; lia.
Qed.

Lemma mulWithUpperBound_u64 a b : is_u64 a -> is_u64 b -> is_u64 (mulWithUpperBound a b).
Proof. intros. rewrite mulWithUpperBound_spec by done. unfold is_uint, MaxUint64 in *. nia. Qed.

Lemma TargetWith_u64 s p : wf s -> params_wf p -> is_u64 (TargetWith s p).
Proof. intros [_ ?] ?. apply CalculatePrice_u64; auto with go. Qed.
Hint Resolve mulWithUpperBound_u64 TargetWith_u64 : go.

(** The two ways the code computes the maximum capacity agree. *)
Lemma max_capacity_assoc a b c : is_u64 a -> is_u64 b -> is_u64 c ->
  mulWithUpperBound (mulWithUpperBound a b) c = mulWithUpperBound a (mulWithUpperBound b c).
Proof.
  intros. rewrite (mulWithUpperBound_spec (mulWithUpperBound a b)),
    (mulWithUpperBound_spec a (mulWithUpperBound b c)), (mulWithUpperBound_spec a b), (mulWithUpperBound_spec b c)
    by auto with go.
  unfold is_uint, MaxUint64 in *.
  destruct (Z.le_gt_cases (a * b) 18446744073709551615);
    destruct (Z.le_gt_cases (b * c) 18446744073709551615).
  - rewrite (Z.min_l (a * b)), (Z.min_l (b * c)), Z.mul_assoc by lia. done.
  - rewrite (Z.min_l (a * b)), (Z.min_r (b * c)) by lia.
    assert (a = 0 \/ 1 <= a) as [->|] by lia; [done|]. nia.
  - rewrite (Z.min_r (a * b)), (Z.min_l (b * c)) by lia.
    assert (c = 0 \/ 1 <= c) as [->|] by lia; [by rewrite !Z.mul_0_r|]. nia.
  - rewrite (Z.min_r (a * b)), (Z.min_r (b * c)) by lia. nia.
Qed.

Lemma targetExcess_spec e d q : is_u64 e -> is_u64 d -> is_u64 q ->
  targetExcess e d q = Z.max (e - q) (Z.min d (e + q)).
Proof.
  intros. unfold targetExcess, AbsDiff. rewrite (wrap_small 64 (Z.max e d - _)) by ulia.
  zcase; rewrite wrap_small by ulia; ulia.
Qed.

Lemma scaleExcess_spec e n prev : is_u64 e -> is_u64 n -> is_u64 prev ->
  scaleExcess e n prev = if prev =? 0 then 0 else Z.min (e * n / prev) MaxUint64.
Proof.
  intros He Hn Hp. unfold scaleExcess.
  assert (0 <= e * n < 2 ^ 64 * 2 ^ 64) by (unfold is_uint in *; nia).
  rewrite U256_Mul_spec, wrap_small by (unfold is_uint in *; lia).
  rewrite U256_Div_spec by (unfold is_uint in *; lia).
  destruct (Z.eqb_spec prev 0); [done|]. zcase; lia.
Qed.

Lemma scaleExcess_u64 e n prev : is_u64 e -> is_u64 n -> is_u64 prev ->
  is_u64 (scaleExcess e n prev).
Proof.
  intros He Hn Hp. rewrite scaleExcess_spec by done. zcase; [done|].
  assert (0 <= e * n / prev) by (apply Z.div_pos; unfold is_uint in *; nia). ulia.
Qed.

(** ** Encoding *)

(** the 24 bytes of a state parse back to it, whatever follows them; shorter
    inputs are refused; and every accepted input starts with the bytes of the
    state that is returned. *)
Theorem state_roundtrip (s : State) (pad bytes : list Z) :
  wf s -> Forall is_byte pad -> Forall is_byte bytes ->
  length (Bytes s) = StateSize /\ Forall is_byte (Bytes s) /\
  ParseState (Bytes s ++ pad) = Ok s /\
  ((length bytes < StateSize)%nat -> ParseState bytes = Err ErrStateInsufficientLength) /\
  (forall s', ParseState bytes = Ok s' -> wf s' /\ Bytes s' = take StateSize bytes).
Proof.
  intros [[Hc He] Ht] Hpad Hb.
  assert (length (Bytes s) = StateSize) as Hl by (unfold Bytes; by rewrite !length_app, !length_put).
  split; [done|]. split; [unfold Bytes; repeat (apply Forall_app; split); apply put_bytes|].
  split; [|split].
  - unfold ParseState. rewrite length_app, Hl. cbn [Nat.ltb]. 
    rewrite (proj2 (Nat.ltb_ge _ _)) by lia. unfold Bytes. rewrite <- !app_assoc.
    assert (forall v l, drop LongLen (put 8 v ++ l) = l) as Hd
      by (intros; apply drop_app_length'; by rewrite length_put).
    change (2 * LongLen)%nat with (LongLen + LongLen)%nat. rewrite <- drop_drop.
    rewrite !Hd, !(get_put 8) by (done || auto 6 using Forall_app_2, put_bytes).
    by destruct s as [[? ?] ?].
  - intros Hs. unfold ParseState. by rewrite (proj2 (Nat.ltb_lt _ _)).
  - intros s' Hp. unfold ParseState in Hp.
    destruct (Nat.ltb_spec (length bytes) StateSize) as [|Hge]; [done|].
    unfold StateSize, LongLen in Hge. cbn in Hge. injection Hp as <-.
    assert (forall n, Forall is_byte (drop n bytes)) as Hdb by (intros; by apply Forall_drop).
    split; [split; [split|]; apply (get_uint 8); (done || (rewrite ?length_drop; unfold LongLen; lia))|].
    unfold Bytes; cbn [GasState TargetExcess Gas.Capacity Gas.Excess].
    rewrite !put_get by (done || (rewrite ?length_drop; unfold LongLen; lia)).
    rewrite app_assoc. unfold LongLen. rewrite !take_take_drop. done.
Qed.
(** ** The gas target *)
Lemma TargetWith_mono s s' p : wf s -> wf s' -> params_wf p ->
  TargetExcess s <= TargetExcess s' -> TargetWith s p <= TargetWith s' p.
Proof. intros [_ ?] [_ ?] ? ?. apply CalculatePrice_mono; auto with go. Qed.

Lemma UpdateTargetExcessWith_excess s p d : wf s -> params_wf p -> is_u64 d ->
  TargetExcess (UpdateTargetExcessWith s p d) =
    Z.max (TargetExcess s - MaxTargetExcessDiff p)
      (Z.min d (TargetExcess s + MaxTargetExcessDiff p)).
Proof. intros [_ ?] ? ?. cbn. apply targetExcess_spec; auto with go. Qed.

Lemma UpdateTargetExcessWith_wf s p d : wf s -> params_wf p -> is_u64 d ->
  wf (UpdateTargetExcessWith s p d).
Proof.
  intros Hs Hp Hd. assert (is_u64 (TargetExcess (UpdateTargetExcessWith s p d))) as Ht.
  { rewrite UpdateTargetExcessWith_excess by done. destruct Hs as [_ ?].
    pose proof (pw_diff p Hp). ulia. }
  assert (is_u64 (TargetWith (UpdateTargetExcessWith s p d) p)) as Hn
    by (apply CalculatePrice_u64; auto with go).
  pose proof Hs as [[Hc He] _]. split; [split|done].
  - change (is_u64 (Z.min (Gas.Capacity (GasState s))
      (mulWithUpperBound (TargetWith (UpdateTargetExcessWith s p d) p)
        (mulWithUpperBound (TargetToMax p) (TimeToFillCapacity p))))).
    assert (forall x y, is_u64 x -> is_u64 y -> is_u64 (Z.min x y)) as Hmin by ulia.
    apply Hmin; auto 6 with go.
  - apply scaleExcess_u64; auto with go.
Qed.

Lemma iter_update_excess n s p d : wf s -> params_wf p -> is_u64 d ->
  let s' := Nat.iter n (fun s => UpdateTargetExcessWith s p d) s in
  wf s' /\ TargetExcess s' =
    Z.max (TargetExcess s - Z.of_nat n * MaxTargetExcessDiff p)
      (Z.min d (TargetExcess s + Z.of_nat n * MaxTargetExcessDiff p)).
Proof.
  intros Hs Hp Hd. pose proof (pw_diff p Hp). induction n as [|n [IHw IH]].
  - split; [done|]. destruct Hs as [_ Ht]. cbn. unfold is_uint in *. lia.
  - cbv zeta in *. rewrite Nat.iter_succ. split; [by apply UpdateTargetExcessWith_wf|].
    rewrite UpdateTargetExcessWith_excess, IH by done.
    rewrite Nat2Z.inj_succ, Z.mul_succ_l.
    assert (0 <= Z.of_nat n * MaxTargetExcessDiff p) by (unfold is_uint in *; nia). ulia.
Qed.

(** a block moves the target excess to the value closest to the proposer's
    within the maximum change, so that enough blocks reach it; the price excess is
    scaled by the ratio of the targets, and the capacity stays below its new
    maximum. *)
Theorem UpdateTargetExcess_correct (s : State) (p : Params) (d : Z) (n : nat) :
  wf s -> params_wf p -> is_u64 d -> 0 < TargetWith s p ->
  let s' := UpdateTargetExcessWith s p d in
  (forall x, Z.abs (x - TargetExcess s) <= MaxTargetExcessDiff p ->
     Z.abs (TargetExcess s' - d) <= Z.abs (x - d)) /\
  Z.abs (TargetExcess s' - TargetExcess s) <= MaxTargetExcessDiff p /\
  Gas.Excess (GasState s') =
    Z.min (Gas.Excess (GasState s) * TargetWith s' p / TargetWith s p) MaxUint64 /\
  Gas.Capacity (GasState s') = Z.min (Gas.Capacity (GasState s)) (MaxCapacityWith s' p) /\
  (Z.abs (d - TargetExcess s) <= Z.of_nat n * MaxTargetExcessDiff p ->
     TargetExcess (Nat.iter n (fun s => UpdateTargetExcessWith s p d) s) = d).
Proof.
  intros Hs Hp Hd Ht s'. pose proof (pw_diff p Hp) as [Hq _].
  pose proof (UpdateTargetExcessWith_excess s p d Hs Hp Hd) as Hx. fold s' in Hx.
  pose proof (UpdateTargetExcessWith_wf s p d Hs Hp Hd) as Hs'.
  rewrite Hx. split; [lia|]. split; [lia|]. split; [|split; [done|]].
  - pose proof (TargetWith_u64 s' p Hs' Hp).
    change (Gas.Excess (GasState s')) with
      (scaleExcess (Gas.Excess (GasState s)) (TargetWith s' p) (TargetWith s p)).
    rewrite scaleExcess_spec; [|apply Hs|done|by apply TargetWith_u64].
    by rewrite (proj2 (Z.eqb_neq _ _)) by lia.
  - intros Hn. pose proof (iter_update_excess n s p d Hs Hp Hd) as [_ ->].
    assert (0 <= Z.of_nat n * MaxTargetExcessDiff p) by nia. lia.
Qed.

(** [DesiredTargetExcess] is the smallest excess below the bound whose target
    reaches the desired target. *)
Theorem DesiredTargetExcess_least (p : Params) (d : Z) :
  params_wf p ->
  let r := DesiredTargetExcessWith p d in
  let target x := TargetWith (mkState (Gas.mkState 0 0) x) p in
  0 <= r <= maxTargetExcess /\ (forall x, 0 <= x < r -> target x < d) /\
  (r < maxTargetExcess -> d <= target r).
Proof.
  intros Hp r target. unfold maxTargetExcess in *.
  destruct (Search_spec (fun x => d <=? target x) 1024950627) as (H1 & H2 & H3).
  - intros x y Hxy Hy Hf. apply Z.leb_le in Hf. apply Z.leb_le.
    assert (target x <= target y); [|lia].
    apply TargetWith_mono; try done; repeat split; cbn; lia.
  - lia.
  - split; [exact H1|]. split.
    + intros x Hx. specialize (H2 x Hx). cbv beta in H2. by apply Z.leb_gt in H2.
    + intros Hr. specialize (H3 Hr). cbv beta in H3. by apply Z.leb_le in H3.
Qed.

(** ** The gas state *)
Lemma Gas_ConsumeGas_wf (s s' : Gas.State) g : Gas.wf s -> is_u64 g ->
  Gas.ConsumeGas s g = Ok s' -> Gas.wf s' /\ Gas.Capacity s' <= Gas.Capacity s.
Proof.
  intros Hs Hg. rewrite Gas.ConsumeGas_spec by done. destruct Hs.
  destruct (Z.leb_spec g (Gas.Capacity s)); [|done]. intros [= <-]. cbn.
  split; [split; cbn|]; ulia.
Qed.

(** [ConsumeGas] takes both amounts or none: it succeeds exactly when the
    capacity covers their sum, which it then moves from the capacity to the
    excess. *)
Theorem ConsumeGas_all_or_nothing (s : State) (gasUsed : Z) (extra : option Z) :
  wf s -> is_u64 gasUsed -> (forall e, extra = Some e -> 0 <= e) ->
  let total := gasUsed + default 0 extra in
  ConsumeGas s gasUsed extra =
    if total <=? Gas.Capacity (GasState s) then
      Ok (mkState (Gas.mkState (Gas.Capacity (GasState s) - total)
           (Z.min (Gas.Excess (GasState s) + total) MaxUint64)) (TargetExcess s))
    else Err Gas.ErrInsufficientCapacity.
Proof.
  intros [Hg _] Hu He total. unfold ConsumeGas. rewrite Gas.ConsumeGas_spec by done.
  destruct Hg as [Hc Hx]. destruct extra as [e|]; cbn [default] in total; cycle 1.
  { subst total. rewrite Z.add_0_r. by destruct (gasUsed <=? _). }
  specialize (He e eq_refl). subst total. cbn [from_option id].
  destruct (Z.leb_spec gasUsed (Gas.Capacity (GasState s))); cbn [mbind result_bind];
    [|destruct (Z.leb_spec (gasUsed + e) (Gas.Capacity (GasState s))); [lia|done]].
  rewrite (proj2 (Z.leb_le 0 e)) by done.
  destruct (Z.leb_spec e MaxUint64); cbn [andb negb]; cycle 1.
  { destruct (Z.leb_spec (gasUsed + e) (Gas.Capacity (GasState s))); [ulia|done]. }
  rewrite Gas.ConsumeGas_spec; [|split; cbn; ulia|ulia]. cbn [Gas.Capacity Gas.Excess].
  destruct (Z.leb_spec e (Gas.Capacity (GasState s) - gasUsed));
    destruct (Z.leb_spec (gasUsed + e) (Gas.Capacity (GasState s))); try lia; [|done].
  cbn [mbind result_bind]. do 3 f_equal; unfold MaxUint64; lia.
Qed.

(** The operations of a block on the state. *)
Inductive op :=
  | OpAdvanceSeconds (seconds : Z)
  | OpAdvanceMilliseconds (milliseconds : Z)
  | OpConsumeGas (gasUsed : Z) (extraGasUsed : option Z)
  | OpUpdateTargetExcess (desired : Z).

Inductive step (p : Params) : State -> State -> Prop :=
  | step_seconds s n : is_u64 n -> step p s (AdvanceSecondsWith s p n)
  | step_milliseconds s n : is_u64 n -> step p s (AdvanceMillisecondsWith s p n)
  | step_consume s g e s' : is_u64 g -> ConsumeGas s g e = Ok s' -> step p s s'
  | step_update s d : is_u64 d -> step p s (UpdateTargetExcessWith s p d).

Definition inv (p : Params) (s : State) : Prop :=
  wf s /\ Gas.Capacity (GasState s) <= MaxCapacityWith s p.

Lemma advance_inv s p rate target n : wf s -> params_wf p -> is_u64 rate -> is_u64 target ->
  is_u64 n -> inv p (mkState (Gas.AdvanceTime (GasState s)
    (mulWithUpperBound (mulWithUpperBound (TargetWith s p) (TargetToMax p))
      (TimeToFillCapacity p)) rate target n) (TargetExcess s)).
Proof.
  intros Hs Hp Hr Ht Hn. pose proof (TargetWith_u64 s p Hs Hp) as Htw.
  split; [split; [|apply Hs]|].
  - apply Gas.AdvanceTime_wf; auto 6 with go. apply Hs.
  - unfold MaxCapacityWith. rewrite <- max_capacity_assoc by auto with go.
    cbn [GasState Gas.AdvanceTime Gas.Capacity]. apply Z.le_min_r.
Qed.

Lemma ConsumeGas_inv s p g e s' : inv p s -> is_u64 g -> ConsumeGas s g e = Ok s' -> inv p s'.
Proof.
  intros [[Hg Ht] Hc] Hu He. unfold ConsumeGas in He.
  apply bind_ok in He as (g1 & H1 & He). apply Gas_ConsumeGas_wf in H1 as [W1 C1]; [|done..].
  destruct e as [e|]; cycle 1.
  { injection He as <-. split; [done|]. unfold MaxCapacityWith, TargetWith in *. cbn in *. lia. }
  destruct (Z.leb_spec 0 e), (Z.leb_spec e MaxUint64); try done. cbn in He.
  apply bind_ok in He as (g2 & H2 & He). apply Gas_ConsumeGas_wf in H2 as [W2 C2]; [|done|ulia].
  injection He as <-. split; [done|]. unfold MaxCapacityWith, TargetWith in *. cbn in *. lia.
Qed.

(** on every sequence of the operations of blocks the fields stay in the range
    of [uint64] and the gas capacity never exceeds the maximum capacity of the
    current target, however the target moves. *)
Theorem capacity_invariant (p : Params) (s s' : State) :
  params_wf p -> inv p s -> rtc (step p) s s' ->
  wf s' /\ Gas.Capacity (GasState s') <= MaxCapacityWith s' p.
Proof.
  intros Hp Hi. induction 1 as [s|s s1 s2 Hst _ IH]; [done|]. apply IH. clear IH.
  destruct Hi as [Hs Hc]. pose proof (TargetWith_u64 s p Hs Hp).
  destruct Hst as [s n Hn|s n Hn|s g e s' Hg He|s d Hd].
  - apply advance_inv; auto with go.
  - assert (is_u64 (TargetWith s p / 1000)) by (split; [apply Z.div_pos|apply Z.div_lt_upper_bound]; ulia).
    apply advance_inv; try done. by apply wrap_uint.
  - by apply (ConsumeGas_inv s p g e).
  - split; [by apply UpdateTargetExcessWith_wf|]. cbn [UpdateTargetExcessWith GasState Gas.Capacity].
    apply Z.le_min_r.
Qed.

(** The comment of [AdvanceMillisecondsWith]: the rate does not wrap. *)
Lemma maxPerMS_no_wrap s p : wf s -> params_wf p -> TargetToMax p <= 1000 ->
  wrap64 (TargetWith s p / 1000 * TargetToMax p) = TargetWith s p / 1000 * TargetToMax p.
Proof.
  intros Hs Hp Hm. apply wrap_small. pose proof (TargetWith_u64 s p Hs Hp) as Ht.
  pose proof (pw_max p Hp). pose proof (Z.mul_div_le (TargetWith s p) 1000 ltac:(done)).
  assert (0 <= TargetWith s p / 1000) by (apply Z.div_pos; ulia).
  unfold is_uint in *. nia.
Qed.
End ops.

(** ** Concrete inputs *)
Definition s0 : State := mkState (Gas.mkState 1000 70000) 4000.

Lemma s0_wf : wf s0.
Proof. by repeat split. Qed.

Lemma Target_s0 : 0 < TargetWith s0 DefaultParams.
Proof.
  pose proof (CalculatePrice_bounds 1000000 4000 (1024 * 2 ^ 15) ltac:(done) ltac:(done)
    ltac:(done) ltac:(done)). unfold TargetWith. cbn in *. lia.
Qed.

Lemma s0_inv : inv DefaultParams s0.
Proof.
  split; [apply s0_wf|]. unfold MaxCapacityWith.
  pose proof (TargetWith_u64 s0 _ s0_wf DefaultParams_wf) as Ht. pose proof Target_s0 as H0.
  pose proof (CalculatePrice_bounds 1000000 4000 (1024 * 2 ^ 15) ltac:(done) ltac:(done)
    ltac:(done) ltac:(done)) as Hb. change (CalculatePrice _ _ _) with (TargetWith s0 DefaultParams) in Hb.
  change (mulWithUpperBound (TargetToMax _) _) with 10.
  rewrite mulWithUpperBound_spec by done. cbn [s0 GasState Gas.Capacity]. ulia.
Qed.

Lemma state_roundtrip_witness :
  length (Bytes s0) = StateSize /\ Forall is_byte (Bytes s0) /\
  ParseState (Bytes s0 ++ [1; 2]) = Ok s0 /\ ParseState [3; 4] = Err ErrStateInsufficientLength.
Proof.
  destruct (state_roundtrip s0 [1; 2] [3; 4]) as (H1 & H2 & H3 & H4 & _);
    [apply s0_wf|by apply (bool_decide_unpack _)..|].
  by repeat split.
Defined.

Lemma UpdateTargetExcess_correct_witness :
  TargetExcess (Nat.iter 3 (fun s => UpdateTargetExcessWith s DefaultParams 90000) s0) = 90000.
Proof.
  apply (UpdateTargetExcess_correct s0 DefaultParams 90000 3 s0_wf DefaultParams_wf);
    [done|apply Target_s0|done].
Defined.

Lemma DesiredTargetExcess_least_witness :
  0 <= DesiredTargetExcess 2000000 <= maxTargetExcess.
Proof. apply (DesiredTargetExcess_least DefaultParams 2000000). apply DefaultParams_wf. Defined.

Lemma ConsumeGas_all_or_nothing_witness :
  ConsumeGas s0 600 (Some 400) = Ok (mkState (Gas.mkState 0 71000) 4000) /\
  ConsumeGas s0 600 (Some 401) = Err Gas.ErrInsufficientCapacity.
Proof.
  split; (etransitivity; [apply ConsumeGas_all_or_nothing; [apply s0_wf|done|by intros e [= <-]]|done]).
Defined.

Lemma capacity_invariant_witness :
  let s := UpdateTargetExcess (AdvanceSeconds s0 7) 12 in
  wf s /\ Gas.Capacity (GasState s) <= MaxCapacity s.
Proof.
  apply (capacity_invariant DefaultParams s0); [apply DefaultParams_wf|apply s0_inv|].
  eapply rtc_l; [by apply (step_seconds _ _ 7)|]. apply rtc_once. by apply (step_update _ _ 12).
Defined.
End Acp176.

Module Acp226.
Import SafeMath GasPrice SortSearch.
Import Gas (CalculatePrice).

Definition MinDelayMilliseconds : Z := 1.
Definition ConversionRate : Z := Z.shiftl 1 20.
Definition MaxDelayExcessDiff : Z := 200.
Definition InitialDelayExcess : Z := 7970124.
Definition maxDelayExcess : Z := 46516320.

(** A [DelayExcess] is a [uint64]. *)
Definition calculateDelayExcess (excess desired : Z) : Z :=
  let change := AbsDiff 64 excess desired in
  let change := Z.min change MaxDelayExcessDiff in
  if excess <? desired then wrap64 (excess + change) else wrap64 (excess - change).

Definition UpdateDelayExcess (t desiredDelayExcess : Z) : Z :=
  calculateDelayExcess t desiredDelayExcess.

Section ops.
Context `{Uint256}.

Definition Delay (t : Z) : Z := CalculatePrice MinDelayMilliseconds t ConversionRate.

Definition DesiredDelayExcess (desiredDelay : Z) : Z :=
  Search maxDelayExcess (fun delayExcessGuess => desiredDelay <=? Delay delayExcessGuess).

Lemma Delay_mono x y : is_u64 x -> is_u64 y -> x <= y -> Delay x <= Delay y.
Proof. intros. by apply CalculatePrice_mono. Qed.

(** the delay excess moves to the value closest to the desired one within the
    maximum change per block, in either direction; the delay is at least the
    minimum delay; and the excess [DesiredDelayExcess] picks is the smallest one
    below the bound whose delay reaches the desired delay. *)
Theorem delay_excess_correct (t desired desiredDelay : Z) :
  is_u64 t -> is_u64 desired ->
  let r := DesiredDelayExcess desiredDelay in
  UpdateDelayExcess t desired =
    Z.max (t - MaxDelayExcessDiff) (Z.min desired (t + MaxDelayExcessDiff)) /\
  MinDelayMilliseconds <= Delay t <= MaxUint64 /\
  0 <= r <= maxDelayExcess /\ (forall x, 0 <= x < r -> Delay x < desiredDelay) /\
  (r < maxDelayExcess -> desiredDelay <= Delay r).
Proof.
  intros Ht Hd r. split; [|split; [by apply CalculatePrice_bounds|]].
  - by apply (Acp176.targetExcess_spec t desired MaxDelayExcessDiff).
  - destruct (Search_spec (fun x => desiredDelay <=? Delay x) 46516320) as (H1 & H2 & H3).
    + intros x y Hxy Hy Hf. apply Z.leb_le in Hf. apply Z.leb_le.
      pose proof (Delay_mono x y ltac:(ulia) ltac:(ulia) ltac:(lia)). lia.
    + lia.
    + split; [exact H1|]. split.
      * intros x Hx. specialize (H2 x Hx). cbv beta in H2. by apply Z.leb_gt in H2.
      * intros Hr. specialize (H3 Hr). cbv beta in H3. by apply Z.leb_le in H3.
Qed.
End ops.

Lemma delay_excess_correct_witness :
  UpdateDelayExcess InitialDelayExcess 0 = 7969924 /\ UpdateDelayExcess 7 100 = 100.
Proof.
  split; (etransitivity; [apply (delay_excess_correct _ _ 5); done|done]).
Defined.
End Acp226.
