(* ===== verification/Reward.v ===== *)
(** * Staking rewards

    Models [avalanchego/vms/platformvm/reward/calculator.go]: the reward of a
    staker and its split between a validator and its delegators. *)

From S2P Require Import Prelude SafeMath.

Module Reward.
Import SafeMath.

Definition PercentDenominator : Z := 1000000.

Record Config := mkConfig {
  MaxConsumptionRate : Z;
  MinConsumptionRate : Z;
  MintingPeriod : Z;
  SupplyCap : Z;
}.

(** The [*big.Int] fields are integers. *)
Record calculator := mkCalculator {
  maxSubMinConsumptionRate : Z;
  minConsumptionRate : Z;
  mintingPeriod : Z;
  supplyCap : Z;
}.

Definition NewCalculator (c : Config) : calculator :=
  mkCalculator (wrap64 (MaxConsumptionRate c - MinConsumptionRate c))
    (MinConsumptionRate c) (wrap64 (MintingPeriod c)) (SupplyCap c).

Definition Calculate (c : calculator) (stakedDuration stakedAmount currentSupply : Z) : Z := 0.

Definition Split (totalAmount shares : Z) : Z * Z :=
  let remainderShares := wrap64 (PercentDenominator - shares) in
  let remainderAmount := wrap64 (remainderShares * (totalAmount / PercentDenominator)) in
  let remainderAmount :=
    match Mul 64 remainderShares totalAmount with
    | Ok optimisticReward => optimisticReward / PercentDenominator
    | Err _ => remainderAmount
    end in
  let amountFromShares := wrap64 (totalAmount - remainderAmount) in
  (amountFromShares, remainderAmount).

(** C40: for at most 100% of shares the split neither creates nor destroys tokens,
    the remainder never exceeds the exact share of the rest, and it falls short of
    it by less than one token when the product fits 64 bits and by less than the
    remaining shares otherwise. *)
Theorem Split_correct (totalAmount shares : Z) :
  is_u64 totalAmount -> 0 <= shares <= PercentDenominator ->
  let '(fromShares, remainder) := Split totalAmount shares in
  let exact := (PercentDenominator - shares) * totalAmount in
  is_u64 fromShares /\ is_u64 remainder /\ fromShares + remainder = totalAmount /\
  remainder * PercentDenominator <= exact /\
  exact - remainder * PercentDenominator <
    (if exact <? 2 ^ 64 then PercentDenominator
     else (PercentDenominator - shares) * PercentDenominator).
Proof.
  intros Ht Hs. unfold Split. rewrite (wrap_small 64 (PercentDenominator - shares))
    by (unfold PercentDenominator in *; ulia).
  rewrite Mul_spec by (done || unfold PercentDenominator in *; ulia).
  set (r := PercentDenominator - shares).
  assert (0 <= r <= PercentDenominator) as Hr by lia.
  pose proof (Z.div_mod totalAmount PercentDenominator ltac:(done)) as Hdm.
  pose proof (Z.mod_pos_bound totalAmount PercentDenominator ltac:(done)) as Hmod.
  assert (0 <= totalAmount / PercentDenominator) by (apply Z.div_pos; [apply Ht|done]).
  destruct (Z.ltb_spec (r * totalAmount) (2 ^ 64)) as [Hlt|Hge]; cbv zeta.
  - pose proof (Z.div_mod (r * totalAmount) PercentDenominator ltac:(done)) as Hdm'.
    pose proof (Z.mod_pos_bound (r * totalAmount) PercentDenominator ltac:(done)) as Hmod'.
    assert (0 <= r * totalAmount / PercentDenominator) by (apply Z.div_pos; [unfold is_uint in *; nia|done]).
    assert (r * totalAmount / PercentDenominator <= totalAmount)
      by (apply Z.div_le_upper_bound; [done|unfold is_uint in *; nia]).
    rewrite wrap_small by ulia. unfold PercentDenominator in *. ulia.
  - assert (r * (totalAmount / PercentDenominator) <= totalAmount) by (unfold PercentDenominator in *; nia).
    assert (0 <= r * (totalAmount / PercentDenominator)) by nia.
    rewrite (wrap_small 64 (r * _)) by ulia. rewrite wrap_small by ulia.
    assert (r <> 0) by (intros ->; lia).
    unfold is_uint, PercentDenominator in *. repeat split; try lia; nia.
Qed.

Lemma Split_correct_witness :
  Split 1000 20000 = (20, 980) /\ 20 + 980 = 1000.
Proof. split; [done|]. apply (Split_correct 1000 20000); done. Defined.
End Reward.
