(* ===== verification/LinkedList.v ===== *)
(** * Doubly linked lists

    Models [avalanchego/utils/linked/list.go]: lists with a sentinel whose
    elements are linked by pointers.  The model keeps the store: elements are
    reached through their addresses, every field is read from the store and
    written to it, and a nil dereference is an error.  [rep m l xs] says that in
    the store [m] the list [l] holds the elements [xs] in this order; the
    operations are proved against it. *)
From S2P Require Import Prelude Monads.

Module LinkedList.

Abbreviation loc := positive.

Inductive PtrErr := NilDeref.

Section model.
Context {V : Type}.

(** A list is named by the address of its sentinel. *)
Record ListElement := mkElem {
  next : option loc;
  prev : option loc;
  elist : option loc;
  Value : V;
}.

(** The store: the elements and the [length] of every list. *)
Record mem := mkMem { elems : gmap loc ListElement; lengths : gmap loc Z }.

Abbreviation ML := (M mem PtrErr).

Definition load (x : loc) : ML ListElement := m ← get; must NilDeref (elems m !! x).
Definition deref (p : option loc) : ML loc := must NilDeref p.

Definition upd (f : ListElement -> ListElement) (x : loc) : ML unit :=
  load x;; modify (fun m => mkMem (alter f x (elems m)) (lengths m)).

Definition set_next (p : option loc) : loc -> ML unit :=
  upd (fun e => mkElem p (prev e) (elist e) (Value e)).
Definition set_prev (p : option loc) : loc -> ML unit :=
  upd (fun e => mkElem (next e) p (elist e) (Value e)).
Definition set_list (p : option loc) : loc -> ML unit :=
  upd (fun e => mkElem (next e) (prev e) p (Value e)).
Definition set_Value (v : V) : loc -> ML unit :=
  upd (fun e => mkElem (next e) (prev e) (elist e) v).
Definition add_length (l : loc) (d : Z) : ML unit :=
  modify (fun m => mkMem (elems m) (alter (Z.add d) l (lengths m))).

(** [&ListElement{Value: v}] *)
Definition alloc (v : V) : ML loc :=
  m ← get;
  let x := fresh (dom (elems m)) in
  modify (fun m => mkMem (<[x := mkElem None None None v]> (elems m)) (lengths m));;
  mret x.

Definition Next (e : loc) : ML (option loc) :=
  x ← load e;
  mret (match elist x with
        | Some l => if bool_decide (next x = Some l) then None else next x
        | None => None
        end).

Definition Prev (e : loc) : ML (option loc) :=
  x ← load e;
  mret (match elist x with
        | Some l => if bool_decide (prev x = Some l) then None else prev x
        | None => None
        end).

Definition NewList `{Inhabited V} : ML loc :=
  l ← alloc inhabitant;
  modify (fun m => mkMem (elems m) (<[l := 0]> (lengths m)));;
  set_next (Some l) l;;
  set_prev (Some l) l;;
  set_list (Some l) l;;
  mret l.

Definition Len (l : loc) : ML Z := m ← get; must NilDeref (lengths m !! l).

Definition Front (l : loc) : ML (option loc) :=
  n ← Len l;
  if n =? 0 then mret None else s ← load l; mret (next s).

Definition Back (l : loc) : ML (option loc) :=
  n ← Len l;
  if n =? 0 then mret None else s ← load l; mret (prev s).

(** [e.prev.next = e.next; e.next.prev = e.prev] *)
Definition unlink (e : loc) : ML unit :=
  x ← load e; p ← deref (prev x); set_next (next x) p;;
  x ← load e; n ← deref (next x); set_prev (prev x) n.

(** [e.prev = location; e.next = location.next; e.prev.next = e; e.next.prev = e] *)
Definition link (e location : loc) : ML unit :=
  set_prev (Some location) e;;
  y ← load location; set_next (next y) e;;
  x ← load e; p ← deref (prev x); set_next (Some e) p;;
  x ← load e; n ← deref (next x); set_prev (Some e) n.

Definition Remove (l e : loc) : ML unit :=
  x ← load e;
  if bool_decide (elist x = Some l) then
    unlink e;; set_next None e;; set_prev None e;; set_list None e;; add_length l (-1)
  else mret tt.

Definition insertAfter (l e location : loc) : ML unit :=
  x ← load e;
  if bool_decide (elist x = None) then
    link e location;; set_list (Some l) e;; add_length l 1
  else mret tt.

Definition moveAfter (l e location : loc) : ML unit :=
  x ← load e;
  y ← load location;
  if bool_decide (elist x <> Some l \/ elist y <> Some l \/ e = location) then mret tt
  else unlink e;; link e location.

Definition PushFront (l e : loc) : ML unit := insertAfter l e l.

Definition PushBack (l e : loc) : ML unit :=
  s ← load l; p ← deref (prev s); insertAfter l e p.

Definition InsertBefore (l e location : loc) : ML unit :=
  y ← load location;
  if bool_decide (elist y = Some l) then p ← deref (prev y); insertAfter l e p
  else mret tt.

Definition InsertAfter (l e location : loc) : ML unit :=
  y ← load location;
  if bool_decide (elist y = Some l) then insertAfter l e location else mret tt.

Definition MoveToFront (l e : loc) : ML unit :=
  s ← load l;
  if bool_decide (Some e <> next s) then moveAfter l e l else mret tt.

Definition MoveToBack (l e : loc) : ML unit :=
  s ← load l; p ← deref (prev s); moveAfter l e p.

(** The pointer that a nil [location.prev] passes on is only compared: [moveAfter]
    of [nil] dereferences it. *)
Definition MoveBefore (l e location : loc) : ML unit :=
  if bool_decide (e <> location) then
    y ← load location;
    match prev y with
    | Some p => moveAfter l e p
    | None =>
        x ← load e;
        if bool_decide (elist x <> Some l) then mret tt else fail NilDeref
    end
  else mret tt.

Definition MoveAfter (l e location : loc) : ML unit := moveAfter l e location.

(** The package-level functions allocate the element. *)
Definition PushFront_value (l : loc) (v : V) : ML unit := e ← alloc v; PushFront l e.
Definition PushBack_value (l : loc) (v : V) : ML unit := e ← alloc v; PushBack l e.
Definition InsertBefore_value (l : loc) (v : V) (location : loc) : ML unit :=
  e ← alloc v; InsertBefore l e location.
Definition InsertAfter_value (l : loc) (v : V) (location : loc) : ML unit :=
  e ← alloc v; InsertAfter l e location.

(** ** The fields of the store as functions *)
Definition nxt (m : mem) (x : loc) : option loc := elems m !! x ≫= next.
Definition prv (m : mem) (x : loc) : option loc := elems m !! x ≫= prev.
Definition own (m : mem) (x : loc) : option loc := elems m !! x ≫= elist.
Definition val (m : mem) (x : loc) : option V := Value <$> elems m !! x.
Definition live (m : mem) (x : loc) : Prop := is_Some (elems m !! x).

(** [f] with the value [v] at [x]. *)
Definition put {A} (x : loc) (v : A) (f : loc -> A) : loc -> A :=
  fun y => if decide (y = x) then v else f y.

Lemma put_eq {A} x (v : A) f : put x v f x = v.
Proof. unfold put. by rewrite decide_True. Qed.
Lemma put_ne {A} x y (v : A) f : y <> x -> put x v f y = f y.
Proof. intros. unfold put. by rewrite decide_False. Qed.

(** [m'] has the pointers [N], [P] and [L] and otherwise the contents of [m]. *)
Record like (m m' : mem) (N P L : loc -> option loc) : Prop := {
  like_nxt x : nxt m' x = N x;
  like_prv x : prv m' x = P x;
  like_own x : own m' x = L x;
  like_val x : val m' x = val m x;
  like_live x : live m' x <-> live m x;
  like_len : lengths m' = lengths m;
}.

Lemma like_refl m : like m m (nxt m) (prv m) (own m).
Proof. by split. Qed.

Lemma live_load {ok} m x (Q : ListElement -> mem -> Prop) : live m x ->
  (forall e, elems m !! x = Some e -> next e = nxt m x -> prev e = prv m x ->
     elist e = own m x -> Some (Value e) = val m x -> Q e m) ->
  wp ok (load x) Q m.
Proof.
  intros [e He] HQ. unfold load. wp_steps. apply wp_must. exists e. split; [done|].
  unfold nxt, prv, own, val in HQ. rewrite He in HQ. by apply HQ.
Qed.

Ltac solve_upd x y e He :=
  unfold nxt, prv, own, val, live, put; cbn [elems];
  destruct (decide (y = x)) as [->|];
  [rewrite lookup_alter_eq, He; cbn; rewrite ?He; try done; split; intros; by eexists
  |by rewrite ?lookup_alter_ne by congruence].

Lemma wp_set_next {ok} p x m Q : live m x ->
  (forall m', like m m' (put x p (nxt m)) (prv m) (own m) -> Q tt m') ->
  wp ok (set_next p x) Q m.
Proof.
  intros Hx HQ. unfold set_next, upd. wp_steps. apply live_load; [done|].
  intros e He _ _ _ _. apply wp_modify, HQ. split; intros; try done; solve_upd x x0 e He.
Qed.

Lemma wp_set_prev {ok} p x m Q : live m x ->
  (forall m', like m m' (nxt m) (put x p (prv m)) (own m) -> Q tt m') ->
  wp ok (set_prev p x) Q m.
Proof.
  intros Hx HQ. unfold set_prev, upd. wp_steps. apply live_load; [done|].
  intros e He _ _ _ _. apply wp_modify, HQ. split; intros; try done; solve_upd x x0 e He.
Qed.

Lemma wp_set_list {ok} p x m Q : live m x ->
  (forall m', like m m' (nxt m) (prv m) (put x p (own m)) -> Q tt m') ->
  wp ok (set_list p x) Q m.
Proof.
  intros Hx HQ. unfold set_list, upd. wp_steps. apply live_load; [done|].
  intros e He _ _ _ _. apply wp_modify, HQ. split; intros; try done; solve_upd x x0 e He.
Qed.

(** ** Unlinking and linking *)
Lemma wp_unlink {ok} e a c m Q : live m e -> live m a -> live m c -> a <> e ->
  prv m e = Some a -> nxt m e = Some c ->
  (forall m', like m m' (put a (Some c) (nxt m)) (put c (Some a) (prv m)) (own m) -> Q tt m') ->
  wp ok (unlink e) Q m.
Proof.
  intros He Ha Hc Hae Hp Hn HQ. unfold unlink. wp_steps. apply live_load; [done|].
  intros x _ Hx1 Hx2 _ _. unfold deref. wp_steps. apply wp_must. exists a.
  split; [congruence|]. wp_steps. apply wp_set_next; [done|]. intros m1 [N1 P1 O1 V1 L1 E1].
  wp_steps. apply live_load; [by apply L1|]. intros x' _ Hx1' Hx2' _ _. wp_steps.
  rewrite N1, put_ne in Hx1' by done. rewrite P1 in Hx2'.
  apply wp_must. exists c. split; [congruence|]. apply wp_set_prev; [by apply L1|].
  intros m2 [N2 P2 O2 V2 L2 E2]. apply HQ. split; intros.
  - rewrite N2, N1. congruence.
  - rewrite P2, Hx2', Hp. unfold put. by rewrite P1.
  - by rewrite O2.
  - by rewrite V2.
  - by rewrite L2.
  - by rewrite E2.
Qed.

Lemma wp_link {ok} e a c m Q : live m e -> live m a -> live m c -> a <> e -> c <> e ->
  nxt m a = Some c ->
  (forall m', like m m' (put a (Some e) (put e (Some c) (nxt m)))
     (put c (Some e) (put e (Some a) (prv m))) (own m) -> Q tt m') ->
  wp ok (link e a) Q m.
Proof.
  intros He Ha Hc Hae Hce Hn HQ. unfold link. wp_steps. apply wp_set_prev; [done|].
  intros m1 [N1 P1 O1 V1 L1 E1]. wp_steps. apply live_load; [by apply L1|].
  intros y _ Hy _ _ _. wp_steps. rewrite Hy, N1, Hn.
  apply wp_set_next; [by apply L1|]. intros m2 [N2 P2 O2 V2 L2 E2]. wp_steps.
  assert (forall x, live m2 x <-> live m x) as L2' by (intros; by rewrite L2, L1).
  apply live_load; [by apply L2'|]. intros x _ _ Hx _ _. unfold deref. wp_steps.
  rewrite P2, P1, put_eq in Hx. apply wp_must. exists a. split; [done|]. wp_steps.
  apply wp_set_next; [by apply L2'|]. intros m3 [N3 P3 O3 V3 L3 E3].
  assert (forall x, live m3 x <-> live m x) as L3' by (intros; by rewrite L3, L2').
  wp_steps. apply live_load; [by apply L3'|]. intros z _ Hz _ _ _. wp_steps.
  rewrite N3, put_ne, N2, put_eq in Hz by done.
  apply wp_must. exists c. split; [done|]. apply wp_set_prev; [by apply L3'|].
  intros m4 [N4 P4 O4 V4 L4 E4]. apply HQ. split; intros.
  - rewrite N4, N3. unfold put. rewrite N2. unfold put. by rewrite N1.
  - rewrite P4. unfold put. rewrite P3, P2, P1. done.
  - by rewrite O4, O3, O2, O1.
  - by rewrite V4, V3, V2, V1.
  - by rewrite L4, L3'.
  - by rewrite E4, E3, E2, E1.
Qed.

(** ** Chains *)
Definition linked (N P : loc -> option loc) (ys : list loc) : Prop :=
  forall ys1 p q ys2, ys = ys1 ++ p :: q :: ys2 -> N p = Some q /\ P q = Some p.

Lemma linked_app N P A a B :
  linked N P (A ++ a :: B) <-> linked N P (A ++ [a]) /\ linked N P (a :: B).
Proof.
  split.
  - intros H. split; intros ys1 p q ys2 E.
    + apply (H ys1 p q (ys2 ++ B)). rewrite (cons_middle a A B), app_assoc, E. by rewrite <- app_assoc.
    + apply (H (A ++ ys1) p q ys2). by rewrite E, <- app_assoc.
  - intros [H1 H2] ys1 p q ys2 E.
    apply app_eq_inv in E as [(k & -> & E)|(k & -> & E)].
    + destruct k as [|x k]; injection E as E1 E; subst;
        [by apply (H2 [] a q ys2)|].
      destruct k as [|y k]; injection E as E1 E; subst.
      * apply (H1 ys1 x a []). by rewrite <- app_assoc.
      * apply (H1 ys1 x y (k ++ [a])). by rewrite <- !app_assoc.
    + destruct k as [|x k]; cbn in E; injection E as E1 E; subst.
      * by apply (H2 [] p q ys2).
      * by apply (H2 (x :: k) p q ys2).
Qed.

Lemma linked_frame N P N' P' A a c C :
  NoDup (A ++ a :: removelast (c :: C)) -> NoDup (tail (A ++ [a]) ++ c :: C) ->
  (forall y, y <> a -> y ∈ A ++ c :: C -> N' y = N y) ->
  (forall y, y <> c -> y ∈ A ++ a :: C -> P' y = P y) ->
  linked N P (A ++ [a]) -> linked N P (c :: C) ->
  linked N' P' (A ++ [a]) /\ linked N' P' (c :: C).
Proof.
  intros Hs Ht HN HP H1 H2. rewrite NoDup_app in Hs, Ht.
  destruct Hs as (_ & Hs1 & Hs2). destruct Ht as (_ & Ht1 & Ht2).
  apply NoDup_cons in Hs2 as [Hs2 _]. apply NoDup_cons in Ht2 as [Ht2 _].
  split; intros ys1 p q ys2 E.
  - destruct (H1 _ _ _ _ E) as [Hn Hp].
    assert (p ∈ A) as HpA.
    { destruct ys2 as [|y ys2 _] using rev_ind.
      - rewrite (app_assoc _ [p] [q]) in E. apply app_inj_tail in E as [-> _]. set_solver.
      - rewrite app_comm_cons, app_comm_cons, app_assoc in E.
        apply app_inj_tail in E as [-> _]. set_solver. }
    assert (q ∈ tail (A ++ [a])) as HqA.
    { rewrite E. destruct ys1; cbn; set_solver. }
    assert (q ∈ A ++ [a]) as Hq' by (rewrite E; set_solver).
    split; [rewrite HN|rewrite HP]; try done; set_solver.
  - destruct (H2 _ _ _ _ E) as [Hn Hp].
    assert (q ∈ C) as HqC by (destruct ys1; injection E as -> ->; set_solver).
    assert (p ∈ removelast (c :: C)) as HpC.
    { rewrite E. rewrite removelast_app by done. cbn. set_solver. }
    assert (p ∈ c :: C) as Hp' by (rewrite E; set_solver).
    split; [rewrite HN|rewrite HP]; try done; set_solver.
Qed.

Lemma linked_unlink N P A a e c C :
  NoDup (A ++ a :: removelast (c :: C)) -> NoDup (tail (A ++ [a]) ++ c :: C) ->
  linked N P (A ++ a :: e :: c :: C) ->
  linked (put a (Some c) N) (put c (Some a) P) (A ++ a :: c :: C).
Proof.
  intros Hs Ht Hl. apply linked_app in Hl as [H1 Hl].
  apply (linked_app _ _ [a; e]) in Hl as [_ H2].
  destruct (linked_frame N P (put a (Some c) N) (put c (Some a) P) A a c C) as [H1' H2'];
    try done; try (intros; by apply put_ne).
  apply linked_app. split; [done|]. apply (linked_app _ _ [a] c C). split; [|done].
  intros [|x [|y ys1]] p q ys2 E; cbn in E; simplify_eq; [|by destruct ys1]. by rewrite !put_eq.
Qed.

Lemma linked_link N P A a e c C :
  NoDup (A ++ a :: removelast (c :: C)) -> NoDup (tail (A ++ [a]) ++ c :: C) ->
  e ∉ A ++ a :: c :: C -> linked N P (A ++ a :: c :: C) ->
  linked (put a (Some e) (put e (Some c) N)) (put c (Some e) (put e (Some a) P))
    (A ++ a :: e :: c :: C).
Proof.
  intros Hs Ht He Hl. apply linked_app in Hl as [H1 Hl].
  apply (linked_app _ _ [a]) in Hl as [_ H2].
  destruct (linked_frame N P (put a (Some e) (put e (Some c) N))
    (put c (Some e) (put e (Some a) P)) A a c C) as [H1' H2']; try done;
    [intros y ? Hy; rewrite !put_ne; set_solver..|].
  apply linked_app. split; [done|]. apply (linked_app _ _ [a; e] c C). split; [|done].
  assert (a <> e /\ c <> e) as [Hae Hce] by set_solver.
  intros [|x [|y [|z ys1]]] p q ys2 E; cbn in E; simplify_eq; try by destruct ys1.
  - rewrite put_eq, put_ne by done. by rewrite put_eq.
  - rewrite put_ne by done. by rewrite !put_eq.
Qed.
End model.
End LinkedList.

(** ** Doubly linked lists: refinement of sequences

    [rep m l xs]: in the store [m] the list [l] holds exactly the elements [xs],
    linked in this order in both directions.  Every operation of
    [avalanchego/utils/linked/list.go] acts on [xs] as its documentation says,
    leaves the other lists of the store alone and dereferences no nil pointer. *)
Module LinkedListFacts.
Import LinkedList.

Section facts.
Context {V : Type}.
Abbreviation mem := (@mem V).

(** ** Chains *)
Definition chain (m : mem) (l : loc) (xs : list loc) : Prop :=
  NoDup (l :: xs) /\ (forall x, x ∈ l :: xs -> live m x) /\
  linked (nxt m) (prv m) (l :: xs ++ [l]).

(** [m'] differs from [m] in the links of the elements [S] only. *)
Record within (S : list loc) (m m' : mem) : Prop := {
  within_nxt x : x ∉ S -> nxt m' x = nxt m x;
  within_prv x : x ∉ S -> prv m' x = prv m x;
  within_own x : own m' x = own m x;
  within_val x : val m' x = val m x;
  within_live x : live m' x <-> live m x;
  within_len : lengths m' = lengths m;
}.

Lemma like_within S m m' N P : like m m' N P (own m) ->
  (forall x, x ∉ S -> N x = nxt m x) -> (forall x, x ∉ S -> P x = prv m x) -> within S m m'.
Proof. intros [] HN HP. split; intros; try done; rewrite <- ?HN, <- ?HP by done; done. Qed.

Lemma linked_ext N P N' P' ys : (forall x, x ∈ ys -> N' x = N x /\ P' x = P x) ->
  linked N P ys -> linked N' P' ys.
Proof.
  intros He Hl ys1 p q ys2 E. destruct (Hl _ _ _ _ E).
  destruct (He p) as [-> _]; [rewrite E; set_solver|].
  destruct (He q) as [_ ->]; [rewrite E; set_solver|]. done.
Qed.

Lemma chain_frame S m m' l xs : within S m m' -> (forall x, x ∈ l :: xs -> x ∉ S) ->
  chain m l xs -> chain m' l xs.
Proof.
  intros [] HS (Hd & Hl & Hk). split; [done|]. split; [set_solver|].
  eapply linked_ext; [|done]. intros x Hx.
  assert (x ∈ l :: xs) by set_solver. auto.
Qed.

(** The neighbours of a position of the list, the sentinel included. *)
Lemma neighbours (l : loc) xs1 xs2 : exists A a c C,
  l :: xs1 = A ++ [a] /\ xs2 ++ [l] = c :: C /\ last (l :: xs1) = Some a /\
  head (xs2 ++ [l]) = Some c.
Proof.
  destruct (exists_last (l := l :: xs1)) as (A & a & HA); [done|].
  destruct (xs2 ++ [l]) as [|c C] eqn:HC; [by destruct xs2|].
  exists A, a, c, C. rewrite HA. by rewrite last_snoc.
Qed.

Lemma neighbours_nodup (l : loc) xs1 xs2 A a c C :
  NoDup (l :: xs1 ++ xs2) -> l :: xs1 = A ++ [a] -> xs2 ++ [l] = c :: C ->
  NoDup (A ++ a :: removelast (c :: C)) /\ NoDup (tail (A ++ [a]) ++ c :: C).
Proof.
  intros Hd HA HC. rewrite <- HC, removelast_last, <- HA, cons_middle, app_assoc, <- HA.
  split; [done|]. cbn [tail]. rewrite app_assoc. by rewrite <- Permutation_cons_append.
Qed.

Lemma chain_neighbours m l xs1 e xs2 A a c C : chain m l (xs1 ++ e :: xs2) ->
  l :: xs1 = A ++ [a] -> xs2 ++ [l] = c :: C ->
  linked (nxt m) (prv m) (A ++ a :: e :: c :: C) /\ prv m e = Some a /\ nxt m e = Some c.
Proof.
  intros (_ & _ & Hk) HA HC.
  assert (l :: (xs1 ++ e :: xs2) ++ [l] = A ++ a :: e :: c :: C) as E.
  { rewrite <- app_assoc. cbn. rewrite HC, app_comm_cons, HA. by rewrite <- app_assoc. }
  rewrite E in Hk. split; [done|]. split.
  - by destruct (Hk A a e (c :: C)).
  - destruct (Hk (A ++ [a]) e c C); [by rewrite <- app_assoc|done].
Qed.

Lemma chain_head m l xs : chain m l xs -> nxt m l = Some (default l (head xs)).
Proof. intros (_ & _ & Hk). destruct xs as [|x xs]; by destruct (Hk [] _ _ _ eq_refl). Qed.

Lemma chain_last m l xs : chain m l xs -> prv m l = Some (default l (last xs)).
Proof.
  intros (_ & _ & Hk). destruct xs as [|x xs _] using rev_ind; [by destruct (Hk [] _ _ _ eq_refl)|].
  destruct (Hk (l :: xs) x l []) as [_ ->]; [by rewrite <- app_assoc|]. by rewrite last_snoc.
Qed.

Lemma wp_chain_unlink {ok} m l xs1 e xs2 Q : chain m l (xs1 ++ e :: xs2) ->
  (forall m', chain m' l (xs1 ++ xs2) -> within (l :: xs1 ++ xs2) m m' -> Q tt m') ->
  wp ok (unlink e) Q m.
Proof.
  intros Hc HQ. destruct (neighbours l xs1 xs2) as (A & a & c & C & HA & HC & _ & _).
  destruct (chain_neighbours _ _ _ _ _ _ _ _ _ Hc HA HC) as (Hk & Hp & Hn).
  destruct Hc as (Hd & Hl & _).
  assert (NoDup (l :: xs1 ++ xs2) /\ e ∉ l :: xs1 ++ xs2) as [Hd' He].
  { rewrite app_comm_cons, <- (Permutation_middle (l :: xs1) xs2 e) in Hd. by apply NoDup_cons in Hd as [??]. }
  assert (a ∈ l :: xs1 ++ xs2) as Ha by (rewrite app_comm_cons, HA; set_solver).
  assert (c ∈ l :: xs1 ++ xs2) as Hc by (assert (c ∈ xs2 ++ [l]) by (rewrite HC; set_solver); set_solver).
  destruct (neighbours_nodup _ _ _ _ _ _ _ Hd' HA HC) as [H1 H2].
  apply (wp_unlink e a c); try (apply Hl; set_solver); try done; [set_solver|].
  intros m' Hm'. apply HQ.
  - split; [done|]. split; [intros x Hx; apply (like_live _ _ _ _ _ Hm'), Hl; set_solver|].
    replace (l :: (xs1 ++ xs2) ++ [l]) with (A ++ a :: c :: C)
      by (rewrite <- app_assoc, HC, app_comm_cons, HA; by rewrite <- app_assoc).
    eapply linked_ext; [intros x _; split; [apply Hm'|apply Hm']|]. by eapply linked_unlink.
  - eapply like_within; [done|..]; intros x Hx; apply put_ne; set_solver.
Qed.

Lemma wp_chain_link {ok} m l xs1 e xs2 a Q : chain m l (xs1 ++ xs2) -> live m e ->
  e ∉ l :: xs1 ++ xs2 -> last (l :: xs1) = Some a ->
  (forall m', chain m' l (xs1 ++ e :: xs2) -> within (e :: l :: xs1 ++ xs2) m m' -> Q tt m') ->
  wp ok (link e a) Q m.
Proof.
  intros (Hd & Hl & Hk) Hle He Hlast HQ.
  destruct (neighbours l xs1 xs2) as (A & a' & c & C & HA & HC & Ha' & _).
  rewrite Hlast in Ha'. injection Ha' as <-.
  destruct (neighbours_nodup _ _ _ _ _ _ _ Hd HA HC) as [H1 H2].
  replace (l :: (xs1 ++ xs2) ++ [l]) with (A ++ a :: c :: C) in Hk
    by (rewrite <- app_assoc, HC, app_comm_cons, HA; by rewrite <- app_assoc).
  assert (forall x, x ∈ A ++ a :: c :: C -> x ∈ l :: xs1 ++ xs2) as Hin.
  { intros x. rewrite cons_middle, app_assoc, <- HA, <- HC. set_solver. }
  assert (a ∈ A ++ a :: c :: C) as Ha by set_solver.
  assert (c ∈ A ++ a :: c :: C) as Hc by set_solver.
  apply (wp_link e a c); try done; auto; [set_solver|set_solver|by apply (Hk A a c C)|].
  intros m' Hm'. apply HQ.
  - split; [rewrite app_comm_cons, <- (Permutation_middle (l :: xs1) xs2 e); by constructor|].
    split; [intros x Hx; apply (like_live _ _ _ _ _ Hm'); set_solver|].
    replace (l :: (xs1 ++ e :: xs2) ++ [l]) with (A ++ a :: e :: c :: C)
      by (rewrite <- app_assoc; cbn; rewrite HC, app_comm_cons, HA; by rewrite <- app_assoc).
    eapply linked_ext; [intros x _; split; [apply Hm'|apply Hm']|].
    apply linked_link; try done. set_solver.
  - eapply like_within; [done|..]; intros x Hx; rewrite !put_ne; set_solver.
Qed.

(** ** Lists *)
Record rep (m : mem) (l : loc) (xs : list loc) : Prop := {
  rep_chain : chain m l xs;
  rep_own x : own m x = Some l <-> x ∈ l :: xs;
  rep_len : lengths m !! l = Some (Z.of_nat (length xs));
}.

Definition without (e : loc) (xs : list loc) : list loc := filter (fun x => x <> e) xs.

(** What an operation on the element [e] of the list [l] leaves: the list holds
    [xs], and nothing but [e] and the links of [l] has changed. *)
Record post (e l : loc) (xs : list loc) (m m' : mem) : Prop := {
  post_rep : rep m' l xs;
  post_others l' ys : l' <> l -> rep m l' ys -> rep m' l' ys;
  post_own x : x <> e -> own m' x = own m x;
  post_val x : val m' x = val m x;
  post_live x : live m' x <-> live m x;
}.

Lemma rep_nodup m l xs : rep m l xs -> NoDup (l :: xs).
Proof. intros [(? & _) _ _]. done. Qed.

Lemma rep_live m l xs x : rep m l xs -> x ∈ l :: xs -> live m x.
Proof. intros [(_ & Hl & _) _ _]. apply Hl. Qed.

Lemma without_notin e xs : e ∉ xs -> without e xs = xs.
Proof.
  unfold without. induction xs as [|x xs IH]; intros He; [done|].
  rewrite filter_cons_True by set_solver. f_equal. apply IH. set_solver.
Qed.

Lemma without_split e xs1 xs2 : NoDup (xs1 ++ e :: xs2) ->
  without e (xs1 ++ e :: xs2) = xs1 ++ xs2.
Proof.
  intros Hd. apply NoDup_app in Hd as (_ & H1 & H2). apply NoDup_cons in H2 as [H2 _].
  unfold without. rewrite filter_app, filter_cons_False by tauto.
  f_equal; apply without_notin; set_solver.
Qed.

Lemma post_id e l xs m : rep m l xs -> post e l xs m m.
Proof. by split. Qed.

(** An operation that changes links of [l] and of [e], the owner of [e] from and to
    [l] or none, and the length of [l] leaves the other lists alone. *)
Lemma post_intro e l xs xs' m m' : rep m l xs -> rep m' l xs' -> e <> l ->
  (own m e = None \/ own m e = Some l) -> (own m' e = None \/ own m' e = Some l) ->
  (forall x, x ∉ e :: l :: xs -> nxt m' x = nxt m x /\ prv m' x = prv m x) ->
  (forall x, x <> e -> own m' x = own m x) -> (forall x, val m' x = val m x) ->
  (forall x, live m' x <-> live m x) ->
  (forall l', l' <> l -> lengths m' !! l' = lengths m !! l') -> post e l xs' m m'.
Proof.
  intros Hr Hr' Hel He He' Hk Ho Hv Hl Hn. split; try done.
  intros l' ys Hne [(Hd & Hlv & Hlk) Hown Hlen].
  assert (forall x, x ∈ l' :: ys -> x ∉ e :: l :: xs) as Hdis.
  { intros x Hx Hx'. apply Hown in Hx. apply elem_of_cons in Hx' as [->|Hx'].
    - destruct He; congruence.
    - apply (rep_own _ _ _ Hr) in Hx'. congruence. }
  split; [|..|by rewrite Hn].
  - split; [done|]. split; [intros x Hx; by apply Hl, Hlv|].
    eapply linked_ext; [|done]. intros x Hx. apply Hk, Hdis. set_solver.
  - intros x. destruct (decide (x = e)) as [->|].
    + split; [intros E; destruct He'; congruence|]. intros Hx. destruct (Hdis _ Hx). set_solver.
    + by rewrite Ho.
Qed.

Lemma rep_split m l xs e : rep m l xs -> own m e = Some l -> e <> l ->
  exists xs1 xs2, xs = xs1 ++ e :: xs2 /\ without e xs = xs1 ++ xs2.
Proof.
  intros Hr Ho He. apply (rep_own _ _ _ Hr), elem_of_cons in Ho as [?|Hin]; [done|].
  apply list_elem_of_split in Hin as (xs1 & xs2 & ->). exists xs1, xs2.
  split; [done|]. apply without_split. by apply rep_nodup, NoDup_cons in Hr as [_ ?].
Qed.

(** [m'] differs from [m] in the pointers of [e] only. *)
Record off (e : loc) (m m' : mem) : Prop := {
  off_nxt x : x <> e -> nxt m' x = nxt m x;
  off_prv x : x <> e -> prv m' x = prv m x;
  off_own x : x <> e -> own m' x = own m x;
  off_val x : val m' x = val m x;
  off_live x : live m' x <-> live m x;
  off_len : lengths m' = lengths m;
}.

Lemma off_trans e m1 m2 m3 : off e m1 m2 -> off e m2 m3 -> off e m1 m3.
Proof.
  intros [N1 P1 O1 V1 L1 E1] [N2 P2 O2 V2 L2 E2]. split; intros.
  - by rewrite N2, N1.
  - by rewrite P2, P1.
  - by rewrite O2, O1.
  - by rewrite V2, V1.
  - by rewrite L2, L1.
  - by rewrite E2, E1.
Qed.

Lemma like_off e m m' N P L : like m m' N P L -> (forall x, x <> e -> N x = nxt m x) ->
  (forall x, x <> e -> P x = prv m x) -> (forall x, x <> e -> L x = own m x) -> off e m m'.
Proof. intros [] HN HP HL. split; intros; try done; rewrite <- ?HN, <- ?HP, <- ?HL by done; done. Qed.

Lemma off_next e p m m' : like m m' (put e p (nxt m)) (prv m) (own m) -> off e m m'.
Proof. intros H. eapply like_off; [done|..]; try done. intros. by apply put_ne. Qed.
Lemma off_prev e p m m' : like m m' (nxt m) (put e p (prv m)) (own m) -> off e m m'.
Proof. intros H. eapply like_off; [done|..]; try done. intros. by apply put_ne. Qed.
Lemma off_list e p m m' : like m m' (nxt m) (prv m) (put e p (own m)) -> off e m m'.
Proof. intros H. eapply like_off; [done|..]; try done. intros. by apply put_ne. Qed.

(** The pointers of a removed element are cleared. *)
Lemma wp_detach {ok} e m (k : M mem PtrErr unit) Q : live m e ->
  (forall m', off e m m' -> own m' e = None -> wp ok k Q m') ->
  wp ok (set_next None e;; set_prev None e;; set_list None e;; k) Q m.
Proof.
  intros He HQ. wp_steps. apply wp_set_next; [done|]. intros m1 L1%off_next.
  wp_steps. apply wp_set_prev; [by apply L1|]. intros m2 L2%off_prev.
  wp_steps. apply wp_set_list; [by apply L2, L1|]. intros m3 L3. apply HQ.
  - by eapply off_trans; [|eapply off_trans; [|eapply off_list]].
  - rewrite (like_own _ _ _ _ _ L3). apply put_eq.
Qed.

Lemma chain_off e m m' l xs : off e m m' -> e ∉ l :: xs -> chain m l xs -> chain m' l xs.
Proof.
  intros O He (Hd & Hl & Hk). split; [done|]. split; [intros x Hx; by apply O, Hl|].
  eapply linked_ext; [|done]. intros x Hx. split; apply O; set_solver.
Qed.

(** Adjusting the length turns a chain and its owners into a list. *)
Lemma wp_add_length {ok} e l d m0 xs m xs' Q :
  rep m0 l xs -> e <> l -> chain m l xs' -> 
  (forall x, own m x = Some l <-> x ∈ l :: xs') ->
  (own m0 e = None \/ own m0 e = Some l) -> (own m e = None \/ own m e = Some l) ->
  (forall x, x ∉ e :: l :: xs -> nxt m x = nxt m0 x /\ prv m x = prv m0 x) ->
  (forall x, x <> e -> own m x = own m0 x) -> (forall x, val m x = val m0 x) ->
  (forall x, live m x <-> live m0 x) -> lengths m = lengths m0 ->
  Z.of_nat (length xs') = d + Z.of_nat (length xs) ->
  (forall m', post e l xs' m0 m' -> (forall x, own m' x = own m x) -> Q tt m') ->
  wp ok (add_length l d) Q m.
Proof.
  intros Hr He (Hd & Hl & Hk) Ho H0 H1 Hn Hoo Hv Hlv Hln Hlen HQ. unfold add_length.
  apply wp_modify, HQ; [|done]. rewrite Hln. eapply post_intro; try done.
  - split; [by split|done|]. cbn. rewrite lookup_alter_eq, (rep_len _ _ _ Hr). cbn. by f_equal.
  - intros l' Hl'. cbn. by rewrite lookup_alter_ne.
Qed.

Lemma wp_Remove {ok} m l xs e Q : rep m l xs -> e <> l -> live m e ->
  (forall m', post e l (without e xs) m m' -> (own m e = Some l -> own m' e = None) -> Q tt m') ->
  wp ok (Remove l e) Q m.
Proof.
  intros Hr He Hle HQ. unfold Remove. wp_steps. apply live_load; [done|]. intros x _ _ _ Hx _.
  destruct (bool_decide_reflect (elist x = Some l)) as [Ho|Ho]; rewrite Hx in Ho; cycle 1.
  { apply wp_ret, HQ; [|done]. rewrite without_notin; [by apply post_id|].
    intros Hin. destruct Ho. apply (rep_own _ _ _ Hr). set_solver. }
  destruct (rep_split _ _ _ _ Hr Ho He) as (xs1 & xs2 & -> & Hw).
  assert (e ∉ l :: xs1 ++ xs2) as Hni.
  { pose proof (rep_nodup _ _ _ Hr) as Hd.
    rewrite app_comm_cons, <- (Permutation_middle (l :: xs1)) in Hd. by apply NoDup_cons in Hd as [? _]. }
  apply wp_bind. eapply wp_chain_unlink; [apply Hr|]. intros m1 Hc1 W1. cbn beta.
  apply wp_detach; [by apply W1|]. intros m2 O2 Ho2.
  assert (chain m2 l (xs1 ++ xs2)) as Hc2 by by eapply chain_off.
  apply (wp_add_length e l (-1) m (xs1 ++ e :: xs2) m2 (xs1 ++ xs2)); try done; auto.
  - intros y. destruct (decide (y = e)) as [->|Hy]; [rewrite Ho2; split; [done|tauto]|].
    rewrite (off_own _ _ _ O2), (within_own _ _ _ W1), (rep_own _ _ _ Hr) by done. set_solver.
  - intros y Hy. rewrite (off_nxt _ _ _ O2), (off_prv _ _ _ O2) by set_solver.
    split; apply W1; set_solver.
  - intros y Hy. rewrite (off_own _ _ _ O2) by done. apply W1.
  - intros y. rewrite (off_val _ _ _ O2). apply W1.
  - intros y. rewrite (off_live _ _ _ O2). apply W1.
  - rewrite (off_len _ _ _ O2). apply W1.
  - rewrite !length_app. cbn. lia.
  - intros m3 Hp Ho3. rewrite <- Hw in Hp. apply HQ; [done|]. by rewrite Ho3.
Qed.

(** [e] enters the list after the element or sentinel [a]. *)
Lemma wp_insertAfter {ok} m l xs1 xs2 e a Q : rep m l (xs1 ++ xs2) -> e <> l -> live m e ->
  own m e = None -> last (l :: xs1) = Some a ->
  (forall m', post e l (xs1 ++ e :: xs2) m m' -> Q tt m') ->
  wp ok (insertAfter l e a) Q m.
Proof.
  intros Hr He Hle Hoe Ha HQ. unfold insertAfter. wp_steps. apply live_load; [done|].
  intros x _ _ _ Hx _. rewrite bool_decide_eq_true_2 by congruence.
  assert (e ∉ l :: xs1 ++ xs2) as Hni.
  { intros Hin. apply (rep_own _ _ _ Hr) in Hin. congruence. }
  wp_steps. eapply wp_chain_link; [apply Hr|done..|]. intros m1 Hc1 W1.
  wp_steps. apply wp_set_list; [by apply W1|]. intros m2 L2.
  pose proof (off_list _ _ _ _ L2) as O2.
  apply (wp_add_length e l 1 m (xs1 ++ xs2) m2 (xs1 ++ e :: xs2)); try done; auto.
  - destruct Hc1 as (Hd & Hl & Hk). split; [done|]. split; [intros y Hy; by apply O2, Hl|].
    eapply linked_ext; [|done]. intros y _. split; apply L2.
  - intros y. rewrite (like_own _ _ _ _ _ L2). destruct (decide (y = e)) as [->|Hy].
    + rewrite put_eq. split; [set_solver|done].
    + rewrite put_ne, (within_own _ _ _ W1), (rep_own _ _ _ Hr) by done. set_solver.
  - right. rewrite (like_own _ _ _ _ _ L2). apply put_eq.
  - intros y Hy. rewrite (off_nxt _ _ _ O2), (off_prv _ _ _ O2) by set_solver.
    split; apply W1; set_solver.
  - intros y Hy. rewrite (off_own _ _ _ O2) by done. apply W1.
  - intros y. rewrite (off_val _ _ _ O2). apply W1.
  - intros y. rewrite (off_live _ _ _ O2). apply W1.
  - rewrite (off_len _ _ _ O2). apply W1.
  - rewrite !length_app. cbn. lia.
Qed.

(** An element of the list moves behind [a], an element of the rest or the
    sentinel; everything else stays. *)
Lemma wp_moveAfter {ok} m l xs xs1 xs2 e a Q : rep m l xs -> own m e = Some l -> e <> l ->
  without e xs = xs1 ++ xs2 -> last (l :: xs1) = Some a ->
  (forall m', post e l (xs1 ++ e :: xs2) m m' -> Q tt m') ->
  wp ok (moveAfter l e a) Q m.
Proof.
  intros Hr Ho He Hw Ha HQ. destruct (rep_split _ _ _ _ Hr Ho He) as (ys1 & ys2 & -> & Hw').
  assert (NoDup (e :: l :: ys1 ++ ys2)) as Hd.
  { change (NoDup (e :: (l :: ys1) ++ ys2)). rewrite Permutation_middle. apply (rep_nodup _ _ _ Hr). }
  apply NoDup_cons in Hd as [Hni Hd].
  assert (ys1 ++ ys2 = xs1 ++ xs2) as E by congruence. rewrite E in Hni, Hd.
  assert (forall y, y ∈ l :: ys1 ++ e :: ys2 <-> y = e \/ y ∈ l :: xs1 ++ xs2) as Hin.
  { intros y. rewrite <- E. set_solver. }
  assert (a ∈ l :: xs1 ++ xs2) as Hain.
  { rewrite app_comm_cons. apply elem_of_app. left. by apply last_Some_elem_of. }
  unfold moveAfter. wp_steps. apply live_load; [apply (rep_live _ _ _ _ Hr), Hin; by left|].
  intros x _ _ _ Hx _. wp_steps. apply live_load; [apply (rep_live _ _ _ _ Hr), Hin; by right|].
  intros y _ _ _ Hy _.
  rewrite bool_decide_eq_false_2; cycle 1.
  { rewrite Hx, Hy, Ho, (proj2 (rep_own _ _ _ Hr a) ltac:(apply Hin; by right)).
    intros [?|[?|?]]; try done. subst. done. }
  wp_steps. eapply wp_chain_unlink; [apply Hr|]. intros m1 Hc1 W1. rewrite E in Hc1, W1.
  eapply wp_chain_link; [done|apply W1, (rep_live _ _ _ _ Hr), Hin; by left|done|done|].
  intros m2 Hc2 W2. apply HQ.
  assert (forall x, own m2 x = own m x) as Ho2
    by (intros; by rewrite (within_own _ _ _ W2), (within_own _ _ _ W1)).
  assert (lengths m2 = lengths m) as Hl2
    by by rewrite (within_len _ _ _ W2), (within_len _ _ _ W1).
  eapply (post_intro e l (ys1 ++ e :: ys2)); try done; try (by right).
  - split; [done| |].
    + intros z. rewrite Ho2, (rep_own _ _ _ Hr), Hin. set_solver.
    + rewrite Hl2, (rep_len _ _ _ Hr). do 2 f_equal. rewrite !length_app. cbn.
      apply (f_equal length) in E. rewrite !length_app in E. lia.
  - right. by rewrite Ho2.
  - intros z Hz. assert (z ∉ e :: l :: xs1 ++ xs2) as Hz'.
    { rewrite not_elem_of_cons, Hin in Hz. set_solver. }
    rewrite (within_nxt _ _ _ W2), (within_prv _ _ _ W2), (within_nxt _ _ _ W1),
      (within_prv _ _ _ W1); set_solver.
  - intros z. by rewrite (within_val _ _ _ W2), (within_val _ _ _ W1).
  - intros z. by rewrite (within_live _ _ _ W2), (within_live _ _ _ W1).
  - intros. by rewrite Hl2.
Qed.

(** ** The operations as functions on sequences *)
Definition before (e a : loc) (xs : list loc) : list loc :=
  xs ≫= fun x => if decide (x = a) then [e; x] else [x].
Definition after (e a : loc) (xs : list loc) : list loc :=
  xs ≫= fun x => if decide (x = a) then [x; e] else [x].

Inductive op :=
  | ORemove (e : loc)
  | OPushFront (e : loc)
  | OPushBack (e : loc)
  | OInsertBefore (e location : loc)
  | OInsertAfter (e location : loc)
  | OMoveToFront (e : loc)
  | OMoveToBack (e : loc)
  | OMoveBefore (e location : loc)
  | OMoveAfter (e location : loc).

Definition run (l : loc) (o : op) : M mem PtrErr unit :=
  match o with
  | ORemove e => Remove l e
  | OPushFront e => PushFront l e
  | OPushBack e => PushBack l e
  | OInsertBefore e location => InsertBefore l e location
  | OInsertAfter e location => InsertAfter l e location
  | OMoveToFront e => MoveToFront l e
  | OMoveToBack e => MoveToBack l e
  | OMoveBefore e location => MoveBefore l e location
  | OMoveAfter e location => MoveAfter l e location
  end.

(** The elements an operation is called with: allocated, and not the sentinel,
    which the package does not export. *)
Definition args (o : op) : list loc :=
  match o with
  | ORemove e | OPushFront e | OPushBack e | OMoveToFront e | OMoveToBack e => [e]
  | OInsertBefore e a | OInsertAfter e a | OMoveBefore e a | OMoveAfter e a => [e; a]
  end.

(** The sequence after an operation; [free] says that the element is in no list. *)
Definition spec (o : op) (free : loc -> Prop) `{!forall e, Decision (free e)}
    (xs : list loc) : list loc :=
  match o with
  | ORemove e => without e xs
  | OPushFront e => if decide (free e) then e :: xs else xs
  | OPushBack e => if decide (free e) then xs ++ [e] else xs
  | OInsertBefore e a => if decide (free e) then before e a xs else xs
  | OInsertAfter e a => if decide (free e) then after e a xs else xs
  | OMoveToFront e => if decide (e ∈ xs) then e :: without e xs else xs
  | OMoveToBack e => if decide (e ∈ xs) then without e xs ++ [e] else xs
  | OMoveBefore e a =>
      if decide (e ∈ xs /\ a ∈ xs /\ e <> a) then before e a (without e xs) else xs
  | OMoveAfter e a =>
      if decide (e ∈ xs /\ a ∈ xs /\ e <> a) then after e a (without e xs) else xs
  end.

Lemma insert_notin (f : loc -> list loc) a xs : a ∉ xs ->
  (xs ≫= fun x => if decide (x = a) then f x else [x]) = xs.
Proof.
  induction xs as [|x xs IH]; intros Ha; [done|]. cbn. rewrite decide_False by set_solver.
  cbn. f_equal. apply IH. set_solver.
Qed.

Lemma insert_split (f : loc -> list loc) a ys1 ys2 : NoDup (ys1 ++ a :: ys2) ->
  ((ys1 ++ a :: ys2) ≫= fun x => if decide (x = a) then f x else [x]) = ys1 ++ f a ++ ys2.
Proof.
  intros (_ & H1 & [H2 _]%NoDup_cons)%NoDup_app. rewrite bind_app, bind_cons, decide_True by done.
  rewrite !insert_notin; [done|done|set_solver].
Qed.

Lemma rep_elem m l xs e : rep m l xs -> e <> l -> own m e = Some l <-> e ∈ xs.
Proof. intros Hr He. rewrite (rep_own _ _ _ Hr). set_solver. Qed.

Lemma rep_prev m l xs1 a xs2 : rep m l (xs1 ++ a :: xs2) -> prv m a = last (l :: xs1).
Proof.
  intros [Hc _ _]. destruct (neighbours l xs1 xs2) as (A & p & c & C & HA & HC & -> & _).
  by destruct (chain_neighbours _ _ _ _ _ _ _ _ _ Hc HA HC) as (_ & -> & _).
Qed.

Lemma rep_next m l xs1 a xs2 : rep m l (xs1 ++ a :: xs2) -> nxt m a = head (xs2 ++ [l]).
Proof.
  intros [Hc _ _]. destruct (neighbours l xs1 xs2) as (A & p & c & C & HA & HC & _ & ->).
  by destruct (chain_neighbours _ _ _ _ _ _ _ _ _ Hc HA HC) as (_ & _ & ->).
Qed.

Lemma rep_prev_sentinel m l xs : rep m l xs -> prv m l = last (l :: xs).
Proof. intros [Hc _ _]. rewrite (chain_last _ _ _ Hc). by destruct xs as [|x xs _] using rev_ind; [|rewrite last_snoc, app_comm_cons, last_snoc]. Qed.

(** *** Insertion *)
Section insertion.
Context {ok : PtrErr -> Prop} (m : mem) (l : loc) (xs : list loc) (e : loc) (Q : unit -> mem -> Prop).
Context (Hr : rep m l xs) (He : e <> l) (Hle : live m e).

Lemma insertAfter_owned a : own m e <> None -> (forall m', post e l xs m m' -> Q tt m') ->
  wp ok (insertAfter l e a) Q m.
Proof.
  intros Ho HQ. unfold insertAfter. wp_steps. apply live_load; [done|]. intros x _ _ _ Hx _.
  rewrite bool_decide_eq_false_2 by congruence. by apply wp_ret, HQ, post_id.
Qed.

Lemma wp_PushFront :
  (forall m', post e l (if decide (own m e = None) then e :: xs else xs) m m' -> Q tt m') ->
  wp ok (PushFront l e) Q m.
Proof.
  intros H. unfold PushFront. case_decide as Ho; [|by apply insertAfter_owned].
  by apply (wp_insertAfter m l [] xs).
Qed.

Lemma wp_PushBack :
  (forall m', post e l (if decide (own m e = None) then xs ++ [e] else xs) m m' -> Q tt m') ->
  wp ok (PushBack l e) Q m.
Proof.
  intros H. unfold PushBack, deref. wp_steps. apply live_load; [apply (rep_live _ _ _ _ Hr); set_solver|].
  intros x _ _ Hx _ _. wp_steps. rewrite Hx, (rep_prev_sentinel _ _ _ Hr).
  apply wp_must. destruct (last_is_Some (l :: xs)) as [_ [a Ha]]; [done|]. exists a. split; [done|].
  case_decide as Ho; [|by apply insertAfter_owned].
  apply (wp_insertAfter m l xs []); try done. by rewrite app_nil_r.
Qed.

Lemma wp_InsertBefore a : a <> l -> live m a ->
  (forall m', post e l (if decide (own m e = None) then before e a xs else xs) m m' -> Q tt m') ->
  wp ok (InsertBefore l e a) Q m.
Proof.
  intros Ha Hla H. unfold InsertBefore, deref. wp_steps. apply live_load; [done|].
  intros y _ _ Hp Hy _. rewrite Hp, Hy. destruct (bool_decide_reflect (own m a = Some l)) as [Hin|Hin].
  - apply (rep_elem _ _ _ _ Hr Ha) in Hin.
    apply list_elem_of_split in Hin as (ys1 & ys2 & E). pose proof Hr as Hr'. rewrite E in Hr'.
    wp_steps. rewrite (rep_prev _ _ _ _ _ Hr'). apply wp_must.
    destruct (last_is_Some (l :: ys1)) as [_ [p Hp']]; [done|]. exists p. split; [done|].
    case_decide as Ho; [|by apply insertAfter_owned].
    apply (wp_insertAfter m l ys1 (a :: ys2)); try done.
    unfold before in H. rewrite E, insert_split in H; [done|].
    by apply rep_nodup, NoDup_cons in Hr' as [_ ?].
  - apply wp_ret, H. rewrite (rep_elem _ _ _ _ Hr Ha) in Hin.
    unfold before. rewrite insert_notin by done. case_decide; by apply post_id.
Qed.

Lemma wp_InsertAfter a : a <> l -> live m a ->
  (forall m', post e l (if decide (own m e = None) then after e a xs else xs) m m' -> Q tt m') ->
  wp ok (InsertAfter l e a) Q m.
Proof.
  intros Ha Hla H. unfold InsertAfter. wp_steps. apply live_load; [done|].
  intros y _ _ _ Hy _. rewrite Hy. destruct (bool_decide_reflect (own m a = Some l)) as [Hin|Hin].
  - apply (rep_elem _ _ _ _ Hr Ha) in Hin.
    apply list_elem_of_split in Hin as (ys1 & ys2 & E). pose proof Hr as Hr'. rewrite E in Hr'.
    case_decide as Ho; [|by apply insertAfter_owned].
    apply (wp_insertAfter m l (ys1 ++ [a]) ys2); try done.
    + by rewrite <- app_assoc.
    + by rewrite app_comm_cons, last_snoc.
    + unfold after in H. rewrite E, insert_split in H.
      * by rewrite <- app_assoc.
      * by apply rep_nodup, NoDup_cons in Hr' as [_ ?].
  - apply wp_ret, H. rewrite (rep_elem _ _ _ _ Hr Ha) in Hin.
    unfold after. rewrite insert_notin by done. case_decide; by apply post_id.
Qed.
End insertion.

(** *** Moving *)
Section moving.
Context {ok : PtrErr -> Prop} (m : mem) (l : loc) (xs : list loc) (e : loc) (Q : unit -> mem -> Prop).
Context (Hr : rep m l xs) (He : e <> l) (Hle : live m e).

Lemma xs_nodup : NoDup xs.
Proof. by apply rep_nodup, NoDup_cons in Hr as [_ ?]. Qed.

Lemma moveAfter_same a : live m a -> e ∉ xs \/ own m a <> Some l \/ e = a ->
  (forall m', post e l xs m m' -> Q tt m') -> wp ok (moveAfter l e a) Q m.
Proof.
  intros Hla Hc HQ. unfold moveAfter. wp_steps. apply live_load; [done|]. intros x _ _ _ Hx _.
  wp_steps. apply live_load; [done|]. intros y _ _ _ Hy _. rewrite Hx, Hy.
  rewrite bool_decide_eq_true_2 by (rewrite (rep_elem _ _ _ _ Hr He); naive_solver).
  by apply wp_ret, HQ, post_id.
Qed.

Lemma wp_MoveAfter a : a <> l -> live m a ->
  (forall m', post e l (if decide (e ∈ xs /\ a ∈ xs /\ e <> a) then after e a (without e xs)
     else xs) m m' -> Q tt m') ->
  wp ok (MoveAfter l e a) Q m.
Proof.
  intros Ha Hla H. unfold MoveAfter. case_decide as Hc.
  - destruct Hc as (Hex & Hax & Hne).
    assert (a ∈ without e xs) as (zs1 & zs2 & E)%list_elem_of_split
      by (apply list_elem_of_filter; split; congruence).
    apply (wp_moveAfter m l xs (zs1 ++ [a]) zs2); try done.
    + by apply (rep_elem _ _ _ _ Hr).
    + by rewrite E, <- app_assoc.
    + by rewrite app_comm_cons, last_snoc.
    + unfold after in H. rewrite E, insert_split in H; [by rewrite <- app_assoc|].
      rewrite <- E. apply NoDup_filter, xs_nodup.
  - apply moveAfter_same; [done| |done]. rewrite (rep_elem _ _ _ _ Hr Ha).
    destruct (decide (e ∈ xs)), (decide (a ∈ xs)), (decide (e = a)); tauto.
Qed.

Lemma wp_MoveToFront :
  (forall m', post e l (if decide (e ∈ xs) then e :: without e xs else xs) m m' -> Q tt m') ->
  wp ok (MoveToFront l e) Q m.
Proof.
  intros H. unfold MoveToFront. wp_steps. apply live_load; [apply (rep_live _ _ _ _ Hr); by left|].
  intros s _ Hs _ _ _. rewrite Hs. destruct Hr as [Hc _ _]. rewrite (chain_head _ _ _ Hc).
  destruct (bool_decide_reflect (Some e <> Some (default l (head xs)))) as [Hne|Heq].
  - case_decide as Hin.
    + apply (wp_moveAfter m l xs [] (without e xs)); try done. by apply (rep_elem _ _ _ _ Hr).
    + apply moveAfter_same; [apply (rep_live _ _ _ _ Hr); by left|by left|done].
  - assert (exists xs', xs = e :: xs') as [xs' E].
    { clear -Heq He. destruct xs as [|x xs']; cbn in Heq.
      - destruct Heq. congruence.
      - exists xs'. destruct (decide (e = x)); [congruence|destruct Heq; congruence]. }
    assert (without e xs = xs') as Hw
      by (rewrite E; apply (without_split e [] xs'); cbn; rewrite <- E; apply xs_nodup).
    apply wp_ret, H. rewrite decide_True, Hw, <- E by (rewrite E; by left). by apply post_id.
Qed.

Lemma last_of p : e ∈ xs -> last (l :: xs) = Some p -> exists xs', xs = xs' ++ [p].
Proof.
  clear. intros Hin Hp. destruct xs as [|x xs' _] using rev_ind; [by apply not_elem_of_nil in Hin|].
  rewrite app_comm_cons, last_snoc in Hp. injection Hp as ->. by exists xs'.
Qed.

Lemma wp_MoveToBack :
  (forall m', post e l (if decide (e ∈ xs) then without e xs ++ [e] else xs) m m' -> Q tt m') ->
  wp ok (MoveToBack l e) Q m.
Proof.
  intros H. unfold MoveToBack, deref. wp_steps.
  apply live_load; [apply (rep_live _ _ _ _ Hr); by left|]. intros s _ _ Hs _ _. wp_steps.
  rewrite Hs, (rep_prev_sentinel _ _ _ Hr). apply wp_must.
  destruct (last_is_Some (l :: xs)) as [_ [p Hp]]; [done|]. exists p. split; [done|].
  assert (p ∈ l :: xs) as Hpin by by apply last_Some_elem_of.
  pose proof (rep_live _ _ _ _ Hr Hpin) as Hlp.
  case_decide as Hin; [|by apply moveAfter_same; [|left|]].
  destruct (decide (e = p)) as [Heq|Hne].
  - apply moveAfter_same; [done|by right; right|]. intros m' Hm. apply H.
    destruct (last_of p Hin Hp) as [xs' E]. rewrite <- Heq in E.
    assert (without e xs = xs') as ->; [|by rewrite <- E].
    rewrite E, (without_split e xs' []), app_nil_r; [done|]. rewrite <- E. apply xs_nodup.
  - apply (wp_moveAfter m l xs (without e xs) []); try done.
    + by apply (rep_elem _ _ _ _ Hr).
    + by rewrite app_nil_r.
    + destruct (last_of p Hin Hp) as [xs' E]. rewrite E. unfold without. rewrite filter_app, filter_cons_True, filter_nil by congruence.
      by rewrite app_comm_cons, last_snoc.
Qed.

Lemma last_without a ys1 ys2 : xs = ys1 ++ a :: ys2 -> e ∈ xs -> e <> a ->
  last (l :: ys1) <> Some e -> exists zs1 zs2,
    without e xs = zs1 ++ a :: zs2 /\ last (l :: zs1) = last (l :: ys1).
Proof.
  intros E Hin Hne Hl. exists (without e ys1), (without e ys2). rewrite E. unfold without at 1.
  rewrite filter_app, filter_cons_True by congruence. split; [done|].
  destruct ys1 as [|y ys1 _] using rev_ind; [done|]. rewrite app_comm_cons, last_snoc in Hl.
  unfold without. rewrite filter_app, filter_cons_True, filter_nil by congruence.
  by rewrite !app_comm_cons, !last_snoc.
Qed.

Lemma wp_MoveBefore a : a ∈ xs ->
  (forall m', post e l (if decide (e ∈ xs /\ a ∈ xs /\ e <> a) then before e a (without e xs)
     else xs) m m' -> Q tt m') ->
  wp ok (MoveBefore l e a) Q m.
Proof.
  intros Hax H. unfold MoveBefore.
  destruct (bool_decide_reflect (e <> a)) as [Hne|Heq]; cycle 1.
  { apply wp_ret, H. rewrite decide_False by tauto. by apply post_id. }
  wp_steps. apply live_load; [apply (rep_live _ _ _ _ Hr); by right|]. intros y _ _ Hy _ _.
  apply list_elem_of_split in Hax as HE. destruct HE as (ys1 & ys2 & E).
  pose proof Hr as Hr'. rewrite E in Hr'. rewrite Hy, (rep_prev _ _ _ _ _ Hr').
  destruct (last_is_Some (l :: ys1)) as [_ [p Hp]]; [done|]. rewrite Hp.
  assert (live m p) as Hlp.
  { apply (rep_live _ _ _ _ Hr). apply last_Some_elem_of in Hp. rewrite E. set_solver. }
  case_decide as Hc; [|apply moveAfter_same; [done|left; tauto|done]].
  destruct Hc as (Hex & _ & _). destruct (decide (p = e)) as [Hpe|Hpe].
  - apply moveAfter_same; [done|by right; right|]. intros m' Hm. apply H. unfold before.
    destruct ys1 as [|y1 ys1 _] using rev_ind; [injection Hp as Hp; congruence|].
    rewrite app_comm_cons, last_snoc in Hp. injection Hp as Hp. rewrite Hp, Hpe in E.
    rewrite <- app_assoc in E. cbn in E. pose proof xs_nodup as Hd. rewrite E in Hd |- *.
    rewrite without_split by done. rewrite insert_split; [cbn; by rewrite <- E|].
    rewrite <- (without_split e ys1) by done. by apply NoDup_filter.
  - destruct (last_without a ys1 ys2 E Hex Hne) as (zs1 & zs2 & Ez & Hz); [congruence|].
    apply (wp_moveAfter m l xs zs1 (a :: zs2)); try done.
    + by apply (rep_elem _ _ _ _ Hr).
    + by rewrite Hz.
    + unfold before in H. rewrite Ez, insert_split in H; [done|].
      rewrite <- Ez. apply NoDup_filter, xs_nodup.
Qed.
End moving.

(** ** Queries *)
Lemma wp_Front {ok} m l xs Q : rep m l xs -> Q (head xs) m -> wp ok (Front l) Q m.
Proof.
  intros Hr HQ. unfold Front, Len. wp_steps. apply wp_must. exists (Z.of_nat (length xs)).
  split; [apply Hr|]. destruct (Z.eqb_spec (Z.of_nat (length xs)) 0) as [Hz|Hz].
  - destruct xs; [by apply wp_ret|done].
  - wp_steps. apply live_load; [apply (rep_live _ _ _ _ Hr); by left|]. intros s _ Hs _ _ _.
    apply wp_ret. rewrite Hs, (chain_head _ _ _ (rep_chain _ _ _ Hr)). by destruct xs.
Qed.

Lemma wp_Back {ok} m l xs Q : rep m l xs -> Q (last xs) m -> wp ok (Back l) Q m.
Proof.
  intros Hr HQ. unfold Back, Len. wp_steps. apply wp_must. exists (Z.of_nat (length xs)).
  split; [apply Hr|]. destruct (Z.eqb_spec (Z.of_nat (length xs)) 0) as [Hz|Hz].
  - destruct xs; [by apply wp_ret|done].
  - wp_steps. apply live_load; [apply (rep_live _ _ _ _ Hr); by left|]. intros s _ _ Hs _ _.
    apply wp_ret. rewrite Hs, (chain_last _ _ _ (rep_chain _ _ _ Hr)).
    by destruct xs as [|x xs _] using rev_ind; [|rewrite last_snoc in *].
Qed.

Lemma wp_Next {ok} m l xs1 e xs2 Q : rep m l (xs1 ++ e :: xs2) -> Q (head xs2) m ->
  wp ok (Next e) Q m.
Proof.
  intros Hr HQ. assert (e ∈ l :: xs1 ++ e :: xs2) as Hin by set_solver.
  unfold Next. wp_steps. apply live_load; [by apply (rep_live _ _ _ _ Hr)|].
  intros x _ Hx _ Ho _. rewrite Ho, Hx, (proj2 (rep_own _ _ _ Hr e) Hin), (rep_next _ _ _ _ _ Hr).
  apply wp_ret. destruct xs2 as [|y xs2]; cbn [app head]; [by rewrite bool_decide_eq_true_2|].
  rewrite bool_decide_eq_false_2; [done|]. intros [= ->].
  apply rep_nodup, NoDup_cons in Hr as [Hn _]. set_solver.
Qed.

Lemma wp_Prev {ok} m l xs1 e xs2 Q : rep m l (xs1 ++ e :: xs2) -> Q (last xs1) m ->
  wp ok (Prev e) Q m.
Proof.
  intros Hr HQ. assert (e ∈ l :: xs1 ++ e :: xs2) as Hin by set_solver.
  unfold Prev. wp_steps. apply live_load; [by apply (rep_live _ _ _ _ Hr)|].
  intros x _ _ Hx Ho _. rewrite Ho, Hx, (proj2 (rep_own _ _ _ Hr e) Hin), (rep_prev _ _ _ _ _ Hr).
  apply wp_ret. destruct xs1 as [|y xs1 _] using rev_ind; [by rewrite bool_decide_eq_true_2|].
  rewrite app_comm_cons, !last_snoc in *. rewrite bool_decide_eq_false_2; [done|]. intros [= ->].
  apply rep_nodup, NoDup_cons in Hr as [Hn _]. set_solver.
Qed.

(** *** Values *)
Record revalued (x : loc) (v : V) (m m' : mem) : Prop := {
  rv_nxt y : nxt m' y = nxt m y;
  rv_prv y : prv m' y = prv m y;
  rv_own y : own m' y = own m y;
  rv_val y : val m' y = if decide (y = x) then Some v else val m y;
  rv_live y : live m' y <-> live m y;
  rv_len : lengths m' = lengths m;
}.

Lemma revalued_rep x v m m' l xs : revalued x v m m' -> rep m l xs -> rep m' l xs.
Proof.
  intros [N P O _ L E] [(Hd & Hl & Hk) Ho Hn].
  split; [split; [done|split]| |by rewrite E].
  - intros y Hy. by apply L, Hl.
  - by eapply linked_ext; [|done].
  - intros y. by rewrite O.
Qed.

Lemma wp_set_Value {ok} v x m Q : live m x -> (forall m', revalued x v m m' -> Q tt m') ->
  wp ok (set_Value v x) Q m.
Proof.
  intros Hx HQ. unfold set_Value, upd. wp_steps. apply live_load; [done|].
  intros e He _ _ _ _. apply wp_modify, HQ.
  split; intros; try done; unfold nxt, prv, own, val, live; cbn [elems];
    (destruct (decide (y = x)) as [->|];
     [rewrite lookup_alter_eq, He; cbn; rewrite ?decide_True by done; try done;
      split; intros; by eexists
     |rewrite ?lookup_alter_ne by congruence; try done; by rewrite decide_False]).
Qed.

(** *** Allocation *)
Record fresh_at (x : loc) (m m' : mem) : Prop := {
  fr_new : ~ live m x;
  fr_off y : y <> x -> nxt m' y = nxt m y /\ prv m' y = prv m y /\ own m' y = own m y;
  fr_val y : y <> x -> val m' y = val m y;
  fr_live y : live m' y <-> live m y \/ y = x;
  fr_len y : y <> x -> lengths m' !! y = lengths m !! y;
}.

Lemma fresh_rep x m m' l ys : fresh_at x m m' -> own m' x = None \/ own m' x = Some x ->
  rep m l ys -> rep m' l ys.
Proof.
  intros [Hn Ho _ Hl Hln] Hx [(Hd & Hlv & Hk) Hown Hlen].
  assert (forall y, y ∈ l :: ys -> y <> x) as Hne by (intros y Hy ->; by apply Hn, Hlv).
  assert (l <> x) as Hlx by (apply Hne; by left).
  split; [split; [done|split]| |by rewrite Hln].
  - intros y Hy. apply Hl. left. by apply Hlv.
  - eapply linked_ext; [|done]. intros y Hy. destruct (Ho y) as (? & ? & _); [|done].
    apply Hne. set_solver.
  - intros y. destruct (decide (y = x)) as [->|Hy].
    + split; [|by intros ?%Hne]. intros E. destruct Hx; congruence.
    + destruct (Ho y Hy) as (_ & _ & ->). apply Hown.
Qed.

Lemma wp_alloc {ok} v m Q :
  (forall x m', fresh_at x m m' -> val m' x = Some v -> own m' x = None ->
     lengths m' = lengths m -> Q x m') -> wp ok (alloc v) Q m.
Proof.
  intros HQ. unfold alloc. wp_steps. set (x := fresh (dom (elems m))).
  assert (elems m !! x = None) as Hx by apply not_elem_of_dom, is_fresh.
  apply HQ; [split|..]; unfold nxt, prv, own, val, live; cbn; try done.
  - by rewrite Hx, <- not_eq_None_Some; intros [].
  - intros y Hy. by rewrite lookup_insert_ne by congruence.
  - intros y Hy. by rewrite lookup_insert_ne by congruence.
  - intros y. rewrite lookup_insert_is_Some. split; [|destruct (decide (x = y)); naive_solver].
    intros [->|[_ ?]]; tauto.
  - by rewrite lookup_insert_eq.
  - by rewrite lookup_insert_eq.
Qed.

(** Owners are allocated: Go has no dangling pointers. *)
Definition owned (m : mem) : Prop := forall x l, own m x = Some l -> live m l.

Lemma wp_NewList `{Inhabited V} {ok} m Q : owned m ->
  (forall l m', rep m' l [] -> fresh_at l m m' -> Q l m') -> wp ok NewList Q m.
Proof.
  intros Hw HQ. unfold NewList. wp_steps. apply wp_alloc. intros l m1 [Hn Ho Hv Hl Hln] _ _ El.
  wp_steps. set (m2 := mkMem _ _).
  assert (live m2 l) as Hlive by (apply Hl; by right).
  apply wp_set_next; [done|]. intros m3 L3. pose proof (off_next _ _ _ _ L3) as O3. wp_steps.
  apply wp_set_prev; [by apply O3|]. intros m4 L4. pose proof (off_prev _ _ _ _ L4) as O4. wp_steps.
  apply wp_set_list; [by apply O4, O3|]. intros m5 L5. pose proof (off_list _ _ _ _ L5) as O5.
  pose proof (off_trans _ _ _ _ O3 (off_trans _ _ _ _ O4 O5)) as O. wp_steps.
  assert (own m5 l = Some l) as Hol by (rewrite (like_own _ _ _ _ _ L5); apply put_eq).
  apply HQ; [split; [split; [|split]| |]|split]; try done.
  - by apply NoDup_singleton.
  - intros x ->%list_elem_of_singleton. by apply O.
  - intros ys1 p q ys2 E. destruct ys1 as [|y [|z ys1]]; cbn in E; simplify_eq.
    + rewrite (like_nxt _ _ _ _ _ L5), (like_prv _ _ _ _ _ L5),
        (like_nxt _ _ _ _ _ L4), (like_prv _ _ _ _ _ L4), (like_nxt _ _ _ _ _ L3).
      by rewrite !put_eq.
    + by destruct ys1.
  - intros x. rewrite list_elem_of_singleton. destruct (decide (x = l)) as [->|Hx]; [done|].
    rewrite (off_own _ _ _ O) by done. split; [|done]. intros E. destruct Hn.
    destruct (Ho x Hx) as (_ & _ & Ho'). change (own m2 x) with (own m1 x) in E.
    apply (Hw x). congruence.
  - rewrite (off_len _ _ _ O). apply lookup_insert_eq.
  - intros y Hy. rewrite (off_nxt _ _ _ O), (off_prv _ _ _ O), (off_own _ _ _ O) by done.
    by apply Ho.
  - intros y Hy. rewrite (off_val _ _ _ O). by apply Hv.
  - intros y. rewrite (off_live _ _ _ O). apply Hl.
  - intros y Hy. rewrite (off_len _ _ _ O). cbn. rewrite lookup_insert_ne by done. by rewrite El.
Qed.

Lemma wp_op {ok} m l xs o Q : rep m l xs -> (forall x, x ∈ args o -> x <> l /\ live m x) ->
  (forall e a, o = OMoveBefore e a -> a ∈ xs) ->
  (forall e m', post e l (spec o (fun x => own m x = None) xs) m m' -> Q tt m') ->
  wp ok (run l o) Q m.
Proof.
  intros Hr Ha Hb HQ. destruct o as [e|e|e|e a|e a|e|e|e a|e a]; cbn in HQ, Ha |- *;
    (destruct (Ha e) as [Hel Hle]; [by left|]).
  - apply (wp_Remove m l xs); eauto.
  - apply (wp_PushFront m l xs); eauto.
  - apply (wp_PushBack m l xs); eauto.
  - destruct (Ha a) as [? ?]; [by right; left|]. apply (wp_InsertBefore m l xs); eauto.
  - destruct (Ha a) as [? ?]; [by right; left|]. apply (wp_InsertAfter m l xs); eauto.
  - apply (wp_MoveToFront m l xs); eauto.
  - apply (wp_MoveToBack m l xs); eauto.
  - apply (wp_MoveBefore m l xs); eauto.
  - destruct (Ha a) as [? ?]; [by right; left|]. apply (wp_MoveAfter m l xs); eauto.
Qed.

(** the pointer operations implement a sequence: called with allocated elements
    every operation runs without a nil dereference, turns the list into the one
    its documentation describes and leaves the other lists and all values alone;
    the queries read the ends and the neighbours of that sequence. *)
Theorem list_refines_sequence (m : mem) (l : loc) (xs : list loc) (o : op) :
  rep m l xs -> (forall x, x ∈ args o -> x <> l /\ live m x) ->
  (forall e a, o = OMoveBefore e a -> a ∈ xs) ->
  (exists m', run l o m = (m', Ok tt) /\
     rep m' l (spec o (fun x => own m x = None) xs) /\
     (forall l' ys, l' <> l -> rep m l' ys -> rep m' l' ys) /\
     (forall x, val m' x = val m x)) /\
  Front l m = (m, Ok (head xs)) /\ Back l m = (m, Ok (last xs)) /\
  (forall xs1 e xs2, xs = xs1 ++ e :: xs2 ->
     Next e m = (m, Ok (head xs2)) /\ Prev e m = (m, Ok (last xs1))).
Proof.
  intros Hr Ha Hb. split; [|split; [|split]].
  - destruct (wp_total (run l o) (fun _ m' => exists e, post e l (spec o (fun x => own m x = None) xs) m m') m)
      as ([] & m' & Hm & e & Hp); [eapply wp_op; eauto|].
    exists m'. split; [done|]. split; [apply Hp|]. split; [apply Hp|apply Hp].
  - destruct (wp_total (Front l) (fun r m' => r = head xs /\ m' = m) m) as (? & ? & -> & -> & ->); [|done].
    by apply (wp_Front m l xs).
  - destruct (wp_total (Back l) (fun r m' => r = last xs /\ m' = m) m) as (? & ? & -> & -> & ->); [|done].
    by apply (wp_Back m l xs).
  - intros xs1 e xs2 ->. split.
    + destruct (wp_total (Next e) (fun r m' => r = head xs2 /\ m' = m) m) as (? & ? & -> & -> & ->); [|done].
      by apply (wp_Next m l xs1 e xs2).
    + destruct (wp_total (Prev e) (fun r m' => r = last xs1 /\ m' = m) m) as (? & ? & -> & -> & ->); [|done].
      by apply (wp_Prev m l xs1 e xs2).
Qed.

(** [MoveBefore] with a location that was removed from its list dereferences its
    nil [prev]. *)
Lemma MoveBefore_panics m l xs e a : rep m l xs -> e ∈ xs -> live m a -> e <> a ->
  prv m a = None -> (MoveBefore l e a m).2 = Err NilDeref.
Proof.
  intros Hr He [y Hy] Hne Hp. assert (live m e) as [x Hx] by (apply (rep_live _ _ _ _ Hr); by right).
  assert (own m e = Some l) as Ho by (apply (rep_own _ _ _ Hr); by right).
  unfold prv in Hp. rewrite Hy in Hp. cbn in Hp. unfold own in Ho. rewrite Hx in Ho. cbn in Ho.
  unfold MoveBefore, load, must, get, mbind, M_bind, mret, M_ret.
  rewrite bool_decide_eq_true_2 by done. rewrite Hy. cbn. rewrite Hp, Hx. cbn.
  by rewrite Ho, bool_decide_eq_false_2 by tauto.
Qed.
End facts.

(** ** A concrete list *)
Definition setup : M (@mem Z) PtrErr (loc * loc * loc) :=
  l ← NewList; e1 ← alloc 7; e2 ← alloc 9; PushBack l e1;; PushBack l e2;; mret (l, e1, e2).

Definition setup_mem : @mem Z := (setup (mkMem ∅ ∅)).1.

Lemma setup_rep : rep setup_mem 1%positive [2%positive; 3%positive].
Proof.
  assert (wp never setup (fun r m => rep m r.1.1 [r.1.2; r.2]) (mkMem ∅ ∅)) as Hw.
  { unfold setup. wp_steps. apply wp_NewList; [by intros x l|]. intros l m1 R1 F1.
    assert (live m1 l) as Hl by (apply (rep_live _ _ _ _ R1); by left).
    wp_steps. apply wp_alloc. intros e1 m2 F2 _ O2 _.
    assert (e1 <> l) as Hn1 by (intros ->; by apply (fr_new _ _ _ F2)).
    wp_steps. apply wp_alloc. intros e2 m3 F3 _ O3 _.
    pose proof (fresh_rep _ _ _ _ _ F2 (or_introl O2) R1) as R2.
    pose proof (fresh_rep _ _ _ _ _ F3 (or_introl O3) R2) as R3.
    assert (live m2 e1) as H1 by (apply F2; by right).
    assert (e2 <> l) as Hn2 by (intros ->; apply (fr_new _ _ _ F3), F2; by left).
    assert (e2 <> e1) as Hn3 by (intros ->; by apply (fr_new _ _ _ F3)).
    assert (own m3 e1 = None) as O1.
    { destruct (fr_off _ _ _ F3 e1) as (_ & _ & ->); [by intros ->|done]. }
    wp_steps. apply (wp_PushBack m3 l []); [done..|apply F3; by left|].
    rewrite decide_True by done. intros m4 P4. wp_steps.
    apply (wp_PushBack m4 l [e1]); [apply P4|done|apply (post_live _ _ _ _ _ P4), F3; by right|].
    rewrite decide_True by (by rewrite (post_own _ _ _ _ _ P4)). intros m5 P5. wp_steps. apply P5. }
  apply wp_total in Hw as ([[l e1] e2] & m' & Hs & Hr).
  assert ((setup (mkMem ∅ ∅)).2 = Ok (1%positive, 2%positive, 3%positive)) as Hv by (vm_compute; done).
  rewrite Hs in Hv. injection Hv as -> -> ->. unfold setup_mem. by rewrite Hs.
Qed.

Lemma list_refines_sequence_witness :
  (exists m', run 1 (OMoveToFront 3) setup_mem = (m', Ok tt) /\
     rep m' 1%positive [3%positive; 2%positive]) /\
  Next 2 setup_mem = (setup_mem, Ok (Some 3%positive)).
Proof.
  destruct (list_refines_sequence setup_mem 1 [2%positive; 3%positive] (OMoveToFront 3) setup_rep)
    as ((m' & Hm & Hr & _) & _ & _ & Hq).
  - intros x ->%list_elem_of_singleton. split; [done|].
    apply (rep_live _ _ _ _ setup_rep). by right; right; left.
  - done.
  - split; [by exists m'|]. by apply (Hq [] 2%positive [3%positive]).
Defined.
End LinkedListFacts.
