(* ===== verification/OrderedMap.v ===== *)
(** * Ordered maps: the interface of the linked hashmap

    What [avalanchego/utils/linked.Hashmap] promises to the caches and to the set
    of polls: a finite map whose entries are kept in the order of their last
    [Put], oldest first, and an iterator that tolerates the deletion of the
    entries it has passed.  The clients are proved against these classes;
    [LinkedHashmap] implements them. *)

From S2P Require Import Prelude Monads.

Section assoc.
Context {K V : Type} `{EqDecision K}.
Implicit Types kvs : list (K * V).

(** The entries as a list of pairs with distinct keys, oldest first. *)
Definition kget (k : K) kvs : option V := snd <$> head (filter (fun p => p.1 = k) kvs).
Definition kdel (k : K) kvs : list (K * V) := filter (fun p => p.1 <> k) kvs.
Definition kput (k : K) (v : V) kvs : list (K * V) := kdel k kvs ++ [(k, v)].

Lemma kdel_notin k kvs : k ∉ kvs.*1 -> kdel k kvs = kvs.
Proof.
  unfold kdel. induction kvs as [|[k' v'] kvs IH]; intros Hk; [done|]. cbn in Hk.
  rewrite filter_cons_True by (cbn; set_solver). f_equal. apply IH. set_solver.
Qed.

Lemma kdel_split k v kvs1 kvs2 : NoDup (kvs1 ++ (k, v) :: kvs2).*1 ->
  kdel k (kvs1 ++ (k, v) :: kvs2) = kvs1 ++ kvs2.
Proof.
  rewrite fmap_app. intros (_ & H1 & [H2 _]%NoDup_cons)%NoDup_app.
  unfold kdel. rewrite filter_app, filter_cons_False by tauto.
  f_equal; apply kdel_notin; [|done]. intros Hk. by apply (H1 k Hk); left.
Qed.

Lemma filter_key_nil k kvs : filter (fun p => p.1 = k) kvs = [] <-> k ∉ kvs.*1.
Proof.
  induction kvs as [|[k' v'] kvs IH]; [cbn; set_solver|]. cbn [fmap list_fmap fst].
  destruct (decide (k' = k)) as [->|].
  - rewrite filter_cons_True by done. set_solver.
  - rewrite filter_cons_False by done. rewrite IH. set_solver.
Qed.

Lemma kget_split k v kvs1 kvs2 : NoDup (kvs1 ++ (k, v) :: kvs2).*1 ->
  kget k (kvs1 ++ (k, v) :: kvs2) = Some v.
Proof.
  rewrite fmap_app. intros (_ & H1 & _)%NoDup_app. unfold kget. rewrite filter_app.
  rewrite (proj2 (filter_key_nil k kvs1)); [by rewrite filter_cons_True|].
  intros Hk. by apply (H1 k Hk); left.
Qed.

Lemma kget_None k kvs : kget k kvs = None <-> k ∉ kvs.*1.
Proof.
  unfold kget. rewrite <- filter_key_nil. by destruct (filter _ kvs).
Qed.

Lemma kget_Some k v kvs : NoDup kvs.*1 -> kget k kvs = Some v <->
  exists kvs1 kvs2, kvs = kvs1 ++ (k, v) :: kvs2.
Proof.
  intros Hd. split; [|intros (? & ? & ->); by apply kget_split].
  unfold kget. destruct (filter _ kvs) as [|[k' v'] l] eqn:Hl; [done|]. intros [= ->].
  assert ((k', v) ∈ filter (fun p => p.1 = k) kvs) as [Hk Hin]%list_elem_of_filter
    by (rewrite Hl; by left).
  cbn in Hk. subst. by apply list_elem_of_split in Hin.
Qed.

Lemma kdel_keys k kvs : (kdel k kvs).*1 = filter (fun x => x <> k) kvs.*1.
Proof.
  unfold kdel. induction kvs as [|[k' v] kvs IH]; [done|]. cbn [fmap list_fmap fst].
  destruct (decide (k' = k)) as [->|].
  - by rewrite !filter_cons_False by (cbn; tauto).
  - rewrite !filter_cons_True by done. cbn. by f_equal.
Qed.

Lemma kdel_nodup k kvs : NoDup kvs.*1 -> NoDup (kdel k kvs).*1.
Proof. intros. rewrite kdel_keys. by apply NoDup_filter. Qed.

Lemma kdel_elem k x kvs : x ∈ (kdel k kvs).*1 <-> x <> k /\ x ∈ kvs.*1.
Proof. by rewrite kdel_keys, list_elem_of_filter. Qed.

Lemma kput_nodup k v kvs : NoDup kvs.*1 -> NoDup (kput k v kvs).*1.
Proof.
  intros Hd. unfold kput. rewrite fmap_app, NoDup_app. split; [by apply kdel_nodup|].
  split; [|by apply NoDup_singleton]. intros x [Hx _]%kdel_elem. cbn. set_solver.
Qed.

Lemma kdel_length k kvs : NoDup kvs.*1 ->
  length (kdel k kvs) = (length kvs - if decide (k ∈ kvs.*1) then 1 else 0)%nat.
Proof.
  intros Hd. case_decide as Hk.
  - apply list_elem_of_fmap in Hk as ([k' v] & -> & Hin). apply list_elem_of_split in Hin as (l1 & l2 & ->).
    cbn. rewrite kdel_split by done. rewrite !length_app. cbn. lia.
  - rewrite kdel_notin by done. lia.
Qed.
End assoc.

(** The operations. [It] is the type of the iterators. *)
Class OrderedMap (St E K V It : Type) := {
  om_Put : K -> V -> M St E unit;
  om_Get : K -> M St E (option V);
  om_Delete : K -> M St E bool;
  om_Clear : M St E unit;
  om_Len : M St E Z;
  om_Oldest : M St E (option (K * V));
  om_Newest : M St E (option (K * V));
  om_NewIterator : It;
  om_Next : It -> M St E (bool * It);
  om_Key : It -> K;
  om_Value : It -> V;
}.

(** [om_rep s kvs]: the state [s] holds the entries [kvs].
    [om_iter s it kvs todo]: it does, and the iterator will yield [todo]. *)
Class OrderedMapLaws (St E K V It : Type) `{EqDecision K, OrderedMap St E K V It} := {
  om_rep : St -> list (K * V) -> Prop;
  om_iter : St -> It -> list (K * V) -> list (K * V) -> Prop;
  om_nodup s kvs : om_rep s kvs -> NoDup kvs.*1;
  om_wp_Put {ok} k v s kvs Q : om_rep s kvs ->
    (forall s', om_rep s' (kput k v kvs) -> Q tt s') -> wp ok (om_Put k v) Q s;
  om_wp_Get {ok} k s kvs Q : om_rep s kvs -> Q (kget k kvs) s -> wp ok (om_Get k) Q s;
  om_wp_Delete {ok} k s kvs Q : om_rep s kvs ->
    (forall s', om_rep s' (kdel k kvs) ->
       (forall it todo, om_iter s it kvs todo -> k ∉ todo.*1 -> om_iter s' it (kdel k kvs) todo) ->
       Q (bool_decide (k ∈ kvs.*1)) s') -> wp ok (om_Delete k) Q s;
  om_wp_Clear {ok} s kvs Q : om_rep s kvs -> (forall s', om_rep s' [] -> Q tt s') ->
    wp ok om_Clear Q s;
  om_wp_Len {ok} s kvs Q : om_rep s kvs -> Q (Z.of_nat (length kvs)) s -> wp ok om_Len Q s;
  om_wp_Oldest {ok} s kvs Q : om_rep s kvs -> Q (head kvs) s -> wp ok om_Oldest Q s;
  om_wp_Newest {ok} s kvs Q : om_rep s kvs -> Q (last kvs) s -> wp ok om_Newest Q s;
  om_iter_rep s it kvs todo : om_iter s it kvs todo -> om_rep s kvs;
  om_iter_new s kvs : om_rep s kvs -> om_iter s om_NewIterator kvs kvs;
  om_wp_Next_done {ok} s it kvs Q : om_iter s it kvs [] ->
    (forall it', om_iter s it' kvs [] -> Q (false, it') s) -> wp ok (om_Next it) Q s;
  om_wp_Next {ok} s it kvs k v todo Q : om_iter s it kvs ((k, v) :: todo) ->
    (forall it', om_Key it' = k -> om_Value it' = v -> om_iter s it' kvs todo ->
       Q (true, it') s) -> wp ok (om_Next it) Q s;
}.
