(* ===== verification/LinkedHashmap.v ===== *)
(** * Linked hashmap

    Models [avalanchego/utils/linked/hashmap.go]: a hashmap from keys to elements
    of a doubly linked list of key-value pairs, with a list of free elements that
    are used again.  The store of the elements is part of the state. *)

From S2P Require Import Prelude Monads LinkedList OrderedMap.

Module LinkedHashmap.
Import LinkedList LinkedListFacts.

Section model.
Context {K V : Type} `{Countable K, !Inhabited K, !Inhabited V}.

Abbreviation keyValue := (K * V)%type.
Abbreviation kmem := (@mem keyValue).

Record Hashmap := mkHashmap {
  entryMap : gmap K loc;
  entryList : loc;
  freeList : list loc;
}.

(** The store and the hashmap in it. *)
Record HS := mkHS { heap : kmem; lh : Hashmap }.

Abbreviation HM := (M HS PtrErr).

(** [range] over the entry map: the Go runtime picks the order. *)
Class Range := {
  range : gmap K loc -> list (K * loc);
  range_perm m : range m ≡ₚ map_to_list m;
}.

Definition on_heap {A} (m : M kmem PtrErr A) : HM A :=
  zoom heap (fun h s => mkHS h (lh s)) m.
Definition set_map (f : gmap K loc -> gmap K loc) : HM unit :=
  modify (fun s => mkHS (heap s) (mkHashmap (f (entryMap (lh s))) (entryList (lh s)) (freeList (lh s)))).
Definition set_free (f : list loc -> list loc) : HM unit :=
  modify (fun s => mkHS (heap s) (mkHashmap (entryMap (lh s)) (entryList (lh s)) (f (freeList (lh s))))).

(** [make([]*ListElement, n)] with every element allocated. *)
Fixpoint alloc_free (n : nat) : M kmem PtrErr (list loc) :=
  match n with
  | O => mret []
  | S n => e ← alloc inhabitant; es ← alloc_free n; mret (e :: es)
  end.

Definition NewHashmapWithSize (initialSize : nat) : M kmem PtrErr Hashmap :=
  l ← NewList;
  free ← alloc_free initialSize;
  mret (mkHashmap ∅ l free).

Definition NewHashmap : M kmem PtrErr Hashmap := NewHashmapWithSize 0.

(** An element of the free list, or a new one. *)
Definition take_free : HM loc :=
  s ← get;
  match last (freeList (lh s)) with
  | Some e => set_free (fun es => take (length es - 1) es);; mret e
  | None => on_heap (alloc inhabitant)
  end.

Definition Put (key : K) (value : V) : HM unit :=
  s ← get;
  match entryMap (lh s) !! key with
  | Some e =>
      on_heap (MoveToBack (entryList (lh s)) e);;
      on_heap (set_Value (key, value) e)
  | None =>
      e ← take_free;
      on_heap (set_Value (key, value) e);;
      set_map (<[key := e]>);;
      on_heap (PushBack (entryList (lh s)) e)
  end.

Definition Get (key : K) : HM (option V) :=
  s ← get;
  match entryMap (lh s) !! key with
  | Some e => x ← on_heap (load e); mret (Some (Value x).2)
  | None => mret None
  end.

Definition remove (e : loc) : HM unit :=
  x ← on_heap (load e);
  set_map (delete (Value x).1);;
  s ← get;
  on_heap (Remove (entryList (lh s)) e);;
  on_heap (set_Value inhabitant e);;
  set_free (fun es => es ++ [e]).

Definition Delete (key : K) : HM bool :=
  s ← get;
  match entryMap (lh s) !! key with
  | Some e => remove e;; mret true
  | None => mret false
  end.

Definition Clear `{Range} : HM unit :=
  s ← get;
  foldM (fun _ ke => remove ke.2) (range (entryMap (lh s))) tt.

Definition Len : HM Z := s ← get; mret (Z.of_nat (size (entryMap (lh s)))).

Definition Oldest : HM (option (K * V)) :=
  s ← get;
  f ← on_heap (Front (entryList (lh s)));
  match f with
  | Some e => x ← on_heap (load e); mret (Some (Value x))
  | None => mret None
  end.

Definition Newest : HM (option (K * V)) :=
  s ← get;
  f ← on_heap (Back (entryList (lh s)));
  match f with
  | Some e => x ← on_heap (load e); mret (Some (Value x))
  | None => mret None
  end.

Record Iterator := mkIterator {
  it_key : K;
  it_value : V;
  it_next : option loc;
  initialized : bool;
  exhausted : bool;
}.

Definition NewIterator : Iterator := mkIterator inhabitant inhabitant None false false.

Definition it_done (it : Iterator) (init : bool) : Iterator :=
  mkIterator inhabitant inhabitant None init true.

(** The second half of [Next]: [it.next] is the element to yield. *)
Definition it_yield (next : option loc) : HM (bool * Iterator) :=
  e ← on_heap (deref next);
  x ← on_heap (load e);
  n ← on_heap (Next e);
  mret (true, mkIterator (Value x).1 (Value x).2 n true (bool_decide (n = None))).

Definition it_Next (it : Iterator) : HM (bool * Iterator) :=
  if exhausted it then mret (false, it_done it (initialized it))
  else if negb (initialized it) then
    s ← get;
    oldest ← on_heap (Front (entryList (lh s)));
    match oldest with
    | None => mret (false, it_done it true)
    | Some e => it_yield (Some e)
    end
  else it_yield (it_next it).

(** ** The abstraction: the entries with their elements *)
Record hrep (s : HS) (ents : list (loc * keyValue)) : Prop := {
  hr_list : rep (heap s) (entryList (lh s)) ents.*1;
  hr_val x kv : (x, kv) ∈ ents -> val (heap s) x = Some kv;
  hr_keys : NoDup ents.*2.*1;
  hr_map k x : entryMap (lh s) !! k = Some x <-> exists v, (x, (k, v)) ∈ ents;
  hr_free : NoDup (freeList (lh s));
  hr_free_own x : x ∈ freeList (lh s) -> live (heap s) x /\ own (heap s) x = None;
}.

Lemma on_heap_wp {A} {ok} (m : M kmem PtrErr A) Q s :
  wp ok m (fun a h => Q a (mkHS h (lh s))) (heap s) -> wp ok (on_heap m) Q s.
Proof. apply (wp_zoom ok heap (fun h s => mkHS h (lh s))). Qed.

Lemma hr_nodup s ents : hrep s ents -> NoDup ents.*1.
Proof. intros Hr. by apply hr_list, rep_nodup, NoDup_cons in Hr as [_ ?]. Qed.

Lemma hr_ne s ents x : hrep s ents -> x ∈ ents.*1 -> x <> entryList (lh s).
Proof. intros Hr Hx ->. by apply hr_list, rep_nodup, NoDup_cons in Hr as [? _]. Qed.

Lemma hr_live s ents x : hrep s ents -> x ∈ ents.*1 -> live (heap s) x.
Proof. intros Hr Hx. apply (rep_live _ _ _ _ (hr_list _ _ Hr)). by right. Qed.

Lemma hr_split s ents k x : hrep s ents -> entryMap (lh s) !! k = Some x ->
  exists v es1 es2, ents = es1 ++ (x, (k, v)) :: es2 /\ kget k ents.*2 = Some v /\
    kdel k ents.*2 = (es1 ++ es2).*2 /\ without x ents.*1 = (es1 ++ es2).*1.
Proof.
  intros Hr (v & Hin)%(hr_map _ _ Hr). apply list_elem_of_split in Hin as (es1 & es2 & ->).
  exists v, es1, es2. split; [done|].
  pose proof (hr_keys _ _ Hr) as Hk. pose proof (hr_nodup _ _ Hr) as Hd.
  rewrite !fmap_app in *. cbn in *. rewrite kget_split, kdel_split, without_split; try done;
    by rewrite fmap_app.
Qed.

(** An entry and the others. *)
Lemma hr_others s es1 es2 e k v : hrep s (es1 ++ (e, (k, v)) :: es2) ->
  e ∉ (es1 ++ es2).*1 /\ k ∉ (es1 ++ es2).*2.*1 /\ NoDup (es1 ++ es2).*2.*1.
Proof.
  intros Hr. pose proof (hr_nodup _ _ Hr) as H1. pose proof (hr_keys _ _ Hr) as H2.
  rewrite <- Permutation_middle in H1, H2. cbn in H1, H2.
  apply NoDup_cons in H1 as [H1 _]. by apply NoDup_cons in H2 as [H2 ?].
Qed.

(** Where a key of the others is found. *)
Lemma hr_map_others s es1 es2 e k v k' y : hrep s (es1 ++ (e, (k, v)) :: es2) ->
  entryMap (lh s) !! k' = Some y <->
    (k' = k /\ y = e) \/ exists v', (y, (k', v')) ∈ es1 ++ es2.
Proof.
  intros Hr. rewrite (hr_map _ _ Hr). split.
  - intros [v' Hin]. rewrite <- Permutation_middle in Hin.
    apply elem_of_cons in Hin as [[= -> -> ->]|Hin]; [by left|right; by exists v'].
  - intros [[-> ->]|[v' Hin]]; [exists v|exists v']; set_solver.
Qed.

Lemma hr_none s ents k : hrep s ents -> entryMap (lh s) !! k = None ->
  k ∉ ents.*2.*1 /\ kget k ents.*2 = None /\ kdel k ents.*2 = ents.*2.
Proof.
  intros Hr Hn. assert (k ∉ ents.*2.*1) as Hk.
  { intros ([k' v] & Hk & ([x kv] & E & Hin)%list_elem_of_fmap)%list_elem_of_fmap.
    cbn in Hk, E. subst kv k'. assert (entryMap (lh s) !! k = Some x) as Hs; [|congruence].
    apply (hr_map _ _ Hr). by exists v. }
  split; [done|]. split; [by apply kget_None|by apply kdel_notin].
Qed.

(** The state after an operation whose list is [es1 ++ es2 ++ [(x, kv)]]: the entry
    [(x, kv)] was moved to the end or inserted there. *)
Lemma hrep_last (s' : HS) (es : list (loc * keyValue)) (x : loc) k v :
  rep (heap s') (entryList (lh s')) (es ++ [(x, (k, v))]).*1 ->
  (forall y kv, (y, kv) ∈ es -> val (heap s') y = Some kv) ->
  val (heap s') x = Some (k, v) ->
  NoDup es.*2.*1 -> k ∉ es.*2.*1 ->
  (forall k' y, entryMap (lh s') !! k' = Some y <->
     (k' = k /\ y = x) \/ exists v', (y, (k', v')) ∈ es) ->
  NoDup (freeList (lh s')) ->
  (forall y, y ∈ freeList (lh s') -> live (heap s') y /\ own (heap s') y = None) ->
  hrep s' (es ++ [(x, (k, v))]).
Proof.
  intros Hr Hv Hx Hd Hk Hm Hf Hfo. split; try done.
  - intros y kv. rewrite elem_of_app, list_elem_of_singleton. intros [Hin|[= -> ->]]; auto.
  - rewrite !fmap_app, NoDup_app. split; [done|]. split; [|by apply NoDup_singleton].
    cbn. set_solver.
  - intros k' y. rewrite Hm. split.
    + intros [[-> ->]|[v' Hin]]; [exists v|exists v']; set_solver.
    + intros [v' Hin]. apply elem_of_app in Hin as [Hin|Hin%list_elem_of_singleton]; [by right; exists v'|].
      injection Hin as -> -> ->. by left.
Qed.

Lemma wp_take_free {ok} s ents Q : hrep s ents ->
  (forall e s', hrep s' ents -> entryMap (lh s') = entryMap (lh s) ->
     entryList (lh s') = entryList (lh s) -> live (heap s') e -> own (heap s') e = None ->
     e ∉ freeList (lh s') -> Q e s') ->
  wp ok take_free Q s.
Proof.
  intros Hr HQ. unfold take_free. wp_steps.
  destruct (last (freeList (lh s))) as [e|] eqn:Hl; cycle 1.
  { apply on_heap_wp, wp_alloc. intros x h F Hv Ho _.
    assert (forall y, live (heap s) y -> y <> x) as Hne
      by (intros y Hy ->; by apply (fr_new _ _ _ F)).
    apply HQ; try done; [|apply F; by right|].
    - destruct Hr as [Hr Hval Hk Hm Hf Hfo]. split; try done; cbn.
      + eapply fresh_rep; [done|by left|done].
      + intros y kv Hin. rewrite (fr_val _ _ _ F); [by apply Hval|].
        apply Hne, (rep_live _ _ _ _ Hr). right. apply list_elem_of_fmap. by exists (y, kv).
      + intros y Hy. destruct (Hfo y Hy) as [Hly Hoy].
        destruct (fr_off _ _ _ F y) as (_ & _ & ->); [by apply Hne|]. split; [|done].
        apply F. by left.
    - intros [Hin _]%(hr_free_own _ _ Hr). by apply (Hne x). }
  wp_steps. apply last_Some in Hl as [fs Hl].
  destruct Hr as [Hr Hval Hk Hm Hf Hfo]. rewrite Hl in *.
  replace (length (fs ++ [e]) - 1)%nat with (length fs) in * by (rewrite length_app; cbn; lia).
  apply NoDup_app in Hf as (Hf1 & Hf2 & _).
  destruct (Hfo e) as [Hle Hoe]; [set_solver|].
  unfold set_free. wp_steps.
  replace (take (length (freeList (lh s)) - 1) (freeList (lh s))) with fs
    by (rewrite Hl, length_app; cbn; rewrite Nat.add_sub, take_app_length; done).
  apply HQ; try done; [split; try done; cbn; intros; apply Hfo; set_solver|].
  cbn. intros Hin. apply (Hf2 e Hin). by left.
Qed.

Lemma wp_hm_Put {ok} k v s ents Q : hrep s ents ->
  (forall s' ents', hrep s' ents' -> ents'.*2 = kput k v ents.*2 -> Q tt s') ->
  wp ok (Put k v) Q s.
Proof.
  intros Hr HQ. unfold Put. wp_steps. destruct (entryMap (lh s) !! k) as [e|] eqn:He.
  - destruct (hr_split _ _ _ _ Hr He) as (v0 & es1 & es2 & -> & _ & Hkd & Hw).
    assert (e ∈ (es1 ++ (e, (k, v0)) :: es2).*1) as Hin by (rewrite fmap_app; set_solver).
    wp_steps. apply on_heap_wp. eapply wp_MoveToBack; [apply Hr|by eapply hr_ne|by eapply hr_live|].
    rewrite decide_True, Hw by done. intros h1 P1.
    apply on_heap_wp, wp_set_Value; [by apply (post_live _ _ _ _ _ P1), (hr_live _ _ _ Hr)|]. intros h2 R2.
    apply (HQ _ ((es1 ++ es2) ++ [(e, (k, v))])); cycle 1.
    { rewrite fmap_app. unfold kput. by rewrite Hkd. }
    destruct (hr_others _ _ _ _ _ _ Hr) as (H1 & H2 & H3).
    apply hrep_last; cbn; try done.
    + eapply revalued_rep; [done|]. rewrite fmap_app. apply P1.
    + intros y kv Hy. rewrite (rv_val _ _ _ _ R2), decide_False.
      * rewrite (post_val _ _ _ _ _ P1). apply (hr_val _ _ Hr). set_solver.
      * intros ->. by apply (list_elem_of_fmap_2 fst) in Hy.
    + by rewrite (rv_val _ _ _ _ R2), decide_True.
    + intros k' y. by eapply hr_map_others.
    + apply (hr_free _ _ Hr).
    + intros y Hy. destruct (hr_free_own _ _ Hr y Hy) as [Hly Hoy].
      rewrite (rv_own _ _ _ _ R2), (rv_live _ _ _ _ R2), (post_live _ _ _ _ _ P1).
      rewrite (post_own _ _ _ _ _ P1); [done|]. intros ->.
      rewrite (proj2 (rep_own _ _ _ (hr_list _ _ Hr) e)) in Hoy; [done|by right].
  - destruct (hr_none _ _ _ Hr He) as (Hk & _ & Hkd). apply wp_bind, (wp_take_free s ents); [done|].
    intros e s1 Hr1 Em El Hle Hoe Hfe. rewrite <- El. wp_steps.
    apply on_heap_wp, wp_set_Value; [done|]. intros h2 R2. unfold set_map. wp_steps. cbn.
    assert (rep h2 (entryList (lh s1)) ents.*1) as Hrep by (eapply revalued_rep, Hr1; done).
    assert (own h2 e = None) as Ho2 by by rewrite (rv_own _ _ _ _ R2).
    assert (e <> entryList (lh s1)) as Hne.
    { intros ->. rewrite (proj2 (rep_own _ _ _ (hr_list _ _ Hr1) _)) in Hoe; [done|by left]. }
    assert (e ∉ ents.*1) as Hni.
    { intros Hin. rewrite (proj2 (rep_own _ _ _ (hr_list _ _ Hr1) _)) in Hoe; [done|by right]. }
    apply on_heap_wp. eapply wp_PushBack; [done|done|by apply R2|].
    rewrite decide_True by done. intros h3 P3.
    apply (HQ _ (ents ++ [(e, (k, v))])); cycle 1.
    { rewrite fmap_app. unfold kput. by rewrite Hkd. }
    apply hrep_last; cbn; try done.
    + rewrite fmap_app. apply P3.
    + intros y kv Hy. rewrite (post_val _ _ _ _ _ P3), (rv_val _ _ _ _ R2), decide_False.
      * by apply (hr_val _ _ Hr1).
      * intros ->. by apply (list_elem_of_fmap_2 fst) in Hy.
    + by rewrite (post_val _ _ _ _ _ P3), (rv_val _ _ _ _ R2), decide_True.
    + apply (hr_keys _ _ Hr).
    + intros k' y. rewrite lookup_insert_Some, (hr_map _ _ Hr1). split.
      * intros [[-> ->]|[_ ?]]; [by left|by right].
      * intros [[-> ->]|[v' Hin]]; [by left|right]. split; [|by exists v'].
        intros ->. destruct Hk. apply (list_elem_of_fmap_2 snd) in Hin.
        by apply (list_elem_of_fmap_2 fst) in Hin.
    + apply (hr_free _ _ Hr1).
    + intros y Hy. destruct (hr_free_own _ _ Hr1 y Hy) as [Hly Hoy].
      rewrite (post_live _ _ _ _ _ P3), (rv_live _ _ _ _ R2), (post_own _ _ _ _ _ P3),
        (rv_own _ _ _ _ R2); [done|]. by intros ->.
Qed.

(** ** Deletion *)
Definition edel (k : K) (ents : list (loc * keyValue)) : list (loc * keyValue) :=
  filter (fun p => p.2.1 <> k) ents.

Lemma edel_notin k ents : k ∉ ents.*2.*1 -> edel k ents = ents.
Proof.
  unfold edel. induction ents as [|[x [k' v]] ents IH]; intros Hk; [done|]. cbn in Hk.
  rewrite filter_cons_True by (cbn; set_solver). f_equal. apply IH. set_solver.
Qed.

Lemma edel_app k es1 es2 : edel k (es1 ++ es2) = edel k es1 ++ edel k es2.
Proof. apply filter_app. Qed.

Lemma edel_split k e v es1 es2 : k ∉ (es1 ++ es2).*2.*1 ->
  edel k (es1 ++ (e, (k, v)) :: es2) = es1 ++ es2.
Proof.
  rewrite !fmap_app. intros Hk. rewrite edel_app. unfold edel at 2.
  rewrite filter_cons_False by (cbn; tauto). fold (edel k es2).
  rewrite !edel_notin; [done|set_solver..].
Qed.

Lemma edel_kdel k ents : (edel k ents).*2 = kdel k ents.*2.
Proof.
  unfold edel, kdel. induction ents as [|[x [k' v]] ents IH]; [done|]. cbn [fmap list_fmap snd].
  destruct (decide (k' = k)) as [->|].
  - by rewrite !filter_cons_False by (cbn; tauto).
  - rewrite !filter_cons_True by done. cbn. by f_equal.
Qed.

Lemma wp_remove {ok} s es1 e k v es2 Q : hrep s (es1 ++ (e, (k, v)) :: es2) ->
  (forall s', hrep s' (es1 ++ es2) -> entryMap (lh s') = delete k (entryMap (lh s)) -> Q tt s') ->
  wp ok (remove e) Q s.
Proof.
  intros Hr HQ. destruct (hr_others _ _ _ _ _ _ Hr) as (H1 & H2 & H3).
  assert (e ∈ (es1 ++ (e, (k, v)) :: es2).*1) as Hin by (rewrite fmap_app; set_solver).
  pose proof (hr_live _ _ _ Hr Hin) as Hle. pose proof (hr_ne _ _ _ Hr Hin) as Hne.
  assert (own (heap s) e = Some (entryList (lh s))) as Ho
    by (apply (rep_own _ _ _ (hr_list _ _ Hr)); by right).
  unfold remove. wp_steps. apply on_heap_wp, live_load; [done|]. intros x _ _ _ _ Hx.
  rewrite (hr_val _ _ Hr e (k, v)) in Hx by set_solver. injection Hx as Hx. rewrite Hx. cbn [fst].
  unfold set_map. wp_steps. cbn. apply on_heap_wp. eapply wp_Remove; [apply Hr|done|done|].
  rewrite fmap_app. cbn [fmap list_fmap fst]. rewrite without_split
    by (pose proof (hr_nodup _ _ Hr) as Hd; by rewrite fmap_app in Hd).
  rewrite <- fmap_app. intros h1 P1 Ho1. specialize (Ho1 Ho). cbn.
  apply wp_bind, on_heap_wp, wp_set_Value; [by apply (post_live _ _ _ _ _ P1)|]. intros h2 R2.
  unfold set_free. wp_steps. apply HQ; [|done]. cbn. split; cbn.
  - eapply revalued_rep; [done|apply P1].
  - intros y kv Hy. rewrite (rv_val _ _ _ _ R2), decide_False.
    + rewrite (post_val _ _ _ _ _ P1). apply (hr_val _ _ Hr). set_solver.
    + intros ->. by apply (list_elem_of_fmap_2 fst) in Hy.
  - done.
  - intros k' y. rewrite lookup_delete_Some, (hr_map_others _ _ _ _ _ _ _ _ Hr). split.
    + intros [Hk [[-> _]|?]]; done.
    + intros Hv. split; [|by right]. intros ->. destruct Hv as [v' Hv], H2.
      apply (list_elem_of_fmap_2 snd) in Hv. by apply (list_elem_of_fmap_2 fst) in Hv.
  - apply NoDup_app. split; [apply (hr_free _ _ Hr)|]. split; [|by apply NoDup_singleton].
    intros y Hy ->%list_elem_of_singleton. apply (hr_free_own _ _ Hr) in Hy as [_ Hy]. congruence.
  - intros y [Hy| ->%list_elem_of_singleton]%elem_of_app;
      rewrite (rv_live _ _ _ _ R2), (post_live _ _ _ _ _ P1), (rv_own _ _ _ _ R2); [|done].
    apply (hr_free_own _ _ Hr) in Hy as [Hy Hyo].
    rewrite (post_own _ _ _ _ _ P1); [done|]. intros ->. congruence.
Qed.

Lemma wp_Delete {ok} k s ents Q : hrep s ents ->
  (forall s', hrep s' (edel k ents) -> Q (bool_decide (k ∈ ents.*2.*1)) s') ->
  wp ok (Delete k) Q s.
Proof.
  intros Hr HQ. unfold Delete. wp_steps. destruct (entryMap (lh s) !! k) as [e|] eqn:He.
  - destruct (hr_split _ _ _ _ Hr He) as (v & es1 & es2 & -> & _).
    destruct (hr_others _ _ _ _ _ _ Hr) as (_ & H2 & _).
    rewrite edel_split, bool_decide_eq_true_2 in HQ by (done || (rewrite !fmap_app; set_solver)).
    apply wp_bind. eapply wp_remove; [done|]. intros s' Hr' _. by apply wp_ret, HQ.
  - destruct (hr_none _ _ _ Hr He) as (Hk & _ & _).
    rewrite edel_notin, bool_decide_eq_false_2 in HQ by done. by apply wp_ret, HQ.
Qed.

Lemma wp_hm_Get {ok} k s ents Q : hrep s ents -> Q (kget k ents.*2) s -> wp ok (Get k) Q s.
Proof.
  intros Hr HQ. unfold Get. wp_steps. destruct (entryMap (lh s) !! k) as [e|] eqn:He.
  - destruct (hr_split _ _ _ _ Hr He) as (v & es1 & es2 & -> & Hk & _). rewrite Hk in HQ.
    wp_steps. apply on_heap_wp, live_load.
    + apply (hr_live _ _ _ Hr). rewrite fmap_app. set_solver.
    + intros x _ _ _ _ Hx. rewrite (hr_val _ _ Hr e (k, v)) in Hx by set_solver.
      injection Hx as Hx. apply wp_ret. rewrite Hx. by destruct s.
  - destruct (hr_none _ _ _ Hr He) as (_ & Hk & _). rewrite Hk in HQ. by apply wp_ret.
Qed.

Lemma wp_Clear `{Range} {ok} s ents Q : hrep s ents -> (forall s', hrep s' [] -> Q tt s') ->
  wp ok Clear Q s.
Proof.
  intros Hr HQ. unfold Clear. wp_steps.
  apply (wp_foldM _ _ _ _ _ (fun dn _ s' => exists es, hrep s' es /\
    forall k x, entryMap (lh s') !! k = Some x <->
      entryMap (lh s) !! k = Some x /\ k ∉ dn.*1)).
  - exists ents. split; [done|]. intros. cbn. set_solver.
  - intros dn [k e] rest [] s1 Hrg (es & Hr1 & Hm).
    assert (NoDup (range (entryMap (lh s))).*1) as Hd
      by (rewrite range_perm; apply NoDup_fst_map_to_list).
    rewrite Hrg, fmap_app in Hd. apply NoDup_app in Hd as (_ & Hd1 & Hd2).
    assert (entryMap (lh s1) !! k = Some e) as He.
    { apply Hm. split; [|intros Hk; apply (Hd1 k Hk); by left].
      apply elem_of_map_to_list. rewrite <- range_perm, Hrg. set_solver. }
    destruct (hr_split _ _ _ _ Hr1 He) as (v & es1 & es2 & -> & _).
    cbn [snd]. eapply wp_remove; [done|]. intros s2 Hr2 Em. exists (es1 ++ es2). split; [done|].
    intros k' x. rewrite Em, lookup_delete_Some, Hm, fmap_app. cbn. set_solver.
  - intros [] s1 (es & Hr1 & Hm). apply HQ.
    destruct es as [|[x [k v]] es]; [done|]. exfalso.
    assert (entryMap (lh s1) !! k = Some x) as Hk by (apply (hr_map _ _ Hr1); exists v; by left).
    apply Hm in Hk as [Hk Hn]. destruct Hn. apply list_elem_of_fmap. exists (k, x). split; [done|].
    rewrite range_perm. by apply elem_of_map_to_list.
Qed.

Lemma wp_Len {ok} s ents Q : hrep s ents -> Q (Z.of_nat (length ents)) s -> wp ok Len Q s.
Proof.
  intros Hr HQ. unfold Len. wp_steps.
  assert (entryMap (lh s) = list_to_map ((fun p => (p.2.1, p.1)) <$> ents)) as ->.
  { apply map_eq. intros k. apply option_eq. intros x. rewrite (hr_map _ _ Hr).
    rewrite <- elem_of_list_to_map.
    - rewrite list_elem_of_fmap. split; [intros [v Hv]; by exists (x, (k, v))|].
      intros ([y [k' v]] & [= -> ->] & Hin). by exists v.
    - rewrite <- list_fmap_compose. cbn. pose proof (hr_keys _ _ Hr) as Hd.
      by rewrite <- list_fmap_compose in Hd. }
  rewrite map_size_list_to_map, length_fmap; [done|].
  rewrite <- list_fmap_compose. cbn. pose proof (hr_keys _ _ Hr) as Hd.
  by rewrite <- list_fmap_compose in Hd.
Qed.

Lemma wp_load_entry {ok} s ents x kv (f : keyValue -> HM (option keyValue)) Q : hrep s ents ->
  (x, kv) ∈ ents -> wp ok (f kv) Q s ->
  wp ok (y ← on_heap (load x); f (Value y)) Q s.
Proof.
  intros Hr Hin HQ. wp_steps. apply on_heap_wp, live_load.
  - apply (hr_live _ _ _ Hr). apply list_elem_of_fmap. by exists (x, kv).
  - intros y _ _ _ _ Hy. rewrite (hr_val _ _ Hr x kv Hin) in Hy. injection Hy as ->.
    by destruct s.
Qed.

Lemma wp_Oldest {ok} s ents Q : hrep s ents -> Q (head ents.*2) s -> wp ok Oldest Q s.
Proof.
  intros Hr HQ. unfold Oldest. wp_steps. apply on_heap_wp. eapply wp_Front; [apply Hr|].
  destruct ents as [|[x kv] ents]; destruct s; [exact HQ|].
  eapply (wp_load_entry _ _ x kv (fun kv => mret (Some kv))); [done|by left|done].
Qed.

Lemma wp_Newest {ok} s ents Q : hrep s ents -> Q (last ents.*2) s -> wp ok Newest Q s.
Proof.
  intros Hr HQ. unfold Newest. wp_steps. apply on_heap_wp. eapply wp_Back; [apply Hr|].
  destruct ents as [|[x kv] ents _] using rev_ind; destruct s; [exact HQ|].
  rewrite fmap_last, last_snoc in HQ. rewrite fmap_last, last_snoc. cbn [fmap option_fmap option_map].
  eapply (wp_load_entry _ _ x kv (fun kv => mret (Some kv))); [done|set_solver|exact HQ].
Qed.

(** ** Iterators *)
Definition hiter (s : HS) (it : Iterator) (kvs todo : list keyValue) : Prop :=
  exists ents, hrep s ents /\ ents.*2 = kvs /\
  ((initialized it = false /\ exhausted it = false /\ todo = kvs) \/
   (exhausted it = true /\ todo = []) \/
   (initialized it = true /\ exhausted it = false /\
    exists dn x kv rest, ents = dn ++ (x, kv) :: rest /\ it_next it = Some x /\
      todo = kv :: rest.*2)).

Lemma wp_yield {ok} s dn x k v rest Q : hrep s (dn ++ (x, (k, v)) :: rest) ->
  (forall it, it_key it = k -> it_value it = v ->
     hiter s it (dn ++ (x, (k, v)) :: rest).*2 rest.*2 -> Q (true, it) s) ->
  wp ok (it_yield (Some x)) Q s.
Proof.
  intros Hr HQ. assert (x ∈ (dn ++ (x, (k, v)) :: rest).*1) as Hin by (rewrite fmap_app; set_solver).
  unfold it_yield. wp_steps. apply on_heap_wp. apply wp_must. exists x. split; [done|].
  wp_steps. apply on_heap_wp, live_load; [by apply (hr_live _ _ _ Hr)|]. intros y _ _ _ _ Hy.
  cbn in Hy. rewrite (hr_val _ _ Hr x (k, v)) in Hy by set_solver. injection Hy as Hy.
  wp_steps. apply on_heap_wp. pose proof (hr_list _ _ Hr) as Hl. rewrite fmap_app in Hl.
  eapply wp_Next; [exact Hl|]. cbn [heap lh]. wp_steps.
  destruct s as [h m]. apply HQ; [cbn; by rewrite Hy..|].
  exists (dn ++ (x, (k, v)) :: rest). split; [done|]. split; [done|]. cbn.
  destruct rest as [|[z kv] rest]; [right; left; split; [by rewrite bool_decide_eq_true_2|done]|].
  right; right. split; [done|]. split; [by rewrite bool_decide_eq_false_2|].
  exists (dn ++ [(x, (k, v))]), z, kv, rest. split; [by rewrite <- app_assoc|done].
Qed.

Lemma hiter_delete s s' k it kvs todo :
  (forall ents, hrep s ents -> hrep s' (edel k ents)) -> k ∉ todo.*1 ->
  hiter s it kvs todo -> hiter s' it (kdel k kvs) todo.
Proof.
  intros Hd Hk (ents & Hr & <- & Hc). exists (edel k ents).
  split; [by apply Hd|]. split; [apply edel_kdel|].
  destruct Hc as [(? & ? & ->)|[?|(? & ? & dn & x & kv & rest & -> & ? & ->)]].
  - left. by rewrite kdel_notin.
  - by right; left.
  - right; right. split; [done|]. split; [done|]. exists (edel k dn), x, kv, rest.
    rewrite edel_app, (edel_notin k ((x, kv) :: rest)) by done. done.
Qed.

#[export] Instance hashmap_ordered `{Range} : OrderedMap HS PtrErr K V Iterator := {|
  om_Put := Put;
  om_Get := Get;
  om_Delete := Delete;
  om_Clear := Clear;
  om_Len := Len;
  om_Oldest := Oldest;
  om_Newest := Newest;
  om_NewIterator := NewIterator;
  om_Next := it_Next;
  om_Key := it_key;
  om_Value := it_value;
|}.

#[export, refine] Instance hashmap_laws `{Range} : OrderedMapLaws HS PtrErr K V Iterator := {|
  om_rep s kvs := exists ents, hrep s ents /\ ents.*2 = kvs;
  om_iter := hiter;
|}.
Proof.
  - intros s kvs (ents & Hr & <-). apply (hr_keys _ _ Hr).
  - intros ok k v s kvs Q (ents & Hr & <-) HQ. eapply wp_hm_Put; [done|]. intros s' ents' Hr' E.
    apply HQ. by exists ents'.
  - intros ok k s kvs Q (ents & Hr & <-) HQ. by eapply wp_hm_Get.
  - intros ok k s kvs Q (ents & Hr & <-) HQ.
    eapply wp_mono; [apply (wp_forall _ (hrep s) _ (fun es b s' => hrep s' (edel k es) /\
      b = bool_decide (k ∈ es.*2.*1))); [by exists ents|]|].
    + intros es Hes. by eapply wp_Delete.
    + cbv beta. intros b s' Hall. destruct (Hall ents Hr) as [Hr' ->]. apply HQ.
      * exists (edel k ents). split; [done|]. apply edel_kdel.
      * intros it todo Hit Hk. eapply hiter_delete; [|done|done]. intros es Hes. by apply Hall.
  - intros ok s kvs Q (ents & Hr & <-) HQ. eapply wp_Clear; [done|]. intros s' Hr'.
    apply HQ. by exists [].
  - intros ok s kvs Q (ents & Hr & <-) HQ. eapply wp_Len; [done|]. by rewrite length_fmap in HQ.
  - intros ok s kvs Q (ents & Hr & <-) HQ. by eapply wp_Oldest.
  - intros ok s kvs Q (ents & Hr & <-) HQ. by eapply wp_Newest.
  - intros s it kvs todo (ents & Hr & E & _). by exists ents.
  - intros s kvs (ents & Hr & E). exists ents. split; [done|]. split; [done|]. by left.
  - intros ok s it kvs Q (ents & Hr & <- & Hc) HQ. change (om_Next it) with (it_Next it). unfold it_Next.
    assert (forall b, hiter s (it_done it b) ents.*2 []) as Hd
      by (intros b; exists ents; split; [done|]; split; [done|]; by right; left).
    destruct Hc as [(Hi & He & Ht)|[[He _]|(? & ? & dn & x & kv & rest & _ & _ & ?)]]; [| |done].
    + rewrite He, Hi. cbn [negb]. wp_steps. apply on_heap_wp. eapply wp_Front; [apply Hr|].
      destruct ents as [|[x kv] ents]; [|done]. destruct s. by apply HQ.
    + rewrite He. by apply HQ.
  - intros ok s it kvs k v todo Q (ents & Hr & <- & Hc) HQ. change (om_Next it) with (it_Next it). unfold it_Next.
    destruct Hc as [(Hi & He & Ht)|[[_ ?]|(Hi & He & dn & x & [k' v'] & rest & -> & Hx & Ht)]]; [|done|].
    + rewrite He, Hi. cbn [negb]. wp_steps. apply on_heap_wp. eapply wp_Front; [apply Hr|].
      destruct ents as [|[x [k' v']] ents]; [done|]. injection Ht as -> -> ->.
      destruct s. apply (wp_yield _ [] x k' v' ents); [done|]. intros it' H1 H2 H3. by apply HQ.
    + injection Ht as -> -> ->. rewrite He, Hi, Hx. cbn [negb].
      apply (wp_yield _ dn x k' v' rest); [done|]. intros it' H1 H2 H3. by apply HQ.
Defined.

(** ** Construction *)
Lemma wp_alloc_free {ok} n m l Q : rep m l [] ->
  (forall es m', rep m' l [] -> NoDup es ->
     (forall x, x ∈ es -> live m' x /\ own m' x = None /\ ~ live m x) ->
     (forall x, live m x -> live m' x /\ own m' x = own m x) -> Q es m') ->
  wp ok (alloc_free n) Q m.
Proof.
  revert m Q. induction n as [|n IH]; intros m Q Hr HQ; cbn [alloc_free].
  { apply HQ; try done; [by constructor|]. intros x Hx. by apply not_elem_of_nil in Hx. }
  wp_steps. apply wp_alloc. intros e m1 F _ Ho _. wp_steps.
  assert (live m1 e) as Hle by (apply F; by right).
  apply IH; [by eapply fresh_rep; [|left|]|]. intros es m2 Hr2 Hd Hes Hl. wp_steps.
  assert (forall x, live m x -> live m1 x /\ own m1 x = own m x) as Hm1.
  { intros x Hx. split; [apply F; by left|].
    destruct (fr_off _ _ _ F x) as (_ & _ & ->); [|done]. intros ->. by apply (fr_new _ _ _ F). }
  apply HQ; [done| | |].
  - constructor; [|done]. intros Hin. by destruct (Hes e Hin) as (_ & _ & []).
  - intros x [->|Hx]%elem_of_cons.
    + destruct (Hl e Hle) as [? ->]. split; [done|]. split; [done|apply (fr_new _ _ _ F)].
    + destruct (Hes x Hx) as (? & ? & Hn). split; [done|]. split; [done|].
      intros Hx'. by apply Hn, Hm1.
  - intros x Hx. destruct (Hm1 x Hx) as [H1 <-]. by apply Hl.
Qed.

Lemma wp_NewHashmap {ok} n m Q : owned m ->
  (forall hm m', hrep (mkHS m' hm) [] -> Q hm m') -> wp ok (NewHashmapWithSize n) Q m.
Proof.
  intros Ho HQ. unfold NewHashmapWithSize. wp_steps. apply wp_NewList; [done|]. intros l m1 Hr _.
  wp_steps. apply (wp_alloc_free _ _ l); [done|]. intros es m2 Hr2 Hd Hes _. wp_steps.
  apply HQ. split; cbn; try done.
  - intros x kv Hx. by apply not_elem_of_nil in Hx.
  - by constructor.
  - intros k x. rewrite lookup_empty. split; [done|]. intros [v Hv]. by apply not_elem_of_nil in Hv.
  - intros x Hx. by destruct (Hes x Hx) as (? & ? & _).
Qed.

(** C36: the linked hashmap implements the ordered map: a [Put] makes its key the
    newest and keeps the others in order, a deletion removes one entry, the free
    list never hands out an element that is in use, and no operation dereferences
    a nil pointer. *)
Theorem hashmap_refines_ordered_map `{Range} (s : HS) (ents : list (loc * keyValue)) (k : K) (v : V) :
  hrep s ents ->
  let kvs := ents.*2 in
  (exists s' ents', Put k v s = (s', Ok tt) /\ hrep s' ents' /\ ents'.*2 = kput k v kvs) /\
  Get k s = (s, Ok (kget k kvs)) /\
  (exists s', Delete k s = (s', Ok (bool_decide (k ∈ kvs.*1))) /\ hrep s' (edel k ents)) /\
  (exists s', Clear s = (s', Ok tt) /\ hrep s' []) /\
  Len s = (s, Ok (Z.of_nat (length kvs))) /\
  Oldest s = (s, Ok (head kvs)) /\ Newest s = (s, Ok (last kvs)).
Proof.
  intros Hr kvs. subst kvs.
  assert (forall A (m : HM A) a, (forall ok, wp ok m (fun r s' => r = a /\ s' = s) s) ->
    m s = (s, Ok a)) as Hq.
  { intros A m a Hw. destruct (wp_total m _ s (Hw never)) as (? & ? & -> & -> & ->). done. }
  split; [|split; [|split; [|split; [|split; [|split]]]]]; try apply Hq; try intros ok.
  - destruct (wp_total (Put k v) (fun _ s' => exists e, hrep s' e /\ e.*2 = kput k v ents.*2) s)
      as ([] & s' & Hs & e & He & Hk); [|by exists s', e].
    eapply wp_hm_Put; [done|]. eauto.
  - by eapply wp_hm_Get.
  - destruct (wp_total (Delete k) (fun b s' => hrep s' (edel k ents) /\ b = bool_decide (k ∈ ents.*2.*1)) s)
      as (b & s' & Hs & He & ->); [|by exists s'].
    eapply wp_Delete; [done|]. eauto.
  - destruct (wp_total Clear (fun _ s' => hrep s' []) s) as ([] & s' & Hs & He); [|by exists s'].
    by eapply wp_Clear; [|].
  - eapply wp_Len; [done|]. by rewrite length_fmap.
  - by eapply wp_Oldest.
  - by eapply wp_Newest.
Qed.
End model.

(** A run time that ranges over the keys in the order of [gmap]. *)
Definition key_range {K} `{Countable K} : Range (K := K) := {|
  range m := map_to_list m;
  range_perm m := Permutation_refl _;
|}.

(** A new hashmap in an empty store. *)
Section new.
Context {K V : Type} `{Countable K, !Inhabited K, !Inhabited V}.

Definition new_state (n : nat) : HS (K := K) (V := V) :=
  let '(m, r) := NewHashmapWithSize n (mkMem ∅ ∅) in
  mkHS m (match r with Ok hm => hm | Err _ => mkHashmap ∅ 1%positive [] end).

Lemma new_state_rep n : hrep (new_state n) [].
Proof.
  assert (wp never (NewHashmapWithSize n) (fun hm m => hrep (mkHS m hm) []) (mkMem ∅ ∅ : @mem (K * V)))
    as Hw by (apply wp_NewHashmap; [by intros x l|done]).
  unfold new_state. apply wp_total in Hw as (hm & m & Hs & Hr). by rewrite Hs.
Qed.
End new.

Lemma hashmap_refines_ordered_map_witness :
  (exists s' ents', Put 4 40 (new_state 1) = (s', Ok tt) /\ hrep s' ents' /\
     ents'.*2 = [(4, 40)]) /\
  Get (K := Z) (V := Z) 4 (new_state 1) = (new_state 1, Ok None).
Proof.
  destruct (hashmap_refines_ordered_map (H0 := key_range) (new_state 1) [] 4 40 (new_state_rep 1))
    as (HP & HG & _). by split.
Defined.
End LinkedHashmap.
