(* ===== verification/Lru.v ===== *)
(** * LRU caches

    Models [avalanchego/cache/lru/cache.go] and [sized_cache.go]: the cache that
    is bounded by its number of elements and the cache that is bounded by the
    total size of its elements, over any ordered map.  The locks make every method
    one step, so a method is one computation.  [onEvict] is the log of its calls. *)

From S2P Require Import Prelude Monads OrderedMap LinkedList LinkedHashmap.

Module Lru.
Section cache.
Context {St E K V It : Type} `{OrderedMapLaws St E K V It} (oof : E).

Record Cache := mkCache {
  elements : St;
  size : Z;
  evicted : list (K * V);
}.

Abbreviation CM := (M Cache E).

Definition on_elements {A} (m : M St E A) : CM A :=
  zoom elements (fun s c => mkCache s (size c) (evicted c)) m.

Definition NewCacheWithOnEvict (elems : St) (size : Z) : Cache :=
  mkCache elems (Z.max size 1) [].

Definition evict (key : K) (value : V) : CM unit :=
  modify (fun c => mkCache (elements c) (size c) (evicted c ++ [(key, value)]));;
  on_elements (om_Delete key);;
  mret tt.

Definition Put (key : K) (value : V) : CM unit :=
  n ← on_elements om_Len;
  c ← get;
  (if n =? size c then
     o ← on_elements om_Oldest;
     match o with
     | Some (oldestKey, oldestValue) => evict oldestKey oldestValue
     | None => mret tt
     end
   else mret tt);;
  on_elements (om_Put key value).

Definition Get (key : K) : CM (option V) :=
  o ← on_elements (om_Get key);
  match o with
  | None => mret None
  | Some val => on_elements (om_Put key val);; mret (Some val)
  end.

Definition Evict (key : K) : CM unit :=
  o ← on_elements (om_Get key);
  match o with
  | None => mret tt
  | Some value => evict key value
  end.

Definition Flush_step (iter : It) : CM (It + unit) :=
  r ← on_elements (om_Next iter);
  let '(more, iter) := r in
  if (more : bool) then evict (om_Key iter) (om_Value iter);; mret (inl iter)
  else mret (inr tt).

(** One iteration for each element and the last, failing [Next]. *)
Definition Flush : CM unit :=
  n ← on_elements om_Len;
  loop oof (S (S (Z.to_nat n))) Flush_step om_NewIterator.

Definition Len : CM Z := on_elements om_Len.

(** [crep c kvs]: the cache holds the entries [kvs], least recently used first. *)
Definition crep (c : Cache) (kvs : list (K * V)) : Prop :=
  om_rep (elements c) kvs /\ 1 <= size c /\ Z.of_nat (length kvs) <= size c.

Lemma on_elements_wp {A} {ok} (m : M St E A) Q c :
  wp ok m (fun a s => Q a (mkCache s (size c) (evicted c))) (elements c) ->
  wp ok (on_elements m) Q c.
Proof. apply (wp_zoom ok elements (fun s c => mkCache s (size c) (evicted c))). Qed.

Lemma wp_evict {ok} k v c kvs Q : om_rep (elements c) kvs ->
  (forall s, om_rep s (kdel k kvs) ->
     (forall it todo, om_iter (elements c) it kvs todo -> k ∉ todo.*1 -> om_iter s it (kdel k kvs) todo) ->
     Q tt (mkCache s (size c) (evicted c ++ [(k, v)]))) ->
  wp ok (evict k v) Q c.
Proof.
  intros Hr HQ. unfold evict. wp_steps. apply on_elements_wp. eapply om_wp_Delete; [exact Hr|].
  intros s Hs Hi. by apply HQ.
Qed.

Lemma kdel_head k v (kvs : list (K * V)) : NoDup ((k, v) :: kvs).*1 -> kdel k ((k, v) :: kvs) = kvs.
Proof. intros Hd. by apply (kdel_split k v [] kvs). Qed.

(** The entries after the eviction that precedes an insertion. *)
Definition room (c : Cache) (kvs : list (K * V)) : list (K * V) :=
  if Z.of_nat (length kvs) =? size c then tail kvs else kvs.
Definition evicts (c : Cache) (kvs : list (K * V)) : list (K * V) :=
  if Z.of_nat (length kvs) =? size c then take 1 kvs else [].

Lemma kput_length k v (kvs : list (K * V)) : NoDup kvs.*1 -> (length (kput k v kvs) <= S (length kvs))%nat.
Proof. intros Hd. unfold kput. rewrite length_app, kdel_length by done. cbn. lia. Qed.

Lemma wp_Put {ok} k v c kvs Q : crep c kvs ->
  (forall c', crep c' (kput k v (room c kvs)) -> size c' = size c ->
     evicted c' = evicted c ++ evicts c kvs -> Q tt c') ->
  wp ok (Put k v) Q c.
Proof.
  intros (Hr & Hs & Hl) HQ. pose proof (om_nodup _ _ Hr) as Hd.
  unfold Put. wp_steps. apply on_elements_wp. eapply om_wp_Len; [exact Hr|].
  wp_steps. cbn [size]. unfold room, evicts in HQ.
  destruct (Z.eqb_spec (Z.of_nat (length kvs)) (size c)) as [Hf|Hf].
  - destruct kvs as [|[k0 v0] kvs]; [cbn in Hf; lia|]. wp_steps. apply on_elements_wp.
    eapply om_wp_Oldest; [exact Hr|]. cbn [head]. eapply wp_evict; [exact Hr|].
    rewrite kdel_head by done. intros s Hs1 _. apply on_elements_wp. eapply om_wp_Put; [exact Hs1|].
    intros s' Hs'. apply HQ; try done. split; [done|]. split; [done|]. cbn [size tail].
    pose proof (kput_length k v kvs ltac:(by inversion Hd)). cbn in Hl. lia.
  - wp_steps. apply on_elements_wp. eapply om_wp_Put; [exact Hr|]. intros s' Hs'.
    apply HQ; try done; cbn; [|by rewrite app_nil_r]. split; [done|]. split; [done|]. cbn [size].
    pose proof (kput_length k v kvs Hd). lia.
Qed.

Lemma wp_Get {ok} k c kvs Q : crep c kvs ->
  (forall c', crep c' (match kget k kvs with Some v => kput k v kvs | None => kvs end) ->
     size c' = size c -> evicted c' = evicted c -> Q (kget k kvs) c') ->
  wp ok (Get k) Q c.
Proof.
  intros (Hr & Hs & Hl) HQ. pose proof (om_nodup _ _ Hr) as Hd.
  unfold Get. wp_steps. apply on_elements_wp. eapply om_wp_Get; [exact Hr|].
  destruct (kget k kvs) as [v|] eqn:Hk; [|by apply HQ; [split| |]].
  wp_steps. apply on_elements_wp. eapply om_wp_Put; [exact Hr|]. intros s' Hs'. cbn.
  apply HQ; try done. split; [done|]. split; [done|]. cbn [size].
  assert (k ∈ kvs.*1) as Hin.
  { destruct (decide (k ∈ kvs.*1)) as [|Hn]; [done|]. apply kget_None in Hn. congruence. }
  unfold kput. rewrite length_app, kdel_length, decide_True by done. cbn.
  destruct kvs; [by apply not_elem_of_nil in Hin|]. cbn in *. lia.
Qed.

Lemma wp_Evict {ok} k c kvs Q : crep c kvs ->
  (forall c', crep c' (kdel k kvs) -> size c' = size c ->
     evicted c' = evicted c ++ match kget k kvs with Some v => [(k, v)] | None => [] end -> Q tt c') ->
  wp ok (Evict k) Q c.
Proof.
  intros (Hr & Hs & Hl) HQ. pose proof (om_nodup _ _ Hr) as Hd.
  unfold Evict. wp_steps. apply on_elements_wp. eapply om_wp_Get; [exact Hr|].
  destruct (kget k kvs) as [v|] eqn:Hk.
  - eapply wp_evict; [exact Hr|]. intros s Hs1 _. apply HQ; try done.
    split; [done|]. split; [done|]. cbn [size]. rewrite kdel_length by done. lia.
  - apply kget_None, kdel_notin in Hk. rewrite Hk in HQ.
    apply HQ; [by split|done|by rewrite app_nil_r].
Qed.

Lemma kdel_all dn (todo : list (K * V)) k v : NoDup ((k, v) :: todo).*1 -> dn = (k, v) :: todo ->
  kdel k dn = todo.
Proof. intros Hd ->. by apply kdel_head. Qed.

Lemma wp_Flush {ok} c kvs Q : crep c kvs ->
  (forall c', crep c' [] -> size c' = size c -> evicted c' = evicted c ++ kvs -> Q tt c') ->
  wp ok Flush Q c.
Proof.
  intros (Hr & Hs & Hl) HQ. unfold Flush. wp_steps. apply on_elements_wp.
  eapply om_wp_Len; [exact Hr|].
  apply (wp_loop _ _ (fun n it c' => exists todo, om_iter (elements c') it todo todo /\
    n = length todo /\ size c' = size c /\ evicted c' ++ todo = evicted c ++ kvs) _ _ _ _ (length kvs)).
  - exists kvs. repeat split; try done. cbn. by apply om_iter_new.
  - lia.
  - clear -HQ Hs. intros n it c' (todo & Hi & -> & Hsz & He). unfold Flush_step. wp_steps.
    apply on_elements_wp. destruct todo as [|[k v] todo].
    + eapply om_wp_Next_done; [exact Hi|]. intros it' Hi'. rewrite app_nil_r in He.
      apply HQ; [|done|done]. split; [by eapply om_iter_rep|]. cbn. lia.
    + pose proof (om_nodup _ _ (om_iter_rep _ _ _ _ Hi)) as Hd.
      eapply om_wp_Next; [exact Hi|]. intros it' -> -> Hi'. wp_steps.
      eapply wp_evict; [by eapply om_iter_rep|]. rewrite kdel_head by done.
      intros s Hrs Hst. wp_steps. exists (length todo). split; [cbn; lia|]. exists todo.
      split; [|split; [done|split; [done|]]]; cbn.
      * apply (Hst it' todo Hi'). cbn in Hd. by apply NoDup_cons in Hd as [? _].
      * by rewrite <- app_assoc.
Qed.

(** the cache never holds more than [size] elements; a lookup returns the value
    last stored and makes its key the most recently used; an insertion into a full
    cache evicts the least recently used element first; [Flush] ends, evicts every
    element once, oldest first, and leaves the cache empty. *)
Theorem lru_cache_correct (c : Cache) (kvs : list (K * V)) (k : K) (v : V) :
  crep c kvs ->
  (exists c', Put k v c = (c', Ok tt) /\ crep c' (kput k v (room c kvs)) /\
     evicted c' = evicted c ++ evicts c kvs) /\
  (exists c', Get k c = (c', Ok (kget k kvs)) /\ evicted c' = evicted c /\
     crep c' (match kget k kvs with Some v => kput k v kvs | None => kvs end)) /\
  (exists c', Evict k c = (c', Ok tt) /\ crep c' (kdel k kvs) /\
     evicted c' = evicted c ++ match kget k kvs with Some v => [(k, v)] | None => [] end) /\
  (exists c', Flush c = (c', Ok tt) /\ crep c' [] /\ evicted c' = evicted c ++ kvs).
Proof.
  intros Hr. split; [|split; [|split]].
  - destruct (wp_total (Put k v) (fun _ c' => crep c' (kput k v (room c kvs)) /\
      evicted c' = evicted c ++ evicts c kvs) c) as ([] & c' & Hc & ?); [|by exists c'].
    eapply wp_Put; eauto.
  - destruct (wp_total (Get k) (fun r c' => r = kget k kvs /\ evicted c' = evicted c /\
      crep c' (match kget k kvs with Some v => kput k v kvs | None => kvs end)) c)
      as (r & c' & Hc & -> & ?); [|by exists c'].
    eapply wp_Get; eauto.
  - destruct (wp_total (Evict k) (fun _ c' => crep c' (kdel k kvs) /\ evicted c' =
      evicted c ++ match kget k kvs with Some v => [(k, v)] | None => [] end) c)
      as ([] & c' & Hc & ?); [|by exists c'].
    eapply wp_Evict; eauto.
  - destruct (wp_total Flush (fun _ c' => crep c' [] /\ evicted c' = evicted c ++ kvs) c)
      as ([] & c' & Hc & ?); [|by exists c'].
    eapply wp_Flush; eauto.
Qed.
End cache.

(** ** A concrete cache *)
#[local] Instance int_range : LinkedHashmap.Range (K := Z) := LinkedHashmap.key_range.
#[local] Existing Instances LinkedHashmap.hashmap_ordered LinkedHashmap.hashmap_laws.

Definition cache0 : Cache (K := Z) (V := Z) :=
  NewCacheWithOnEvict (LinkedHashmap.new_state (K := Z) (V := Z) 0) 2.

Lemma cache0_rep : crep cache0 [].
Proof.
  split; [|done]. exists []. split; [apply LinkedHashmap.new_state_rep|done].
Qed.

Lemma lru_cache_correct_witness :
  (exists c', Put 1 10 cache0 = (c', Ok tt) /\ crep c' [(1, 10)] /\ evicted c' = []) /\
  (exists c', Flush LinkedList.NilDeref cache0 = (c', Ok tt) /\ crep c' [] /\ evicted c' = []).
Proof.
  destruct (lru_cache_correct LinkedList.NilDeref cache0 [] 1 10 cache0_rep) as (H1 & _ & _ & H2). by split.
Defined.
End Lru.

Module SizedLru.
Section cache.
Context {St E K V It : Type}.

(** A [*sizedElement] is never changed after its allocation: it is its value. *)
Record sizedElement := mkSized { value : V; esize : Z }.

Context `{OrderedMapLaws St E K sizedElement It} (oof nil_deref : E).

Record SizedCache := mkSizedCache {
  elements : St;
  maxSize : Z;
  currentSize : Z;
}.

Context (size : K -> V -> Z).

Abbreviation CM := (M SizedCache E).

Definition on_elements {A} (m : M St E A) : CM A :=
  zoom elements (fun s c => mkSizedCache s (maxSize c) (currentSize c)) m.
Definition add_size (d : Z) : CM unit :=
  modify (fun c => mkSizedCache (elements c) (maxSize c) (currentSize c + d)).

Definition NewSizedCache (elems : St) (maxSize : Z) : SizedCache :=
  mkSizedCache elems maxSize 0.

Definition flush : CM unit :=
  on_elements om_Clear;;
  modify (fun c => mkSizedCache (elements c) (maxSize c) 0).

(** Without an oldest element the [*sizedElement] is nil. *)
Definition shrink_step (newEntrySize : Z) (_ : unit) : CM (unit + unit) :=
  c ← get;
  if maxSize c - newEntrySize <? currentSize c then
    o ← on_elements om_Oldest;
    match o with
    | None => fail nil_deref
    | Some (oldestKey, oldestElement) =>
        on_elements (om_Delete oldestKey);;
        add_size (- esize oldestElement);;
        mret (inl tt)
    end
  else mret (inr tt).

Definition put (key : K) (v : V) : CM unit :=
  let newEntrySize := size key v in
  c ← get;
  if maxSize c <? newEntrySize then flush
  else
    o ← on_elements (om_Get key);
    match o with
    | Some oldElement => add_size (- esize oldElement)
    | None => mret tt
    end;;
    n ← on_elements om_Len;
    loop oof (S (Z.to_nat n)) (shrink_step newEntrySize) tt;;
    on_elements (om_Put key (mkSized v newEntrySize));;
    add_size newEntrySize.

Definition sget (key : K) : CM (option V) :=
  o ← on_elements (om_Get key);
  match o with
  | None => mret None
  | Some element => on_elements (om_Put key element);; mret (Some (value element))
  end.

Definition sevict (key : K) : CM unit :=
  o ← on_elements (om_Get key);
  match o with
  | Some element => on_elements (om_Delete key);; add_size (- esize element)
  | None => mret tt
  end.

Definition len : CM Z := on_elements om_Len.

(** ** The sizes *)
Definition total (kvs : list (K * sizedElement)) : Z := foldr (fun kv a => esize kv.2 + a) 0 kvs.

Lemma total_cons kv kvs : total (kv :: kvs) = esize kv.2 + total kvs.
Proof. done. Qed.

Lemma total_app kvs1 kvs2 : total (kvs1 ++ kvs2) = total kvs1 + total kvs2.
Proof. unfold total. induction kvs1 as [|kv l IH]; cbn in *; lia. Qed.

Definition sizes_ok (kvs : list (K * sizedElement)) : Prop := Forall (fun kv => 0 <= esize kv.2) kvs.

Lemma total_nonneg kvs : sizes_ok kvs -> 0 <= total kvs.
Proof. unfold total. induction 1; cbn; [done|lia]. Qed.

(** [srep c kvs]: the entries are [kvs], and [currentSize] does not exceed their
    total size. *)
Definition srep (c : SizedCache) (kvs : list (K * sizedElement)) : Prop :=
  om_rep (elements c) kvs /\ sizes_ok kvs /\ 0 <= maxSize c /\ currentSize c <= total kvs.

Lemma on_sized_wp {A} {ok} (m : M St E A) Q c :
  wp ok m (fun a s => Q a (mkSizedCache s (maxSize c) (currentSize c))) (elements c) ->
  wp ok (on_elements m) Q c.
Proof. apply (wp_zoom ok elements (fun s c => mkSizedCache s (maxSize c) (currentSize c))). Qed.

(** The eviction loop drops the shortest prefix that makes room. *)
Lemma wp_shrink {ok} new c kvs Q fuel : om_rep (elements c) kvs -> sizes_ok kvs ->
  0 <= maxSize c - new -> currentSize c <= total kvs -> (length kvs < fuel)%nat ->
  (forall c' dropped rest, kvs = dropped ++ rest -> om_rep (elements c') rest ->
     maxSize c' = maxSize c -> currentSize c' = currentSize c - total dropped ->
     currentSize c' <= maxSize c - new ->
     (forall d kv, dropped = d ++ [kv] -> maxSize c - new < currentSize c - total d) -> Q tt c') ->
  wp ok (loop oof fuel (shrink_step new) tt) Q c.
Proof.
  intros Hr Hsz Hm Hc Hf HQ.
  apply (wp_loop _ _ (fun n _ c' => exists dropped rest, kvs = dropped ++ rest /\ n = length rest /\
    om_rep (elements c') rest /\ maxSize c' = maxSize c /\
    currentSize c' = currentSize c - total dropped /\
    (forall d kv, dropped = d ++ [kv] -> maxSize c - new < currentSize c - total d))
    _ _ _ _ (length kvs)); [|done|].
  { exists [], kvs. repeat split; try done; [cbn; lia|]. by intros []. }
  clear Hf. intros n [] c' (dr & rest & -> & -> & Hr' & Hmx & Hcs & Hmin). unfold shrink_step. wp_steps.
  rewrite Hmx. destruct (Z.ltb_spec (maxSize c - new) (currentSize c')) as [Hlt|Hge].
  - wp_steps. apply on_sized_wp. eapply om_wp_Oldest; [exact Hr'|].
    rewrite total_app in Hc. destruct rest as [|[k el] rest]; [cbn in *; lia|]. cbn [head].
    wp_steps. apply on_sized_wp. eapply om_wp_Delete; [exact Hr'|]. intros s Hs _.
    unfold add_size. wp_steps. cbn. exists (length rest). split; [lia|].
    exists (dr ++ [(k, el)]), rest. rewrite <- app_assoc. split; [done|]. split; [done|].
    rewrite (Lru.kdel_head k el rest) in Hs by apply (om_nodup _ _ Hr').
    split; [done|]. split; [done|]. split; [rewrite total_app; cbn; lia|].
    intros d kv [-> _]%app_inj_tail. lia.
  - wp_steps. by apply (HQ _ dr rest).
Qed.

Definition old_size (k : K) (kvs : list (K * sizedElement)) : Z :=
  match kget k kvs with Some el => esize el | None => 0 end.

Lemma kdel_total k kvs : NoDup kvs.*1 -> total (kdel k kvs) = total kvs - old_size k kvs.
Proof.
  intros Hd. unfold old_size. destruct (kget k kvs) as [el|] eqn:Hk.
  - apply kget_Some in Hk as (k1 & k2 & ->); [|done]. rewrite kdel_split, !total_app, total_cons by done. cbn. lia.
  - apply kget_None, kdel_notin in Hk as ->. lia.
Qed.

Lemma old_size_nonneg k kvs : NoDup kvs.*1 -> sizes_ok kvs -> 0 <= old_size k kvs.
Proof.
  intros Hd Hs. unfold old_size. destruct (kget k kvs) as [el|] eqn:Hk; [|done].
  apply kget_Some in Hk as (k1 & k2 & ->); [|done].
  apply Forall_app in Hs as [_ [Hs _]%Forall_cons]. done.
Qed.

Lemma old_size_app k k1 k2 : k ∉ k1.*1 -> old_size k (k1 ++ k2) = old_size k k2.
Proof.
  intros Hk. unfold old_size, kget. rewrite filter_app, (proj2 (filter_key_nil k k1)) by done. done.
Qed.

Lemma wp_put {ok} k v c kvs Q : srep c kvs -> 0 <= size k v ->
  (forall c', maxSize c < size k v -> om_rep (elements c') [] -> maxSize c' = maxSize c ->
     currentSize c' = 0 -> Q tt c') ->
  (forall c' dropped rest, size k v <= maxSize c -> kvs = dropped ++ rest ->
     om_rep (elements c') (kput k (mkSized v (size k v)) rest) -> maxSize c' = maxSize c ->
     currentSize c' = currentSize c - old_size k kvs - total dropped + size k v ->
     currentSize c' <= maxSize c ->
     (forall d kv, dropped = d ++ [kv] ->
        maxSize c < currentSize c - old_size k kvs - total d + size k v) -> Q tt c') ->
  wp ok (put k v) Q c.
Proof.
  intros (Hr & Hsz & Hm & Hc) Hv HQf HQ. pose proof (om_nodup _ _ Hr) as Hd.
  pose proof (old_size_nonneg k kvs Hd Hsz) as Ho.
  unfold put. wp_steps. destruct (Z.ltb_spec (maxSize c) (size k v)) as [Hlt|Hge].
  { unfold flush. wp_steps. apply on_sized_wp. eapply om_wp_Clear; [exact Hr|].
    intros s Hs. wp_steps. by apply HQf. }
  wp_steps. apply on_sized_wp. eapply om_wp_Get; [exact Hr|].
  apply wp_bind. apply (wp_mono _ _ (fun _ c1 => elements c1 = elements c /\ maxSize c1 = maxSize c /\
    currentSize c1 = currentSize c - old_size k kvs)).
  { unfold old_size. destruct (kget k kvs); unfold add_size; wp_steps; cbn; repeat split; lia. }
  intros [] c1 (E1 & M1 & C1). wp_steps. apply on_sized_wp. rewrite E1.
  eapply om_wp_Len; [exact Hr|]. apply wp_bind. eapply (wp_shrink (size k v) _ kvs).
  - exact Hr.
  - done.
  - cbn. lia.
  - cbn. lia.
  - lia.
  - cbn. intros c2 dr rest Hk Hr2 M2 C2 L2 Hmin. wp_steps. apply on_sized_wp.
    eapply om_wp_Put; [exact Hr2|]. intros s Hs. unfold add_size. wp_steps.
    cbn in *. apply (HQ _ dr rest); [done|done|exact Hs|cbn; congruence|cbn; lia|cbn; lia|].
    intros d kv Hdr. specialize (Hmin d kv Hdr). lia.
Qed.

Lemma sizes_ok_kdel k kvs : sizes_ok kvs -> sizes_ok (kdel k kvs).
Proof.
  unfold sizes_ok. rewrite !Forall_forall. intros Hs kv [_ Hin]%list_elem_of_filter. by apply Hs.
Qed.

Lemma kput_total k el kvs : NoDup kvs.*1 ->
  total (kput k el kvs) = total kvs - old_size k kvs + esize el.
Proof. intros Hd. unfold kput. rewrite total_app, kdel_total by done. cbn. lia. Qed.

Lemma kput_same_total k el kvs : NoDup kvs.*1 -> kget k kvs = Some el ->
  total (kput k el kvs) = total kvs.
Proof. intros Hd Hk. rewrite kput_total by done. unfold old_size. rewrite Hk. lia. Qed.

Lemma sizes_ok_kput k el kvs : sizes_ok kvs -> 0 <= esize el -> sizes_ok (kput k el kvs).
Proof. intros. apply Forall_app. split; [by apply sizes_ok_kdel|by constructor]. Qed.

Lemma kget_size k el kvs : NoDup kvs.*1 -> sizes_ok kvs -> kget k kvs = Some el -> 0 <= esize el.
Proof. intros Hd Hs Hk. pose proof (old_size_nonneg k kvs Hd Hs) as Ho. unfold old_size in Ho. by rewrite Hk in Ho. Qed.

Lemma wp_sget {ok} k c kvs Q : om_rep (elements c) kvs ->
  (forall c', om_rep (elements c') (match kget k kvs with Some el => kput k el kvs | None => kvs end) ->
     maxSize c' = maxSize c -> currentSize c' = currentSize c -> Q (value <$> kget k kvs) c') ->
  wp ok (sget k) Q c.
Proof.
  intros Hr HQ. unfold sget. wp_steps. apply on_sized_wp. eapply om_wp_Get; [exact Hr|].
  destruct (kget k kvs) as [el|] eqn:Hk; [|by apply HQ].
  wp_steps. apply on_sized_wp. eapply om_wp_Put; [exact Hr|]. intros s Hs. by apply HQ.
Qed.

Lemma wp_sevict {ok} k c kvs Q : om_rep (elements c) kvs ->
  (forall c', om_rep (elements c') (kdel k kvs) -> maxSize c' = maxSize c ->
     currentSize c' = currentSize c - old_size k kvs -> Q tt c') ->
  wp ok (sevict k) Q c.
Proof.
  intros Hr HQ. unfold sevict, old_size in *. wp_steps. apply on_sized_wp.
  eapply om_wp_Get; [exact Hr|]. destruct (kget k kvs) as [el|] eqn:Hk; rewrite ?Hk in HQ.
  - wp_steps. apply on_sized_wp. eapply om_wp_Delete; [exact Hr|]. intros s Hs _.
    unfold add_size. wp_steps. apply HQ; [done|done|]. cbn. lia.
  - apply kget_None, kdel_notin in Hk. rewrite Hk in HQ. apply HQ; [done|done|cbn; lia].
Qed.

(** What a [put] leaves: the newest entries that fit, and the new one. *)
Definition put_post (k : K) (v : V) (c c' : SizedCache) (kvs kvs' : list (K * sizedElement)) : Prop :=
  currentSize c' = total kvs' /\ total kvs' <= maxSize c /\
  (size k v <= maxSize c -> exists dropped rest, kvs = dropped ++ rest /\
     kvs' = rest ++ [(k, mkSized v (size k v))] /\
     forall d kv, dropped = d ++ [kv] -> maxSize c < total (kv :: rest) + size k v).

Lemma put_total c kvs k v : srep c kvs -> 0 <= size k v ->
  exists c' kvs', put k v c = (c', Ok tt) /\ srep c' kvs' /\ maxSize c' = maxSize c /\
    currentSize c' <= maxSize c /\
    (k ∉ kvs.*1 -> currentSize c = total kvs -> put_post k v c c' kvs kvs').
Proof.
  intros Hs Hv. pose proof Hs as (Hr & Hsz & Hm & Hc). pose proof (om_nodup _ _ Hr) as Hd.
  destruct (wp_total (put k v) (fun _ c' => exists kvs', srep c' kvs' /\ maxSize c' = maxSize c /\
    currentSize c' <= maxSize c /\
    (k ∉ kvs.*1 -> currentSize c = total kvs -> put_post k v c c' kvs kvs')) c)
    as ([] & c' & Hp & kvs' & ?); [|by exists c', kvs'].
  apply (wp_put k v c kvs); try done.
  - intros c' Hlt Hr' M' C'. exists []. split; [split; [done|]; split; [by constructor|]; rewrite M', C'; done|].
    split; [done|]. split; [lia|]. intros _ _. split; [done|]. split; [cbn; lia|]. intros; lia.
  - intros c' dr rest Hle -> Hr' M' C' L' Hmin. exists (kput k (mkSized v (size k v)) rest).
    rewrite fmap_app in Hd. pose proof Hd as (Hd1 & Hd12 & Hd2)%NoDup_app.
    apply Forall_app in Hsz as [Hsz1 Hsz2]. rewrite total_app in Hc.
    pose proof (total_nonneg dr Hsz1). pose proof (old_size_nonneg k rest Hd2 Hsz2).
    assert (old_size k rest <= old_size k (dr ++ rest)) as Hold.
    { destruct (decide (k ∈ dr.*1)) as [Hin|Hin]; [|by rewrite old_size_app].
      unfold old_size at 1. rewrite (proj2 (kget_None k rest)) by (by apply Hd12).
      apply old_size_nonneg; [by rewrite fmap_app|by apply Forall_app]. }
    split; [split; [done|]; split; [by apply sizes_ok_kput|]; split; [lia|]|].
    { rewrite kput_total by done. cbn. lia. }
    split; [done|]. split; [lia|]. rewrite fmap_app, total_app. intros Hk Hex.
    assert (old_size k (dr ++ rest) = 0) as Ho0.
    { unfold old_size. rewrite (proj2 (kget_None k (dr ++ rest))); [done|by rewrite fmap_app]. }
    assert (kput k (mkSized v (size k v)) rest = rest ++ [(k, mkSized v (size k v))]) as Hkp
      by (unfold kput; rewrite kdel_notin; [done|set_solver]).
    unfold put_post. rewrite Hkp, (total_app rest), (total_cons (k, _)).
    cbn [esize snd]. change (total []) with 0.
    split; [lia|]. split; [lia|]. intros _. exists dr, rest. split; [done|].
    split; [done|]. intros d kv ->. specialize (Hmin d kv eq_refl).
    rewrite total_app, total_cons in Hex. change (total []) with 0 in Hex.
    rewrite total_cons. lia.
Qed.

(** [SizedCache] runs without a panic and [currentSize] never exceeds the bound
    or the total size of the elements. Storing an absent key keeps [currentSize]
    equal to that total, so the total is bounded, and drops only as many of the
    least recently used elements as it must; lookups and evictions keep it too. *)
Theorem sized_cache_bounded (c : SizedCache) (kvs : list (K * sizedElement)) (k : K) (v : V) :
  srep c kvs -> 0 <= size k v ->
  (exists c' kvs', put k v c = (c', Ok tt) /\ srep c' kvs' /\ maxSize c' = maxSize c /\
     currentSize c' <= maxSize c /\
     (k ∉ kvs.*1 -> currentSize c = total kvs -> put_post k v c c' kvs kvs')) /\
  (exists c' kvs', sget k c = (c', Ok (value <$> kget k kvs)) /\ srep c' kvs' /\
     (currentSize c = total kvs -> currentSize c' = total kvs')) /\
  (exists c', sevict k c = (c', Ok tt) /\ srep c' (kdel k kvs) /\
     (currentSize c = total kvs -> currentSize c' = total (kdel k kvs))).
Proof.
  intros Hs Hv. split; [by apply put_total|]. destruct Hs as (Hr & Hsz & Hm & Hc).
  pose proof (om_nodup _ _ Hr) as Hd. split.
  - set (kvs' := match kget k kvs with Some el => kput k el kvs | None => kvs end).
    assert (sizes_ok kvs' /\ total kvs' = total kvs) as [H1 H2].
    { subst kvs'. destruct (kget k kvs) as [el|] eqn:Hk; [|done]. split; [|by apply kput_same_total].
      apply sizes_ok_kput; [done|]. by eapply kget_size. }
    destruct (wp_total (sget k) (fun r c' => r = value <$> kget k kvs /\ om_rep (elements c') kvs' /\
      maxSize c' = maxSize c /\ currentSize c' = currentSize c) c) as (r & c' & Hg & -> & R & M' & C').
    { eapply wp_sget; eauto. }
    exists c', kvs'. split; [done|]. unfold srep. rewrite M', C', H2. done.
  - destruct (wp_total (sevict k) (fun _ c' => om_rep (elements c') (kdel k kvs) /\
      maxSize c' = maxSize c /\ currentSize c' = currentSize c - old_size k kvs) c)
      as ([] & c' & Hg & R & M' & C'); [eapply wp_sevict; eauto|].
    exists c'. split; [done|]. unfold srep. rewrite M', C', kdel_total by done.
    split; [split; [done|]; split; [by apply sizes_ok_kdel|lia]|lia].
Qed.
End cache.

(** ** A concrete cache *)
#[local] Instance int_range : LinkedHashmap.Range (K := Z) := LinkedHashmap.key_range.
#[local] Existing Instances LinkedHashmap.hashmap_ordered LinkedHashmap.hashmap_laws.

Abbreviation element := (sizedElement (V := Z)).

(** The value of a free list element, which is never read. *)
#[local] Instance element_inhabited : Inhabited element := populate (mkSized 0 0).

Definition sized0 : SizedCache :=
  NewSizedCache (LinkedHashmap.new_state (K := Z) (V := element) 0) 10.

Lemma sized0_rep : srep (E := LinkedList.PtrErr) (It := LinkedHashmap.Iterator) sized0 [].
Proof.
  split; [|split; [by constructor|done]]. exists [].
  split; [apply LinkedHashmap.new_state_rep|done].
Qed.

Lemma sized_cache_bounded_witness :
  exists c' kvs', put LinkedList.NilDeref LinkedList.NilDeref (fun _ _ => 4) 1 7 sized0 = (c', Ok tt) /\
    srep c' kvs' /\ currentSize c' <= 10.
Proof.
  destruct (sized_cache_bounded LinkedList.NilDeref LinkedList.NilDeref (fun _ _ => 4) sized0 [] 1 7
    sized0_rep ltac:(done)) as ((c' & kvs' & H1 & H2 & _ & H3 & _) & _).
  by exists c', kvs'.
Defined.

(** Two elements of size 5 fill a cache of size 10; then the value of the older one
    is replaced by one of size 6. *)
Definition overrun_size (_ v : Z) : Z := v.
Definition overrun : M SizedCache LinkedList.PtrErr unit :=
  let put := put LinkedList.NilDeref LinkedList.NilDeref overrun_size in
  put 1 5;; put 2 5;; put 1 6.

(** A [put] that is known to drop [dropped]. *)
Lemma wp_put_fits dropped rest k v (c : SizedCache) Q :
  srep (E := LinkedList.PtrErr) (It := LinkedHashmap.Iterator) c (dropped ++ rest) ->
  0 <= v <= maxSize c ->
  (forall d r, dropped ++ rest = d ++ r ->
     currentSize c - old_size k (dropped ++ rest) - total d + v <= maxSize c ->
     (forall d' kv, d = d' ++ [kv] ->
        maxSize c < currentSize c - old_size k (dropped ++ rest) - total d' + v) -> d = dropped) ->
  (forall c', om_rep (elements c') (kput k (mkSized v v) rest) -> maxSize c' = maxSize c ->
     currentSize c' = currentSize c - old_size k (dropped ++ rest) - total dropped + v -> Q tt c') ->
  wp never (put LinkedList.NilDeref LinkedList.NilDeref overrun_size k v) Q c.
Proof.
  intros Hs Hv Hd HQ. eapply wp_put; [done|unfold overrun_size; lia| |].
  - unfold overrun_size. intros. lia.
  - unfold overrun_size. intros c' d r _ E Hr HM HC HL Hmin.
    assert (d = dropped) as -> by (eapply Hd; [done|lia|done]).
    apply app_inv_head in E as <-. by apply HQ.
Qed.

(** C38: replacing the value of a key that is about to be evicted subtracts its old
    size twice: after three insertions a cache of size 10 holds elements of total
    size 11 and records 6. *)
Theorem sized_cache_overrun :
  exists c, overrun sized0 = (c, Ok tt) /\ maxSize c = 10 /\ currentSize c = 6 /\
    om_rep (elements c) [(2, mkSized 5 5); (1, mkSized 6 6)] /\
    total [(2, mkSized 5 5); (1, mkSized 6 6)] = 11.
Proof.
  pose proof sized0_rep as Hs0.
  destruct (wp_total overrun (fun _ c => maxSize c = 10 /\ currentSize c = 6 /\
    om_rep (elements c) [(2, mkSized 5 5); (1, mkSized 6 6)]) sized0) as ([] & c & Hc & ?);
    [|exists c; tauto].
  unfold overrun. cbv zeta. wp_steps.
  apply (wp_put_fits [] []); [done|done| |].
  { intros d r E _ _. by destruct d. }
  intros c1 R1 M1 C1. wp_steps.
  apply (wp_put_fits [] [(1, mkSized 5 5)]).
  { split; [done|]. split; [by repeat constructor|]. by rewrite M1, C1. }
  { by rewrite M1. }
  { intros d r E _ Hmin. rewrite M1, C1 in Hmin. destruct d as [|a [|b d]]; cbn in E; simplify_eq; [done|].
    by specialize (Hmin [] _ eq_refl). }
  intros c2 R2 M2 C2. rewrite M1 in M2. rewrite C1 in C2. cbn in M2, C2.
  apply (wp_put_fits [(1, mkSized 5 5)] [(2, mkSized 5 5)]).
  { split; [done|]. split; [by repeat constructor|]. by rewrite M2, C2. }
  { by rewrite M2. }
  { intros d r E Hle Hmin. rewrite M2, C2 in Hle, Hmin.
    destruct d as [|a [|b [|c0 d]]]; cbn in E; simplify_eq; [by vm_compute in Hle|done|].
    by specialize (Hmin [_] _ eq_refl). }
  intros c3 R3 M3 C3. by rewrite M3, C3, M2, C2.
Qed.
End SizedLru.
