(* ===== verification/PollSet.v ===== *)
(** * Sets of outstanding polls

    Models [avalanchego/snow/consensus/snowman/poll/set.go] over the interfaces of
    [interfaces.go]: polls are registered under a request identifier, fed with
    votes, and their results are handed out in the order of registration.  The
    polls are reached through pointers that the linked hashmap holds. *)

From S2P Require Import Prelude Monads OrderedMap LinkedList LinkedHashmap.

Module PollSet.

(** [Poll] and [Factory]. [Finished] may record that the poll has finished. *)
Class Poll (P Validators NodeID Vote Result : Type) := {
  poll_New : Validators -> P;
  poll_Vote : NodeID -> Vote -> P -> P;
  poll_Drop : NodeID -> P -> P;
  poll_Finished : P -> P * bool;
  poll_Result : P -> Result;
}.

Abbreviation ref := positive.

Inductive SetErr (E : Type) := Panic | OutOfFuel | ErrMap (e : E).
Arguments Panic {E}.
Arguments OutOfFuel {E}.
Arguments ErrMap {E} e.

Section set.
Context {St E It P Validators NodeID Vote Result : Type}.
Context `{HPoll : !Poll P Validators NodeID Vote Result}.
Context `{HO : !OrderedMap St E Z ref It, HL : !OrderedMapLaws St E Z ref It}.

Record set := mkSet {
  polls : St;
  store : gmap ref P;
}.

Abbreviation SM := (M set (SetErr E)).

Definition on_polls {A} (m : M St E A) : SM A := fun s =>
  let '(p, r) := m (polls s) in
  (mkSet p (store s), match r with Ok a => Ok a | Err e => Err (ErrMap e) end).

(** [NewSet] with the new hashmap [polls0]; the metrics are not modelled. *)
Definition NewSet (polls0 : St) : set := mkSet polls0 ∅.

Definition deref (x : ref) : SM P := s ← get; must Panic (store s !! x).
Definition assign (x : ref) (p : P) : SM unit :=
  modify (fun s => mkSet (polls s) (<[x := p]> (store s))).

Definition Add (requestID : Z) (vdrs : Validators) : SM bool :=
  o ← on_polls (om_Get requestID);
  match o with
  | Some _ => mret false
  | None =>
      s ← get;
      let x := fresh (dom (store s)) in
      assign x (poll_New vdrs);;
      on_polls (om_Put requestID x);;
      mret true
  end.

(** [p.Finished()] *)
Definition finished (x : ref) : SM bool :=
  p ← deref x;
  let '(p, b) := poll_Finished p in
  assign x p;;
  mret b.

Definition process_step (acc : It * list Result) : SM ((It * list Result) + list Result) :=
  let '(iter, results) := acc in
  r ← on_polls (om_Next iter);
  let '(more, iter) := r in
  if (more : bool) then
    b ← finished (om_Value iter);
    if (b : bool) then
      p ← deref (om_Value iter);
      on_polls (om_Delete (om_Key iter));;
      mret (inl (iter, results ++ [poll_Result p]))
    else mret (inr results)
  else mret (inr results).

(** At most one iteration for each poll and one for the end. *)
Definition processFinishedPolls : SM (list Result) :=
  n ← on_polls om_Len;
  loop OutOfFuel (S (S (Z.to_nat n))) process_step (om_NewIterator, []).

(** [Vote] and [Drop] differ in what they do to the poll. *)
Definition respond (f : P -> P) (requestID : Z) : SM (list Result) :=
  o ← on_polls (om_Get requestID);
  match o with
  | None => mret []
  | Some x =>
      p ← deref x;
      assign x (f p);;
      b ← finished x;
      if (b : bool) then processFinishedPolls else mret []
  end.

Definition Vote_ (requestID : Z) (vdr : NodeID) (vote : Vote) : SM (list Result) :=
  respond (poll_Vote vdr vote) requestID.

Definition Drop (requestID : Z) (vdr : NodeID) : SM (list Result) :=
  respond (poll_Drop vdr) requestID.

Definition Len : SM Z := on_polls om_Len.

(** ** The specification: a queue of polls *)
Definition queue := list (Z * P).

Fixpoint pop (q : queue) : queue * list Result :=
  match q with
  | [] => ([], [])
  | (id, p) :: q' =>
      let '(p, b) := poll_Finished p in
      if b then let '(rest, res) := pop q' in (rest, poll_Result p :: res)
      else ((id, p) :: q', [])
  end.

Definition update (id : Z) (p : P) (q : queue) : queue :=
  (fun kp => if decide (kp.1 = id) then (id, p) else kp) <$> q.

Definition q_add (id : Z) (vdrs : Validators) (q : queue) : queue * bool :=
  match kget id q with
  | Some _ => (q, false)
  | None => (q ++ [(id, poll_New vdrs)], true)
  end.

Definition q_respond (f : P -> P) (id : Z) (q : queue) : queue * list Result :=
  match kget id q with
  | None => (q, [])
  | Some p =>
      let '(p, b) := poll_Finished (f p) in
      if b then pop (update id p q) else (update id p q, [])
  end.


(** The pointers [refs] of the hashmap lead to the polls of the queue. *)
Definition stored (st : gmap ref P) (refs : list (Z * ref)) (q : queue) : Prop :=
  Forall2 (fun kx kp => kx.1 = kp.1 /\ st !! kx.2 = Some kp.2) refs q.

Definition prep (s : set) (q : queue) : Prop :=
  exists refs, om_rep (polls s) refs /\ stored (store s) refs q /\ NoDup refs.*2.

Lemma stored_keys st refs q : stored st refs q -> refs.*1 = q.*1.
Proof. induction 1 as [|kx kp refs q [Hk _] _ IH]; [done|]. cbn. by rewrite Hk, IH. Qed.

Lemma stored_frame st st' refs q : stored st refs q ->
  (forall x, x ∈ refs.*2 -> st' !! x = st !! x) -> stored st' refs q.
Proof.
  induction 1 as [|kx kp refs q [Hk Hs] _ IH]; intros Hf; constructor.
  - split; [done|]. rewrite Hf; [done|by left].
  - apply IH. intros x Hx. apply Hf. by right.
Qed.

Lemma on_polls_wp {A} {ok} (m : M St E A) Q s :
  wp never m (fun a p => Q a (mkSet p (store s))) (polls s) -> wp ok (on_polls m) Q s.
Proof. unfold wp, on_polls. by destruct (m (polls s)) as [p [a|e]]. Qed.

Lemma stored_get st refs q id : NoDup refs.*1 -> stored st refs q ->
  match kget id refs with
  | Some x => exists r1 r2 q1 q2 p, refs = r1 ++ (id, x) :: r2 /\ q = q1 ++ (id, p) :: q2 /\
      kget id q = Some p /\ st !! x = Some p /\ stored st r1 q1 /\ stored st r2 q2
  | None => kget id q = None
  end.
Proof.
  intros Hd Hs. destruct (kget id refs) as [x|] eqn:Hk.
  - pose proof Hd as Hd'. apply kget_Some in Hk as (r1 & r2 & ->); [|done].
    pose proof (stored_keys _ _ _ Hs) as Hkeys.
    apply Forall2_app_inv_l in Hs as (q1 & q2' & H1 & H2 & ->).
    inversion H2 as [|? [id' p] ? q2 [Hid Hp'] H2']; subst. cbn in Hid, Hp'. subst id'.
    exists r1, r2, q1, q2, p. repeat split; try done. rewrite Hkeys in Hd'. by apply kget_split.
  - apply kget_None in Hk. apply kget_None. by rewrite <- (stored_keys _ _ _ Hs).
Qed.

Lemma update_split id p p' q1 q2 : NoDup (q1 ++ (id, p) :: q2).*1 ->
  update id p' (q1 ++ (id, p) :: q2) = q1 ++ (id, p') :: q2.
Proof.
  rewrite fmap_app. intros (_ & H1 & [H2 _]%NoDup_cons)%NoDup_app.
  assert (forall q, id ∉ q.*1 -> update id p' q = q) as Hu.
  { induction q as [|[k y] q IH]; intros Hn; [done|]. cbn in *. rewrite decide_False by set_solver.
    f_equal. apply IH. set_solver. }
  unfold update. rewrite fmap_app. cbn. rewrite decide_True by done.
  fold (update id p' q1) (update id p' q2). rewrite !Hu; [done|done|].
  intros Hin. apply (H1 _ Hin). by left.
Qed.

Lemma stored_assign st r1 r2 q1 q2 id x p' : NoDup (r1 ++ (id, x) :: r2).*2 ->
  stored st r1 q1 -> stored st r2 q2 ->
  stored (<[x := p']> st) (r1 ++ (id, x) :: r2) (q1 ++ (id, p') :: q2).
Proof.
  rewrite fmap_app. intros (_ & H1 & [H2 _]%NoDup_cons)%NoDup_app Hs1 Hs2.
  apply Forall2_app; [|constructor].
  - apply (stored_frame st); [done|]. intros y Hy. apply lookup_insert_ne. intros ->.
    apply (H1 _ Hy). by left.
  - split; [done|]. apply lookup_insert_eq.
  - apply (stored_frame st); [done|]. intros y Hy. apply lookup_insert_ne. by intros ->.
Qed.

Lemma wp_finished {ok} x p s Q : store s !! x = Some p ->
  Q (poll_Finished p).2 (mkSet (polls s) (<[x := (poll_Finished p).1]> (store s))) ->
  wp ok (finished x) Q s.
Proof.
  intros Hx HQ. unfold finished, deref, assign. wp_steps. apply wp_must. exists p. split; [done|].
  destruct (poll_Finished p) as [p' b]. by wp_steps.
Qed.

Lemma wp_process {ok} s q Q : prep s q ->
  (forall s', prep s' (pop q).1 -> Q (pop q).2 s') -> wp ok processFinishedPolls Q s.
Proof.
  intros (refs & Hr & Hs & Hd) HQ. unfold processFinishedPolls. wp_steps.
  apply on_polls_wp. eapply om_wp_Len; [exact Hr|].
  assert (length refs = length q) as Hlen by by eapply Forall2_length.
  apply (wp_loop _ _ (fun n acc s' => exists todo q', om_iter (polls s') acc.1 todo todo /\
    stored (store s') todo q' /\ NoDup todo.*2 /\ n = length todo /\
    (pop q).1 = (pop q').1 /\ (pop q).2 = acc.2 ++ (pop q').2) _ _ _ _ (length refs)).
  - exists refs, q. repeat split; try done. cbn. by apply om_iter_new.
  - lia.
  - clear Hlen Hd Hs Hr refs s. intros n [it res] s (todo & q' & Hi & Hs & Hd & -> & E1 & E2).
    cbn [fst snd] in *. unfold process_step. wp_steps. apply on_polls_wp.
    inversion Hs as [|[k x] [k' p] todo' q'' [Hk Hp'] Hs']; subst.
    { eapply om_wp_Next_done; [exact Hi|]. intros it' Hi'. cbn in E1, E2. rewrite app_nil_r in E2.
      rewrite E2 in HQ. apply HQ. rewrite E1. exists []. split; [by eapply om_iter_rep|].
      split; [constructor|done]. }
    cbn in Hk, Hp', Hd. subst k'. apply NoDup_cons in Hd as [Hx Hd].
    eapply om_wp_Next; [exact Hi|]. intros it' Hkey Hval Hi'. wp_steps. rewrite Hval.
    eapply wp_finished; [exact Hp'|]. cbn [pop] in E1, E2.
    destruct (poll_Finished p) as [p' [|]] eqn:Hf; cbn [fst snd].
    + unfold deref. wp_steps. apply wp_must. exists p'. split; [apply lookup_insert_eq|].
      wp_steps. apply on_polls_wp. rewrite Hkey. cbn [polls store].
      eapply om_wp_Delete; [by eapply om_iter_rep|]. intros s' Hs'' Hst. wp_steps.
      pose proof (om_nodup _ _ (om_iter_rep _ _ _ _ Hi)) as Hn. pose proof Hn as [Hn1 _]%NoDup_cons.
      rewrite (kdel_split k x [] todo') in * by done.
      destruct (pop q'') as [rest res'] eqn:Hpop. cbn in E1, E2.
      exists (length todo'). split; [cbn; lia|]. exists todo', q''. cbn [polls store fst snd].
      split; [by apply Hst|]. split; [|split; [done|split; [done|]]].
      * apply (stored_frame (store s)); [done|]. intros y Hy. apply lookup_insert_ne. by intros ->.
      * rewrite Hpop. cbn. rewrite <- app_assoc. done.
    + wp_steps. cbn in E1, E2. rewrite app_nil_r in E2. rewrite E2 in HQ. apply HQ.
      rewrite E1. exists ((k, x) :: todo'). split; [by eapply om_iter_rep|].
      split; [|by constructor]. by apply (stored_assign (store s) [] todo' [] q'' k x p'); [constructor|constructor|].
Qed.

Lemma wp_Add {ok} id vdrs s q Q : prep s q ->
  (forall s', prep s' (q_add id vdrs q).1 -> Q (q_add id vdrs q).2 s') -> wp ok (Add id vdrs) Q s.
Proof.
  intros (refs & Hr & Hs & Hd) HQ. pose proof (om_nodup _ _ Hr) as Hn.
  unfold Add, assign. wp_steps. apply on_polls_wp. eapply om_wp_Get; [exact Hr|].
  pose proof (stored_get _ _ _ id Hn Hs) as Hg. unfold q_add in HQ.
  destruct (kget id refs) as [x|] eqn:Hk.
  - destruct Hg as (r1 & r2 & q1 & q2 & p & _ & _ & Hq & _). rewrite Hq in HQ.
    apply HQ. exists refs. by destruct s.
  - rewrite Hg in HQ. wp_steps. cbn [store polls]. set (x := fresh _).
    assert (store s !! x = None) as Hx by apply not_elem_of_dom, is_fresh.
    assert (x ∉ refs.*2) as Hxr.
    { intros Hin. assert (is_Some (store s !! x)) as [p ?]; [|congruence].
      clear -Hs Hin. induction Hs as [|kx kp refs q [_ Hp'] _ IH]; cbn in Hin; [set_solver|].
      apply elem_of_cons in Hin as [->|Hin]; [by eexists|by apply IH]. }
    apply on_polls_wp. cbn [store polls]. eapply om_wp_Put; [exact Hr|]. intros s' Hr'. wp_steps.
    apply HQ. exists (refs ++ [(id, x)]). unfold kput in Hr'. apply kget_None in Hk.
    rewrite kdel_notin in Hr' by done. split; [done|]. cbn [store]. split.
    + apply Forall2_app; [|by repeat constructor; rewrite ?lookup_insert_eq].
      apply (stored_frame (store s)); [done|]. intros y Hy. apply lookup_insert_ne. by intros ->.
    + rewrite fmap_app, NoDup_app. split; [done|]. split; [cbn; set_solver|by apply NoDup_singleton].
Qed.

Lemma wp_respond {ok} f id s q Q : prep s q ->
  (forall s', prep s' (q_respond f id q).1 -> Q (q_respond f id q).2 s') ->
  wp ok (respond f id) Q s.
Proof.
  intros (refs & Hr & Hs & Hd) HQ. pose proof (om_nodup _ _ Hr) as Hn.
  unfold respond, assign. wp_steps. apply on_polls_wp. eapply om_wp_Get; [exact Hr|].
  pose proof (stored_get _ _ _ id Hn Hs) as Hg. unfold q_respond in HQ.
  destruct (kget id refs) as [x|] eqn:Hk; cycle 1.
  { rewrite Hg in HQ. apply HQ. exists refs. by destruct s. }
  destruct Hg as (r1 & r2 & q1 & q2 & p & -> & -> & Hq & Hx & Hs1 & Hs2). rewrite Hq in HQ.
  unfold deref. wp_steps. apply wp_must. exists p. split; [done|]. wp_steps.
  eapply wp_finished; [apply lookup_insert_eq|]. cbn [polls store].
  rewrite insert_insert_eq. rewrite (stored_keys _ _ _ Hs) in Hn.
  destruct (poll_Finished (f p)) as [p' [|]]; cbn [fst snd]; rewrite (update_split id p) in HQ by done.
  - apply (wp_process _ (q1 ++ (id, p') :: q2)); [|done].
    exists (r1 ++ (id, x) :: r2). split; [done|]. split; [|done]. by apply stored_assign.
  - wp_steps. apply HQ. exists (r1 ++ (id, x) :: r2). split; [done|]. split; [|done].
    by apply stored_assign.
Qed.
(** ** Runs *)

(** The polls that [New] and the responses can make of [vdrs]. *)
Inductive evolved (vdrs : Validators) : P -> Prop :=
  | evolved_New : evolved vdrs (poll_New vdrs)
  | evolved_Vote n v p : evolved vdrs p -> evolved vdrs (poll_Vote n v p)
  | evolved_Drop n p : evolved vdrs p -> evolved vdrs (poll_Drop n p)
  | evolved_Finished p : evolved vdrs p -> evolved vdrs (poll_Finished p).1.
Hint Constructors evolved : go.

(** [r] is the result of a poll that [reg] registered and that was found
    finished. *)
Definition result_of (reg : Z * Validators) (r : Result) : Prop :=
  exists p, evolved reg.2 p /\ (poll_Finished p).2 = true /\ r = poll_Result (poll_Finished p).1.

Definition outstanding (reg : Z * Validators) (kp : Z * P) : Prop :=
  reg.1 = kp.1 /\ evolved reg.2 kp.2.

(** [reach s regs res]: a run leads from the new set to [s]; it registered the
    polls [regs] and returned the results [res], in this order. *)
Inductive reach : set -> list (Z * Validators) -> list Result -> Prop :=
  | reach_New polls0 : om_rep polls0 [] -> reach (NewSet polls0) [] []
  | reach_Add id vdrs s s' (b : bool) regs res : reach s regs res -> Add id vdrs s = (s', Ok b) ->
      reach s' (regs ++ if b then [(id, vdrs)] else []) res
  | reach_Vote id vdr vote s s' rs regs res : reach s regs res ->
      Vote_ id vdr vote s = (s', Ok rs) -> reach s' regs (res ++ rs)
  | reach_Drop id vdr s s' rs regs res : reach s regs res ->
      Drop id vdr s = (s', Ok rs) -> reach s' regs (res ++ rs).

(** The registered polls are those of the results followed by the queue. *)
Definition accounted (regs : list (Z * Validators)) (res : list Result) (q : queue) : Prop :=
  exists old new, regs = old ++ new /\ Forall2 result_of old res /\ Forall2 outstanding new q.

Lemma pop_accounted regs res q : accounted regs res q -> accounted regs (res ++ (pop q).2) (pop q).1.
Proof.
  revert regs res. induction q as [|[id p] q IH]; intros regs res Ha; cbn [pop].
  { cbn. by rewrite app_nil_r. }
  destruct Ha as (old & new & -> & Ho & Hn).
  apply Forall2_cons_inv_r in Hn as (reg & new' & [Hid He] & Hn & ->). cbn in Hid, He.
  pose proof (evolved_Finished _ _ He) as He'.
  destruct (poll_Finished p) as [p' [|]] eqn:Hf; cbn [fst snd] in *.
  - destruct (pop q) as [rest rs] eqn:Hp. cbn [fst snd].
    replace (res ++ poll_Result p' :: rs) with ((res ++ [poll_Result p']) ++ rs) by by rewrite <- app_assoc.
    apply IH. exists (old ++ [reg]), new'. split; [by rewrite <- app_assoc|]. split; [|done].
    apply Forall2_app; [done|]. constructor; [|constructor]. exists p. by rewrite Hf.
  - rewrite app_nil_r. exists old, (reg :: new'). split; [done|]. split; [done|]. by constructor.
Qed.

Lemma update_accounted regs res q id p : accounted regs res q ->
  (forall vdrs p0, (id, p0) ∈ q -> evolved vdrs p0 -> evolved vdrs p) ->
  accounted regs res (update id p q).
Proof.
  intros (old & new & -> & Ho & Hn) He. exists old, new. split; [done|]. split; [done|].
  revert He. clear Ho. induction Hn as [|reg [k p0] new q [Hk Hp0] Hn IH]; intros He; cbn; constructor.
  - cbn in *. case_decide as Hd; [|done]. cbn. subst k. split; [by cbn|].
    apply (He _ p0); [|done]. rewrite <- Hd. by left.
  - apply IH. intros vdrs p1 Hin. apply He. by right.
Qed.

Lemma respond_accounted f regs res q id : accounted regs res q -> NoDup q.*1 ->
  (forall vdrs p, evolved vdrs p -> evolved vdrs (f p)) ->
  accounted regs (res ++ (q_respond f id q).2) (q_respond f id q).1.
Proof.
  intros Ha Hd Hf. unfold q_respond. destruct (kget id q) as [p|] eqn:Hk; [|by rewrite app_nil_r].
  assert (accounted regs res (update id (poll_Finished (f p)).1 q)) as Hu.
  { apply update_accounted; [done|]. intros vdrs p0 Hin He.
    apply list_elem_of_split in Hin as (q1 & q2 & ->). rewrite (kget_split id p0) in Hk by done.
    injection Hk as ->. by apply evolved_Finished, Hf. }
  destruct (poll_Finished (f p)) as [p' [|]]; cbn [fst] in Hu; [by apply pop_accounted|].
  by rewrite app_nil_r.
Qed.

Lemma prep_nodup s q : prep s q -> NoDup q.*1.
Proof. intros (refs & Hr & Hs & _). rewrite <- (stored_keys _ _ _ Hs). by apply om_nodup in Hr. Qed.

(** The invariant of runs, for a property [I] of queues that the operations of
    the queue keep. *)
Lemma reach_queue (I : list (Z * Validators) -> queue -> Prop) s regs res :
  reach s regs res -> I [] [] ->
  (forall regs q id vdrs, I regs q -> NoDup q.*1 ->
     I (regs ++ if (q_add id vdrs q).2 then [(id, vdrs)] else []) (q_add id vdrs q).1) ->
  (forall regs q id n v, I regs q -> NoDup q.*1 -> I regs (q_respond (poll_Vote n v) id q).1) ->
  (forall regs q id n, I regs q -> NoDup q.*1 -> I regs (q_respond (poll_Drop n) id q).1) ->
  exists q, prep s q /\ accounted regs res q /\ I regs q.
Proof.
  intros Hr H0 HA HV HD. induction Hr as [polls0 Hp|id vdrs s s' b regs res _ (q & Hq & Ha & HI) Hs
    |id n v s s' rs regs res _ (q & Hq & Ha & HI) Hs|id n s s' rs regs res _ (q & Hq & Ha & HI) Hs].
  - exists []. split; [exists []; by repeat constructor|]. split; [|done]. by exists [], [].
  - pose proof (prep_nodup _ _ Hq) as Hd.
    eapply (wp_run never) in Hs; [|eapply (wp_Add id vdrs s q (fun b s' => b = (q_add id vdrs q).2 /\
      prep s' (q_add id vdrs q).1)); [done|by split]].
    destruct Hs as [-> Hs]. exists (q_add id vdrs q).1. split; [done|]. split; [|by apply HA].
    destruct Ha as (old & new & -> & Ho & Hn). unfold q_add. destruct (kget id q); cbn.
    + exists old, new. by rewrite app_nil_r.
    + exists old, (new ++ [(id, vdrs)]). rewrite <- app_assoc. split; [done|]. split; [done|].
      apply Forall2_app; [done|]. by repeat constructor.
  - pose proof (prep_nodup _ _ Hq) as Hd.
    eapply (wp_run never) in Hs; [|eapply (wp_respond (poll_Vote n v) id s q (fun r s' =>
      r = (q_respond (poll_Vote n v) id q).2 /\ prep s' (q_respond (poll_Vote n v) id q).1)); [done|by split]].
    destruct Hs as [-> Hs]. eexists. split; [exact Hs|]. split; [|by apply HV].
    apply respond_accounted; eauto with go.
  - pose proof (prep_nodup _ _ Hq) as Hd.
    eapply (wp_run never) in Hs; [|eapply (wp_respond (poll_Drop n) id s q (fun r s' =>
      r = (q_respond (poll_Drop n) id q).2 /\ prep s' (q_respond (poll_Drop n) id q).1)); [done|by split]].
    destruct Hs as [-> Hs]. eexists. split; [exact Hs|]. split; [|by apply HD].
    apply respond_accounted; eauto with go.
Qed.

(** ** The properties *)

(** the set of polls, whose polls are reached through pointers, behaves as a
    queue of polls: [Add] appends a poll unless its request is outstanding,
    [Vote] and [Drop] change one poll and, when that poll is finished, take the
    finished polls off the front of the queue; unknown requests change nothing. *)
Theorem poll_set_refines_queue (s : set) (q : queue) (id : Z) (vdrs : Validators) (n : NodeID) (v : Vote) :
  prep s q ->
  (exists s', Add id vdrs s = (s', Ok (q_add id vdrs q).2) /\ prep s' (q_add id vdrs q).1) /\
  (exists s', Vote_ id n v s = (s', Ok (q_respond (poll_Vote n v) id q).2) /\
     prep s' (q_respond (poll_Vote n v) id q).1) /\
  (exists s', Drop id n s = (s', Ok (q_respond (poll_Drop n) id q).2) /\
     prep s' (q_respond (poll_Drop n) id q).1) /\
  (exists s', Len s = (s', Ok (Z.of_nat (length q))) /\ prep s' q).
Proof.
  intros Hq.
  assert (forall A (m : SM A) a q', (forall Q, (forall s', prep s' q' -> Q a s') -> wp never m Q s) ->
    exists s', m s = (s', Ok a) /\ prep s' q') as Htot.
  { intros A m a q' Hw. destruct (wp_total m (fun r s' => r = a /\ prep s' q') s) as (? & s' & ? & -> & ?);
      [by apply Hw|by exists s']. }
  split; [|split; [|split]]; apply Htot; intros Q HQ.
  - by apply (wp_Add _ _ _ q).
  - by apply (wp_respond _ _ _ q).
  - by apply (wp_respond _ _ _ q).
  - destruct Hq as (refs & Hr & Hs & Hd). apply on_polls_wp. eapply om_wp_Len; [exact Hr|].
    rewrite (Forall2_length _ _ _ Hs). apply HQ. exists refs. by destruct s.
Qed.

(** C11: on every run, the results are handed out in the order in which the polls
    were registered, one for each poll, and each is the result of a finished
    poll that only had the responses to its request; the others are outstanding. *)
Theorem results_in_order (s : set) (regs : list (Z * Validators)) (res : list Result) :
  reach s regs res ->
  exists q, prep s q /\ length regs = (length res + length q)%nat /\
    Forall2 result_of (take (length res) regs) res /\
    Forall2 outstanding (drop (length res) regs) q.
Proof.
  intros Hr. destruct (reach_queue (fun _ _ => True) _ _ _ Hr) as (q & Hq & Ha & _); try done.
  exists q. split; [done|]. destruct Ha as (old & new & -> & Ho & Hn).
  pose proof (Forall2_length _ _ _ Ho) as Hl. rewrite length_app, Hl, (Forall2_length _ _ _ Hn).
  split; [done|]. by rewrite take_app_length', drop_app_length'.
Qed.

(** [unblocked q]: the oldest outstanding poll is not finished. *)
Definition unblocked (q : queue) : Prop :=
  match q with (_, p) :: _ => (poll_Finished p).2 = false | [] => True end.

Lemma pop_unblocked q :
  (forall p, (poll_Finished (poll_Finished p).1).2 = (poll_Finished p).2) -> unblocked (pop q).1.
Proof.
  intros Hst. induction q as [|[id p] q IH]; [done|]. cbn [pop]. specialize (Hst p).
  destruct (poll_Finished p) as [p' [|]]; cbn in *; [|done]. by destruct (pop q).
Qed.

(** A response that does not finish its poll leaves the front unfinished. *)
Lemma update_unblocked id p q :
  unblocked q -> (poll_Finished p).2 = false -> unblocked (update id p q).
Proof. destruct q as [|[k p0] q]; [done|]. cbn. by case_decide. Qed.

Lemma respond_unblocked f id q :
  (forall p, (poll_Finished (poll_Finished p).1).2 = (poll_Finished p).2) ->
  unblocked q -> unblocked (q_respond f id q).1.
Proof.
  intros Hst Hu. unfold q_respond. destruct (kget id q) as [p|]; [|done].
  pose proof (Hst (f p)) as Hs.
  destruct (poll_Finished (f p)) as [p' [|]]; cbn in *; [by apply pop_unblocked|].
  by apply update_unblocked.
Qed.

(** when new polls are not finished and [Finished] is stable, a result is never
    withheld: after every operation the oldest outstanding poll is unfinished, so
    a finished poll only waits for an older poll, and a set whose polls are all
    finished is empty. *)
Theorem no_result_withheld (s : set) (regs : list (Z * Validators)) (res : list Result) :
  reach s regs res ->
  (forall p, (poll_Finished (poll_Finished p).1).2 = (poll_Finished p).2) ->
  Forall (fun reg => (poll_Finished (poll_New reg.2)).2 = false) regs ->
  exists q, prep s q /\ unblocked q /\
    (Forall (fun kp => (poll_Finished kp.2).2 = true) q -> q = [] /\ length res = length regs).
Proof.
  intros Hr Hst Hnew.
  destruct (reach_queue (fun regs q =>
    Forall (fun reg => (poll_Finished (poll_New reg.2)).2 = false) regs -> unblocked q) _ _ _ Hr)
    as (q & Hq & Ha & Hu); try done.
  - intros rs q id vdrs HI _ [HF Hv]%Forall_app. unfold q_add in *.
    destruct (kget id q); [by apply HI|]. cbn in Hv. apply Forall_cons in Hv as [Hv _].
    specialize (HI HF). by destruct q as [|[k p] q].
  - intros rs q id n v HI _ HF. by apply respond_unblocked; [|apply HI].
  - intros rs q id n HI _ HF. by apply respond_unblocked; [|apply HI].
  - exists q. split; [done|]. specialize (Hu Hnew). split; [done|].
    intros Hall. destruct q as [|[k p] q].
    + split; [done|]. destruct Ha as (old & new & -> & Ho & Hn).
      inversion Hn; subst. rewrite app_nil_r. symmetry. by eapply Forall2_length.
    + apply Forall_cons in Hall as [Hp _]. cbn in Hu, Hp. congruence.
Qed.
End set.

(** ** A concrete set: a poll waits for a number of responses and adds them up. *)
#[local] Instance counting_poll : Poll (nat * Z) nat Z Z Z := {|
  poll_New n := (n, 0);
  poll_Vote _ v p := (Nat.pred p.1, p.2 + v);
  poll_Drop _ p := (Nat.pred p.1, p.2);
  poll_Finished p := (p, bool_decide (p.1 = O));
  poll_Result p := p.2;
|}.
#[local] Instance int_range : LinkedHashmap.Range (K := Z) := LinkedHashmap.key_range.
#[local] Existing Instances LinkedHashmap.hashmap_ordered LinkedHashmap.hashmap_laws.

Definition set0 : set (P := nat * Z) := NewSet (LinkedHashmap.new_state (K := Z) (V := positive) 0).

Lemma set0_rep : prep set0 [].
Proof.
  exists []. split; [|by repeat constructor]. exists [].
  split; [apply LinkedHashmap.new_state_rep|done].
Qed.

Lemma poll_set_refines_queue_witness :
  (exists s', Add 7 2%nat set0 = (s', Ok true) /\ prep s' [(7, (2%nat, 0))]) /\
  (exists s', Len set0 = (s', Ok 0) /\ prep s' []).
Proof.
  destruct (poll_set_refines_queue set0 [] 7 2%nat 0 0 set0_rep) as (H1 & _ & _ & H4). by split.
Defined.

(** Two polls; the younger one finishes first and waits for the older one. *)
Definition run1 := (Add 7 1%nat set0).1.
Definition run2 := (Add 8 1%nat run1).1.
Definition run3 := (Vote_ 8 0 5 run2).1.
Definition run4 := (Vote_ 7 0 4 run3).1.

Lemma run3_reach : reach run3 [(7, 1%nat); (8, 1%nat)] [].
Proof.
  apply (reach_Vote 8 0 5 run2 _ [] _ []); [|by vm_compute].
  apply (reach_Add 8 1%nat run1 _ true [(7, 1%nat)]); [|by vm_compute].
  apply (reach_Add 7 1%nat set0 _ true []); [|by vm_compute].
  apply (reach_New (LinkedHashmap.new_state 0)). exists [].
  split; [apply LinkedHashmap.new_state_rep|done].
Qed.

Lemma run4_reach : reach run4 [(7, 1%nat); (8, 1%nat)] [4; 5].
Proof. apply (reach_Vote 7 0 4 run3 _ [4; 5] _ []); [apply run3_reach|by vm_compute]. Qed.

Lemma results_in_order_witness :
  exists q, prep run4 q /\ 2%nat = (2 + length q)%nat /\
    Forall2 result_of [(7, 1%nat); (8, 1%nat)] [4; 5] /\ Forall2 outstanding [] q.
Proof. exact (results_in_order run4 _ _ run4_reach). Defined.

Lemma no_result_withheld_witness :
  exists q, prep run3 q /\ unblocked q /\
    (Forall (fun kp => (poll_Finished kp.2).2 = true) q -> q = [] /\ 0%nat = 2%nat).
Proof.
  apply (no_result_withheld run3 _ _ run3_reach).
  - done.
  - by repeat constructor.
Defined.
End PollSet.
