(* ===== verification/MapOrder.v ===== *)
(** * The order of map iteration

    A Go [range] over a map visits the keys in an order that the runtime picks.
    The models that depend on it take the order from [KeyOrder]; their theorems
    hold for every instance. *)

From S2P Require Import Prelude.

(** The order in which the runtime visits the keys of a map. *)
Class KeyOrder (A : Type) `{Countable A} := {
  keys : gset A -> list A;
  keys_perm X : keys X ≡ₚ elements X;
}.

Section order.
Context `{KeyOrder A}.

Lemma elem_of_keys (X : gset A) x : x ∈ keys X <-> x ∈ X.
Proof. by rewrite keys_perm, elem_of_elements. Qed.

Lemma keys_nodup (X : gset A) : NoDup (keys X).
Proof. rewrite keys_perm. apply NoDup_elements. Qed.

(** [for k, v := range m] *)
Definition entries {V} (m : gmap A V) : list (A * V) :=
  omap (fun k => pair k <$> m !! k) (keys (dom m)).

Lemma entries_perm {V} (m : gmap A V) : entries m ≡ₚ map_to_list m.
Proof.
  apply NoDup_Permutation.
  - apply (NoDup_fmap_1 fst). unfold entries.
    enough (forall l, NoDup l -> NoDup (omap (fun k => pair k <$> m !! k) l).*1 /\
      forall k, k ∈ (omap (fun k => pair k <$> m !! k) l).*1 -> k ∈ l) as Hl
      by apply (Hl _ (keys_nodup _)).
    induction 1 as [|k l Hk _ [IH1 IH2]]; [split; [constructor|done]|]. cbn.
    destruct (m !! k) as [v|]; cbn; [|set_solver]. split; [constructor; auto|set_solver].
  - apply NoDup_map_to_list.
  - intros [k v]. rewrite elem_of_map_to_list. unfold entries. rewrite list_elem_of_omap. split.
    + intros (k' & _ & Hk). destruct (m !! k') eqn:E; [|done]. cbn in Hk. by injection Hk as <- <-.
    + intros Hk. exists k. rewrite Hk. split; [|done]. apply elem_of_keys, elem_of_dom. by eexists.
Qed.

Lemma elem_of_entries {V} (m : gmap A V) k v : (k, v) ∈ entries m <-> m !! k = Some v.
Proof. by rewrite entries_perm, elem_of_map_to_list. Qed.

Lemma entries_nodup {V} (m : gmap A V) : NoDup (entries m).
Proof. rewrite entries_perm. apply NoDup_map_to_list. Qed.

Lemma entries_keys_nodup {V} (m : gmap A V) : NoDup (entries m).*1.
Proof. rewrite entries_perm. apply NoDup_fst_map_to_list. Qed.
End order.

(** A [for] loop over a slice whose body can fail. *)
Fixpoint foldR {E A B} (f : A -> B -> result E A) (acc : A) (l : list B) : result E A :=
  match l with
  | [] => Ok acc
  | x :: l => acc ← f acc x; foldR f acc l
  end.

Lemma foldR_Ok {E A B} (f : A -> B -> result E A) (g : A -> B -> A) acc l :
  (forall acc x, x ∈ l -> f acc x = Ok (g acc x)) -> foldR f acc l = Ok (foldl g acc l).
Proof.
  revert acc. induction l as [|x l IH]; intros acc Hf; [done|]. cbn.
  rewrite Hf by (by left). cbn. apply IH. intros. apply Hf. by right.
Qed.

Lemma foldR_app {E A B} (f : A -> B -> result E A) acc l1 l2 : foldR f acc (l1 ++ l2) = foldR f acc l1 ≫= fun a => foldR f a l2.
Proof. revert acc. induction l1 as [|x l1 IH]; intros acc; [done|]. cbn. destruct (f acc x); [apply IH|done]. Qed.

Lemma foldR_fmap {E A B C} (f : A -> B -> result E A) (g : C -> B) acc l : foldR f acc (g <$> l) = foldR (fun a x => f a (g x)) acc l.
Proof. revert acc. induction l as [|x l IH]; intros acc; [done|]. cbn. destruct (f acc (g x)); [apply IH|done]. Qed.

Lemma foldR_ext {E A B} (f g : A -> B -> result E A) acc l : (forall a x, x ∈ l -> f a x = g a x) -> foldR f acc l = foldR g acc l.
Proof.
  revert acc. induction l as [|x l IH]; intros acc Hfg; [done|]. cbn. rewrite Hfg by (by left).
  destruct (g acc x); [apply IH|done]. intros. apply Hfg. by right.
Qed.

(** Nested loops are one loop over the concatenation. *)
Lemma foldR_bind {E A B C} (f : A -> B -> result E A) (g : C -> list B) acc l :
  foldR f acc (l ≫= g) = foldR (fun a x => foldR f a (g x)) acc l.
Proof.
  revert acc. induction l as [|x l IH]; intros acc; [done|]. cbn. rewrite foldR_app.
  destruct (foldR f acc (g x)); [apply IH|done].
Qed.

(** The rule of such a loop: the invariant speaks of the elements done. *)
Lemma foldR_inv {E A B} (ok : E -> Prop) (f : A -> B -> result E A) (I : list B -> A -> Prop) a l :
  I [] a -> (forall done x rest a, l = done ++ x :: rest -> I done a -> match f a x with Ok a' => I (done ++ [x]) a' | Err e => ok e end) ->
  match foldR f a l with Ok a' => I l a' | Err e => ok e end.
Proof.
  intros H0 Hs. enough (forall rest done a, l = done ++ rest -> I done a -> match foldR f a rest with Ok a' => I l a' | Err e => ok e end) as Hg by by apply (Hg l []).
  clear H0 a. induction rest as [|x rest IH]; intros done a Hl HI; cbn; [by rewrite Hl, app_nil_r|].
  pose proof (Hs done x rest a Hl HI) as Hx. destruct (f a x) as [a'|e]; [|done]. cbn. apply (IH (done ++ [x])); [by rewrite Hl, <- app_assoc|done].
Qed.

(** The runtime that visits the keys in the order of [elements]. *)
Definition elements_order {A} `{Countable A} : KeyOrder A := {|
  keys X := elements X;
  keys_perm X := Permutation_refl _;
|}.
