(* ===== verification/Bootstrapper.v ===== *)
(** * Polls of the bootstrapper

    Models [avalanchego/snow/consensus/snowman/bootstrapper]: the bookkeeping of
    the requests ([requests.go]), the poll that collects the frontier
    ([minority.go]) and the poll that filters it by weight ([majority.go]).
    A [set.Set] is a [gset]; the runtime chooses the order of its iteration. *)

From S2P Require Import Prelude MapOrder.

Module Bootstrapper.

Section pop.
Context `{KeyOrder A}.

(** [set.Pop] *)
Definition Pop (s : gset A) : option (A * gset A) :=
  match keys s with
  | [] => None
  | elt :: _ => Some (elt, s ∖ {[elt]})
  end.

Lemma Pop_None s : Pop s = None <-> s = ∅.
Proof.
  unfold Pop. pose proof (elem_of_keys s) as Hk. destruct (keys s) as [|x l]; split; try done.
  - intros _. apply leibniz_equiv. intros x. rewrite <- Hk. set_solver.
  - intros ->. assert (x ∈ (∅ : gset A)) by (apply Hk; by left). set_solver.
Qed.

Lemma Pop_Some s x s' : Pop s = Some (x, s') -> x ∈ s /\ s' = s ∖ {[x]}.
Proof.
  unfold Pop. pose proof (elem_of_keys s) as Hk. destruct (keys s) as [|y l]; [done|].
  intros [= <- <-]. split; [|done]. apply Hk. by left.
Qed.
End pop.

(** ** Requests *)
Section requests.
Context `{KeyOrder NodeID}.
Implicit Types (n : NodeID) (all answered : gset NodeID).

Record requests := mkRequests {
  maxOutstanding : Z;
  pendingSend : gset NodeID;
  outstanding : gset NodeID;
}.

(** [for i := 0; i < numToSend; i++ { ... }]: a failing [Pop] adds the zero
    value, as the code would; [numToSend] makes it impossible. *)
Fixpoint pop_n `{Inhabited NodeID} (k : nat) (pending nodeIDs : gset NodeID) : gset NodeID * gset NodeID :=
  match k with
  | O => (pending, nodeIDs)
  | S k =>
      match Pop pending with
      | Some (nodeID, pending) => pop_n k pending ({[nodeID]} ∪ nodeIDs)
      | None => pop_n k pending ({[inhabitant]} ∪ nodeIDs)
      end
  end.

Definition GetPeers `{Inhabited NodeID} (r : requests) : requests * gset NodeID :=
  let numPending := Z.of_nat (size (outstanding r)) in
  if maxOutstanding r <=? numPending then (r, ∅)
  else
    let numToSend := Z.min (maxOutstanding r - numPending) (Z.of_nat (size (pendingSend r))) in
    let '(pending, nodeIDs) := pop_n (Z.to_nat numToSend) (pendingSend r) ∅ in
    (mkRequests (maxOutstanding r) pending (outstanding r ∪ nodeIDs), nodeIDs).

Definition recordResponse (nodeID : NodeID) (r : requests) : requests * bool :=
  let wasOutstanding := bool_decide (nodeID ∈ outstanding r) in
  (mkRequests (maxOutstanding r) (pendingSend r) (outstanding r ∖ {[nodeID]}), wasOutstanding).

Definition finished (r : requests) : bool :=
  (Z.of_nat (size (pendingSend r)) =? 0) && (Z.of_nat (size (outstanding r)) =? 0).

(** [rinv all r answered]: every node of [all] waits to be asked, is asked, or
    has answered, and not too many are asked. *)
Record rinv (all : gset NodeID) (r : requests) (answered : gset NodeID) : Prop := {
  ri_all : all = pendingSend r ∪ outstanding r ∪ answered;
  ri_po : pendingSend r ## outstanding r;
  ri_pa : pendingSend r ## answered;
  ri_oa : outstanding r ## answered;
  ri_max : Z.of_nat (size (outstanding r)) <= Z.max 0 (maxOutstanding r);
}.

Context `{Inhabited NodeID}.

Lemma pop_n_spec k pending nodes : (k <= size pending)%nat -> nodes ## pending ->
  exists picked, pop_n k pending nodes = (pending ∖ picked, picked ∪ nodes) /\
    picked ⊆ pending /\ size picked = k.
Proof.
  revert pending nodes. induction k as [|k IH]; intros pending nodes Hk Hd; cbn [pop_n].
  { exists ∅. rewrite size_empty. split; [f_equal; set_solver|]. split; [set_solver|done]. }
  destruct (Pop pending) as [[x pending']|] eqn:HP.
  - apply Pop_Some in HP as [Hx ->].
    destruct (IH (pending ∖ {[x]}) ({[x]} ∪ nodes)) as (picked & -> & Hs & Hz).
    + rewrite size_difference, size_singleton by set_solver. lia.
    + set_solver.
    + exists ({[x]} ∪ picked). rewrite size_union, size_singleton by set_solver.
      split; [f_equal; set_solver|]. split; [set_solver|lia].
  - apply Pop_None in HP as ->. rewrite size_empty in Hk. lia.
Qed.

Lemma GetPeers_spec r : exists peers,
  GetPeers r = (mkRequests (maxOutstanding r) (pendingSend r ∖ peers) (outstanding r ∪ peers), peers) /\
  peers ⊆ pendingSend r /\
  Z.of_nat (size peers) = Z.max 0 (Z.min (maxOutstanding r - Z.of_nat (size (outstanding r)))
                             (Z.of_nat (size (pendingSend r)))).
Proof.
  unfold GetPeers. destruct (Z.leb_spec (maxOutstanding r) (Z.of_nat (size (outstanding r)))).
  - exists ∅. rewrite size_empty. split; [|split; [set_solver|lia]].
    rewrite difference_empty_L, union_empty_r_L. by destruct r.
  - destruct (pop_n_spec (Z.to_nat (Z.min (maxOutstanding r - Z.of_nat (size (outstanding r)))
      (Z.of_nat (size (pendingSend r))))) (pendingSend r) ∅) as (picked & -> & Hs & Hz); [lia|set_solver|].
    exists picked. rewrite union_empty_r_L. split; [done|]. split; [done|lia].
Qed.

Lemma GetPeers_inv all r answered r' peers : rinv all r answered -> GetPeers r = (r', peers) ->
  rinv all r' answered /\ peers ⊆ pendingSend r /\ outstanding r' = outstanding r ∪ peers /\
  (0 < maxOutstanding r -> finished r = false -> outstanding r' <> ∅).
Proof.
  intros [Ha Hpo Hpa Hoa Hm] HG. destruct (GetPeers_spec r) as (ps & HG' & Hs & Hz).
  rewrite HG' in HG. injection HG as <- <-. cbn [outstanding].
  assert (outstanding r ## ps) as Hd by set_solver.
  split; [|split; [done|split; [done|]]].
  - split; cbn; [|set_solver..|].
    + rewrite Ha. apply leibniz_equiv. intros x. destruct (decide (x ∈ ps)); set_solver.
    + rewrite size_union by done. lia.
  - intros Hmax Hf He. assert (outstanding r = ∅ /\ ps = ∅) as [Ho Hps] by set_solver.
    rewrite Ho, Hps, size_empty in Hz. unfold finished in Hf. rewrite Ho, size_empty in Hf.
    destruct (Z.eqb_spec (Z.of_nat (size (pendingSend r))) 0); [done|lia].
Qed.

Lemma recordResponse_inv all r answered n r' b : rinv all r answered ->
  recordResponse n r = (r', b) ->
  b = bool_decide (n ∈ outstanding r) /\
  rinv all r' (answered ∪ if b then {[n]} else ∅).
Proof.
  intros [Ha Hpo Hpa Hoa Hm] [= <- <-]. split; [done|].
  assert (size (outstanding r ∖ {[n]}) <= size (outstanding r))%nat by (apply subseteq_size; set_solver).
  case_bool_decide as Hn; split; cbn; try set_solver; try lia.
  rewrite Ha. apply leibniz_equiv. intros x. destruct (decide (x = n)) as [->|]; set_solver.
Qed.

Lemma finished_spec all r answered : rinv all r answered ->
  finished r = true <-> pendingSend r = ∅ /\ outstanding r = ∅.
Proof.
  intros _. unfold finished. rewrite andb_true_iff, !Z.eqb_eq.
  split; intros [Hp Ho].
  - split; apply leibniz_equiv, size_empty_iff; lia.
  - by rewrite Hp, Ho, size_empty.
Qed.

Lemma finished_answered all r answered : rinv all r answered -> finished r = true -> answered = all.
Proof.
  intros Hr Hf. apply (finished_spec _ _ _ Hr) in Hf as [Hp Ho].
  rewrite (ri_all _ _ _ Hr), Hp, Ho. set_solver.
Qed.
End requests.
Arguments requests NodeID {_ _}.

(** ** Polls *)
Section polls.
Context `{KeyOrder NodeID, KeyOrder BlkID, !Inhabited NodeID}.
Implicit Types (n : NodeID) (blks : gset BlkID).

(** *** The minority poll *)
Record Minority := mkMinority {
  min_requests : requests NodeID;
  receivedSet : gset BlkID;
  received : list BlkID;
}.

Definition NewMinority (frontierNodes : gset NodeID) (max : Z) : Minority :=
  mkMinority (mkRequests max frontierNodes ∅) ∅ [].

Definition min_GetPeers (m : Minority) : Minority * gset NodeID :=
  let '(r, peers) := GetPeers (min_requests m) in
  (mkMinority r (receivedSet m) (received m), peers).

Definition min_RecordOpinion (nodeID : NodeID) (blkIDs : gset BlkID) (m : Minority) : Minority :=
  let '(r, expected) := recordResponse nodeID (min_requests m) in
  if negb expected then mkMinority r (receivedSet m) (received m)
  else
    let set := receivedSet m ∪ blkIDs in
    if negb (finished r) then mkMinority r set (received m)
    else mkMinority r set (keys set).

Definition min_Result (m : Minority) : list BlkID * bool :=
  (received m, finished (min_requests m)).

(** *** The majority poll *)
Record Majority := mkMajority {
  maj_requests : requests NodeID;
  nodeWeights : gmap NodeID Z;
  weights : gmap BlkID Z;
  accepted : list BlkID;
}.

Definition NewMajority (nodeWeights : gmap NodeID Z) (max : Z) : Majority :=
  mkMajority (mkRequests max (dom nodeWeights) ∅) nodeWeights ∅ [].

Definition maj_GetPeers (m : Majority) : Majority * gset NodeID :=
  let '(r, peers) := GetPeers (maj_requests m) in
  (mkMajority r (nodeWeights m) (weights m) (accepted m), peers).

(** [for blkID := range blkIDs { ... }]; the field [received] of the source is
    [weights] here. *)
Definition add_weight (weight : Z) (received : gmap BlkID Z) (blkID : BlkID) : gmap BlkID Z :=
  match received !! blkID with
  | Some w => <[blkID := w + weight]> received
  | None => <[blkID := weight]> received
  end.

(** [int64(weight)] of a [uint64] *)
Definition int64 (weight : Z) : Z := if weight <? 2 ^ 63 then weight else weight - 2 ^ 64.

Definition totalWeight (ws : gmap NodeID Z) : Z :=
  foldl (fun total kw => total + int64 kw.2) 0 (entries ws).

(** [Int.Div] by 2, the Euclidean division, rounds down. *)
Definition requiredWeight (ws : gmap NodeID Z) : Z := totalWeight ws / 2 + 1.

Definition accept_heavy (required : Z) (received : gmap BlkID Z) (accepted : list BlkID) : list BlkID :=
  foldl (fun acc bw => if required <=? bw.2 then acc ++ [bw.1] else acc) accepted (entries received).

Definition maj_RecordOpinion (nodeID : NodeID) (blkIDs : gset BlkID) (m : Majority) : Majority :=
  let '(r, expected) := recordResponse nodeID (maj_requests m) in
  if negb expected then mkMajority r (nodeWeights m) (weights m) (accepted m)
  else
    let weight := default 0 (nodeWeights m !! nodeID) in
    let ws := foldl (add_weight weight) (weights m) (keys blkIDs) in
    if negb (finished r) then mkMajority r (nodeWeights m) ws (accepted m)
    else
      mkMajority r (nodeWeights m) ws
        (accept_heavy (requiredWeight (nodeWeights m)) ws (accepted m)).

Definition maj_Result (m : Majority) : list BlkID * bool :=
  (accepted m, finished (maj_requests m)).

(** ** Runs: the peers asked so far and the opinions recorded, in order *)
Abbreviation opinions := (list (NodeID * gset BlkID)).

Inductive min_run (nodes : gset NodeID) (max : Z) : Minority -> gset NodeID -> opinions -> Prop :=
  | min_new : min_run nodes max (NewMinority nodes max) ∅ []
  | min_peers m asked ops m' peers : min_run nodes max m asked ops ->
      min_GetPeers m = (m', peers) -> min_run nodes max m' (asked ∪ peers) ops
  | min_opinion m asked ops n blks : min_run nodes max m asked ops ->
      min_run nodes max (min_RecordOpinion n blks m) asked
        (ops ++ if decide (n ∈ outstanding (min_requests m)) then [(n, blks)] else []).

Inductive maj_run (ws : gmap NodeID Z) (max : Z) : Majority -> gset NodeID -> opinions -> Prop :=
  | maj_new : maj_run ws max (NewMajority ws max) ∅ []
  | maj_peers m asked ops m' peers : maj_run ws max m asked ops ->
      maj_GetPeers m = (m', peers) -> maj_run ws max m' (asked ∪ peers) ops
  | maj_opinion m asked ops n blks : maj_run ws max m asked ops ->
      maj_run ws max (maj_RecordOpinion n blks m) asked
        (ops ++ if decide (n ∈ outstanding (maj_requests m)) then [(n, blks)] else []).

Definition answered (ops : opinions) : gset NodeID := list_to_set ops.*1.

(** What the runs of both polls keep of the requests. *)
Record asked_ok (all : gset NodeID) (max : Z) (r : requests NodeID) (asked : gset NodeID) (ops : opinions) : Prop := {
  ao_inv : rinv all r (answered ops);
  ao_max : maxOutstanding r = max;
  ao_asked : asked = outstanding r ∪ answered ops;
  ao_nodup : NoDup ops.*1;
}.

Lemma asked_new all max : asked_ok all max (mkRequests max all ∅) ∅ [].
Proof.
  split; [|done|cbn; set_solver|by constructor].
  split; cbn; [set_solver..|]. rewrite size_empty. lia.
Qed.

Lemma asked_peers all max r asked ops r' peers : asked_ok all max r asked ops ->
  GetPeers r = (r', peers) -> asked_ok all max r' (asked ∪ peers) ops.
Proof.
  intros [Hi Hm Ha Hd] HG. destruct (GetPeers_inv _ _ _ _ _ Hi HG) as (Hi' & _ & Ho & _).
  destruct (GetPeers_spec r) as (ps & HG' & _). rewrite HG' in HG. injection HG as <- <-.
  split; [done|done| |done]. rewrite Ho, Ha. set_solver.
Qed.

Lemma answered_app ops ops' : answered (ops ++ ops') = answered ops ∪ answered ops'.
Proof. unfold answered. by rewrite fmap_app, list_to_set_app_L. Qed.

Lemma asked_opinion all max r asked ops n blks r' b : asked_ok all max r asked ops ->
  recordResponse n r = (r', b) ->
  b = bool_decide (n ∈ outstanding r) /\
  asked_ok all max r' asked (ops ++ if decide (n ∈ outstanding r) then [(n, blks)] else []).
Proof.
  intros [Hi Hm Ha Hd] HR. destruct (recordResponse_inv _ _ _ _ _ _ Hi HR) as [-> Hi'].
  split; [done|]. injection HR as <- .
  assert (answered (ops ++ if decide (n ∈ outstanding r) then [(n, blks)] else []) =
    answered ops ∪ if bool_decide (n ∈ outstanding r) then {[n]} else ∅) as Heq.
  { rewrite answered_app. case_bool_decide as Hb; [rewrite decide_True by done|rewrite decide_False by done];
      unfold answered; cbn; set_solver. }
  pose proof (ri_oa _ _ _ Hi) as Hoa.
  split; [by rewrite Heq|done| |].
  - rewrite Heq, Ha. cbn. apply leibniz_equiv. intros x.
    case_bool_decide; destruct (decide (x = n)) as [->|]; set_solver.
  - rewrite fmap_app, NoDup_app. split; [done|].
    case_decide as Hn; cbn; [|split; [set_solver|constructor]]. split; [|by apply NoDup_singleton].
    intros x Hx. assert (x ∈ answered ops) by (by apply elem_of_list_to_set). set_solver.
Qed.

(** *** Weights of lists of nodes *)
Definition sumw (ws : gmap NodeID Z) (l : list NodeID) : Z :=
  foldr (fun n a => default 0 (ws !! n) + a) 0 l.

Definition nonneg (ws : gmap NodeID Z) : Prop := map_Forall (fun _ w => 0 <= w) ws.

Lemma node_weight_nonneg ws n : nonneg ws -> 0 <= default 0 (ws !! n).
Proof. intros Hw. destruct (ws !! n) eqn:E; cbn; [by apply (Hw n)|done]. Qed.

Lemma sumw_app ws l1 l2 : sumw ws (l1 ++ l2) = sumw ws l1 + sumw ws l2.
Proof. unfold sumw. induction l1 as [|n l1 IH]; cbn in *; lia. Qed.

Lemma sumw_perm ws l1 l2 : l1 ≡ₚ l2 -> sumw ws l1 = sumw ws l2.
Proof. unfold sumw. induction 1; cbn in *; lia. Qed.

Lemma sumw_subset ws l1 l2 : nonneg ws -> NoDup l1 -> (forall n, n ∈ l1 -> n ∈ l2) ->
  sumw ws l1 <= sumw ws l2.
Proof.
  intros Hw Hd Hs. apply NoDup_submseteq in Hs as [l Hp]%submseteq_Permutation; [|done].
  rewrite (sumw_perm _ _ _ Hp), sumw_app.
  enough (0 <= sumw ws l) by lia. clear -Hw. unfold sumw. induction l as [|n l IH]; cbn; [done|].
  pose proof (node_weight_nonneg ws n Hw). lia.
Qed.

(** The weight of the nodes of [ops] that reported [b]. *)
Definition reporters (b : BlkID) (ops : opinions) : list NodeID :=
  (filter (fun op => b ∈ op.2) ops).*1.
Definition votes (ws : gmap NodeID Z) (b : BlkID) (ops : opinions) : Z := sumw ws (reporters b ops).

Lemma reporters_elem b ops n : n ∈ reporters b ops <-> exists blks, (n, blks) ∈ ops /\ b ∈ blks.
Proof.
  unfold reporters. rewrite list_elem_of_fmap. split.
  - intros ([n' blks] & -> & [Hb Hin]%list_elem_of_filter). by exists blks.
  - intros (blks & Hin & Hb). exists (n, blks). by rewrite list_elem_of_filter.
Qed.

Lemma reporters_nodup b ops : NoDup ops.*1 -> NoDup (reporters b ops).
Proof.
  unfold reporters. induction ops as [|[n blks] ops IH]; [done|].
  rewrite fmap_cons. intros [Hn Hd]%NoDup_cons. cbn [fst] in Hn.
  destruct (decide (b ∈ blks)); [rewrite filter_cons_True by done|rewrite filter_cons_False by done; auto].
  rewrite fmap_cons. apply NoDup_cons. split; [|by apply IH]. cbn [fst].
  intros ([n' bs] & -> & [_ Hin]%list_elem_of_filter)%list_elem_of_fmap. apply Hn.
  apply list_elem_of_fmap. by exists (n', bs).
Qed.

(** The weights received after one more opinion. *)
Lemma add_weights weight l m b : NoDup l ->
  foldl (add_weight weight) m l !! b =
    if decide (b ∈ l) then Some (default 0 (m !! b) + weight) else m !! b.
Proof.
  intros Hd. revert m. induction Hd as [|x l Hx Hd IH]; intros m; cbn [foldl].
  { by rewrite decide_False by set_solver. }
  rewrite IH.
  assert (add_weight weight m x !! b = if decide (b = x) then Some (default 0 (m !! x) + weight) else m !! b) as ->.
  { unfold add_weight. destruct (decide (b = x)) as [->|Hb]; destruct (m !! x) as [w|] eqn:Hx0;
      rewrite ?lookup_insert_eq, ?lookup_insert_ne by done; try done. }
  destruct (decide (b = x)) as [->|Hne].
  - rewrite decide_False, decide_True by (done || by left). done.
  - destruct (decide (b ∈ l)); [rewrite decide_True by (by right)|rewrite decide_False by set_solver]; done.
Qed.

(** The blocks that reach the required weight. *)
Lemma accept_heavy_spec required (m : gmap BlkID Z) :
  NoDup (accept_heavy required m []) /\
  forall b, b ∈ accept_heavy required m [] <-> exists w, m !! b = Some w /\ required <= w.
Proof.
  unfold accept_heavy.
  enough (forall (l : list (BlkID * Z)) acc, foldl (fun acc bw => if required <=? bw.2 then acc ++ [bw.1] else acc) acc l =
    acc ++ (filter (fun bw => required <= bw.2) l).*1) as Hf.
  { rewrite Hf. cbn. split.
    - rewrite (entries_perm m). pose proof (NoDup_fst_map_to_list m) as Hd. revert Hd.
      generalize (map_to_list m). intros l. induction l as [|[b w] l IH]; [done|].
      rewrite fmap_cons. intros [Hb Hd]%NoDup_cons. cbn [fst] in Hb. destruct (decide (required <= w));
        [rewrite filter_cons_True by done|rewrite filter_cons_False by done; auto].
      rewrite fmap_cons. apply NoDup_cons. split; [|by apply IH]. cbn [fst]. intros (p & -> & [_ Hp]%list_elem_of_filter)%list_elem_of_fmap.
      apply Hb, list_elem_of_fmap. by exists p.
    - intros b. rewrite list_elem_of_fmap. split.
      + intros ([b' w] & -> & [Hw Hin]%list_elem_of_filter). exists w.
        by rewrite (entries_perm m), elem_of_map_to_list in Hin.
      + intros (w & Hb & Hw). exists (b, w). rewrite list_elem_of_filter. split; [done|]. split; [done|].
        by rewrite (entries_perm m), elem_of_map_to_list. }
  intros l. induction l as [|[b w] l IH]; intros acc; cbn [foldl]; [by rewrite app_nil_r|].
  rewrite IH. cbn [snd fst]. destruct (Z.leb_spec required w).
  - rewrite filter_cons_True by done. cbn. by rewrite <- app_assoc.
  - rewrite filter_cons_False by (cbn; lia). done.
Qed.

(** Below [2^63] the total weight is the sum of the weights. *)
Lemma totalWeight_sum (ws : gmap NodeID Z) : map_Forall (fun _ w => 0 <= w < 2 ^ 63) ws ->
  totalWeight ws = sumw ws (elements (dom ws)).
Proof.
  intros Hw. rewrite <- (sumw_perm ws (keys (dom ws))) by apply keys_perm.
  unfold totalWeight, entries. replace (sumw ws (keys (dom ws))) with (0 + sumw ws (keys (dom ws))) by lia.
  assert (forall n, n ∈ keys (dom ws) -> is_Some (ws !! n)) as Hin
    by (intros n Hn; by apply elem_of_dom, elem_of_keys).
  generalize 0. revert Hin. generalize (keys (dom ws)). intros l.
  induction l as [|n l IH]; intros Hin a; [cbn; lia|].
  destruct (Hin n ltac:(by left)) as [w Hn]. cbn. rewrite Hn. cbn.
  rewrite IH by (intros; apply Hin; by right).
  pose proof (Hw _ _ Hn) as Hb. cbn in Hb. unfold int64, sumw. zcase; lia.
Qed.

(** *** The invariant of the majority poll *)
Lemma finished_peers r r' peers : GetPeers r = (r', peers) -> finished r' = finished r.
Proof.
  intros HG. destruct (GetPeers_spec r) as (ps & HG' & Hs & _). rewrite HG' in HG. injection HG as <- <-.
  unfold finished. cbn. apply eq_true_iff_eq. rewrite !andb_true_iff, !Z.eqb_eq.
  assert (forall X : gset NodeID, Z.of_nat (size X) = 0 <-> X = ∅) as Hz.
  { intros X. rewrite <- (leibniz_equiv_iff X), <- size_empty_iff. lia. }
  rewrite !Hz. split; intros [Hp Ho]; split; set_solver.
Qed.

Lemma finished_unexpected (r : requests NodeID) n : n ∉ outstanding r ->
  (recordResponse n r).1 = r.
Proof.
  intros Hn. unfold recordResponse. cbn. rewrite (difference_disjoint_L (outstanding r)) by set_solver.
  by destruct r.
Qed.

Record maj_inv (ws : gmap NodeID Z) (m : Majority) (ops : opinions) : Prop := {
  mi_nodes : nodeWeights m = ws;
  mi_weights b : weights m !! b =
    if decide (reporters b ops = []) then None else Some (votes ws b ops);
  mi_accepted : accepted m =
    if finished (maj_requests m) then accept_heavy (requiredWeight ws) (weights m) [] else [];
}.

Lemma maj_run_inv ws max m asked ops : maj_run ws max m asked ops ->
  asked_ok (dom ws) max (maj_requests m) asked ops /\ maj_inv ws m ops.
Proof.
  induction 1 as [|m asked ops m' peers _ [Ha [Hn Hw Hacc]] HG|m asked ops n blks _ [Ha [Hn Hw Hacc]]].
  - split; [apply asked_new|]. split; cbn; [done|by intros b; rewrite lookup_empty, decide_True|].
    destruct (finished _); [|done]. symmetry. apply elem_of_nil_inv. intros b Hb.
    apply accept_heavy_spec in Hb as (w & Hw & _). by rewrite lookup_empty in Hw.
  - unfold maj_GetPeers in HG. destruct (GetPeers (maj_requests m)) as [r ps] eqn:HG'.
    injection HG as <- <-. split; [by eapply asked_peers|]. split; cbn; [done|done|].
    by rewrite (finished_peers _ _ _ HG').
  - unfold maj_RecordOpinion. pose proof (asked_opinion _ _ _ _ _ n blks _ _ Ha eq_refl) as [_ Ha'].
    pose proof (finished_unexpected (maj_requests m) n) as Hun.
    unfold recordResponse in *. cbn [fst snd] in *.
    destruct (decide (n ∈ outstanding (maj_requests m))) as [Hin|Hin].
    2:{ rewrite bool_decide_eq_false_2 by done. cbn [negb]. rewrite app_nil_r in *. split; [done|].
        split; cbn; [done..|]. by rewrite (Hun Hin). }
    rewrite bool_decide_eq_true_2 by done. cbn [negb].
    assert (accepted m = []) as Hacc0.
    { rewrite Hacc. destruct (finished _) eqn:Hf; [|done].
      apply (finished_spec _ _ _ (ao_inv _ _ _ _ _ Ha)) in Hf as [_ Ho]. set_solver. }
    assert (forall b, foldl (add_weight (default 0 (nodeWeights m !! n))) (weights m) (keys blks) !! b =
      if decide (reporters b (ops ++ [(n, blks)]) = []) then None
      else Some (votes ws b (ops ++ [(n, blks)]))) as Hws.
    { intros b. rewrite add_weights by apply keys_nodup. rewrite Hn, Hw. unfold votes, reporters.
      rewrite filter_app, fmap_app. destruct (decide (b ∈ blks)) as [Hb|Hb].
      - rewrite (decide_True (P := b ∈ keys blks)) by by apply elem_of_keys.
        rewrite filter_cons_True by done. rewrite (decide_False (P := _ ++ _ = [])) by (intros [_ ?]%app_nil; done).
        rewrite sumw_app. cbn. f_equal. case_decide as Hd; [by rewrite Hd; cbn; lia|]. cbn. lia.
      - rewrite (decide_False (P := b ∈ keys blks)) by by rewrite elem_of_keys.
        rewrite filter_cons_False by done. cbn. by rewrite app_nil_r. }
    set (r := mkRequests _ _ _) in *. clear Hacc.
    destruct (finished r) eqn:Hf; cbn [negb]; (split; [done|]); split; cbn; rewrite ?Hf; try done.
    by rewrite Hacc0, Hn.
Qed.

(** *** The invariant of the minority poll *)
Definition reported (ops : opinions) : gset BlkID := ⋃ ops.*2.

Record min_inv (m : Minority) (ops : opinions) : Prop := {
  ni_set : receivedSet m = reported ops;
  ni_received : received m = if finished (min_requests m) then keys (receivedSet m) else [];
}.

Lemma keys_empty : keys (∅ : gset BlkID) = [].
Proof. apply elem_of_nil_inv. intros b Hb%elem_of_keys. set_solver. Qed.

Lemma min_run_inv nodes max m asked ops : min_run nodes max m asked ops ->
  asked_ok nodes max (min_requests m) asked ops /\ min_inv m ops.
Proof.
  induction 1 as [|m asked ops m' peers _ [Ha [Hs Hr]] HG|m asked ops n blks _ [Ha [Hs Hr]]].
  - split; [apply asked_new|]. split; cbn; [done|]. rewrite keys_empty. by destruct (finished _).
  - unfold min_GetPeers in HG. destruct (GetPeers (min_requests m)) as [r ps] eqn:HG'.
    injection HG as <- <-. split; [by eapply asked_peers|]. split; cbn; [done|].
    by rewrite (finished_peers _ _ _ HG').
  - unfold min_RecordOpinion. pose proof (asked_opinion _ _ _ _ _ n blks _ _ Ha eq_refl) as [_ Ha'].
    pose proof (finished_unexpected (min_requests m) n) as Hun.
    unfold recordResponse in *. cbn [fst snd] in *.
    destruct (decide (n ∈ outstanding (min_requests m))) as [Hin|Hin].
    2:{ rewrite bool_decide_eq_false_2 by done. cbn [negb]. rewrite app_nil_r in *. split; [done|].
        split; cbn; [done|]. by rewrite (Hun Hin). }
    rewrite bool_decide_eq_true_2 by done. cbn [negb].
    assert (received m = []) as Hr0.
    { rewrite Hr. destruct (finished _) eqn:Hf; [|done].
      apply (finished_spec _ _ _ (ao_inv _ _ _ _ _ Ha)) in Hf as [_ Ho]. set_solver. }
    assert (receivedSet m ∪ blks = reported (ops ++ [(n, blks)])) as Heq.
    { rewrite Hs. unfold reported. rewrite fmap_app, union_list_app_L. cbn. by rewrite union_empty_r_L. }
    set (r := mkRequests _ _ _) in *. clear Hr.
    destruct (finished r) eqn:Hf; cbn [negb]; (split; [done|]); split; cbn; rewrite ?Hf; done.
Qed.

(** What the requests promise on every run. *)
Definition requests_ok (all : gset NodeID) (max : Z) (r : requests NodeID) (asked : gset NodeID) (ops : opinions) : Prop :=
  let '(r', peers) := GetPeers r in
  NoDup ops.*1 /\ asked = outstanding r ∪ answered ops /\ asked ⊆ all /\
  peers ⊆ all /\ peers ## asked /\ Z.of_nat (size (outstanding r')) <= Z.max 0 max /\
  if finished r then answered ops = all else 0 < max -> outstanding r' <> ∅.

Lemma asked_requests_ok all max r asked ops : asked_ok all max r asked ops -> requests_ok all max r asked ops.
Proof.
  intros [Hi Hm Ha Hd]. unfold requests_ok. destruct (GetPeers r) as [r' peers] eqn:HG.
  destruct (GetPeers_inv _ _ _ _ _ Hi HG) as (Hi' & Hs & Ho & Hp).
  destruct (GetPeers_spec r) as (ps & HG' & _). rewrite HG' in HG.
  assert (maxOutstanding r' = maxOutstanding r) as Hm' by by injection HG as <- _.
  pose proof (ri_max _ _ _ Hi') as Hmax. rewrite Hm', Hm in Hmax. rewrite Hm in Hp.
  pose proof (ri_all _ _ _ Hi) as Hall. pose proof (ri_po _ _ _ Hi). pose proof (ri_pa _ _ _ Hi).
  split; [done|]. split; [done|]. split; [set_solver|]. split; [set_solver|]. split; [set_solver|].
  split; [done|]. destruct (finished r) eqn:Hf; [|auto]. by apply (finished_answered _ r).
Qed.

(** On every run of the minority poll, each node of the frontier is asked once
    and no more than [max] at a time, unexpected opinions change nothing, and as
    long as the poll is not finished there is a node to wait for; when it is
    finished every node has answered and the result lists each block that some
    node reported, once. *)
Theorem minority_poll_correct nodes max m asked ops : min_run nodes max m asked ops ->
  requests_ok nodes max (min_requests m) asked ops /\
  match min_Result m with
  | (res, true) => NoDup res /\ forall b, b ∈ res <-> exists n blks, (n, blks) ∈ ops /\ b ∈ blks
  | (res, false) => res = []
  end.
Proof.
  intros [Ha [Hs Hr]]%min_run_inv. split; [by apply asked_requests_ok|].
  unfold min_Result. rewrite Hr. destruct (finished (min_requests m)); [|done].
  split; [apply keys_nodup|]. intros b. rewrite elem_of_keys, Hs. unfold reported.
  rewrite elem_of_union_list. split.
  - intros (X & ([n blks] & -> & Hin)%list_elem_of_fmap & Hb). by exists n, blks.
  - intros (n & blks & Hin & Hb). exists blks. split; [|done]. apply list_elem_of_fmap. by exists (n, blks).
Qed.

(** on every run of the majority poll the requests are made once each; when
    the poll is finished, the accepted blocks are, once each, those reported by
    nodes of more than half of the total weight. So when nodes [honest] with
    more than half of the weight agree on a block, it is accepted if they all
    report it and is not accepted if none does. *)
Theorem majority_poll_correct ws max m asked ops honest :
  maj_run ws max m asked ops -> map_Forall (fun _ w => 0 <= w < 2 ^ 63) ws ->
  let total := sumw ws (elements (dom ws)) in
  requests_ok (dom ws) max (maj_requests m) asked ops /\
  match maj_Result m with
  | (res, true) =>
      NoDup res /\ (forall b, b ∈ res <-> total < 2 * votes ws b ops) /\
      (honest ⊆ dom ws -> total < 2 * sumw ws (elements honest) -> forall b,
         ((forall n blks, (n, blks) ∈ ops -> n ∈ honest -> b ∈ blks) -> b ∈ res) /\
         ((forall n blks, (n, blks) ∈ ops -> n ∈ honest -> b ∉ blks) -> b ∉ res))
  | (res, false) => res = []
  end.
Proof.
  intros [Ha [Hn Hw Hacc]]%maj_run_inv Hws total. split; [by apply asked_requests_ok|].
  assert (nonneg ws) as Hnn by (intros k w Hk; by apply (Hws k)).
  unfold maj_Result. rewrite Hacc. destruct (finished (maj_requests m)) eqn:Hf; [|done].
  destruct (accept_heavy_spec (requiredWeight ws) (weights m)) as [Hd Hin]. split; [done|].
  assert (0 <= total) as Ht by by apply (sumw_subset ws []); [|constructor|set_solver].
  assert (forall b, b ∈ accept_heavy (requiredWeight ws) (weights m) [] <-> total < 2 * votes ws b ops) as Hiff.
  { intros b. rewrite Hin, Hw. unfold requiredWeight. rewrite totalWeight_sum by done. fold total.
    case_decide as Hr.
    - split; [by intros (? & ? & _)|]. unfold votes. rewrite Hr. cbn. lia.
    - split; [intros (? & [= <-] & ?); dlia|]. intros Hlt. eexists. split; [done|]. dlia. }
  split; [exact Hiff|]. intros Hsub Hh b. rewrite Hiff.
  pose proof (finished_answered _ _ _ (ao_inv _ _ _ _ _ Ha) Hf) as Hall.
  pose proof (reporters_nodup b ops (ao_nodup _ _ _ _ _ Ha)) as Hrd. unfold votes. split; intros Hrep.
  - enough (sumw ws (elements honest) <= sumw ws (reporters b ops)) by lia.
    apply sumw_subset; [done|apply NoDup_elements|]. intros n Hnh%elem_of_elements. apply reporters_elem.
    assert (n ∈ answered ops) as Hans by (rewrite Hall; set_solver).
    apply elem_of_list_to_set, list_elem_of_fmap in Hans as ([n' blks] & -> & Hop). eauto.
  - enough (sumw ws (elements honest ++ reporters b ops) <= total) as Hle by (rewrite sumw_app in Hle; lia).
    apply sumw_subset; [done| |].
    + apply NoDup_app. split; [apply NoDup_elements|]. split; [|done].
      intros n Hnh%elem_of_elements (blks & Hop & Hb)%reporters_elem. by apply (Hrep n blks).
    + intros n. rewrite elem_of_app, elem_of_elements. intros [Hnh|(blks & Hop & _)%reporters_elem].
      * apply elem_of_elements. set_solver.
      * rewrite elem_of_elements, <- Hall. apply elem_of_list_to_set, list_elem_of_fmap.
        by exists (n, blks).
Qed.
End polls.

(** ** Concrete polls *)
#[local] Instance element_order : KeyOrder Z := elements_order.

(** Two nodes; the heavier one reports block 5, the other one block 6. *)
Definition maj0 : Majority (NodeID := Z) (BlkID := Z) := NewMajority {[1 := 30; 2 := 20]} 2.
Definition maj1 := (maj_GetPeers maj0).1.
Definition maj2 := maj_RecordOpinion 1 {[5]} maj1.
Definition maj3 := maj_RecordOpinion 2 {[6]} maj2.

Lemma maj3_run : maj_run {[1 := 30; 2 := 20]} 2 maj3 {[1; 2]} [(1, {[5]}); (2, {[6]})].
Proof.
  apply (maj_opinion _ _ maj2 _ [(1, {[5]})] 2 {[6]}), (maj_opinion _ _ maj1 _ [] 1 {[5]}).
  rewrite <- (union_empty_l_L {[1; 2]}). apply (maj_peers _ _ maj0 ∅ [] maj1 {[1; 2]}); [apply maj_new|by vm_compute].
Qed.

Lemma majority_poll_correct_witness : 5 ∈ accepted maj3.
Proof.
  destruct (majority_poll_correct _ _ _ _ _ {[1]} maj3_run) as (_ & H).
  - apply (bool_decide_eq_true_1 _). by vm_compute.
  - assert (finished (maj_requests maj3) = true) as Hf by by vm_compute.
    unfold maj_Result in H. rewrite Hf in H. destruct H as (_ & _ & H).
    apply (H ltac:(apply (bool_decide_eq_true_1 _); by vm_compute) ltac:(by vm_compute) 5). intros n blks Hin Hn.
    apply elem_of_singleton in Hn as ->. apply elem_of_cons in Hin as [[= ->]|Hin]; [set_solver|].
    apply list_elem_of_singleton in Hin. congruence.
Defined.

Definition min0 : Minority (NodeID := Z) (BlkID := Z) := NewMinority {[1; 2]} 1.
Definition min1 := (min_GetPeers min0).1.
Definition min2 := min_RecordOpinion 2 {[5]} min1.

Lemma min2_run : min_run {[1; 2]} 1 min2 {[2]} [(2, {[5]})].
Proof.
  apply (min_opinion _ _ min1 _ [] 2 {[5]}).
  rewrite <- (union_empty_l_L {[2]}). apply (min_peers _ _ min0 ∅ [] min1 {[2]}); [apply min_new|by vm_compute].
Qed.

Lemma minority_poll_correct_witness :
  requests_ok {[1; 2]} 1 (min_requests min2) {[2]} [(2, {[5 : Z]})] /\ received min2 = [].
Proof. exact (minority_poll_correct {[1; 2]} 1 min2 {[2]} [(2, {[5]})] min2_run). Defined.
End Bootstrapper.
