(* ===== verification/VoteGraph.v ===== *)
(** * The graph of a poll's votes

    Models [avalanchego/snow/consensus/snowman/poll/graph.go]: the blocks that
    were voted for, with their processing ancestors, as a forest of vertices
    linked by pointers.  There is one vertex per identifier, so a pointer to a
    vertex is the identifier of the vertex. *)

From S2P Require Import Prelude Monads MapOrder Bag.

Module VoteGraph.

(** [BlockTraversal]: the parent of a block that is still processing. *)
Class BlockTraversal (ID : Type) := GetParent : ID -> option ID.

(** What consensus promises: a parent is lower than its child. *)
Class Heights (ID : Type) `{BlockTraversal ID} := {
  height : ID -> nat;
  GetParent_height id p : GetParent id = Some p -> (height p < height id)%nat;
}.

Inductive PollErr := OutOfFuel | ErrPanic.

Section graph.
Context {ID : Type} `{Countable ID, !KeyOrder ID, !BlockTraversal ID} (fuel : nat).

Record voteVertex := mkVertex { parent : option ID; descendants : list ID }.

Record voteGraph := mkGraph {
  vertices : gmap ID voteVertex;
  vertexCount : nat;
  leaves : list ID;
  roots : list ID;
}.

Abbreviation GM := (M (gmap ID voteVertex) PollErr).

Definition add_step (id : ID) : GM (ID + unit) :=
  id2Vertex ← get;
  match id2Vertex !! id with
  | Some _ => mret (inr tt)
  | None =>
      modify <[id := mkVertex None []]>;;
      match GetParent id with
      | None => mret (inr tt)
      | Some parent => mret (inl parent)
      end
  end.

Definition addIDAndAncestorsToGraph (id : ID) : GM unit :=
  loop OutOfFuel fuel add_step id.

Definition set_parent (u : ID) (v : voteVertex) : voteVertex := mkVertex (Some u) (descendants v).
Definition add_descendant (v : ID) (u : voteVertex) : voteVertex := mkVertex (parent u) (descendants u ++ [v]).

(** The body of the second loop of [buildVoteGraph]. *)
Definition link_vertex (roots : list ID) (id : ID) : GM (list ID) :=
  match GetParent id with
  | None => mret (roots ++ [id])
  | Some parent =>
      id2Vertex ← get;
      match id2Vertex !! parent with
      | Some _ =>
          modify (alter (set_parent parent) id);;
          modify (alter (add_descendant id) parent);;
          mret roots
      | None => mret (roots ++ [id])
      end
  end.

Definition findLeaves (idToVertex : gmap ID voteVertex) : list ID :=
  (filter (fun kv => descendants kv.2 = []) (entries idToVertex)).*1.

Definition buildVoteGraph (votes : Bag.Bag ID) : result PollErr voteGraph :=
  ((foldM (fun _ id => addIDAndAncestorsToGraph id) (Bag.List votes) tt;;
   id2Vertex ← get;
   roots ← foldM link_vertex (keys (dom id2Vertex)) [];
   id2Vertex ← get;
   mret (mkGraph id2Vertex (size id2Vertex) (findLeaves id2Vertex) roots)) ∅).2.

(** The fields of the vertex that [v] points to. *)
Definition parent_of (g : voteGraph) (v : ID) : option ID := vertices g !! v ≫= parent.
Definition descendants_of (g : voteGraph) (v : ID) : list ID :=
  default [] (descendants <$> vertices g !! v).

(** [v.traverse(f)], where [f] updates the variables [acc]; [depth] bounds the
    recursion. *)
Fixpoint vertex_traverse {A} (g : voteGraph) (f : A -> ID -> result PollErr A) (depth : nat)
    (acc : A) (v : ID) : result PollErr A :=
  match depth with
  | O => Err OutOfFuel
  | S depth =>
      acc ← f acc v;
      foldR (vertex_traverse g f depth) acc (descendants_of g v)
  end.

Definition traverse {A} (g : voteGraph) (f : A -> ID -> result PollErr A) (acc : A) : result PollErr A :=
  foldR (vertex_traverse g f fuel) acc (roots g).

Definition childCounts (g : voteGraph) : result PollErr (gmap ID Z) :=
  traverse g (fun childCount v => Ok (<[v := Z.of_nat (length (descendants_of g v))]> childCount)) ∅.

(** The body of the inner loop of [topologicalSortTraversal]. *)
Definition topo_leaf {A} (g : voteGraph) (f : A -> ID -> A)
    (st : list ID * gmap ID Z * A) (leaf : ID) : list ID * gmap ID Z * A :=
  let '(newLeaves, childCount, acc) := st in
  let acc := f acc leaf in
  match parent_of g leaf with
  | None => (newLeaves, childCount, acc)
  | Some p =>
      let n := default 0 (childCount !! p) - 1 in
      (if n =? 0 then newLeaves ++ [p] else newLeaves, <[p := n]> childCount, acc)
  end.

Fixpoint topo_loop {A} (g : voteGraph) (f : A -> ID -> A) (rounds : nat)
    (ls : list ID) (childCount : gmap ID Z) (acc : A) : result PollErr A :=
  match rounds with
  | O => Err OutOfFuel
  | S rounds =>
      match ls with
      | [] => Ok acc
      | _ =>
          let '(newLeaves, childCount, acc) := foldl (topo_leaf g f) ([], childCount, acc) ls in
          topo_loop g f rounds newLeaves childCount acc
      end
  end.

(** Every round takes at least one vertex; one more test ends the loop. *)
Definition topologicalSortTraversal {A} (g : voteGraph) (f : A -> ID -> A) (acc : A) : result PollErr A :=
  childCount ← childCounts g;
  topo_loop g f (S (vertexCount g)) (leaves g) childCount acc.

Definition computeTransitiveVoteCountGraph (g : voteGraph) (votes : Bag.Bag ID) : result PollErr (Bag.Bag ID) :=
  topologicalSortTraversal g (fun closure v =>
    match parent_of g v with
    | None => closure
    | Some p => Bag.AddCount closure p (Bag.Count closure v)
    end) (Bag.Clone votes).
End graph.

(** ** Ancestors *)
Section ancestors.
Context {ID : Type} `{BlockTraversal ID, !Heights ID}.

Fixpoint chain (n : nat) (x : ID) : list ID :=
  x :: match n, GetParent x with S n, Some p => chain n p | _, _ => [] end.

(** The identifier and the ancestors of it that are processing, lowest last. *)
Definition ancestors (x : ID) : list ID := chain (height x) x.

Lemma chain_enough n x : (height x <= n)%nat -> chain n x = ancestors x.
Proof.
  unfold ancestors.
  enough (forall k m n x, (height x <= k)%nat -> (height x <= n)%nat -> (height x <= m)%nat ->
    chain n x = chain m x) as Hk by (intros; by apply (Hk (height x))).
  clear n x. induction k as [|k IH]; intros m n x Hk Hn Hm.
  - destruct n, m; cbn; try done; destruct (GetParent x) as [p|] eqn:Hp; try done;
      apply GetParent_height in Hp; lia.
  - destruct n, m; cbn; try done; destruct (GetParent x) as [p|] eqn:Hp; try done;
      apply GetParent_height in Hp; try lia. f_equal. apply IH; lia.
Qed.

Lemma ancestors_unfold x :
  ancestors x = x :: match GetParent x with Some p => ancestors p | None => [] end.
Proof.
  unfold ancestors at 1. destruct (height x) as [|n] eqn:Hn; cbn;
    destruct (GetParent x) as [p|] eqn:Hp; try done; apply GetParent_height in Hp; [lia|].
  by rewrite chain_enough by lia.
Qed.

Lemma ancestors_ind (P : ID -> Prop) :
  (forall x, (forall p, GetParent x = Some p -> P p) -> P x) -> forall x, P x.
Proof.
  intros IH x. remember (height x) as n eqn:Hn. revert x Hn.
  induction (lt_wf n) as [n _ IHn]. intros x ->. apply IH. intros p Hp.
  apply (IHn (height p)); [by apply GetParent_height|done].
Qed.

Lemma ancestors_self x : x ∈ ancestors x.
Proof. rewrite ancestors_unfold. by left. Qed.

Lemma chain_height a x : a ∈ ancestors x -> (height a <= height x)%nat.
Proof.
  induction x as [x IH] using ancestors_ind. rewrite ancestors_unfold.
  intros [->|Ha]%elem_of_cons; [done|]. destruct (GetParent x) as [p|] eqn:Hp; [|by apply not_elem_of_nil in Ha].
  apply GetParent_height in Hp as Hh. specialize (IH p eq_refl Ha). lia.
Qed.

(** An ancestor is the identifier itself or the parent of an ancestor, of which
    there is one. *)
Lemma chain_child a x : a ∈ ancestors x <->
  a = x \/ exists c, c ∈ ancestors x /\ GetParent c = Some a.
Proof.
  induction x as [x IH] using ancestors_ind. rewrite ancestors_unfold. split.
  - intros [->|Ha]%elem_of_cons; [by left|right].
    destruct (GetParent x) as [p|] eqn:Hp; [|by apply not_elem_of_nil in Ha].
    apply (IH p eq_refl) in Ha as [->|(c & Hc & Hca)]; [exists x; split; [by left|done]|].
    exists c. split; [by right|done].
  - intros [->|(c & Hc & Hca)]; [by left|]. apply elem_of_cons in Hc as [->|Hc].
    + rewrite Hca. right. apply ancestors_self.
    + destruct (GetParent x) as [p|] eqn:Hp; [|by apply not_elem_of_nil in Hc].
      right. apply (IH p eq_refl). right. by exists c.
Qed.

Lemma chain_child_unique a x c1 c2 : c1 ∈ ancestors x -> c2 ∈ ancestors x ->
  GetParent c1 = Some a -> GetParent c2 = Some a -> c1 = c2.
Proof.
  induction x as [x IH] using ancestors_ind. rewrite ancestors_unfold.
  assert (forall c1 c2 p, c1 = x -> GetParent x = Some p -> c2 ∈ ancestors p ->
    GetParent c1 = Some a -> GetParent c2 = Some a -> c1 = c2) as Hx.
  { intros ? c p -> Hp Hc Hpa Hca. apply chain_height in Hc. apply GetParent_height in Hca.
    rewrite Hp in Hpa. injection Hpa as ->. lia. }
  destruct (GetParent x) as [p|] eqn:Hp.
  - intros [->|H1]%elem_of_cons [->|H2]%elem_of_cons Hp1 Hp2; [done|by eapply Hx|symmetry; by eapply Hx|].
    by eapply IH.
  - by intros ->%list_elem_of_singleton ->%list_elem_of_singleton.
Qed.

(** [x] is its own only ancestor at its height. *)
Lemma ancestors_parent_notin x p : GetParent x = Some p -> x ∉ ancestors p.
Proof. intros Hp Hx. apply chain_height in Hx. apply GetParent_height in Hp. lia. Qed.

Lemma ancestors_step x p a : GetParent x = Some p -> a ∈ ancestors p -> a ∈ ancestors x.
Proof. intros Hp Ha. rewrite ancestors_unfold, Hp. by right. Qed.

Lemma chain_trans a b x : a ∈ ancestors b -> b ∈ ancestors x -> a ∈ ancestors x.
Proof.
  intros Ha. induction x as [x IH] using ancestors_ind. rewrite ancestors_unfold.
  intros [->|Hb]%elem_of_cons; [by rewrite <- ancestors_unfold|].
  destruct (GetParent x) as [p|]; [|by apply not_elem_of_nil in Hb]. right. by apply IH.
Qed.
End ancestors.

(** ** The forest that [buildVoteGraph] returns *)
Section forest.
Context {ID : Type} `{Countable ID, !KeyOrder ID, !BlockTraversal ID, !Heights ID} (fuel : nat).
Implicit Types (votes : Bag.Bag ID) (g : voteGraph (ID := ID)) (m : gmap ID (voteVertex (ID := ID))).

(** Some vote reaches [a]. *)
Definition voted votes (a : ID) : Prop :=
  exists x, x ∈ dom (Bag.counts votes) /\ a ∈ ancestors x.

Record forest votes g : Prop := {
  fo_dom a : a ∈ dom (vertices g) <-> voted votes a;
  fo_parent a : a ∈ dom (vertices g) -> parent_of g a = GetParent a;
  fo_nodup a : NoDup (descendants_of g a);
  fo_child a c : c ∈ descendants_of g a <->
    a ∈ dom (vertices g) /\ c ∈ dom (vertices g) /\ GetParent c = Some a;
  fo_roots r : r ∈ roots g <-> r ∈ dom (vertices g) /\ GetParent r = None;
  fo_leaves_nodup : NoDup (leaves g);
  fo_leaves a : a ∈ leaves g <-> a ∈ dom (vertices g) /\ descendants_of g a = [];
  fo_count : vertexCount g = size (vertices g);
}.

Definition closed (D : gset ID) : Prop :=
  forall x p, x ∈ D -> GetParent x = Some p -> p ∈ D.

Lemma closed_ancestors D x a : closed D -> x ∈ D -> a ∈ ancestors x -> a ∈ D.
Proof.
  intros Hc. induction x as [x IH] using ancestors_ind. intros Hx.
  rewrite ancestors_unfold. intros [->|Ha]%elem_of_cons; [done|].
  destruct (GetParent x) as [p|] eqn:Hp; [|by apply not_elem_of_nil in Ha]. apply (IH p); eauto.
Qed.

Lemma voted_closed votes : forall x p, voted votes x -> GetParent x = Some p -> voted votes p.
Proof.
  intros x p (y & Hy & Hx) Hp. exists y. split; [done|]. apply chain_child. right. by exists x.
Qed.

(** No vertex is linked yet. *)
Definition bare m : Prop := forall x v, m !! x = Some v -> v = mkVertex None [].

Lemma wp_add id m Q : (height id < fuel)%nat -> closed (dom m) -> bare m ->
  (forall m', closed (dom m') -> bare m' ->
     (forall a, a ∈ dom m' <-> a ∈ dom m \/ a ∈ ancestors id) -> Q tt m') ->
  wp never (addIDAndAncestorsToGraph fuel id) Q m.
Proof.
  intros Hf Hc Hb HQ. unfold addIDAndAncestorsToGraph.
  apply (wp_loop _ _ (fun k cur m' => k = height cur /\ bare m' /\
    (forall x p, x ∈ dom m' -> GetParent x = Some p -> p ∈ dom m' \/ p = cur) /\
    (forall a, a ∈ dom m' \/ a ∈ ancestors cur <-> a ∈ dom m \/ a ∈ ancestors id)) _ _ _ _ (height id)).
  - repeat split; try done; try tauto. intros x p Hx Hp. left. by apply (Hc x).
  - done.
  - clear Hf Hc Hb. intros k cur m' (-> & Hb & Hc & Hd). unfold add_step. wp_steps.
    destruct (m' !! cur) as [v|] eqn:Hcur.
    + assert (cur ∈ dom m') as Hin by by apply elem_of_dom_2 in Hcur.
      assert (closed (dom m')) as Hc' by (intros x p Hx Hp; destruct (Hc x p Hx Hp) as [| ->]; done).
      apply HQ; try done. intros a. rewrite <- Hd. split; [tauto|]. intros [|Ha]; [done|].
      by apply (closed_ancestors _ cur).
    + wp_steps.
      assert (bare (<[cur := mkVertex None []]> m')) as Hb'.
      { intros x v. rewrite lookup_insert. case_decide; [by intros [= <-]|by apply Hb]. }
      pose proof (ancestors_unfold cur) as Hun.
      destruct (GetParent cur) as [p|] eqn:Hp; wp_steps.
      * exists (height p). split; [by apply GetParent_height|]. split; [done|]. split; [done|].
        rewrite dom_insert_L. split.
        -- intros x q Hx Hq. destruct (decide (x = cur)) as [->|Hne]; [right; congruence|].
           left. destruct (Hc x q) as [| ->]; [set_solver|done| |]; set_solver.
        -- intros a. rewrite <- Hd, Hun, elem_of_cons. set_solver.
      * apply HQ; [|done|].
        -- intros x q Hx Hq. rewrite dom_insert_L in Hx |- *. destruct (decide (x = cur)) as [->|Hne]; [congruence|].
           destruct (Hc x q) as [| ->]; [set_solver|done| |]; set_solver.
        -- intros a. rewrite <- Hd, Hun, dom_insert_L, elem_of_cons.
           pose proof (not_elem_of_nil a). set_solver.
Qed.

Lemma wp_adds l m Q : Forall (fun id => (height id < fuel)%nat) l -> closed (dom m) -> bare m ->
  (forall m', closed (dom m') -> bare m' ->
     (forall a, a ∈ dom m' <-> a ∈ dom m \/ exists x, x ∈ l /\ a ∈ ancestors x) -> Q tt m') ->
  wp never (foldM (fun _ id => addIDAndAncestorsToGraph fuel id) l tt) Q m.
Proof.
  intros Hf Hc Hb HQ.
  apply (wp_foldM _ _ _ _ _ (fun dn _ m' => closed (dom m') /\ bare m' /\
    forall a, a ∈ dom m' <-> a ∈ dom m \/ exists x, x ∈ dn /\ a ∈ ancestors x)).
  - split; [done|]. split; [done|]. intros a. split; [tauto|].
    intros [|(x & Hx & _)]; [done|by apply not_elem_of_nil in Hx].
  - intros dn x rest [] m' -> (Hc' & Hb' & Hd). rewrite Forall_app, Forall_cons in Hf.
    apply wp_add; [tauto|done|done|]. intros m'' Hc'' Hb'' Hd''. split; [done|]. split; [done|].
    intros a. rewrite Hd'', Hd. split.
    + intros [[|(y & Hy & Ha)]|Ha]; [by left|right; exists y; set_solver|right; exists x; set_solver].
    + intros [|(y & [Hy|Hy%list_elem_of_singleton]%elem_of_app & Ha)]; [tauto|left; right; eauto|].
      subst. by right.
  - intros [] m' (Hc' & Hb' & Hd). by apply HQ.
Qed.

(** The state of the vertices when the vertices [dn] of [D] are linked. *)
Definition link_inv (D : gset ID) (dn : list ID) m : Prop :=
  dom m = D /\ forall v, v ∈ D ->
    m !! v = Some (mkVertex (if decide (v ∈ dn) then GetParent v else None)
                            (filter (fun c => GetParent c = Some v) dn)).

Lemma link_inv_parent D dn m id p : link_inv D dn m -> id ∈ D -> p ∈ D -> id ∉ dn ->
  GetParent id = Some p ->
  link_inv D (dn ++ [id]) (alter (add_descendant id) p (alter (set_parent p) id m)).
Proof.
  intros [Hd Hm] Hid HpD Hn Hp. split; [by rewrite !dom_alter_L|]. intros v Hv.
  assert (id <> p) as Hne by (intros ->; apply GetParent_height in Hp; lia).
  rewrite filter_app.
  destruct (decide (v = p)) as [->|Hvp].
  - rewrite lookup_alter_eq, lookup_alter_ne, Hm by done. cbn. unfold add_descendant. cbn.
    rewrite (decide_True (P := GetParent id = Some p)) by done. f_equal. f_equal. apply decide_ext. set_solver.
  - rewrite lookup_alter_ne by done.
    destruct (decide (v = id)) as [->|Hvid].
    + rewrite lookup_alter_eq, Hm by done. cbn. unfold set_parent. cbn.
      rewrite (decide_False (P := GetParent id = Some id)) by congruence.
      rewrite (decide_True (P := id ∈ dn ++ [id])) by set_solver. by rewrite app_nil_r, Hp.
    + rewrite lookup_alter_ne, Hm by done. cbn. rewrite (decide_False (P := GetParent id = Some v)) by congruence.
      rewrite app_nil_r. f_equal. f_equal. apply decide_ext. set_solver.
Qed.

Lemma link_inv_root D dn m id : link_inv D dn m -> GetParent id = None -> link_inv D (dn ++ [id]) m.
Proof.
  intros [Hd Hm] Hp. split; [done|]. intros v Hv. rewrite Hm, filter_app by done. cbn.
  rewrite (decide_False (P := GetParent id = Some v)) by congruence. rewrite app_nil_r. f_equal. f_equal.
  destruct (decide (v = id)) as [->|]; [|apply decide_ext; set_solver].
  rewrite Hp. by do 2 case_decide.
Qed.

Lemma wp_links D l m Q : NoDup l -> (forall x, x ∈ l <-> x ∈ D) -> closed D -> dom m = D -> bare m ->
  (forall m', link_inv D l m' -> Q (filter (fun x => GetParent x = None) l) m') ->
  wp never (foldM link_vertex l []) Q m.
Proof.
  intros Hd HD Hc Hm Hb HQ.
  apply (wp_foldM _ _ _ _ _ (fun dn rs m' => link_inv D dn m' /\ rs = filter (fun x => GetParent x = None) dn)).
  - split; [|done]. split; [done|]. intros v Hv. rewrite <- Hm in Hv. apply elem_of_dom in Hv as [w Hw].
    rewrite Hw, (Hb _ _ Hw). cbn. by rewrite decide_False by apply not_elem_of_nil.
  - intros dn id rest rs m' -> [Hl ->]. unfold link_vertex. rewrite filter_app. cbn.
    assert (id ∈ D) as Hid by (apply HD; set_solver).
    assert (id ∉ dn) as Hn by (apply NoDup_app in Hd as (_ & Hd & _); intros Hin; apply (Hd id Hin); by left).
    destruct (GetParent id) as [p|] eqn:Hp; wp_steps; cbn.
    + assert (p ∈ D) as HpD by by apply (Hc id).
      pose proof Hl as [_ Hlm]. rewrite Hlm by done. wp_steps.
      rewrite app_nil_r. split; [|done]. by apply link_inv_parent.
    + split; [by apply link_inv_root|done].
  - intros rs m' [Hl ->]. by apply HQ.
Qed.
Lemma findLeaves_spec m :
  NoDup (findLeaves m) /\ forall a, a ∈ findLeaves m <-> exists v, m !! a = Some v /\ descendants v = [].
Proof.
  unfold findLeaves. split.
  - apply (sublist_NoDup _ (entries m).*1).
    + rewrite (entries_perm m). apply NoDup_fst_map_to_list.
    + generalize (entries m). intros l. induction l as [|x l IH]; [constructor|].
      destruct (decide (descendants x.2 = [])); [rewrite filter_cons_True by done|rewrite filter_cons_False by done];
        cbn; by constructor.
  - intros a. rewrite list_elem_of_fmap. split.
    + intros ([a' v] & -> & [Hv Hin]%list_elem_of_filter). exists v.
      by rewrite (entries_perm m), elem_of_map_to_list in Hin.
    + intros (v & Ha & Hv). exists (a, v). rewrite list_elem_of_filter. split; [done|]. split; [done|].
      by rewrite (entries_perm m), elem_of_map_to_list.
Qed.

Lemma List_elem votes x : x ∈ Bag.List votes <-> x ∈ dom (Bag.counts votes).
Proof.
  unfold Bag.List. rewrite list_elem_of_fmap, elem_of_dom. split.
  - intros ([y c] & -> & Hin). apply elem_of_map_to_list in Hin. by exists c.
  - intros [c Hc]. exists (x, c). by rewrite elem_of_map_to_list.
Qed.

Lemma buildVoteGraph_forest votes : (forall x, x ∈ dom (Bag.counts votes) -> (height x < fuel)%nat) ->
  exists g, buildVoteGraph fuel votes = Ok g /\ forest votes g.
Proof.
  intros Hf. unfold buildVoteGraph. set (mm := foldM _ _ _ ≫= _).
  assert (wp never mm (fun g _ => forest votes g) ∅) as Hw; subst mm.
  2:{ apply wp_total in Hw as (g & m & Hg & Hfo). exists g. by rewrite Hg. }
  wp_steps. apply wp_adds.
  - apply Forall_forall. intros x Hx. by apply Hf, List_elem.
  - intros x p Hx. by rewrite dom_empty_L in Hx.
  - intros x v Hx. by rewrite lookup_empty in Hx.
  - intros m Hc Hb Hd. wp_steps.
    apply (wp_links (dom m)); [apply keys_nodup|apply elem_of_keys|done|done|done|].
    intros m' [Hdom Hm']. wp_steps.
    assert (forall a, a ∈ dom m <-> voted votes a) as Hv.
    { intros a. rewrite Hd, dom_empty_L. unfold voted. setoid_rewrite List_elem. set_solver. }
    destruct (findLeaves_spec m') as [Hln Hl].
    split; unfold parent_of, descendants_of; cbn; rewrite ?Hdom; try done.
    + intros a Ha. rewrite Hm' by done. cbn. by rewrite decide_True by by apply elem_of_keys.
    + intros a. destruct (decide (a ∈ dom m)) as [Ha|Ha].
      * rewrite Hm' by done. cbn. apply NoDup_filter, keys_nodup.
      * rewrite (not_elem_of_dom_1 m' a) by by rewrite Hdom. cbn. constructor.
    + intros a c. destruct (decide (a ∈ dom m)) as [Ha|Ha].
      * rewrite Hm' by done. cbn. rewrite list_elem_of_filter, elem_of_keys. tauto.
      * rewrite (not_elem_of_dom_1 m' a) by by rewrite Hdom. cbn. split; [by intros ?%not_elem_of_nil|tauto].
    + intros r. rewrite list_elem_of_filter, elem_of_keys. tauto.
    + intros a. rewrite Hl. split.
      * intros (v & Ha & Hv'). rewrite Ha. cbn. rewrite <- Hdom. split; [by apply elem_of_dom_2 in Ha|done].
      * intros [Ha Hde]. rewrite Hm' in * by done. cbn in Hde. eexists. split; [done|]. done.
Qed.

(** *** The traversal reaches every vertex *)
Lemma fo_height votes g a : forest votes g ->
  (forall x, x ∈ dom (Bag.counts votes) -> (height x < fuel)%nat) ->
  a ∈ dom (vertices g) -> (height a < fuel)%nat.
Proof.
  intros Hg Hf Ha. apply (fo_dom _ _ Hg) in Ha as (x & Hx & Ha). apply chain_height in Ha.
  specialize (Hf x Hx). lia.
Qed.

(** The vertices in the order of the traversal. *)
Fixpoint preorder (g : voteGraph) (depth : nat) (v : ID) : list ID :=
  match depth with
  | O => []
  | S depth => v :: (descendants_of g v ≫= preorder g depth)
  end.

Lemma vertex_traverse_preorder votes g {A} (f : A -> ID -> A) (f' : A -> ID -> result PollErr A) depth acc v :
  forest votes g -> (forall x, x ∈ dom (Bag.counts votes) -> (height x < fuel)%nat) ->
  (forall acc v, v ∈ dom (vertices g) -> f' acc v = Ok (f acc v)) ->
  v ∈ dom (vertices g) -> (fuel <= depth + height v)%nat ->
  vertex_traverse g f' depth acc v = Ok (foldl f acc (preorder g depth v)).
Proof.
  intros Hg Hfu Hf. revert acc v. induction depth as [|depth IH]; intros acc v Hv Hd.
  { pose proof (fo_height _ _ _ Hg Hfu Hv). lia. }
  cbn [vertex_traverse preorder]. rewrite Hf by done. cbn.
  rewrite (foldR_Ok _ (fun acc c => foldl f acc (preorder g depth c))).
  - f_equal. generalize (f acc v). generalize (descendants_of g v). intros l.
    induction l as [|c l IHl]; intros a; cbn; [done|]. by rewrite foldl_app, <- IHl.
  - intros acc' c Hc. apply (fo_child _ _ Hg) in Hc as (_ & Hc & Hp). apply IH; [done|].
    apply GetParent_height in Hp. lia.
Qed.

Lemma elem_of_preorder votes g depth v a : forest votes g ->
  (forall x, x ∈ dom (Bag.counts votes) -> (height x < fuel)%nat) ->
  v ∈ dom (vertices g) -> (fuel <= depth + height v)%nat ->
  a ∈ preorder g depth v <-> a ∈ dom (vertices g) /\ v ∈ ancestors a.
Proof.
  intros Hg Hfu. revert v. induction depth as [|depth IH]; intros v Hv Hd.
  { pose proof (fo_height _ _ _ Hg Hfu Hv). lia. }
  cbn [preorder]. rewrite elem_of_cons, list_elem_of_bind. split.
  - intros [->|(c & Ha & Hc)]; [split; [done|apply ancestors_self]|].
    apply (fo_child _ _ Hg) in Hc as (_ & Hc & Hp). pose proof (GetParent_height _ _ Hp).
    apply IH in Ha as [Ha Hca]; [|done|lia]. split; [done|]. apply chain_child. right. by exists c.
  - intros [Ha [->|(c & Hc & Hp)]%chain_child]; [by left|right]. exists c.
    pose proof (GetParent_height _ _ Hp).
    assert (c ∈ dom (vertices g)) as Hcd.
    { apply (fo_dom _ _ Hg) in Ha as (x & Hx & Ha). apply (fo_dom _ _ Hg). exists x. split; [done|].
      by apply (chain_trans c a). }
    split; [apply IH; [done|lia|done]|]. by apply (fo_child _ _ Hg).
Qed.

Lemma root_above votes g a : forest votes g -> a ∈ dom (vertices g) -> exists r, r ∈ roots g /\ r ∈ ancestors a.
Proof.
  intros Hg. induction a as [a IH] using ancestors_ind. intros Ha.
  destruct (GetParent a) as [p|] eqn:Hp.
  - destruct (IH p eq_refl) as (r & Hr & Hra).
    + apply (fo_dom _ _ Hg). apply (voted_closed _ a); [by apply (fo_dom _ _ Hg)|done].
    + exists r. split; [done|]. by apply (ancestors_step a p).
  - exists a. split; [by apply (fo_roots _ _ Hg)|apply ancestors_self].
Qed.

(** The traversal is a fold over a list that holds exactly the vertices. *)
Lemma traverse_spec votes g {A} (f : A -> ID -> A) (f' : A -> ID -> result PollErr A) acc :
  forest votes g -> (forall x, x ∈ dom (Bag.counts votes) -> (height x < fuel)%nat) ->
  (forall acc v, v ∈ dom (vertices g) -> f' acc v = Ok (f acc v)) ->
  exists vs, (forall a, a ∈ vs <-> a ∈ dom (vertices g)) /\ traverse fuel g f' acc = Ok (foldl f acc vs).
Proof.
  intros Hg Hfu Hf. exists (roots g ≫= preorder g fuel). split.
  - intros a. rewrite list_elem_of_bind. split.
    + intros (r & Ha & Hr). apply (fo_roots _ _ Hg) in Hr as [Hr _].
      by apply (elem_of_preorder votes) in Ha as [Ha _]; [|done..|lia].
    + intros Ha. destruct (root_above _ _ _ Hg Ha) as (r & Hr & Hra). exists r. split; [|done].
      apply (fo_roots _ _ Hg) in Hr as [Hr _]. apply (elem_of_preorder votes); [done..|lia|done].
  - unfold traverse. rewrite (foldR_Ok _ (fun acc c => foldl f acc (preorder g fuel c))).
    + f_equal. generalize (roots g). intros l. revert acc.
      induction l as [|c l IHl]; intros acc; cbn; [done|]. by rewrite foldl_app, <- IHl.
    + intros acc' r [Hr _]%(fo_roots _ _ Hg). apply (vertex_traverse_preorder votes); [done..|lia].
Qed.

Lemma childCounts_spec votes g : forest votes g ->
  (forall x, x ∈ dom (Bag.counts votes) -> (height x < fuel)%nat) ->
  exists cc, childCounts fuel g = Ok cc /\
    forall v, v ∈ dom (vertices g) -> cc !! v = Some (Z.of_nat (length (descendants_of g v))).
Proof.
  intros Hg Hfu. unfold childCounts.
  destruct (traverse_spec votes g (fun (k : gmap ID Z) v => <[v := Z.of_nat (length (descendants_of g v))]> k)
    (fun (k : gmap ID Z) v => Ok (<[v := Z.of_nat (length (descendants_of g v))]> k)) ∅ Hg Hfu) as (vs & Hvs & ->); [done|].
  eexists. split; [done|]. intros v Hv%Hvs. revert Hv.
  enough (forall k : gmap ID Z, v ∈ vs \/ k !! v = Some (Z.of_nat (length (descendants_of g v))) ->
    foldl (fun (k : gmap ID Z) v => <[v := Z.of_nat (length (descendants_of g v))]> k) k vs !! v =
      Some (Z.of_nat (length (descendants_of g v)))) by auto.
  clear Hvs. induction vs as [|x vs IH]; intros k; cbn.
  - intros [Hv|Hv]; [by apply not_elem_of_nil in Hv|done].
  - intros Hv. apply IH. rewrite lookup_insert. case_decide as Hx; [subst; by right|].
    destruct Hv as [[->|Hv]%elem_of_cons|Hv]; tauto.
Qed.
(** *** The topological order *)

(** How many descendants of [v] are not in [D]. *)
Definition undone g (D : list ID) (v : ID) : nat :=
  length (filter (fun c => c ∉ D) (descendants_of g v)).

(** Every vertex of [D] comes after its descendants. *)
Definition sorted g (D : list ID) : Prop :=
  forall D1 v D2, D = D1 ++ v :: D2 -> forall c, c ∈ descendants_of g v -> c ∈ D1.

(** [D] is done and [L] are the leaves of what is left. *)
Record topo_inv g (D L : list ID) (cc : gmap ID Z) : Prop := {
  ti_nodup : NoDup (D ++ L);
  ti_dom v : v ∈ D ++ L -> v ∈ dom (vertices g);
  ti_count v : v ∈ dom (vertices g) -> cc !! v = Some (Z.of_nat (undone g D v));
  ti_leaf v : v ∈ dom (vertices g) -> v ∉ D -> v ∈ L <-> undone g D v = O;
  ti_sorted : sorted g D;
}.

Lemma undone_zero g D v : undone g D v = O <-> forall c, c ∈ descendants_of g v -> c ∈ D.
Proof.
  unfold undone. split.
  - intros Hz c Hc. apply nil_length_inv in Hz. destruct (decide (c ∈ D)) as [|Hn]; [done|].
    assert (c ∈ filter (fun c => c ∉ D) (descendants_of g v)) as Hin by by apply list_elem_of_filter.
    rewrite Hz in Hin. by apply not_elem_of_nil in Hin.
  - intros Hall. destruct (filter _ _) as [|c l] eqn:Hf; [done|].
    assert (c ∈ filter (fun c => c ∉ D) (descendants_of g v)) as [Hn Hc]%list_elem_of_filter by (rewrite Hf; by left).
    by apply Hall in Hc.
Qed.

Lemma undone_app g D c v : NoDup (descendants_of g v) -> c ∉ D ->
  undone g D v = (undone g (D ++ [c]) v + if decide (c ∈ descendants_of g v) then 1 else 0)%nat.
Proof.
  unfold undone. generalize (descendants_of g v). intros l Hd Hc.
  induction Hd as [|x l Hx Hd IH]; [done|].
  destruct (decide (x ∈ D)) as [HxD|HxD].
  - rewrite !filter_cons_False by set_solver. rewrite IH. f_equal.
    assert (x <> c) by congruence. do 2 case_decide; set_solver.
  - rewrite (filter_cons_True _ x) by done. cbn [length]. destruct (decide (x = c)) as [->|Hne].
    + rewrite filter_cons_False by set_solver. rewrite IH, decide_False, decide_True by (done || by left). lia.
    + rewrite filter_cons_True by set_solver. cbn [length]. rewrite IH.
      do 2 case_decide; try lia; set_solver.
Qed.

Lemma sorted_snoc g D v : sorted g D -> (forall c, c ∈ descendants_of g v -> c ∈ D) -> sorted g (D ++ [v]).
Proof.
  intros Hs Hv D1 w D2 Heq c Hc. destruct D2 as [|y D2 _] using rev_ind.
  - apply app_inj_tail in Heq as [-> ->]. by apply Hv.
  - rewrite app_comm_cons, app_assoc in Heq. apply app_inj_tail in Heq as [-> _]. by eapply Hs.
Qed.

Section topo.
Context (votes : Bag.Bag ID) (g : voteGraph (ID := ID)) (Hg : forest votes g).
Context {A : Type} (f : A -> ID -> A).

Lemma topo_leaf_spec D leaf rest new cc acc : topo_inv g D (leaf :: rest ++ new) cc ->
  exists new' cc', topo_leaf g f (new, cc, acc) leaf = (new', cc', f acc leaf) /\
    topo_inv g (D ++ [leaf]) (rest ++ new') cc'.
Proof.
  intros [Hn Hd Hc Hl Hs].
  assert (leaf ∈ dom (vertices g)) as Hleaf by (apply Hd; set_solver).
  assert (leaf ∉ D) as HnD.
  { apply NoDup_app in Hn as (_ & Hn & _). intros Hin. apply (Hn leaf Hin). by left. }
  assert (forall c, c ∈ descendants_of g leaf -> c ∈ D) as Hdone
    by (apply undone_zero, Hl; [done|done|by left]).
  assert (sorted g (D ++ [leaf])) as Hs' by by apply sorted_snoc.
  unfold topo_leaf. rewrite (fo_parent _ _ Hg) by done.
  assert (forall v, GetParent leaf <> Some v -> undone g D v = undone g (D ++ [leaf]) v) as Hsame.
  { intros v Hv. rewrite (undone_app g D leaf) by (done || apply (fo_nodup _ _ Hg)).
    rewrite decide_False; [lia|]. rewrite (fo_child _ _ Hg). tauto. }
  destruct (GetParent leaf) as [p|] eqn:Hp.
  2:{ exists new, cc. split; [done|]. split; try done.
      - by rewrite <- app_assoc.
      - intros v Hv. apply Hd. rewrite <- app_assoc in Hv. done.
      - intros v Hv. by rewrite <- Hsame by done; apply Hc.
      - intros v Hv HvD. rewrite <- Hsame by done. rewrite <- Hl by set_solver. set_solver. }
  assert (p ∈ dom (vertices g)) as Hpd.
  { apply (fo_dom _ _ Hg). apply (voted_closed _ leaf); [by apply (fo_dom _ _ Hg)|done]. }
  assert (leaf ∈ descendants_of g p) as Hlp by by apply (fo_child _ _ Hg).
  pose proof (undone_app g D leaf p (fo_nodup _ _ Hg p) HnD) as Hup. rewrite decide_True in Hup by done.
  assert (p ∉ D) as HpD.
  { intros Hin. apply list_elem_of_split in Hin as (D1 & D2 & HD).
    pose proof (Hs _ _ _ HD leaf Hlp) as Hin. apply HnD. rewrite HD. set_solver. }
  assert (p <> leaf) as Hpl by (intros ->; apply GetParent_height in Hp; lia).
  assert (p ∉ leaf :: rest ++ new) as HpL by (rewrite Hl by done; lia).
  rewrite (Hc p) by done. cbn [default from_option id].
  replace (Z.of_nat (undone g D p) - 1) with (Z.of_nat (undone g (D ++ [leaf]) p)) by lia.
  assert (forall v, v ∈ dom (vertices g) ->
    <[p := Z.of_nat (undone g (D ++ [leaf]) p)]> cc !! v = Some (Z.of_nat (undone g (D ++ [leaf]) v))) as Hcc.
  { intros v Hv. destruct (decide (v = p)) as [->|Hvp]; [by rewrite lookup_insert_eq|].
    rewrite lookup_insert_ne by done. rewrite <- Hsame by congruence. by apply Hc. }
  do 2 eexists. split; [done|].
  destruct (Z.eqb_spec (Z.of_nat (undone g (D ++ [leaf]) p)) 0) as [Hz|Hz].
  - split; try done.
    + rewrite (app_assoc rest), (app_assoc _ _ [p]), <- (app_assoc D). apply NoDup_app. split; [done|].
      split; [|by apply NoDup_singleton]. intros x Hx ->%list_elem_of_singleton. set_solver.
    + intros v Hv. destruct (decide (v = p)) as [->|]; [done|]. apply Hd. set_solver.
    + intros v Hv HvD. destruct (decide (v = p)) as [->|Hvp]; [split; [lia|set_solver]|].
      rewrite <- Hsame by congruence. rewrite <- Hl by set_solver. set_solver.
  - split; try done.
    + by rewrite <- app_assoc.
    + intros v Hv. apply Hd. set_solver.
    + intros v Hv HvD. destruct (decide (v = p)) as [->|Hvp]; [split; [set_solver|lia]|].
      rewrite <- Hsame by congruence. rewrite <- Hl by set_solver. set_solver.
Qed.

Lemma topo_round D L new cc acc : topo_inv g D (L ++ new) cc ->
  exists new' cc', foldl (topo_leaf g f) (new, cc, acc) L = (new', cc', foldl f acc L) /\
    topo_inv g (D ++ L) new' cc'.
Proof.
  revert D new cc acc. induction L as [|leaf L IH]; intros D new cc acc Hi; cbn [foldl].
  { exists new, cc. by rewrite app_nil_r. }
  destruct (topo_leaf_spec _ _ _ _ _ acc Hi) as (new1 & cc1 & -> & Hi1).
  destruct (IH _ _ _ (f acc leaf) Hi1) as (new2 & cc2 & -> & Hi2).
  exists new2, cc2. split; [done|]. by rewrite <- app_assoc in Hi2.
Qed.

(** Without leaves nothing is left. *)
Lemma topo_end fuel' D cc : (forall v, v ∈ dom (vertices g) -> (height v < fuel')%nat) ->
  topo_inv g D [] cc -> forall v, v ∈ dom (vertices g) -> v ∈ D.
Proof.
  intros Hf [Hn Hd Hc Hl Hs] v Hv. remember (fuel' - height v)%nat as k eqn:Hk. revert v Hv Hk.
  induction (lt_wf k) as [k _ IH]. intros v Hv ->. destruct (decide (v ∈ D)) as [|HvD]; [done|].
  exfalso. pose proof (Hl v Hv HvD) as Hl'. destruct (decide (undone g D v = O)) as [Hz|Hz].
  - apply Hl' in Hz. by apply not_elem_of_nil in Hz.
  - apply Hz, undone_zero. intros c Hcv. apply (fo_child _ _ Hg) in Hcv as (_ & Hcd & Hp).
    apply GetParent_height in Hp. pose proof (Hf v Hv). pose proof (Hf c Hcd).
    apply (IH (fuel' - height c)%nat); [lia|done|done].
Qed.

Lemma topo_loop_spec fuel' rounds D L cc acc :
  (forall v, v ∈ dom (vertices g) -> (height v < fuel')%nat) ->
  topo_inv g D L cc -> (size (dom (vertices g)) < length D + rounds)%nat ->
  exists order, topo_loop g f rounds L cc acc = Ok (foldl f acc order) /\
    NoDup (D ++ order) /\ (forall v, v ∈ D ++ order <-> v ∈ dom (vertices g)) /\ sorted g (D ++ order).
Proof.
  intros Hf. revert D L cc acc. induction rounds as [|rounds IH]; intros D L cc acc Hi Hr.
  { exfalso. assert (length D <= size (dom (vertices g)))%nat; [|lia].
    pose proof (ti_nodup _ _ _ _ Hi) as [Hn _]%NoDup_app. rewrite <- (size_list_to_set (C := gset ID) D) by done.
    apply subseteq_size. intros x Hx%elem_of_list_to_set. apply (ti_dom _ _ _ _ Hi). set_solver. }
  cbn [topo_loop]. destruct L as [|x L].
  { exists []. rewrite app_nil_r. split; [done|]. split; [by apply ti_nodup in Hi; rewrite app_nil_r in Hi|].
    split; [|by apply ti_sorted in Hi]. intros v. split; [intros Hv; apply (ti_dom _ _ _ _ Hi); set_solver|].
    by apply (topo_end fuel' D cc). }
  destruct (topo_round D (x :: L) [] cc acc) as (new & cc' & Heq & Hi'); [by rewrite app_nil_r|].
  rewrite Heq. destruct (IH _ _ _ (foldl f acc (x :: L)) Hi') as (order & -> & Hn & Hv & Hs).
  { rewrite length_app. cbn. lia. }
  exists ((x :: L) ++ order). rewrite foldl_app. rewrite app_assoc. done.
Qed.

Lemma topologicalSortTraversal_spec acc :
  (forall x, x ∈ dom (Bag.counts votes) -> (height x < fuel)%nat) ->
  exists order, topologicalSortTraversal fuel g f acc = Ok (foldl f acc order) /\
    NoDup order /\ (forall v, v ∈ order <-> v ∈ dom (vertices g)) /\ sorted g order.
Proof.
  intros Hf. unfold topologicalSortTraversal.
  destruct (childCounts_spec votes g Hg Hf) as (cc & -> & Hcc). cbn [mbind result_bind].
  apply (topo_loop_spec fuel _ [] _ cc).
  - intros v. by apply (fo_height votes).
  - assert (forall v, undone g [] v = length (descendants_of g v)) as Hu.
    { intros v. unfold undone. f_equal. generalize (descendants_of g v). intros l.
      induction l as [|c l IH]; [done|]. rewrite filter_cons_True by apply not_elem_of_nil. by f_equal. }
    split.
    + apply (fo_leaves_nodup _ _ Hg).
    + intros v Hv. by apply (fo_leaves _ _ Hg) in Hv as [? _].
    + intros v Hv. by rewrite Hu, Hcc.
    + intros v Hv _. rewrite Hu, (fo_leaves _ _ Hg), length_zero_iff_nil. tauto.
    + intros D1 v D2 Heq. by destruct D1.
  - rewrite (fo_count _ _ Hg), size_dom. cbn. lia.
Qed.
End topo.
(** *** Transitive votes *)

(** The votes of [l] that satisfy [P]. *)
Definition wsum (P : ID -> Prop) `{forall x, Decision (P x)} (l : list (ID * Z)) : Z :=
  foldr (fun xc a => (if decide (P xc.1) then xc.2 else 0) + a) 0 l.

(** The votes for [a] and for the blocks below it. *)
Definition transitive_votes votes (a : ID) : Z :=
  wsum (fun x => a ∈ ancestors x) (map_to_list (Bag.counts votes)).

Lemma wsum_ext (P Q : ID -> Prop) `{forall x, Decision (P x)} `{forall x, Decision (Q x)} l :
  (forall x, x ∈ l.*1 -> P x <-> Q x) -> wsum P l = wsum Q l.
Proof.
  unfold wsum. induction l as [|[x c] l IH]; intros HPQ; cbn; [done|].
  rewrite IH by (intros; apply HPQ; by right). f_equal.
  rewrite (decide_ext _ (Q x)) by (apply HPQ; by left). done.
Qed.

Lemma wsum_split (P Q R : ID -> Prop) `{forall x, Decision (P x)} `{forall x, Decision (Q x)}
    `{forall x, Decision (R x)} l :
  (forall x, x ∈ l.*1 -> (P x <-> Q x \/ R x) /\ ~ (Q x /\ R x)) -> wsum P l = wsum Q l + wsum R l.
Proof.
  unfold wsum. induction l as [|[x c] l IH]; intros HP; cbn; [done|].
  rewrite IH by (intros; apply HP; by right). destruct (HP x ltac:(by left)) as [Hl Hr].
  do 3 case_decide; try lia; tauto.
Qed.

Lemma wsum_single (cs : gmap ID Z) (a : ID) : wsum (fun x => x = a) (map_to_list cs) = default 0 (cs !! a).
Proof.
  assert (forall l, a ∉ l.*1 -> wsum (fun x => x = a) l = 0) as Hz.
  { unfold wsum. induction l as [|[x c] l IH]; cbn; [done|]. intros Hn. rewrite decide_False, IH by set_solver. done. }
  destruct (cs !! a) as [c|] eqn:Ha; cbn.
  - apply elem_of_map_to_list in Ha as Hin. apply list_elem_of_split in Hin as (l1 & l2 & Hl).
    pose proof (NoDup_fst_map_to_list cs) as Hd. rewrite Hl in Hd |- *.
    rewrite fmap_app in Hd. apply NoDup_app in Hd as (_ & Hd1 & [Hd2 _]%NoDup_cons).
    assert (forall l l' P `{forall x, Decision (P x)}, wsum P (l ++ l') = wsum P l + wsum P l') as Happ.
    { clear. intros l l' P HP. unfold wsum. induction l as [|[x c] l IH]; cbn; [done|]. rewrite IH. lia. }
    rewrite Happ. rewrite Hz by (intros Hin'; apply (Hd1 a Hin'); by left).
    change (wsum (fun x => x = a) ((a, c) :: l2)) with ((if decide (a = a) then c else 0) + wsum (fun x => x = a) l2).
    rewrite decide_True, Hz by done. lia.
  - apply Hz. intros (x & -> & Hx)%list_elem_of_fmap. destruct x as [x c]. apply elem_of_map_to_list in Hx.
    cbn in Ha. congruence.
Qed.

Lemma wsum_nonneg P `{forall x, Decision (P x)} l : Forall (fun xc => 0 <= xc.2) l -> 0 <= wsum P l.
Proof. unfold wsum. induction 1; cbn; [done|]. case_decide; lia. Qed.

(** The closure while the vertices [D] have been passed on to their parents. *)
Definition partial votes (D : list ID) (a : ID) : Z :=
  wsum (fun x => x = a \/ Exists (fun c => GetParent c = Some a /\ c ∈ ancestors x) D)
    (map_to_list (Bag.counts votes)).

Lemma partial_full votes g D a : forest votes g -> (forall c, c ∈ descendants_of g a -> c ∈ D) ->
  a ∈ dom (vertices g) -> partial votes D a = transitive_votes votes a.
Proof.
  intros Hg HD Ha. apply wsum_ext. intros x Hx. rewrite chain_child, Exists_exists. split.
  - intros [->|(c & _ & Hp & Hc)]; eauto.
  - intros [->|(c & Hc & Hp)]; [by left|right]. exists c. split; [|done]. apply HD, (fo_child _ _ Hg).
    split; [done|]. split; [|done]. apply (fo_dom _ _ Hg). exists x. split; [|done].
    by apply List_elem in Hx.
Qed.

Lemma partial_snoc votes D v p a : GetParent v = Some p -> v ∉ D ->
  partial votes (D ++ [v]) a = partial votes D a + (if decide (a = p) then transitive_votes votes v else 0).
Proof.
  intros Hp Hv. destruct (decide (a = p)) as [->|Hne].
  - apply wsum_split. intros x _. rewrite Exists_app, Exists_cons, Exists_nil. split; [tauto|].
    rewrite Exists_exists. intros [[->|(c & HcD & Hc & Hca)] Hvx].
    + by apply (ancestors_parent_notin v p).
    + apply Hv. by rewrite (chain_child_unique p x v c).
  - rewrite Z.add_0_r. apply wsum_ext. intros x _. rewrite Exists_app, Exists_cons, Exists_nil.
    split; [|tauto]. intros [|[|[[? _]|[]]]]; [tauto|tauto|congruence].
Qed.

Lemma partial_root votes D v a : GetParent v = None -> partial votes (D ++ [v]) a = partial votes D a.
Proof.
  intros Hp. apply wsum_ext. intros x _. rewrite Exists_app, Exists_cons, Exists_nil.
  split; [|tauto]. intros [|[|[[? _]|[]]]]; [tauto|tauto|congruence].
Qed.

Lemma counts_nonneg votes : Bag.wf votes -> Forall (fun xc => 0 <= xc.2) (map_to_list (Bag.counts votes)).
Proof.
  intros [Hp _]. apply Forall_forall. intros [x c] Hx. apply elem_of_map_to_list in Hx.
  specialize (Hp _ _ Hx). cbn in *. lia.
Qed.

Definition closure_step g (closure : Bag.Bag ID) (v : ID) : Bag.Bag ID :=
  match parent_of g v with
  | None => closure
  | Some p => Bag.AddCount closure p (Bag.Count closure v)
  end.

Lemma closure_spec votes g order : Bag.wf votes -> forest votes g -> sorted g order -> NoDup order ->
  (forall v, v ∈ order -> v ∈ dom (vertices g)) ->
  let b := foldl (closure_step g) (Bag.Clone votes) order in
  Bag.wf b /\ forall a, Bag.Count b a = partial votes order a.
Proof.
  intros Hw Hg. induction order as [|v order IH] using rev_ind; intros Hs Hd Hin; cbn zeta.
  - destruct (Bag.Clone_spec votes Hw) as [Hwc Hc]. split; [done|]. intros a. cbn.
    unfold Bag.Count. rewrite Hc, <- wsum_single. apply wsum_ext. intros x _. rewrite Exists_nil. tauto.
  - apply NoDup_app in Hd as (Hd & Hdv & _).
    assert (v ∉ order) as Hv by (intros Hv; apply (Hdv v Hv); by left).
    destruct IH as [Hwf Hc]; [| done| |].
    { intros D1 w D2 -> c Hc. apply (Hs D1 w (D2 ++ [v])); [|done]. by rewrite <- app_assoc. }
    { intros w Hw'. apply Hin. set_solver. }
    rewrite foldl_app. cbn [foldl]. unfold closure_step at 1 3.
    assert (v ∈ dom (vertices g)) as Hvd by (apply Hin; set_solver).
    rewrite (fo_parent _ _ Hg) by done.
    assert (Bag.Count (foldl (closure_step g) (Bag.Clone votes) order) v = transitive_votes votes v) as Hcv.
    { rewrite Hc. apply (partial_full _ g); [done| |done]. intros c Hcd. by apply (Hs order v []). }
    destruct (GetParent v) as [p|] eqn:Hp.
    + rewrite Hcv. split; [by apply Bag.AddCount_wf|]. intros a. rewrite Bag.Count_AddCount, Hc, (partial_snoc _ _ v p) by done.
      assert (0 <= transitive_votes votes v) by by apply wsum_nonneg, counts_nonneg.
      rewrite (decide_ext (a = p) (p = a)) by done.
      repeat case_decide; lia.
    + split; [done|]. intros a. by rewrite Hc, partial_root.
Qed.

Lemma transitive_votes_spec votes : Bag.wf votes ->
  (forall x, x ∈ dom (Bag.counts votes) -> (height x < fuel)%nat) ->
  exists g closure, buildVoteGraph fuel votes = Ok g /\ forest votes g /\
    computeTransitiveVoteCountGraph fuel g votes = Ok closure /\ Bag.wf closure /\
    forall a, Bag.Count closure a = transitive_votes votes a.
Proof.
  intros Hw Hf. destruct (buildVoteGraph_forest votes Hf) as (g & Hb & Hg). exists g.
  destruct (topologicalSortTraversal_spec votes g Hg (closure_step g) (Bag.Clone votes) Hf)
    as (order & Ho & Hd & Hin & Hs).
  destruct (closure_spec votes g order Hw Hg Hs Hd ltac:(intros v; apply Hin)) as [Hwc Hc].
  eexists. split; [done|]. split; [done|]. split; [exact Ho|]. split; [done|].
  intros a. rewrite Hc. destruct (decide (a ∈ dom (vertices g))) as [Ha|Ha].
  - apply (partial_full _ g); [done| |done]. intros c Hc'. apply (fo_child _ _ Hg) in Hc' as (_ & Hc' & _).
    by apply Hin.
  - apply wsum_ext. intros x Hx%List_elem. rewrite Exists_exists. split.
    + intros [->|(c & _ & Hp & Hc')]; [apply ancestors_self|]. apply chain_child. right. by exists c.
    + intros Hax. exfalso. apply Ha, (fo_dom _ _ Hg). by exists x.
Qed.

(** C35: the closure that the traversal from the leaves computes, without running
    out of its bounds, counts for every block the votes for the block and for
    all the blocks below it. *)
Theorem transitive_votes_correct votes : Bag.wf votes ->
  (forall x, x ∈ dom (Bag.counts votes) -> (height x < fuel)%nat) ->
  exists g closure, buildVoteGraph fuel votes = Ok g /\ forest votes g /\
    computeTransitiveVoteCountGraph fuel g votes = Ok closure /\ Bag.wf closure /\
    forall a, Bag.Count closure a = transitive_votes votes a.
Proof. apply transitive_votes_spec. Qed.
End forest.

(** ** A concrete forest: every block but 0 is a child of 0. *)
#[local] Instance star_parents : BlockTraversal Z := fun id => if decide (id = 0) then None else Some 0.
#[local] Instance star_order : KeyOrder Z := elements_order.
#[local] Instance star_heights : Heights Z.
Proof.
  refine {| height id := if decide (id = 0) then 0%nat else 1%nat |}.
  intros id p. unfold GetParent, star_parents. case_decide; [done|]. intros [= <-]. rewrite decide_True by done. lia.
Defined.

Lemma transitive_votes_correct_witness : exists g closure,
  buildVoteGraph 2 (Bag.Of [1; 1; 2]) = Ok g /\
  computeTransitiveVoteCountGraph 2 g (Bag.Of [1; 1; 2]) = Ok closure /\ Bag.Count closure 0 = 3.
Proof.
  destruct (transitive_votes_correct 2 (Bag.Of [1; 1; 2])) as (g & closure & Hg & _ & Hc & _ & Ha).
  - by apply Bag.Add_wf, Bag.empty_wf.
  - intros x _. unfold height, star_heights. case_decide; lia.
  - exists g, closure. split; [done|]. split; [done|]. by rewrite Ha.
Defined.
End VoteGraph.
