(* ===== verification/Prefixes.v ===== *)
(** * Shared prefixes of identifiers

    Models [avalanchego/snow/consensus/snowman/poll/prefix.go]: the identifiers of
    competing blocks are split into groups by their bits, as the snowball tree
    splits them.  The groups that outlive a split are those of the slice [pgs],
    so a pointer to a group is its index in [pgs]; the groups that the inner loop
    swallows are values. *)

From S2P Require Import Prelude MapOrder Bits VoteGraph.

Module Prefixes.

Import Bits.Bits VoteGraph.VoteGraph.

Record prefixGroup := mkPG {
  index : Z;
  members : list ID;
  children : option nat * option nat;
}.

Definition isBifurcation (pg : prefixGroup) : bool :=
  match children pg with (Some _, Some _) => true | _ => false end.

Definition canSplit (pg : prefixGroup) : bool := (1 <? length (members pg))%nat.

Definition dedup_step (acc : list ID * gset ID) (id : ID) : list ID * gset ID :=
  let '(out, used) := acc in
  if decide (id ∈ used) then (out, used) else (out ++ [id], {[id]} ∪ used).

Definition deduplicate (ids : list ID) : list ID := (foldl dedup_step ([], ∅) ids).1.

(** The groups that [split] makes of the members; an empty one becomes nil. *)
Definition group (index : Z) (ms : list ID) : option prefixGroup :=
  match ms with [] => None | _ => Some (mkPG index ms (None, None)) end.

(** [member.Bit] panics past the last bit. *)
Definition split (pg : prefixGroup) : result PollErr (option prefixGroup * option prefixGroup) :=
  ms ← foldR (fun '(m0, m1) member =>
         if NumBits <=? index pg then Err ErrPanic
         else if Bit member (index pg) =? 0 then Ok (m0 ++ [member], m1)
         else Ok (m0, m1 ++ [member])) ([], []) (members pg);
  Ok (group (index pg + 1) ms.1, group (index pg + 1) ms.2).

(** The inner loop of [longestSharedPrefixes]: the group splits and becomes its
    only descendant until there are two. *)
Fixpoint split_until (fuel : nat) (pg : prefixGroup) : result PollErr (prefixGroup * prefixGroup * prefixGroup) :=
  match fuel with
  | O => Err OutOfFuel
  | S fuel =>
      cs ← split pg;
      match cs with
      | (Some c0, Some c1) => Ok (pg, c0, c1)
      | (Some c, None) | (None, Some c) => split_until fuel c
      | (None, None) => Err ErrPanic
      end
  end.

(** The loop over [pgs], which grows while it runs. *)
Fixpoint split_groups (fuel : nat) (i : nat) (pgs : list prefixGroup) : result PollErr (list prefixGroup) :=
  match fuel with
  | O => Err OutOfFuel
  | S fuel =>
      match pgs !! i with
      | None => Ok pgs
      | Some pg =>
          if canSplit pg then
            r ← split_until (S (Z.to_nat NumBits)) pg;
            let '(pg, c0, c1) := r in
            let n := length pgs in
            split_groups fuel (S i)
              (<[i := mkPG (index pg) (members pg) (Some n, Some (S n))]> pgs ++ [c0; c1])
          else split_groups fuel (S i) pgs
      end
  end.

(** [n] members make at most [2n - 1] groups. *)
Definition longestSharedPrefixes (idList : list ID) : result PollErr (list prefixGroup) :=
  let idList := deduplicate idList in
  split_groups (2 * length idList + 2) 0 [mkPG 0 idList (None, None)].

(** [pg.traverse(f)] *)
Fixpoint pg_traverse {A} (pgs : list prefixGroup) (f : A -> prefixGroup -> A) (depth : nat)
    (acc : A) (p : nat) : result PollErr A :=
  match depth with
  | O => Err OutOfFuel
  | S depth =>
      match pgs !! p with
      | None => Err ErrPanic
      | Some pg =>
          let acc := f acc pg in
          acc ← match (children pg).1 with Some c => pg_traverse pgs f depth acc c | None => Ok acc end;
          match (children pg).2 with Some c => pg_traverse pgs f depth acc c | None => Ok acc end
      end
  end.

Definition bifurcationsWithCommonPrefix {A} (pgs : list prefixGroup) (f : A -> list ID -> A) (acc : A) : result PollErr A :=
  pg_traverse pgs (fun acc pg => if isBifurcation pg && (0 <? index pg) then f acc (members pg) else acc)
    (length pgs) acc O.

(** ** Members and prefixes *)

Lemma deduplicate_spec ids : NoDup (deduplicate ids) /\ forall x, x ∈ deduplicate ids <-> x ∈ ids.
Proof.
  unfold deduplicate.
  enough (forall l out used, NoDup out -> (forall x, x ∈ used <-> x ∈ out) ->
    NoDup (foldl dedup_step (out, used) l).1 /\
    forall x, x ∈ (foldl dedup_step (out, used) l).1 <-> x ∈ out \/ x ∈ l) as Hl.
  { destruct (Hl ids [] ∅) as [Hd Hx]; [constructor|set_solver|]. split; [done|]. intros x. rewrite Hx. set_solver. }
  induction l as [|id l IH]; intros out used Hd Hu; cbn [foldl]; [cbn; split; [done|set_solver]|].
  unfold dedup_step at 2 4. case_decide as Hin.
  - destruct (IH out used Hd Hu) as [Hd' Hx]. split; [done|]. intros x. rewrite Hx. set_solver.
  - destruct (IH (out ++ [id]) ({[id]} ∪ used)) as [Hd' Hx].
    + apply NoDup_app. split; [done|]. split; [set_solver|apply NoDup_singleton].
    + set_solver.
    + split; [done|]. intros x. rewrite Hx. set_solver.
Qed.

(** The members of [l] with the bit [b] at [i]. *)
Definition with_bit (i : Z) (b : bool) (l : list ID) : list ID := filter (fun y => bit y i = b) l.

Lemma agree_Forall lo hi x y : agree lo hi x y <->
  Forall (fun i => bit x (lo + Z.of_nat i) = bit y (lo + Z.of_nat i)) (seq 0 (Z.to_nat (hi - lo))).
Proof.
  rewrite Forall_forall. split.
  - intros Ha i Hi%elem_of_seq. apply Ha. lia.
  - intros Hf i Hi. specialize (Hf (Z.to_nat (i - lo))).
    replace (lo + Z.of_nat (Z.to_nat (i - lo))) with i in Hf by lia. apply Hf, elem_of_seq. lia.
Qed.

#[global] Instance agree_dec lo hi x y : Decision (agree lo hi x y).
Proof.
  destruct (decide (Forall (fun i => bit x (lo + Z.of_nat i) = bit y (lo + Z.of_nat i))
    (seq 0 (Z.to_nat (hi - lo))))) as [Hf|Hf]; [left|right]; by rewrite agree_Forall.
Defined.

(** The members of [l] that agree with [x] below [i]. *)
Definition sharing (i : Z) (x : ID) (l : list ID) : list ID := filter (fun y => agree 0 i x y) l.

Lemma split_spec pg : index pg < NumBits ->
  split pg = Ok (group (index pg + 1) (with_bit (index pg) false (members pg)),
                 group (index pg + 1) (with_bit (index pg) true (members pg))).
Proof.
  intros Hi. unfold split.
  rewrite (foldR_Ok _ (fun '(m0, m1) member =>
    if Bit member (index pg) =? 0 then (m0 ++ [member], m1) else (m0, m1 ++ [member]))).
  2:{ intros [m0 m1] x _. destruct (Z.leb_spec NumBits (index pg)); [lia|]. by case_match. }
  cbn [mbind result_bind].
  enough (forall l m0 m1, foldl (fun '(m0, m1) member =>
      if Bit member (index pg) =? 0 then (m0 ++ [member], m1) else (m0, m1 ++ [member])) (m0, m1) l =
    (m0 ++ with_bit (index pg) false l, m1 ++ with_bit (index pg) true l)) as -> by done.
  unfold with_bit. induction l as [|x l IH]; intros m0 m1; cbn [foldl].
  { by rewrite !app_nil_r. }
  rewrite Bit_bit. destruct (bit x (index pg)) eqn:Hb; cbn [Z.b2z Z.eqb].
  - rewrite IH. rewrite filter_cons_False, filter_cons_True by congruence. by rewrite <- app_assoc.
  - rewrite IH. rewrite filter_cons_True, filter_cons_False by congruence. by rewrite <- app_assoc.
Qed.

(** All members agree below [i]. *)
Definition uniform (i : Z) (l : list ID) : Prop := forall x y, x ∈ l -> y ∈ l -> agree 0 i x y.

Lemma wf_ids_differ x y : wf_id x -> wf_id y -> agree 0 NumBits x y -> x = y.
Proof.
  intros Hx Hy Ha. pose proof (slice_eq x y 0 32 Hx Hy ltac:(lia) ltac:(lia)) as Hs.
  assert (forall z, wf_id z -> slice z 0 32 = z) as Hz.
  { intros z [Hl _]. unfold slice. change (Z.to_nat 0) with 0%nat. rewrite drop_0, take_ge; [done|lia]. }
  rewrite !Hz in Hs by done. apply Hs. intros k Hk.
  apply byte_eq_bits; [by apply byte_at_wf|by apply byte_at_wf|]. intros j Hj.
  rewrite (agree_bytes 0 NumBits) in Ha by done. apply Ha; [done|]. unfold NumBits. lia.
Qed.
Lemma filter_ext_in {A} (P Q : A -> Prop) `{forall x, Decision (P x)} `{forall x, Decision (Q x)} (l : list A) :
  (forall x, x ∈ l -> P x <-> Q x) -> filter P l = filter Q l.
Proof.
  induction l as [|x l IH]; intros HPQ; [done|]. pose proof (HPQ x ltac:(by left)) as Hx.
  destruct (decide (P x)).
  - rewrite !filter_cons_True by tauto. f_equal. apply IH. intros. apply HPQ. by right.
  - rewrite !filter_cons_False by tauto. apply IH. intros. apply HPQ. by right.
Qed.

Lemma with_bit_length i l : (length (with_bit i false l) + length (with_bit i true l) = length l)%nat.
Proof.
  unfold with_bit. induction l as [|x l IH]; [done|].
  destruct (bit x i) eqn:Hb.
  - rewrite filter_cons_False, filter_cons_True by congruence. cbn [length]. lia.
  - rewrite filter_cons_True, filter_cons_False by congruence. cbn [length]. lia.
Qed.

Lemma with_bit_nil i b l : with_bit i b l = [] -> with_bit i (negb b) l = l.
Proof.
  unfold with_bit. induction l as [|x l IH]; [done|]. destruct (decide (bit x i = b)) as [Hb|Hb].
  - by rewrite filter_cons_True by done.
  - rewrite filter_cons_False by done. intros Hl. rewrite filter_cons_True by (destruct (bit x i), b; done).
    f_equal. by apply IH.
Qed.

Lemma elem_of_with_bit i b l x : x ∈ with_bit i b l <-> bit x i = b /\ x ∈ l.
Proof. unfold with_bit. by rewrite list_elem_of_filter. Qed.

Lemma elem_of_sharing i x l y : y ∈ sharing i x l <-> agree 0 i x y /\ y ∈ l.
Proof. unfold sharing. by rewrite list_elem_of_filter. Qed.

Lemma uniform_step i b l : uniform i l -> with_bit i b l = [] -> uniform (i + 1) l.
Proof.
  intros Hu Hb x y Hx Hy. apply agree_step; [by apply Hu|]. apply with_bit_nil in Hb.
  rewrite <- Hb in Hx, Hy. apply elem_of_with_bit in Hx as [-> _], Hy as [-> _]. done.
Qed.

Lemma group_Some i l : l <> [] -> group i l = Some (mkPG i l (None, None)).
Proof. by destruct l. Qed.

(** The inner loop ends at the first bit in which two members differ. *)
Lemma split_until_spec fuel pg : 0 <= index pg -> uniform (index pg) (members pg) ->
  NoDup (members pg) -> Forall wf_id (members pg) -> (2 <= length (members pg))%nat ->
  (Z.to_nat (NumBits - index pg) < fuel)%nat ->
  exists pg' c0 c1, split_until fuel pg = Ok (pg', c0, c1) /\
    members pg' = members pg /\ index pg <= index pg' /\ uniform (index pg') (members pg) /\
    c0 = mkPG (index pg' + 1) (with_bit (index pg') false (members pg)) (None, None) /\
    c1 = mkPG (index pg' + 1) (with_bit (index pg') true (members pg)) (None, None) /\
    members c0 <> [] /\ members c1 <> [].
Proof.
  revert pg. induction fuel as [|fuel IH]; intros pg H0 Hu Hd Hw Hl Hf; [lia|].
  assert (index pg < NumBits) as Hi.
  { destruct (Z.lt_ge_cases (index pg) NumBits) as [|Hge]; [done|exfalso].
    destruct (members pg) as [|x [|y l]] eqn:Hm; cbn in Hl; try lia.
    apply Forall_cons in Hw as [Hx [Hy _]%Forall_cons]. apply NoDup_cons in Hd as [Hn _].
    apply Hn. rewrite (wf_ids_differ x y Hx Hy); [by left|].
    apply (agree_weaken 0 (index pg)); [done|done|]. apply Hu; set_solver. }
  cbn [split_until]. rewrite split_spec by done. cbn [mbind result_bind].
  destruct (decide (with_bit (index pg) false (members pg) = [])) as [E0|E0].
  - pose proof (with_bit_nil _ _ _ E0) as E1. cbn in E1. rewrite E0, E1. cbn [group].
    rewrite group_Some by (intros E; rewrite E in Hl; cbn in Hl; lia).
    destruct (IH (mkPG (index pg + 1) (members pg) (None, None))) as (pg' & c0 & c1 & Hr & Hm & Hle & Hrest);
      cbn in *; [lia|by eapply uniform_step|done|done|done|lia|].
    exists pg', c0, c1. split; [done|]. split; [done|]. split; [lia|done].
  - destruct (decide (with_bit (index pg) true (members pg) = [])) as [E1|E1].
    + pose proof (with_bit_nil _ _ _ E1) as E2. cbn in E2. rewrite E1, E2. cbn [group].
      rewrite group_Some by (intros E; rewrite E in Hl; cbn in Hl; lia).
      destruct (IH (mkPG (index pg + 1) (members pg) (None, None))) as (pg' & c0 & c1 & Hr & Hm & Hle & Hrest);
        cbn in *; [lia|by eapply uniform_step|done|done|done|lia|].
      exists pg', c0, c1. split; [done|]. split; [done|]. split; [lia|done].
    + rewrite !group_Some by done. do 3 eexists. split; [done|]. repeat (split; [done || lia|]). done.
Qed.

(** ** The groups of the outer loop *)
Section groups.
Context (L : list ID) (HLd : NoDup L) (HLw : Forall wf_id L).

(** The members are the identifiers that share their first [index] bits. *)
Definition sound (pg : prefixGroup) : Prop :=
  0 <= index pg /\ forall x, x ∈ members pg -> members pg = sharing (index pg) x L.

Definition finished_group (pgs : list prefixGroup) (j : nat) (pg : prefixGroup) : Prop :=
  if canSplit pg then exists a b ga gb, children pg = (Some a, Some b) /\ (j < a)%nat /\ (j < b)%nat /\
    pgs !! a = Some ga /\ pgs !! b = Some gb /\
    members ga = with_bit (index pg) false (members pg) /\
    members gb = with_bit (index pg) true (members pg)
  else children pg = (None, None).

Definition groups_inv (i : nat) (pgs : list prefixGroup) : Prop :=
  forall j pg, pgs !! j = Some pg -> sound pg /\
    if decide (j < i)%nat then finished_group pgs j pg else children pg = (None, None).

Lemma sound_uniform pg : sound pg -> uniform (index pg) (members pg).
Proof.
  intros [_ Hs] x y Hx Hy. rewrite (Hs x Hx) in Hy. by apply elem_of_sharing in Hy as [? _].
Qed.

Lemma sound_members pg x : sound pg -> x ∈ members pg -> x ∈ L.
Proof. intros [_ Hs] Hx. pose proof Hx as Hx'. rewrite (Hs x Hx) in Hx'. by apply elem_of_sharing in Hx' as [_ ?]. Qed.

Lemma sound_nodup pg : sound pg -> NoDup (members pg) /\ Forall wf_id (members pg).
Proof.
  intros Hs. destruct (members pg) as [|x l] eqn:Hm; [by split; constructor|]. rewrite <- Hm.
  split; [|rewrite Forall_forall in HLw |- *; intros y Hy; by apply HLw, (sound_members pg)].
  destruct Hs as [_ Hs]. rewrite (Hs x) by (rewrite Hm; by left). by apply NoDup_filter.
Qed.

(** A group stays sound when its index moves to where its members differ. *)
Lemma sound_advance pg i cs : sound pg -> index pg <= i -> uniform i (members pg) -> sound (mkPG i (members pg) cs).
Proof.
  intros [H0 Hs] Hi Hu. split; cbn; [lia|]. intros x Hx. rewrite (Hs x Hx) at 1.
  apply filter_ext_in. intros y Hy. split.
  - intros Ha. apply Hu; [done|]. rewrite (Hs x Hx). by apply elem_of_sharing.
  - apply agree_weaken; lia.
Qed.

Lemma sound_child pg b cs : sound pg -> sound (mkPG (index pg + 1) (with_bit (index pg) b (members pg)) cs).
Proof.
  intros [H0 Hs]. split; cbn; [lia|]. intros x [Hb Hx]%elem_of_with_bit. rewrite (Hs x Hx).
  unfold with_bit, sharing. rewrite list_filter_filter. apply filter_ext_in. intros y _. split.
  - intros [Hy Ha]. apply agree_step; [done|congruence].
  - intros Ha. split; [|apply (agree_weaken 0 (index pg + 1)); [lia|lia|done]].
    rewrite <- Hb. symmetry. apply Ha. lia.
Qed.

(** The splits that are left. *)
Definition weight (pg : prefixGroup) : nat := Nat.max 1 (2 * length (members pg) - 1).
Definition work (pgs : list prefixGroup) : nat := foldr (fun pg a => weight pg + a)%nat 0%nat pgs.

Lemma work_app l1 l2 : work (l1 ++ l2) = (work l1 + work l2)%nat.
Proof. unfold work. induction l1 as [|pg l1 IH]; cbn; [done|]. rewrite IH. lia. Qed.

Lemma finished_group_mono pgs pgs' j pg :
  (forall k g, pgs !! k = Some g -> exists g', pgs' !! k = Some g' /\ members g' = members g) ->
  finished_group pgs j pg -> finished_group pgs' j pg.
Proof.
  intros Hk. unfold finished_group. destruct (canSplit pg); [|done].
  intros (a & b & ga & gb & Hc & Ha & Hb & Hga & Hgb & Ma & Mb).
  destruct (Hk _ _ Hga) as (ga' & Hga' & Ma'), (Hk _ _ Hgb) as (gb' & Hgb' & Mb').
  exists a, b, ga', gb'. rewrite Ma', Mb'. done.
Qed.

Lemma groups_split i pgs pg pg' : groups_inv i pgs -> pgs !! i = Some pg -> canSplit pg = true ->
  index pg <= index pg' -> uniform (index pg') (members pg) -> members pg' = members pg ->
  groups_inv (S i) (<[i := mkPG (index pg') (members pg') (Some (length pgs), Some (S (length pgs)))]> pgs ++
    [mkPG (index pg' + 1) (with_bit (index pg') false (members pg)) (None, None);
     mkPG (index pg' + 1) (with_bit (index pg') true (members pg)) (None, None)]).
Proof.
  intros Hinv Hi Hsp Hle Hu Hm. set (new := mkPG _ (members pg') _). set (pgs' := _ ++ _).
  assert (i < length pgs)%nat as Hlt by by eapply lookup_lt_Some.
  pose proof (Hinv _ _ Hi) as [Hsd _].
  assert (sound new) as Hnew by (unfold new; rewrite Hm; by apply (sound_advance pg)).
  assert (forall k g, pgs !! k = Some g -> exists g', pgs' !! k = Some g' /\ members g' = members g) as Hmono.
  { intros k g Hk. unfold pgs'. rewrite lookup_app_l by (rewrite length_insert; by eapply lookup_lt_Some).
    destruct (decide (k = i)) as [->|Hne].
    - rewrite list_lookup_insert_eq by done. eexists. split; [done|]. cbn. congruence.
    - rewrite list_lookup_insert_ne by done. by exists g. }
  intros j g Hj. unfold pgs' in Hj. apply lookup_app_Some in Hj as [Hj|[Hge Hj]].
  - destruct (decide (j = i)) as [->|Hne].
    + rewrite list_lookup_insert_eq in Hj by done. injection Hj as <-. split; [done|].
      rewrite decide_True by lia. unfold finished_group.
      assert (canSplit new = true) as -> by (unfold canSplit, new in *; cbn; by rewrite Hm).
      exists (length pgs), (S (length pgs)),
        (mkPG (index pg' + 1) (with_bit (index pg') false (members pg)) (None, None)),
        (mkPG (index pg' + 1) (with_bit (index pg') true (members pg)) (None, None)). split; [done|]. split; [lia|]. split; [lia|].
      unfold pgs'. rewrite !lookup_app_r by (rewrite length_insert; lia). rewrite length_insert.
      replace (length pgs - length pgs)%nat with 0%nat by lia.
      replace (S (length pgs) - length pgs)%nat with 1%nat by lia.
      unfold new. cbn. rewrite Hm. by repeat split.
    + rewrite list_lookup_insert_ne in Hj by done. destruct (Hinv _ _ Hj) as [Hs Hf]. split; [done|].
      destruct (decide (j < i)%nat); [|by rewrite decide_False by lia].
      rewrite decide_True by lia. by apply (finished_group_mono pgs).
  - rewrite length_insert in Hge, Hj. rewrite decide_False by lia.
    assert (sound g /\ children g = (None, None)) as [? ?]; [|done].
    destruct (j - length pgs)%nat as [|[|k]]; cbn in Hj; [| |done]; injection Hj as <-;
      (split; [|done]); pose proof (sound_child new) as Hch; unfold new in Hch; cbn in Hch;
      rewrite Hm in Hch; apply Hch; unfold new in Hnew; by rewrite Hm in Hnew.
Qed.

Lemma split_groups_spec fuel i pgs : groups_inv i pgs -> (work (drop i pgs) < fuel)%nat ->
  exists pgs', split_groups fuel i pgs = Ok pgs' /\ groups_inv (length pgs') pgs' /\
    forall k g, pgs !! k = Some g -> exists g', pgs' !! k = Some g' /\ members g' = members g.
Proof.
  revert i pgs. induction fuel as [|fuel IH]; intros i pgs Hinv Hf; [lia|]. cbn [split_groups].
  destruct (pgs !! i) as [pg|] eqn:Hi.
  2:{ apply lookup_ge_None in Hi. exists pgs. split; [done|]. split; [|eauto]. intros j g Hj.
      destruct (Hinv j g Hj) as [Hs Hd]. split; [done|]. apply lookup_lt_Some in Hj.
      rewrite decide_True in Hd by lia. by rewrite decide_True by lia. }
  pose proof (drop_S _ _ _ Hi) as Hdrop. rewrite Hdrop in Hf. unfold work in Hf. cbn [foldr] in Hf. fold (work (drop (S i) pgs)) in Hf.
  pose proof (Hinv _ _ Hi) as [Hs Hch]. rewrite decide_False in Hch by lia.
  destruct (canSplit pg) eqn:Hsp.
  - destruct (sound_nodup pg Hs) as [Hd Hw].
    assert (2 <= length (members pg))%nat as Hl by (unfold canSplit in Hsp; apply Nat.ltb_lt in Hsp; lia).
    destruct (split_until_spec (S (Z.to_nat NumBits)) pg) as (pg' & c0 & c1 & -> & Hm & Hle & Hu & -> & -> & N0 & N1);
      try done; [apply Hs|by apply sound_uniform|destruct Hs; lia|]. cbn [mbind result_bind].
    destruct (IH (S i) _ (groups_split i pgs pg pg' Hinv Hi Hsp Hle Hu Hm)) as (pgs' & -> & Hinv' & Hmono).
    + assert (i < length pgs)%nat by by eapply lookup_lt_Some.
      rewrite drop_app_le by (rewrite length_insert; lia). rewrite drop_insert_lt by lia.
      rewrite work_app. unfold work at 2. cbn [foldr]. unfold weight in *. cbn [members] in N0, N1 |- *.
      pose proof (with_bit_length (index pg') (members pg)).
      rewrite <- length_zero_iff_nil in N0, N1. lia.
    + exists pgs'. split; [done|]. split; [done|]. intros k g Hk.
      assert (exists g1, (<[i:=mkPG (index pg') (members pg') (Some (length pgs), Some (S (length pgs)))]> pgs ++
        [mkPG (index pg' + 1) (with_bit (index pg') false (members pg)) (None, None);
         mkPG (index pg' + 1) (with_bit (index pg') true (members pg)) (None, None)]) !! k = Some g1 /\
        members g1 = members g) as (g1 & Hg1 & Hmg).
      { rewrite lookup_app_l by (rewrite length_insert; by eapply lookup_lt_Some).
        destruct (decide (k = i)) as [->|Hne].
        - rewrite list_lookup_insert_eq by by eapply lookup_lt_Some. eexists. split; [done|]. cbn. congruence.
        - rewrite list_lookup_insert_ne by done. by exists g. }
      destruct (Hmono _ _ Hg1) as (g' & Hg' & Hm'). exists g'. split; [done|congruence].
  - destruct (IH (S i) pgs) as (pgs' & -> & Hinv' & Hmono); [|unfold weight in Hf; lia|by exists pgs'].
    intros j g Hj. destruct (Hinv j g Hj) as [Hsj Hdj]. split; [done|].
    destruct (decide (j < i)%nat); [by rewrite decide_True by lia|].
    destruct (decide (j = i)) as [->|]; [|by rewrite decide_False by lia].
    rewrite decide_True by lia. unfold finished_group. rewrite Hi in Hj. injection Hj as <-. by rewrite Hsp.
Qed.
End groups.

(** ** The traversal *)
Section traversal.
Context (L : list ID) (pgs : list prefixGroup) (Hinv : groups_inv L (length pgs) pgs).

Fixpoint pg_list (depth p : nat) : list prefixGroup :=
  match depth with
  | O => []
  | S depth =>
      match pgs !! p with
      | None => []
      | Some pg => pg ::
          match (children pg).1 with Some c => pg_list depth c | None => [] end ++
          match (children pg).2 with Some c => pg_list depth c | None => [] end
      end
  end.

Lemma group_finished p pg : pgs !! p = Some pg -> sound L pg /\ finished_group pgs p pg.
Proof.
  intros Hp. destruct (Hinv p pg Hp) as [Hs Hf]. rewrite decide_True in Hf; [done|]. by eapply lookup_lt_Some.
Qed.

Lemma pg_traverse_spec {A} (f : A -> prefixGroup -> A) depth acc p : (p < length pgs)%nat ->
  (length pgs <= depth + p)%nat -> pg_traverse pgs f depth acc p = Ok (foldl f acc (pg_list depth p)).
Proof.
  revert acc p. induction depth as [|depth IH]; intros acc p Hp Hd; [lia|].
  cbn [pg_traverse pg_list]. destruct (lookup_lt_is_Some_2 pgs p Hp) as [pg Hpg]. rewrite Hpg.
  destruct (group_finished p pg Hpg) as [_ Hf]. unfold finished_group in Hf. destruct (canSplit pg).
  - destruct Hf as (a & b & ga & gb & -> & Ha & Hb & Hga & Hgb & _). cbn [fst snd].
    apply lookup_lt_Some in Hga, Hgb. rewrite IH by lia. cbn [mbind result_bind].
    rewrite IH by lia. cbn [foldl]. by rewrite foldl_app.
  - by rewrite Hf.
Qed.

Lemma pg_list_elem depth p g : g ∈ pg_list depth p -> exists j, pgs !! j = Some g.
Proof.
  revert p. induction depth as [|depth IH]; intros p; cbn; [by intros ?%not_elem_of_nil|].
  destruct (pgs !! p) as [pg|] eqn:Hp; [|by intros ?%not_elem_of_nil].
  rewrite elem_of_cons, elem_of_app. intros [->|[Hg|Hg]]; [by exists p| |];
    (case_match; [by apply IH in Hg|by apply not_elem_of_nil in Hg]).
Qed.

(** Every shared prefix has its group. *)
Lemma pg_list_complete depth p pg x i : pgs !! p = Some pg -> (length pgs <= depth + p)%nat ->
  x ∈ members pg -> (2 <= length (sharing i x (members pg)))%nat ->
  exists g, g ∈ pg_list depth p /\ isBifurcation g = true /\ i <= index g /\
    members g = sharing i x (members pg).
Proof.
  revert p pg. induction depth as [|depth IH]; intros p pg Hp Hd Hx Hl.
  { apply lookup_lt_Some in Hp. lia. }
  destruct (group_finished p pg Hp) as [Hs Hf]. unfold finished_group in Hf.
  assert (canSplit pg = true) as Hsp.
  { unfold canSplit. apply Nat.ltb_lt.
    pose proof (length_filter (fun y => agree 0 i x y) (members pg)). unfold sharing in Hl. lia. }
  rewrite Hsp in Hf. destruct Hf as (a & b & ga & gb & Hch & Ha & Hb & Hga & Hgb & Ma & Mb).
  cbn [pg_list]. rewrite Hp, Hch. cbn [fst snd].
  destruct (Z.le_gt_cases i (index pg)) as [Hi|Hi].
  - exists pg. split; [by left|]. split; [by unfold isBifurcation; rewrite Hch|]. split; [done|].
    assert (forall l, (forall y, y ∈ l -> agree 0 i x y) -> sharing i x l = l) as Hall.
    { unfold sharing. induction l as [|y l IHl]; intros Hy; [done|].
      rewrite filter_cons_True by (apply Hy; by left). f_equal. apply IHl. intros. apply Hy. by right. }
    symmetry. apply Hall. intros y Hy. apply (agree_weaken 0 (index pg)); [done|done|].
    by apply (sound_uniform L pg Hs).
  - assert (sharing i x (members pg) = sharing i x (with_bit (index pg) (bit x (index pg)) (members pg))) as Heq.
    { unfold sharing, with_bit. rewrite list_filter_filter. apply filter_ext_in. intros y _.
      split; [|tauto]. intros Hy. split; [done|]. symmetry. apply Hy. destruct Hs. lia. }
    rewrite Heq in Hl |- *.
    assert (x ∈ with_bit (index pg) (bit x (index pg)) (members pg)) as Hx' by by apply elem_of_with_bit.
    destruct (bit x (index pg)); [rewrite <- Mb in *|rewrite <- Ma in *].
    + destruct (IH b gb Hgb ltac:(lia) Hx' Hl) as (g & Hg & Hrest). exists g. split; [|done].
      right. apply elem_of_app. by right.
    + destruct (IH a ga Hga ltac:(lia) Hx' Hl) as (g & Hg & Hrest). exists g. split; [|done].
      right. apply elem_of_app. by left.
Qed.
End traversal.

(** The reported groups: those that split, with a shared bit. *)
Definition reported (gs : list prefixGroup) : list (list ID) :=
  members <$> filter (fun g => isBifurcation g = true /\ 0 < index g) gs.

Lemma foldl_reported {A} (f : A -> list ID -> A) gs acc :
  foldl (fun acc pg => if isBifurcation pg && (0 <? index pg) then f acc (members pg) else acc) acc gs =
  foldl f acc (reported gs).
Proof.
  unfold reported. revert acc. induction gs as [|g gs IH]; intros acc; [done|]. cbn [foldl]. rewrite IH.
  destruct (isBifurcation g) eqn:Hb, (Z.ltb_spec 0 (index g)); cbn [andb];
    [by rewrite filter_cons_True by done|by rewrite filter_cons_False by lia|..];
    rewrite filter_cons_False by (intros [? ?]; congruence); done.
Qed.

Lemma elem_of_reported gs M :
  M ∈ reported gs <-> exists g, g ∈ gs /\ isBifurcation g = true /\ 0 < index g /\ M = members g.
Proof.
  unfold reported. rewrite list_elem_of_fmap. split.
  - intros (g & -> & [[Hb Hi] Hg]%list_elem_of_filter). by exists g.
  - intros (g & Hg & Hb & Hi & ->). exists g. by rewrite list_elem_of_filter.
Qed.

Lemma prefix_groups_spec (idList : list ID) : Forall wf_id idList ->
  exists pgs gs, longestSharedPrefixes idList = Ok pgs /\
    (forall A (f : A -> list ID -> A) acc, bifurcationsWithCommonPrefix pgs f acc = Ok (foldl f acc gs)) /\
    forall M, M ∈ gs <-> exists x i, x ∈ idList /\ 0 < i /\
      M = sharing i x (deduplicate idList) /\ (2 <= length M)%nat.
Proof.
  intros Hw. destruct (deduplicate_spec idList) as [Hd Hin]. set (L := deduplicate idList) in *.
  assert (Forall wf_id L) as HwL by (rewrite Forall_forall in Hw |- *; intros x Hx; apply Hw, Hin, Hx).
  assert (groups_inv L 0 [mkPG 0 L (None, None)]) as Hi0.
  { intros [|j] pg Hj; [|done]. injection Hj as <-. rewrite decide_False by lia. split; [|done].
    split; [done|]. intros x _. cbn. unfold sharing. rewrite (filter_ext_in _ (fun _ => True)) by (intros y _; split; [done|intros _ k Hk; lia]).
    clear. induction L as [|y l IH]; [done|]. rewrite filter_cons_True by done. by f_equal. }
  destruct (split_groups_spec L Hd HwL (2 * length L + 2) 0 _ Hi0) as (pgs & Hr & Hinv & Hmono).
  { cbn. unfold weight. cbn. lia. }
  destruct (Hmono 0%nat _ eq_refl) as (root & Hroot & Hm). cbn in Hm.
  pose proof (lookup_lt_Some _ _ _ Hroot) as Hlen.
  exists pgs, (reported (pg_list pgs (length pgs) 0)). split; [exact Hr|]. split.
  { intros A f acc. unfold bifurcationsWithCommonPrefix. rewrite (pg_traverse_spec L) by (done || lia).
    by rewrite foldl_reported. }
  intros M. rewrite elem_of_reported. split.
  - intros (g & Hg & Hb & Hi & ->). apply pg_list_elem in Hg as [j Hj].
    destruct (group_finished L pgs Hinv j g Hj) as [Hs Hf]. unfold finished_group, canSplit in Hf.
    destruct (Nat.ltb_spec 1 (length (members g))) as [Hl|Hl];
      [|by unfold isBifurcation in Hb; rewrite Hf in Hb].
    destruct (members g) as [|x l] eqn:Hmg; [cbn in Hl; lia|]. exists x, (index g).
    assert (x ∈ members g) as Hx by (rewrite Hmg; by left). rewrite <- Hmg in *.
    split; [apply Hin; by apply (sound_members L g)|]. split; [done|]. split; [by apply Hs|lia].
  - intros (x & i & Hx & Hi & -> & Hl). apply Hin in Hx. rewrite <- Hm in Hx, Hl |- *.
    destruct (pg_list_complete L pgs Hinv (length pgs) 0 root x i) as (g & Hg & Hb & Hle & Hmg); try done; [lia|].
    exists g. split; [done|]. split; [done|]. split; [lia|done].
Qed.

(** the splitting of well-formed identifiers ends without a panic, and the
    groups it reports are exactly the sets of two or more identifiers that share
    a non-empty prefix of bits. *)
Theorem prefix_groups_correct (idList : list ID) : Forall wf_id idList ->
  exists pgs gs, longestSharedPrefixes idList = Ok pgs /\
    bifurcationsWithCommonPrefix pgs (fun acc ids => acc ++ [ids]) [] = Ok gs /\
    forall M, M ∈ gs <-> exists x i, x ∈ idList /\ 0 < i /\
      M = sharing i x (deduplicate idList) /\ (2 <= length M)%nat.
Proof.
  intros (pgs & gs & Hr & Hb & HM)%prefix_groups_spec. exists pgs, gs. split; [done|]. split; [|done].
  rewrite Hb. f_equal. clear. enough (forall acc, foldl (fun acc ids => acc ++ [ids]) acc gs = acc ++ gs) by auto.
  induction gs as [|M gs IH]; intros acc; cbn; [by rewrite app_nil_r|]. by rewrite IH, <- app_assoc.
Qed.

(** Three identifiers; the first two share their first bit. *)
Definition id_of (b : Z) : ID := b :: replicate 31 0.

Lemma id_of_wf b : is_uint 8 b -> wf_id (id_of b).
Proof. intros Hb. split; [done|]. constructor; [done|]. apply Forall_replicate. by unfold is_uint. Qed.

Lemma prefix_groups_correct_witness : exists pgs gs,
  longestSharedPrefixes [id_of 0; id_of 2; id_of 1] = Ok pgs /\
  bifurcationsWithCommonPrefix pgs (fun acc ids => acc ++ [ids]) [] = Ok gs /\ [id_of 0; id_of 2] ∈ gs.
Proof.
  destruct (prefix_groups_correct [id_of 0; id_of 2; id_of 1]) as (pgs & gs & Hp & Hg & HM).
  - repeat constructor; unfold is_uint; lia.
  - exists pgs, gs. split; [done|]. split; [done|]. apply HM. exists (id_of 0), 1.
    split; [by left|]. split; [done|]. split; [by vm_compute|cbn; lia].
Defined.
End Prefixes.
