(* ===== verification/EarlyTerm.v ===== *)
(** * Polls with early termination

    Models [avalanchego/snow/consensus/snowman/poll/early_term_traversal.go]: a
    poll that ends as soon as no outstanding vote can change the outcome of any
    snow instance, be it that of a block or that of a prefix shared by competing
    blocks.  [GetParent] is what consensus answers while [Finished] runs;
    metrics and the clock are not modelled. *)

From S2P Require Import Prelude Monads MapOrder Bag Bits VoteGraph Prefixes PollSet.

Module EarlyTerm.
Import Bits.Bits VoteGraph.VoteGraph Prefixes.Prefixes.

Section poll.
Context {NodeID : Type} `{Countable NodeID, !KeyOrder ID, !BlockTraversal ID} (fuel : nat).

Record earlyTermPoll := mkPoll {
  votes : Bag.Bag ID;
  polled : Bag.Bag NodeID;
  alphaPreference : Z;
  alphaConfidence : Z;
  finished : bool;
}.

(** [earlyTermTraversalFactory.New] *)
Definition New (alphaPreference alphaConfidence : Z) (vdrs : Bag.Bag NodeID) : earlyTermPoll :=
  mkPoll Bag.empty vdrs alphaPreference alphaConfidence false.

Definition Vote (vdr : NodeID) (vote : ID) (p : earlyTermPoll) : earlyTermPoll :=
  let count := Bag.Count (polled p) vdr in
  mkPoll (Bag.AddCount (votes p) vote count) (Bag.Remove (polled p) vdr)
    (alphaPreference p) (alphaConfidence p) (finished p).

Definition Drop (vdr : NodeID) (p : earlyTermPoll) : earlyTermPoll :=
  mkPoll (votes p) (Bag.Remove (polled p) vdr) (alphaPreference p) (alphaConfidence p) (finished p).

Definition shouldTerminate (p : earlyTermPoll) (freq remaining : Z) : bool :=
  let maxPossibleVotes := freq + remaining in
  (maxPossibleVotes <? alphaPreference p) ||
  ((alphaPreference p <=? freq) && (maxPossibleVotes <? alphaConfidence p)) ||
  (alphaConfidence p <=? freq).

Definition descendantIDsOfVertex (g : voteGraph (ID := ID)) (v : ID) : list ID := descendants_of g v.

Definition sumVotesFromIDs (ids : list ID) (transitiveVotes : Bag.Bag ID) : Z :=
  foldl (fun count id => count + Bag.Count transitiveVotes id) 0 ids.

Definition computeTransitiveVotesForPrefixes (g : voteGraph (ID := ID)) (transitiveVotes : Bag.Bag ID) : result PollErr (list Z) :=
  traverse fuel g (fun votesForPrefix v =>
    pgs ← longestSharedPrefixes (descendantIDsOfVertex g v);
    bifurcationsWithCommonPrefix pgs
      (fun votesForPrefix ids => votesForPrefix ++ [sumVotesFromIDs ids transitiveVotes]) votesForPrefix) [].

Definition aggregateVotesFromPrefixesAndIDs (transitiveVotesForPrefixes : list Z) (transitiveVotes : Bag.Bag ID) : list Z :=
  foldl (fun counts id => counts ++ [Bag.Count transitiveVotes id]) [] (Bag.List transitiveVotes)
    ++ transitiveVotesForPrefixes.

(** The loop over the counts, which stops at the first count that can improve. *)
Fixpoint cantImprove (p : earlyTermPoll) (remaining : Z) (acc : bool) (counts : list Z) : bool :=
  match counts with
  | [] => acc
  | c :: counts =>
      let acc := acc && shouldTerminate p c remaining in
      if negb acc then acc else cantImprove p remaining acc counts
  end.

Definition set_finished (p : earlyTermPoll) : earlyTermPoll :=
  mkPoll (votes p) (polled p) (alphaPreference p) (alphaConfidence p) true.

Definition Finished (p : earlyTermPoll) : result PollErr (earlyTermPoll * bool) :=
  if finished p then Ok (p, true)
  else
    let remaining := Bag.Len (polled p) in
    if remaining =? 0 then Ok (set_finished p, true)
    else
      let received := Bag.Len (votes p) in
      let maxPossibleVotes := received + remaining in
      if maxPossibleVotes <? alphaPreference p then Ok (set_finished p, true)
      else
        votesGraph ← buildVoteGraph fuel (votes p);
        transitiveVotes ← computeTransitiveVoteCountGraph fuel votesGraph (votes p);
        forPrefixes ← computeTransitiveVotesForPrefixes votesGraph transitiveVotes;
        let counts := aggregateVotesFromPrefixesAndIDs forPrefixes transitiveVotes in
        if cantImprove p remaining (0 <? Z.of_nat (length counts)) counts
        then Ok (set_finished p, true)
        else Ok (p, finished p).

Definition Result (p : earlyTermPoll) : Bag.Bag ID := votes p.
End poll.
Arguments earlyTermPoll NodeID {_ _}.

(** ** Snow instances and their votes *)
Section spec.
Context {NodeID : Type} `{Countable NodeID, !KeyOrder ID, !BlockTraversal ID, !Heights ID} (fuel : nat).
Implicit Types (p : earlyTermPoll NodeID) (vs : Bag.Bag ID).

(** The instance of a block, and that of the first [i > 0] bits of [x] among the
    children of [parent]. *)
Inductive instance :=
  | Block (id : ID)
  | Prefix (parent x : ID) (i : Z).

(** A vote for [y] is a vote for the instance. *)
Definition supports (inst : instance) (y : ID) : Prop :=
  match inst with
  | Block id => id ∈ ancestors y
  | Prefix parent x i => Exists (fun c => GetParent c = Some parent /\ agree 0 i x c) (ancestors y)
  end.

#[export] Instance supports_dec inst y : Decision (supports inst y).
Proof. destruct inst; cbn; apply _. Defined.

Definition valid (inst : instance) : Prop :=
  match inst with Block _ => True | Prefix _ _ i => 0 < i end.

Definition instance_votes vs (inst : instance) : Z :=
  wsum (supports inst) (map_to_list (Bag.counts vs)).

(** What the theorems assume of the votes: the blocks voted for are known by
    their 32 bytes and are not too high above the last accepted block. *)
Record known vs : Prop := {
  kn_wf : Bag.wf vs;
  kn_height x : x ∈ dom (Bag.counts vs) -> (height x < fuel)%nat;
  kn_ids x : voted vs x -> wf_id x;
}.

Lemma wsum_sum_children (Q : ID -> ID -> Prop) `{forall c x, Decision (Q c x)} (P : ID -> Prop)
    `{forall x, Decision (P x)} (cs : list ID) (l : list (ID * Z)) :
  NoDup cs -> (forall x, x ∈ l.*1 -> P x <-> exists c, c ∈ cs /\ Q c x) ->
  (forall x c1 c2, x ∈ l.*1 -> c1 ∈ cs -> c2 ∈ cs -> Q c1 x -> Q c2 x -> c1 = c2) ->
  foldl (fun a c => a + wsum (Q c) l) 0 cs = wsum P l.
Proof.
  intros Hd.
  enough (forall P `{forall x, Decision (P x)} a, (forall x, x ∈ l.*1 -> P x <-> exists c, c ∈ cs /\ Q c x) ->
    (forall x c1 c2, x ∈ l.*1 -> c1 ∈ cs -> c2 ∈ cs -> Q c1 x -> Q c2 x -> c1 = c2) ->
    foldl (fun a c => a + wsum (Q c) l) a cs = a + wsum P l) as Hg by (intros HPQ Hu; by rewrite (Hg P _ 0 HPQ Hu)).
  clear P H1. induction Hd as [|c cs Hc Hd IH]; intros P HP a HPQ Hu; cbn [foldl].
  - rewrite (wsum_ext P (fun _ => False)).
    + enough (wsum (fun _ => False) l = 0) by lia. clear. unfold wsum. by induction l as [|[x c] l IH].
    + intros x Hx. rewrite HPQ by done. split; [|done]. intros (c & Hc & _). by apply not_elem_of_nil in Hc.
  - rewrite (IH (fun x => Exists (fun c => Q c x) cs) _).
    + rewrite (wsum_split P (Q c) (fun x => Exists (fun c => Q c x) cs)); [lia|].
      intros x Hx. rewrite HPQ, Exists_exists by done. split.
      * split; [intros (d & [->|Hd']%elem_of_cons & Hq); eauto|].
        intros [Hq|(d & Hd' & Hq)]; [exists c; split; [by left|done]|exists d; split; [by right|done]].
      * intros [Hq (d & Hd' & Hq')]. apply Hc. by rewrite (Hu x c d) by (done || by left || by right).
    + intros x _. by rewrite Exists_exists.
    + intros x c1 c2 Hx H1 H2. apply Hu; [done|by right..].
Qed.
Lemma instance_Block vs id : instance_votes vs (Block id) = transitive_votes vs id.
Proof. by apply wsum_ext. Qed.

Lemma wsum_pos P `{forall x, Decision (P x)} (l : list (ID * Z)) x c :
  Forall (fun xc => 0 <= xc.2) l -> (x, c) ∈ l -> P x -> 0 < c -> 0 < wsum P l.
Proof.
  unfold wsum. induction 1 as [|[y d] l Hy Hl IH]; [by intros ?%not_elem_of_nil|].
  cbn in *. intros [[= <- <-]|Hin]%elem_of_cons HP Hc.
  - rewrite decide_True by done. pose proof (wsum_nonneg P l Hl) as Hn. unfold wsum in Hn. lia.
  - specialize (IH Hin HP Hc). case_decide; lia.
Qed.

Lemma voted_pos vs a : Bag.wf vs -> voted vs a -> 0 < transitive_votes vs a.
Proof.
  intros Hw (x & Hx & Ha). apply elem_of_dom in Hx as [c Hc].
  apply (wsum_pos _ _ x c); [by apply counts_nonneg|by apply elem_of_map_to_list|done|].
  apply (Bag.wf_pos _ Hw _ _ Hc).
Qed.

Lemma instance_nonneg vs inst : Bag.wf vs -> 0 <= instance_votes vs inst.
Proof. intros Hw. by apply wsum_nonneg, counts_nonneg. Qed.

Section counts.
Context (vs : Bag.Bag ID) (Hk : known vs) (g : voteGraph (ID := ID)) (Hg : forest vs g).
Context (closure : Bag.Bag ID) (Hcw : Bag.wf closure).
Context (Hcl : forall a, Bag.Count closure a = transitive_votes vs a).

(** The children of [v] that were voted for and share [i] bits with [x]. *)
Definition rivals (v x : ID) (i : Z) : list ID := sharing i x (deduplicate (descendants_of g v)).

Lemma elem_of_rivals v x i c : c ∈ rivals v x i <-> agree 0 i x c /\ voted vs c /\ GetParent c = Some v.
Proof.
  unfold rivals. rewrite elem_of_sharing. destruct (deduplicate_spec (descendants_of g v)) as [_ ->].
  rewrite (fo_child _ _ Hg), !(fo_dom _ _ Hg). split; [tauto|]. intros (? & Hc & Hp).
  split; [done|]. split; [by apply (voted_closed _ c)|done].
Qed.

Lemma rivals_nodup v x i : NoDup (rivals v x i).
Proof. unfold rivals. apply NoDup_filter. by destruct (deduplicate_spec (descendants_of g v)). Qed.

(** The votes of the rivals add up to those of the instance of their prefix. *)
Lemma sum_rivals v x i : sumVotesFromIDs (rivals v x i) closure = instance_votes vs (Prefix v x i).
Proof.
  unfold sumVotesFromIDs.
  transitivity (foldl (fun a c => a + wsum (fun y => c ∈ ancestors y) (map_to_list (Bag.counts vs))) 0 (rivals v x i)).
  { generalize 0. induction (rivals v x i) as [|c l IH]; intros a; cbn; [done|]. by rewrite IH, Hcl. }
  apply (wsum_sum_children (fun c y => c ∈ ancestors y)).
  - apply rivals_nodup.
  - intros y Hy. cbn. rewrite Exists_exists. split.
    + intros (c & Hc & Hp & Ha). exists c. split; [|done]. apply elem_of_rivals. split; [done|]. split; [|done].
      exists y. split; [by apply List_elem|done].
    + intros (c & (Ha & _ & Hp)%elem_of_rivals & Hc). by exists c.
  - intros y c1 c2 _ (_ & _ & H1)%elem_of_rivals (_ & _ & H2)%elem_of_rivals Hc1 Hc2.
    by apply (chain_child_unique v y).
Qed.

Lemma sum_pos l : (forall c, c ∈ l -> voted vs c) -> (1 <= length l)%nat -> 0 < sumVotesFromIDs l closure.
Proof.
  unfold sumVotesFromIDs. intros Hv Hl.
  enough (forall a, (forall c, c ∈ l -> voted vs c) -> 0 <= a -> 0 < a \/ (1 <= length l)%nat ->
    0 < foldl (fun count id => count + Bag.Count closure id) a l) as Hs by (apply Hs; [done|done|by right]).
  clear Hv Hl. induction l as [|c l IH]; intros a Hv Ha Hl; cbn in *; [lia|].
  pose proof (voted_pos vs c (kn_wf _ Hk) (Hv c ltac:(by left))) as Hc. rewrite <- Hcl in Hc.
  apply IH; [intros; apply Hv; by right|lia|left; lia].
Qed.

(** The groups of the descendants of [v]. *)
Definition groups_of (v : ID) : list (list ID) :=
  match longestSharedPrefixes (descendantIDsOfVertex g v) with
  | Ok pgs => match bifurcationsWithCommonPrefix pgs (fun acc ids => acc ++ [ids]) [] with Ok gs => gs | Err _ => [] end
  | Err _ => []
  end.

Lemma descendants_wf v : Forall wf_id (descendants_of g v).
Proof.
  apply Forall_forall. intros c Hc. apply (fo_child _ _ Hg) in Hc as (_ & Hc & _).
  by apply (kn_ids _ Hk), (fo_dom _ _ Hg).
Qed.

Lemma groups_of_spec v : (exists pgs, longestSharedPrefixes (descendantIDsOfVertex g v) = Ok pgs /\
    forall A (f : A -> list ID -> A) acc, bifurcationsWithCommonPrefix pgs f acc = Ok (foldl f acc (groups_of v))) /\
  forall M, M ∈ groups_of v <-> exists x i, x ∈ descendants_of g v /\ 0 < i /\ M = rivals v x i /\ (2 <= length M)%nat.
Proof.
  unfold groups_of. destruct (prefix_groups_spec _ (descendants_wf v)) as (pgs & gs & Hl & Hb & HM).
  unfold descendantIDsOfVertex. rewrite Hl, Hb.
  assert (foldl (fun acc ids => acc ++ [ids]) [] gs = gs) as Hgs.
  { clear. enough (forall acc, foldl (fun acc ids => acc ++ [ids]) acc gs = acc ++ gs) by auto.
    induction gs as [|M gs IH]; intros acc; cbn; [by rewrite app_nil_r|]. by rewrite IH, <- app_assoc. }
  rewrite Hgs. split; [|done]. by exists pgs.
Qed.

Lemma prefix_counts_spec : exists cs, computeTransitiveVotesForPrefixes fuel g closure = Ok cs /\
  forall c, c ∈ cs <-> exists v M, v ∈ dom (vertices g) /\ M ∈ groups_of v /\ c = sumVotesFromIDs M closure.
Proof.
  unfold computeTransitiveVotesForPrefixes.
  destruct (traverse_spec fuel vs g (fun acc v => foldl (fun acc ids => acc ++ [sumVotesFromIDs ids closure]) acc (groups_of v))
    (fun acc v => pgs ← longestSharedPrefixes (descendantIDsOfVertex g v);
       bifurcationsWithCommonPrefix pgs (fun acc ids => acc ++ [sumVotesFromIDs ids closure]) acc) [] Hg (kn_height _ Hk))
    as (order & Hin & Ht).
  { intros acc v _. destruct (groups_of_spec v) as [(pgs & -> & Hb) _]. apply Hb. }
  eexists. split; [exact Ht|]. intros c. setoid_rewrite <- Hin. clear Ht Hin.
  enough (forall acc, c ∈ foldl (fun acc v => foldl (fun acc ids => acc ++ [sumVotesFromIDs ids closure]) acc (groups_of v)) acc order <->
    c ∈ acc \/ exists v M, v ∈ order /\ M ∈ groups_of v /\ c = sumVotesFromIDs M closure) as Hc.
  { rewrite Hc. split; [intros [Hn|]; [by apply not_elem_of_nil in Hn|done]|by right]. }
  assert (forall gs acc, c ∈ foldl (fun acc ids => acc ++ [sumVotesFromIDs ids closure]) acc gs <->
    c ∈ acc \/ exists M, M ∈ gs /\ c = sumVotesFromIDs M closure) as Hi.
  { induction gs as [|M gs IH]; intros acc; cbn; [set_solver|]. rewrite IH. set_solver. }
  induction order as [|v order IH]; intros acc; cbn; [set_solver|]. rewrite IH, Hi. set_solver.
Qed.

Lemma aggregate_elem cs c : c ∈ aggregateVotesFromPrefixesAndIDs cs closure <->
  (exists id, id ∈ dom (Bag.counts closure) /\ c = Bag.Count closure id) \/ c ∈ cs.
Proof.
  unfold aggregateVotesFromPrefixesAndIDs. rewrite elem_of_app. setoid_rewrite <- List_elem.
  enough (forall l acc, c ∈ foldl (fun counts id => counts ++ [Bag.Count closure id]) acc l <->
    c ∈ acc \/ exists id, id ∈ l /\ c = Bag.Count closure id) as -> by set_solver.
  induction l as [|id l IH]; intros acc; cbn; [set_solver|]. rewrite IH. set_solver.
Qed.

Lemma closure_dom id : id ∈ dom (Bag.counts closure) <-> 0 < Bag.Count closure id.
Proof.
  unfold Bag.Count. rewrite elem_of_dom. destruct (Bag.counts closure !! id) as [c|] eqn:Hc; cbn.
  - split; [intros _; apply (Bag.wf_pos _ Hcw _ _ Hc)|eauto].
  - split; [by intros [? ?]|lia].
Qed.

(** The counts that are inspected are those of the instances with votes. *)
Lemma counts_spec : exists cs, computeTransitiveVotesForPrefixes fuel g closure = Ok cs /\
  forall c, c ∈ aggregateVotesFromPrefixesAndIDs cs closure <->
    exists inst, valid inst /\ 0 < instance_votes vs inst /\ c = instance_votes vs inst.
Proof.
  destruct prefix_counts_spec as (cs & Hcs & Hc). exists cs. split; [done|].
  assert (forall id, 0 < instance_votes vs (Block id) -> instance_votes vs (Block id) ∈ aggregateVotesFromPrefixesAndIDs cs closure) as Hblock.
  { intros id Hid. rewrite instance_Block, <- Hcl in *. apply aggregate_elem. left. exists id.
    split; [by apply closure_dom|done]. }
  intros c. split.
  - intros [(id & Hid & ->)|(v & M & Hv & HM & ->)%Hc]%aggregate_elem.
    + apply closure_dom in Hid. exists (Block id). by rewrite instance_Block, <- Hcl.
    + apply groups_of_spec in HM as (x & i & Hx & Hi & -> & Hl). exists (Prefix v x i).
      split; [done|]. split; [|apply sum_rivals]. rewrite <- sum_rivals. apply sum_pos; [|lia].
      by intros d (_ & ? & _)%elem_of_rivals.
  - intros ([id|v x i] & Hval & Hpos & ->); [by apply Hblock|]. cbn in Hval.
    rewrite <- sum_rivals in *. destruct (rivals v x i) as [|d [|d' l]] eqn:Hr; [cbn in Hpos; lia| |].
    + unfold sumVotesFromIDs in *. cbn in *. rewrite Hcl, <- instance_Block in *. by apply Hblock.
    + apply aggregate_elem. right. apply Hc. exists v, (rivals v x i). rewrite Hr.
      assert (d ∈ rivals v x i) as Hd by (rewrite Hr; by left). pose proof Hd as (Ha & Hvd & Hp)%elem_of_rivals.
      assert (d ∈ descendants_of g v) as Hdd.
      { apply (fo_child _ _ Hg). rewrite !(fo_dom _ _ Hg). split; [by apply (voted_closed _ d)|done]. }
      split; [by apply (fo_child _ _ Hg) in Hdd as [? _]|]. split; [|done]. rewrite <- Hr.
      apply groups_of_spec. exists d, i. split; [done|]. split; [done|]. split; [|rewrite Hr; cbn; lia].
      apply filter_ext_in. intros y _. split; intros Hy.
      * by apply (agree_trans 0 i d x y); [apply agree_sym|].
      * by apply (agree_trans 0 i x d y).
Qed.
End counts.

(** ** [Finished] *)
Lemma cantImprove_spec p remaining cs acc :
  cantImprove p remaining acc cs = acc && forallb (fun c => shouldTerminate p c remaining) cs.
Proof.
  revert acc. induction cs as [|c cs IH]; intros acc; cbn; [by rewrite andb_true_r|].
  destruct (acc && shouldTerminate p c remaining) eqn:E; cbn; rewrite ?IH.
  - apply andb_true_iff in E as [-> ->]. done.
  - rewrite andb_assoc, E. done.
Qed.

(** What [Finished] decides. *)
Definition over p : Prop :=
  finished p = true \/ Bag.Len (polled p) = 0 \/
  Bag.Len (votes p) + Bag.Len (polled p) < alphaPreference p \/
  (exists inst, valid inst /\ 0 < instance_votes (votes p) inst) /\
  forall inst, valid inst -> 0 < instance_votes (votes p) inst ->
    shouldTerminate p (instance_votes (votes p) inst) (Bag.Len (polled p)) = true.

Lemma Finished_spec p : known (votes p) ->
  exists b : bool, Finished fuel p = Ok (if b then set_finished p else p, b) /\ (b = true <-> over p).
Proof.
  intros Hk. unfold Finished, over. destruct (finished p) eqn:Hf.
  { exists true. split; [|tauto]. destruct p. cbn in *. by subst. }
  destruct (Z.eqb_spec (Bag.Len (polled p)) 0); [exists true; tauto|].
  destruct (Z.ltb_spec (Bag.Len (votes p) + Bag.Len (polled p)) (alphaPreference p)); [exists true; tauto|].
  destruct (transitive_votes_spec fuel (votes p) (kn_wf _ Hk) (kn_height _ Hk)) as (g & closure & -> & Hg & Hc & Hcw & Hcl).
  cbn [mbind result_bind]. rewrite Hc. cbn [mbind result_bind].
  destruct (counts_spec (votes p) Hk g Hg closure Hcw Hcl) as (cs & -> & Hcs). cbn [mbind result_bind].
  rewrite cantImprove_spec. set (counts := aggregateVotesFromPrefixesAndIDs cs closure) in *.
  assert ((0 <? Z.of_nat (length counts)) && forallb (fun c => shouldTerminate p c (Bag.Len (polled p))) counts = true <->
    (exists inst, valid inst /\ 0 < instance_votes (votes p) inst) /\
    forall inst, valid inst -> 0 < instance_votes (votes p) inst ->
      shouldTerminate p (instance_votes (votes p) inst) (Bag.Len (polled p)) = true) as Hiff.
  { rewrite andb_true_iff, Z.ltb_lt, forallb_forall. setoid_rewrite <- list_elem_of_In.
    setoid_rewrite Hcs. split.
    - intros [Hl Hall]. split; [|intros inst ??; apply Hall; eauto].
      destruct counts as [|c l]; [cbn in Hl; lia|].
      destruct (proj1 (Hcs c) ltac:(by left)) as (inst & ? & ? & _). eauto.
    - intros [(inst & Hv & Hp) Hall]. split; [|intros c (inst' & ? & ? & ->); by apply Hall].
      assert (instance_votes (votes p) inst ∈ counts) as Hin by (apply Hcs; eauto).
      destruct counts; [by apply not_elem_of_nil in Hin|cbn; lia]. }
  destruct (_ && _) eqn:E; [exists true|exists false]; (split; [done|]); rewrite <- Hiff; intuition (congruence || lia).
Qed.
(** ** Further responses *)
Inductive responses : earlyTermPoll NodeID -> earlyTermPoll NodeID -> Prop :=
  | responses_done p : responses p p
  | responses_Vote vdr vote p p' : responses (Vote vdr vote p) p' -> responses p p'
  | responses_Drop vdr p p' : responses (Drop vdr p) p' -> responses p p'.

Lemma wsum_perm P `{forall x, Decision (P x)} (l1 l2 : list (ID * Z)) : l1 ≡ₚ l2 -> wsum P l1 = wsum P l2.
Proof. unfold wsum. induction 1; cbn in *; lia. Qed.

Lemma wsum_insert P `{forall x, Decision (P x)} (m : gmap ID Z) x c :
  wsum P (map_to_list (<[x := c]> m)) =
    wsum P (map_to_list m) + if decide (P x) then c - default 0 (m !! x) else 0.
Proof.
  assert (forall m c, m !! x = None -> wsum P (map_to_list (<[x := c]> m)) =
    (if decide (P x) then c else 0) + wsum P (map_to_list m)) as Hnew.
  { intros m' c' Hx. rewrite (wsum_perm P _ _ (map_to_list_insert m' x c' Hx)). done. }
  destruct (m !! x) as [d|] eqn:Hx; cbn.
  - rewrite <- (insert_delete_eq m x c). rewrite <- (insert_id m x d Hx) at 2.
    rewrite <- (insert_delete_eq m x d). rewrite !Hnew by apply lookup_delete_eq. case_decide; lia.
  - rewrite Hnew by done. case_decide; lia.
Qed.

Lemma instance_AddCount vs x c inst : 0 <= c ->
  instance_votes (Bag.AddCount vs x c) inst =
    instance_votes vs inst + if decide (supports inst x) then c else 0.
Proof.
  intros Hc. unfold instance_votes, Bag.AddCount. destruct (Z.leb_spec c 0).
  - case_decide; lia.
  - cbn. rewrite wsum_insert. case_decide; lia.
Qed.

(** The bags of the poll are well formed. *)
Definition poll_wf p : Prop := Bag.wf (votes p) /\ Bag.wf (polled p).

(** An instance gains at most the votes that were outstanding. *)
Lemma responses_bounds p p' inst : responses p p' -> poll_wf p ->
  alphaPreference p' = alphaPreference p /\ alphaConfidence p' = alphaConfidence p /\
  instance_votes (votes p) inst <= instance_votes (votes p') inst /\
  instance_votes (votes p') inst + Bag.Len (polled p') <= instance_votes (votes p) inst + Bag.Len (polled p) /\
  0 <= Bag.Len (polled p').
Proof.
  assert (forall p vdr, poll_wf p -> 0 <= Bag.Count (polled p) vdr /\ Bag.wf (Bag.Remove (polled p) vdr) /\
    Bag.Len (Bag.Remove (polled p) vdr) = Bag.Len (polled p) - Bag.Count (polled p) vdr) as Hrem.
  { intros q vdr [_ Hw]. split; [by apply Bag.wf_count_nonneg|]. split; [by apply Bag.Remove_wf|done]. }
  induction 1 as [p|vdr vote p p' _ IH|vdr p p' _ IH]; intros Hw.
  - repeat split; try lia. destruct Hw as [_ [Hp Hs]]. unfold Bag.Len. rewrite Hs. apply msum_nonneg.
    intros k c Hc. specialize (Hp k c Hc). cbn in Hp. lia.
  - destruct (Hrem p vdr Hw) as (Hc & Hwr & Hl). destruct IH as (-> & -> & Hlo & Hhi & Hn).
    { split; [by apply Bag.AddCount_wf, Hw|done]. }
    cbn [votes polled Vote] in Hlo, Hhi. rewrite instance_AddCount in Hlo, Hhi by done.
    repeat split; try done; case_decide; lia.
  - destruct (Hrem p vdr Hw) as (Hc & Hwr & Hl). destruct IH as (-> & -> & Hlo & Hhi & Hn).
    { split; [apply Hw|done]. }
    cbn [votes polled Drop] in Hlo, Hhi. repeat split; try done; lia.
Qed.

Lemma instance_le_received vs inst : Bag.wf vs -> instance_votes vs inst <= Bag.Len vs.
Proof.
  intros [Hp Hs]. unfold Bag.Len. rewrite Hs. unfold instance_votes.
  assert (map_Forall (fun _ c => 0 <= c) (Bag.counts vs)) as Hn by (intros k c Hc; specialize (Hp k c Hc); cbn in Hp; lia).
  revert Hn. clear Hp Hs. generalize (Bag.counts vs). intros m.
  induction m as [|x c m Hx IH] using map_ind; intros Hn.
  { by rewrite map_to_list_empty. }
  apply map_Forall_insert in Hn as [Hc Hn]; [|done]. rewrite wsum_insert, msum_insert_None, Hx by done. cbn.
  specialize (IH Hn). case_decide; lia.
Qed.

(** ** The properties *)

(** [Finished] does not panic and decides exactly this: the poll was already
    over, or no votes are outstanding, or the preference threshold is out of
    reach, or some vote was received and no snow instance with a vote, of a block
    or of a non-empty prefix of competing blocks, can improve. *)
Theorem early_termination_exact p : known (votes p) ->
  exists b : bool, Finished fuel p = Ok (if b then set_finished p else p, b) /\ (b = true <-> over p).
Proof. apply Finished_spec. Qed.

(** C6: ending a poll early is harmless: whatever the outstanding validators would
    still respond, no snow instance gains or loses the preference threshold or
    the confidence threshold. *)
Theorem early_termination_harmless p p' p'' inst :
  known (votes p) -> poll_wf p -> finished p = false ->
  alphaPreference p <= alphaConfidence p ->
  Bag.Len (votes p) + Bag.Len (polled p) < 2 * alphaPreference p ->
  Finished fuel p = Ok (p', true) -> responses p p'' -> valid inst ->
  (alphaPreference p <= instance_votes (votes p'') inst <-> alphaPreference p <= instance_votes (votes p) inst) /\
  (alphaConfidence p <= instance_votes (votes p'') inst <-> alphaConfidence p <= instance_votes (votes p) inst).
Proof.
  intros Hk Hw Hf Ha Hk2 HF Hr Hv. destruct (Finished_spec p Hk) as (b & HF' & Hb).
  rewrite HF' in HF. injection HF as _ ->. destruct Hb as [Hb _]. specialize (Hb eq_refl).
  destruct (responses_bounds p p'' inst Hr Hw) as (_ & _ & Hlo & Hhi & Hn).
  pose proof (instance_le_received (votes p) inst (kn_wf _ Hk)) as Hle.
  pose proof (instance_nonneg (votes p) inst (kn_wf _ Hk)) as H0.
  destruct Hb as [Hb|[Hb|[Hb|[(inst' & Hv' & Hp') Hall]]]]; [congruence|lia|lia|].
  assert (Bag.Len (polled p) < alphaPreference p) as Hrem.
  { specialize (Hall inst' Hv' Hp'). pose proof (instance_le_received (votes p) inst' (kn_wf _ Hk)).
    unfold shouldTerminate in Hall. rewrite !orb_true_iff, andb_true_iff, !Z.ltb_lt, !Z.leb_le in Hall. lia. }
  destruct (Z.lt_ge_cases 0 (instance_votes (votes p) inst)) as [Hp|Hz]; [|lia].
  specialize (Hall inst Hv Hp). unfold shouldTerminate in Hall.
  rewrite !orb_true_iff, andb_true_iff, !Z.ltb_lt, !Z.leb_le in Hall. lia.
Qed.
End spec.

(** ** The early-termination poll as a poll of the set of polls *)
Section instance_of_Poll.
Context {NodeID : Type} `{Countable NodeID, !KeyOrder ID, !BlockTraversal ID} (fuel : nat).
Context (aP aC : Z).

(** By [early_termination_exact] the last case does not arise. *)
Definition finished_or_same (p : earlyTermPoll NodeID) : earlyTermPoll NodeID * bool :=
  match Finished fuel p with Ok r => r | Err _ => (p, false) end.

#[export] Instance early_poll : PollSet.Poll (earlyTermPoll NodeID) (Bag.Bag NodeID) NodeID ID (Bag.Bag ID) := {|
  PollSet.poll_New := New aP aC;
  PollSet.poll_Vote := Vote;
  PollSet.poll_Drop := Drop;
  PollSet.poll_Finished := finished_or_same;
  PollSet.poll_Result := Result;
|}.

Lemma Finished_cases (p p' : earlyTermPoll NodeID) b : Finished fuel p = Ok (p', b) ->
  (b = true /\ finished p' = true) \/ (b = false /\ p' = p).
Proof.
  unfold Finished. destruct (finished p) eqn:Hf; [by intros [= <- <-]; left|].
  case_match; [by intros [= <- <-]; left|]. case_match; [by intros [= <- <-]; left|].
  rewrite !bind_ok. intros (g & _ & Hb). apply bind_ok in Hb as (tv & _ & Hb).
  apply bind_ok in Hb as (cs & _ & Hb). case_match; injection Hb as <- <-; [by left|by right].
Qed.

(** What [PollSet.no_result_withheld] asks of a poll. *)
Lemma early_poll_stable (p : earlyTermPoll NodeID) :
  (PollSet.poll_Finished (PollSet.poll_Finished p).1).2 = (PollSet.poll_Finished p).2.
Proof.
  cbn. unfold finished_or_same at 2 3. destruct (Finished fuel p) as [[p' b]|e] eqn:HF; cbn.
  - destruct (Finished_cases _ _ _ HF) as [[-> Hf]|[-> ->]]; unfold finished_or_same.
    + unfold Finished. by rewrite Hf.
    + by rewrite HF.
  - unfold finished_or_same. by rewrite HF.
Qed.

Lemma early_poll_unfinished (vdrs : Bag.Bag NodeID) : 0 < aP <= Bag.Len vdrs ->
  (PollSet.poll_Finished (PollSet.poll_New vdrs)).2 = false.
Proof.
  intros Hk. cbn. unfold finished_or_same, Finished, New.
  cbn [finished polled votes alphaPreference alphaConfidence].
  destruct (Z.eqb_spec (Bag.Len vdrs) 0); [lia|]. change (Bag.Len Bag.empty) with 0.
  destruct (Z.ltb_spec (0 + Bag.Len vdrs) aP); [lia|].
  replace (buildVoteGraph fuel Bag.empty) with (Ok (E := PollErr) (mkGraph (ID := ID) ∅ 0 [] []));
    [done|].
  unfold buildVoteGraph, findLeaves, entries. change (Bag.List (T := ID) Bag.empty) with (@nil ID). cbn.
  unfold mbind, M_bind, get, mret, M_ret. cbn. rewrite dom_empty_L.
  assert (keys (∅ : gset ID) = []) as Hkeys.
  { apply elem_of_nil_inv. intros x Hx%elem_of_keys. set_solver. }
  rewrite Hkeys. cbn. rewrite dom_empty_L, Hkeys. done.
Qed.
End instance_of_Poll.

(** ** A concrete poll: three of five votes are for block 1, a child of block 0. *)
#[local] Instance star_parents : BlockTraversal ID := fun x => if decide (x = id_of 0) then None else Some (id_of 0).
#[local] Instance star_order : KeyOrder ID := elements_order.
#[local] Instance star_heights : Heights ID.
Proof.
  refine {| height x := if decide (x = id_of 0) then 0%nat else 1%nat |}.
  intros x p. unfold GetParent, star_parents. case_decide; [done|]. intros [= <-]. rewrite decide_True by done. lia.
Defined.

Definition poll0 : earlyTermPoll Z := New 3 3 (Bag.Of [1; 2; 3; 4; 5]).
Definition poll3 : earlyTermPoll Z := Vote 3 (id_of 1) (Vote 2 (id_of 1) (Vote 1 (id_of 1) poll0)).
Definition poll5 : earlyTermPoll Z := Vote 5 (id_of 2) (Vote 4 (id_of 2) poll3).

Lemma poll3_known : known 2 (votes poll3).
Proof.
  assert (dom (Bag.counts (votes poll3)) = {[id_of 1]}) as Hd by by vm_compute.
  split.
  - by repeat apply Bag.AddCount_wf; apply Bag.empty_wf.
  - intros x _. unfold height, star_heights. case_decide; lia.
  - intros x (y & Hy & Hx). rewrite Hd in Hy. apply elem_of_singleton in Hy as ->.
    rewrite !ancestors_unfold in Hx. cbn in Hx.
    apply elem_of_cons in Hx as [->|Hx]; [by apply id_of_wf; unfold is_uint; lia|].
    apply list_elem_of_singleton in Hx as ->. by apply id_of_wf; unfold is_uint; lia.
Qed.

Lemma early_termination_exact_witness : exists b : bool,
  Finished 2 poll3 = Ok (if b then set_finished poll3 else poll3, b) /\ (b = true <-> over poll3).
Proof. exact (early_termination_exact 2 poll3 poll3_known). Defined.

Lemma early_termination_harmless_witness :
  3 <= instance_votes (votes poll5) (Block (id_of 1)) <-> 3 <= instance_votes (votes poll3) (Block (id_of 1)).
Proof.
  apply (early_termination_harmless 2 poll3 (set_finished poll3) poll5 (Block (id_of 1)) poll3_known).
  - split; [apply poll3_known|]. cbn. do 3 apply Bag.Remove_wf.
    by repeat apply Bag.AddCount_wf; apply Bag.empty_wf.
  - done.
  - done.
  - by vm_compute.
  - by vm_compute.
  - apply (responses_Vote 4 (id_of 2)), (responses_Vote 5 (id_of 2)), responses_done.
  - done.
Defined.
End EarlyTerm.
