(* ===== verification/EarlyTermSnowman.v ===== *)
(** * Early termination over the block tree of consensus

    The early-termination polls ask consensus for the parents of blocks
    ([Topological.GetParent]).  The block tree that [Topological] keeps meets what
    [VoteGraph] and [EarlyTerm] assume of it: parents are lower than their
    children, by the heights of the blocks. *)

From S2P Require Import Prelude Monads MapOrder Bits Bag Snowball Consensus Topological SnowmanWf VoteGraph.

Module EarlyTermSnowman.
Import Bits.Bits Consensus.Consensus Topological.Topological SnowmanWf.SnowmanWf.

Section consensus.
Context {T E : Type} `{L : ConsensusLaws T} `{R : Runtime T}.
Context (ts : Topological T) (W : WF ts).

(** The parent of the last accepted block is not processing. *)
Context (Hroot : forall n b, blocks ts !! lastAcceptedID ts = Some n -> blk n = Some b -> blocks ts !! Parent b = None).

#[local] Instance consensus_traversal : VoteGraph.BlockTraversal ID := GetParent ts.

Definition tree_height (x : ID) : nat :=
  match blocks ts !! x with
  | Some _ => S (Z.to_nat (height ts x - lastAcceptedHeight ts))
  | None => O
  end.

#[local] Instance consensus_heights : VoteGraph.Heights ID.
Proof.
  refine {| VoteGraph.height := tree_height |}.
  intros x p. unfold VoteGraph.GetParent, consensus_traversal, GetParent, tree_height.
  destruct (blocks ts !! x) as [n|] eqn:Hn; [|done]. destruct (blk n) as [b|] eqn:Hb; [|done]. intros [= <-].
  destruct (decide (x = lastAcceptedID ts)) as [->|Hx].
  - rewrite (Hroot n b Hn Hb). lia.
  - destruct (wf_blk ts W x n Hn Hx) as (b' & Hb' & _ & [np Hp] & Hh & Hl).
    rewrite Hb in Hb'. injection Hb' as <-. rewrite Hp.
    assert (height ts x = Height b) as -> by (unfold height; by rewrite Hn, Hb).
    destruct (decide (Parent b = lastAcceptedID ts)) as [Heq|Hne].
    + rewrite Heq in *. rewrite (wf_height_root ts W) in *. lia.
    + pose proof (wf_height ts (Parent b) W Hne ltac:(by eexists)). lia.
Defined.
End consensus.
End EarlyTermSnowman.
