(* ===== verification/Validators.v ===== *)
(** * Validator sets

    Models [avalanchego/snow/validators/set.go] and [manager.go]: the validators
    of a subnet, kept in a map and, for the sampler, in two slices, with the
    notices to the registered listeners; and the manager that holds the set of
    each subnet.  The map and the slice hold the same pointers, so the validators
    live in an explicit store.  The sampler is an interface of the program
    ([utils/sampler]) and a class here.  The locks make each method one step. *)

From S2P Require Import Prelude Monads SafeMath MapOrder.

Module Validators.

Section set.
Context {NodeID SubnetID PublicKey TxID Listener Sampler : Type}.
Context `{Countable SubnetID, Countable NodeID, EqDecision Listener}.

Abbreviation ref := positive.

Record Validator := mkValidator {
  NodeID_ : NodeID;
  PublicKey_ : PublicKey;
  TxID_ : TxID;
  Weight : Z;
  index : nat;
}.

(** The calls of a listener; those to a manager's listener name the subnet. *)
Inductive Event :=
  | OnValidatorAdded (nodeID : NodeID) (pk : PublicKey) (txID : TxID) (weight : Z)
  | OnValidatorRemoved (nodeID : NodeID) (weight : Z)
  | OnValidatorWeightChanged (nodeID : NodeID) (oldWeight newWeight : Z).

Inductive Notice :=
  | ManagerNotice (l : Listener) (subnetID : SubnetID) (e : Event)
  | SetNotice (l : Listener) (e : Event).

(** [WeightedWithoutReplacement]: [None] is an error of the initialisation. *)
Class WeightedWithoutReplacement := {
  InitializeWithAdjustedWeights : list Z -> Sampler -> option Sampler;
  SampleIndices : nat -> Sampler -> Sampler * option (list nat);
  NewSampler : Sampler;
}.

Inductive VdrErr :=
  | errDuplicateValidator
  | errMissingValidator
  | errInsufficientWeight
  | ErrMath (e : SafeMath.MathError)
  | ErrSampler
  | ErrZeroWeight
  | ErrMissingValidators
  | Panic.

Record vdrSet := mkSet {
  subnetID : SubnetID;
  heap : gmap ref Validator;
  vdrs : gmap NodeID ref;
  vdrSlice : list ref;
  weights : list Z;
  totalWeight : Z;
  samplerInitialized : bool;
  sampler : Sampler;
  managerCallbackListeners : list Listener;
  setCallbackListeners : list Listener;
}.

(** The set and the notices sent so far. *)
Abbreviation VM := (M (vdrSet * list Notice) VdrErr).

Definition newSet `{WeightedWithoutReplacement} (subnetID : SubnetID) (callbackListeners : list Listener) : vdrSet :=
  mkSet subnetID ∅ ∅ [] [] 0 false NewSampler callbackListeners [].

(** *** Fields *)
Definition get_set : VM vdrSet := s ← get; mret s.1.
Definition on_set (f : vdrSet -> vdrSet) : VM unit := modify (fun s => (f s.1, s.2)).
Definition notify (ns : list Notice) : VM unit := modify (fun s => (s.1, s.2 ++ ns)).

Definition set_heap (f : gmap ref Validator -> gmap ref Validator) : VM unit := on_set (fun s =>
  mkSet (subnetID s) (f (heap s)) (vdrs s) (vdrSlice s) (weights s) (totalWeight s)
    (samplerInitialized s) (sampler s) (managerCallbackListeners s) (setCallbackListeners s)).
Definition set_vdrs (f : gmap NodeID ref -> gmap NodeID ref) : VM unit := on_set (fun s =>
  mkSet (subnetID s) (heap s) (f (vdrs s)) (vdrSlice s) (weights s) (totalWeight s)
    (samplerInitialized s) (sampler s) (managerCallbackListeners s) (setCallbackListeners s)).
Definition set_slices (f : list ref -> list ref) (g : list Z -> list Z) : VM unit := on_set (fun s =>
  mkSet (subnetID s) (heap s) (vdrs s) (f (vdrSlice s)) (g (weights s)) (totalWeight s)
    (samplerInitialized s) (sampler s) (managerCallbackListeners s) (setCallbackListeners s)).
(** [s.totalWeight] changes by [d] and the sampler is out of date. *)
Definition add_total (d : Z) : VM unit := on_set (fun s =>
  mkSet (subnetID s) (heap s) (vdrs s) (vdrSlice s) (weights s) (totalWeight s + d)
    false (sampler s) (managerCallbackListeners s) (setCallbackListeners s)).
Definition set_sampler (b : bool) (sm : Sampler) : VM unit := on_set (fun s =>
  mkSet (subnetID s) (heap s) (vdrs s) (vdrSlice s) (weights s) (totalWeight s)
    b sm (managerCallbackListeners s) (setCallbackListeners s)).
Definition add_listeners (ms ls : list Listener) : VM unit := on_set (fun s =>
  mkSet (subnetID s) (heap s) (vdrs s) (vdrSlice s) (weights s) (totalWeight s)
    (samplerInitialized s) (sampler s) (managerCallbackListeners s ++ ms) (setCallbackListeners s ++ ls)).

Definition deref (x : ref) : VM Validator := s ← get_set; must Panic (heap s !! x).
Definition set_Weight (w : Z) (v : Validator) : Validator :=
  mkValidator (NodeID_ v) (PublicKey_ v) (TxID_ v) w (index v).
Definition set_index (i : nat) (v : Validator) : Validator :=
  mkValidator (NodeID_ v) (PublicKey_ v) (TxID_ v) (Weight v) i.

(** [s.weights[i] = w]; a write past the end panics. *)
Definition write_weight (i : nat) (w : Z) : VM unit :=
  s ← get_set;
  if decide (i < length (weights s))%nat then set_slices id (fun ws => <[i := w]> ws) else fail Panic.
Definition write_slice (i : nat) (x : ref) : VM unit :=
  s ← get_set;
  if decide (i < length (vdrSlice s))%nat then set_slices (fun xs => <[i := x]> xs) id else fail Panic.

(** *** Notices *)
Definition notices (s : vdrSet) (e : Event) : list Notice :=
  ((fun l => ManagerNotice l (subnetID s) e) <$> managerCallbackListeners s) ++
  ((fun l => SetNotice l e) <$> setCallbackListeners s).

Definition callWeightChangeCallbacks (node : NodeID) (oldWeight newWeight : Z) : VM unit :=
  s ← get_set; notify (notices s (OnValidatorWeightChanged node oldWeight newWeight)).
Definition callValidatorAddedCallbacks (node : NodeID) (pk : PublicKey) (txID : TxID) (weight : Z) : VM unit :=
  s ← get_set; notify (notices s (OnValidatorAdded node pk txID weight)).
Definition callValidatorRemovedCallbacks (node : NodeID) (weight : Z) : VM unit :=
  s ← get_set; notify (notices s (OnValidatorRemoved node weight)).

(** *** Operations *)
Definition add (nodeID : NodeID) (pk : PublicKey) (txID : TxID) (weight : Z) : VM unit :=
  s ← get_set;
  match vdrs s !! nodeID with
  | Some _ => fail errDuplicateValidator
  | None =>
      let vdr := fresh (dom (heap s)) in
      set_heap <[vdr := mkValidator nodeID pk txID weight (length (vdrSlice s))]>;;
      set_vdrs <[nodeID := vdr]>;;
      set_slices (fun xs => xs ++ [vdr]) (fun ws => ws ++ [weight]);;
      add_total weight;;
      callValidatorAddedCallbacks nodeID pk txID weight
  end.

Definition addWeight (nodeID : NodeID) (weight : Z) : VM unit :=
  s ← get_set;
  match vdrs s !! nodeID with
  | None => fail errMissingValidator
  | Some vdr =>
      v ← deref vdr;
      let oldWeight := Weight v in
      match SafeMath.Add 64 oldWeight weight with
      | Err e => fail (ErrMath e)
      | Ok newWeight =>
          set_heap (alter (set_Weight newWeight) vdr);;
          write_weight (index v) newWeight;;
          add_total weight;;
          callWeightChangeCallbacks nodeID oldWeight newWeight
      end
  end.

Definition getWeight (nodeID : NodeID) : VM Z :=
  s ← get_set;
  match vdrs s !! nodeID with
  | Some vdr => v ← deref vdr; mret (Weight v)
  | None => mret 0
  end.

Definition subsetWeight `{!KeyOrder NodeID} (subset : gset NodeID) : VM Z :=
  foldM (fun total nodeID => w ← getWeight nodeID; mret (total + w)) (keys subset) 0.

(** The removal of [vdr]: the last validator takes its place in the slices. *)
Definition swap_remove (vdr : ref) (nodeID : NodeID) : VM unit :=
  s ← get_set;
  let lastIndex := (length (vdrSlice s) - 1)%nat in
  vdrToSwap ← must Panic (vdrSlice s !! lastIndex);
  v ← deref vdr;
  set_heap (alter (set_index (index v)) vdrToSwap);;
  v ← deref vdr;
  write_slice (index v) vdrToSwap;;
  w ← deref vdrToSwap;
  write_weight (index v) (Weight w);;
  set_vdrs (delete nodeID);;
  set_slices (take lastIndex) (take lastIndex).

Definition removeWeight (nodeID : NodeID) (weight : Z) : VM unit :=
  s ← get_set;
  match vdrs s !! nodeID with
  | None => fail errMissingValidator
  | Some vdr =>
      v ← deref vdr;
      let oldWeight := Weight v in
      match SafeMath.Sub 64 oldWeight weight with
      | Err e => fail (ErrMath e)
      | Ok newWeight =>
          (if newWeight =? 0 then
             swap_remove vdr nodeID;;
             callValidatorRemovedCallbacks nodeID oldWeight
           else
             set_heap (alter (set_Weight newWeight) vdr);;
             write_weight (index v) newWeight;;
             callWeightChangeCallbacks nodeID oldWeight newWeight);;
          add_total (- weight)
      end
  end.

(** [get] returns a copy. *)
Definition get_validator (nodeID : NodeID) : VM (option Validator) :=
  s ← get_set;
  match vdrs s !! nodeID with
  | Some vdr => v ← deref vdr; mret (Some v)
  | None => mret None
  end.

Definition len : VM nat := s ← get_set; mret (length (vdrSlice s)).
Definition HasCallbackRegistered : VM bool := s ← get_set; mret (0 <? Z.of_nat (length (setCallbackListeners s))).
Definition TotalWeight : VM Z := s ← get_set; mret (totalWeight s).

Definition GetValidatorIDs : VM (list NodeID) :=
  s ← get_set;
  foldM (fun ids vdr => v ← deref vdr; mret (ids ++ [NodeID_ v])) (vdrSlice s) [].

(** [GetValidatorOutput] holds the public key and the weight. *)
Definition Map : VM (gmap NodeID (PublicKey * Z)) :=
  s ← get_set;
  foldM (fun m vdr => v ← deref vdr; mret (<[NodeID_ v := (PublicKey_ v, Weight v)]> m)) (vdrSlice s) ∅.

(** The indices of the sampler are written to a slice of length [size]. *)
Definition sample `{WeightedWithoutReplacement, !Inhabited NodeID} (size : nat) : VM (list NodeID) :=
  s ← get_set;
  (if samplerInitialized s then mret tt
   else match InitializeWithAdjustedWeights (weights s) (sampler s) with
        | None => fail ErrSampler
        | Some sm => set_sampler true sm
        end);;
  s ← get_set;
  let '(sm, indices) := SampleIndices size (sampler s) in
  set_sampler (samplerInitialized s) sm;;
  match indices with
  | None => fail errInsufficientWeight
  | Some indices =>
      foldM (fun list ii =>
          x ← must Panic (vdrSlice s !! (ii.2 : nat));
          v ← deref x;
          if decide (ii.1 < length list)%nat then mret (<[ii.1 := NodeID_ v]> list) else fail Panic)
        (zip (seq 0 (length indices)) indices) (replicate size inhabitant)
  end.

Definition announce (n : Event -> Notice) : VM unit :=
  s ← get_set;
  foldM (fun _ vdr => v ← deref vdr;
    notify [n (OnValidatorAdded (NodeID_ v) (PublicKey_ v) (TxID_ v) (Weight v))]) (vdrSlice s) tt.

Definition RegisterManagerCallbackListener (l : Listener) : VM unit :=
  s ← get_set; add_listeners [l] [];; announce (ManagerNotice l (subnetID s)).

Definition RegisterCallbackListener (l : Listener) : VM unit :=
  add_listeners [] [l];; announce (SetNotice l).

(** ** The contract: a map of validators *)
Abbreviation Val := (PublicKey * TxID * Z)%type.
Abbreviation vmap := (gmap NodeID Val).

Implicit Types (m : vmap) (n : NodeID) (s : vdrSet).

Definition val_of (v : Validator) : Val := (PublicKey_ v, TxID_ v, Weight v).
Definition total (m : vmap) : Z := msum (snd <$> m).

Definition spec_add (n : NodeID) (pk : PublicKey) (tx : TxID) (w : Z) (m : vmap) : result VdrErr vmap :=
  match m !! n with Some _ => Err errDuplicateValidator | None => Ok (<[n := (pk, tx, w)]> m) end.

Definition spec_addWeight (n : NodeID) (w : Z) (m : vmap) : result VdrErr vmap :=
  match m !! n with
  | None => Err errMissingValidator
  | Some (pk, tx, old) =>
      if old + w <=? MaxUint64 then Ok (<[n := (pk, tx, old + w)]> m) else Err (ErrMath SafeMath.ErrOverflow)
  end.

Definition spec_removeWeight (n : NodeID) (w : Z) (m : vmap) : result VdrErr vmap :=
  match m !! n with
  | None => Err errMissingValidator
  | Some (pk, tx, old) =>
      if old <? w then Err (ErrMath SafeMath.ErrUnderflow)
      else if old =? w then Ok (delete n m)
      else Ok (<[n := (pk, tx, old - w)]> m)
  end.

(** The set holds the validators [m]: the pointers of the map and those of the
    slice are the same, every validator knows its place, and its weight is
    repeated in the slice of the sampler. *)
Record vrep (s : vdrSet) (m : vmap) : Prop := {
  vr_slice i x : vdrSlice s !! i = Some x -> exists v, heap s !! x = Some v /\ index v = i /\
    vdrs s !! NodeID_ v = Some x /\ weights s !! i = Some (Weight v);
  vr_len : length (weights s) = length (vdrSlice s);
  vr_map n x : vdrs s !! n = Some x -> exists v, heap s !! x = Some v /\ NodeID_ v = n /\
    vdrSlice s !! index v = Some x;
  vr_abs n : m !! n = (vdrs s !! n ≫= fun x => val_of <$> heap s !! x);
  vr_total : totalWeight s = total m;
  vr_u64 : map_Forall (fun _ v => is_u64 v.2) m;
}.

(** What the operations on the validators leave alone. *)
Definition same_listeners (s s' : vdrSet) : Prop :=
  subnetID s' = subnetID s /\ managerCallbackListeners s' = managerCallbackListeners s /\
  setCallbackListeners s' = setCallbackListeners s.

Lemma vrep_None s m n : vrep s m -> vdrs s !! n = None <-> m !! n = None.
Proof.
  intros Hr. rewrite (vr_abs _ _ Hr). destruct (vdrs s !! n) as [x|] eqn:Hn; [|done]. cbn.
  destruct (vr_map _ _ Hr n x Hn) as (v & -> & _). done.
Qed.

Lemma vrep_Some s m n x : vrep s m -> vdrs s !! n = Some x -> exists v,
  heap s !! x = Some v /\ NodeID_ v = n /\ vdrSlice s !! index v = Some x /\
  weights s !! index v = Some (Weight v) /\ m !! n = Some (val_of v) /\ is_u64 (Weight v).
Proof.
  intros Hr Hn. destruct (vr_map _ _ Hr n x Hn) as (v & Hv & Hid & Hi). exists v.
  destruct (vr_slice _ _ Hr _ _ Hi) as (v' & Hv' & _ & _ & Hw). simplify_eq.
  assert (m !! NodeID_ v = Some (val_of v)) as Hm by (rewrite (vr_abs _ _ Hr), Hn; cbn; by rewrite Hv).
  repeat split; try done; apply (vr_u64 _ _ Hr _ _ Hm).
Qed.

Lemma vrep_inj s m i j x : vrep s m -> vdrSlice s !! i = Some x -> vdrSlice s !! j = Some x -> i = j.
Proof.
  intros Hr Hi Hj. destruct (vr_slice _ _ Hr i x Hi) as (v & Hv & <- & _).
  destruct (vr_slice _ _ Hr j x Hj) as (v' & Hv' & <- & _). congruence.
Qed.

Lemma total_insert m n v : total (<[n := v]> m) = total m - default 0 (snd <$> m !! n) + v.2.
Proof. unfold total. by rewrite fmap_insert, msum_insert, lookup_fmap. Qed.

Lemma total_delete m n : total (delete n m) = total m - default 0 (snd <$> m !! n).
Proof. unfold total. by rewrite fmap_delete, msum_delete_default, lookup_fmap. Qed.

(** *** The representation under the writes *)
Lemma total_pos m n v : map_Forall (fun _ v => is_u64 v.2) m -> is_u64 v.2 ->
  map_Forall (fun _ v => is_u64 v.2) (<[n := v]> m).
Proof. intros Hm Hv. by apply map_Forall_insert_2. Qed.

Lemma vrep_add s m n pk tx w x : vrep s m -> m !! n = None -> heap s !! x = None -> is_u64 w ->
  vrep (mkSet (subnetID s) (<[x := mkValidator n pk tx w (length (vdrSlice s))]> (heap s))
          (<[n := x]> (vdrs s)) (vdrSlice s ++ [x]) (weights s ++ [w]) (totalWeight s + w)
          false (sampler s) (managerCallbackListeners s) (setCallbackListeners s))
       (<[n := (pk, tx, w)]> m).
Proof.
  intros Hr Hm Hx Hw. assert (vdrs s !! n = None) as Hn by by apply (vrep_None s m).
  assert (forall y v, heap s !! y = Some v -> y <> x) as Hne by congruence.
  split; cbn [heap vdrs vdrSlice weights totalWeight].
  - intros i y [Hy|[Hi Hy]]%lookup_app_Some.
    + destruct (vr_slice _ _ Hr i y Hy) as (v & Hv & Hi & Hvd & Hwt). exists v.
      rewrite lookup_insert_ne by (by apply not_eq_sym, (Hne y v)). split; [done|]. split; [done|].
      rewrite lookup_insert_ne by congruence. split; [done|]. by apply lookup_app_l_Some.
    + destruct (i - length (vdrSlice s))%nat as [|k] eqn:Hk; [|done]. injection Hy as <-.
      assert (i = length (vdrSlice s)) as -> by lia.
      eexists. rewrite lookup_insert_eq. split; [done|]. cbn. split; [done|].
      rewrite lookup_insert_eq. split; [done|]. rewrite <- (vr_len _ _ Hr). by apply list_lookup_middle.
  - rewrite !length_app, (vr_len _ _ Hr). done.
  - intros n' y Hy. destruct (decide (n' = n)) as [->|Hnn].
    + rewrite lookup_insert_eq in Hy. injection Hy as <-. eexists. rewrite lookup_insert_eq.
      split; [done|]. cbn. split; [done|]. by apply list_lookup_middle.
    + rewrite lookup_insert_ne in Hy by done. destruct (vr_map _ _ Hr n' y Hy) as (v & Hv & Hid & Hi).
      exists v. rewrite lookup_insert_ne by (by apply not_eq_sym, (Hne y v)). split; [done|]. split; [done|].
      by apply lookup_app_l_Some.
  - intros n'. destruct (decide (n' = n)) as [->|Hnn].
    + rewrite !lookup_insert_eq. cbn. by rewrite lookup_insert_eq.
    + rewrite !(lookup_insert_ne _ n) by done. rewrite (vr_abs _ _ Hr). destruct (vdrs s !! n') as [y|] eqn:Hy; [|done].
      destruct (vr_map _ _ Hr n' y Hy) as (v & Hv & _). cbn. by rewrite lookup_insert_ne by (by apply not_eq_sym, (Hne y v)).
  - rewrite total_insert, Hm, (vr_total _ _ Hr). cbn. lia.
  - apply total_pos; [apply (vr_u64 _ _ Hr)|done].
Qed.

Lemma vrep_weight s m n x v w : vrep s m -> vdrs s !! n = Some x -> heap s !! x = Some v -> is_u64 w ->
  vrep (mkSet (subnetID s) (alter (set_Weight w) x (heap s)) (vdrs s) (vdrSlice s)
          (<[index v := w]> (weights s)) (totalWeight s + (w - Weight v))
          false (sampler s) (managerCallbackListeners s) (setCallbackListeners s))
       (<[n := (PublicKey_ v, TxID_ v, w)]> m).
Proof.
  intros Hr Hn Hv Hw. destruct (vrep_Some s m n x Hr Hn) as (v' & Hv' & Hid & Hi & Hwt & Hm & Hu).
  assert (v' = v) as -> by congruence. clear Hv'. subst n.
  assert (index v < length (weights s))%nat as Hlt by by eapply lookup_lt_Some.
  split; cbn [heap vdrs vdrSlice weights totalWeight].
  - intros i y Hy. destruct (vr_slice _ _ Hr i y Hy) as (u & Hu' & Hiu & Hvd & Hwu).
    destruct (decide (y = x)) as [->|Hne].
    + assert (u = v) as -> by congruence. exists (set_Weight w v). rewrite lookup_alter_eq, Hv.
      repeat split; try done. rewrite <- Hiu. by apply list_lookup_insert_eq.
    + exists u. rewrite lookup_alter_ne by done. repeat split; try done. rewrite list_lookup_insert_ne; [done|].
      intros Heq. apply Hne. congruence.
  - by rewrite length_insert, (vr_len _ _ Hr).
  - intros n' y Hy. destruct (vr_map _ _ Hr n' y Hy) as (u & Hu' & Hidu & Hiu).
    destruct (decide (y = x)) as [->|Hne].
    + assert (u = v) as -> by congruence. exists (set_Weight w v). by rewrite lookup_alter_eq, Hv.
    + exists u. by rewrite lookup_alter_ne by done.
  - intros n'. destruct (decide (n' = NodeID_ v)) as [->|Hnn].
    + rewrite lookup_insert_eq, Hn. cbn. by rewrite lookup_alter_eq, Hv.
    + rewrite lookup_insert_ne, (vr_abs _ _ Hr) by done. destruct (vdrs s !! n') as [y|] eqn:Hy; [|done]. cbn.
      destruct (vr_map _ _ Hr n' y Hy) as (u & Hu' & Hidu & _).
      rewrite lookup_alter_ne; [done|]. intros ->. apply Hnn. congruence.
  - rewrite total_insert, Hm, (vr_total _ _ Hr). cbn. lia.
  - apply total_pos; [apply (vr_u64 _ _ Hr)|done].
Qed.

Lemma vrep_remove s m n x v y u : vrep s m -> vdrs s !! n = Some x -> heap s !! x = Some v ->
  vdrSlice s !! (length (vdrSlice s) - 1)%nat = Some y -> heap s !! y = Some u ->
  vrep (mkSet (subnetID s) (alter (set_index (index v)) y (heap s)) (delete n (vdrs s))
          (take (length (vdrSlice s) - 1) (<[index v := y]> (vdrSlice s)))
          (take (length (vdrSlice s) - 1) (<[index v := Weight u]> (weights s)))
          (totalWeight s - Weight v) false (sampler s) (managerCallbackListeners s) (setCallbackListeners s))
       (delete n m).
Proof.
  intros Hr Hn Hv Hlast Hu. destruct (vrep_Some s m n x Hr Hn) as (v' & Hv' & Hid & Hi & Hwt & Hm & _).
  assert (v' = v) as -> by congruence. clear Hv'. subst n.
  set (last := (length (vdrSlice s) - 1)%nat) in *.
  destruct (vr_slice _ _ Hr last y Hlast) as (u' & Hu' & Hiu & Hvdu & Hwu).
  assert (u' = u) as -> by congruence. clear Hu'.
  assert (index v < length (vdrSlice s))%nat as Hlt by by eapply lookup_lt_Some.
  pose proof (vr_len _ _ Hr) as Hlen.
  assert (forall n' z, vdrs s !! n' = Some z -> n' <> NodeID_ v -> z <> x) as Hzx.
  { intros n' z Hz Hne ->. destruct (vr_map _ _ Hr n' x Hz) as (a & Ha & Hidn & _). congruence. }
  split; cbn [heap vdrs vdrSlice weights totalWeight].
  - intros j z Hz. apply lookup_take_Some in Hz as [Hz Hj].
    assert (j < length (weights s))%nat as Hjw by (unfold last in Hj; lia).
    rewrite lookup_take_lt by done.
    destruct (decide (j = index v)) as [->|Hne].
    + rewrite list_lookup_insert_eq in Hz by done. injection Hz as <-.
      exists (set_index (index v) u). rewrite lookup_alter_eq, Hu. split; [done|]. split; [done|]. cbn.
      rewrite list_lookup_insert_eq by done. split; [|done]. rewrite lookup_delete_ne; [done|].
      intros Heq. rewrite <- Heq, Hn in Hvdu. injection Hvdu as ->. simplify_eq. lia.
    + rewrite list_lookup_insert_ne in Hz by done. destruct (vr_slice _ _ Hr j z Hz) as (a & Ha & Hia & Hvda & Hwa).
      exists a. rewrite lookup_alter_ne by (intros ->; simplify_eq; lia). split; [done|]. split; [done|].
      rewrite list_lookup_insert_ne by done. split; [|done]. rewrite lookup_delete_ne; [done|].
      intros Heq. rewrite <- Heq, Hn in Hvda. simplify_eq.
  - rewrite !length_take, !length_insert, Hlen. done.
  - intros n' z Hz. apply lookup_delete_Some in Hz as [Hne Hz].
    destruct (vr_map _ _ Hr n' z Hz) as (a & Ha & Hida & Hia). pose proof (Hzx _ _ Hz (not_eq_sym Hne)) as Hzn.
    assert (index a < length (vdrSlice s))%nat as Hal by by eapply lookup_lt_Some.
    assert (index a <> index v) as Hai by (intros Heq; rewrite Heq in Hia; congruence).
    destruct (decide (z = y)) as [->|Hzy].
    + assert (a = u) as -> by congruence. exists (set_index (index v) u). rewrite lookup_alter_eq, Hu.
      split; [done|]. split; [done|]. cbn. rewrite lookup_take_lt by lia. by apply list_lookup_insert_eq.
    + exists a. rewrite lookup_alter_ne by done. split; [done|]. split; [done|].
      assert (index a <> last) as Hal' by (intros Heq; rewrite Heq in Hia; congruence).
      rewrite lookup_take_lt by lia. by rewrite list_lookup_insert_ne.
  - intros n'. destruct (decide (n' = NodeID_ v)) as [->|Hnn]; [by rewrite !lookup_delete_eq|].
    rewrite !lookup_delete_ne, (vr_abs _ _ Hr) by done. destruct (vdrs s !! n') as [z|]; [|done]. cbn.
    destruct (decide (z = y)) as [->|Hzy]; [by rewrite lookup_alter_eq, Hu|by rewrite lookup_alter_ne].
  - rewrite total_delete, Hm, (vr_total _ _ Hr). done.
  - apply map_Forall_delete, (vr_u64 _ _ Hr).
Qed.

(** *** The operations *)

(** A step of the set to [m], announced to the listeners as [e]; the sampler is
    out of date. *)
Definition stepped (st st' : vdrSet * list Notice) (m : vmap) (e : Event) : Prop :=
  vrep st'.1 m /\ same_listeners st.1 st'.1 /\ st'.2 = st.2 ++ notices st.1 e /\ samplerInitialized st'.1 = false.

Ltac set_steps :=
  unfold get_set, set_heap, set_vdrs, set_slices, add_total, on_set, notify, deref; wp_steps; cbn [fst snd].

Lemma step_total (op : VM unit) st m e :
  wp never op (fun _ st' => stepped st st' m e) st -> exists st', op st = (st', Ok tt) /\ stepped st st' m e.
Proof. intros Hw. apply wp_total in Hw as ([] & st' & Hs & Hst). by exists st'. Qed.

Lemma add_spec n pk tx w s log m : vrep s m -> is_u64 w ->
  match spec_add n pk tx w m with
  | Ok m' => exists st', add n pk tx w (s, log) = (st', Ok tt) /\
      stepped (s, log) st' m' (OnValidatorAdded n pk tx w)
  | Err e => add n pk tx w (s, log) = ((s, log), Err e)
  end.
Proof.
  intros Hr Hw. unfold spec_add. destruct (m !! n) as [v|] eqn:Hm.
  - destruct (vdrs s !! n) as [x|] eqn:Hn; [|apply (vrep_None s m n Hr) in Hn; congruence].
    unfold add, get_set. unfold mbind, M_bind, get, mret, M_ret. cbn. by rewrite Hn.
  - apply step_total. pose proof Hm as Hn. apply (vrep_None s m n Hr) in Hn.
    unfold add. set_steps. rewrite Hn. set_steps. unfold callValidatorAddedCallbacks. set_steps.
    split; [|split; [done|done]]. cbn. apply vrep_add; [done|done| |done].
    apply not_elem_of_dom, is_fresh.
Qed.

Lemma write_weight_wp i w s log (Q : unit -> vdrSet * list Notice -> Prop) : (i < length (weights s))%nat ->
  wp never (set_slices id (fun ws => <[i := w]> ws)) Q (s, log) -> wp never (write_weight i w) Q (s, log).
Proof. intros Hi HQ. unfold write_weight. unfold get_set. wp_steps. cbn [fst]. by rewrite decide_True. Qed.

Lemma write_slice_wp i x s log (Q : unit -> vdrSet * list Notice -> Prop) : (i < length (vdrSlice s))%nat ->
  wp never (set_slices (fun xs => <[i := x]> xs) id) Q (s, log) -> wp never (write_slice i x) Q (s, log).
Proof. intros Hi HQ. unfold write_slice. unfold get_set. wp_steps. cbn [fst]. by rewrite decide_True. Qed.

Lemma addWeight_spec n w s log m : vrep s m -> is_u64 w ->
  match spec_addWeight n w m with
  | Ok m' => exists st' old, addWeight n w (s, log) = (st', Ok tt) /\
      (snd <$> m !! n) = Some old /\ stepped (s, log) st' m' (OnValidatorWeightChanged n old (old + w))
  | Err e => addWeight n w (s, log) = ((s, log), Err e)
  end.
Proof.
  intros Hr Hw. unfold spec_addWeight. destruct (vdrs s !! n) as [x|] eqn:Hn.
  2:{ pose proof Hn as Hm. apply (vrep_None s m n Hr) in Hm. rewrite Hm.
      unfold addWeight, get_set. unfold mbind, M_bind, get, mret, M_ret. cbn. by rewrite Hn. }
  destruct (vrep_Some s m n x Hr Hn) as (v & Hv & Hid & Hi & Hwt & Hm & Hu). rewrite Hm. cbn [val_of].
  pose proof (SafeMath.Add_spec 64 ltac:(unfold is_uint; lia) (Weight v) w Hu Hw) as Hadd.
  destruct (Z.leb_spec (Weight v + w) MaxUint64) as [Hle|Hgt].
  - exists (mkSet (subnetID s) (alter (set_Weight (Weight v + w)) x (heap s)) (vdrs s) (vdrSlice s)
        (<[index v := Weight v + w]> (weights s)) (totalWeight s + w)
        false (sampler s) (managerCallbackListeners s) (setCallbackListeners s),
      log ++ notices s (OnValidatorWeightChanged n (Weight v) (Weight v + w))), (Weight v).
    assert (Weight v + w <? 2 ^ 64 = true) as Hlt by (apply Z.ltb_lt; unfold MaxUint64 in Hle; lia). rewrite Hlt in Hadd.
    assert (index v < length (weights s))%nat as Hlen by by eapply lookup_lt_Some.
    split; [|split; [done|]].
    + unfold addWeight, get_set, deref, set_heap, write_weight, set_slices, add_total, on_set, callWeightChangeCallbacks, notify,
        get_set, must, mbind, M_bind, get, mret, M_ret, modify. cbn. rewrite Hn. cbn. rewrite Hv. cbn. rewrite Hadd. cbn.
      rewrite decide_True by done. done.
    + split; [|split; [done|done]]. cbn [fst].
      pose proof (vrep_weight s m n x v (Weight v + w) Hr Hn Hv) as Hvw.
      replace (totalWeight s + (Weight v + w - Weight v)) with (totalWeight s + w) in Hvw by lia.
      apply Hvw. unfold is_uint in *. unfold MaxUint64 in Hle. lia.
  - assert (Weight v + w <? 2 ^ 64 = false) as Hlt by (apply Z.ltb_ge; unfold MaxUint64 in Hgt; lia). rewrite Hlt in Hadd.
    unfold addWeight, get_set, deref, get_set, must, mbind, M_bind, get, mret, M_ret. cbn. rewrite Hn. cbn.
    rewrite Hv. cbn. by rewrite Hadd.
Qed.

(** [swap_remove] and the change of the total. *)
Lemma swap_remove_eq n x v y u s log : vdrs s !! n = Some x -> heap s !! x = Some v ->
  vdrSlice s !! (length (vdrSlice s) - 1)%nat = Some y -> heap s !! y = Some u ->
  (index v < length (vdrSlice s))%nat -> length (weights s) = length (vdrSlice s) ->
  (y = x -> u = v) ->
  swap_remove x n (s, log) =
    ((mkSet (subnetID s) (alter (set_index (index v)) y (heap s)) (delete n (vdrs s))
       (take (length (vdrSlice s) - 1) (<[index v := y]> (vdrSlice s)))
       (take (length (vdrSlice s) - 1) (<[index v := Weight u]> (weights s)))
       (totalWeight s) (samplerInitialized s) (sampler s) (managerCallbackListeners s) (setCallbackListeners s), log), Ok tt).
Proof.
  intros Hn Hv Hlast Hu Hi Hlen Hxy. unfold swap_remove, get_set, deref, write_slice, write_weight, set_heap, set_vdrs, set_slices,
    on_set, get_set, must, mbind, M_bind, get, mret, M_ret, modify. cbn. rewrite Hlast. cbn. rewrite Hv. cbn.
  assert (exists v', alter (set_index (index v)) y (heap s) !! x = Some v' /\ index v' = index v) as (v' & Hv' & Hiv).
  { destruct (decide (y = x)) as [->|Hne]; [rewrite lookup_alter_eq, Hv; by eexists|].
    rewrite lookup_alter_ne by done. by exists v. }
  rewrite Hv'. cbn. rewrite Hiv, decide_True by done. cbn. rewrite lookup_alter_eq, Hu. cbn.
  rewrite decide_True by lia. done.
Qed.

Lemma removeWeight_spec n w s log m : vrep s m -> is_u64 w ->
  match spec_removeWeight n w m with
  | Ok m' => exists st' old, removeWeight n w (s, log) = (st', Ok tt) /\ (snd <$> m !! n) = Some old /\
      stepped (s, log) st' m' (if old =? w then OnValidatorRemoved n old else OnValidatorWeightChanged n old (old - w))
  | Err e => removeWeight n w (s, log) = ((s, log), Err e)
  end.
Proof.
  intros Hr Hw. unfold spec_removeWeight. destruct (vdrs s !! n) as [x|] eqn:Hn.
  2:{ pose proof Hn as Hm. apply (vrep_None s m n Hr) in Hm. rewrite Hm.
      unfold removeWeight, get_set. unfold mbind, M_bind, get, mret, M_ret. cbn. by rewrite Hn. }
  destruct (vrep_Some s m n x Hr Hn) as (v & Hv & Hid & Hi & Hwt & Hm & Hu). rewrite Hm. cbn [val_of].
  pose proof (SafeMath.Sub_spec 64 ltac:(unfold is_uint; lia) (Weight v) w Hu Hw) as Hsub.
  assert (index v < length (vdrSlice s))%nat as Hlt by by eapply lookup_lt_Some.
  pose proof (vr_len _ _ Hr) as Hlen.
  destruct (Z.ltb_spec (Weight v) w) as [Hless|Hge].
  { assert (w <=? Weight v = false) as E by (apply Z.leb_gt; lia). rewrite E in Hsub.
    unfold removeWeight, get_set, deref, get_set, must, mbind, M_bind, get, mret, M_ret. cbn. rewrite Hn. cbn.
    rewrite Hv. cbn. by rewrite Hsub. }
  assert (w <=? Weight v = true) as E by (apply Z.leb_le; lia). rewrite E in Hsub.
  destruct (Z.eqb_spec (Weight v) w) as [Heq|Hne].
  - destruct (lookup_lt_is_Some_2 (vdrSlice s) (length (vdrSlice s) - 1)) as [y Hy]; [lia|].
    destruct (vr_slice _ _ Hr _ _ Hy) as (u & Hu' & _).
    pose proof (swap_remove_eq n x v y u s log Hn Hv Hy Hu' Hlt Hlen ltac:(congruence)) as Hswap.
    pose proof (vrep_remove s m n x v y u Hr Hn Hv Hy Hu') as Hrep.
    eexists _, (Weight v). split; [|split; [done|]].
    + unfold removeWeight, get_set, deref, get_set, must, callValidatorRemovedCallbacks, notify, add_total, on_set, get_set,
        mbind, M_bind, get, mret, M_ret, modify. cbn. rewrite Hn. cbn. rewrite Hv. cbn. rewrite Hsub.
      replace (Weight v - w =? 0) with true by lia. rewrite Hswap. cbn. done.
    + replace (Weight v =? w) with true by lia. split; [|split; [done|done]]. cbn [fst].
      replace (totalWeight s + - w) with (totalWeight s - Weight v) by lia. exact Hrep.
  - eexists _, (Weight v). split; [|split; [done|]].
    + unfold removeWeight, get_set, deref, get_set, must, set_heap, write_weight, set_slices, callWeightChangeCallbacks, notify,
        add_total, on_set, get_set, mbind, M_bind, get, mret, M_ret, modify. cbn. rewrite Hn. cbn. rewrite Hv. cbn. rewrite Hsub.
      replace (Weight v - w =? 0) with false by lia. cbn. rewrite decide_True by lia. done.
    + replace (Weight v =? w) with false by lia. split; [|split; [done|done]]. cbn [fst].
      pose proof (vrep_weight s m n x v (Weight v - w) Hr Hn Hv) as Hvw.
      replace (totalWeight s + (Weight v - w - Weight v)) with (totalWeight s + - w) in Hvw by lia.
      apply Hvw. unfold is_uint in *. lia.
Qed.

(** *** The queries *)

(** The validators in the order of the slice. *)
Definition validators (s : vdrSet) : list Validator := omap (fun x => heap s !! x) (vdrSlice s).

Definition entry (v : Validator) : NodeID * Val := (NodeID_ v, val_of v).

Lemma validators_lookup s m : vrep s m -> Forall2 (fun x v => heap s !! x = Some v) (vdrSlice s) (validators s).
Proof.
  intros Hr. unfold validators.
  assert (forall x, x ∈ vdrSlice s -> is_Some (heap s !! x)) as Hx.
  { intros x [i Hi]%list_elem_of_lookup. destruct (vr_slice _ _ Hr i x Hi) as (v & Hv & _). by exists v. }
  revert Hx. generalize (vdrSlice s). intros l. induction l as [|x l IH]; intros Hx; cbn; [constructor|].
  destruct (Hx x ltac:(by left)) as [v Hv]. rewrite Hv. constructor; [done|].
  apply IH. intros y Hy. apply Hx. by right.
Qed.

Lemma elem_of_validators s m v : vrep s m -> v ∈ validators s <-> m !! NodeID_ v = Some (val_of v) /\
  exists x, vdrs s !! NodeID_ v = Some x /\ heap s !! x = Some v.
Proof.
  intros Hr. unfold validators. rewrite list_elem_of_omap. split.
  - intros (x & [i Hi]%list_elem_of_lookup & Hv). destruct (vr_slice _ _ Hr i x Hi) as (v' & Hv' & _ & Hvd & _).
    assert (v' = v) as -> by congruence. split; [|by exists x]. rewrite (vr_abs _ _ Hr), Hvd. cbn. by rewrite Hv.
  - intros (_ & x & Hvd & Hv). exists x. split; [|done].
    destruct (vr_map _ _ Hr _ x Hvd) as (v' & Hv' & _ & Hi). by apply list_elem_of_lookup_2 in Hi.
Qed.

(** The slice lists the map, each validator once. *)
Lemma validators_perm s m : vrep s m -> entry <$> validators s ≡ₚ map_to_list m.
Proof.
  intros Hr. apply NoDup_Permutation; [|apply NoDup_map_to_list|].
  - apply NoDup_fmap_2_strong.
    + intros v1 v2 H1 H2 [= Hid _]. apply (elem_of_validators s m) in H1 as (_ & x1 & Hx1 & Hv1), H2 as (_ & x2 & Hx2 & Hv2); [|done..].
      congruence.
    + apply NoDup_alt. intros i j v Hi Hj. pose proof (validators_lookup s m Hr) as Hf.
      destruct (Forall2_lookup_r _ _ _ _ _ Hf Hi) as (x & Hx & Hxv), (Forall2_lookup_r _ _ _ _ _ Hf Hj) as (y & Hy & Hyv).
      destruct (vr_slice _ _ Hr i x Hx) as (v1 & Hv1 & <- & _), (vr_slice _ _ Hr j y Hy) as (v2 & Hv2 & <- & _).
      congruence.
  - intros [n v]. rewrite list_elem_of_fmap, elem_of_map_to_list. split.
    + intros (u & [= -> ->] & Hu). by apply (elem_of_validators s m) in Hu as [? _].
    + intros Hm. pose proof Hm as Hm'. rewrite (vr_abs _ _ Hr) in Hm'. destruct (vdrs s !! n) as [x|] eqn:Hx; [|done].
      cbn in Hm'. destruct (vr_map _ _ Hr n x Hx) as (u & Hu & <- & _). rewrite Hu in Hm'. injection Hm' as <-.
      exists u. split; [done|]. apply (elem_of_validators s m); [done|]. split; [done|]. by exists x.
Qed.

(** A loop over the slice that reads every validator. *)
Lemma foldM_slice {A} (g : A -> Validator -> A) s log m a : vrep s m ->
  foldM (fun acc x => v ← deref x; mret (g acc v)) (vdrSlice s) a (s, log) = ((s, log), Ok (foldl g a (validators s))).
Proof.
  intros Hr. pose proof (validators_lookup s m Hr) as Hf. revert a. generalize dependent (validators s).
  generalize (vdrSlice s). intros l vs Hf. induction Hf as [|x v l vs Hv Hf IH]; intros a; [done|].
  cbn [foldM foldl]. unfold deref, get_set, must, mbind, M_bind, get, mret, M_ret. cbn. rewrite Hv. cbn. apply IH.
Qed.

Lemma foldl_snoc {A B} (h : A -> B) vs l : foldl (fun acc v => acc ++ [h v]) l vs = l ++ (h <$> vs).
Proof. revert l. induction vs as [|v vs IH]; intros l; cbn; [by rewrite app_nil_r|]. by rewrite IH, <- app_assoc. Qed.

Lemma getWeight_spec s log m n : vrep s m -> getWeight n (s, log) = ((s, log), Ok (default 0 (snd <$> m !! n))).
Proof.
  intros Hr. unfold getWeight, get_set, deref, get_set, must, mbind, M_bind, get, mret, M_ret. cbn.
  destruct (vdrs s !! n) as [x|] eqn:Hn; cbn.
  - destruct (vrep_Some s m n x Hr Hn) as (v & Hv & _ & _ & _ & Hm & _). by rewrite Hv, Hm.
  - apply (vrep_None s m n Hr) in Hn. by rewrite Hn.
Qed.

Lemma subsetWeight_spec `{!KeyOrder NodeID} s log m X : vrep s m ->
  subsetWeight X (s, log) = ((s, log), Ok (foldl (fun t n => t + default 0 (snd <$> m !! n)) 0 (keys X))).
Proof.
  intros Hr. unfold subsetWeight.
  enough (forall l a, foldM (fun total nodeID => w ← getWeight nodeID; mret (total + w)) l a (s, log) =
    ((s, log), Ok (foldl (fun t n => t + default 0 (snd <$> m !! n)) a l))) as Hl by apply Hl.
  induction l as [|n l IH]; intros a; [done|].
  cbn [foldM foldl]. unfold mbind, M_bind. rewrite (getWeight_spec s log m n Hr). cbn. apply IH.
Qed.

Lemma GetValidatorIDs_spec s log m : vrep s m -> exists ids,
  GetValidatorIDs (s, log) = ((s, log), Ok ids) /\ ids ≡ₚ (map_to_list m).*1.
Proof.
  intros Hr. exists (NodeID_ <$> validators s). split.
  - unfold GetValidatorIDs, get_set. unfold mbind at 1, M_bind at 1. cbn.
    pose proof (foldM_slice (fun acc v => acc ++ [NodeID_ v]) s log m [] Hr) as Hf. rewrite foldl_snoc in Hf. exact Hf.
  - rewrite <- (validators_perm s m Hr). by rewrite <- list_fmap_compose.
Qed.

Lemma Map_spec s log m : vrep s m ->
  Map (s, log) = ((s, log), Ok ((fun v : Val => (v.1.1, v.2)) <$> m)).
Proof.
  intros Hr. unfold Map, get_set. unfold mbind at 1, M_bind at 1. cbn.
  pose proof (foldM_slice (fun (acc : gmap NodeID (PublicKey * Z)) v => <[NodeID_ v := (PublicKey_ v, Weight v)]> acc) s log m ∅ Hr) as Hf.
  refine (eq_trans Hf _). do 2 f_equal.
  assert (forall vs (acc : gmap NodeID (PublicKey * Z)), NoDup (NodeID_ <$> vs) ->
    foldl (fun (acc : gmap NodeID (PublicKey * Z)) v => <[NodeID_ v := (PublicKey_ v, Weight v)]> acc) acc vs =
      list_to_map ((fun v => (NodeID_ v, (PublicKey_ v, Weight v))) <$> vs) ∪ acc) as Hl.
  { clear. induction vs as [|v vs IH]; intros acc Hd; cbn; [by rewrite (left_id_L ∅ (∪))|].
    cbn in Hd. apply NoDup_cons in Hd as [Hn Hd]. rewrite IH by done.
    rewrite <- insert_union_l, <- insert_union_r; [done|]. apply not_elem_of_list_to_map_1.
    rewrite <- list_fmap_compose. exact Hn. }
  assert ((NodeID_ <$> validators s) ≡ₚ (map_to_list m).*1) as Hp.
  { rewrite <- (validators_perm s m Hr). by rewrite <- list_fmap_compose. }
  rewrite Hl by (rewrite Hp; apply NoDup_fst_map_to_list). rewrite (right_id_L ∅ (∪)).
  rewrite <- (list_to_map_to_list m). rewrite <- list_to_map_fmap.
  apply list_to_map_proper; [rewrite <- list_fmap_compose; rewrite Hp; apply NoDup_fst_map_to_list|].
  rewrite <- (validators_perm s m Hr), <- list_fmap_compose. done.
Qed.

Lemma len_spec s log m : vrep s m -> len (s, log) = ((s, log), Ok (size m)).
Proof.
  intros Hr. unfold len, get_set, mbind, M_bind, get, mret, M_ret. cbn. do 2 f_equal.
  rewrite (Forall2_length _ _ _ (validators_lookup s m Hr)).
  rewrite <- (length_fmap entry), (validators_perm s m Hr). apply length_map_to_list.
Qed.

(** *** The listeners *)

(** What a listener makes of its calls. *)
Definition apply_event (m : vmap) (e : Event) : vmap :=
  match e with
  | OnValidatorAdded n pk tx w => <[n := (pk, tx, w)]> m
  | OnValidatorRemoved n _ => delete n m
  | OnValidatorWeightChanged n _ w => alter (fun v : Val => (v.1, w)) n m
  end.
Definition replay (es : list Event) : vmap := foldl apply_event ∅ es.

(** The calls of a listener of the manager for a subnet, and of a set's listener. *)
Definition manager_calls (l : Listener) (sub : SubnetID) (log : list Notice) : list Event :=
  omap (fun x => match x with
    | ManagerNotice l' sub' e => if decide (l' = l /\ sub' = sub) then Some e else None
    | SetNotice _ _ => None end) log.
Definition set_calls (l : Listener) (log : list Notice) : list Event :=
  omap (fun x => match x with
    | SetNotice l' e => if decide (l' = l) then Some e else None
    | ManagerNotice _ _ _ => None end) log.

Lemma foldl_repeat (e : Event) m m' es : Forall (fun e' => e' = e) es -> es <> [] ->
  apply_event m e = m' -> apply_event m' e = m' -> foldl apply_event m es = m'.
Proof.
  intros Hes Hne H1 H2. destruct Hes as [|e' es -> Hes]; [done|]. cbn. rewrite H1. clear Hne H1.
  induction Hes as [|e' es -> _ IH]; [done|]. cbn. by rewrite H2.
Qed.

Lemma manager_calls_notices s e l : l ∈ managerCallbackListeners s ->
  Forall (fun e' => e' = e) (manager_calls l (subnetID s) (notices s e)) /\
  manager_calls l (subnetID s) (notices s e) <> [].
Proof.
  intros Hl. unfold manager_calls, notices. rewrite omap_app.
  assert (forall ls, omap (fun x => match x with
    | ManagerNotice l' sub' e => if decide (l' = l /\ sub' = subnetID s) then Some e else None
    | SetNotice _ _ => None end) ((fun l => SetNotice l e) <$> ls) = []) as -> by (by induction ls).
  rewrite app_nil_r. split.
  - clear Hl. induction (managerCallbackListeners s) as [|l' ls IH]; cbn; [constructor|].
    case_decide; [by constructor|done].
  - apply list_elem_of_split in Hl as (l1 & l2 & ->). rewrite fmap_app, omap_app. cbn.
    rewrite decide_True by done. intros [_ ?]%app_nil. done.
Qed.

Lemma set_calls_notices s e l : l ∈ setCallbackListeners s ->
  Forall (fun e' => e' = e) (set_calls l (notices s e)) /\ set_calls l (notices s e) <> [].
Proof.
  intros Hl. unfold set_calls, notices. rewrite omap_app.
  assert (forall ls, omap (fun x => match x with
    | SetNotice l' e => if decide (l' = l) then Some e else None
    | ManagerNotice _ _ _ => None end) ((fun l => ManagerNotice l (subnetID s) e) <$> ls) = []) as -> by (by induction ls).
  cbn [app]. split.
  - clear Hl. induction (setCallbackListeners s) as [|l' ls IH]; cbn; [constructor|].
    case_decide; [by constructor|done].
  - apply list_elem_of_split in Hl as (l1 & l2 & ->). rewrite fmap_app, omap_app. cbn.
    rewrite decide_True by done. intros [_ ?]%app_nil. done.
Qed.

(** Every listener of the set could tell the validators from its calls. *)
Definition in_sync (st : vdrSet * list Notice) (m : vmap) : Prop :=
  (forall l, l ∈ managerCallbackListeners st.1 -> replay (manager_calls l (subnetID st.1) st.2) = m) /\
  (forall l, l ∈ setCallbackListeners st.1 -> replay (set_calls l st.2) = m).

Lemma replay_app es1 es2 : replay (es1 ++ es2) = foldl apply_event (replay es1) es2.
Proof. apply foldl_app. Qed.

Lemma stepped_sync st st' m m' e : in_sync st m -> stepped st st' m' e ->
  apply_event m e = m' -> apply_event m' e = m' -> in_sync st' m'.
Proof.
  intros [Hm Hs] (_ & (E1 & E2 & E3) & Hlog & _) H1 H2. split; intros l Hl; rewrite Hlog.
  - rewrite E2 in Hl. rewrite E1. unfold manager_calls. rewrite omap_app. fold (manager_calls l (subnetID st.1) st.2).
    fold (manager_calls l (subnetID st.1) (notices st.1 e)). rewrite replay_app, Hm by done.
    destruct (manager_calls_notices st.1 e l Hl). by eapply foldl_repeat.
  - rewrite E3 in Hl. unfold set_calls. rewrite omap_app. fold (set_calls l st.2).
    fold (set_calls l (notices st.1 e)). rewrite replay_app, Hs by done.
    destruct (set_calls_notices st.1 e l Hl). by eapply foldl_repeat.
Qed.

(** The event of a step turns the old map into the new one. *)
Lemma spec_add_event n pk tx w m m' : spec_add n pk tx w m = Ok m' ->
  apply_event m (OnValidatorAdded n pk tx w) = m' /\ apply_event m' (OnValidatorAdded n pk tx w) = m'.
Proof. unfold spec_add. destruct (m !! n); [done|]. intros [= <-]. cbn. by rewrite insert_insert_eq. Qed.

Lemma weight_event n old w m v : m !! n = Some v ->
  apply_event m (OnValidatorWeightChanged n old w) = <[n := (v.1, w)]> m /\
  apply_event (<[n := (v.1, w)]> m) (OnValidatorWeightChanged n old w) = <[n := (v.1, w)]> m.
Proof.
  intros Hn. cbn. split; apply map_eq; intros k; (destruct (decide (k = n)) as [->|Hk];
    [rewrite lookup_alter_eq, ?Hn, ?lookup_insert_eq; done|by rewrite lookup_alter_ne, ?lookup_insert_ne]).
Qed.

Lemma spec_addWeight_event n w m m' old : spec_addWeight n w m = Ok m' -> snd <$> m !! n = Some old ->
  let e := OnValidatorWeightChanged n old (old + w) in apply_event m e = m' /\ apply_event m' e = m'.
Proof.
  unfold spec_addWeight. destruct (m !! n) as [[[pk tx] o]|] eqn:Hn; [|done]. case_match; [|done].
  intros [= <-] [= <-]. by apply (weight_event n o (o + w) m (pk, tx, o)).
Qed.

Lemma spec_removeWeight_event n w m m' old : spec_removeWeight n w m = Ok m' -> snd <$> m !! n = Some old ->
  let e := if old =? w then OnValidatorRemoved n old else OnValidatorWeightChanged n old (old - w) in
  apply_event m e = m' /\ apply_event m' e = m'.
Proof.
  unfold spec_removeWeight. destruct (m !! n) as [[[pk tx] o]|] eqn:Hn; [|done]. case_match; [done|].
  intros Hm' [= <-]. destruct (o =? w); injection Hm' as <-.
  - split; [done|]. cbn. by apply delete_id, lookup_delete_eq.
  - by apply (weight_event n o (o - w) m (pk, tx, o)).
Qed.

(** *** Registration *)
Lemma announce_spec (nf : Event -> Notice) s log m : vrep s m ->
  announce nf (s, log) = ((s, log ++ ((fun v => nf (OnValidatorAdded (NodeID_ v) (PublicKey_ v) (TxID_ v) (Weight v))) <$> validators s)), Ok tt).
Proof.
  intros Hr. change (announce nf (s, log)) with (foldM (fun _ vdr => v ← deref vdr;
    notify [nf (OnValidatorAdded (NodeID_ v) (PublicKey_ v) (TxID_ v) (Weight v))]) (vdrSlice s) tt (s, log)).
  pose proof (validators_lookup s m Hr) as Hf. revert log. generalize dependent (validators s).
  generalize (vdrSlice s). intros l vs Hf. induction Hf as [|x v l vs Hv Hf IH]; intros log.
  { cbn. by rewrite app_nil_r. }
  cbn [foldM fmap list_fmap]. unfold mbind at 1, M_bind at 1.
  assert (forall log, (v ← deref x; notify [nf (OnValidatorAdded (NodeID_ v) (PublicKey_ v) (TxID_ v) (Weight v))]) (s, log) =
    ((s, log ++ [nf (OnValidatorAdded (NodeID_ v) (PublicKey_ v) (TxID_ v) (Weight v))]), Ok tt)) as ->.
  { intros log'. unfold deref, get_set, must, notify, modify, mbind, M_bind, get, mret, M_ret. cbn. rewrite Hv. done. }
  rewrite IH. by rewrite <- app_assoc.
Qed.

(** Announcing all the validators to someone who knows them, or nothing, tells
    them all. *)
Lemma replay_all s m m0 : vrep s m -> m0 = ∅ \/ m0 = m ->
  foldl apply_event m0 ((fun v => OnValidatorAdded (NodeID_ v) (PublicKey_ v) (TxID_ v) (Weight v)) <$> validators s) = m.
Proof.
  intros Hr Hm0. pose proof (validators_perm s m Hr) as Hp.
  assert (NoDup (entry <$> validators s).*1) as Hd by (rewrite Hp; apply NoDup_fst_map_to_list).
  transitivity (list_to_map (entry <$> validators s) ∪ m0).
  - clear Hp Hm0 Hr. revert m0. induction (validators s) as [|v vs IH]; intros m0; cbn in *; [by rewrite (left_id_L ∅ (∪))|].
    apply NoDup_cons in Hd as [Hn Hd]. rewrite IH by done. fold (val_of v).
    rewrite <- insert_union_l, <- insert_union_r; [done|]. by apply not_elem_of_list_to_map_1.
  - rewrite (list_to_map_proper _ _ Hd Hp), list_to_map_to_list. destruct Hm0 as [->| ->]; [by rewrite (right_id_L ∅ (∪))|by rewrite (idemp_L (∪))].
Qed.

Lemma vrep_listeners s m ms ls : vrep s m ->
  vrep (mkSet (subnetID s) (heap s) (vdrs s) (vdrSlice s) (weights s) (totalWeight s)
    (samplerInitialized s) (sampler s) (managerCallbackListeners s ++ ms) (setCallbackListeners s ++ ls)) m.
Proof. intros [? ? ? ? ? ?]. by split. Qed.

(** The calls that an announcement to [l] adds. *)
Lemma manager_calls_announce l l' sub (f : Validator -> Event) vs :
  manager_calls l' sub ((fun v => ManagerNotice l sub (f v)) <$> vs) = if decide (l = l') then f <$> vs else [].
Proof.
  unfold manager_calls. induction vs as [|v vs IH]; cbn; [by case_decide|].
  destruct (decide (l = l')) as [->|Hne]; [rewrite decide_True by done|rewrite decide_False by tauto; done].
  by rewrite IH.
Qed.

Lemma manager_calls_other l l' sub sub' (f : Validator -> Event) vs : sub' <> sub ->
  manager_calls l' sub' ((fun v => ManagerNotice l sub (f v)) <$> vs) = [].
Proof.
  intros Hne. unfold manager_calls. induction vs as [|v vs IH]; cbn; [done|].
  rewrite decide_False by (intros [_ ?]; done). done.
Qed.

Lemma set_calls_announce l l' (f : Validator -> Event) vs :
  set_calls l' ((fun v => SetNotice l (f v)) <$> vs) = if decide (l = l') then f <$> vs else [].
Proof.
  unfold set_calls. induction vs as [|v vs IH]; cbn; [by case_decide|].
  destruct (decide (l = l')); [by rewrite IH|done].
Qed.

Lemma manager_calls_set l l' sub (f : Validator -> Event) vs :
  manager_calls l' sub ((fun v => SetNotice l (f v)) <$> vs) = [].
Proof. unfold manager_calls. by induction vs. Qed.

Lemma set_calls_manager l l' sub (f : Validator -> Event) vs :
  set_calls l' ((fun v => ManagerNotice l sub (f v)) <$> vs) = [].
Proof. unfold set_calls. by induction vs. Qed.

Lemma manager_calls_app l sub log1 log2 : manager_calls l sub (log1 ++ log2) = manager_calls l sub log1 ++ manager_calls l sub log2.
Proof. apply omap_app. Qed.
Lemma set_calls_app l log1 log2 : set_calls l (log1 ++ log2) = set_calls l log1 ++ set_calls l log2.
Proof. apply omap_app. Qed.

(** The operation [op] has the result [r] of the contract. *)
Definition implements (op : VM unit) (r : result VdrErr vmap) (st : vdrSet * list Notice) : Prop :=
  match r with
  | Ok m => exists st', op st = (st', Ok tt) /\ vrep st'.1 m /\ in_sync st' m
  | Err e => op st = (st, Err e)
  end.

Lemma register_spec l s log m : vrep s m -> in_sync (s, log) m ->
  set_calls l log = [] \/ l ∈ setCallbackListeners s -> implements (RegisterCallbackListener l) (Ok m) (s, log).
Proof.
  intros Hr [Hm Hs] Hl. pose proof (vrep_listeners s m [] [l] Hr) as Hr'.
  pose proof (announce_spec (SetNotice l) _ log m Hr') as Ha. eexists. split; [exact Ha|]. split; [done|].
  split; cbn [fst snd subnetID managerCallbackListeners setCallbackListeners]; intros l' Hl';
    rewrite ?manager_calls_app, ?set_calls_app, replay_app.
  - rewrite app_nil_r in Hl'. by rewrite manager_calls_set; apply Hm.
  - rewrite set_calls_announce. case_decide as Hd; [subst l'|].
    + apply replay_all; [done|]. destruct Hl as [->|Hl]; [by left|right]. by apply Hs.
    + apply Hs. apply elem_of_app in Hl' as [|Hl']; [done|]. apply list_elem_of_singleton in Hl'. done.
Qed.

Lemma register_manager_spec l s log m : vrep s m -> in_sync (s, log) m ->
  manager_calls l (subnetID s) log = [] \/ l ∈ managerCallbackListeners s ->
  implements (RegisterManagerCallbackListener l) (Ok m) (s, log).
Proof.
  intros Hr [Hm Hs] Hl. pose proof (vrep_listeners s m [l] [] Hr) as Hr'.
  pose proof (announce_spec (ManagerNotice l (subnetID s)) _ log m Hr') as Ha. eexists. split; [exact Ha|]. split; [done|].
  split; cbn [fst snd subnetID managerCallbackListeners setCallbackListeners]; intros l' Hl';
    rewrite ?manager_calls_app, ?set_calls_app, replay_app.
  - rewrite manager_calls_announce. case_decide as Hd; [subst l'|].
    + apply replay_all; [done|]. destruct Hl as [->|Hl]; [by left|right]. by apply Hm.
    + apply Hm. apply elem_of_app in Hl' as [|Hl']; [done|]. apply list_elem_of_singleton in Hl'. done.
  - rewrite app_nil_r in Hl'. by rewrite set_calls_manager; apply Hs.
Qed.

(** the validator set, with its two slices and the pointers that they share
    with the map, is a map of validators: every operation has the result of the
    map's, an error changes nothing, the total is the exact sum of the weights
    even past 64 bits, and every listener that replays its calls knows the
    validators. *)
Theorem vdr_set_correct (st : vdrSet * list Notice) m n pk tx w l :
  vrep st.1 m -> in_sync st m -> is_u64 w ->
  implements (add n pk tx w) (spec_add n pk tx w m) st /\
  implements (addWeight n w) (spec_addWeight n w m) st /\
  implements (removeWeight n w) (spec_removeWeight n w m) st /\
  getWeight n st = (st, Ok (default 0 (snd <$> m !! n))) /\
  TotalWeight st = (st, Ok (total m)) /\
  len st = (st, Ok (size m)) /\
  Map st = (st, Ok ((fun v : Val => (v.1.1, v.2)) <$> m)) /\
  (set_calls l st.2 = [] \/ l ∈ setCallbackListeners st.1 -> implements (RegisterCallbackListener l) (Ok m) st) /\
  (manager_calls l (subnetID st.1) st.2 = [] \/ l ∈ managerCallbackListeners st.1 ->
     implements (RegisterManagerCallbackListener l) (Ok m) st).
Proof.
  destruct st as [s log]. cbn [fst snd]. intros Hr Hsy Hw. split; [|split; [|split]].
  - pose proof (add_spec n pk tx w s log m Hr Hw) as Ha. unfold implements.
    destruct (spec_add n pk tx w m) as [m'|e] eqn:Hsp; [|done]. destruct Ha as (st' & Hop & Hst). exists st'.
    split; [done|]. split; [apply Hst|]. destruct (spec_add_event n pk tx w m m' Hsp). by eapply stepped_sync.
  - pose proof (addWeight_spec n w s log m Hr Hw) as Ha. unfold implements.
    destruct (spec_addWeight n w m) as [m'|e] eqn:Hsp; [|done]. destruct Ha as (st' & old & Hop & Hold & Hst). exists st'.
    split; [done|]. split; [apply Hst|]. destruct (spec_addWeight_event n w m m' old Hsp Hold). by eapply stepped_sync.
  - pose proof (removeWeight_spec n w s log m Hr Hw) as Ha. unfold implements.
    destruct (spec_removeWeight n w m) as [m'|e] eqn:Hsp; [|done]. destruct Ha as (st' & old & Hop & Hold & Hst). exists st'.
    split; [done|]. split; [apply Hst|]. destruct (spec_removeWeight_event n w m m' old Hsp Hold). by eapply stepped_sync.
  - split; [by apply getWeight_spec|]. split; [by rewrite <- (vr_total _ _ Hr)|]. split; [by apply len_spec|].
    split; [by apply Map_spec|]. split; [by apply register_spec|by apply register_manager_spec].
Qed.

(** ** The manager *)
Record manager := mkManager {
  subnetToVdrs : gmap SubnetID vdrSet;
  callbackListeners : list Listener;
  mlog : list Notice;
}.

Abbreviation MM := (M manager VdrErr).

Definition NewManager : manager := mkManager ∅ [] [].

(** A method of the set [s] of [sub], whose changes are those of the map's set. *)
Definition in_subnet {A} (sub : SubnetID) (s : vdrSet) (op : VM A) : MM A := fun mg =>
  let '((s, log), r) := op (s, mlog mg) in
  (mkManager (<[sub := s]> (subnetToVdrs mg)) (callbackListeners mg) log, r).

Section manager.
Context `{!WeightedWithoutReplacement, !KeyOrder SubnetID}.
Implicit Types (ms : manager) (sub : SubnetID).

(** The set of [sub], or a new one. *)
Definition subnet_or_new (sub : SubnetID) : MM vdrSet :=
  mg ← get;
  mret (match subnetToVdrs mg !! sub with Some s => s | None => newSet sub (callbackListeners mg) end).

Definition AddStaker (sub : SubnetID) (nodeID : NodeID) (pk : PublicKey) (txID : TxID) (weight : Z) : MM unit :=
  if weight =? 0 then fail ErrZeroWeight
  else
    s ← subnet_or_new sub;
    in_subnet sub s (add nodeID pk txID weight).

Definition AddWeight (sub : SubnetID) (nodeID : NodeID) (weight : Z) : MM unit :=
  if weight =? 0 then fail ErrZeroWeight
  else
    mg ← get;
    match subnetToVdrs mg !! sub with
    | None => fail errMissingValidator
    | Some s => in_subnet sub s (addWeight nodeID weight)
    end.

Definition RemoveWeight (sub : SubnetID) (nodeID : NodeID) (weight : Z) : MM unit :=
  if weight =? 0 then fail ErrZeroWeight
  else
    mg ← get;
    match subnetToVdrs mg !! sub with
    | None => fail errMissingValidator
    | Some s =>
        in_subnet sub s (removeWeight nodeID weight);;
        mg ← get;
        s ← must Panic (subnetToVdrs mg !! sub);
        if (Z.of_nat (length (vdrSlice s)) =? 0) && negb (0 <? Z.of_nat (length (setCallbackListeners s))) then
          modify (fun mg => mkManager (delete sub (subnetToVdrs mg)) (callbackListeners mg) (mlog mg))
        else mret tt
    end.

Definition GetWeight (sub : SubnetID) (nodeID : NodeID) : MM Z :=
  mg ← get;
  match subnetToVdrs mg !! sub with
  | None => mret 0
  | Some s => in_subnet sub s (getWeight nodeID)
  end.

Definition NumSubnets : MM Z := mg ← get; mret (Z.of_nat (size (subnetToVdrs mg))).

Definition NumValidators (sub : SubnetID) : MM nat :=
  mg ← get;
  match subnetToVdrs mg !! sub with
  | None => mret 0%nat
  | Some s => in_subnet sub s len
  end.

Definition mTotalWeight (sub : SubnetID) : MM Z :=
  mg ← get;
  match subnetToVdrs mg !! sub with
  | None => mret 0
  | Some s => in_subnet sub s TotalWeight
  end.

Definition GetMap (sub : SubnetID) : MM (gmap NodeID (PublicKey * Z)) :=
  mg ← get;
  match subnetToVdrs mg !! sub with
  | None => mret ∅
  | Some s => in_subnet sub s Map
  end.

Definition GetValidator (sub : SubnetID) (nodeID : NodeID) : MM (option Validator) :=
  mg ← get;
  match subnetToVdrs mg !! sub with
  | None => mret None
  | Some s => in_subnet sub s (get_validator nodeID)
  end.

Definition SubsetWeight `{!KeyOrder NodeID} (sub : SubnetID) (validatorIDs : gset NodeID) : MM Z :=
  mg ← get;
  match subnetToVdrs mg !! sub with
  | None => mret 0
  | Some s => in_subnet sub s (subsetWeight validatorIDs)
  end.

Definition mGetValidatorIDs (sub : SubnetID) : MM (list NodeID) :=
  mg ← get;
  match subnetToVdrs mg !! sub with
  | None => mret []
  | Some s => in_subnet sub s GetValidatorIDs
  end.

Definition mSample `{!Inhabited NodeID} (sub : SubnetID) (k : nat) : MM (list NodeID) :=
  if decide (k = 0%nat) then mret []
  else
    mg ← get;
    match subnetToVdrs mg !! sub with
    | None => fail ErrMissingValidators
    | Some s => in_subnet sub s (sample k)
    end.

Definition GetAllMaps : MM (gmap SubnetID (gmap NodeID (PublicKey * Z))) :=
  mg ← get;
  foldM (fun acc sub => x ← GetMap sub; mret (<[sub := x]> acc)) (keys (dom (subnetToVdrs mg))) ∅.

Definition register_step (l : Listener) (_ : unit) (sub : SubnetID) : MM unit :=
  mg ← get;
  s ← must Panic (subnetToVdrs mg !! sub);
  in_subnet sub s (RegisterManagerCallbackListener l).

Definition mRegisterCallbackListener (l : Listener) : MM unit :=
  mg ← get;
  modify (fun mg => mkManager (subnetToVdrs mg) (callbackListeners mg ++ [l]) (mlog mg));;
  foldM (register_step l) (keys (dom (subnetToVdrs mg))) tt.

Definition RegisterSetCallbackListener (sub : SubnetID) (l : Listener) : MM unit :=
  s ← subnet_or_new sub;
  in_subnet sub s (RegisterCallbackListener l).

(** [l] is registered at the set of [sub]. *)
Definition listens ms sub (l : Listener) : Prop :=
  exists s, subnetToVdrs ms !! sub = Some s /\ l ∈ setCallbackListeners s.

(** The calls of a set's listener do not name the subnet: a listener that is registered
    at one set knows its validators from all its calls; one that is registered nowhere
    has not been called.  [L] tells who is registered where. *)
Definition set_known (L : SubnetID -> Listener -> Prop) (A : SubnetID -> vmap) (log : list Notice) : Prop :=
  (forall sub l, L sub l -> (forall sub', L sub' l -> sub' = sub) -> replay (set_calls l log) = A sub) /\
  (forall l, (forall sub, ~ L sub l) -> set_calls l log = []).

(** [mrep ms A]: the manager holds the validators [A sub] of every subnet; a listener
    of the manager that replays its calls for a subnet knows them, and so does a
    listener of a set. *)
Record mrep ms (A : SubnetID -> vmap) : Prop := {
  mr_sets sub s : subnetToVdrs ms !! sub = Some s ->
    vrep s (A sub) /\ subnetID s = sub /\ managerCallbackListeners s = callbackListeners ms;
  mr_none sub : subnetToVdrs ms !! sub = None -> A sub = ∅;
  mr_sync l sub : l ∈ callbackListeners ms -> replay (manager_calls l sub (mlog ms)) = A sub;
  mr_quiet l sub : l ∉ callbackListeners ms -> manager_calls l sub (mlog ms) = [];
  mr_set : set_known (listens ms) A (mlog ms);
}.

(** The same listeners are registered at the same places. *)
Definition same_registered ms ms' : Prop :=
  callbackListeners ms' = callbackListeners ms /\ forall sub l, listens ms' sub l <-> listens ms sub l.

Lemma set_known_ext (L L' : SubnetID -> Listener -> Prop) A log : (forall sub l, L' sub l <-> L sub l) -> set_known L A log -> set_known L' A log.
Proof.
  intros HL [HS1 HS2]. split.
  - intros sub l Hl Hu. apply HS1; [by apply HL|]. intros sub' Hl'. by apply Hu, HL.
  - intros l Hl. apply HS2. intros sub Hs. by apply (Hl sub), HL.
Qed.

Lemma listens_put ms sub s s' ls log : subnetToVdrs ms !! sub = Some s \/ subnetToVdrs ms !! sub = None /\ setCallbackListeners s = [] ->
  forall sub' l, listens (mkManager (<[sub := s']> (subnetToVdrs ms)) ls log) sub' l <->
    (if decide (sub' = sub) then l ∈ setCallbackListeners s' else listens ms sub' l).
Proof.
  intros Hs sub' l. unfold listens. cbn. destruct (decide (sub' = sub)) as [->|Hne].
  - rewrite lookup_insert_eq. naive_solver.
  - by rewrite lookup_insert_ne.
Qed.
Lemma listens_same ms sub s s' ls log : subnetToVdrs ms !! sub = Some s \/ subnetToVdrs ms !! sub = None /\ setCallbackListeners s = [] ->
  setCallbackListeners s' = setCallbackListeners s ->
  forall sub' l, listens (mkManager (<[sub := s']> (subnetToVdrs ms)) ls log) sub' l <-> listens ms sub' l.
Proof.
  intros Hs He sub' l. rewrite (listens_put ms sub s) by done. case_decide as Hd; [subst sub'|done]. rewrite He. unfold listens.
  destruct Hs as [Hs|[Hs He0]]; rewrite Hs; [naive_solver|]. rewrite He0, elem_of_nil. naive_solver.
Qed.

Lemma set_calls_other s e l : l ∉ setCallbackListeners s -> set_calls l (notices s e) = [].
Proof.
  intros Hl. unfold set_calls, notices. rewrite omap_app. apply app_nil. split; [by induction (managerCallbackListeners s)|].
  induction (setCallbackListeners s) as [|l' ls IH]; cbn; [done|]. rewrite decide_False by (intros ->; apply Hl; by left).
  apply IH. set_solver.
Qed.

(** A step of the set of [sub], told to its listeners. *)
Lemma set_known_step (L : SubnetID -> Listener -> Prop) A log sub s e m' : (forall l, L sub l <-> l ∈ setCallbackListeners s) ->
  set_known L A log -> apply_event (A sub) e = m' -> apply_event m' e = m' ->
  set_known L (fun sub' => if decide (sub' = sub) then m' else A sub') (log ++ notices s e).
Proof.
  intros HL [HS1 HS2] He1 He2. split.
  - intros sub' l Hl Hu. rewrite set_calls_app, replay_app, (HS1 sub') by done. destruct (decide (sub' = sub)) as [->|Hne].
    + apply HL in Hl. destruct (set_calls_notices s e l Hl). by eapply foldl_repeat.
    + rewrite set_calls_other; [done|]. intros Hin%HL%Hu. congruence.
  - intros l Hl. rewrite set_calls_app, (HS2 l Hl). apply set_calls_other. intros ?%HL. by eapply Hl.
Qed.

Definition updA (A : SubnetID -> vmap) (sub : SubnetID) (m : vmap) (sub' : SubnetID) : vmap :=
  if decide (sub' = sub) then m else A sub'.

Lemma NewManager_rep : mrep NewManager (fun _ => ∅).
Proof.
  by split.
Qed.

Lemma newSet_rep sub ls : vrep (newSet sub ls) ∅.
Proof. by split; cbn. Qed.

Lemma notices_calls_other s e l sub : sub <> subnetID s \/ l ∉ managerCallbackListeners s ->
  manager_calls l sub (notices s e) = [].
Proof.
  intros Hne. unfold manager_calls, notices. rewrite omap_app. apply app_nil. split.
  - induction (managerCallbackListeners s) as [|l' ls IH]; cbn; [done|].
    rewrite decide_False by (intros [<- Heq]; destruct Hne as [Hne|Hne]; [by apply Hne|apply Hne; by left]).
    apply IH. destruct Hne as [|Hne]; [by left|right]. set_solver.
  - by induction (setCallbackListeners s).
Qed.

(** A step of one set is a step of the manager. *)
Lemma mrep_step ms A sub s st' m' e : mrep ms A -> 
  match subnetToVdrs ms !! sub with Some s0 => s = s0 | None => s = newSet sub (callbackListeners ms) end ->
  stepped (s, mlog ms) st' m' e -> apply_event (A sub) e = m' -> apply_event m' e = m' ->
  let ms' := mkManager (<[sub := st'.1]> (subnetToVdrs ms)) (callbackListeners ms) st'.2 in
  mrep ms' (updA A sub m') /\ same_registered ms ms'.
Proof.
  intros Hr Hs (Hv & (E1 & E2 & E3) & Hlog & _) He1 He2 ms'. cbn [fst snd] in *.
  assert (subnetToVdrs ms !! sub = Some s \/ subnetToVdrs ms !! sub = None /\ setCallbackListeners s = []) as Hsl.
  { destruct (subnetToVdrs ms !! sub); subst s; [by left|by right]. }
  pose proof (listens_same ms sub s st'.1 (callbackListeners ms) st'.2 Hsl E3) as HL. split; [subst ms'|done].
  assert (subnetID s = sub /\ managerCallbackListeners s = callbackListeners ms) as [Hid Hls].
  { destruct (subnetToVdrs ms !! sub) as [s0|] eqn:Hs0; subst s; [|done]. by apply (mr_sets _ _ Hr). }
  split; cbn [subnetToVdrs callbackListeners mlog]; unfold updA.
  - intros sub' s' Hs'. destruct (decide (sub' = sub)) as [->|Hne].
    + rewrite lookup_insert_eq in Hs'. injection Hs' as <-. split; [done|]. by rewrite E1, E2.
    + rewrite lookup_insert_ne in Hs' by done. by apply (mr_sets _ _ Hr).
  - intros sub' Hs'. destruct (decide (sub' = sub)) as [->|Hne]; [by rewrite lookup_insert_eq in Hs'|].
    rewrite lookup_insert_ne in Hs' by done. by apply (mr_none _ _ Hr).
  - intros l sub' Hl. rewrite Hlog, manager_calls_app, replay_app, (mr_sync _ _ Hr) by done.
    destruct (decide (sub' = sub)) as [->|Hne].
    + rewrite <- Hls in Hl. destruct (manager_calls_notices s e l Hl) as [Ha Hb]. rewrite Hid in Ha, Hb. by eapply foldl_repeat.
    + by rewrite (notices_calls_other s e l sub') by (left; rewrite Hid; done).
  - intros l sub' Hl. rewrite Hlog, manager_calls_app, (mr_quiet _ _ Hr), notices_calls_other; [done| |done].
    right. by rewrite Hls.
  - apply (set_known_ext (listens ms)); [exact HL|]. rewrite Hlog. apply set_known_step; [|apply Hr|done|done].
    intros l. unfold listens. destruct Hsl as [Hsl|[Hsl He]]; rewrite Hsl; [naive_solver|]. rewrite He, elem_of_nil. naive_solver.
Qed.

(** [op] has the result [r] of the contract for the validators of [sub]. *)
Definition mimplements (op : MM unit) (r : result VdrErr vmap) ms (A : SubnetID -> vmap) (sub : SubnetID) : Prop :=
  match r with
  | Ok m => exists ms', op ms = (ms', Ok tt) /\ mrep ms' (updA A sub m) /\ same_registered ms ms'
  | Err e => op ms = (ms, Err e)
  end.

Lemma in_subnet_same {A} sub s (op : VM A) ms e : subnetToVdrs ms !! sub = Some s ->
  op (s, mlog ms) = ((s, mlog ms), e) -> in_subnet sub s op ms = (ms, e).
Proof. intros Hs Hop. unfold in_subnet. rewrite Hop, insert_id by done. by destruct ms. Qed.

(** What the maps show of the validators. *)
Definition key_and_weight (v : Val) : PublicKey * Z := (v.1.1, v.2).
Lemma GetMap_spec ms A sub : mrep ms A -> GetMap sub ms = (ms, Ok (key_and_weight <$> A sub)).
Proof.
  intros Hr. unfold GetMap, mbind, M_bind, get. destruct (subnetToVdrs ms !! sub) as [s|] eqn:Hs; [|by rewrite (mr_none _ _ Hr _ Hs)].
  destruct (mr_sets _ _ Hr sub s Hs) as (Hv & _). apply in_subnet_same; [done|]. by apply Map_spec.
Qed.
Lemma GetAllMaps_spec ms A : mrep ms A -> exists all, GetAllMaps ms = (ms, Ok all) /\
  forall sub, all !! sub = if decide (is_Some (subnetToVdrs ms !! sub)) then Some (key_and_weight <$> A sub) else None.
Proof.
  intros Hr. unfold GetAllMaps. set (l := keys (dom (subnetToVdrs ms))). set (f := fun acc sub => x ← GetMap sub; mret (<[sub := x]> acc)).
  assert (forall l (acc : gmap SubnetID (gmap NodeID (PublicKey * Z))), foldM f l acc ms = (ms, Ok (foldl (fun acc sub => <[sub := key_and_weight <$> A sub]> acc) acc l))) as Hfold.
  { clear l. induction l as [|sub l IH]; intros acc; [done|]. cbn. unfold mbind at 1, M_bind at 1. unfold f at 1. unfold mbind, M_bind. rewrite (GetMap_spec _ _ _ Hr). apply IH. }
  assert (forall l (acc : gmap SubnetID (gmap NodeID (PublicKey * Z))) sub, foldl (fun acc sub => <[sub := key_and_weight <$> A sub]> acc) acc l !! sub =
    if decide (sub ∈ l) then Some (key_and_weight <$> A sub) else acc !! sub) as Hlook.
  { clear. induction l as [|x l IH] using rev_ind; intros acc sub; [by rewrite decide_False by apply not_elem_of_nil|]. rewrite foldl_app. cbn. destruct (decide (sub = x)) as [->|Hne].
    - rewrite lookup_insert_eq, decide_True; [done|]. apply elem_of_app. right. by left.
    - rewrite lookup_insert_ne, IH by done. destruct (decide (sub ∈ l)) as [Hin|Hni].
      + rewrite decide_True; [done|]. apply elem_of_app. by left.
      + rewrite decide_False; [done|]. intros [?|?%list_elem_of_singleton]%elem_of_app; done. }
  eexists. unfold mbind, M_bind, get. fold l. rewrite Hfold. split; [done|]. intros sub. rewrite Hlook, lookup_empty.
  assert (sub ∈ l <-> is_Some (subnetToVdrs ms !! sub)) as Hin by (unfold l; by rewrite elem_of_keys, elem_of_dom).
  destruct (decide (sub ∈ l)) as [Hs|Hs], (decide (is_Some (subnetToVdrs ms !! sub))) as [Hs'|Hs']; try done; by apply Hin in Hs || by (destruct Hs; apply Hin).
Qed.

Lemma AddStaker_spec ms A sub n pk tx w : mrep ms A -> is_u64 w -> w <> 0 ->
  mimplements (AddStaker sub n pk tx w) (spec_add n pk tx w (A sub)) ms A sub.
Proof.
  intros Hr Hw Hw0. unfold mimplements, AddStaker. replace (w =? 0) with false by lia.
  set (s := match subnetToVdrs ms !! sub with Some s => s | None => newSet sub (callbackListeners ms) end).
  change ((s ← subnet_or_new sub; in_subnet sub s (add n pk tx w)) ms) with (in_subnet sub s (add n pk tx w) ms).
  assert (vrep s (A sub)) as Hv.
  { subst s. destruct (subnetToVdrs ms !! sub) as [s|] eqn:Hs; [by destruct (mr_sets _ _ Hr sub s Hs)|].
    rewrite (mr_none _ _ Hr) by done. apply newSet_rep. }
  pose proof (add_spec n pk tx w s (mlog ms) (A sub) Hv Hw) as Ha.
  destruct (spec_add n pk tx w (A sub)) as [m'|e] eqn:Hsp.
  - destruct Ha as ([s' log'] & Hop & Hst). eexists. split; [unfold in_subnet; by rewrite Hop|].
    destruct (spec_add_event n pk tx w (A sub) m' Hsp) as [He1 He2].
    apply (mrep_step ms A sub s (s', log') m' (OnValidatorAdded n pk tx w)); try done.
    subst s. by destruct (subnetToVdrs ms !! sub).
  - destruct (subnetToVdrs ms !! sub) as [s0|] eqn:Hs; [by apply in_subnet_same|].
    unfold spec_add in Hsp. rewrite (mr_none _ _ Hr _ Hs), lookup_empty in Hsp. done.
Qed.

Lemma AddWeight_spec ms A sub n w : mrep ms A -> is_u64 w -> w <> 0 ->
  mimplements (AddWeight sub n w) (spec_addWeight n w (A sub)) ms A sub.
Proof.
  intros Hr Hw Hw0. unfold mimplements, AddWeight. replace (w =? 0) with false by lia.
  unfold mbind, M_bind, get. destruct (subnetToVdrs ms !! sub) as [s|] eqn:Hs.
  2:{ rewrite (mr_none _ _ Hr _ Hs). unfold spec_addWeight. by rewrite lookup_empty. }
  destruct (mr_sets _ _ Hr sub s Hs) as (Hv & _).
  pose proof (addWeight_spec n w s (mlog ms) (A sub) Hv Hw) as Ha.
  destruct (spec_addWeight n w (A sub)) as [m'|e] eqn:Hsp; [|by apply in_subnet_same].
  destruct Ha as ([s' log'] & old & Hop & Hold & Hst). eexists. split; [unfold in_subnet; by rewrite Hop|].
  destruct (spec_addWeight_event n w (A sub) m' old Hsp Hold) as [He1 He2].
  apply (mrep_step ms A sub s (s', log') m' (OnValidatorWeightChanged n old (old + w))); try done. by rewrite Hs.
Qed.

Lemma mrep_drop ms A sub s : mrep ms A -> subnetToVdrs ms !! sub = Some s -> vdrSlice s = [] -> setCallbackListeners s = [] ->
  let ms' := mkManager (delete sub (subnetToVdrs ms)) (callbackListeners ms) (mlog ms) in mrep ms' A /\ same_registered ms ms'.
Proof.
  intros Hr Hs He Hn ms'. assert (forall sub' l, listens ms' sub' l <-> listens ms sub' l) as HL.
  { intros sub' l. unfold listens. cbn. destruct (decide (sub' = sub)) as [->|Hne]; [|by rewrite lookup_delete_ne].
    rewrite lookup_delete_eq, Hs. split; [naive_solver|]. intros (s0 & [= <-] & Hl). rewrite Hn in Hl. by apply elem_of_nil in Hl. }
  split; [subst ms'|done]. split; cbn.
  - intros sub' s' [_ Hs']%lookup_delete_Some. by apply (mr_sets _ _ Hr).
  - intros sub' Hs'. destruct (decide (sub' = sub)) as [->|Hne]; [|rewrite lookup_delete_ne in Hs' by done; by apply (mr_none _ _ Hr)].
    destruct (mr_sets _ _ Hr sub s Hs) as (Hv & _). pose proof (len_spec s [] (A sub) Hv) as Hl.
    unfold len, get_set, mbind, M_bind, get, mret, M_ret in Hl. cbn in Hl. rewrite He in Hl. injection Hl as Hl.
    by apply map_size_empty_inv.
  - apply (mr_sync _ _ Hr).
  - apply (mr_quiet _ _ Hr).
  - by apply (set_known_ext (listens ms)), Hr.
Qed.

Lemma RemoveWeight_spec ms A sub n w : mrep ms A -> is_u64 w -> w <> 0 ->
  mimplements (RemoveWeight sub n w) (spec_removeWeight n w (A sub)) ms A sub.
Proof.
  intros Hr Hw Hw0. unfold mimplements, RemoveWeight. replace (w =? 0) with false by lia.
  destruct (subnetToVdrs ms !! sub) as [s|] eqn:Hs.
  2:{ rewrite (mr_none _ _ Hr _ Hs). unfold spec_removeWeight. rewrite lookup_empty.
      unfold mbind, M_bind, get. by rewrite Hs. }
  destruct (mr_sets _ _ Hr sub s Hs) as (Hv & _).
  pose proof (removeWeight_spec n w s (mlog ms) (A sub) Hv Hw) as Ha.
  destruct (spec_removeWeight n w (A sub)) as [m'|e] eqn:Hsp.
  2:{ pose proof (in_subnet_same _ _ _ _ _ Hs Ha) as Hop. unfold mbind, M_bind, get. by rewrite Hs, Hop. }
  destruct Ha as ([s' log'] & old & Hop & Hold & Hst). unfold mbind at 1, M_bind at 1, get at 1. rewrite Hs.
  unfold mbind at 1, M_bind at 1. unfold in_subnet at 1. rewrite Hop.
  set (ms1 := mkManager _ _ _). pose proof (spec_removeWeight_event n w (A sub) m' old Hsp Hold) as [He1 He2].
  assert (mrep ms1 (updA A sub m') /\ same_registered ms ms1) as [Hr1 Hsr] by (apply (mrep_step ms A sub s (s', log') m'
    (if old =? w then OnValidatorRemoved n old else OnValidatorWeightChanged n old (old - w)) Hr); [by rewrite Hs|exact Hst|done|done]).
  assert (subnetToVdrs ms1 !! sub = Some s') as Hs1 by apply lookup_insert_eq.
  unfold mbind, M_bind, get. rewrite Hs1. cbn [must mret M_ret].
  destruct (Z.eqb_spec (Z.of_nat (length (vdrSlice s'))) 0) as [Hl|Hl]; cbn [andb]; [|by exists ms1].
  destruct (Z.ltb_spec 0 (Z.of_nat (length (setCallbackListeners s')))) as [Hc|Hc]; cbn [negb]; [by exists ms1|]. eexists. split; [done|].
  destruct (mrep_drop ms1 _ sub s' Hr1 Hs1) as [Hr2 Hsr2]; [apply nil_length_inv; lia|apply nil_length_inv; lia|]. split; [exact Hr2|].
  destruct Hsr as [Hl1 HL1], Hsr2 as [Hl2 HL2]. split; [by rewrite Hl2|]. intros sub' l. by rewrite HL2, HL1.
Qed.

Lemma in_register l ms A sub s : mrep ms A -> subnetToVdrs ms !! sub = Some s \/ subnetToVdrs ms !! sub = None /\ s = newSet sub (callbackListeners ms) ->
  exists ms', in_subnet sub s (RegisterCallbackListener l) ms = (ms', Ok tt) /\ mrep ms' A /\
    callbackListeners ms' = callbackListeners ms /\ forall sub' l', listens ms' sub' l' <-> listens ms sub' l' \/ sub' = sub /\ l' = l.
Proof.
  intros Hr Hs.
  assert (subnetToVdrs ms !! sub = Some s \/ subnetToVdrs ms !! sub = None /\ setCallbackListeners s = []) as Hs0.
  { destruct Hs as [|[? ->]]; [by left|by right]. }
  assert (forall l', l' ∈ setCallbackListeners s <-> listens ms sub l') as Hin.
  { intros l'. unfold listens. destruct Hs0 as [Hs1|[Hs1 He]]; rewrite Hs1; [naive_solver|]. rewrite He, elem_of_nil. naive_solver. }
  assert (vrep s (A sub) /\ subnetID s = sub /\ managerCallbackListeners s = callbackListeners ms) as (Hv & Hid & Hls).
  { destruct Hs as [Hs|[Hs ->]]; [by apply (mr_sets _ _ Hr)|]. rewrite (mr_none _ _ Hr) by done. split; [apply newSet_rep|done]. }
  pose proof (vrep_listeners s (A sub) [] [l] Hv) as Hv'.
  pose proof (announce_spec (SetNotice l) _ (mlog ms) (A sub) Hv' :
    RegisterCallbackListener l (s, mlog ms) = _) as Ha.
  eexists. split; [unfold in_subnet; by rewrite Ha|].
  match goal with |- mrep ?ms1 _ /\ _ => assert (forall sub' l', listens ms1 sub' l' <-> listens ms sub' l' \/ sub' = sub /\ l' = l) as HL end.
  { intros sub' l'. rewrite (listens_put ms sub s) by done. case_decide as Hd; [subst sub'|naive_solver]. cbn.
    rewrite elem_of_app, Hin, list_elem_of_singleton. naive_solver. }
  split; [|done].
  split; cbn [subnetToVdrs callbackListeners mlog].
  - intros sub' s' Hs'. destruct (decide (sub' = sub)) as [->|Hne].
    + rewrite lookup_insert_eq in Hs'. injection Hs' as <-. split; [done|]. cbn. by rewrite app_nil_r.
    + rewrite lookup_insert_ne in Hs' by done. by apply (mr_sets _ _ Hr).
  - intros sub' Hs'. destruct (decide (sub' = sub)) as [->|Hne]; [by rewrite lookup_insert_eq in Hs'|].
    rewrite lookup_insert_ne in Hs' by done. by apply (mr_none _ _ Hr).
  - intros l' sub' Hl. rewrite manager_calls_app, manager_calls_set, app_nil_r. by apply (mr_sync _ _ Hr).
  - intros l' sub' Hl. rewrite manager_calls_app, manager_calls_set, app_nil_r. by apply (mr_quiet _ _ Hr).
  - eapply set_known_ext; [exact HL|]. destruct (mr_set _ _ Hr) as [HS1 HS2]. split.
    + intros sub' l' Hl Hu. rewrite set_calls_app, set_calls_announce, replay_app. destruct (decide (l = l')) as [<-|Hne].
      * assert (sub' = sub) as -> by (symmetry; apply Hu; by right). apply (replay_all _ _ _ Hv').
        destruct (decide (l ∈ setCallbackListeners s)) as [Hd|Hd].
        -- right. apply HS1; [by apply Hin|]. intros sub2 Hl2. apply Hu. by left.
        -- left. rewrite HS2; [done|]. intros sub2 Hl2. assert (sub2 = sub) as -> by (apply Hu; by left). by apply Hd, Hin.
      * apply HS1; [destruct Hl as [|[_ ->]]; done|]. intros sub2 Hl2. apply Hu. by left.
    + intros l' Hl. rewrite set_calls_app, set_calls_announce, HS2 by (intros sub2 Hl2; apply (Hl sub2); by left).
      rewrite decide_False; [done|]. intros <-. apply (Hl sub). by right.
Qed.

(** While a new listener [l] is told the sets, in the order of the map: [P] are
    the subnets that know it already. *)
Record registering (L : SubnetID -> Listener -> Prop) (l : Listener) (ls : list Listener) (A : SubnetID -> vmap) (P : gset SubnetID) ms : Prop := {
  rg_listeners : callbackListeners ms = ls ++ [l];
  rg_sets sub s : subnetToVdrs ms !! sub = Some s -> vrep s (A sub) /\ subnetID s = sub /\
    managerCallbackListeners s = if decide (sub ∈ P) then ls ++ [l] else ls;
  rg_none sub : subnetToVdrs ms !! sub = None -> A sub = ∅;
  rg_sync l' sub : l' ∈ ls \/ l' = l /\ sub ∈ P -> replay (manager_calls l' sub (mlog ms)) = A sub;
  rg_quiet l' sub : l' ∉ ls -> l' <> l \/ sub ∉ P -> manager_calls l' sub (mlog ms) = [];
  rg_listens sub l' : listens ms sub l' <-> L sub l';
  rg_set : set_known L A (mlog ms);
}.

Lemma register_step_spec L l ls A P ms sub s : registering L l ls A P ms -> subnetToVdrs ms !! sub = Some s -> sub ∉ P ->
  exists ms', register_step l tt sub ms = (ms', Ok tt) /\ registering L l ls A ({[sub]} ∪ P) ms' /\
    dom (subnetToVdrs ms') = dom (subnetToVdrs ms).
Proof.
  intros Hr Hs HP. destruct (rg_sets _ _ _ _ _ _ Hr sub s Hs) as (Hv & Hid & Hls). rewrite decide_False in Hls by done.
  pose proof (vrep_listeners s (A sub) [l] [] Hv) as Hv'.
  pose proof (announce_spec (ManagerNotice l (subnetID s)) _ (mlog ms) (A sub) Hv' :
    RegisterManagerCallbackListener l (s, mlog ms) = _) as Ha. cbn [validators] in Ha. rewrite Hid in Ha.
  eexists. split; [unfold register_step, mbind, M_bind, get; rewrite Hs; cbn [must mret M_ret]; unfold in_subnet; by rewrite Ha|].
  split; [split; cbn [subnetToVdrs callbackListeners mlog]|cbn; apply elem_of_dom_2 in Hs; set_solver].
  - apply (rg_listeners _ _ _ _ _ _ Hr).
  - intros sub' s' Hs'. destruct (decide (sub' = sub)) as [->|Hne].
    + rewrite lookup_insert_eq in Hs'. injection Hs' as <-. rewrite decide_True by set_solver. split; [by rewrite Hid in Hv'|]. cbn. by rewrite Hls.
    + rewrite lookup_insert_ne in Hs' by done. destruct (rg_sets _ _ _ _ _ _ Hr sub' s' Hs') as (? & ? & Hl).
      split; [done|]. split; [done|]. rewrite Hl. repeat case_decide; (done || set_solver).
  - intros sub' Hs'. destruct (decide (sub' = sub)) as [->|Hne]; [by rewrite lookup_insert_eq in Hs'|].
    rewrite lookup_insert_ne in Hs' by done. by apply (rg_none _ _ _ _ _ _ Hr).
  - intros l' sub' Hl. rewrite manager_calls_app, replay_app. destruct (decide (sub' = sub)) as [->|Hne].
    + rewrite manager_calls_announce. case_decide as Hd.
      * subst l'. apply (replay_all _ _ _ Hv'). destruct (decide (l ∈ ls)) as [Hin|Hin].
        -- right. apply (rg_sync _ _ _ _ _ _ Hr). by left.
        -- left. rewrite (rg_quiet _ _ _ _ _ _ Hr); [done|done|by right].
      * apply (rg_sync _ _ _ _ _ _ Hr). destruct Hl as [|[-> _]]; [by left|done].
    + rewrite manager_calls_other by done. apply (rg_sync _ _ _ _ _ _ Hr). set_solver.
  - intros l' sub' Hl Hne. rewrite manager_calls_app, (rg_quiet _ _ _ _ _ _ Hr) by set_solver.
    destruct (decide (sub' = sub)) as [->|Hns]; [|by rewrite manager_calls_other].
    rewrite manager_calls_announce. case_decide; [subst; set_solver|done].
  - intros sub' l'. rewrite <- (rg_listens _ _ _ _ _ _ Hr). apply (listens_same ms sub s); [by left|]. cbn. by rewrite app_nil_r.
  - destruct (rg_set _ _ _ _ _ _ Hr) as [HS1 HS2]. split.
    + intros sub' l' Hl Hu. rewrite set_calls_app, set_calls_manager, app_nil_r. by apply HS1.
    + intros l' Hl. rewrite set_calls_app, set_calls_manager, app_nil_r. by apply HS2.
Qed.

Lemma register_fold L l ls A subs P ms : registering L l ls A P ms -> NoDup subs ->
  (forall sub, sub ∈ subs -> sub ∈ dom (subnetToVdrs ms) /\ sub ∉ P) ->
  exists ms', foldM (register_step l) subs tt ms = (ms', Ok tt) /\ registering L l ls A (list_to_set subs ∪ P) ms' /\
    dom (subnetToVdrs ms') = dom (subnetToVdrs ms).
Proof.
  intros Hr Hd. revert P ms Hr. induction Hd as [|sub subs Hn _ IH]; intros P ms Hr Hin.
  { exists ms. split; [done|]. rewrite list_to_set_nil. by rewrite (left_id_L ∅ (∪)). }
  destruct (Hin sub) as [[s Hs]%elem_of_dom HP]; [by left|].
  destruct (register_step_spec L l ls A P ms sub s Hr Hs HP) as (ms1 & Hop & Hr1 & Hd1).
  destruct (IH _ ms1 Hr1) as (ms2 & Hop2 & Hr2 & Hd2).
  { intros sub' Hs'. destruct (Hin sub') as [? ?]; [by right|]. rewrite Hd1. split; [done|]. set_solver. }
  exists ms2. cbn [foldM]. unfold mbind, M_bind. rewrite Hop. split; [exact Hop2|]. split; [|congruence].
  rewrite list_to_set_cons. replace ({[sub]} ∪ list_to_set subs ∪ P) with (list_to_set subs ∪ ({[sub]} ∪ P)) by set_solver. done.
Qed.

Lemma mRegister_spec ms A l : mrep ms A ->
  exists ms', mRegisterCallbackListener l ms = (ms', Ok tt) /\ mrep ms' A /\ callbackListeners ms' = callbackListeners ms ++ [l] /\
    forall sub' l', listens ms' sub' l' <-> listens ms sub' l'.
Proof.
  intros Hr. set (ms0 := mkManager (subnetToVdrs ms) (callbackListeners ms ++ [l]) (mlog ms)).
  assert (registering (listens ms) l (callbackListeners ms) A ∅ ms0) as Hr0.
  { split; cbn [ms0 subnetToVdrs callbackListeners mlog]; [done| |apply (mr_none _ _ Hr)| | |done|apply (mr_set _ _ Hr)].
    - intros sub s Hs. by apply (mr_sets _ _ Hr).
    - intros l' sub [Hl|[_ ?]]; [by apply (mr_sync _ _ Hr)|set_solver].
    - intros l' sub Hl _. by apply (mr_quiet _ _ Hr). }
  destruct (register_fold _ l _ A (keys (dom (subnetToVdrs ms))) ∅ ms0 Hr0) as (ms' & Hop & Hr' & Hd); [apply keys_nodup| |].
  { intros sub Hs%elem_of_keys. split; [done|set_solver]. }
  exists ms'. split; [exact Hop|]. rewrite (right_id_L ∅ (∪)) in Hr'.
  split; [|split; [apply (rg_listeners _ _ _ _ _ _ Hr')|apply (rg_listens _ _ _ _ _ _ Hr')]]. split.
  - intros sub s Hs. destruct (rg_sets _ _ _ _ _ _ Hr' sub s Hs) as (? & ? & Hl). split; [done|]. split; [done|].
    rewrite Hl, (rg_listeners _ _ _ _ _ _ Hr'). apply decide_True.
    apply elem_of_list_to_set, elem_of_keys. change (sub ∈ dom (subnetToVdrs ms0)). rewrite <- Hd. by eapply elem_of_dom_2.
  - apply (rg_none _ _ _ _ _ _ Hr').
  - intros l' sub Hl. rewrite (rg_listeners _ _ _ _ _ _ Hr') in Hl. destruct (decide (l' ∈ callbackListeners ms)) as [Hin|Hin].
    { apply (rg_sync _ _ _ _ _ _ Hr'). by left. }
    assert (l' = l) as -> by set_solver. destruct (decide (sub ∈ list_to_set (C := gset SubnetID) (keys (dom (subnetToVdrs ms))))) as [HP|HP].
    { apply (rg_sync _ _ _ _ _ _ Hr'). by right. }
    rewrite (rg_quiet _ _ _ _ _ _ Hr') by tauto. symmetry. apply (mr_none _ _ Hr). apply not_elem_of_dom.
    intros Hd'. apply HP, elem_of_list_to_set, elem_of_keys. done.
  - intros l' sub Hl. rewrite (rg_listeners _ _ _ _ _ _ Hr') in Hl. apply (rg_quiet _ _ _ _ _ _ Hr'); set_solver.
  - eapply set_known_ext; [apply (rg_listens _ _ _ _ _ _ Hr')|apply (rg_set _ _ _ _ _ _ Hr')].
Qed.

(** C16: the manager of validators holds a map of validators for every subnet: an
    operation of a subnet has the result of the map's and leaves the others
    alone, a zero weight and any other error change nothing, the queries read
    the maps, a set that is dropped when it becomes empty loses nothing, every
    listener of the manager, whenever it registers, knows the validators of all
    subnets from its calls, and a listener that registers at the set of one subnet
    knows those of this subnet; only a registration changes who is registered. *)
Theorem manager_correct ms A sub n pk tx w l : mrep ms A -> is_u64 w ->
  let nonzero r := if w =? 0 then Err ErrZeroWeight else r in
  mimplements (AddStaker sub n pk tx w) (nonzero (spec_add n pk tx w (A sub))) ms A sub /\
  mimplements (AddWeight sub n w) (nonzero (spec_addWeight n w (A sub))) ms A sub /\
  mimplements (RemoveWeight sub n w) (nonzero (spec_removeWeight n w (A sub))) ms A sub /\
  GetWeight sub n ms = (ms, Ok (default 0 (snd <$> A sub !! n))) /\
  mTotalWeight sub ms = (ms, Ok (total (A sub))) /\
  NumValidators sub ms = (ms, Ok (size (A sub))) /\
  GetMap sub ms = (ms, Ok (key_and_weight <$> A sub)) /\
  (exists ms', mRegisterCallbackListener l ms = (ms', Ok tt) /\ mrep ms' A /\
     callbackListeners ms' = callbackListeners ms ++ [l] /\ forall sub' l', listens ms' sub' l' <-> listens ms sub' l') /\
  (exists ms', RegisterSetCallbackListener sub l ms = (ms', Ok tt) /\ mrep ms' A /\ callbackListeners ms' = callbackListeners ms /\
     forall sub' l', listens ms' sub' l' <-> listens ms sub' l' \/ sub' = sub /\ l' = l).
Proof.
  intros Hr Hw nonzero.
  assert (forall op r, (w =? 0 = true -> op ms = (ms, Err ErrZeroWeight)) ->
    (w <> 0 -> mimplements op r ms A sub) -> mimplements op (nonzero r) ms A sub) as Hz.
  { intros op r H1' H2'. unfold nonzero. destruct (w =? 0) eqn:E; [by apply H1'|]. apply H2'. lia. }
  split; [|split; [|split]].
  - apply Hz; [unfold AddStaker; by intros ->|]. intros. by apply AddStaker_spec.
  - apply Hz; [unfold AddWeight; by intros ->|]. intros. by apply AddWeight_spec.
  - apply Hz; [unfold RemoveWeight; by intros ->|]. intros. by apply RemoveWeight_spec.
  - split; [|split; [|split; [|split; [|split]]]]; [| | | |by apply mRegister_spec|].
    5:{ destruct (subnetToVdrs ms !! sub) as [s|] eqn:Hs; unfold RegisterSetCallbackListener, subnet_or_new, mbind, M_bind, get;
          rewrite Hs; eapply in_register; eauto. }
    all: unfold GetWeight, mTotalWeight, NumValidators, GetMap, mbind, M_bind, get;
      destruct (subnetToVdrs ms !! sub) as [s|] eqn:Hs; [|by rewrite (mr_none _ _ Hr _ Hs)];
      destruct (mr_sets _ _ Hr sub s Hs) as (Hv & _); apply in_subnet_same; try done.
    + by apply getWeight_spec.
    + unfold TotalWeight, get_set, mbind, M_bind, get. cbn. by rewrite (vr_total _ _ Hv).
    + by apply len_spec.
    + by apply Map_spec.
Qed.
End manager.


End set.
(** ** Concrete runs

    All the types are [nat]; the sampler keeps the weights and returns the first
    indices. *)
#[export] Instance nat_keys : KeyOrder nat := elements_order.
#[export] Instance first_sampler : WeightedWithoutReplacement (Sampler := list Z) := {|
  InitializeWithAdjustedWeights ws _ := Some ws;
  SampleIndices k sm := (sm, if decide (k <= length sm)%nat then Some (seq 0 k) else None);
  NewSampler := [];
|}.

Abbreviation nSet := (vdrSet (NodeID := nat) (SubnetID := nat) (PublicKey := nat) (TxID := nat) (Listener := nat) (Sampler := list Z)).
Abbreviation nState := (nSet * list (Notice (NodeID := nat) (SubnetID := nat) (PublicKey := nat) (TxID := nat) (Listener := nat)))%type.
Abbreviation nManager := (manager (NodeID := nat) (SubnetID := nat) (PublicKey := nat) (TxID := nat) (Listener := nat) (Sampler := list Z)).

(** Three validators join, the first one leaves and two are sampled: the last
    one has taken the place of the first. *)
Definition sample_run : list nat :=
  match (add 1%nat 10%nat 100%nat 5;; add 2%nat 20%nat 200%nat 6;; add 3%nat 30%nat 300%nat 7;;
         removeWeight 1%nat 5;; sample 2) ((newSet 0%nat [], []) : nState) with
  | (_, Ok l) => l
  | _ => []
  end.

Example sample_run_swapped : sample_run = [3; 2]%nat.
Proof. vm_compute. reflexivity. Qed.

Definition vset0 : nState := (newSet 0%nat [9%nat], []).

Lemma vset0_rep : vrep vset0.1 ∅ /\ in_sync vset0 ∅.
Proof. split; [apply newSet_rep|]. by split. Qed.

Lemma vdr_set_correct_witness :
  exists st' : nState, vrep st'.1 {[2%nat := (20%nat, 200%nat, 6)]} /\ in_sync st' {[2%nat := (20%nat, 200%nat, 6)]} /\
    addWeight 2%nat (MaxUint64 - 5) st' = (st', Err (ErrMath SafeMath.ErrOverflow)) /\
    removeWeight 2%nat 7 st' = (st', Err (ErrMath SafeMath.ErrUnderflow)).
Proof.
  destruct vset0_rep as [Hr Hs].
  destruct (vdr_set_correct vset0 ∅ 2%nat 20%nat 200%nat 6 0%nat Hr Hs ltac:(unfold is_uint; lia)) as ((st' & _ & Hr' & Hs') & _).
  exists st'. rewrite insert_empty in Hr', Hs'. split; [exact Hr'|]. split; [exact Hs'|]. split.
  - exact (proj1 (proj2 (vdr_set_correct st' _ 2%nat 0%nat 0%nat (MaxUint64 - 5) 0%nat Hr' Hs' ltac:(apply is_u64_max; unfold MaxUint64; lia)))).
  - exact (proj1 (proj2 (proj2 (vdr_set_correct st' _ 2%nat 0%nat 0%nat 7 0%nat Hr' Hs' ltac:(apply is_u64_max; unfold MaxUint64; lia))))).
Defined.

(** A listener of the set registers after a validator has joined and is told of it. *)
Lemma manager_correct_witness :
  exists (ms ms1 ms2 : nManager) A, AddStaker 7%nat 2%nat 20%nat 200%nat 6 NewManager = (ms, Ok tt) /\
    RegisterSetCallbackListener 7%nat 5%nat ms = (ms1, Ok tt) /\ mrep ms1 A /\
    A 7%nat = {[2%nat := (20%nat, 200%nat, 6)]} /\ A 8%nat = ∅ /\ replay (set_calls 5%nat (mlog ms1)) = A 7%nat /\
    RemoveWeight 7%nat 2%nat 6 ms1 = (ms2, Ok tt) /\ mrep ms2 (updA A 7%nat ∅) /\ listens ms2 7%nat 5%nat.
Proof.
  destruct (manager_correct (NewManager : nManager) (fun _ => ∅) 7%nat 2%nat 20%nat 200%nat 6 0%nat NewManager_rep ltac:(unfold is_uint; lia))
    as ((ms & Hop & Hr & _ & HL) & _).
  set (A := updA (fun _ : nat => ∅) 7%nat (<[2%nat := (20%nat, 200%nat, 6)]> ∅)).
  destruct (manager_correct ms A 7%nat 2%nat 20%nat 200%nat 6 5%nat Hr ltac:(unfold is_uint; lia))
    as (_ & _ & _ & _ & _ & _ & _ & _ & ms1 & Hop1 & Hr1 & _ & HL1).
  destruct (manager_correct ms1 A 7%nat 2%nat 20%nat 200%nat 6 5%nat Hr1 ltac:(unfold is_uint; lia)) as (_ & _ & (ms2 & Hop2 & Hr2 & _ & HL2) & _).
  exists ms, ms1, ms2, A. split; [exact Hop|]. split; [exact Hop1|]. split; [exact Hr1|]. split; [reflexivity|]. split; [reflexivity|].
  split; [|split; [exact Hop2|split; [exact Hr2|apply HL2, HL1; by right]]].
  apply (proj1 (mr_set _ _ Hr1)); [apply HL1; by right|]. intros sub' [(s & Hs & _)%HL|[-> _]]%HL1; [|done].
  cbn in Hs. by rewrite lookup_empty in Hs.
Defined.
End Validators.
