(* ===== verification/Secp256k1fx.v ===== *)
(** * Spending conditions

    Models [avalanchego/vms/secp256k1fx]: outputs owned by a threshold of
    addresses, inputs that name the signing addresses, and the verification of
    the signatures ([fx.go], [input.go], [output_owners.go], [credential.go],
    [transfer_input.go], [transfer_output.go], [mint_operation.go]).

    Hashing, the recovery of a public key from a signature and its addresses come
    from packages outside the repository: the class [Crypto].  The recovery cache
    does not change the answers.  A Go pointer to a value that is only read is an
    [option]; the [interface{}] arguments are the sums [FxIn], [FxCred], [FxOut]. *)

From S2P Require Import Prelude SafeMath Sorting.

Module Secp256k1fx.
Import Sorting.

Abbreviation ShortID := (list Z) (only parsing).

(** ** Data *)
Record OutputOwners := mkOwners { Locktime : Z; Threshold : Z; Addrs : list ShortID }.
Record TransferOutput := mkOutput { Out_Amt : Z; Out_Owners : OutputOwners }.
Record Input := mkInput { SigIndices : list Z }.
Record TransferInput := mkTransferInput { In_Amt : Z; In_Input : Input }.
Record Credential {Sig : Type} := mkCredential { Sigs : list Sig }.
Arguments Credential : clear implicits.
Arguments mkCredential {Sig}.
Record MintOutput := mkMintOutput { Mint_Owners : OutputOwners }.
Record MintOperation := mkMintOperation {
  MintInput : Input;
  Mint_MintOutput : MintOutput;
  Mint_TransferOutput : TransferOutput;
}.

Inductive FxErr :=
  | ErrWrongTxType | ErrWrongOpType | ErrWrongUTXOType | ErrWrongInputType
  | ErrWrongCredentialType | ErrWrongOwnerType | ErrMismatchedAmounts
  | ErrWrongNumberOfUTXOs | ErrWrongMintCreated | ErrTimelocked
  | ErrTooManySigners | ErrTooFewSigners | ErrInputOutputIndexOutOfBounds
  | ErrInputCredentialSignersMismatch | ErrWrongSig
  | ErrNilInput | ErrInputIndicesNotSortedUnique | ErrNoValueInput
  | ErrNilOutput | ErrOutputUnspendable | ErrOutputUnoptimized
  | ErrAddrsNotSortedUnique | ErrNoValueOutput | ErrNilCredential
  | errNilMintOperation | ErrRecover | Panic.

#[export] Instance OutputOwners_eq_dec : EqDecision OutputOwners.
Proof. solve_decision. Defined.

(** ** Syntactic verification *)
Definition Input_Verify (i : option Input) : result FxErr unit :=
  match i with
  | None => Err ErrNilInput
  | Some i => if negb (IsSortedAndUniqueOrdered (SigIndices i)) then Err ErrInputIndicesNotSortedUnique else Ok tt
  end.

Definition CostPerSignature : Z := 1000.
Definition Cost (i : Input) : result SafeMath.MathError Z :=
  SafeMath.Mul 64 (Z.of_nat (length (SigIndices i))) CostPerSignature.

Definition TransferInput_Verify (i : option TransferInput) : result FxErr unit :=
  match i with
  | None => Err ErrNilInput
  | Some i => if In_Amt i =? 0 then Err ErrNoValueInput else Input_Verify (Some (In_Input i))
  end.

Definition Owners_Verify (o : option OutputOwners) : result FxErr unit :=
  match o with
  | None => Err ErrNilOutput
  | Some o =>
      if wrap 32 (Z.of_nat (length (Addrs o))) <? Threshold o then Err ErrOutputUnspendable
      else if (Threshold o =? 0) && (0 <? Z.of_nat (length (Addrs o))) then Err ErrOutputUnoptimized
      else if negb (IsSortedAndUnique bytes_Compare (Addrs o)) then Err ErrAddrsNotSortedUnique
      else Ok tt
  end.

Definition TransferOutput_Verify (o : option TransferOutput) : result FxErr unit :=
  match o with
  | None => Err ErrNilOutput
  | Some o => if Out_Amt o =? 0 then Err ErrNoValueOutput else Owners_Verify (Some (Out_Owners o))
  end.

Definition MintOutput_Verify (o : option MintOutput) : result FxErr unit :=
  match o with
  | None => Err ErrNilOutput
  | Some o => Owners_Verify (Some (Mint_Owners o))
  end.

Definition MintOperation_Verify (op : option MintOperation) : result FxErr unit :=
  match op with
  | None => Err errNilMintOperation
  | Some op =>
      Input_Verify (Some (MintInput op)) ≫= fun _ =>
      MintOutput_Verify (Some (Mint_MintOutput op)) ≫= fun _ =>
      TransferOutput_Verify (Some (Mint_TransferOutput op))
  end.

Definition Equals (out other : OutputOwners) : bool :=
  if negb (Locktime out =? Locktime other) || negb (Threshold out =? Threshold other)
     || negb (bool_decide (length (Addrs out) = length (Addrs other)))
  then false
  else forallb (fun x => bool_decide (x.1 = x.2)) (zip (Addrs out) (Addrs other)).

(** ** Semantic verification *)

(** The cryptography: [ComputeHash256], [accounts.TextHash] of the hexadecimal
    hash, the recovery of the signer's key and the addresses of a key. *)
Class Crypto (TxBytes Hash Sig PublicKey : Type) := {
  ComputeHash256 : TxBytes -> Hash;
  TextHash : Hash -> Hash;
  RecoverPublicKeyFromHash : Hash -> Sig -> option PublicKey;
  Address : PublicKey -> ShortID;
  EthAddress : PublicKey -> ShortID;
}.

(** An [interface{}]: [None] is a value of another type than the asserted one,
    [Some None] a nil pointer of that type. *)
Abbreviation iface T := (option (option T)).

Definition assert_type {T} (e : FxErr) (x : option T) : result FxErr T :=
  match x with Some v => Ok v | None => Err e end.

Definition must_ptr {T} (x : option T) : result FxErr T := assert_type Panic x.

Section fx.
Context {TxBytes Hash Sig PublicKey : Type} `{Crypto TxBytes Hash Sig PublicKey}.

(** [fx.VM.Clock().Unix()] and [fx.bootstrapped]. *)
Variables (clock : Z) (bootstrapped : bool).

Definition Credential_Verify (c : option (Credential Sig)) : result FxErr unit :=
  match c with None => Err ErrNilCredential | Some _ => Ok tt end.

Definition ownerMatchesPubKey (owner : ShortID) (pk : PublicKey) : bool :=
  bool_decide (owner = Address pk) || bool_decide (owner = EthAddress pk).

(** The body of the loop over [in.SigIndices]. *)
Definition check_sig (txHash txHashEth : Hash) (cred : Credential Sig) (out : OutputOwners) (x : nat * Z) : result FxErr unit :=
  let '(i, index) := x in
  if wrap 32 (Z.of_nat (length (Addrs out))) <=? index then Err ErrInputOutputIndexOutOfBounds
  else
    assert_type Panic (Sigs cred !! i) ≫= fun sig =>
    assert_type ErrRecover (RecoverPublicKeyFromHash txHash sig) ≫= fun pk =>
    assert_type Panic (Addrs out !! Z.to_nat index) ≫= fun expectedAddress =>
    if ownerMatchesPubKey expectedAddress pk then Ok tt
    else
      assert_type ErrRecover (RecoverPublicKeyFromHash txHashEth sig) ≫= fun pk =>
      if ownerMatchesPubKey expectedAddress pk then Ok tt else Err ErrWrongSig.

Fixpoint check_sigs (txHash txHashEth : Hash) (cred : Credential Sig) (out : OutputOwners) (l : list (nat * Z)) : result FxErr unit :=
  match l with
  | [] => Ok tt
  | x :: l => check_sig txHash txHashEth cred out x ≫= fun _ => check_sigs txHash txHashEth cred out l
  end.

Definition VerifyCredentials (utx : TxBytes) (i : Input) (cred : Credential Sig) (out : OutputOwners) : result FxErr unit :=
  let numSigs := Z.of_nat (length (SigIndices i)) in
  if clock <? Locktime out then Err ErrTimelocked
  else if Threshold out <? wrap 32 numSigs then Err ErrTooManySigners
  else if wrap 32 numSigs <? Threshold out then Err ErrTooFewSigners
  else if negb (numSigs =? Z.of_nat (length (Sigs cred))) then Err ErrInputCredentialSignersMismatch
  else if negb bootstrapped then Ok tt
  else
    let txHash := ComputeHash256 utx in
    check_sigs txHash (TextHash txHash) cred out (imap pair (SigIndices i)).

Definition VerifySpend (utx : TxBytes) (i : option TransferInput) (cred : option (Credential Sig)) (utxo : option TransferOutput) : result FxErr unit :=
  TransferOutput_Verify utxo ≫= fun _ =>
  TransferInput_Verify i ≫= fun _ =>
  Credential_Verify cred ≫= fun _ =>
  must_ptr utxo ≫= fun utxo =>
  must_ptr i ≫= fun i =>
  must_ptr cred ≫= fun cred =>
  if negb (Out_Amt utxo =? In_Amt i) then Err ErrMismatchedAmounts
  else VerifyCredentials utx (In_Input i) cred (Out_Owners utxo).

Definition VerifyTransfer (tx : option TxBytes) (i : iface TransferInput) (cred : iface (Credential Sig)) (utxo : iface TransferOutput) : result FxErr unit :=
  assert_type ErrWrongTxType tx ≫= fun tx =>
  assert_type ErrWrongInputType i ≫= fun i =>
  assert_type ErrWrongCredentialType cred ≫= fun cred =>
  assert_type ErrWrongUTXOType utxo ≫= fun out =>
  VerifySpend tx i cred out.

Definition VerifyPermission (tx : option TxBytes) (i : iface Input) (cred : iface (Credential Sig)) (owner : iface OutputOwners) : result FxErr unit :=
  assert_type ErrWrongTxType tx ≫= fun tx =>
  assert_type ErrWrongInputType i ≫= fun i =>
  assert_type ErrWrongCredentialType cred ≫= fun cred =>
  assert_type ErrWrongOwnerType owner ≫= fun owner =>
  Input_Verify i ≫= fun _ =>
  Credential_Verify cred ≫= fun _ =>
  Owners_Verify owner ≫= fun _ =>
  must_ptr i ≫= fun i =>
  must_ptr cred ≫= fun cred =>
  must_ptr owner ≫= fun owner =>
  VerifyCredentials tx i cred owner.

Definition verifyOperation (tx : TxBytes) (op : option MintOperation) (cred : option (Credential Sig)) (utxo : option MintOutput) : result FxErr unit :=
  MintOperation_Verify op ≫= fun _ =>
  Credential_Verify cred ≫= fun _ =>
  MintOutput_Verify utxo ≫= fun _ =>
  must_ptr op ≫= fun op =>
  must_ptr cred ≫= fun cred =>
  must_ptr utxo ≫= fun utxo =>
  if negb (Equals (Mint_Owners utxo) (Mint_Owners (Mint_MintOutput op))) then Err ErrWrongMintCreated
  else VerifyCredentials tx (MintInput op) cred (Mint_Owners utxo).

Definition VerifyOperation (tx : option TxBytes) (op : iface MintOperation) (cred : iface (Credential Sig)) (utxos : list (iface MintOutput)) : result FxErr unit :=
  assert_type ErrWrongTxType tx ≫= fun tx =>
  assert_type ErrWrongOpType op ≫= fun op =>
  assert_type ErrWrongCredentialType cred ≫= fun cred =>
  match utxos with
  | [utxo] => assert_type ErrWrongUTXOType utxo ≫= fun out => verifyOperation tx op cred out
  | _ => Err ErrWrongNumberOfUTXOs
  end.

Definition CreateOutput (amount : Z) (owner : iface OutputOwners) : result FxErr TransferOutput :=
  assert_type ErrWrongOwnerType owner ≫= fun owner =>
  Owners_Verify owner ≫= fun _ =>
  must_ptr owner ≫= fun owner =>
  Ok (mkOutput amount owner).

(** ** What a verified signature list shows *)

(** [a] signed the transaction: one of the signatures recovers to a key with the
    address [a], over the hash of the transaction or its Ethereum form. *)
Definition signed (tx : TxBytes) (cred : Credential Sig) (a : ShortID) : Prop :=
  exists sig h pk, sig ∈ Sigs cred /\ (h = ComputeHash256 tx \/ h = TextHash (ComputeHash256 tx)) /\
    RecoverPublicKeyFromHash h sig = Some pk /\ (a = Address pk \/ a = EthAddress pk).

(** As many distinct owners as the threshold asks for signed. *)
Definition quorum (tx : TxBytes) (cred : Credential Sig) (out : OutputOwners) : Prop :=
  exists signers, NoDup signers /\ Z.of_nat (length signers) = Threshold out /\
    forall a, a ∈ signers -> a ∈ Addrs out /\ signed tx cred a.

Lemma assert_type_ok {T} e (x : option T) v : assert_type e x = Ok v <-> x = Some v.
Proof. destruct x; cbn; split; congruence. Qed.

Lemma ownerMatches_spec a pk : ownerMatchesPubKey a pk = true <-> a = Address pk \/ a = EthAddress pk.
Proof. unfold ownerMatchesPubKey. rewrite orb_true_iff, !bool_decide_eq_true. done. Qed.

Lemma check_sig_ok tx cred out i index :
  check_sig (ComputeHash256 tx) (TextHash (ComputeHash256 tx)) cred out (i, index) = Ok tt ->
  index < wrap 32 (Z.of_nat (length (Addrs out))) /\
  exists a, Addrs out !! Z.to_nat index = Some a /\ signed tx cred a.
Proof.
  cbn. destruct (Z.leb_spec (wrap 32 (Z.of_nat (length (Addrs out)))) index); [done|]. intros Hc. split; [done|].
  apply bind_ok in Hc as (sig & Hsig%assert_type_ok & Hc). apply bind_ok in Hc as (pk & Hpk%assert_type_ok & Hc).
  apply bind_ok in Hc as (a & Ha%assert_type_ok & Hc). exists a. split; [done|].
  apply list_elem_of_lookup_2 in Hsig.
  destruct (ownerMatchesPubKey a pk) eqn:Hm; [apply ownerMatches_spec in Hm; by exists sig, (ComputeHash256 tx), pk; eauto|].
  apply bind_ok in Hc as (pk' & Hpk'%assert_type_ok & Hc). destruct (ownerMatchesPubKey a pk') eqn:Hm'; [|done].
  apply ownerMatches_spec in Hm'. exists sig, (TextHash (ComputeHash256 tx)), pk'. eauto.
Qed.

Lemma check_sigs_ok h h' cred out l : check_sigs h h' cred out l = Ok tt -> Forall (fun x => check_sig h h' cred out x = Ok tt) l.
Proof.
  induction l as [|x l IH]; [constructor|]. cbn [check_sigs]. intros ([] & Hx & Hl)%bind_ok. constructor; auto.
Qed.

(** Distinct indices below a bound are at most as many. *)
Lemma to_nat_nodup (l : list Z) : NoDup l -> Forall (fun x => 0 <= x) l -> NoDup (Z.to_nat <$> l).
Proof.
  intros Hd Hl. rewrite Forall_forall in Hl. apply NoDup_fmap_2_strong; [|done].
  intros x y Hx%Hl Hy%Hl. lia.
Qed.

Lemma indices_bounded (l : list Z) b : NoDup l -> Forall (fun x => 0 <= x < b) l -> Z.of_nat (length l) <= Z.max 0 b.
Proof.
  intros Hd Hl. assert (length (Z.to_nat <$> l) <= length (seq 0 (Z.to_nat b)))%nat as Hle.
  { apply submseteq_length, NoDup_submseteq.
    - apply to_nat_nodup; [done|]. eapply Forall_impl; [exact Hl|]. cbn. lia.
    - intros n (x & -> & Hx)%list_elem_of_fmap. rewrite Forall_forall in Hl. specialize (Hl x Hx). apply elem_of_seq. lia. }
  rewrite length_fmap, length_seq in Hle. lia.
Qed.

(** The owners that a list of distinct indices names. *)
Lemma named_owners (addrs : list ShortID) (l : list Z) (P : ShortID -> Prop) : NoDup addrs -> NoDup l -> Forall (fun x => 0 <= x) l ->
  Forall (fun x => exists a, addrs !! Z.to_nat x = Some a /\ P a) l ->
  exists named, NoDup named /\ length named = length l /\ (forall a, a ∈ named -> a ∈ addrs /\ P a).
Proof.
  intros Ha Hl H0 HP. exists (omap (fun x => addrs !! Z.to_nat x) l). induction HP as [|x l (a & Hx & HPa) _ IH].
  { split; [constructor|]. split; [done|]. intros a Hin. by apply not_elem_of_nil in Hin. }
  apply NoDup_cons in Hl as [Hn Hl]. apply Forall_cons in H0 as [Hx0 H0]. destruct (IH Hl H0) as (IH1 & IH2 & IH3).
  cbn. rewrite Hx. cbn. split; [|split; [by f_equal|]].
  - constructor; [|done]. intros (y & Hy & Hay)%list_elem_of_omap. rewrite Forall_forall in H0.
    pose proof (NoDup_lookup _ _ _ _ Ha Hx Hay) as Heq. assert (x = y) as -> by (specialize (H0 y Hy); lia). done.
  - intros a' [->|Hin]%elem_of_cons; [split; [by eapply list_elem_of_lookup_2|done]|by apply IH3].
Qed.

(** The indices of an input, as [uint32]s. *)
Definition wf_input (i : Input) : Prop := Forall (is_uint 32) (SigIndices i).

(** What the verification of a credential establishes: the locktime has passed, the
    credential has as many signatures as the threshold asks for, one for each index,
    and they are those of distinct owners; the last only after bootstrapping, before
    which the signatures are not looked at. *)
Definition authorised (tx : TxBytes) (i : Input) (cred : Credential Sig) (out : OutputOwners) : Prop :=
  Locktime out <= clock /\ length (Sigs cred) = length (SigIndices i) /\
  wrap 32 (Z.of_nat (length (SigIndices i))) = Threshold out /\ (bootstrapped = true -> quorum tx cred out).

Lemma credentials_authorised tx i cred out : wf_input i ->
  Input_Verify (Some i) = Ok tt -> Owners_Verify (Some out) = Ok tt -> VerifyCredentials tx i cred out = Ok tt ->
  authorised tx i cred out.
Proof.
  intros Hwf Hi Ho Hv. cbn in Hi, Ho.
  destruct (IsSortedAndUniqueOrdered (SigIndices i)) eqn:Hs; [|done]. apply sorted_ordered_nodup in Hs.
  repeat (destruct (_ <? Threshold out) in Ho; [done|]). destruct (_ && _) in Ho; [done|].
  destruct (IsSortedAndUnique _ (Addrs out)) eqn:Hso in Ho; [|done]. apply sorted_bytes_nodup in Hso.
  unfold VerifyCredentials in Hv.
  destruct (Z.ltb_spec clock (Locktime out)) as [|Hlock]; [done|]. split; [done|].
  destruct (Z.ltb_spec (Threshold out) (wrap 32 (Z.of_nat (length (SigIndices i))))); [done|].
  destruct (Z.ltb_spec (wrap 32 (Z.of_nat (length (SigIndices i)))) (Threshold out)); [done|].
  destruct (Z.eqb_spec (Z.of_nat (length (SigIndices i))) (Z.of_nat (length (Sigs cred)))) as [Hsigs|] in Hv; [|done]. cbn [negb] in Hv.
  split; [lia|]. split; [lia|]. intros Hb. rewrite Hb in Hv. cbn [negb] in Hv. apply check_sigs_ok in Hv. rewrite Forall_forall in Hv.
  assert (forall x, x ∈ SigIndices i -> x < wrap 32 (Z.of_nat (length (Addrs out))) /\
    exists a, Addrs out !! Z.to_nat x = Some a /\ signed tx cred a) as Hx.
  { intros x (k & Hk)%list_elem_of_lookup. apply (check_sig_ok tx cred out k x), Hv.
    apply list_elem_of_lookup. exists k. by rewrite list_lookup_imap, Hk. }
  assert (Forall (fun x => 0 <= x) (SigIndices i)) as Hpos by (eapply Forall_impl; [exact Hwf|intros ? [? _]; done]).
  destruct (named_owners (Addrs out) (SigIndices i) (signed tx cred) Hso Hs Hpos) as (named & Hn & Hlen & Hin).
  { apply Forall_forall. intros x Hin. by apply Hx. }
  exists named. split; [done|]. split; [|done]. rewrite Hlen.
  pose proof (indices_bounded (SigIndices i) (wrap 32 (Z.of_nat (length (Addrs out)))) Hs) as Hle.
  assert (wrap 32 (Z.of_nat (length (SigIndices i))) = Z.of_nat (length (SigIndices i))) as Hw; [|lia].
  apply wrap_small. pose proof (wrap_uint 32 (Z.of_nat (length (Addrs out))) ltac:(lia)). unfold is_uint in *.
  rewrite Forall_forall in Hpos. assert (Forall (fun x => 0 <= x < wrap 32 (Z.of_nat (length (Addrs out)))) (SigIndices i)) as Hr.
  { apply Forall_forall. intros x Hin'. split; [by apply Hpos|by apply Hx]. }
  specialize (Hle Hr). lia.
Qed.

Lemma Equals_spec o o' : Equals o o' = true <-> o = o'.
Proof.
  unfold Equals. destruct o as [l t a], o' as [l' t' a']. cbn [Locktime Threshold Addrs].
  destruct (Z.eqb_spec l l') as [<-|]; [|split; [done|by intros [= -> _ _]]].
  destruct (Z.eqb_spec t t') as [<-|]; [|split; [done|by intros [= -> _]]]. cbn [negb orb].
  case_bool_decide as Hl; cbn [negb].
  2:{ split; [done|]. intros [= ->]. done. }
  rewrite <- Is_true_true, forallb_True. split; [|intros [= ->]; clear; induction a'; cbn; constructor; [by apply bool_decide_pack|done]].
  intros Hf. f_equal. revert a' Hl Hf. induction a as [|x a IH]; intros [|y a'] Hl Hf; try done.
  cbn in Hf. apply Forall_cons in Hf as [Hx Hf]. apply bool_decide_unpack in Hx. cbn in Hx. subst. f_equal. apply IH; [by injection Hl|done].
Qed.

(** Steps of a chain of assertions that ended with [Ok]. *)
#[local] Ltac unwind_assert H :=
  repeat (apply bind_ok in H; let v := fresh "v" in let Hv := fresh in
    destruct H as (v & Hv & H); apply assert_type_ok in Hv; subst).
#[local] Ltac unwind_unit H Hu := apply bind_ok in H; destruct H as ([] & Hu & H).

(** Whether or not the signatures are checked, the amounts agree. *)
Lemma transfer_amounts tx i cred utxo : VerifyTransfer tx i cred utxo = Ok tt ->
  exists i' utxo', i = Some (Some i') /\ utxo = Some (Some utxo') /\ In_Amt i' = Out_Amt utxo'.
Proof.
  intros Hv. unfold VerifyTransfer in Hv. unwind_assert Hv.
  unfold VerifySpend in Hv. unwind_unit Hv Ho. unwind_unit Hv Hi. unwind_unit Hv Hc. unwind_assert Hv.
  match type of Hv with context [Out_Amt ?a =? In_Amt ?b] => destruct (Z.eqb_spec (Out_Amt a) (In_Amt b)) end; [|done]. eauto.
Qed.

(** C14: after bootstrapping, nothing is spent, minted or permitted without the
    signatures of as many distinct owners as the threshold of the consumed output asks
    for.  At any time, also during bootstrapping, when the signatures are not verified,
    nothing is spent, minted or permitted before its locktime or with another number
    (as [uint32]) of signatures and indices than the threshold, a transfer spends the amount of the
    output it consumes, and a mint keeps the owners of the right to mint. *)
Theorem signatures_required (tx : option TxBytes) (cred : iface (Credential Sig)) :
  (forall i utxo, (forall i', i = Some (Some i') -> wf_input (In_Input i')) -> VerifyTransfer tx i cred utxo = Ok tt ->
     exists tx' i' cred' utxo', tx = Some tx' /\ i = Some (Some i') /\ cred = Some (Some cred') /\ utxo = Some (Some utxo') /\
       In_Amt i' = Out_Amt utxo' /\ authorised tx' (In_Input i') cred' (Out_Owners utxo')) /\
  (forall i owner, (forall i', i = Some (Some i') -> wf_input i') -> VerifyPermission tx i cred owner = Ok tt ->
     exists tx' i' cred' owner', tx = Some tx' /\ i = Some (Some i') /\ cred = Some (Some cred') /\ owner = Some (Some owner') /\
       authorised tx' i' cred' owner') /\
  (forall op utxos, (forall op', op = Some (Some op') -> wf_input (MintInput op')) -> VerifyOperation tx op cred utxos = Ok tt ->
     exists tx' op' cred' utxo', tx = Some tx' /\ op = Some (Some op') /\ cred = Some (Some cred') /\ utxos = [Some (Some utxo')] /\
       Mint_Owners (Mint_MintOutput op') = Mint_Owners utxo' /\
       authorised tx' (MintInput op') cred' (Mint_Owners utxo')).
Proof.
  split; [|split].
  - intros i utxo Hwf Hv. unfold VerifyTransfer in Hv. unwind_assert Hv.
    unfold VerifySpend in Hv. unwind_unit Hv Ho. unwind_unit Hv Hi. unwind_unit Hv Hc. unwind_assert Hv.
    match type of Hv with context [Out_Amt ?a =? In_Amt ?b] => destruct (Z.eqb_spec (Out_Amt a) (In_Amt b)) as [Heq|] end; [|done]. cbn [negb] in Hv.
    cbn in Ho, Hi. destruct (Out_Amt _ =? 0) in Ho; [done|]. destruct (In_Amt _ =? 0) in Hi; [done|].
    pose proof (credentials_authorised _ _ _ _ (Hwf _ eq_refl) Hi Ho Hv). eexists _, _, _, _; split_and!; eauto.
  - intros i owner Hwf Hv. unfold VerifyPermission in Hv. unwind_assert Hv.
    unwind_unit Hv Hi. unwind_unit Hv Hc. unwind_unit Hv Ho. unwind_assert Hv.
    pose proof (credentials_authorised _ _ _ _ (Hwf _ eq_refl) Hi Ho Hv). eexists _, _, _, _; split_and!; eauto.
  - intros op utxos Hwf Hv. unfold VerifyOperation in Hv. unwind_assert Hv.
    destruct utxos as [|utxo [|? ?]]; [done| |done]. unwind_assert Hv.
    unfold verifyOperation in Hv. unwind_unit Hv Ho. unwind_unit Hv Hc. unwind_unit Hv Hu. unwind_assert Hv.
    destruct (Equals _ _) eqn:He; [|done]. apply Equals_spec in He. cbn [negb] in Hv.
    cbn in Ho, Hu. unwind_unit Ho Hi.
    pose proof (credentials_authorised _ _ _ _ (Hwf _ eq_refl) Hi Hu Hv). eexists _, _, _, _; split_and!; eauto.
Qed.
End fx.

(** ** A concrete run

    A signature is a key with the hash it signs; two of three owners sign, the
    second one over the Ethereum form of the hash. *)
#[export] Instance toy_crypto : Crypto (list Z) (list Z) (Z * list Z) Z := {|
  ComputeHash256 tx := tx;
  TextHash h := 25 :: h;
  RecoverPublicKeyFromHash h sig := Some (if bool_decide (sig.2 = h) then sig.1 else 0);
  Address pk := [pk; 0];
  EthAddress pk := [pk; 1];
|}.

Definition toy_utxo : TransferOutput := mkOutput 70 (mkOwners 5 2 [[1; 0]; [2; 0]; [3; 1]]).
Definition toy_in : TransferInput := mkTransferInput 70 (mkInput [0; 2]).
Definition toy_cred : Credential (Z * list Z) := mkCredential [(1, [7; 7]); (3, [25; 7; 7])].

Lemma signatures_required_witness :
  VerifyTransfer 9 true (Some [7; 7]) (Some (Some toy_in)) (Some (Some toy_cred)) (Some (Some toy_utxo)) = Ok tt /\
  quorum [7; 7] toy_cred (Out_Owners toy_utxo) /\
  VerifyTransfer 4 true (Some [7; 7]) (Some (Some toy_in)) (Some (Some toy_cred)) (Some (Some toy_utxo)) = Err ErrTimelocked /\
  VerifyTransfer 9 true (Some [7; 8]) (Some (Some toy_in)) (Some (Some toy_cred)) (Some (Some toy_utxo)) = Err ErrWrongSig /\
  VerifyTransfer 9 false (Some [7; 8]) (Some (Some toy_in)) (Some (Some toy_cred)) (Some (Some toy_utxo)) = Ok tt.
Proof.
  assert (VerifyTransfer 9 true (Some [7; 7]) (Some (Some toy_in)) (Some (Some toy_cred)) (Some (Some toy_utxo)) = Ok tt) as Hv by (vm_compute; reflexivity).
  split; [exact Hv|]. split; [|split_and!; vm_compute; reflexivity].
  destruct (proj1 (signatures_required 9 true (Some [7; 7]) (Some (Some toy_cred))) (Some (Some toy_in)) (Some (Some toy_utxo)))
    as (tx & i & cred & utxo & [= <-] & [= <-] & [= <-] & [= <-] & _ & _ & _ & _ & Hq); [|exact Hv|exact (Hq eq_refl)].
  intros i [= <-]. unfold wf_input. cbn. repeat constructor; cbn; lia.
Defined.
End Secp256k1fx.
