(* ===== verification/PlatformUtxo.v ===== *)
(** * Consumed and produced funds

    Models [avalanchego/vms/platformvm/utxo/verifier.go]: the check that a
    transaction of the P-chain may spend its inputs and does not create value,
    with the stakeable locks of [vms/platformvm/stakeable] and the UTXO types of
    [vms/components/avax].  The feature extension is [Secp256k1fx]; the encoding
    of owners and the hash of identifiers are parameters. *)

From S2P Require Import Prelude Monads SafeMath MapOrder Secp256k1fx.

Module PlatformUtxo.
Import Secp256k1fx.

Section data.
Context {ID Sig : Type}.

(** [avax.TransferableOut] and [avax.TransferableIn] of the P-chain *)
Inductive TransferableOut :=
  | SecpOut (out : TransferOutput)
  | LockOut (Locktime : Z) (out : TransferableOut).

Inductive TransferableIn :=
  | SecpIn (inp : TransferInput)
  | LockIn (Locktime : Z) (inp : TransferableIn).

(** [verify.State]: what a UTXO can hold. *)
Inductive State :=
  | Transferable (out : TransferableOut)
  | OtherState.

Record UTXOID := mkUTXOID { TxID : ID; OutputIndex : Z }.
Record UTXO := mkUTXO { U_UTXOID : UTXOID; U_AssetID : ID; U_Out : State }.
Record TransferableInput := mkIn { I_UTXOID : UTXOID; I_AssetID : ID; I_In : TransferableIn }.
Record TransferableOutput := mkOut { O_AssetID : ID; O_Out : TransferableOut }.

(** [verify.Verifiable] credentials; another type comes with its own [Verify]. *)
Inductive Cred :=
  | SecpCred (c : Credential Sig)
  | OtherCred (verify : bool).
End data.
Arguments UTXOID : clear implicits.
Arguments UTXO : clear implicits.
Arguments TransferableInput : clear implicits.
Arguments TransferableOutput : clear implicits.
Arguments Cred : clear implicits.

Inductive TxErr :=
  | ErrInsufficientUnlockedFunds
  | ErrInsufficientLockedFunds
  | errWrongNumberCredentials
  | errWrongNumberUTXOs
  | errAssetIDMismatch
  | errLocktimeMismatch
  | errLockedFundsNotMarkedAsLocked
  | ErrTransfer (e : FxErr)
  | ErrMath (e : SafeMath.MathError)
  | ErrCredential
  | ErrNotOwned
  | ErrMarshal
  | ErrGetUTXO.

(** [Amount] *)
Fixpoint AmountOut (o : TransferableOut) : Z :=
  match o with SecpOut o => Out_Amt o | LockOut _ o => AmountOut o end.
Fixpoint AmountIn (i : TransferableIn) : Z :=
  match i with SecpIn i => In_Amt i | LockIn _ i => AmountIn i end.

(** The arguments of [fx.VerifyTransfer]. *)
Definition in_iface (i : TransferableIn) : iface TransferInput :=
  match i with SecpIn i => Some (Some i) | LockIn _ _ => None end.
Definition cred_iface {Sig} (c : Cred Sig) : iface (Credential Sig) :=
  match c with SecpCred c => Some (Some c) | OtherCred _ => None end.
Definition out_iface (o : State) : iface TransferOutput :=
  match o with Transferable (SecpOut o) => Some (Some o) | _ => None end.

Section verifier.
Context {ID TxBytes Hash Sig PublicKey : Type}.
Context `{Countable ID, !KeyOrder ID, !KeyOrder Z, Crypto TxBytes Hash Sig PublicKey}.

(** [txs.Codec.Marshal] of an owner and [hashing.ComputeHash256Array];
    the clocks of the verifier and of the feature extension. *)
Variables (Marshal : OutputOwners -> option (list Z)) (ComputeHash256Array : list Z -> ID).
Variables (now fx_clock : Z) (bootstrapped : bool).

(** Whose funds: unlocked ones, or those of an owner until a locktime. *)
Abbreviation Key := (ID * option (Z * ID))%type.
(** [map[ids.ID]uint64] and [map[ids.ID]map[uint64]map[ids.ID]uint64] *)
Abbreviation Unlocked := (gmap ID Z).
Abbreviation Locked := (gmap ID (gmap Z (gmap ID Z))).

Definition lift_math {A} (r : result SafeMath.MathError A) : result TxErr A :=
  match r with Ok a => Ok a | Err e => Err (ErrMath e) end.
Definition lift_fx {A} (r : result FxErr A) : result TxErr A :=
  match r with Ok a => Ok a | Err e => Err (ErrTransfer e) end.

Definition Cred_Verify (c : Cred Sig) : result TxErr unit :=
  match c with
  | SecpCred c => match Credential_Verify (Some c) with Ok _ => Ok tt | Err _ => Err ErrCredential end
  | OtherCred b => if b then Ok tt else Err ErrCredential
  end.

(** [out.(fx.Owned)] and the hash of the encoded owner. *)
Definition owner_id (o : State) : result TxErr ID :=
  match o with
  | Transferable (SecpOut o) =>
      match Marshal (Out_Owners o) with
      | Some ownerBytes => Ok (ComputeHash256Array ownerBytes)
      | None => Err ErrMarshal
      end
  | _ => Err ErrNotOwned
  end.

(** [if inner, ok := out.( *stakeable.LockOut); ok { ... }] *)
Definition unlock_out (o : State) : State * Z :=
  match o with
  | Transferable (LockOut locktime inner) => (Transferable inner, locktime)
  | _ => (o, 0)
  end.

Definition unlock_in (locktime : Z) (i : TransferableIn) : result TxErr TransferableIn :=
  match i with
  | LockIn lt inner => if negb (lt =? locktime) then Err errLocktimeMismatch else Ok inner
  | SecpIn _ => if now <? locktime then Err errLockedFundsNotMarkedAsLocked else Ok i
  end.

(** What an input consumes, if it may. *)
Definition consume (tx : TxBytes) (x : TransferableInput ID * (UTXO ID * Cred Sig)) : result TxErr (Key * Z) :=
  let '(input, (utxo, cred)) := x in
  let realAssetID := U_AssetID utxo in
  let claimedAssetID := I_AssetID input in
  if negb (bool_decide (realAssetID = claimedAssetID)) then Err errAssetIDMismatch
  else
    let '(out, locktime) := unlock_out (U_Out utxo) in
    unlock_in locktime (I_In input) ≫= fun inp =>
    lift_fx (VerifyTransfer fx_clock bootstrapped (Some tx) (in_iface inp) (cred_iface cred) (out_iface out)) ≫= fun _ =>
    let amount := AmountIn inp in
    if locktime <=? now then Ok (realAssetID, None, amount)
    else owner_id out ≫= fun ownerID => Ok (realAssetID, Some (locktime, ownerID), amount).

(** What an output produces. *)
Definition produce (o : TransferableOutput ID) : result TxErr (Key * Z) :=
  let assetID := O_AssetID o in
  let '(output, locktime) :=
    match O_Out o with LockOut locktime inner => (inner, locktime) | output => (output, 0) end in
  let amount := AmountOut output in
  if locktime =? 0 then Ok (assetID, None, amount)
  else owner_id (Transferable output) ≫= fun ownerID => Ok (assetID, Some (locktime, ownerID), amount).

(** The addition of an amount to one of the maps. *)
Definition add_locked (locked : Locked) (assetID : ID) (locktime : Z) (ownerID : ID) (amount : Z) : result TxErr Locked :=
  let lockedAsset := default ∅ (locked !! assetID) in
  let owners := default ∅ (lockedAsset !! locktime) in
  lift_math (SafeMath.Add 64 (default 0 (owners !! ownerID)) amount) ≫= fun newAmount =>
  Ok (<[assetID := <[locktime := <[ownerID := newAmount]> owners]> lockedAsset]> locked).

Definition add_unlocked (unlocked : Unlocked) (assetID : ID) (amount : Z) : result TxErr Unlocked :=
  lift_math (SafeMath.Add 64 (default 0 (unlocked !! assetID)) amount) ≫= fun newUnlocked =>
  Ok (<[assetID := newUnlocked]> unlocked).

Definition add_flow (m : Unlocked * Locked) (flow : Key * Z) : result TxErr (Unlocked * Locked) :=
  match flow with
  | (assetID, None, amount) => add_unlocked m.1 assetID amount ≫= fun u => Ok (u, m.2)
  | (assetID, Some (locktime, ownerID), amount) =>
      add_locked m.2 assetID locktime ownerID amount ≫= fun l => Ok (m.1, l)
  end.

(** [for index, input := range ins { ... }] *)
Definition consume_step (tx : TxBytes) (m : Unlocked * Locked) (x : TransferableInput ID * (UTXO ID * Cred Sig)) : result TxErr (Unlocked * Locked) :=
  consume tx x ≫= add_flow m.

(** [for _, out := range outs { ... }]; [unlockedProduced] is the state. *)
Definition produce_step (lockedProduced : Locked) (o : TransferableOutput ID) : M Unlocked TxErr Locked :=
  flow ← lift (produce o);
  unlockedProduced ← get;
  m ← lift (add_flow (unlockedProduced, lockedProduced) flow);
  modify (fun _ => m.1);;
  mret m.2.

(** The body of the loops over [lockedProduced]. *)
Definition cover (assetID : ID) (producedAmount consumedAmount : Z) (unlockedConsumed : Unlocked) : result TxErr Unlocked :=
  if consumedAmount <? producedAmount then
    let increase := producedAmount - consumedAmount in
    let unlockedConsumedAsset := default 0 (unlockedConsumed !! assetID) in
    if unlockedConsumedAsset <? increase then Err ErrInsufficientLockedFunds
    else Ok (<[assetID := unlockedConsumedAsset - increase]> unlockedConsumed)
  else Ok unlockedConsumed.

Definition cover_all (lockedProduced lockedConsumed : Locked) (unlockedConsumed : Unlocked) : result TxErr Unlocked :=
  foldR (fun uc '(assetID, producedAssetAmounts) =>
    let lockedConsumedAsset := default ∅ (lockedConsumed !! assetID) in
    foldR (fun uc '(locktime, producedAmounts) =>
      let consumedAmounts := default ∅ (lockedConsumedAsset !! locktime) in
      foldR (fun uc '(ownerID, producedAmount) =>
        cover assetID producedAmount (default 0 (consumedAmounts !! ownerID)) uc)
        uc (entries producedAmounts))
      uc (entries producedAssetAmounts))
    unlockedConsumed (entries lockedProduced).

Definition check_unlocked (unlockedProduced unlockedConsumed : Unlocked) : result TxErr unit :=
  foldR (fun _ '(assetID, unlockedProducedAsset) =>
    if default 0 (unlockedConsumed !! assetID) <? unlockedProducedAsset then Err ErrInsufficientUnlockedFunds else Ok tt)
    tt (entries unlockedProduced).

Definition VerifySpendUTXOs (tx : TxBytes) (utxos : list (UTXO ID)) (ins : list (TransferableInput ID))
    (outs : list (TransferableOutput ID)) (creds : list (Cred Sig)) : M Unlocked TxErr unit :=
  if negb (bool_decide (length ins = length creds)) then fail errWrongNumberCredentials
  else if negb (bool_decide (length ins = length utxos)) then fail errWrongNumberUTXOs
  else
    lift (foldR (fun _ cred => Cred_Verify cred) tt creds);;
    consumed ← lift (foldR (consume_step tx) (∅, ∅) (zip ins (zip utxos creds)));
    lockedProduced ← foldM produce_step outs ∅;
    unlockedConsumed ← lift (cover_all lockedProduced consumed.2 consumed.1);
    unlockedProduced ← get;
    lift (check_unlocked unlockedProduced unlockedConsumed).

(** [InputID] hashes the source of a UTXO. *)
Definition VerifySpend (InputID : UTXOID ID -> ID) (GetUTXO : ID -> option (UTXO ID)) (tx : TxBytes)
    (ins : list (TransferableInput ID)) (outs : list (TransferableOutput ID)) (creds : list (Cred Sig)) : M Unlocked TxErr unit :=
  utxos ← lift (foldR (fun utxos input =>
      match GetUTXO (InputID (I_UTXOID input)) with
      | Some utxo => Ok (utxos ++ [utxo])
      | None => Err ErrGetUTXO
      end) [] ins);
  VerifySpendUTXOs tx utxos ins outs creds.

(** ** The contract *)
Implicit Types (k : Key) (fl : list (Key * Z)) (uc up : Unlocked) (lc lp : Locked).

(** The funds of [k] that the flows [fl] move. *)
Definition amt fl k : Z := zsum (fun x => if bool_decide (x.1 = k) then x.2 else 0) fl.

Definition llookup lp (a : ID) (lt : Z) (o : ID) : option Z :=
  default ∅ (default ∅ (lp !! a) !! lt) !! o.
Definition funds (m : Unlocked * Locked) k : Z :=
  match k with
  | (a, None) => default 0 (m.1 !! a)
  | (a, Some (lt, o)) => default 0 (llookup m.2 a lt o)
  end.

(** The locked keys of asset [a] that [fl] moves, and what the unlocked funds of [a]
    must add to them if [fi] is consumed and [fo] produced. *)
Definition locked_keys fl (a : ID) : list Key :=
  remove_dups (filter (fun k => k.1 = a /\ is_Some k.2) fl.*1).
Definition shortfall fi fo (a : ID) : Z := zsum (fun k => Z.max 0 (amt fo k - amt fi k)) (locked_keys fo a).

Lemma amt_cons x fl k : amt (x :: fl) k = (if bool_decide (x.1 = k) then x.2 else 0) + amt fl k.
Proof. done. Qed.

Definition wf_flows fl : Prop := Forall (fun x => is_u64 x.2) fl.

Lemma amt_nonneg fl k : wf_flows fl -> 0 <= amt fl k.
Proof.
  induction 1 as [|x fl [Hx _] _ IH]; [done|]. rewrite amt_cons. case_bool_decide; lia.
Qed.

(** *** One addition *)
Lemma lift_math_ok {A} (r : result SafeMath.MathError A) v : lift_math r = Ok v <-> r = Ok v.
Proof. destruct r; cbn; split; congruence. Qed.

Lemma llookup_insert lp a lt o v a' lt' o' :
  llookup (<[a := <[lt := <[o := v]> (default ∅ (default ∅ (lp !! a) !! lt))]> (default ∅ (lp !! a))]> lp) a' lt' o' =
  if bool_decide ((a', lt', o') = (a, lt, o)) then Some v else llookup lp a' lt' o'.
Proof.
  unfold llookup. destruct (decide (a' = a)) as [->|Ha].
  2:{ rewrite lookup_insert_ne by done. rewrite bool_decide_false by congruence. done. }
  rewrite lookup_insert_eq. cbn [from_option id]. destruct (decide (lt' = lt)) as [->|Hlt].
  2:{ rewrite lookup_insert_ne by done. rewrite bool_decide_false by congruence. done. }
  rewrite lookup_insert_eq. cbn [from_option id]. destruct (decide (o' = o)) as [->|Ho].
  - rewrite lookup_insert_eq, bool_decide_true by done. done.
  - rewrite lookup_insert_ne, bool_decide_false by congruence. done.
Qed.

Lemma add_flow_spec (m : Unlocked * Locked) k v : is_u64 (funds m k) -> is_u64 v ->
  match add_flow m (k, v) with
  | Ok m' => funds m k + v <= MaxUint64 /\ (forall k', funds m' k' = if bool_decide (k = k') then funds m k + v else funds m k') /\
      (forall a lt o, is_Some (llookup m'.2 a lt o) <-> k = (a, Some (lt, o)) \/ is_Some (llookup m.2 a lt o)) /\
      (forall a, is_Some (m'.1 !! a) <-> k = (a, None) \/ is_Some (m.1 !! a))
  | Err _ => MaxUint64 < funds m k + v
  end.
Proof.
  destruct k as [a [[lt o]|]]; cbn [funds add_flow]; intros Hf Hv.
  - unfold add_locked. fold (llookup m.2 a lt o).
    rewrite SafeMath.Add_spec by done. destruct (Z.ltb_spec (default 0 (llookup m.2 a lt o) + v) (2 ^ 64));
      cbn [lift_math mbind result_bind]; [|unfold MaxUint64; lia].
    split; [unfold MaxUint64; lia|]. split; [|split; [|intros a'; cbn; split; [by right|by intros [|]]]].
    + intros [a' [[lt' o']|]]; cbn [funds fst snd]; [|by rewrite bool_decide_false by congruence].
      rewrite llookup_insert. repeat case_bool_decide; (done || congruence).
    + intros a' lt' o'. cbn [snd]. rewrite llookup_insert. case_bool_decide as Hd; [simplify_eq; naive_solver|]. naive_solver.
  - unfold add_unlocked. rewrite SafeMath.Add_spec by done. destruct (Z.ltb_spec (default 0 (m.1 !! a) + v) (2 ^ 64));
      cbn [lift_math mbind result_bind]; [|unfold MaxUint64; lia].
    split; [unfold MaxUint64; lia|]. split; [|split; [intros a' lt' o'; cbn; split; [by right|by intros [|]]|]].
    + intros [a' [[lt' o']|]]; cbn [funds fst snd]; [by rewrite bool_decide_false by congruence|].
      destruct (decide (a' = a)) as [->|Hne]; [by rewrite lookup_insert_eq, bool_decide_true|].
      by rewrite lookup_insert_ne, bool_decide_false by congruence.
    + intros a'. cbn [fst]. rewrite lookup_insert_is_Some'. split; [intros [->|?]; auto|intros [[= ->]|?]; auto].
Qed.

(** *** All additions *)
Definition u64_funds (m : Unlocked * Locked) : Prop := forall k, is_u64 (funds m k).

Lemma add_flows_spec fl m : u64_funds m -> wf_flows fl ->
  match foldR add_flow m fl with
  | Ok m' => u64_funds m' /\ (forall k, funds m' k = funds m k + amt fl k) /\
      (forall a lt o, is_Some (llookup m'.2 a lt o) <-> (a, Some (lt, o)) ∈ fl.*1 \/ is_Some (llookup m.2 a lt o)) /\
      (forall a, is_Some (m'.1 !! a) <-> (a, None) ∈ fl.*1 \/ is_Some (m.1 !! a))
  | Err _ => exists k, MaxUint64 < funds m k + amt fl k
  end.
Proof.
  intros Hm Hfl. revert m Hm. induction Hfl as [|[k v] fl Hv Hfl IH]; intros m Hm.
  { cbn. split; [done|]. split; [intros; unfold amt; cbn; lia|]. split; intros; rewrite elem_of_nil; naive_solver. }
  cbn [foldR]. pose proof (add_flow_spec m k v (Hm k) Hv) as Ha. destruct (add_flow m (k, v)) as [m1|e]; cbn [mbind result_bind].
  2:{ exists k. rewrite amt_cons, bool_decide_true by done. cbn [fst snd]. pose proof (amt_nonneg fl k Hfl). lia. }
  destruct Ha as (Hle & Hf & Hl & Hu).
  assert (u64_funds m1) as Hm1.
  { intros k'. rewrite Hf. pose proof (Hm k'). pose proof (Hm k). case_bool_decide; [|done]. unfold is_uint, MaxUint64 in *. cbn in Hv. lia. }
  specialize (IH m1 Hm1). destruct (foldR add_flow m1 fl) as [m2|e].
  - destruct IH as (IH1 & IH2 & IH3 & IH4). split; [done|]. split; [|split].
    + intros k'. rewrite IH2, Hf, amt_cons. cbn [fst snd]. case_bool_decide; subst; lia.
    + intros a lt o. rewrite IH3, Hl. cbn. rewrite elem_of_cons. naive_solver.
    + intros a. rewrite IH4, Hu. cbn. rewrite elem_of_cons. naive_solver.
  - destruct IH as (k' & Hk). exists k'. rewrite Hf in Hk. rewrite amt_cons. cbn [fst snd]. case_bool_decide; subst; lia.
Qed.

(** *** The loops over the locked funds *)
Definition flat lp : list (ID * Z * ID * Z) :=
  entries lp ≫= fun x => entries x.2 ≫= fun y => (fun z => (x.1, y.1, z.1, z.2)) <$> entries y.2.

Lemma elem_of_flat lp a lt o p : (a, lt, o, p) ∈ flat lp <-> llookup lp a lt o = Some p.
Proof.
  unfold flat, llookup. rewrite list_elem_of_bind. split.
  - intros ([a' la] & Hin & Ha%elem_of_entries). apply list_elem_of_bind in Hin as ([lt' os] & Hin & Hlt%elem_of_entries).
    apply list_elem_of_fmap in Hin as ([o' p'] & Heq & Ho%elem_of_entries). cbn in *. simplify_eq.
    rewrite Ha. cbn [from_option id]. by rewrite Hlt.
  - intros Hp. destruct (lp !! a) as [la|] eqn:Ha; [|by cbn in Hp; rewrite !lookup_empty in Hp]. cbn in Hp.
    destruct (la !! lt) as [os|] eqn:Hlt; [|by cbn in Hp; rewrite lookup_empty in Hp]. cbn in Hp.
    exists (a, la). split; [|by apply elem_of_entries]. apply list_elem_of_bind. exists (lt, os).
    split; [|by apply elem_of_entries]. apply list_elem_of_fmap. exists (o, p). split; [done|by apply elem_of_entries].
Qed.

Lemma flat_nodup lp : NoDup (flat lp).
Proof.
  unfold flat. apply NoDup_bind; [| |apply entries_nodup].
  - intros [a la] [a' la'] [[[? ?] ?] ?] Ha%elem_of_entries Ha'%elem_of_entries Hx Hy.
    apply list_elem_of_bind in Hx as (y & Hx & _). apply list_elem_of_bind in Hy as (y' & Hy & _).
    apply list_elem_of_fmap in Hx as (q & Hx & _). apply list_elem_of_fmap in Hy as (q' & Hy & _). cbn in *. simplify_eq. done.
  - intros [a la] _. apply NoDup_bind; [| |apply entries_nodup].
    + intros [lt os] [lt' os'] [[[? ?] ?] ?] Ha%elem_of_entries Ha'%elem_of_entries Hx Hy.
      apply list_elem_of_fmap in Hx as (q & Hx & _). apply list_elem_of_fmap in Hy as (q' & Hy & _). cbn in *. simplify_eq. done.
    + intros [lt os] _. apply NoDup_fmap_2; [|apply entries_nodup]. intros [o p] [o' p']. cbn. congruence.
Qed.

Definition flat_key (x : ID * Z * ID * Z) : Key := let '(a, lt, o, _) := x in (a, Some (lt, o)).

Lemma flat_keys_nodup lp : NoDup (flat_key <$> flat lp).
Proof.
  apply NoDup_fmap_2_strong; [|apply flat_nodup]. intros [[[a lt] o] p] [[[a' lt'] o'] p'] Hx%elem_of_flat Hy%elem_of_flat [= -> -> ->].
  congruence.
Qed.

Lemma cover_all_flat lp lc uc :
  cover_all lp lc uc = foldR (fun uc '(a, lt, o, p) => cover a p (default 0 (llookup lc a lt o)) uc) uc (flat lp).
Proof.
  unfold cover_all, flat. rewrite foldR_bind. apply foldR_ext. intros acc [a la] _.
  rewrite foldR_bind. apply foldR_ext. intros acc' [lt os] _.
  rewrite foldR_fmap. apply foldR_ext. intros acc'' [o p] _. done.
Qed.

(** What the unlocked funds of [a] add to the locked funds of [l]. *)
Definition increases lc (l : list (ID * Z * ID * Z)) (a : ID) : Z :=
  zsum (fun '(a', lt, o, p) => if bool_decide (a' = a) then Z.max 0 (p - default 0 (llookup lc a' lt o)) else 0) l.

Lemma increases_cons lc a' lt o p l a : increases lc ((a', lt, o, p) :: l) a =
  (if bool_decide (a' = a) then Z.max 0 (p - default 0 (llookup lc a' lt o)) else 0) + increases lc l a.
Proof. done. Qed.

Lemma increases_nonneg lc l a : 0 <= increases lc l a.
Proof.
  induction l as [|[[[a' lt] o] p] l IH]; [done|]. rewrite increases_cons. case_bool_decide; lia.
Qed.

Lemma cover_flat_spec lc l uc :
  match foldR (fun uc '(a, lt, o, p) => cover a p (default 0 (llookup lc a lt o)) uc) uc l with
  | Ok uc' => forall a, default 0 (uc' !! a) = default 0 (uc !! a) - increases lc l a /\ 
      (increases lc l a <= default 0 (uc !! a) \/ increases lc l a = 0)
  | Err e => e = ErrInsufficientLockedFunds /\ exists a, default 0 (uc !! a) < increases lc l a
  end.
Proof.
  revert uc. induction l as [|[[[a lt] o] p] l IH]; intros uc; [cbn [foldR]; intros a; change (increases lc [] a) with 0; lia|].
  cbn [foldR]. set (c := default 0 (llookup lc a lt o)).
  assert (forall a', increases lc ((a, lt, o, p) :: l) a' = (if bool_decide (a = a') then Z.max 0 (p - c) else 0) + increases lc l a') as Hi by done.
  unfold cover. destruct (Z.ltb_spec c p) as [Hc|Hc].
  - destruct (Z.ltb_spec (default 0 (uc !! a)) (p - c)) as [Hlt|Hle]; cbn [mbind result_bind].
    + split; [done|]. exists a. rewrite Hi, bool_decide_true by done. pose proof (increases_nonneg lc l a). lia.
    + specialize (IH (<[a := default 0 (uc !! a) - (p - c)]> uc)).
      destruct (foldR _ _ l) as [uc'|e].
      * intros a'. rewrite Hi. specialize (IH a'). case_bool_decide as Ha; [subst a'; rewrite lookup_insert_eq in IH; cbn in IH|rewrite lookup_insert_ne in IH by done].
        -- pose proof (increases_nonneg lc l a). lia.
        -- lia.
      * destruct IH as (-> & a' & Ha'). split; [done|]. exists a'. rewrite Hi.
        case_bool_decide as Ha; [subst a'; rewrite lookup_insert_eq in Ha'; cbn in Ha'|rewrite lookup_insert_ne in Ha' by done]; lia.
  - cbn [mbind result_bind]. specialize (IH uc). destruct (foldR _ _ l) as [uc'|e].
    + intros a'. rewrite Hi. specialize (IH a'). case_bool_decide; lia.
    + destruct IH as (-> & a' & Ha'). split; [done|]. exists a'. rewrite Hi. case_bool_decide; lia.
Qed.

Lemma elem_of_locked_keys fl a k : k ∈ locked_keys fl a <-> k ∈ fl.*1 /\ k.1 = a /\ is_Some k.2.
Proof. unfold locked_keys. rewrite elem_of_remove_dups, list_elem_of_filter. tauto. Qed.

(** The loops over the maps add up the shortfall. *)
Lemma increases_shortfall fi fo lc lp a :
  (forall a lt o, default 0 (llookup lc a lt o) = amt fi (a, Some (lt, o))) ->
  (forall a lt o, default 0 (llookup lp a lt o) = amt fo (a, Some (lt, o))) ->
  (forall a lt o, is_Some (llookup lp a lt o) <-> (a, Some (lt, o)) ∈ fo.*1) ->
  increases lc (flat lp) a = shortfall fi fo a.
Proof.
  intros Hc Hp Hk. unfold shortfall.
  transitivity (zsum (fun k : Key => if bool_decide (k.1 = a) then Z.max 0 (amt fo k - amt fi k) else 0) (flat_key <$> flat lp)).
  { rewrite zsum_fmap. apply zsum_ext. intros [[[a' lt] o] p] Hin%elem_of_flat. cbn. rewrite <- Hc, <- Hp, Hin. done. }
  rewrite zsum_filter. apply zsum_perm, NoDup_Permutation; [by apply NoDup_filter, flat_keys_nodup|apply NoDup_remove_dups|].
  intros [a' k]. rewrite list_elem_of_filter, elem_of_locked_keys, list_elem_of_fmap. cbn [fst snd]. split.
  - intros [-> ([[[b lt] o] p] & [= -> ->] & Hin%elem_of_flat)]. split; [|split; [done|by eexists]]. apply Hk. by eexists.
  - intros (Hin & -> & [[lt o] ->]). split; [done|]. apply Hk in Hin as [p Hin]. exists (a, lt, o, p). split; [done|]. by apply elem_of_flat.
Qed.

Lemma check_unlocked_spec up uc :
  check_unlocked up uc = if bool_decide (map_Forall (fun a p => p <= default 0 (uc !! a)) up) then Ok tt else Err ErrInsufficientUnlockedFunds.
Proof.
  unfold check_unlocked.
  assert (forall l, foldR (fun _ '(assetID, unlockedProducedAsset) =>
    if default 0 (uc !! assetID) <? unlockedProducedAsset then Err ErrInsufficientUnlockedFunds else Ok tt) tt l =
    if bool_decide (Forall (fun x => x.2 <= default 0 (uc !! x.1)) l) then Ok tt else Err ErrInsufficientUnlockedFunds) as Hl.
  { induction l as [|[a p] l IH]; [done|]. cbn [foldR]. destruct (Z.ltb_spec (default 0 (uc !! a)) p); cbn [mbind result_bind].
    - rewrite bool_decide_false; [done|]. rewrite Forall_cons. cbn. lia.
    - rewrite IH. apply (f_equal (fun b : bool => if b then Ok tt else _)), bool_decide_ext. rewrite Forall_cons. cbn. tauto. }
  rewrite Hl. apply (f_equal (fun b : bool => if b then Ok tt else _)), bool_decide_ext.
  rewrite Forall_forall. split; [intros Hf a p Hap; by apply (Hf (a, p)), elem_of_entries|].
  intros Hf [a p] Hap%elem_of_entries. by apply Hf.
Qed.

(** *** The loops over inputs and outputs *)
Lemma consume_loop tx l m m' : foldR (consume_step tx) m l = Ok m' <->
  exists fi, mapM (consume tx) l = Ok fi /\ foldR add_flow m fi = Ok m'.
Proof.
  revert m. induction l as [|x l IH]; intros m.
  { split; [intros Hm; by exists []|by intros (fi & [= <-] & Hm)]. }
  cbn [foldR mapM]. unfold consume_step at 1. split.
  - intros Hm. apply bind_ok in Hm as (m1 & Hx & Hm). apply bind_ok in Hx as (fl & Hc & Ha).
    apply IH in Hm as (fi & Hfi & Hm). exists (fl :: fi). rewrite Hc. cbn [mbind result_bind]. rewrite Hfi. split; [done|]. cbn. by rewrite Ha.
  - intros (fi & Hfi & Hm). apply bind_ok in Hfi as (fl & Hc & Hfi). apply bind_ok in Hfi as (fi' & Hfi & [= <-]).
    cbn in Hm. apply bind_ok in Hm as (m1 & Ha & Hm). apply bind_ok. exists m1. split; [apply bind_ok; by exists fl|].
    apply IH. by exists fi'.
Qed.

Lemma produce_loop l up lp up' lp' : foldM produce_step l lp up = (up', Ok lp') <->
  exists fo, mapM produce l = Ok fo /\ foldR add_flow (up, lp) fo = Ok (up', lp').
Proof.
  revert up lp. induction l as [|x l IH]; intros up lp.
  { split; [intros [= <- <-]; by exists []|by intros (fi & [= <-] & [= <- <-])]. }
  cbn [foldM mapM]. unfold mbind at 1, M_bind at 1. unfold produce_step at 1. unfold mbind, M_bind, lift, get, modify, mret, M_ret. cbn [fst snd].
  destruct (produce x) as [fl|e]; cbn [result_bind]; [|split; [done|by intros (fo & ? & _)]].
  destruct (add_flow (up, lp) fl) as [m|e] eqn:Ha.
  - rewrite IH. split.
    + intros (fo & Hfo & Hm). exists (fl :: fo). rewrite Hfo. split; [done|]. cbn. rewrite Ha. cbn. by destruct m.
    + intros (fo & Hfo & Hm). destruct (mapM produce l) as [fo'|e]; [|done]. injection Hfo as <-. exists fo'. split; [done|].
      cbn in Hm. rewrite Ha in Hm. cbn in Hm. by destruct m.
  - split; [done|]. intros (fo & Hfo & Hm). destruct (mapM produce l) as [fo'|e']; [|done]. injection Hfo as <-.
    cbn in Hm. by rewrite Ha in Hm.
Qed.

Lemma funds_empty k : funds (∅, ∅) k = 0.
Proof. destruct k as [a [[lt o]|]]; cbn; [unfold llookup; by rewrite !lookup_empty|by rewrite lookup_empty]. Qed.

Lemma llookup_empty a lt o : llookup ∅ a lt o = None.
Proof. unfold llookup. by rewrite !lookup_empty. Qed.

Lemma funds_u64 up : map_Forall (fun _ v => is_u64 v) up -> u64_funds (up, ∅).
Proof.
  intros Hup [a [[lt o]|]]; cbn; [rewrite llookup_empty; by split|].
  destruct (up !! a) as [v|] eqn:Hv; [by apply (Hup a v)|by split].
Qed.

(** The final checks, given what the loops have added up. *)
Lemma settled fi fo up uc lc up' lp : wf_flows fi -> wf_flows fo -> map_Forall (fun _ v => is_u64 v) up ->
  foldR add_flow (∅, ∅) fi = Ok (uc, lc) -> foldR add_flow (up, ∅) fo = Ok (up', lp) ->
  (exists uc', cover_all lp lc uc = Ok uc' /\ check_unlocked up' uc' = Ok tt) <->
  forall a, default 0 (up !! a) + amt fo (a, None) + shortfall fi fo a <= amt fi (a, None).
Proof.
  intros Hfi Hfo Hup Hc Hp.
  pose proof (add_flows_spec fi (∅, ∅) (funds_u64 ∅ ltac:(by apply map_Forall_empty)) Hfi) as Hci. rewrite Hc in Hci.
  pose proof (add_flows_spec fo (up, ∅) (funds_u64 up Hup) Hfo) as Hpi. rewrite Hp in Hpi.
  destruct Hci as (_ & Hcf & _ & _), Hpi as (_ & Hpf & Hpl & _). cbn [snd fst] in *.
  assert (forall a, increases lc (flat lp) a = shortfall fi fo a) as Hinc.
  { intros a. apply increases_shortfall.
    - intros b lt o. specialize (Hcf (b, Some (lt, o))). rewrite funds_empty in Hcf. exact Hcf.
    - intros b lt o. specialize (Hpf (b, Some (lt, o))). cbn in Hpf. rewrite llookup_empty in Hpf. exact Hpf.
    - intros b lt o. rewrite Hpl, llookup_empty. split; [by intros [|[? ?]]|by left]. }
  assert (forall a, default 0 (uc !! a) = amt fi (a, None)) as Huc.
  { intros a. specialize (Hcf (a, None)). rewrite funds_empty in Hcf. exact Hcf. }
  assert (forall a, default 0 (up' !! a) = default 0 (up !! a) + amt fo (a, None)) as Hup' by (intros a; exact (Hpf (a, None))).
  rewrite cover_all_flat. pose proof (cover_flat_spec lc (flat lp) uc) as Hcov.
  assert (forall a, 0 <= default 0 (up !! a) + amt fo (a, None)) as Hpos.
  { intros a. pose proof (funds_u64 up Hup (a, None)) as [? _]. cbn in *. pose proof (amt_nonneg fo (a, None) Hfo). lia. }
  destruct (foldR _ uc (flat lp)) as [uc'|e].
  - split.
    + intros (uc'' & [= <-] & Hch) a. rewrite check_unlocked_spec in Hch. case_bool_decide as Hall; [|done].
      destruct (Hcov a) as [Ha Hb]. rewrite <- Hup', <- Huc. rewrite Hinc in *. specialize (Hpos a). rewrite <- Hup' in Hpos.
      destruct (up' !! a) as [p|] eqn:Hpa; cbn [from_option id] in *; [specialize (Hall a p Hpa); cbn in Hall; lia|].
      pose proof (increases_nonneg lc (flat lp) a). specialize (Huc a). pose proof (amt_nonneg fi (a, None) Hfi). lia.
    + intros Hle. exists uc'. split; [done|]. rewrite check_unlocked_spec, bool_decide_true; [done|].
      intros a p Hpa. destruct (Hcov a) as [Ha _]. rewrite Ha, Hinc, Huc. specialize (Hle a).
      specialize (Hup' a). rewrite Hpa in Hup'. cbn in Hup'. lia.
  - split; [by intros (? & ? & _)|]. intros Hle. destruct Hcov as (_ & a & Ha). rewrite Hinc, Huc in Ha.
    specialize (Hle a). specialize (Hpos a). lia.
Qed.

(** *** One input, one output *)
Definition StateAmount (o : State) : Z := match o with Transferable o => AmountOut o | OtherState => 0 end.
Definition out_locktime (o : State) : Z := (unlock_out o).2.

Lemma consume_ok tx i (u : UTXO ID) c k v : consume tx (i, (u, c)) = Ok (k, v) ->
  k.1 = U_AssetID u /\ v = AmountIn (I_In i) /\ v = StateAmount (U_Out u) /\ (k.2 = None <-> out_locktime (U_Out u) <= now).
Proof.
  unfold consume, out_locktime. case_bool_decide as Ha; cbn [negb]; [|done].
  destruct (unlock_out (U_Out u)) as [out lt] eqn:Hu. intros Hc. apply bind_ok in Hc as (inp & Hin & Hc). apply bind_ok in Hc as ([] & Hv & Hc).
  assert (AmountIn inp = AmountIn (I_In i)) as Hamt.
  { unfold unlock_in in Hin. destruct (I_In i); [destruct (_ <? _) in Hin; by simplify_eq|]. destruct (_ =? _) in Hin; cbn in Hin; by simplify_eq. }
  assert (AmountIn inp = StateAmount (U_Out u)) as Hout.
  { unfold lift_fx in Hv. destruct (VerifyTransfer _ _ _ _ _ _) as [[]|] eqn:Ht in Hv; [|done].
    apply transfer_amounts in Ht as (i' & o' & Hi & Ho & Heq). destruct inp as [inp|]; [|done]. injection Hi as ->. cbn. rewrite Heq.
    destruct out as [[o|]|]; [|done|done]. injection Ho as ->.
    destruct (U_Out u) as [[o|lt' o]|]; cbn in Hu; simplify_eq; done. }
  cbn [snd]. destruct (Z.leb_spec lt now).
  - injection Hc as <- <-. cbn. intuition (congruence || done).
  - apply bind_ok in Hc as (o & Ho & [= <- <-]). cbn. split_and!; [done|congruence|congruence|]. split; [done|lia].
Qed.

Lemma produce_ok (o : TransferableOutput ID) k v : produce o = Ok (k, v) ->
  k.1 = O_AssetID o /\ v = AmountOut (O_Out o) /\ (k.2 = None <-> out_locktime (Transferable (O_Out o)) = 0).
Proof.
  unfold produce, out_locktime. destruct (O_Out o) as [out|lt out]; cbn [unlock_out snd AmountOut].
  - intros [= <- <-]. done.
  - destruct (Z.eqb_spec lt 0); [intros [= <- <-]; done|]. intros Hp. apply bind_ok in Hp as (? & _ & [= <- <-]). done.
Qed.

(** *** Totals of an asset *)
Definition moved fl (a : ID) : Z := zsum (fun x => if bool_decide (x.1.1 = a) then x.2 else 0) fl.

Lemma amt_keys x fl (ks : list Key) : NoDup ks ->
  zsum (amt (x :: fl)) ks = (if bool_decide (x.1 ∈ ks) then x.2 else 0) + zsum (amt fl) ks.
Proof.
  induction 1 as [|k ks Hn Hd IH]; [done|]. cbn [zsum foldr]. fold (zsum (amt (x :: fl)) ks) (zsum (amt fl) ks).
  rewrite IH, amt_cons. destruct (decide (x.1 = k)) as [->|Hne].
  - rewrite (bool_decide_true (k = k)), (bool_decide_false (k ∈ ks)), bool_decide_true by (done || by left). lia.
  - rewrite (bool_decide_false (x.1 = k)) by done. rewrite (bool_decide_ext (x.1 ∈ k :: ks) (x.1 ∈ ks)); [lia|].
    rewrite elem_of_cons. tauto.
Qed.

(** Distinct locked funds and the unlocked ones are parts of the total, and all of
    it when no locked funds are left out. *)
Lemma moved_parts fl a (ks : list Key) : wf_flows fl -> NoDup ks -> Forall (fun k => k.1 = a /\ is_Some k.2) ks ->
  amt fl (a, None) + zsum (amt fl) ks <= moved fl a /\
  ((forall k, k ∈ fl.*1 -> k.1 = a -> is_Some k.2 -> k ∈ ks) -> amt fl (a, None) + zsum (amt fl) ks = moved fl a).
Proof.
  intros Hwf Hd Hks. induction Hwf as [|[[b k] v] fl [Hv _] Hwf [IH1 IH2]].
  { split; [|intros _]; unfold moved, amt; cbn; rewrite zsum_zero; lia. }
  rewrite amt_keys, amt_cons by done. cbn [fst snd] in *.
  assert (moved ((b, k, v) :: fl) a = (if bool_decide (b = a) then v else 0) + moved fl a) as -> by done.
  rewrite Forall_forall in Hks.
  assert ((b, k) ∈ ks -> b = a /\ k <> None) as Hin by (intros [Hb [lo Hk]]%Hks; cbn in Hb, Hk; split; congruence).
  split.
  - repeat case_bool_decide; simplify_eq; try lia; exfalso; naive_solver.
  - intros Hall. rewrite <- IH2 by (intros k' Hk'; apply Hall; cbn; by right).
    destruct (decide (b = a)) as [->|Hb].
    + rewrite (bool_decide_true (a = a)) by done. destruct k as [lo|].
      * rewrite bool_decide_false by done. rewrite bool_decide_true; [lia|]. apply Hall; [by left|done|by eexists].
      * rewrite bool_decide_true by done. rewrite bool_decide_false by (intros [_ ?]%Hin; done). lia.
    + rewrite !bool_decide_false; [lia|done|intros [? _]%Hin; done|congruence].
Qed.

Lemma conserved fi fo (u : Z) a : wf_flows fi -> wf_flows fo ->
  u + amt fo (a, None) + shortfall fi fo a <= amt fi (a, None) -> u + moved fo a <= moved fi a.
Proof.
  intros Hfi Hfo Hle.
  assert (NoDup (locked_keys fo a)) as Hd by apply NoDup_remove_dups.
  assert (Forall (fun k => k.1 = a /\ is_Some k.2) (locked_keys fo a)) as Hk by (apply Forall_forall; intros k Hk; apply elem_of_locked_keys in Hk; tauto).
  destruct (moved_parts fi a _ Hfi Hd Hk) as [Hi _]. destruct (moved_parts fo a _ Hfo Hd Hk) as [_ Ho].
  rewrite <- Ho by (intros; by apply elem_of_locked_keys).
  assert (zsum (amt fo) (locked_keys fo a) <= shortfall fi fo a + zsum (amt fi) (locked_keys fo a)); [|lia].
  unfold shortfall. generalize (locked_keys fo a). intros ks. induction ks as [|k ks IH]; [done|]. cbn [zsum foldr]. unfold zsum in IH. lia.
Qed.

(** *** The verdict *)
Definition wf_tx (ins : list (TransferableInput ID)) (outs : list (TransferableOutput ID)) up : Prop :=
  Forall (fun i => is_u64 (AmountIn (I_In i))) ins /\ Forall (fun o => is_u64 (AmountOut (O_Out o))) outs /\
  map_Forall (fun _ v => is_u64 v) up.

Lemma mapM_flows {A} (f : A -> result TxErr (Key * Z)) (g : A -> Z) l fl :
  (forall x k v, f x = Ok (k, v) -> v = g x) -> Forall (fun x => is_u64 (g x)) l -> mapM f l = Ok fl -> wf_flows fl.
Proof.
  intros Hf Hl. revert fl. induction Hl as [|x l Hx _ IH]; intros fl; [intros [= <-]; constructor|].
  cbn [mapM]. intros Hm. apply bind_ok in Hm as ([k v] & Hfx & Hm). apply bind_ok in Hm as (fl' & Hfl & [= <-]).
  constructor; [|by apply IH]. cbn. by rewrite (Hf _ _ _ Hfx).
Qed.

Lemma zip_ins_forall (P : TransferableInput ID -> Prop) ins (utxos : list (UTXO ID)) (creds : list (Cred Sig)) :
  Forall P ins -> Forall (fun x => P x.1) (zip ins (zip utxos creds)).
Proof.
  intros Hp. revert utxos creds. induction Hp as [|i ins Hi _ IH]; intros [|u utxos] [|c creds]; cbn; constructor; auto.
Qed.

Lemma VerifySpendUTXOs_ok tx utxos ins outs creds up up' : VerifySpendUTXOs tx utxos ins outs creds up = (up', Ok tt) <->
  length ins = length creds /\ length ins = length utxos /\ Forall (fun c => Cred_Verify c = Ok tt) creds /\
  exists fi fo uc lc lp, mapM (consume tx) (zip ins (zip utxos creds)) = Ok fi /\ mapM produce outs = Ok fo /\
    foldR add_flow (∅, ∅) fi = Ok (uc, lc) /\ foldR add_flow (up, ∅) fo = Ok (up', lp) /\
    exists uc', cover_all lp lc uc = Ok uc' /\ check_unlocked up' uc' = Ok tt.
Proof.
  unfold VerifySpendUTXOs. case_bool_decide as Hl1; [|split; [done|by intros (? & _)]].
  case_bool_decide as Hl2; [|split; [done|by intros (_ & ? & _)]]. cbn [negb].
  assert (forall (l : list (Cred Sig)), foldR (fun _ cred => Cred_Verify cred) tt l = Ok tt <-> Forall (fun c => Cred_Verify c = Ok tt) l) as Hc.
  { induction l as [|c l IH]; [split; [constructor|done]|]. cbn. rewrite Forall_cons, <- IH.
    destruct (Cred_Verify c) as [[]|e]; cbn; [tauto|]. split; [done|by intros [? _]]. }
  specialize (Hc creds). unfold mbind, M_bind, lift, get.
  destruct (foldR (fun _ cred => Cred_Verify cred) tt creds) as [[]|e].
  2:{ split; [done|]. intros (_ & _ & Hf & _). apply Hc in Hf. done. }
  destruct (foldR (consume_step tx) (∅, ∅) (zip ins (zip utxos creds))) as [[uc lc]|e] eqn:Hcons.
  2:{ split; [done|]. intros (_ & _ & _ & fi & fo & uc & lc & lp & Hfi & _ & Hm & _).
      assert (foldR (consume_step tx) (∅, ∅) (zip ins (zip utxos creds)) = Ok (uc, lc)) by (apply consume_loop; by exists fi). congruence. }
  destruct (foldM produce_step outs ∅ up) as [up1 [lp|e]] eqn:Hprod.
  2:{ split; [done|]. intros (_ & _ & _ & fi & fo & uc' & lc' & lp & _ & Hfo & _ & Hm & _).
      assert (foldM produce_step outs ∅ up = (up', Ok lp)) by (apply produce_loop; by exists fo). congruence. }
  cbn [fst snd]. apply consume_loop in Hcons as (fi & Hfi & Hci). apply produce_loop in Hprod as (fo & Hfo & Hpo). split.
  - intros Hrun. split; [done|]. split; [done|]. split; [by apply Hc|]. exists fi, fo, uc, lc, lp.
    destruct (cover_all lp lc uc) as [uc'|e] eqn:Hcov; [|done]. injection Hrun as <- Hch. split_and!; [done..|]. exists uc'. done.
  - intros (_ & _ & _ & fi' & fo' & uc1 & lc1 & lp1 & Hfi' & Hfo' & Hci' & Hpo' & uc' & Hcov & Hch).
    assert (fi' = fi) as -> by congruence. assert (fo' = fo) as -> by congruence.
    assert ((uc1, lc1) = (uc, lc)) as [= -> ->] by congruence. assert ((up', lp1) = (up1, lp)) as [= -> ->] by congruence.
    rewrite Hcov. by rewrite Hch.
Qed.

Lemma tx_flows tx ins utxos outs creds up fi fo : wf_tx ins outs up ->
  mapM (consume tx) (zip ins (zip utxos creds)) = Ok fi -> mapM produce outs = Ok fo -> wf_flows fi /\ wf_flows fo.
Proof.
  intros (Hi & Ho & _) Hfi Hfo. split.
  - refine (mapM_flows _ (fun x => AmountIn (I_In x.1)) _ fi _ _ Hfi).
    + intros [i [u c]] k v Hc. by apply consume_ok in Hc as (_ & -> & _).
    + exact (zip_ins_forall (fun i => is_u64 (AmountIn (I_In i))) ins utxos creds Hi).
  - refine (mapM_flows _ (fun o => AmountOut (O_Out o)) _ fo _ Ho Hfo). intros o k v Hp. by apply produce_ok in Hp as (_ & -> & _).
Qed.

(** C13: the verdict on a transaction does not depend on the order in which maps are
    visited: it is valid exactly if every input may consume its UTXO, nothing
    overflows 64 bits, and for each asset the unlocked funds consumed pay for the
    unlocked funds produced and for all the locked funds that are produced beyond
    those consumed with the same locktime and owner. *)
Theorem verify_spend_exact tx utxos ins outs creds up : wf_tx ins outs up ->
  (exists up', VerifySpendUTXOs tx utxos ins outs creds up = (up', Ok tt)) <->
  length ins = length creds /\ length ins = length utxos /\ Forall (fun c => Cred_Verify c = Ok tt) creds /\
  exists fi fo, mapM (consume tx) (zip ins (zip utxos creds)) = Ok fi /\ mapM produce outs = Ok fo /\
    (forall k, amt fi k <= MaxUint64) /\ (forall k, funds (up, ∅) k + amt fo k <= MaxUint64) /\
    (forall a, default 0 (up !! a) + amt fo (a, None) + shortfall fi fo a <= amt fi (a, None)).
Proof.
  intros Hwf. split.
  - intros (up' & Hrun). apply VerifySpendUTXOs_ok in Hrun as (H1' & H2' & H3' & fi & fo & uc & lc & lp & Hfi & Hfo & Hci & Hpo & Hset).
    destruct (tx_flows _ _ _ _ _ _ _ _ Hwf Hfi Hfo) as [Hwi Hwo]. split_and!; [done..|]. exists fi, fo.
    split_and!; [done|done| | |exact (proj1 (settled _ _ _ _ _ _ _ Hwi Hwo (proj2 (proj2 Hwf)) Hci Hpo) Hset)]; intros k.
    + pose proof (add_flows_spec fi (∅, ∅) (funds_u64 ∅ ltac:(by apply map_Forall_empty)) Hwi) as Hs. rewrite Hci in Hs.
      destruct Hs as (Hu & Hf & _). specialize (Hu k). rewrite Hf, funds_empty in Hu. unfold is_uint, MaxUint64 in *. lia.
    + pose proof (add_flows_spec fo (up, ∅) (funds_u64 up (proj2 (proj2 Hwf))) Hwo) as Hs. rewrite Hpo in Hs.
      destruct Hs as (Hu & Hf & _). specialize (Hu k). rewrite Hf in Hu. unfold is_uint, MaxUint64 in *. lia.
  - intros (H1' & H2' & H3' & fi & fo & Hfi & Hfo & Hi & Ho & Hle).
    destruct (tx_flows _ _ _ _ _ _ _ _ Hwf Hfi Hfo) as [Hwi Hwo].
    pose proof (add_flows_spec fi (∅, ∅) (funds_u64 ∅ ltac:(by apply map_Forall_empty)) Hwi) as Hci.
    destruct (foldR add_flow (∅, ∅) fi) as [[uc lc]|e] eqn:Eci; [|destruct Hci as (k & Hk); specialize (Hi k); rewrite funds_empty in Hk; lia].
    pose proof (add_flows_spec fo (up, ∅) (funds_u64 up (proj2 (proj2 Hwf))) Hwo) as Hpo.
    destruct (foldR add_flow (up, ∅) fo) as [[up' lp]|e] eqn:Epo; [|destruct Hpo as (k & Hk); specialize (Ho k); lia].
    exists up'. apply VerifySpendUTXOs_ok. split_and!; [done..|]. exists fi, fo, uc, lc, lp. split_and!; [done..|].
    by apply (settled fi fo up uc lc up' lp Hwi Hwo (proj2 (proj2 Hwf)) Eci Epo).
Qed.

(** *** Conservation of value *)
Lemma mapM_zsum {A} (f : A -> result TxErr (Key * Z)) (g : Key * Z -> Z) (h : A -> Z) l fl :
  (forall x y, f x = Ok y -> g y = h x) -> mapM f l = Ok fl -> zsum g fl = zsum h l.
Proof.
  intros Hf. revert fl. induction l as [|x l IH]; intros fl; [by intros [= <-]|].
  cbn [mapM]. intros Hm. apply bind_ok in Hm as (y & Hfx & Hm). apply bind_ok in Hm as (fl' & Hfl & [= <-]).
  cbn. rewrite (Hf _ _ Hfx). f_equal. by apply IH.
Qed.

Lemma zsum_zip (h : UTXO ID -> Z) (ins : list (TransferableInput ID)) utxos (creds : list (Cred Sig)) :
  length ins = length creds -> length ins = length utxos ->
  zsum (fun x => h x.2.1) (zip ins (zip utxos creds)) = zsum h utxos.
Proof.
  revert utxos creds. induction ins as [|i ins IH]; intros [|u utxos] [|c creds] [=] [=]; [done|].
  cbn. f_equal. by apply IH.
Qed.

(** The value of asset [a] in UTXOs and in outputs that satisfy [P]. *)
Definition utxos_value (P : State -> bool) (a : ID) (utxos : list (UTXO ID)) : Z :=
  zsum (fun u => if bool_decide (U_AssetID u = a) && P (U_Out u) then StateAmount (U_Out u) else 0) utxos.
Definition outs_value (P : State -> bool) (a : ID) (outs : list (TransferableOutput ID)) : Z :=
  zsum (fun o => if bool_decide (O_AssetID o = a) && P (Transferable (O_Out o)) then AmountOut (O_Out o) else 0) outs.
Definition any_locktime (o : State) : bool := true.
Definition locktime_passed (o : State) : bool := out_locktime o <=? now.
Definition no_locktime (o : State) : bool := out_locktime o =? 0.

Lemma flows_value tx ins utxos outs creds fi fo a : length ins = length creds -> length ins = length utxos ->
  mapM (consume tx) (zip ins (zip utxos creds)) = Ok fi -> mapM produce outs = Ok fo ->
  moved fi a = utxos_value any_locktime a utxos /\ amt fi (a, None) = utxos_value locktime_passed a utxos /\
  moved fo a = outs_value any_locktime a outs /\ amt fo (a, None) = outs_value no_locktime a outs.
Proof.
  intros Hl1 Hl2 Hfi Hfo. unfold moved, amt, utxos_value, outs_value, any_locktime, locktime_passed, no_locktime.
  rewrite <- !(zsum_zip _ ins utxos creds) by done. split_and!.
  1, 2: eapply mapM_zsum; [|exact Hfi]; intros [i [u c]] [[b k] v] Hc; apply consume_ok in Hc as (Hb & _ & Hv & Hk); cbn in Hb, Hk; cbn [fst snd]; subst b v.
  - by rewrite andb_true_r.
  - destruct (Z.leb_spec (out_locktime (U_Out u)) now); [rewrite andb_true_r|rewrite andb_false_r].
    + assert (k = None) as -> by (by apply Hk). repeat case_bool_decide; (done || congruence).
    + rewrite bool_decide_false; [done|]. intros [= _ ->]. destruct Hk as [Hk _]. specialize (Hk eq_refl). lia.
  - eapply mapM_zsum; [|exact Hfo]. intros o [[b k] v] Hp. apply produce_ok in Hp as (Hb & Hv & Hk). cbn in Hb, Hk. cbn [fst snd]. subst b v. by rewrite andb_true_r.
  - eapply mapM_zsum; [|exact Hfo]. intros o [[b k] v] Hp. apply produce_ok in Hp as (Hb & Hv & Hk). cbn in Hb, Hk. cbn [fst snd]. subst b v.
    destruct (Z.eqb_spec (out_locktime (Transferable (O_Out o))) 0) as [Ho|Ho]; [rewrite andb_true_r|rewrite andb_false_r].
    + assert (k = None) as -> by (by apply Hk). repeat case_bool_decide; (done || congruence).
    + rewrite bool_decide_false; [done|]. intros [= _ ->]. by apply Ho, Hk.
Qed.

(** C12: a transaction that passes creates no value: for each asset, the outputs and
    what the caller says is produced besides them ([unlockedProduced], the fee and
    the stake) are worth at most the UTXOs that are consumed.  Nor does it unlock
    anything: what it produces without a locktime is paid by UTXOs whose locktime
    has passed.  [unlockedProduced] ends as the sum of both. *)
Theorem verify_spend_conserves tx utxos ins outs creds up up' a : wf_tx ins outs up ->
  VerifySpendUTXOs tx utxos ins outs creds up = (up', Ok tt) ->
  default 0 (up !! a) + outs_value any_locktime a outs <= utxos_value any_locktime a utxos /\
  default 0 (up !! a) + outs_value no_locktime a outs <= utxos_value locktime_passed a utxos /\
  default 0 (up' !! a) = default 0 (up !! a) + outs_value no_locktime a outs.
Proof.
  intros Hwf Hrun. apply VerifySpendUTXOs_ok in Hrun as (Hl1 & Hl2 & _ & fi & fo & uc & lc & lp & Hfi & Hfo & Hci & Hpo & Hset).
  destruct (tx_flows _ _ _ _ _ _ _ _ Hwf Hfi Hfo) as [Hwi Hwo]. pose proof (proj2 (proj2 Hwf)) as Hup.
  pose proof (proj1 (settled _ _ _ _ _ _ _ Hwi Hwo Hup Hci Hpo) Hset a) as Hle.
  destruct (flows_value tx ins utxos outs creds fi fo a Hl1 Hl2 Hfi Hfo) as (<- & <- & <- & <-).
  split; [by apply conserved|]. split.
  - assert (0 <= shortfall fi fo a); [|lia]. unfold shortfall. generalize (locked_keys fo a) as ks.
    induction ks as [|k ks IH]; [done|]. cbn [zsum foldr]. unfold zsum in IH. lia.
  - pose proof (add_flows_spec fo (up, ∅) (funds_u64 up Hup) Hwo) as Hs. rewrite Hpo in Hs. destruct Hs as (_ & Hf & _).
    exact (Hf (a, None)).
Qed.
End verifier.

(** ** A concrete transaction

    It consumes 100 unlocked tokens and 40 that are locked until time 50, and
    produces 60 unlocked tokens, 70 that are locked until time 50, and a fee. *)
#[local] Instance id_order : KeyOrder (list Z) := elements_order.
#[local] Instance locktime_order : KeyOrder Z := elements_order.

Definition alice : OutputOwners := mkOwners 0 1 [[1; 0]].
Definition utxo1 : UTXO (list Z) := mkUTXO (mkUTXOID [5] 0) [8] (Transferable (SecpOut (mkOutput 100 alice))).
Definition utxo2 : UTXO (list Z) := mkUTXO (mkUTXOID [5] 1) [8] (Transferable (LockOut 50 (SecpOut (mkOutput 40 alice)))).
Definition in1 : TransferableInput (list Z) := mkIn (mkUTXOID [5] 0) [8] (SecpIn (mkTransferInput 100 (mkInput [0]))).
Definition in2 : TransferableInput (list Z) := mkIn (mkUTXOID [5] 1) [8] (LockIn 50 (SecpIn (mkTransferInput 40 (mkInput [0])))).
Definition out1 : TransferableOutput (list Z) := mkOut [8] (SecpOut (mkOutput 60 (mkOwners 0 1 [[2; 0]]))).
Definition out2 : TransferableOutput (list Z) := mkOut [8] (LockOut 50 (SecpOut (mkOutput 70 alice))).
Definition alice_cred : Cred (Z * list Z) := SecpCred (mkCredential [(1, [3])]).

Definition run_spend (fee : Z) : gmap (list Z) Z * result TxErr unit :=
  VerifySpendUTXOs (fun o => Some (concat (Addrs o))) (fun b => b) 10 10 true [3]
    [utxo1; utxo2] [in1; in2] [out1; out2] [alice_cred; alice_cred] {[[8] := fee]}.

Example run_spend_refused : (run_spend 11).2 = Err ErrInsufficientUnlockedFunds.
Proof. vm_compute. reflexivity. Qed.

Lemma wf_run_spend : wf_tx [in1; in2] [out1; out2] {[[8] := 10]}.
Proof.
  split_and!; [repeat constructor; unfold is_uint; cbn; lia..|]. apply map_Forall_singleton. unfold is_uint. lia.
Qed.

Lemma verify_spend_exact_witness : exists fi fo,
  mapM (consume (fun o => Some (concat (Addrs o))) (fun b => b) 10 10 true [3]) [(in1, (utxo1, alice_cred)); (in2, (utxo2, alice_cred))] = Ok fi /\
  mapM (produce (fun o => Some (concat (Addrs o))) (fun b => b)) [out1; out2] = Ok fo /\
  10 + amt fo ([8], None) + shortfall fi fo [8] <= amt fi ([8], None).
Proof.
  destruct (proj1 (verify_spend_exact (fun o => Some (concat (Addrs o))) (fun b => b) 10 10 true [3]
    [utxo1; utxo2] [in1; in2] [out1; out2] [alice_cred; alice_cred] {[[8] := 10]} wf_run_spend)) as (_ & _ & _ & fi & fo & Hfi & Hfo & _ & _ & Hle).
  { eexists. vm_compute. reflexivity. }
  exists fi, fo. split; [exact Hfi|]. split; [exact Hfo|]. exact (Hle [8]).
Defined.

Lemma verify_spend_conserves_witness :
  run_spend 10 = ({[[8] := 70]}, Ok tt) /\ 10 + outs_value any_locktime [8] [out1; out2] <= utxos_value any_locktime [8] [utxo1; utxo2].
Proof.
  assert (run_spend 10 = ({[[8] := 70]}, Ok tt)) as Hrun by (vm_compute; reflexivity). split; [exact Hrun|].
  exact (proj1 (verify_spend_conserves (fun o => Some (concat (Addrs o))) (fun b => b) 10 10 true [3]
    [utxo1; utxo2] [in1; in2] [out1; out2] [alice_cred; alice_cred] {[[8] := 10]} {[[8] := 70]} [8] wf_run_spend Hrun)).
Defined.
End PlatformUtxo.
