(* ===== verification/FlowChecker.v ===== *)
(** * Syntactic verification of transfers

    Models [avalanchego/vms/components/avax/flow_checker.go] and [VerifyTx] of
    [transferables.go], with the [Verify] methods of the values that it checks
    ([asset.go], [vms/platformvm/stakeable]).  Identifiers are byte strings; the
    encoding of an output, used for sorting, is a parameter. *)

From S2P Require Import Prelude SafeMath Sorting MapOrder Secp256k1fx PlatformUtxo.

Module FlowChecker.
Import Sorting Secp256k1fx PlatformUtxo.

Abbreviation ID := (list Z) (only parsing).

Inductive FlowErr :=
  | ErrInsufficientFunds
  | ErrOverflowed (e : SafeMath.MathError)
  | errEmptyAssetID
  | errInvalidLocktime
  | errNestedStakeableLocks
  | ErrFxVerify (e : FxErr)
  | ErrOutputsNotSorted
  | ErrInputsNotSortedUnique.

Record FlowChecker := mkFlow { consumed : gmap ID Z; produced : gmap ID Z; errs : option FlowErr }.

Definition NewFlowChecker : FlowChecker := mkFlow ∅ ∅ None.

(** [wrappers.Errs.Add] keeps the first error. *)
Definition add_err (errs e : option FlowErr) : option FlowErr :=
  match errs with Some _ => errs | None => e end.

(** [value[assetID], err = math.Add(value[assetID], amount)]: the sum and the
    error; an overflow stores 0. *)
Definition add_amount (value : gmap ID Z) (assetID : ID) (amount : Z) : gmap ID Z * option FlowErr :=
  match SafeMath.Add 64 (default 0 (value !! assetID)) amount with
  | Ok sum => (<[assetID := sum]> value, None)
  | Err e => (<[assetID := 0]> value, Some (ErrOverflowed e))
  end.

Definition Consume (assetID : ID) (amount : Z) (fc : FlowChecker) : FlowChecker :=
  let '(v, e) := add_amount (consumed fc) assetID amount in mkFlow v (produced fc) (add_err (errs fc) e).
Definition Produce (assetID : ID) (amount : Z) (fc : FlowChecker) : FlowChecker :=
  let '(v, e) := add_amount (produced fc) assetID amount in mkFlow (consumed fc) v (add_err (errs fc) e).

(** [if producedAssetAmount > consumedAssetAmount { ...; break }] *)
Fixpoint check_produced (consumed : gmap ID Z) (l : list (ID * Z)) : option FlowErr :=
  match l with
  | [] => None
  | (assetID, producedAssetAmount) :: l =>
      if default 0 (consumed !! assetID) <? producedAssetAmount then Some ErrInsufficientFunds
      else check_produced consumed l
  end.

Definition Verify `{!KeyOrder (list Z)} (fc : FlowChecker) : option FlowErr :=
  match errs fc with
  | Some e => Some e
  | None => add_err None (check_produced (consumed fc) (entries (produced fc)))
  end.

(** ** Values *)
Definition Empty : ID := replicate 32 0.
Definition Asset_Verify (a : ID) : result FlowErr unit :=
  if bool_decide (a = Empty) then Err errEmptyAssetID else Ok tt.

Definition lift_verify (r : result FxErr unit) : result FlowErr unit :=
  match r with Ok _ => Ok tt | Err e => Err (ErrFxVerify e) end.

Definition Out_Verify (o : TransferableOut) : result FlowErr unit :=
  match o with
  | SecpOut o => lift_verify (TransferOutput_Verify (Some o))
  | LockOut locktime inner =>
      if locktime =? 0 then Err errInvalidLocktime
      else match inner with
           | LockOut _ _ => Err errNestedStakeableLocks
           | SecpOut o => lift_verify (TransferOutput_Verify (Some o))
           end
  end.

Definition In_Verify (i : TransferableIn) : result FlowErr unit :=
  match i with
  | SecpIn i => lift_verify (TransferInput_Verify (Some i))
  | LockIn locktime inner =>
      if locktime =? 0 then Err errInvalidLocktime
      else match inner with
           | LockIn _ _ => Err errNestedStakeableLocks
           | SecpIn i => lift_verify (TransferInput_Verify (Some i))
           end
  end.

Definition TransferableOutput_Verify (o : TransferableOutput ID) : result FlowErr unit :=
  Asset_Verify (O_AssetID o) ≫= fun _ => Out_Verify (O_Out o).
Definition TransferableInput_Verify (i : TransferableInput ID) : result FlowErr unit :=
  Asset_Verify (I_AssetID i) ≫= fun _ => In_Verify (I_In i).

Definition UTXOID_Compare (u other : UTXOID ID) : Z :=
  let txIDComp := bytes_Compare (TxID u) (TxID other) in
  if negb (txIDComp =? 0) then txIDComp else cmp_Compare (OutputIndex u) (OutputIndex other).

Section verify.
Context `{!KeyOrder (list Z)}.
(** The encoding of an output; [None] is an error. *)
Variable Marshal : TransferableOut -> option (list Z).

(** [innerSortTransferableOutputs.Less] *)
Definition Less (iOut jOut : TransferableOutput ID) : bool :=
  let c := bytes_Compare (O_AssetID iOut) (O_AssetID jOut) in
  if c =? -1 then true
  else if c =? 1 then false
  else match Marshal (O_Out iOut), Marshal (O_Out jOut) with
       | Some iBytes, Some jBytes => bytes_Compare iBytes jBytes =? -1
       | _, _ => false
       end.

(** [sort.IsSorted], which compares each element with its predecessor. *)
Fixpoint IsSorted (outs : list (TransferableOutput ID)) : bool :=
  match outs with
  | x :: (y :: _) as outs' => IsSorted outs' && negb (Less y x)
  | _ => true
  end.

Definition outs_step (fc : FlowChecker) (outs : list (TransferableOutput ID)) : result FlowErr FlowChecker :=
  foldR (fun fc out => TransferableOutput_Verify out ≫= fun _ => Ok (Produce (O_AssetID out) (AmountOut (O_Out out)) fc)) fc outs ≫= fun fc =>
  if negb (IsSorted outs) then Err ErrOutputsNotSorted else Ok fc.

Definition ins_step (fc : FlowChecker) (ins : list (TransferableInput ID)) : result FlowErr FlowChecker :=
  foldR (fun fc i => TransferableInput_Verify i ≫= fun _ => Ok (Consume (I_AssetID i) (AmountIn (I_In i)) fc)) fc ins ≫= fun fc =>
  if negb (IsSortedAndUnique (fun i j => UTXOID_Compare (I_UTXOID i) (I_UTXOID j)) ins) then Err ErrInputsNotSortedUnique else Ok fc.

Definition VerifyTx (feeAmount : Z) (feeAssetID : ID) (allIns : list (list (TransferableInput ID)))
    (allOuts : list (list (TransferableOutput ID))) : result FlowErr unit :=
  let fc := Produce feeAssetID feeAmount NewFlowChecker in
  foldR outs_step fc allOuts ≫= fun fc =>
  foldR ins_step fc allIns ≫= fun fc =>
  match Verify fc with Some e => Err e | None => Ok tt end.

(** ** The contract *)
Implicit Types (fc : FlowChecker) (l po co : list (ID * Z)).

(** The amount of asset [a] in a list of flows. *)
Definition tot l (a : ID) : Z := zsum (fun x => if bool_decide (x.1 = a) then x.2 else 0) l.
Definition out_flow (o : TransferableOutput ID) : ID * Z := (O_AssetID o, AmountOut (O_Out o)).
Definition in_flow (i : TransferableInput ID) : ID * Z := (I_AssetID i, AmountIn (I_In i)).
Definition u64_flows l : Prop := Forall (fun x => is_u64 x.2) l.

Lemma tot_app l1 l2 a : tot (l1 ++ l2) a = tot l1 a + tot l2 a.
Proof. apply zsum_app. Qed.

Lemma tot_nonneg l a : u64_flows l -> 0 <= tot l a.
Proof.
  induction 1 as [|x l [Hx _] _ IH]; [done|]. unfold tot in *. cbn. fold (zsum (fun x => if bool_decide (x.1 = a) then x.2 else 0) l).
  case_bool_decide; lia.
Qed.

(** A map that holds the totals of [l], all of which fit. *)
Definition holds (m : gmap ID Z) l : Prop := forall a, default 0 (m !! a) = tot l a /\ tot l a <= MaxUint64.

Lemma add_amount_spec m l a v : holds m l -> u64_flows l -> is_u64 v ->
  match add_amount m a v with
  | (m', None) => holds m' (l ++ [(a, v)])
  | (_, Some _) => MaxUint64 < tot (l ++ [(a, v)]) a
  end.
Proof.
  intros Hm Hl Hv. unfold add_amount. destruct (Hm a) as [Ha Hle]. pose proof (tot_nonneg l a Hl) as H0.
  assert (forall b, tot [(a, v)] b = if bool_decide (a = b) then v else 0) as Hone by (intros b; unfold tot; cbn; lia).
  rewrite SafeMath.Add_spec by (rewrite ?Ha; unfold is_uint, MaxUint64 in *; lia).
  rewrite Ha. destruct (Z.ltb_spec (tot l a + v) (2 ^ 64)) as [Hlt|Hge].
  - intros b. rewrite tot_app, Hone. destruct (Hm b) as [Hb Hbl]. case_bool_decide as Hab.
    + subst b. rewrite lookup_insert_eq. cbn. unfold MaxUint64. lia.
    + rewrite lookup_insert_ne by done. lia.
  - rewrite tot_app, Hone, bool_decide_true by done. unfold MaxUint64. lia.
Qed.

(** [fc] has seen the flows [po] and [co]. *)
Definition tracks fc po co : Prop := u64_flows po /\ u64_flows co /\
  match errs fc with
  | None => holds (produced fc) po /\ holds (consumed fc) co
  | Some _ => exists a, MaxUint64 < tot po a \/ MaxUint64 < tot co a
  end.

Lemma Produce_tracks fc po co a v : tracks fc po co -> is_u64 v -> tracks (Produce a v fc) (po ++ [(a, v)]) co.
Proof.
  intros (Hp & Hc & Ht) Hv. unfold Produce. pose proof (add_amount_spec (produced fc) po a v) as Ha.
  destruct (add_amount (produced fc) a v) as [m e]. split; [apply Forall_app; split; [done|by constructor]|]. split; [done|].
  destruct (errs fc) as [e0|]; cbn [errs add_err produced consumed].
  - destruct Ht as (b & Hb). exists b. rewrite tot_app. pose proof (tot_nonneg [(a, v)] b ltac:(by constructor)). lia.
  - destruct Ht as [Hhp Hhc]. specialize (Ha Hhp Hp Hv). destruct e as [e|]; [|done]. exists a. by left.
Qed.

Lemma Consume_tracks fc po co a v : tracks fc po co -> is_u64 v -> tracks (Consume a v fc) po (co ++ [(a, v)]).
Proof.
  intros (Hp & Hc & Ht) Hv. unfold Consume. pose proof (add_amount_spec (consumed fc) co a v) as Ha.
  destruct (add_amount (consumed fc) a v) as [m e]. split; [done|]. split; [apply Forall_app; split; [done|by constructor]|].
  destruct (errs fc) as [e0|]; cbn [errs add_err produced consumed].
  - destruct Ht as (b & Hb). exists b. rewrite tot_app. pose proof (tot_nonneg [(a, v)] b ltac:(by constructor)). lia.
  - destruct Ht as [Hhp Hhc]. specialize (Ha Hhc Hc Hv). destruct e as [e|]; [|done]. exists a. by right.
Qed.

Lemma Produce_all_tracks fc po co l : tracks fc po co -> u64_flows l ->
  tracks (foldl (fun fc x => Produce x.1 x.2 fc) fc l) (po ++ l) co.
Proof.
  intros Ht Hl. revert fc po Ht. induction Hl as [|[a v] l Hv _ IH]; intros fc po Ht; [by rewrite app_nil_r|].
  cbn. replace (po ++ (a, v) :: l) with ((po ++ [(a, v)]) ++ l) by (by rewrite <- app_assoc). by apply IH, Produce_tracks.
Qed.

Lemma Consume_all_tracks fc po co l : tracks fc po co -> u64_flows l ->
  tracks (foldl (fun fc x => Consume x.1 x.2 fc) fc l) po (co ++ l).
Proof.
  intros Ht Hl. revert fc co Ht. induction Hl as [|[a v] l Hv _ IH]; intros fc co Ht; [by rewrite app_nil_r|].
  cbn. replace (co ++ (a, v) :: l) with ((co ++ [(a, v)]) ++ l) by (by rewrite <- app_assoc). by apply IH, Consume_tracks.
Qed.

(** [Verify] compares the totals, whatever the order of the map. *)
Lemma Verify_spec fc po co : tracks fc po co ->
  Verify fc = None <-> (forall a, tot po a <= tot co a /\ tot co a <= MaxUint64).
Proof.
  intros (Hp & Hc & Ht). unfold Verify. destruct (errs fc) as [e|].
  - split; [done|]. intros Hall. destruct Ht as (a & Ha). specialize (Hall a). lia.
  - destruct Ht as [Hhp Hhc]. cbn [add_err].
    assert (forall l, check_produced (consumed fc) l = None <-> Forall (fun x => x.2 <= tot co x.1) l) as Hl.
    { induction l as [|[a v] l IH]; [split; [constructor|done]|]. cbn. rewrite Forall_cons, <- IH. destruct (Hhc a) as [-> _].
      destruct (Z.ltb_spec (tot co a) v); cbn; [split; [done|lia]|tauto]. }
    rewrite Hl, Forall_forall. split.
    + intros Hall a. destruct (Hhp a) as [Ha _], (Hhc a) as [_ Hca]. split; [|done].
      destruct (produced fc !! a) as [v|] eqn:Hv; cbn in Ha; [rewrite <- Ha; by apply (Hall (a, v)), elem_of_entries|].
      rewrite <- Ha. by apply tot_nonneg.
    + intros Hall [a v] Hin%elem_of_entries. destruct (Hhp a) as [Ha _]. rewrite Hin in Ha. cbn in *. rewrite Ha. apply Hall.
Qed.

(** *** The loops *)
Lemma verify_loop {A} (V : A -> result FlowErr unit) (f : FlowChecker -> A -> FlowChecker) fc xs fc' :
  foldR (fun fc x => V x ≫= fun _ => Ok (f fc x)) fc xs = Ok fc' <-> Forall (fun x => V x = Ok tt) xs /\ fc' = foldl f fc xs.
Proof.
  revert fc. induction xs as [|x xs IH]; intros fc; [split; [intros [= <-]; by split|by intros [_ ->]]|].
  cbn. rewrite Forall_cons. destruct (V x) as [[]|e]; cbn [mbind result_bind]; [rewrite IH; tauto|]. split; [done|by intros [[? _] _]].
Qed.

Definition outs_ok (outs : list (TransferableOutput ID)) : Prop :=
  Forall (fun o => TransferableOutput_Verify o = Ok tt) outs /\ IsSorted outs = true.
Definition ins_ok (ins : list (TransferableInput ID)) : Prop :=
  Forall (fun i => TransferableInput_Verify i = Ok tt) ins /\
  IsSortedAndUnique (fun i j => UTXOID_Compare (I_UTXOID i) (I_UTXOID j)) ins = true.

Lemma foldl_fmap_ {A B C} (f : A -> B -> A) (g : C -> B) a xs : foldl f a (g <$> xs) = foldl (fun a x => f a (g x)) a xs.
Proof. revert a. induction xs as [|x xs IH]; intros a; [done|]. apply IH. Qed.

Lemma outs_step_ok fc outs fc' : outs_step fc outs = Ok fc' <->
  outs_ok outs /\ fc' = foldl (fun fc x => Produce x.1 x.2 fc) fc (out_flow <$> outs).
Proof.
  unfold outs_step, outs_ok. rewrite foldl_fmap_. split.
  - intros Hs. apply bind_ok in Hs as (fc1 & [Hv ->]%verify_loop & Hs). destruct (IsSorted outs); [|done]. by injection Hs as <-.
  - intros [[Hv Hs] ->]. apply bind_ok. eexists. split; [by apply verify_loop|]. by rewrite Hs.
Qed.

Lemma ins_step_ok fc ins fc' : ins_step fc ins = Ok fc' <->
  ins_ok ins /\ fc' = foldl (fun fc x => Consume x.1 x.2 fc) fc (in_flow <$> ins).
Proof.
  unfold ins_step, ins_ok. rewrite foldl_fmap_. split.
  - intros Hs. apply bind_ok in Hs as (fc1 & [Hv ->]%verify_loop & Hs). destruct (IsSortedAndUnique _ ins); [|done]. by injection Hs as <-.
  - intros [[Hv Hs] ->]. apply bind_ok. eexists. split; [by apply verify_loop|]. by rewrite Hs.
Qed.

Lemma steps_ok {A} (step : FlowChecker -> list A -> result FlowErr FlowChecker) (ok : list A -> Prop)
    (g : FlowChecker -> ID * Z -> FlowChecker) (flow : A -> ID * Z) fc xss fc' :
  (forall fc xs fc', step fc xs = Ok fc' <-> ok xs /\ fc' = foldl g fc (flow <$> xs)) ->
  foldR step fc xss = Ok fc' <-> Forall ok xss /\ fc' = foldl g fc (flow <$> concat xss).
Proof.
  intros Hstep. revert fc. induction xss as [|xs xss IH]; intros fc; [split; [intros [= <-]; by split|by intros [_ ->]]|].
  cbn [foldR concat]. rewrite fmap_app, foldl_app, Forall_cons. split.
  - intros Hs. apply bind_ok in Hs as (fc1 & [Hok ->]%Hstep & Hs). apply IH in Hs as [? ->]. done.
  - intros [[Hok Hoks] ->]. apply bind_ok. eexists. split; [by apply Hstep|]. by apply IH.
Qed.

Lemma UTXOID_Compare_lt u v : UTXOID_Compare u v < 0 <->
  bytes_Compare (TxID u) (TxID v) < 0 \/ TxID u = TxID v /\ OutputIndex u < OutputIndex v.
Proof.
  unfold UTXOID_Compare. destruct (Z.eqb_spec (bytes_Compare (TxID u) (TxID v)) 0) as [He|He]; cbn [negb].
  - rewrite cmp_Compare_lt, He. apply bytes_Compare_eq in He. split; [by right|]. intros [?|[_ ?]]; [lia|done].
  - split; [by left|]. intros [|[Heq _]]; [done|]. by apply bytes_Compare_eq in Heq.
Qed.

Lemma ins_ok_nodup ins : ins_ok ins -> NoDup (I_UTXOID <$> ins).
Proof.
  intros [_ Hs]. apply (IsSortedAndUnique_nodup UTXOID_Compare).
  - intros u v w. rewrite !UTXOID_Compare_lt. intros [Hu|[Hu Hu']] [Hv|[Hv Hv']].
    + left. by eapply bytes_Compare_trans.
    + left. by rewrite <- Hv.
    + left. by rewrite Hu.
    + right. split; [congruence|lia].
  - intros u. rewrite UTXOID_Compare_lt. assert (bytes_Compare (TxID u) (TxID u) = 0) by (by apply bytes_Compare_eq). lia.
  - revert Hs. induction ins as [|i [|i' ins] IH]; [done|done|]. intros Hs. cbn in Hs. cbn.
    destruct (0 <=? _); [done|]. by apply IH.
Qed.

(** C15: a transaction passes the syntactic check exactly if its outputs and inputs
    are well-formed and sorted, and for each asset the inputs are worth at least
    the outputs and the fee, with sums that fit 64 bits; the order in which the
    maps are visited does not matter, and no slice of inputs spends a UTXO twice. *)
Theorem verify_tx_exact feeAmount feeAssetID allIns allOuts : is_u64 feeAmount ->
  u64_flows (out_flow <$> concat allOuts) -> u64_flows (in_flow <$> concat allIns) ->
  (VerifyTx feeAmount feeAssetID allIns allOuts = Ok tt <->
   Forall outs_ok allOuts /\ Forall ins_ok allIns /\
   forall a, (if bool_decide (feeAssetID = a) then feeAmount else 0) + tot (out_flow <$> concat allOuts) a <=
       tot (in_flow <$> concat allIns) a <= MaxUint64) /\
  (VerifyTx feeAmount feeAssetID allIns allOuts = Ok tt -> Forall (fun ins => NoDup (I_UTXOID <$> ins)) allIns).
Proof.
  intros Hfee Hout Hin.
  assert (VerifyTx feeAmount feeAssetID allIns allOuts = Ok tt <-> Forall outs_ok allOuts /\ Forall ins_ok allIns /\
    forall a, (if bool_decide (feeAssetID = a) then feeAmount else 0) + tot (out_flow <$> concat allOuts) a <=
       tot (in_flow <$> concat allIns) a <= MaxUint64) as Hiff.
  2:{ split; [exact Hiff|]. intros (_ & Hok & _)%Hiff. eapply Forall_impl; [exact Hok|apply ins_ok_nodup]. }
  set (fc0 := Produce feeAssetID feeAmount NewFlowChecker).
  assert (tracks fc0 [(feeAssetID, feeAmount)] []) as Ht0.
  { apply (Produce_tracks NewFlowChecker [] []); [|done]. split; [constructor|]. split; [constructor|].
    split; intros a; cbn; rewrite lookup_empty; by split. }
  pose proof (Consume_all_tracks _ _ _ _ (Produce_all_tracks _ _ _ _ Ht0 Hout) Hin) as Ht.
  assert (forall a, tot ([(feeAssetID, feeAmount)] ++ (out_flow <$> concat allOuts)) a =
    (if bool_decide (feeAssetID = a) then feeAmount else 0) + tot (out_flow <$> concat allOuts) a) as Hfa.
  { intros a. rewrite tot_app. f_equal. unfold tot. cbn. lia. }
  apply Verify_spec in Ht. cbn [app] in Ht. unfold VerifyTx. fold fc0. split.
  - intros Hv. apply bind_ok in Hv as (fc1 & H1' & Hv). apply (steps_ok _ _ _ _ _ _ _ outs_step_ok) in H1' as [Hoo ->].
    apply bind_ok in Hv as (fc2 & H2' & Hv). apply (steps_ok _ _ _ _ _ _ _ ins_step_ok) in H2' as [Hio ->].
    split; [done|]. split; [done|]. intros a. rewrite <- Hfa. apply Ht. by destruct (Verify _).
  - intros (Hoo & Hio & Hle). apply bind_ok. eexists. split; [by apply (steps_ok _ _ _ _ _ _ _ outs_step_ok)|].
    apply bind_ok. eexists. split; [by apply (steps_ok _ _ _ _ _ _ _ ins_step_ok)|].
    destruct Ht as [_ Ht]. rewrite Ht; [done|]. intros a. change ((feeAssetID, feeAmount) :: ?l) with ([(feeAssetID, feeAmount)] ++ l).
    rewrite Hfa. apply Hle.
Qed.
End verify.

(** ** A concrete transaction *)
#[local] Instance bytes_order : KeyOrder (list Z) := elements_order.
Definition asset8 : ID := 8 :: replicate 31 0.
Definition owner1 : OutputOwners := mkOwners 0 1 [[1; 0]].
Definition tx_ins : list (TransferableInput ID) :=
  [mkIn (mkUTXOID [5] 0) asset8 (SecpIn (mkTransferInput 100 (mkInput [0])));
   mkIn (mkUTXOID [5] 1) asset8 (LockIn 50 (SecpIn (mkTransferInput 40 (mkInput [0]))))].
Definition tx_outs : list (TransferableOutput ID) := [mkOut asset8 (SecpOut (mkOutput 130 owner1))].
Definition encode (o : TransferableOut) : option (list Z) := Some [AmountOut o].

Example VerifyTx_refused : VerifyTx encode 11 asset8 [tx_ins] [tx_outs] = Err ErrInsufficientFunds.
Proof. vm_compute. reflexivity. Qed.

Example VerifyTx_double_spend : VerifyTx encode 10 asset8 [tx_ins ++ tx_ins] [tx_outs] = Err ErrInputsNotSortedUnique.
Proof. vm_compute. reflexivity. Qed.

Lemma verify_tx_exact_witness : VerifyTx encode 10 asset8 [tx_ins] [tx_outs] = Ok tt /\
  10 + tot (out_flow <$> tx_outs) asset8 <= tot (in_flow <$> tx_ins) asset8 /\ NoDup (I_UTXOID <$> tx_ins).
Proof.
  assert (VerifyTx encode 10 asset8 [tx_ins] [tx_outs] = Ok tt) as Hv by (vm_compute; reflexivity).
  destruct (verify_tx_exact encode 10 asset8 [tx_ins] [tx_outs] ltac:(unfold is_uint; lia)
    ltac:(repeat constructor; unfold is_uint; cbn; lia) ltac:(repeat constructor; unfold is_uint; cbn; lia)) as [Hiff Hnd].
  split; [exact Hv|]. split.
  - destruct (proj1 Hiff Hv) as (_ & _ & Hle). exact (proj1 (Hle asset8)).
  - exact (Forall_inv (Hnd Hv)).
Defined.
End FlowChecker.
