(* ===== verification/Sampler.v ===== *)
(** * Sampling without replacement

    Models [avalanchego/utils/sampler]: uniform sampling without replacement
    ([uniform_replacer.go], [rand.go]), the heap that maps numbers to weighted
    indices ([weighted_heap.go]) and their combination, which samples validators
    ([weighted_without_replacement_generic.go]).

    The source of random numbers is the class [Source].  The rejection loops of
    [Uint64Inclusive] end when the source draws an acceptable number; they run on
    [draws] tries, which suffice for a source that draws a number below 2^62 in
    any [draws] draws ([fair]). *)

From stdpp Require Import sorting.
From S2P Require Import Prelude Monads SafeMath Sorting.

Module Sampler.
Import Sorting.

Inductive SampErr :=
  | ErrMath (e : SafeMath.MathError)
  | OutOfDraws
  | OutOfFuel
  | Panic.

Definition MaxInt64 : Z := 9223372036854775807.

(** ** Random numbers *)
Class Source (Src : Type) := Uint64 : Src -> Z * Src.

Section rng.
Context {Src : Type} `{Source Src}.
Variable draws : nat.

Definition uint64 : M Src SampErr Z := fun r => let '(v, r) := Uint64 r in (r, Ok v).
Definition uint63 : M Src SampErr Z := v ← uint64; mret (Z.land v MaxInt64).

(** [v := draw(); for v > bound { v = draw() }] *)
Definition draw_until (draw : M Src SampErr Z) (bound : Z) : M Src SampErr Z :=
  v ← draw;
  loop OutOfDraws draws (fun v => if bound <? v then (v ← draw; mret (inl v)) else mret (inr v)) v.

Definition Uint64Inclusive (n : Z) : M Src SampErr Z :=
  if Z.land n (wrap 64 (n + 1)) =? 0 then
    v ← uint64; mret (Z.land v n)
  else if MaxInt64 <? n then draw_until uint64 n
  else
    let maximum := 2 ^ 63 - 1 - (2 ^ 63) mod (n + 1) in
    v ← draw_until uint63 maximum;
    mret (v mod (n + 1)).
End rng.

(** ** Uniform sampling *)
Record uniformReplacer {Src : Type} := mkUniform {
  rng : Src;
  u_length : Z;
  drawn : gmap Z Z;
  drawsCount : Z;
}.
Arguments uniformReplacer : clear implicits.

(** [defaultMap.get] *)
Definition map_get (m : gmap Z Z) (key defaultVal : Z) : Z := default defaultVal (m !! key).

Section uniform.
Context {Src : Type} `{Source Src}.
Variable draws : nat.

Definition u_Initialize (len : Z) (s : uniformReplacer Src) : uniformReplacer Src := mkUniform Src (rng s) len ∅ 0.
Definition u_Reset (s : uniformReplacer Src) : uniformReplacer Src := mkUniform Src (rng s) (u_length s) ∅ 0.

Definition set_rng (r : Src) (s : uniformReplacer Src) : uniformReplacer Src :=
  mkUniform Src r (u_length s) (drawn s) (drawsCount s).

(** [Next]; [None] is the [false] result. *)
Definition Next : M (uniformReplacer Src) SampErr (option Z) :=
  s ← get;
  if u_length s <=? drawsCount s then mret None
  else
    v ← zoom rng set_rng (Uint64Inclusive draws (u_length s - 1 - drawsCount s));
    let draw := wrap 64 (v + drawsCount s) in
    let ret := map_get (drawn s) draw draw in
    modify (fun s => mkUniform Src (rng s) (u_length s)
      (<[draw := map_get (drawn s) (drawsCount s) (drawsCount s)]> (drawn s)) (wrap 64 (drawsCount s + 1)));;
    mret (Some ret).

(** [for i := 0; i < count; i++]: the results, or [None] when there are no more. *)
Fixpoint next_loop (count : nat) (results : list Z) : M (uniformReplacer Src) SampErr (option (list Z)) :=
  match count with
  | O => mret (Some results)
  | S count =>
      r ← Next;
      match r with
      | None => mret None
      | Some ret => next_loop count (results ++ [ret])
      end
  end.

Definition u_Sample (count : nat) : M (uniformReplacer Src) SampErr (option (list Z)) :=
  modify u_Reset;; next_loop count [].
End uniform.

(** ** The heap of weights *)
Record weightedHeapElement := mkElement { weight : Z; cumulativeWeight : Z; index : nat }.

Definition Compare (e other : weightedHeapElement) : Z :=
  let weightCmp := cmp_Compare (weight other) (weight e) in
  if negb (weightCmp =? 0) then weightCmp else cmp_Compare (Z.of_nat (index e)) (Z.of_nat (index other)).

Definition set_cumulative (w : Z) (e : weightedHeapElement) : weightedHeapElement := mkElement (weight e) w (index e).

(** [utils.Sort] *)
Definition element_le (e other : weightedHeapElement) : Prop := Compare e other <= 0.
#[export] Instance element_le_dec e other : Decision (element_le e other) := decide (Compare e other <= 0).
Definition sort_elements (l : list weightedHeapElement) : list weightedHeapElement := merge_sort element_le l.

(** The body of [for i := len(s.heap) - 1; i > 0; i--]. *)
Definition heapify_step (i : nat) : M (list weightedHeapElement) SampErr unit :=
  heap ← get;
  let parentIndex := ((i - 1) / 2)%nat in
  parent ← must Panic (heap !! parentIndex);
  e ← must Panic (heap !! i);
  match SafeMath.Add 64 (cumulativeWeight parent) (cumulativeWeight e) with
  | Ok newWeight => modify <[parentIndex := set_cumulative newWeight parent]>
  | Err e => fail (ErrMath e)
  end.

Fixpoint heapify (i : nat) : M (list weightedHeapElement) SampErr unit :=
  match i with
  | O => mret tt
  | S i' => heapify_step i;; heapify i'
  end.

Definition w_Initialize (weights : list Z) : M (list weightedHeapElement) SampErr unit :=
  modify (fun _ => sort_elements (imap (fun i w => mkElement w w i) weights));;
  heap ← get;
  heapify (length heap - 1).

(** The body of the loop of [Sample]: the next index and value, or the result. *)
Definition descend (heap : list weightedHeapElement) (x : nat * Z) : result SampErr ((nat * Z) + nat) :=
  let '(i, value) := x in
  match heap !! i with
  | None => Err Panic
  | Some currentElement =>
      if value <? weight currentElement then Ok (inr (index currentElement))
      else
        let value := value - weight currentElement in
        let i := (i * 2 + 1)%nat in
        match heap !! i with
        | None => Err Panic
        | Some leftChild =>
            if cumulativeWeight leftChild <=? value then Ok (inl (S i, value - cumulativeWeight leftChild))
            else Ok (inl (i, value))
        end
  end.

Fixpoint descend_loop (fuel : nat) (heap : list weightedHeapElement) (x : nat * Z) : result SampErr nat :=
  match fuel with
  | O => Err OutOfFuel
  | S fuel =>
      r ← descend heap x;
      match r with
      | inl x => descend_loop fuel heap x
      | inr i => Ok i
      end
  end.

(** [Sample]; [None] is the [false] result. *)
Definition w_Sample (heap : list weightedHeapElement) (value : Z) : result SampErr (option nat) :=
  match heap with
  | [] => Ok None
  | e :: _ =>
      if cumulativeWeight e <=? value then Ok None
      else descend_loop (length heap) heap (0%nat, value) ≫= fun i => Ok (Some i)
  end.

(** ** Weighted sampling without replacement *)
Record sampler {Src : Type} := mkSampler {
  u : uniformReplacer Src;
  w : list weightedHeapElement;
  totalWeight : Z;
}.
Arguments sampler : clear implicits.

Section weighted.
Context {Src : Type} `{Source Src}.
Variable draws : nat.

(** The adjusted weights and their total. *)
Definition adjust (weights : list Z) : list Z * Z :=
  let totalUnadjustedWeight := foldl Z.add 0 weights in
  if totalUnadjustedWeight <=? MaxUint64 then (weights, totalUnadjustedWeight)
  else
    let weightFactor := wrap 64 (wrap 64 (totalUnadjustedWeight / MaxUint64) + 1) in
    let adjustedWeights := (fun w => w / weightFactor) <$> weights in
    (adjustedWeights, foldl (fun t w => wrap 64 (t + w)) 0 adjustedWeights).

Definition set_u (v : uniformReplacer Src) (s : sampler Src) : sampler Src := mkSampler Src v (w s) (totalWeight s).

Definition set_w (v : list weightedHeapElement) (s : sampler Src) : sampler Src := mkSampler Src (u s) v (totalWeight s).

Definition InitializeWithAdjustedWeights (weights : list Z) : M (sampler Src) SampErr unit :=
  let '(adjustedWeights, totalAdjustedWeight) := adjust weights in
  modify (fun s => mkSampler Src (u_Initialize totalAdjustedWeight (u s)) (w s) totalAdjustedWeight);;
  zoom w set_w (w_Initialize adjustedWeights).

(** One turn of the loop of [Sample]. *)
Definition sample_index : M (sampler Src) SampErr (option nat) :=
  v ← zoom u set_u (Next draws);
  match v with
  | None => mret None
  | Some weight => s ← get; lift (w_Sample (w s) weight)
  end.

Fixpoint sample_loop (count : nat) (indices : list nat) : M (sampler Src) SampErr (option (list nat)) :=
  match count with
  | O => mret (Some indices)
  | S count =>
      r ← sample_index;
      match r with
      | None => mret None
      | Some i => sample_loop count (indices ++ [i])
      end
  end.

Definition Sample (count : nat) : M (sampler Src) SampErr (option (list nat)) :=
  modify (fun s => set_u (u_Reset (u s)) s);; sample_loop count [].
End weighted.
End Sampler.
