(* ===== verification/SamplerFacts.v ===== *)
(** * Sampling is without replacement and by weight

    Properties of [Sampler.v]: numbers drawn uniformly are distinct, the heap maps
    exactly as many numbers to an index as its weight, hence no index is sampled
    more often than its weight, and the loops end. *)
From stdpp Require Import sorting.
From S2P Require Import Prelude SafeMath Monads Sorting MapOrder Validators Sampler.

Module SamplerFacts.
Import Sorting Sampler.

(** ** Random numbers *)
Section rng.
Context {Src : Type} `{Source Src}.
Variable draws : nat.

(** The source after [i] draws. *)
Definition after (i : nat) (r : Src) : Src := Nat.iter i (fun r => (Uint64 r).2) r.

(** 64-bit numbers, among any [draws] of which one is below 2^62. *)
Definition fair : Prop := forall r, is_u64 (Uint64 r).1 /\
  exists i, (i < draws)%nat /\ (Uint64 (after i r)).1 < 2 ^ 62.

Lemma draw_until_ok (draw : M Src SampErr Z) (g : Z -> Z) bound r : fair ->
  (forall r, draw r = ((Uint64 r).2, Ok (g (Uint64 r).1))) -> (forall v, 0 <= v < 2 ^ 62 -> g v <= bound) ->
  exists r' r0, draw_until draws draw bound r = (r', Ok (g (Uint64 r0).1)) /\ g (Uint64 r0).1 <= bound.
Proof.
  intros Hf Hd Hg. destruct (Hf r) as (_ & i & Hi & Hv). unfold draw_until. revert r i Hi Hv. generalize draws.
  induction draws0 as [|fuel IH]; intros r i Hi Hv; [lia|].
  unfold mbind, M_bind. rewrite Hd. cbn [loop]. unfold mbind, M_bind.
  destruct (Z.ltb_spec bound (g (Uint64 r).1)) as [Hlt|Hle].
  - destruct i as [|i]; [cbn in Hv; destruct (Hf r) as [[? ?] _]; specialize (Hg (Uint64 r).1); lia|].
    destruct (IH (Uint64 r).2 i) as (r' & r0 & Hr & Hb); [lia|unfold after in *; rewrite Nat.iter_succ_r in Hv; exact Hv|].
    exists r', r0. split; [|done]. unfold mbind, M_bind in Hr. rewrite Hd in *. cbn [mret M_ret]. exact Hr.
  - cbn. exists (Uint64 r).2, r. done.
Qed.

Lemma land_bounds a n : 0 <= n -> 0 <= Z.land a n <= n.
Proof.
  intros Hn. split; [apply Z.land_nonneg; by right|].
  assert (Z.land a n + Z.ldiff n a = n) as Heq; [|pose proof (proj2 (Z.ldiff_nonneg n a) (or_introl Hn)); lia].
  rewrite Z.add_nocarry_lxor.
  - apply Z.bits_inj'. intros k Hk. rewrite Z.lxor_spec, Z.land_spec, Z.ldiff_spec. by destruct (Z.testbit a k), (Z.testbit n k).
  - apply Z.bits_inj'. intros k Hk. rewrite !Z.land_spec, Z.ldiff_spec, Z.bits_0. by destruct (Z.testbit a k), (Z.testbit n k).
Qed.

Lemma maximum_large n : 0 <= n <= MaxInt64 -> 2 ^ 62 <= 2 ^ 63 - 1 - (2 ^ 63) mod (n + 1).
Proof.
  unfold MaxInt64. intros Hn. destruct (Z.le_gt_cases (n + 1) (2 ^ 62)) as [Hs|Hl].
  - pose proof (Z.mod_pos_bound (2 ^ 63) (n + 1)). lia.
  - rewrite Z.mod_eq by lia. assert (2 ^ 63 / (n + 1) = 1) as -> by (symmetry; apply Z.div_unique with (2 ^ 63 - (n + 1)); lia). lia.
Qed.

Lemma Uint64Inclusive_ok n r : fair -> is_u64 n -> exists r' v, Uint64Inclusive draws n r = (r', Ok v) /\ 0 <= v <= n.
Proof.
  intros Hf [Hn0 Hn]. unfold Uint64Inclusive. destruct (Z.land n (wrap 64 (n + 1)) =? 0).
  { unfold mbind, M_bind, uint64. destruct (Uint64 r) as [v r'] eqn:E. cbn. exists r', (Z.land v n). split; [done|by apply land_bounds]. }
  destruct (Z.ltb_spec MaxInt64 n) as [Hb|Hs].
  - destruct (draw_until_ok uint64 (fun v => v) n r Hf) as (r' & r0 & Hd & Hle).
    + intros r1. unfold uint64. by destruct (Uint64 r1).
    + unfold MaxInt64 in Hb. lia.
    + exists r', (Uint64 r0).1. split; [done|]. destruct (Hf r0) as [[? _] _]. lia.
  - pose proof (maximum_large n (conj Hn0 Hs)) as Hmax. set (maximum := 2 ^ 63 - 1 - (2 ^ 63) mod (n + 1)) in *.
    destruct (draw_until_ok uint63 (fun v => Z.land v MaxInt64) maximum r Hf) as (r' & r0 & Hd & Hle).
    + intros r1. unfold uint63, uint64, mbind, M_bind. by destruct (Uint64 r1).
    + intros v Hv. assert (Z.land v MaxInt64 = v) as ->; [|lia].
      change MaxInt64 with (Z.ones 63). rewrite Z.land_ones by lia. apply Z.mod_small. lia.
    + unfold mbind, M_bind. rewrite Hd. cbn. eexists _, _. split; [done|].
      pose proof (Z.mod_pos_bound (Z.land (Uint64 r0).1 MaxInt64) (n + 1)). lia.
Qed.

(** ** Uniform sampling *)

(** The number that the draw [j] stands for. *)
Definition val (s : uniformReplacer Src) (j : Z) : Z := map_get (drawn s) j j.

(** After the results [res], the draws from [drawsCount] on stand for distinct
    numbers that are not among the results. *)
Record uinv (s : uniformReplacer Src) (res : list Z) : Prop := {
  ui_count : drawsCount s = Z.of_nat (length res);
  ui_len : 0 <= drawsCount s <= u_length s /\ u_length s <= MaxUint64;
  ui_range j : drawsCount s <= j < u_length s -> 0 <= val s j < u_length s /\ val s j ∉ res;
  ui_inj j k : drawsCount s <= j < u_length s -> drawsCount s <= k < u_length s -> val s j = val s k -> j = k;
  ui_nodup : NoDup res;
  ui_res x : x ∈ res -> 0 <= x < u_length s;
}.

Lemma map_get_insert m k v j d : map_get (<[k := v]> m) j d = if bool_decide (j = k) then v else map_get m j d.
Proof.
  unfold map_get. case_bool_decide as Hjk; [by rewrite Hjk, lookup_insert_eq|by rewrite lookup_insert_ne].
Qed.

Lemma Next_spec s res : fair -> uinv s res ->
  if drawsCount s <? u_length s then
    exists s' v, Next draws s = (s', Ok (Some v)) /\ uinv s' (res ++ [v]) /\ u_length s' = u_length s
  else Next draws s = (s, Ok None).
Proof.
  intros Hf [Hc Hl Hr Hi Hnd Hres]. unfold Next, mbind, M_bind, get; cbv beta iota.
  destruct (Z.ltb_spec (drawsCount s) (u_length s)) as [Hlt|Hge].
  2:{ replace (u_length s <=? drawsCount s) with true by lia. done. }
  replace (u_length s <=? drawsCount s) with false by lia. set (n := u_length s - 1 - drawsCount s).
  destruct (Uint64Inclusive_ok n (rng s) Hf) as (r' & v & Hd & Hv); [unfold is_uint, MaxUint64 in *; lia|].
  unfold zoom. rewrite Hd. cbn. set (d := wrap 64 (v + drawsCount s)).
  assert (d = v + drawsCount s) as Ed by (apply wrap_small; unfold is_uint, MaxUint64 in *; lia).
  assert (wrap 64 (drawsCount s + 1) = drawsCount s + 1) as -> by (apply wrap_small; unfold is_uint, MaxUint64 in *; lia).
  eexists _, _. split; [done|]. split; [|done].
  change (map_get (drawn s) d d) with (val s d). change (map_get (drawn s) (drawsCount s) (drawsCount s)) with (val s (drawsCount s)).
  assert (drawsCount s <= d < u_length s) as Hd1 by lia. destruct (Hr d Hd1) as [Hvd1 Hvd2].
  set (s' := mkUniform _ _ _ _ _).
  assert (forall j, val s' j = if bool_decide (j = d) then val s (drawsCount s) else val s j) as Hval by (intros j; apply map_get_insert).
  split; cbn [s' drawsCount u_length].
  - rewrite length_app. cbn. lia.
  - lia.
  - intros j Hj. rewrite Hval. case_bool_decide as Hjd.
    + destruct (Hr (drawsCount s) ltac:(lia)) as [H1' H2']. split; [done|]. rewrite elem_of_app, list_elem_of_singleton. intros [|Heq]; [done|].
      apply Hi in Heq; lia.
    + destruct (Hr j ltac:(lia)) as [H1' H2']. split; [done|]. rewrite elem_of_app, list_elem_of_singleton. intros [|Heq]; [done|].
      apply Hi in Heq; lia.
  - intros j k Hj Hk. rewrite !Hval. repeat case_bool_decide; intros Heq; try lia; apply Hi in Heq; lia.
  - apply NoDup_app. split; [done|]. split; [|by apply NoDup_singleton]. intros x Hx ->%list_elem_of_singleton. done.
  - intros x [Hx| ->%list_elem_of_singleton]%elem_of_app; [by apply Hres|done].
Qed.

Lemma u_Initialize_inv len s : 0 <= len <= MaxUint64 -> uinv (u_Initialize len s) [].
Proof.
  intros Hl. split; cbn; [done|lia| | | |].
  - intros j Hj. unfold val, map_get. cbn. rewrite lookup_empty. cbn. split; [lia|apply not_elem_of_nil].
  - intros j k _ _. unfold val, map_get. cbn. rewrite !lookup_empty. done.
  - constructor.
  - intros x Hx. by apply not_elem_of_nil in Hx.
Qed.

Lemma u_Reset_inv s res : uinv s res -> uinv (u_Reset s) [].
Proof. intros [_ Hl _ _ _ _]. apply (u_Initialize_inv (u_length s) s). lia. Qed.
End rng.

(** ** Sums over a heap-shaped tree

    The tree with the nodes [0 .. n-1], in which the children of [i] are [2i+1]
    and [2i+2]. *)
Section tree.
Variables (n : nat) (f : nat -> Z).

Fixpoint subtree_sum (fuel i : nat) : Z :=
  match fuel with
  | O => 0
  | S fuel => if decide (n <= i)%nat then 0 else f i + subtree_sum fuel (i * 2 + 1) + subtree_sum fuel (i * 2 + 2)
  end.

(** The sum over the subtree below [i]. *)
Definition S_ (i : nat) : Z := subtree_sum n i.

Lemma subtree_fuel fuel fuel' i : (n - i <= fuel)%nat -> (n - i <= fuel')%nat -> subtree_sum fuel i = subtree_sum fuel' i.
Proof.
  revert fuel' i. induction fuel as [|fuel IH]; intros [|fuel'] i Hf Hf'; cbn [subtree_sum]; [done| | |].
  1, 2: by rewrite decide_True by lia.
  destruct (decide (n <= i)%nat); [done|].
  by rewrite (IH fuel' (i * 2 + 1)%nat), (IH fuel' (i * 2 + 2)%nat) by lia.
Qed.

Lemma S_eq i : S_ i = if decide (n <= i)%nat then 0 else f i + S_ (i * 2 + 1) + S_ (i * 2 + 2).
Proof.
  unfold S_. rewrite (subtree_fuel n (S n) i) by lia. done.
Qed.

Lemma S_out i : (n <= i)%nat -> S_ i = 0.
Proof. intros. rewrite S_eq. by rewrite decide_True. Qed.

(** What node [j] has accumulated when the children above [i] are done. *)
Definition acc (i j : nat) : Z :=
  f j + (if decide (i < j * 2 + 1)%nat then S_ (j * 2 + 1) else 0) + (if decide (i < j * 2 + 2)%nat then S_ (j * 2 + 2) else 0).

Fixpoint sum_upto (g : nat -> Z) (m : nat) : Z :=
  match m with O => 0 | S m => sum_upto g m + g m end.

Lemma sum_upto_ext g h m : (forall j, (j < m)%nat -> g j = h j) -> sum_upto g m = sum_upto h m.
Proof. induction m as [|m IH]; intros Hg; [done|]. cbn. rewrite IH, Hg by (intros; auto with lia). done. Qed.

Lemma sum_upto_indicator p v g m : (p < m)%nat -> sum_upto (fun j => g j + if decide (j = p) then v else 0) m = sum_upto g m + v.
Proof.
  induction m as [|m IH]; intros Hp; [lia|]. cbn. destruct (decide (m = p)) as [->|Hne].
  - rewrite (sum_upto_ext _ g); [lia|]. intros j Hj. rewrite decide_False by lia. lia.
  - rewrite IH by lia. lia.
Qed.

(** One step of the loop adds the sum of [i] to its parent. *)
Lemma acc_step i j : (0 < i)%nat -> acc (i - 1) j = acc i j + if decide (j = (i - 1) / 2)%nat then S_ i else 0.
Proof.
  intros Hi. unfold acc.
  assert (j = (i - 1) / 2 <-> j * 2 + 1 = i \/ j * 2 + 2 = i)%nat as Hp.
  { pose proof (Nat.div_mod (i - 1) 2 ltac:(lia)). pose proof (Nat.mod_upper_bound (i - 1) 2 ltac:(lia)). lia. }
  destruct (decide (j = (i - 1) / 2)%nat) as [Hj|Hj]; rewrite Hp in Hj.
  - destruct Hj as [Hj|Hj]; rewrite Hj.
    + rewrite (decide_True (P := (i - 1 < i)%nat)), (decide_False (P := (i < i)%nat)) by lia.
      rewrite !decide_True by lia. lia.
    + rewrite (decide_True (P := (i - 1 < i)%nat)), (decide_False (P := (i < i)%nat)) by lia.
      rewrite !decide_False by lia. lia.
  - repeat case_decide; lia.
Qed.

Lemma acc_self i : (i < n)%nat -> acc i i = S_ i.
Proof. intros Hi. unfold acc. rewrite (S_eq i), (decide_False (P := (n <= i)%nat)), !decide_True by lia. done. Qed.

(** The tree below the root is the whole tree. *)
Lemma tree_total : (0 < n)%nat -> S_ 0 = sum_upto f n.
Proof.
  intros Hn. rewrite <- acc_self by lia.
  enough (forall i, (i < n)%nat -> sum_upto (acc i) (S i) = sum_upto f n) as Hs.
  { specialize (Hs 0%nat Hn). cbn in Hs. lia. }
  assert (forall k i, (k = n - 1 - i)%nat -> (i < n)%nat -> sum_upto (acc i) (S i) = sum_upto f n) as Hk; [|eauto].
  induction k as [|k IH]; intros i Hk Hi.
  - assert (S i = n) as -> by lia. apply sum_upto_ext. intros j Hj. unfold acc.
    repeat case_decide; rewrite ?S_out by lia; lia.
  - rewrite <- (IH (S i) ltac:(lia) ltac:(lia)). change (sum_upto (acc (S i)) (S (S i))) with (sum_upto (acc (S i)) (S i) + acc (S i) (S i)).
    rewrite acc_self by lia. rewrite <- (sum_upto_indicator (i / 2)%nat).
    + apply sum_upto_ext. intros j _. pose proof (acc_step (S i) j ltac:(lia)) as Ha.
      replace (S i - 1)%nat with i in Ha by lia. exact Ha.
    + apply Nat.Div0.div_lt_upper_bound. lia.
Qed.

Hypothesis f_nonneg : forall j, 0 <= f j.

Lemma S_nonneg i : 0 <= S_ i.
Proof.
  unfold S_. generalize n at 1. intros fuel. revert i. induction fuel as [|fuel IH]; intros i; [done|]. cbn.
  case_decide; [done|]. pose proof (f_nonneg i). pose proof (IH (i * 2 + 1)%nat). pose proof (IH (i * 2 + 2)%nat). lia.
Qed.

Lemma acc_bounds i j : (j < n)%nat -> 0 <= acc i j <= S_ j.
Proof.
  intros Hj. rewrite (S_eq j), decide_False by lia. unfold acc. pose proof (f_nonneg j).
  pose proof (S_nonneg (j * 2 + 1)). pose proof (S_nonneg (j * 2 + 2)). repeat case_decide; lia.
Qed.

Lemma S_le_total i : (i < n)%nat -> S_ i <= S_ 0.
Proof.
  induction i as [i IH] using (well_founded_induction lt_wf). intros Hi. destruct (decide (i = 0%nat)) as [->|H0]; [done|].
  assert (exists p, (p < i)%nat /\ (i = p * 2 + 1 \/ i = p * 2 + 2)%nat) as (p & Hp & Hip).
  { exists ((i - 1) / 2)%nat. pose proof (Nat.div_mod (i - 1) 2 ltac:(lia)). pose proof (Nat.mod_upper_bound (i - 1) 2 ltac:(lia)). lia. }
  transitivity (S_ p); [|apply IH; lia]. rewrite (S_eq p), decide_False by lia.
  pose proof (f_nonneg p). pose proof (S_nonneg (p * 2 + 1)). pose proof (S_nonneg (p * 2 + 2)).
  destruct Hip as [->| ->]; lia.
Qed.
End tree.

Lemma S_ext n f g i : (forall j, (j < n)%nat -> f j = g j) -> S_ n f i = S_ n g i.
Proof.
  intros Hfg. unfold S_. generalize n at 2 4. intros fuel. revert i. induction fuel as [|fuel IH]; intros i; [done|]. cbn.
  case_decide; [done|]. by rewrite Hfg, !IH by lia.
Qed.

(** A sum over the nodes is a sum over the list of elements. *)
Lemma sum_upto_list {A} (F : A -> Z) (l : list A) :
  sum_upto (fun j => match l !! j with Some x => F x | None => 0 end) (length l) = zsum F l.
Proof.
  induction l as [|x l IH] using rev_ind; [done|]. rewrite length_app, Nat.add_1_r, zsum_app. cbn [sum_upto].
  rewrite lookup_app_r, Nat.sub_diag by lia. cbn. rewrite <- IH, Z.add_0_r. f_equal. apply sum_upto_ext. intros j Hj.
  by rewrite lookup_app_l.
Qed.

(** ** The heap *)
Implicit Types (h : list weightedHeapElement).

Definition wt h (j : nat) : Z := match h !! j with Some e => weight e | None => 0 end.

(** [h] is [h0] with what the nodes have accumulated when those above [i] are done. *)
Definition staged h0 (i : nat) h : Prop := length h = length h0 /\
  forall j e, h0 !! j = Some e -> h !! j = Some (mkElement (weight e) (acc (length h0) (wt h0) i j) (index e)).

Lemma heapify_step_ok h0 i h : (0 < i < length h0)%nat -> (forall j, 0 <= wt h0 j) -> S_ (length h0) (wt h0) 0 <= MaxUint64 ->
  staged h0 i h -> exists h', heapify_step i h = (h', Ok tt) /\ staged h0 (i - 1) h'.
Proof.
  intros Hi Hnn Hmax [Hlen Hst]. unfold heapify_step, mbind, M_bind, get, must.
  set (p := ((i - 1) / 2)%nat). set (n := length h0) in *.
  pose proof (Nat.div_mod (i - 1) 2 ltac:(lia)) as Hdiv. pose proof (Nat.mod_upper_bound (i - 1) 2 ltac:(lia)). fold p in Hdiv.
  destruct (lookup_lt_is_Some_2 h0 p ltac:(lia)) as [ep Hp]. destruct (lookup_lt_is_Some_2 h0 i ltac:(lia)) as [ei He].
  rewrite (Hst p ep Hp), (Hst i ei He). cbn [mret M_ret cumulativeWeight].
  pose proof (acc_step n (wt h0) i p ltac:(lia)) as Hacc. fold p in Hacc. rewrite decide_True in Hacc by done.
  rewrite acc_self by lia.
  pose proof (acc_bounds n (wt h0) Hnn (i - 1) p ltac:(lia)) as Hb. pose proof (acc_bounds n (wt h0) Hnn i p ltac:(lia)) as Hb0.
  pose proof (S_le_total n (wt h0) Hnn p ltac:(lia)). pose proof (S_nonneg n (wt h0) Hnn i).
  rewrite SafeMath.Add_spec by (unfold is_uint, MaxUint64 in *; lia). rewrite <- Hacc.
  destruct (Z.ltb_spec (acc n (wt h0) (i - 1) p) (2 ^ 64)); [|unfold MaxUint64 in *; lia].
  eexists. split; [done|]. split; [by rewrite length_insert|]. intros j e Hj.
  destruct (decide (j = p)) as [->|Hne].
  - rewrite list_lookup_insert_eq by lia. assert (e = ep) as -> by congruence. done.
  - rewrite list_lookup_insert_ne by done. rewrite (Hst j e Hj). do 2 f_equal. fold n.
    rewrite (acc_step n (wt h0) i j) by lia. rewrite decide_False by done. lia.
Qed.

Lemma heapify_ok h0 i h : (i < length h0)%nat -> (forall j, 0 <= wt h0 j) -> S_ (length h0) (wt h0) 0 <= MaxUint64 ->
  staged h0 i h -> exists h', heapify i h = (h', Ok tt) /\ staged h0 0 h'.
Proof.
  intros Hi Hnn Hmax. revert h Hi. induction i as [|i IH]; intros h Hi Hst; [by exists h|].
  destruct (heapify_step_ok h0 (S i) h) as (h1 & Hs & Hst1); [lia|done|done|done|].
  replace (S i - 1)%nat with i in Hst1 by lia. destruct (IH h1 ltac:(lia) Hst1) as (h2 & Hh & Hst2).
  exists h2. split; [|done]. cbn [heapify]. unfold mbind, M_bind. by rewrite Hs.
Qed.

Lemma staged_start h0 : Forall (fun e => cumulativeWeight e = weight e) h0 -> staged h0 (length h0 - 1) h0.
Proof.
  intros Hc. split; [done|]. intros j e Hj. rewrite Forall_lookup in Hc. pose proof (lookup_lt_Some _ _ _ Hj).
  assert (acc (length h0) (wt h0) (length h0 - 1) j = weight e) as ->; [|rewrite <- (Hc j e Hj) at 2; by destruct e].
  unfold acc. assert (wt h0 j = weight e) as -> by (unfold wt; by rewrite Hj).
  repeat case_decide; rewrite ?S_out by lia; lia.
Qed.

(** A heap whose elements have the sums of their subtrees. *)
Definition built h : Prop := (forall j, 0 <= wt h j) /\
  (forall j e, h !! j = Some e -> cumulativeWeight e = S_ (length h) (wt h) j).

Lemma staged_built h0 h : (forall j, 0 <= wt h0 j) -> staged h0 0 h -> built h /\ (forall j, wt h j = wt h0 j) /\ length h = length h0 /\
  (forall j, index <$> h !! j = index <$> h0 !! j).
Proof.
  intros Hnn [Hlen Hst].
  assert (forall j, h !! j = (fun e => mkElement (weight e) (acc (length h0) (wt h0) 0 j) (index e)) <$> h0 !! j) as Hh.
  { intros j. destruct (h0 !! j) as [e|] eqn:Hj; [by apply Hst|]. apply lookup_ge_None in Hj. by apply lookup_ge_None; lia. }
  assert (forall j, wt h j = wt h0 j) as Hwt by (intros j; unfold wt; rewrite Hh; by destruct (h0 !! j)).
  split; [|split; [done|split; [done|]]].
  - split; [intros j; by rewrite Hwt|]. intros j e Hj. rewrite Hlen, (S_ext _ (wt h) (wt h0)) by done.
    rewrite Hh in Hj. destruct (h0 !! j) as [e0|] eqn:He; [|done]. injection Hj as <-. cbn.
    pose proof (lookup_lt_Some _ _ _ He). rewrite (S_eq _ _ j), decide_False by lia. unfold acc.
    destruct j as [|j]; [done|]. rewrite !decide_True by lia. done.
  - intros j. rewrite Hh. by destruct (h0 !! j).
Qed.

(** *** The descent *)
Definition result_index h (i : nat) (v : Z) : option nat :=
  match descend_loop (length h - i) h (i, v) with Ok k => Some k | Err _ => None end.

Lemma descend_fuel h fuel i v k : descend_loop fuel h (i, v) = Ok k -> forall fuel', (fuel <= fuel')%nat -> descend_loop fuel' h (i, v) = Ok k.
Proof.
  revert i v. induction fuel as [|fuel IH]; intros i v Hd [|fuel'] Hle; [done|done|lia|].
  cbn [descend_loop] in *. destruct (descend h (i, v)) as [[[i' v']|k']|e]; cbn [mbind result_bind] in *; [|done|done].
  apply IH; [done|lia].
Qed.

(** Below [i] the numbers less than the sum of the subtree all have a result, as
    the value falls in the node itself, or in one of the subtrees. *)
Lemma descend_step h i v : built h -> (i < length h)%nat -> 0 <= v < S_ (length h) (wt h) i ->
  exists e, h !! i = Some e /\ descend h (i, v) =
    if v <? wt h i then Ok (inr (index e))
    else if S_ (length h) (wt h) (i * 2 + 1) <=? v - wt h i
         then Ok (inl ((i * 2 + 2)%nat, v - wt h i - S_ (length h) (wt h) (i * 2 + 1)))
         else Ok (inl ((i * 2 + 1)%nat, v - wt h i)).
Proof.
  intros [Hnn Hc] Hi Hv. destruct (lookup_lt_is_Some_2 h i Hi) as [e He]. exists e. split; [done|].
  assert (wt h i = weight e) as Hw by (unfold wt; by rewrite He). rewrite Hw. unfold descend. rewrite He.
  destruct (Z.ltb_spec v (weight e)); [done|].
  rewrite (S_eq _ _ i), decide_False in Hv by lia.
  destruct (h !! (i * 2 + 1)%nat) as [l|] eqn:Hl.
  - rewrite (Hc _ _ Hl). replace (S (i * 2 + 1)) with (i * 2 + 2)%nat by lia. done.
  - apply lookup_ge_None in Hl. rewrite (S_out _ _ (i * 2 + 1)), (S_out _ _ (i * 2 + 2)) in Hv by lia. lia.
Qed.

Lemma descend_ok h i v : built h -> (i < length h)%nat -> 0 <= v < S_ (length h) (wt h) i ->
  exists k, descend_loop (length h - i) h (i, v) = Ok k.
Proof.
  intros Hb. remember (length h - i)%nat as d eqn:Hd. revert i v Hd. induction d as [d IH] using (well_founded_induction lt_wf).
  intros i v -> Hi Hv. destruct (descend_step h i v Hb Hi Hv) as (e & _ & Hs).
  destruct (length h - i)%nat as [|fuel] eqn:Hf; [lia|]. cbn [descend_loop]. rewrite Hs.
  destruct (Z.ltb_spec v (wt h i)); [by eexists|]. rewrite (S_eq _ _ i), decide_False in Hv by lia.
  destruct (Z.leb_spec (S_ (length h) (wt h) (i * 2 + 1)) (v - wt h i)); cbn [mbind result_bind].
  - assert (i * 2 + 2 < length h)%nat as Hr by (destruct (decide (i * 2 + 2 < length h)%nat); [done|]; rewrite (S_out _ _ (i * 2 + 2)) in Hv by lia; lia).
    destruct (IH (length h - (i * 2 + 2))%nat ltac:(lia) (i * 2 + 2)%nat (v - wt h i - S_ (length h) (wt h) (i * 2 + 1)) eq_refl Hr) as [k Hk]; [lia|].
    exists k. eapply descend_fuel; [exact Hk|lia].
  - assert (i * 2 + 1 < length h)%nat as Hr by (destruct (decide (i * 2 + 1 < length h)%nat); [done|]; rewrite (S_out _ _ (i * 2 + 1)) in * by lia; lia).
    destruct (IH (length h - (i * 2 + 1))%nat ltac:(lia) (i * 2 + 1)%nat (v - wt h i) eq_refl Hr) as [k Hk]; [lia|].
    exists k. eapply descend_fuel; [exact Hk|lia].
Qed.

Lemma result_index_eq h i v : built h -> (i < length h)%nat -> 0 <= v < S_ (length h) (wt h) i ->
  result_index h i v =
    if v <? wt h i then index <$> h !! i
    else if S_ (length h) (wt h) (i * 2 + 1) <=? v - wt h i
         then result_index h (i * 2 + 2) (v - wt h i - S_ (length h) (wt h) (i * 2 + 1))
         else result_index h (i * 2 + 1) (v - wt h i).
Proof.
  intros Hb Hi Hv. destruct (descend_step h i v Hb Hi Hv) as (e & He & Hs). rewrite He.
  unfold result_index at 1. destruct (length h - i)%nat as [|fuel] eqn:Hf; [lia|]. cbn [descend_loop]. rewrite Hs.
  destruct (Z.ltb_spec v (wt h i)); [done|]. rewrite (S_eq _ _ i), decide_False in Hv by lia.
  assert (forall j v', (length h - j <= fuel)%nat -> (j < length h)%nat -> 0 <= v' < S_ (length h) (wt h) j ->
    match descend_loop fuel h (j, v') with Ok k => Some k | Err _ => None end = result_index h j v') as Hj.
  { intros j v' Hle Hj Hv'. unfold result_index. destruct (descend_ok h j v' Hb Hj Hv') as [k Hk]. rewrite Hk.
    by rewrite (descend_fuel _ _ _ _ _ Hk fuel Hle). }
  destruct (Z.leb_spec (S_ (length h) (wt h) (i * 2 + 1)) (v - wt h i)); cbn [mbind result_bind]; apply Hj; try lia.
  - destruct (decide (i * 2 + 2 < length h)%nat); [done|]. rewrite (S_out _ _ (i * 2 + 2)) in Hv by lia. lia.
  - destruct (decide (i * 2 + 1 < length h)%nat); [done|]. rewrite (S_out _ _ (i * 2 + 1)) in * by lia. lia.
Qed.

(** *** How many numbers map to an index *)

(** The numbers in [0 .. n-1] that satisfy [P]. *)
Definition zcount (P : Z -> Prop) `{!forall v, Decision (P v)} (n : Z) : Z :=
  zsum (fun v => if bool_decide (P v) then 1 else 0) (seqZ 0 n).

Lemma zcount_add P `{!forall v, Decision (P v)} a b : 0 <= a -> 0 <= b -> zcount P (a + b) = zcount P a + zcount (fun v => P (a + v)) b.
Proof.
  intros Ha Hb. unfold zcount. rewrite seqZ_app, zsum_app by done. f_equal.
  replace (0 + a) with (a + 0) by lia. rewrite <- fmap_add_seqZ. apply zsum_fmap.
Qed.

Lemma zcount_ext P Q `{!forall v, Decision (P v), !forall v, Decision (Q v)} n : (forall v, 0 <= v < n -> P v <-> Q v) -> zcount P n = zcount Q n.
Proof.
  intros HPQ. apply zsum_ext. intros v Hv%elem_of_seqZ. by rewrite (bool_decide_ext (P v) (Q v)) by (apply HPQ; lia).
Qed.

Lemma zcount_const (b : Prop) `{!Decision b} n : 0 <= n -> zcount (fun _ => b) n = if decide b then n else 0.
Proof.
  intros Hn. unfold zcount. assert (forall (c : Z) (l : list Z), zsum (fun _ => c) l = c * Z.of_nat (length l)) as Hc.
  { intros c l. induction l as [|x l IH]; [cbn; lia|]. cbn [zsum foldr length]. fold (zsum (fun _ : Z => c) l). lia. }
  rewrite Hc, length_seqZ. case_bool_decide; case_decide; (done || lia).
Qed.

Lemma zsum_indicator_nonneg {A} (P : A -> Prop) `{!forall v, Decision (P v)} l : 0 <= zsum (fun v => if bool_decide (P v) then 1 else 0) l.
Proof.
  induction l as [|x l IH]; [done|]. cbn. fold (zsum (fun v => if bool_decide (P v) then 1 else 0) l). case_bool_decide; lia.
Qed.

(** Distinct numbers below [n] that satisfy [P] are at most all of them. *)
Lemma zcount_sub P `{!forall v, Decision (P v)} l n : NoDup l -> Forall (fun v => 0 <= v < n) l ->
  zsum (fun v => if bool_decide (P v) then 1 else 0) l <= zcount P n.
Proof.
  intros Hd Hl. unfold zcount. assert (l ⊆+ seqZ 0 n) as [k ->]%submseteq_Permutation.
  { apply NoDup_submseteq; [done|]. intros v Hv. rewrite Forall_forall in Hl. apply elem_of_seqZ. specialize (Hl v Hv). lia. }
  rewrite zsum_app. pose proof (zsum_indicator_nonneg P k). lia.
Qed.

Lemma zcount_pos P `{!forall v, Decision (P v)} n v : 0 <= v < n -> P v -> 0 < zcount P n.
Proof.
  intros Hv HP. pose proof (zcount_sub P [v] n) as Hs. cbn in Hs. rewrite bool_decide_true in Hs by done.
  assert (1 + 0 <= zcount P n); [|lia]. apply Hs; [apply NoDup_singleton|by constructor].
Qed.

Definition wt_of h (k : nat) (j : nat) : Z :=
  match h !! j with Some e => if decide (index e = k) then weight e else 0 | None => 0 end.

Lemma count_subtree h k i : built h -> zcount (fun v => result_index h i v = Some k) (S_ (length h) (wt h) i) = S_ (length h) (wt_of h k) i.
Proof.
  intros Hb. remember (length h - i)%nat as d eqn:Hd. revert i Hd. induction d as [d IH] using (well_founded_induction lt_wf). intros i ->.
  destruct (decide (length h <= i)%nat) as [Ho|Hi]; [by rewrite !S_out by done|].
  rewrite (S_eq _ (wt_of h k) i), (S_eq _ (wt h) i), !decide_False by done.
  pose proof (proj1 Hb i) as Hw. pose proof (S_nonneg (length h) (wt h) (proj1 Hb)) as Hnn.
  pose proof (Hnn (i * 2 + 1)%nat) as Hl. pose proof (Hnn (i * 2 + 2)%nat) as Hr.
  assert (forall v, 0 <= v < wt h i + S_ (length h) (wt h) (i * 2 + 1) + S_ (length h) (wt h) (i * 2 + 2) -> 0 <= v < S_ (length h) (wt h) i) as Hrange.
  { intros v. rewrite (S_eq _ _ i), decide_False by done. done. }
  rewrite !zcount_add by lia. rewrite <- (IH (length h - (i * 2 + 1))%nat ltac:(lia) (i * 2 + 1)%nat eq_refl).
  rewrite <- (IH (length h - (i * 2 + 2))%nat ltac:(lia) (i * 2 + 2)%nat eq_refl). f_equal; [f_equal|].
  - destruct (lookup_lt_is_Some_2 h i ltac:(lia)) as [e He].
    assert (wt_of h k i = if decide (index e = k) then wt h i else 0) as -> by (unfold wt_of, wt; by rewrite He).
    rewrite <- zcount_const by done. apply zcount_ext. intros v Hv. rewrite result_index_eq by (auto with lia || apply Hrange; lia).
    replace (v <? wt h i) with true by lia. rewrite He. cbn. split; [by intros [= ->]|by intros ->].
  - apply zcount_ext. intros v Hv. rewrite (result_index_eq h i) by (auto with lia || apply Hrange; lia).
    replace (wt h i + v <? wt h i) with false by lia. replace (wt h i + v - wt h i) with v by lia.
    replace (S_ (length h) (wt h) (i * 2 + 1) <=? v) with false by lia. done.
  - apply zcount_ext. intros v Hv. rewrite (result_index_eq h i) by (auto with lia || apply Hrange; lia).
    set (l := S_ (length h) (wt h) (i * 2 + 1)) in *.
    replace (wt h i + l + v <? wt h i) with false by lia. replace (l <=? wt h i + l + v - wt h i) with true by lia.
    replace (wt h i + l + v - wt h i - l) with v by lia. done.
Qed.

(** *** Building the heap *)
#[export] Instance SampErr_eq_dec : EqDecision SampErr.
Proof. solve_decision. Defined.

Definition wf_weights (ws : list Z) : Prop := Forall (fun w => is_u64 w) ws.
Definition total (ws : list Z) : Z := zsum (fun w => w) ws.

Definition elements_of (ws : list Z) : list weightedHeapElement := imap (fun i w => mkElement w w i) ws.

Lemma imap_weight_of ws k : zsum (fun e => if decide (index e = k) then weight e else 0) (elements_of ws) = default 0 (ws !! k).
Proof.
  unfold elements_of. induction ws as [|w ws IH] using rev_ind; [done|]. rewrite imap_app, zsum_app, IH. cbn.
  rewrite Nat.add_0_r. destruct (decide (length ws = k)) as [<-|Hne].
  - rewrite lookup_app_r, Nat.sub_diag, (lookup_ge_None_2 ws) by lia. cbn. lia.
  - destruct (decide (k < length ws)%nat) as [Hlt|Hge]; [rewrite lookup_app_l by done; lia|].
    rewrite (lookup_ge_None_2 ws), lookup_ge_None_2 by (rewrite ?length_app; cbn; lia). done.
Qed.

Lemma imap_weights ws : zsum weight (elements_of ws) = total ws.
Proof.
  unfold total, elements_of. induction ws as [|w ws IH] using rev_ind; [done|]. rewrite imap_app, !zsum_app, IH. done.
Qed.

Lemma weights_total_nonneg ws : wf_weights ws -> 0 <= total ws.
Proof. induction 1 as [|w ws [Hw _] _ IH]; [done|]. unfold total in *. cbn. fold (zsum (fun w => w) ws). lia. Qed.

Lemma w_Initialize_built ws h : wf_weights ws -> total ws <= MaxUint64 ->
  exists h', w_Initialize ws h = (h', Ok tt) /\ built h' /\ length h' = length ws /\
    S_ (length h') (wt h') 0 = total ws /\ forall k, S_ (length h') (wt_of h' k) 0 = default 0 (ws !! k).
Proof.
  intros Hws Hmax. set (h0 := sort_elements (elements_of ws)).
  assert (h0 ≡ₚ elements_of ws) as Hp by apply merge_sort_Permutation.
  assert (Forall (fun e => cumulativeWeight e = weight e /\ 0 <= weight e) h0) as Hall.
  { rewrite Hp. apply Forall_forall. intros e (i & Hi)%list_elem_of_lookup. unfold elements_of in Hi. rewrite list_lookup_imap in Hi.
    destruct (ws !! i) as [w|] eqn:Hw; [|done]. injection Hi as <-. split; [done|]. eapply Forall_lookup_1 in Hws as [? _]; [|exact Hw]. done. }
  assert (length h0 = length ws) as Hlen by (rewrite Hp; apply length_imap).
  assert (forall j, 0 <= wt h0 j) as Hnn.
  { intros j. unfold wt. destruct (h0 !! j) as [e|] eqn:Hj; [|done]. by eapply Forall_lookup_1 in Hall as [_ ?]. }
  assert (forall F, (0 < length h0)%nat -> S_ (length h0) (fun j => match h0 !! j with Some e => F e | None => 0 end) 0 = zsum F (elements_of ws)) as Hsum.
  { intros F Hn. rewrite tree_total by done. rewrite sum_upto_list. by apply zsum_perm. }
  unfold w_Initialize, modify, mbind, M_bind, get. fold (elements_of ws). fold h0.
  destruct (decide (length h0 = 0%nat)) as [Hz|Hnz].
  { exists h0. rewrite Hz. split; [done|]. assert (ws = []) as -> by (apply nil_length_inv; lia).
    split; [split; [done|]|split; [done|split; [done|]]]; [|by intros [|k]].
    intros j e Hj. apply lookup_lt_Some in Hj. lia. }
  assert (S_ (length h0) (wt h0) 0 = total ws) as Htot by (rewrite <- imap_weights; apply (Hsum weight); lia).
  destruct (heapify_ok h0 (length h0 - 1) h0 ltac:(lia) Hnn ltac:(lia)) as (h' & Hh & Hst).
  { apply staged_start. eapply Forall_impl; [exact Hall|]. by intros e [? _]. }
  exists h'. split; [exact Hh|]. destruct (staged_built h0 h' Hnn Hst) as (Hb & Hwt & Hl & Hi). split; [done|]. split; [lia|].
  rewrite Hl. split; [rewrite (S_ext _ (wt h') (wt h0)) by done; done|].
  intros k. rewrite <- imap_weight_of, <- Hsum by lia. apply S_ext. intros j _. unfold wt_of.
  specialize (Hwt j). specialize (Hi j). unfold wt in Hwt. destruct (h' !! j), (h0 !! j); cbn in *; (done || congruence || idtac).
  injection Hi as ->. by rewrite Hwt.
Qed.

Lemma w_Sample_spec h v : built h -> 0 <= v ->
  w_Sample h v = if v <? S_ (length h) (wt h) 0 then Ok (result_index h 0 v) else Ok None.
Proof.
  intros Hb Hv. unfold w_Sample. destruct h as [|e h'] eqn:Eh; [cbn; by destruct (v <? 0)|]. rewrite <- Eh in *.
  assert (h !! 0%nat = Some e) as He by (by rewrite Eh). rewrite (proj2 Hb _ _ He).
  destruct (Z.leb_spec (S_ (length h) (wt h) 0) v), (Z.ltb_spec v (S_ (length h) (wt h) 0)); try lia; [done|].
  assert (0 < length h)%nat as Hn by (rewrite Eh; cbn; lia).
  destruct (descend_ok h 0 v Hb Hn ltac:(lia)) as [k Hk]. unfold result_index. rewrite Nat.sub_0_r in *. by rewrite Hk.
Qed.

(** [h] maps exactly [ws !! k] of the numbers below the total to the index [k]. *)
Definition partitions h (ws : list Z) : Prop :=
  (forall v, 0 <= v < total ws -> exists k, w_Sample h v = Ok (Some k) /\ (k < length ws)%nat) /\
  (forall v, total ws <= v -> w_Sample h v = Ok None) /\
  (forall k, zcount (fun v => w_Sample h v = Ok (Some k)) (total ws) = default 0 (ws !! k)).

Lemma w_Initialize_partitions ws h : wf_weights ws -> total ws <= MaxUint64 ->
  exists h', w_Initialize ws h = (h', Ok tt) /\ partitions h' ws.
Proof.
  intros Hws Hmax. destruct (w_Initialize_built ws h Hws Hmax) as (h' & Hi & Hb & Hlen & Htot & Hk). exists h'. split; [done|].
  pose proof (weights_total_nonneg ws Hws) as Hnn.
  assert (forall k, zcount (fun v => w_Sample h' v = Ok (Some k)) (total ws) = default 0 (ws !! k)) as Hcount.
  { intros k. rewrite <- Hk, <- count_subtree, Htot by done. apply zcount_ext. intros v Hv.
    rewrite w_Sample_spec by (done || lia). rewrite Htot. replace (v <? total ws) with true by lia. split; [by intros [= ->]|by intros ->]. }
  split; [|split; [|done]].
  - intros v Hv. rewrite w_Sample_spec, Htot by (done || lia). replace (v <? total ws) with true by lia.
    assert (0 < length h')%nat as Hn by (destruct h'; [cbn in Htot; lia|cbn; lia]).
    destruct (descend_ok h' 0 v Hb Hn ltac:(lia)) as [k Hd]. unfold result_index. rewrite Hd. exists k. split; [done|].
    destruct (decide (k < length ws)%nat) as [|Hge]; [done|]. exfalso. specialize (Hcount k).
    rewrite (lookup_ge_None_2 ws) in Hcount by lia. cbn in Hcount.
    assert (0 < zcount (fun v => w_Sample h' v = Ok (Some k)) (total ws)); [|lia].
    apply (zcount_pos _ _ v Hv). rewrite w_Sample_spec, Htot by (done || lia). replace (v <? total ws) with true by lia.
    unfold result_index. by rewrite Hd.
  - intros v Hv. rewrite w_Sample_spec, Htot by (done || lia). by replace (v <? total ws) with false by lia.
Qed.

(** ** The adjusted weights *)
Definition factor (ws : list Z) : Z := if total ws <=? MaxUint64 then 1 else total ws / MaxUint64 + 1.
Definition adjusted (ws : list Z) : list Z := (fun w => w / factor ws) <$> ws.

Lemma foldl_total ws : foldl Z.add 0 ws = total ws.
Proof.
  enough (forall a, foldl Z.add a ws = a + total ws) as -> by lia. unfold total.
  induction ws as [|w ws IH]; intros a; cbn; [lia|]. rewrite IH. fold (zsum (fun w => w) ws). lia.
Qed.

Lemma foldl_wrapped ws a : wf_weights ws -> 0 <= a -> a + total ws <= MaxUint64 -> foldl (fun t w => wrap 64 (t + w)) a ws = a + total ws.
Proof.
  intros Hws. revert a. induction Hws as [|w ws [Hw _] Hws IH]; intros a Ha Hle; [cbn; lia|].
  pose proof (weights_total_nonneg ws Hws). assert (total (w :: ws) = w + total ws) as Ht by done. rewrite Ht in *. cbn [foldl].
  rewrite wrap_small by (unfold is_uint, MaxUint64 in *; lia). rewrite IH; lia.
Qed.

Lemma total_div ws d : wf_weights ws -> 0 < d -> d * total ((fun w => w / d) <$> ws) <= total ws.
Proof.
  intros Hws Hd. induction Hws as [|w ws [Hw _] Hws IH]; [cbn; lia|].
  assert (total (w :: ws) = w + total ws) as -> by done.
  assert (total ((fun w => w / d) <$> w :: ws) = w / d + total ((fun w => w / d) <$> ws)) as -> by done.
  pose proof (Z.mul_div_le w d Hd). lia.
Qed.

Lemma total_upper ws : wf_weights ws -> total ws <= MaxUint64 * Z.of_nat (length ws).
Proof.
  induction 1 as [|w ws [_ Hw] _ IH]; [done|]. unfold total in *. cbn [zsum foldr length]. fold (zsum (fun w => w) ws). unfold MaxUint64 in *. lia.
Qed.

Lemma factor_pos ws : wf_weights ws -> 0 < factor ws.
Proof.
  intros Hws. unfold factor. destruct (Z.leb_spec (total ws) MaxUint64); [lia|].
  pose proof (Z.div_pos (total ws) MaxUint64 ltac:(unfold MaxUint64 in *; lia) ltac:(unfold MaxUint64; lia)). lia.
Qed.

Lemma adjusted_wf ws : wf_weights ws -> wf_weights (adjusted ws).
Proof.
  intros Hws. pose proof (factor_pos ws Hws). apply Forall_fmap. eapply Forall_impl; [exact Hws|]. intros w [H0 H1]. cbn.
  split; [by apply Z.div_pos|]. eapply Z.le_lt_trans; [|exact H1]. apply Z.div_le_upper_bound; nia.
Qed.

Lemma adjusted_total ws : wf_weights ws -> total (adjusted ws) <= MaxUint64.
Proof.
  intros Hws. pose proof (factor_pos ws Hws) as Hf. pose proof (total_div ws (factor ws) Hws Hf) as Hle. fold (adjusted ws) in Hle.
  pose proof (weights_total_nonneg _ (adjusted_wf ws Hws)) as Hnn.
  unfold factor in *. destruct (Z.leb_spec (total ws) MaxUint64) as [|Hgt]; [lia|].
  pose proof (Z.mod_pos_bound (total ws) MaxUint64 ltac:(unfold MaxUint64; lia)) as Hm.
  rewrite Z.mod_eq in Hm by (unfold MaxUint64; lia). nia.
Qed.

Lemma adjusted_exact ws : total ws <= MaxUint64 -> adjusted ws = ws.
Proof.
  intros Ht. unfold adjusted, factor. replace (total ws <=? MaxUint64) with true by lia.
  rewrite <- (list_fmap_id ws) at 2. apply list_fmap_ext. intros. apply Z.div_1_r.
Qed.

Lemma adjust_spec ws : wf_weights ws -> Z.of_nat (length ws) < 2 ^ 63 -> adjust ws = (adjusted ws, total (adjusted ws)).
Proof.
  intros Hws Hlen. unfold adjust. rewrite foldl_total.
  destruct (Z.leb_spec (total ws) MaxUint64) as [Hle|Hgt]; [by rewrite adjusted_exact|].
  pose proof (total_upper ws Hws) as Hup.
  assert (0 <= total ws / MaxUint64 <= Z.of_nat (length ws)) as Hq.
  { split; [apply Z.div_pos; unfold MaxUint64 in *; lia|]. apply Z.div_le_upper_bound; unfold MaxUint64 in *; lia. }
  assert (wrap 64 (wrap 64 (total ws / MaxUint64) + 1) = factor ws) as ->.
  { unfold factor. replace (total ws <=? MaxUint64) with false by lia.
    rewrite (wrap_small 64 (total ws / MaxUint64)), wrap_small; unfold is_uint; lia. }
  fold (adjusted ws). f_equal. apply foldl_wrapped; [by apply adjusted_wf|done|by apply adjusted_total].
Qed.

(** ** Sampling by weight *)
Section weighted.
Context {Src : Type} `{Source Src}.
Variable draws : nat.
Hypothesis source_fair : fair draws.
Implicit Types (s : sampler Src).

(** The sampler is initialised with the weights [ws]. *)
Definition ready (ws : list Z) s : Prop := partitions (w s) ws /\ u_length (u s) = total ws /\ 0 <= total ws <= MaxUint64.

Definition occurrences (k : nat) (l : list nat) : Z := zsum (fun j => if decide (j = k) then 1 else 0) l.

Lemma sample_loop_spec ws s res count idx : ready ws s -> uinv (u s) res ->
  exists s', ready ws s' /\
    if Z.of_nat (length res + count) <=? total ws then
      exists vs l, sample_loop draws count idx s = (s', Ok (Some (idx ++ l))) /\ uinv (u s') (res ++ vs) /\
        Forall2 (fun v k => w_Sample (w s) v = Ok (Some k)) vs l /\ length l = count
    else sample_loop draws count idx s = (s', Ok None).
Proof.
  revert s res idx. induction count as [|count IH]; intros s res idx Hr Hu.
  { exists s. split; [done|]. pose proof (ui_count _ _ Hu) as Hc. pose proof (ui_len _ _ Hu). destruct Hr as (_ & Hl & _).
    rewrite (proj2 (Z.leb_le (Z.of_nat (length res + 0)) (total ws))) by lia. exists [], []. rewrite !app_nil_r. by split_and!. }
  pose proof (Next_spec draws (u s) res source_fair Hu) as Hn. pose proof (ui_count _ _ Hu) as Hc. destruct Hr as (Hp & Hl & Hb).
  cbn [sample_loop]. unfold sample_index, mbind, M_bind, zoom.
  destruct (Z.ltb_spec (drawsCount (u s)) (u_length (u s))) as [Hlt|Hge].
  - destruct Hn as (u' & v & Hn & Hu' & Hl'). rewrite Hn. cbn [get lift].
    assert (0 <= v < total ws) as Hv.
    { rewrite <- Hl, <- Hl'. apply (ui_res _ _ Hu'). apply elem_of_app. right. by apply list_elem_of_singleton. }
    destruct (proj1 Hp v Hv) as (k & Hk & _). unfold lift, get. change (w (set_u u' s)) with (w s). rewrite Hk.
    destruct (IH (set_u u' s) (res ++ [v]) (idx ++ [k])) as (s' & Hr' & Hs'); [split; [done|split; [cbn; congruence|lia]]|done|].
    exists s'. split; [done|]. rewrite length_app in Hs'. cbn [length] in Hs'.
    replace (length res + 1 + count)%nat with (length res + S count)%nat in Hs' by lia.
    destruct (_ <=? total ws); [|done]. destruct Hs' as (vs & l & Hs' & Hu2 & Hf & Hlen).
    exists (v :: vs), (k :: l). rewrite <- !app_assoc in *. cbn [app] in *. split_and!; [done|done|by constructor|cbn; lia].
  - exists s. split; [done|]. rewrite (proj2 (Z.leb_gt (Z.of_nat (length res + S count)) (total ws))) by lia. rewrite Hn. cbn. destruct s as [u0 w0 t0]. done.
Qed.

Lemma occurrences_bounded ws h vs l k : partitions h ws -> NoDup vs -> Forall (fun v => 0 <= v < total ws) vs ->
  Forall2 (fun v k => w_Sample h v = Ok (Some k)) vs l -> occurrences k l <= default 0 (ws !! k).
Proof.
  intros (_ & _ & Hc) Hd Hv Hf. rewrite <- Hc. etransitivity; [|by apply zcount_sub].
  unfold occurrences. clear Hd Hv Hc. induction Hf as [|v j vs l Hj _ IH]; [done|]. cbn.
  fold (zsum (fun j => if decide (j = k) then 1 else 0) l) (zsum (fun v => if bool_decide (w_Sample h v = Ok (Some k)) then 1 else 0) vs).
  rewrite Hj. case_decide; subst; [rewrite bool_decide_true by done; lia|rewrite bool_decide_false by congruence; lia].
Qed.

Lemma Sample_spec ws s count : ready ws s ->
  exists s', ready ws s' /\
    if Z.of_nat count <=? total ws then
      exists l, Sample draws count s = (s', Ok (Some l)) /\ length l = count /\
        Forall (fun k => (k < length ws)%nat) l /\ forall k, occurrences k l <= default 0 (ws !! k)
    else Sample draws count s = (s', Ok None).
Proof.
  intros Hr. pose proof Hr as (Hp & Hl & Hb).
  assert (uinv (u_Reset (u s)) []) as Hu by (apply (u_Initialize_inv (u_length (u s)) (u s)); lia).
  destruct (sample_loop_spec ws (set_u (u_Reset (u s)) s) [] count [] Hr Hu) as (s' & Hr' & Hs').
  exists s'. split; [done|]. cbn [length Nat.add] in Hs'. destruct (_ <=? total ws); [|exact Hs'].
  destruct Hs' as (vs & l & Hs' & Hu' & Hf & Hlen). exists l. split; [exact Hs'|]. split; [done|].
  assert (Forall (fun v => 0 <= v < total ws) vs) as Hv.
  { apply Forall_forall. intros v Hin. destruct Hr' as (_ & Hl' & _). rewrite <- Hl'. by apply (ui_res _ _ Hu'). }
  split; [|intros k; apply (occurrences_bounded ws (w s) vs); [done|apply (ui_nodup _ _ Hu')|done|done]].
  clear Hs' Hu' Hlen. induction Hf as [|v k vs l Hk _ IH]; [constructor|]. apply Forall_cons in Hv as [Hv0 Hv]. constructor; [|by apply IH].
  destruct (proj1 Hp v Hv0) as (k' & Hk' & Hlt). cbn in Hk. by assert (k' = k) as -> by congruence.
Qed.

Lemma Initialize_ready ws s : wf_weights ws -> Z.of_nat (length ws) < 2 ^ 63 ->
  exists s', InitializeWithAdjustedWeights ws s = (s', Ok tt) /\ ready (adjusted ws) s'.
Proof.
  intros Hws Hlen. unfold InitializeWithAdjustedWeights. rewrite adjust_spec by done.
  pose proof (adjusted_wf ws Hws) as Ha. pose proof (adjusted_total ws Hws) as Ht. pose proof (weights_total_nonneg _ Ha).
  destruct (w_Initialize_partitions (adjusted ws) (w s) Ha Ht) as (h' & Hi & Hp).
  unfold modify, mbind, M_bind, zoom. cbn [w]. rewrite Hi. eexists. split; [done|]. split; [done|]. by split.
Qed.

(** C: the heap of the sampler maps each number below the total weight to an index,
    exactly as many numbers as the index has weight, for any weights whose total
    fits 64 bits, and refuses the numbers from the total on. *)
Theorem weighted_heap_exact ws (h : list weightedHeapElement) : wf_weights ws -> total ws <= MaxUint64 ->
  exists h', w_Initialize ws h = (h', Ok tt) /\
    (forall v, 0 <= v < total ws -> exists k, w_Sample h' v = Ok (Some k) /\ (k < length ws)%nat) /\
    (forall v, total ws <= v -> w_Sample h' v = Ok None) /\
    (forall k, zcount (fun v => w_Sample h' v = Ok (Some k)) (total ws) = default 0 (ws !! k)).
Proof. intros Hws Ht. exact (w_Initialize_partitions ws h Hws Ht). Qed.

(** C28: sampling by weight: the weights are scaled down just as far as their total
    needs to fit 64 bits and the initialisation cannot fail; from then on every
    sample of [count] indices ends, fails exactly if the scaled total is smaller
    than [count], and contains no index more often than its scaled weight. *)
Theorem weighted_sample_correct ws s : wf_weights ws -> Z.of_nat (length ws) < 2 ^ 63 ->
  total (adjusted ws) <= MaxUint64 /\ (total ws <= MaxUint64 -> adjusted ws = ws) /\
  (exists s', InitializeWithAdjustedWeights ws s = (s', Ok tt) /\ ready (adjusted ws) s') /\
  (forall s count, ready (adjusted ws) s -> exists s', ready (adjusted ws) s' /\
    if Z.of_nat count <=? total (adjusted ws) then
      exists l, Sample draws count s = (s', Ok (Some l)) /\ length l = count /\
        Forall (fun k => (k < length ws)%nat) l /\ forall k, occurrences k l <= default 0 (adjusted ws !! k)
    else Sample draws count s = (s', Ok None)).
Proof.
  intros Hws Hlen. split; [by apply adjusted_total|]. split; [apply adjusted_exact|]. split; [by apply Initialize_ready|].
  intros s1 count Hr. destruct (Sample_spec (adjusted ws) s1 count Hr) as (s' & Hr' & Hs'). exists s'. split; [done|].
  assert (length (adjusted ws) = length ws) as Hla by apply length_fmap. by rewrite Hla in Hs'.
Qed.
End weighted.

(** ** Concrete runs

    The source counts, below 2^62. *)
#[export] Instance counter_source : Source Z := fun n => (n mod 2 ^ 62, n + 1).

Lemma counter_fair : fair 1.
Proof.
  intros n. pose proof (Z.mod_pos_bound n (2 ^ 62) ltac:(lia)). cbn [Uint64 counter_source fst].
  split; [unfold is_uint; lia|]. exists 0%nat. cbn. lia.
Qed.

Definition stake : list Z := [3; 0; 5; 2].
Definition new_sampler : sampler Z := mkSampler Z (mkUniform Z 7 0 ∅ 0) [] 0.

Definition sample_run (count : nat) : result SampErr (option (list nat)) :=
  ((InitializeWithAdjustedWeights stake;; Sample 1 count) new_sampler).2.

Example sample_run_4 : sample_run 4 = Ok (Some [0; 3; 2; 0]%nat).
Proof. vm_compute. reflexivity. Qed.

Lemma wf_stake : wf_weights stake.
Proof. repeat constructor; unfold is_uint; lia. Qed.

Lemma weighted_heap_exact_witness : exists h', w_Initialize stake [] = (h', Ok tt) /\
  zcount (fun v => w_Sample h' v = Ok (Some 2%nat)) 10 = 5 /\ w_Sample h' 10 = Ok None.
Proof.
  destruct (weighted_heap_exact stake [] wf_stake ltac:(vm_compute; discriminate)) as (h' & Hi & _ & Hn & Hc).
  exists h'. split; [exact Hi|]. split; [exact (Hc 2%nat)|]. apply Hn. vm_compute. discriminate.
Defined.

Lemma weighted_sample_correct_witness : exists s1 s2 l s3,
  InitializeWithAdjustedWeights stake new_sampler = (s1, Ok tt) /\
  Sample 1 10 s1 = (s2, Ok (Some l)) /\ length l = 10%nat /\ occurrences 2 l <= 5 /\
  Sample 1 11 s2 = (s3, Ok None).
Proof.
  destruct (weighted_sample_correct 1 counter_fair stake new_sampler wf_stake ltac:(vm_compute; reflexivity)) as (_ & _ & (s1 & Hi & Hr1) & Hs).
  destruct (Hs s1 10%nat Hr1) as (s2 & Hr2 & l & Hl & Hlen & _ & Ho).
  destruct (Hs s2 11%nat Hr2) as (s3 & _ & Hn).
  exists s1, s2, l, s3. split; [exact Hi|]. split; [exact Hl|]. split; [exact Hlen|]. split; [exact (Ho 2%nat)|exact Hn].
Defined.
End SamplerFacts.

(** ** Sampling validators

    The validator sets of [Validators] draw their samples with the sampler of
    [Sampler]: this file instantiates the interface between them and shows what
    [vdrSet.Sample] returns.  Each sampler has a random source of its own here; in
    the code they share one, which is as good for results that hold for every
    source. *)
Module ValidatorSampling.
Import Sampler SamplerFacts.
Import Validators (vdrSet, vrep, validators, weights, samplerInitialized, vdrSlice).

(** [sampler.NewWeightedWithoutReplacement] with the source [src]; an error of
    [Sample] does not happen with a fair source. *)
Definition weighted_sampler {Src} `{Source Src} (draws : nat) (src : Src) : Validators.WeightedWithoutReplacement (Sampler := sampler Src) := {|
  Validators.InitializeWithAdjustedWeights ws s :=
    match InitializeWithAdjustedWeights ws s with
    | (s', Ok _) => Some s'
    | (_, Err _) => None
    end;
  Validators.SampleIndices count s :=
    match Sample draws count s with
    | (s', Ok r) => (s', r)
    | (s', Err _) => (s', None)
    end;
  Validators.NewSampler := mkSampler Src (mkUniform Src src 0 ∅ 0) [] 0;
|}.

Section sampling.
Context {NodeID SubnetID PublicKey TxID Listener Src : Type}.
Context `{Countable SubnetID, Countable NodeID, EqDecision Listener, !Inhabited NodeID, Source Src}.
Variables (draws : nat) (src : Src).
Hypothesis source_fair : fair draws.

#[local] Instance the_sampler : Validators.WeightedWithoutReplacement (Sampler := sampler Src) := weighted_sampler draws src.
Abbreviation VSet := (vdrSet (NodeID := NodeID) (SubnetID := SubnetID) (PublicKey := PublicKey) (TxID := TxID) (Listener := Listener) (Sampler := sampler Src)).
Abbreviation VMap := (gmap NodeID (PublicKey * TxID * Z)).
Implicit Types (s : VSet) (m : VMap).

(** The sampler of a set is up to date if the set says so. *)
Definition sampler_ok s : Prop := samplerInitialized s = true ->
  ready (adjusted (weights s)) (Validators.sampler s).

(** The weights of the slice, in its order. *)
Lemma weights_validators s m : vrep s m -> weights s = Validators.Weight <$> validators s.
Proof.
  intros Hr. pose proof (Validators.validators_lookup s m Hr) as Hf. apply list_eq. intros i. rewrite list_lookup_fmap.
  destruct (validators s !! i) as [v|] eqn:Hv.
  - destruct (Forall2_lookup_r _ _ _ _ _ Hf Hv) as (x & Hx & Hxv).
    destruct (Validators.vr_slice _ _ Hr i x Hx) as (v' & Hv' & _ & _ & Hw). rewrite Hw. cbn. congruence.
  - cbn. apply lookup_ge_None in Hv. apply lookup_ge_None. rewrite (Validators.vr_len _ _ Hr), (Forall2_length _ _ _ Hf). done.
Qed.

Lemma weights_total s m : vrep s m -> total (weights s) = Validators.total m.
Proof.
  intros Hr. rewrite (weights_validators s m Hr). unfold total, Validators.total. rewrite msum_list, zsum_fmap.
  rewrite map_to_list_fmap, <- (Validators.validators_perm s m Hr), !zsum_fmap. done.
Qed.

Lemma weights_wf s m : vrep s m -> wf_weights (weights s).
Proof.
  intros Hr. rewrite (weights_validators s m Hr). apply Forall_fmap, Forall_forall. intros v Hv.
  apply (Validators.elem_of_validators s m) in Hv as [Hm _]; [|done]. exact (Validators.vr_u64 _ _ Hr _ _ Hm).
Qed.

Lemma weights_length s m : vrep s m -> length (weights s) = size m.
Proof.
  intros Hr. rewrite (weights_validators s m Hr), length_fmap.
  rewrite <- (length_fmap Validators.entry), (Validators.validators_perm s m Hr). apply length_map_to_list.
Qed.

(** How much a weight is scaled down, and how many nodes can be drawn. *)
Definition scale m : Z := if Validators.total m <=? MaxUint64 then 1 else Validators.total m / MaxUint64 + 1.
Definition drawable m : Z := zsum (fun x => x.2.2 / scale m) (map_to_list m).

Lemma weights_drawable s m : vrep s m -> total (adjusted (weights s)) = drawable m /\ factor (weights s) = scale m.
Proof.
  intros Hr. assert (factor (weights s) = scale m) as Hf by (unfold factor, scale; by rewrite (weights_total s m Hr)).
  split; [|done]. unfold drawable. rewrite <- (Validators.validators_perm s m Hr), zsum_fmap. rewrite <- Hf.
  unfold adjusted, total. rewrite zsum_fmap, (weights_validators s m Hr) at 1. rewrite zsum_fmap. done.
Qed.

(** How often [n] was drawn. *)
Definition times_drawn (n : NodeID) (l : list NodeID) : Z := zsum (fun n' => if decide (n' = n) then 1 else 0) l.

Definition name_at s (i : nat) : NodeID := default inhabitant (Validators.NodeID_ <$> validators s !! i).

Lemma name_loop s log m idx j (l : list NodeID) : vrep s m -> Forall (fun i => (i < length (weights s))%nat) idx -> length l = (j + length idx)%nat ->
  foldM (fun list ii =>
      x ← must Validators.Panic (vdrSlice s !! (ii.2 : nat));
      v ← Validators.deref x;
      if decide (ii.1 < length list)%nat then mret (<[ii.1 := Validators.NodeID_ v]> list) else fail Validators.Panic)
    (zip (seq j (length idx)) idx) l (s, log) = ((s, log), Ok (take j l ++ (name_at s <$> idx))).
Proof.
  intros Hr Hidx. pose proof (Validators.validators_lookup s m Hr) as Hf. revert j l. induction Hidx as [|i idx Hi Hidx IH]; intros j l Hl.
  { cbn in *. rewrite app_nil_r, take_ge by lia. done. }
  rewrite (Validators.vr_len _ _ Hr) in Hi. destruct (lookup_lt_is_Some_2 _ _ Hi) as [x Hx].
  destruct (Forall2_lookup_l _ _ _ _ _ Hf Hx) as (v & Hv & Hxv). cbn [length] in *.
  cbn [seq zip foldM]. unfold Validators.deref, Validators.get_set, must, mbind, M_bind, get, mret, M_ret. cbn [fst snd].
  rewrite Hx. cbn [fst]. rewrite Hxv. rewrite decide_True by lia. cbn [M_ret].
  etransitivity; [apply (IH (S j) (<[j := Validators.NodeID_ v]> l)); rewrite length_insert; lia|]. do 2 f_equal.
  rewrite (take_S_r _ _ (Validators.NodeID_ v)) by (apply list_lookup_insert_eq; lia). rewrite take_insert, decide_False by lia.
  assert (name_at s i = Validators.NodeID_ v) as Hname by (unfold name_at; by rewrite Hv).
  rewrite <- app_assoc. cbn [app fmap list_fmap]. by rewrite Hname.
Qed.

Lemma node_ids_nodup s m : vrep s m -> NoDup (Validators.NodeID_ <$> validators s).
Proof.
  intros Hr. assert ((Validators.NodeID_ <$> validators s) ≡ₚ (map_to_list m).*1) as ->; [|apply NoDup_fst_map_to_list].
  rewrite <- (Validators.validators_perm s m Hr). by rewrite <- list_fmap_compose.
Qed.

Lemma name_at_times s m n idx : vrep s m -> Forall (fun i => (i < length (weights s))%nat) idx ->
  (forall k, occurrences k idx <= default 0 (adjusted (weights s) !! k)) ->
  times_drawn n (name_at s <$> idx) <= default 0 (snd <$> m !! n) / scale m.
Proof.
  intros Hr Hidx Ho. rewrite <- (proj2 (weights_drawable s m Hr)).
  pose proof (weights_validators s m Hr) as Hw.
  assert (forall i, (i < length (weights s))%nat -> exists v, validators s !! i = Some v /\ name_at s i = Validators.NodeID_ v) as Hlook.
  { intros i Hi. rewrite Hw, length_fmap in Hi. destruct (lookup_lt_is_Some_2 _ _ Hi) as [v Hv].
    exists v. split; [done|]. unfold name_at. by rewrite Hv. }
  destruct (m !! n) as [[[pk tx] wgt]|] eqn:Hm.
  - assert ((n, (pk, tx, wgt)) ∈ Validators.entry <$> validators s) as (v & Hentry & Hv)%list_elem_of_fmap
      by (rewrite (Validators.validators_perm s m Hr); by apply elem_of_map_to_list).
    apply list_elem_of_lookup in Hv as [k Hk]. unfold Validators.entry, Validators.val_of in Hentry.
    assert (n = Validators.NodeID_ v) as -> by congruence. assert (wgt = Validators.Weight v) as -> by congruence.
    transitivity (occurrences k idx).
    + unfold times_drawn, occurrences. rewrite zsum_fmap. apply zsum_le. intros i Hi. rewrite Forall_forall in Hidx.
      destruct (Hlook i (Hidx i Hi)) as (v' & Hv' & ->). destruct (decide (Validators.NodeID_ v' = Validators.NodeID_ v)) as [Heq|]; [|by case_decide].
      rewrite decide_True; [done|]. pose proof (node_ids_nodup s m Hr) as Hd.
      eapply (NoDup_lookup _ i k (Validators.NodeID_ v) Hd); rewrite list_lookup_fmap; [rewrite Hv'; cbn; by rewrite Heq|by rewrite Hk].
    + etransitivity; [apply Ho|]. unfold adjusted. rewrite list_lookup_fmap, Hw, list_lookup_fmap, Hk. cbn.
      by rewrite <- Hw.
  - cbn. unfold times_drawn. rewrite zsum_fmap, zsum_zero; [by rewrite Zdiv_0_l|].
    intros i Hi. rewrite Forall_forall in Hidx. destruct (Hlook i (Hidx i Hi)) as (v & Hv & ->). rewrite decide_False; [done|].
    intros <-. apply list_elem_of_lookup_2 in Hv. apply (Validators.elem_of_validators s m) in Hv as [Hm' _]; [|done]. congruence.
Qed.

(** Operations that succeed put the sampler out of date, so it is initialised with
    the new weights before the next sample. *)
Lemma stepped_sampler_ok (st st' : VSet * list Validators.Notice) m e : Validators.stepped st st' m e -> sampler_ok st'.1.
Proof. intros (_ & _ & _ & Hs) Hi. congruence. Qed.

(** [s] with the sampler [sm], up to date. *)
Definition with_sampler s (sm : sampler Src) : VSet :=
  Validators.mkSet (Validators.subnetID s) (Validators.heap s) (Validators.vdrs s) (vdrSlice s) (weights s) (Validators.totalWeight s)
    true sm (Validators.managerCallbackListeners s) (Validators.setCallbackListeners s).

Lemma vrep_sampler s m sm : vrep s m -> vrep (with_sampler s sm) m.
Proof. intros [? ? ? ? ? ?]. by split. Qed.

Lemma run_bind {St E A B} (c : M St E A) (f : A -> M St E B) st st' a : c st = (st', Ok a) -> (c ≫= f) st = f a st'.
Proof. intros Hc. unfold mbind, M_bind. by rewrite Hc. Qed.

(** The sampler is initialised unless it is up to date. *)
Lemma sampler_initialized s m log : vrep s m -> sampler_ok s -> Z.of_nat (size m) < 2 ^ 63 ->
  exists sm, ready (adjusted (weights s)) sm /\
    (if samplerInitialized s then mret tt
     else match Validators.InitializeWithAdjustedWeights (weights s) (Validators.sampler s) with
          | None => fail Validators.ErrSampler
          | Some sm => Validators.set_sampler true sm
          end) (s, log) = ((with_sampler s sm, log), Ok tt).
Proof.
  intros Hr Hok Hsize. rewrite <- (weights_length s m Hr) in Hsize. destruct (samplerInitialized s) eqn:Hi.
  - exists (Validators.sampler s). split; [by apply Hok|]. unfold with_sampler. rewrite <- Hi. by destruct s.
  - destruct (Initialize_ready (weights s) (Validators.sampler s) (weights_wf s m Hr) Hsize) as (sm & Hsm & Hready).
    exists sm. split; [done|]. cbn [Validators.InitializeWithAdjustedWeights the_sampler weighted_sampler]. by rewrite Hsm.
Qed.

(** sampling a validator set ends and leaves the validators as they are; it
    returns the asked number of validators, none of them more often than its
    weight, which is scaled down only if the total weight exceeds 64 bits, and fails
    exactly if the scaled weights are not enough. *)
Theorem validator_sample_correct s m log k : vrep s m -> sampler_ok s -> Z.of_nat (size m) < 2 ^ 63 ->
  (Validators.total m <= MaxUint64 -> scale m = 1) /\
  exists s', vrep s' m /\ sampler_ok s' /\
    if Z.of_nat k <=? drawable m then
      exists l, Validators.sample k (s, log) = ((s', log), Ok l) /\ length l = k /\
        forall n, times_drawn n l <= default 0 (snd <$> m !! n) / scale m
    else Validators.sample k (s, log) = ((s', log), Err Validators.errInsufficientWeight).
Proof.
  intros Hr Hok Hsize. split; [intros Ht; unfold scale; by rewrite (proj2 (Z.leb_le _ _) Ht)|].
  destruct (sampler_initialized s m log Hr Hok Hsize) as (sm & Hready & Hinit).
  destruct (Sample_spec draws source_fair (adjusted (weights s)) sm k Hready) as (sm' & Hready' & Hs).
  exists (with_sampler s sm'). pose proof (vrep_sampler s m sm' Hr) as Hr'. split; [done|]. split; [by intros _|].
  rewrite (proj1 (weights_drawable s m Hr)) in Hs. unfold Validators.sample.
  rewrite (run_bind _ _ _ (s, log) s) by done. rewrite (run_bind _ _ _ _ _ Hinit).
  rewrite (run_bind _ _ _ (with_sampler s sm, log) (with_sampler s sm)) by done.
  cbn [Validators.SampleIndices the_sampler weighted_sampler Validators.sampler with_sampler samplerInitialized].
  destruct (Z.of_nat k <=? drawable m).
  - destruct Hs as (idx & Hs & Hlen & Hidx & Ho). rewrite Hs.
    exists (name_at (with_sampler s sm') <$> idx). split; [|split; [by rewrite length_fmap|]].
    + rewrite (run_bind _ _ _ (with_sampler s sm', log) tt) by done.
      unfold adjusted in Hidx. rewrite length_fmap in Hidx.
      etransitivity; [apply (name_loop (with_sampler s sm') log m idx 0 _ Hr'); [done|by rewrite length_replicate]|]. done.
    + intros n. unfold adjusted in Hidx. rewrite length_fmap in Hidx. by apply name_at_times.
  - rewrite Hs. by rewrite (run_bind _ _ _ (with_sampler s sm', log) tt).
Qed.
End sampling.

(** ** A concrete run *)
#[local] Instance the_counter : Validators.WeightedWithoutReplacement (Sampler := sampler Z) := weighted_sampler 1 7.

Abbreviation ZSet := (vdrSet (NodeID := nat) (SubnetID := nat) (PublicKey := nat) (TxID := nat) (Listener := nat) (Sampler := sampler Z)).

Lemma two_validators : exists s : ZSet, vrep s {[2%nat := (20%nat, 200%nat, 6); 1%nat := (10%nat, 100%nat, 5)]} /\ samplerInitialized s = false.
Proof.
  assert (vrep (Validators.newSet 0%nat [] : ZSet) (∅ : gmap nat (nat * nat * Z))) as Hr by apply Validators.newSet_rep.
  destruct (Validators.add_spec 1%nat 10%nat 100%nat 5 _ [] ∅ Hr ltac:(unfold is_uint; lia)) as ([s1 log1] & _ & Hr1 & _).
  destruct (Validators.add_spec 2%nat 20%nat 200%nat 6 s1 log1 _ Hr1 ltac:(unfold is_uint; lia)) as ([s2 log2] & _ & Hr2 & _ & _ & Hi).
  exists s2. split; [|exact Hi]. rewrite insert_empty in Hr2. exact Hr2.
Qed.

Lemma validator_sample_correct_witness : exists (s s' s'' : ZSet) l,
  Validators.sample 11 (s, []) = ((s', []), Ok l) /\ length l = 11%nat /\ times_drawn 2%nat l <= 6 /\
  Validators.sample 12 (s', []) = ((s'', []), Err Validators.errInsufficientWeight).
Proof.
  destruct two_validators as (s & Hr & Hi).
  assert (sampler_ok s) as Hok by (intros Hi'; congruence).
  destruct (validator_sample_correct 1 7 counter_fair s _ [] 11%nat Hr Hok ltac:(vm_compute; reflexivity)) as (_ & s' & Hr' & Hok' & l & Hl & Hlen & Ht).
  destruct (validator_sample_correct 1 7 counter_fair s' _ [] 12%nat Hr' Hok' ltac:(vm_compute; reflexivity)) as (_ & s'' & _ & _ & Hs).
  exists s, s', s'', l. split; [exact Hl|]. split; [exact Hlen|]. split; [|exact Hs].
  etransitivity; [exact (Ht 2%nat)|]. vm_compute. discriminate.
Defined.
End ValidatorSampling.
