(* ===== verification/Database.v ===== *)
(** * Key-value databases
    Models the interfaces of [avalanchego/database/database.go], [iterator.go],
    [batch.go] and the helpers of [helpers.go].

    [Database] is the Go interface: one operation, one method.  [DatabaseLaws] is
    its documented contract, over the map of keys to values that an open database
    holds: a read or write either does what it says or reports a fault and leaves
    the contents alone; a batch is written as a whole; an iterator lists, in
    order, the keys that were there when it was made.  [memdb], [versiondb] and
    [prefixdb] implement the contract, the last two over any database that does.
    A slice is a value: the documentation lets callers change a slice they have
    passed and asks them not to change one that is returned. *)
From Stdlib Require Import Sorting.Sorted.
From stdpp Require Import sorting.
From S2P Require Import Prelude Monads Sorting GoLibrary MapOrder.

Module Database.
Import Sorting.

Abbreviation bytes := (list Z).

(** [ErrIO] stands for the errors of a storage engine. *)
Inductive DbErr :=
  | ErrClosed
  | ErrNotFound
  | ErrIO (code : Z)
  | errWrongSize
  | Panic.

Definition fault (e : DbErr) : Prop := exists code, e = ErrIO code.

Record BatchOp := mkOp { op_Key : bytes; op_Value : bytes; op_Delete : bool }.

(** [BatchOps]: [Put], [Delete], [Size], [Reset] *)
Record BatchOps := mkBatch { Ops : list BatchOp; size : Z }.
Definition new_ops : BatchOps := mkBatch [] 0.

Definition Ops_Put (key value : bytes) (b : BatchOps) : BatchOps :=
  mkBatch (Ops b ++ [mkOp key value false]) (size b + Z.of_nat (length key + length value)).
Definition Ops_Delete (key : bytes) (b : BatchOps) : BatchOps :=
  mkBatch (Ops b ++ [mkOp key [] true]) (size b + Z.of_nat (length key)).
Definition Ops_Reset (b : BatchOps) : BatchOps := mkBatch [] 0.

Class Database (D : Type) := {
  Iterator : Type;
  Batch : Type;
  Has : bytes -> D -> result DbErr bool;
  Get : bytes -> D -> result DbErr bytes;
  Put : bytes -> bytes -> M D DbErr unit;
  Delete : bytes -> M D DbErr unit;
  NewIteratorWithStartAndPrefix : bytes -> bytes -> D -> Iterator;
  Next : D -> Iterator -> Iterator * bool;
  Key : Iterator -> bytes;
  Value : Iterator -> bytes;
  Error : Iterator -> option DbErr;
  Release : Iterator -> Iterator;
  NewBatch : D -> Batch;
  b_Put : bytes -> bytes -> M Batch DbErr unit;
  b_Delete : bytes -> M Batch DbErr unit;
  b_Size : Batch -> Z;
  b_Reset : Batch -> Batch;
  b_Write : Batch -> M D DbErr unit;
  Compact : bytes -> option bytes -> M D DbErr unit;
  Close : M D DbErr unit;
}.
Arguments Iterator D {_}.
Arguments Batch D {_}.

(** [strings.HasPrefix] *)
Fixpoint HasPrefix (key prefix : bytes) : bool :=
  match prefix, key with
  | [], _ => true
  | p :: prefix, k :: key => (p =? k) && HasPrefix key prefix
  | _, [] => false
  end.

(** The iterators of the other methods of [Iteratee]; a nil start or prefix is
    empty. *)
Section iteratee.
Context `{Database D}.
Definition NewIterator : D -> Iterator D := NewIteratorWithStartAndPrefix [] [].
Definition NewIteratorWithStart (start : bytes) : D -> Iterator D := NewIteratorWithStartAndPrefix start [].
Definition NewIteratorWithPrefix (prefix : bytes) : D -> Iterator D := NewIteratorWithStartAndPrefix [] prefix.

(** [BatchOps.Replay] *)
Fixpoint Replay (l : list BatchOp) : M D DbErr unit :=
  match l with
  | [] => mret tt
  | op :: l =>
      (if op_Delete op then Delete (op_Key op) else Put (op_Key op) (op_Value op));; Replay l
  end.

Definition PackUInt64 (val : Z) : bytes := BigEndian.put 8 val.
Definition ParseUInt64 (b : bytes) : result DbErr Z :=
  if negb (length b =? 8)%nat then Err errWrongSize else Ok (BigEndian.get 8 b).
Definition PutUInt64 (key : bytes) (val : Z) : M D DbErr unit := Put key (PackUInt64 val).
Definition GetUInt64 (key : bytes) (d : D) : result DbErr Z := Get key d ≫= ParseUInt64.
End iteratee.
#[global] Arguments PackUInt64 : simpl never.

(** ** The contract *)

(** What the operations of a batch do to the contents, in their order. *)
Definition apply_op (m : gmap bytes bytes) (op : BatchOp) : gmap bytes bytes :=
  if op_Delete op then delete (op_Key op) m else <[op_Key op := op_Value op]> m.
Definition apply_ops (l : list BatchOp) (m : gmap bytes bytes) : gmap bytes bytes := foldl apply_op m l.

(** The order of keys, and the sorted list of the entries with keys in [P]. *)
Definition blt (a b : bytes) : Prop := bytes_Compare a b < 0.
Definition listing {V} (P : bytes -> Prop) (m : gmap bytes V) (l : list (bytes * V)) : Prop :=
  StronglySorted blt l.*1 /\ forall k v, (k, v) ∈ l <-> m !! k = Some v /\ P k.
Definition in_range (start prefix key : bytes) : Prop := HasPrefix key prefix = true /\ 0 <= bytes_Compare key start.

(** A read that may fail with a fault. *)
Definition answers {A} (r r' : result DbErr A) : Prop := r = r' \/ exists e, r = Err e /\ fault e.

(** A write, which may fail with a fault and no effect; and one to a batch. *)
Definition writes {D} (rep : D -> gmap bytes bytes -> Prop) (r : D * result DbErr unit) (m m' : gmap bytes bytes) : Prop :=
  match r with
  | (d', Ok _) => rep d' m'
  | (d', Err e) => fault e /\ rep d' m
  end.
Definition appends {B} (rep : B -> list BatchOp -> Prop) (r : B * result DbErr unit) (ops ops' : list BatchOp) : Prop :=
  match r with
  | (b', Ok _) => rep b' ops'
  | (b', Err e) => fault e /\ rep b' ops
  end.

Class DatabaseLaws (D : Type) `{Database D} := {
  db_open : D -> gmap bytes bytes -> Prop;
  it_at : Iterator D -> option (bytes * bytes) -> list (bytes * bytes) -> Prop;
  batch_ops : Batch D -> list BatchOp -> Prop;
  has_law d m k : db_open d m -> answers (Has k d) (Ok (bool_decide (is_Some (m !! k))));
  get_law d m k : db_open d m -> answers (Get k d) (match m !! k with Some v => Ok v | None => Err ErrNotFound end);
  put_law d m k v : db_open d m -> writes db_open (Put k v d) m (<[k := v]> m);
  delete_law d m k : db_open d m -> writes db_open (Delete k d) m (delete k m);
  write_law d m b ops : db_open d m -> batch_ops b ops -> writes db_open (b_Write b d) m (apply_ops ops m);
  new_iterator_law d m start prefix : db_open d m ->
    exists l, listing (in_range start prefix) m l /\ it_at (NewIteratorWithStartAndPrefix start prefix d) None l;
  next_law d m it c l : db_open d m -> it_at it c l ->
    match l with
    | [] => exists it', Next d it = (it', false) /\ it_at it' None []
    | x :: l' => exists it', Next d it = (it', true) /\ it_at it' (Some x) l'
    end;
  key_law it k v l : it_at it (Some (k, v)) l -> Key it = k /\ Value it = v;
  error_law it c l : it_at it c l -> Error it = None;
  new_batch_law d m : db_open d m -> batch_ops (NewBatch d) [];
  batch_put_law b ops k v : batch_ops b ops -> appends batch_ops (b_Put k v b) ops (ops ++ [mkOp k v false]);
  batch_delete_law b ops k : batch_ops b ops -> appends batch_ops (b_Delete k b) ops (ops ++ [mkOp k [] true]);
  batch_reset_law b ops : batch_ops b ops -> batch_ops (b_Reset b) [];
  compact_law d m start limit : db_open d m -> writes db_open (Compact start limit d) m m;
  db_closed : D -> Prop;
  close_law d m : db_open d m -> exists d', Close d = (d', Ok tt) /\ db_closed d';
  closed_law d : db_closed d ->
    (forall k, Has k d = Err ErrClosed /\ Get k d = Err ErrClosed) /\
    (forall k v, Put k v d = (d, Err ErrClosed)) /\ (forall k, Delete k d = (d, Err ErrClosed)) /\
    (forall b, b_Write b d = (d, Err ErrClosed)) /\
    (forall start limit, Compact start limit d = (d, Err ErrClosed)) /\ Close d = (d, Err ErrClosed) /\
    (forall start prefix, exists it', Next d (NewIteratorWithStartAndPrefix start prefix d) = (it', false) /\
       Error it' = Some ErrClosed) /\
    (forall it c l, it_at it c l -> exists it', Next d it = (it', false) /\ Error it' = Some ErrClosed);
}.

(** ** Sorted keys *)
Definition ble (a b : bytes) : Prop := bytes_Compare a b <= 0.
#[export] Instance ble_dec a b : Decision (ble a b) := decide (bytes_Compare a b <= 0).
#[export] Instance blt_dec a b : Decision (blt a b) := decide (bytes_Compare a b < 0).
#[export] Instance in_range_dec start prefix key : Decision (in_range start prefix key).
Proof. unfold in_range. apply _. Defined.

(** The keys of a map that an iterator lists: the [range] loop with its filter and
    [slices.Sort]. *)
Definition sorted_keys `{!KeyOrder bytes} {V} (start prefix : bytes) (m : gmap bytes V) : list bytes :=
  merge_sort ble (filter (in_range start prefix) (entries m).*1).

#[export] Instance blt_trans : Transitive blt.
Proof. intros a b c. apply bytes_Compare_trans. Qed.
Lemma blt_irrefl a : ~ blt a a.
Proof. unfold blt. assert (bytes_Compare a a = 0) as -> by by apply bytes_Compare_eq. lia. Qed.
Lemma blt_asym a b : blt a b -> ~ blt b a.
Proof. intros Hab Hba. by apply (blt_irrefl a), (blt_trans _ b). Qed.

Lemma bytes_Compare_opp a b : bytes_Compare b a = - bytes_Compare a b.
Proof.
  revert b. induction a as [|x a IH]; intros [|y b]; cbn; try done.
  destruct (Z.ltb_spec x y), (Z.ltb_spec y x); try lia. apply IH.
Qed.
Lemma ble_lt_eq a b : ble a b <-> blt a b \/ a = b.
Proof. unfold ble, blt. rewrite <- bytes_Compare_eq. lia. Qed.
Lemma blt_trichotomy a b : blt a b \/ a = b \/ blt b a.
Proof. unfold blt. rewrite <- bytes_Compare_eq, (bytes_Compare_opp a b). lia. Qed.
#[export] Instance ble_total : Total ble.
Proof. intros a b. unfold ble. rewrite (bytes_Compare_opp a b). lia. Qed.
#[export] Instance ble_trans : Transitive ble.
Proof.
  intros a b c. rewrite !ble_lt_eq. intros [Ha| ->] [Hb| ->]; [left; by apply (blt_trans _ b)|by left..|by right].
Qed.

Lemma ble_sorted_blt l : StronglySorted ble l -> NoDup l -> StronglySorted blt l.
Proof.
  induction 1 as [|x l _ IH Hx]; intros Hnd; [constructor|]. apply NoDup_cons in Hnd as [Hni Hnd].
  constructor; [by apply IH|]. rewrite Forall_forall in *. intros y Hy.
  destruct (proj1 (ble_lt_eq x y) (Hx y Hy)) as [Hl| ->]; [done|done].
Qed.

Lemma sorted_keys_sorted `{!KeyOrder bytes} {V} (start prefix : bytes) (m : gmap bytes V) :
  StronglySorted blt (sorted_keys start prefix m).
Proof.
  apply ble_sorted_blt; [apply StronglySorted_merge_sort; apply _|].
  unfold sorted_keys. rewrite merge_sort_Permutation. apply NoDup_filter, entries_keys_nodup.
Qed.
Lemma elem_of_sorted_keys `{!KeyOrder bytes} {V} (start prefix : bytes) (m : gmap bytes V) k :
  k ∈ sorted_keys start prefix m <-> is_Some (m !! k) /\ in_range start prefix k.
Proof.
  unfold sorted_keys. rewrite merge_sort_Permutation, list_elem_of_filter, list_elem_of_fmap.
  split.
  - intros (Hr & [k' v] & -> & Hin). apply elem_of_entries in Hin. split; [by eexists|done].
  - intros [[v Hv] Hr]. split; [done|]. exists (k, v). split; [done|]. by apply elem_of_entries.
Qed.

(** The keys with their values. *)
Definition with_values {V} (d : V) (m : gmap bytes V) (l : list bytes) : list (bytes * V) :=
  zip l ((fun k => default d (m !! k)) <$> l).
Lemma with_values_fst {V} (d : V) m l : (with_values d m l).*1 = l.
Proof. unfold with_values. induction l; cbn; f_equal; done. Qed.
Lemma elem_of_with_values {V} (d : V) m l k v : (k, v) ∈ with_values d m l <-> k ∈ l /\ v = default d (m !! k).
Proof.
  unfold with_values. induction l as [|x l IH]; cbn; [set_solver|]. rewrite !elem_of_cons, IH. naive_solver.
Qed.
Lemma sorted_keys_listing `{!KeyOrder bytes} {V} (d : V) (start prefix : bytes) m :
  listing (in_range start prefix) m (with_values d m (sorted_keys start prefix m)).
Proof.
  split; [rewrite with_values_fst; apply sorted_keys_sorted|]. intros k v.
  rewrite elem_of_with_values, elem_of_sorted_keys. split.
  - intros [[[w Hw] Hr] ->]. by rewrite Hw.
  - intros [Hv Hr]. rewrite Hv. split; [|done]. split; [by eexists|done].
Qed.

(** A listing is determined by the map. *)
Lemma listing_nodup {V} (P : bytes -> Prop) (m : gmap bytes V) l : listing P m l -> NoDup l.
Proof.
  intros [Hs _]. apply (NoDup_fmap_1 fst). induction Hs as [|x l' _ IH Hx]; constructor; [|done].
  intros Hin. rewrite Forall_forall in Hx. by apply (blt_irrefl x), Hx.
Qed.
Lemma sorted_unique {V} (l1 l2 : list (bytes * V)) : StronglySorted blt l1.*1 -> StronglySorted blt l2.*1 ->
  (forall x, x ∈ l1 <-> x ∈ l2) -> l1 = l2.
Proof.
  revert l2. induction l1 as [|x l1 IH]; intros l2 Hs1 Hs2 Heq.
  { destruct l2 as [|y l2]; [done|]. exfalso. apply (not_elem_of_nil (A:=bytes * V) y), Heq. by left. }
  destruct l2 as [|y l2]; [exfalso; apply (not_elem_of_nil (A:=bytes * V) x), Heq; by left|].
  apply StronglySorted_inv in Hs1 as [Hs1 Hx]. apply StronglySorted_inv in Hs2 as [Hs2 Hy].
  rewrite Forall_forall in Hx, Hy.
  assert (forall z, z ∈ l1 -> blt x.1 z.1) as Hx' by (intros z Hz; apply Hx; by apply list_elem_of_fmap_2).
  assert (forall z, z ∈ l2 -> blt y.1 z.1) as Hy' by (intros z Hz; apply Hy; by apply list_elem_of_fmap_2).
  assert (x = y) as ->.
  { destruct (proj1 (elem_of_cons _ _ _) (proj1 (Heq x) ltac:(by left))) as [->|Hxl]; [done|].
    destruct (proj1 (elem_of_cons _ _ _) (proj2 (Heq y) ltac:(by left))) as [->|Hyl]; [done|].
    exfalso. by apply (blt_asym x.1 y.1); [apply Hx'|apply Hy']. }
  f_equal. apply IH; [done..|]. intros z. specialize (Heq z). rewrite !elem_of_cons in Heq.
  split; intros Hz.
  - destruct (proj1 Heq (or_intror Hz)) as [->|]; [|done]. exfalso. by apply (blt_irrefl y.1), Hx'.
  - destruct (proj2 Heq (or_intror Hz)) as [->|]; [|done]. exfalso. by apply (blt_irrefl y.1), Hy'.
Qed.
Lemma listing_unique {V} (P : bytes -> Prop) (m : gmap bytes V) l1 l2 : listing P m l1 -> listing P m l2 -> l1 = l2.
Proof. intros [Hs1 H1] [Hs2 H2]. apply sorted_unique; [done..|]. intros [k v]. by rewrite H1, H2. Qed.

(** ** Packed integers *)
Lemma parse_pack v : is_u64 v -> ParseUInt64 (PackUInt64 v) = Ok v.
Proof.
  intros Hv. unfold ParseUInt64, PackUInt64. rewrite (BigEndian.length_put 8 v). cbn [Nat.eqb negb].
  pose proof (BigEndian.get_put 8 v [] Hv (List.Forall_nil _)) as Hg. by rewrite app_nil_r in Hg; rewrite Hg.
Qed.
Lemma pack_inj v v' : is_u64 v -> is_u64 v' -> PackUInt64 v = PackUInt64 v' -> v = v'.
Proof. intros Hv Hv' Heq. pose proof (parse_pack v Hv) as Hp. rewrite Heq, parse_pack in Hp by done. by injection Hp. Qed.

(** Packed integers are ordered like the integers. *)
Lemma be_value_cons b bs : BigEndian.be_value 0 (b :: bs) = b * 256 ^ Z.of_nat (length bs) + BigEndian.be_value 0 bs.
Proof.
  change (BigEndian.be_value 0 (b :: bs)) with (BigEndian.be_value (0 * 256 + b) bs). by rewrite BigEndian.be_value_acc.
Qed.
Lemma compare_be_value a b : Forall BigEndian.is_byte a -> Forall BigEndian.is_byte b -> length a = length b ->
  (bytes_Compare a b < 0 <-> BigEndian.be_value 0 a < BigEndian.be_value 0 b).
Proof.
  revert b. induction a as [|x a IH]; intros [|y b] Ha Hb Hlen; try done.
  apply Forall_cons in Ha as [Hx Ha]. apply Forall_cons in Hb as [Hy Hb]. injection Hlen as Hlen.
  rewrite !be_value_cons, Hlen. pose proof (BigEndian.be_value_bound a Ha) as B1. pose proof (BigEndian.be_value_bound b Hb) as B2.
  rewrite Hlen in B1. cbn [bytes_Compare]. set (p := 256 ^ Z.of_nat (length b)) in *.
  destruct (Z.ltb_spec x y); [split; [intros _; nia|lia]|]. destruct (Z.ltb_spec y x); [split; [lia|intros Hlt; nia]|].
  assert (x = y) as -> by lia. rewrite (IH b Ha Hb Hlen). lia.
Qed.
Lemma pack_order v v' : is_u64 v -> is_u64 v' -> (blt (PackUInt64 v) (PackUInt64 v') <-> v < v').
Proof.
  intros Hv Hv'. unfold blt, PackUInt64. rewrite compare_be_value; [|apply BigEndian.put_bytes..|by rewrite !BigEndian.length_put].
  rewrite !BigEndian.put_value by (apply Hv || apply Hv'). unfold is_uint in *. rewrite !Z.mod_small by (cbn; lia). done.
Qed.
Lemma key_order p v v' : is_u64 v -> is_u64 v' -> (blt (p ++ PackUInt64 v) (p ++ PackUInt64 v') <-> v < v').
Proof.
  intros Hv Hv'. rewrite <- pack_order by done. unfold blt. induction p as [|x p IH]; [done|]. cbn. by rewrite Z.ltb_irrefl.
Qed.

(** ** Clients of an iterator *)
Section client.
Context `{DatabaseLaws D}.

(** [for it.Next() { ... it.Key() ... it.Value() ... }] *)
Fixpoint collect (fuel : nat) (d : D) (it : Iterator D) : list (bytes * bytes) :=
  match fuel with
  | O => []
  | S fuel =>
      let '(it, more) := Next d it in
      if more then (Key it, Value it) :: collect fuel d it else []
  end.

Lemma collect_spec d m it c l fuel : db_open d m -> it_at it c l -> (length l < fuel)%nat -> collect fuel d it = l.
Proof.
  revert it c l. induction fuel as [|fuel IH]; intros it c l Hd Hit Hf; [lia|]. cbn.
  pose proof (next_law d m it c l Hd Hit) as Hn. destruct l as [|[k v] l].
  - destruct Hn as (it' & -> & _). done.
  - destruct Hn as (it' & -> & Hit'). destruct (key_law _ _ _ _ Hit') as [-> ->]. f_equal.
    apply (IH it' (Some (k, v))); [done..|]. cbn in Hf. lia.
Qed.
End client.
End Database.
