(* ===== verification/Memdb.v ===== *)
(** * The database in memory
    Models [avalanchego/database/memdb/db.go]: the map of a [Database], which is nil
    once it is closed, its batches and its iterators, and proves that it keeps the
    contract of a database without ever reporting a fault. *)
From Stdlib Require Import Sorting.Sorted.
From stdpp Require Import sorting.
From S2P Require Import Prelude Monads Sorting MapOrder Database.

Module Memdb.
Import Sorting Database.

Record Memdb := mkMemdb { db : option (gmap bytes bytes) }.

Inductive m_Iterator :=
  | IteratorError (e : DbErr)
  | mkIter (initialized : bool) (keys : list bytes) (values : list bytes) (err : option DbErr).

Section memdb.
Context `{!KeyOrder bytes}.

Definition New : Memdb := mkMemdb (Some ∅).

Definition m_Close : M Memdb DbErr unit :=
  d ← get;
  match db d with
  | None => fail ErrClosed
  | Some _ => modify (fun _ => mkMemdb None)
  end.

Definition m_Compact (start : bytes) (limit : option bytes) : M Memdb DbErr unit :=
  d ← get;
  match db d with
  | None => fail ErrClosed
  | Some _ => mret tt
  end.

Definition isClosed (d : Memdb) : bool := match db d with None => true | Some _ => false end.

Definition m_Has (key : bytes) (d : Memdb) : result DbErr bool :=
  match db d with
  | None => Err ErrClosed
  | Some m => Ok (match m !! key with Some _ => true | None => false end)
  end.

Definition m_Get (key : bytes) (d : Memdb) : result DbErr bytes :=
  match db d with
  | None => Err ErrClosed
  | Some m => match m !! key with Some entry => Ok entry | None => Err ErrNotFound end
  end.

Definition m_Put (key value : bytes) : M Memdb DbErr unit :=
  d ← get;
  match db d with
  | None => fail ErrClosed
  | Some m => modify (fun _ => mkMemdb (Some (<[key := value]> m)))
  end.

Definition m_Delete (key : bytes) : M Memdb DbErr unit :=
  d ← get;
  match db d with
  | None => fail ErrClosed
  | Some m => modify (fun _ => mkMemdb (Some (delete key m)))
  end.

Definition m_NewIteratorWithStartAndPrefix (start prefix : bytes) (d : Memdb) : m_Iterator :=
  match db d with
  | None => IteratorError ErrClosed
  | Some m =>
      let keys := sorted_keys start prefix m in
      mkIter false keys ((fun key => default [] (m !! key)) <$> keys) None
  end.

(** [batch.Write] *)
Fixpoint write_ops (ops : list BatchOp) (m : gmap bytes bytes) : gmap bytes bytes :=
  match ops with
  | [] => m
  | op :: ops =>
      write_ops ops (if op_Delete op then delete (op_Key op) m else <[op_Key op := op_Value op]> m)
  end.
Definition m_Write (b : BatchOps) : M Memdb DbErr unit :=
  d ← get;
  match db d with
  | None => fail ErrClosed
  | Some m => modify (fun _ => mkMemdb (Some (write_ops (Ops b) m)))
  end.

(** ** Iterators *)
Definition nonempty {A} (l : list A) : bool := match l with [] => false | _ => true end.

Definition m_Next (d : Memdb) (it : m_Iterator) : m_Iterator * bool :=
  match it with
  | IteratorError e => (IteratorError e, false)
  | mkIter initialized keys values err =>
      if isClosed d then (mkIter initialized [] [] (Some ErrClosed), false)
      else if negb initialized then (mkIter true keys values err, nonempty keys)
      else
        let keys' := tail keys in
        let values' := if nonempty keys then tail values else values in
        (mkIter true keys' values' err, nonempty keys')
  end.

Definition m_Error (it : m_Iterator) : option DbErr :=
  match it with IteratorError e => Some e | mkIter _ _ _ err => err end.
Definition m_Key (it : m_Iterator) : bytes :=
  match it with mkIter _ (key :: _) _ _ => key | _ => [] end.
Definition m_Value (it : m_Iterator) : bytes :=
  match it with mkIter _ _ (value :: _) _ => value | _ => [] end.
Definition m_Release (it : m_Iterator) : m_Iterator :=
  match it with IteratorError e => IteratorError e | mkIter i _ _ err => mkIter i [] [] err end.

#[export] Instance memdb_database : Database Memdb := {|
  Iterator := m_Iterator;
  Batch := BatchOps;
  Has := m_Has;
  Get := m_Get;
  Put := m_Put;
  Delete := m_Delete;
  NewIteratorWithStartAndPrefix := m_NewIteratorWithStartAndPrefix;
  Next := m_Next;
  Key := m_Key;
  Value := m_Value;
  Error := m_Error;
  Release := m_Release;
  NewBatch d := new_ops;
  b_Put key value b := (Ops_Put key value b, Ok tt);
  b_Delete key b := (Ops_Delete key b, Ok tt);
  b_Size := size;
  b_Reset := Ops_Reset;
  b_Write := m_Write;
  Compact := m_Compact;
  Close := m_Close;
|}.

(** ** The contract *)
Definition m_open (d : Memdb) (m : gmap bytes bytes) : Prop := db d = Some m.

Definition m_at (it : m_Iterator) (c : option (bytes * bytes)) (l : list (bytes * bytes)) : Prop :=
  match it with
  | IteratorError _ => False
  | mkIter initialized keys values err =>
      err = None /\ length keys = length values /\
      if initialized then
        match c with
        | None => keys = [] /\ l = []
        | Some kv => zip keys values = kv :: l
        end
      else c = None /\ zip keys values = l
  end.

Lemma write_ops_apply ops m : write_ops ops m = apply_ops ops m.
Proof. revert m. induction ops as [|op ops IH]; intros m; [done|]. apply IH. Qed.

Lemma memdb_next d m it c l : m_open d m -> m_at it c l ->
  match l with
  | [] => exists it', m_Next d it = (it', false) /\ m_at it' None []
  | x :: l' => exists it', m_Next d it = (it', true) /\ m_at it' (Some x) l'
  end.
Proof.
  unfold m_open. intros Hd Hat. destruct it as [|ini keys values err]; [done|]. cbn in Hat.
  destruct Hat as (-> & Hlen & Hat). unfold m_Next, isClosed. rewrite Hd. destruct ini; cbn [negb].
  - destruct c as [kv|].
    + destruct keys as [|k keys], values as [|v values]; try done. cbn in Hat. injection Hat as <- <-.
      cbn in Hlen. injection Hlen as Hlen. cbn [tail nonempty].
      destruct keys as [|k' keys], values as [|v' values]; try done; cbn; eexists; split; done.
    + destruct Hat as [-> ->]. destruct values; [|done]. eexists. split; done.
  - destruct Hat as [-> <-]. destruct keys as [|k' keys], values as [|v' values]; try done; cbn; eexists; split; done.
Qed.

#[export] Program Instance memdb_laws : DatabaseLaws Memdb := {|
  db_open := m_open;
  it_at := m_at;
  batch_ops b ops := Ops b = ops;
  db_closed d := db d = None;
|}.
Next Obligation. intros d m k Hd. left. cbn. unfold m_Has. rewrite Hd. by destruct (m !! k). Qed.
Next Obligation. intros d m k Hd. left. cbn. unfold m_Get. rewrite Hd. by destruct (m !! k). Qed.
Next Obligation. intros d m k v Hd. cbn. unfold m_Put, mbind, M_bind, get. by rewrite Hd. Qed.
Next Obligation. intros d m k Hd. cbn. unfold m_Delete, mbind, M_bind, get. by rewrite Hd. Qed.
Next Obligation.
  intros d m b ops Hd <-. cbn. unfold m_Write, mbind, M_bind, get. rewrite Hd. cbn. by rewrite write_ops_apply.
Qed.
Next Obligation.
  intros d m start prefix Hd. cbn. unfold m_NewIteratorWithStartAndPrefix. rewrite Hd. eexists.
  split; [apply (sorted_keys_listing [])|]. cbn. by rewrite length_fmap.
Qed.
Next Obligation. exact memdb_next. Qed.
Next Obligation.
  intros [|[] [|k' keys] [|v' values] err] k v l Hat; cbn in *; naive_solver.
Qed.
Next Obligation. intros [|ini keys values err] c l Hat; cbn in *; naive_solver. Qed.
Next Obligation. done. Qed.
Next Obligation. by intros b ops k v <-. Qed.
Next Obligation. by intros b ops k <-. Qed.
Next Obligation. done. Qed.
Next Obligation. intros d m start limit Hd. cbn. unfold m_Compact, mbind, M_bind, get. by rewrite Hd. Qed.
Next Obligation. intros d m Hd. eexists. cbn. unfold m_Close, mbind, M_bind, get. rewrite Hd. split; done. Qed.
Next Obligation.
  intros [db] Hd. cbn in *. subst. split_and!; try done.
  - intros start prefix. eexists. split; done.
  - intros [|ini keys values err] c l Hat; [done|]. eexists. split; done.
Qed.
End memdb.
End Memdb.
