(* ===== verification/Versiondb.v ===== *)
(** * The database of uncommitted changes
    Models [avalanchego/database/versiondb/db.go]: a database that keeps its writes
    in memory, over the map of changes [mem], until [Commit] writes them to the
    underlying database in one batch.  It keeps the contract of a database over any
    underlying one that does, iterators that merge the changes with the underlying
    keys included. *)
From Stdlib Require Import Sorting.Sorted.
From stdpp Require Import sorting.
From S2P Require Import Prelude Monads Sorting MapOrder Database Memdb.

Module Versiondb.
Import Sorting Database.

Record valueDelete := mkVD { vd_value : bytes; vd_delete : bool }.
#[export] Instance valueDelete_eq_dec : EqDecision valueDelete.
Proof. solve_decision. Defined.

Section versiondb.
Context `{DatabaseLaws D} `{!KeyOrder bytes}.

(** Nil fields are [None]. *)
Record Versiondb := mkVersiondb {
  mem : option (gmap bytes valueDelete);
  db : option D;
  batch : option (Batch D);
}.

Definition New (d : D) : Versiondb := mkVersiondb (Some ∅) (Some d) (Some (NewBatch d)).

Definition set_mem (m : gmap bytes valueDelete) (s : Versiondb) : Versiondb := mkVersiondb (Some m) (db s) (batch s).

(** Calls of the underlying database and of the batch. *)
Definition on_db {A} (m : M D DbErr A) : M Versiondb DbErr A := fun s =>
  match db s with
  | None => (s, Err Panic)
  | Some d => let '(d, r) := m d in (mkVersiondb (mem s) (Some d) (batch s), r)
  end.
Definition on_batch {A} (m : M (Batch D) DbErr A) : M Versiondb DbErr A := fun s =>
  match batch s with
  | None => (s, Err Panic)
  | Some b => let '(b, r) := m b in (mkVersiondb (mem s) (db s) (Some b), r)
  end.
(** [if db.mem == nil { return ErrClosed }] *)
Definition with_mem {A} (f : gmap bytes valueDelete -> M Versiondb DbErr A) : M Versiondb DbErr A :=
  s ← get; match mem s with None => fail ErrClosed | Some m => f m end.

Definition v_Has (key : bytes) (s : Versiondb) : result DbErr bool :=
  match mem s with
  | None => Err ErrClosed
  | Some m =>
      match m !! key with
      | Some val => Ok (negb (vd_delete val))
      | None => match db s with Some d => Has key d | None => Err Panic end
      end
  end.

Definition v_Get (key : bytes) (s : Versiondb) : result DbErr bytes :=
  match mem s with
  | None => Err ErrClosed
  | Some m =>
      match m !! key with
      | Some val => if vd_delete val then Err ErrNotFound else Ok (vd_value val)
      | None => match db s with Some d => Get key d | None => Err Panic end
      end
  end.

Definition v_Put (key value : bytes) : M Versiondb DbErr unit :=
  with_mem (fun m => modify (set_mem (<[key := mkVD value false]> m))).
Definition v_Delete (key : bytes) : M Versiondb DbErr unit :=
  with_mem (fun m => modify (set_mem (<[key := mkVD [] true]> m))).

Definition v_Compact (start : bytes) (limit : option bytes) : M Versiondb DbErr unit :=
  with_mem (fun _ => on_db (Compact start limit)).

(** [SetDatabase] *)
Definition SetDatabase (newDB : D) : M Versiondb DbErr unit :=
  with_mem (fun m => modify (fun _ => mkVersiondb (Some m) (Some newDB) (Some (NewBatch newDB)))).
Definition GetDatabase (s : Versiondb) : option D := db s.

Definition abort : M Versiondb DbErr unit :=
  modify (fun s => mkVersiondb ((fun _ => ∅) <$> mem s) (db s) (batch s)).
Definition Abort : M Versiondb DbErr unit := abort.

(** [commitBatch]: [for key, value := range db.mem] in the order of the runtime. *)
Definition commitBatch : M Versiondb DbErr (Batch D) :=
  with_mem (fun m =>
    on_batch (modify b_Reset);;
    foldM (fun _ '(key, value) =>
      on_batch (if vd_delete value then b_Delete key else b_Put key (vd_value value))) (entries m) tt;;
    s ← get;
    must Panic (batch s)).
Definition CommitBatch : M Versiondb DbErr (Batch D) := commitBatch.

Definition Commit : M Versiondb DbErr unit :=
  b ← commitBatch;
  on_db (b_Write b);;
  on_batch (modify b_Reset);;
  abort.

Definition v_Close : M Versiondb DbErr unit :=
  with_mem (fun _ => modify (fun _ => mkVersiondb None None None)).
Definition isClosed (s : Versiondb) : bool := match db s with None => true | Some _ => false end.

(** [batch.Write] *)
Definition v_Write (b : BatchOps) : M Versiondb DbErr unit :=
  with_mem (fun m => modify (set_mem
    (foldl (fun m op => <[op_Key op := mkVD (op_Value op) (op_Delete op)]> m) m (Ops b)))).

(** ** Iterators *)
Inductive v_Iterator :=
  | IteratorError (e : DbErr)
  | mkIter (inner : Iterator D) (key value : bytes) (err : option DbErr)
      (keys : list bytes) (values : list valueDelete) (initialized exhausted : bool).

Definition v_NewIteratorWithStartAndPrefix (start prefix : bytes) (s : Versiondb) : v_Iterator :=
  match mem s, db s with
  | None, _ => IteratorError ErrClosed
  | Some m, Some d =>
      let keys := sorted_keys start prefix m in
      mkIter (NewIteratorWithStartAndPrefix start prefix d) [] [] None keys
        ((fun key => default (mkVD [] false) (m !! key)) <$> keys) false false
  | Some _, None => IteratorError Panic
  end.

(** The loop of [Next], which removes the first of [keys] in every turn but the
    last. *)
Fixpoint next_loop (d : D) (inner : Iterator D) (err : option DbErr) (exhausted : bool)
    (keys : list bytes) (values : list valueDelete) : v_Iterator * bool :=
  match keys with
  | [] =>
      if exhausted then (mkIter inner [] [] err [] values true true, false)
      else
        let '(inner', more) := Next d inner in
        (mkIter inner' (Key inner) (Value inner) err [] values true (negb more), true)
  | memKey :: keys' =>
      let memValue := hd (mkVD [] false) values in
      let values' := tail values in
      if exhausted then
        if vd_delete memValue then next_loop d inner err true keys' values'
        else (mkIter inner memKey (vd_value memValue) err keys' values' true true, true)
      else
        let dbKey := Key inner in
        let c := bytes_Compare memKey dbKey in
        if c <? 0 then
          if vd_delete memValue then next_loop d inner err false keys' values'
          else (mkIter inner memKey (vd_value memValue) err keys' values' true false, true)
        else if 0 <? c then
          let '(inner', more) := Next d inner in
          (mkIter inner' dbKey (Value inner) err keys values true (negb more), true)
        else
          let '(inner', more) := Next d inner in
          if vd_delete memValue then next_loop d inner' err (negb more) keys' values'
          else (mkIter inner' memKey (vd_value memValue) err keys' values' true (negb more), true)
  end.

Definition v_Next (s : Versiondb) (it : v_Iterator) : v_Iterator * bool :=
  match it with
  | IteratorError e => (IteratorError e, false)
  | mkIter inner key value err keys values initialized exhausted =>
      match db s with
      | None => (mkIter inner [] [] (Some ErrClosed) keys values initialized exhausted, false)
      | Some d =>
          if initialized then next_loop d inner err exhausted keys values
          else
            let '(inner, more) := Next d inner in
            next_loop d inner err (negb more) keys values
      end
  end.

Definition v_Error (it : v_Iterator) : option DbErr :=
  match it with
  | IteratorError e => Some e
  | mkIter inner _ _ err _ _ _ _ => match err with Some e => Some e | None => Error inner end
  end.
Definition v_Key (it : v_Iterator) : bytes :=
  match it with mkIter _ key _ _ _ _ _ _ => key | IteratorError _ => [] end.
Definition v_Value (it : v_Iterator) : bytes :=
  match it with mkIter _ _ value _ _ _ _ _ => value | IteratorError _ => [] end.
Definition v_Release (it : v_Iterator) : v_Iterator :=
  match it with
  | IteratorError e => IteratorError e
  | mkIter inner _ _ err _ _ i x => mkIter (Release inner) [] [] err [] [] i x
  end.

#[export] Instance versiondb_database : Database Versiondb := {|
  Iterator := v_Iterator;
  Batch := BatchOps;
  Has := v_Has;
  Get := v_Get;
  Put := v_Put;
  Delete := v_Delete;
  NewIteratorWithStartAndPrefix := v_NewIteratorWithStartAndPrefix;
  Next := v_Next;
  Key := v_Key;
  Value := v_Value;
  Error := v_Error;
  Release := v_Release;
  NewBatch s := new_ops;
  b_Put key value b := (Ops_Put key value b, Ok tt);
  b_Delete key b := (Ops_Delete key b, Ok tt);
  b_Size := size;
  b_Reset := Ops_Reset;
  b_Write := v_Write;
  Compact := v_Compact;
  Close := v_Close;
|}.
End versiondb.
End Versiondb.
