(* ===== verification/VersiondbFacts.v ===== *)
(** * The database of uncommitted changes is a database
    The contract of [Versiondb]: its iterators merge two sorted sequences, its
    contents are the changes laid over the underlying contents, and a run of its
    operations is a transaction on the underlying database. *)
From Stdlib Require Import Sorting.Sorted.
From stdpp Require Import sorting.
From S2P Require Import Prelude Monads Sorting MapOrder Database Memdb Versiondb.

Module VersiondbFacts.
Import Sorting Database Versiondb.

(** ** The changes laid over the contents *)
Definition live (c : valueDelete) : option bytes := if vd_delete c then None else Some (vd_value c).
Definition overlay (mm : gmap bytes valueDelete) (base : gmap bytes bytes) : gmap bytes bytes :=
  stdpp.base.merge (fun c v => match c with Some c => live c | None => v end) mm base.

Lemma lookup_overlay mm base k :
  overlay mm base !! k = match mm !! k with Some c => live c | None => base !! k end.
Proof. unfold overlay. rewrite lookup_merge. by destruct (mm !! k), (base !! k). Qed.
Lemma overlay_empty base : overlay ∅ base = base.
Proof. apply map_eq. intros k. by rewrite lookup_overlay, lookup_empty. Qed.
Lemma overlay_insert mm base k c :
  overlay (<[k := c]> mm) base = (if vd_delete c then delete k (overlay mm base) else <[k := vd_value c]> (overlay mm base)).
Proof.
  apply map_eq. intros k'. rewrite lookup_overlay. destruct (decide (k' = k)) as [->|Hne].
  - rewrite lookup_insert_eq. unfold live. destruct (vd_delete c); by rewrite ?lookup_delete_eq, ?lookup_insert_eq.
  - rewrite lookup_insert_ne by done.
    destruct (vd_delete c); rewrite ?lookup_delete_ne, ?lookup_insert_ne, lookup_overlay by done; done.
Qed.

(** The batch of [commitBatch]. *)
Definition change_op (x : bytes * valueDelete) : BatchOp :=
  if vd_delete x.2 then mkOp x.1 [] true else mkOp x.1 (vd_value x.2) false.

Lemma apply_changes_lookup l base k : NoDup l.*1 ->
  apply_ops (change_op <$> l) base !! k = match list_to_map (M := gmap bytes valueDelete) l !! k with Some c => live c | None => base !! k end.
Proof.
  revert base. induction l as [|[k' c] l IH]; intros base Hnd; [done|]. cbn in Hnd. apply NoDup_cons in Hnd as [Hni Hnd].
  cbn [fmap list_fmap apply_ops foldl]. fold (apply_ops (change_op <$> l) (apply_op base (change_op (k', c)))).
  rewrite IH by done. cbn [list_to_map foldr uncurry fst snd]. destruct (decide (k = k')) as [->|Hne].
  - rewrite not_elem_of_list_to_map_1, lookup_insert_eq by done. unfold apply_op, change_op, live. cbn.
    destruct (vd_delete c); cbn; by rewrite ?lookup_delete_eq, ?lookup_insert_eq.
  - rewrite lookup_insert_ne by done. destruct (list_to_map l !! k); [done|].
    unfold apply_op, change_op. cbn. destruct (vd_delete c); cbn; by rewrite ?lookup_delete_ne, ?lookup_insert_ne.
Qed.
Lemma apply_changes `{!KeyOrder bytes} mm base : apply_ops (change_op <$> entries mm) base = overlay mm base.
Proof.
  apply map_eq. intros k. rewrite apply_changes_lookup, lookup_overlay by apply entries_keys_nodup.
  by rewrite (list_to_map_proper (entries mm) (map_to_list mm)), list_to_map_to_list by (apply entries_keys_nodup || apply entries_perm).
Qed.

(** ** Merging *)
Fixpoint merge_changes (cs : list (bytes * valueDelete)) : list (bytes * bytes) -> list (bytes * bytes) :=
  match cs with
  | [] => fun r => r
  | (k, c) :: cs =>
      let emit rest := if vd_delete c then rest else (k, vd_value c) :: rest in
      fix go r :=
        match r with
        | [] => emit (merge_changes cs [])
        | (k', v) :: r' =>
            if bytes_Compare k k' <? 0 then emit (merge_changes cs r)
            else if 0 <? bytes_Compare k k' then (k', v) :: go r'
            else emit (merge_changes cs r')
        end
  end.

Lemma merge_changes_cons k c cs k' v r :
  merge_changes ((k, c) :: cs) ((k', v) :: r) =
    let emit rest := if vd_delete c then rest else (k, vd_value c) :: rest in
    if bytes_Compare k k' <? 0 then emit (merge_changes cs ((k', v) :: r))
    else if 0 <? bytes_Compare k k' then (k', v) :: merge_changes ((k, c) :: cs) r
    else emit (merge_changes cs r).
Proof. done. Qed.
Lemma merge_changes_nil k c cs :
  merge_changes ((k, c) :: cs) [] = if vd_delete c then merge_changes cs [] else (k, vd_value c) :: merge_changes cs [].
Proof. done. Qed.

Definition above {V} (k : bytes) (l : list (bytes * V)) : Prop := Forall (blt k) l.*1.
Lemma above_cons {V} k k' (v : V) l : above k ((k', v) :: l) <-> blt k k' /\ above k l.
Proof. apply Forall_cons. Qed.
Lemma above_trans {V} k k' (l : list (bytes * V)) : blt k k' -> above k' l -> above k l.
Proof. intros Hk Hl. apply (Forall_impl _ _ _ Hl). intros x. by apply blt_trans. Qed.
Lemma above_not_in {V} k (v : V) l : above k l -> (k, v) ∉ l.
Proof.
  intros Ha Hin. unfold above in Ha. rewrite Forall_forall in Ha. apply (blt_irrefl k), Ha.
  by apply (list_elem_of_fmap_2 fst _ _ Hin).
Qed.
Lemma above_not_key {V} k (l : list (bytes * V)) : above k l -> k ∉ l.*1.
Proof. unfold above. rewrite Forall_forall. intros Ha Hin. by apply (blt_irrefl k), Ha. Qed.

Lemma merge_changes_above k cs r : above k cs -> above k r -> above k (merge_changes cs r).
Proof.
  revert r. induction cs as [|[k1 c] cs IHc]; intros r Hcs Hr; [done|]. apply above_cons in Hcs as [Hk1 Hcs].
  assert (forall r, above k r -> above k (if vd_delete c then merge_changes cs r else (k1, vd_value c) :: merge_changes cs r)) as Hemit.
  { intros r' Hr'. destruct (vd_delete c); [|apply above_cons; split; [done|]]; by apply IHc. }
  induction r as [|[k2 v] r IHr]; [by apply Hemit|]. rewrite merge_changes_cons. cbv zeta.
  pose proof Hr as [Hk2 Hr']%above_cons. destruct (bytes_Compare k1 k2 <? 0); [by apply Hemit|].
  destruct (0 <? bytes_Compare k1 k2); [|by apply Hemit].
  apply above_cons. split; [done|]. by apply IHr.
Qed.

Lemma merge_changes_sorted cs r : StronglySorted blt cs.*1 -> StronglySorted blt r.*1 ->
  StronglySorted blt (merge_changes cs r).*1.
Proof.
  revert r. induction cs as [|[k c] cs IHc]; intros r Hcs Hr; [done|].
  cbn in Hcs. apply StronglySorted_inv in Hcs as [Hcs Hk].
  assert (forall r, StronglySorted blt r.*1 -> above k r ->
    StronglySorted blt (if vd_delete c then merge_changes cs r else (k, vd_value c) :: merge_changes cs r).*1) as Hemit.
  { intros r' Hr' Ha. destruct (vd_delete c); [by apply IHc|]. cbn. apply SSorted_cons; [by apply IHc|].
    by apply merge_changes_above. }
  induction r as [|[k2 v] r IHr]; [apply Hemit; [done|constructor]|]. rewrite merge_changes_cons. cbv zeta.
  cbn in Hr. pose proof Hr as [Hr' Hk2]%StronglySorted_inv.
  destruct (Z.ltb_spec (bytes_Compare k k2) 0) as [Hlt|Hge].
  { apply Hemit; [done|]. apply above_cons. split; [done|]. by apply (above_trans k k2). }
  destruct (Z.ltb_spec 0 (bytes_Compare k k2)) as [Hgt|Heq].
  - rewrite fmap_cons. cbn [fst]. apply SSorted_cons; [by apply IHr|]. assert (blt k2 k) by (unfold blt; rewrite bytes_Compare_opp; lia).
    apply merge_changes_above; [|done]. apply above_cons. split; [done|]. by apply (above_trans k2 k).
  - assert (k = k2) as -> by (apply bytes_Compare_eq; lia). by apply Hemit.
Qed.

Lemma elem_of_merge_changes cs r k v : StronglySorted blt cs.*1 -> StronglySorted blt r.*1 ->
  ((k, v) ∈ merge_changes cs r <-> (exists c, (k, c) ∈ cs /\ live c = Some v) \/ (k ∉ cs.*1 /\ (k, v) ∈ r)).
Proof.
  revert r. induction cs as [|[k1 c] cs IHc]; intros r Hcs Hr; [cbn; set_solver|].
  cbn in Hcs. apply StronglySorted_inv in Hcs as [Hcs Hk1].
  assert (forall r, StronglySorted blt r.*1 -> above k1 r ->
    ((k, v) ∈ (if vd_delete c then merge_changes cs r else (k1, vd_value c) :: merge_changes cs r) <->
     (exists c', (k, c') ∈ (k1, c) :: cs /\ live c' = Some v) \/ (k ∉ ((k1, c) :: cs).*1 /\ (k, v) ∈ r))) as Hemit.
  { intros r' Hr' Ha. pose proof (above_not_in k1 v r' Ha) as Hni. pose proof (above_not_key k1 cs Hk1) as Hnk.
    assert (forall c', (k1, c') ∉ cs) as Hnc by (intros c'; by apply above_not_in).
    cbn [fmap list_fmap]. rewrite not_elem_of_cons. unfold live.
    destruct (vd_delete c) eqn:Hdel.
    - rewrite IHc by done. split.
      + intros [(c' & Hin & Hl)|[Hk Hin]]; [left; exists c'; set_solver|right]. split; [|done]. split; [|done]. naive_solver.
      + intros [(c' & [Heq|Hin]%elem_of_cons & Hl)|[[_ Hk] Hin]]; [|left; by exists c'|right; done].
        injection Heq as -> ->. by rewrite Hdel in Hl.
    - rewrite elem_of_cons, IHc by done. split.
      + intros [[= -> ->]|[(c' & Hin & Hl)|[Hk Hin]]].
        * left. exists c. rewrite Hdel. split; [by left|done].
        * left. exists c'. set_solver.
        * right. split; [|done]. split; [|done]. naive_solver.
      + intros [(c' & [Heq|Hin]%elem_of_cons & Hl)|[[_ Hk] Hin]]; [|right; left; by exists c'|right; right; done].
        injection Heq as -> ->. rewrite Hdel in Hl. injection Hl as <-. by left. }
  induction r as [|[k2 w] r IHr]; [apply Hemit; [done|constructor]|]. rewrite merge_changes_cons. cbv zeta.
  cbn in Hr. pose proof Hr as [Hr' Hk2]%StronglySorted_inv.
  destruct (Z.ltb_spec (bytes_Compare k1 k2) 0) as [Hlt|Hge].
  { apply Hemit; [done|]. apply above_cons. split; [done|]. by apply (above_trans k1 k2). }
  destruct (Z.ltb_spec 0 (bytes_Compare k1 k2)) as [Hgt|Heq].
  - assert (blt k2 k1) as Hlt by (unfold blt; rewrite bytes_Compare_opp; lia).
    rewrite elem_of_cons, IHr by done. rewrite (elem_of_cons r). split; [|naive_solver].
    intros [[= -> ->]|[Hl|Hx]]; [right|by left|right; naive_solver]. split; [|by left].
    apply above_not_key, above_cons. split; [done|]. by apply (above_trans k2 k1).
  - assert (k1 = k2) as -> by (apply bytes_Compare_eq; lia). rewrite Hemit by done. rewrite (elem_of_cons r).
    cbn [fmap list_fmap]. rewrite not_elem_of_cons. naive_solver.
Qed.

(** ** Iterators *)
Section laws.
Context `{DatabaseLaws D} `{!KeyOrder bytes}.

(** The underlying iterator stands before the first of [r] or has none left. *)
Definition inner_at (exhausted : bool) (inner : Iterator D) (r : list (bytes * bytes)) : Prop :=
  if exhausted then r = [] /\ it_at inner None []
  else match r with x :: r' => it_at inner (Some x) r' | [] => False end.

Definition v_at (it : v_Iterator) (c : option (bytes * bytes)) (l : list (bytes * bytes)) : Prop :=
  match it with
  | IteratorError _ => False
  | mkIter inner key value err keys values initialized exhausted =>
      err = None /\ length keys = length values /\ (forall x, c = Some x -> x = (key, value)) /\
      exists r, (if initialized then inner_at exhausted inner r else it_at inner None r) /\
        l = merge_changes (zip keys values) r
  end.

Lemma inner_next d m inner c r : db_open d m -> it_at inner c r ->
  exists inner' more, Next d inner = (inner', more) /\ inner_at (negb more) inner' r.
Proof.
  intros Hd Hat. pose proof (next_law d m inner c r Hd Hat) as Hn.
  destruct r as [|x r]; destruct Hn as (it' & -> & Hat'); eexists _, _; split; [done|split; done|done|done].
Qed.

(** What an iterator at [l] does next. *)
Definition advances (r : v_Iterator * bool) (l : list (bytes * bytes)) : Prop :=
  match l with
  | [] => r.2 = false /\ v_at r.1 None []
  | x :: l' => r.2 = true /\ v_at r.1 (Some x) l'
  end.

Lemma advances_emit inner k v keys values exhausted r : length keys = length values -> inner_at exhausted inner r ->
  advances (mkIter inner k v None keys values true exhausted, true) ((k, v) :: merge_changes (zip keys values) r).
Proof. intros Hlen Hin. split; [done|]. cbn. split_and!; [done|done|by intros x [= <-]|]. by exists r. Qed.

Lemma next_loop_spec d m inner exhausted keys values r : db_open d m -> length keys = length values ->
  inner_at exhausted inner r ->
  advances (next_loop d inner None exhausted keys values) (merge_changes (zip keys values) r).
Proof.
  intros Hd. revert inner exhausted values r.
  induction keys as [|k keys IH]; intros inner exhausted values r Hlen Hin; destruct values as [|c values]; try done.
  - cbn [zip zip_with merge_changes next_loop]. destruct exhausted.
    + destruct Hin as [-> Hin]. split; [done|]. cbn. split_and!; try done. by exists [].
    + destruct r as [|[k v] r]; [done|]. cbn in Hin. destruct (key_law _ _ _ _ Hin) as [-> ->].
      destruct (inner_next d m inner _ r Hd Hin) as (inner' & more & -> & Hin').
      by apply (advances_emit inner' k v [] []).
  - cbn in Hlen. injection Hlen as Hlen. cbn [next_loop hd tail]. change (zip (k :: keys) (c :: values)) with ((k, c) :: zip keys values).
    destruct exhausted.
    + destruct Hin as [-> Hin]. rewrite merge_changes_nil. destruct (vd_delete c); [by apply IH|]. by apply advances_emit.
    + destruct r as [|[k2 v] r]; [done|]. pose proof Hin as Hat. cbn in Hat. destruct (key_law _ _ _ _ Hat) as [Hk Hv].
      rewrite Hk, merge_changes_cons. cbv zeta. destruct (bytes_Compare k k2 <? 0).
      { destruct (vd_delete c); [by apply IH|]. by apply advances_emit. }
      destruct (inner_next d m inner _ r Hd Hat) as (inner' & more & -> & Hin').
      destruct (0 <? bytes_Compare k k2).
      * rewrite Hv. apply (advances_emit inner' k2 v (k :: keys) (c :: values)); [by cbn; f_equal|done].
      * destruct (vd_delete c); [by apply IH|]. by apply advances_emit.
Qed.

Lemma v_next_spec s d m it c l : db s = Some d -> db_open d m -> v_at it c l -> advances (v_Next s it) l.
Proof.
  intros Hs Hd Hat. destruct it as [|inner key value err keys values initialized exhausted]; [done|].
  destruct Hat as (-> & Hlen & _ & r & Hin & ->). cbn [v_Next]. rewrite Hs.
  destruct initialized; [by apply (next_loop_spec d m)|].
  destruct (inner_next d m inner None r Hd Hin) as (inner' & more & -> & Hin'). by apply (next_loop_spec d m).
Qed.

(** ** The contract *)
(** An open versiondb over an underlying database that holds [base]. *)
Definition vrep (s : Versiondb) (base view : gmap bytes bytes) : Prop :=
  exists mm d b ops, s = mkVersiondb (Some mm) (Some d) (Some b) /\ db_open d base /\ batch_ops b ops /\
    view = overlay mm base.
Definition v_open (s : Versiondb) (view : gmap bytes bytes) : Prop := exists base, vrep s base view.

Lemma listing_overlay start prefix mm base r : listing (in_range start prefix) base r ->
  listing (in_range start prefix) (overlay mm base)
    (merge_changes (with_values (mkVD [] false) mm (sorted_keys start prefix mm)) r).
Proof.
  intros [Hs Hr]. pose proof (sorted_keys_listing (mkVD [] false) start prefix mm) as [Hcs Hc]. split.
  - by apply merge_changes_sorted.
  - intros k v. rewrite elem_of_merge_changes by done. setoid_rewrite Hc. rewrite Hr, lookup_overlay.
    rewrite with_values_fst, elem_of_sorted_keys. destruct (mm !! k) as [c|] eqn:Hk.
    + split.
      * intros [(c' & [[= <-] Hin] & Hl)|[Hn [_ Hin]]]; [done|]. exfalso. apply Hn. split; [by eexists|done].
      * intros [Hl Hin]. left. by exists c.
    + split; [|intros [Hb Hin]; right; split; [by intros [[c Hc'] _]|done]].
      intros [(c' & [Hc' _] & _)|[_ Hb]]; [done|done].
Qed.

Lemma vrep_read s base view k : vrep s base view ->
  answers (v_Has k s) (Ok (bool_decide (is_Some (view !! k)))) /\
  answers (v_Get k s) (match view !! k with Some v => Ok v | None => Err ErrNotFound end).
Proof.
  intros (mm & d & b & ops & -> & Hd & _ & ->). unfold v_Has, v_Get. cbn [mem db]. rewrite lookup_overlay.
  destruct (mm !! k) as [c|]; [|split; [by apply has_law|by apply get_law]].
  unfold live. by destruct (vd_delete c); split; left.
Qed.

Lemma vrep_iterate s base view start prefix : vrep s base view ->
  exists l, listing (in_range start prefix) view l /\ v_at (v_NewIteratorWithStartAndPrefix start prefix s) None l.
Proof.
  intros (mm & d & b & ops & -> & Hd & _ & ->). cbn [v_NewIteratorWithStartAndPrefix mem db].
  destruct (new_iterator_law d base start prefix Hd) as (r & Hr & Hat). eexists. split; [by apply listing_overlay|].
  cbn. split_and!; [done|by rewrite length_fmap|done|]. by exists r.
Qed.

Lemma vrep_change s base view k c : vrep s base view -> exists mm, mem s = Some mm /\
  vrep (set_mem (<[k := c]> mm) s) base (if vd_delete c then delete k view else <[k := vd_value c]> view).
Proof.
  intros (mm & d & b & ops & -> & Hd & Hb & ->). exists mm. split; [done|].
  exists (<[k := c]> mm), d, b, ops. split_and!; [done..|]. by rewrite overlay_insert.
Qed.

Lemma vrep_write s base view b : vrep s base view -> exists s', v_Write b s = (s', Ok tt) /\ vrep s' base (apply_ops (Ops b) view).
Proof.
  intros (mm & d & b' & ops & -> & Hd & Hb & ->). eexists. split; [done|]. cbn [set_mem db batch].
  eexists _, d, b', ops. split_and!; [done..|]. generalize (Ops b). intros l. revert mm.
  induction l as [|op l IH]; intros mm; [done|]. cbn. unfold apply_ops in IH. rewrite <- IH. f_equal.
  rewrite overlay_insert. unfold apply_op. by destruct (op_Delete op).
Qed.

(** ** Committing *)
Lemma commit_entries l mm (d : D) b ops : batch_ops b ops ->
  match foldM (fun _ '(key, value) => on_batch (if vd_delete value then b_Delete key else b_Put key (vd_value value))) l tt
    (mkVersiondb mm (Some d) (Some b)) with
  | (s', Ok _) => exists b', s' = mkVersiondb mm (Some d) (Some b') /\ batch_ops b' (ops ++ (change_op <$> l))
  | (s', Err e) => fault e /\ exists b' ops', s' = mkVersiondb mm (Some d) (Some b') /\ batch_ops b' ops'
  end.
Proof.
  revert b ops. induction l as [|[k c] l IH]; intros b ops Hb; cbn [foldM]; unfold mbind, M_bind.
  { cbn. exists b. by rewrite app_nil_r. }
  assert (appends batch_ops ((if vd_delete c then b_Delete k else b_Put k (vd_value c)) b) ops (ops ++ [change_op (k, c)])) as Ha.
  { unfold change_op. cbn. destruct (vd_delete c); [by apply batch_delete_law|by apply batch_put_law]. }
  unfold on_batch at 1. cbn [batch]. destruct ((if vd_delete c then b_Delete k else b_Put k (vd_value c)) b) as [b' [[]|e]]; cbn in Ha.
  - cbn. specialize (IH b' _ Ha). rewrite <- app_assoc in IH. exact IH.
  - destruct Ha as [He Hb']. split; [done|]. by exists b', ops.
Qed.

Lemma commitBatch_spec s base view : vrep s base view ->
  match commitBatch s with
  | (s', Ok b) => vrep s' base view /\ batch s' = Some b /\ exists ops, batch_ops b ops /\ apply_ops ops base = view
  | (s', Err e) => fault e /\ vrep s' base view
  end.
Proof.
  intros (mm & d & b & ops & -> & Hd & Hb & ->). unfold commitBatch, with_mem, mbind, M_bind, get. cbn [mem on_batch batch modify].
  pose proof (commit_entries (entries mm) (Some mm) d (b_Reset b) [] (batch_reset_law b ops Hb)) as Hc.
  destruct (foldM _ _ _ _) as [s' [[]|e]].
  - destruct Hc as (b' & -> & Hb'). cbn. split_and!; [by exists mm, d, b', (change_op <$> entries mm)|done|].
    exists (change_op <$> entries mm). split; [done|apply apply_changes].
  - destruct Hc as [He (b' & ops' & -> & Hb')]. split; [done|]. by exists mm, d, b', ops'.
Qed.

Lemma Commit_spec s base view : vrep s base view ->
  match Commit s with
  | (s', Ok _) => vrep s' view view
  | (s', Err e) => fault e /\ vrep s' base view
  end.
Proof.
  intros Hs. pose proof (commitBatch_spec s base view Hs) as Hc. unfold Commit, mbind, M_bind.
  destruct (commitBatch s) as [s1 [b|e]]; [|done]. destruct Hc as (Hs1 & Hb & ops & Hops & Hview).
  destruct Hs1 as (mm & d & b' & ops' & -> & Hd & Hb' & ->). cbn in Hb. injection Hb as ->.
  unfold on_db at 1. cbn [db]. pose proof (write_law d base b ops Hd Hops) as Hw. unfold writes in Hw.
  destruct (b_Write b d) as [d' [[]|e]]; cbn [mem batch on_batch modify abort fmap option_fmap option_map].
  - exists ∅, d', (b_Reset b), []. rewrite Hview in Hw. split_and!; [done|done|by eapply batch_reset_law|by rewrite overlay_empty].
  - destruct Hw as [He Hd']. split; [done|]. by exists mm, d', b, ops'.
Qed.

#[export] Program Instance versiondb_laws : DatabaseLaws Versiondb := {|
  db_open := v_open;
  it_at := v_at;
  batch_ops b ops := Ops b = ops;
  db_closed s := s = mkVersiondb None None None;
|}.
Next Obligation. intros s m k [base Hs]. by apply (vrep_read s base). Qed.
Next Obligation. intros s m k [base Hs]. by apply (vrep_read s base). Qed.
Next Obligation.
  intros s m k v [base Hs]. destruct (vrep_change s base m k (mkVD v false) Hs) as (mm & Hmm & Hs').
  cbn. unfold v_Put, with_mem, mbind, M_bind, get. rewrite Hmm. by exists base.
Qed.
Next Obligation.
  intros s m k [base Hs]. destruct (vrep_change s base m k (mkVD [] true) Hs) as (mm & Hmm & Hs').
  cbn. unfold v_Delete, with_mem, mbind, M_bind, get. rewrite Hmm. by exists base.
Qed.
Next Obligation.
  intros s m b ops [base Hs] <-. destruct (vrep_write s base m b Hs) as (s' & Hw & Hs').
  cbn. rewrite Hw. by exists base.
Qed.
Next Obligation. intros s m start prefix [base Hs]. by apply (vrep_iterate s base). Qed.
Next Obligation.
  intros s m it c l (base & mm & d & b & ops & -> & Hd & _) Hat.
  pose proof (v_next_spec (mkVersiondb (Some mm) (Some d) (Some b)) d base it c l eq_refl Hd Hat) as Hn. cbn [Next versiondb_database] in *.
  destruct (v_Next _ it) as [it' more]. destruct l; destruct Hn as [Hmore Hat']; cbn in *; subst more; by exists it'.
Qed.
Next Obligation.
  intros [|inner key value err keys values ini exh] k v l Hat; [done|]. destruct Hat as (_ & _ & Hx & _).
  by injection (Hx _ eq_refl) as -> ->.
Qed.
Next Obligation.
  intros [|inner key value err keys values ini exh] c l Hat; [done|]. destruct Hat as (-> & _ & _ & r & Hin & _). cbn.
  destruct ini; [|by eapply error_law]. destruct exh; [destruct Hin as [_ Hin]|destruct r; [done|]]; by eapply error_law.
Qed.
Next Obligation. done. Qed.
Next Obligation. by intros b ops k v <-. Qed.
Next Obligation. by intros b ops k <-. Qed.
Next Obligation. done. Qed.
Next Obligation.
  intros s m start limit (base & mm & d & b & ops & -> & Hd & Hb & ->). cbn.
  unfold v_Compact, with_mem, mbind, M_bind, get, on_db. cbn [mem db].
  pose proof (compact_law d base start limit Hd) as Hc. destruct (Compact start limit d) as [d' [[]|e]]; cbn in *.
  - exists base. by exists mm, d', b, ops.
  - destruct Hc as [He Hd']. split; [done|]. exists base. by exists mm, d', b, ops.
Qed.
Next Obligation. intros s m (base & mm & d & b & ops & -> & _). by eexists. Qed.
Next Obligation.
  intros s ->. split_and!; try done.
  - intros start prefix. by eexists.
  - intros [|inner key value err keys values ini exh] c l Hat; [done|]. by eexists.
Qed.

(** ** Transactions *)
Inductive v_op :=
  | VPut (key value : bytes)
  | VDelete (key : bytes)
  | VWrite (b : BatchOps)
  | VCommit
  | VAbort
  | VSetDatabase (d : D).
Definition run_op (op : v_op) : M Versiondb DbErr unit :=
  match op with
  | VPut key value => v_Put key value
  | VDelete key => v_Delete key
  | VWrite b => v_Write b
  | VCommit => Commit
  | VAbort => Abort
  | VSetDatabase d => SetDatabase d
  end.

(** The contents of the underlying database and the contents that are seen. *)
Definition spec_op (op : v_op) (x : gmap bytes bytes * gmap bytes bytes) : gmap bytes bytes * gmap bytes bytes :=
  let '(base, view) := x in
  match op with
  | VPut key value => (base, <[key := value]> view)
  | VDelete key => (base, delete key view)
  | VWrite b => (base, apply_ops (Ops b) view)
  | VCommit => (view, view)
  | VAbort => (base, base)
  | VSetDatabase d => (base, view)
  end.
Definition keeps_database (op : v_op) : Prop := match op with VSetDatabase _ => False | _ => True end.

(** C29: a versiondb is a transaction on the underlying database: reads and iterators
    see the underlying contents with the changes of this database; only [Commit]
    changes what lies below, all at once, and if it fails nothing is lost or
    half-written; [Abort] forgets the changes.  Any database that keeps the contract
    of databases can lie below. *)
Theorem versiondb_transaction s base view : vrep s base view ->
  (forall k, answers (Has k s) (Ok (bool_decide (is_Some (view !! k)))) /\
     answers (Get k s) (match view !! k with Some v => Ok v | None => Err ErrNotFound end)) /\
  (forall start prefix, exists l, listing (in_range start prefix) view l /\
     forall fuel, (length l < fuel)%nat -> collect fuel s (NewIteratorWithStartAndPrefix start prefix s) = l) /\
  (forall op, keeps_database op ->
     match run_op op s with
     | (s', Ok _) => vrep s' (spec_op op (base, view)).1 (spec_op op (base, view)).2
     | (s', Err e) => op = VCommit /\ fault e /\ vrep s' base view
     end) /\
  (exists d, db s = Some d /\ db_open d base).
Proof.
  intros Hs. split_and!.
  - intros k. by apply (vrep_read s base).
  - intros start prefix. destruct (vrep_iterate s base view start prefix Hs) as (l & Hl & Hat). exists l. split; [done|].
    intros fuel Hf. apply (collect_spec s view _ None); [by exists base|done..].
  - intros [k v|k|b| | |d] Hop; cbn [run_op spec_op fst snd]; [| | | | |done].
    + destruct (vrep_change s base view k (mkVD v false) Hs) as (mm & Hmm & Hs').
      unfold v_Put, with_mem, mbind, M_bind, get. by rewrite Hmm.
    + destruct (vrep_change s base view k (mkVD [] true) Hs) as (mm & Hmm & Hs').
      unfold v_Delete, with_mem, mbind, M_bind, get. by rewrite Hmm.
    + destruct (vrep_write s base view b Hs) as (s' & Hw & Hs'). by rewrite Hw.
    + pose proof (Commit_spec s base view Hs) as Hc. by destruct (Commit s) as [s' [[]|e]].
    + destruct Hs as (mm & d & b & ops & -> & Hd & Hb & ->). exists ∅, d, b, ops. by rewrite overlay_empty.
  - destruct Hs as (mm & d & b & ops & -> & Hd & Hb & ->). by exists d.
Qed.
End laws.

(** Changes over a database in memory that holds two keys. *)
Section example.
#[local] Existing Instances elements_order Memdb.memdb_database Memdb.memdb_laws.
Definition below : Memdb.Memdb := Memdb.mkMemdb (Some {[ [1; 5] := [10]; [2] := [20] ]}).
Definition changed : Versiondb (D := Memdb.Memdb) :=
  mkVersiondb (Some {[ [1; 5] := mkVD [] true; [1; 6] := mkVD [30] false ]}) (Some below) (Some (NewBatch below)).

Lemma versiondb_transaction_witness :
  collect 5 changed (NewIterator changed) = [([1; 6], [30]); ([2], [20])] /\
  answers (Get [1; 5] changed) (Err ErrNotFound) /\
  match run_op VCommit changed with
  | (s', Ok _) => vrep s' {[ [1; 6] := [30]; [2] := [20] ]} {[ [1; 6] := [30]; [2] := [20] ]}
  | (s', Err e) => False
  end.
Proof.
  assert (vrep changed {[ [1; 5] := [10]; [2] := [20] ]} {[ [1; 6] := [30]; [2] := [20] ]}) as Hs.
  { eexists _, _, _, []. split_and!; [done..|]. vm_compute. reflexivity. }
  pose proof (versiondb_transaction changed _ _ Hs) as (Hread & _ & Hrun & _). split_and!.
  - vm_compute. reflexivity.
  - apply (Hread [1; 5]).
  - specialize (Hrun VCommit I). destruct (run_op VCommit changed) as [s' [[]|e]] eqn:Hr; [exact Hrun|].
    vm_compute in Hr. discriminate Hr.
Defined.
End example.
End VersiondbFacts.
