(* ===== verification/Prefixdb.v ===== *)
(** * A part of a database
    Models [avalanchego/database/prefixdb/db.go]: the keys of a database that start
    with a prefix, as a database of their own.  It keeps the contract of a database
    over any underlying one that does, and touches no other key.  The prefix of a
    [Database] never changes, so it is a parameter of the type; its pool of buffers
    is not modelled. *)
From Stdlib Require Import Sorting.Sorted.
From S2P Require Import Prelude Monads Sorting MapOrder Database Memdb.

Module Prefixdb.
Import Sorting Database.

(** [incrementByteSlice], which goes on to the byte before when a byte wraps to 0:
    the incremented bytes, and whether all of them have wrapped. *)
Fixpoint increment_carry (l : bytes) : bytes * bool :=
  match l with
  | [] => ([], true)
  | b :: l =>
      let '(l', carry) := increment_carry l in
      if carry then let b' := wrap 8 (b + 1) in (b' :: l', b' =? 0) else (b :: l', false)
  end.
Definition incrementByteSlice (orig : bytes) : bytes := (increment_carry orig).1.

Definition PrefixKey (dbPrefix key : bytes) : bytes := dbPrefix ++ key.

Record Prefixdb (dbPrefix : bytes) (D : Type) := mkPrefixdb { db : D; closed : bool }.
Arguments mkPrefixdb {dbPrefix D}.
Arguments db {dbPrefix D}.
Arguments closed {dbPrefix D}.

Section prefix_of.
Variable ComputeHash256 : bytes -> bytes.
Definition MakePrefix (prefix : bytes) : bytes := ComputeHash256 prefix.
Definition JoinPrefixes (firstPrefix secondPrefix : bytes) : bytes := MakePrefix (firstPrefix ++ secondPrefix).

(** [New] over a database that is a [prefixdb.Database] itself, and over another. *)
Definition New_nested {p D} (prefix : bytes) (d : Prefixdb p D) : Prefixdb (JoinPrefixes p prefix) D := mkPrefixdb (db d) false.
Definition New {D} (prefix : bytes) (d : D) : Prefixdb (MakePrefix prefix) D := mkPrefixdb d false.
Definition NewNested {D} (prefix : bytes) (d : D) : Prefixdb (MakePrefix prefix) D := mkPrefixdb d false.
End prefix_of.

Section prefixdb.
Context `{DatabaseLaws D} (dbPrefix : bytes).
Abbreviation PDB := (Prefixdb dbPrefix D).

Definition dbLimit : bytes := incrementByteSlice dbPrefix.
Definition prefixed (key : bytes) : bytes := PrefixKey dbPrefix key.

(** [if db.closed { return ErrClosed }] and a call of the underlying database. *)
Definition on_db {A} (m : M D DbErr A) : M PDB DbErr A := fun s =>
  if closed s then (s, Err ErrClosed) else let '(d, r) := m (db s) in (mkPrefixdb d false, r).

Definition p_Has (key : bytes) (s : PDB) : result DbErr bool :=
  if closed s then Err ErrClosed else Has (prefixed key) (db s).
Definition p_Get (key : bytes) (s : PDB) : result DbErr bytes :=
  if closed s then Err ErrClosed else Get (prefixed key) (db s).
Definition p_Put (key value : bytes) : M PDB DbErr unit := on_db (Put (prefixed key) value).
Definition p_Delete (key : bytes) : M PDB DbErr unit := on_db (Delete (prefixed key)).
Definition p_Compact (start : bytes) (limit : option bytes) : M PDB DbErr unit :=
  on_db (Compact (prefixed start) (Some (match limit with None => dbLimit | Some limit => prefixed limit end))).
Definition p_Close : M PDB DbErr unit := fun s =>
  if closed s then (s, Err ErrClosed) else (mkPrefixdb (db s) true, Ok tt).

(** ** Batches *)
Record p_Batch := mkPBatch { pb_Batch : Batch D; pb_ops : list BatchOp }.

Definition on_batch (m : M (Batch D) DbErr unit) : M p_Batch DbErr unit :=
  zoom pb_Batch (fun b s => mkPBatch b (pb_ops s)) m.

Definition pb_Put (key value : bytes) : M p_Batch DbErr unit :=
  modify (fun b => mkPBatch (pb_Batch b) (pb_ops b ++ [mkOp (prefixed key) value false]));;
  on_batch (b_Put (prefixed key) value).
Definition pb_Delete (key : bytes) : M p_Batch DbErr unit :=
  modify (fun b => mkPBatch (pb_Batch b) (pb_ops b ++ [mkOp (prefixed key) [] true]));;
  on_batch (b_Delete (prefixed key)).
Definition pb_Write (b : p_Batch) : M PDB DbErr unit := on_db (b_Write (pb_Batch b)).
Definition pb_Reset (b : p_Batch) : p_Batch := mkPBatch (b_Reset (pb_Batch b)) [].

(** [batch.Replay]: the operations without the prefix. *)
Definition pb_Replay {W} `{Database W} (b : p_Batch) : M W DbErr unit :=
  foldM (fun _ op =>
    let keyWithoutPrefix := drop (length dbPrefix) (op_Key op) in
    if op_Delete op then Delete keyWithoutPrefix else Put keyWithoutPrefix (op_Value op)) (pb_ops b) tt.

(** ** Iterators *)
Inductive p_Iterator :=
  | IteratorError (e : DbErr)
  | mkIter (inner : Iterator D) (key val : bytes) (err : option DbErr).

Definition p_NewIteratorWithStartAndPrefix (start prefix : bytes) (s : PDB) : p_Iterator :=
  if closed s then IteratorError ErrClosed
  else mkIter (NewIteratorWithStartAndPrefix (prefixed start) (prefixed prefix) (db s)) [] [] None.

Definition strip (key : bytes) : bytes :=
  if (length dbPrefix <=? length key)%nat then drop (length dbPrefix) key else key.

Definition p_Next (s : PDB) (it : p_Iterator) : p_Iterator * bool :=
  match it with
  | IteratorError e => (IteratorError e, false)
  | mkIter inner key val err =>
      if closed s then (mkIter inner [] [] (Some ErrClosed), false)
      else
        let '(inner, hasNext) := Next (db s) inner in
        if hasNext then (mkIter inner (strip (Key inner)) (Value inner) err, true)
        else (mkIter inner [] [] err, false)
  end.

Definition p_Error (it : p_Iterator) : option DbErr :=
  match it with
  | IteratorError e => Some e
  | mkIter inner _ _ err => match err with Some e => Some e | None => Error inner end
  end.
Definition p_Key (it : p_Iterator) : bytes := match it with mkIter _ key _ _ => key | IteratorError _ => [] end.
Definition p_Value (it : p_Iterator) : bytes := match it with mkIter _ _ val _ => val | IteratorError _ => [] end.
(** [Release] is the method of the embedded iterator. *)
Definition p_Release (it : p_Iterator) : p_Iterator :=
  match it with
  | IteratorError e => IteratorError e
  | mkIter inner key val err => mkIter (Release inner) key val err
  end.

#[export] Instance prefixdb_database : Database PDB := {|
  Iterator := p_Iterator;
  Batch := p_Batch;
  Has := p_Has;
  Get := p_Get;
  Put := p_Put;
  Delete := p_Delete;
  NewIteratorWithStartAndPrefix := p_NewIteratorWithStartAndPrefix;
  Next := p_Next;
  Key := p_Key;
  Value := p_Value;
  Error := p_Error;
  Release := p_Release;
  NewBatch s := mkPBatch (NewBatch (db s)) [];
  b_Put := pb_Put;
  b_Delete := pb_Delete;
  b_Size b := b_Size (pb_Batch b);
  b_Reset := pb_Reset;
  b_Write := pb_Write;
  Compact := p_Compact;
  Close := p_Close;
|}.

(** ** The contract *)
(** The part [m] of the contents [base]. *)
Definition part (base m : gmap bytes bytes) : Prop := forall k, m !! k = base !! (dbPrefix ++ k).
(** The same contents outside the part. *)
Definition same_outside (base base' : gmap bytes bytes) : Prop :=
  forall k, HasPrefix k dbPrefix = false -> base' !! k = base !! k.

Definition prep (s : PDB) (base m : gmap bytes bytes) : Prop :=
  closed s = false /\ db_open (db s) base /\ part base m.
Definition p_open (s : PDB) (m : gmap bytes bytes) : Prop := exists base, prep s base m.

Definition prefix_op (op : BatchOp) : BatchOp := mkOp (prefixed (op_Key op)) (op_Value op) (op_Delete op).
Definition p_batch_ops (b : p_Batch) (ops : list BatchOp) : Prop :=
  batch_ops (pb_Batch b) (prefix_op <$> ops).

Definition strip_entry (x : bytes * bytes) : bytes * bytes := (strip x.1, x.2).
Definition p_at (it : p_Iterator) (c : option (bytes * bytes)) (l : list (bytes * bytes)) : Prop :=
  match it with
  | IteratorError _ => False
  | mkIter inner key val err =>
      err = None /\ (forall x, c = Some x -> x = (key, val)) /\
      exists c' r, it_at inner c' r /\ l = strip_entry <$> r
  end.

Lemma HasPrefix_app p k : HasPrefix (p ++ k) p = true.
Proof. induction p; cbn; [by destruct k|]. by rewrite Z.eqb_refl. Qed.
Lemma HasPrefix_app_app p k q : HasPrefix (p ++ k) (p ++ q) = HasPrefix k q.
Proof. induction p; cbn; [done|]. by rewrite Z.eqb_refl. Qed.
Lemma HasPrefix_split p k : HasPrefix k p = true -> exists k', k = p ++ k'.
Proof.
  revert k. induction p as [|x p IH]; intros [|y k]; cbn; [intros _; by eexists..|done|].
  rewrite andb_true_iff, Z.eqb_eq. intros [-> Hk]. destruct (IH k Hk) as [k' ->]. by eexists.
Qed.
Lemma HasPrefix_join p k q : HasPrefix k (p ++ q) = true -> exists k', k = p ++ k' /\ HasPrefix k' q = true.
Proof.
  intros Hk. destruct (HasPrefix_split _ _ Hk) as [k' ->]. exists (q ++ k'). rewrite app_assoc.
  split; [done|apply HasPrefix_app].
Qed.
Lemma Compare_app p a b : bytes_Compare (p ++ a) (p ++ b) = bytes_Compare a b.
Proof. induction p as [|x p IH]; [done|]. cbn. by rewrite Z.ltb_irrefl. Qed.
Lemma strip_app k : strip (dbPrefix ++ k) = k.
Proof. unfold strip. rewrite length_app, drop_app_length. destruct (Nat.leb_spec (length dbPrefix) (length dbPrefix + length k)); [done|lia]. Qed.

Lemma part_insert base m k v : part base m -> part (<[prefixed k := v]> base) (<[k := v]> m).
Proof.
  intros Hp k'. destruct (decide (k' = k)) as [->|Hne]; [by rewrite !lookup_insert_eq|].
  unfold prefixed, PrefixKey.
  rewrite !lookup_insert_ne by (by intros ?%app_inv_head || by intros ?). apply Hp.
Qed.
Lemma part_delete base m k : part base m -> part (delete (prefixed k) base) (delete k m).
Proof.
  intros Hp k'. destruct (decide (k' = k)) as [->|Hne]; [by rewrite !lookup_delete_eq|].
  unfold prefixed, PrefixKey.
  rewrite !lookup_delete_ne by (by intros ?%app_inv_head || by intros ?). apply Hp.
Qed.
Lemma part_ops base m ops : part base m -> part (apply_ops (prefix_op <$> ops) base) (apply_ops ops m).
Proof.
  revert base m. induction ops as [|op ops IH]; intros base m Hp; [done|]. apply IH. unfold apply_op, prefix_op. cbn.
  destruct (op_Delete op); [by apply part_delete|by apply part_insert].
Qed.

Lemma not_prefixed k k' : HasPrefix k' dbPrefix = false -> k' <> prefixed k.
Proof. intros Hk ->. unfold prefixed, PrefixKey in Hk. by rewrite HasPrefix_app in Hk. Qed.
Lemma same_outside_ops base ops : same_outside base (apply_ops (prefix_op <$> ops) base).
Proof.
  intros k Hk. revert base. induction ops as [|op ops IH]; intros base; [done|]. cbn. unfold apply_ops in IH. rewrite IH.
  unfold apply_op, prefix_op. cbn. pose proof (not_prefixed (op_Key op) k Hk).
  destruct (op_Delete op); by rewrite ?lookup_delete_ne, ?lookup_insert_ne by done.
Qed.

Lemma on_db_writes (m : M D DbErr unit) s base base' view view' : prep s base view ->
  writes db_open (m (db s)) base base' -> part base' view' ->
  match on_db m s with
  | (s', Ok _) => prep s' base' view'
  | (s', Err e) => fault e /\ prep s' base view
  end.
Proof.
  intros (Hc & Hd & Hp) Hw Hp'. unfold on_db. rewrite Hc. destruct (m (db s)) as [d' [[]|e]]; cbn in *; [done|].
  destruct Hw. split; done.
Qed.
Lemma on_db_open (m : M D DbErr unit) s base base' view view' : prep s base view ->
  writes db_open (m (db s)) base base' -> part base' view' -> writes p_open (on_db m s) view view'.
Proof.
  intros Hs Hw Hp. pose proof (on_db_writes m s base base' view view' Hs Hw Hp) as Ho.
  destruct (on_db m s) as [s' [[]|e]]; cbn in *; [by exists base'|]. destruct Ho. split; [done|by exists base].
Qed.

Lemma prep_read s base m k : prep s base m ->
  answers (p_Has k s) (Ok (bool_decide (is_Some (m !! k)))) /\
  answers (p_Get k s) (match m !! k with Some v => Ok v | None => Err ErrNotFound end).
Proof.
  intros (Hc & Hd & Hp). unfold p_Has, p_Get. rewrite Hc, Hp. split; [by apply has_law|by apply get_law].
Qed.

Lemma listing_part base m start prefix r : part base m ->
  listing (in_range (prefixed start) (prefixed prefix)) base r -> listing (in_range start prefix) m (strip_entry <$> r).
Proof.
  intros Hp [Hs Hr]. assert (forall k v, (k, v) ∈ r -> exists k', k = dbPrefix ++ k') as Hk.
  { intros k v (_ & Hpre & _)%Hr. destruct (HasPrefix_join _ _ _ Hpre) as (k' & -> & _). by eexists. }
  split.
  - clear Hr. induction r as [|[k v] r IH]; [constructor|]. cbn in *. apply StronglySorted_inv in Hs as [Hs Hx].
    constructor; [apply IH; [done|]; intros k' v' Hin; by apply (Hk k' v'); right|].
    rewrite Forall_forall in *. intros k' ([? v'] & -> & [[k2 v2] [-> Hin]]%list_elem_of_fmap)%list_elem_of_fmap. cbn.
    destruct (Hk k v ltac:(by left)) as [k1 ->]. destruct (Hk k2 v2 ltac:(by right)) as [k3 ->].
    rewrite !strip_app. specialize (Hx (dbPrefix ++ k3) ltac:(by apply (list_elem_of_fmap_2 fst _ _ Hin))).
    unfold blt in *. by rewrite Compare_app in Hx.
  - intros k v. rewrite list_elem_of_fmap. split.
    + intros ([k' w] & [= -> ->] & Hin). destruct (Hk k' w Hin) as [k2 ->]. apply Hr in Hin as (Hb & Hpre & Hst).
      rewrite strip_app, Hp. unfold prefixed, PrefixKey in *. rewrite HasPrefix_app_app in Hpre. rewrite Compare_app in Hst. split; done.
    + intros (Hm & Hpre & Hst). exists (dbPrefix ++ k, v). unfold strip_entry. cbn. rewrite strip_app. split; [done|].
      apply Hr. rewrite <- Hp. split; [done|]. unfold in_range, prefixed, PrefixKey.
      by rewrite HasPrefix_app_app, Compare_app.
Qed.

Lemma prep_iterate s base m start prefix : prep s base m ->
  exists l, listing (in_range start prefix) m l /\ p_at (p_NewIteratorWithStartAndPrefix start prefix s) None l.
Proof.
  intros (Hc & Hd & Hp). destruct (new_iterator_law (db s) base (prefixed start) (prefixed prefix) Hd) as (r & Hr & Hat).
  exists (strip_entry <$> r). split; [by apply (listing_part base)|]. unfold p_NewIteratorWithStartAndPrefix. rewrite Hc.
  cbn. split_and!; [done..|]. by exists None, r.
Qed.

Lemma p_next_spec s base m it c l : prep s base m -> p_at it c l ->
  match l with
  | [] => exists it', p_Next s it = (it', false) /\ p_at it' None []
  | x :: l' => exists it', p_Next s it = (it', true) /\ p_at it' (Some x) l'
  end.
Proof.
  intros (Hc & Hd & _) Hat. destruct it as [|inner key val err]; [done|]. destruct Hat as (-> & _ & c' & r & Hat & ->).
  cbn [p_Next]. rewrite Hc. pose proof (next_law _ _ _ _ _ Hd Hat) as Hn. destruct r as [|[k v] r]; cbn [fmap list_fmap].
  - destruct Hn as (it' & -> & Hat'). eexists. split; [done|]. cbn. split_and!; [done..|]. by exists None, [].
  - destruct Hn as (it' & -> & Hat'). destruct (key_law _ _ _ _ Hat') as [-> ->]. eexists. split; [done|]. cbn.
    split_and!; [done|by intros x [= <-]|]. by exists (Some (k, v)), r.
Qed.

Lemma pb_append b ops op m : p_batch_ops b ops -> appends batch_ops (m (pb_Batch b)) (prefix_op <$> ops) ((prefix_op <$> ops) ++ [prefix_op op]) ->
  appends p_batch_ops ((modify (fun b => mkPBatch (pb_Batch b) (pb_ops b ++ [prefix_op op]));; on_batch m) b) ops (ops ++ [op]).
Proof.
  intros Hb Ha. unfold mbind, M_bind, modify, on_batch, zoom. cbn. destruct (m (pb_Batch b)) as [b' [[]|e]]; cbn in *.
  - unfold p_batch_ops. cbn. by rewrite fmap_app.
  - done.
Qed.

#[export] Program Instance prefixdb_laws : DatabaseLaws PDB := {|
  db_open := p_open;
  it_at := p_at;
  batch_ops := p_batch_ops;
  db_closed s := closed s = true;
|}.
Next Obligation. intros s m k [base Hs]. by apply (prep_read s base). Qed.
Next Obligation. intros s m k [base Hs]. by apply (prep_read s base). Qed.
Next Obligation.
  intros s m k v [base Hs]. eapply on_db_open; [exact Hs|by apply put_law, Hs|by apply part_insert, Hs].
Qed.
Next Obligation.
  intros s m k [base Hs]. eapply on_db_open; [exact Hs|by apply delete_law, Hs|by apply part_delete, Hs].
Qed.
Next Obligation.
  intros s m b ops [base Hs] Hb. eapply on_db_open; [exact Hs|apply write_law; [apply Hs|exact Hb]|by apply part_ops, Hs].
Qed.
Next Obligation. intros s m start prefix [base Hs]. by apply (prep_iterate s base). Qed.
Next Obligation. intros s m it c l [base Hs] Hat. exact (p_next_spec s base m it c l Hs Hat). Qed.
Next Obligation. intros [|inner key val err] k v l Hat; [done|]. destruct Hat as (_ & Hx & _). by injection (Hx _ eq_refl) as -> ->. Qed.
Next Obligation. intros [|inner key val err] c l Hat; [done|]. destruct Hat as (-> & _ & c' & r & Hin & _). cbn. by eapply error_law. Qed.
Next Obligation. intros s m [base Hs]. exact (new_batch_law (db s) base (proj1 (proj2 Hs))). Qed.
Next Obligation. intros b ops k v Hb. apply (pb_append b ops (mkOp k v false)); [done|]. by apply batch_put_law. Qed.
Next Obligation. intros b ops k Hb. apply (pb_append b ops (mkOp k [] true)); [done|]. by apply batch_delete_law. Qed.
Next Obligation. intros b ops Hb. exact (batch_reset_law (pb_Batch b) _ Hb). Qed.
Next Obligation.
  intros s m start limit [base Hs]. eapply on_db_open; [exact Hs|by apply compact_law, Hs|by apply Hs].
Qed.
Next Obligation. intros s m (base & Hc & _). cbn. unfold p_Close. rewrite Hc. by eexists. Qed.
Next Obligation.
  intros [d c] Hc. cbn in *. subst. split_and!; try done.
  - intros start prefix. by eexists.
  - intros [|inner key val err] c l Hat; [done|]. by eexists.
Qed.

(** ** Isolation *)

(** What a client does with a batch, from [NewBatch] to its [Write]. *)
Inductive batch_call :=
  | BPut (key value : bytes)
  | BDelete (key : bytes)
  | BReset.
Definition run_call (c : batch_call) : M p_Batch DbErr unit :=
  match c with
  | BPut key value => pb_Put key value
  | BDelete key => pb_Delete key
  | BReset => modify pb_Reset
  end.
Definition fill (calls : list batch_call) (s : PDB) : p_Batch * result DbErr unit := forM calls run_call (NewBatch s).

Inductive p_op :=
  | PPut (key value : bytes)
  | PDelete (key : bytes)
  | PCompact (start : bytes) (limit : option bytes)
  | PBatch (calls : list batch_call).
Definition run_op (op : p_op) : M PDB DbErr unit :=
  match op with
  | PPut key value => p_Put key value
  | PDelete key => p_Delete key
  | PCompact start limit => p_Compact start limit
  | PBatch calls => fun s =>
      match fill calls s with
      | (b, Ok _) => pb_Write b s
      | (_, Err e) => (s, Err e)
      end
  end.

(** What the calls of a client ask for, in terms of the keys of this database. *)
Definition asked_step (ops : list BatchOp) (c : batch_call) : list BatchOp :=
  match c with
  | BPut key value => ops ++ [mkOp key value false]
  | BDelete key => ops ++ [mkOp key [] true]
  | BReset => []
  end.
Definition asked (calls : list batch_call) : list BatchOp := foldl asked_step [] calls.
Definition op_asks (op : p_op) : list BatchOp :=
  match op with
  | PPut key value => [mkOp key value false]
  | PDelete key => [mkOp key [] true]
  | PCompact _ _ => []
  | PBatch calls => asked calls
  end.

Lemma fill_spec s base m calls : prep s base m ->
  wp fault (forM calls run_call) (fun _ b => p_batch_ops b (asked calls) /\ pb_ops b = prefix_op <$> asked calls) (NewBatch s).
Proof.
  intros Hs. unfold forM. apply (wp_foldM fault _ _ _ _ (fun done _ b => p_batch_ops b (asked done) /\ pb_ops b = prefix_op <$> asked done));
    [split; [exact (new_batch_law (db s) base (proj1 (proj2 Hs)))|done]| |by intros [] ?].
  intros done c rest [] b _ [Hb Hops]. unfold asked. rewrite foldl_snoc. fold (asked done). destruct c as [k v|k|]; cbn [run_call asked_step].
  - pose proof (batch_put_law _ _ (prefixed k) v Hb) as Ha. unfold wp, pb_Put, on_batch, zoom, mbind, M_bind, modify. cbn.
    destruct (b_Put (prefixed k) v (pb_Batch b)) as [b' [[]|e]]; cbn in *; [|apply Ha]. unfold p_batch_ops. cbn. by rewrite fmap_app, Hops.
  - pose proof (batch_delete_law _ _ (prefixed k) Hb) as Ha. unfold wp, pb_Delete, on_batch, zoom, mbind, M_bind, modify. cbn.
    destruct (b_Delete (prefixed k) (pb_Batch b)) as [b' [[]|e]]; cbn in *; [|apply Ha]. unfold p_batch_ops. cbn. by rewrite fmap_app, Hops.
  - split; [|done]. exact (batch_reset_law (pb_Batch b) _ Hb).
Qed.

(** A write of the database below is the one that was asked for here. *)
Lemma run_op_spec s base m op : prep s base m ->
  match run_op op s with
  | (s', Ok _) => prep s' (apply_ops (prefix_op <$> op_asks op) base) (apply_ops (op_asks op) m)
  | (s', Err e) => fault e /\ prep s' base m
  end.
Proof.
  intros Hs. pose proof (part_ops _ _ (op_asks op) (proj2 (proj2 Hs))) as Hp.
  destruct op as [k v|k|start limit|calls]; cbn [run_op op_asks] in *;
    [eapply (on_db_writes _ s base); [exact Hs|apply put_law, Hs|exact Hp]|eapply (on_db_writes _ s base); [exact Hs|apply delete_law, Hs|exact Hp]
    |eapply (on_db_writes _ s base); [exact Hs|apply compact_law, Hs|exact Hp]|].
  pose proof (fill_spec s base m calls Hs) as Hf. unfold wp in Hf. fold (fill calls s) in Hf. destruct (fill calls s) as [b [[]|e]]; [|done].
  eapply (on_db_writes _ s base); [exact Hs|apply write_law; [apply Hs|apply Hf]|exact Hp].
Qed.

(** [Replay] asks another database for the same, without the prefix. *)
Definition replays {W} `{DatabaseLaws W} (ops : list BatchOp) (w : W) (m : gmap bytes bytes) (r : W * result DbErr unit) : Prop :=
  match r with
  | (w', Ok _) => db_open w' (apply_ops ops m)
  | (w', Err e) => fault e /\ exists first rest, ops = first ++ rest /\ db_open w' (apply_ops first m)
  end.
Lemma Replay_spec {W} `{DatabaseLaws W} (w : W) m b ops : pb_ops b = prefix_op <$> ops -> db_open w m -> replays ops w m (pb_Replay b w).
Proof.
  intros Hb Hw. unfold pb_Replay. rewrite Hb. clear Hb. revert w m Hw. induction ops as [|op ops IH]; intros w m Hw; [exact Hw|].
  cbn. unfold prefixed, PrefixKey. rewrite drop_app_length. unfold mbind, M_bind.
  assert (writes db_open ((if op_Delete op then Delete (op_Key op) else Put (op_Key op) (op_Value op)) w) m (apply_op m op)) as Hop.
  { unfold apply_op. destruct (op_Delete op); [by apply delete_law|by apply put_law]. }
  revert Hop. destruct ((if op_Delete op then Delete (op_Key op) else Put (op_Key op) (op_Value op)) w) as [w' [[]|e]]; intros Hop; cbn in Hop.
  - specialize (IH w' _ Hop). unfold replays in *. destruct (foldM _ _ _ _) as [w2 [[]|e]]; [exact IH|]. destruct IH as (He & first & rest & -> & Hr).
    split; [done|]. by exists (op :: first), rest.
  - destruct Hop as [He Hop]. split; [done|]. by exists [], (op :: ops).
Qed.

(** C33: a prefixdb is a database of its own in the keys with its prefix: reads and
    iterators see exactly these keys, without the prefix and in order; a put, a delete,
    a compaction and a batch that is filled by any calls and written change these keys
    as the calls say and no other key of the database below, in particular none of a
    prefixdb with another prefix of the same length; an operation that fails changes
    nothing; and a batch replays its calls on any other database without the prefix. *)
Theorem prefixdb_isolated s base m : prep s base m ->
  (forall k, answers (Has k s) (Ok (bool_decide (is_Some (m !! k)))) /\
     answers (Get k s) (match m !! k with Some v => Ok v | None => Err ErrNotFound end)) /\
  (forall start prefix, exists l, listing (in_range start prefix) m l /\
     forall fuel, (length l < fuel)%nat -> collect fuel s (NewIteratorWithStartAndPrefix start prefix s) = l) /\
  (forall op,
     match run_op op s with
     | (s', Ok _) => exists base', prep s' base' (apply_ops (op_asks op) m) /\ same_outside base base' /\
         forall other k, length other = length dbPrefix -> other <> dbPrefix -> base' !! (other ++ k) = base !! (other ++ k)
     | (s', Err e) => fault e /\ prep s' base m
     end) /\
  (forall calls W (dbW : Database W) (lawsW : DatabaseLaws W) (w : W) mw, db_open w mw ->
     match fill calls s with
     | (b, Ok _) => replays (asked calls) w mw (pb_Replay b w)
     | (_, Err e) => fault e
     end).
Proof.
  intros Hs. split_and!.
  - intros k. by apply (prep_read s base).
  - intros start prefix. destruct (prep_iterate s base m start prefix Hs) as (l & Hl & Hat). exists l. split; [done|].
    intros fuel Hf. apply (collect_spec s m _ None); [by exists base|done..].
  - intros op. pose proof (run_op_spec s base m op Hs) as Ho. pose proof (same_outside_ops base (op_asks op)) as Hout.
    destruct (run_op op s) as [s' [[]|e]]; [|done]. exists (apply_ops (prefix_op <$> op_asks op) base). split_and!; [done..|].
    intros other k Hlen Hne. apply Hout. destruct (HasPrefix (other ++ k) dbPrefix) eqn:Hp; [|done].
    destruct (HasPrefix_split _ _ Hp) as [k' Heq]. exfalso. apply Hne. by apply app_inj_1 in Heq as [? _].
  - intros calls W dbW lawsW w mw Hw. pose proof (fill_spec s base m calls Hs) as Hf. unfold wp in Hf. fold (fill calls s) in Hf.
    destruct (fill calls s) as [b [[]|e]]; [|done]. apply Replay_spec; [apply Hf|done].
Qed.
End prefixdb.

(** Two keys below, one of them with the prefix [1]. *)
Section example.
#[local] Existing Instances elements_order Memdb.memdb_database Memdb.memdb_laws.
Definition below : Memdb.Memdb := Memdb.mkMemdb (Some {[ [1; 5] := [10]; [2] := [20] ]}).
Definition first : Prefixdb [1] Memdb.Memdb := mkPrefixdb below false.

(** A batch of three calls, whose last two take effect. *)
Definition calls : list batch_call := [BPut [9] [9]; BReset; BPut [6] [7]; BDelete [5]].
Lemma prefixdb_isolated_witness :
  collect 5 first (NewIterator first) = [([5], [10])] /\
  match run_op [1] (PBatch calls) first with
  | (s', Ok _) => exists base', prep [1] s' base' {[ [6] := [7] ]} /\ base' !! [2] = Some [20] /\ base' !! [1; 6] = Some [7]
  | _ => False
  end.
Proof.
  assert (prep [1] first {[ [1; 5] := [10]; [2] := [20] ]} {[ [5] := [10] ]}) as Hs.
  { split_and!; [done..|]. intros k. destruct (decide (k = [5])) as [->|Hne]; [done|].
    rewrite lookup_singleton_ne by done. symmetry. rewrite lookup_insert_ne by (cbn; congruence).
    by rewrite lookup_singleton_ne by (cbn; congruence). }
  split; [reflexivity|].
  pose proof (proj1 (proj2 (proj2 (prefixdb_isolated [1] first _ _ Hs))) (PBatch calls)) as Hp.
  destruct (run_op [1] (PBatch calls) first) as [s' [[]|e]] eqn:Hr; [|vm_compute in Hr; discriminate Hr].
  destruct Hp as (base' & Hp & _ & Hother). exists base'.
  assert (apply_ops (op_asks (PBatch calls)) {[ [5] := [10] ]} = {[ [6] := [7] ]}) as Heq by (vm_compute; reflexivity).
  rewrite Heq in Hp. split; [exact Hp|]. split; [apply (Hother [2] []); done|]. symmetry. exact (proj2 (proj2 Hp) [6]).
Defined.
End example.
End Prefixdb.
