(* ===== verification/Heap.v ===== *)
(** * Binary heaps
    The priority queue of [utils/heap/queue.go] over [container/heap] of the Go
    library, whose operations work in place on a slice: [up], [down], [Init],
    [Push], [Pop] and [Fix] as the library defines them, and that a queue always has
    a least element at its root. *)
From S2P Require Import Prelude.

Module Heap.
Local Open Scope nat_scope.

Section heap.
Context {A : Type} (less : A -> A -> bool).

(** ** [container/heap]; the indexes are in range. *)
Definition Less (l : list A) (i j : nat) : bool :=
  match l !! i, l !! j with Some x, Some y => less x y | _, _ => false end.
Definition Swap (i j : nat) (l : list A) : list A :=
  match l !! i, l !! j with Some x, Some y => <[i := y]> (<[j := x]> l) | _, _ => l end.

(** The list and the index where the element stops. *)
Fixpoint down_from (fuel i n : nat) (l : list A) : list A * nat :=
  match fuel with
  | O => (l, i)
  | S fuel =>
      let j1 := 2 * i + 1 in
      if n <=? j1 then (l, i)
      else
        let j2 := j1 + 1 in
        let j := if (j2 <? n) && Less l j2 j1 then j2 else j1 in
        if negb (Less l j i) then (l, i) else down_from fuel j n (Swap i j l)
  end.
Definition down (i0 n : nat) (l : list A) : list A * bool :=
  let '(l, i) := down_from n i0 n l in (l, i0 <? i).
Fixpoint up_from (fuel j : nat) (l : list A) : list A :=
  match fuel with
  | O => l
  | S fuel =>
      let i := (j - 1) / 2 in
      if (i =? j) || negb (Less l j i) then l else up_from fuel i (Swap i j l)
  end.
Definition up (j : nat) (l : list A) : list A := up_from (S j) j l.

(** [for i := n/2 - 1; i >= 0; i--], with [i + 1] for [i]. *)
Fixpoint heapify (i n : nat) (l : list A) : list A :=
  match i with O => l | S i => heapify i n (down i n l).1 end.
Definition Init (l : list A) : list A := heapify (length l / 2) (length l) l.

(** ** The queue *)
Definition QueueOf (entries : list A) : list A := Init entries.
Definition NewQueue : list A := QueueOf [].
Definition Len (q : list A) : nat := length q.
Definition Push (t : A) (q : list A) : list A := up (length q) (q ++ [t]).
Definition Pop (q : list A) : list A * option A :=
  if Len q =? 0 then (q, None)
  else
    let n := length q - 1 in
    let q := (down 0 n (Swap 0 n q)).1 in
    (take n q, q !! n).
Definition Peek (q : list A) : option A := if Len q =? 0 then None else q !! 0.
Definition Fix (i : nat) (q : list A) : list A :=
  let '(q, moved) := down i (length q) q in if moved : bool then q else up i q.
End heap.

(** ** Properties *)
Definition parent (j : nat) : nat := (j - 1) / 2.
Lemma parent_spec j : 0 < j -> j = 2 * parent j + 1 \/ j = 2 * parent j + 2.
Proof. unfold parent. intros. pose proof (Nat.div_mod (j - 1) 2). pose proof (Nat.mod_upper_bound (j - 1) 2). lia. Qed.
Lemma parent_lt j : 0 < j -> parent j < j.
Proof. intros. pose proof (parent_spec j). lia. Qed.
Lemma parent_eq i j : 2 * i + 1 <= j <= 2 * i + 2 -> parent j = i.
Proof. intros. pose proof (parent_spec j). lia. Qed.

Definition swapped (i j k : nat) : nat := if k =? i then j else if k =? j then i else k.

Section facts.
(** A strict weak order on the elements that satisfy [P]. *)
Context {A : Type} (less : A -> A -> bool) (P : A -> Prop).
Definition le (x y : A) : Prop := less y x = false.
Class WeakOrder : Prop := {
  less_le x y : P x -> P y -> less x y = true -> le x y;
  le_trans x y z : P x -> P y -> P z -> le x y -> le y z -> le x z;
}.
Context `{!WeakOrder}.
Implicit Types l : list A.

Definition ord l i j : Prop := forall x y, l !! i = Some x -> l !! j = Some y -> le x y.

Lemma Swap_lookup i j l k : i < length l -> j < length l -> Swap i j l !! k = l !! swapped i j k.
Proof.
  intros [x Hx]%lookup_lt_is_Some [y Hy]%lookup_lt_is_Some. unfold Swap, swapped. rewrite Hx, Hy.
  pose proof (lookup_lt_Some _ _ _ Hx). pose proof (lookup_lt_Some _ _ _ Hy).
  destruct (Nat.eqb_spec k i) as [->|Hi]; [by rewrite list_lookup_insert_eq by (by rewrite length_insert)|].
  rewrite list_lookup_insert_ne by done. destruct (Nat.eqb_spec k j) as [->|Hj]; [by rewrite list_lookup_insert_eq|].
  by rewrite list_lookup_insert_ne.
Qed.
Lemma Swap_perm i j l : Swap i j l ≡ₚ l.
Proof. unfold Swap. destruct (l !! i) eqn:Hi, (l !! j) eqn:Hj; try done. by apply Permutation_insert_swap. Qed.
Lemma Swap_length i j l : length (Swap i j l) = length l.
Proof. by rewrite Swap_perm. Qed.
Lemma Swap_forall i j l : Forall P l -> Forall P (Swap i j l).
Proof. by rewrite Swap_perm. Qed.

Lemma ord_swap i j l a b : i < length l -> j < length l -> ord l (swapped i j a) (swapped i j b) -> ord (Swap i j l) a b.
Proof. intros Hi Hj Ho x y. rewrite !Swap_lookup by done. apply Ho. Qed.
Lemma ord_trans l a b c : Forall P l -> b < length l -> ord l a b -> ord l b c -> ord l a c.
Proof.
  intros Hl [y Hy]%lookup_lt_is_Some Hab Hbc x z Hx Hz. pose proof (fun k v => Forall_lookup_1 P l k v Hl) as HP.
  apply (le_trans x y z); eauto.
Qed.
Lemma le_refl x : P x -> le x x.
Proof. intros Hx. unfold le. destruct (less x x) eqn:Hxx; [|done]. apply less_le in Hxx as Hle; [by unfold le in Hle; rewrite Hxx in Hle|done..]. Qed.
Lemma ord_refl l a : Forall P l -> ord l a a.
Proof. intros Hl x y Hx Hy. simplify_eq. by eapply le_refl, Forall_lookup_1. Qed.
Lemma Less_ord l i j : Forall P l -> Less less l i j = true -> ord l i j.
Proof.
  unfold Less. intros Hl Hlt x y Hx Hy. rewrite Hx, Hy in Hlt. pose proof (fun k v => Forall_lookup_1 P l k v Hl) as HP.
  apply less_le; eauto.
Qed.
Lemma not_Less_ord l i j : Less less l i j = false -> ord l j i.
Proof. unfold Less. intros Hlt x y Hx Hy. by rewrite Hx, Hy in Hlt. Qed.

(** The first [n] elements are in order below the indexes from [lo] on; with a hole
    at [i], whose element may be too large, or too small. *)
Definition heap_from l (n lo : nat) : Prop := forall j, 0 < j < n -> lo <= parent j -> ord l (parent j) j.
Definition large_hole l (n lo i : nat) : Prop := forall j, 0 < j < n -> lo <= parent j ->
  (parent j <> i -> ord l (parent j) j) /\ (parent j = i -> 0 < i -> lo <= parent i -> ord l (parent i) j).
Definition any_hole l (n lo i : nat) : Prop := forall j, 0 < j < n -> lo <= parent j ->
  (j <> i -> parent j <> i -> ord l (parent j) j) /\ (parent j = i -> 0 < i -> lo <= parent i -> ord l (parent i) j).
Definition small_hole l (n i : nat) : Prop := forall j, 0 < j < n ->
  (j <> i -> ord l (parent j) j) /\ (parent j = i -> 0 < i -> ord l (parent i) j).

Lemma large_any_hole l n lo i : large_hole l n lo i -> any_hole l n lo i.
Proof. intros Hh j Hj Hlo. destruct (Hh j Hj Hlo). by split. Qed.

(** One step of [down]. *)
Definition child (n : nat) l (i : nat) : nat :=
  let j1 := 2 * i + 1 in if (j1 + 1 <? n) && Less less l (j1 + 1) j1 then j1 + 1 else j1.
Lemma child_spec n l i : Forall P l -> 2 * i + 1 < n -> n <= length l ->
  child n l i < n /\ parent (child n l i) = i /\ i < child n l i /\ forall k, 0 < k < n -> parent k = i -> ord l (child n l i) k.
Proof.
  intros Hl Hn Hlen. unfold child.
  assert (forall k, 0 < k < n -> parent k = i -> k = 2 * i + 1 \/ k = 2 * i + 1 + 1) as Hk by (intros k Hk; pose proof (parent_spec k); lia).
  pose proof (fun a => ord_refl l a Hl) as Hrefl.
  destruct ((2 * i + 1 + 1 <? n) && Less less l (2 * i + 1 + 1) (2 * i + 1)) eqn:Hc.
  - apply andb_true_iff in Hc as [Hlt%Nat.ltb_lt Hless]. split_and!; [lia|apply parent_eq; lia|lia|].
    intros k Hk1 Hk2. destruct (Hk k Hk1 Hk2) as [->| ->]; [by apply Less_ord|done].
  - split_and!; [lia|apply parent_eq; lia|lia|]. intros k Hk1 Hk2. destruct (Hk k Hk1 Hk2) as [->| ->]; [done|].
    apply andb_false_iff in Hc as [Hge%Nat.ltb_ge|Hless]; [lia|by apply not_Less_ord].
Qed.

Lemma large_hole_swap n lo i j l : Forall P l -> n <= length l -> any_hole l n lo i -> 0 < j < n -> parent j = i -> i < j ->
  (forall k, 0 < k < n -> parent k = i -> ord l j k) -> ord l j i -> lo <= i -> large_hole (Swap i j l) n lo j.
Proof.
  intros Hl Hn Hh Hj Hp Hij Hmin Hji Hlo k Hk Hlok. pose proof (parent_lt k) as Hpk.
  split.
  - intros Hne. apply ord_swap; [lia..|]. unfold swapped. destruct (Nat.eqb_spec (parent k) i) as [Hpi|Hpi].
    + destruct (Nat.eqb_spec k i) as [->|]; [lia|]. destruct (Nat.eqb_spec k j); [by subst|by apply Hmin].
    + destruct (Nat.eqb_spec (parent k) j); [done|]. destruct (Nat.eqb_spec k i) as [->|].
      * apply (proj2 (Hh j Hj ltac:(lia))); [done|lia|done].
      * destruct (Nat.eqb_spec k j) as [->|]; [done|]. by apply Hh.
  - intros Hpj _ _. rewrite Hp. apply ord_swap; [lia..|]. unfold swapped. rewrite Nat.eqb_refl.
    destruct (Nat.eqb_spec k i); [lia|]. destruct (Nat.eqb_spec k j); [lia|]. rewrite <- Hpj. apply Hh; [lia..|]. lia.
Qed.

Lemma down_from_eq fuel i n l : down_from less (S fuel) i n l =
  if n <=? 2 * i + 1 then (l, i)
  else if negb (Less less l (child n l i) i) then (l, i) else down_from less fuel (child n l i) n (Swap i (child n l i) l).
Proof. done. Qed.

Lemma down_from_heap fuel i n lo l : Forall P l -> n <= length l -> large_hole l n lo i -> lo <= i -> n <= i + fuel ->
  heap_from (down_from less fuel i n l).1 n lo.
Proof.
  revert i l. induction fuel as [|fuel IH]; intros i l Hl Hn Hh Hlo Hf.
  { intros j Hj Hp. pose proof (parent_lt j). apply Hh; [lia..|]. lia. }
  rewrite down_from_eq. destruct (Nat.leb_spec n (2 * i + 1)) as [Hle|Hlt].
  { intros j Hj Hp. pose proof (parent_spec j). apply Hh; [lia..|]. lia. }
  destruct (child_spec n l i Hl Hlt Hn) as (Hcn & Hcp & Hci & Hmin).
  destruct (Less less l (child n l i) i) eqn:Hless; cbn [negb].
  - apply IH; [by apply Swap_forall|by rewrite Swap_length| |lia|lia].
    apply large_hole_swap; [done..|by apply large_any_hole|lia|done|done|done|by apply Less_ord|done].
  - apply not_Less_ord in Hless. intros j Hj Hp. destruct (Nat.eq_dec (parent j) i) as [Heq|Hne]; [|by apply Hh].
    rewrite Heq. eapply (ord_trans l i (child n l i)); [done|lia|done|by apply Hmin].
Qed.
Lemma down_from_keeps fuel i n l :
  (down_from less fuel i n l).1 ≡ₚ l /\ i <= (down_from less fuel i n l).2 /\
  (forall k, i < n -> n <= length l -> n <= k -> (down_from less fuel i n l).1 !! k = l !! k).
Proof.
  revert i l. induction fuel as [|fuel IH]; intros i l; [by cbn|]. rewrite down_from_eq.
  destruct (Nat.leb_spec n (2 * i + 1)) as [Hle|Hlt]; [by cbn|].
  assert (i < child n l i /\ (n <= length l -> child n l i < n)) as [Hic Hcn].
  { unfold child. destruct ((2 * i + 1 + 1 <? n) && _) eqn:Hc; [|lia]. apply andb_true_iff in Hc as [?%Nat.ltb_lt _]. lia. }
  destruct (Less less l (child n l i) i); cbn [negb]; [|by cbn].
  destruct (IH (child n l i) (Swap i (child n l i) l)) as (Hp & Hi & Hk). split_and!; [by rewrite Hp, Swap_perm|lia|].
  intros k Hin Hn Hnk. rewrite Hk by (rewrite ?Swap_length; lia). rewrite Swap_lookup by lia. unfold swapped.
  destruct (Nat.eqb_spec k i); [lia|]. destruct (Nat.eqb_spec k (child n l i)); [lia|done].
Qed.
Lemma down_perm i n l : (down less i n l).1 ≡ₚ l.
Proof. unfold down. pose proof (down_from_keeps n i n l) as (Hp & _). by destruct (down_from less n i n l). Qed.

Lemma up_from_perm fuel j l : up_from less fuel j l ≡ₚ l.
Proof. revert j l. induction fuel as [|fuel IH]; intros j l; cbn -[Nat.div]; [done|]. destruct (_ || _); [done|]. by rewrite IH, Swap_perm. Qed.

Lemma up_from_eq fuel j l : up_from less (S fuel) j l =
  if (parent j =? j) || negb (Less less l j (parent j)) then l else up_from less fuel (parent j) (Swap (parent j) j l).
Proof. done. Qed.
Lemma up_from_heap fuel j l : Forall P l -> j < length l -> small_hole l (length l) j -> j < fuel ->
  heap_from (up_from less fuel j l) (length l) 0.
Proof.
  revert j l. induction fuel as [|fuel IH]; intros j l Hl Hj Hh Hf; [lia|]. rewrite up_from_eq.
  destruct (Nat.eqb_spec (parent j) j) as [Heq|Hne].
  { cbn [orb]. intros k Hk _. apply Hh; [done|]. intros ->. pose proof (parent_lt j). lia. }
  assert (0 < j) as Hpos by (destruct j; [done|lia]). pose proof (parent_lt j Hpos) as Hpj.
  cbn [orb]. destruct (Less less l j (parent j)) eqn:Hless; cbn [negb].
  2: { intros k Hk _. destruct (Nat.eq_dec k j) as [->|]; [by apply not_Less_ord|by apply Hh]. }
  apply Less_ord in Hless; [|done]. rewrite <- (Swap_length (parent j) j l).
  apply IH; [by apply Swap_forall|rewrite Swap_length; lia| |lia]. rewrite Swap_length.
  assert (forall k, 0 < k < length l -> parent k = parent j -> ord l j k) as Hsib.
  { intros k Hk Hpk. destruct (Nat.eq_dec k j) as [->|].
    - by apply ord_refl.
    - eapply (ord_trans l j (parent j)); [done|lia|done|]. rewrite <- Hpk. by apply Hh. }
  intros k Hk. pose proof (parent_lt k (proj1 Hk)) as Hpk. split.
  - intros Hkp. apply ord_swap; [lia..|]. unfold swapped. destruct (Nat.eqb_spec (parent k) (parent j)) as [Hpp|Hpp].
    + destruct (Nat.eqb_spec k (parent j)); [done|]. destruct (Nat.eqb_spec k j); [done|by apply Hsib].
    + destruct (Nat.eqb_spec k (parent j)); [done|]. destruct (Nat.eqb_spec (parent k) j) as [Hpkj|].
      * destruct (Nat.eqb_spec k j); [lia|]. by apply Hh.
      * destruct (Nat.eqb_spec k j) as [->|]; [done|]. by apply Hh.
  - intros Hpp H0. pose proof (parent_lt _ H0) as Hgp. apply ord_swap; [lia..|]. unfold swapped.
    destruct (Nat.eqb_spec (parent (parent j)) (parent j)); [lia|]. destruct (Nat.eqb_spec (parent (parent j)) j); [lia|].
    destruct (Nat.eqb_spec k (parent j)); [lia|]. assert (ord l (parent (parent j)) (parent j)) as Hgo by (apply Hh; lia).
    destruct (Nat.eqb_spec k j) as [->|]; [done|]. eapply ord_trans; [done| |exact Hgo|rewrite <- Hpp; by apply Hh]. lia.
Qed.

(** ** Queues *)
Definition heap l : Prop := Forall P l /\ heap_from l (length l) 0.

Lemma heap_root l x : heap l -> l !! 0 = Some x -> Forall (le x) l.
Proof.
  intros [Hl Hh] Hx. apply Forall_lookup_2. intros i y Hy. pose proof (lookup_lt_Some _ _ _ Hy) as Hi.
  enough (forall n j, j <= n -> j < length l -> ord l 0 j) as Ho by by apply (Ho i i).
  clear i y Hy Hi. intros n. induction n as [|n IH]; intros j Hj Hlen.
  - assert (j = 0) as -> by lia. by apply ord_refl.
  - destruct (Nat.eq_dec j 0) as [->|]; [apply IH; lia|]. pose proof (parent_lt j).
    eapply (ord_trans l 0 (parent j)); [done|lia|apply IH; lia|apply Hh; lia].
Qed.

Lemma heapify_heap i l : Forall P l -> heap_from l (length l) i -> heap (heapify less i (length l) l) /\ heapify less i (length l) l ≡ₚ l.
Proof.
  revert l. induction i as [|i IH]; intros l Hl Hh; [by split; [split|]|]. cbn.
  pose proof (down_perm i (length l) l) as Hp. pose proof (Permutation_length Hp) as Hlen. rewrite <- Hlen.
  destruct (IH (down less i (length l) l).1) as [Hheap Hperm]; [by rewrite Hp| |split; [rewrite Hlen in *; exact Hheap|rewrite Hlen in *; by rewrite Hperm]].
  rewrite Hlen. unfold down. pose proof (down_from_heap (length l) i (length l) i l Hl) as Hd.
  destruct (down_from less (length l) i (length l) l) as [l' k]. apply Hd; [lia| |lia|lia].
  intros j Hj Hlo. split; [|pose proof (parent_lt i); lia]. intros Hne. apply Hh; lia.
Qed.
Lemma Init_heap l : Forall P l -> heap (Init less l) /\ Init less l ≡ₚ l.
Proof.
  intros Hl. apply heapify_heap; [done|]. intros j Hj Hp. pose proof (parent_spec j). pose proof (Nat.div_mod (length l) 2).
  pose proof (Nat.mod_upper_bound (length l) 2). lia.
Qed.

Lemma Push_heap x l : heap l -> P x -> heap (Push less x l) /\ Push less x l ≡ₚ x :: l.
Proof.
  intros [Hl Hh] Hx. unfold Push, up. pose proof (up_from_perm (S (length l)) (length l) (l ++ [x])) as Hp.
  assert (Forall P (l ++ [x])) as Hl' by by apply Forall_app_2; [|constructor].
  split; [split; [by rewrite Hp|]|by rewrite Hp, Permutation_app_comm].
  rewrite (Permutation_length Hp). apply up_from_heap; [done|rewrite length_app; cbn; lia| |lia].
  intros j Hj. rewrite length_app in Hj. cbn in Hj. pose proof (parent_spec j). split; [|lia].
  intros Hne a b Ha Hb. rewrite lookup_app_l in Ha, Hb by lia. apply (Hh j); [lia..|done|done].
Qed.

Lemma Peek_root l : Peek l = l !! 0.
Proof. by destruct l. Qed.

Lemma Pop_heap l : heap l ->
  match Pop less l with
  | (l', Some x) => l !! 0 = Some x /\ heap l' /\ x :: l' ≡ₚ l
  | (l', None) => l = [] /\ l' = []
  end.
Proof.
  intros [Hl Hh]. unfold Pop, Len. destruct (Nat.eqb_spec (length l) 0) as [Hz|Hnz].
  { apply nil_length_inv in Hz as ->. done. }
  set (n := length l - 1). set (l1 := Swap 0 n l).
  assert (length l1 = length l) as Hlen1 by apply Swap_length. assert (Forall P l1) as Hl1 by by apply Swap_forall.
  destruct (lookup_lt_is_Some_2 l 0) as [x Hx]; [lia|].
  assert (l1 !! n = Some x) as Hn. { unfold l1. rewrite Swap_lookup by lia. unfold swapped. rewrite Nat.eqb_refl. by destruct (Nat.eqb_spec n 0) as [->|]. }
  unfold down. pose proof (down_from_keeps n 0 n l1) as (Hp & _ & Hk).
  assert (heap_from (down_from less n 0 n l1).1 n 0) as Hheap.
  { destruct (Nat.eq_dec n 0) as [->|]; [intros j Hj; lia|]. apply down_from_heap; [done|lia| |lia|lia].
    intros j Hj _. pose proof (parent_lt j). split; [|lia]. intros Hne. apply ord_swap; [lia..|]. unfold swapped.
    destruct (Nat.eqb_spec (parent j) 0), (Nat.eqb_spec (parent j) n), (Nat.eqb_spec j 0), (Nat.eqb_spec j n); try lia. apply Hh; lia. }
  assert ((down_from less n 0 n l1).1 !! n = Some x) as Hkn.
  { destruct (Nat.eq_dec n 0) as [Hn0|]; [|rewrite Hk; [done|lia..]]. rewrite Hn0 in Hn |- *. exact Hn. }
  destruct (down_from less n 0 n l1) as [l2 k]. cbn [fst] in *. rewrite Hkn.
  assert (length l2 = S n) as Hlen2 by (rewrite Hp; lia).
  assert (l2 = take n l2 ++ [x]) as Hsplit.
  { rewrite <- (take_drop n l2) at 1. f_equal. apply list_eq. intros [|i]; [by rewrite lookup_drop, Nat.add_0_r|].
    cbn. apply lookup_ge_None. rewrite length_drop. lia. }
  assert (Forall P l2) as Hl2 by by rewrite Hp.
  split_and!; [done|split; [by apply Forall_take|]|].
  - rewrite length_take. intros j Hj _ a b Ha Hb. apply lookup_take_Some in Ha as [Ha _], Hb as [Hb _]. apply (Hheap j); [lia..|done|done].
  - rewrite <- (Swap_perm 0 n l). fold l1. transitivity (take n l2 ++ [x]); [by rewrite Permutation_app_comm|by rewrite <- Hsplit, Hp].
Qed.

(** [Fix] after the element at [i] has changed. *)
Lemma Fix_heap l i y : heap l -> P y -> i < length l -> heap (Fix less i (<[i := y]> l)) /\ Fix less i (<[i := y]> l) ≡ₚ <[i := y]> l.
Proof.
  intros [Hl Hh] Hy Hi. set (l1 := <[i := y]> l). assert (length l1 = length l) as Hlen by apply length_insert.
  assert (Forall P l1) as Hl1 by by apply Forall_insert.
  assert (any_hole l1 (length l) 0 i) as Hole.
  { intros j Hj _. pose proof (parent_lt j (proj1 Hj)). split.
    - intros Hji Hpi a b. unfold l1. rewrite !list_lookup_insert_ne by done. by apply Hh; [|lia].
    - intros Hpj Hpos _. pose proof (parent_lt i Hpos). intros a b. unfold l1. rewrite !list_lookup_insert_ne by lia.
      revert a b. change (ord l (parent i) j). eapply (ord_trans l (parent i) i); [done|done|apply Hh; lia|]. rewrite <- Hpj. apply Hh; lia. }
  unfold Fix, down. rewrite Hlen. clearbody l1. clear Hh Hl Hy.
  pose proof (down_from_keeps (length l) i (length l) l1) as (Hp & Hge & _).
  destruct (length l) as [|n] eqn:Hn; [lia|]. rewrite down_from_eq in *.
  destruct (Nat.leb_spec (S n) (2 * i + 1)) as [Hle|Hlt]; [|destruct (child_spec (S n) l1 i Hl1 Hlt ltac:(lia)) as (Hcn & Hcp & Hci & Hmin);
    destruct (Less less l1 (child (S n) l1 i) i) eqn:Hless; cbn [negb] in *].
  - rewrite Nat.ltb_irrefl. split; [split|apply up_from_perm].
    + by unfold up; rewrite up_from_perm.
    + unfold up. rewrite (Permutation_length (up_from_perm _ _ _)). apply up_from_heap; [done|lia| |lia]. rewrite Hlen. intros j Hj.
      pose proof (parent_spec j). split; [intros Hji; apply Hole; lia|intros Hpj; lia].
  - pose proof (down_from_keeps n (child (S n) l1 i) (S n) (Swap i (child (S n) l1 i) l1)) as (Hp2 & Hge2 & _).
    pose proof (down_from_heap n (child (S n) l1 i) (S n) 0 (Swap i (child (S n) l1 i) l1)) as Hheap.
    destruct (down_from less n (child (S n) l1 i) (S n) (Swap i (child (S n) l1 i) l1)) as [l2 k]. cbn [fst snd] in *.
    destruct (Nat.ltb_spec i k); [|lia]. rewrite Swap_perm in Hp2. split; [|done]. split; [by rewrite Hp2|]. rewrite (Permutation_length Hp2), Hlen.
    apply Hheap; [by apply Swap_forall|rewrite Swap_length; lia| |lia|lia].
    apply large_hole_swap; [done|lia|done|lia|done|done|done|by apply Less_ord|lia].
  - apply not_Less_ord in Hless. rewrite Nat.ltb_irrefl. split; [split|apply up_from_perm].
    + by unfold up; rewrite up_from_perm.
    + unfold up. rewrite (Permutation_length (up_from_perm _ _ _)). apply up_from_heap; [done|lia| |lia]. rewrite Hlen. intros j Hj. split.
      * intros Hji. destruct (Nat.eq_dec (parent j) i) as [Heq|]; [|apply Hole; [lia..|done|done]]. rewrite Heq.
        eapply (ord_trans l1 i (child (S n) l1 i)); [done|lia|done|by apply Hmin].
      * intros Hpj Hpos. apply (proj2 (Hole j Hj ltac:(lia))); [done..|lia].
Qed.
(** [Pop] does not compare the root. *)
Lemma down_from_app fuel i n l k : n <= length l ->
  down_from less fuel i n (l ++ k) = ((down_from less fuel i n l).1 ++ k, (down_from less fuel i n l).2).
Proof.
  intros Hn. assert (forall m a b, n <= length m -> a < n -> b < n -> Less less (m ++ k) a b = Less less m a b /\ Swap a b (m ++ k) = Swap a b m ++ k) as Happ.
  { intros m a b Hm Ha Hb. unfold Less, Swap. rewrite !lookup_app_l by lia. split; [done|].
    destruct (m !! a), (m !! b); try done. rewrite !insert_app_l by (rewrite ?length_insert; lia). done. }
  revert i l Hn. induction fuel as [|fuel IH]; intros i l Hn; [done|]. rewrite !down_from_eq.
  destruct (Nat.leb_spec n (2 * i + 1)) as [Hle|Hlt]; [done|].
  assert (child n (l ++ k) i = child n l i /\ child n l i < n) as [Hc Hcn].
  { unfold child. destruct (Nat.ltb_spec (2 * i + 1 + 1) n); cbn [andb]; [|lia].
    rewrite (proj1 (Happ l (2 * i + 1 + 1) (2 * i + 1) Hn ltac:(lia) ltac:(lia))). split; [done|]. by destruct (Less _ _ _ _). }
  rewrite Hc. destruct (Happ l (child n l i) i Hn Hcn ltac:(lia)) as [-> _], (Happ l i (child n l i) Hn ltac:(lia) Hcn) as [_ ->].
  destruct (negb _); [done|]. apply IH. by rewrite Swap_length.
Qed.
Lemma Pop_cons x l z : Pop less (x :: l ++ [z]) = ((down less 0 (S (length l)) (z :: l)).1, Some x).
Proof.
  unfold Pop, Len. cbn [length]. rewrite length_app. cbn [length Nat.eqb Nat.sub]. rewrite Nat.sub_0_r, Nat.add_1_r.
  assert (Swap 0 (S (length l)) (x :: l ++ [z]) = (z :: l) ++ [x]) as ->.
  { unfold Swap. change (x :: l ++ [z]) with ((x :: l) ++ [z]). rewrite (list_lookup_middle (x :: l) [] z (S (length l)) eq_refl).
    rewrite lookup_app_l by (cbn; lia). change ((x :: l) !! 0) with (Some x). cbv beta iota. rewrite (insert_app_r_alt (x :: l)) by done. cbn [length]. rewrite Nat.sub_diag. done. }
  unfold down. rewrite down_from_app by done. pose proof (down_from_keeps (S (length l)) 0 (S (length l)) (z :: l)) as (Hp & _).
  destruct (down_from less _ 0 _ (z :: l)) as [l2 i]. cbn [fst snd] in *. apply Permutation_length in Hp. cbn in Hp.
  rewrite <- Hp, take_app_length. rewrite (list_lookup_middle l2 [] x (length l2) eq_refl). done.
Qed.
Lemma Pop_rest x y l : (Pop less (x :: l)).1 = (Pop less (y :: l)).1.
Proof. destruct l as [|z l _] using rev_ind; [done|]. by rewrite !Pop_cons. Qed.
Lemma Pop_perm x l : (Pop less (x :: l)).1 ≡ₚ l.
Proof. destruct l as [|z l _] using rev_ind; [done|]. rewrite Pop_cons. cbn [fst]. by rewrite down_perm, Permutation_app_comm. Qed.
Lemma Fix_perm i l : Fix less i l ≡ₚ l.
Proof.
  unfold Fix. pose proof (down_perm i (length l) l) as Hp. destruct (down less i (length l) l) as [l' []]; cbn [fst] in Hp; [done|].
  unfold up. by rewrite up_from_perm.
Qed.
End facts.
End Heap.
