(* ===== verification/BTree.v ===== *)
(** * B-trees
    The trees of [github.com/google/btree], which is not part of the repository: the
    operations that [interval.Tree] and the staker sets use, as a class, with their
    documented behaviour.  The order is an argument of every operation, as it may
    read fields that change while an item is in the tree. *)
From Stdlib Require Import Sorting.Sorted.
From S2P Require Import Prelude.

Module BTree.

Class BTree (A : Type) := {
  BTreeG : Type;
  NewG : BTreeG;
  ReplaceOrInsert : (A -> A -> bool) -> A -> BTreeG -> BTreeG;
  DeleteItem : (A -> A -> bool) -> A -> BTreeG -> BTreeG;
  HasItem : (A -> A -> bool) -> A -> BTreeG -> bool;
  (** The items that the iterations pass to their callback, in order. *)
  Ascend : BTreeG -> list A;
  AscendGreaterOrEqual : (A -> A -> bool) -> A -> BTreeG -> list A;
  DescendLessOrEqual : (A -> A -> bool) -> A -> BTreeG -> list A;
}.
Arguments BTreeG A {_}.

(** The items are sorted, and no two are equal in the order. *)
Definition sorted_by {A} (less : A -> A -> bool) (l : list A) : Prop := StronglySorted (fun x y => less x y = true) l.

Class BTreeLaws (A : Type) `{BTree A} := {
  new_items : Ascend (A := A) NewG = [];
  insert_items less x t : sorted_by less (Ascend t) ->
    Ascend (ReplaceOrInsert less x t) = filter (fun y => less y x = true) (Ascend t) ++ x :: filter (fun y => less x y = true) (Ascend t);
  delete_items less x t : sorted_by less (Ascend t) ->
    Ascend (DeleteItem less x t) = filter (fun y => less y x = true) (Ascend t) ++ filter (fun y => less x y = true) (Ascend t);
  has_items less x t : sorted_by less (Ascend t) ->
    HasItem less x t = existsb (fun y => negb (less x y) && negb (less y x)) (Ascend t);
  greater_items less x t : sorted_by less (Ascend t) ->
    AscendGreaterOrEqual less x t = filter (fun y => less y x = false) (Ascend t);
  less_items less x t : sorted_by less (Ascend t) ->
    DescendLessOrEqual less x t = filter (fun y => less x y = false) (reverse (Ascend t));
}.

(** Sorted lists keep the contract. *)
Definition list_btree {A} : BTree A := {|
  BTreeG := list A;
  NewG := [];
  ReplaceOrInsert less x l := filter (fun y => less y x = true) l ++ x :: filter (fun y => less x y = true) l;
  DeleteItem less x l := filter (fun y => less y x = true) l ++ filter (fun y => less x y = true) l;
  HasItem less x l := existsb (fun y => negb (less x y) && negb (less y x)) l;
  Ascend l := l;
  AscendGreaterOrEqual less x l := filter (fun y => less y x = false) l;
  DescendLessOrEqual less x l := filter (fun y => less x y = false) (reverse l);
|}.
Lemma list_btree_laws {A} : @BTreeLaws A list_btree.
Proof. by split. Qed.
End BTree.
