(* ===== verification/Iterators.v ===== *)
(** * Iterators
    The iterators of [utils/iterator]: over a slice and over a B-tree, with a filter,
    and the merge of several sorted iterators through a heap.  An iterator of the
    interface [Iterator] is one of these; the goroutine of [tree.go] hands over the
    items of the tree in order, and the tree does not change meanwhile. *)
From Stdlib Require Import Sorting.Sorted.
From stdpp Require Import sorting.
From S2P Require Import Prelude Heap BTree.

Module Iterators.
Import Heap BTree.

Section iterator.
Context {T : Type}.

(** [slice] holds the index, [tree] the current item and the items not yet handed
    over. *)
Inductive Iterator :=
  | Empty
  | slice (index : Z) (elements : list T)
  | tree (current : option T) (next : list T)
  | filtered (it : Iterator) (filter : T -> bool)
  | merged (less : T -> T -> bool) (initialized : bool) (heap : list Iterator).

(** [None] is a value that may not be asked for. *)
Fixpoint Value (it : Iterator) : option T :=
  match it with
  | Empty => None
  | slice index elements => if index <? 0 then None else elements !! Z.to_nat index
  | tree current _ => current
  | filtered it _ => Value it
  | merged _ _ heap => match heap with [] => None | it :: _ => Value it end
  end.

Fixpoint Release (it : Iterator) : Iterator :=
  match it with
  | tree current _ => tree current []
  | filtered it filter => filtered (Release it) filter
  | merged less initialized _ => merged less initialized []
  | _ => it
  end.

Definition it_less (less : T -> T -> bool) (a b : Iterator) : bool :=
  match Value a, Value b with Some x, Some y => less x y | _, _ => false end.

(** [Next] on fuel. *)
Fixpoint next (fuel : nat) (it : Iterator) : Iterator * bool :=
  match fuel with
  | O => (it, false)
  | S fuel =>
      match it with
      | Empty => (Empty, false)
      | slice index elements => (slice (index + 1) elements, index + 1 <? Z.of_nat (length elements))
      | tree _ items =>
          match items with [] => (tree None [], false) | x :: items => (tree (Some x) items, true) end
      | filtered it filter =>
          let '(it, more) := next fuel it in
          if negb more then (filtered it filter, false)
          else
            match Value it with
            | Some element =>
                if negb (filter element) then (filtered it filter, true) else next fuel (filtered it filter)
            | None => (filtered it filter, false)
            end
      | merged less initialized heap =>
          match heap with
          | [] => (it, false)
          | current :: others =>
              if negb initialized then (merged less true heap, true)
              else
                let '(current, more) := next fuel current in
                if more : bool then (merged less true (Fix (it_less less) 0 (current :: others)), true)
                else
                  let heap := (Pop (it_less less) (Release current :: others)).1 in
                  (merged less true heap, negb (Len heap =? 0)%nat)
          end
      end
  end.

(** Enough fuel for [Next]. *)
Fixpoint cost (it : Iterator) : nat :=
  match it with
  | Empty => 1
  | slice index elements => S (Z.to_nat (Z.of_nat (length elements) - (index + 1)))
  | tree _ items => S (length items)
  | filtered it _ => S (cost it)
  | merged _ initialized heap => S (list_sum (map cost heap) + if initialized then 0 else 1)
  end.
Definition Next (it : Iterator) : Iterator * bool := next (cost it) it.

Definition FromSlice (elements : list T) : Iterator := slice (-1) elements.
Definition FromTree `{BTree T} (btree : option (BTreeG T)) : Iterator :=
  match btree with None => Empty | Some t => tree None (Ascend t) end.
Definition Filter (it : Iterator) (filter : T -> bool) : Iterator := filtered it filter.

(** The loop of [Merge], from index [i]. *)
Fixpoint merge_init (fuel i : nat) (iterators : list Iterator) : list Iterator :=
  match fuel with
  | O => iterators
  | S fuel =>
      match iterators !! i with
      | None => iterators
      | Some it =>
          let '(it, more) := Next it in
          if more : bool then merge_init fuel (S i) (<[i := it]> iterators)
          else
            let iterators := <[i := Release it]> iterators in
            let newLength := (length iterators - 1)%nat in
            let iterators := match iterators !! newLength with Some last => <[i := last]> iterators | None => iterators end in
            merge_init fuel i (take newLength iterators)
      end
  end.
Definition Merge (less : T -> T -> bool) (iterators : list Iterator) : Iterator :=
  merged less false (QueueOf (it_less less) (merge_init (length iterators) 0 iterators)).

Fixpoint drain (fuel : nat) (it : Iterator) : list T :=
  match fuel with
  | O => []
  | S fuel => match Next it with
              | (it, true) => match Value it with Some x => x :: drain fuel it | None => [] end
              | (_, false) => []
              end
  end.
Definition ToSlice (it : Iterator) : list T := drain (cost it) it.
End iterator.
Arguments Iterator T : clear implicits.

(** ** Properties *)
Section facts.
Context {T : Type}.
Implicit Types it : Iterator T.

Lemma cost_pos it : (0 < cost it)%nat.
Proof. destruct it; apply Nat.lt_0_succ. Qed.

Lemma cost_perm (l1 l2 : list (Iterator T)) : l1 ≡ₚ l2 -> list_sum (map cost l1) = list_sum (map cost l2).
Proof. induction 1; simpl; lia. Qed.
Lemma next_merged f (less : T -> T -> bool) h hs : next (S f) (merged less true (h :: hs)) =
  let '(h, more) := next f h in
  if more then (merged less true (Fix (it_less less) 0 (h :: hs)), true)
  else (merged less true (Pop (it_less less) (Release h :: hs)).1, negb (Len (Pop (it_less less) (Release h :: hs)).1 =? 0)%nat).
Proof. done. Qed.

(** [next] does not depend on the fuel, once it is enough, and costs. *)
Lemma next_enough f it : (cost it <= f)%nat ->
  (forall f', (cost it <= f')%nat -> next f it = next f' it) /\
  ((next f it).2 = true -> (cost (next f it).1 < cost it)%nat).
Proof.
  revert it. induction f as [|f IH]; intros it Hf; [pose proof (cost_pos it); lia|].
  destruct it as [|i es|cur items|it flt|less init heap]; simpl in Hf.
  - split; [by intros [|f'] Hf'; [cbn in Hf'; lia|]|done].
  - split; [by intros [|f'] Hf'; [simpl in Hf'; lia|]|]. cbn [next fst snd cost]. intros Hlt%Z.ltb_lt. lia.
  - split; [by intros [|f'] Hf'; [simpl in Hf'; lia|]|]. simpl. destruct items; simpl; [done|lia].
  - destruct (IH it) as [Heq Hdec]; [lia|]. split.
    + intros [|f'] Hf'; simpl in Hf'; [lia|]. simpl. rewrite <- (Heq f') by lia.
      destruct (next f it) as [it1 more]. cbn [fst snd] in Hdec. destruct more; cbn [negb]; [|done].
      destruct (Value it1) as [e|]; [|done]. destruct (flt e); cbn [negb]; [|done].
      specialize (Hdec eq_refl). destruct (IH (filtered it1 flt)) as [Heq1 _]; [simpl; lia|]. apply Heq1. simpl. lia.
    + simpl. destruct (next f it) as [it1 more]. cbn [fst snd] in Hdec. destruct more; cbn [negb]; [|done].
      specialize (Hdec eq_refl). destruct (Value it1) as [e|]; [|done]. destruct (flt e); cbn [negb]; [|simpl; lia].
      destruct (IH (filtered it1 flt)) as [_ Hdec1]; [simpl; lia|]. intros Hm. specialize (Hdec1 Hm). simpl in Hdec1. lia.
  - destruct heap as [|h hs]; [split; [by intros [|f'] Hf'; [simpl in Hf'; lia|]|done]|]. simpl in Hf.
    destruct init; [|split; [by intros [|f'] Hf'; [simpl in Hf'; lia|]|simpl; lia]].
    destruct (IH h) as [Heq Hdec]; [lia|]. rewrite next_merged. split.
    + intros [|f'] Hf'; simpl in Hf'; [lia|]. by rewrite next_merged, <- (Heq f') by lia.
    + destruct (next f h) as [h1 more]. cbn [fst snd] in Hdec. destruct more; cbn [fst snd cost]; intros Hm.
      * specialize (Hdec eq_refl). rewrite (cost_perm _ _ (Fix_perm _ _ _)). simpl. lia.
      * rewrite (cost_perm _ _ (Pop_perm _ _ _)). pose proof (cost_pos h). simpl. lia.
Qed.
Lemma next_Next f it : (cost it <= f)%nat -> next f it = Next it.
Proof. intros Hf. by apply next_enough. Qed.
Lemma Next_cost it it' : Next it = (it', true) -> (cost it' < cost it)%nat.
Proof. intros Hn. destruct (next_enough (cost it) it) as [_ Hd]; [done|]. unfold Next in Hn. rewrite Hn in Hd. by apply Hd. Qed.

Lemma Next_filtered it flt : Next (filtered it flt) =
  let '(it, more) := Next it in
  if negb more then (filtered it flt, false)
  else match Value it with
       | Some e => if negb (flt e) then (filtered it flt, true) else Next (filtered it flt)
       | None => (filtered it flt, false)
       end.
Proof.
  unfold Next at 1. cbn [cost next]. rewrite next_Next by lia. destruct (Next it) as [it' more] eqn:Hn. destruct more; [|done]. cbn [negb].
  destruct (Value it') as [e|]; [|done]. destruct (flt e); [|done]. cbn [negb]. apply next_Next. apply Next_cost in Hn. simpl. lia.
Qed.
Lemma Next_merged (less : T -> T -> bool) h hs : Next (merged less true (h :: hs)) =
  let '(h, more) := Next h in
  if more then (merged less true (Fix (it_less less) 0 (h :: hs)), true)
  else let heap := (Pop (it_less less) (Release h :: hs)).1 in (merged less true heap, negb (Len heap =? 0)%nat).
Proof. unfold Next at 1. cbn [cost next negb map]. by rewrite next_Next by (simpl; lia). Qed.

(** What an iterator hands over. *)
Inductive yields : Iterator T -> list T -> Prop :=
  | yields_nil it it' : Next it = (it', false) -> yields it []
  | yields_cons it it' x l : Next it = (it', true) -> Value it' = Some x -> yields it' l -> yields it (x :: l).

Lemma yields_unique it l l' : yields it l -> yields it l' -> l = l'.
Proof.
  intros Hy. revert l'. induction Hy as [it it' Hn|it it' x l Hn Hv Hy IH]; intros l' Hl'; inversion Hl' as [it0 it1 Hn'|it0 it1 y l1 Hn' Hv' Hy']; subst;
    rewrite Hn in Hn'; simplify_eq; [done|]. f_equal. by apply IH.
Qed.
Lemma yields_drain it l n : yields it l -> (length l < n)%nat -> drain n it = l.
Proof.
  intros Hy. revert n. induction Hy as [it it' Hn|it it' x l Hn Hv Hy IH]; intros [|n] Hlen; cbn in *; try lia; rewrite Hn; [done|].
  rewrite Hv. f_equal. apply IH. lia.
Qed.
Lemma yields_cost it l : yields it l -> (length l < cost it)%nat.
Proof. induction 1 as [it it' Hn|it it' x l Hn Hv Hy IH]; [apply cost_pos|]. apply Next_cost in Hn. cbn. lia. Qed.
Lemma ToSlice_yields it l : yields it l -> ToSlice it = l.
Proof. intros Hy. apply yields_drain; [done|by apply yields_cost]. Qed.

Lemma yields_empty : yields Empty [].
Proof. by econstructor. Qed.
Lemma yields_tree cur l : yields (tree cur l) l.
Proof. revert cur. induction l as [|x l IH]; intros cur; by econstructor. Qed.
Lemma yields_slice_from i es : (i <= length es)%nat -> yields (slice (Z.of_nat i - 1) es) (drop i es).
Proof.
  remember (length es - i)%nat as n eqn:Hn. revert i Hn. induction n as [|n IH]; intros i Hn Hi.
  - rewrite drop_ge by lia. eapply yields_nil. unfold Next. cbn [cost next]. do 2 f_equal. by apply Z.ltb_ge; lia.
  - destruct (lookup_lt_is_Some_2 es i) as [x Hx]; [lia|]. rewrite (drop_S es x i Hx).
    eapply (yields_cons _ (slice (Z.of_nat (S i) - 1) es)); [|cbn|apply IH; lia].
    + unfold Next. cbn [cost next]. f_equal; [f_equal; lia|by apply Z.ltb_lt; lia].
    + destruct (Z.ltb_spec (Z.of_nat (S i) - 1) 0); [lia|]. by replace (Z.to_nat (Z.of_nat (S i) - 1)) with i by lia.
Qed.
Lemma yields_slice es : yields (FromSlice es) es.
Proof. apply (yields_slice_from 0 es). lia. Qed.
Lemma yields_filter it l flt : yields it l -> yields (Filter it flt) (filter (fun x => flt x = false) l).
Proof.
  unfold Filter. induction 1 as [it it' Hn|it it' x l Hn Hv Hy IH].
  - eapply yields_nil. by rewrite Next_filtered, Hn.
  - rewrite filter_cons. destruct (flt x) eqn:Hf.
    + rewrite decide_False by done. inversion IH as [? it1 Hn1|? it1 y l1 Hn1 Hv1 Hy1]; subst;
        [eapply yields_nil|eapply yields_cons; [|exact Hv1|exact Hy1]]; rewrite Next_filtered, Hn; cbn [negb]; rewrite Hv, Hf; exact Hn1.
    + rewrite decide_True by done. apply (yields_cons _ (filtered it' flt)); [|exact Hv|exact IH]. rewrite Next_filtered, Hn. cbn [negb]. by rewrite Hv, Hf.
Qed.

(** ** Merging sorted iterators *)
Section merge.
Variables (less : T -> T -> bool) (P : T -> Prop).
Context `{!WeakOrder less P}.

Definition sorted (l : list T) : Prop := Forall P l /\ StronglySorted (le less) l.
Lemma sorted_cons x l : sorted (x :: l) <-> P x /\ sorted l /\ Forall (le less x) l.
Proof.
  unfold sorted. rewrite Forall_cons. split.
  - intros [[? ?] [? ?]%StronglySorted_inv]. done.
  - intros (? & [? ?] & ?). split; [done|]. by constructor.
Qed.

Definition valued (it : Iterator T) : Prop := exists x, Value it = Some x /\ P x.
#[export] Instance it_weak_order : WeakOrder (it_less less) valued.
Proof.
  split.
  - intros a b (x & Hx & HPx) (y & Hy & HPy). unfold le, it_less. rewrite Hx, Hy. by apply (less_le less P).
  - intros a b c (x & Hx & HPx) (y & Hy & HPy) (z & Hz & HPz). unfold le, it_less. rewrite Hx, Hy, Hz. by apply (le_trans less P).
Qed.

(** An iterator that is at [xl.1] and hands over [xl.2]. *)
Definition holds (it : Iterator T) (xl : T * list T) : Prop :=
  Value it = Some xl.1 /\ yields it xl.2 /\ sorted (xl.1 :: xl.2).
Definition contents (xls : list (T * list T)) : list T := xls ≫= fun xl => xl.1 :: xl.2.
Lemma contents_perm xls xls' : xls ≡ₚ xls' -> contents xls ≡ₚ contents xls'.
Proof. unfold contents. by intros ->. Qed.
Lemma holds_valued its xls : Forall2 holds its xls -> Forall valued its.
Proof. induction 1 as [|it xl its xls (Hv & _ & Hs) _ IH]; constructor; [|done]. exists xl.1. split; [done|]. by apply sorted_cons in Hs as [? _]. Qed.

Lemma root_least h x its xls : Value h = Some x -> P x -> Forall (le (it_less less) h) its -> Forall2 holds its xls ->
  Forall (le less x) (contents xls) /\ Forall P (contents xls).
Proof.
  intros Hx HPx Hle HR. induction HR as [|it [y k] its xls (Hv & _ & Hs) _ IH]; [done|]. apply Forall_cons in Hle as [Hhit Hle].
  destruct (IH Hle) as [IH1 IH2]. apply sorted_cons in Hs as (HPy & [HPk _] & Hyk). cbn [fst snd] in *.
  assert (le less x y) as Hxy by (unfold le, it_less in Hhit; by rewrite Hv, Hx in Hhit).
  unfold contents. rewrite bind_cons. cbn [fst snd]. split; (apply Forall_app_2; [constructor; [done|]|done]); [|done].
  rewrite Forall_forall in HPk. rewrite Forall_forall in Hyk. apply Forall_forall. intros z Hz. apply (le_trans less P x y z); eauto.
Qed.

(** The heap after the root has moved, or is gone. *)
Lemma yields_heap n its xls heap : (length (contents xls) <= n)%nat -> Forall2 holds its xls ->
  Heap.heap (it_less less) valued heap -> heap ≡ₚ its ->
  (heap = [] /\ xls = []) \/ exists r x, Value (merged less true heap) = Some x /\
    yields (merged less true heap) r /\ x :: r ≡ₚ contents xls /\ sorted (x :: r).
Proof.
  revert its xls heap. induction n as [|n IH]; intros its xls heap Hn HR Hh Hp.
  - destruct HR as [|it xl its xls]; [by apply Permutation_nil_r in Hp; left|]. unfold contents in Hn. rewrite bind_cons in Hn. cbn in Hn. lia.
  - destruct heap as [|h hs].
    { apply Permutation_nil in Hp as ->. inversion HR. by left. }
    right. destruct (Permutation_Forall2 (Permutation_sym Hp) HR) as (xls' & Hxls & HR').
    pose proof (contents_perm _ _ Hxls) as Hc. rewrite Hc in Hn. setoid_rewrite Hc. clear its xls Hp HR Hxls Hc. rename xls' into xls.
    inversion HR' as [|? [x l] ? xls0 (Hv & Hy & Hs) HR0]; subst. cbn [fst snd] in *.
    pose proof Hs as (HPx & Hsl & Hxl)%sorted_cons. pose proof (heap_root _ _ _ _ Hh eq_refl) as Hroot.
    destruct (root_least h x _ _ Hv HPx Hroot HR') as [Hleast HPall].
    assert (forall its' xls' heap', Forall2 holds its' xls' -> Heap.heap (it_less less) valued heap' -> heap' ≡ₚ its' ->
      contents ((x, l) :: xls0) ≡ₚ x :: contents xls' ->
      Next (merged less true (h :: hs)) = (merged less true heap', negb (Len heap' =? 0)%nat) ->
      exists r x0, Some x = Some x0 /\ yields (merged less true (h :: hs)) r /\ x0 :: r ≡ₚ contents ((x, l) :: xls0) /\ sorted (x0 :: r)) as Hnext.
    { intros its' xls' heap' HR1 Hh1 Hp1 Hc Hnx. rewrite Hc in Hleast, Hn.
      destruct (IH its' xls' heap') as [[-> ->]|(r & x0 & Hv0 & Hy0 & Hr0 & Hs0)]; [cbn in Hn; lia|done|done|done| |].
      - exists [], x. split; [done|]. split; [eapply yields_nil; exact Hnx|]. split; [symmetry; exact Hc|]. apply sorted_cons. split; [done|]. by split; [split; constructor|].
      - exists (x0 :: r), x. split; [done|]. split; [|split; [by rewrite Hc, Hr0|]].
        + eapply yields_cons; [|exact Hv0|exact Hy0]. rewrite Hnx. by destruct heap'.
        + apply sorted_cons. split_and!; [done|done|]. rewrite Hr0. by apply Forall_cons in Hleast as [_ ?]. }
    cbn [Value]. rewrite Hv.
    inversion Hy as [? h' Hnx|? h' y l' Hnx Hv' Hy']; subst.
    + apply (Hnext hs xls0 (Pop (it_less less) (Release h' :: hs)).1); [done| |apply Pop_perm|done|].
      * rewrite (Pop_rest _ (Release h') h). pose proof (Pop_heap (it_less less) valued (h :: hs) Hh) as Hpop.
        destruct (Pop (it_less less) (h :: hs)) as [l1 [z|]]; [by destruct Hpop as (_ & ? & _)|by destruct Hpop].
      * by rewrite Next_merged, Hnx.
    + apply sorted_cons in Hs as (_ & Hs' & _).
      apply (Hnext (h' :: hs) ((y, l') :: xls0) (Fix (it_less less) 0 (h' :: hs))); [by constructor| |apply Fix_perm|done|].
      * apply (Fix_heap (it_less less) valued (h :: hs) 0%nat h'); [done| |cbn; lia]. exists y. split; [done|by apply sorted_cons in Hs' as [? _]].
      * rewrite Next_merged, Hnx. f_equal. unfold Len. rewrite (Permutation_length (Fix_perm _ _ _)). done.
Qed.

Definition source (it : Iterator T) (l : list T) : Prop := yields it l /\ sorted l.

Lemma merge_init_spec fuel done todo xls ls : (length todo <= fuel)%nat -> Forall2 holds done xls -> Forall2 source todo ls ->
  exists xls', Forall2 holds (merge_init fuel (length done) (done ++ todo)) xls' /\ contents xls' ≡ₚ contents xls ++ mjoin ls.
Proof.
  revert done todo xls ls. induction fuel as [|fuel IH]; intros done todo xls ls Hf Hd Ht.
  - destruct Ht; [|cbn in Hf; lia]. exists xls. cbn. by rewrite !app_nil_r.
  - destruct Ht as [|it l todo ls [Hy Hs] Ht]; cbn [merge_init].
    + rewrite app_nil_r, lookup_ge_None_2 by done. exists xls. cbn. by rewrite app_nil_r.
    + rewrite (list_lookup_middle done todo it _ eq_refl). cbn in Hf.
      assert (forall j : Iterator T, <[length done := j]> (done ++ it :: todo) = done ++ j :: todo) as Hins
        by (intros j; by rewrite insert_app_r_alt, Nat.sub_diag by done).
      inversion Hy as [? it' Hn|? it' x l' Hn Hv Hy']; subst; rewrite Hn, Hins.
      * destruct todo as [|z todo _] using rev_ind.
        { inversion Ht; subst. rewrite length_app, Nat.add_sub. rewrite lookup_app_r, Nat.sub_diag by done. cbn [list_lookup lookup].
          rewrite insert_app_r_alt, Nat.sub_diag by done. rewrite take_app_length. destruct (IH done [] xls []) as (xls' & HR & Hc); [cbn; lia|done|done|].
          exists xls'. cbn in Hc |- *. by rewrite app_nil_r in HR. }
        apply Forall2_app_inv_l in Ht as (la & lb & Hla & Hlb & ->). inversion Hlb as [|? lz ? ? Hz Hnil]; subst. inversion Hnil; subst.
        assert (forall j : Iterator T, length (done ++ j :: todo ++ [z]) - 1 = length done + S (length todo))%nat as Hlen
          by (intros j; rewrite !length_app; cbn; rewrite length_app; cbn; lia).
        rewrite Hlen. rewrite lookup_app_r, Nat.add_comm, Nat.add_sub by lia.
        pose proof (list_lookup_middle (Release it' :: todo) [] z (S (length todo)) eq_refl) as Hl. cbn [app] in Hl. rewrite Hl.
        rewrite insert_app_r_alt, Nat.sub_diag by done. cbn [list_insert insert].
        rewrite app_comm_cons, app_assoc, take_app_length' by (rewrite length_app; cbn; lia).
        destruct (IH done (z :: todo) xls (lz :: la)) as (xls' & HR & Hc); [rewrite length_app in Hf; cbn in Hf |- *; lia|done|by constructor|].
        exists xls'. split; [done|]. rewrite Hc. f_equiv. cbn [app]. change (mjoin (lz :: la)) with (lz ++ mjoin la). change (mjoin ([] :: la ++ [lz])) with (mjoin (la ++ [lz])).
        rewrite join_app. cbn. by rewrite app_nil_r, Permutation_app_comm.
      * destruct (IH (done ++ [it']) todo (xls ++ [(x, l')]) ls) as (xls' & HR & Hc); [lia|by apply Forall2_app; [|constructor]|done|].
        rewrite length_app, Nat.add_1_r, <- app_assoc in HR. exists xls'. split; [exact HR|]. rewrite Hc. unfold contents. rewrite bind_app. cbn.
        by rewrite app_nil_r, <- app_assoc.
Qed.

Lemma yields_Merge its ls : Forall2 source its ls ->
  exists l, yields (Merge less its) l /\ l ≡ₚ mjoin ls /\ sorted l.
Proof.
  intros Hs. destruct (merge_init_spec (length its) [] its [] ls) as (xls & HR & Hc); [done|done|done|]. cbn [app length] in *. unfold Merge.
  set (heap0 := merge_init _ _ _) in *. destruct (Init_heap (it_less less) valued heap0) as [Hh Hp]; [by eapply holds_valued|].
  fold (QueueOf (it_less less) heap0) in Hh, Hp. set (heap := QueueOf _ heap0) in *.
  destruct (yields_heap (length (contents xls)) heap0 xls heap) as [[Hnil ->]|(r & x & Hv & Hy & Hr & Hsr)]; [done|done|done|done| |].
  - exists []. rewrite Hnil. split; [by eapply yields_nil|]. split; [by rewrite <- Hc|by split; constructor].
  - exists (x :: r). split; [|split; [by rewrite Hr, Hc|done]]. destruct heap as [|h hs]; [done|]. eapply yields_cons; [done|exact Hv|exact Hy].
Qed.
End merge.
End facts.

(** C25: [Merge] of sorted iterators hands over all their elements in order, and each as
    often as it occurs; its heap of iterators is in order after every step, and an
    iterator that has ended is dropped. *)
Theorem Merge_correct {T : Type} (less : T -> T -> bool) (P : T -> Prop) (its : list (Iterator T)) (ls : list (list T)) :
  WeakOrder less P -> Forall2 yields its ls -> Forall (sorted less P) ls ->
  yields (Merge less its) (ToSlice (Merge less its)) /\ ToSlice (Merge less its) ≡ₚ mjoin ls /\ sorted less P (ToSlice (Merge less its)).
Proof.
  intros Hw Hy Hs. destruct (yields_Merge less P its ls) as (l & Hl & Hp & Hsl).
  { revert Hs. induction Hy; intros Hs; constructor; apply Forall_cons in Hs as [? ?]; [by split|auto]. }
  by rewrite (ToSlice_yields _ _ Hl).
Qed.
Lemma Merge_correct_witness :
  let its := [FromSlice [1; 4; 4]; FromSlice []; Filter (FromSlice [2; 3; 4; 9]) (Z.eqb 3)] in
  ToSlice (Merge Z.ltb its) = [1; 2; 4; 4; 4; 9] /\
  (yields (Merge Z.ltb its) (ToSlice (Merge Z.ltb its)) /\ ToSlice (Merge Z.ltb its) ≡ₚ mjoin [[1; 4; 4]; []; [2; 4; 9]] /\
    sorted Z.ltb (fun _ => True) (ToSlice (Merge Z.ltb its))).
Proof.
  split; [reflexivity|]. apply (Merge_correct Z.ltb (fun _ => True)).
  - split; unfold le; intros *; intros; rewrite ?Z.ltb_lt, ?Z.ltb_ge in *; lia.
  - repeat constructor; [apply yields_slice|apply (yields_slice [])|]. exact (yields_filter _ _ (Z.eqb 3) (yields_slice [2; 3; 4; 9])).
  - repeat constructor.
Defined.
End Iterators.

(** ** Trees of items with keys
    The staker sets, the L1 validators and the expiry entries of the P-chain are kept
    in B-trees whose order tells items with different keys apart.  What such a tree
    and the iterators over it hold is a set of items; this file has the laws that
    the components share. *)
Module KeyedTrees.
Import Heap BTree Iterators.

(** A strict order that is total on items with different keys. *)
Class KeyedOrder {A K : Type} (less : A -> A -> bool) (key : A -> K) : Prop := {
  less_irrefl x : less x x = false;
  less_trans x y z : less x y = true -> less y z = true -> less x z = true;
  less_cotrans x y z : less x z = true -> less x y = true \/ less y z = true;
  less_total x y : key x <> key y -> less x y = true \/ less y x = true;
}.

Section keyed.
Context {A K : Type} (less : A -> A -> bool) (key : A -> K).
Context `{!KeyedOrder less key, EqDecision K}.

Lemma less_asym x y : less x y = true -> less y x = false.
Proof. intros Hxy. destruct (less y x) eqn:Hyx; [|done]. pose proof (less_trans x y x Hxy Hyx) as Hxx. by rewrite less_irrefl in Hxx. Qed.

(** Items with equal keys are equal. *)
Definition same_key (P : A -> Prop) (x : A) : Prop := forall y, P y -> key y = key x -> y = x.

Lemma sorted_by_filter (l : list A) (f : A -> Prop) `{!forall x, Decision (f x)} : sorted_by less l -> sorted_by less (filter f l).
Proof.
  unfold sorted_by. induction 1 as [|x l _ IH Hx]; [constructor|]. rewrite filter_cons. case_decide; [|done].
  constructor; [done|]. rewrite Forall_forall in Hx |- *. intros y [_ Hy]%list_elem_of_filter. by apply Hx.
Qed.

Lemma insert_sorted x l : sorted_by less l -> sorted_by less (filter (fun y => less y x = true) l ++ x :: filter (fun y => less x y = true) l).
Proof.
  intros Hs. unfold sorted_by. rewrite StronglySorted_app. split_and!.
  - intros y z [Hyx _]%list_elem_of_filter [->|[Hxz _]%list_elem_of_filter]%elem_of_cons; [done|by apply (less_trans y x z)].
  - by apply sorted_by_filter.
  - constructor; [by apply sorted_by_filter|]. apply Forall_forall. by intros y [Hy _]%list_elem_of_filter.
Qed.

Lemma sorted_by_nodup l : sorted_by less l -> NoDup l.
Proof.
  induction 1 as [|x l _ IH Hx]; constructor; [|done]. rewrite Forall_forall in Hx. intros Hin. specialize (Hx x Hin). by rewrite less_irrefl in Hx.
Qed.

Lemma sorted_by_unique l l' : sorted_by less l -> sorted_by less l' -> (forall x, x ∈ l <-> x ∈ l') -> l = l'.
Proof.
  intros Hs Hs' Hl. pose proof sorted_by_nodup as Hnd.
  apply (StronglySorted_unique_strong (fun x y => less x y = true)); [|done|done|].
  - intros x y _ _ Hxy Hyx. apply less_asym in Hxy. congruence.
  - apply NoDup_Permutation; auto.
Qed.

#[export] Instance keyed_weak_order : WeakOrder less (fun _ => True).
Proof.
  split.
  - intros x y _ _. apply less_asym.
  - unfold le. intros x y z _ _ _ Hxy Hyz. destruct (less z x) eqn:Hzx; [|done]. destruct (less_cotrans z y x Hzx); congruence.
Qed.

(** ** What a tree holds *)
Section tree.
Context `{BTreeLaws A}.
Definition holds_items (t : BTreeG A) (P : A -> Prop) : Prop := sorted_by less (Ascend t) /\ forall x, x ∈ Ascend t <-> P x.

Lemma holds_new : holds_items NewG (fun _ => False).
Proof. split; rewrite new_items; [constructor|]. intros x. by rewrite elem_of_nil. Qed.
Lemma holds_ext t P Q : holds_items t P -> (forall x, P x <-> Q x) -> holds_items t Q.
Proof. intros [Hs Ht] HPQ. split; [done|]. intros x. by rewrite Ht. Qed.
Lemma holds_insert t P x : holds_items t P -> same_key P x -> holds_items (ReplaceOrInsert less x t) (fun y => P y \/ y = x).
Proof.
  intros [Hs Ht] Hx. split; rewrite insert_items by done; [by apply insert_sorted|]. intros y.
  rewrite elem_of_app, elem_of_cons, !list_elem_of_filter, Ht. split; [naive_solver|]. intros [Hy| ->]; [|by right; left].
  destruct (decide (key y = key x)) as [Heq|Hne]; [right; left; by apply Hx|]. destruct (less_total y x Hne); naive_solver.
Qed.
Lemma holds_delete t P x : holds_items t P -> same_key P x -> holds_items (DeleteItem less x t) (fun y => P y /\ y <> x).
Proof.
  intros [Hs Ht] Hx. split; rewrite delete_items by done.
  - pose proof (insert_sorted x _ Hs) as Hi. revert Hi. unfold sorted_by. rewrite !StronglySorted_app, StronglySorted_cons.
    intros (Hi & ? & [_ ?]). split_and!; [|done|done]. intros y z Hy Hz. apply Hi; [done|by right].
  - intros y. rewrite elem_of_app, !list_elem_of_filter, Ht. split.
    + intros [[Hl Hy]|[Hl Hy]]; (split; [done|]); intros ->; by rewrite less_irrefl in Hl.
    + intros [Hy Hne]. destruct (decide (key y = key x)) as [Heq|Hk]; [by destruct Hne; apply Hx|]. destruct (less_total y x Hk); naive_solver.
Qed.
End tree.

(** ** What an iterator hands over *)
Definition lists (it : Iterator A) (P : A -> Prop) : Prop := exists l, yields it l /\ sorted_by less l /\ forall x, x ∈ l <-> P x.

Lemma lists_ext it P Q : lists it P -> (forall x, P x <-> Q x) -> lists it Q.
Proof. intros (l & Hy & Hs & Hl) HPQ. exists l. split_and!; [done|done|]. intros x. by rewrite Hl. Qed.
Lemma lists_empty : lists Empty (fun _ => False).
Proof. exists []. split_and!; [apply yields_empty|constructor|]. intros x. by rewrite elem_of_nil. Qed.
Lemma lists_tree `{BTreeLaws A} t P : holds_items t P -> lists (FromTree (Some t)) P.
Proof. intros [Hs Ht]. exists (Ascend t). split_and!; [apply yields_tree|done|done]. Qed.
Lemma lists_filter it P flt : lists it P -> lists (Filter it flt) (fun x => P x /\ flt x = false).
Proof.
  intros (l & Hy & Hs & Hl). eexists. split; [by apply yields_filter|]. split; [by apply sorted_by_filter|].
  intros x. rewrite list_elem_of_filter, Hl. naive_solver.
Qed.
Lemma sorted_by_le l : sorted_by less l -> sorted less (fun _ => True) l.
Proof.
  intros Hs. split; [by apply Forall_forall|]. induction Hs as [|x l _ IH Hx]; constructor; [done|].
  eapply Forall_impl; [exact Hx|]. intros y. apply less_asym.
Qed.
Lemma sorted_by_comparable l x y : sorted_by less l -> x ∈ l -> y ∈ l -> x <> y -> less x y = true \/ less y x = true.
Proof.
  induction 1 as [|z l _ IH Hz]; [by intros ?%elem_of_nil|]. rewrite Forall_forall in Hz.
  rewrite !elem_of_cons. intros [->|Hx] [->|Hy] Hne; [done|left; by apply Hz|right; by apply Hz|by apply IH].
Qed.
Lemma le_sorted_by l : StronglySorted (le less) l -> NoDup l -> (forall x y, x ∈ l -> y ∈ l -> x <> y -> less x y = true \/ less y x = true) ->
  sorted_by less l.
Proof.
  induction 1 as [|x l _ IH Hx]; intros Hnd Hc; [constructor|]. apply NoDup_cons in Hnd as [Hni Hnd]. constructor.
  - apply IH; [done|]. intros y z Hy Hz. apply Hc; by right.
  - rewrite Forall_forall in Hx. apply Forall_forall. intros y Hy. specialize (Hx y Hy). unfold le in Hx.
    destruct (Hc x y) as [?|Hyx]; [by left|by right|by intros ->|done|congruence].
Qed.

Lemma lists_Merge it1 it2 P Q : lists it1 P -> lists it2 Q -> (forall x y, P x -> Q y -> key x <> key y) ->
  lists (Merge less [it1; it2]) (fun x => P x \/ Q x).
Proof.
  intros (l1 & Hy1 & Hs1 & Hl1) (l2 & Hy2 & Hs2 & Hl2) Hd.
  destruct (yields_Merge less (fun _ => True) [it1; it2] [l1; l2]) as (l & Hy & Hp & [_ Hs]).
  { repeat constructor; try done; by apply sorted_by_le. }
  cbn in Hp. rewrite app_nil_r in Hp. exists l. split; [done|]. split; [|intros x; by rewrite Hp, elem_of_app, Hl1, Hl2].
  apply le_sorted_by; [done| |].
  - rewrite Hp. apply NoDup_app. split_and!; [by apply sorted_by_nodup| |by apply sorted_by_nodup].
    intros x Hx1 Hx2. apply Hl1 in Hx1. apply Hl2 in Hx2. by apply (Hd x x).
  - intros x y. rewrite !Hp, !elem_of_app. intros [Hx|Hx] [Hy'|Hy'] Hne; [by apply (sorted_by_comparable l1)| | |by apply (sorted_by_comparable l2)];
      apply less_total; [apply Hd; [by apply Hl1|by apply Hl2]|intros Heq; symmetry in Heq; revert Heq; apply Hd; [by apply Hl1|by apply Hl2]].
Qed.

Lemma lists_unique it P Q : lists it P -> lists it Q -> forall x, P x <-> Q x.
Proof. intros (l & Hy & _ & Hl) (l' & Hy' & _ & Hl') x. rewrite <- Hl, <- Hl'. by rewrite (yields_unique _ _ _ Hy Hy'). Qed.
Lemma lists_ToSlice it P : lists it P -> sorted_by less (ToSlice it) /\ forall x, x ∈ ToSlice it <-> P x.
Proof. intros (l & Hy & Hs & Hl). by rewrite (ToSlice_yields _ _ Hy). Qed.
End keyed.
End KeyedTrees.
