(* ===== verification/Stakers.v ===== *)
(** * Stakers of the P-chain
    Models [vms/platformvm/state/staker.go], [staker_status.go] and [stakers.go]: the
    order of stakers, the sets of stakers that the state keeps in memory
    ([baseStakers]) and the changes to such a set ([diffStakers]).  A missing tree or
    map is [None] or empty; stakers do not change once they are stored. *)
From S2P Require Import Prelude Monads SafeMath MapOrder Sorting BTree Iterators.

Module Stakers.
Import Sorting BTree Iterators.

Abbreviation ID := (list Z).

(** Times are in seconds; [Before] is [<?]. *)
Record Staker (PublicKey : Type) := mkStaker {
  TxID : ID;
  NodeID : ID;
  PubKey : option PublicKey;
  SubnetID : ID;
  Weight : Z;
  StartTime : Z;
  EndTime : Z;
  PotentialReward : Z;
  NextTime : Z;
  Priority : Z;
}.
Arguments mkStaker {PublicKey}.
Arguments TxID {PublicKey} s.
Arguments NodeID {PublicKey} s.
Arguments PubKey {PublicKey} s.
Arguments SubnetID {PublicKey} s.
Arguments Weight {PublicKey} s.
Arguments StartTime {PublicKey} s.
Arguments EndTime {PublicKey} s.
Arguments PotentialReward {PublicKey} s.
Arguments NextTime {PublicKey} s.
Arguments Priority {PublicKey} s.

Inductive StateErr :=
  | ErrNotFound
  | ErrAddingStakerAfterDeletion
  | ErrMissingParentState
  | ErrMutatedL1Validator
  | ErrConflictingL1Validator
  | ErrDuplicateL1Validator
  | errIsNotSubnet
  | ErrMath (e : SafeMath.MathError)
  | ErrFault (code : Z)
  | Panic.

Definition of_math {A} (r : result SafeMath.MathError A) : result StateErr A :=
  match r with Ok a => Ok a | Err e => Err (ErrMath e) end.

Inductive diffValidatorStatus := unmodified | added | deleted.
#[export] Instance diffValidatorStatus_eq_dec : EqDecision diffValidatorStatus.
Proof. solve_decision. Defined.

(** [ValidatorWeightDiff] of [state.go]. *)
Record ValidatorWeightDiff := mkWeightDiff { Decrease : bool; Amount : Z }.
Definition addOrSub (sub : bool) (amount : Z) (v : ValidatorWeightDiff) : result StateErr ValidatorWeightDiff :=
  if bool_decide (Decrease v = sub) then
    a ← of_math (SafeMath.Add 64 (Amount v) amount);
    Ok (mkWeightDiff (Decrease v) a)
  else if amount <? Amount v then Ok (mkWeightDiff (Decrease v) (wrap64 (Amount v - amount)))
  else Ok (mkWeightDiff sub (SafeMath.AbsDiff 64 (Amount v) amount)).
Definition wd_Add : Z -> ValidatorWeightDiff -> result StateErr ValidatorWeightDiff := addOrSub false.
Definition wd_Sub : Z -> ValidatorWeightDiff -> result StateErr ValidatorWeightDiff := addOrSub true.

Section stakers.
Context {PK : Type} `{BTree (Staker PK)}.
Abbreviation Staker := (Staker PK).
Abbreviation tree := (BTreeG Staker).

Definition Less (s than : Staker) : bool :=
  if NextTime s <? NextTime than then true
  else if NextTime than <? NextTime s then false
  else if Priority s <? Priority than then true
  else if Priority than <? Priority s then false
  else bytes_Compare (TxID s) (TxID than) =? -1.

(** [tree.ReplaceOrInsert] on a tree that is created on demand. *)
Definition insert_new (t : option tree) (s : Staker) : option tree := Some (ReplaceOrInsert Less s (default NewG t)).

Record diffValidator := mkDiffValidator {
  validatorStatus : diffValidatorStatus;
  validator : option Staker;
  addedDelegators : option tree;
  deletedDelegators : gmap ID Staker;
}.
Definition newDiffValidator : diffValidator := mkDiffValidator unmodified None None ∅.
Definition set_validator (st : diffValidatorStatus) (v : option Staker) (d : diffValidator) : diffValidator :=
  mkDiffValidator st v (addedDelegators d) (deletedDelegators d).
Definition add_delegator (s : Staker) (d : diffValidator) : diffValidator :=
  mkDiffValidator (validatorStatus d) (validator d) (insert_new (addedDelegators d) s) (deletedDelegators d).
Definition delete_delegator (s : Staker) (d : diffValidator) : diffValidator :=
  mkDiffValidator (validatorStatus d) (validator d) (addedDelegators d) (<[TxID s := s]> (deletedDelegators d)).

Definition WeightDiff `{!KeyOrder ID} (d : diffValidator) : result StateErr ValidatorWeightDiff :=
  let weightDiff := mkWeightDiff (bool_decide (validatorStatus d = deleted)) 0 in
  weightDiff ←
    (if bool_decide (validatorStatus d = unmodified) then Ok weightDiff
     else match validator d with
          | Some v => Ok (mkWeightDiff (Decrease weightDiff) (Weight v))
          | None => Err Panic
          end);
  weightDiff ← foldR (fun w x => wd_Sub (Weight x.2) w) weightDiff (entries (deletedDelegators d));
  foldR (fun w s => wd_Add (Weight s) w) weightDiff (ToSlice (FromTree (addedDelegators d))).

(** ** Maps of maps: subnetID to nodeID to a value *)
Abbreviation nodes V := (gmap ID (gmap ID V)).
Definition lookup2 {V} (m : nodes V) (subnetID nodeID : ID) : option V := m !! subnetID ≫= fun n => n !! nodeID.
Definition insert2 {V} (subnetID nodeID : ID) (v : V) (m : nodes V) : nodes V :=
  <[subnetID := <[nodeID := v]> (default ∅ (m !! subnetID))]> m.
(** [delete(nodes, nodeID)], and the map of the subnet once it is empty. *)
Definition delete2 {V} (subnetID nodeID : ID) (m : nodes V) : nodes V :=
  match m !! subnetID with
  | None => m
  | Some n => let n := delete nodeID n in if bool_decide (n = ∅) then delete subnetID m else <[subnetID := n]> m
  end.

(** [getOrCreateDiff]: the change of a diff, which is created on demand. *)
Definition update_diff (subnetID nodeID : ID) (f : diffValidator -> diffValidator) (m : nodes diffValidator) : nodes diffValidator :=
  insert2 subnetID nodeID (f (default newDiffValidator (lookup2 m subnetID nodeID))) m.

(** ** The stakers of the state *)
Record baseStaker := mkBaseStaker { b_validator : option Staker; delegators : option tree }.
Record baseStakers := mkBaseStakers {
  validators : nodes baseStaker;
  b_stakers : tree;
  b_validatorDiffs : nodes diffValidator;
}.
Definition newBaseStakers : baseStakers := mkBaseStakers ∅ NewG ∅.

Definition base_GetValidator (subnetID nodeID : ID) (v : baseStakers) : result StateErr Staker :=
  match validators v !! subnetID with
  | None => Err ErrNotFound
  | Some subnetValidators =>
      match subnetValidators !! nodeID with
      | None => Err ErrNotFound
      | Some validator => match b_validator validator with None => Err ErrNotFound | Some s => Ok s end
      end
  end.

(** [getOrCreateValidator] and a change of what it returns. *)
Definition update_validator (subnetID nodeID : ID) (f : baseStaker -> baseStaker) (m : nodes baseStaker) : nodes baseStaker :=
  insert2 subnetID nodeID (f (default (mkBaseStaker None None) (lookup2 m subnetID nodeID))) m.

Definition tree_Len (t : option tree) : nat := match t with None => 0%nat | Some t => length (Ascend t) end.
Definition pruneValidator (subnetID nodeID : ID) (m : nodes baseStaker) : nodes baseStaker :=
  match lookup2 m subnetID nodeID with
  | None => m
  | Some validator =>
      match b_validator validator with
      | Some _ => m
      | None => if (0 <? tree_Len (delegators validator))%nat then m else delete2 subnetID nodeID m
      end
  end.

Definition base_PutValidator (staker : Staker) (v : baseStakers) : baseStakers :=
  mkBaseStakers
    (update_validator (SubnetID staker) (NodeID staker) (fun b => mkBaseStaker (Some staker) (delegators b)) (validators v))
    (ReplaceOrInsert Less staker (b_stakers v))
    (update_diff (SubnetID staker) (NodeID staker) (set_validator added (Some staker)) (b_validatorDiffs v)).

Definition base_DeleteValidator (staker : Staker) (v : baseStakers) : baseStakers :=
  mkBaseStakers
    (pruneValidator (SubnetID staker) (NodeID staker)
       (update_validator (SubnetID staker) (NodeID staker) (fun b => mkBaseStaker None (delegators b)) (validators v)))
    (DeleteItem Less staker (b_stakers v))
    (update_diff (SubnetID staker) (NodeID staker) (set_validator deleted (Some staker)) (b_validatorDiffs v)).

Definition base_GetDelegatorIterator (subnetID nodeID : ID) (v : baseStakers) : Iterator Staker :=
  match validators v !! subnetID with
  | None => Empty
  | Some subnetValidators =>
      match subnetValidators !! nodeID with
      | None => Empty
      | Some validator => FromTree (delegators validator)
      end
  end.

Definition base_PutDelegator (staker : Staker) (v : baseStakers) : baseStakers :=
  mkBaseStakers
    (update_validator (SubnetID staker) (NodeID staker) (fun b => mkBaseStaker (b_validator b) (insert_new (delegators b) staker)) (validators v))
    (ReplaceOrInsert Less staker (b_stakers v))
    (update_diff (SubnetID staker) (NodeID staker) (add_delegator staker) (b_validatorDiffs v)).

Definition base_DeleteDelegator (staker : Staker) (v : baseStakers) : baseStakers :=
  mkBaseStakers
    (pruneValidator (SubnetID staker) (NodeID staker)
       (update_validator (SubnetID staker) (NodeID staker)
          (fun b => mkBaseStaker (b_validator b) (DeleteItem Less staker <$> delegators b)) (validators v)))
    (DeleteItem Less staker (b_stakers v))
    (update_diff (SubnetID staker) (NodeID staker) (delete_delegator staker) (b_validatorDiffs v)).

Definition base_GetStakerIterator (v : baseStakers) : Iterator Staker := FromTree (Some (b_stakers v)).

(** ** The changes of a diff *)
Record diffStakers := mkDiffStakers {
  validatorDiffs : nodes diffValidator;
  addedStakers : option tree;
  deletedStakers : gmap ID Staker;
}.
Definition newDiffStakers : diffStakers := mkDiffStakers ∅ None ∅.

Definition diff_GetValidator (subnetID nodeID : ID) (s : diffStakers) : option Staker * diffValidatorStatus :=
  match validatorDiffs s !! subnetID with
  | None => (None, unmodified)
  | Some subnetValidatorDiffs =>
      match subnetValidatorDiffs !! nodeID with
      | None => (None, unmodified)
      | Some validatorDiff =>
          if bool_decide (validatorStatus validatorDiff = added) then (validator validatorDiff, added)
          else (None, validatorStatus validatorDiff)
      end
  end.

Definition getOrCreateDiff (subnetID nodeID : ID) : M diffStakers StateErr diffValidator :=
  s ← get;
  let d := default newDiffValidator (lookup2 (validatorDiffs s) subnetID nodeID) in
  modify (fun s => mkDiffStakers (insert2 subnetID nodeID d (validatorDiffs s)) (addedStakers s) (deletedStakers s));;
  mret d.
(** Assignments to what [getOrCreateDiff] has returned, and to the other fields. *)
Definition assign_diff (staker : Staker) (f : diffValidator -> diffValidator) : M diffStakers StateErr unit :=
  modify (fun s => mkDiffStakers (update_diff (SubnetID staker) (NodeID staker) f (validatorDiffs s)) (addedStakers s) (deletedStakers s)).
Definition insert_added (staker : Staker) : M diffStakers StateErr unit :=
  modify (fun s => mkDiffStakers (validatorDiffs s) (insert_new (addedStakers s) staker) (deletedStakers s)).
Definition insert_deleted (staker : Staker) : M diffStakers StateErr unit :=
  modify (fun s => mkDiffStakers (validatorDiffs s) (addedStakers s) (<[TxID staker := staker]> (deletedStakers s))).

Definition diff_PutValidator (staker : Staker) : M diffStakers StateErr unit :=
  validatorDiff ← getOrCreateDiff (SubnetID staker) (NodeID staker);
  if bool_decide (validatorStatus validatorDiff = deleted) then fail ErrAddingStakerAfterDeletion
  else
    assign_diff staker (set_validator added (Some staker));;
    insert_added staker.

Definition diff_DeleteValidator (staker : Staker) : M diffStakers StateErr unit :=
  validatorDiff ← getOrCreateDiff (SubnetID staker) (NodeID staker);
  if bool_decide (validatorStatus validatorDiff = added) then
    s ← get;
    addedStakers ← must Panic (addedStakers s);
    validator ← must Panic (validator validatorDiff);
    modify (fun s => mkDiffStakers (validatorDiffs s) (Some (DeleteItem Less validator addedStakers)) (deletedStakers s));;
    assign_diff staker (set_validator unmodified None)
  else
    assign_diff staker (set_validator deleted (Some staker));;
    insert_deleted staker.

Definition masked (deleted : gmap ID Staker) (staker : Staker) : bool := bool_decide (is_Some (deleted !! TxID staker)).

Definition diff_GetDelegatorIterator (parentIterator : Iterator Staker) (subnetID nodeID : ID) (s : diffStakers) : Iterator Staker :=
  let '(addedDelegatorIterator, deletedDelegators) :=
    match validatorDiffs s !! subnetID with
    | None => (Empty, ∅)
    | Some subnetValidatorDiffs =>
        match subnetValidatorDiffs !! nodeID with
        | None => (Empty, ∅)
        | Some validatorDiff => (FromTree (addedDelegators validatorDiff), deletedDelegators validatorDiff)
        end
    end in
  Filter (Merge Less [parentIterator; addedDelegatorIterator]) (masked deletedDelegators).

Definition diff_PutDelegator (staker : Staker) : M diffStakers StateErr unit :=
  getOrCreateDiff (SubnetID staker) (NodeID staker);;
  assign_diff staker (add_delegator staker);;
  insert_added staker.

Definition diff_DeleteDelegator (staker : Staker) : M diffStakers StateErr unit :=
  getOrCreateDiff (SubnetID staker) (NodeID staker);;
  assign_diff staker (delete_delegator staker);;
  insert_deleted staker.

Definition diff_GetStakerIterator (parentIterator : Iterator Staker) (s : diffStakers) : Iterator Staker :=
  Filter (Merge Less [parentIterator; FromTree (addedStakers s)]) (masked (deletedStakers s)).
End stakers.
End Stakers.
