(* ===== verification/StakersFacts.v ===== *)
(** * Stakers as sets
    A staker set is a map from nodes to their validators and a set of delegators
    ([view]).  [baseStakers] implements it; [diffStakers] over a parent implements
    the changes to it, and applying the changes to the parent gives the same set. *)
From Stdlib Require Import Sorting.Sorted.
From S2P Require Import Prelude SafeMath Monads Sorting MapOrder Database BTree Iterators Stakers.

Module StakersFacts.
Abbreviation nodes V := (gmap (list Z) (gmap (list Z) V)).
Import Sorting BTree Iterators KeyedTrees Stakers.

Lemma Compare_range a b : bytes_Compare a b = -1 \/ bytes_Compare a b = 0 \/ bytes_Compare a b = 1.
Proof. revert b. induction a as [|x a IH]; intros [|y b]; cbn; auto. destruct (x <? y), (y <? x); auto. Qed.
Lemma Compare_lt a b : (bytes_Compare a b =? -1) = true <-> bytes_Compare a b < 0.
Proof. pose proof (Compare_range a b). rewrite Z.eqb_eq. lia. Qed.

Section facts.
Context {PK : Type} `{BTreeLaws (Staker PK)}.
Abbreviation Staker := (Staker PK).
Implicit Types x y z : Staker.

Lemma Less_spec x y : Less x y = true <->
  NextTime x < NextTime y \/ NextTime x = NextTime y /\
    (Priority x < Priority y \/ Priority x = Priority y /\ bytes_Compare (TxID x) (TxID y) < 0).
Proof.
  unfold Less. rewrite <- Compare_lt.
  destruct (Z.ltb_spec (NextTime x) (NextTime y)), (Z.ltb_spec (NextTime y) (NextTime x)),
    (Z.ltb_spec (Priority x) (Priority y)), (Z.ltb_spec (Priority y) (Priority x)); split; intros; try done; try lia; intuition lia.
Qed.

#[export] Instance Less_keyed : KeyedOrder (Less (PK := PK)) TxID.
Proof.
  split.
  - intros x. apply not_true_is_false. rewrite Less_spec. pose proof (proj2 (bytes_Compare_eq (TxID x) (TxID x)) eq_refl). lia.
  - intros x y z. rewrite !Less_spec. pose proof (bytes_Compare_trans (TxID x) (TxID y) (TxID z)). intuition lia.
  - intros x y z. rewrite !Less_spec. pose proof (bytes_Compare_trans (TxID x) (TxID y) (TxID z)).
    pose proof (Database.blt_trichotomy (TxID x) (TxID y)) as Ht. unfold Database.blt in Ht.
    destruct Ht as [Hlt|[Heq|Hgt]]; [intuition lia|rewrite Heq in *; intuition lia|].
    pose proof (bytes_Compare_trans (TxID y) (TxID x) (TxID z)). intuition lia.
  - intros x y Hne. rewrite !Less_spec. pose proof (Database.blt_trichotomy (TxID x) (TxID y)) as Ht. unfold Database.blt in Ht. intuition lia.
Qed.

(** ** Sets of stakers *)
Record view := mkView { vals : ID -> ID -> option Staker; dels : Staker -> Prop }.
Definition at_node (s n : ID) x : Prop := SubnetID x = s /\ NodeID x = n.
Definition is_validator (w : view) x : Prop := vals w (SubnetID x) (NodeID x) = Some x.
Definition member (w : view) x : Prop := is_validator w x \/ dels w x.

(** Validators are stored under their node; transaction IDs name stakers. *)
Record wf_view (w : view) : Prop := {
  wf_node s n x : vals w s n = Some x -> at_node s n x;
  wf_key x y : member w x -> member w y -> TxID x = TxID y -> x = y;
  wf_kind x : is_validator w x -> dels w x -> False;
}.

Definition equal_views (w w' : view) : Prop := (forall s n, vals w s n = vals w' s n) /\ forall x, dels w x <-> dels w' x.

Definition set_val (s n : ID) (v : option Staker) (w : view) : view :=
  mkView (fun s' n' => if bool_decide (s' = s /\ n' = n) then v else vals w s' n') (dels w).
Definition put_validator x (w : view) : view := set_val (SubnetID x) (NodeID x) (Some x) w.
Definition delete_validator x (w : view) : view := set_val (SubnetID x) (NodeID x) None w.
Definition put_delegator x (w : view) : view := mkView (vals w) (fun y => dels w y \/ y = x).
Definition remove_delegator x (w : view) : view := mkView (vals w) (fun y => dels w y /\ y <> x).

(** Items of a tree that may be missing. *)
Definition opt_items (t : option (BTreeG Staker)) (P : Staker -> Prop) : Prop :=
  match t with None => forall x, ~ P x | Some t => holds_items Less t P end.
Lemma opt_items_ext t P Q : opt_items t P -> (forall x, P x <-> Q x) -> opt_items t Q.
Proof. intros HP HPQ. destruct t as [t|]; [by apply (holds_ext Less _ P)|]. intros x. rewrite <- HPQ. apply HP. Qed.
Lemma opt_items_insert t P x : opt_items t P -> same_key TxID P x -> opt_items (insert_new t x) (fun y => P y \/ y = x).
Proof.
  intros Ht Hx. cbn. destruct t as [t|]; [by apply (holds_insert Less TxID)|]. cbn in Ht |- *.
  apply (holds_ext Less _ (fun y => False \/ y = x)); [|naive_solver].
  apply (holds_insert Less TxID); [apply (holds_new Less)|by intros y []].
Qed.
Lemma opt_items_delete t P x : opt_items t P -> same_key TxID P x -> opt_items (DeleteItem Less x <$> t) (fun y => P y /\ y <> x).
Proof. intros Ht Hx. destruct t as [t|]; [by apply (holds_delete Less TxID)|]. cbn in *. naive_solver. Qed.
Lemma lists_opt t P : opt_items t P -> lists Less (FromTree t) P.
Proof. intros Ht. destruct t as [t|]; [by apply (lists_tree Less)|]. apply (lists_ext Less _ (fun _ => False)); [apply (lists_empty Less)|]. naive_solver. Qed.

(** ** Maps of maps *)
Lemma lookup2_insert2 {V} (m : nodes V) s n v s' n' : lookup2 (insert2 s n v m) s' n' = if bool_decide (s' = s /\ n' = n) then Some v else lookup2 m s' n'.
Proof.
  unfold lookup2, insert2. case_bool_decide as Hd.
  - destruct Hd as [-> ->]. by rewrite lookup_insert_eq; cbn; rewrite lookup_insert_eq.
  - destruct (decide (s' = s)) as [->|Hs]; [|by rewrite lookup_insert_ne]. rewrite lookup_insert_eq. cbn.
    destruct (decide (n' = n)) as [->|Hn]; [by destruct Hd|]. rewrite lookup_insert_ne by done. by destruct (m !! s); cbn; rewrite ?lookup_empty.
Qed.
Lemma lookup2_delete2 {V} (m : nodes V) s n s' n' : lookup2 (delete2 s n m) s' n' = if bool_decide (s' = s /\ n' = n) then None else lookup2 m s' n'.
Proof.
  unfold lookup2, delete2. destruct (m !! s) as [k|] eqn:Hm.
  2: { case_bool_decide as Hd; [|done]. destruct Hd as [-> ->]. by rewrite Hm. }
  destruct (decide (s' = s)) as [->|Hs].
  - rewrite Hm. assert (n' <> n -> delete n k !! n' = k !! n') as Hdel by (intros; by rewrite lookup_delete_ne).
    destruct (decide (delete n k = ∅)) as [He|He]; [rewrite (bool_decide_true _ He), lookup_delete_eq|rewrite (bool_decide_false _ He), lookup_insert_eq]; cbn;
      case_bool_decide as Hd; [done| |destruct Hd as [_ ->]; apply lookup_delete_eq|].
    + rewrite <- Hdel by (intros Hn; apply Hd; split; [reflexivity|exact Hn]). by rewrite He.
    + apply Hdel. intros Hn. apply Hd. by split.
  - rewrite (bool_decide_false (s' = s /\ n' = n)) by (by intros [? _]). case_bool_decide; [by rewrite lookup_delete_ne|by rewrite lookup_insert_ne].
Qed.

(** ** Changes of a view *)
Lemma put_validator_member x w : wf_view w -> vals w (SubnetID x) (NodeID x) = None ->
  forall y, member (put_validator x w) y <-> member w y \/ y = x.
Proof.
  intros Hw Hx y. unfold member, is_validator, put_validator, set_val. cbn [vals dels]. case_bool_decide as Hn.
  - destruct Hn as [Hs Hn]. rewrite Hs, Hn, Hx. naive_solver.
  - split; [naive_solver|]. intros [?|<-]; [done|]. by destruct Hn.
Qed.
Lemma wf_put_validator x w : wf_view w -> vals w (SubnetID x) (NodeID x) = None -> (forall y, member w y -> TxID y <> TxID x) ->
  wf_view (put_validator x w).
Proof.
  intros Hw Hx Hf. pose proof (put_validator_member x w Hw Hx) as Hm. split.
  - intros s n y. cbn. case_bool_decide as Hn; [destruct Hn as [-> ->]; by intros [= <-]|apply Hw].
  - intros y z. rewrite !Hm. intros [Hy| ->] [Hz| ->]; [by apply Hw|intros ?; by destruct (Hf y)|intros ?; by destruct (Hf z)|done].
  - intros y. unfold is_validator. cbn. case_bool_decide as Hn; [|by apply Hw]. intros [= ->] Hd. by destruct (Hf y); [right|].
Qed.
Lemma delete_validator_member x w : wf_view w -> is_validator w x -> forall y, member (delete_validator x w) y <-> member w y /\ y <> x.
Proof.
  intros Hw Hx y. unfold member, is_validator, delete_validator, set_val in *. cbn [vals dels]. case_bool_decide as Hn.
  - destruct Hn as [Hs Hn]. rewrite Hs, Hn, Hx. split; [|naive_solver]. intros [|Hd]; [done|]. split; [by right|]. intros ->. by eapply (wf_kind _ Hw x).
  - split; [|naive_solver]. intros Hy. split; [done|]. intros ->. by destruct Hn.
Qed.
Lemma wf_delete_validator x w : wf_view w -> is_validator w x -> wf_view (delete_validator x w).
Proof.
  intros Hw Hx. pose proof (delete_validator_member x w Hw Hx) as Hm. split.
  - intros s n y. cbn. case_bool_decide; [done|apply Hw].
  - intros y z. rewrite !Hm. intros [? _] [? _]. by apply Hw.
  - intros y. unfold is_validator. cbn. case_bool_decide; [done|apply Hw].
Qed.
Lemma put_delegator_member x w y : member (put_delegator x w) y <-> member w y \/ y = x.
Proof. unfold member, is_validator. cbn. naive_solver. Qed.
Lemma wf_put_delegator x w : wf_view w -> (forall y, member w y -> TxID y <> TxID x) -> wf_view (put_delegator x w).
Proof.
  intros Hw Hf. split.
  - intros s n y. apply Hw.
  - intros y z. rewrite !put_delegator_member. intros [Hy| ->] [Hz| ->]; [by apply Hw|intros ?; by destruct (Hf y)|intros ?; by destruct (Hf z)|done].
  - intros y Hy [Hd| ->]; [by eapply (wf_kind _ Hw y)|]. by destruct (Hf x); [left|].
Qed.
Lemma remove_delegator_member x w y : wf_view w -> dels w x -> member (remove_delegator x w) y <-> member w y /\ y <> x.
Proof.
  intros Hw Hx. unfold member, is_validator. cbn. split; [|naive_solver]. intros [Hy|[Hy Hne]]; [|by split; [right|]].
  split; [by left|]. intros ->. by eapply (wf_kind _ Hw x).
Qed.
Lemma wf_remove_delegator x w : wf_view w -> dels w x -> wf_view (remove_delegator x w).
Proof.
  intros Hw Hx. split.
  - intros s n y. apply Hw.
  - intros y z. rewrite !remove_delegator_member by done. intros [? _] [? _]. by apply Hw.
  - intros y Hy [Hd _]. by eapply (wf_kind _ Hw y).
Qed.
Lemma wf_ext w w' : equal_views w w' -> wf_view w -> wf_view w'.
Proof.
  intros [Hv Hd] Hw. assert (forall x, member w' x <-> member w x) as Hm by (intros x; unfold member, is_validator; by rewrite Hv, Hd).
  split.
  - intros s n x. rewrite <- Hv. apply Hw.
  - intros x y. rewrite !Hm. apply Hw.
  - intros x. unfold is_validator. rewrite <- Hv, <- Hd. apply Hw.
Qed.

(** ** The stakers of the state *)
Record base_rep (v : baseStakers) (w : view) : Prop := {
  br_wf : wf_view w;
  br_vals s n : lookup2 (validators v) s n ≫= b_validator = vals w s n;
  br_dels s n : opt_items (lookup2 (validators v) s n ≫= delegators) (fun x => dels w x /\ at_node s n x);
  br_all : holds_items Less (b_stakers v) (member w);
}.

Lemma base_rep_ext v w w' : equal_views w w' -> base_rep v w -> base_rep v w'.
Proof.
  intros He [Hw Hv Hd Ha]. pose proof He as [Hev Hed]. split.
  - by eapply wf_ext.
  - intros s n. by rewrite Hv.
  - intros s n. eapply opt_items_ext; [apply Hd|]. intros x. cbn. by rewrite Hed.
  - eapply holds_ext; [exact Ha|]. intros x. unfold member, is_validator. by rewrite Hev, Hed.
Qed.

Lemma lookup2_update (m : nodes baseStaker) s n f s' n' : lookup2 (update_validator s n f m) s' n' =
  if bool_decide (s' = s /\ n' = n) then Some (f (default (mkBaseStaker None None) (lookup2 m s n))) else lookup2 m s' n'.
Proof. apply lookup2_insert2. Qed.

Lemma prune_spec (m : nodes (baseStaker (PK := PK))) s n s' n' :
  lookup2 (pruneValidator s n m) s' n' ≫= b_validator = lookup2 m s' n' ≫= b_validator /\
  forall P, opt_items (lookup2 m s' n' ≫= delegators) P -> opt_items (lookup2 (pruneValidator s n m) s' n' ≫= delegators) P.
Proof.
  unfold pruneValidator. destruct (lookup2 m s n) as [[v t]|] eqn:Hm; [|done]. cbn [b_validator delegators]. destruct v; [done|].
  destruct (Nat.ltb_spec 0 (tree_Len t)) as [|Hlen]; [done|]. rewrite lookup2_delete2. case_bool_decide as Hd; [|done].
  destruct Hd as [-> ->]. rewrite Hm. cbn. split; [done|]. intros P HP. destruct t as [t|]; [|done]. cbn in *.
  intros x Hx. destruct HP as [_ HP]. apply HP in Hx. destruct (Ascend t); [by apply elem_of_nil in Hx|cbn in Hlen; lia].
Qed.

Lemma base_Put_validator_rep v w x : base_rep v w -> vals w (SubnetID x) (NodeID x) = None -> (forall y, member w y -> TxID y <> TxID x) ->
  base_rep (base_PutValidator x v) (put_validator x w).
Proof.
  intros [Hw Hv Hd Ha] Hx Hf. split.
  - by apply wf_put_validator.
  - intros s n. cbn. rewrite lookup2_update. case_bool_decide; [done|apply Hv].
  - intros s n. cbn. rewrite lookup2_update. case_bool_decide as Hn; [|apply Hd]. destruct Hn as [-> ->]. cbn.
    pose proof (Hd (SubnetID x) (NodeID x)) as Hi. by destruct (lookup2 (validators v) (SubnetID x) (NodeID x)).
  - cbn. eapply holds_ext; [apply (holds_insert Less TxID); [exact Ha|intros y Hy Heq; by destruct (Hf y)]|].
    intros y. cbn. by rewrite put_validator_member.
Qed.
Lemma base_Delete_validator_rep v w x : base_rep v w -> is_validator w x -> base_rep (base_DeleteValidator x v) (delete_validator x w).
Proof.
  intros [Hw Hv Hd Ha] Hx. split.
  - by apply wf_delete_validator.
  - intros s n. cbn. rewrite (proj1 (prune_spec _ _ _ _ _)), lookup2_update. case_bool_decide; [done|apply Hv].
  - intros s n. cbn. apply prune_spec. rewrite lookup2_update. case_bool_decide as Hn; [|apply Hd]. destruct Hn as [-> ->]. cbn.
    pose proof (Hd (SubnetID x) (NodeID x)) as Hi. by destruct (lookup2 (validators v) (SubnetID x) (NodeID x)).
  - cbn. eapply holds_ext; [apply (holds_delete Less TxID); [exact Ha|]|].
    + intros y Hy Heq. apply (wf_key _ Hw); [done|by left|done].
    + intros y. cbn. by rewrite delete_validator_member.
Qed.
Lemma base_Put_delegator_rep v w x : base_rep v w -> (forall y, member w y -> TxID y <> TxID x) -> base_rep (base_PutDelegator x v) (put_delegator x w).
Proof.
  intros [Hw Hv Hd Ha] Hf. split.
  - by apply wf_put_delegator.
  - intros s n. cbn. rewrite lookup2_update. case_bool_decide as Hn; [|apply Hv]. destruct Hn as [-> ->]. cbn. rewrite <- Hv.
    by destruct (lookup2 (validators v) (SubnetID x) (NodeID x)).
  - intros s n. cbn. rewrite lookup2_update. case_bool_decide as Hn.
    + destruct Hn as [-> ->]. cbn [mbind option_bind delegators]. eapply opt_items_ext; [apply opt_items_insert|].
      * pose proof (Hd (SubnetID x) (NodeID x)) as Hi. destruct (lookup2 (validators v) (SubnetID x) (NodeID x)); exact Hi.
      * intros y [Hy _] Heq. by destruct (Hf y); [right|].
      * intros y. cbn. unfold at_node. naive_solver.
    + eapply opt_items_ext; [apply Hd|]. intros y. cbn. split; [naive_solver|]. intros [[Hy| ->] Hn']; [done|]. destruct Hn. by destruct Hn'.
  - cbn. eapply holds_ext; [apply (holds_insert Less TxID); [exact Ha|intros y Hy Heq; by destruct (Hf y)]|].
    intros y. cbn. by rewrite put_delegator_member.
Qed.
Lemma base_Delete_delegator_rep v w x : base_rep v w -> dels w x -> base_rep (base_DeleteDelegator x v) (remove_delegator x w).
Proof.
  intros [Hw Hv Hd Ha] Hx. split.
  - by apply wf_remove_delegator.
  - intros s n. cbn. rewrite (proj1 (prune_spec _ _ _ _ _)), lookup2_update. case_bool_decide as Hn; [|apply Hv]. destruct Hn as [-> ->]. cbn. rewrite <- Hv.
    by destruct (lookup2 (validators v) (SubnetID x) (NodeID x)).
  - intros s n. cbn. apply prune_spec. rewrite lookup2_update. case_bool_decide as Hn.
    + destruct Hn as [-> ->]. cbn [mbind option_bind delegators]. eapply opt_items_ext; [apply opt_items_delete|].
      * pose proof (Hd (SubnetID x) (NodeID x)) as Hi. destruct (lookup2 (validators v) (SubnetID x) (NodeID x)); exact Hi.
      * intros y [Hy _] Heq. apply (wf_key _ Hw); [by right|by right|done].
      * intros y. cbn. naive_solver.
    + eapply opt_items_ext; [apply Hd|]. intros y. cbn. split; [|naive_solver]. intros [Hy Hn']. split; [|done]. split; [done|].
      intros ->. destruct Hn. by destruct Hn'.
  - cbn. eapply holds_ext; [apply (holds_delete Less TxID); [exact Ha|]|].
    + intros y Hy Heq. apply (wf_key _ Hw); [done|by right|done].
    + intros y. cbn. by rewrite remove_delegator_member.
Qed.

Lemma base_queries v w : base_rep v w ->
  (forall s n, base_GetValidator s n v = match vals w s n with Some x => Ok x | None => Err ErrNotFound end) /\
  (forall s n, lists Less (base_GetDelegatorIterator s n v) (fun x => dels w x /\ at_node s n x)) /\
  lists Less (base_GetStakerIterator v) (member w).
Proof.
  intros [Hw Hv Hd Ha]. split_and!.
  - intros s n. rewrite <- Hv. unfold base_GetValidator, lookup2. destruct (validators v !! s) as [m|]; [|done]. cbn.
    destruct (m !! n) as [b|]; [|done]. cbn. by destruct (b_validator b).
  - intros s n. specialize (Hd s n). revert Hd. unfold base_GetDelegatorIterator, lookup2. destruct (validators v !! s) as [m|]; [|apply lists_opt]. cbn.
    destruct (m !! n) as [b|]; [|apply lists_opt]. cbn. apply lists_opt.
  - by apply lists_opt.
Qed.

(** ** The changes of a diff *)
Definition dv (d : diffStakers (PK := PK)) (s n : ID) : diffValidator := default newDiffValidator (lookup2 (validatorDiffs d) s n).
Definition status d s n : diffValidatorStatus := validatorStatus (dv d s n).
(** The validators that the diff has added. *)
Definition newly d (w : view) x : Prop := status d (SubnetID x) (NodeID x) = added /\ is_validator w x.

(** [d] has turned the set [w0] into [w]; [A] holds the delegators that were ever
    added, [used] the transaction IDs that were ever seen. *)
Record diff_inv (w0 : view) (used : ID -> Prop) (A : Staker -> Prop) d (w : view) : Prop := {
  di_wf0 : wf_view w0;
  di_wf : wf_view w;
  di_used x : member w0 x \/ A x \/ is_validator w x -> used (TxID x);
  di_fresh x y : member w0 y -> A x -> TxID y <> TxID x;
  di_key x y : A x -> A y -> TxID x = TxID y -> x = y;
  di_kind x y : A x -> newly d w y -> TxID x <> TxID y;
  di_status s n : match status d s n with
    | unmodified => vals w s n = vals w0 s n
    | added => exists x, validator (dv d s n) = Some x /\ vals w s n = Some x /\ vals w0 s n = None /\ forall y, member w0 y -> TxID y <> TxID x
    | deleted => exists x, validator (dv d s n) = Some x /\ vals w s n = None /\ vals w0 s n = Some x
    end;
  di_tree s n : opt_items (addedDelegators (dv d s n)) (fun x => A x /\ at_node s n x);
  di_dels x : dels w x <-> (dels w0 x \/ A x) /\ deletedDelegators (dv d (SubnetID x) (NodeID x)) !! TxID x = None;
  di_deleted s n t x : deletedDelegators (dv d s n) !! t = Some x -> TxID x = t /\ at_node s n x /\ (dels w0 x \/ A x);
  di_added : opt_items (addedStakers d) (fun x => A x \/ newly d w x);
  di_mask t : is_Some (deletedStakers d !! t) <->
    (exists s n x, status d s n = deleted /\ vals w0 s n = Some x /\ TxID x = t) \/ (exists s n, is_Some (deletedDelegators (dv d s n) !! t));
}.

(** The states after [getOrCreateDiff] and after an assignment. *)
Definition created d s n : diffStakers := mkDiffStakers (insert2 s n (dv d s n) (validatorDiffs d)) (addedStakers d) (deletedStakers d).
Definition changed d x f added deleted : diffStakers :=
  mkDiffStakers (update_diff (SubnetID x) (NodeID x) f (insert2 (SubnetID x) (NodeID x) (dv d (SubnetID x) (NodeID x)) (validatorDiffs d))) added deleted.
Lemma diff_PutValidator_eq x d : diff_PutValidator x d =
  if bool_decide (status d (SubnetID x) (NodeID x) = deleted) then (created d (SubnetID x) (NodeID x), Err ErrAddingStakerAfterDeletion)
  else (changed d x (Stakers.set_validator added (Some x)) (insert_new (addedStakers d) x) (deletedStakers d), Ok tt).
Proof. unfold diff_PutValidator, getOrCreateDiff, mbind, M_bind, get, modify. cbn. unfold status, dv. by destruct (bool_decide _). Qed.
Lemma diff_DeleteValidator_eq x d : diff_DeleteValidator x d =
  if bool_decide (status d (SubnetID x) (NodeID x) = added) then
    match addedStakers d, validator (dv d (SubnetID x) (NodeID x)) with
    | Some t, Some v => (changed d x (Stakers.set_validator unmodified None) (Some (DeleteItem Less v t)) (deletedStakers d), Ok tt)
    | _, _ => (created d (SubnetID x) (NodeID x), Err Panic)
    end
  else (changed d x (Stakers.set_validator deleted (Some x)) (addedStakers d) (<[TxID x := x]> (deletedStakers d)), Ok tt).
Proof.
  unfold diff_DeleteValidator, getOrCreateDiff, mbind, M_bind, get, modify, must, status, created, changed. cbn -[default]. fold (dv d (SubnetID x) (NodeID x)).
  destruct (bool_decide _); [|done]. cbn -[default]. destruct (addedStakers d) as [t|]; [|done]. cbn -[default]. by destruct (validator (dv d (SubnetID x) (NodeID x))).
Qed.
Lemma diff_PutDelegator_eq x d : diff_PutDelegator x d = (changed d x (add_delegator x) (insert_new (addedStakers d) x) (deletedStakers d), Ok tt).
Proof. done. Qed.
Lemma diff_DeleteDelegator_eq x d : diff_DeleteDelegator x d =
  (changed d x (delete_delegator x) (addedStakers d) (<[TxID x := x]> (deletedStakers d)), Ok tt).
Proof. done. Qed.

Lemma dv_changed d x f a b s n :
  dv (changed d x f a b) s n = if bool_decide (s = SubnetID x /\ n = NodeID x) then f (dv d s n) else dv d s n.
Proof.
  unfold changed. unfold dv at 1, update_diff. cbn [validatorDiffs]. rewrite lookup2_insert2. case_bool_decide as Hn.
  - destruct Hn as [-> ->]. cbn. by rewrite lookup2_insert2, bool_decide_true by done.
  - by rewrite lookup2_insert2, bool_decide_false by done.
Qed.
Lemma dv_created d s n s' n' : dv (created d s n) s' n' = dv d s' n'.
Proof. unfold dv at 1, created. cbn [validatorDiffs]. rewrite lookup2_insert2. case_bool_decide as Hn; [|done]. by destruct Hn as [-> ->]. Qed.

Lemma diff_inv_new w0 : wf_view w0 -> diff_inv w0 (fun t => exists x, member w0 x /\ TxID x = t) (fun _ => False) newDiffStakers w0.
Proof.
  intros Hw. assert (forall s n, dv newDiffStakers s n = newDiffValidator) as Hdv by done.
  split; try done.
  - intros x [Hx|[[]|Hx]]; exists x; split; [exact Hx|reflexivity|by left|reflexivity].
  - intros s n. rewrite Hdv. cbn. naive_solver.
  - intros x. rewrite Hdv. cbn. rewrite lookup_empty. naive_solver.
  - intros x [[]|[Hn _]]. unfold status in Hn. by rewrite Hdv in Hn.
  - intros t. cbn. rewrite lookup_empty. split; [by intros []|]. intros [(s & n & x & Hs & _)|(s & n & Hs)].
    + unfold status in Hs. by rewrite Hdv in Hs.
    + rewrite Hdv in Hs. cbn in Hs. rewrite lookup_empty in Hs. by destruct Hs.
Qed.

Section inv.
Context {w0 used A d w} (Hi : diff_inv w0 used A d w).

Lemma newly_fresh x y : newly d w x -> member w0 y -> TxID y <> TxID x.
Proof.
  intros [Hn Hx] Hy. pose proof (di_status _ _ _ _ _ Hi (SubnetID x) (NodeID x)) as Hst. rewrite Hn in Hst.
  destruct Hst as (z & _ & Hz & _ & Hf). unfold is_validator in Hx. rewrite Hx in Hz. injection Hz as <-. by apply Hf.
Qed.
Lemma validator_cases x : is_validator w x -> is_validator w0 x \/ newly d w x.
Proof.
  intros Hx. pose proof (di_status _ _ _ _ _ Hi (SubnetID x) (NodeID x)) as Hst. unfold newly.
  destruct (status d (SubnetID x) (NodeID x)) eqn:Hs.
  - left. unfold is_validator. by rewrite <- Hst.
  - by right.
  - destruct Hst as (y & _ & Hy & _). unfold is_validator in Hx. by rewrite Hy in Hx.
Qed.
Lemma validator_not_delegator x : is_validator w x -> dels w0 x \/ A x -> False.
Proof.
  intros Hx Hd. destruct (validator_cases x Hx) as [Hx0|Hn], Hd as [Hd|Hd].
  - by apply (wf_kind _ (di_wf0 _ _ _ _ _ Hi) x).
  - exfalso. by apply (di_fresh _ _ _ _ _ Hi x x); [left| |].
  - by destruct (newly_fresh x x Hn); [right|].
  - by destruct (di_kind _ _ _ _ _ Hi x x Hd Hn).
Qed.
(** Whatever the diff has seen is known by its transaction. *)
Definition known x : Prop := member w0 x \/ A x \/ newly d w x.
Lemma known_key x y : known x -> dels w0 y \/ A y \/ member w0 y -> TxID y = TxID x -> y = x.
Proof.
  intros [Hx|[Hx|Hx]] Hy Heq; assert (member w0 y \/ A y) as [Hy'|Hy'] by (destruct Hy as [?|[?|?]]; [by left; right|by right|by left]).
  - by apply (wf_key _ (di_wf0 _ _ _ _ _ Hi)).
  - by destruct (di_fresh _ _ _ _ _ Hi y x Hx Hy').
  - by destruct (di_fresh _ _ _ _ _ Hi x y Hy' Hx).
  - by apply (di_key _ _ _ _ _ Hi).
  - by destruct (newly_fresh x y Hx Hy').
  - by destruct (di_kind _ _ _ _ _ Hi y x Hy' Hx).
Qed.

(** The members of the set, in terms of the parent's. *)
Lemma diff_members x : member w x <-> known x /\ deletedStakers d !! TxID x = None.
Proof.
  pose proof (di_dels _ _ _ _ _ Hi x) as Hdels. rewrite eq_None_not_Some, (di_mask _ _ _ _ _ Hi (TxID x)).
  split.
  - intros Hm. assert (known x) as Hx.
    { destruct Hm as [Hv|Hd]; [destruct (validator_cases x Hv); [by left; left|by right; right]|].
      apply Hdels in Hd as [[?|?] _]; [left; by right|by right; left]. }
    split; [done|]. intros [(s & n & z & Hs & Hz & Heq)|(s & n & [z Hz])].
    + pose proof (wf_node _ (di_wf0 _ _ _ _ _ Hi) _ _ _ Hz) as [<- <-].
      pose proof (known_key x z Hx ltac:(right; right; by left) Heq) as ->.
      pose proof (di_status _ _ _ _ _ Hi (SubnetID x) (NodeID x)) as Hst. rewrite Hs in Hst. destruct Hst as (y & _ & Hy & _).
      destruct Hm as [Hv|Hd]; [unfold is_validator in Hv; by rewrite Hy in Hv|]. apply Hdels in Hd as [[Hd|Hd] _].
      * by apply (wf_kind _ (di_wf0 _ _ _ _ _ Hi) x).
      * exfalso. by apply (di_fresh _ _ _ _ _ Hi x x); [left| |].
    + destruct (di_deleted _ _ _ _ _ Hi _ _ _ _ Hz) as (Ht & Hat & Hz0).
      pose proof (known_key x z Hx ltac:(naive_solver) Ht) as ->. destruct Hat as [<- <-].
      destruct Hm as [Hv|Hd]; [by apply (validator_not_delegator x)|]. apply Hdels in Hd as [_ Hd]. by rewrite Hz in Hd.
  - intros [Hx Hno]. assert (deletedDelegators (dv d (SubnetID x) (NodeID x)) !! TxID x = None) as Hnd.
    { apply eq_None_not_Some. intros Hs. apply Hno. right. eauto. }
    destruct Hx as [[Hx|Hx]|[Hx|[_ Hx]]]; [|right; apply Hdels; by split; [left|]|right; apply Hdels; by split; [right|]|by left].
    left. pose proof (di_status _ _ _ _ _ Hi (SubnetID x) (NodeID x)) as Hst. unfold is_validator in *.
    destruct (status d (SubnetID x) (NodeID x)) eqn:Hs; [by rewrite Hst| |].
    + destruct Hst as (y & _ & _ & Hy & _). by rewrite Hx in Hy.
    + destruct Hno. left. exists (SubnetID x), (NodeID x), x. done.
Qed.

Lemma lists_diff_stakers it : lists Less it (member w0) -> lists Less (diff_GetStakerIterator it d) (member w).
Proof.
  intros Hit. unfold diff_GetStakerIterator. eapply lists_ext.
  - apply lists_filter, (lists_Merge Less TxID); [exact Hit|apply lists_opt, (di_added _ _ _ _ _ Hi)|].
    intros x y Hx [Hy|Hy]; [by apply (di_fresh _ _ _ _ _ Hi)|by apply newly_fresh].
  - intros x. cbn. rewrite diff_members. unfold masked, known. rewrite bool_decide_eq_false, <- eq_None_not_Some. done.
Qed.
Lemma lists_diff_delegators it s n : lists Less it (fun x => dels w0 x /\ at_node s n x) ->
  lists Less (diff_GetDelegatorIterator it s n d) (fun x => dels w x /\ at_node s n x).
Proof.
  intros Hit. assert (diff_GetDelegatorIterator it s n d =
    Filter (Merge Less [it; FromTree (addedDelegators (dv d s n))]) (masked (deletedDelegators (dv d s n)))) as ->.
  { unfold diff_GetDelegatorIterator, dv, lookup2. destruct (validatorDiffs d !! s) as [m|]; [|done]. cbn. by destruct (m !! n). }
  eapply lists_ext.
  - apply lists_filter, (lists_Merge Less TxID); [exact Hit|apply lists_opt, (di_tree _ _ _ _ _ Hi)|].
    intros x y [Hx _] [Hy _]. apply (di_fresh _ _ _ _ _ Hi); [by right|done].
  - intros x. cbn. rewrite (di_dels _ _ _ _ _ Hi x). unfold masked. rewrite bool_decide_eq_false, <- eq_None_not_Some.
    split; [intros [[[Hx Hn]|[Hx Hn]] Hd]; (split; [|done]); destruct Hn as [<- <-]; naive_solver|intros [[Hx Hd] Hn]; pose proof Hn as [Hs Hnn]; subst; naive_solver].
Qed.
Lemma diff_validator s n : match diff_GetValidator s n d with
  | (v, added) => exists x, v = Some x /\ vals w s n = Some x
  | (_, deleted) => vals w s n = None
  | (_, unmodified) => vals w s n = vals w0 s n
  end.
Proof.
  pose proof (di_status _ _ _ _ _ Hi s n) as Hst. unfold status in Hst.
  assert (diff_GetValidator s n d = if bool_decide (validatorStatus (dv d s n) = added) then (validator (dv d s n), added) else (None, validatorStatus (dv d s n))) as ->.
  { unfold diff_GetValidator, dv, lookup2. destruct (validatorDiffs d !! s) as [m|]; [|done]. cbn. by destruct (m !! n). }
  destruct (validatorStatus (dv d s n)); cbn; [done|destruct Hst as (x & Hv & Hx & _); by exists x|by destruct Hst as (x & Hv & Hx & _)].
Qed.
End inv.

Lemma diff_inv_ext w0 used A d d' w : (forall s n, dv d' s n = dv d s n) -> addedStakers d' = addedStakers d -> deletedStakers d' = deletedStakers d ->
  diff_inv w0 used A d w -> diff_inv w0 used A d' w.
Proof.
  intros Hdv Ha Hdel [? ? ? ? ? Hk Hst Htree Hd Hdd Had Hm].
  assert (forall s n, status d' s n = status d s n) as Hs by (intros; unfold status; by rewrite Hdv).
  assert (forall x, newly d' w x <-> newly d w x) as Hn by (intros; unfold newly; by rewrite Hs).
  split; try done.
  - intros x y Hx Hy. apply Hk; [done|by apply Hn].
  - intros s n. rewrite Hs, Hdv. apply Hst.
  - intros s n. rewrite Hdv. apply Htree.
  - intros x. rewrite Hdv. apply Hd.
  - intros s n t x. rewrite Hdv. apply Hdd.
  - rewrite Ha. eapply opt_items_ext; [exact Had|]. intros x. cbn. by rewrite Hn.
  - intros t. rewrite Hdel, Hm. split; (intros [(s & n & x & Hsx)|(s & n & Hx)]; [left; exists s, n, x; by rewrite ?Hs in *|right; exists s, n; by rewrite ?Hdv in *]).
Qed.

Lemma not_used_fresh w0 used A d w x y : diff_inv w0 used A d w -> ~ used (TxID x) -> member w0 y \/ A y \/ is_validator w y \/ member w y -> TxID y <> TxID x.
Proof.
  intros Hi Hx Hy Heq. apply Hx. rewrite <- Heq. apply (di_used _ _ _ _ _ Hi). destruct Hy as [?|[?|[?|Hy]]]; [by left|by right; left|by right; right|].
  apply (diff_members Hi) in Hy as [[?|[?|[_ ?]]] _]; [by left|by right; left|by right; right].
Qed.

Lemma diff_Put_validator w0 used A d w x : diff_inv w0 used A d w -> vals w (SubnetID x) (NodeID x) = None -> ~ used (TxID x) ->
  match diff_PutValidator x d with
  | (d', Ok _) => vals w0 (SubnetID x) (NodeID x) = None /\ diff_inv w0 (fun t => used t \/ t = TxID x) A d' (put_validator x w)
  | (d', Err e) => e = ErrAddingStakerAfterDeletion /\ vals w0 (SubnetID x) (NodeID x) <> None /\ diff_inv w0 used A d' w
  end.
Proof.
  intros Hi Hx Hu. pose proof (di_status _ _ _ _ _ Hi (SubnetID x) (NodeID x)) as Hst. unfold status in Hst.
  rewrite diff_PutValidator_eq. unfold status. case_bool_decide as Hd.
  - split; [done|]. rewrite Hd in Hst. split; [destruct Hst as (y & _ & _ & Hy); congruence|].
    eapply diff_inv_ext; [intros s n; apply dv_created|done|done|exact Hi].
  - assert (vals w0 (SubnetID x) (NodeID x) = None /\ validatorStatus (dv d (SubnetID x) (NodeID x)) = unmodified) as [Hx0 Hunm].
    { destruct (validatorStatus (dv d (SubnetID x) (NodeID x))); [by rewrite <- Hst|destruct Hst as (y & _ & Hy & _); by rewrite Hy in Hx|done]. }
    split; [done|]. clear Hd Hst. set (d' := changed _ _ _ _ _).
    pose proof (fun y => not_used_fresh _ _ _ _ _ x y Hi Hu) as Hfresh.
    assert (forall s n, dv d' s n = if bool_decide (s = SubnetID x /\ n = NodeID x) then Stakers.set_validator added (Some x) (dv d s n) else dv d s n) as Hdv
      by (intros s n; apply dv_changed).
    assert (forall s n, addedDelegators (dv d' s n) = addedDelegators (dv d s n) /\ deletedDelegators (dv d' s n) = deletedDelegators (dv d s n)) as Hsame
      by (intros s n; rewrite Hdv; by case_bool_decide).
    assert (forall s n, status d' s n = if bool_decide (s = SubnetID x /\ n = NodeID x) then added else status d s n) as Hst'
      by (intros s n; unfold status; rewrite Hdv; by case_bool_decide).
    assert (forall y, newly d' (put_validator x w) y <-> newly d w y \/ y = x) as Hnew.
    { intros y. unfold newly, is_validator. rewrite Hst'. cbn. case_bool_decide as Hn.
      - destruct Hn as [-> ->]. rewrite Hx. unfold status. rewrite Hunm. naive_solver.
      - split; [naive_solver|]. intros [?|<-]; [done|]. by destruct Hn. }
    split.
    + apply Hi.
    + apply wf_put_validator; [apply Hi|done|]. intros y Hy. apply Hfresh. naive_solver.
    + intros y Hy. assert ((member w0 y \/ A y \/ is_validator w y) \/ y = x) as [Hy'| ->]; [|left; by apply (di_used _ _ _ _ _ Hi)|by right].
      unfold is_validator in *. cbn in Hy. case_bool_decide; naive_solver.
    + apply Hi.
    + apply Hi.
    + intros y z Hy Hz%Hnew. destruct Hz as [Hz| ->]; [by apply (di_kind _ _ _ _ _ Hi)|]. apply Hfresh. naive_solver.
    + intros s n. rewrite Hst'. case_bool_decide as Hn.
      * destruct Hn as [-> ->]. exists x. rewrite Hdv, bool_decide_true by done. cbn. rewrite bool_decide_true by done.
        split_and!; [done|done|done|]. intros y Hy. apply Hfresh. by left.
      * rewrite Hdv, bool_decide_false by done. cbn. rewrite bool_decide_false by done. apply Hi.
    + intros s n. rewrite (proj1 (Hsame s n)). apply Hi.
    + intros y. rewrite (proj2 (Hsame _ _)). apply Hi.
    + intros s n t y. rewrite (proj2 (Hsame s n)). apply Hi.
    + change (addedStakers d') with (insert_new (addedStakers d) x). eapply opt_items_ext; [apply opt_items_insert; [apply (di_added _ _ _ _ _ Hi)|]|].
      * intros y Hy Heq. exfalso. apply (Hfresh y); [|done]. destruct Hy as [?|[_ ?]]; naive_solver.
      * intros y. cbn. rewrite Hnew. naive_solver.
    + intros t. cbn. rewrite (di_mask _ _ _ _ _ Hi t). f_equiv.
      * split; intros (s & n & y & Hs & Hy & Ht); exists s, n, y; (split; [|done]).
        -- rewrite Hst', bool_decide_false; [done|]. intros [-> ->]. by rewrite Hx0 in Hy.
        -- rewrite Hst' in Hs. by case_bool_decide.
      * split; intros (s & n & Hs); exists s, n; by rewrite (proj2 (Hsame s n)) in *.
Qed.

Lemma diff_Delete_validator w0 used A d w x : diff_inv w0 used A d w -> is_validator w x ->
  exists d', diff_DeleteValidator x d = (d', Ok tt) /\ diff_inv w0 used A d' (delete_validator x w).
Proof.
  intros Hi Hx. pose proof (di_status _ _ _ _ _ Hi (SubnetID x) (NodeID x)) as Hst. unfold is_validator in Hx.
  assert (forall y, is_validator (delete_validator x w) y <-> is_validator w y /\ ~ at_node (SubnetID x) (NodeID x) y) as Hval.
  { intros y. unfold is_validator, at_node. cbn. case_bool_decide as Hn; [by split; [|intros [_ ?]]|]. split; [done|by intros [? _]]. }
  assert (forall y, is_validator (delete_validator x w) y <-> is_validator w y /\ y <> x) as Hval'.
  { intros y. rewrite Hval. unfold at_node. split; [intros [? Hn]; split; [done|]; intros ->; by apply Hn|]. intros [Hy Hne]. split; [done|].
    intros [Hs Hn]. unfold is_validator in Hy. rewrite Hs, Hn, Hx in Hy. by injection Hy as ->. }
  assert (forall d' st v, (forall s n, dv d' s n = if bool_decide (s = SubnetID x /\ n = NodeID x) then Stakers.set_validator st v (dv d s n) else dv d s n) ->
    (forall s n, addedDelegators (dv d' s n) = addedDelegators (dv d s n) /\ deletedDelegators (dv d' s n) = deletedDelegators (dv d s n)) /\
    (forall s n, status d' s n = if bool_decide (s = SubnetID x /\ n = NodeID x) then st else status d s n)) as Hsame.
  { intros d' st v Hdv. split; intros s n; unfold status; rewrite Hdv; by case_bool_decide. }
  assert (forall y, member w0 y \/ A y \/ is_validator (delete_validator x w) y -> used (TxID y)) as Hused.
  { intros y Hy. apply (di_used _ _ _ _ _ Hi). rewrite Hval in Hy. naive_solver. }
  rewrite diff_DeleteValidator_eq. case_bool_decide as Hd.
  - rewrite Hd in Hst. destruct Hst as (y & Hv & Hy & Hx0 & _). rewrite Hx in Hy. injection Hy as <-. rewrite Hv.
    assert (newly d w x) as Hnx by by split.
    pose proof (di_added _ _ _ _ _ Hi) as Hadd. destruct (addedStakers d) as [t|] eqn:Ht; [|exfalso; by apply (Hadd x); right]. rewrite <- Ht in Hadd.
    eexists. split; [done|]. set (d' := changed _ _ _ _ _). destruct (Hsame d' unmodified None ltac:(intros; apply dv_changed)) as [Hdels Hst'].
    assert (forall y, newly d' (delete_validator x w) y <-> newly d w y /\ y <> x) as Hnew.
    { intros y. unfold newly. rewrite Hst', Hval'. case_bool_decide as Hn; [|naive_solver]. split; [by intros [? _]|]. intros [[_ Hy] Hne].
      destruct Hne. destruct Hn as [Hs Hn]. unfold is_validator in Hy. rewrite Hs, Hn, Hx in Hy. by injection Hy as ->. }
    split.
    + apply Hi.
    + by apply wf_delete_validator; [apply Hi|].
    + exact Hused.
    + apply Hi.
    + apply Hi.
    + intros y z Hy [Hz _]%Hnew. by apply (di_kind _ _ _ _ _ Hi).
    + intros s n. rewrite Hst'. cbn. case_bool_decide as Hn; [destruct Hn as [-> ->]; by rewrite Hx0|].
      unfold d'. rewrite dv_changed, bool_decide_false by done. apply Hi.
    + intros s n. rewrite (proj1 (Hdels s n)). apply Hi.
    + intros y. rewrite (proj2 (Hdels _ _)). apply Hi.
    + intros s n t' y. rewrite (proj2 (Hdels s n)). apply Hi.
    + change (addedStakers d') with (DeleteItem Less x <$> Some t). rewrite <- Ht. eapply opt_items_ext; [apply opt_items_delete; [exact Hadd|]|].
      * intros y Hy Heq. destruct Hy as [Hy|[_ Hy]]; [by destruct (di_kind _ _ _ _ _ Hi y x Hy Hnx)|].
        apply (wf_key _ (di_wf _ _ _ _ _ Hi)); [by left|by left|done].
      * intros y. cbn. rewrite Hnew. split; [naive_solver|]. intros [Hy|Hy]; [|naive_solver]. split; [by left|]. intros ->.
        by apply (di_kind _ _ _ _ _ Hi x x Hy Hnx).
    + intros t'. cbn. rewrite (di_mask _ _ _ _ _ Hi t'). f_equiv.
      * split; intros (s & n & y & Hs & Hy & Ht'); exists s, n, y; (split; [|done]).
        -- rewrite Hst', bool_decide_false; [done|]. intros [-> ->]. by rewrite Hx0 in Hy.
        -- rewrite Hst' in Hs. by case_bool_decide.
      * split; intros (s & n & Hs); exists s, n; by rewrite (proj2 (Hdels s n)) in *.
  - assert (status d (SubnetID x) (NodeID x) = unmodified /\ vals w0 (SubnetID x) (NodeID x) = Some x) as [Hunm Hx0].
    { destruct (status d (SubnetID x) (NodeID x)); [by rewrite <- Hst|done|]. destruct Hst as (y & _ & Hy & _). by rewrite Hy in Hx. }
    eexists. split; [done|]. set (d' := changed _ _ _ _ _). destruct (Hsame d' deleted (Some x) ltac:(intros; apply dv_changed)) as [Hdels Hst'].
    assert (forall y, newly d' (delete_validator x w) y <-> newly d w y) as Hnew.
    { intros y. unfold newly. rewrite Hst', Hval. unfold at_node. case_bool_decide as Hn; [|naive_solver]. destruct Hn as [-> ->]. rewrite Hunm. naive_solver. }
    split.
    + apply Hi.
    + by apply wf_delete_validator; [apply Hi|].
    + exact Hused.
    + apply Hi.
    + apply Hi.
    + intros y z Hy Hz%Hnew. by apply (di_kind _ _ _ _ _ Hi).
    + intros s n. rewrite Hst'. unfold d'. rewrite dv_changed. cbn. case_bool_decide as Hn; [|apply Hi]. destruct Hn as [-> ->]. by exists x.
    + intros s n. rewrite (proj1 (Hdels s n)). apply Hi.
    + intros y. rewrite (proj2 (Hdels _ _)). apply Hi.
    + intros s n t' y. rewrite (proj2 (Hdels s n)). apply Hi.
    + eapply opt_items_ext; [apply (di_added _ _ _ _ _ Hi)|]. intros y. cbn. by rewrite Hnew.
    + intros t'. cbn. rewrite lookup_insert_is_Some', (di_mask _ _ _ _ _ Hi t'). split.
      * intros [<-|[(s & n & y & Hs & Hy & Ht')|(s & n & Hs)]].
        -- left. exists (SubnetID x), (NodeID x), x. by rewrite Hst', bool_decide_true.
        -- left. exists s, n, y. rewrite Hst'. by case_bool_decide.
        -- right. exists s, n. by rewrite (proj2 (Hdels s n)).
      * intros [(s & n & y & Hs & Hy & Ht')|(s & n & Hs)].
        -- rewrite Hst' in Hs. case_bool_decide as Hn; [destruct Hn as [-> ->]; left; congruence|right; left; by exists s, n, y].
        -- right. right. exists s, n. by rewrite (proj2 (Hdels s n)) in Hs.
Qed.

(** A change of the delegators only. *)
Lemma delegator_change d x f a b : (forall v, validatorStatus (f v) = validatorStatus v /\ validator (f v) = validator v) ->
  forall s n, status (changed d x f a b) s n = status d s n /\ validator (dv (changed d x f a b) s n) = validator (dv d s n).
Proof. intros Hf s n. unfold status. rewrite !dv_changed. case_bool_decide; [apply Hf|done]. Qed.

Lemma diff_Put_delegator w0 used A d w x : diff_inv w0 used A d w -> ~ used (TxID x) ->
  exists d', diff_PutDelegator x d = (d', Ok tt) /\ diff_inv w0 (fun t => used t \/ t = TxID x) (fun y => A y \/ y = x) d' (put_delegator x w).
Proof.
  intros Hi Hu. pose proof (fun y => not_used_fresh _ _ _ _ _ x y Hi Hu) as Hfresh. rewrite diff_PutDelegator_eq. eexists. split; [done|].
  set (d' := changed _ _ _ _ _). pose proof (delegator_change d x (add_delegator x) (insert_new (addedStakers d) x) (deletedStakers d) ltac:(done)) as Hst'.
  fold d' in Hst'. assert (forall s n, deletedDelegators (dv d' s n) = deletedDelegators (dv d s n)) as Hdel
    by (intros s n; unfold d'; rewrite dv_changed; by case_bool_decide).
  assert (forall y, newly d' (put_delegator x w) y <-> newly d w y) as Hnew by (intros y; unfold newly; by rewrite (proj1 (Hst' _ _))).
  assert (forall y, newly d w y -> TxID y <> TxID x) as Hnf by (intros y [_ Hy]; apply Hfresh; naive_solver).
  split.
  - apply Hi.
  - apply wf_put_delegator; [apply Hi|]. intros y Hy. apply Hfresh. naive_solver.
  - intros y Hy. assert ((member w0 y \/ A y \/ is_validator w y) \/ y = x) as [Hy'| ->]; [naive_solver|left; by apply (di_used _ _ _ _ _ Hi)|by right].
  - intros y z Hz [Hy| ->]; [by apply (di_fresh _ _ _ _ _ Hi)|]. apply Hfresh. by left.
  - intros y z [Hy| ->] [Hz| ->]; [by apply (di_key _ _ _ _ _ Hi)|intros Heq; by destruct (Hfresh y); [naive_solver|]|intros Heq; by destruct (Hfresh z); [naive_solver|]|done].
  - intros y z [Hy| ->] Hz%Hnew; [by apply (di_kind _ _ _ _ _ Hi)|]. apply not_eq_sym. by apply Hnf.
  - intros s n. destruct (Hst' s n) as [-> ->]. apply Hi.
  - intros s n. unfold d'. rewrite dv_changed. case_bool_decide as Hn.
    + eapply opt_items_ext; [apply opt_items_insert; [apply (di_tree _ _ _ _ _ Hi)|]|].
      * intros y [Hy _] Heq. by destruct (Hfresh y); [naive_solver|].
      * intros y. cbn. destruct Hn as [-> ->]. unfold at_node. naive_solver.
    + eapply opt_items_ext; [apply (di_tree _ _ _ _ _ Hi)|]. intros y. cbn. split; [naive_solver|]. intros [[Hy| ->] Hn']; [done|].
      destruct Hn. by destruct Hn'.
  - intros y. rewrite Hdel. cbn. rewrite (di_dels _ _ _ _ _ Hi y). split; [|naive_solver]. intros [?| ->]; [naive_solver|]. split; [by right; right|].
    apply eq_None_not_Some. intros [z Hz]. destruct (di_deleted _ _ _ _ _ Hi _ _ _ _ Hz) as (Ht & _ & Hz0). destruct (Hfresh z); [|done].
    destruct Hz0; [by left; right|naive_solver].
  - intros s n t y. rewrite Hdel. intros Hy. destruct (di_deleted _ _ _ _ _ Hi _ _ _ _ Hy) as (? & ? & ?). naive_solver.
  - change (addedStakers d') with (insert_new (addedStakers d) x). eapply opt_items_ext; [apply opt_items_insert; [apply (di_added _ _ _ _ _ Hi)|]|].
    + intros y [Hy|Hy] Heq; [by destruct (Hfresh y); [naive_solver|]|by destruct (Hnf y)].
    + intros y. cbn. rewrite Hnew. naive_solver.
  - intros t. cbn. rewrite (di_mask _ _ _ _ _ Hi t). setoid_rewrite Hdel. f_equiv.
    split; intros (s & n & y & Hs & Hy); exists s, n, y; by rewrite (proj1 (Hst' s n)) in *.
Qed.

Lemma diff_Delete_delegator w0 used A d w x : diff_inv w0 used A d w -> dels w x ->
  exists d', diff_DeleteDelegator x d = (d', Ok tt) /\ diff_inv w0 used A d' (remove_delegator x w).
Proof.
  intros Hi Hx. pose proof (proj1 (di_dels _ _ _ _ _ Hi x) Hx) as [Hx0 Hnx]. rewrite diff_DeleteDelegator_eq. eexists. split; [done|].
  set (d' := changed _ _ _ _ _). pose proof (delegator_change d x (delete_delegator x) (addedStakers d) (<[TxID x:=x]> (deletedStakers d)) ltac:(done)) as Hst'.
  fold d' in Hst'. assert (forall s n, addedDelegators (dv d' s n) = addedDelegators (dv d s n)) as Hadd
    by (intros s n; unfold d'; rewrite dv_changed; by case_bool_decide).
  assert (forall s n t, deletedDelegators (dv d' s n) !! t = if bool_decide (at_node s n x /\ t = TxID x) then Some x else deletedDelegators (dv d s n) !! t) as Hdel.
  { intros s n t. unfold d'. rewrite dv_changed. unfold at_node. case_bool_decide as Hn.
    - destruct Hn as [-> ->]. cbn. destruct (decide (t = TxID x)) as [->|Ht]; [by rewrite lookup_insert_eq, bool_decide_true|].
      rewrite lookup_insert_ne by done. by rewrite bool_decide_false by (by intros [_ ?]).
    - rewrite bool_decide_false; [done|]. intros [[<- <-] _]. by apply Hn. }
  assert (forall y, newly d' (remove_delegator x w) y <-> newly d w y) as Hnew by (intros y; unfold newly; by rewrite (proj1 (Hst' _ _))).
  split.
  - apply Hi.
  - by apply wf_remove_delegator; [apply Hi|].
  - apply Hi.
  - apply Hi.
  - apply Hi.
  - intros y z Hy Hz%Hnew. by apply (di_kind _ _ _ _ _ Hi).
  - intros s n. destruct (Hst' s n) as [-> ->]. apply Hi.
  - intros s n. rewrite Hadd. apply Hi.
  - intros y. rewrite Hdel. cbn. rewrite (di_dels _ _ _ _ _ Hi y). case_bool_decide as Hn.
    + split; [|by intros [_ ?]]. intros [Hy Hne]. exfalso. apply Hne. destruct Hn as [_ Ht].
      apply (wf_key _ (di_wf _ _ _ _ _ Hi)); [right; by apply (di_dels _ _ _ _ _ Hi)|by right|done].
    + split; [naive_solver|]. intros Hy. split; [done|]. intros ->. by apply Hn.
  - intros s n t y. rewrite Hdel. case_bool_decide as Hn; [|apply Hi]. intros [= <-]. destruct Hn as [? ->]. done.
  - eapply opt_items_ext; [apply (di_added _ _ _ _ _ Hi)|]. intros y. cbn. by rewrite Hnew.
  - intros t. cbn. rewrite lookup_insert_is_Some', (di_mask _ _ _ _ _ Hi t). setoid_rewrite Hdel. split.
    + intros [<-|[(s & n & y & Hs & Hy)|(s & n & Hs)]].
      * right. exists (SubnetID x), (NodeID x). by rewrite bool_decide_true.
      * left. exists s, n, y. by rewrite (proj1 (Hst' s n)).
      * right. exists s, n. by case_bool_decide.
    + intros [(s & n & y & Hs & Hy)|(s & n & Hs)]; [right; left; exists s, n, y; by rewrite (proj1 (Hst' s n)) in Hs|].
      case_bool_decide as Hn; [left; by destruct Hn|right; right; by exists s, n].
Qed.
End facts.
End StakersFacts.

(** ** The weight that a node gains or loses
    [WeightDiff] of [vms/platformvm/state/stakers.go] sums the changes of a node in
    an unsigned amount with a sign: the sum is right, and it fails only when the
    changes together exceed 64 bits. *)
Module StakerWeights.
Import Sorting BTree Iterators Stakers.

Definition signed (w : ValidatorWeightDiff) : Z := if Decrease w then - Amount w else Amount w.

Lemma addOrSub_spec sub a w : is_u64 (Amount w) -> is_u64 a ->
  match addOrSub sub a w with
  | Ok w' => is_u64 (Amount w') /\ Amount w' <= Amount w + a /\ signed w' = signed w + (if sub then - a else a)
  | Err e => e = ErrMath SafeMath.ErrOverflow /\ MaxUint64 < Amount w + a
  end.
Proof.
  rewrite !is_u64_max. intros Hw Ha. unfold addOrSub, signed. destruct w as [dec x]. cbn in *. case_bool_decide as Hd.
  - subst. rewrite SafeMath.Add_spec by first [lia|apply is_u64_max; lia]. change (2 ^ 64) with (MaxUint64 + 1).
    destruct (Z.ltb_spec (x + a) (MaxUint64 + 1)); cbn; [rewrite is_u64_max; destruct sub; lia|split; [done|lia]].
  - destruct (Z.ltb_spec a x); cbn.
    + rewrite wrap64_small by lia. rewrite is_u64_max. destruct dec, sub; try done; lia.
    + unfold SafeMath.AbsDiff. rewrite wrap64_small by lia. rewrite is_u64_max. destruct dec, sub; try done; lia.
Qed.

Lemma foldR_addOrSub {A} (f : A -> Z) sub l w : is_u64 (Amount w) -> (forall x, x ∈ l -> is_u64 (f x)) ->
  match foldR (fun w x => addOrSub sub (f x) w) w l with
  | Ok w' => is_u64 (Amount w') /\ Amount w' <= Amount w + zsum f l /\ signed w' = signed w + (if sub then - zsum f l else zsum f l)
  | Err e => e = ErrMath SafeMath.ErrOverflow /\ MaxUint64 < Amount w + zsum f l
  end.
Proof.
  revert w. induction l as [|x l IH]; intros w Hw Hl; cbn; [split; [done|destruct sub; lia]|]. fold (zsum f l).
  pose proof (addOrSub_spec sub (f x) w Hw (Hl x ltac:(by left))) as Hx.
  assert (0 <= zsum f l) as Hnn.
  { apply Z.le_trans with (zsum (fun _ => 0) l); [by rewrite zsum_zero|]. apply zsum_le. intros y Hy. apply (Hl y). by right. }
  destruct (addOrSub sub (f x) w) as [w1|e]; cbn; [|split; [apply Hx|lia]]. destruct Hx as (Hw1 & Hle & Hs).
  specialize (IH w1 Hw1 ltac:(intros; apply Hl; by right)). destruct (foldR _ w1 l) as [w'|e]; [|split; [apply IH|lia]].
  destruct IH as (? & ? & ->). split; [done|]. rewrite Hs. destruct sub; lia.
Qed.

Section diff.
Context {PK : Type} `{BTreeLaws (Staker PK)} {HO : KeyOrder ID}.

Definition added_list (d : diffValidator (PK := PK)) : list (Staker PK) := ToSlice (FromTree (addedDelegators d)).
Definition deleted_list (d : diffValidator (PK := PK)) : list (Staker PK) := (entries (deletedDelegators d)).*2.
(** What the validator itself contributes. *)
Definition own_weight (d : diffValidator (PK := PK)) : Z :=
  match validatorStatus d, validator d with
  | added, Some v => Weight v
  | deleted, Some v => - Weight v
  | _, _ => 0
  end.

Lemma WeightDiff_spec (d : diffValidator (PK := PK)) :
  (validatorStatus d <> unmodified -> is_Some (validator d)) ->
  (forall x, validator d = Some x \/ x ∈ added_list d \/ x ∈ deleted_list d -> is_u64 (Weight x)) ->
  match WeightDiff d with
  | Ok w => is_u64 (Amount w) /\ signed w = own_weight d + zsum Weight (added_list d) - zsum Weight (deleted_list d)
  | Err e => e = ErrMath SafeMath.ErrOverflow /\ MaxUint64 < Z.abs (own_weight d) + zsum Weight (added_list d) + zsum Weight (deleted_list d)
  end.
Proof.
  intros Hv Hu. unfold WeightDiff.
  assert (exists w, (if bool_decide (validatorStatus d = unmodified) then Ok (mkWeightDiff (bool_decide (validatorStatus d = deleted)) 0)
    else match validator d with Some v => Ok (mkWeightDiff (bool_decide (validatorStatus d = deleted)) (Weight v)) | None => Err Panic end) = Ok w /\
    is_u64 (Amount w) /\ signed w = own_weight d) as (w & Hw & Hwu & Hws).
  { unfold own_weight. destruct (validatorStatus d); cbn.
    - eexists. split; [done|]. split; [by apply is_u64_max|done].
    - destruct (Hv ltac:(done)) as [v Hv']. rewrite Hv'. eexists. split; [done|]. split; [apply Hu; by left|done].
    - destruct (Hv ltac:(done)) as [v Hv']. rewrite Hv'. eexists. split; [done|]. split; [apply Hu; by left|done]. }
  cbn [Decrease]. rewrite Hw. cbn [mbind result_bind].
  pose proof (foldR_addOrSub (fun x : ID * Staker PK => Weight x.2) true (entries (deletedDelegators d)) w Hwu) as Hdel.
  rewrite <- (zsum_fmap Weight snd) in Hdel. fold (deleted_list d) in Hdel.
  assert (Amount w = Z.abs (own_weight d)) as Ha by (rewrite <- Hws; unfold signed; apply is_u64_max in Hwu; destruct (Decrease w); lia).
  assert (forall l, (forall x, x ∈ l -> x ∈ added_list d \/ x ∈ deleted_list d) -> 0 <= zsum Weight l) as Hnn.
  { intros l Hl. apply Z.le_trans with (zsum (fun _ : Staker PK => 0) l); [by rewrite zsum_zero|]. apply zsum_le. intros x Hx. apply (Hu x). right. by apply Hl. }
  pose proof (Hnn (added_list d) ltac:(tauto)). pose proof (Hnn (deleted_list d) ltac:(tauto)).
  assert (forall x, x ∈ entries (deletedDelegators d) -> is_u64 (Weight x.2)) as Hud by (intros x Hx; apply Hu; right; right; apply list_elem_of_fmap; by exists x).
  specialize (Hdel Hud). unfold wd_Sub, wd_Add. destruct (foldR _ w (entries (deletedDelegators d))) as [w1|e]; [|split; [apply Hdel|lia]].
  destruct Hdel as (Hw1 & Hle & Hs1). pose proof (foldR_addOrSub Weight false (added_list d) w1 Hw1 ltac:(intros; apply Hu; by right; left)) as Hadd.
  change (ToSlice (FromTree (addedDelegators d))) with (added_list d). cbn [mbind result_bind]. destruct (foldR _ w1 (added_list d)) as [w2|e]; [|split; [apply Hadd|lia]].
  destruct Hadd as (? & _ & ->). split; [done|]. rewrite Hs1, Hws. lia.
Qed.

(** [WeightDiff] is the weight that the node gains: the added validator and delegators
    less the deleted ones, as a sign and an amount; it fails exactly with an overflow,
    and only when all the changes together exceed 64 bits. *)
Theorem WeightDiff_correct (d : diffValidator (PK := PK)) :
  (validatorStatus d <> unmodified -> is_Some (validator d)) ->
  (forall x, validator d = Some x \/ x ∈ added_list d \/ x ∈ deleted_list d -> is_u64 (Weight x)) ->
  match WeightDiff d with
  | Ok w => is_u64 (Amount w) /\ signed w = own_weight d + zsum Weight (added_list d) - zsum Weight (deleted_list d)
  | Err e => e = ErrMath SafeMath.ErrOverflow /\ MaxUint64 < Z.abs (own_weight d) + zsum Weight (added_list d) + zsum Weight (deleted_list d)
  end.
Proof. apply WeightDiff_spec. Qed.
End diff.

#[local] Existing Instances elements_order list_btree list_btree_laws.
Definition demo_delegator (tx : Z) (w : Z) : Staker Z := mkStaker [tx] [1] None [7] w 0 1000 5 1000 3.
(** A node that loses its validator and a delegator, and gains another delegator. *)
Definition demo_diff : diffValidator (PK := Z) :=
  delete_delegator (demo_delegator 2 30) (add_delegator (demo_delegator 3 50) (set_validator deleted (Some (demo_delegator 1 100)) newDiffValidator)).
Lemma WeightDiff_correct_witness : WeightDiff demo_diff = Ok (mkWeightDiff true 80) /\
  match WeightDiff demo_diff with
  | Ok w => is_u64 (Amount w) /\ signed w = own_weight demo_diff + zsum Weight (added_list demo_diff) - zsum Weight (deleted_list demo_diff)
  | Err e => e = ErrMath SafeMath.ErrOverflow /\ MaxUint64 < Z.abs (own_weight demo_diff) + zsum Weight (added_list demo_diff) + zsum Weight (deleted_list demo_diff)
  end.
Proof.
  split; [reflexivity|]. apply (WeightDiff_correct demo_diff); [intros _; by eexists|].
  assert (added_list demo_diff = [demo_delegator 3 50]) as -> by reflexivity. assert (deleted_list demo_diff = [demo_delegator 2 30]) as -> by reflexivity.
  intros x [[= <-]|[->%list_elem_of_singleton| ->%list_elem_of_singleton]]; by apply is_u64_max.
Defined.
End StakerWeights.
