(* ===== verification/ValidatorMetadata.v ===== *)
(** * Metadata of the current validators
    Models [vms/platformvm/state/metadata_validator.go]: the uptime and the rewards
    of each validator, which of them have changed, and what is written.  The codec
    is an argument. *)
From S2P Require Import Prelude Monads MapOrder Sorting BTree Stakers StakersFacts.

Module ValidatorMetadata.
Import Sorting Stakers StakersFacts.
Abbreviation nodes V := (gmap ID (gmap ID V)).

Record validatorMetadata := mkMetadata {
  UpDuration : Z;
  LastUpdated : Z;
  PotentialReward : Z;
  PotentialDelegateeReward : Z;
  StakerStartTime : Z;
  txID : ID;
  lastUpdated : Z;
}.

Record metadata := mkM { m_metadata : nodes validatorMetadata; updatedMetadata : gmap ID (gset ID) }.
Definition newValidatorState : metadata := mkM ∅ ∅.

Definition LoadValidatorMetadata (vdrID subnetID : ID) (uptime : validatorMetadata) (m : metadata) : metadata :=
  mkM (insert2 vdrID subnetID uptime (m_metadata m)) (updatedMetadata m).
Definition addUpdatedMetadata (vdrID subnetID : ID) (m : metadata) : metadata :=
  mkM (m_metadata m) (<[vdrID := {[subnetID]} ∪ default ∅ (updatedMetadata m !! vdrID)]> (updatedMetadata m)).

Definition GetUptime (vdrID subnetID : ID) (m : metadata) : result StateErr (Z * Z) :=
  match lookup2 (m_metadata m) vdrID subnetID with
  | None => Err ErrNotFound
  | Some x => Ok (UpDuration x, lastUpdated x)
  end.
Definition SetUptime (vdrID subnetID : ID) (upDuration last : Z) (m : metadata) : result StateErr metadata :=
  match lookup2 (m_metadata m) vdrID subnetID with
  | None => Err ErrNotFound
  | Some x =>
      let x := mkMetadata upDuration (LastUpdated x) (PotentialReward x) (PotentialDelegateeReward x) (StakerStartTime x) (txID x) last in
      Ok (addUpdatedMetadata vdrID subnetID (mkM (insert2 vdrID subnetID x (m_metadata m)) (updatedMetadata m)))
  end.
Definition GetDelegateeReward (subnetID vdrID : ID) (m : metadata) : result StateErr Z :=
  match lookup2 (m_metadata m) vdrID subnetID with
  | None => Err ErrNotFound
  | Some x => Ok (PotentialDelegateeReward x)
  end.
Definition SetDelegateeReward (subnetID vdrID : ID) (amount : Z) (m : metadata) : result StateErr metadata :=
  match lookup2 (m_metadata m) vdrID subnetID with
  | None => Err ErrNotFound
  | Some x =>
      let x := mkMetadata (UpDuration x) (LastUpdated x) (PotentialReward x) amount (StakerStartTime x) (txID x) (lastUpdated x) in
      Ok (addUpdatedMetadata vdrID subnetID (mkM (insert2 vdrID subnetID x (m_metadata m)) (updatedMetadata m)))
  end.
Definition DeleteValidatorMetadata (vdrID subnetID : ID) (m : metadata) : metadata :=
  let subnetUpdatedMetadata := default ∅ (updatedMetadata m !! vdrID) ∖ {[subnetID]} in
  mkM (delete2 vdrID subnetID (m_metadata m))
    (if bool_decide (subnetUpdatedMetadata = ∅) then delete vdrID (updatedMetadata m)
     else <[vdrID := subnetUpdatedMetadata]> (updatedMetadata m)).

(** ** Writing *)
Section write.
Context {HO : KeyOrder ID} (PrimaryNetworkID : ID) (Marshal : validatorMetadata -> result StateErr (list Z)).
(** The two databases, of the primary network and of the subnets. *)
Context {DB : Type} (db_Put : bool -> list Z -> list Z -> M DB StateErr unit).

Definition to_seconds (x : validatorMetadata) : validatorMetadata :=
  mkMetadata (UpDuration x) (lastUpdated x) (PotentialReward x) (PotentialDelegateeReward x) (StakerStartTime x) (txID x) (lastUpdated x).
Definition write_one (vdrID subnetID : ID) : M (metadata * DB) StateErr unit :=
  s ← get;
  x ← must Panic (lookup2 (m_metadata s.1) vdrID subnetID);
  let x := to_seconds x in
  modify (fun s => (mkM (insert2 vdrID subnetID x (m_metadata s.1)) (updatedMetadata s.1), s.2));;
  metadataBytes ← lift (Marshal x);
  zoom snd (fun db s => (s.1, db)) (db_Put (bool_decide (subnetID = PrimaryNetworkID)) (txID x) metadataBytes).
Definition WriteValidatorMetadata : M (metadata * DB) StateErr unit :=
  s ← get;
  foldM (fun _ e =>
    foldM (fun _ subnetID => write_one e.1 subnetID) (keys e.2) tt;;
    modify (fun s => (mkM (m_metadata s.1) (delete e.1 (updatedMetadata s.1)), s.2))) (entries (updatedMetadata s.1)) tt.
End write.

(** ** Properties *)
(** Only loaded validators have changes, and no empty set is kept. *)
Record meta_wf (m : metadata) : Prop := {
  mw_loaded v x s : updatedMetadata m !! v = Some x -> s ∈ x -> is_Some (lookup2 (m_metadata m) v s);
  mw_kept v x : updatedMetadata m !! v = Some x -> x <> ∅;
}.
Definition changed_at (m : metadata) (v s : ID) : Prop := s ∈ default ∅ (updatedMetadata m !! v).

#[export] Instance changed_at_dec m v s : Decision (changed_at m v s).
Proof. unfold changed_at. apply _. Defined.

Lemma meta_wf_new : meta_wf newValidatorState.
Proof. by split. Qed.
Lemma changed_at_add v s m v' s' : changed_at (addUpdatedMetadata v s m) v' s' <-> changed_at m v' s' \/ v' = v /\ s' = s.
Proof.
  unfold changed_at. cbn. destruct (decide (v' = v)) as [->|Hne]; [rewrite lookup_insert_eq; cbn; set_solver|].
  rewrite lookup_insert_ne by done. naive_solver.
Qed.

Lemma meta_wf_change (m : metadata) v s x : meta_wf m -> is_Some (lookup2 (m_metadata m) v s) ->
  meta_wf (addUpdatedMetadata v s (mkM (insert2 v s x (m_metadata m)) (updatedMetadata m))).
Proof.
  intros [Hl Hk] Hvs. split; cbn.
  - intros v' y s'. rewrite lookup2_insert2. case_bool_decide as Hc; [by eexists|]. rewrite lookup_insert_Some. intros [[<- <-]|[Hne Hy]] Hin.
    + apply elem_of_union in Hin as [->%elem_of_singleton|Hin]; [by destruct Hc|]. destruct (updatedMetadata m !! v) as [z|] eqn:Hz; [|by apply elem_of_empty in Hin].
      by apply (Hl v z).
    + by apply (Hl v' y).
  - intros v' y. rewrite lookup_insert_Some. intros [[_ <-]|[_ Hy]]; [set_solver|by apply (Hk v')].
Qed.
Lemma meta_wf_set_uptime v s a b m m' : meta_wf m -> SetUptime v s a b m = Ok m' -> meta_wf m'.
Proof. unfold SetUptime. intros Hm. destruct (lookup2 _ v s) eqn:Hvs; [|done]. intros [= <-]. apply meta_wf_change; [done|by rewrite Hvs]. Qed.
Lemma meta_wf_set_reward v s a m m' : meta_wf m -> SetDelegateeReward s v a m = Ok m' -> meta_wf m'.
Proof. unfold SetDelegateeReward. intros Hm. destruct (lookup2 _ v s) eqn:Hvs; [|done]. intros [= <-]. apply meta_wf_change; [done|by rewrite Hvs]. Qed.
Lemma meta_wf_load v s x m : meta_wf m -> meta_wf (LoadValidatorMetadata v s x m).
Proof.
  intros [Hl Hk]. split; cbn; [|done]. intros v' y s' Hy Hin. rewrite lookup2_insert2. case_bool_decide; [by eexists|]. by apply (Hl v' y).
Qed.
Lemma meta_wf_delete v s m : meta_wf m -> meta_wf (DeleteValidatorMetadata v s m).
Proof.
  intros [Hl Hk]. assert (forall v' y, updatedMetadata (DeleteValidatorMetadata v s m) !! v' = Some y ->
    y <> ∅ /\ exists z, updatedMetadata m !! v' = Some z /\ forall s', s' ∈ y -> s' ∈ z /\ ~ (v' = v /\ s' = s)) as Hy.
  { intros v' y. cbn. case_bool_decide as Hc.
    - rewrite lookup_delete_Some. intros [Hne Hy]. split; [by apply (Hk v')|]. exists y. split; [done|]. intros s' Hs'. split; [done|]. by intros [-> _].
    - rewrite lookup_insert_Some. intros [[<- <-]|[Hne Hy]].
      + split; [done|]. destruct (updatedMetadata m !! v) as [z|] eqn:Hz; [|by destruct Hc; set_solver]. exists z. split; [done|]. set_solver.
      + split; [by apply (Hk v')|]. exists y. split; [done|]. intros s' Hs'. split; [done|]. by intros [-> _]. }
  split.
  - intros v' y s' Hy' Hin. destruct (Hy v' y Hy') as (_ & z & Hz & Hs). destruct (Hs s' Hin) as [Hin' Hne]. cbn [DeleteValidatorMetadata m_metadata].
    rewrite lookup2_delete2, bool_decide_false by done. by apply (Hl v' z).
  - intros v' y Hy'. by apply (Hy v' y).
Qed.

(** ** What is written *)
Section written.
Context {HO : KeyOrder ID} (PrimaryNetworkID : ID) (enc : validatorMetadata -> list Z).
(** The writes of a database, in order. *)
Definition log_Put (primary : bool) (k v : list Z) : M (list (bool * list Z * list Z)) StateErr unit := modify (fun l => l ++ [(primary, k, v)]).
Definition marshal (x : validatorMetadata) : result StateErr (list Z) := Ok (enc x).
(** The changed validators, in the order in which they are visited. *)
Definition pairs (l : list (ID * gset ID)) : list (ID * ID) := l ≫= fun e => pair e.1 <$> keys e.2.
Definition changed_pairs (m : metadata) : list (ID * ID) := pairs (entries (updatedMetadata m)).
Definition record_of (m : metadata) (p : ID * ID) : list (bool * list Z * list Z) :=
  match lookup2 (m_metadata m) p.1 p.2 with
  | Some x => [(bool_decide (p.2 = PrimaryNetworkID), txID x, enc (to_seconds x))]
  | None => []
  end.

Lemma elem_of_changed_pairs m v s : (v, s) ∈ changed_pairs m <-> changed_at m v s.
Proof.
  unfold changed_pairs, pairs, changed_at. rewrite list_elem_of_bind. split.
  - intros ([v' x] & Hin & He). apply list_elem_of_fmap in Hin as (s' & [= -> ->] & Hs). cbn in Hs. apply elem_of_keys in Hs.
    apply elem_of_entries in He as ->. done.
  - destruct (updatedMetadata m !! v) as [x|] eqn:Hx; [|by intros Hs%elem_of_empty]. cbn. intros Hs. exists (v, x).
    split; [|by apply elem_of_entries]. apply list_elem_of_fmap. exists s. split; [done|]. by apply elem_of_keys.
Qed.

Lemma pairs_snoc l v x : pairs (l ++ [(v, x)]) = pairs l ++ (pair v <$> keys x).
Proof. unfold pairs. rewrite bind_app. cbn. by rewrite app_nil_r. Qed.

(** The metadata once the validators of [l] are written. *)
Definition written (m : metadata) (l : list (ID * ID)) (m' : metadata) : Prop :=
  forall v s, lookup2 (m_metadata m') v s = (if decide ((v, s) ∈ l) then to_seconds <$> lookup2 (m_metadata m) v s else lookup2 (m_metadata m) v s).

Lemma write_one_spec m l v s m' log : written m l m' -> is_Some (lookup2 (m_metadata m) v s) -> (v, s) ∉ l ->
  wp never (write_one PrimaryNetworkID marshal log_Put v s)
    (fun _ r => written m (l ++ [(v, s)]) r.1 /\ updatedMetadata r.1 = updatedMetadata m' /\ r.2 = log ++ record_of m (v, s)) (m', log).
Proof.
  intros Hw [x Hx] Hni. unfold write_one. apply wp_bind, wp_get, wp_bind, wp_must. exists x.
  split; [cbn; by rewrite Hw, decide_False|]. apply wp_bind, wp_modify, wp_bind, wp_lift. cbn.
  split; [|split; [done|unfold record_of; cbn [fst snd]; by rewrite Hx]]. intros v' s'. cbn. rewrite lookup2_insert2.
  case_bool_decide as Hc; [destruct Hc as [-> ->]; by rewrite decide_True, Hx by set_solver|]. rewrite Hw.
  destruct (decide ((v', s') ∈ l)), (decide ((v', s') ∈ l ++ [(v, s)])) as [Hin|Hin]; rewrite elem_of_app, list_elem_of_singleton in Hin; try done;
    [by destruct Hin; left|destruct Hin as [?|[= -> ->]]; [done|by destruct Hc]].
Qed.

Lemma write_subnets m l v x m' log : written m l m' -> (forall s, s ∈ x -> is_Some (lookup2 (m_metadata m) v s)) -> (forall s, (v, s) ∉ l) ->
  wp never (foldM (fun _ s => write_one PrimaryNetworkID marshal log_Put v s) (keys x) tt)
    (fun _ r => written m (l ++ (pair v <$> keys x)) r.1 /\ updatedMetadata r.1 = updatedMetadata m' /\
      r.2 = log ++ ((pair v <$> keys x) ≫= record_of m)) (m', log).
Proof.
  intros Hw Hx Hni. apply (wp_foldM _ _ _ _ _ (fun ks _ r => written m (l ++ (pair v <$> ks)) r.1 /\
    updatedMetadata r.1 = updatedMetadata m' /\ r.2 = log ++ ((pair v <$> ks) ≫= record_of m))); [cbn; by rewrite !app_nil_r| |done].
  intros ks s ks' [] [m2 log2] Hks (Hw2 & Hu2 & Hl2). cbn in Hw2, Hu2, Hl2.
  eapply wp_mono; [apply (write_one_spec m _ v s m2 log2 Hw2)|].
  - apply Hx, elem_of_keys. rewrite Hks. set_solver.
  - rewrite elem_of_app. intros [Hin|Hin]; [by apply (Hni s)|]. apply list_elem_of_fmap in Hin as (s' & [= <-] & Hin).
    pose proof (keys_nodup x) as Hnd. rewrite Hks in Hnd. apply NoDup_app in Hnd as (_ & Hd & _). apply (Hd s Hin). by left.
  - intros [] r (Hw3 & Hu3 & Hl3). rewrite fmap_app, app_assoc. split; [done|]. split; [congruence|].
    rewrite Hl3, Hl2, bind_app, app_assoc. cbn [fmap list_fmap mbind list_bind]. by rewrite app_nil_r.
Qed.
Lemma changed_pairs_nodup m : NoDup (changed_pairs m).
Proof.
  unfold changed_pairs, pairs. pose proof (entries_keys_nodup (updatedMetadata m)) as Hnd. revert Hnd. generalize (entries (updatedMetadata m)). intros l.
  induction l as [|[v x] l IH]; intros Hnd; [constructor|]. cbn in Hnd |- *. apply NoDup_cons in Hnd as [Hni Hnd]. apply NoDup_app. split_and!; [|intros [v' s]|by apply IH].
  - apply NoDup_fmap_2; [by intros ?? [=]|apply keys_nodup].
  - intros (s' & [= -> ->] & _)%list_elem_of_fmap Hin. apply list_elem_of_bind in Hin as ([v2 y] & Hin & He).
    apply list_elem_of_fmap in Hin as (s2 & [= -> ->] & _). apply Hni, list_elem_of_fmap. by exists (v2, y).
Qed.

(** [WriteValidatorMetadata] writes exactly the metadata of the validators that have
    changed, each once, under its transaction ID, into the database of the primary
    network or into that of the subnets, with the time of its last update in seconds;
    it never panics, all other metadata stays, and no change is left to be written. *)
Theorem WriteValidatorMetadata_correct m log : meta_wf m ->
  wp never (WriteValidatorMetadata PrimaryNetworkID marshal log_Put)
    (fun _ r => updatedMetadata r.1 = ∅ /\ r.2 = log ++ (changed_pairs m ≫= record_of m) /\
      forall v s, lookup2 (m_metadata r.1) v s =
        (if decide (changed_at m v s) then to_seconds <$> lookup2 (m_metadata m) v s else lookup2 (m_metadata m) v s)) (m, log) /\
  NoDup (changed_pairs m) /\ forall v s, (v, s) ∈ changed_pairs m <-> changed_at m v s.
Proof.
  intros [Hl _]. split; [|split; [apply changed_pairs_nodup|apply elem_of_changed_pairs]].
  - unfold WriteValidatorMetadata. apply wp_bind, wp_get. cbn [fst].
    apply (wp_foldM _ _ _ _ _ (fun done _ r => written m (pairs done) r.1 /\
      (forall k, updatedMetadata r.1 !! k = if decide (k ∈ done.*1) then None else updatedMetadata m !! k) /\ r.2 = log ++ (pairs done ≫= record_of m))).
    + split_and!; [|intros k; by rewrite decide_False by apply not_elem_of_nil|cbn; by rewrite app_nil_r].
      intros v s. by rewrite decide_False by apply not_elem_of_nil.
    + intros done [v x] rest [] [m' log'] Heq (Hw & Hup & Hlog). cbn in Hw, Hup, Hlog |- *.
      assert (updatedMetadata m !! v = Some x) as Hv by (apply elem_of_entries; rewrite Heq; set_solver).
      assert (v ∉ done.*1) as Hni.
      { pose proof (entries_keys_nodup (updatedMetadata m)) as Hnd. rewrite Heq, fmap_app, fmap_cons, NoDup_app in Hnd. destruct Hnd as (_ & Hd & _).
        intros Hin. apply (Hd v Hin). by left. }
      assert (forall s, (v, s) ∉ pairs done) as Hnp.
      { intros s Hin. apply list_elem_of_bind in Hin as ([v' y] & Hin & He). apply list_elem_of_fmap in Hin as (s' & [= -> ->] & _).
        apply Hni, list_elem_of_fmap. by exists (v', y). }
      apply wp_bind. eapply wp_mono; [by apply (write_subnets m (pairs done) v x m' log'); [|intros s; apply (Hl v x s Hv)|]|].
      * intros [] r (Hw3 & Hu3 & Hl3). apply wp_modify. rewrite pairs_snoc.
        split; [exact Hw3|]. split; [|rewrite Hl3, Hlog, bind_app; by rewrite app_assoc]. intros k. cbn. rewrite Hu3, fmap_app. cbn. destruct (decide (k = v)) as [->|Hne].
        -- by rewrite lookup_delete_eq, decide_True by set_solver.
        -- rewrite lookup_delete_ne, Hup by done. by destruct (decide (k ∈ done.*1)), (decide (k ∈ done.*1 ++ [v])); try done; set_solver.
    + intros [] [m' log'] (Hw & Hup & Hlog). cbn in *. split_and!.
      * apply map_eq. intros k. rewrite Hup, lookup_empty. case_decide as Hk; [done|]. destruct (updatedMetadata m !! k) as [x|] eqn:Hx; [|done].
        destruct Hk. apply list_elem_of_fmap. exists (k, x). by rewrite elem_of_entries.
      * exact Hlog.
      * intros v s. rewrite Hw. change (pairs (entries (updatedMetadata m))) with (changed_pairs m).
        destruct (decide ((v, s) ∈ changed_pairs m)) as [Hin|Hin], (decide (changed_at m v s)) as [Hc|Hc]; rewrite elem_of_changed_pairs in Hin; done.
Qed.
End written.

#[local] Existing Instances elements_order.
Definition demo_metadata : metadata :=
  match SetUptime [1] [7] 5 100 (LoadValidatorMetadata [1] [7] (mkMetadata 0 0 3 4 0 [9] 0) (LoadValidatorMetadata [2] [7] (mkMetadata 0 0 3 4 0 [8] 0) newValidatorState)) with
  | Ok m => m
  | Err _ => newValidatorState
  end.
Lemma WriteValidatorMetadata_correct_witness :
  changed_pairs demo_metadata = [([1], [7])] /\
  (wp never (WriteValidatorMetadata [0] (marshal (fun x => [UpDuration x; LastUpdated x])) log_Put)
    (fun _ r => updatedMetadata r.1 = ∅ /\ r.2 = [] ++ (changed_pairs demo_metadata ≫= record_of [0] (fun x => [UpDuration x; LastUpdated x]) demo_metadata) /\
      forall v s, lookup2 (m_metadata r.1) v s =
        (if decide (changed_at demo_metadata v s) then to_seconds <$> lookup2 (m_metadata demo_metadata) v s else lookup2 (m_metadata demo_metadata) v s))
    (demo_metadata, []) /\
  NoDup (changed_pairs demo_metadata) /\ forall v s, (v, s) ∈ changed_pairs demo_metadata <-> changed_at demo_metadata v s).
Proof.
  split; [reflexivity|]. apply (WriteValidatorMetadata_correct [0] (fun x => [UpDuration x; LastUpdated x])).
  apply (meta_wf_set_uptime [1] [7] 5 100 (LoadValidatorMetadata [1] [7] (mkMetadata 0 0 3 4 0 [9] 0) (LoadValidatorMetadata [2] [7] (mkMetadata 0 0 3 4 0 [8] 0) newValidatorState)));
    [by do 2 apply meta_wf_load; apply meta_wf_new|reflexivity].
Defined.
End ValidatorMetadata.
