(* ===== verification/L1Validators.v ===== *)
(** * L1 validators and expiry entries of the P-chain
    Models [vms/platformvm/state/l1_validator.go], [expiry.go] and
    [subnet_id_node_id.go]: the orders, what may change, the active validators and
    the changes of a diff.  The queries that [putL1Validator] makes of the chain are
    its arguments. *)
From Stdlib Require Import Sorting.Sorted.
From S2P Require Import Prelude SafeMath Monads Sorting GoLibrary Database BTree Iterators Stakers StakersFacts.

Module L1Validators.
Import Sorting BTree Iterators Stakers.

(** [ids.ID.Compare] *)
Abbreviation ID_Compare := bytes_Compare.

(** ** Expiry entries *)
Record ExpiryEntry := mkExpiry { Timestamp : Z; E_ValidationID : ID }.
#[export] Instance ExpiryEntry_eq_dec : EqDecision ExpiryEntry.
Proof. solve_decision. Defined.
#[export] Program Instance ExpiryEntry_countable : Countable ExpiryEntry :=
  inj_countable' (fun e => (Timestamp e, E_ValidationID e)) (fun p => mkExpiry p.1 p.2) _.
Next Obligation. by intros []. Qed.

Definition IDLen : nat := 32.
Definition NodeIDLen : nat := 20.
Definition expiryEntryLength : nat := 8 + IDLen.
(** [copy(data, id[:])] fills the rest of [data], as an ID has its length. *)
Definition Expiry_Marshal (e : ExpiryEntry) : list Z := BigEndian.put 8 (Timestamp e) ++ E_ValidationID e.
Definition Expiry_Unmarshal (data : list Z) : option ExpiryEntry :=
  if negb (length data =? expiryEntryLength)%nat then None
  else Some (mkExpiry (BigEndian.get 8 (take 8 data)) (drop 8 data)).

Definition Expiry_Compare (e o : ExpiryEntry) : Z :=
  if Timestamp e <? Timestamp o then -1
  else if Timestamp o <? Timestamp e then 1
  else ID_Compare (E_ValidationID e) (E_ValidationID o).
Definition Expiry_Less (e o : ExpiryEntry) : bool := Expiry_Compare e o =? -1.

Section expiry.
Context `{BTree ExpiryEntry}.
Record expiryDiff := mkExpiryDiff { e_modified : gmap ExpiryEntry bool; e_added : BTreeG ExpiryEntry }.
Definition newExpiryDiff : expiryDiff := mkExpiryDiff ∅ NewG.
Definition e_PutExpiry (entry : ExpiryEntry) (e : expiryDiff) : expiryDiff :=
  mkExpiryDiff (<[entry := true]> (e_modified e)) (ReplaceOrInsert Expiry_Less entry (e_added e)).
Definition e_DeleteExpiry (entry : ExpiryEntry) (e : expiryDiff) : expiryDiff :=
  mkExpiryDiff (<[entry := false]> (e_modified e)) (DeleteItem Expiry_Less entry (e_added e)).
Definition getExpiryIterator (parentIterator : Iterator ExpiryEntry) (e : expiryDiff) : Iterator ExpiryEntry :=
  Merge Expiry_Less
    [Filter parentIterator (fun entry => bool_decide (is_Some (e_modified e !! entry))); FromTree (Some (e_added e))].
End expiry.

(** ** L1 validators *)
Record L1Validator := mkL1 {
  ValidationID : ID;
  L_SubnetID : ID;
  L_NodeID : ID;
  L_PublicKey : list Z;
  RemainingBalanceOwner : list Z;
  DeactivationOwner : list Z;
  L_StartTime : Z;
  L_Weight : Z;
  MinNonce : Z;
  EndAccumulatedFee : Z;
}.
#[export] Instance L1Validator_eq_dec : EqDecision L1Validator.
Proof. solve_decision. Defined.

Definition L1_Compare (v o : L1Validator) : Z :=
  if EndAccumulatedFee v <? EndAccumulatedFee o then -1
  else if EndAccumulatedFee o <? EndAccumulatedFee v then 1
  else ID_Compare (ValidationID v) (ValidationID o).
Definition L1_Less (v o : L1Validator) : bool := L1_Compare v o =? -1.

Definition immutableFieldsAreUnmodified (v o : L1Validator) : bool :=
  if negb (bool_decide (ValidationID v = ValidationID o)) then true
  else
    bool_decide (L_SubnetID v = L_SubnetID o) && bool_decide (L_NodeID v = L_NodeID o) &&
    bool_decide (L_PublicKey v = L_PublicKey o) && bool_decide (RemainingBalanceOwner v = RemainingBalanceOwner o) &&
    bool_decide (DeactivationOwner v = DeactivationOwner o) && bool_decide (L_StartTime v = L_StartTime o).
Definition isDeleted (v : L1Validator) : bool := L_Weight v =? 0.
Definition IsActive (v : L1Validator) : bool := negb (L_Weight v =? 0) && negb (EndAccumulatedFee v =? 0).

Definition ids_Empty : ID := replicate IDLen 0.
Definition EmptyNodeID : ID := replicate NodeIDLen 0.
Definition effectiveValidationID (v : L1Validator) : ID := if IsActive v then ValidationID v else ids_Empty.
Definition effectiveNodeID (v : L1Validator) : ID := if IsActive v then L_NodeID v else EmptyNodeID.
Definition effectivePublicKeyBytes (v : L1Validator) : option (list Z) := if IsActive v then Some (L_PublicKey v) else None.

(** [subnetIDNodeID] *)
Abbreviation subnetIDNodeID := (ID * ID)%type.
Definition SN_Marshal (s : subnetIDNodeID) : list Z := s.1 ++ s.2.
Definition SN_Unmarshal (data : list Z) : option subnetIDNodeID :=
  if negb (length data =? IDLen + NodeIDLen)%nat then None else Some (take IDLen data, drop IDLen data).

Section l1.
Context `{BTree L1Validator}.

(** ** The changes of a diff *)
Record l1ValidatorsDiff := mkL1Diff {
  netAddedActive : Z;
  modifiedTotalWeight : gmap ID Z;
  modified : gmap ID L1Validator;
  modifiedHasNodeIDs : gmap subnetIDNodeID bool;
  active : BTreeG L1Validator;
}.
Definition newL1ValidatorsDiff : l1ValidatorsDiff := mkL1Diff 0 ∅ ∅ ∅ NewG.

Definition getActiveL1ValidatorsIterator (parentIterator : Iterator L1Validator) (d : l1ValidatorsDiff) : Iterator L1Validator :=
  Merge L1_Less
    [Filter parentIterator (fun v => bool_decide (is_Some (modified d !! ValidationID v))); FromTree (Some (active d))].
Definition hasL1Validator (subnetID nodeID : ID) (d : l1ValidatorsDiff) : option bool := modifiedHasNodeIDs d !! (subnetID, nodeID).

(** What [putL1Validator] asks the chain, which is the diff over its parent. *)
Context {PK : Type}.
Record Queries := mkQueries {
  q_GetL1Validator : ID -> result StateErr L1Validator;
  q_GetCurrentValidator : ID -> ID -> result StateErr (Staker PK);
  q_HasL1Validator : ID -> ID -> result StateErr bool;
  q_WeightOfL1Validators : ID -> result StateErr Z;
}.

(** The weight and the activity of the validator that is replaced. *)
Definition prior (state : Queries) (v : L1Validator) : result StateErr (Z * bool) :=
  match q_GetL1Validator state (ValidationID v) with
  | Ok priorL1Validator =>
      if negb (immutableFieldsAreUnmodified priorL1Validator v) then Err ErrMutatedL1Validator
      else Ok (L_Weight priorL1Validator, IsActive priorL1Validator)
  | Err ErrNotFound =>
      match q_GetCurrentValidator state (L_SubnetID v) (L_NodeID v) with
      | Ok _ => Err ErrConflictingL1Validator
      | Err ErrNotFound =>
          has ← q_HasL1Validator state (L_SubnetID v) (L_NodeID v);
          if has : bool then Err ErrDuplicateL1Validator else Ok (0, false)
      | Err e => Err e
      end
  | Err e => Err e
  end.

Definition putL1Validator (state : Queries) (v : L1Validator) (d : l1ValidatorsDiff) : result StateErr l1ValidatorsDiff :=
  p ← prior state v;
  let '(prevWeight, prevActive) := p : Z * bool in
  let newActive := IsActive v in
  totals ←
    (if prevWeight =? L_Weight v then Ok (modifiedTotalWeight d)
     else
       weight ← q_WeightOfL1Validators state (L_SubnetID v);
       weight ← of_math (SafeMath.Sub 64 weight prevWeight);
       weight ← of_math (SafeMath.Add 64 weight (L_Weight v));
       Ok (<[L_SubnetID v := weight]> (modifiedTotalWeight d)));
  let net :=
    if prevActive && negb newActive then netAddedActive d - 1
    else if negb prevActive && newActive then netAddedActive d + 1 else netAddedActive d in
  let tree := match modified d !! ValidationID v with Some prevL1Validator => DeleteItem L1_Less prevL1Validator (active d) | None => active d end in
  Ok (mkL1Diff net totals (<[ValidationID v := v]> (modified d))
        (<[(L_SubnetID v, L_NodeID v) := negb (isDeleted v)]> (modifiedHasNodeIDs d))
        (if IsActive v then ReplaceOrInsert L1_Less v tree else tree)).

(** ** The active validators of the state *)
Record activeL1Validators := mkActive { a_lookup : gmap ID L1Validator; a_tree : BTreeG L1Validator }.
Definition newActiveL1Validators : activeL1Validators := mkActive ∅ NewG.
Definition a_get (validationID : ID) (a : activeL1Validators) : option L1Validator := a_lookup a !! validationID.
Definition a_put (v : L1Validator) (a : activeL1Validators) : activeL1Validators :=
  mkActive (<[ValidationID v := v]> (a_lookup a)) (ReplaceOrInsert L1_Less v (a_tree a)).
Definition a_delete (validationID : ID) (a : activeL1Validators) : activeL1Validators * bool :=
  match a_lookup a !! validationID with
  | None => (a, false)
  | Some v => (mkActive (delete validationID (a_lookup a)) (DeleteItem L1_Less v (a_tree a)), true)
  end.
Definition a_len (a : activeL1Validators) : Z := Z.of_nat (base.size (a_lookup a)).
Definition a_newIterator (a : activeL1Validators) : Iterator L1Validator := FromTree (Some (a_tree a)).
End l1.
End L1Validators.

(** ** L1 validators and expiry entries as sets
    The set of L1 validators is a map by validation ID; the weight of a subnet, the
    occupied nodes, the number and the order of the active ones are functions of it.
    [l1ValidatorsDiff] implements the changes of a set, [expiryDiff] those of a set
    of entries. *)
Module L1Facts.
Import Sorting BTree Iterators KeyedTrees Stakers StakersFacts L1Validators.

(** An order by a number and then by bytes. *)
Lemma pair_order {A} (f : A -> Z) (g : A -> list Z) (less : A -> A -> bool) :
  (forall x y, less x y = true <-> f x < f y \/ f x = f y /\ bytes_Compare (g x) (g y) < 0) ->
  (forall x y z, less x y = true -> less y z = true -> less x z = true) /\ (forall x, less x x = false) /\
  (forall x y z, less x z = true -> less x y = true \/ less y z = true) /\
  (forall x y, (f x, g x) <> (f y, g y) -> less x y = true \/ less y x = true).
Proof.
  intros Hl. assert (forall a b, bytes_Compare a b < 0 \/ a = b \/ bytes_Compare b a < 0) as Ht by exact Database.blt_trichotomy.
  split_and!.
  - intros x y z. rewrite !Hl. pose proof (bytes_Compare_trans (g x) (g y) (g z)). intuition lia.
  - intros x. apply not_true_is_false. rewrite Hl. pose proof (proj2 (bytes_Compare_eq (g x) (g x)) eq_refl). lia.
  - intros x y z. rewrite !Hl. pose proof (bytes_Compare_trans (g y) (g x) (g z)).
    destruct (Ht (g x) (g y)) as [Hlt|[Heq|Hgt]]; [intuition lia|rewrite Heq in *; intuition lia|intuition lia].
  - intros x y Hne. rewrite !Hl. destruct (Ht (g x) (g y)) as [Hlt|[Heq|Hgt]]; [intuition lia| |intuition lia].
    assert (f x <> f y) by congruence. lia.
Qed.

(** ** Expiry entries *)
Section expiry.
Context `{BTreeLaws ExpiryEntry}.

Lemma Expiry_Less_spec x y : Expiry_Less x y = true <->
  Timestamp x < Timestamp y \/ Timestamp x = Timestamp y /\ bytes_Compare (E_ValidationID x) (E_ValidationID y) < 0.
Proof.
  unfold Expiry_Less, Expiry_Compare. rewrite <- Compare_lt.
  destruct (Z.ltb_spec (Timestamp x) (Timestamp y)), (Z.ltb_spec (Timestamp y) (Timestamp x)); split; intros; try done; try lia; intuition lia.
Qed.
#[export] Instance Expiry_keyed : KeyedOrder Expiry_Less (fun e => e).
Proof.
  destruct (pair_order Timestamp E_ValidationID Expiry_Less Expiry_Less_spec) as (Htr & Hir & Hco & Hto).
  split; [done..|]. intros [t v] [t' v'] Hne. apply Hto. cbn. congruence.
Qed.

(** [e] has turned the set [P0] into [P]. *)
Record expiry_inv (P0 P : ExpiryEntry -> Prop) (e : expiryDiff) : Prop := {
  ei_modified x b : e_modified e !! x = Some b -> (P x <-> b = true);
  ei_same x : e_modified e !! x = None -> (P x <-> P0 x);
  ei_added : holds_items Expiry_Less (e_added e) (fun x => e_modified e !! x = Some true);
}.

Lemma expiry_new P0 : expiry_inv P0 P0 newExpiryDiff.
Proof.
  split; [intros x b; cbn; by rewrite lookup_empty|done|]. eapply holds_ext; [apply (holds_new Expiry_Less)|].
  intros x. cbn. by rewrite lookup_empty.
Qed.
Lemma same_entry P x : same_key (fun e : ExpiryEntry => e) P x.
Proof. by intros y _ ->. Qed.
Lemma expiry_put P0 P e x : expiry_inv P0 P e -> expiry_inv P0 (fun y => P y \/ y = x) (e_PutExpiry x e).
Proof.
  intros [Hm Hs Ha]. split.
  - intros y b. cbn. rewrite lookup_insert_Some. intros [[<- <-]|[Hne Hy]]; [naive_solver|]. rewrite <- (Hm _ _ Hy). naive_solver.
  - intros y. cbn. rewrite lookup_insert_None. intros [Hy Hne]. rewrite <- (Hs _ Hy). naive_solver.
  - cbn. eapply holds_ext; [apply (holds_insert Expiry_Less (fun e => e)); [exact Ha|apply same_entry]|].
    intros y. cbn. rewrite lookup_insert_Some. destruct (decide (x = y)) as [->|]; naive_solver.
Qed.
Lemma expiry_delete P0 P e x : expiry_inv P0 P e -> expiry_inv P0 (fun y => P y /\ y <> x) (e_DeleteExpiry x e).
Proof.
  intros [Hm Hs Ha]. split.
  - intros y b. cbn. rewrite lookup_insert_Some. intros [[<- <-]|[Hne Hy]]; [naive_solver|]. rewrite <- (Hm _ _ Hy). naive_solver.
  - intros y. cbn. rewrite lookup_insert_None. intros [Hy Hne]. rewrite <- (Hs _ Hy). naive_solver.
  - cbn. eapply holds_ext; [apply (holds_delete Expiry_Less (fun e => e)); [exact Ha|apply same_entry]|].
    intros y. cbn. rewrite lookup_insert_Some. destruct (decide (x = y)) as [->|]; naive_solver.
Qed.
Lemma expiry_iterator P0 P e it : expiry_inv P0 P e -> lists Expiry_Less it P0 -> lists Expiry_Less (getExpiryIterator it e) P.
Proof.
  intros [Hm Hs Ha] Hit. eapply lists_ext.
  - apply (lists_Merge Expiry_Less (fun e => e)); [by apply lists_filter|by apply lists_tree|].
    intros x y [_ Hx] Hy ->. cbn in Hx. apply bool_decide_eq_false in Hx. rewrite Hy in Hx. by destruct Hx.
  - intros x. cbn. rewrite bool_decide_eq_false, <- eq_None_not_Some. destruct (e_modified e !! x) as [b|] eqn:Hx.
    + rewrite (Hm _ _ Hx). naive_solver.
    + rewrite (Hs _ Hx). naive_solver.
Qed.
End expiry.

(** ** Sets of L1 validators *)
Definition weight_in (s : ID) (v : L1Validator) : option Z := if bool_decide (L_SubnetID v = s) then Some (L_Weight v) else None.
Definition total (L : gmap ID L1Validator) (s : ID) : Z := msum (omap (weight_in s) L).
Definition one_active (v : L1Validator) : option Z := if IsActive v then Some 1 else None.
Definition num_active (L : gmap ID L1Validator) : Z := msum (omap one_active L).
Definition on_node (s n : ID) (v : L1Validator) : Prop := L_SubnetID v = s /\ L_NodeID v = n.
Definition has_node (L : gmap ID L1Validator) (s n : ID) : bool := bool_decide (map_Exists (fun _ v => on_node s n v) L).

Record wf_l1 (L : gmap ID L1Validator) : Prop := {
  wl_value id v : L !! id = Some v -> ValidationID v = id /\ is_u64 (L_Weight v) /\ L_Weight v <> 0;
  wl_node id id' v v' : L !! id = Some v -> L !! id' = Some v' -> on_node (L_SubnetID v) (L_NodeID v) v' -> id = id';
  wl_total s : total L s <= MaxUint64;
}.

(** A validator of weight 0 is removed. *)
Definition upd (L : gmap ID L1Validator) (v : L1Validator) : gmap ID L1Validator :=
  if isDeleted v then delete (ValidationID v) L else <[ValidationID v := v]> L.

(** What [PutL1Validator] promises, over the current validators [V]: the weight that
    is replaced, and the new set. *)
Definition prior_weight {PK : Type} (L : gmap ID L1Validator) (V : ID -> ID -> option (Staker PK)) (v : L1Validator) : result StateErr Z :=
  match L !! ValidationID v with
  | Some p => if immutableFieldsAreUnmodified p v then Ok (L_Weight p) else Err ErrMutatedL1Validator
  | None =>
      match V (L_SubnetID v) (L_NodeID v) with
      | Some _ => Err ErrConflictingL1Validator
      | None => if has_node L (L_SubnetID v) (L_NodeID v) then Err ErrDuplicateL1Validator else Ok 0
      end
  end.
Definition l1_put {PK : Type} (L : gmap ID L1Validator) (V : ID -> ID -> option (Staker PK)) (v : L1Validator) : result StateErr (gmap ID L1Validator) :=
  prevWeight ← prior_weight L V v;
  if negb (prevWeight =? L_Weight v) && (MaxUint64 <? total L (L_SubnetID v) - prevWeight + L_Weight v) then Err (ErrMath SafeMath.ErrOverflow)
  else Ok (upd L v).

Lemma immutable_spec p v : ValidationID p = ValidationID v -> immutableFieldsAreUnmodified p v = true <->
  L_SubnetID p = L_SubnetID v /\ L_NodeID p = L_NodeID v /\ L_PublicKey p = L_PublicKey v /\
  RemainingBalanceOwner p = RemainingBalanceOwner v /\ DeactivationOwner p = DeactivationOwner v /\ L_StartTime p = L_StartTime v.
Proof.
  intros Hid. unfold immutableFieldsAreUnmodified. rewrite (bool_decide_true _ Hid). cbn [negb]. rewrite !andb_true_iff, !bool_decide_eq_true. tauto.
Qed.
Lemma immutable_trans p v w : ValidationID p = ValidationID v -> ValidationID v = ValidationID w ->
  immutableFieldsAreUnmodified p v = true -> immutableFieldsAreUnmodified v w = true -> immutableFieldsAreUnmodified p w = true.
Proof. intros Hp Hv. rewrite !immutable_spec by congruence. intuition congruence. Qed.

Lemma lookup_upd L v id : upd L v !! id = if bool_decide (id = ValidationID v) then (if isDeleted v then None else Some v) else L !! id.
Proof.
  unfold upd. destruct (isDeleted v); case_bool_decide as Hid; subst; rewrite ?lookup_delete_eq, ?lookup_insert_eq; try done;
    [by rewrite lookup_delete_ne|by rewrite lookup_insert_ne].
Qed.
(** Sums over a set of validators in which one changes. *)
Lemma msum_upd (f : L1Validator -> option Z) L v : (isDeleted v = true -> default 0 (f v) = 0) ->
  msum (omap f (upd L v)) = msum (omap f L) - default 0 (L !! ValidationID v ≫= f) + default 0 (f v).
Proof.
  intros Hf. assert (msum (delete (ValidationID v) (omap f L)) = msum (omap f L) - default 0 (L !! ValidationID v ≫= f)) as Hdel
    by (rewrite msum_delete_default, lookup_omap; done).
  unfold upd. destruct (isDeleted v).
  - rewrite <- omap_delete in Hdel. rewrite Hdel, Hf by done. lia.
  - rewrite <- insert_delete_eq. destruct (f v) as [c|] eqn:Hv.
    + rewrite (omap_insert_Some f _ _ v c Hv), msum_insert_None by (by rewrite lookup_omap, lookup_delete_eq). rewrite omap_delete, Hdel. cbn. lia.
    + rewrite (omap_insert_None f _ _ v Hv), omap_delete. rewrite delete_delete_eq, Hdel. cbn. lia.
Qed.
Lemma total_upd L v s : total (upd L v) s = total L s - default 0 (L !! ValidationID v ≫= weight_in s) + (if bool_decide (L_SubnetID v = s) then L_Weight v else 0).
Proof.
  unfold total. rewrite msum_upd.
  - unfold weight_in at 3. by case_bool_decide.
  - unfold isDeleted, weight_in. intros Hw%Z.eqb_eq. by case_bool_decide.
Qed.
Definition active_Z (v : L1Validator) : Z := if IsActive v then 1 else 0.
Lemma num_upd L v : num_active (upd L v) = num_active L - default 0 (active_Z <$> L !! ValidationID v) + active_Z v.
Proof.
  unfold num_active. rewrite msum_upd.
  - unfold active_Z, one_active. destruct (L !! ValidationID v) as [p|]; cbn; [by destruct (IsActive p), (IsActive v)|by destruct (IsActive v)].
  - unfold isDeleted, one_active, IsActive. intros ->. done.
Qed.
Lemma l1_total_nonneg L s : wf_l1 L -> 0 <= total L s.
Proof.
  intros Hw. apply msum_nonneg. intros id c. rewrite lookup_omap. destruct (L !! id) as [v|] eqn:Hv; [|done]. cbn. unfold weight_in.
  case_bool_decide; [|done]. intros [= <-]. destruct (wl_value _ Hw id v Hv) as (_ & [? ?] & _). done.
Qed.
Lemma total_ge L id v : wf_l1 L -> L !! id = Some v -> L_Weight v <= total L (L_SubnetID v).
Proof.
  intros Hw Hv. unfold total. apply (msum_lookup_le _ id).
  - intros id' c. rewrite lookup_omap. destruct (L !! id') as [v'|] eqn:Hv'; [|done]. cbn. unfold weight_in.
    case_bool_decide; [|done]. intros [= <-]. destruct (wl_value _ Hw id' v' Hv') as (_ & [? ?] & _). done.
  - rewrite lookup_omap, Hv. cbn. unfold weight_in. by rewrite bool_decide_true.
Qed.
Lemma has_node_true L s n : has_node L s n = true <-> exists id v, L !! id = Some v /\ on_node s n v.
Proof. unfold has_node. rewrite bool_decide_eq_true. apply map_Exists_lookup. Qed.
Lemma has_node_ext L L' s n : (forall id v, on_node s n v -> L !! id = Some v <-> L' !! id = Some v) -> has_node L s n = has_node L' s n.
Proof. intros HL. apply eq_true_iff_eq. rewrite !has_node_true. split; intros (id & v & Hv & Hn); exists id, v; (split; [by apply HL|done]). Qed.

(** ** One change of a set *)
Section put.
Context {PK : Type}.
Variables (L : gmap ID L1Validator) (V : ID -> ID -> option (Staker PK)) (v : L1Validator) (L' : gmap ID L1Validator).
Hypotheses (Hw : wf_l1 L) (Hv : is_u64 (L_Weight v)) (Hput : l1_put L V v = Ok L').

Lemma l1_put_upd : L' = upd L v.
Proof.
  revert Hput. unfold l1_put. destruct (prior_weight L V v); [|done]. cbn.
  destruct (_ && _); [done|]. by intros [= <-].
Qed.
(** The validator that is replaced has the same node; a new one has a node of its own. *)
Lemma l1_put_prior : match L !! ValidationID v with
  | Some p => immutableFieldsAreUnmodified p v = true /\ ValidationID p = ValidationID v /\ on_node (L_SubnetID v) (L_NodeID v) p
  | None => V (L_SubnetID v) (L_NodeID v) = None /\ has_node L (L_SubnetID v) (L_NodeID v) = false
  end.
Proof.
  revert Hput. unfold l1_put, prior_weight. destruct (L !! ValidationID v) as [p|] eqn:Hp.
  - destruct (immutableFieldsAreUnmodified p v) eqn:Hi; [|done]. intros _. destruct (wl_value _ Hw _ _ Hp) as (Hid & _).
    apply immutable_spec in Hi as Hf; [|done]. split; [done|]. split; [done|]. unfold on_node. intuition congruence.
  - destruct (V _ _); [done|]. by destruct (has_node _ _ _).
Qed.
Lemma l1_put_total : total L' (L_SubnetID v) <= MaxUint64.
Proof.
  rewrite l1_put_upd, total_upd, bool_decide_true by done. pose proof l1_put_prior as Hpr. pose proof (wl_total _ Hw (L_SubnetID v)) as Ht.
  revert Hput. unfold l1_put, prior_weight. generalize dependent (total L (L_SubnetID v)). intros T Ht. destruct (L !! ValidationID v) as [p|] eqn:Hp; cbn -[Z.sub Z.add Z.eqb Z.ltb MaxUint64].
  - destruct Hpr as (-> & _ & [Hs _]). cbn -[Z.sub Z.add Z.eqb Z.ltb MaxUint64]. unfold weight_in. rewrite bool_decide_true by done. cbn -[Z.sub Z.add Z.eqb Z.ltb MaxUint64].
    destruct (Z.eqb_spec (L_Weight p) (L_Weight v)), (Z.ltb_spec MaxUint64 (T - L_Weight p + L_Weight v)); cbn -[Z.sub Z.add Z.eqb Z.ltb MaxUint64]; intros Hok; try done; lia.
  - destruct Hpr as [-> ->]. cbn -[Z.sub Z.add Z.eqb Z.ltb MaxUint64]. destruct (Z.eqb_spec 0 (L_Weight v)), (Z.ltb_spec MaxUint64 (T - 0 + L_Weight v)); cbn -[Z.sub Z.add Z.eqb Z.ltb MaxUint64]; intros Hok; try done; lia.
Qed.
Lemma l1_put_other_total s : s <> L_SubnetID v -> total L' s = total L s.
Proof.
  intros Hs. rewrite l1_put_upd, total_upd, bool_decide_false by done. pose proof l1_put_prior as Hpr.
  destruct (L !! ValidationID v) as [p|]; cbn; [|lia]. destruct Hpr as (_ & _ & [Hps _]). unfold weight_in. rewrite bool_decide_false by congruence. cbn. lia.
Qed.
Lemma l1_put_has s n : has_node L' s n = if bool_decide (on_node s n v) then negb (isDeleted v) else has_node L s n.
Proof.
  rewrite l1_put_upd. pose proof l1_put_prior as Hpr. case_bool_decide as Hn.
  - apply eq_true_iff_eq. rewrite has_node_true, negb_true_iff. split.
    + intros (id & w & Hid & Hon). rewrite lookup_upd in Hid. case_bool_decide as Hc; [by destruct (isDeleted v)|]. exfalso.
      destruct (L !! ValidationID v) as [p|] eqn:Hp.
      * destruct Hpr as (_ & Hpid & [Hps Hpn]). apply Hc. apply (wl_node _ Hw id (ValidationID v) w p Hid Hp). destruct Hn, Hon. split; congruence.
      * destruct Hpr as [_ Hno]. apply not_true_iff_false in Hno. apply Hno. apply has_node_true. exists id, w. split; [done|]. destruct Hn, Hon. split; congruence.
    + intros Hd. exists (ValidationID v), v. by rewrite lookup_upd, bool_decide_true, Hd by done.
  - apply has_node_ext. intros id w Hon. rewrite lookup_upd. case_bool_decide as Hc; [|done]. subst id. split.
    + destruct (isDeleted v); [done|]. by intros [= ->].
    + intros Hp. rewrite Hp in Hpr. destruct Hpr as (_ & _ & [Hps Hpn]). destruct Hn, Hon. split; congruence.
Qed.
Lemma l1_put_wf : wf_l1 L'.
Proof.
  pose proof l1_put_upd as Heq. pose proof l1_put_prior as Hpr. split.
  - intros id w. rewrite Heq, lookup_upd. case_bool_decide as Hc; [|apply Hw]. subst id. unfold isDeleted. destruct (Z.eqb_spec (L_Weight v) 0); [done|].
    by intros [= <-].
  - assert (forall id w, id <> ValidationID v -> L !! id = Some w -> on_node (L_SubnetID v) (L_NodeID v) w -> False) as Hno.
    { intros id w Hne Hid Hon. destruct (L !! ValidationID v) as [p|] eqn:Hp.
      - destruct Hpr as (_ & _ & [Hps Hpn]). apply Hne. apply (wl_node _ Hw id (ValidationID v) w p Hid Hp). destruct Hon. split; congruence.
      - destruct Hpr as [_ Hnot]. apply not_true_iff_false in Hnot. apply Hnot. apply has_node_true. by exists id, w. }
    intros id id' w w'. rewrite Heq, !lookup_upd. do 2 case_bool_decide; subst; [done|..].
    + destruct (isDeleted v); [done|]. intros [= ->] Hid' Hon. by destruct (Hno id' w').
    + destruct (isDeleted v); [done|]. intros Hid [= ->] [Hs Hn]. destruct (Hno id w); [done|done|]. by split.
    + apply Hw.
  - intros s. destruct (decide (s = L_SubnetID v)) as [->|Hs]; [apply l1_put_total|]. rewrite l1_put_other_total by done. apply Hw.
Qed.
End put.

(** ** The changes of a diff *)
Definition db_fault (e : StateErr) : Prop := exists code, e = ErrFault code.
Definition replies {A} (r r' : result StateErr A) : Prop := r = r' \/ exists e, r = Err e /\ db_fault e.
Definition found {A} (o : option A) : result StateErr A := match o with Some a => Ok a | None => Err ErrNotFound end.

Section diff.
Context `{BTreeLaws L1Validator} {PK : Type}.

Lemma L1_Less_spec x y : L1_Less x y = true <->
  EndAccumulatedFee x < EndAccumulatedFee y \/ EndAccumulatedFee x = EndAccumulatedFee y /\ bytes_Compare (ValidationID x) (ValidationID y) < 0.
Proof.
  unfold L1_Less, L1_Compare. rewrite <- Compare_lt.
  destruct (Z.ltb_spec (EndAccumulatedFee x) (EndAccumulatedFee y)), (Z.ltb_spec (EndAccumulatedFee y) (EndAccumulatedFee x));
    split; intros; try done; try lia; intuition lia.
Qed.
#[export] Instance L1_keyed : KeyedOrder L1_Less ValidationID.
Proof.
  destruct (pair_order EndAccumulatedFee ValidationID L1_Less L1_Less_spec) as (Htr & Hir & Hco & Hto).
  split; [done..|]. intros x y Hne. apply Hto. congruence.
Qed.

Definition is_active (L : gmap ID L1Validator) (v : L1Validator) : Prop := L !! ValidationID v = Some v /\ IsActive v = true.

(** [d] has turned the set [L0] into [L]. *)
Record l1_inv (L0 L : gmap ID L1Validator) (d : l1ValidatorsDiff) : Prop := {
  li_wf0 : wf_l1 L0;
  li_wf : wf_l1 L;
  li_modified id v : modified d !! id = Some v -> ValidationID v = id /\ is_u64 (L_Weight v) /\ L !! id = (if isDeleted v then None else Some v);
  li_same id : modified d !! id = None -> L !! id = L0 !! id;
  li_immutable id v v0 : modified d !! id = Some v -> L0 !! id = Some v0 -> immutableFieldsAreUnmodified v0 v = true;
  li_total s : total L s = default (total L0 s) (modifiedTotalWeight d !! s);
  li_has s n : has_node L s n = default (has_node L0 s n) (hasL1Validator s n d);
  li_net : netAddedActive d = num_active L - num_active L0;
  li_active : holds_items L1_Less (active d) (fun v => modified d !! ValidationID v = Some v /\ IsActive v = true);
}.

Lemma l1_inv_new L0 : wf_l1 L0 -> l1_inv L0 L0 newL1ValidatorsDiff.
Proof.
  intros Hw. split; try done; cbn; intros; try (rewrite lookup_empty in *; done); try lia.
  eapply holds_ext; [apply (holds_new L1_Less)|]. intros v. by rewrite lookup_empty; split; [|intros []].
Qed.

Lemma active_not_deleted v : IsActive v = true -> isDeleted v = false.
Proof. unfold IsActive, isDeleted. by destruct (L_Weight v =? 0). Qed.

Lemma l1_iterator L0 L d it : l1_inv L0 L d -> lists L1_Less it (is_active L0) -> lists L1_Less (getActiveL1ValidatorsIterator it d) (is_active L).
Proof.
  intros Hi Hit. eapply lists_ext.
  - apply (lists_Merge L1_Less ValidationID); [by apply lists_filter|exact (lists_tree L1_Less _ _ (li_active _ _ _ Hi))|].
    intros x y [_ Hx] [Hy _] Heq. cbn in Hx. apply bool_decide_eq_false in Hx. rewrite Heq, Hy in Hx. by destruct Hx.
  - intros x. cbn. rewrite bool_decide_eq_false, <- eq_None_not_Some. unfold is_active. destruct (modified d !! ValidationID x) as [v|] eqn:Hx.
    + destruct (li_modified _ _ _ Hi _ _ Hx) as (_ & _ & HL). rewrite HL. split.
      * intros [[_ ?]|[[= ->] Ha]]; [done|]. by rewrite (active_not_deleted _ Ha).
      * intros [Heq Ha]. right. destruct (isDeleted v); [done|]. by injection Heq as ->.
    + rewrite (li_same _ _ _ Hi _ Hx). naive_solver.
Qed.

Definition queries_ok (q : Queries (PK := PK)) (L : gmap ID L1Validator) (V : ID -> ID -> option (Staker PK)) : Prop :=
  (forall id, replies (q_GetL1Validator q id) (found (L !! id))) /\
  (forall s n, replies (q_GetCurrentValidator q s n) (found (V s n))) /\
  (forall s n, replies (q_HasL1Validator q s n) (Ok (has_node L s n))) /\
  (forall s, replies (q_WeightOfL1Validators q s) (Ok (total L s))).

Lemma replies_cases {A} (r r' : result StateErr A) : replies r r' -> (exists e, r = Err e /\ db_fault e) \/ r = r'.
Proof. intros [Hr|Hr]; tauto. Qed.

Lemma prior_spec q L V v : queries_ok q L V -> match prior q v with
  | Ok p => prior_weight L V v = Ok p.1 /\ p.2 = default false (IsActive <$> L !! ValidationID v)
  | Err e => db_fault e \/ prior_weight L V v = Err e
  end.
Proof.
  intros (Hg & Hc & Hh & _). unfold prior, prior_weight.
  destruct (replies_cases _ _ (Hg (ValidationID v))) as [(e & -> & code & ->)| ->]; [left; by exists code|].
  destruct (L !! ValidationID v) as [p|]; cbn; [destruct (immutableFieldsAreUnmodified p v); cbn; tauto|].
  destruct (replies_cases _ _ (Hc (L_SubnetID v) (L_NodeID v))) as [(e & -> & code & ->)| ->]; [left; by exists code|].
  destruct (V _ _) as [c|]; cbn; [tauto|].
  destruct (replies_cases _ _ (Hh (L_SubnetID v) (L_NodeID v))) as [(e & -> & code & ->)| ->]; [left; by exists code|].
  cbn. destruct (has_node _ _ _); cbn; tauto.
Qed.

Lemma prior_weight_value L (V : ID -> ID -> option (Staker PK)) v w : wf_l1 L -> prior_weight L V v = Ok w -> 0 <= w <= total L (L_SubnetID v) /\
  forall s, total (upd L v) s = if bool_decide (L_SubnetID v = s) then total L s - w + L_Weight v else total L s.
Proof.
  intros Hw. unfold prior_weight. destruct (L !! ValidationID v) as [p|] eqn:Hp.
  - destruct (immutableFieldsAreUnmodified p v) eqn:Him; [|done]. intros [= <-].
    destruct (wl_value _ Hw _ _ Hp) as (Hid & Hpw & _). apply immutable_spec in Him as (Hs & _); [|done].
    pose proof (total_ge L _ p Hw Hp). destruct Hpw. rewrite Hs in *. split; [lia|]. intros s. rewrite total_upd, Hp. cbn. unfold weight_in. rewrite Hs.
    case_bool_decide; cbn; lia.
  - destruct (V _ _); [done|]. destruct (has_node _ _ _); [done|]. intros [= <-]. pose proof (l1_total_nonneg L (L_SubnetID v) Hw). split; [lia|].
    intros s. rewrite total_upd, Hp. cbn. case_bool_decide; lia.
Qed.

(** ** The diff after a change *)
Section put.
Variables (L0 L L' : gmap ID L1Validator) (V : ID -> ID -> option (Staker PK)) (d : l1ValidatorsDiff) (v : L1Validator).
Hypotheses (Hi : l1_inv L0 L d) (Hv : is_u64 (L_Weight v)) (Hput : l1_put L V v = Ok L').
Hypothesis (Hnew : L !! ValidationID v = None -> L0 !! ValidationID v = None).

Lemma put_immutable id v' v0 : <[ValidationID v := v]> (modified d) !! id = Some v' -> L0 !! id = Some v0 -> immutableFieldsAreUnmodified v0 v' = true.
Proof.
  rewrite lookup_insert_Some. intros [[<- <-]|[_ Hm]] Hv0; [|by apply (li_immutable _ _ _ Hi id)].
  pose proof (l1_put_prior L V v L' (li_wf _ _ _ Hi) Hput) as Hpr.
  destruct (L !! ValidationID v) as [p|] eqn:Hp; [|by rewrite (Hnew eq_refl) in Hv0]. destruct Hpr as (Him & Hpid & _).
  destruct (modified d !! ValidationID v) as [w|] eqn:Hm.
  - destruct (li_modified _ _ _ Hi _ _ Hm) as (Hwid & _ & HL). rewrite Hp in HL. destruct (isDeleted w); [done|]. injection HL as ->.
    apply (immutable_trans v0 w v); [|done|by apply (li_immutable _ _ _ Hi (ValidationID v))|done].
    destruct (wl_value _ (li_wf0 _ _ _ Hi) _ _ Hv0) as (-> & _). done.
  - pose proof (li_same _ _ _ Hi _ Hm) as Hs. rewrite Hp, Hv0 in Hs. by injection Hs as ->.
Qed.
Lemma put_active : holds_items L1_Less
  (let tree := match modified d !! ValidationID v with Some p => DeleteItem L1_Less p (active d) | None => active d end in
   if IsActive v then ReplaceOrInsert L1_Less v tree else tree)
  (fun w => <[ValidationID v := v]> (modified d) !! ValidationID w = Some w /\ IsActive w = true).
Proof.
  pose proof (li_active _ _ _ Hi) as Ha.
  assert (holds_items L1_Less (match modified d !! ValidationID v with Some p => DeleteItem L1_Less p (active d) | None => active d end)
    (fun w => (modified d !! ValidationID w = Some w /\ IsActive w = true) /\ ValidationID w <> ValidationID v)) as Ht.
  { destruct (modified d !! ValidationID v) as [p|] eqn:Hp.
    - destruct (li_modified _ _ _ Hi _ _ Hp) as (Hid & _). eapply holds_ext; [apply (holds_delete L1_Less ValidationID); [exact Ha|]|].
      + intros w [Hw _] Heq. rewrite Heq, Hid, Hp in Hw. by injection Hw.
      + intros w. cbn. split; intros [[Hw Hwa] Hne]; (split; [done|]); [|congruence]. intros Heq. apply Hne. rewrite Heq, Hp in Hw. by injection Hw.
    - eapply holds_ext; [exact Ha|]. intros w. cbn. split; [|tauto]. intros [Hw Hwa]. split; [done|]. intros Heq. by rewrite Heq, Hp in Hw. }
  cbv zeta. destruct (IsActive v) eqn:Hav.
  - eapply holds_ext; [apply (holds_insert L1_Less ValidationID); [exact Ht|]|].
    + intros w [_ Hne] Heq. congruence.
    + intros w. cbn. rewrite lookup_insert_Some. split; [|naive_solver]. intros [[[Hw Hwa] Hne]| ->]; split; try done; [right|left]; split; congruence.
  - eapply holds_ext; [exact Ht|]. intros w. cbn. rewrite lookup_insert_Some. split; [naive_solver|].
    intros [[[_ ->]|[? ?]] Hwa]; [congruence|]. by repeat split.
Qed.

Lemma l1_inv_put totals net :
  (forall s, total L' s = default (total L0 s) (totals !! s)) -> net = num_active L' - num_active L0 ->
  l1_inv L0 L' (mkL1Diff net totals (<[ValidationID v := v]> (modified d))
    (<[(L_SubnetID v, L_NodeID v) := negb (isDeleted v)]> (modifiedHasNodeIDs d))
    (let tree := match modified d !! ValidationID v with Some p => DeleteItem L1_Less p (active d) | None => active d end in
     if IsActive v then ReplaceOrInsert L1_Less v tree else tree)).
Proof.
  intros Ht Hn. pose proof (li_wf _ _ _ Hi) as Hw. pose proof (l1_put_upd L V v L' Hput) as Heq. constructor; try done.
  - apply (li_wf0 _ _ _ Hi).
  - by apply (l1_put_wf L V v).
  - intros id w. cbn. rewrite lookup_insert_Some. intros [[<- <-]|[Hne Hm]]; rewrite Heq, lookup_upd; [by rewrite bool_decide_true|].
    rewrite bool_decide_false by done. by apply (li_modified _ _ _ Hi).
  - intros id. cbn. rewrite lookup_insert_None. intros [Hm Hne]. rewrite Heq, lookup_upd, bool_decide_false by done. by apply (li_same _ _ _ Hi).
  - apply put_immutable.
  - intros s n. rewrite (l1_put_has L V v L' Hw Hv Hput). unfold hasL1Validator. cbn. case_bool_decide as Hon.
    + destruct Hon as [<- <-]. by rewrite lookup_insert_eq.
    + rewrite lookup_insert_ne by (intros [= <- <-]; by apply Hon). apply (li_has _ _ _ Hi).
  - apply put_active.
Qed.
End put.

Lemma putL1_modified (q : Queries (PK := PK)) v d d' : putL1Validator q v d = Ok d' -> modified d' = <[ValidationID v := v]> (modified d).
Proof.
  unfold putL1Validator. destruct (prior q v) as [[w a]|e]; [|done]. cbn -[Z.eqb]. destruct (if w =? L_Weight v then _ else _) as [t|e]; [|done]. cbn. by intros [= <-].
Qed.

(** [putL1Validator] over the chain puts the validator into the set, or fails as the
    set does; or a query of the chain failed. *)
Lemma putL1_spec q V L0 L d v : l1_inv L0 L d -> queries_ok q L V -> is_u64 (L_Weight v) ->
  (L !! ValidationID v = None -> L0 !! ValidationID v = None) ->
  match putL1Validator q v d with
  | Ok d' => exists L', l1_put L V v = Ok L' /\ l1_inv L0 L' d'
  | Err e => db_fault e \/ l1_put L V v = Err e
  end.
Proof.
  intros Hi Hq Hv Hnew. unfold putL1Validator. pose proof (prior_spec q L V v Hq) as Hp.
  destruct (prior q v) as [[w a]|e]; cbn -[Z.eqb]; [|unfold l1_put; destruct Hp as [?| ->]; [by left|by right]].
  cbn in Hp. destruct Hp as [Hpw ->]. destruct (prior_weight_value L V v w (li_wf _ _ _ Hi) Hpw) as (Hwr & Hwt).
  set (prevA := default false (IsActive <$> L !! ValidationID v)).
  assert (forall L', L' = upd L v -> (if prevA && negb (IsActive v) then netAddedActive d - 1
    else if negb prevA && IsActive v then netAddedActive d + 1 else netAddedActive d) = num_active L' - num_active L0) as Hnet.
  { intros L' ->. rewrite num_upd, (li_net _ _ _ Hi). subst prevA. unfold active_Z.
    destruct (L !! ValidationID v) as [p|]; cbn; [destruct (IsActive p), (IsActive v)|destruct (IsActive v)]; cbn; lia. }
  assert (l1_put L V v = if negb (w =? L_Weight v) && (MaxUint64 <? total L (L_SubnetID v) - w + L_Weight v) then Err (ErrMath SafeMath.ErrOverflow) else Ok (upd L v)) as Hspec.
  { unfold l1_put. by rewrite Hpw. }
  destruct (Z.eqb_spec w (L_Weight v)) as [Heq|Hne]; cbn -[Z.ltb] in Hspec |- *.
  - exists (upd L v). split; [done|]. eapply l1_inv_put; [done..| |by apply Hnet]. intros s. rewrite Hwt. rewrite <- (li_total _ _ _ Hi s). case_bool_decide; lia.
  - destruct Hq as (_ & _ & _ & Hq). destruct (replies_cases _ _ (Hq (L_SubnetID v))) as [(e & -> & He)| ->]; [by left|]. cbn -[Z.ltb].
    pose proof (wl_total _ (li_wf _ _ _ Hi) (L_SubnetID v)). apply is_u64_max in Hv as Hv'.
    rewrite SafeMath.Sub_spec by first [lia|apply is_u64_max; lia]. rewrite (proj2 (Z.leb_le _ _)) by lia. cbn -[Z.ltb].
    rewrite SafeMath.Add_spec by first [lia|apply is_u64_max; lia]. change (2 ^ 64) with (MaxUint64 + 1).
    destruct (Z.ltb_spec MaxUint64 (total L (L_SubnetID v) - w + L_Weight v)), (Z.ltb_spec (total L (L_SubnetID v) - w + L_Weight v) (MaxUint64 + 1)); try lia; cbn; [by right|].
    exists (upd L v). split; [done|]. eapply l1_inv_put; [done..| |by apply Hnet]. intros s. rewrite Hwt, lookup_insert. case_decide; subst; cbn.
    + rewrite bool_decide_true by done. done.
    + rewrite bool_decide_false by done. rewrite <- (li_total _ _ _ Hi s). lia.
Qed.
End diff.
End L1Facts.
