(* ===== verification/Chain.v ===== *)
(** * The P-chain state as block execution sees it
    The interface [Chain] of [vms/platformvm/state/state.go] with every method, and
    what its implementations promise: [CState] is the abstract state, a query
    answers what the state holds or fails with a fault of the database, an
    operation changes its part of the state alone. *)
From S2P Require Import Prelude Monads SafeMath Sorting Gas Iterators Stakers StakersFacts L1Validators.

Module Chain.
Import Sorting Iterators KeyedTrees Stakers StakersFacts L1Validators L1Facts.

(** ** Data *)
(** What the state stores and hands back without looking into it: keys, owners, the
    other fields of a transaction, and unspent outputs, whose ID is a hash. *)
Class ChainTypes := {
  PublicKey : Type;
  Owner : Type;
  TxFields : Type;
  UTXO : Type;
  InputID : UTXO -> ID;
}.

Section types.
Context {T : ChainTypes}.
Inductive UnsignedTx :=
  | TransformSubnetTx (Subnet : ID) (fields : TxFields)
  | CreateChainTx (SubnetID : ID) (fields : TxFields)
  | CreateSubnetTx (owner : Owner) (fields : TxFields)
  | OtherTx (fields : TxFields).
Record Tx := mkTx { Tx_ID : ID; Unsigned : UnsignedTx }.
Record SubnetToL1Conversion := mkConversion { ConversionID : ID; ChainID : ID; Addr : list Z }.
End types.
Abbreviation Status := Z (only parsing).

(** The current and the pending stakers have the same methods. *)
Inductive Kind := Current | Pending.
#[export] Instance Kind_eq_dec : EqDecision Kind.
Proof. solve_decision. Defined.

Class Chain {T : ChainTypes} (C : Type) := {
  GetTimestamp : C -> Z;
  SetTimestamp : Z -> C -> C;
  GetFeeState : C -> Gas.State;
  SetFeeState : Gas.State -> C -> C;
  GetL1ValidatorExcess : C -> Z;
  SetL1ValidatorExcess : Z -> C -> C;
  GetAccruedFees : C -> Z;
  SetAccruedFees : Z -> C -> C;
  GetCurrentSupply : ID -> C -> result StateErr Z;
  SetCurrentSupply : ID -> Z -> C -> C;

  GetExpiryIterator : C -> result StateErr (Iterator ExpiryEntry);
  HasExpiry : ExpiryEntry -> C -> result StateErr bool;
  PutExpiry : ExpiryEntry -> C -> C;
  DeleteExpiry : ExpiryEntry -> C -> C;

  GetActiveL1ValidatorsIterator : C -> result StateErr (Iterator L1Validator);
  NumActiveL1Validators : C -> Z;
  WeightOfL1Validators : ID -> C -> result StateErr Z;
  GetL1Validator : ID -> C -> result StateErr L1Validator;
  HasL1Validator : ID -> ID -> C -> result StateErr bool;
  PutL1Validator : L1Validator -> M C StateErr unit;

  GetValidator : Kind -> ID -> ID -> C -> result StateErr (Staker PublicKey);
  PutValidator : Kind -> Staker PublicKey -> M C StateErr unit;
  DeleteValidator : Kind -> Staker PublicKey -> M C StateErr unit;
  GetDelegatorIterator : Kind -> ID -> ID -> C -> result StateErr (Iterator (Staker PublicKey));
  PutDelegator : Kind -> Staker PublicKey -> M C StateErr unit;
  DeleteDelegator : Kind -> Staker PublicKey -> M C StateErr unit;
  GetStakerIterator : Kind -> C -> result StateErr (Iterator (Staker PublicKey));
  SetDelegateeReward : ID -> ID -> Z -> M C StateErr unit;
  GetDelegateeReward : ID -> ID -> C -> result StateErr Z;

  AddSubnet : ID -> C -> C;
  GetSubnetOwner : ID -> C -> result StateErr Owner;
  SetSubnetOwner : ID -> Owner -> C -> C;
  GetSubnetToL1Conversion : ID -> C -> result StateErr SubnetToL1Conversion;
  SetSubnetToL1Conversion : ID -> SubnetToL1Conversion -> C -> C;
  GetSubnetTransformation : ID -> C -> result StateErr Tx;
  AddSubnetTransformation : Tx -> M C StateErr unit;
  AddChain : Tx -> M C StateErr unit;

  GetTx : ID -> C -> result StateErr (Tx * Status);
  AddTx : Tx -> Status -> C -> C;
  AddRewardUTXO : ID -> UTXO -> C -> C;
  GetUTXO : ID -> C -> result StateErr UTXO;
  AddUTXO : UTXO -> C -> C;
  DeleteUTXO : ID -> C -> C;
}.

(** [tx.Unsigned.( *txs.TransformSubnetTx)], which panics on another transaction. *)
Definition transform_subnet `{ChainTypes} (tx : Tx) : option ID :=
  match Unsigned tx with TransformSubnetTx subnet _ => Some subnet | _ => None end.
Definition create_chain_subnet `{ChainTypes} (tx : Tx) : option ID :=
  match Unsigned tx with CreateChainTx subnet _ => Some subnet | _ => None end.

(** [m[id] = append(m[id], a)] *)
Definition append_at {A} (id : ID) (a : A) (m : gmap ID (list A)) : gmap ID (list A) := <[id := default [] (m !! id) ++ [a]]> m.

(** ** The abstract state *)
Section spec.
Context {T : ChainTypes}.

(** The stakers of one kind, the transaction IDs that ever named one, and the nodes
    where the implementation refuses a new validator, as one was removed there. *)
Record SState := mkS { s_view : view (PK := PublicKey); s_used : ID -> Prop; s_refuse : ID -> ID -> Prop }.

Record CState := mkC {
  c_timestamp : Z;
  c_fee : Gas.State;
  c_excess : Z;
  c_accrued : Z;
  c_supply : gmap ID Z;
  c_expiry : gset ExpiryEntry;
  c_l1 : gmap ID L1Validator;
  c_l1_used : ID -> Prop;
  c_stakers : Kind -> SState;
  c_rewards : gmap (ID * ID) Z;
  c_subnets : list ID;
  (** The owners that were assigned; the state looks further for the others. *)
  c_owners : gmap ID Owner;
  c_conversions : gmap ID SubnetToL1Conversion;
  c_transformations : gmap ID Tx;
  c_chains : ID -> list Tx;
  c_txs : gmap ID (Tx * Status);
  c_reward_utxos : ID -> list UTXO;
  c_utxos : gmap ID UTXO;
}.
Abbreviation c_view k s := (s_view (c_stakers s k)).
Abbreviation c_used k s := (s_used (c_stakers s k)).
Abbreviation c_refuse k s := (s_refuse (c_stakers s k)).

(** Setters *)
Definition set_timestamp x (s : CState) : CState :=
  mkC x (c_fee s) (c_excess s) (c_accrued s) (c_supply s) (c_expiry s) (c_l1 s) (c_l1_used s) (c_stakers s) (c_rewards s) (c_subnets s) (c_owners s) (c_conversions s) (c_transformations s) (c_chains s) (c_txs s) (c_reward_utxos s) (c_utxos s).
Definition set_fee x (s : CState) : CState :=
  mkC (c_timestamp s) x (c_excess s) (c_accrued s) (c_supply s) (c_expiry s) (c_l1 s) (c_l1_used s) (c_stakers s) (c_rewards s) (c_subnets s) (c_owners s) (c_conversions s) (c_transformations s) (c_chains s) (c_txs s) (c_reward_utxos s) (c_utxos s).
Definition set_excess x (s : CState) : CState :=
  mkC (c_timestamp s) (c_fee s) x (c_accrued s) (c_supply s) (c_expiry s) (c_l1 s) (c_l1_used s) (c_stakers s) (c_rewards s) (c_subnets s) (c_owners s) (c_conversions s) (c_transformations s) (c_chains s) (c_txs s) (c_reward_utxos s) (c_utxos s).
Definition set_accrued x (s : CState) : CState :=
  mkC (c_timestamp s) (c_fee s) (c_excess s) x (c_supply s) (c_expiry s) (c_l1 s) (c_l1_used s) (c_stakers s) (c_rewards s) (c_subnets s) (c_owners s) (c_conversions s) (c_transformations s) (c_chains s) (c_txs s) (c_reward_utxos s) (c_utxos s).
Definition set_supply x (s : CState) : CState :=
  mkC (c_timestamp s) (c_fee s) (c_excess s) (c_accrued s) x (c_expiry s) (c_l1 s) (c_l1_used s) (c_stakers s) (c_rewards s) (c_subnets s) (c_owners s) (c_conversions s) (c_transformations s) (c_chains s) (c_txs s) (c_reward_utxos s) (c_utxos s).
Definition set_expiry x (s : CState) : CState :=
  mkC (c_timestamp s) (c_fee s) (c_excess s) (c_accrued s) (c_supply s) x (c_l1 s) (c_l1_used s) (c_stakers s) (c_rewards s) (c_subnets s) (c_owners s) (c_conversions s) (c_transformations s) (c_chains s) (c_txs s) (c_reward_utxos s) (c_utxos s).
Definition set_l1 x u (s : CState) : CState :=
  mkC (c_timestamp s) (c_fee s) (c_excess s) (c_accrued s) (c_supply s) (c_expiry s) x u (c_stakers s) (c_rewards s) (c_subnets s) (c_owners s) (c_conversions s) (c_transformations s) (c_chains s) (c_txs s) (c_reward_utxos s) (c_utxos s).
Definition set_stakers x (s : CState) : CState :=
  mkC (c_timestamp s) (c_fee s) (c_excess s) (c_accrued s) (c_supply s) (c_expiry s) (c_l1 s) (c_l1_used s) x (c_rewards s) (c_subnets s) (c_owners s) (c_conversions s) (c_transformations s) (c_chains s) (c_txs s) (c_reward_utxos s) (c_utxos s).
Definition set_rewards x (s : CState) : CState :=
  mkC (c_timestamp s) (c_fee s) (c_excess s) (c_accrued s) (c_supply s) (c_expiry s) (c_l1 s) (c_l1_used s) (c_stakers s) x (c_subnets s) (c_owners s) (c_conversions s) (c_transformations s) (c_chains s) (c_txs s) (c_reward_utxos s) (c_utxos s).
Definition set_subnets x (s : CState) : CState :=
  mkC (c_timestamp s) (c_fee s) (c_excess s) (c_accrued s) (c_supply s) (c_expiry s) (c_l1 s) (c_l1_used s) (c_stakers s) (c_rewards s) x (c_owners s) (c_conversions s) (c_transformations s) (c_chains s) (c_txs s) (c_reward_utxos s) (c_utxos s).
Definition set_owners x (s : CState) : CState :=
  mkC (c_timestamp s) (c_fee s) (c_excess s) (c_accrued s) (c_supply s) (c_expiry s) (c_l1 s) (c_l1_used s) (c_stakers s) (c_rewards s) (c_subnets s) x (c_conversions s) (c_transformations s) (c_chains s) (c_txs s) (c_reward_utxos s) (c_utxos s).
Definition set_conversions x (s : CState) : CState :=
  mkC (c_timestamp s) (c_fee s) (c_excess s) (c_accrued s) (c_supply s) (c_expiry s) (c_l1 s) (c_l1_used s) (c_stakers s) (c_rewards s) (c_subnets s) (c_owners s) x (c_transformations s) (c_chains s) (c_txs s) (c_reward_utxos s) (c_utxos s).
Definition set_transformations x (s : CState) : CState :=
  mkC (c_timestamp s) (c_fee s) (c_excess s) (c_accrued s) (c_supply s) (c_expiry s) (c_l1 s) (c_l1_used s) (c_stakers s) (c_rewards s) (c_subnets s) (c_owners s) (c_conversions s) x (c_chains s) (c_txs s) (c_reward_utxos s) (c_utxos s).
Definition set_chains x (s : CState) : CState :=
  mkC (c_timestamp s) (c_fee s) (c_excess s) (c_accrued s) (c_supply s) (c_expiry s) (c_l1 s) (c_l1_used s) (c_stakers s) (c_rewards s) (c_subnets s) (c_owners s) (c_conversions s) (c_transformations s) x (c_txs s) (c_reward_utxos s) (c_utxos s).
Definition set_txs x (s : CState) : CState :=
  mkC (c_timestamp s) (c_fee s) (c_excess s) (c_accrued s) (c_supply s) (c_expiry s) (c_l1 s) (c_l1_used s) (c_stakers s) (c_rewards s) (c_subnets s) (c_owners s) (c_conversions s) (c_transformations s) (c_chains s) x (c_reward_utxos s) (c_utxos s).
Definition set_reward_utxos x (s : CState) : CState :=
  mkC (c_timestamp s) (c_fee s) (c_excess s) (c_accrued s) (c_supply s) (c_expiry s) (c_l1 s) (c_l1_used s) (c_stakers s) (c_rewards s) (c_subnets s) (c_owners s) (c_conversions s) (c_transformations s) (c_chains s) (c_txs s) x (c_utxos s).
Definition set_utxos x (s : CState) : CState :=
  mkC (c_timestamp s) (c_fee s) (c_excess s) (c_accrued s) (c_supply s) (c_expiry s) (c_l1 s) (c_l1_used s) (c_stakers s) (c_rewards s) (c_subnets s) (c_owners s) (c_conversions s) (c_transformations s) (c_chains s) (c_txs s) (c_reward_utxos s) x.

Definition put_val (x : Staker PublicKey) (s : SState) : SState :=
  mkS (put_validator x (s_view s)) (fun t => s_used s t \/ t = TxID x) (s_refuse s).
Definition delete_val (x : Staker PublicKey) (r : ID -> ID -> Prop) (s : SState) : SState := mkS (delete_validator x (s_view s)) (s_used s) r.
Definition put_del (x : Staker PublicKey) (s : SState) : SState :=
  mkS (put_delegator x (s_view s)) (fun t => s_used s t \/ t = TxID x) (s_refuse s).
Definition delete_del (x : Staker PublicKey) (s : SState) : SState := mkS (remove_delegator x (s_view s)) (s_used s) (s_refuse s).
Definition upd_stakers (k : Kind) (f : SState -> SState) (s : CState) : CState :=
  set_stakers (fun k' => if bool_decide (k' = k) then f (c_stakers s k) else c_stakers s k') s.
(** One more at the end of the list of a key. *)
Definition snoc_at {A} (id : ID) (a : A) (f : ID -> list A) : ID -> list A := fun id' => if bool_decide (id' = id) then f id' ++ [a] else f id'.

Definition wf_stakers (s : SState) : Prop := wf_view (s_view s) /\ forall x, member (s_view s) x -> s_used s (TxID x).
Record wf_chain (s : CState) : Prop := {
  wc_stakers k : wf_stakers (c_stakers s k);
  wc_l1 : wf_l1 (c_l1 s);
  wc_l1_used id : is_Some (c_l1 s !! id) -> c_l1_used s id;
}.

(** An iterator over a set of items, or a fault. *)
Definition iterates {A} (less : A -> A -> bool) (r : result StateErr (Iterator A)) (P : A -> Prop) : Prop :=
  (exists it, r = Ok it /\ lists less it P) \/ exists e, r = Err e /\ db_fault e.

(** ** What an implementation promises *)
Class ChainLaws (C : Type) `{!Chain C} (rep : C -> CState -> Prop) : Prop := {
  law_wf c s : rep c s -> wf_chain s;

  law_GetTimestamp c s : rep c s -> GetTimestamp c = c_timestamp s;
  law_SetTimestamp c s t : rep c s -> rep (SetTimestamp t c) (set_timestamp t s);
  law_GetFeeState c s : rep c s -> GetFeeState c = c_fee s;
  law_SetFeeState c s f : rep c s -> rep (SetFeeState f c) (set_fee f s);
  law_GetL1ValidatorExcess c s : rep c s -> GetL1ValidatorExcess c = c_excess s;
  law_SetL1ValidatorExcess c s e : rep c s -> rep (SetL1ValidatorExcess e c) (set_excess e s);
  law_GetAccruedFees c s : rep c s -> GetAccruedFees c = c_accrued s;
  law_SetAccruedFees c s f : rep c s -> rep (SetAccruedFees f c) (set_accrued f s);
  law_GetCurrentSupply c s id : rep c s -> replies (GetCurrentSupply id c) (found (c_supply s !! id));
  law_SetCurrentSupply c s id x : rep c s -> rep (SetCurrentSupply id x c) (set_supply (<[id := x]> (c_supply s)) s);

  law_GetExpiryIterator c s : rep c s -> iterates Expiry_Less (GetExpiryIterator c) (fun e => e ∈ c_expiry s);
  law_HasExpiry c s e : rep c s -> replies (HasExpiry e c) (Ok (bool_decide (e ∈ c_expiry s)));
  law_PutExpiry c s e : rep c s -> rep (PutExpiry e c) (set_expiry ({[e]} ∪ c_expiry s) s);
  law_DeleteExpiry c s e : rep c s -> rep (DeleteExpiry e c) (set_expiry (c_expiry s ∖ {[e]}) s);

  law_GetActiveL1ValidatorsIterator c s : rep c s -> iterates L1_Less (GetActiveL1ValidatorsIterator c) (is_active (c_l1 s));
  law_NumActiveL1Validators c s : rep c s -> NumActiveL1Validators c = num_active (c_l1 s);
  law_WeightOfL1Validators c s id : rep c s -> replies (WeightOfL1Validators id c) (Ok (total (c_l1 s) id));
  law_GetL1Validator c s id : rep c s -> replies (GetL1Validator id c) (found (c_l1 s !! id));
  law_HasL1Validator c s id n : rep c s -> replies (HasL1Validator id n c) (Ok (has_node (c_l1 s) id n));
  law_PutL1Validator c s v : rep c s -> is_u64 (L_Weight v) -> (c_l1 s !! ValidationID v = None -> ~ c_l1_used s (ValidationID v)) ->
    wp (fun e => db_fault e \/ l1_put (c_l1 s) (vals (c_view Current s)) v = Err e) (PutL1Validator v)
      (fun _ c' => exists L', l1_put (c_l1 s) (vals (c_view Current s)) v = Ok L' /\ rep c' (set_l1 L' (fun id => c_l1_used s id \/ id = ValidationID v) s)) c;

  law_GetValidator c s k id n : rep c s -> replies (GetValidator k id n c) (found (vals (c_view k s) id n));
  law_GetDelegatorIterator c s k id n : rep c s ->
    iterates Stakers.Less (GetDelegatorIterator k id n c) (fun x => dels (c_view k s) x /\ at_node id n x);
  law_GetStakerIterator c s k : rep c s -> iterates Stakers.Less (GetStakerIterator k c) (member (c_view k s));
  law_PutValidator c s k x : rep c s -> vals (c_view k s) (SubnetID x) (NodeID x) = None -> ~ c_used k s (TxID x) ->
    wp (fun e => e = ErrAddingStakerAfterDeletion /\ c_refuse k s (SubnetID x) (NodeID x)) (PutValidator k x)
      (fun _ c' => ~ c_refuse k s (SubnetID x) (NodeID x) /\ rep c' (upd_stakers k (put_val x) s)) c;
  law_DeleteValidator c s k x : rep c s -> is_validator (c_view k s) x ->
    wp never (DeleteValidator k x)
      (fun _ c' => exists r, rep c' (upd_stakers k (delete_val x r) s) /\ forall id n, r id n -> c_refuse k s id n \/ at_node id n x) c;
  law_PutDelegator c s k x : rep c s -> ~ c_used k s (TxID x) ->
    wp never (PutDelegator k x) (fun _ c' => rep c' (upd_stakers k (put_del x) s)) c;
  law_DeleteDelegator c s k x : rep c s -> dels (c_view k s) x ->
    wp never (DeleteDelegator k x) (fun _ c' => rep c' (upd_stakers k (delete_del x) s)) c;
  law_SetDelegateeReward c s id n a : rep c s -> is_Some (c_rewards s !! (id, n)) ->
    wp db_fault (SetDelegateeReward id n a) (fun _ c' => rep c' (set_rewards (<[(id, n) := a]> (c_rewards s)) s)) c;
  law_GetDelegateeReward c s id n : rep c s -> replies (GetDelegateeReward id n c) (found (c_rewards s !! (id, n)));

  law_AddSubnet c s id : rep c s -> rep (AddSubnet id c) (set_subnets (c_subnets s ++ [id]) s);
  law_GetSubnetOwner c s id o : rep c s -> c_owners s !! id = Some o -> replies (GetSubnetOwner id c) (Ok o);
  law_SetSubnetOwner c s id o : rep c s -> rep (SetSubnetOwner id o c) (set_owners (<[id := o]> (c_owners s)) s);
  law_GetSubnetToL1Conversion c s id : rep c s -> replies (GetSubnetToL1Conversion id c) (found (c_conversions s !! id));
  law_SetSubnetToL1Conversion c s id v : rep c s ->
    rep (SetSubnetToL1Conversion id v c) (set_conversions (<[id := v]> (c_conversions s)) s);
  law_GetSubnetTransformation c s id : rep c s -> replies (GetSubnetTransformation id c) (found (c_transformations s !! id));
  law_AddSubnetTransformation c s tx id : rep c s -> transform_subnet tx = Some id ->
    wp never (AddSubnetTransformation tx) (fun _ c' => rep c' (set_transformations (<[id := tx]> (c_transformations s)) s)) c;
  law_AddChain c s tx id : rep c s -> create_chain_subnet tx = Some id ->
    wp never (AddChain tx) (fun _ c' => rep c' (set_chains (snoc_at id tx (c_chains s)) s)) c;

  law_GetTx c s id : rep c s -> replies (GetTx id c) (found (c_txs s !! id));
  law_AddTx c s tx st : rep c s -> rep (AddTx tx st c) (set_txs (<[Tx_ID tx := (tx, st)]> (c_txs s)) s);
  law_AddRewardUTXO c s id u : rep c s -> rep (AddRewardUTXO id u c) (set_reward_utxos (snoc_at id u (c_reward_utxos s)) s);
  law_GetUTXO c s id : rep c s -> replies (GetUTXO id c) (found (c_utxos s !! id));
  law_AddUTXO c s u : rep c s -> rep (AddUTXO u c) (set_utxos (<[InputID u := u]> (c_utxos s)) s);
  law_DeleteUTXO c s id : rep c s -> rep (DeleteUTXO id c) (set_utxos (delete id (c_utxos s)) s);
}.
End spec.
Arguments CState T : clear implicits.
Abbreviation c_view k s := (s_view (c_stakers s k)).
Abbreviation c_used k s := (s_used (c_stakers s k)).
Abbreviation c_refuse k s := (s_refuse (c_stakers s k)).
End Chain.
