(* ===== verification/ChainDiff.v ===== *)
(** * The changes of a block over the state before it
    Models [vms/platformvm/state/diff.go]: a diff keeps what a block has changed,
    answers every other query from the state of its parent, and [Apply] makes the
    changes on another state.  Diffs are chains, so they stack. *)
From S2P Require Import Prelude SafeMath Monads Gas Sorting MapOrder BTree Iterators Stakers StakersFacts L1Validators Chain.

Module ChainDiff.
Import Sorting BTree Iterators Stakers L1Validators Chain.

Abbreviation nodes V := (gmap ID (gmap ID V)).
Section diff.
Context {T : ChainTypes} `{BTree (Staker PublicKey)} `{BTree ExpiryEntry} `{BTree L1Validator}.
Context (C : Type) `{!Chain C}.

(** A missing entry of a map of slices is the empty slice. *)
Record diff := mkDiff {
  networkID : Z;
  parentID : ID;
  stateVersions : ID -> option C;
  timestamp : Z;
  feeState : Gas.State;
  l1ValidatorExcess : Z;
  accruedFees : Z;
  parentNumActiveL1Validators : Z;
  currentSupply : gmap ID Z;
  expiryDiff : L1Validators.expiryDiff;
  l1ValidatorsDiff : L1Validators.l1ValidatorsDiff;
  stakerDiffs : Kind -> diffStakers (PK := PublicKey);
  modifiedDelegateeRewards : nodes Z;
  addedSubnetIDs : list ID;
  subnetOwners : gmap ID Owner;
  subnetToL1Conversions : gmap ID SubnetToL1Conversion;
  transformedSubnets : gmap ID Tx;
  addedChains : gmap ID (list Tx);
  addedRewardUTXOs : gmap ID (list UTXO);
  addedTxs : gmap ID (Tx * Status);
  modifiedUTXOs : gmap ID (option UTXO);
}.
Definition currentStakerDiffs (d : diff) : diffStakers := stakerDiffs d Current.
Definition pendingStakerDiffs (d : diff) : diffStakers := stakerDiffs d Pending.

(** Assignments *)
Definition d_timestamp x (d : diff) : diff :=
  mkDiff (networkID d) (parentID d) (stateVersions d) x (feeState d) (l1ValidatorExcess d) (accruedFees d) (parentNumActiveL1Validators d) (currentSupply d) (expiryDiff d) (l1ValidatorsDiff d) (stakerDiffs d) (modifiedDelegateeRewards d) (addedSubnetIDs d) (subnetOwners d) (subnetToL1Conversions d) (transformedSubnets d) (addedChains d) (addedRewardUTXOs d) (addedTxs d) (modifiedUTXOs d).
Definition d_feeState x (d : diff) : diff :=
  mkDiff (networkID d) (parentID d) (stateVersions d) (timestamp d) x (l1ValidatorExcess d) (accruedFees d) (parentNumActiveL1Validators d) (currentSupply d) (expiryDiff d) (l1ValidatorsDiff d) (stakerDiffs d) (modifiedDelegateeRewards d) (addedSubnetIDs d) (subnetOwners d) (subnetToL1Conversions d) (transformedSubnets d) (addedChains d) (addedRewardUTXOs d) (addedTxs d) (modifiedUTXOs d).
Definition d_l1ValidatorExcess x (d : diff) : diff :=
  mkDiff (networkID d) (parentID d) (stateVersions d) (timestamp d) (feeState d) x (accruedFees d) (parentNumActiveL1Validators d) (currentSupply d) (expiryDiff d) (l1ValidatorsDiff d) (stakerDiffs d) (modifiedDelegateeRewards d) (addedSubnetIDs d) (subnetOwners d) (subnetToL1Conversions d) (transformedSubnets d) (addedChains d) (addedRewardUTXOs d) (addedTxs d) (modifiedUTXOs d).
Definition d_accruedFees x (d : diff) : diff :=
  mkDiff (networkID d) (parentID d) (stateVersions d) (timestamp d) (feeState d) (l1ValidatorExcess d) x (parentNumActiveL1Validators d) (currentSupply d) (expiryDiff d) (l1ValidatorsDiff d) (stakerDiffs d) (modifiedDelegateeRewards d) (addedSubnetIDs d) (subnetOwners d) (subnetToL1Conversions d) (transformedSubnets d) (addedChains d) (addedRewardUTXOs d) (addedTxs d) (modifiedUTXOs d).
Definition d_currentSupply x (d : diff) : diff :=
  mkDiff (networkID d) (parentID d) (stateVersions d) (timestamp d) (feeState d) (l1ValidatorExcess d) (accruedFees d) (parentNumActiveL1Validators d) x (expiryDiff d) (l1ValidatorsDiff d) (stakerDiffs d) (modifiedDelegateeRewards d) (addedSubnetIDs d) (subnetOwners d) (subnetToL1Conversions d) (transformedSubnets d) (addedChains d) (addedRewardUTXOs d) (addedTxs d) (modifiedUTXOs d).
Definition d_expiryDiff x (d : diff) : diff :=
  mkDiff (networkID d) (parentID d) (stateVersions d) (timestamp d) (feeState d) (l1ValidatorExcess d) (accruedFees d) (parentNumActiveL1Validators d) (currentSupply d) x (l1ValidatorsDiff d) (stakerDiffs d) (modifiedDelegateeRewards d) (addedSubnetIDs d) (subnetOwners d) (subnetToL1Conversions d) (transformedSubnets d) (addedChains d) (addedRewardUTXOs d) (addedTxs d) (modifiedUTXOs d).
Definition d_l1ValidatorsDiff x (d : diff) : diff :=
  mkDiff (networkID d) (parentID d) (stateVersions d) (timestamp d) (feeState d) (l1ValidatorExcess d) (accruedFees d) (parentNumActiveL1Validators d) (currentSupply d) (expiryDiff d) x (stakerDiffs d) (modifiedDelegateeRewards d) (addedSubnetIDs d) (subnetOwners d) (subnetToL1Conversions d) (transformedSubnets d) (addedChains d) (addedRewardUTXOs d) (addedTxs d) (modifiedUTXOs d).
Definition d_stakerDiffs x (d : diff) : diff :=
  mkDiff (networkID d) (parentID d) (stateVersions d) (timestamp d) (feeState d) (l1ValidatorExcess d) (accruedFees d) (parentNumActiveL1Validators d) (currentSupply d) (expiryDiff d) (l1ValidatorsDiff d) x (modifiedDelegateeRewards d) (addedSubnetIDs d) (subnetOwners d) (subnetToL1Conversions d) (transformedSubnets d) (addedChains d) (addedRewardUTXOs d) (addedTxs d) (modifiedUTXOs d).
Definition d_modifiedDelegateeRewards x (d : diff) : diff :=
  mkDiff (networkID d) (parentID d) (stateVersions d) (timestamp d) (feeState d) (l1ValidatorExcess d) (accruedFees d) (parentNumActiveL1Validators d) (currentSupply d) (expiryDiff d) (l1ValidatorsDiff d) (stakerDiffs d) x (addedSubnetIDs d) (subnetOwners d) (subnetToL1Conversions d) (transformedSubnets d) (addedChains d) (addedRewardUTXOs d) (addedTxs d) (modifiedUTXOs d).
Definition d_addedSubnetIDs x (d : diff) : diff :=
  mkDiff (networkID d) (parentID d) (stateVersions d) (timestamp d) (feeState d) (l1ValidatorExcess d) (accruedFees d) (parentNumActiveL1Validators d) (currentSupply d) (expiryDiff d) (l1ValidatorsDiff d) (stakerDiffs d) (modifiedDelegateeRewards d) x (subnetOwners d) (subnetToL1Conversions d) (transformedSubnets d) (addedChains d) (addedRewardUTXOs d) (addedTxs d) (modifiedUTXOs d).
Definition d_subnetOwners x (d : diff) : diff :=
  mkDiff (networkID d) (parentID d) (stateVersions d) (timestamp d) (feeState d) (l1ValidatorExcess d) (accruedFees d) (parentNumActiveL1Validators d) (currentSupply d) (expiryDiff d) (l1ValidatorsDiff d) (stakerDiffs d) (modifiedDelegateeRewards d) (addedSubnetIDs d) x (subnetToL1Conversions d) (transformedSubnets d) (addedChains d) (addedRewardUTXOs d) (addedTxs d) (modifiedUTXOs d).
Definition d_subnetToL1Conversions x (d : diff) : diff :=
  mkDiff (networkID d) (parentID d) (stateVersions d) (timestamp d) (feeState d) (l1ValidatorExcess d) (accruedFees d) (parentNumActiveL1Validators d) (currentSupply d) (expiryDiff d) (l1ValidatorsDiff d) (stakerDiffs d) (modifiedDelegateeRewards d) (addedSubnetIDs d) (subnetOwners d) x (transformedSubnets d) (addedChains d) (addedRewardUTXOs d) (addedTxs d) (modifiedUTXOs d).
Definition d_transformedSubnets x (d : diff) : diff :=
  mkDiff (networkID d) (parentID d) (stateVersions d) (timestamp d) (feeState d) (l1ValidatorExcess d) (accruedFees d) (parentNumActiveL1Validators d) (currentSupply d) (expiryDiff d) (l1ValidatorsDiff d) (stakerDiffs d) (modifiedDelegateeRewards d) (addedSubnetIDs d) (subnetOwners d) (subnetToL1Conversions d) x (addedChains d) (addedRewardUTXOs d) (addedTxs d) (modifiedUTXOs d).
Definition d_addedChains x (d : diff) : diff :=
  mkDiff (networkID d) (parentID d) (stateVersions d) (timestamp d) (feeState d) (l1ValidatorExcess d) (accruedFees d) (parentNumActiveL1Validators d) (currentSupply d) (expiryDiff d) (l1ValidatorsDiff d) (stakerDiffs d) (modifiedDelegateeRewards d) (addedSubnetIDs d) (subnetOwners d) (subnetToL1Conversions d) (transformedSubnets d) x (addedRewardUTXOs d) (addedTxs d) (modifiedUTXOs d).
Definition d_addedRewardUTXOs x (d : diff) : diff :=
  mkDiff (networkID d) (parentID d) (stateVersions d) (timestamp d) (feeState d) (l1ValidatorExcess d) (accruedFees d) (parentNumActiveL1Validators d) (currentSupply d) (expiryDiff d) (l1ValidatorsDiff d) (stakerDiffs d) (modifiedDelegateeRewards d) (addedSubnetIDs d) (subnetOwners d) (subnetToL1Conversions d) (transformedSubnets d) (addedChains d) x (addedTxs d) (modifiedUTXOs d).
Definition d_addedTxs x (d : diff) : diff :=
  mkDiff (networkID d) (parentID d) (stateVersions d) (timestamp d) (feeState d) (l1ValidatorExcess d) (accruedFees d) (parentNumActiveL1Validators d) (currentSupply d) (expiryDiff d) (l1ValidatorsDiff d) (stakerDiffs d) (modifiedDelegateeRewards d) (addedSubnetIDs d) (subnetOwners d) (subnetToL1Conversions d) (transformedSubnets d) (addedChains d) (addedRewardUTXOs d) x (modifiedUTXOs d).
Definition d_modifiedUTXOs x (d : diff) : diff :=
  mkDiff (networkID d) (parentID d) (stateVersions d) (timestamp d) (feeState d) (l1ValidatorExcess d) (accruedFees d) (parentNumActiveL1Validators d) (currentSupply d) (expiryDiff d) (l1ValidatorsDiff d) (stakerDiffs d) (modifiedDelegateeRewards d) (addedSubnetIDs d) (subnetOwners d) (subnetToL1Conversions d) (transformedSubnets d) (addedChains d) (addedRewardUTXOs d) (addedTxs d) x.

Definition NewDiff (parentID : ID) (stateVersions : ID -> option C) : result StateErr diff :=
  match stateVersions parentID with
  | None => Err ErrMissingParentState
  | Some parentState =>
      Ok (mkDiff 0 parentID stateVersions (GetTimestamp parentState) (GetFeeState parentState) (GetL1ValidatorExcess parentState)
        (GetAccruedFees parentState) (NumActiveL1Validators parentState) ∅ newExpiryDiff newL1ValidatorsDiff (fun _ => newDiffStakers) ∅
        [] ∅ ∅ ∅ ∅ ∅ ∅ ∅)
  end.
(** [stateGetter] *)
Definition stateGetter (state : C) : ID -> option C := fun _ => Some state.
Definition NewDiffOn (parentState : C) : result StateErr diff := NewDiff ids_Empty (stateGetter parentState).

Definition d_GetNetworkID (d : diff) : Z := networkID d.
Definition d_GetTimestamp (d : diff) : Z := timestamp d.
Definition d_SetTimestamp (timestamp : Z) (d : diff) : diff := d_timestamp timestamp d.
Definition d_GetFeeState (d : diff) : Gas.State := feeState d.
Definition d_SetFeeState (feeState : Gas.State) (d : diff) : diff := d_feeState feeState d.
Definition d_GetL1ValidatorExcess (d : diff) : Z := l1ValidatorExcess d.
Definition d_SetL1ValidatorExcess (excess : Z) (d : diff) : diff := d_l1ValidatorExcess excess d.
Definition d_GetAccruedFees (d : diff) : Z := accruedFees d.
Definition d_SetAccruedFees (accruedFees : Z) (d : diff) : diff := d_accruedFees accruedFees d.

(** What the diff does not know it asks the state of its parent. *)
Definition ask {A} (d : diff) (f : C -> result StateErr A) : result StateErr A :=
  match stateVersions d (parentID d) with
  | None => Err ErrMissingParentState
  | Some parentState => f parentState
  end.

Definition d_GetCurrentSupply (subnetID : ID) (d : diff) : result StateErr Z :=
  match currentSupply d !! subnetID with
  | Some supply => Ok supply
  | None => ask d (GetCurrentSupply subnetID)
  end.
Definition d_SetCurrentSupply (subnetID : ID) (supply : Z) (d : diff) : diff := d_currentSupply (<[subnetID := supply]> (currentSupply d)) d.

(** ** Expiry entries *)
Definition d_GetExpiryIterator (d : diff) : result StateErr (Iterator ExpiryEntry) :=
  ask d (fun parentState =>
    parentIterator ← GetExpiryIterator parentState;
    Ok (getExpiryIterator parentIterator (expiryDiff d))).
Definition d_HasExpiry (entry : ExpiryEntry) (d : diff) : result StateErr bool :=
  match e_modified (expiryDiff d) !! entry with
  | Some has => Ok has
  | None => ask d (HasExpiry entry)
  end.
Definition d_PutExpiry (entry : ExpiryEntry) (d : diff) : diff := d_expiryDiff (e_PutExpiry entry (expiryDiff d)) d.
Definition d_DeleteExpiry (entry : ExpiryEntry) (d : diff) : diff := d_expiryDiff (e_DeleteExpiry entry (expiryDiff d)) d.

(** ** L1 validators *)
Definition d_GetActiveL1ValidatorsIterator (d : diff) : result StateErr (Iterator L1Validator) :=
  ask d (fun parentState =>
    parentIterator ← GetActiveL1ValidatorsIterator parentState;
    Ok (getActiveL1ValidatorsIterator parentIterator (l1ValidatorsDiff d))).
Definition d_NumActiveL1Validators (d : diff) : Z := parentNumActiveL1Validators d + netAddedActive (l1ValidatorsDiff d).
Definition d_WeightOfL1Validators (subnetID : ID) (d : diff) : result StateErr Z :=
  match modifiedTotalWeight (l1ValidatorsDiff d) !! subnetID with
  | Some weight => Ok weight
  | None => ask d (WeightOfL1Validators subnetID)
  end.
Definition d_GetL1Validator (validationID : ID) (d : diff) : result StateErr L1Validator :=
  match modified (l1ValidatorsDiff d) !! validationID with
  | Some l1Validator => if isDeleted l1Validator then Err ErrNotFound else Ok l1Validator
  | None => ask d (GetL1Validator validationID)
  end.
Definition d_HasL1Validator (subnetID nodeID : ID) (d : diff) : result StateErr bool :=
  match hasL1Validator subnetID nodeID (l1ValidatorsDiff d) with
  | Some has => Ok has
  | None => ask d (HasL1Validator subnetID nodeID)
  end.

(** ** Stakers *)
Definition d_GetValidator (k : Kind) (subnetID nodeID : ID) (d : diff) : result StateErr (Staker PublicKey) :=
  match diff_GetValidator subnetID nodeID (stakerDiffs d k) with
  | (newValidator, added) => match newValidator with Some v => Ok v | None => Err Panic end
  | (_, deleted) => Err ErrNotFound
  | (_, unmodified) => ask d (GetValidator k subnetID nodeID)
  end.
(** An operation on the stakers of one kind. *)
Definition on_stakers (k : Kind) (m : M (diffStakers (PK := PublicKey)) StateErr unit) : M diff StateErr unit :=
  zoom (fun d => stakerDiffs d k) (fun x d => d_stakerDiffs (fun k' => if bool_decide (k' = k) then x else stakerDiffs d k') d) m.
Definition d_PutValidator (k : Kind) (staker : Staker PublicKey) : M diff StateErr unit := on_stakers k (diff_PutValidator staker).
Definition d_DeleteValidator (k : Kind) (staker : Staker PublicKey) : M diff StateErr unit := on_stakers k (diff_DeleteValidator staker).
Definition d_GetDelegatorIterator (k : Kind) (subnetID nodeID : ID) (d : diff) : result StateErr (Iterator (Staker PublicKey)) :=
  ask d (fun parentState =>
    parentIterator ← GetDelegatorIterator k subnetID nodeID parentState;
    Ok (diff_GetDelegatorIterator parentIterator subnetID nodeID (stakerDiffs d k))).
Definition d_PutDelegator (k : Kind) (staker : Staker PublicKey) : M diff StateErr unit := on_stakers k (diff_PutDelegator staker).
Definition d_DeleteDelegator (k : Kind) (staker : Staker PublicKey) : M diff StateErr unit := on_stakers k (diff_DeleteDelegator staker).
Definition d_GetStakerIterator (k : Kind) (d : diff) : result StateErr (Iterator (Staker PublicKey)) :=
  ask d (fun parentState =>
    parentIterator ← GetStakerIterator k parentState;
    Ok (diff_GetStakerIterator parentIterator (stakerDiffs d k))).

Definition GetCurrentValidator := d_GetValidator Current.
Definition GetPendingValidator := d_GetValidator Pending.
Definition PutCurrentValidator := d_PutValidator Current.
Definition PutPendingValidator := d_PutValidator Pending.
Definition DeleteCurrentValidator := d_DeleteValidator Current.
Definition DeletePendingValidator := d_DeleteValidator Pending.
Definition GetCurrentDelegatorIterator := d_GetDelegatorIterator Current.
Definition GetPendingDelegatorIterator := d_GetDelegatorIterator Pending.
Definition PutCurrentDelegator := d_PutDelegator Current.
Definition PutPendingDelegator := d_PutDelegator Pending.
Definition DeleteCurrentDelegator := d_DeleteDelegator Current.
Definition DeletePendingDelegator := d_DeleteDelegator Pending.
Definition GetCurrentStakerIterator := d_GetStakerIterator Current.
Definition GetPendingStakerIterator := d_GetStakerIterator Pending.

(** The diff is the chain that [putL1Validator] asks. *)
Definition d_queries (d : diff) : Queries (PK := PublicKey) :=
  mkQueries (fun id => d_GetL1Validator id d) (fun s n => d_GetValidator Current s n d) (fun s n => d_HasL1Validator s n d)
    (fun s => d_WeightOfL1Validators s d).
Definition d_PutL1Validator (l1Validator : L1Validator) : M diff StateErr unit :=
  d ← get;
  x ← lift (putL1Validator (d_queries d) l1Validator (l1ValidatorsDiff d));
  modify (d_l1ValidatorsDiff x).

Definition d_SetDelegateeReward (subnetID nodeID : ID) (amount : Z) : M diff StateErr unit :=
  modify (fun d => d_modifiedDelegateeRewards (insert2 subnetID nodeID amount (modifiedDelegateeRewards d)) d).
Definition d_GetDelegateeReward (subnetID nodeID : ID) (d : diff) : result StateErr Z :=
  match lookup2 (modifiedDelegateeRewards d) subnetID nodeID with
  | Some amount => Ok amount
  | None => ask d (GetDelegateeReward subnetID nodeID)
  end.

(** ** Subnets, transactions and outputs *)
Definition d_AddSubnet (subnetID : ID) (d : diff) : diff := d_addedSubnetIDs (addedSubnetIDs d ++ [subnetID]) d.
Definition d_GetSubnetOwner (subnetID : ID) (d : diff) : result StateErr Owner :=
  match subnetOwners d !! subnetID with
  | Some owner => Ok owner
  | None => ask d (GetSubnetOwner subnetID)
  end.
Definition d_SetSubnetOwner (subnetID : ID) (owner : Owner) (d : diff) : diff := d_subnetOwners (<[subnetID := owner]> (subnetOwners d)) d.
Definition d_GetSubnetToL1Conversion (subnetID : ID) (d : diff) : result StateErr SubnetToL1Conversion :=
  match subnetToL1Conversions d !! subnetID with
  | Some c => Ok c
  | None => ask d (GetSubnetToL1Conversion subnetID)
  end.
Definition d_SetSubnetToL1Conversion (subnetID : ID) (c : SubnetToL1Conversion) (d : diff) : diff :=
  d_subnetToL1Conversions (<[subnetID := c]> (subnetToL1Conversions d)) d.
Definition d_GetSubnetTransformation (subnetID : ID) (d : diff) : result StateErr Tx :=
  match transformedSubnets d !! subnetID with
  | Some tx => Ok tx
  | None => ask d (GetSubnetTransformation subnetID)
  end.
Definition d_AddSubnetTransformation (transformSubnetTxIntf : Tx) : M diff StateErr unit :=
  Subnet ← must Panic (transform_subnet transformSubnetTxIntf);
  modify (fun d => d_transformedSubnets (<[Subnet := transformSubnetTxIntf]> (transformedSubnets d)) d).
Definition d_AddChain (createChainTx : Tx) : M diff StateErr unit :=
  SubnetID ← must Panic (create_chain_subnet createChainTx);
  modify (fun d => d_addedChains (append_at SubnetID createChainTx (addedChains d)) d).
Definition d_GetTx (txID : ID) (d : diff) : result StateErr (Tx * Status) :=
  match addedTxs d !! txID with
  | Some tx => Ok tx
  | None => ask d (GetTx txID)
  end.
Definition d_AddTx (tx : Tx) (status : Status) (d : diff) : diff := d_addedTxs (<[Tx_ID tx := (tx, status)]> (addedTxs d)) d.
Definition d_AddRewardUTXO (txID : ID) (utxo : UTXO) (d : diff) : diff := d_addedRewardUTXOs (append_at txID utxo (addedRewardUTXOs d)) d.
Definition d_GetUTXO (utxoID : ID) (d : diff) : result StateErr UTXO :=
  match modifiedUTXOs d !! utxoID with
  | None => ask d (GetUTXO utxoID)
  | Some None => Err ErrNotFound
  | Some (Some utxo) => Ok utxo
  end.
Definition d_AddUTXO (utxo : UTXO) (d : diff) : diff := d_modifiedUTXOs (<[InputID utxo := Some utxo]> (modifiedUTXOs d)) d.
Definition d_DeleteUTXO (utxoID : ID) (d : diff) : diff := d_modifiedUTXOs (<[utxoID := None]> (modifiedUTXOs d)) d.

#[export] Instance diff_chain : Chain diff := {|
  GetTimestamp := d_GetTimestamp;
  SetTimestamp := d_SetTimestamp;
  GetFeeState := d_GetFeeState;
  SetFeeState := d_SetFeeState;
  GetL1ValidatorExcess := d_GetL1ValidatorExcess;
  SetL1ValidatorExcess := d_SetL1ValidatorExcess;
  GetAccruedFees := d_GetAccruedFees;
  SetAccruedFees := d_SetAccruedFees;
  GetCurrentSupply := d_GetCurrentSupply;
  SetCurrentSupply := d_SetCurrentSupply;
  GetExpiryIterator := d_GetExpiryIterator;
  HasExpiry := d_HasExpiry;
  PutExpiry := d_PutExpiry;
  DeleteExpiry := d_DeleteExpiry;
  GetActiveL1ValidatorsIterator := d_GetActiveL1ValidatorsIterator;
  NumActiveL1Validators := d_NumActiveL1Validators;
  WeightOfL1Validators := d_WeightOfL1Validators;
  GetL1Validator := d_GetL1Validator;
  HasL1Validator := d_HasL1Validator;
  PutL1Validator := d_PutL1Validator;
  GetValidator := d_GetValidator;
  PutValidator := d_PutValidator;
  DeleteValidator := d_DeleteValidator;
  GetDelegatorIterator := d_GetDelegatorIterator;
  PutDelegator := d_PutDelegator;
  DeleteDelegator := d_DeleteDelegator;
  GetStakerIterator := d_GetStakerIterator;
  SetDelegateeReward := d_SetDelegateeReward;
  GetDelegateeReward := d_GetDelegateeReward;
  AddSubnet := d_AddSubnet;
  GetSubnetOwner := d_GetSubnetOwner;
  SetSubnetOwner := d_SetSubnetOwner;
  GetSubnetToL1Conversion := d_GetSubnetToL1Conversion;
  SetSubnetToL1Conversion := d_SetSubnetToL1Conversion;
  GetSubnetTransformation := d_GetSubnetTransformation;
  AddSubnetTransformation := d_AddSubnetTransformation;
  AddChain := d_AddChain;
  GetTx := d_GetTx;
  AddTx := d_AddTx;
  AddRewardUTXO := d_AddRewardUTXO;
  GetUTXO := d_GetUTXO;
  AddUTXO := d_AddUTXO;
  DeleteUTXO := d_DeleteUTXO;
|}.
End diff.

(** ** Apply *)
Section apply.
Context {T : ChainTypes} `{BTree (Staker PublicKey)} `{BTree ExpiryEntry} `{BTree L1Validator}.
Context {C B : Type} `{!Chain B} {HO : KeyOrder ID} {HE : KeyOrder ExpiryEntry}.

(** The entries of a map of maps. *)
Definition entries2 {V} (m : nodes V) : list (ID * ID * V) := entries m ≫= fun x => (fun y => (x.1, y.1, y.2)) <$> entries x.2.

Definition apply_validator (k : Kind) (validatorDiff : diffValidator (PK := PublicKey)) : M B StateErr unit :=
  match validatorStatus validatorDiff with
  | added => validator ← must Panic (validator validatorDiff); PutValidator k validator
  | deleted => validator ← must Panic (validator validatorDiff); DeleteValidator k validator
  | unmodified => mret tt
  end.
Definition apply_node (k : Kind) (validatorDiff : diffValidator (PK := PublicKey)) : M B StateErr unit :=
  apply_validator k validatorDiff;;
  forM (ToSlice (FromTree (addedDelegators validatorDiff))) (PutDelegator k);;
  forM (entries (deletedDelegators validatorDiff)) (fun x => DeleteDelegator k x.2).
Definition apply_stakers (k : Kind) (d : diffStakers (PK := PublicKey)) : M B StateErr unit :=
  forM (entries2 (validatorDiffs d)) (fun x => apply_node k x.2).

Definition apply_l1 (d : L1Validators.l1ValidatorsDiff) : M B StateErr unit :=
  forM (entries (modified d)) (fun x => when (isDeleted x.2) (PutL1Validator x.2));;
  forM (entries (modified d)) (fun x => when (negb (isDeleted x.2)) (PutL1Validator x.2)).

Definition Apply (d : diff C) : M B StateErr unit :=
  modify (SetTimestamp (timestamp C d));;
  modify (SetFeeState (feeState C d));;
  modify (SetL1ValidatorExcess (l1ValidatorExcess C d));;
  modify (SetAccruedFees (accruedFees C d));;
  forM (entries (currentSupply C d)) (fun x => modify (SetCurrentSupply x.1 x.2));;
  forM (entries (e_modified (expiryDiff C d))) (fun x => modify (if x.2 : bool then PutExpiry x.1 else DeleteExpiry x.1));;
  apply_l1 (l1ValidatorsDiff C d);;
  apply_stakers Current (currentStakerDiffs C d);;
  forM (entries2 (modifiedDelegateeRewards C d)) (fun x => SetDelegateeReward x.1.1 x.1.2 x.2);;
  apply_stakers Pending (pendingStakerDiffs C d);;
  forM (addedSubnetIDs C d) (fun id => modify (AddSubnet id));;
  forM (entries (transformedSubnets C d)) (fun x => AddSubnetTransformation x.2);;
  forM (entries (addedChains C d)) (fun x => forM x.2 AddChain);;
  forM (entries (addedTxs C d)) (fun x => modify (AddTx x.2.1 x.2.2));;
  forM (entries (addedRewardUTXOs C d)) (fun x => forM x.2 (fun u => modify (AddRewardUTXO x.1 u)));;
  forM (entries (modifiedUTXOs C d)) (fun x => modify (match x.2 with Some u => AddUTXO u | None => DeleteUTXO x.1 end));;
  forM (entries (subnetOwners C d)) (fun x => modify (SetSubnetOwner x.1 x.2));;
  forM (entries (subnetToL1Conversions C d)) (fun x => modify (SetSubnetToL1Conversion x.1 x.2)).
End apply.
End ChainDiff.

(** ** Diffs implement the state they stand for
    A diff over a parent with the abstract state [s0] that has made changes to [s]
    answers every query as a state that holds [s] does: it satisfies the laws of
    [Chain], and so do the diffs over it. *)
Module ChainDiffFacts.
Import Sorting BTree Iterators KeyedTrees Stakers StakersFacts L1Validators L1Facts Chain ChainDiff.

Section facts.
Context {T : ChainTypes} `{BTreeLaws (Staker PublicKey)} `{BTreeLaws ExpiryEntry} `{BTreeLaws L1Validator}.
Context (C : Type) `{!Chain C} (rep : C -> CState T -> Prop).
Abbreviation diff := (diff C).

(** The entries of [m], and below them those of [m0]. *)
Definition over2 {V} (m : nodes V) (m0 : gmap (ID * ID) V) (s n : ID) : option V :=
  match lookup2 m s n with Some v => Some v | None => m0 !! (s, n) end.
Definition override {V} (m : gmap ID (option V)) (m0 : gmap ID V) : gmap ID V := merge (fun o x => match o with Some v => v | None => x end) m m0.
Arguments override : simpl never.
Arguments over2 : simpl never.

(** [d] has turned the stakers [s0] into [s]. *)
Definition stakers_over (d : diffStakers) (s0 s : SState) : Prop :=
  exists A, diff_inv (s_view s0) (s_used s) A d (s_view s) /\ (forall t, s_used s0 t -> s_used s t) /\
    (forall x, A x \/ newly d (s_view s) x -> ~ s_used s0 (TxID x)) /\
    forall id n, s_refuse s id n <-> status d id n = deleted.

(** [d] has turned [s0] into [s]. *)
Record rep_over (d : diff) (s0 s : CState T) : Prop := {
  ro_wf0 : wf_chain s0;
  ro_timestamp : timestamp C d = c_timestamp s;
  ro_fee : feeState C d = c_fee s;
  ro_excess : l1ValidatorExcess C d = c_excess s;
  ro_accrued : accruedFees C d = c_accrued s;
  ro_num : parentNumActiveL1Validators C d = num_active (c_l1 s0);
  ro_supply : c_supply s = currentSupply C d ∪ c_supply s0;
  ro_expiry : expiry_inv (fun e => e ∈ c_expiry s0) (fun e => e ∈ c_expiry s) (expiryDiff C d);
  ro_l1 : l1_inv (c_l1 s0) (c_l1 s) (l1ValidatorsDiff C d);
  ro_l1_wf id : is_Some (c_l1 s !! id) -> c_l1_used s id;
  ro_l1_used id : c_l1_used s0 id -> c_l1_used s id;
  ro_l1_new id : is_Some (modified (l1ValidatorsDiff C d) !! id) -> c_l1_used s id /\ (c_l1 s0 !! id = None -> ~ c_l1_used s0 id);
  ro_stakers k : stakers_over (stakerDiffs C d k) (c_stakers s0 k) (c_stakers s k);
  ro_rewards id n : c_rewards s !! (id, n) = over2 (modifiedDelegateeRewards C d) (c_rewards s0) id n;
  ro_reward_known id n : is_Some (lookup2 (modifiedDelegateeRewards C d) id n) -> is_Some (c_rewards s0 !! (id, n));
  ro_subnets : c_subnets s = c_subnets s0 ++ addedSubnetIDs C d;
  ro_owners : c_owners s = subnetOwners C d ∪ c_owners s0;
  ro_conversions : c_conversions s = subnetToL1Conversions C d ∪ c_conversions s0;
  ro_transformations : c_transformations s = transformedSubnets C d ∪ c_transformations s0;
  ro_transformation_key id tx : transformedSubnets C d !! id = Some tx -> transform_subnet tx = Some id;
  ro_chains id : c_chains s id = c_chains s0 id ++ default [] (addedChains C d !! id);
  ro_chain_key id l tx : addedChains C d !! id = Some l -> tx ∈ l -> create_chain_subnet tx = Some id;
  ro_txs : c_txs s = addedTxs C d ∪ c_txs s0;
  ro_tx_key id x : addedTxs C d !! id = Some x -> Tx_ID x.1 = id;
  ro_reward_utxos id : c_reward_utxos s id = c_reward_utxos s0 id ++ default [] (addedRewardUTXOs C d !! id);
  ro_utxos : c_utxos s = override (modifiedUTXOs C d) (c_utxos s0);
  ro_utxo_key id u : modifiedUTXOs C d !! id = Some (Some u) -> InputID u = id;
}.

(** The diff over the parent [p] that it asks, which holds [s0]. *)
Definition rep_diff (p : C) (s0 : CState T) (d : diff) (s : CState T) : Prop :=
  stateVersions C d (parentID C d) = Some p /\ rep p s0 /\ rep_over d s0 s.

(** ** Queries *)
Section ask.
Context (d : diff) (p : C) (Hp : stateVersions C d (parentID C d) = Some p).

Lemma ask_eq {A} (f : C -> result StateErr A) : ask C d f = f p.
Proof. unfold ask. by rewrite Hp. Qed.
Lemma replies_found {A} (m : gmap ID A) m0 id f : replies (f p) (found (m0 !! id)) ->
  replies (match m !! id with Some v => Ok v | None => ask C d f end) (found ((m ∪ m0) !! id)).
Proof. intros Hf. rewrite lookup_union, ask_eq. destruct (m !! id); [left|]; by destruct (m0 !! id). Qed.
Lemma asks_iterator {A B} less less' (f : C -> result StateErr (Iterator A)) (g : Iterator A -> Iterator B) P Q :
  iterates less (f p) P -> (forall it, lists less it P -> lists less' (g it) Q) -> iterates less' (ask C d (fun c => it ← f c; Ok (g it))) Q.
Proof.
  intros [(it & Hf & Hl)|(e & Hf & He)] Hg; rewrite ask_eq, Hf; [left|right; by exists e].
  exists (g it). split; [done|by apply Hg].
Qed.
End ask.

Lemma override_insert {V} (m : gmap ID (option V)) m0 id v : override (<[id := v]> m) m0 =
  match v with Some u => <[id := u]> (override m m0) | None => delete id (override m m0) end.
Proof.
  apply map_eq. intros id'. unfold override. rewrite lookup_merge. destruct (decide (id' = id)) as [->|Hne].
  - rewrite lookup_insert_eq. destruct v; [rewrite lookup_insert_eq|rewrite lookup_delete_eq]; cbn; by destruct (m0 !! id).
  - rewrite lookup_insert_ne by done. destruct v; [rewrite lookup_insert_ne by done|rewrite lookup_delete_ne by done]; by rewrite lookup_merge.
Qed.

Lemma expiry_ext P0 P Q e : (forall x, P x <-> Q x) -> expiry_inv P0 P e -> expiry_inv P0 Q e.
Proof. intros HPQ [Hm Hs Ha]. split; [intros x b Hx; by rewrite <- HPQ, (Hm x b)|intros x Hx; by rewrite <- HPQ, Hs|done]. Qed.

Lemma diff_inv_used w0 used used' A d w : (forall t, used t -> used' t) -> diff_inv w0 used A d w -> diff_inv w0 used' A d w.
Proof. intros Hu []. split; auto. Qed.

(** ** A new diff *)
(** The state as a new layer sees it: nothing is refused there yet. *)
Definition fresh (s : CState T) : CState T := set_stakers (fun k => mkS (c_view k s) (c_used k s) (fun _ _ => False)) s.

Context `{!ChainLaws C rep}.

Lemma stakers_over_new s : wf_stakers s -> stakers_over newDiffStakers s (mkS (s_view s) (s_used s) (fun _ _ => False)).
Proof.
  intros [Hw Hu]. exists (fun _ => False). split_and!; cbn; [|done| |].
  - eapply diff_inv_used, diff_inv_new, Hw. intros t (x & Hx & <-). by apply Hu.
  - intros x [[]|[Hn _]]. done.
  - intros id n. by split.
Qed.

Lemma rep_NewDiff parent versions p s : versions parent = Some p -> rep p s ->
  exists d, NewDiff C parent versions = Ok d /\ rep_diff p s d (fresh s).
Proof.
  intros Hp Hr. unfold NewDiff. rewrite Hp. eexists. split; [done|]. pose proof (law_wf p s Hr) as Hwf.
  enough (forall d, NewDiff C parent versions = Ok d -> rep_over d s (fresh s)) as Hro.
  { pose proof (Hro _ ltac:(unfold NewDiff; by rewrite Hp)) as Ho. done. }
  unfold NewDiff. rewrite Hp. intros d [= <-]. destruct Hwf as [Hs Hl Hlu]. split; cbn; try done; try (by rewrite (left_id_L ∅ (∪))).
  - by apply law_GetTimestamp.
  - by apply law_GetFeeState.
  - by apply law_GetL1ValidatorExcess.
  - by apply law_GetAccruedFees.
  - by apply law_NumActiveL1Validators.
  - apply expiry_new.
  - by apply l1_inv_new.
  - intros id [v Hv]. by rewrite lookup_empty in Hv.
  - intros k. apply stakers_over_new, Hs.
  - intros id n [v Hv]. done.
  - by rewrite app_nil_r.
  - intros id. by rewrite lookup_empty, app_nil_r.
  - intros id. by rewrite lookup_empty, app_nil_r.
  - apply map_eq. intros id. unfold override. rewrite lookup_merge, lookup_empty. cbn. by destruct (c_utxos s !! id).
Qed.

(** ** Queries of a diff *)
Section layer.
Context (p : C) (s0 : CState T).
Abbreviation rep_diff := (rep_diff p s0).
Section queries.
Context (d : diff) (s : CState T) (Hd : rep_diff d s).

Lemma diff_GetCurrentSupply id : replies (d_GetCurrentSupply C id d) (found (c_supply s !! id)).
Proof. destruct Hd as (Hp & Hr & Ho). rewrite (ro_supply _ _ _ Ho). eapply replies_found; [done|]. by apply law_GetCurrentSupply. Qed.
Lemma diff_GetSubnetOwner id o : c_owners s !! id = Some o -> replies (d_GetSubnetOwner C id d) (Ok o).
Proof.
  destruct Hd as (Hp & Hr & Ho). rewrite (ro_owners _ _ _ Ho), lookup_union. unfold d_GetSubnetOwner. rewrite (ask_eq d p Hp).
  destruct (subnetOwners C d !! id) as [o'|] eqn:Hid; intros Hs.
  - left. destruct (c_owners s0 !! id); by injection Hs as ->.
  - apply (law_GetSubnetOwner p s0 id o Hr). by destruct (c_owners s0 !! id).
Qed.
Lemma diff_GetSubnetToL1Conversion id : replies (d_GetSubnetToL1Conversion C id d) (found (c_conversions s !! id)).
Proof. destruct Hd as (Hp & Hr & Ho). rewrite (ro_conversions _ _ _ Ho). eapply replies_found; [done|]. by apply law_GetSubnetToL1Conversion. Qed.
Lemma diff_GetSubnetTransformation id : replies (d_GetSubnetTransformation C id d) (found (c_transformations s !! id)).
Proof. destruct Hd as (Hp & Hr & Ho). rewrite (ro_transformations _ _ _ Ho). eapply replies_found; [done|]. by apply law_GetSubnetTransformation. Qed.
Lemma diff_GetTx id : replies (d_GetTx C id d) (found (c_txs s !! id)).
Proof. destruct Hd as (Hp & Hr & Ho). rewrite (ro_txs _ _ _ Ho). eapply replies_found; [done|]. by apply law_GetTx. Qed.
Lemma diff_GetUTXO id : replies (d_GetUTXO C id d) (found (c_utxos s !! id)).
Proof.
  destruct Hd as (Hp & Hr & Ho). rewrite (ro_utxos _ _ _ Ho). unfold d_GetUTXO, override. rewrite lookup_merge.
  rewrite (ask_eq d p Hp). pose proof (law_GetUTXO p s0 id Hr) as Hg. destruct (modifiedUTXOs C d !! id) as [[u|]|], (c_utxos s0 !! id); cbn; try by left. all: done.
Qed.
Lemma diff_GetDelegateeReward id n : replies (d_GetDelegateeReward C id n d) (found (c_rewards s !! (id, n))).
Proof.
  destruct Hd as (Hp & Hr & Ho). rewrite (ro_rewards _ _ _ Ho). unfold d_GetDelegateeReward, over2. rewrite (ask_eq d p Hp).
  destruct (lookup2 _ id n); [by left|]. by apply law_GetDelegateeReward.
Qed.

Lemma diff_GetExpiryIterator : iterates Expiry_Less (d_GetExpiryIterator C d) (fun e => e ∈ c_expiry s).
Proof.
  destruct Hd as (Hp & Hr & Ho). apply (asks_iterator d p Hp Expiry_Less _ GetExpiryIterator (fun it => getExpiryIterator it (expiryDiff C d)) (fun e => e ∈ c_expiry s0));
    [by apply law_GetExpiryIterator|]. intros it. apply expiry_iterator, Ho.
Qed.
Lemma diff_HasExpiry e : replies (d_HasExpiry C e d) (Ok (bool_decide (e ∈ c_expiry s))).
Proof.
  destruct Hd as (Hp & Hr & Ho). unfold d_HasExpiry. destruct (e_modified (expiryDiff C d) !! e) as [b|] eqn:He.
  - left. f_equal. pose proof (ei_modified _ _ _ (ro_expiry _ _ _ Ho) _ _ He) as Hb. cbn in Hb. destruct b; symmetry; [apply bool_decide_eq_true|apply bool_decide_eq_false]; naive_solver.
  - rewrite (ask_eq d p Hp). pose proof (ei_same _ _ _ (ro_expiry _ _ _ Ho) _ He) as Hs. cbn in Hs.
    rewrite (bool_decide_ext _ _ Hs). by apply law_HasExpiry.
Qed.

Lemma diff_GetActiveL1ValidatorsIterator : iterates L1_Less (d_GetActiveL1ValidatorsIterator C d) (is_active (c_l1 s)).
Proof.
  destruct Hd as (Hp & Hr & Ho). apply (asks_iterator d p Hp L1_Less _ GetActiveL1ValidatorsIterator
    (fun it => getActiveL1ValidatorsIterator it (l1ValidatorsDiff C d)) (is_active (c_l1 s0))); [by apply law_GetActiveL1ValidatorsIterator|].
  intros it. apply l1_iterator, (ro_l1 _ _ _ Ho).
Qed.
Lemma diff_NumActiveL1Validators : d_NumActiveL1Validators C d = num_active (c_l1 s).
Proof. destruct Hd as (Hp & Hr & Ho). unfold d_NumActiveL1Validators. rewrite (ro_num _ _ _ Ho), (li_net _ _ _ (ro_l1 _ _ _ Ho)). lia. Qed.
Lemma diff_WeightOfL1Validators id : replies (d_WeightOfL1Validators C id d) (Ok (total (c_l1 s) id)).
Proof.
  destruct Hd as (Hp & Hr & Ho). rewrite (li_total _ _ _ (ro_l1 _ _ _ Ho)). unfold d_WeightOfL1Validators. rewrite (ask_eq d p Hp).
  destruct (modifiedTotalWeight _ !! id); [by left|]. by apply law_WeightOfL1Validators.
Qed.
Lemma diff_GetL1Validator id : replies (d_GetL1Validator C id d) (found (c_l1 s !! id)).
Proof.
  destruct Hd as (Hp & Hr & Ho). unfold d_GetL1Validator. rewrite (ask_eq d p Hp). pose proof (ro_l1 _ _ _ Ho) as Hl.
  destruct (modified _ !! id) as [v|] eqn:Hv.
  - destruct (li_modified _ _ _ Hl _ _ Hv) as (_ & _ & ->). left. by destruct (isDeleted v).
  - rewrite (li_same _ _ _ Hl _ Hv). by apply law_GetL1Validator.
Qed.
Lemma diff_HasL1Validator id n : replies (d_HasL1Validator C id n d) (Ok (has_node (c_l1 s) id n)).
Proof.
  destruct Hd as (Hp & Hr & Ho). rewrite (li_has _ _ _ (ro_l1 _ _ _ Ho)). unfold d_HasL1Validator. rewrite (ask_eq d p Hp).
  destruct (hasL1Validator id n _); [by left|]. by apply law_HasL1Validator.
Qed.

Lemma diff_Get_validator k id n : replies (d_GetValidator C k id n d) (found (vals (c_view k s) id n)).
Proof.
  destruct Hd as (Hp & Hr & Ho). destruct (ro_stakers _ _ _ Ho k) as (A & Hi & _). pose proof (diff_validator Hi id n) as Hv.
  unfold d_GetValidator. destruct (diff_GetValidator id n (stakerDiffs C d k)) as [v []].
  - rewrite (ask_eq d p Hp), Hv. by apply law_GetValidator.
  - destruct Hv as (x & -> & ->). by left.
  - rewrite Hv. by left.
Qed.
Lemma diff_Get_delegator_iterator k id n : iterates Stakers.Less (d_GetDelegatorIterator C k id n d) (fun x => dels (c_view k s) x /\ at_node id n x).
Proof.
  destruct Hd as (Hp & Hr & Ho). destruct (ro_stakers _ _ _ Ho k) as (A & Hi & _).
  apply (asks_iterator d p Hp Stakers.Less _ (GetDelegatorIterator k id n) (fun it => diff_GetDelegatorIterator it id n (stakerDiffs C d k)) (fun x => dels (c_view k s0) x /\ at_node id n x));
    [by apply law_GetDelegatorIterator|]. intros it. by apply (lists_diff_delegators Hi).
Qed.
Lemma diff_Get_staker_iterator k : iterates Stakers.Less (d_GetStakerIterator C k d) (member (c_view k s)).
Proof.
  destruct Hd as (Hp & Hr & Ho). destruct (ro_stakers _ _ _ Ho k) as (A & Hi & _).
  apply (asks_iterator d p Hp Stakers.Less _ (GetStakerIterator k) (fun it => diff_GetStakerIterator it (stakerDiffs C d k)) (member (c_view k s0)));
    [by apply law_GetStakerIterator|]. intros it. by apply (lists_diff_stakers Hi).
Qed.

Lemma diff_queries_ok : queries_ok (d_queries C d) (c_l1 s) (vals (c_view Current s)).
Proof. split_and!; intros; [apply diff_GetL1Validator|apply diff_Get_validator|apply diff_HasL1Validator|apply diff_WeightOfL1Validators]. Qed.
End queries.

(** ** Updates of a diff *)
(** An update changes its own part of the diff and of the state. *)
Ltac layer Hd := destruct Hd as (Hp & Hr & Ho); split; [exact Hp|split; [exact Hr|]]; destruct Ho; constructor; cbn; try done.

Lemma put_at {A} (m : gmap ID A) m0 X id a : X = m ∪ m0 -> <[id := a]> X = <[id := a]> m ∪ m0.
Proof. intros ->. by rewrite insert_union_l. Qed.
Lemma snoc_over {A} (f f0 : ID -> list A) m id a : (forall id', f id' = f0 id' ++ default [] (m !! id')) ->
  forall id', snoc_at id a f id' = f0 id' ++ default [] (append_at id a m !! id').
Proof.
  intros Hf id'. unfold snoc_at, append_at. rewrite Hf. case_bool_decide; [subst; by rewrite lookup_insert_eq, <- app_assoc|by rewrite lookup_insert_ne].
Qed.

Section updates.
Context (d : diff) (s : CState T) (Hd : rep_diff d s).

Lemma rep_SetTimestamp t : rep_diff (d_SetTimestamp C t d) (set_timestamp t s).
Proof. layer Hd. Qed.
Lemma rep_SetFeeState f : rep_diff (d_SetFeeState C f d) (set_fee f s).
Proof. layer Hd. Qed.
Lemma rep_SetL1ValidatorExcess e : rep_diff (d_SetL1ValidatorExcess C e d) (set_excess e s).
Proof. layer Hd. Qed.
Lemma rep_SetAccruedFees f : rep_diff (d_SetAccruedFees C f d) (set_accrued f s).
Proof. layer Hd. Qed.
Lemma rep_SetCurrentSupply id x : rep_diff (d_SetCurrentSupply C id x d) (set_supply (<[id := x]> (c_supply s)) s).
Proof. layer Hd. by apply put_at. Qed.
Lemma rep_PutExpiry e : rep_diff (d_PutExpiry C e d) (set_expiry ({[e]} ∪ c_expiry s) s).
Proof. layer Hd. eapply expiry_ext, expiry_put; [|done]. set_solver. Qed.
Lemma rep_DeleteExpiry e : rep_diff (d_DeleteExpiry C e d) (set_expiry (c_expiry s ∖ {[e]}) s).
Proof. layer Hd. eapply expiry_ext, expiry_delete; [|done]. set_solver. Qed.
Lemma rep_AddSubnet id : rep_diff (d_AddSubnet C id d) (set_subnets (c_subnets s ++ [id]) s).
Proof. layer Hd. rewrite app_assoc. by f_equal. Qed.
Lemma rep_SetSubnetOwner id o : rep_diff (d_SetSubnetOwner C id o d) (set_owners (<[id := o]> (c_owners s)) s).
Proof. layer Hd. by apply put_at. Qed.
Lemma rep_SetSubnetToL1Conversion id v : rep_diff (d_SetSubnetToL1Conversion C id v d) (set_conversions (<[id := v]> (c_conversions s)) s).
Proof. layer Hd. by apply put_at. Qed.
Lemma rep_AddTx tx st : rep_diff (d_AddTx C tx st d) (set_txs (<[Tx_ID tx := (tx, st)]> (c_txs s)) s).
Proof. layer Hd; [by apply put_at|]. intros id x. rewrite lookup_insert_Some. intros [[<- <-]|[_ Hx]]; [done|by eapply ro_tx_key0]. Qed.
Lemma rep_AddRewardUTXO id u : rep_diff (d_AddRewardUTXO C id u d) (set_reward_utxos (snoc_at id u (c_reward_utxos s)) s).
Proof. layer Hd. by apply snoc_over. Qed.
Lemma rep_AddUTXO u : rep_diff (d_AddUTXO C u d) (set_utxos (<[InputID u := u]> (c_utxos s)) s).
Proof.
  layer Hd; [rewrite override_insert; by f_equal|]. intros id u'. rewrite lookup_insert_Some. intros [[<- [= <-]]|[_ Hx]]; [done|by eapply ro_utxo_key0].
Qed.
Lemma rep_DeleteUTXO id : rep_diff (d_DeleteUTXO C id d) (set_utxos (delete id (c_utxos s)) s).
Proof. layer Hd; [rewrite override_insert; by f_equal|]. intros id' u. rewrite lookup_insert_Some. intros [[_ ?]|[_ Hx]]; [done|by eapply ro_utxo_key0]. Qed.

Lemma rep_AddSubnetTransformation tx id : transform_subnet tx = Some id ->
  wp never (d_AddSubnetTransformation C tx) (fun _ d' => rep_diff d' (set_transformations (<[id := tx]> (c_transformations s)) s)) d.
Proof.
  intros Htx. unfold d_AddSubnetTransformation. rewrite Htx. wp_steps. layer Hd; [by apply put_at|].
  intros id' x. rewrite lookup_insert_Some. intros [[<- <-]|[_ Hx]]; [done|by eapply ro_transformation_key0].
Qed.
Lemma rep_AddChain tx id : create_chain_subnet tx = Some id ->
  wp never (d_AddChain C tx) (fun _ d' => rep_diff d' (set_chains (snoc_at id tx (c_chains s)) s)) d.
Proof.
  intros Htx. unfold d_AddChain. rewrite Htx. wp_steps. layer Hd; [by apply snoc_over|].
  intros id' l x. unfold append_at. rewrite lookup_insert_Some. intros [[<- <-]|[_ Hx]]; [|by eapply ro_chain_key0].
  rewrite elem_of_app, list_elem_of_singleton. intros [Hl| ->]; [|done]. destruct (addedChains C d !! id) as [l'|] eqn:Hid; [by eapply ro_chain_key0|by apply elem_of_nil in Hl].
Qed.
Lemma rep_SetDelegateeReward id n a : is_Some (c_rewards s !! (id, n)) ->
  wp db_fault (d_SetDelegateeReward C id n a) (fun _ d' => rep_diff d' (set_rewards (<[(id, n) := a]> (c_rewards s)) s)) d.
Proof.
  intros Hs. unfold d_SetDelegateeReward. wp_steps. layer Hd.
  - intros id' n'. unfold over2. rewrite lookup2_insert2. case_bool_decide as Hc; [destruct Hc as [-> ->]; by rewrite lookup_insert_eq|].
    rewrite lookup_insert_ne by (intros [= -> ->]; by apply Hc). apply ro_rewards0.
  - intros id' n'. rewrite lookup2_insert2. case_bool_decide as Hc; [|apply ro_reward_known0]. destruct Hc as [-> ->]. intros _.
    rewrite ro_rewards0 in Hs. unfold over2 in Hs. destruct (lookup2 _ id n) eqn:Hl; [by apply ro_reward_known0; rewrite Hl|done].
Qed.

Lemma rep_PutL1Validator v : is_u64 (L_Weight v) -> (c_l1 s !! ValidationID v = None -> ~ c_l1_used s (ValidationID v)) ->
  wp (fun e => db_fault e \/ l1_put (c_l1 s) (vals (c_view Current s)) v = Err e) (d_PutL1Validator C v)
    (fun _ d' => exists L', l1_put (c_l1 s) (vals (c_view Current s)) v = Ok L' /\ rep_diff d' (set_l1 L' (fun id => c_l1_used s id \/ id = ValidationID v) s)) d.
Proof.
  intros Hv Hn. pose proof (diff_queries_ok d s Hd) as Hq. unfold d_PutL1Validator. wp_steps.
  destruct Hd as (Hp & Hr & Ho). pose proof (ro_wf0 _ _ _ Ho) as Hw0.
  assert (c_l1 s !! ValidationID v = None -> c_l1 s0 !! ValidationID v = None) as Hre.
  { intros Hno. apply eq_None_not_Some. intros Hso. by apply (Hn Hno), (ro_l1_used _ _ _ Ho), (wc_l1_used _ Hw0). }
  pose proof (putL1_spec _ _ _ _ _ v (ro_l1 _ _ _ Ho) Hq Hv Hre) as Hput. destruct (putL1Validator _ _ _) as [x|e] eqn:Hpx; [|done].
  destruct Hput as (L' & HL & Hi'). wp_steps. exists L'. split; [done|]. split; [exact Hp|split; [exact Hr|]].
  pose proof (l1_put_upd _ _ _ _ HL) as HL'. destruct Ho. constructor; cbn; try done.
  - intros id. rewrite HL', lookup_upd. case_bool_decide; [by right|]. intros. left. by apply ro_l1_wf0.
  - intros id Hid. left. by apply ro_l1_used0.
  - intros id. rewrite (putL1_modified _ _ _ _ Hpx), lookup_insert_is_Some. destruct (decide (ValidationID v = id)) as [<-|Hne].
    + intros _. split; [by right|]. intros Hno Hu. destruct (modified (l1ValidatorsDiff C d) !! ValidationID v) as [w|] eqn:Hm.
      * by apply (ro_l1_new0 (ValidationID v)).
      * apply Hn; [|by apply ro_l1_used0]. by rewrite (li_same _ _ _ ro_l2 _ Hm).
    + intros [?|[_ Hid]]; [done|]. destruct (ro_l1_new0 id Hid). by split; [left|].
Qed.
End updates.

(** ** Stakers *)
Lemma status_changed d (x : Staker PublicKey) f a b id n : status (changed d x f a b) id n =
  if bool_decide (id = SubnetID x /\ n = NodeID x) then validatorStatus (f (dv d id n)) else status d id n.
Proof. unfold status. rewrite dv_changed. by case_bool_decide. Qed.

Lemma over_put_validator d o s x : stakers_over d o s -> vals (s_view s) (SubnetID x) (NodeID x) = None -> ~ s_used s (TxID x) ->
  match diff_PutValidator x d with
  | (d', Ok _) => ~ s_refuse s (SubnetID x) (NodeID x) /\ stakers_over d' o (put_val x s)
  | (_, Err e) => e = ErrAddingStakerAfterDeletion /\ s_refuse s (SubnetID x) (NodeID x)
  end.
Proof.
  intros (A & Hi & Hsub & Hnew & Href) Hno Hu. pose proof (diff_Put_validator _ _ _ _ _ x Hi Hno Hu) as Hput.
  rewrite diff_PutValidator_eq in *. case_bool_decide as Hst; [by split; [|apply Href]|]. split; [by rewrite Href|].
  destruct Hput as [_ Hi']. exists A. cbn. split_and!; [done|naive_solver| |].
  - intros y [Hy|[Hsy Hy]]; [apply Hnew; by left|]. rewrite status_changed in Hsy. unfold is_validator in Hy. cbn in Hy. case_bool_decide.
    + injection Hy as <-. intros Hx. by apply Hu, Hsub.
    + apply Hnew. by right.
  - intros id n. rewrite Href, status_changed. case_bool_decide as Hn; [|done]. destruct Hn as [-> ->]. by split.
Qed.
Lemma over_delete_validator d o s x : stakers_over d o s -> is_validator (s_view s) x ->
  exists d' r, diff_DeleteValidator x d = (d', Ok tt) /\ stakers_over d' o (delete_val x r s) /\ forall id n, r id n -> s_refuse s id n \/ at_node id n x.
Proof.
  intros (A & Hi & Hsub & Hnew & Href) Hx. destruct (diff_Delete_validator _ _ _ _ _ x Hi Hx) as (d' & Hd & Hi').
  assert (exists f a b, d' = changed d x f a b /\ validatorStatus (f (dv d (SubnetID x) (NodeID x))) <> added) as (f & a & b & Heq & Hna).
  { rewrite diff_DeleteValidator_eq in Hd. case_bool_decide.
    - destruct (addedStakers d), (validator (dv d (SubnetID x) (NodeID x))); try done. injection Hd as <-. by eexists _, _, _.
    - injection Hd as <-. by eexists _, _, _. }
  exists d', (fun id n => status d' id n = deleted). split; [done|]. split.
  - exists A. cbn. split_and!; [done|done| |done]. intros y [Hy|[Hsy Hy]]; apply Hnew; [by left|right].
    rewrite Heq, status_changed in Hsy. unfold is_validator in Hy. cbn in Hy. by case_bool_decide.
  - intros id n. rewrite Heq, status_changed. unfold at_node. case_bool_decide as Hn; [destruct Hn; naive_solver|]. rewrite Href. naive_solver.
Qed.
Lemma over_put_delegator d o s x : stakers_over d o s -> ~ s_used s (TxID x) ->
  exists d', diff_PutDelegator x d = (d', Ok tt) /\ stakers_over d' o (put_del x s).
Proof.
  intros (A & Hi & Hsub & Hnew & Href) Hu. destruct (diff_Put_delegator _ _ _ _ _ x Hi Hu) as (d' & Hd & Hi'). exists d'. split; [done|].
  rewrite diff_PutDelegator_eq in Hd. injection Hd as <-. eexists. cbn. split; [exact Hi'|]. split_and!; [naive_solver| |].
  - intros y [[Hy| ->]|[Hsy Hy]]; [apply Hnew; by left|intros Hx; by apply Hu, Hsub|]. apply Hnew. right. split; [|done].
    rewrite status_changed in Hsy. by case_bool_decide.
  - intros id n. rewrite Href, status_changed. by case_bool_decide.
Qed.
Lemma over_delete_delegator d o s x : stakers_over d o s -> dels (s_view s) x ->
  exists d', diff_DeleteDelegator x d = (d', Ok tt) /\ stakers_over d' o (delete_del x s).
Proof.
  intros (A & Hi & Hsub & Hnew & Href) Hx. destruct (diff_Delete_delegator _ _ _ _ _ x Hi Hx) as (d' & Hd & Hi'). exists d'. split; [done|].
  rewrite diff_DeleteDelegator_eq in Hd. injection Hd as <-. exists A. cbn. split_and!; [done|done| |].
  - intros y [Hy|[Hsy Hy]]; apply Hnew; [by left|right]. split; [|done]. rewrite status_changed in Hsy. by case_bool_decide.
  - intros id n. rewrite Href, status_changed. by case_bool_decide.
Qed.

Section staker_updates.
Context (d : diff) (s : CState T) (k : Kind) (Hd : rep_diff d s).

Lemma rep_stakers x f : (stakers_over (stakerDiffs C d k) (c_stakers s0 k) (c_stakers s k) -> stakers_over x (c_stakers s0 k) (f (c_stakers s k))) ->
  rep_diff (d_stakerDiffs C (fun k' => if bool_decide (k' = k) then x else stakerDiffs C d k') d) (upd_stakers k f s).
Proof. intros Hx. layer Hd. intros k'. case_bool_decide; [subst; by apply Hx|apply ro_stakers0]. Qed.
Lemma rep_over_stakers : stakers_over (stakerDiffs C d k) (c_stakers s0 k) (c_stakers s k).
Proof. destruct Hd as (_ & _ & Ho). apply Ho. Qed.

Lemma rep_PutValidator x : vals (c_view k s) (SubnetID x) (NodeID x) = None -> ~ c_used k s (TxID x) ->
  wp (fun e => e = ErrAddingStakerAfterDeletion /\ c_refuse k s (SubnetID x) (NodeID x)) (d_PutValidator C k x)
    (fun _ d' => ~ c_refuse k s (SubnetID x) (NodeID x) /\ rep_diff d' (upd_stakers k (put_val x) s)) d.
Proof.
  intros Hno Hu. apply wp_zoom. unfold wp. pose proof (over_put_validator _ _ _ x rep_over_stakers Hno Hu) as Hput.
  destruct (diff_PutValidator x (stakerDiffs C d k)) as [x' [[]|e]]; [|done]. split; [apply Hput|]. apply rep_stakers. intros _. apply Hput.
Qed.
Lemma rep_DeleteValidator x : is_validator (c_view k s) x ->
  wp never (d_DeleteValidator C k x)
    (fun _ d' => exists r, rep_diff d' (upd_stakers k (delete_val x r) s) /\ forall id n, r id n -> c_refuse k s id n \/ at_node id n x) d.
Proof.
  intros Hx. apply wp_zoom. unfold wp. destruct Hd as (Hp & Hr & Ho). pose proof Ho as Ho'. destruct Ho'.
  destruct (over_delete_validator _ _ _ x (ro_stakers0 k) Hx) as (d' & r & Hdel & Hover & Hr'). rewrite Hdel. exists r. split; [|done].
  split; [done|split; [done|]]. constructor; cbn; try done. intros k'. case_bool_decide; [by subst|apply ro_stakers0].
Qed.
Lemma rep_PutDelegator x : ~ c_used k s (TxID x) -> wp never (d_PutDelegator C k x) (fun _ d' => rep_diff d' (upd_stakers k (put_del x) s)) d.
Proof.
  intros Hu. apply wp_zoom. unfold wp. rewrite diff_PutDelegator_eq. apply rep_stakers. intros Hs1.
  destruct (over_put_delegator _ _ _ x Hs1 Hu) as (d' & Hd' & Ho). rewrite diff_PutDelegator_eq in Hd'. by injection Hd' as <-.
Qed.
Lemma rep_DeleteDelegator x : dels (c_view k s) x -> wp never (d_DeleteDelegator C k x) (fun _ d' => rep_diff d' (upd_stakers k (delete_del x) s)) d.
Proof.
  intros Hx. apply wp_zoom. unfold wp. rewrite diff_DeleteDelegator_eq. apply rep_stakers. intros Hs1.
  destruct (over_delete_delegator _ _ _ x Hs1 Hx) as (d' & Hd' & Ho). rewrite diff_DeleteDelegator_eq in Hd'. by injection Hd' as <-.
Qed.
End staker_updates.

Lemma rep_diff_wf d s : rep_diff d s -> wf_chain s.
Proof.
  intros (Hp & Hr & Ho). split.
  - intros k. destruct (ro_stakers _ _ _ Ho k) as (A & Hi & _). split; [apply (di_wf _ _ _ _ _ Hi)|]. intros x Hx.
    apply (di_used _ _ _ _ _ Hi). apply (diff_members Hi) in Hx as [[?|[?|[_ ?]]] _]; tauto.
  - apply (li_wf _ _ _ (ro_l1 _ _ _ Ho)).
  - apply (ro_l1_wf _ _ _ Ho).
Qed.

Lemma diff_laws : ChainLaws diff rep_diff.
Proof.
  constructor.
  - apply rep_diff_wf.
  - intros d s (_ & _ & Ho). apply (ro_timestamp _ _ _ Ho).
  - intros. by apply rep_SetTimestamp.
  - intros d s (_ & _ & Ho). apply (ro_fee _ _ _ Ho).
  - intros. by apply rep_SetFeeState.
  - intros d s (_ & _ & Ho). apply (ro_excess _ _ _ Ho).
  - intros. by apply rep_SetL1ValidatorExcess.
  - intros d s (_ & _ & Ho). apply (ro_accrued _ _ _ Ho).
  - intros. by apply rep_SetAccruedFees.
  - intros. by apply diff_GetCurrentSupply.
  - intros. by apply rep_SetCurrentSupply.
  - intros. by apply diff_GetExpiryIterator.
  - intros. by apply diff_HasExpiry.
  - intros. by apply rep_PutExpiry.
  - intros. by apply rep_DeleteExpiry.
  - intros. by apply diff_GetActiveL1ValidatorsIterator.
  - intros. by apply diff_NumActiveL1Validators.
  - intros. by apply diff_WeightOfL1Validators.
  - intros. by apply diff_GetL1Validator.
  - intros. by apply diff_HasL1Validator.
  - intros. by apply rep_PutL1Validator.
  - intros. by apply diff_Get_validator.
  - intros. by apply diff_Get_delegator_iterator.
  - intros. by apply diff_Get_staker_iterator.
  - intros. by apply rep_PutValidator.
  - intros. by apply rep_DeleteValidator.
  - intros. by apply rep_PutDelegator.
  - intros. by apply rep_DeleteDelegator.
  - intros. by apply rep_SetDelegateeReward.
  - intros. by apply diff_GetDelegateeReward.
  - intros. by apply rep_AddSubnet.
  - intros. by eapply diff_GetSubnetOwner.
  - intros. by apply rep_SetSubnetOwner.
  - intros. by apply diff_GetSubnetToL1Conversion.
  - intros. by apply rep_SetSubnetToL1Conversion.
  - intros. by apply diff_GetSubnetTransformation.
  - intros. by apply rep_AddSubnetTransformation.
  - intros. by apply rep_AddChain.
  - intros. by apply diff_GetTx.
  - intros. by apply rep_AddTx.
  - intros. by apply rep_AddRewardUTXO.
  - intros. by apply diff_GetUTXO.
  - intros. by apply rep_AddUTXO.
  - intros. by apply rep_DeleteUTXO.
Qed.
End layer.
End facts.
End ChainDiffFacts.
