(* ===== verification/ApplyFacts.v ===== *)
(** * Apply gives the state that the diff stands for
    On a state that holds what the parent of the diff holds, [Apply] ends with what the
    diff answers, whatever the order in which the runtime visits the maps, provided
    the changes are [applicable]. *)
From S2P Require Import Prelude SafeMath Monads Gas Sorting MapOrder BTree Iterators Stakers StakersFacts L1Validators Chain ChainDiff.

(** ** Apply
    [Apply] makes the changes of a diff on another state, in an order that the
    runtime picks.  On a state that holds what the parent of the diff holds it gives
    what the diff stands for, under conditions on the changes that [applicable]
    lists; they are what the order of the operations needs. *)
Module ChainApply.
Import Sorting BTree Iterators KeyedTrees Stakers StakersFacts L1Validators L1Facts Chain ChainDiff ChainDiffFacts.

(** ** Loops *)
Section loops.
Context {B : Type} (ok : StateErr -> Prop).

(** A loop over the lists of a map. *)
Lemma wp_forM_lists {A : Type} {HO : KeyOrder ID} (m : gmap ID (list A)) (f : ID -> A -> M B StateErr unit) (R : (ID -> list A) -> B -> Prop) g0 b :
  (forall g id l a b, m !! id = Some l -> a ∈ l -> R g b -> wp ok (f id a) (fun _ => R (snoc_at id a g)) b) ->
  R g0 b -> wp ok (forM (entries m) (fun x => forM x.2 (f x.1))) (fun _ b' => exists g, R g b' /\ forall id, g id = g0 id ++ default [] (m !! id)) b.
Proof.
  intros Hf Hb.
  eapply wp_mono; [apply (wp_forM ok _ _ (fun done b => exists g, R g b /\ forall id, g id = if decide (id ∈ done.*1) then g0 id ++ default [] (m !! id) else g0 id))|].
  - exists g0. split; [done|]. intros id. by rewrite decide_False by apply not_elem_of_nil.
  - intros done [id l] rest b' Heq (g & Hg & Hgid). cbn.
    assert (m !! id = Some l) as Hid by (apply elem_of_entries; rewrite Heq, elem_of_app, elem_of_cons; tauto).
    assert (id ∉ done.*1) as Hni.
    { pose proof (entries_keys_nodup m) as Hnd. rewrite Heq, fmap_app, fmap_cons, NoDup_app in Hnd. destruct Hnd as (_ & Hd & _). intros Hin. apply (Hd id Hin). by left. }
    eapply wp_mono; [apply (wp_forM ok l (f id) (fun dl b => exists g, R g b /\ forall id', g id' =
      if decide (id' = id) then g0 id ++ dl else if decide (id' ∈ done.*1) then g0 id' ++ default [] (m !! id') else g0 id'))|].
    + exists g. split; [done|]. intros id'. rewrite Hgid. destruct (decide (id' = id)) as [->|]; [|done]. by rewrite decide_False, app_nil_r.
    + intros dl a rl b2 Hl (g' & Hg' & Hgid'). eapply wp_mono; [eapply Hf; [done| |done]; rewrite Hl, elem_of_app, elem_of_cons; tauto|].
      intros [] b3 HR. eexists. split; [exact HR|]. intros id'. unfold snoc_at. rewrite Hgid'. destruct (decide (id' = id)) as [->|Hne].
      * by rewrite bool_decide_true, app_assoc.
      * by rewrite bool_decide_false.
    + cbn. intros [] b2 (g' & Hg' & Hgid'). exists g'. split; [done|]. intros id'. rewrite Hgid', fmap_app. cbn. destruct (decide (id' = id)) as [->|Hne].
      * by rewrite decide_True, Hid by set_solver.
      * by destruct (decide (id' ∈ done.*1)), (decide (id' ∈ done.*1 ++ [id])); try done; set_solver.
  - cbn. intros [] b' (g & Hg & Hgid). exists g. split; [done|]. intros id. rewrite Hgid. case_decide as Hin; [done|].
    destruct (m !! id) as [l|] eqn:Hid; [|by rewrite app_nil_r]. destruct Hin. apply list_elem_of_fmap. exists (id, l). by rewrite elem_of_entries.
Qed.
End loops.
End ChainApply.

(** ** Applying the changes of the L1 validators
    While [Apply] puts the changed L1 validators one by one, the set of the base
    state holds the new value of those that are done and the old value of the
    others; here is when every such step succeeds. *)
Module ApplyL1.
Import Sorting BTree Iterators KeyedTrees Stakers StakersFacts L1Validators L1Facts Chain ChainDiff ChainApply.

Lemma msum_mono {K} `{Countable K} (m m' : gmap K Z) : (forall k, default 0 (m !! k) <= default 0 (m' !! k)) -> msum m <= msum m'.
Proof.
  revert m'. induction m as [|k c m Hk IH] using map_ind; intros m' Hle.
  - rewrite msum_empty. apply msum_nonneg. intros k c Hc. specialize (Hle k). by rewrite lookup_empty, Hc in Hle.
  - rewrite msum_insert_None by done. pose proof (IH (delete k m')) as Hd. rewrite msum_delete_default in Hd.
    pose proof (Hle k) as Hck. rewrite lookup_insert_eq in Hck. cbn in Hck. enough (msum m <= msum m' - default 0 (m' !! k)) by lia. apply Hd.
    intros k'. destruct (decide (k' = k)) as [->|Hne]; [by rewrite Hk, lookup_delete_eq|]. rewrite lookup_delete_ne by done.
    specialize (Hle k'). by rewrite lookup_insert_ne in Hle.
Qed.

(** The most that a subnet can weigh while the validators of [L0] become those of
    [L]: each one that stays counts with the larger of its weights. *)
Definition peak (L0 L : gmap ID L1Validator) (s : ID) : Z :=
  msum (map_imap (fun id v => if bool_decide (L_SubnetID v = s) then Some (Z.max (L_Weight v) (default 0 (L_Weight <$> L0 !! id))) else None) L).

Section step.
Context `{BTreeLaws L1Validator} {PK : Type}.
Variables (L0 L : gmap ID L1Validator) (d : L1Validators.l1ValidatorsDiff) (V : ID -> ID -> option (Staker PK)).
Hypothesis (Hi : l1_inv L0 L d).
Hypothesis (Hpeak : forall s, peak L0 L s <= MaxUint64).
(** A new validator is not on the node of a validator of the old set. *)
Hypothesis (HV : forall id v, modified d !! id = Some v -> L0 !! id = None -> V (L_SubnetID v) (L_NodeID v) = None).
Hypothesis (Hstale : forall id v, modified d !! id = Some v -> isDeleted v = true -> L0 !! id = None -> has_node L0 (L_SubnetID v) (L_NodeID v) = false).

(** [X] has the new values at [P], and the old ones elsewhere. *)
Definition mixed (P : ID -> Prop) (X : gmap ID L1Validator) : Prop :=
  (forall id, P id -> is_Some (modified d !! id) /\ X !! id = L !! id) /\ forall id, ~ P id -> X !! id = L0 !! id.
(** The deletions come first. *)
Definition staged (P : ID -> Prop) : Prop :=
  (forall id, P id -> L !! id = None) \/ forall id v, modified d !! id = Some v -> isDeleted v = true -> P id.

(** An entry that stays has the same subnet and node. *)
Lemma stays id v0 v : L0 !! id = Some v0 -> L !! id = Some v -> on_node (L_SubnetID v) (L_NodeID v) v0.
Proof.
  intros Hv0 Hv. destruct (modified d !! id) as [w|] eqn:Hm.
  - destruct (li_modified _ _ _ Hi _ _ Hm) as (Hid & _ & HL). rewrite Hv in HL. destruct (isDeleted w); [done|]. injection HL as ->.
    pose proof (li_immutable _ _ _ Hi _ _ _ Hm Hv0) as Him. apply immutable_spec in Him; [by split; apply Him|].
    destruct (wl_value _ (li_wf0 _ _ _ Hi) _ _ Hv0) as (-> & _). done.
  - rewrite (li_same _ _ _ Hi _ Hm) in Hv. rewrite Hv in Hv0. by injection Hv0 as ->.
Qed.
Lemma gone id v0 : L0 !! id = Some v0 -> L !! id = None -> exists v, modified d !! id = Some v /\ isDeleted v = true.
Proof.
  intros Hv0 Hno. destruct (modified d !! id) as [w|] eqn:Hm.
  - exists w. split; [done|]. destruct (li_modified _ _ _ Hi _ _ Hm) as (_ & _ & HL). rewrite Hno in HL. by destruct (isDeleted w).
  - rewrite (li_same _ _ _ Hi _ Hm) in Hno. congruence.
Qed.

Lemma mixed_total P `{!forall id, Decision (P id)} X s : mixed P X -> staged P -> total X s <= MaxUint64.
Proof.
  intros [HP HN] [Hdel|Hdel].
  - etransitivity; [|apply (wl_total _ (li_wf0 _ _ _ Hi) s)]. apply msum_mono. intros id. rewrite !lookup_omap.
    destruct (decide (P id)) as [Hid|Hid]; [|by rewrite HN]. destruct (HP id Hid) as [_ ->]. rewrite (Hdel id Hid). cbn.
    destruct (L0 !! id) as [v|] eqn:Hv; [|done]. cbn. unfold weight_in. case_bool_decide; [|done]. cbn. apply (wl_value _ (li_wf0 _ _ _ Hi) _ _ Hv).
  - etransitivity; [|apply (Hpeak s)]. apply msum_mono. intros id. rewrite lookup_omap, map_lookup_imap.
    destruct (decide (P id)) as [Hid|Hid].
    + destruct (HP id Hid) as [_ ->]. destruct (L !! id) as [v|]; [|done]. cbn. unfold weight_in. case_bool_decide; cbn; lia.
    + rewrite (HN id Hid). destruct (L0 !! id) as [v0|] eqn:Hv0; cbn.
      * destruct (L !! id) as [v|] eqn:Hv; cbn; [|destruct (gone id v0 Hv0 Hv) as (w & Hw & Hwd); by destruct Hid; apply (Hdel id w)].
        destruct (stays id v0 v Hv0 Hv) as [Hs _]. unfold weight_in. rewrite Hs. case_bool_decide; cbn; lia.
      * destruct (L !! id) as [v|] eqn:Hv; cbn; [|done]. case_bool_decide; cbn; [|done]. destruct (wl_value _ (li_wf _ _ _ Hi) _ _ Hv) as (_ & [? _] & _). lia.
Qed.

(** A new validator finds its node free. *)
Lemma mixed_free P `{!forall id, Decision (P id)} X id v : mixed P X -> staged P -> modified d !! id = Some v -> L0 !! id = None ->
  ~ P id -> (isDeleted v = true -> forall id, P id -> L !! id = None) -> (isDeleted v = false -> forall id v, modified d !! id = Some v -> isDeleted v = true -> P id) ->
  has_node X (L_SubnetID v) (L_NodeID v) = false.
Proof.
  intros [HP HN] Hst Hm Hold Hid Hd1 Hd2. apply not_true_iff_false. rewrite has_node_true. intros (id' & w & Hw & Hon).
  destruct (isDeleted v) eqn:Hv.
  - pose proof (Hstale id v Hm Hv Hold) as Hno. apply not_true_iff_false in Hno. apply Hno. apply has_node_true. exists id', w. split; [|done].
    destruct (decide (P id')) as [Hp|Hp]; [destruct (HP id' Hp) as [_ HL]; rewrite HL, Hd1 in Hw by done; done|by rewrite <- HN].
  - destruct (li_modified _ _ _ Hi _ _ Hm) as (_ & _ & HL). rewrite Hv in HL. destruct (decide (P id')) as [Hp|Hp].
    + destruct (HP id' Hp) as [_ HL']. rewrite HL' in Hw. apply Hid. by rewrite <- (wl_node _ (li_wf _ _ _ Hi) id' id w v Hw HL) by (destruct Hon; by split; congruence).
    + rewrite (HN id' Hp) in Hw. destruct (L !! id') as [w'|] eqn:Hw'; [|destruct (gone id' w Hw Hw') as (u & Hu & Hud); by destruct Hp; apply (Hd2 eq_refl id' u)].
      assert (id' = id) as ->; [|congruence]. destruct (stays id' w w' Hw Hw') as [Hs Hn]. destruct Hon as [Hs' Hn'].
      apply (wl_node _ (li_wf _ _ _ Hi) id' id w' v Hw' HL). split; congruence.
Qed.

Lemma mixed_step P `{!forall id, Decision (P id)} X id v : wf_l1 X -> mixed P X -> modified d !! id = Some v -> ~ P id ->
  (isDeleted v = true -> forall id, P id -> L !! id = None) -> (isDeleted v = false -> forall id v, modified d !! id = Some v -> isDeleted v = true -> P id) ->
  l1_put X V v = Ok (upd X v) /\ mixed (fun id' => P id' \/ id' = id) (upd X v).
Proof.
  intros Hw Hmix Hm Hid Hd1 Hd2. destruct (li_modified _ _ _ Hi _ _ Hm) as (Hvid & Hv & HL).
  assert (staged P) as Hst by (destruct (isDeleted v) eqn:E; [left; by apply Hd1|right; by apply Hd2]).
  assert (mixed (fun id' => P id' \/ id' = id) (upd X v)) as Hmix'.
  { destruct Hmix as [HP HN]. split; intros id'; rewrite lookup_upd, Hvid.
    - intros Hid'. case_bool_decide as Hc; [subst id'; split; [by rewrite Hm|done]|]. destruct Hid' as [?| ->]; [by apply HP|done].
    - intros Hno. rewrite bool_decide_false by tauto. apply HN. tauto. }
  split; [|exact Hmix'].
  assert (exists w, prior_weight X V v = Ok w) as [w Hpw].
  { unfold prior_weight. rewrite Hvid. destruct Hmix as [HP HN]. rewrite (HN id Hid). destruct (L0 !! id) as [p|] eqn:Hp.
    - rewrite (li_immutable _ _ _ Hi _ _ _ Hm Hp). by eexists.
    - rewrite (HV id v Hm Hp). rewrite (mixed_free P X id v); [by eexists|done..]. }
  destruct (prior_weight_value X V v w Hw Hpw) as [_ Ht]. unfold l1_put. rewrite Hpw. cbn.
  assert (staged (fun id' => P id' \/ id' = id)) as Hst'.
  { destruct (isDeleted v) eqn:E.
    - left. intros id' [?| ->]; [by apply Hd1|]. done.
    - right. intros id' v' ??. left. by apply (Hd2 eq_refl id' v'). }
  pose proof (mixed_total _ _ (L_SubnetID v) Hmix' Hst') as Hmax. rewrite (Ht (L_SubnetID v)), bool_decide_true in Hmax by done.
  destruct (Z.ltb_spec MaxUint64 (total X (L_SubnetID v) - w + L_Weight v)); [lia|]. by rewrite andb_false_r.
Qed.
Lemma mixed_ext P Q X : (forall id, P id <-> Q id) -> mixed P X -> mixed Q X.
Proof. intros HPQ [HP HN]. split; intros id; rewrite <- HPQ; auto. Qed.
End step.

Section apply.
Context {T : ChainTypes} `{BTreeLaws (Staker PublicKey)} `{BTreeLaws ExpiryEntry} `{BTreeLaws L1Validator}.
Context {B : Type} `{!Chain B} (rep : B -> CState T -> Prop) `{!ChainLaws B rep} {HO : KeyOrder ID}.
Variables (s : CState T) (L : gmap ID L1Validator) (d : L1Validators.l1ValidatorsDiff).
Abbreviation L0 := (c_l1 s).
Abbreviation V := (vals (c_view Current s)).
Hypothesis (Hi : l1_inv L0 L d).
Hypothesis (Hpeak : forall s, peak L0 L s <= MaxUint64).
Hypothesis (HV : forall id v, modified d !! id = Some v -> L0 !! id = None -> V (L_SubnetID v) (L_NodeID v) = None).
Hypothesis (Hstale : forall id v, modified d !! id = Some v -> isDeleted v = true -> L0 !! id = None -> has_node L0 (L_SubnetID v) (L_NodeID v) = false).
Hypothesis (Hfresh : forall id, is_Some (modified d !! id) -> L0 !! id = None -> ~ c_l1_used s id).

(** The base holds the new values at [P]. *)
Definition done_at (P : ID -> Prop) (b : B) : Prop :=
  exists X u, rep b (set_l1 X u s) /\ mixed L0 L d P X /\ forall id, u id -> c_l1_used s id \/ P id.

Lemma put_at_l1 P `{!forall id, Decision (P id)} b id v : done_at P b -> modified d !! id = Some v -> ~ P id ->
  (isDeleted v = true -> forall id, P id -> L !! id = None) -> (isDeleted v = false -> forall id v, modified d !! id = Some v -> isDeleted v = true -> P id) ->
  wp db_fault (PutL1Validator v) (fun _ => done_at (fun id' => P id' \/ id' = id)) b.
Proof.
  intros (X & u & Hr & Hmix & Hu) Hm Hid Hd1 Hd2. destruct (li_modified _ _ _ Hi _ _ Hm) as (Hvid & Hv & _).
  assert (wf_l1 X) as HwX by exact (wc_l1 _ (law_wf _ _ Hr)).
  destruct (mixed_step L0 L d V Hi Hpeak HV Hstale P X id v HwX Hmix Hm Hid Hd1 Hd2) as [Hput Hmix'].
  assert (X !! id = L0 !! id) as HX by (by apply Hmix).
  eapply wp_mono; [eapply wp_weaken; [|apply (law_PutL1Validator _ _ v Hr Hv)]|].
  - cbn. rewrite Hput. by intros e [?|?].
  - cbn. rewrite Hvid, HX. intros Hno Hui. destruct (Hu id Hui) as [Hs|?]; [|done]. by apply (Hfresh id); [rewrite Hm|..].
  - cbn. intros [] b' (L' & HL' & Hr'). rewrite Hput in HL'. injection HL' as <-. eexists _, _. split; [exact Hr'|]. split; [done|].
    intros id'. rewrite Hvid. intros [Hu'| ->]; [|by right; right]. destruct (Hu id' Hu'); [by left|by right; left].
Qed.

(** The changed validators that are deleted, or that are not. *)
Definition flagged (b : bool) (id : ID) : Prop := match modified d !! id with Some v => isDeleted v = b | None => False end.
#[local] Instance flagged_dec b id : Decision (flagged b id).
Proof. unfold flagged. destruct (modified d !! id); apply _. Defined.
Lemma flagged_spec b id : flagged b id <-> exists v, modified d !! id = Some v /\ isDeleted v = b.
Proof. unfold flagged. destruct (modified d !! id); naive_solver. Qed.

(** One of the two loops: over the deleted ones, or over the others. *)
Lemma l1_pass (b : bool) (cond : L1Validator -> bool) P0 `{!forall id, Decision (P0 id)} base : (forall v, cond v = true <-> isDeleted v = b) ->
  (b = true -> forall id, ~ P0 id) -> (forall id v, modified d !! id = Some v -> isDeleted v = b -> ~ P0 id) ->
  (b = false -> forall id v, modified d !! id = Some v -> isDeleted v = true -> P0 id) -> done_at P0 base ->
  wp db_fault (forM (entries (modified d)) (fun x => when (cond x.2) (PutL1Validator x.2)))
    (fun _ => done_at (fun id => P0 id \/ flagged b id)) base.
Proof.
  intros Hc Hfst Hnew Hsnd Hbase.
  eapply wp_mono; [apply (wp_forM _ _ _ (fun done => done_at (fun id => P0 id \/ id ∈ (filter (fun x => isDeleted x.2 = b) done).*1)))|].
  - destruct Hbase as (X & u & Hr & Hmix & Hu). exists X, u. split; [done|]. split; [|intros id ?; destruct (Hu id); tauto].
    eapply mixed_ext; [|exact Hmix]. intros id. cbn. rewrite elem_of_nil. tauto.
  - intros done [id v] rest b' Heq Hdone. cbn.
    assert (forall id v, (id, v) ∈ done -> modified d !! id = Some v) as Hin by (intros; apply elem_of_entries; rewrite Heq, elem_of_app; tauto).
    assert (modified d !! id = Some v) as Hm by (apply elem_of_entries; rewrite Heq, elem_of_app, elem_of_cons; tauto).
    assert (id ∉ done.*1) as Hni.
    { pose proof (entries_keys_nodup (modified d)) as Hnd. rewrite Heq, fmap_app, fmap_cons, NoDup_app in Hnd. destruct Hnd as (_ & Hd & _). intros Hid. apply (Hd id Hid). by left. }
    assert (forall id', id' ∈ (filter (fun x => isDeleted x.2 = b) done).*1 -> exists v', modified d !! id' = Some v' /\ isDeleted v' = b /\ id' ∈ done.*1) as Hf.
    { intros id' ([k v'] & -> & [Hdel Hk]%list_elem_of_filter)%list_elem_of_fmap. exists v'. split_and!; [by apply Hin|done|]. apply list_elem_of_fmap. by exists (k, v'). }
    destruct (decide (isDeleted v = b)) as [Hdel|Hdel].
    + rewrite (proj2 (Hc v) Hdel). cbn. eapply wp_mono; [eapply (put_at_l1 _ _ id v Hdone Hm)|].
      * intros [Hp|Hp]; [by apply (Hnew id v)|]. by destruct (Hf id Hp) as (? & _ & _ & ?).
      * rewrite Hdel. intros Hb id' [Hp|Hp]; [by destruct (Hfst Hb id')|]. destruct (Hf id' Hp) as (v' & Hv' & Hdv' & _).
        destruct (li_modified _ _ _ Hi _ _ Hv') as (_ & _ & ->). by rewrite Hdv', Hb.
      * rewrite Hdel. intros Hb id' v' Hv' Hdv'. left. by apply (Hsnd Hb id' v').
      * cbn. intros [] b2 (X & u & Hr & Hmix & Hu).
        assert (forall id', (P0 id' \/ id' ∈ (filter (fun x => isDeleted x.2 = b) done).*1) \/ id' = id <->
          P0 id' \/ id' ∈ (filter (fun x => isDeleted x.2 = b) (done ++ [(id, v)])).*1) as Hext.
        { intros id'. rewrite filter_app, fmap_app, elem_of_app, filter_cons_True by done. cbn. rewrite list_elem_of_singleton. tauto. }
        exists X, u. split; [done|]. split; [eapply mixed_ext; [exact Hext|exact Hmix]|]. intros id' Hid'. rewrite <- Hext. by apply Hu.
    + assert (cond v = false) as -> by (apply not_true_iff_false; by rewrite Hc). unfold when, mret, M_ret, wp.
      rewrite filter_app, filter_cons_False by done. cbn. by rewrite app_nil_r.
  - cbn. intros [] b' (X & u & Hr & Hmix & Hu).
    assert (forall id, P0 id \/ id ∈ (filter (fun x => isDeleted x.2 = b) (entries (modified d))).*1 <->
      P0 id \/ flagged b id) as Hext.
    { intros id. rewrite flagged_spec. f_equiv. rewrite list_elem_of_fmap. split.
      - intros ([k v] & -> & [Hdel Hk]%list_elem_of_filter). exists v. by rewrite elem_of_entries in Hk.
      - intros (v & Hv & Hdel). exists (id, v). by rewrite list_elem_of_filter, elem_of_entries. }
    exists X, u. split; [done|]. split; [eapply mixed_ext; [exact Hext|exact Hmix]|]. intros id Hid. rewrite <- Hext. by apply Hu.
Qed.

Lemma wp_apply_l1 base : rep base s -> wp db_fault (apply_l1 d) (fun _ b' => exists u, rep b' (set_l1 L u s)) base.
Proof.
  intros Hr. unfold apply_l1. apply wp_bind.
  assert (done_at (fun _ => False) base) as Hstart by (exists L0, (c_l1_used s); split_and!; [by destruct s|by split|tauto]).
  eapply wp_mono; [eapply (l1_pass true isDeleted (fun _ => False)); [done|by intros _ ? ?|by intros ? ? _ _ ?|done|exact Hstart]|]. cbn. intros [] b1 Hb1.
  eapply wp_mono; [eapply (l1_pass false (fun v => negb (isDeleted v)) (fun id => False \/ flagged true id)); [..|exact Hb1]|].
  - intros v. by rewrite negb_true_iff.
  - done.
  - intros id v Hv Hdel [[]|Hf]. unfold flagged in Hf. rewrite Hv in Hf. congruence.
  - intros _ id v Hv Hdel. right. apply flagged_spec. by exists v.
  - cbn. intros [] b2 (X & u & Hr2 & [HP HN] & _). exists u. assert (X = L) as <-; [|done]. apply map_eq. intros id.
    unfold flagged in HP, HN. specialize (HP id). specialize (HN id). destruct (modified d !! id) as [v|] eqn:Hm.
    + apply HP. destruct (isDeleted v); tauto.
    + rewrite (li_same _ _ _ Hi _ Hm). apply HN. tauto.
Qed.
End apply.
End ApplyL1.

(** ** Applying the changes of the stakers
    [Apply] goes over the nodes where stakers have changed: it puts or deletes the
    validator, puts the added delegators and deletes the deleted ones, among them
    those that the diff has itself added. *)
Module ApplyStakers.
Import Sorting BTree Iterators KeyedTrees Stakers StakersFacts L1Facts Chain ChainDiff ChainDiffFacts ChainApply.

(** The entries of a map of maps. *)
Section entries2.
Context {HO : KeyOrder ID} {A : Type} (m : nodes A).
Lemma elem_of_entries2 s n v : (s, n, v) ∈ entries2 m <-> lookup2 m s n = Some v.
Proof.
  unfold entries2, lookup2. rewrite list_elem_of_bind. split.
  - intros ([s' x] & Hin & Hm). apply list_elem_of_fmap in Hin as ([n' v'] & [= -> -> ->] & Hn). cbn in *.
    apply elem_of_entries in Hm as ->. cbn. by apply elem_of_entries.
  - destruct (m !! s) as [x|] eqn:Hs; [|done]. cbn. intros Hv. exists (s, x). split; [|by apply elem_of_entries].
    apply list_elem_of_fmap. exists (n, v). split; [done|]. by apply elem_of_entries.
Qed.
Lemma entries2_nodup : NoDup (entries2 m).*1.
Proof.
  unfold entries2. pose proof (entries_keys_nodup m) as Hnd. revert Hnd. generalize (entries m). intros l. induction l as [|[s x] l IH]; intros Hnd; [constructor|].
  cbn in Hnd |- *. apply NoDup_cons in Hnd as [Hni Hnd]. rewrite fmap_app, NoDup_app. split_and!; [|intros [s' n]|by apply IH].
  - rewrite <- list_fmap_compose. pose proof (entries_keys_nodup x) as Hx. revert Hx. generalize (entries x). intros lx. induction lx as [|[n v] lx IHx]; intros Hx; [constructor|].
    cbn in *. apply NoDup_cons in Hx as [Hn Hx]. constructor; [|by apply IHx]. intros ([n' v'] & [= ->] & Hin)%list_elem_of_fmap.
    apply Hn, list_elem_of_fmap. by exists (n', v').
  - intros (y & Hy & Hin)%list_elem_of_fmap Hl. apply list_elem_of_fmap in Hin as ([n' v'] & -> & Hin). cbn in Hy. injection Hy as -> ->.
    apply Hni. apply list_elem_of_fmap in Hl as (z & Hz & Hl). apply list_elem_of_bind in Hl as ([s2 x2] & Hl & Hin2).
    apply list_elem_of_fmap in Hl as ([n2 v2] & -> & _). cbn in Hz. injection Hz as -> ->. apply list_elem_of_fmap. by exists (s2, x2).
Qed.
End entries2.

Section apply.
Context {T : ChainTypes} `{BTreeLaws (Staker PublicKey)} `{BTreeLaws ExpiryEntry} `{BTreeLaws L1Validator}.
Context {B : Type} `{!Chain B} (rep : B -> CState T -> Prop) `{!ChainLaws B rep} {HO : KeyOrder ID}.
Variables (k : Kind) (s : CState T).

(** ** The stakers of the base while they change *)
(** The base differs from [s] in the stakers of the kind [k] alone: it has the
    validators [V] and the delegators [D]; [U] bounds what it has used, [R] what it
    refuses. *)
Definition stage (V : ID -> ID -> option (Staker PublicKey)) (D : Staker PublicKey -> Prop) (U : ID -> Prop) (R : ID -> ID -> Prop) (b : B) : Prop :=
  exists f, rep b (set_stakers f s) /\ (forall k', k' <> k -> f k' = c_stakers s k') /\
    (forall id n, vals (s_view (f k)) id n = V id n) /\ (forall x, dels (s_view (f k)) x <-> D x) /\
    (forall t, s_used (f k) t -> U t) /\ (forall id n, s_refuse (f k) id n -> R id n).

Lemma stage_mono V V' D D' U U' (R R' : ID -> ID -> Prop) b : (forall id n, V id n = V' id n) -> (forall x, D x <-> D' x) -> (forall t, U t -> U' t) ->
  (forall id n, R id n -> R' id n) -> stage V D U R b -> stage V' D' U' R' b.
Proof.
  intros HV HD HU HR (f & Hr & Hk & Hv & Hd & Hu & Hre). exists f. split_and!; [done|done|..].
  - intros id n. by rewrite Hv.
  - intros x. by rewrite Hd.
  - auto.
  - auto.
Qed.
Lemma stage_start b : rep b s -> stage (vals (c_view k s)) (dels (c_view k s)) (c_used k s) (c_refuse k s) b.
Proof. intros Hr. exists (c_stakers s). split_and!; try done. by destruct s. Qed.

Definition vals_at (V : ID -> ID -> option (Staker PublicKey)) (id n : ID) (o : option (Staker PublicKey)) : ID -> ID -> option (Staker PublicKey) :=
  fun id' n' => if bool_decide (id' = id /\ n' = n) then o else V id' n'.

Section ops.
Context (V : ID -> ID -> option (Staker PublicKey)) (D : Staker PublicKey -> Prop) (U : ID -> Prop) (R : ID -> ID -> Prop) (x : Staker PublicKey) (b : B).
Hypothesis (Hb : stage V D U R b).

Ltac stage_next := eexists; split; [eassumption|]; cbn; split; [intros k' Hk'; rewrite bool_decide_false by done; auto|rewrite bool_decide_true by done; cbn].

Lemma stage_put_validator : V (SubnetID x) (NodeID x) = None -> ~ U (TxID x) -> ~ R (SubnetID x) (NodeID x) ->
  wp never (PutValidator k x) (fun _ => stage (vals_at V (SubnetID x) (NodeID x) (Some x)) D (fun t => U t \/ t = TxID x) R) b.
Proof.
  destruct Hb as (f & Hr & Hk & Hv & Hd & Hu & Hre). intros HV HU HR.
  eapply wp_mono; [eapply wp_weaken; [|apply (law_PutValidator b _ k x Hr)]|].
  - cbn. intros e [_ He]. by apply HR, Hre.
  - cbn. by rewrite Hv.
  - cbn. intros Hux. by apply HU, Hu.
  - intros [] b' [_ Hr']. stage_next. split_and!; [|done| |done].
    + intros id n. unfold vals_at. by rewrite Hv.
    + naive_solver.
Qed.
Lemma stage_delete_validator : V (SubnetID x) (NodeID x) = Some x ->
  wp never (DeleteValidator k x) (fun _ => stage (vals_at V (SubnetID x) (NodeID x) None) D U (fun id n => R id n \/ at_node id n x)) b.
Proof.
  destruct Hb as (f & Hr & Hk & Hv & Hd & Hu & Hre). intros HV.
  eapply wp_mono; [apply (law_DeleteValidator b _ k x Hr); unfold is_validator; cbn; by rewrite Hv|].
  intros [] b' (r & Hr' & Hrr). stage_next. split_and!; [|done|done|].
  - intros id n. unfold vals_at. by rewrite Hv.
  - intros id n Hrn. destruct (Hrr id n Hrn); [left; by apply Hre|by right].
Qed.
Lemma stage_put_delegator : ~ U (TxID x) ->
  wp never (PutDelegator k x) (fun _ => stage V (fun y => D y \/ y = x) (fun t => U t \/ t = TxID x) R) b.
Proof.
  destruct Hb as (f & Hr & Hk & Hv & Hd & Hu & Hre). intros HU.
  eapply wp_mono; [apply (law_PutDelegator b _ k x Hr); cbn; intros Hux; by apply HU, Hu|].
  intros [] b' Hr'. stage_next. split_and!; [done| |naive_solver|done]. intros y. by rewrite Hd.
Qed.
Lemma stage_delete_delegator : D x -> wp never (DeleteDelegator k x) (fun _ => stage V (fun y => D y /\ y <> x) U R) b.
Proof.
  destruct Hb as (f & Hr & Hk & Hv & Hd & Hu & Hre). intros HD.
  eapply wp_mono; [apply (law_DeleteDelegator b _ k x Hr); cbn; by rewrite Hd|].
  intros [] b' Hr'. stage_next. split_and!; [done| |done|done]. intros y. by rewrite Hd.
Qed.
End ops.

(** ** One node *)
Variables (d : diffStakers (PK := PublicKey)) (w : view (PK := PublicKey)) (used : ID -> Prop) (A : Staker PublicKey -> Prop).
Abbreviation w0 := (c_view k s).
Hypothesis (Hi : diff_inv w0 used A d w).
Hypothesis (Hnew : forall x, A x \/ newly d w x -> ~ c_used k s (TxID x)).
Hypothesis (Hadm : forall id n, status d id n = added -> ~ c_refuse k s id n).

(** What the diff has added is told apart by the transaction IDs. *)
Lemma added_key x y : A x \/ newly d w x -> A y \/ newly d w y -> TxID x = TxID y -> x = y.
Proof.
  intros [Hx|Hx] [Hy|Hy] Heq.
  - by apply (di_key _ _ _ _ _ Hi).
  - by destruct (di_kind _ _ _ _ _ Hi x y Hx Hy).
  - by destruct (di_kind _ _ _ _ _ Hi y x Hy Hx).
  - apply (wf_key _ (di_wf _ _ _ _ _ Hi)); [left; apply Hx|left; apply Hy|done].
Qed.

Section node.
Variables (a n : ID) (V : ID -> ID -> option (Staker PublicKey)) (D : Staker PublicKey -> Prop) (U : ID -> Prop) (R : ID -> ID -> Prop) (b : B).
Hypothesis (Hb : stage V D U R b).

Lemma step_validator : V a n = vals w0 a n -> (forall x, newly d w x -> at_node a n x -> ~ U (TxID x)) -> (status d a n = added -> ~ R a n) ->
  wp never (apply_validator k (dv d a n))
    (fun _ => stage (vals_at V a n (vals w a n)) D (fun t => U t \/ exists x, newly d w x /\ at_node a n x /\ TxID x = t)
      (fun id m => R id m \/ id = a /\ m = n)) b.
Proof.
  intros HV HU HR. pose proof (di_status _ _ _ _ _ Hi a n) as Hst. unfold apply_validator. fold (status d a n). destruct (status d a n) eqn:Es.
  - apply wp_ret. eapply stage_mono; [| | | |exact Hb]; try tauto. intros id m. unfold vals_at. case_bool_decide as Hc; [|done].
    destruct Hc as [-> ->]. congruence.
  - destruct Hst as (x & -> & Hx & Hx0 & _). apply wp_bind, wp_must. exists x. split; [done|].
    destruct (wf_node _ (di_wf _ _ _ _ _ Hi) _ _ _ Hx) as [<- <-].
    assert (newly d w x) as Hnx by (split; [done|exact Hx]).
    eapply wp_mono; [apply (stage_put_validator V D U R x b Hb); [congruence|by apply HU|by apply HR]|].
    intros [] b'. rewrite Hx. apply stage_mono; try tauto. intros t [?| ->]; [by left|]. right. by exists x.
  - destruct Hst as (x & -> & Hx & Hx0). apply wp_bind, wp_must. exists x. split; [done|].
    destruct (wf_node _ (di_wf0 _ _ _ _ _ Hi) _ _ _ Hx0) as [<- <-].
    eapply wp_mono; [apply (stage_delete_validator V D U R x b Hb); congruence|].
    intros [] b'. rewrite Hx. apply stage_mono; try tauto. intros id m [?|[<- <-]]; tauto.
Qed.

Lemma step_added : (forall x, A x -> at_node a n x -> ~ U (TxID x)) ->
  wp never (forM (ToSlice (FromTree (addedDelegators (dv d a n)))) (PutDelegator k))
    (fun _ => stage V (fun y => D y \/ A y /\ at_node a n y) (fun t => U t \/ exists x, A x /\ at_node a n x /\ TxID x = t) R) b.
Proof.
  intros HU. destruct (lists_ToSlice Stakers.Less _ _ (lists_opt _ _ (di_tree _ _ _ _ _ Hi a n))) as [Hs Hin].
  apply (sorted_by_nodup Stakers.Less TxID) in Hs. revert Hs Hin. generalize (ToSlice (FromTree (addedDelegators (dv d a n)))). intros l Hnd Hin.
  eapply wp_mono; [apply (wp_forM _ _ _ (fun l => stage V (fun y => D y \/ y ∈ l) (fun t => U t \/ exists x, x ∈ l /\ TxID x = t) R))|].
  - eapply stage_mono; [| | | |exact Hb]; try tauto. intros x. rewrite elem_of_nil. tauto.
  - intros l1 x l2 b' -> Hb'. assert (A x /\ at_node a n x) as [Hx Hn] by (apply Hin; set_solver).
    eapply wp_mono; [apply (stage_put_delegator _ _ _ _ x b' Hb')|].
    + intros [Hux|(y & Hy & Heq)]; [by apply (HU x)|]. assert (A y /\ at_node a n y) as [HAy _] by (apply Hin; set_solver).
      assert (y = x) as -> by (apply (di_key _ _ _ _ _ Hi); done). apply NoDup_app in Hnd as (_ & Hd & _). apply (Hd x Hy). by left.
    + intros [] b2. apply stage_mono; try tauto.
      * intros y. rewrite elem_of_app, list_elem_of_singleton. tauto.
      * intros t [[?|(y & Hy & Heq)]| ->]; [by left|right; exists y; set_solver|right; exists x; set_solver].
  - cbn. intros [] b'. apply stage_mono; try tauto; [intros y; by rewrite Hin|].
    intros t [?|(x & Hx & Heq)]; [by left|]. right. exists x. apply Hin in Hx. tauto.
Qed.

Lemma step_deleted : (forall t x, deletedDelegators (dv d a n) !! t = Some x -> D x) ->
  wp never (forM (entries (deletedDelegators (dv d a n))) (fun x => DeleteDelegator k x.2))
    (fun _ => stage V (fun y => D y /\ ~ exists t, deletedDelegators (dv d a n) !! t = Some y) U R) b.
Proof.
  intros HD. set (m := deletedDelegators (dv d a n)) in *.
  assert (forall t x, m !! t = Some x -> TxID x = t) as Hkey by (intros t x Hx; by apply (di_deleted _ _ _ _ _ Hi a n t x)).
  eapply wp_mono; [apply (wp_forM _ _ _ (fun l => stage V (fun y => D y /\ y ∉ l.*2) U R))|].
  - eapply stage_mono; [| | | |exact Hb]; try tauto. intros x. pose proof (not_elem_of_nil x). tauto.
  - intros l1 [t x] l2 b' Heq Hb'. cbn. assert (m !! t = Some x) as Hm by (apply elem_of_entries; rewrite Heq; set_solver).
    eapply wp_mono; [apply (stage_delete_delegator _ _ _ _ x b' Hb')|].
    + split; [by apply (HD t)|]. intros ([t' x'] & -> & Hin)%list_elem_of_fmap. cbn in *.
      assert (m !! t' = Some x') as Hm' by (apply elem_of_entries; rewrite Heq; set_solver).
      apply Hkey in Hm, Hm'. subst t t'. pose proof (entries_nodup m) as Hnd. rewrite Heq in Hnd. apply NoDup_app in Hnd as (_ & Hd & _).
      apply (Hd _ Hin). by left.
    + intros [] b2. apply stage_mono; try tauto. intros y. rewrite fmap_app, elem_of_app. cbn. rewrite list_elem_of_singleton. tauto.
  - cbn. intros [] b'. apply stage_mono; try tauto. intros y. f_equiv. rewrite list_elem_of_fmap. split; intros Hno; contradict Hno.
    + destruct Hno as [t Ht]. exists (t, y). by rewrite elem_of_entries.
    + destruct Hno as ([t y'] & -> & Ht). exists t. by apply elem_of_entries.
Qed.
End node.

(** ** All nodes *)
(** The nodes of [l] are done. *)
Definition V_at (l : list (ID * ID)) (id n : ID) : option (Staker PublicKey) := if decide ((id, n) ∈ l) then vals w id n else vals w0 id n.
Definition D_at (l : list (ID * ID)) (x : Staker PublicKey) : Prop := if decide ((SubnetID x, NodeID x) ∈ l) then dels w x else dels w0 x.
Definition U_at (l : list (ID * ID)) (t : ID) : Prop :=
  c_used k s t \/ exists x, (A x \/ newly d w x) /\ (SubnetID x, NodeID x) ∈ l /\ TxID x = t.
Definition R_at (l : list (ID * ID)) (id n : ID) : Prop := c_refuse k s id n \/ (id, n) ∈ l.
Definition at_stage (l : list (ID * ID)) : B -> Prop := stage (V_at l) (D_at l) (U_at l) (R_at l).

(** What a node that is not done adds has not been used. *)
Lemma not_used l a n x : (a, n) ∉ l -> A x \/ newly d w x -> at_node a n x -> ~ U_at l (TxID x).
Proof.
  intros Hni Hx [<- <-] [Hu|(y & Hy & Hin & Heq)]; [by apply (Hnew x)|]. by rewrite (added_key y x Hy Hx Heq) in Hin.
Qed.
Lemma dels_node a n x : at_node a n x ->
  dels w x <-> (dels w0 x \/ A x) /\ ~ exists t, deletedDelegators (dv d a n) !! t = Some x.
Proof.
  intros Hn. rewrite (di_dels _ _ _ _ _ Hi x). destruct Hn as [-> ->]. split; intros [Hx Hno]; (split; [done|]).
  - intros [t Ht]. destruct (di_deleted _ _ _ _ _ Hi _ _ _ _ Ht) as (<- & _). congruence.
  - apply eq_None_not_Some. intros [y Hy]. apply Hno. exists (TxID x). destruct (di_deleted _ _ _ _ _ Hi _ _ _ _ Hy) as (Heq & _ & Hy').
    rewrite (known_key Hi x y) in Hy; [done| |tauto|done]. destruct Hx; [by left; right|by right; left].
Qed.

Lemma node_step l a n b : at_stage l b -> (a, n) ∉ l ->
  wp never (apply_node k (dv d a n)) (fun _ => at_stage (l ++ [(a, n)])) b.
Proof.
  intros Hb Hni. assert (forall id m, (id, m) ∈ l ++ [(a, n)] <-> (id, m) ∈ l \/ id = a /\ m = n) as Hl.
  { intros id m. rewrite elem_of_app, list_elem_of_singleton. naive_solver. }
  unfold apply_node. apply wp_bind. eapply wp_mono; [apply (step_validator a n _ _ _ _ b Hb)|].
  - unfold V_at. by rewrite decide_False.
  - intros x Hx Hn. by apply (not_used l a n x Hni); [right|].
  - intros Hst [Hr|?]; [|done]. by apply (Hadm a n).
  - intros [] b1 Hb1. apply wp_bind. eapply wp_mono; [apply (step_added a n _ _ _ _ b1 Hb1)|].
    { intros x Hx Hn [Hu|(y & Hy & _ & Heq)]; [by apply (not_used l a n x Hni); [left|..]|]. by apply (di_kind _ _ _ _ _ Hi x y). }
    intros [] b2 Hb2. eapply wp_mono; [apply (step_deleted a n _ _ _ _ b2 Hb2)|].
    { intros t x Hx. destruct (di_deleted _ _ _ _ _ Hi _ _ _ _ Hx) as (_ & Hn & [Hd|HA]); [left|by right].
      unfold D_at. destruct Hn as [-> ->]. by rewrite decide_False. }
    intros [] b3. apply stage_mono.
    + intros id m. unfold vals_at, V_at. case_bool_decide as Hc; [destruct Hc as [-> ->]; rewrite decide_True by (rewrite Hl; tauto); done|].
      destruct (decide ((id, m) ∈ l)), (decide ((id, m) ∈ l ++ [(a, n)])) as [Hin|Hin]; rewrite Hl in Hin; try tauto.
    + intros x. unfold D_at. destruct (decide (SubnetID x = a /\ NodeID x = n)) as [Hc|Hc].
      * pose proof (dels_node a n x Hc) as Hdn. destruct Hc as [Hc1 Hc2]. rewrite Hc1, Hc2. rewrite decide_False, decide_True by (rewrite ?Hl; tauto). unfold at_node. tauto.
      * assert (~ exists t, deletedDelegators (dv d a n) !! t = Some x) as Hno.
        { intros [t Ht]. destruct (di_deleted _ _ _ _ _ Hi _ _ _ _ Ht) as (_ & Hn & _). by apply Hc. }
        unfold at_node. destruct (decide ((SubnetID x, NodeID x) ∈ l)), (decide ((SubnetID x, NodeID x) ∈ l ++ [(a, n)])) as [Hin|Hin]; rewrite Hl in Hin; tauto.
    + intros t. unfold U_at, at_node.
      intros [[[?|(x & Hx & Hin & <-)]|(x & Hx & Hn & <-)]|(x & Hx & Hn & <-)]; [by left|right; exists x; rewrite Hl; tauto..].
    + intros id m. unfold R_at. rewrite Hl. tauto.
Qed.

Lemma wp_apply_stakers b : rep b s ->
  wp never (apply_stakers k d) (fun _ b' => exists f, rep b' (set_stakers f s) /\ (forall k', k' <> k -> f k' = c_stakers s k') /\ equal_views (s_view (f k)) w) b.
Proof.
  intros Hr. unfold apply_stakers.
  eapply wp_mono; [apply (wp_forM _ _ _ (fun l => at_stage l.*1))|].
  - eapply stage_mono; [| | | |by apply stage_start].
    + intros id n. unfold V_at. by rewrite decide_False by apply not_elem_of_nil.
    + intros x. unfold D_at. by rewrite decide_False by apply not_elem_of_nil.
    + intros t Ht. by left.
    + intros id n Hre. by left.
  - intros done [[a n] v] rest b' Heq Hb'. cbn. rewrite fmap_app. cbn.
    assert (v = dv d a n) as ->.
    { assert (lookup2 (validatorDiffs d) a n = Some v) as Hl by (apply elem_of_entries2; rewrite Heq; set_solver). unfold dv. by rewrite Hl. }
    apply node_step; [done|]. pose proof (entries2_nodup (validatorDiffs d)) as Hnd. rewrite Heq, fmap_app, fmap_cons, NoDup_app in Hnd.
    destruct Hnd as (_ & Hd & _). intros Hin. apply (Hd _ Hin). by left.
  - cbn. intros [] b' (f & Hr' & Hk & Hv & Hd & _). exists f. split; [done|]. split; [done|].
    assert (forall id n, (id, n) ∉ (entries2 (validatorDiffs d)).*1 -> dv d id n = newDiffValidator) as Hdv.
    { intros id n Hni. unfold dv. destruct (lookup2 (validatorDiffs d) id n) as [v|] eqn:Hl; [|done]. destruct Hni.
      apply list_elem_of_fmap. exists (id, n, v). split; [done|]. by apply elem_of_entries2. }
    split.
    + intros id n. rewrite Hv. unfold V_at. case_decide as Hin; [done|]. pose proof (di_status _ _ _ _ _ Hi id n) as Hst.
      unfold status in Hst. by rewrite (Hdv id n Hin) in Hst.
    + intros x. rewrite Hd. unfold D_at. case_decide as Hin; [done|]. rewrite (di_dels _ _ _ _ _ Hi x).
      pose proof (di_tree _ _ _ _ _ Hi (SubnetID x) (NodeID x)) as Ht. rewrite (Hdv _ _ Hin) in *. cbn. rewrite lookup_empty.
      cbn in Ht. unfold opt_items in Ht. pose proof (Ht x). unfold at_node in *. tauto.
Qed.
End apply.
End ApplyStakers.

(** ** Apply gives the state that the diff stands for
    The whole of [Apply]: on a state that holds what the parent of the diff holds,
    it ends with what the diff answers, whatever the order in which the runtime
    visits the maps, provided the changes are [applicable]; only a fault of the
    database can stop it. *)
Module ApplyFacts.
Import Sorting BTree Iterators KeyedTrees Stakers StakersFacts L1Validators L1Facts Chain ChainDiff ChainDiffFacts ChainApply ApplyL1 ApplyStakers.

Section apply.
Context {T : ChainTypes} `{BTreeLaws (Staker PublicKey)} `{BTreeLaws ExpiryEntry} `{BTreeLaws L1Validator}.
Context (C : Type) {B : Type} `{!Chain B} (rep : B -> CState T -> Prop) `{!ChainLaws B rep} {HO : KeyOrder ID} {HE : KeyOrder ExpiryEntry}.

(** States that answer every query alike. *)
Record same_chain (s s' : CState T) : Prop := {
  sc_timestamp : c_timestamp s = c_timestamp s';
  sc_fee : c_fee s = c_fee s';
  sc_excess : c_excess s = c_excess s';
  sc_accrued : c_accrued s = c_accrued s';
  sc_supply : c_supply s = c_supply s';
  sc_expiry : c_expiry s = c_expiry s';
  sc_l1 : c_l1 s = c_l1 s';
  sc_stakers k : equal_views (c_view k s) (c_view k s');
  sc_rewards : c_rewards s = c_rewards s';
  sc_subnets : c_subnets s = c_subnets s';
  sc_owners : c_owners s = c_owners s';
  sc_conversions : c_conversions s = c_conversions s';
  sc_transformations : c_transformations s = c_transformations s';
  sc_chains id : c_chains s id = c_chains s' id;
  sc_txs : c_txs s = c_txs s';
  sc_reward_utxos id : c_reward_utxos s id = c_reward_utxos s' id;
  sc_utxos : c_utxos s = c_utxos s';
}.

(** What the order of the operations needs: no validator is refused where the diff
    adds one; a new L1 validator is not on the node of a validator of the base, nor,
    if the diff has deleted it again, of an L1 validator of the base; and the weight
    of a subnet stays in range however the changes are ordered. *)
Record applicable (d : diff C) (s0 s : CState T) : Prop := {
  ap_refuse k id n : status (stakerDiffs C d k) id n = added -> ~ c_refuse k s0 id n;
  ap_legacy id v : modified (l1ValidatorsDiff C d) !! id = Some v -> c_l1 s0 !! id = None ->
    vals (c_view Current s0) (L_SubnetID v) (L_NodeID v) = None;
  ap_stale id v : modified (l1ValidatorsDiff C d) !! id = Some v -> isDeleted v = true -> c_l1 s0 !! id = None ->
    has_node (c_l1 s0) (L_SubnetID v) (L_NodeID v) = false;
  ap_peak id : peak (c_l1 s0) (c_l1 s) id <= MaxUint64;
}.

Section phases.
Variables (d : diff C) (s0 s : CState T).
Hypothesis (Ho : rep_over C d s0 s).

Lemma phase_supply s1 b : c_supply s1 = c_supply s0 -> rep b s1 ->
  wp db_fault (forM (entries (currentSupply C d)) (fun x => modify (SetCurrentSupply x.1 x.2))) (fun _ b' => rep b' (set_supply (c_supply s) s1)) b.
Proof.
  intros Hs Hr. apply (wp_forM_map _ _ (fun id => currentSupply C d !! id) _ (fun Y b => rep b (set_supply Y s1)) Some (c_supply s0)).
  - intros. apply elem_of_entries.
  - intros Y id x b' _ HR. apply wp_modify. by apply (law_SetCurrentSupply b' _ id x) in HR.
  - intros id. rewrite (ro_supply _ _ _ _ Ho), lookup_union. by destruct (currentSupply C d !! id), (c_supply s0 !! id).
  - rewrite <- Hs. by destruct s1.
Qed.
Lemma phase_owners s1 b : c_owners s1 = c_owners s0 -> rep b s1 ->
  wp db_fault (forM (entries (subnetOwners C d)) (fun x => modify (SetSubnetOwner x.1 x.2))) (fun _ b' => rep b' (set_owners (c_owners s) s1)) b.
Proof.
  intros Hs Hr. apply (wp_forM_map _ _ (fun id => subnetOwners C d !! id) _ (fun Y b => rep b (set_owners Y s1)) Some (c_owners s0)).
  - intros. apply elem_of_entries.
  - intros Y id x b' _ HR. apply wp_modify. by apply (law_SetSubnetOwner b' _ id x) in HR.
  - intros id. rewrite (ro_owners _ _ _ _ Ho), lookup_union. by destruct (subnetOwners C d !! id), (c_owners s0 !! id).
  - rewrite <- Hs. by destruct s1.
Qed.
Lemma phase_conversions s1 b : c_conversions s1 = c_conversions s0 -> rep b s1 ->
  wp db_fault (forM (entries (subnetToL1Conversions C d)) (fun x => modify (SetSubnetToL1Conversion x.1 x.2))) (fun _ b' => rep b' (set_conversions (c_conversions s) s1)) b.
Proof.
  intros Hs Hr. apply (wp_forM_map _ _ (fun id => subnetToL1Conversions C d !! id) _ (fun Y b => rep b (set_conversions Y s1)) Some (c_conversions s0)).
  - intros. apply elem_of_entries.
  - intros Y id x b' _ HR. apply wp_modify. by apply (law_SetSubnetToL1Conversion b' _ id x) in HR.
  - intros id. rewrite (ro_conversions _ _ _ _ Ho), lookup_union. by destruct (subnetToL1Conversions C d !! id), (c_conversions s0 !! id).
  - rewrite <- Hs. by destruct s1.
Qed.
Lemma phase_transformations s1 b : c_transformations s1 = c_transformations s0 -> rep b s1 ->
  wp db_fault (forM (entries (transformedSubnets C d)) (fun x => AddSubnetTransformation x.2)) (fun _ b' => rep b' (set_transformations (c_transformations s) s1)) b.
Proof.
  intros Hs Hr. apply (wp_forM_map _ _ (fun id => transformedSubnets C d !! id) _ (fun Y b => rep b (set_transformations Y s1)) Some (c_transformations s0)).
  - intros. apply elem_of_entries.
  - intros Y id x b' Hx HR. apply wp_never. exact (law_AddSubnetTransformation b' _ x id HR (ro_transformation_key _ _ _ _ Ho _ _ Hx)).
  - intros id. rewrite (ro_transformations _ _ _ _ Ho), lookup_union. by destruct (transformedSubnets C d !! id), (c_transformations s0 !! id).
  - rewrite <- Hs. by destruct s1.
Qed.
Lemma phase_txs s1 b : c_txs s1 = c_txs s0 -> rep b s1 ->
  wp db_fault (forM (entries (addedTxs C d)) (fun x => modify (AddTx x.2.1 x.2.2))) (fun _ b' => rep b' (set_txs (c_txs s) s1)) b.
Proof.
  intros Hs Hr. apply (wp_forM_map _ _ (fun id => addedTxs C d !! id) _ (fun Y b => rep b (set_txs Y s1)) Some (c_txs s0)).
  - intros. apply elem_of_entries.
  - intros Y id [x st] b' Hx HR. apply wp_modify. apply (law_AddTx b' _ x st) in HR. pose proof (ro_tx_key _ _ _ _ Ho _ _ Hx) as Hk. cbn in Hk. by rewrite Hk in HR.
  - intros id. rewrite (ro_txs _ _ _ _ Ho), lookup_union. by destruct (addedTxs C d !! id), (c_txs s0 !! id).
  - rewrite <- Hs. by destruct s1.
Qed.
Lemma phase_utxos s1 b : c_utxos s1 = c_utxos s0 -> rep b s1 ->
  wp db_fault (forM (entries (modifiedUTXOs C d)) (fun x => modify (match x.2 with Some u => AddUTXO u | None => DeleteUTXO x.1 end)))
    (fun _ b' => rep b' (set_utxos (c_utxos s) s1)) b.
Proof.
  intros Hs Hr. apply (wp_forM_map _ _ (fun id => modifiedUTXOs C d !! id) _ (fun Y b => rep b (set_utxos Y s1)) (fun o => o) (c_utxos s0)).
  - intros. apply elem_of_entries.
  - intros Y id [u|] b' Hx HR; apply wp_modify; cbn.
    + apply (law_AddUTXO b' _ u) in HR. by rewrite (ro_utxo_key _ _ _ _ Ho _ _ Hx) in HR.
    + by apply (law_DeleteUTXO b' _ id) in HR.
  - intros id. rewrite (ro_utxos _ _ _ _ Ho). unfold override. rewrite lookup_merge. by destruct (modifiedUTXOs C d !! id), (c_utxos s0 !! id).
  - rewrite <- Hs. by destruct s1.
Qed.
Lemma phase_rewards s1 b : c_rewards s1 = c_rewards s0 -> rep b s1 ->
  wp db_fault (forM (entries2 (modifiedDelegateeRewards C d)) (fun x => SetDelegateeReward x.1.1 x.1.2 x.2))
    (fun _ b' => rep b' (set_rewards (c_rewards s) s1)) b.
Proof.
  intros Hs Hr. eapply wp_mono; [apply (wp_forM_map _ _ (fun sn => lookup2 (modifiedDelegateeRewards C d) sn.1 sn.2) _
    (fun Y b => rep b (set_rewards Y s1) /\ forall sn, is_Some (c_rewards s0 !! sn) -> is_Some (Y !! sn)) Some (c_rewards s0) (c_rewards s))|].
  - intros [id n] v. apply elem_of_entries2.
  - intros Y [id n] v b' Hv [HR Hk]. eapply wp_mono; [apply (law_SetDelegateeReward b' _ id n v HR); cbn; apply Hk|].
    + apply (ro_reward_known _ _ _ _ Ho). by exists v.
    + intros [] b2 HR2. split; [exact HR2|]. intros sn Hsn. change (is_Some (<[(id, n) := v]> Y !! sn)). rewrite lookup_insert_is_Some'. right. by apply Hk.
  - intros [id n]. rewrite (ro_rewards _ _ _ _ Ho). unfold over2. cbn. by destruct (lookup2 _ id n).
  - split; [|done]. rewrite <- Hs. by destruct s1.
  - by intros [] b' [? _].
Qed.

Lemma phase_chains s1 b : c_chains s1 = c_chains s0 -> rep b s1 ->
  wp db_fault (forM (entries (addedChains C d)) (fun x => forM x.2 AddChain)) (fun _ b' => exists g, rep b' (set_chains g s1) /\ forall id, g id = c_chains s id) b.
Proof.
  intros Hs Hr. eapply wp_mono; [apply (wp_forM_lists _ _ (fun _ => AddChain) (fun g b => rep b (set_chains g s1)) (c_chains s0))|].
  - intros g id l tx b' Hl Hin HR. apply wp_never. exact (law_AddChain b' _ tx id HR (ro_chain_key _ _ _ _ Ho id l tx Hl Hin)).
  - rewrite <- Hs. by destruct s1.
  - intros [] b' (g & Hg & Hgid). exists g. split; [done|]. intros id. by rewrite Hgid, (ro_chains _ _ _ _ Ho).
Qed.
Lemma phase_reward_utxos s1 b : c_reward_utxos s1 = c_reward_utxos s0 -> rep b s1 ->
  wp db_fault (forM (entries (addedRewardUTXOs C d)) (fun x => forM x.2 (fun u => modify (AddRewardUTXO x.1 u))))
    (fun _ b' => exists g, rep b' (set_reward_utxos g s1) /\ forall id, g id = c_reward_utxos s id) b.
Proof.
  intros Hs Hr. eapply wp_mono; [apply (wp_forM_lists _ _ (fun id u => modify (AddRewardUTXO id u)) (fun g b => rep b (set_reward_utxos g s1)) (c_reward_utxos s0))|].
  - intros g id l u b' Hl Hin HR. apply wp_modify. by apply (law_AddRewardUTXO b' _ id u) in HR.
  - rewrite <- Hs. by destruct s1.
  - intros [] b' (g & Hg & Hgid). exists g. split; [done|]. intros id. by rewrite Hgid, (ro_reward_utxos _ _ _ _ Ho).
Qed.
Lemma phase_subnets s1 b : c_subnets s1 = c_subnets s0 -> rep b s1 ->
  wp db_fault (forM (addedSubnetIDs C d) (fun id => modify (AddSubnet id))) (fun _ b' => rep b' (set_subnets (c_subnets s) s1)) b.
Proof.
  intros Hs Hr. rewrite (ro_subnets _ _ _ _ Ho). apply (wp_forM _ _ _ (fun l b => rep b (set_subnets (c_subnets s0 ++ l) s1))).
  - rewrite app_nil_r, <- Hs. by destruct s1.
  - intros done id rest b' _ HR. apply wp_modify. apply (law_AddSubnet b' _ id) in HR. cbn in HR. by rewrite <- app_assoc in HR.
Qed.
Lemma phase_expiry s1 b : c_expiry s1 = c_expiry s0 -> rep b s1 ->
  wp db_fault (forM (entries (e_modified (expiryDiff C d))) (fun x => modify (if x.2 : bool then PutExpiry x.1 else DeleteExpiry x.1)))
    (fun _ b' => rep b' (set_expiry (c_expiry s) s1)) b.
Proof.
  intros Hs Hr. pose proof (ro_expiry _ _ _ _ Ho) as [Hm Hsame _].
  eapply wp_mono; [apply (wp_forM _ _ _ (fun l b => exists X, rep b (set_expiry X s1) /\ forall e, e ∈ X <-> if decide (e ∈ l.*1) then e ∈ c_expiry s else e ∈ c_expiry s0))|].
  - exists (c_expiry s0). split; [rewrite <- Hs; by destruct s1|]. intros e. by rewrite decide_False by apply not_elem_of_nil.
  - intros done [e x] rest b' Heq (X & HR & HX). apply wp_modify. cbn.
    assert (e_modified (expiryDiff C d) !! e = Some x) as He by (apply elem_of_entries; rewrite Heq; set_solver). specialize (Hm e x He). cbn in Hm.
    assert (forall e', e' ∈ (done ++ [(e, x)]).*1 <-> e' ∈ done.*1 \/ e' = e) as Hl by (intros e'; rewrite fmap_app, elem_of_app; cbn; by rewrite list_elem_of_singleton).
    destruct x.
    + exists ({[e]} ∪ X). split; [by apply (law_PutExpiry b' _ e) in HR|]. intros e'. rewrite elem_of_union, elem_of_singleton, HX.
      destruct (decide (e' = e)) as [->|Hne]; [rewrite (decide_True (P := e ∈ (done ++ [(e, true)]).*1)) by (rewrite Hl; tauto); tauto|].
      destruct (decide (e' ∈ done.*1)), (decide (e' ∈ (done ++ [(e, true)]).*1)) as [Hin|Hin]; rewrite Hl in Hin; tauto.
    + exists (X ∖ {[e]}). split; [by apply (law_DeleteExpiry b' _ e) in HR|]. intros e'. rewrite elem_of_difference, elem_of_singleton, HX.
      destruct (decide (e' = e)) as [->|Hne]; [rewrite (decide_True (P := e ∈ (done ++ [(e, false)]).*1)) by (rewrite Hl; tauto); intuition congruence|].
      destruct (decide (e' ∈ done.*1)), (decide (e' ∈ (done ++ [(e, false)]).*1)) as [Hin|Hin]; rewrite Hl in Hin; tauto.
  - cbn. intros [] b' (X & HR & HX). assert (X = c_expiry s) as <-; [|done]. apply set_eq. intros e. rewrite HX. case_decide as Hin; [done|].
    destruct (e_modified (expiryDiff C d) !! e) as [x|] eqn:He; [destruct Hin; apply list_elem_of_fmap; exists (e, x); by rewrite elem_of_entries|].
    symmetry. by apply (Hsame e).
Qed.

(** The stakers of one kind. *)
Lemma phase_stakers k s1 b : c_stakers s1 k = c_stakers s0 k -> (forall id n, status (stakerDiffs C d k) id n = added -> ~ c_refuse k s0 id n) -> rep b s1 ->
  wp db_fault (apply_stakers k (stakerDiffs C d k))
    (fun _ b' => exists f, rep b' (set_stakers f s1) /\ (forall k', k' <> k -> f k' = c_stakers s1 k') /\ equal_views (s_view (f k)) (c_view k s)) b.
Proof.
  intros Hs Hadm Hr. destruct (ro_stakers _ _ _ _ Ho k) as (A & Hi & _ & Hnew & _). rewrite <- Hs in *. apply wp_never. by eapply wp_apply_stakers.
Qed.
End phases.

(** ** The whole *)
Lemma Apply_same d s0 s b : rep_over C d s0 s -> applicable d s0 s -> rep b s0 ->
  wp db_fault (Apply d) (fun _ b' => exists s', rep b' s' /\ same_chain s' s) b.
Proof.
  intros Ho [Hadm Hleg Hst Hpk] Hr. unfold Apply.
  repeat (apply wp_bind, wp_modify).
  apply (law_SetTimestamp _ _ (timestamp C d)), (law_SetFeeState _ _ (feeState C d)), (law_SetL1ValidatorExcess _ _ (l1ValidatorExcess C d)),
    (law_SetAccruedFees _ _ (accruedFees C d)) in Hr.
  apply wp_bind. eapply wp_mono; [eapply (phase_supply d s0 s Ho); [|exact Hr]; done|]. clear b Hr. intros [] b Hr.
  apply wp_bind. eapply wp_mono; [eapply (phase_expiry d s0 s Ho); [|exact Hr]; done|]. clear b Hr. intros [] b Hr.
  apply wp_bind. eapply wp_mono; [eapply (wp_apply_l1 rep); [..|exact Hr]; [exact (ro_l1 _ _ _ _ Ho)|exact Hpk|exact Hleg|exact Hst|exact (fun id Hid => proj2 (ro_l1_new _ _ _ _ Ho id Hid))]|].
  clear b Hr. intros [] b (u & Hr).
  apply wp_bind. eapply wp_mono; [eapply (phase_stakers d s0 s Ho Current); [|exact (Hadm Current)|exact Hr]; done|]. clear b Hr. intros [] b (f & Hr & Hf & Hcur).
  apply wp_bind. eapply wp_mono; [eapply (phase_rewards d s0 s Ho); [|exact Hr]; done|]. clear b Hr. intros [] b Hr.
  apply wp_bind. eapply wp_mono; [eapply (phase_stakers d s0 s Ho Pending); [|exact (Hadm Pending)|exact Hr]; by apply Hf|]. clear b Hr. intros [] b (g & Hr & Hg & Hpend).
  apply wp_bind. eapply wp_mono; [eapply (phase_subnets d s0 s Ho); [|exact Hr]; done|]. clear b Hr. intros [] b Hr.
  apply wp_bind. eapply wp_mono; [eapply (phase_transformations d s0 s Ho); [|exact Hr]; done|]. clear b Hr. intros [] b Hr.
  apply wp_bind. eapply wp_mono; [eapply (phase_chains d s0 s Ho); [|exact Hr]; done|]. clear b Hr. intros [] b (cs & Hr & Hcs).
  apply wp_bind. eapply wp_mono; [eapply (phase_txs d s0 s Ho); [|exact Hr]; done|]. clear b Hr. intros [] b Hr.
  apply wp_bind. eapply wp_mono; [eapply (phase_reward_utxos d s0 s Ho); [|exact Hr]; done|]. clear b Hr. intros [] b (rs & Hr & Hrs).
  apply wp_bind. eapply wp_mono; [eapply (phase_utxos d s0 s Ho); [|exact Hr]; done|]. clear b Hr. intros [] b Hr.
  apply wp_bind. eapply wp_mono; [eapply (phase_owners d s0 s Ho); [|exact Hr]; done|]. clear b Hr. intros [] b Hr.
  eapply wp_mono; [eapply (phase_conversions d s0 s Ho); [|exact Hr]; done|]. clear b Hr. intros [] b Hr.
  eexists. split; [exact Hr|]. destruct Ho. constructor; cbn; try done.
  intros []; [rewrite (Hg Current) by done; exact Hcur|exact Hpend].
Qed.
End apply.
End ApplyFacts.
