(* ===== verification/ChainState.v ===== *)
(** * The state of the P-chain in memory
    Models the methods of [Chain] on the [state] of
    [vms/platformvm/state/state.go]: what blocks have changed since the last commit
    is kept in maps, trees and diffs over the persisted state.  What the caches and
    the databases answer behind them is an argument. *)
From S2P Require Import Prelude SafeMath Monads Gas Sorting MapOrder BTree Iterators Stakers StakersFacts ValidatorMetadata L1Validators Chain ChainDiff.

Module ChainState.
Import Sorting BTree Iterators Stakers L1Validators Chain.

(** What is read through a cache from a database.  An owner may be missing in two ways:
    an entry of the cache says that the subnet is not known, or neither the cache nor
    the database has an entry, which is [Ok None]. *)
Record Persisted `{ChainTypes} := mkPersisted {
  p_supply : ID -> result StateErr Z;
  p_weight : ID -> result StateErr Z;
  p_inactive : ID -> result StateErr L1Validator;
  p_has : ID -> ID -> result StateErr bool;
  p_owner : ID -> result StateErr (option Owner);
  p_conversion : ID -> result StateErr SubnetToL1Conversion;
  p_transformation : ID -> result StateErr Tx;
  p_tx : ID -> result StateErr (Tx * Status);
  p_utxo : ID -> result StateErr UTXO;
}.

Arguments mkPersisted {_}.

Section state.
Context {T : ChainTypes} `{BTree (Staker PublicKey)} `{BTree ExpiryEntry} `{BTree L1Validator}.

(** [constants.PrimaryNetworkID] *)
Definition PrimaryNetworkID : ID := ids_Empty.

Record state := mkState {
  persisted : Persisted;
  validatorState : ValidatorMetadata.metadata;
  expiry : BTreeG ExpiryEntry;
  expiryDiff : L1Validators.expiryDiff;
  s_activeL1Validators : activeL1Validators;
  l1ValidatorsDiff : L1Validators.l1ValidatorsDiff;
  stakers : Kind -> baseStakers (PK := PublicKey);
  addedTxs : gmap ID (Tx * Status);
  addedRewardUTXOs : gmap ID (list UTXO);
  modifiedUTXOs : gmap ID (option UTXO);
  addedSubnetIDs : list ID;
  subnetOwners : gmap ID Owner;
  subnetToL1Conversions : gmap ID SubnetToL1Conversion;
  transformedSubnets : gmap ID Tx;
  modifiedSupplies : gmap ID Z;
  addedChains : gmap ID (list Tx);
  timestamp : Z;
  feeState : Gas.State;
  l1ValidatorExcess : Z;
  accruedFees : Z;
  currentSupply : Z;
}.
Definition currentStakers (s : state) : baseStakers := stakers s Current.
Definition pendingStakers (s : state) : baseStakers := stakers s Pending.

(** Assignments *)
Definition s_validatorState x (s : state) : state :=
  mkState (persisted s) x (expiry s) (expiryDiff s) (s_activeL1Validators s) (l1ValidatorsDiff s) (stakers s) (addedTxs s) (addedRewardUTXOs s) (modifiedUTXOs s) (addedSubnetIDs s) (subnetOwners s) (subnetToL1Conversions s) (transformedSubnets s) (modifiedSupplies s) (addedChains s) (timestamp s) (feeState s) (l1ValidatorExcess s) (accruedFees s) (currentSupply s).
Definition s_expiryDiff x (s : state) : state :=
  mkState (persisted s) (validatorState s) (expiry s) x (s_activeL1Validators s) (l1ValidatorsDiff s) (stakers s) (addedTxs s) (addedRewardUTXOs s) (modifiedUTXOs s) (addedSubnetIDs s) (subnetOwners s) (subnetToL1Conversions s) (transformedSubnets s) (modifiedSupplies s) (addedChains s) (timestamp s) (feeState s) (l1ValidatorExcess s) (accruedFees s) (currentSupply s).
Definition s_l1ValidatorsDiff x (s : state) : state :=
  mkState (persisted s) (validatorState s) (expiry s) (expiryDiff s) (s_activeL1Validators s) x (stakers s) (addedTxs s) (addedRewardUTXOs s) (modifiedUTXOs s) (addedSubnetIDs s) (subnetOwners s) (subnetToL1Conversions s) (transformedSubnets s) (modifiedSupplies s) (addedChains s) (timestamp s) (feeState s) (l1ValidatorExcess s) (accruedFees s) (currentSupply s).
Definition s_stakers x (s : state) : state :=
  mkState (persisted s) (validatorState s) (expiry s) (expiryDiff s) (s_activeL1Validators s) (l1ValidatorsDiff s) x (addedTxs s) (addedRewardUTXOs s) (modifiedUTXOs s) (addedSubnetIDs s) (subnetOwners s) (subnetToL1Conversions s) (transformedSubnets s) (modifiedSupplies s) (addedChains s) (timestamp s) (feeState s) (l1ValidatorExcess s) (accruedFees s) (currentSupply s).
Definition s_addedTxs x (s : state) : state :=
  mkState (persisted s) (validatorState s) (expiry s) (expiryDiff s) (s_activeL1Validators s) (l1ValidatorsDiff s) (stakers s) x (addedRewardUTXOs s) (modifiedUTXOs s) (addedSubnetIDs s) (subnetOwners s) (subnetToL1Conversions s) (transformedSubnets s) (modifiedSupplies s) (addedChains s) (timestamp s) (feeState s) (l1ValidatorExcess s) (accruedFees s) (currentSupply s).
Definition s_addedRewardUTXOs x (s : state) : state :=
  mkState (persisted s) (validatorState s) (expiry s) (expiryDiff s) (s_activeL1Validators s) (l1ValidatorsDiff s) (stakers s) (addedTxs s) x (modifiedUTXOs s) (addedSubnetIDs s) (subnetOwners s) (subnetToL1Conversions s) (transformedSubnets s) (modifiedSupplies s) (addedChains s) (timestamp s) (feeState s) (l1ValidatorExcess s) (accruedFees s) (currentSupply s).
Definition s_modifiedUTXOs x (s : state) : state :=
  mkState (persisted s) (validatorState s) (expiry s) (expiryDiff s) (s_activeL1Validators s) (l1ValidatorsDiff s) (stakers s) (addedTxs s) (addedRewardUTXOs s) x (addedSubnetIDs s) (subnetOwners s) (subnetToL1Conversions s) (transformedSubnets s) (modifiedSupplies s) (addedChains s) (timestamp s) (feeState s) (l1ValidatorExcess s) (accruedFees s) (currentSupply s).
Definition s_addedSubnetIDs x (s : state) : state :=
  mkState (persisted s) (validatorState s) (expiry s) (expiryDiff s) (s_activeL1Validators s) (l1ValidatorsDiff s) (stakers s) (addedTxs s) (addedRewardUTXOs s) (modifiedUTXOs s) x (subnetOwners s) (subnetToL1Conversions s) (transformedSubnets s) (modifiedSupplies s) (addedChains s) (timestamp s) (feeState s) (l1ValidatorExcess s) (accruedFees s) (currentSupply s).
Definition s_subnetOwners x (s : state) : state :=
  mkState (persisted s) (validatorState s) (expiry s) (expiryDiff s) (s_activeL1Validators s) (l1ValidatorsDiff s) (stakers s) (addedTxs s) (addedRewardUTXOs s) (modifiedUTXOs s) (addedSubnetIDs s) x (subnetToL1Conversions s) (transformedSubnets s) (modifiedSupplies s) (addedChains s) (timestamp s) (feeState s) (l1ValidatorExcess s) (accruedFees s) (currentSupply s).
Definition s_subnetToL1Conversions x (s : state) : state :=
  mkState (persisted s) (validatorState s) (expiry s) (expiryDiff s) (s_activeL1Validators s) (l1ValidatorsDiff s) (stakers s) (addedTxs s) (addedRewardUTXOs s) (modifiedUTXOs s) (addedSubnetIDs s) (subnetOwners s) x (transformedSubnets s) (modifiedSupplies s) (addedChains s) (timestamp s) (feeState s) (l1ValidatorExcess s) (accruedFees s) (currentSupply s).
Definition s_transformedSubnets x (s : state) : state :=
  mkState (persisted s) (validatorState s) (expiry s) (expiryDiff s) (s_activeL1Validators s) (l1ValidatorsDiff s) (stakers s) (addedTxs s) (addedRewardUTXOs s) (modifiedUTXOs s) (addedSubnetIDs s) (subnetOwners s) (subnetToL1Conversions s) x (modifiedSupplies s) (addedChains s) (timestamp s) (feeState s) (l1ValidatorExcess s) (accruedFees s) (currentSupply s).
Definition s_modifiedSupplies x (s : state) : state :=
  mkState (persisted s) (validatorState s) (expiry s) (expiryDiff s) (s_activeL1Validators s) (l1ValidatorsDiff s) (stakers s) (addedTxs s) (addedRewardUTXOs s) (modifiedUTXOs s) (addedSubnetIDs s) (subnetOwners s) (subnetToL1Conversions s) (transformedSubnets s) x (addedChains s) (timestamp s) (feeState s) (l1ValidatorExcess s) (accruedFees s) (currentSupply s).
Definition s_addedChains x (s : state) : state :=
  mkState (persisted s) (validatorState s) (expiry s) (expiryDiff s) (s_activeL1Validators s) (l1ValidatorsDiff s) (stakers s) (addedTxs s) (addedRewardUTXOs s) (modifiedUTXOs s) (addedSubnetIDs s) (subnetOwners s) (subnetToL1Conversions s) (transformedSubnets s) (modifiedSupplies s) x (timestamp s) (feeState s) (l1ValidatorExcess s) (accruedFees s) (currentSupply s).
Definition s_timestamp x (s : state) : state :=
  mkState (persisted s) (validatorState s) (expiry s) (expiryDiff s) (s_activeL1Validators s) (l1ValidatorsDiff s) (stakers s) (addedTxs s) (addedRewardUTXOs s) (modifiedUTXOs s) (addedSubnetIDs s) (subnetOwners s) (subnetToL1Conversions s) (transformedSubnets s) (modifiedSupplies s) (addedChains s) x (feeState s) (l1ValidatorExcess s) (accruedFees s) (currentSupply s).
Definition s_feeState x (s : state) : state :=
  mkState (persisted s) (validatorState s) (expiry s) (expiryDiff s) (s_activeL1Validators s) (l1ValidatorsDiff s) (stakers s) (addedTxs s) (addedRewardUTXOs s) (modifiedUTXOs s) (addedSubnetIDs s) (subnetOwners s) (subnetToL1Conversions s) (transformedSubnets s) (modifiedSupplies s) (addedChains s) (timestamp s) x (l1ValidatorExcess s) (accruedFees s) (currentSupply s).
Definition s_l1ValidatorExcess x (s : state) : state :=
  mkState (persisted s) (validatorState s) (expiry s) (expiryDiff s) (s_activeL1Validators s) (l1ValidatorsDiff s) (stakers s) (addedTxs s) (addedRewardUTXOs s) (modifiedUTXOs s) (addedSubnetIDs s) (subnetOwners s) (subnetToL1Conversions s) (transformedSubnets s) (modifiedSupplies s) (addedChains s) (timestamp s) (feeState s) x (accruedFees s) (currentSupply s).
Definition s_accruedFees x (s : state) : state :=
  mkState (persisted s) (validatorState s) (expiry s) (expiryDiff s) (s_activeL1Validators s) (l1ValidatorsDiff s) (stakers s) (addedTxs s) (addedRewardUTXOs s) (modifiedUTXOs s) (addedSubnetIDs s) (subnetOwners s) (subnetToL1Conversions s) (transformedSubnets s) (modifiedSupplies s) (addedChains s) (timestamp s) (feeState s) (l1ValidatorExcess s) x (currentSupply s).
Definition s_currentSupply x (s : state) : state :=
  mkState (persisted s) (validatorState s) (expiry s) (expiryDiff s) (s_activeL1Validators s) (l1ValidatorsDiff s) (stakers s) (addedTxs s) (addedRewardUTXOs s) (modifiedUTXOs s) (addedSubnetIDs s) (subnetOwners s) (subnetToL1Conversions s) (transformedSubnets s) (modifiedSupplies s) (addedChains s) (timestamp s) (feeState s) (l1ValidatorExcess s) (accruedFees s) x.

Definition s_GetTimestamp (s : state) : Z := timestamp s.
Definition s_SetTimestamp (tm : Z) (s : state) : state := s_timestamp tm s.
Definition s_GetFeeState (s : state) : Gas.State := feeState s.
Definition s_SetFeeState (f : Gas.State) (s : state) : state := s_feeState f s.
Definition s_GetL1ValidatorExcess (s : state) : Z := l1ValidatorExcess s.
Definition s_SetL1ValidatorExcess (e : Z) (s : state) : state := s_l1ValidatorExcess e s.
Definition s_GetAccruedFees (s : state) : Z := accruedFees s.
Definition s_SetAccruedFees (f : Z) (s : state) : state := s_accruedFees f s.
Definition s_GetCurrentSupply (subnetID : ID) (s : state) : result StateErr Z :=
  if bool_decide (subnetID = PrimaryNetworkID) then Ok (currentSupply s)
  else match modifiedSupplies s !! subnetID with
       | Some supply => Ok supply
       | None => p_supply (persisted s) subnetID
       end.
Definition s_SetCurrentSupply (subnetID : ID) (cs : Z) (s : state) : state :=
  if bool_decide (subnetID = PrimaryNetworkID) then s_currentSupply cs s
  else s_modifiedSupplies (<[subnetID := cs]> (modifiedSupplies s)) s.

(** ** Expiry entries *)
Definition s_GetExpiryIterator (s : state) : result StateErr (Iterator ExpiryEntry) :=
  Ok (getExpiryIterator (FromTree (Some (expiry s))) (expiryDiff s)).
Definition s_HasExpiry (entry : ExpiryEntry) (s : state) : result StateErr bool :=
  match e_modified (expiryDiff s) !! entry with
  | Some has => Ok has
  | None => Ok (HasItem Expiry_Less entry (expiry s))
  end.
Definition s_PutExpiry (entry : ExpiryEntry) (s : state) : state := s_expiryDiff (e_PutExpiry entry (expiryDiff s)) s.
Definition s_DeleteExpiry (entry : ExpiryEntry) (s : state) : state := s_expiryDiff (e_DeleteExpiry entry (expiryDiff s)) s.

(** ** L1 validators *)
Definition s_GetActiveL1ValidatorsIterator (s : state) : result StateErr (Iterator L1Validator) :=
  Ok (getActiveL1ValidatorsIterator (a_newIterator (s_activeL1Validators s)) (l1ValidatorsDiff s)).
Definition s_NumActiveL1Validators (s : state) : Z := a_len (s_activeL1Validators s) + netAddedActive (l1ValidatorsDiff s).
Definition s_WeightOfL1Validators (subnetID : ID) (s : state) : result StateErr Z :=
  match modifiedTotalWeight (l1ValidatorsDiff s) !! subnetID with
  | Some weight => Ok weight
  | None => p_weight (persisted s) subnetID
  end.
Definition getPersistedL1Validator (validationID : ID) (s : state) : result StateErr L1Validator :=
  match a_get validationID (s_activeL1Validators s) with
  | Some l1Validator => Ok l1Validator
  | None => p_inactive (persisted s) validationID
  end.
Definition s_GetL1Validator (validationID : ID) (s : state) : result StateErr L1Validator :=
  match modified (l1ValidatorsDiff s) !! validationID with
  | Some l1Validator => if isDeleted l1Validator then Err ErrNotFound else Ok l1Validator
  | None => getPersistedL1Validator validationID s
  end.
Definition s_HasL1Validator (subnetID nodeID : ID) (s : state) : result StateErr bool :=
  match hasL1Validator subnetID nodeID (l1ValidatorsDiff s) with
  | Some has => Ok has
  | None => p_has (persisted s) subnetID nodeID
  end.

(** ** Stakers *)
Definition s_GetValidator (k : Kind) (subnetID nodeID : ID) (s : state) : result StateErr (Staker PublicKey) :=
  base_GetValidator subnetID nodeID (stakers s k).
Definition set_kind (k : Kind) (f : baseStakers (PK := PublicKey) -> baseStakers (PK := PublicKey)) : M state StateErr unit :=
  modify (fun s => s_stakers (fun k' => if bool_decide (k' = k) then f (stakers s k) else stakers s k') s).
Definition s_PutValidator (k : Kind) (staker : Staker PublicKey) : M state StateErr unit := set_kind k (base_PutValidator staker).
Definition s_DeleteValidator (k : Kind) (staker : Staker PublicKey) : M state StateErr unit := set_kind k (base_DeleteValidator staker).
Definition s_GetDelegatorIterator (k : Kind) (subnetID nodeID : ID) (s : state) : result StateErr (Iterator (Staker PublicKey)) :=
  Ok (base_GetDelegatorIterator subnetID nodeID (stakers s k)).
Definition s_PutDelegator (k : Kind) (staker : Staker PublicKey) : M state StateErr unit := set_kind k (base_PutDelegator staker).
Definition s_DeleteDelegator (k : Kind) (staker : Staker PublicKey) : M state StateErr unit := set_kind k (base_DeleteDelegator staker).
Definition s_GetStakerIterator (k : Kind) (s : state) : result StateErr (Iterator (Staker PublicKey)) :=
  Ok (base_GetStakerIterator (stakers s k)).

Definition GetCurrentValidator := s_GetValidator Current.
Definition GetPendingValidator := s_GetValidator Pending.
Definition PutCurrentValidator := s_PutValidator Current.
Definition PutPendingValidator := s_PutValidator Pending.
Definition DeleteCurrentValidator := s_DeleteValidator Current.
Definition DeletePendingValidator := s_DeleteValidator Pending.
Definition GetCurrentDelegatorIterator := s_GetDelegatorIterator Current.
Definition GetPendingDelegatorIterator := s_GetDelegatorIterator Pending.
Definition PutCurrentDelegator := s_PutDelegator Current.
Definition PutPendingDelegator := s_PutDelegator Pending.
Definition DeleteCurrentDelegator := s_DeleteDelegator Current.
Definition DeletePendingDelegator := s_DeleteDelegator Pending.
Definition GetCurrentStakerIterator := s_GetStakerIterator Current.
Definition GetPendingStakerIterator := s_GetStakerIterator Pending.

Definition s_queries (s : state) : Queries (PK := PublicKey) :=
  mkQueries (fun id => s_GetL1Validator id s) (fun x n => s_GetValidator Current x n s) (fun x n => s_HasL1Validator x n s)
    (fun x => s_WeightOfL1Validators x s).
Definition s_PutL1Validator (l1Validator : L1Validator) : M state StateErr unit :=
  s ← get;
  x ← lift (putL1Validator (s_queries s) l1Validator (l1ValidatorsDiff s));
  modify (s_l1ValidatorsDiff x).

Definition s_SetDelegateeReward (subnetID nodeID : ID) (amount : Z) : M state StateErr unit :=
  s ← get;
  x ← lift (ValidatorMetadata.SetDelegateeReward subnetID nodeID amount (validatorState s));
  modify (s_validatorState x).
Definition s_GetDelegateeReward (subnetID nodeID : ID) (s : state) : result StateErr Z :=
  ValidatorMetadata.GetDelegateeReward subnetID nodeID (validatorState s).

(** ** Subnets, transactions and outputs *)
Definition s_GetTx (txID : ID) (s : state) : result StateErr (Tx * Status) :=
  match addedTxs s !! txID with Some tx => Ok tx | None => p_tx (persisted s) txID end.
Definition s_AddTx (tx : Tx) (status : Status) (s : state) : state := s_addedTxs (<[Tx_ID tx := (tx, status)]> (addedTxs s)) s.

Definition s_AddSubnet (subnetID : ID) (s : state) : state := s_addedSubnetIDs (addedSubnetIDs s ++ [subnetID]) s.
(** Without an entry of its own the owner is that of the transaction that created the
    subnet.  The code then also assigns it, which changes no answer: [owner_recorded]. *)
Definition s_GetSubnetOwner (subnetID : ID) (s : state) : result StateErr Owner :=
  match subnetOwners s !! subnetID with
  | Some owner => Ok owner
  | None =>
      o ← p_owner (persisted s) subnetID;
      match o with
      | Some owner => Ok owner
      | None =>
          subnetIntf ← s_GetTx subnetID s;
          match Unsigned subnetIntf.1 with
          | CreateSubnetTx owner _ => Ok owner
          | _ => Err errIsNotSubnet
          end
      end
  end.
Definition s_SetSubnetOwner (subnetID : ID) (owner : Owner) (s : state) : state := s_subnetOwners (<[subnetID := owner]> (subnetOwners s)) s.
Definition s_GetSubnetToL1Conversion (subnetID : ID) (s : state) : result StateErr SubnetToL1Conversion :=
  match subnetToL1Conversions s !! subnetID with Some c => Ok c | None => p_conversion (persisted s) subnetID end.
Definition s_SetSubnetToL1Conversion (subnetID : ID) (c : SubnetToL1Conversion) (s : state) : state :=
  s_subnetToL1Conversions (<[subnetID := c]> (subnetToL1Conversions s)) s.
Definition s_GetSubnetTransformation (subnetID : ID) (s : state) : result StateErr Tx :=
  match transformedSubnets s !! subnetID with Some tx => Ok tx | None => p_transformation (persisted s) subnetID end.
Definition s_AddSubnetTransformation (transformSubnetTxIntf : Tx) : M state StateErr unit :=
  Subnet ← must Panic (transform_subnet transformSubnetTxIntf);
  modify (fun s => s_transformedSubnets (<[Subnet := transformSubnetTxIntf]> (transformedSubnets s)) s).
Definition s_AddChain (createChainTxIntf : Tx) : M state StateErr unit :=
  subnetID ← must Panic (create_chain_subnet createChainTxIntf);
  modify (fun s => s_addedChains (append_at subnetID createChainTxIntf (addedChains s)) s).
Definition s_AddRewardUTXO (txID : ID) (utxo : UTXO) (s : state) : state := s_addedRewardUTXOs (append_at txID utxo (addedRewardUTXOs s)) s.
Definition s_GetUTXO (utxoID : ID) (s : state) : result StateErr UTXO :=
  match modifiedUTXOs s !! utxoID with
  | Some None => Err ErrNotFound
  | Some (Some utxo) => Ok utxo
  | None => p_utxo (persisted s) utxoID
  end.
Definition s_AddUTXO (utxo : UTXO) (s : state) : state := s_modifiedUTXOs (<[InputID utxo := Some utxo]> (modifiedUTXOs s)) s.
Definition s_DeleteUTXO (utxoID : ID) (s : state) : state := s_modifiedUTXOs (<[utxoID := None]> (modifiedUTXOs s)) s.

#[export] Instance state_chain : Chain state := {|
  GetTimestamp := s_GetTimestamp;
  SetTimestamp := s_SetTimestamp;
  GetFeeState := s_GetFeeState;
  SetFeeState := s_SetFeeState;
  GetL1ValidatorExcess := s_GetL1ValidatorExcess;
  SetL1ValidatorExcess := s_SetL1ValidatorExcess;
  GetAccruedFees := s_GetAccruedFees;
  SetAccruedFees := s_SetAccruedFees;
  GetCurrentSupply := s_GetCurrentSupply;
  SetCurrentSupply := s_SetCurrentSupply;
  GetExpiryIterator := s_GetExpiryIterator;
  HasExpiry := s_HasExpiry;
  PutExpiry := s_PutExpiry;
  DeleteExpiry := s_DeleteExpiry;
  GetActiveL1ValidatorsIterator := s_GetActiveL1ValidatorsIterator;
  NumActiveL1Validators := s_NumActiveL1Validators;
  WeightOfL1Validators := s_WeightOfL1Validators;
  GetL1Validator := s_GetL1Validator;
  HasL1Validator := s_HasL1Validator;
  PutL1Validator := s_PutL1Validator;
  GetValidator := s_GetValidator;
  PutValidator := s_PutValidator;
  DeleteValidator := s_DeleteValidator;
  GetDelegatorIterator := s_GetDelegatorIterator;
  PutDelegator := s_PutDelegator;
  DeleteDelegator := s_DeleteDelegator;
  GetStakerIterator := s_GetStakerIterator;
  SetDelegateeReward := s_SetDelegateeReward;
  GetDelegateeReward := s_GetDelegateeReward;
  AddSubnet := s_AddSubnet;
  GetSubnetOwner := s_GetSubnetOwner;
  SetSubnetOwner := s_SetSubnetOwner;
  GetSubnetToL1Conversion := s_GetSubnetToL1Conversion;
  SetSubnetToL1Conversion := s_SetSubnetToL1Conversion;
  GetSubnetTransformation := s_GetSubnetTransformation;
  AddSubnetTransformation := s_AddSubnetTransformation;
  AddChain := s_AddChain;
  GetTx := s_GetTx;
  AddTx := s_AddTx;
  AddRewardUTXO := s_AddRewardUTXO;
  GetUTXO := s_GetUTXO;
  AddUTXO := s_AddUTXO;
  DeleteUTXO := s_DeleteUTXO;
|}.
End state.
End ChainState.

(** ** The state implements the abstract state
    What the databases hold is an abstract state of its own, the persisted one; the
    changes in memory turn it into the current one, for which the state satisfies
    the laws of [Chain]. *)
Module ChainStateFacts.
Import Sorting BTree Iterators KeyedTrees Stakers StakersFacts L1Validators L1Facts Chain ChainDiffFacts ChainState.

Section facts.
Context {T : ChainTypes} `{BTreeLaws (Staker PublicKey)} `{BTreeLaws ExpiryEntry} `{BTreeLaws L1Validator}.

Arguments override : simpl never.

(** The caches and the databases, and the trees that mirror them, hold [s0]. *)
Record holds_persisted (st : state) (s0 : CState T) : Prop := {
  ps_l1_wf : wf_l1 (c_l1 s0);
  ps_l1_used id : is_Some (c_l1 s0 !! id) -> c_l1_used s0 id;
  ps_supply id : id <> PrimaryNetworkID -> replies (p_supply (persisted st) id) (found (c_supply s0 !! id));
  ps_weight id : replies (p_weight (persisted st) id) (Ok (total (c_l1 s0) id));
  ps_lookup : a_lookup (s_activeL1Validators st) = filter (fun x => IsActive x.2 = true) (c_l1 s0);
  ps_tree : holds_items L1_Less (a_tree (s_activeL1Validators st)) (is_active (c_l1 s0));
  ps_inactive id : a_lookup (s_activeL1Validators st) !! id = None -> replies (p_inactive (persisted st) id) (found (c_l1 s0 !! id));
  ps_has id n : replies (p_has (persisted st) id n) (Ok (has_node (c_l1 s0) id n));
  ps_expiry : holds_items Expiry_Less (expiry st) (fun e => e ∈ c_expiry s0);
  ps_owner id o : c_owners s0 !! id = Some o -> replies (p_owner (persisted st) id) (Ok (Some o));
  ps_conversion id : replies (p_conversion (persisted st) id) (found (c_conversions s0 !! id));
  ps_transformation id : replies (p_transformation (persisted st) id) (found (c_transformations s0 !! id));
  ps_tx id : replies (p_tx (persisted st) id) (found (c_txs s0 !! id));
  ps_utxo id : replies (p_utxo (persisted st) id) (found (c_utxos s0 !! id));
}.

(** The changes in memory turn [s0] into [s]. *)
Record state_over (st : state) (s0 s : CState T) : Prop := {
  so_timestamp : timestamp st = c_timestamp s;
  so_fee : feeState st = c_fee s;
  so_excess : l1ValidatorExcess st = c_excess s;
  so_accrued : accruedFees st = c_accrued s;
  so_primary : c_supply s !! PrimaryNetworkID = Some (currentSupply st);
  so_supply id : id <> PrimaryNetworkID -> c_supply s !! id = (modifiedSupplies st ∪ c_supply s0) !! id;
  so_expiry : expiry_inv (fun e => e ∈ c_expiry s0) (fun e => e ∈ c_expiry s) (expiryDiff st);
  so_l1 : l1_inv (c_l1 s0) (c_l1 s) (l1ValidatorsDiff st);
  so_l1_wf id : is_Some (c_l1 s !! id) -> c_l1_used s id;
  so_l1_used id : c_l1_used s0 id -> c_l1_used s id;
  so_stakers k : base_rep (stakers st k) (c_view k s);
  so_used k x : member (c_view k s) x -> c_used k s (TxID x);
  so_refuse k id n : ~ c_refuse k s id n;
  so_rewards id n : c_rewards s !! (id, n) = ValidatorMetadata.PotentialDelegateeReward <$> lookup2 (ValidatorMetadata.m_metadata (validatorState st)) n id;
  so_subnets : c_subnets s = c_subnets s0 ++ addedSubnetIDs st;
  so_owners : c_owners s = subnetOwners st ∪ c_owners s0;
  so_conversions : c_conversions s = subnetToL1Conversions st ∪ c_conversions s0;
  so_transformations : c_transformations s = transformedSubnets st ∪ c_transformations s0;
  so_chains id : c_chains s id = c_chains s0 id ++ default [] (addedChains st !! id);
  so_txs : c_txs s = addedTxs st ∪ c_txs s0;
  so_reward_utxos id : c_reward_utxos s id = c_reward_utxos s0 id ++ default [] (addedRewardUTXOs st !! id);
  so_utxos : c_utxos s = override (modifiedUTXOs st) (c_utxos s0);
}.

Definition rep_state (st : state) (s : CState T) : Prop := exists s0, holds_persisted st s0 /\ state_over st s0 s.

(** ** Queries *)
Lemma replies_over {A} (m m0 : gmap ID A) id r : replies r (found (m0 !! id)) ->
  replies (match m !! id with Some v => Ok v | None => r end) (found ((m ∪ m0) !! id)).
Proof. intros Hf. rewrite lookup_union. destruct (m !! id); [left|]; by destruct (m0 !! id). Qed.
Lemma iterates_ok {A} (less : A -> A -> bool) it P : lists less it P -> iterates less (Ok it) P.
Proof. intros Hl. left. by exists it. Qed.

Lemma num_active_size L : num_active L = Z.of_nat (size (filter (fun x => IsActive x.2 = true) L)).
Proof.
  induction L as [|id v L Hid IH] using map_ind; [by rewrite map_filter_empty, map_size_empty|].
  unfold num_active in *. destruct (IsActive v) eqn:Hv.
  - rewrite (omap_insert_Some one_active _ _ v 1) by (unfold one_active; by rewrite Hv). rewrite msum_insert_None by (by rewrite lookup_omap, Hid).
    rewrite map_filter_insert_True by done. rewrite map_size_insert_None by (by rewrite map_lookup_filter, Hid). lia.
  - rewrite (omap_insert_None one_active _ _ v) by (unfold one_active; by rewrite Hv). rewrite <- omap_delete, delete_id by done.
    rewrite map_filter_insert_False by (cbn; congruence). by rewrite delete_id.
Qed.

Section queries.
Context (st : state) (s : CState T) (Hst : rep_state st s).

Lemma state_GetCurrentSupply id : replies (s_GetCurrentSupply id st) (found (c_supply s !! id)).
Proof.
  destruct Hst as (s0 & Hp & Ho). unfold s_GetCurrentSupply. case_bool_decide as Hid; [subst; rewrite (so_primary _ _ _ Ho); by left|].
  rewrite (so_supply _ _ _ Ho) by done. apply replies_over. by apply (ps_supply _ _ Hp).
Qed.
Lemma state_GetSubnetOwner id o : c_owners s !! id = Some o -> replies (s_GetSubnetOwner id st) (Ok o).
Proof.
  destruct Hst as (s0 & Hp & Ho). rewrite (so_owners _ _ _ Ho), lookup_union. unfold s_GetSubnetOwner.
  destruct (subnetOwners st !! id) as [o'|] eqn:Hid; intros Hs.
  - left. destruct (c_owners s0 !! id); by injection Hs as ->.
  - assert (c_owners s0 !! id = Some o) as Hid0 by (by destruct (c_owners s0 !! id)).
    destruct (ps_owner _ _ Hp id o Hid0) as [->|(e & -> & code & ->)]; [by left|right]. exists (ErrFault code). split; [done|by exists code].
Qed.
Lemma owner_recorded id o : s_GetSubnetOwner id st = Ok o -> forall id', s_GetSubnetOwner id' (s_SetSubnetOwner id o st) = s_GetSubnetOwner id' st.
Proof.
  intros Ho id'. unfold s_GetSubnetOwner at 1. cbn [subnetOwners s_SetSubnetOwner s_subnetOwners]. destruct (decide (id' = id)) as [->|Hne].
  - by rewrite lookup_insert_eq.
  - by rewrite lookup_insert_ne.
Qed.
Lemma state_GetSubnetToL1Conversion id : replies (s_GetSubnetToL1Conversion id st) (found (c_conversions s !! id)).
Proof. destruct Hst as (s0 & Hp & Ho). rewrite (so_conversions _ _ _ Ho). apply replies_over, Hp. Qed.
Lemma state_GetSubnetTransformation id : replies (s_GetSubnetTransformation id st) (found (c_transformations s !! id)).
Proof. destruct Hst as (s0 & Hp & Ho). rewrite (so_transformations _ _ _ Ho). apply replies_over, Hp. Qed.
Lemma state_GetTx id : replies (s_GetTx id st) (found (c_txs s !! id)).
Proof. destruct Hst as (s0 & Hp & Ho). rewrite (so_txs _ _ _ Ho). apply replies_over, Hp. Qed.
Lemma state_GetUTXO id : replies (s_GetUTXO id st) (found (c_utxos s !! id)).
Proof.
  destruct Hst as (s0 & Hp & Ho). rewrite (so_utxos _ _ _ Ho). unfold s_GetUTXO, override. rewrite lookup_merge.
  pose proof (ps_utxo _ _ Hp id) as Hu. by destruct (modifiedUTXOs st !! id) as [[u|]|], (c_utxos s0 !! id); first [by left|exact Hu].
Qed.
Lemma state_GetDelegateeReward id n : replies (s_GetDelegateeReward id n st) (found (c_rewards s !! (id, n))).
Proof.
  destruct Hst as (s0 & Hp & Ho). rewrite (so_rewards _ _ _ Ho). unfold s_GetDelegateeReward, ValidatorMetadata.GetDelegateeReward. left.
  by destruct (lookup2 _ n id).
Qed.

Lemma state_GetExpiryIterator : iterates Expiry_Less (s_GetExpiryIterator st) (fun e => e ∈ c_expiry s).
Proof. destruct Hst as (s0 & Hp & Ho). apply iterates_ok, (expiry_iterator _ _ _ _ (so_expiry _ _ _ Ho)). exact (lists_tree Expiry_Less _ _ (ps_expiry _ _ Hp)). Qed.
Lemma state_HasExpiry e : replies (s_HasExpiry e st) (Ok (bool_decide (e ∈ c_expiry s))).
Proof.
  destruct Hst as (s0 & Hp & Ho). unfold s_HasExpiry. left. destruct (e_modified (expiryDiff st) !! e) as [b|] eqn:He; f_equal.
  - pose proof (ei_modified _ _ _ (so_expiry _ _ _ Ho) _ _ He) as Hb. cbn in Hb. destruct b; symmetry; [apply bool_decide_eq_true|apply bool_decide_eq_false]; naive_solver.
  - pose proof (ei_same _ _ _ (so_expiry _ _ _ Ho) _ He) as Hs. cbn in Hs. rewrite (bool_decide_ext _ _ Hs).
    destruct (ps_expiry _ _ Hp) as [Hso Hin]. rewrite has_items by done. apply eq_true_iff_eq. rewrite existsb_exists, bool_decide_eq_true, <- Hin.
    setoid_rewrite <- list_elem_of_In. split.
    + intros (x & Hx & Hcmp). apply andb_true_iff in Hcmp as [H1' H2']. apply negb_true_iff in H1', H2'.
      destruct (decide (x = e)) as [->|Hne]; [done|]. destruct (less_total (less := Expiry_Less) (key := fun e => e) x e Hne); congruence.
    + intros Hx. exists e. split; [done|]. by rewrite (less_irrefl (less := Expiry_Less) (key := fun e => e)).
Qed.

Lemma state_GetActiveL1ValidatorsIterator : iterates L1_Less (s_GetActiveL1ValidatorsIterator st) (is_active (c_l1 s)).
Proof. destruct Hst as (s0 & Hp & Ho). apply iterates_ok. eapply l1_iterator; [apply (so_l1 _ _ _ Ho)|]. exact (lists_tree L1_Less _ _ (ps_tree _ _ Hp)). Qed.
Lemma state_NumActiveL1Validators : s_NumActiveL1Validators st = num_active (c_l1 s).
Proof.
  destruct Hst as (s0 & Hp & Ho). unfold s_NumActiveL1Validators, a_len. rewrite (ps_lookup _ _ Hp), <- num_active_size, (li_net _ _ _ (so_l1 _ _ _ Ho)). lia.
Qed.
Lemma state_WeightOfL1Validators id : replies (s_WeightOfL1Validators id st) (Ok (total (c_l1 s) id)).
Proof.
  destruct Hst as (s0 & Hp & Ho). rewrite (li_total _ _ _ (so_l1 _ _ _ Ho)). unfold s_WeightOfL1Validators.
  destruct (modifiedTotalWeight _ !! id); [by left|]. apply (ps_weight _ _ Hp).
Qed.
Lemma state_GetL1Validator id : replies (s_GetL1Validator id st) (found (c_l1 s !! id)).
Proof.
  destruct Hst as (s0 & Hp & Ho). unfold s_GetL1Validator. pose proof (so_l1 _ _ _ Ho) as Hl.
  destruct (modified _ !! id) as [v|] eqn:Hv.
  - destruct (li_modified _ _ _ Hl _ _ Hv) as (_ & _ & ->). left. by destruct (isDeleted v).
  - rewrite (li_same _ _ _ Hl _ Hv). unfold getPersistedL1Validator, a_get. destruct (a_lookup _ !! id) as [v|] eqn:Hid; [|by apply (ps_inactive _ _ Hp)].
    left. rewrite (ps_lookup _ _ Hp), map_lookup_filter_Some in Hid. destruct Hid as [-> _]. done.
Qed.
Lemma state_HasL1Validator id n : replies (s_HasL1Validator id n st) (Ok (has_node (c_l1 s) id n)).
Proof.
  destruct Hst as (s0 & Hp & Ho). rewrite (li_has _ _ _ (so_l1 _ _ _ Ho)). unfold s_HasL1Validator.
  destruct (hasL1Validator id n _); [by left|]. apply (ps_has _ _ Hp).
Qed.

Lemma state_Get_validator k id n : replies (s_GetValidator k id n st) (found (vals (c_view k s) id n)).
Proof. destruct Hst as (s0 & _ & Ho). left. apply (base_queries _ _ (so_stakers _ _ _ Ho k)). Qed.
Lemma state_Get_delegator_iterator k id n : iterates Stakers.Less (s_GetDelegatorIterator k id n st) (fun x => dels (c_view k s) x /\ at_node id n x).
Proof. destruct Hst as (s0 & _ & Ho). apply iterates_ok, (base_queries _ _ (so_stakers _ _ _ Ho k)). Qed.
Lemma state_Get_staker_iterator k : iterates Stakers.Less (s_GetStakerIterator k st) (member (c_view k s)).
Proof. destruct Hst as (s0 & _ & Ho). apply iterates_ok, (base_queries _ _ (so_stakers _ _ _ Ho k)). Qed.

Lemma state_queries_ok : queries_ok (s_queries st) (c_l1 s) (vals (c_view Current s)).
Proof. split_and!; intros; [apply state_GetL1Validator|apply state_Get_validator|apply state_HasL1Validator|apply state_WeightOfL1Validators]. Qed.
End queries.

(** ** Updates *)
Ltac layer Hst := destruct Hst as (s0 & Hp & Ho); exists s0; split; [by destruct Hp; constructor|]; destruct Ho; constructor; cbn; try done.

Lemma rep_state_wf st s : rep_state st s -> wf_chain s.
Proof.
  intros (s0 & _ & Ho). split.
  - intros k. split; [apply (br_wf _ _ (so_stakers _ _ _ Ho k))|]. apply (so_used _ _ _ Ho).
  - apply (li_wf _ _ _ (so_l1 _ _ _ Ho)).
  - apply (so_l1_wf _ _ _ Ho).
Qed.

Section updates.
Context (st : state) (s : CState T) (Hst : rep_state st s).

Lemma state_SetTimestamp t : rep_state (s_SetTimestamp t st) (set_timestamp t s).
Proof. layer Hst. Qed.
Lemma state_SetFeeState f : rep_state (s_SetFeeState f st) (set_fee f s).
Proof. layer Hst. Qed.
Lemma state_SetL1ValidatorExcess e : rep_state (s_SetL1ValidatorExcess e st) (set_excess e s).
Proof. layer Hst. Qed.
Lemma state_SetAccruedFees f : rep_state (s_SetAccruedFees f st) (set_accrued f s).
Proof. layer Hst. Qed.
Lemma state_SetCurrentSupply id x : rep_state (s_SetCurrentSupply id x st) (set_supply (<[id := x]> (c_supply s)) s).
Proof.
  unfold s_SetCurrentSupply. case_bool_decide as Hid.
  - subst. layer Hst; [by rewrite lookup_insert_eq|]. intros id Hid. rewrite lookup_insert_ne by done. by apply so_supply0.
  - layer Hst; [by rewrite lookup_insert_ne|]. intros id' Hid'. rewrite <- insert_union_l. destruct (decide (id' = id)) as [->|Hne].
    + by rewrite !lookup_insert_eq.
    + rewrite !lookup_insert_ne by done. by apply so_supply0.
Qed.
Lemma state_PutExpiry e : rep_state (s_PutExpiry e st) (set_expiry ({[e]} ∪ c_expiry s) s).
Proof. layer Hst. eapply expiry_ext, expiry_put; [|done]. set_solver. Qed.
Lemma state_DeleteExpiry e : rep_state (s_DeleteExpiry e st) (set_expiry (c_expiry s ∖ {[e]}) s).
Proof. layer Hst. eapply expiry_ext, expiry_delete; [|done]. set_solver. Qed.
Lemma state_AddSubnet id : rep_state (s_AddSubnet id st) (set_subnets (c_subnets s ++ [id]) s).
Proof. layer Hst. rewrite app_assoc. by f_equal. Qed.
Lemma state_SetSubnetOwner id o : rep_state (s_SetSubnetOwner id o st) (set_owners (<[id := o]> (c_owners s)) s).
Proof. layer Hst. by apply put_at. Qed.
Lemma state_SetSubnetToL1Conversion id v : rep_state (s_SetSubnetToL1Conversion id v st) (set_conversions (<[id := v]> (c_conversions s)) s).
Proof. layer Hst. by apply put_at. Qed.
Lemma state_AddTx tx x : rep_state (s_AddTx tx x st) (set_txs (<[Tx_ID tx := (tx, x)]> (c_txs s)) s).
Proof. layer Hst. by apply put_at. Qed.
Lemma state_AddRewardUTXO id u : rep_state (s_AddRewardUTXO id u st) (set_reward_utxos (snoc_at id u (c_reward_utxos s)) s).
Proof. layer Hst. by apply snoc_over. Qed.
Lemma state_AddUTXO u : rep_state (s_AddUTXO u st) (set_utxos (<[InputID u := u]> (c_utxos s)) s).
Proof. layer Hst. rewrite override_insert. by f_equal. Qed.
Lemma state_DeleteUTXO id : rep_state (s_DeleteUTXO id st) (set_utxos (delete id (c_utxos s)) s).
Proof. layer Hst. rewrite override_insert. by f_equal. Qed.
Lemma state_AddSubnetTransformation tx id : transform_subnet tx = Some id ->
  wp never (s_AddSubnetTransformation tx) (fun _ st' => rep_state st' (set_transformations (<[id := tx]> (c_transformations s)) s)) st.
Proof. intros Htx. unfold s_AddSubnetTransformation. rewrite Htx. wp_steps. layer Hst. by apply put_at. Qed.
Lemma state_AddChain tx id : create_chain_subnet tx = Some id ->
  wp never (s_AddChain tx) (fun _ st' => rep_state st' (set_chains (snoc_at id tx (c_chains s)) s)) st.
Proof. intros Htx. unfold s_AddChain. rewrite Htx. wp_steps. layer Hst. by apply snoc_over. Qed.
Lemma state_SetDelegateeReward id n a : is_Some (c_rewards s !! (id, n)) ->
  wp db_fault (s_SetDelegateeReward id n a) (fun _ st' => rep_state st' (set_rewards (<[(id, n) := a]> (c_rewards s)) s)) st.
Proof.
  intros Hs. destruct Hst as (s0 & Hp & Ho). unfold s_SetDelegateeReward. wp_steps. rewrite (so_rewards _ _ _ Ho) in Hs. unfold ValidatorMetadata.SetDelegateeReward.
  destruct (lookup2 (ValidatorMetadata.m_metadata (validatorState st)) n id) as [x|] eqn:Hx; [|by destruct Hs].
  wp_steps. exists s0. split; [by destruct Hp; constructor|]. destruct Ho. constructor; cbn; try done. intros id' n'. rewrite lookup2_insert2.
  case_bool_decide as Hc; [destruct Hc as [-> ->]; by rewrite lookup_insert_eq|]. rewrite lookup_insert_ne by (intros [= -> ->]; by apply Hc). apply so_rewards0.
Qed.

Lemma state_PutL1Validator v : is_u64 (L_Weight v) -> (c_l1 s !! ValidationID v = None -> ~ c_l1_used s (ValidationID v)) ->
  wp (fun e => db_fault e \/ l1_put (c_l1 s) (vals (c_view Current s)) v = Err e) (s_PutL1Validator v)
    (fun _ st' => exists L', l1_put (c_l1 s) (vals (c_view Current s)) v = Ok L' /\ rep_state st' (set_l1 L' (fun id => c_l1_used s id \/ id = ValidationID v) s)) st.
Proof.
  intros Hv Hn. pose proof (state_queries_ok st s Hst) as Hq. unfold s_PutL1Validator. wp_steps. destruct Hst as (s0 & Hp & Ho).
  assert (c_l1 s !! ValidationID v = None -> c_l1 s0 !! ValidationID v = None) as Hre.
  { intros Hno. apply eq_None_not_Some. intros Hso. by apply (Hn Hno), (so_l1_used _ _ _ Ho), (ps_l1_used _ _ Hp). }
  pose proof (putL1_spec _ _ _ _ _ v (so_l1 _ _ _ Ho) Hq Hv Hre) as Hput. destruct (putL1Validator _ _ _) as [x|e] eqn:Hpx; [|done].
  destruct Hput as (L' & HL & Hi'). wp_steps. exists L'. split; [done|]. exists s0. split; [by destruct Hp; constructor|].
  pose proof (l1_put_upd _ _ _ _ HL) as HL'. destruct Ho. constructor; cbn; try done.
  - intros id. rewrite HL', lookup_upd. case_bool_decide; [by right|]. intros. left. by apply so_l1_wf0.
  - intros id Hid. left. by apply so_l1_used0.
Qed.

(** A change of the stakers of one kind. *)
Lemma rep_state_stakers k g f : base_rep (g (stakers st k)) (s_view (f (c_stakers s k))) ->
  (forall x, member (s_view (f (c_stakers s k))) x -> s_used (f (c_stakers s k)) (TxID x)) -> (forall id n, ~ s_refuse (f (c_stakers s k)) id n) ->
  wp never (set_kind k g) (fun _ st' => rep_state st' (upd_stakers k f s)) st.
Proof.
  intros Hb Hu Hr. apply wp_modify. layer Hst.
  - intros k'. case_bool_decide; [by subst|apply so_stakers0].
  - intros k' x. case_bool_decide; [by subst; apply Hu|apply so_used0].
  - intros k' id n. case_bool_decide; [by subst; apply Hr|apply so_refuse0].
Qed.
Lemma state_base k : base_rep (stakers st k) (c_view k s) /\ (forall x, member (c_view k s) x -> c_used k s (TxID x)) /\ forall id n, ~ c_refuse k s id n.
Proof. destruct Hst as (s0 & _ & Ho). split_and!; apply Ho. Qed.
Lemma state_unused k (x : Staker PublicKey) : ~ c_used k s (TxID x) -> forall y, member (c_view k s) y -> TxID y <> TxID x.
Proof. intros Hu y Hy Heq. apply Hu. rewrite <- Heq. by apply state_base. Qed.

Lemma state_PutValidator k x : vals (c_view k s) (SubnetID x) (NodeID x) = None -> ~ c_used k s (TxID x) ->
  wp (fun e => e = ErrAddingStakerAfterDeletion /\ c_refuse k s (SubnetID x) (NodeID x)) (s_PutValidator k x)
    (fun _ st' => ~ c_refuse k s (SubnetID x) (NodeID x) /\ rep_state st' (upd_stakers k (put_val x) s)) st.
Proof.
  intros Hno Hu. destruct (state_base k) as (Hb & Hm & Hr). apply wp_never.
  eapply wp_mono; [apply (rep_state_stakers k _ (put_val x)); cbn; [by apply base_Put_validator_rep; [..|by apply state_unused]| |done]|].
  - intros y Hy. apply put_validator_member in Hy as [Hy| ->]; [left; by apply Hm|by right|apply (br_wf _ _ Hb)|done].
  - cbn. by intros [] st' ?.
Qed.
Lemma state_DeleteValidator k x : is_validator (c_view k s) x ->
  wp never (s_DeleteValidator k x)
    (fun _ st' => exists r, rep_state st' (upd_stakers k (delete_val x r) s) /\ forall id n, r id n -> c_refuse k s id n \/ at_node id n x) st.
Proof.
  intros Hx. destruct (state_base k) as (Hb & Hm & Hr).
  eapply wp_mono; [apply (rep_state_stakers k _ (delete_val x (fun _ _ => False))); cbn; [by apply base_Delete_validator_rep| |tauto]|].
  - intros y Hy. apply delete_validator_member in Hy as [Hy _]; [by apply Hm|apply (br_wf _ _ Hb)|done].
  - cbn. intros [] st' ?. by exists (fun _ _ => False).
Qed.
Lemma state_PutDelegator k x : ~ c_used k s (TxID x) -> wp never (s_PutDelegator k x) (fun _ st' => rep_state st' (upd_stakers k (put_del x) s)) st.
Proof.
  intros Hu. destruct (state_base k) as (Hb & Hm & Hr).
  apply rep_state_stakers; cbn; [by apply base_Put_delegator_rep; [|by apply state_unused]| |done].
  intros y Hy. apply put_delegator_member in Hy as [Hy| ->]; [left; by apply Hm|by right].
Qed.
Lemma state_DeleteDelegator k x : dels (c_view k s) x -> wp never (s_DeleteDelegator k x) (fun _ st' => rep_state st' (upd_stakers k (delete_del x) s)) st.
Proof.
  intros Hx. destruct (state_base k) as (Hb & Hm & Hr).
  apply rep_state_stakers; cbn; [by apply base_Delete_delegator_rep| |done].
  intros y Hy. apply remove_delegator_member in Hy as [Hy _]; [by apply Hm|apply (br_wf _ _ Hb)|done].
Qed.
End updates.

Lemma state_laws : ChainLaws state rep_state.
Proof.
  constructor.
  - apply rep_state_wf.
  - intros st s (s0 & _ & Ho). apply (so_timestamp _ _ _ Ho).
  - intros. by apply state_SetTimestamp.
  - intros st s (s0 & _ & Ho). apply (so_fee _ _ _ Ho).
  - intros. by apply state_SetFeeState.
  - intros st s (s0 & _ & Ho). apply (so_excess _ _ _ Ho).
  - intros. by apply state_SetL1ValidatorExcess.
  - intros st s (s0 & _ & Ho). apply (so_accrued _ _ _ Ho).
  - intros. by apply state_SetAccruedFees.
  - intros. by apply state_GetCurrentSupply.
  - intros. by apply state_SetCurrentSupply.
  - intros. by apply state_GetExpiryIterator.
  - intros. by apply state_HasExpiry.
  - intros. by apply state_PutExpiry.
  - intros. by apply state_DeleteExpiry.
  - intros. by apply state_GetActiveL1ValidatorsIterator.
  - intros. by apply state_NumActiveL1Validators.
  - intros. by apply state_WeightOfL1Validators.
  - intros. by apply state_GetL1Validator.
  - intros. by apply state_HasL1Validator.
  - intros. by apply state_PutL1Validator.
  - intros. by apply state_Get_validator.
  - intros. by apply state_Get_delegator_iterator.
  - intros. by apply state_Get_staker_iterator.
  - intros. by apply state_PutValidator.
  - intros. by apply state_DeleteValidator.
  - intros. by apply state_PutDelegator.
  - intros. by apply state_DeleteDelegator.
  - intros. by apply state_SetDelegateeReward.
  - intros. by apply state_GetDelegateeReward.
  - intros. by apply state_AddSubnet.
  - intros. by eapply state_GetSubnetOwner.
  - intros. by apply state_SetSubnetOwner.
  - intros. by apply state_GetSubnetToL1Conversion.
  - intros. by apply state_SetSubnetToL1Conversion.
  - intros. by apply state_GetSubnetTransformation.
  - intros. by apply state_AddSubnetTransformation.
  - intros. by apply state_AddChain.
  - intros. by apply state_GetTx.
  - intros. by apply state_AddTx.
  - intros. by apply state_AddRewardUTXO.
  - intros. by apply state_GetUTXO.
  - intros. by apply state_AddUTXO.
  - intros. by apply state_DeleteUTXO.
Qed.
End facts.
End ChainStateFacts.
