(* ===== verification/ChainTheorems.v ===== *)
(** * What diffs and the state promise
    The theorems about the chain state of the P-chain: both implementations of
    [Chain] keep its laws, [Apply] carries a diff over to the base, and where the
    order of the operations in [Apply] makes it fail for changes that the diff has
    accepted. *)
From S2P Require Import Prelude Monads MapOrder SafeMath Sorting Gas BTree Iterators Stakers StakersFacts ValidatorMetadata L1Validators Chain ChainDiff ApplyFacts ChainState.

Module ChainTheorems.
Import Sorting BTree Iterators KeyedTrees Stakers StakersFacts L1Validators L1Facts Chain ChainDiff ChainDiffFacts ChainApply ApplyL1 ApplyFacts ChainState ChainStateFacts.

(** ** A state without anything *)
Section empty.
Context {T : ChainTypes} `{BTreeLaws (Staker PublicKey)} `{BTreeLaws ExpiryEntry} `{BTreeLaws L1Validator}.
Definition nothing : Persisted :=
  mkPersisted (fun _ => Err ErrNotFound) (fun _ => Ok 0) (fun _ => Err ErrNotFound) (fun _ _ => Ok false) (fun _ => Ok None)
    (fun _ => Err ErrNotFound) (fun _ => Err ErrNotFound) (fun _ => Err ErrNotFound) (fun _ => Err ErrNotFound).
Definition empty_state : state :=
  mkState nothing ValidatorMetadata.newValidatorState NewG newExpiryDiff newActiveL1Validators newL1ValidatorsDiff (fun _ => newBaseStakers)
    ∅ ∅ ∅ [] ∅ ∅ ∅ ∅ ∅ 0 (Gas.mkState 0 0) 0 0 0.
Definition empty_view : view (PK := PublicKey) := mkView (fun _ _ => None) (fun _ => False).
Definition empty_chain : CState T :=
  mkC 0 (Gas.mkState 0 0) 0 0 {[PrimaryNetworkID := 0]} ∅ ∅ (fun _ => False) (fun _ => mkS empty_view (fun _ => False) (fun _ _ => False))
    ∅ [] ∅ ∅ ∅ (fun _ => []) ∅ (fun _ => []) ∅.

Lemma empty_total s : total ∅ s = 0.
Proof. done. Qed.
Lemma empty_l1 : wf_l1 ∅.
Proof. split; [done|done|]. intros s. rewrite empty_total. done. Qed.
Lemma empty_base : base_rep newBaseStakers empty_view.
Proof.
  split; cbn; try done.
  - split; [done|by intros x y [Hx|Hx]|done].
  - intros id n. change (forall x : Staker PublicKey, ~ (False /\ at_node id n x)). tauto.
  - eapply holds_ext; [apply (holds_new Stakers.Less)|]. intros x. by split; [|intros [?|?]].
Qed.
Lemma rep_empty : rep_state empty_state empty_chain.
Proof.
  exists empty_chain. split.
  - split; cbn; try done; try (intros; by left).
    + by intros id [v Hv].
    + intros id Hid. rewrite lookup_insert_ne by done. by left.
    + eapply holds_ext; [apply (holds_new L1_Less)|]. intros x. by split; [|intros []].
    + eapply holds_ext; [apply (holds_new Expiry_Less)|]. intros x. set_solver.
  - split; cbn; try done.
    + apply expiry_new.
    + by apply l1_inv_new, empty_l1.
    + by intros id [v Hv].
    + intros _. apply empty_base.
    + by intros _ x [Hx|Hx].
    + intros _ id n Hf. exact Hf.
Qed.
End empty.

(** ** The theorems *)
Section theorems.
Context {T : ChainTypes} `{BTreeLaws (Staker PublicKey)} `{BTreeLaws ExpiryEntry} `{BTreeLaws L1Validator}.

(** C17: A diff over a parent that implements the chain state implements it too: [NewDiff]
    fails exactly when the parent is not known, otherwise the new diff holds what the
    parent holds; and every query of a diff answers what the changes have made of the
    parent, every update changes its own part of that, so that diffs stack. *)
Theorem diff_refines_chain (C : Type) `{!Chain C} (rep : C -> CState T -> Prop) :
  ChainLaws C rep ->
  (forall p s0, ChainLaws (diff C) (rep_diff C rep p s0)) /\
  forall parent versions, match versions parent with
    | None => NewDiff C parent versions = Err ErrMissingParentState
    | Some p => forall s, rep p s -> exists d, NewDiff C parent versions = Ok d /\ rep_diff C rep p s d (fresh s)
    end.
Proof.
  intros Hl. split; [intros p s0; apply diff_laws; apply _|]. intros parent versions. destruct (versions parent) as [p|] eqn:Hv.
  - intros s. by apply rep_NewDiff.
  - unfold NewDiff. by rewrite Hv.
Qed.

(** C19: The state itself implements the chain state: what the databases hold, with the
    changes since the last commit that it keeps in maps, trees and diffs. *)
Theorem state_refines_chain : ChainLaws state rep_state.
Proof. apply state_laws. Qed.

(** C18: [Apply] carries the changes of a diff over to a base that holds what the parent of
    the diff holds: it ends with what the diff answers, in whatever order the runtime
    visits the maps, provided the changes are [applicable]; only a fault of the
    database can stop it, and it never panics. *)
Theorem Apply_correct (C B : Type) `{!Chain C, !Chain B} (repC : C -> CState T -> Prop) (repB : B -> CState T -> Prop)
    {HO : KeyOrder ID} {HE : KeyOrder ExpiryEntry} p s0 d s b :
  ChainLaws B repB -> rep_diff C repC p s0 d s -> applicable C d s0 s -> repB b s0 ->
  wp db_fault (Apply d) (fun _ b' => exists s', repB b' s' /\ same_chain s' s) b.
Proof. intros Hl (_ & _ & Ho) Ha Hb. by eapply Apply_same. Qed.
End theorems.

(** ** Blocks on a small chain *)
Definition demo_types : ChainTypes := {| PublicKey := Z; Owner := Z; TxFields := Z; UTXO := list Z * Z; InputID := fst |}.
(** The order that visits the keys backwards. *)
Definition reverse_order {A} `{Countable A} : KeyOrder A := {|
  keys X := rev (elements X);
  keys_perm X := Permutation_sym (Permutation_rev (elements X));
|}.
#[local] Existing Instances demo_types list_btree list_btree_laws.

Definition demo_staker (tx node : Z) : Staker Z := mkStaker [tx] [node] None [7] 100 0 1000 5 1000 3.
Definition demo_l1 (id node weight fee : Z) : L1Validator := mkL1 [id] [7] [node] [1] [] [] 0 weight 0 fee.

Abbreviation demo_state := (state (T := demo_types)).
Definition on_state (m : M demo_state StateErr unit) : demo_state := (m empty_state).1.
Definition new_diff (st : demo_state) : diff demo_state :=
  match NewDiffOn demo_state st with Ok d => d | Err _ => mkDiff demo_state 0 [] (fun _ => None) 0 (Gas.mkState 0 0) 0 0 0 ∅ newExpiryDiff newL1ValidatorsDiff
    (fun _ => newDiffStakers) ∅ [] ∅ ∅ ∅ ∅ ∅ ∅ ∅ end.
Definition apply_elements (d : diff demo_state) (st : demo_state) : result StateErr unit :=
  (Apply (HO := elements_order) (HE := elements_order) d st).2.
Definition apply_reverse (d : diff demo_state) (st : demo_state) : result StateErr unit :=
  (Apply (HO := reverse_order) (HE := elements_order) d st).2.


(** A legacy validator leaves, and an L1 validator takes its node. *)
Definition legacy_state : demo_state := on_state (s_PutValidator Current (demo_staker 1 1)).
Definition replace_block : M (diff demo_state) StateErr unit :=
  d_DeleteValidator demo_state Current (demo_staker 1 1);; d_PutL1Validator demo_state (demo_l1 10 1 50 0).
(** One validator loses weight, another one gains it. *)
Definition heavy_state : demo_state := on_state (s_PutL1Validator (demo_l1 10 1 (MaxUint64 - 10) 0);; s_PutL1Validator (demo_l1 11 2 5 0)).
Definition shift_block : M (diff demo_state) StateErr unit :=
  d_PutL1Validator demo_state (demo_l1 10 1 5 0);; d_PutL1Validator demo_state (demo_l1 11 2 (MaxUint64 - 10) 0).
(** An L1 validator is replaced on its node, and the new one is removed in the same block. *)
Definition occupied_state : demo_state := on_state (s_PutL1Validator (demo_l1 11 1 50 0)).
Definition replace_twice_block : M (diff demo_state) StateErr unit :=
  d_PutL1Validator demo_state (demo_l1 11 1 0 0);; d_PutL1Validator demo_state (demo_l1 10 1 50 0);; d_PutL1Validator demo_state (demo_l1 10 1 0 0).
(** A block without conflicts. *)
Definition plain_block : M (diff demo_state) StateErr unit :=
  modify (d_SetTimestamp demo_state 9);; d_PutValidator demo_state Current (demo_staker 1 1);; d_PutL1Validator demo_state (demo_l1 10 2 50 0).

(** Two L1 validators on an empty state, as far as they are accepted. *)
Lemma rep_put_l1 (s : CState demo_types) v : is_u64 (L_Weight v) -> ~ c_l1_used s (ValidationID v) -> forall st, rep_state st s ->
  wp (fun _ => True) (s_PutL1Validator v)
    (fun _ st' => exists L', rep_state st' (set_l1 L' (fun id => c_l1_used s id \/ id = ValidationID v) s)) st.
Proof.
  intros Hv Hu st Hr. eapply wp_weaken; [done|]. eapply wp_mono; [by apply (state_PutL1Validator st s Hr v)|].
  cbn. intros [] st' (L' & _ & Hr'). by exists L'.
Qed.
Lemma rep_legacy : exists s, rep_state legacy_state s.
Proof.
  pose proof (state_PutValidator empty_state empty_chain rep_empty Current (demo_staker 1 1) eq_refl (fun Hf => Hf)) as Hw.
  eexists. by apply (wp_run _ _ _ _ _ tt Hw).
Qed.
Lemma rep_occupied : exists s, rep_state occupied_state s.
Proof.
  pose proof (rep_put_l1 empty_chain (demo_l1 11 1 50 0) ltac:(by apply is_u64_max) (fun Hf => Hf) _ rep_empty) as Hw.
  destruct (wp_run _ _ _ _ occupied_state tt Hw ltac:(by vm_compute)) as [L' Hr]. by eexists.
Qed.
Lemma rep_heavy : exists s, rep_state heavy_state s.
Proof.
  assert (wp (fun _ => True) (s_PutL1Validator (demo_l1 10 1 (MaxUint64 - 10) 0);; s_PutL1Validator (demo_l1 11 2 5 0)) (fun _ st => exists s, rep_state st s) empty_state) as Hw.
  { apply wp_bind. eapply wp_mono; [apply (rep_put_l1 empty_chain); [by apply is_u64_max|exact (fun Hf => Hf)|apply rep_empty]|]. cbn. intros [] st (L & Hr).
    eapply wp_mono; [apply (rep_put_l1 _ (demo_l1 11 2 5 0)) with (3 := Hr); [by apply is_u64_max|cbn; by intros [|]]|]. cbn. intros [] st' (L' & Hr'). by eexists. }
  apply (wp_run _ _ _ _ heavy_state tt Hw). by vm_compute.
Qed.

(** C24: The diff accepts changes that [Apply] then refuses on the state below it, where no
    theorem can help: an L1 validator on the node of a legacy validator that the same
    block removes conflicts with it, as the L1 validators go first; and whether a shift
    of weight between two L1 validators overflows the weight of the subnet, or an L1
    validator that the block has put and removed again meets the old one of its node,
    depends on the order of a map. *)
Theorem Apply_order_errors :
  ((exists s, rep_state legacy_state s) /\ (replace_block (new_diff legacy_state)).2 = Ok tt /\
    let d := (replace_block (new_diff legacy_state)).1 in
    apply_elements d legacy_state = Err ErrConflictingL1Validator /\ apply_reverse d legacy_state = Err ErrConflictingL1Validator) /\
  ((exists s, rep_state heavy_state s) /\ (shift_block (new_diff heavy_state)).2 = Ok tt /\
    let d := (shift_block (new_diff heavy_state)).1 in
    apply_elements d heavy_state = Err (ErrMath SafeMath.ErrOverflow) /\ apply_reverse d heavy_state = Ok tt) /\
  ((exists s, rep_state occupied_state s) /\ (replace_twice_block (new_diff occupied_state)).2 = Ok tt /\
    let d := (replace_twice_block (new_diff occupied_state)).1 in
    apply_elements d occupied_state = Ok tt /\ apply_reverse d occupied_state = Err ErrDuplicateL1Validator).
Proof.
  split; [|split]; (split; [first [apply rep_legacy|apply rep_heavy|apply rep_occupied]|]); vm_compute; auto.
Qed.

(** ** Witnesses *)
Definition plain_diff : diff demo_state := (plain_block (new_diff empty_state)).1.
Lemma peak_new L s : wf_l1 L -> peak ∅ L s <= MaxUint64.
Proof.
  intros Hw. etransitivity; [|apply (wl_total _ Hw s)]. apply msum_mono. intros id. rewrite map_lookup_imap, lookup_omap.
  destruct (L !! id) as [v|] eqn:Hv; [|done]. cbn. rewrite lookup_empty. unfold weight_in. destruct (wl_value _ Hw _ _ Hv) as (_ & [? _] & _).
  case_bool_decide; cbn; lia.
Qed.
Lemma rep_plain : exists s, rep_diff demo_state rep_state empty_state empty_chain plain_diff s /\ applicable demo_state plain_diff empty_chain s.
Proof.
  pose proof state_laws. destruct (rep_NewDiff demo_state rep_state ids_Empty (stateGetter demo_state empty_state) empty_state empty_chain eq_refl rep_empty) as (d & Hd & Hr).
  assert (d = new_diff empty_state) as -> by (unfold new_diff, NewDiffOn; by rewrite Hd).
  assert (wp (fun _ => True) plain_block (fun _ d' => exists s, rep_diff demo_state rep_state empty_state empty_chain d' s /\
    applicable demo_state d' empty_chain s) (new_diff empty_state)) as Hw.
  { unfold plain_block. apply wp_bind, wp_modify. apply (rep_SetTimestamp demo_state rep_state _ _ _ _) with (t := 9) in Hr.
    apply wp_bind. eapply wp_mono; [eapply wp_weaken; [done|apply (rep_PutValidator demo_state rep_state _ _ _ _ Current Hr (demo_staker 1 1)); [done|exact (fun Hf => Hf)]]|].
    cbn beta. intros [] d [_ Hr1].
    eapply wp_mono; [eapply wp_weaken; [done|apply (rep_PutL1Validator demo_state rep_state _ _ _ _ Hr1 (demo_l1 10 2 50 0)); [by apply is_u64_max|exact (fun _ Hf => Hf)]]|].
    cbn beta. intros [] d' (L' & _ & Hr2). eexists. split; [exact Hr2|]. split; cbn; try done; [intros; auto|].
    intros id. apply peak_new. destruct Hr2 as (_ & _ & Ho). apply (li_wf _ _ _ (ro_l1 _ _ _ _ Ho)). }
  apply (wp_run _ _ _ _ plain_diff tt Hw). by vm_compute.
Qed.

Lemma diff_refines_chain_witness :
  ChainLaws (diff (diff demo_state)) (rep_diff (diff demo_state) (rep_diff demo_state rep_state empty_state empty_chain) plain_diff empty_chain).
Proof. apply (diff_refines_chain (diff demo_state)), (diff_laws demo_state rep_state (ChainLaws0 := state_laws)). Defined.
Lemma state_refines_chain_witness : ChainLaws demo_state rep_state.
Proof. exact (state_refines_chain (T := demo_types)). Defined.
Lemma Apply_correct_witness : exists s, wp db_fault (Apply (HO := reverse_order) (HE := elements_order) plain_diff)
  (fun _ b' => exists s', rep_state b' s' /\ same_chain s' s) empty_state.
Proof.
  destruct rep_plain as (s & Hd & Ha). exists s.
  exact (Apply_correct demo_state demo_state rep_state rep_state (HO := reverse_order) (HE := elements_order) _ _ _ _ _ state_laws Hd Ha rep_empty).
Defined.
End ChainTheorems.
