(* ===== verification/DiffKeys.v ===== *)
(** * The keys of the validator history
    Models [vms/platformvm/state/disk_staker_diff_iterator.go]: the changes of the
    validator sets are stored under keys in which the height has its bits flipped, so
    that an iterator visits the heights from the last one down. *)
From S2P Require Import Prelude Sorting GoLibrary Database Stakers L1Validators Prefixdb.

Module DiffKeys.
Import Sorting Database Stakers L1Validators.

Inductive HistErr :=
  | errUnexpectedDiffKeyLength
  | errUnexpectedWeightValueLength
  | errMissingPrimaryNetworkValidator
  | ErrContext
  | ErrStore (e : DbErr)
  | ErrState (e : StateErr)
  | OutOfFuel.

Definition startDiffKeyLength : nat := IDLen + 8.
Definition diffKeyLength : nat := startDiffKeyLength + NodeIDLen.
Definition diffKeyNodeIDOffset : nat := IDLen + 8.
Definition weightValueLength : nat := 1 + 8.

(** [^height] of a [uint64]. *)
Definition flip (height : Z) : Z := wrap64 (Z.lnot height).
Definition packIterableHeight (height : Z) : bytes := PackUInt64 (flip height).
Definition unpackIterableHeight (key : bytes) : Z := flip (BigEndian.get 8 key).

(** The IDs fill their part of the key, as they have its length. *)
Definition marshalStartDiffKeyBySubnetID (subnetID : ID) (height : Z) : bytes := subnetID ++ packIterableHeight height.
Definition marshalStartDiffKeyByHeight (height : Z) : bytes := packIterableHeight height.
Definition marshalDiffKeyBySubnetID (subnetID : ID) (height : Z) (nodeID : ID) : bytes :=
  subnetID ++ packIterableHeight height ++ nodeID.
Definition marshalDiffKeyByHeight (height : Z) (subnetID nodeID : ID) : bytes :=
  packIterableHeight height ++ subnetID ++ nodeID.

Definition unmarshalDiffKeyBySubnetID (key : bytes) : result HistErr (ID * Z * ID) :=
  if negb (length key =? diffKeyLength)%nat then Err errUnexpectedDiffKeyLength
  else Ok (take IDLen key, unpackIterableHeight (drop IDLen key), drop diffKeyNodeIDOffset key).
Definition unmarshalDiffKeyByHeight (key : bytes) : result HistErr (Z * ID * ID) :=
  if negb (length key =? diffKeyLength)%nat then Err errUnexpectedDiffKeyLength
  else Ok (unpackIterableHeight key, take IDLen (drop 8 key), drop diffKeyNodeIDOffset key).

Definition marshalWeightDiff (diff : ValidatorWeightDiff) : bytes := (if Decrease diff then 1 else 0) :: PackUInt64 (Amount diff).
Definition unmarshalWeightDiff (value : bytes) : result HistErr ValidatorWeightDiff :=
  match value with
  | b :: amount =>
      if negb (length value =? weightValueLength)%nat then Err errUnexpectedWeightValueLength
      else Ok (mkWeightDiff (b =? 1) (BigEndian.get 8 amount))
  | [] => Err errUnexpectedWeightValueLength
  end.

(** ** Round trips *)
Definition is_id (id : ID) : Prop := length id = IDLen /\ Forall BigEndian.is_byte id.
Definition is_node (id : ID) : Prop := length id = NodeIDLen /\ Forall BigEndian.is_byte id.

Lemma flip_value h : is_u64 h -> flip h = MaxUint64 - h.
Proof. intros Hh. unfold flip, wrap. unfold Z.lnot, is_uint in *. unfold MaxUint64. rewrite <- (Z_mod_plus_full _ 1), Z.mod_small; lia. Qed.
Lemma flip_u64 h : is_u64 h -> is_u64 (flip h).
Proof. intros Hh. rewrite flip_value by done. ulia. Qed.
Lemma flip_flip h : is_u64 h -> flip (flip h) = h.
Proof. intros Hh. rewrite (flip_value (flip h)), flip_value by (done || by apply flip_u64). lia. Qed.

Lemma length_pack h : length (packIterableHeight h) = 8%nat.
Proof. apply (BigEndian.length_put 8). Qed.
Lemma unpack_pack h rest : is_u64 h -> Forall BigEndian.is_byte rest -> unpackIterableHeight (packIterableHeight h ++ rest) = h.
Proof.
  intros Hh Hr. unfold unpackIterableHeight, packIterableHeight, PackUInt64. rewrite (BigEndian.get_put 8); [by apply flip_flip|by apply flip_u64|done].
Qed.

Lemma key_by_subnet s h n : is_id s -> is_u64 h -> is_node n -> unmarshalDiffKeyBySubnetID (marshalDiffKeyBySubnetID s h n) = Ok (s, h, n).
Proof.
  intros [Hs _] Hh [Hn Hb]. unfold unmarshalDiffKeyBySubnetID, marshalDiffKeyBySubnetID. rewrite !length_app, length_pack, Hs, Hn. cbn [Nat.add IDLen NodeIDLen Nat.eqb negb diffKeyLength startDiffKeyLength].
  rewrite (take_app_length' s), (drop_app_length' s) by done. rewrite unpack_pack by done. do 2 f_equal.
  rewrite app_assoc. apply drop_app_length'. by rewrite length_app, length_pack, Hs.
Qed.
Lemma key_by_height s h n : is_id s -> is_u64 h -> is_node n -> unmarshalDiffKeyByHeight (marshalDiffKeyByHeight h s n) = Ok (h, s, n).
Proof.
  intros [Hs Hsb] Hh [Hn Hb]. unfold unmarshalDiffKeyByHeight, marshalDiffKeyByHeight. rewrite !length_app, length_pack, Hs, Hn. cbn [Nat.add IDLen NodeIDLen Nat.eqb negb diffKeyLength startDiffKeyLength].
  rewrite unpack_pack by (done || by apply Forall_app). rewrite (drop_app_length' (packIterableHeight h)) by by rewrite length_pack.
  rewrite (take_app_length' s) by done. do 2 f_equal. rewrite app_assoc. apply drop_app_length'. by rewrite length_app, length_pack, Hs.
Qed.
Lemma weight_diff_value w : is_u64 (Amount w) -> unmarshalWeightDiff (marshalWeightDiff w) = Ok w.
Proof.
  intros Hw. unfold unmarshalWeightDiff, marshalWeightDiff. cbn [length]. unfold PackUInt64. rewrite (BigEndian.length_put 8).
  pose proof (BigEndian.get_put 8 (Amount w) [] Hw (List.Forall_nil _)) as Hg. rewrite app_nil_r in Hg. cbn [weightValueLength Nat.add Nat.eqb negb]. rewrite Hg. by destruct w as [[] ?].
Qed.

(** ** Order *)
Lemma Compare_head a b x y : length a = length b -> bytes_Compare (a ++ x) (b ++ y) = if decide (a = b) then bytes_Compare x y else bytes_Compare a b.
Proof.
  revert b. induction a as [|i a IH]; intros [|j b] Hl; try done. injection Hl as Hl. cbn.
  destruct (Z.ltb_spec i j) as [?|?]; [rewrite decide_False by (intros [=]; lia); done|].
  destruct (Z.ltb_spec j i) as [?|?]; [rewrite decide_False by (intros [=]; lia); done|].
  assert (i = j) as -> by lia. rewrite IH by done. destruct (decide (a = b)) as [->|Hne]; [by rewrite decide_True|]. rewrite decide_False by congruence. done.
Qed.
Lemma pack_height_order h h' : is_u64 h -> is_u64 h' -> blt (packIterableHeight h) (packIterableHeight h') <-> h' < h.
Proof. intros Hh Hh'. unfold packIterableHeight. rewrite pack_order by by apply flip_u64. rewrite !flip_value by done. lia. Qed.
Lemma pack_height_inj h h' : is_u64 h -> is_u64 h' -> packIterableHeight h = packIterableHeight h' -> h = h'.
Proof.
  intros Hh Hh' Heq. pose proof (pack_inj (flip h) (flip h') (flip_u64 h Hh) (flip_u64 h' Hh') Heq) as Hf. rewrite <- (flip_flip h), <- (flip_flip h') by done. by rewrite Hf.
Qed.

(** Keys with the packed height at the same place, after equal bytes. *)
Lemma key_height_order p h h' x y : is_u64 h -> is_u64 h' -> blt (p ++ packIterableHeight h ++ x) (p ++ packIterableHeight h' ++ y) -> h' <= h.
Proof.
  intros Hh Hh'. unfold blt. rewrite Prefixdb.Prefixdb.Compare_app, Compare_head by by rewrite !length_pack. case_decide as Hd.
  - rewrite (pack_height_inj h h' Hh Hh' Hd). lia.
  - fold (blt (packIterableHeight h) (packIterableHeight h')). rewrite pack_height_order by done. lia.
Qed.

(** The start of an iteration is below exactly the keys of no greater height. *)
Lemma start_order p h h' x : is_u64 h -> is_u64 h' -> 0 <= bytes_Compare (p ++ packIterableHeight h ++ x) (p ++ packIterableHeight h') <-> h <= h'.
Proof.
  intros Hh Hh'. rewrite <- (app_nil_r (packIterableHeight h')), Prefixdb.Prefixdb.Compare_app, Compare_head by by rewrite !length_pack. case_decide as Hd.
  - rewrite (pack_height_inj h h' Hh Hh' Hd). destruct x; cbn; lia.
  - pose proof (pack_height_order h h' Hh Hh') as Ho. unfold blt in Ho.
    assert (bytes_Compare (packIterableHeight h) (packIterableHeight h') <> 0) as Hnz by by rewrite bytes_Compare_eq.
    split; intros Hc; [|lia]. destruct (Z.le_gt_cases h h') as [?|Hg]; [done|]. apply Ho in Hg. lia.
Qed.
End DiffKeys.
