(* ===== verification/ValidatorHistory.v ===== *)
(** * The history of the validator sets
    Models how [vms/platformvm/state/state.go] writes the changes of the validator
    sets of a block into four databases ([calculateValidatorDiffs],
    [writeValidatorDiffs]) and how it takes a validator set back to an earlier height
    with them ([ApplyValidatorWeightDiffs] and its three companions).  The four
    databases are prefixes of one in the code; logging is left out.  BLS keys are of
    a package outside the repository. *)
From S2P Require Import Prelude Monads MapOrder SafeMath Sorting GoLibrary Database BTree Iterators Stakers L1Validators Chain ChainDiff ChainState DiffKeys.

Module ValidatorHistory.
Import Sorting BTree Stakers L1Validators Chain ChainDiff ChainState Database DiffKeys.

(** [utils/crypto/bls]: the uncompressed form of a key; [None] is a nil key. *)
Class BLS (PK : Type) := {
  PublicKeyToUncompressedBytes : PK -> bytes;
  PublicKeyFromValidUncompressedBytes : bytes -> option PK;
}.

(** [validators.GetValidatorOutput] *)
Record GetValidatorOutput (PK : Type) := mkOutput { o_NodeID : ID; o_PublicKey : option PK; o_Weight : Z }.
Arguments mkOutput {PK}.
Arguments o_NodeID {PK}.
Arguments o_PublicKey {PK}.
Arguments o_Weight {PK}.

Definition of_state {A} (r : result StateErr A) : result HistErr A := match r with Ok a => Ok a | Err e => Err (ErrState e) end.

(** ** Going back in time *)
Section replay.
Context {PK : Type} `{BLS PK} `{Database D}.
Abbreviation Output := (GetValidatorOutput PK).
Abbreviation vdrSet := (gmap ID Output).

Definition set_weight (w : Z) (vdr : Output) : Output := mkOutput (o_NodeID vdr) (o_PublicKey vdr) w.
Definition set_key (pk : option PK) (vdr : Output) : Output := mkOutput (o_NodeID vdr) pk (o_Weight vdr).

(** The sum is assigned even when it has overflowed; it is 0 then. *)
Definition applyWeightDiff (nodeID : ID) (weightDiff : ValidatorWeightDiff) : M vdrSet HistErr unit :=
  vdrs ← get;
  let vdr := default (mkOutput nodeID None 0) (vdrs !! nodeID) in
  let weight := (if Decrease weightDiff then SafeMath.Add else SafeMath.Sub) 64 (o_Weight vdr) (Amount weightDiff) in
  modify (<[nodeID := set_weight (match weight with Ok w => w | Err _ => 0 end) vdr]>);;
  weight ← lift (of_state (of_math weight));
  when (weight =? 0) (modify (delete nodeID)).

(** The loops over the changes: [ctx] says in which iteration the context is done. *)
Definition it_error (it : Iterator D) : result HistErr unit := match Error it with None => Ok tt | Some e => Err (ErrStore e) end.
Fixpoint diff_loop {St X} (ctx : nat -> bool) (decode : bytes -> result HistErr (Z * X)) (body : X -> bytes -> M St HistErr unit)
    (endHeight : Z) (d : D) (fuel i : nat) (it : Iterator D) : M St HistErr unit :=
  match fuel with
  | O => fail OutOfFuel
  | S fuel =>
      let '(it, more) := Next d it in
      if negb more then lift (it_error it)
      else if ctx i then fail ErrContext
      else
        k ← lift (decode (Key it));
        if k.1 <? endHeight then lift (it_error it)
        else
          body k.2 (Value it);;
          diff_loop ctx decode body endHeight d fuel (S i) it
  end.

Definition by_subnet (key : bytes) : result HistErr (Z * ID) := k ← unmarshalDiffKeyBySubnetID key; Ok (k.1.2, k.2).
Definition by_height (key : bytes) : result HistErr (Z * (ID * ID)) := k ← unmarshalDiffKeyByHeight key; Ok (k.1.1, (k.1.2, k.2)).

Definition weight_step (nodeID : ID) (value : bytes) : M vdrSet HistErr unit :=
  weightDiff ← lift (unmarshalWeightDiff value);
  applyWeightDiff nodeID weightDiff.
Definition ApplyValidatorWeightDiffs (ctx : nat -> bool) (fuel : nat) (d : D) (startHeight endHeight : Z) (subnetID : ID) : M vdrSet HistErr unit :=
  diff_loop ctx by_subnet weight_step endHeight d fuel 0
    (NewIteratorWithStartAndPrefix (marshalStartDiffKeyBySubnetID subnetID startHeight) subnetID d).

(** The map of a subnet is made on demand and dropped when it is empty. *)
Definition all_weight_step (k : ID * ID) (value : bytes) : M (gmap ID vdrSet) HistErr unit :=
  weightDiff ← lift (unmarshalWeightDiff value);
  zoom (fun all => default ∅ (all !! k.1)) (fun vdrs => <[k.1 := vdrs]>) (applyWeightDiff k.2 weightDiff);;
  all ← get;
  when (bool_decide (default ∅ (all !! k.1) = ∅)) (modify (delete k.1)).
Definition ApplyAllValidatorWeightDiffs (ctx : nat -> bool) (fuel : nat) (d : D) (startHeight endHeight : Z) : M (gmap ID vdrSet) HistErr unit :=
  diff_loop ctx by_height all_weight_step endHeight d fuel 0 (NewIteratorWithStart (marshalStartDiffKeyByHeight startHeight) d).

Definition key_of (pkBytes : bytes) : option PK :=
  if (length pkBytes =? 0)%nat then None else PublicKeyFromValidUncompressedBytes pkBytes.
Definition key_step (nodeID : ID) (pkBytes : bytes) : M vdrSet HistErr unit :=
  vdrs ← get;
  match vdrs !! nodeID with
  | None => mret tt
  | Some vdr => modify (<[nodeID := set_key (key_of pkBytes) vdr]>)
  end.
Definition ApplyValidatorPublicKeyDiffs (ctx : nat -> bool) (fuel : nat) (d : D) (startHeight endHeight : Z) (subnetID : ID) : M vdrSet HistErr unit :=
  diff_loop ctx by_subnet key_step endHeight d fuel 0
    (NewIteratorWithStartAndPrefix (marshalStartDiffKeyBySubnetID subnetID startHeight) subnetID d).

Definition all_key_step (k : ID * ID) (pkBytes : bytes) : M (gmap ID vdrSet) HistErr unit :=
  all ← get;
  match lookup2 all k.1 k.2 with
  | None => mret tt
  | Some vdr => modify (insert2 k.1 k.2 (set_key (key_of pkBytes) vdr))
  end.
Definition ApplyAllValidatorPublicKeyDiffs (ctx : nat -> bool) (fuel : nat) (d : D) (startHeight endHeight : Z) : M (gmap ID vdrSet) HistErr unit :=
  diff_loop ctx by_height all_key_step endHeight d fuel 0 (NewIteratorWithStart (marshalStartDiffKeyByHeight startHeight) d).
End replay.

(** ** Writing the changes *)
Record validatorDiff := mkValidatorDiff { weightDiff : ValidatorWeightDiff; prevPublicKey : bytes; newPublicKey : bytes }.

Section write.
Context {T : ChainTypes} `{BTree (Staker PublicKey)} `{BTree ExpiryEntry} `{BTree L1Validator} `{BLS PublicKey}.
Context {HO : KeyOrder ID} {HP : KeyOrder (ID * ID)}.

Definition getInheritedPublicKey (nodeID : ID) (s : state) : result HistErr (option PublicKey) :=
  match lookup2 (validators (currentStakers s)) PrimaryNetworkID nodeID ≫= b_validator with
  | Some v => Ok (PubKey v)
  | None =>
      match lookup2 (b_validatorDiffs (currentStakers s)) PrimaryNetworkID nodeID ≫= validator with
      | Some v => Ok (PubKey v)
      | None => Err errMissingPrimaryNetworkValidator
      end
  end.

Abbreviation changeMap := (gmap (ID * ID) validatorDiff).

(** [getOrSetDefault]: the zero value when there is no entry. *)
Definition getOrSetDefault (m : changeMap) (k : ID * ID) : validatorDiff := default (mkValidatorDiff (mkWeightDiff false 0) [] []) (m !! k).

Definition legacy_change (s : state) (changes : changeMap) (x : ID * ID * diffValidator (PK := PublicKey)) : result HistErr changeMap :=
  let '(subnetID, nodeID, diff) := x in
  weightDiff ← of_state (WeightDiff diff);
  pk ← getInheritedPublicKey nodeID s;
  let change :=
    match pk with
    | None => mkValidatorDiff weightDiff [] []
    | Some pk =>
        let pkBytes := PublicKeyToUncompressedBytes pk in
        mkValidatorDiff weightDiff (if bool_decide (validatorStatus diff = added) then [] else pkBytes)
          (if bool_decide (validatorStatus diff = deleted) then [] else pkBytes)
    end in
  Ok (<[(subnetID, nodeID) := change]> changes).

Definition sub_prior (priorL1Validator : L1Validator) (changes : changeMap) : result HistErr changeMap :=
  let subnetIDNodeID := (L_SubnetID priorL1Validator, effectiveNodeID priorL1Validator) in
  let diff := getOrSetDefault changes subnetIDNodeID in
  weightDiff ← of_state (wd_Sub (L_Weight priorL1Validator) (weightDiff diff));
  Ok (<[subnetIDNodeID := mkValidatorDiff weightDiff (default [] (effectivePublicKeyBytes priorL1Validator)) (newPublicKey diff)]> changes).
Definition add_new (l1Validator : L1Validator) (changes : changeMap) : result HistErr changeMap :=
  let subnetIDNodeID := (L_SubnetID l1Validator, effectiveNodeID l1Validator) in
  let diff := getOrSetDefault changes subnetIDNodeID in
  weightDiff ← of_state (wd_Add (L_Weight l1Validator) (weightDiff diff));
  Ok (<[subnetIDNodeID := mkValidatorDiff weightDiff (prevPublicKey diff) (default [] (effectivePublicKeyBytes l1Validator))]> changes).
Definition l1_change (s : state) (changes : changeMap) (x : ID * L1Validator) : result HistErr changeMap :=
  let '(validationID, l1Validator) := x in
  changes ←
    (match getPersistedL1Validator validationID s with
     | Ok priorL1Validator => sub_prior priorL1Validator changes
     | Err Stakers.ErrNotFound => Ok changes
     | Err e => Err (ErrState e)
     end);
  if isDeleted l1Validator then Ok changes else add_new l1Validator changes.

Definition calculateValidatorDiffs (s : state) : result HistErr changeMap :=
  changes ← foldR (legacy_change s) ∅ (entries2 (b_validatorDiffs (currentStakers s)));
  foldR (l1_change s) changes (entries (modified (l1ValidatorsDiff s))).

Record history (D : Type) := mkHistory {
  validatorWeightDiffsBySubnetIDDB : D;
  validatorWeightDiffsByHeightDB : D;
  validatorPublicKeyDiffsBySubnetIDDB : D;
  validatorPublicKeyDiffsByHeightDB : D;
}.
Arguments mkHistory {D}.

Section dbs.
Context `{Database D}.
Definition put_ws (k v : bytes) : M (history D) HistErr unit :=
  zoom_err (validatorWeightDiffsBySubnetIDDB D) (fun d h => mkHistory d (validatorWeightDiffsByHeightDB D h) (validatorPublicKeyDiffsBySubnetIDDB D h) (validatorPublicKeyDiffsByHeightDB D h)) ErrStore (Put k v).
Definition put_wh (k v : bytes) : M (history D) HistErr unit :=
  zoom_err (validatorWeightDiffsByHeightDB D) (fun d h => mkHistory (validatorWeightDiffsBySubnetIDDB D h) d (validatorPublicKeyDiffsBySubnetIDDB D h) (validatorPublicKeyDiffsByHeightDB D h)) ErrStore (Put k v).
Definition put_ks (k v : bytes) : M (history D) HistErr unit :=
  zoom_err (validatorPublicKeyDiffsBySubnetIDDB D) (fun d h => mkHistory (validatorWeightDiffsBySubnetIDDB D h) (validatorWeightDiffsByHeightDB D h) d (validatorPublicKeyDiffsByHeightDB D h)) ErrStore (Put k v).
Definition put_kh (k v : bytes) : M (history D) HistErr unit :=
  zoom_err (validatorPublicKeyDiffsByHeightDB D) (fun d h => mkHistory (validatorWeightDiffsBySubnetIDDB D h) (validatorWeightDiffsByHeightDB D h) (validatorPublicKeyDiffsBySubnetIDDB D h) d) ErrStore (Put k v).

Definition write_change (height : Z) (x : (ID * ID) * validatorDiff) : M (history D) HistErr unit :=
  let '((subnetID, nodeID), diff) := x in
  let diffKeyBySubnetID := marshalDiffKeyBySubnetID subnetID height nodeID in
  let diffKeyByHeight := marshalDiffKeyByHeight height subnetID nodeID in
  when (negb (Amount (weightDiff diff) =? 0))
    (put_ws diffKeyBySubnetID (marshalWeightDiff (weightDiff diff));; put_wh diffKeyByHeight (marshalWeightDiff (weightDiff diff)));;
  when (negb (bool_decide (prevPublicKey diff = newPublicKey diff)))
    (put_ks diffKeyBySubnetID (prevPublicKey diff);; put_kh diffKeyByHeight (prevPublicKey diff)).
Definition writeValidatorDiffs (s : state) (height : Z) : M (history D) HistErr unit :=
  changes ← lift (calculateValidatorDiffs s);
  forM (entries changes) (write_change height).
End dbs.
End write.
End ValidatorHistory.
