(* ===== verification/HistoryTheorems.v ===== *)
(** * Past validator sets are recovered
    Four databases that have recorded the heights [(lo, top]] take validator sets back
    to any of the heights: the general loop, the four loops of the state, and the
    history as a whole. *)
From Stdlib Require Import Sorting.Sorted.
From stdpp Require Import sorting.
From S2P Require Import Prelude SafeMath Monads Sorting GoLibrary MapOrder Database Prefixdb Stakers StakersFacts L1Validators DiffKeys ValidatorHistory.

(** ** Past validator sets are recovered
    Going back from the validator sets of one height with the changes that the
    databases have recorded gives exactly the sets of the earlier height, weights and
    public keys. *)
Module HistoryFacts.
Import Sorting Stakers StakerWeights L1Validators Database DiffKeys ValidatorHistory.

(** The error of a caller that has given up. *)
Definition cancelled (ctx : nat -> bool) (e : HistErr) : Prop := e = ErrContext /\ exists i, ctx i = true.

(** ** The loops *)
Section loop.
Context `{DatabaseLaws D} {St X : Type} (ctx : nat -> bool).

Lemma diff_loop_spec decode (body : X -> bytes -> M St HistErr unit) e d m fuel i it c l (Inv : list (bytes * bytes) -> St -> Prop) s :
  db_open d m -> it_at it c l -> (length l < fuel)%nat ->
  (forall k v, (k, v) ∈ l -> exists hx, decode k = Ok hx) ->
  (forall done k v rest s h x, l = done ++ (k, v) :: rest -> decode k = Ok (h, x) -> e <= h -> Inv done s ->
     wp (cancelled ctx) (body x v) (fun _ s' => Inv (done ++ [(k, v)]) s') s) ->
  Inv [] s ->
  wp (cancelled ctx) (diff_loop ctx decode body e d fuel i it)
    (fun _ s' => exists done rest, l = done ++ rest /\ Inv done s' /\
       match rest with [] => True | (k, _) :: _ => exists h x, decode k = Ok (h, x) /\ h < e end) s.
Proof.
  intros Hd. revert i it c l Inv s. induction fuel as [|fuel IH]; intros i it c l Inv s Hit Hf Hdec Hbody HI; [lia|]. cbn [diff_loop].
  pose proof (next_law d m it c l Hd Hit) as Hn. destruct l as [|[k v] l].
  - destruct Hn as (it' & -> & Hit'). cbn. unfold it_error. rewrite (error_law _ _ _ Hit'). by exists [], [].
  - destruct Hn as (it' & -> & Hit'). cbn [negb]. destruct (ctx i) eqn:Hc; [apply wp_fail; split; [done|by exists i]|].
    destruct (key_law _ _ _ _ Hit') as [-> ->]. destruct (Hdec k v) as [[h x] Hk]; [by left|]. apply wp_bind, wp_lift. rewrite Hk. cbn [fst snd].
    destruct (Z.ltb_spec h e) as [Hlt|Hge].
    + apply wp_lift. unfold it_error. rewrite (error_law _ _ _ Hit'). exists [], ((k, v) :: l). split_and!; [done..|eauto].
    + apply wp_bind. eapply wp_mono; [by apply (Hbody [] k v l s h x)|]. cbn beta. intros [] s' HI'.
      eapply wp_mono; [apply (IH (S i) it' _ l (fun done => Inv ((k, v) :: done)) s' Hit')|].
      * cbn in Hf. lia.
      * intros k' v' Hin. apply (Hdec k' v'). by right.
      * intros done k' v' rest s2 h' x' -> Hk' He HI2. by apply (Hbody ((k, v) :: done) k' v' rest s2 h' x').
      * done.
      * cbn. intros [] s2 (done & rest & -> & HI2 & Hr). by exists ((k, v) :: done), rest.
Qed.
End loop.

(** ** An index of changes *)
Section replay.
Context `{DatabaseLaws D} {St N : Type} `{EqDecision N} (ctx : nat -> bool).
Variables (decode : bytes -> result HistErr (Z * N)) (P : bytes -> Prop) (lo hi : Z) (F : Z -> N -> option bytes).

(** The keys in [P] name heights up to [hi], from the last one down, and hold [F]. *)
Record indexes (m : gmap bytes bytes) : Prop := {
  ix_decode k v : m !! k = Some v -> P k -> exists h n, decode k = Ok (h, n) /\ h <= hi;
  ix_inj k k' v v' hn : m !! k = Some v -> m !! k' = Some v' -> P k -> P k' -> decode k = Ok hn -> decode k' = Ok hn -> k = k';
  ix_order k k' h h' n n' : decode k = Ok (h, n) -> decode k' = Ok (h', n') -> P k -> P k' -> is_Some (m !! k) -> is_Some (m !! k') -> blt k k' -> h' <= h;
  ix_value k v h n : m !! k = Some v -> P k -> decode k = Ok (h, n) -> lo < h -> F h n = Some v;
  ix_complete h n v : lo < h <= hi -> F h n = Some v -> exists k, m !! k = Some v /\ P k /\ decode k = Ok (h, n);
}.

Variables (Shows : Z -> N -> St -> Prop) (G : St -> Prop) (body : N -> bytes -> M St HistErr unit).
Hypothesis shows_same : forall h n s, lo < h <= hi -> F h n = None -> Shows h n s -> Shows (h - 1) n s.
Hypothesis shows_step : forall h n v s, lo < h <= hi -> F h n = Some v -> Shows h n s -> G s ->
  wp (cancelled ctx) (body n v) (fun _ s' => G s' /\ Shows (h - 1) n s' /\ forall n' h', n' <> n -> Shows h' n' s -> Shows h' n' s') s.

Lemma shows_down n s h h' : Shows h n s -> lo <= h' <= h -> h <= hi -> (forall x, h' < x <= h -> F x n = None) -> Shows h' n s.
Proof.
  intros Hs Hh Hhi Hno. replace h' with (h - Z.of_nat (Z.to_nat (h - h'))) by lia.
  assert (forall k, (k <= Z.to_nat (h - h'))%nat -> Shows (h - Z.of_nat k) n s) as Hall; [|by apply Hall].
  induction k as [|k IH]; intros Hk; [by rewrite Z.sub_0_r|].
  replace (h - Z.of_nat (S k)) with (h - Z.of_nat k - 1) by lia. apply shows_same; [lia|apply Hno; lia|apply IH; lia].
Qed.

(** What holds between the changes done and those that are left. *)
Definition between (e : Z) (l done : list (bytes * bytes)) (s : St) : Prop := G s /\
  (forall k v x n, (k, v) ∈ done -> decode k = Ok (x, n) -> e <= x) /\ forall rest n h, l = done ++ rest -> lo <= h <= hi ->
  (forall k v x, (k, v) ∈ rest -> decode k = Ok (x, n) -> x <= h) ->
  (forall k v x, (k, v) ∈ done -> decode k = Ok (x, n) -> h < x) -> Shows h n s.

Lemma replay_spec d m fuel it l e s : db_open d m -> indexes m -> listing P m l -> it_at it None l -> (length l < fuel)%nat ->
  lo < e <= hi + 1 -> G s -> (forall n, Shows hi n s) ->
  wp (cancelled ctx) (diff_loop ctx decode body e d fuel 0 it) (fun _ s' => G s' /\ forall n, Shows (e - 1) n s') s.
Proof.
  intros Hd Hix [Hsorted Hl] Hit Hf He HG Hs.
  assert (forall k v, (k, v) ∈ l -> exists h n, decode k = Ok (h, n) /\ h <= hi) as Hdec by (intros k v [Hm HP]%Hl; by eapply ix_decode).
  assert (forall done k v rest h n, l = done ++ (k, v) :: rest -> decode k = Ok (h, n) ->
    (forall k' v' h' n', (k', v') ∈ rest -> decode k' = Ok (h', n') -> h' <= h) /\
    (forall k' v' h' n', (k', v') ∈ done -> decode k' = Ok (h', n') -> h <= h') /\
    (forall k' v', (k', v') ∈ done \/ (k', v') ∈ rest -> decode k' = Ok (h, n) -> False)) as Hord.
  { intros done k v rest h n Heq Hk. rewrite Heq, fmap_app, fmap_cons in Hsorted. apply StronglySorted_app in Hsorted as (Hb & _ & Hsr).
    apply StronglySorted_inv in Hsr as [_ Hkr]. rewrite Forall_forall in Hkr.
    assert (forall k' v', (k', v') ∈ rest -> blt k k') as Hr by (intros k' v' Hin; apply Hkr; by apply (list_elem_of_fmap_2 fst _ (k', v'))).
    assert (forall k' v', (k', v') ∈ done -> blt k' k) as Hdn.
    { intros k' v' Hin. apply Hb; [by apply (list_elem_of_fmap_2 fst _ (k', v'))|by left]. }
    assert (forall k' v', (k', v') ∈ l -> m !! k' = Some v' /\ P k') as Hin by (intros k' v'; apply Hl).
    assert ((k, v) ∈ l) as Hkl by (rewrite Heq; set_solver). destruct (Hin k v Hkl) as [Hmk HPk]. split_and!.
    - intros k' v' h' n' Hk' Hdk'. destruct (Hin k' v') as [Hmk' HPk']; [rewrite Heq; set_solver|]. apply (ix_order m Hix k k' h h' n n'); eauto.
    - intros k' v' h' n' Hk' Hdk'. destruct (Hin k' v') as [Hmk' HPk']; [rewrite Heq; set_solver|]. apply (ix_order m Hix k' k h' h n' n); eauto.
    - intros k' v' Hk' Hdk'. destruct (Hin k' v') as [Hmk' HPk']; [rewrite Heq; set_solver|].
      assert (k' = k) as -> by by eapply (ix_inj m Hix). destruct Hk' as [Hk'|Hk']; [by apply (blt_irrefl k), (Hdn _ v')|by apply (blt_irrefl k), (Hr _ v')]. }
  eapply wp_mono; [apply (diff_loop_spec ctx decode body e d m fuel 0%nat it None l (between e l) s Hd Hit Hf)|].
  - intros k v Hkv. destruct (Hdec k v Hkv) as (h & n & Hk & _). eauto.
  - intros done k v rest s1 h n Heq Hk Hge (HG1 & Hhigh & Hb). destruct (Hord done k v rest h n Heq Hk) as (Hr & Hdn & Hno).
    assert ((k, v) ∈ l) as Hkl by (rewrite Heq; set_solver). assert (h <= hi) as Hhi by (destruct (Hdec k v Hkl) as (? & ? & Hk' & ?); congruence).
    assert (F h n = Some v) as HF by (apply Hl in Hkl as [? ?]; apply (ix_value m Hix k); [done..|lia]).
    eapply wp_mono; [apply (shows_step h n v s1); [lia|done| |done]|].
    + apply (Hb ((k, v) :: rest)); [done|lia| |].
      * intros k' v' x [[= -> ->]|Hin]%elem_of_cons Hdk'; [rewrite Hk in Hdk'; injection Hdk'; lia|by eapply Hr].
      * intros k' v' x Hin Hdk'. pose proof (Hdn _ _ _ _ Hin Hdk'). destruct (decide (x = h)) as [->|]; [|lia]. exfalso. apply (Hno k' v'); [by left|done].
    + cbn beta. intros [] s2 (HG2 & Hs2 & Hother). split_and!; [done| |].
      { intros k' v' x n' [Hin|[[= -> ->]|[]%elem_of_nil]%elem_of_cons]%elem_of_app Hdk'; [by eapply Hhigh|rewrite Hk in Hdk'; by injection Hdk' as <- _]. }
      intros rest' n' h' Heq' Hh' Hrest Hdone.
      assert (rest' = rest) as ->.
      { rewrite Heq in Heq'. rewrite <- app_assoc in Heq'. apply app_inv_head in Heq'. by injection Heq'. }
      destruct (decide (n' = n)) as [->|Hne].
      * assert (h' < h) as Hlt by (apply (Hdone k v h); [set_solver|done]).
        apply (shows_down n s2 (h - 1)); [done|lia|lia|]. intros x Hx. destruct (F x n) as [w|] eqn:HFx; [|done]. exfalso.
        destruct (ix_complete m Hix x n w ltac:(lia) HFx) as (k' & Hmk' & HPk' & Hdk'). assert ((k', w) ∈ l) as Hk'l by by apply Hl.
        rewrite Heq in Hk'l. apply elem_of_app in Hk'l as [Hin|[[= -> ->]|Hin]%elem_of_cons].
        -- pose proof (Hdn _ _ _ _ Hin Hdk'). lia.
        -- rewrite Hk in Hdk'. injection Hdk'. lia.
        -- pose proof (Hrest _ _ _ Hin Hdk'). lia.
      * apply Hother; [done|]. apply (Hb ((k, v) :: rest)); [done|done| |].
        -- intros k' v' x [[= -> ->]|Hin]%elem_of_cons Hdk'; [rewrite Hk in Hdk'; by injection Hdk' as _ ->|by eapply Hrest].
        -- intros k' v' x Hin Hdk'. apply (Hdone k' v'); [set_solver|done].
  - split_and!; [done|by intros ???? ?%elem_of_nil|]. cbn. intros rest n h -> Hh Hrest _. apply (shows_down n s hi); [done|lia|lia|]. intros x Hx.
    destruct (F x n) as [w|] eqn:HFx; [|done]. exfalso. destruct (ix_complete m Hix x n w ltac:(lia) HFx) as (k & Hmk & HPk & Hdk).
    assert ((k, w) ∈ rest) as Hin by (by apply Hl). pose proof (Hrest _ _ _ Hin Hdk). lia.
  - cbn beta. intros [] s' (done & rest & Heq & (HG' & Hhigh & Hb) & Hend). split; [done|]. intros n.
    assert (forall k v h x, (k, v) ∈ rest -> decode k = Ok (h, x) -> h < e) as Hlow.
    { destruct rest as [|[k v] rest]; [by intros ???? ?%elem_of_nil|]. destruct Hend as (h & x & Hk & Hlt). destruct (Hord done k v rest h x Heq Hk) as (Hr & _).
      intros k' v' h' x' [[= -> ->]|Hin]%elem_of_cons Hdk'; [rewrite Hk in Hdk'; by injection Hdk' as <- _|]. pose proof (Hr _ _ _ _ Hin Hdk'). lia. }
    apply (Hb rest); [done|lia| |].
    + intros k v x Hin Hk. pose proof (Hlow _ _ _ _ Hin Hk). lia.
    + intros k v x Hin Hk. pose proof (Hhigh _ _ _ _ Hin Hk). lia.
Qed.
End replay.

(** ** Validator sets through their entries
    The two forms of a validator set, of one subnet and of all, are read by index. *)
Class BLSLaws (PK : Type) `{BLS PK} := {
  from_to pk : PublicKeyFromValidUncompressedBytes (PublicKeyToUncompressedBytes pk) = Some pk;
  to_nonempty pk : PublicKeyToUncompressedBytes pk <> [];
}.

(** A validator: its weight, 0 when there is none, and the bytes of its key. *)
Record entry := mkEntry { e_weight : Z; e_key : bytes }.
Definition wf_entry (x : entry) : Prop := is_u64 (e_weight x) /\ (e_weight x = 0 -> e_key x = []).

(** The change of a weight, as it is stored. *)
Definition weight_change (w0 w : Z) : ValidatorWeightDiff := mkWeightDiff (w <? w0) (Z.abs (w - w0)).
Definition weight_entry (w0 w : Z) : option bytes := if w =? w0 then None else Some (marshalWeightDiff (weight_change w0 w)).
Definition key_entry (k0 k : bytes) : option bytes := if bool_decide (k = k0) then None else Some k0.

Section steps.
Context {PK : Type} `{BLS PK} {St N : Type} `{EqDecision N} (ctx : nat -> bool).
Variables (node : N -> ID) (look : St -> N -> option (GetValidatorOutput PK)) (G : St -> Prop).

Definition shows_entry (n : N) (x : entry) (o : option (GetValidatorOutput PK)) : Prop :=
  if e_weight x =? 0 then o = None else o = Some (mkOutput (node n) (key_of (e_key x)) (e_weight x)).

Definition weight_body (body : N -> bytes -> M St HistErr unit) : Prop := forall n wd s w,
  let o := default (mkOutput (node n) None 0) (look s n) in G s -> is_u64 (Amount wd) ->
  (if Decrease wd then SafeMath.Add else SafeMath.Sub) 64 (o_Weight o) (Amount wd) = Ok w ->
  wp never (body n (marshalWeightDiff wd)) (fun _ s' => G s' /\ look s' n = (if w =? 0 then None else Some (set_weight w o)) /\
    forall n', n' <> n -> look s' n' = look s n') s.
Definition key_body (body : N -> bytes -> M St HistErr unit) : Prop := forall n v s, G s ->
  wp never (body n v) (fun _ s' => G s' /\ look s' n = set_key (key_of v) <$> look s n /\ forall n', n' <> n -> look s' n' = look s n') s.

Variables (V : Z -> N -> entry) (lo hi : Z).
Hypothesis V_wf : forall h n, lo <= h <= hi -> wf_entry (V h n).

(** A weight has been taken back to height [h]; the key is still that of [hi], or
    none for a validator that was absent in between. *)
Definition weight_at (h : Z) (n : N) (s : St) : Prop :=
  if e_weight (V h n) =? 0 then look s n = None
  else exists pk, look s n = Some (mkOutput (node n) pk (e_weight (V h n))) /\
    (pk = key_of (e_key (V hi n)) \/ pk = None /\ exists h', h <= h' <= hi /\ e_key (V h' n) = []).
Definition key_at (s0 : St) (h : Z) (n : N) (s : St) : Prop :=
  match look s0 n, look s n with
  | Some o0, Some o => o_NodeID o = o_NodeID o0 /\ o_Weight o = o_Weight o0 /\
      (o_PublicKey o = key_of (e_key (V h n)) \/ o_PublicKey o = o_PublicKey o0 /\ forall h', h <= h' <= hi -> e_key (V h' n) = e_key (V h n))
  | None, None => True
  | _, _ => False
  end.

Lemma weight_at_same h n s : lo < h <= hi -> weight_entry (e_weight (V (h - 1) n)) (e_weight (V h n)) = None -> weight_at h n s -> weight_at (h - 1) n s.
Proof.
  intros Hh. unfold weight_entry, weight_at. destruct (Z.eqb_spec (e_weight (V h n)) (e_weight (V (h - 1) n))) as [->|]; [intros _|done].
  destruct (_ =? 0); [done|]. intros (pk & Hl & Hpk). exists pk. split; [done|]. destruct Hpk as [?|(? & h' & ? & ?)]; [by left|right]. split; [done|]. exists h'. split; [lia|done].
Qed.
Lemma weight_at_step body h n v s : weight_body body -> lo < h <= hi -> weight_entry (e_weight (V (h - 1) n)) (e_weight (V h n)) = Some v -> weight_at h n s -> G s ->
  wp (cancelled ctx) (body n v) (fun _ s' => G s' /\ weight_at (h - 1) n s' /\ forall n' h', n' <> n -> weight_at h' n' s -> weight_at h' n' s') s.
Proof.
  intros Hbody Hh. unfold weight_entry. destruct (Z.eqb_spec (e_weight (V h n)) (e_weight (V (h - 1) n))) as [|Hne]; [done|]. intros [= <-] Hs HG.
  destruct (V_wf h n ltac:(lia)) as [Hu Hk]. destruct (V_wf (h - 1) n ltac:(lia)) as [Hu' Hk']. rewrite is_u64_max in Hu, Hu'.
  set (wd := weight_change _ _). apply wp_never.
  assert (o_Weight (default (mkOutput (node n) None 0) (look s n)) = e_weight (V h n)) as Hw.
  { unfold weight_at in Hs. destruct (Z.eqb_spec (e_weight (V h n)) 0) as [->|]; [by rewrite Hs|]. destruct Hs as (pk & -> & _). done. }
  eapply wp_mono; [apply (Hbody n wd s (e_weight (V (h - 1) n)) HG)|].
  - cbn. rewrite is_u64_max. lia.
  - rewrite Hw. cbn. destruct (Z.ltb_spec (e_weight (V h n)) (e_weight (V (h - 1) n))).
    + rewrite SafeMath.Add_spec by first [lia|apply is_u64_max; lia]. change (2 ^ 64) with (MaxUint64 + 1). destruct (Z.ltb_spec (e_weight (V h n) + Z.abs (e_weight (V h n) - e_weight (V (h - 1) n))) (MaxUint64 + 1)); [f_equal|]; lia.
    + rewrite SafeMath.Sub_spec by first [lia|apply is_u64_max; lia]. destruct (Z.leb_spec (Z.abs (e_weight (V h n) - e_weight (V (h - 1) n))) (e_weight (V h n))); [f_equal|]; lia.
  - cbn beta. intros [] s' (HG' & Hl & Hother). split_and!; [done| |].
    + unfold weight_at. rewrite Hl. destruct (Z.eqb_spec (e_weight (V (h - 1) n)) 0) as [Hz|Hnz]; [done|].
      unfold weight_at in Hs. destruct (Z.eqb_spec (e_weight (V h n)) 0) as [Hz|_].
      * rewrite Hs. exists None. split; [done|right]. split; [done|]. exists h. split; [lia|auto].
      * destruct Hs as (pk & -> & Hpk). exists pk. split; [done|]. destruct Hpk as [?|(? & h' & ? & ?)]; [by left|right]. split; [done|]. exists h'. split; [lia|done].
    + intros n' h' Hn'. unfold weight_at. by rewrite Hother.
Qed.

Lemma key_at_same s0 h n s : lo < h <= hi -> key_entry (e_key (V (h - 1) n)) (e_key (V h n)) = None -> key_at s0 h n s -> key_at s0 (h - 1) n s.
Proof.
  intros Hh. unfold key_entry, key_at. case_bool_decide as Hk; [intros _|done]. destruct (look s0 n) as [o0|], (look s n) as [o|]; try done.
  rewrite Hk. intros (? & ? & [?|[? Hc]]); (split_and!; [done..|]); [by left|right]. split; [done|]. intros h' Hh'. destruct (decide (h' = h - 1)) as [->|]; [done|].
  rewrite Hc by lia. done.
Qed.
Lemma key_at_step body s0 h n v s : key_body body -> lo < h <= hi -> key_entry (e_key (V (h - 1) n)) (e_key (V h n)) = Some v -> key_at s0 h n s -> G s ->
  wp (cancelled ctx) (body n v) (fun _ s' => G s' /\ key_at s0 (h - 1) n s' /\ forall n' h', n' <> n -> key_at s0 h' n' s -> key_at s0 h' n' s') s.
Proof.
  intros Hbody Hh. unfold key_entry. case_bool_decide as Hk; [done|]. intros [= <-] Hs HG. apply wp_never.
  eapply wp_mono; [by apply Hbody|]. cbn beta. intros [] s' (HG' & Hl & Hother). split_and!; [done| |].
  - unfold key_at in *. rewrite Hl. destruct (look s0 n) as [o0|], (look s n) as [o|]; try done. cbn. destruct Hs as (? & ? & _). split_and!; [done..|by left].
  - intros n' h' Hn'. unfold key_at. by rewrite Hother.
Qed.

(** Both passes together. *)
Lemma weight_at_start n s : lo <= hi -> shows_entry n (V hi n) (look s n) -> weight_at hi n s.
Proof. intros Hlo. unfold shows_entry, weight_at. destruct (_ =? 0); [done|]. intros ->. eexists. split; [done|by left]. Qed.
Lemma key_at_start n s : key_at s hi n s.
Proof. unfold key_at. destruct (look s n); [|done]. split_and!; [done..|]. right. split; [done|]. intros h' Hh'. by replace h' with hi by lia. Qed.
Lemma passes_end h n s0 s : lo <= h <= hi -> weight_at h n s0 -> key_at s0 h n s -> shows_entry n (V h n) (look s n).
Proof.
  intros Hh. unfold weight_at, key_at, shows_entry. destruct (_ =? 0).
  - intros ->. by destruct (look s n).
  - intros (pk & -> & Hpk). destruct (look s n) as [[i k w]|]; [|done]. cbn. intros (-> & -> & [->|[-> Hc]]); [done|]. do 2 f_equal.
    destruct Hpk as [->|(-> & h' & Hh' & Hnil)]; [by rewrite Hc by lia|]. rewrite <- (Hc h') by lia. by rewrite Hnil.
Qed.
End steps.
End HistoryFacts.

(** ** The four loops over the history
    [ApplyValidatorWeightDiffs], [ApplyAllValidatorWeightDiffs] and their companions
    for the keys, on databases that have recorded a range of heights. *)
Module HistoryReplay.
Import Sorting Stakers L1Validators Database DiffKeys ValidatorHistory HistoryFacts.

(** The sets of all heights. *)
Definition sets := Z -> ID * ID -> entry.
Definition is_index (k : ID * ID) : Prop := is_id k.1 /\ is_node k.2.
#[export] Instance is_index_dec k : Decision (is_index k).
Proof. unfold is_index, is_id, is_node, BigEndian.is_byte. apply _. Defined.
Definition wf_sets (V : sets) : Prop := forall h k, wf_entry (V h k) /\ (~ is_index k -> e_weight (V h k) = 0).

(** What the two databases with one kind of key hold. *)
Definition index_db (key : Z -> ID * ID -> bytes) (lo top : Z) (F : Z -> ID * ID -> option bytes) (m : gmap bytes bytes) : Prop :=
  (forall k, is_Some (m !! k) -> exists x i, k = key x i /\ is_u64 x /\ x <= top /\ is_index i) /\
  (forall x i, lo < x <= top -> is_u64 x -> is_index i -> m !! key x i = F x i).
Definition subnet_key (x : Z) (i : ID * ID) : bytes := marshalDiffKeyBySubnetID i.1 x i.2.
Definition height_key (x : Z) (i : ID * ID) : bytes := marshalDiffKeyByHeight x i.1 i.2.
Definition weights_of (V : sets) (x : Z) (i : ID * ID) : option bytes := weight_entry (e_weight (V (x - 1) i)) (e_weight (V x i)).
Definition keys_of (V : sets) (x : Z) (i : ID * ID) : option bytes := key_entry (e_key (V (x - 1) i)) (e_key (V x i)).

Lemma weights_invalid V x i : wf_sets V -> ~ is_index i -> weights_of V x i = None.
Proof. intros Hw Hi. unfold weights_of, weight_entry. rewrite (proj2 (Hw x i) Hi), (proj2 (Hw (x - 1) i) Hi). done. Qed.
Lemma keys_invalid V x i : wf_sets V -> ~ is_index i -> keys_of V x i = None.
Proof.
  intros Hw Hi. unfold keys_of, key_entry. destruct (Hw x i) as [[_ Hx] Hxi], (Hw (x - 1) i) as [[_ Hy] Hyi]. rewrite Hx, Hy by auto. by rewrite bool_decide_true.
Qed.

Lemma subnet_key_decode x i : is_index i -> is_u64 x -> by_subnet (subnet_key x i) = Ok (x, i.2).
Proof. intros [Hs Hn] Hx. unfold by_subnet, subnet_key. by rewrite key_by_subnet. Qed.
Lemma height_key_decode x i : is_index i -> is_u64 x -> by_height (height_key x i) = Ok (x, i).
Proof. intros [Hs Hn] Hx. unfold by_height, height_key. rewrite key_by_height by done. by destruct i. Qed.

Definition subnet_range (s : ID) (start : Z) : bytes -> Prop := in_range (marshalStartDiffKeyBySubnetID s start) s.
Definition height_range (start : Z) : bytes -> Prop := in_range (marshalStartDiffKeyByHeight start) [].
Lemma subnet_in_range s start x i : is_id s -> is_index i -> is_u64 x -> is_u64 start -> subnet_range s start (subnet_key x i) <-> i.1 = s /\ x <= start.
Proof.
  intros Hs [Hi Hn] Hx Hst. unfold subnet_range, in_range, subnet_key, marshalDiffKeyBySubnetID, marshalStartDiffKeyBySubnetID. split.
  - intros [Hp Hc]. apply Prefixdb.HasPrefix_split in Hp as [r Hr]. apply (f_equal (take IDLen)) in Hr.
    rewrite !take_app_length' in Hr by first [symmetry; apply Hi|symmetry; apply Hs]. subst. split; [done|]. by apply start_order in Hc.
  - intros [<- Hle]. split; [apply Prefixdb.HasPrefix_app|]. by apply start_order.
Qed.
Lemma height_in_range start x i : is_u64 x -> is_u64 start -> height_range start (height_key x i) <-> x <= start.
Proof.
  intros Hx Hst. unfold height_range, in_range, height_key, marshalDiffKeyByHeight, marshalStartDiffKeyByHeight.
  pose proof (start_order [] x start (i.1 ++ i.2) Hx Hst) as Ho. cbn [app] in Ho. rewrite <- Ho. split; [by intros [_ ?]|]. intros ?. split; [|done].
  by destruct (_ ++ _).
Qed.

Section index.
Variables (lo top start : Z) (m : gmap bytes bytes).
Hypothesis (Hlo : 0 <= lo) (Hstart : lo <= start <= top) (Htop : is_u64 top).

Lemma start_u64 x : lo < x <= start -> is_u64 x.
Proof. rewrite is_u64_max in *. lia. Qed.

Lemma indexes_by_height F : (forall x i, ~ is_index i -> F x i = None) -> index_db height_key lo top F m ->
  indexes by_height (height_range start) lo start F m.
Proof.
  assert (is_u64 start) as Hs by (rewrite is_u64_max in *; lia). intros HF [Hk Hv].
  assert (forall k, is_Some (m !! k) -> height_range start k -> exists x i, k = height_key x i /\ is_u64 x /\ x <= start /\ is_index i) as Hkey.
  { intros k Hkm Hr. destruct (Hk k Hkm) as (x & i & -> & Hx & _ & Hi). exists x, i. split_and!; [done..| |done]. by apply height_in_range in Hr. }
  split.
  - intros k v Hkm Hr. destruct (Hkey k ltac:(eauto) Hr) as (x & i & -> & Hx & Hle & Hi). exists x, i. by rewrite height_key_decode.
  - intros k k' v v' hn Hkm Hkm' Hr Hr' Hd Hd'. destruct (Hkey k ltac:(eauto) Hr) as (x & i & -> & Hx & _ & Hi), (Hkey k' ltac:(eauto) Hr') as (x' & i' & -> & Hx' & _ & Hi').
    rewrite height_key_decode in Hd, Hd' by done. by simplify_eq.
  - intros k k' h h' n n' Hd Hd' Hr Hr' Hkm Hkm' Hlt. destruct (Hkey k Hkm Hr) as (x & i & -> & Hx & _ & Hi), (Hkey k' Hkm' Hr') as (x' & i' & -> & Hx' & _ & Hi').
    rewrite height_key_decode in Hd, Hd' by done. simplify_eq. by apply (key_height_order [] h h' _ _ Hx Hx' Hlt).
  - intros k v h n Hkm Hr Hd Hh. destruct (Hkey k ltac:(eauto) Hr) as (x & i & -> & Hx & Hle & Hi). rewrite height_key_decode in Hd by done. simplify_eq.
    rewrite <- Hkm. symmetry. apply Hv; [lia|done..].
  - intros h n v Hh HFv. assert (is_index n) as Hi by (destruct (decide (is_index n)) as [?|Hni]; [done|by rewrite HF in HFv]).
    pose proof (start_u64 h Hh) as Hu. exists (height_key h n). split_and!; [|apply height_in_range; [done|done|lia]|by apply height_key_decode]. by rewrite Hv by (done || lia).
Qed.

Lemma indexes_by_subnet F s : is_id s -> (forall x i, ~ is_index i -> F x i = None) -> index_db subnet_key lo top F m ->
  indexes by_subnet (subnet_range s start) lo start (fun x n => F x (s, n)) m.
Proof.
  assert (is_u64 start) as Hs by (rewrite is_u64_max in *; lia). intros His HF [Hk Hv].
  assert (forall k, is_Some (m !! k) -> subnet_range s start k -> exists x n, k = subnet_key x (s, n) /\ is_u64 x /\ x <= start /\ is_index (s, n)) as Hkey.
  { intros k Hkm Hr. destruct (Hk k Hkm) as (x & [s' n] & -> & Hx & _ & Hi). apply subnet_in_range in Hr as [<- Hle]; [|done..]. by exists x, n. }
  split.
  - intros k v Hkm Hr. destruct (Hkey k ltac:(eauto) Hr) as (x & n & -> & Hx & Hle & Hi). exists x, n. by rewrite subnet_key_decode.
  - intros k k' v v' hn Hkm Hkm' Hr Hr' Hd Hd'. destruct (Hkey k ltac:(eauto) Hr) as (x & n & -> & Hx & _ & Hi), (Hkey k' ltac:(eauto) Hr') as (x' & n' & -> & Hx' & _ & Hi').
    rewrite subnet_key_decode in Hd, Hd' by done. by simplify_eq/=.
  - intros k k' h h' n n' Hd Hd' Hr Hr' Hkm Hkm' Hlt. destruct (Hkey k Hkm Hr) as (x & i & -> & Hx & _ & Hi), (Hkey k' Hkm' Hr') as (x' & i' & -> & Hx' & _ & Hi').
    rewrite subnet_key_decode in Hd, Hd' by done. simplify_eq/=. by apply (key_height_order s h h' _ _ Hx Hx' Hlt).
  - intros k v h n Hkm Hr Hd Hh. destruct (Hkey k ltac:(eauto) Hr) as (x & i & -> & Hx & Hle & Hi). rewrite subnet_key_decode in Hd by done. simplify_eq/=.
    rewrite <- Hkm. symmetry. apply Hv; [lia|done..].
  - intros h n v Hh HFv. assert (is_index (s, n)) as Hi by (destruct (decide (is_index (s, n))) as [?|Hni]; [done|by rewrite HF in HFv]).
    pose proof (start_u64 h Hh) as Hu. exists (subnet_key h (s, n)). split_and!; [|apply subnet_in_range; try done; split; [done|lia]|by apply subnet_key_decode]. by rewrite Hv by (done || lia).
Qed.
End index.

(** ** The bodies of the loops *)
Section bodies.
Context {PK : Type} `{BLS PK}.
Abbreviation vdrSet := (gmap ID (GetValidatorOutput PK)).

Lemma weight_step_body : weight_body (PK := PK) (fun n => n) (fun (vdrs : vdrSet) n => vdrs !! n) (fun _ => True) weight_step.
Proof.
  intros n wd vdrs w o _ Hu Hw. unfold weight_step, applyWeightDiff. apply wp_bind, wp_lift. rewrite weight_diff_value by done.
  wp_steps. fold o. rewrite Hw. cbn [of_math of_state]. apply wp_when; intros Hz; [apply wp_modify|]; (split; [done|]); (split; [|intros n' Hn']).
  - by rewrite Hz, lookup_delete_eq.
  - by rewrite lookup_delete_ne, lookup_insert_ne.
  - by rewrite Hz, lookup_insert_eq.
  - by rewrite lookup_insert_ne.
Qed.
Lemma key_step_body : key_body (PK := PK) (fun (vdrs : vdrSet) n => vdrs !! n) (fun _ => True) key_step.
Proof.
  intros n v vdrs _. unfold key_step. wp_steps. destruct (vdrs !! n) as [vdr|] eqn:Hn; wp_steps; (split; [done|split; [|intros n' Hn']]); cbn.
  - by rewrite lookup_insert_eq.
  - by rewrite lookup_insert_ne.
  - done.
  - done.
Qed.

(** Empty maps are kept for the subnets in [X] only. *)
Definition no_empty (X : ID -> Prop) (all : gmap ID vdrSet) : Prop := forall s, all !! s = Some ∅ -> X s.
Definition look_all (all : gmap ID vdrSet) (i : ID * ID) : option (GetValidatorOutput PK) := lookup2 all i.1 i.2.

Lemma look_all_insert (all : gmap ID vdrSet) s vdrs i : look_all (<[s := vdrs]> all) i = if decide (i.1 = s) then vdrs !! i.2 else look_all all i.
Proof. unfold look_all, lookup2. destruct (decide (i.1 = s)) as [->|]; [by rewrite lookup_insert_eq|by rewrite lookup_insert_ne]. Qed.
Lemma all_weight_step_body X : weight_body (PK := PK) snd look_all (no_empty X) all_weight_step.
Proof.
  intros [s n] wd all w o HG Hu Hw. unfold all_weight_step. cbn [fst snd] in *. apply wp_bind, wp_lift. rewrite weight_diff_value by done. apply wp_bind, wp_zoom.
  assert (default (mkOutput n None 0) (default ∅ (all !! s) !! n) = o) as Ho by (unfold o, look_all, lookup2; cbn; by destruct (all !! s); cbn; rewrite ?lookup_empty).
  pose proof (weight_step_body n wd (default ∅ (all !! s)) w I Hu) as Hb. cbn beta in Hb. rewrite Ho in Hb. specialize (Hb Hw).
  unfold weight_step in Hb. assert (wp (E := HistErr) never (applyWeightDiff n wd) (fun _ vdrs => vdrs !! n = (if w =? 0 then None else Some (set_weight w o)) /\
    forall n', n' <> n -> vdrs !! n' = default ∅ (all !! s) !! n') (default ∅ (all !! s))) as Hb'.
  { unfold wp in *. unfold mbind, M_bind, lift in Hb. rewrite weight_diff_value in Hb by done. cbn in Hb. destruct (applyWeightDiff n wd _) as [vdrs [[]|e]]; [|done]. apply Hb. }
  eapply wp_mono; [exact Hb'|]. cbn beta. intros [] vdrs [Hn Hother]. wp_steps. rewrite lookup_insert_eq. cbn [default].
  assert (forall i, look_all all i = if decide (i.1 = s) then default ∅ (all !! s) !! i.2 else look_all all i) as Hall.
  { intros i. case_decide as Hi; [|done]. unfold look_all, lookup2. rewrite Hi. by destruct (all !! s); cbn; rewrite ?lookup_empty. }
  apply wp_when; intros Hz; [apply wp_modify; apply bool_decide_eq_true in Hz; change (vdrs = ∅) in Hz|apply bool_decide_eq_false in Hz; change (vdrs <> ∅) in Hz]; (split; [|split]).
  - intros s'. rewrite delete_insert_eq. destruct (decide (s' = s)) as [->|]; [by rewrite lookup_delete_eq|rewrite lookup_delete_ne by done; apply HG].
  - unfold look_all, lookup2. cbn. rewrite lookup_delete_eq. cbn. by rewrite <- Hn, Hz, lookup_empty.
  - intros i Hi. rewrite Hall. unfold look_all at 1, lookup2. destruct (decide (i.1 = s)) as [His|].
    + destruct i as [s2 n2]. cbn in His |- *. subst s2. rewrite lookup_delete_eq. cbn. rewrite <- Hother by (intros ->; by apply Hi). by rewrite Hz, lookup_empty.
    + rewrite lookup_delete_ne, lookup_insert_ne by done. done.
  - intros s'. destruct (decide (s' = s)) as [->|]; [rewrite lookup_insert_eq; congruence|rewrite lookup_insert_ne by done; apply HG].
  - rewrite look_all_insert. cbn. by rewrite decide_True.
  - intros i Hi. rewrite look_all_insert, Hall. case_decide as His; [|done]. apply Hother. intros Hin. apply Hi. destruct i. cbn in *. by subst.
Qed.
Lemma all_key_step_body X : key_body (PK := PK) look_all (no_empty X) all_key_step.
Proof.
  intros [s n] v all HG. unfold all_key_step. wp_steps. unfold look_all. cbn [fst snd]. destruct (lookup2 all s n) as [vdr|] eqn:Hn; wp_steps; (split; [|split; [|intros i Hi]]); cbn.
  - intros s'. unfold insert2. destruct (decide (s' = s)) as [->|]; [rewrite lookup_insert_eq; intros [= Hx]|rewrite lookup_insert_ne by done; apply HG].
    exfalso. by apply (insert_non_empty (default ∅ (all !! s)) n (set_key (key_of v) vdr)).
  - rewrite StakersFacts.lookup2_insert2, bool_decide_true by done. done.
  - rewrite StakersFacts.lookup2_insert2, bool_decide_false; [done|]. intros [? ?]. apply Hi. destruct i. cbn in *. by subst.
  - done.
  - done.
  - done.
Qed.
End bodies.
End HistoryReplay.

(** ** The history as a whole
    Four databases that have recorded the heights [(lo, top]] take validator sets
    back to any of the heights, both the sets of one subnet and those of all; and
    writing the changes of a block records one more height. *)
Module HistoryTheorems.
Import Sorting Stakers L1Validators Database DiffKeys ValidatorHistory HistoryFacts HistoryReplay.

(** The contents of the four databases. *)
Record contents := mkContents { c_ws : gmap bytes bytes; c_wh : gmap bytes bytes; c_ks : gmap bytes bytes; c_kh : gmap bytes bytes }.
Definition contents_size (c : contents) : nat := (base.size (c_ws c) + base.size (c_wh c) + base.size (c_ks c) + base.size (c_kh c))%nat.

Section history.
Context {PK : Type} `{BLSLaws PK} `{DatabaseLaws D} (ctx : nat -> bool).
Abbreviation vdrSet := (gmap ID (GetValidatorOutput PK)).

Record opened (h : history D) (c : contents) : Prop := {
  op_ws : db_open (validatorWeightDiffsBySubnetIDDB D h) (c_ws c);
  op_wh : db_open (validatorWeightDiffsByHeightDB D h) (c_wh c);
  op_ks : db_open (validatorPublicKeyDiffsBySubnetIDDB D h) (c_ks c);
  op_kh : db_open (validatorPublicKeyDiffsByHeightDB D h) (c_kh c);
}.

(** The changes between the sets [V] of the heights from [lo] to [top]. *)
Record records (c : contents) (lo top : Z) (V : sets) : Prop := {
  rc_ws : index_db subnet_key lo top (weights_of V) (c_ws c);
  rc_wh : index_db height_key lo top (weights_of V) (c_wh c);
  rc_ks : index_db subnet_key lo top (keys_of V) (c_ks c);
  rc_kh : index_db height_key lo top (keys_of V) (c_kh c);
}.

(** The sets of height [h], of a subnet and of all of them. *)
Definition shows_set (V : sets) (h : Z) (s : ID) (vdrs : vdrSet) : Prop := forall n, shows_entry id n (V h (s, n)) (vdrs !! n).
Definition shows_all (V : sets) (h : Z) (all : gmap ID vdrSet) : Prop := forall i, shows_entry snd i (V h i) (look_all all i).

Lemma listing_size (P : bytes -> Prop) (m : gmap bytes bytes) l : listing P m l -> (length l <= base.size m)%nat.
Proof.
  intros Hl. pose proof (listing_nodup _ _ _ Hl) as Hn. rewrite <- (length_map_to_list m). apply submseteq_length, NoDup_submseteq; [done|].
  intros [k v] Hin. apply elem_of_map_to_list. by apply Hl in Hin as [? _].
Qed.

Section recovery.
Variables (h : history D) (c : contents) (lo top start e : Z) (V : sets) (fuel : nat).
Hypothesis (Hopen : opened h c) (Hrec : records c lo top V) (Hwf : wf_sets V).
Hypothesis (Hlo : 0 <= lo) (Hstart : lo <= start <= top) (Htop : is_u64 top) (He : lo < e <= start + 1) (Hfuel : (contents_size c < fuel)%nat).

(** One pass over an index: [Shows] is taken from [start] to [e - 1]. *)
Lemma pass {St N} `{EqDecision N} decode P F (d : D) m (Shows : Z -> N -> St -> Prop) (G : St -> Prop) body prefix first s :
  db_open d m -> (base.size m <= contents_size c)%nat -> indexes decode P lo start F m -> P = in_range first prefix ->
  (forall x n s, lo < x <= start -> F x n = None -> Shows x n s -> Shows (x - 1) n s) ->
  (forall x n v s, lo < x <= start -> F x n = Some v -> Shows x n s -> G s ->
     wp (cancelled ctx) (body n v) (fun _ s' => G s' /\ Shows (x - 1) n s' /\ forall n' x', n' <> n -> Shows x' n' s -> Shows x' n' s') s) ->
  G s -> (forall n, Shows start n s) ->
  wp (cancelled ctx) (diff_loop ctx decode body e d fuel 0 (NewIteratorWithStartAndPrefix first prefix d))
    (fun _ s' => G s' /\ forall n, Shows (e - 1) n s') s.
Proof.
  intros Hd Hs Hix -> Hsame Hstep HG Hst. destruct (new_iterator_law d m first prefix Hd) as (l & Hl & Hit).
  apply (replay_spec ctx decode (in_range first prefix) lo start F Shows G body Hsame Hstep d m fuel _ l e s); try done. pose proof (listing_size _ _ _ Hl). lia.
Qed.

(** Both passes, for either form of the sets. *)
Lemma two_passes {St N} `{EqDecision N} decode first prefix (node : N -> ID) (look : St -> N -> option (GetValidatorOutput PK)) G (W : Z -> N -> entry) dw mw dk mk wbody kbody s :
  db_open dw mw -> (base.size mw <= contents_size c)%nat -> indexes decode (in_range first prefix) lo start (fun x n => weight_entry (e_weight (W (x - 1) n)) (e_weight (W x n))) mw ->
  db_open dk mk -> (base.size mk <= contents_size c)%nat -> indexes decode (in_range first prefix) lo start (fun x n => key_entry (e_key (W (x - 1) n)) (e_key (W x n))) mk ->
  (forall x n, lo <= x <= start -> wf_entry (W x n)) -> weight_body node look G wbody -> key_body look G kbody -> G s ->
  (forall n, shows_entry node n (W start n) (look s n)) ->
  wp (cancelled ctx) (diff_loop ctx decode wbody e dw fuel 0 (NewIteratorWithStartAndPrefix first prefix dw);;
      diff_loop ctx decode kbody e dk fuel 0 (NewIteratorWithStartAndPrefix first prefix dk))
    (fun _ s' => G s' /\ forall n, shows_entry node n (W (e - 1) n) (look s' n)) s.
Proof.
  intros Hdw Hmw Hiw Hdk Hmk Hik HW Hwb Hkb HG Hv.
  apply wp_bind. eapply wp_mono; [eapply (pass _ _ _ _ _ (weight_at node look W start) G); [exact Hdw|exact Hmw|exact Hiw|done| | |done|]|].
  - intros x n v Hx. by apply (weight_at_same node look W lo start).
  - intros x n v v' Hx Hf Hsh HG'. by apply (weight_at_step ctx node look G W lo start HW wbody).
  - intros n. apply (weight_at_start node look W lo start); [lia|apply Hv].
  - cbn beta. intros [] s1 [HG1 Hw]. eapply wp_mono; [eapply (pass _ _ _ _ _ (key_at look W start s1) G); [exact Hdk|exact Hmk|exact Hik|done| | |done|]|].
    + intros x n v Hx. by apply (key_at_same look W lo start).
    + intros x n v v2 Hx Hf Hsh HG'. by apply (key_at_step ctx look G W lo start kbody).
    + intros n. apply (key_at_start look W start).
    + cbn beta. intros [] s2 [HG2 Hk]. split; [done|]. intros n. apply (passes_end node look W lo start (e - 1) n s1 s2); [lia|done|done].
Qed.

Lemma recover_subnet s vdrs : is_id s -> shows_set V start s vdrs ->
  wp (cancelled ctx) (ApplyValidatorWeightDiffs ctx fuel (validatorWeightDiffsBySubnetIDDB D h) start e s;;
    ApplyValidatorPublicKeyDiffs ctx fuel (validatorPublicKeyDiffsBySubnetIDDB D h) start e s) (fun _ vdrs' => shows_set V (e - 1) s vdrs') vdrs.
Proof.
  intros Hs Hv. eapply wp_mono.
  - eapply (two_passes by_subnet _ _ id (fun (vdrs : vdrSet) n => vdrs !! n) (fun _ => True) (fun x n => V x (s, n))); [apply (op_ws _ _ Hopen)| | |apply (op_ks _ _ Hopen)| | | |apply weight_step_body|apply key_step_body|done|done].
    1,3: unfold contents_size; lia.
    + by apply (indexes_by_subnet lo top start (c_ws c) Hlo Hstart Htop _ s Hs (fun x i => weights_invalid V x i Hwf) (rc_ws _ _ _ _ Hrec)).
    + by apply (indexes_by_subnet lo top start (c_ks c) Hlo Hstart Htop _ s Hs (fun x i => keys_invalid V x i Hwf) (rc_ks _ _ _ _ Hrec)).
    + intros x n _. apply Hwf.
  - by intros [] vdrs' [_ Hv'].
Qed.
Lemma recover_all X all : no_empty X all -> shows_all V start all ->
  wp (cancelled ctx) (ApplyAllValidatorWeightDiffs ctx fuel (validatorWeightDiffsByHeightDB D h) start e;;
    ApplyAllValidatorPublicKeyDiffs ctx fuel (validatorPublicKeyDiffsByHeightDB D h) start e) (fun _ all' => no_empty X all' /\ shows_all V (e - 1) all') all.
Proof.
  intros HX Hv. eapply (two_passes by_height _ _ snd look_all (no_empty X) V); [apply (op_wh _ _ Hopen)| | |apply (op_kh _ _ Hopen)| | | |apply all_weight_step_body|apply all_key_step_body|done|done].
  1,3: unfold contents_size; lia.
  - by apply (indexes_by_height lo top start (c_wh c) Hlo Hstart Htop _ (fun x i => weights_invalid V x i Hwf) (rc_wh _ _ _ _ Hrec)).
  - by apply (indexes_by_height lo top start (c_kh c) Hlo Hstart Htop _ (fun x i => keys_invalid V x i Hwf) (rc_kh _ _ _ _ Hrec)).
  - intros x n _. apply Hwf.
Qed.
End recovery.
End history.
End HistoryTheorems.
