(* ===== verification/HistoryChanges.v ===== *)
(** * The changes of a height
    The databases that the changes between two heights are put into record one height
    more; the changes are those of the stakers and of the L1 validators. *)
From S2P Require Import Prelude SafeMath Monads Sorting GoLibrary MapOrder Database BTree Iterators Stakers StakersFacts L1Validators Chain ChainState DiffKeys ValidatorHistory HistoryTheorems.

(** ** Recording the changes of a height
    [writeValidatorDiffs] puts the changes between two heights into the four
    databases, which then record one height more. *)
Module HistoryWrite.
Import Sorting Stakers StakerWeights L1Validators ChainState Database DiffKeys ValidatorHistory HistoryFacts HistoryReplay HistoryTheorems.

(** The changes [d] of an index at height [h], when the sets are [V]. *)
Definition is_change (V : sets) (h : Z) (i : ID * ID) (d : validatorDiff) : Prop :=
  is_u64 (Amount (weightDiff d)) /\ signed (weightDiff d) = e_weight (V h i) - e_weight (V (h - 1) i) /\
  key_entry (prevPublicKey d) (newPublicKey d) = keys_of V h i.
Definition describes (V : sets) (h : Z) (changes : gmap (ID * ID) validatorDiff) : Prop :=
  (forall i, is_Some (changes !! i) -> is_index i) /\ forall i, is_change V h i (getOrSetDefault changes i).

Lemma weight_put V h i d : wf_sets V -> is_change V h i d ->
  weights_of V h i = if Amount (weightDiff d) =? 0 then None else Some (marshalWeightDiff (weightDiff d)).
Proof.
  intros Hw (Ha & Hs & _). apply is_u64_max in Ha. destruct (Hw h i) as [[Hu _] _], (Hw (h - 1) i) as [[Hu' _] _]. apply is_u64_max in Hu, Hu'.
  unfold weights_of, weight_entry, weight_change. unfold signed in Hs. destruct (weightDiff d) as [dec a]. cbn in *.
  destruct (Z.eqb_spec (e_weight (V h i)) (e_weight (V (h - 1) i))), (Z.eqb_spec a 0); destruct dec; try lia; [done..| |].
  - do 3 f_equal; [apply Z.ltb_lt|]; lia.
  - do 3 f_equal; [apply Z.ltb_ge|]; lia.
Qed.

(** The contents when the changes of the indexes [done] have been written. *)
Definition written (key : Z -> ID * ID -> bytes) (h : Z) (F : Z -> ID * ID -> option bytes) (m0 : gmap bytes bytes) (l : list (ID * ID)) (m : gmap bytes bytes) : Prop :=
  (forall i, i ∈ l -> m !! key h i = F h i) /\ forall k, (forall i, i ∈ l -> k <> key h i) -> m !! k = m0 !! k.

(** A key determines the height and the index. *)
Definition key_inj (key : Z -> ID * ID -> bytes) : Prop := forall x i x' i', is_index i -> is_index i' -> is_u64 x -> is_u64 x' -> key x i = key x' i' -> x = x' /\ i = i'.
Lemma subnet_key_inj : key_inj subnet_key.
Proof.
  intros x [s n] x' [s' n'] Hi Hi' Hx Hx' Heq. pose proof (key_by_subnet s x n (proj1 Hi) Hx (proj2 Hi)) as Hk.
  change (marshalDiffKeyBySubnetID s x n) with (subnet_key x (s, n)) in Hk. rewrite Heq in Hk. unfold subnet_key in Hk. cbn [fst snd] in Hk. rewrite (key_by_subnet s' x' n' (proj1 Hi') Hx' (proj2 Hi')) in Hk.
  by injection Hk as -> -> ->.
Qed.
Lemma height_key_inj : key_inj height_key.
Proof.
  intros x i x' i' Hi Hi' Hx Hx' Heq. pose proof (height_key_decode x i Hi Hx) as Hk. rewrite Heq, height_key_decode in Hk by done. by injection Hk as -> ->.
Qed.

Definition put_opt (k : bytes) (o : option bytes) (m : gmap bytes bytes) : gmap bytes bytes := match o with Some v => <[k := v]> m | None => m end.

Section index.
Variables (key : Z -> ID * ID -> bytes) (lo h : Z) (F : Z -> ID * ID -> option bytes) (m0 : gmap bytes bytes).
Hypothesis (Hkey : key_inj key) (Hh : is_u64 h) (Hm0 : index_db key lo (h - 1) F m0).

Lemma written_start : written key h F m0 [] m0.
Proof. split; [by intros i ?%elem_of_nil|done]. Qed.
Lemma written_snoc l m i m' : written key h F m0 l m -> is_index i -> i ∉ l -> Forall is_index l ->
  m' = put_opt (key h i) (F h i) m -> written key h F m0 (l ++ [i]) m'.
Proof.
  intros [Hl Hr] Hi Hni Hli ->. unfold put_opt. rewrite Forall_forall in Hli.
  assert (m0 !! key h i = None) as Hnone.
  { apply eq_None_not_Some. intros Hs. destruct (proj1 Hm0 _ Hs) as (x & i' & Heq & Hx & Hle & Hi'). destruct (Hkey _ _ _ _ Hi Hi' Hh Hx Heq). lia. }
  assert (forall j, j ∈ l -> key h i <> key h j) as Hne by (intros j Hj Heq; destruct (Hkey h i h j Hi (Hli j Hj) Hh Hh Heq) as [_ ->]; done).
  split.
  - intros j [Hj| ->%list_elem_of_singleton]%elem_of_app.
    + rewrite <- (Hl j Hj). destruct (F h i); [|done]. by rewrite lookup_insert_ne by by apply Hne.
    + destruct (F h i) eqn:HF; [by rewrite lookup_insert_eq|]. by rewrite Hr.
  - intros k Hk. assert (k <> key h i) as Hki by (apply Hk; set_solver). rewrite <- Hr by (intros j Hj; apply Hk; set_solver).
    destruct (F h i); [by rewrite lookup_insert_ne|done].
Qed.
Lemma written_end l m : written key h F m0 l m -> Forall is_index l -> (forall i, i ∉ l -> F h i = None) -> index_db key lo h F m.
Proof.
  intros [Hl Hr] Hli Hno. rewrite Forall_forall in Hli. split.
  - intros k [v Hk]. destruct (decide (k ∈ key h <$> l)) as [(i & -> & Hi)%list_elem_of_fmap|Hni].
    + exists h, i. split_and!; [done..|lia|by apply Hli].
    + rewrite Hr in Hk by (intros i Hi ->; apply Hni; apply list_elem_of_fmap; eauto). destruct (proj1 Hm0 k ltac:(eauto)) as (x & i & -> & Hx & Hle & Hi).
      exists x, i. split_and!; [done..|lia|done].
  - intros x i Hx Hu Hi. destruct (decide (x = h)) as [->|Hne].
    + destruct (decide (i ∈ l)) as [Hil|Hil]; [by apply Hl|]. rewrite Hno by done. rewrite Hr by (intros j Hj Heq; destruct (Hkey h i h j Hi (Hli j Hj) Hh Hh Heq) as [_ ->]; done).
      apply eq_None_not_Some. intros Hs. destruct (proj1 Hm0 _ Hs) as (x & i' & Heq & Hx' & Hle & Hi'). destruct (Hkey _ _ _ _ Hi Hi' Hh Hx' Heq). lia.
    + rewrite Hr; [apply Hm0; [lia|done..]|]. intros j Hj Heq. destruct (Hkey x i h j Hi (Hli j Hj) Hu Hh Heq). done.
Qed.
End index.

(** ** The four databases *)
Section write.
Context `{DatabaseLaws D}.

Definition db_faults (e : HistErr) : Prop := exists f, e = ErrStore f /\ fault f.

Lemma wp_put_part (g : history D -> D) p k v m Q h : db_open (g h) m -> (forall d, db_open d (<[k := v]> m) -> Q tt (p d h)) ->
  wp db_faults (zoom_err g p ErrStore (Put k v)) Q h.
Proof.
  intros Hd HQ. apply wp_zoom_err. pose proof (put_law (g h) m k v Hd) as Hp. unfold wp, writes in *. destruct (Put k v (g h)) as [d [[]|e]]; [by apply HQ|].
  exists e. by destruct Hp.
Qed.

Definition put_change (t : Z) (i : ID * ID) (w k : option bytes) (c : contents) : contents :=
  mkContents (put_opt (subnet_key t i) w (c_ws c)) (put_opt (height_key t i) w (c_wh c)) (put_opt (subnet_key t i) k (c_ks c)) (put_opt (height_key t i) k (c_kh c)).
Lemma wp_write_change t i d c h : opened h c ->
  wp db_faults (write_change t (i, d))
    (fun _ h' => opened h' (put_change t i (if Amount (weightDiff d) =? 0 then None else Some (marshalWeightDiff (weightDiff d))) (key_entry (prevPublicKey d) (newPublicKey d)) c)) h.
Proof.
  intros Ho. destruct i as [s n]. unfold write_change.
  apply wp_bind, (wp_mono _ _ (fun _ h' => opened h' (put_change t (s, n) (if Amount (weightDiff d) =? 0 then None else Some (marshalWeightDiff (weightDiff d))) None c))).
  - unfold put_change. apply wp_when; intros Hz; [apply negb_true_iff in Hz|apply negb_false_iff in Hz]; rewrite Hz; cbn; [|by destruct c].
    apply wp_bind. eapply wp_put_part; [exact (op_ws _ _ Ho)|]. intros d1 Hd1. eapply wp_put_part; [exact (op_wh _ _ Ho)|]. intros d2 Hd2. destruct Ho; by split.
  - intros [] h1 Ho1. unfold key_entry. apply wp_when; intros Hk; [apply negb_true_iff, bool_decide_eq_false in Hk|apply negb_false_iff, bool_decide_eq_true in Hk].
    + rewrite bool_decide_false by congruence. apply wp_bind. eapply wp_put_part; [exact (op_ks _ _ Ho1)|]. intros d1 Hd1. eapply wp_put_part; [exact (op_kh _ _ Ho1)|]. intros d2 Hd2. destruct Ho1; by split.
    + by rewrite bool_decide_true.
Qed.

Lemma write_changes V lo top c h (l : list ((ID * ID) * validatorDiff)) : wf_sets V -> is_u64 (top + 1) ->
  records c lo top V -> opened h c -> NoDup l.*1 -> (forall i d, (i, d) ∈ l -> is_index i /\ is_change V (top + 1) i d) ->
  (forall i, i ∉ l.*1 -> weights_of V (top + 1) i = None /\ keys_of V (top + 1) i = None) ->
  wp db_faults (forM l (write_change (top + 1))) (fun _ h' => exists c', opened h' c' /\ records c' lo (top + 1) V) h.
Proof.
  intros Hw Hu [Hr1 Hr2 Hr3 Hr4] Ho Hd Hl Hno. replace top with (top + 1 - 1) in Hr1, Hr2, Hr3, Hr4 by lia. set (t := top + 1) in *.
  pose proof subnet_key_inj as Hsi. pose proof height_key_inj as Hhi.
  pose (I := fun (done : list ((ID * ID) * validatorDiff)) h' => exists c', opened h' c' /\
    written subnet_key t (weights_of V) (c_ws c) done.*1 (c_ws c') /\ written height_key t (weights_of V) (c_wh c) done.*1 (c_wh c') /\
    written subnet_key t (keys_of V) (c_ks c) done.*1 (c_ks c') /\ written height_key t (keys_of V) (c_kh c) done.*1 (c_kh c')).
  eapply wp_mono; [apply (wp_forM db_faults l (write_change t) I)|].
  - exists c. split; [done|]. split_and!; apply written_start.
  - intros done [i d] rest h' Heq (c' & Ho' & Hc1 & Hc2 & Hc3 & Hc4).
    destruct (Hl i d) as [Hi Hch]; [rewrite Heq; set_solver|]. pose proof (weight_put V t _ d Hw Hch) as Hwp. destruct Hch as (_ & _ & Hkp).
    assert (i ∉ done.*1 /\ Forall is_index done.*1) as [Hni Hdi].
    { split; [rewrite Heq, fmap_app, fmap_cons in Hd; apply NoDup_app in Hd as (_ & Hd & _); intros Hin; apply (Hd _ Hin); by left|].
      apply Forall_forall. intros i1 ([i' d'] & -> & Hin)%list_elem_of_fmap. apply (Hl i' d'). rewrite Heq. set_solver. }
    eapply wp_mono; [by apply wp_write_change|]. cbn beta. intros [] h2 Ho2. rewrite Hkp, <- Hwp in Ho2. eexists. split; [exact Ho2|]. rewrite fmap_app. cbn.
    split_and!; by eapply written_snoc.
  - cbn beta. intros [] h' (c' & Ho' & Hc1 & Hc2 & Hc3 & Hc4). exists c'. split; [done|].
    assert (Forall is_index l.*1) as Hli by (apply Forall_forall; intros i ([i' d'] & -> & Hin)%list_elem_of_fmap; by apply (Hl i' d')).
    assert (forall i, i ∉ l.*1 -> weights_of V t i = None) as Hnw by (intros i Hi; by apply Hno).
    assert (forall i, i ∉ l.*1 -> keys_of V t i = None) as Hnk by (intros i Hi; by apply Hno).
    split; by eapply written_end.
Qed.
End write.
End HistoryWrite.

(** ** The changes of the stakers of a height
    [baseStakers] keeps, besides the stakers, their changes since the last commit:
    from them alone [WeightDiff] gives what every node has gained. *)
Module HistoryStakers.
Import Sorting BTree Iterators KeyedTrees Stakers StakersFacts StakerWeights.

Section since.
Context {PK : Type} `{BTreeLaws (Staker PK)} {HO : KeyOrder ID}.
Abbreviation Staker := (Staker PK).
Implicit Types (x y : Staker) (w : view (PK := PK)).

Definition bd (v : baseStakers (PK := PK)) (s n : ID) : diffValidator := default newDiffValidator (lookup2 (b_validatorDiffs v) s n).

(** ** What the stakers of the state go through between two commits *)
Definition unchanged_at v s n : Prop := validatorStatus (bd v s n) = unmodified.
Inductive base_step : baseStakers (PK := PK) * view (PK := PK) * (ID -> Prop) -> baseStakers * view * (ID -> Prop) -> Prop :=
  | step_PutValidator v w used x : vals w (SubnetID x) (NodeID x) = None -> unchanged_at v (SubnetID x) (NodeID x) -> ~ used (TxID x) -> is_u64 (Weight x) ->
      base_step (v, w, used) (base_PutValidator x v, put_validator x w, fun t => used t \/ t = TxID x)
  | step_DeleteValidator v w used x : is_validator w x -> unchanged_at v (SubnetID x) (NodeID x) ->
      base_step (v, w, used) (base_DeleteValidator x v, delete_validator x w, used)
  | step_PutDelegator v w used x : is_Some (vals w (SubnetID x) (NodeID x)) -> ~ used (TxID x) -> is_u64 (Weight x) ->
      base_step (v, w, used) (base_PutDelegator x v, put_delegator x w, fun t => used t \/ t = TxID x)
  | step_DeleteDelegator v w used x : dels w x -> is_Some (vals w (SubnetID x) (NodeID x)) ->
      base_step (v, w, used) (base_DeleteDelegator x v, remove_delegator x w, used).

(** The changes since the stakers were [w0]; [A] are the delegators added. *)
Record base_since w0 (A : Staker -> Prop) (v : baseStakers) w (used : ID -> Prop) : Prop := {
  bs_rep : base_rep v w;
  bs_wf0 : wf_view w0;
  bs_status s n : match validatorStatus (bd v s n) with
    | unmodified => vals w s n = vals w0 s n /\ validator (bd v s n) = None
    | added => vals w0 s n = None /\ is_Some (vals w s n) /\ validator (bd v s n) = vals w s n
    | deleted => is_Some (vals w0 s n) /\ vals w s n = None /\ validator (bd v s n) = vals w0 s n
    end;
  bs_touched s n : is_Some (lookup2 (b_validatorDiffs v) s n) -> is_Some (vals w0 s n) \/ is_Some (vals w s n);
  bs_added s n : opt_items (addedDelegators (bd v s n)) (fun x => A x /\ at_node s n x);
  bs_deleted s n t x : deletedDelegators (bd v s n) !! t = Some x <-> TxID x = t /\ at_node s n x /\ (dels w0 x \/ A x) /\ ~ dels w x;
  bs_dels x : dels w x -> dels w0 x \/ A x;
  bs_fresh x y : A x -> dels w0 y -> TxID x <> TxID y;
  bs_key x y : A x -> A y -> TxID x = TxID y -> x = y;
  bs_used x : dels w0 x \/ A x \/ member w x -> used (TxID x);
  bs_u64 x : member w0 x \/ A x \/ member w x -> is_u64 (Weight x);
}.

Lemma since_start v w used : base_rep v w -> b_validatorDiffs v = ∅ -> (forall x, member w x -> used (TxID x) /\ is_u64 (Weight x)) -> base_since w (fun _ => False) v w used.
Proof.
  intros Hr Hv Hu. assert (forall s n, bd v s n = newDiffValidator) as Hd by (intros s n; unfold bd, lookup2; by rewrite Hv, lookup_empty).
  split; try done.
  - apply Hr.
  - intros s n. by rewrite Hd.
  - intros s n. unfold lookup2. rewrite Hv, lookup_empty. by intros [? [=]].
  - intros s n. rewrite Hd. by intros x [[] _].
  - intros s n t x. rewrite Hd. cbn. rewrite lookup_empty. split; [done|]. naive_solver.
  - by left.
  - intros x [?|[[]|?]]; apply Hu; [by right|done].
  - intros x [?|[[]|?]]; by apply Hu.
Qed.

Lemma since_key w0 A v w used x y : base_since w0 A v w used -> dels w0 x \/ A x -> dels w0 y \/ A y -> TxID x = TxID y -> x = y.
Proof.
  intros Hb [Hx|Hx] [Hy|Hy] Heq; [apply (wf_key _ (bs_wf0 _ _ _ _ _ Hb)); [by right|by right|done]| | |by eapply bs_key].
  - by destruct (bs_fresh _ _ _ _ _ Hb y x).
  - by destruct (bs_fresh _ _ _ _ _ Hb x y).
Qed.

(** The diff of a node after a change. *)
Lemma bd_update v x f st t s n : bd (mkBaseStakers st t (update_diff (SubnetID x) (NodeID x) f (b_validatorDiffs v))) s n =
  if bool_decide (s = SubnetID x /\ n = NodeID x) then f (bd v s n) else bd v s n.
Proof. unfold bd, update_diff. cbn. rewrite lookup2_insert2. by case_bool_decide as Hd; [destruct Hd as [-> ->]|]. Qed.
Lemma touched_update v x f st t s n : is_Some (lookup2 (b_validatorDiffs (mkBaseStakers st t (update_diff (SubnetID x) (NodeID x) f (b_validatorDiffs v)))) s n) ->
  s = SubnetID x /\ n = NodeID x \/ is_Some (lookup2 (b_validatorDiffs v) s n).
Proof. unfold update_diff. cbn. rewrite lookup2_insert2. case_bool_decide; [by left|by right]. Qed.

(** A change of what is known of a validator leaves the delegators alone. *)
Lemma since_validator w0 A v v' w w' used used' s n st b : base_since w0 A v w used -> base_rep v' w' -> (forall t, used t -> used' t) ->
  (forall x, member w' x -> used' (TxID x) /\ is_u64 (Weight x)) -> (forall s' n', ~ (s' = s /\ n' = n) -> vals w' s' n' = vals w s' n') -> dels w' = dels w ->
  (forall s' n', bd v' s' n' = if bool_decide (s' = s /\ n' = n) then set_validator st b (bd v s' n') else bd v s' n') ->
  (forall s' n', is_Some (lookup2 (b_validatorDiffs v') s' n') -> s' = s /\ n' = n \/ is_Some (lookup2 (b_validatorDiffs v) s' n')) ->
  match st with
  | unmodified => False
  | added => vals w0 s n = None /\ is_Some (vals w' s n) /\ b = vals w' s n
  | deleted => is_Some (vals w0 s n) /\ vals w' s n = None /\ b = vals w0 s n
  end -> base_since w0 A v' w' used'.
Proof.
  intros Hb Hr' Hu Hm Hv Hd Hbd Ht Hst. split; [done|apply Hb|..].
  - intros s' n'. rewrite Hbd. case_bool_decide as Hn; [destruct Hn as [-> ->]; by destruct st|]. rewrite Hv by done. apply (bs_status _ _ _ _ _ Hb).
  - intros s' n' Hs. destruct (decide (s' = s /\ n' = n)) as [[-> ->]|Hn]; [destruct st; naive_solver|]. rewrite Hv by done.
    apply (bs_touched _ _ _ _ _ Hb). by destruct (Ht _ _ Hs).
  - intros s' n'. rewrite Hbd. assert (forall d, addedDelegators (if bool_decide (s' = s /\ n' = n) then set_validator st b d else d) = addedDelegators d) as -> by (intros d; by case_bool_decide).
    apply (bs_added _ _ _ _ _ Hb).
  - intros s' n' t x. rewrite Hbd, Hd. assert (forall d, deletedDelegators (if bool_decide (s' = s /\ n' = n) then set_validator st b d else d) = deletedDelegators d) as -> by (intros d; by case_bool_decide).
    apply (bs_deleted _ _ _ _ _ Hb).
  - intros x. rewrite Hd. apply (bs_dels _ _ _ _ _ Hb).
  - apply (bs_fresh _ _ _ _ _ Hb).
  - apply (bs_key _ _ _ _ _ Hb).
  - intros x [?|[?|?]]; [apply Hu, (bs_used _ _ _ _ _ Hb); tauto..|by apply Hm].
  - intros x [?|[?|?]]; [apply (bs_u64 _ _ _ _ _ Hb); tauto..|by apply Hm].
Qed.

Lemma since_PutValidator w0 A v w used x : base_since w0 A v w used -> vals w (SubnetID x) (NodeID x) = None -> unchanged_at v (SubnetID x) (NodeID x) -> ~ used (TxID x) -> is_u64 (Weight x) ->
  base_since w0 A (base_PutValidator x v) (put_validator x w) (fun t => used t \/ t = TxID x).
Proof.
  intros Hb Hx Hc Hu Hwx. pose proof (bs_status _ _ _ _ _ Hb (SubnetID x) (NodeID x)) as Hs. rewrite Hc in Hs. destruct Hs as [Hs _].
  assert (forall y, member w y -> TxID y <> TxID x) as Hf by (intros y Hy Heq; apply Hu; rewrite <- Heq; apply (bs_used _ _ _ _ _ Hb); tauto).
  apply (since_validator w0 A v _ w _ used _ (SubnetID x) (NodeID x) added (Some x)); try done.
  - apply base_Put_validator_rep; [apply Hb|done..].
  - by left.
  - intros y Hy. apply put_validator_member in Hy as [Hy| ->]; [split; [left; apply (bs_used _ _ _ _ _ Hb)|apply (bs_u64 _ _ _ _ _ Hb)]; tauto|by split; [right|]|apply Hb|done].
  - intros s n Hn. cbn. by rewrite bool_decide_false.
  - intros s n. apply bd_update.
  - intros s n. apply touched_update.
  - cbn. rewrite bool_decide_true by done. rewrite <- Hs. by split_and!; [|eexists|].
Qed.
Lemma since_DeleteValidator w0 A v w used x : base_since w0 A v w used -> is_validator w x -> unchanged_at v (SubnetID x) (NodeID x) ->
  base_since w0 A (base_DeleteValidator x v) (delete_validator x w) used.
Proof.
  intros Hb Hx Hc. pose proof (bs_status _ _ _ _ _ Hb (SubnetID x) (NodeID x)) as Hs. rewrite Hc in Hs. destruct Hs as [Hs _]. pose proof (br_wf _ _ (bs_rep _ _ _ _ _ Hb)) as Hw.
  apply (since_validator w0 A v _ w _ used _ (SubnetID x) (NodeID x) deleted (Some x)); try done.
  - apply base_Delete_validator_rep; [apply Hb|done..].
  - intros y Hy. apply delete_validator_member in Hy as [Hy _]; [|done..]. split; [apply (bs_used _ _ _ _ _ Hb)|apply (bs_u64 _ _ _ _ _ Hb)]; tauto.
  - intros s n Hn. cbn. by rewrite bool_decide_false.
  - intros s n. apply bd_update.
  - intros s n. apply touched_update.
  - cbn. rewrite bool_decide_true by done. rewrite <- Hs. unfold is_validator in Hx. rewrite Hx. by split_and!; [eexists| |].
Qed.

Lemma since_PutDelegator w0 A v w used x : base_since w0 A v w used -> is_Some (vals w (SubnetID x) (NodeID x)) -> ~ used (TxID x) -> is_u64 (Weight x) ->
  base_since w0 (fun y => A y \/ y = x) (base_PutDelegator x v) (put_delegator x w) (fun t => used t \/ t = TxID x).
Proof.
  intros Hb Hx Hu Hwx. pose proof (bs_used _ _ _ _ _ Hb) as Hus.
  assert (forall y, dels w0 y \/ A y \/ member w y -> TxID y <> TxID x) as Hf by (intros y Hy Heq; apply Hu; rewrite <- Heq; by apply Hus).
  split; [apply base_Put_delegator_rep; [apply Hb|]; naive_solver|apply Hb|..].
  - intros s n. unfold base_PutDelegator. rewrite bd_update. assert (forall b (d : diffValidator), validatorStatus (if b : bool then add_delegator x d else d) = validatorStatus d /\ validator (if b : bool then add_delegator x d else d) = validator d) as Hd by by intros [].
    rewrite (proj1 (Hd _ _)), (proj2 (Hd _ _)). apply (bs_status _ _ _ _ _ Hb).
  - intros s n Hs. apply touched_update in Hs as [[-> ->]|Hs]; [by right|]. by apply (bs_touched _ _ _ _ _ Hb).
  - intros s n. unfold base_PutDelegator. rewrite bd_update. case_bool_decide as Hn.
    + destruct Hn as [-> ->]. eapply opt_items_ext; [apply opt_items_insert; [apply (bs_added _ _ _ _ _ Hb)|]|].
      * intros y [Hy _] Heq. by destruct (Hf y); [right; left|].
      * intros y. unfold at_node. naive_solver.
    + eapply opt_items_ext; [apply (bs_added _ _ _ _ _ Hb)|]. intros y. unfold at_node. naive_solver.
  - intros s n t y. unfold base_PutDelegator. rewrite bd_update. assert (forall b (d : diffValidator), deletedDelegators (if b : bool then add_delegator x d else d) = deletedDelegators d) as -> by by intros [].
    rewrite (bs_deleted _ _ _ _ _ Hb). cbn. assert (dels w0 y \/ A y -> y <> x) by (intros Hy ->; by apply (Hf x); [tauto|]). naive_solver.
  - intros y [Hy| ->]; [|by right; right]. destruct (bs_dels _ _ _ _ _ Hb y Hy); tauto.
  - intros y z [Hy| ->] Hz Heq; [by apply (bs_fresh _ _ _ _ _ Hb y z)|]. by apply (Hf z); [left|].
  - intros y z [Hy| ->] [Hz| ->] Heq; [by apply (bs_key _ _ _ _ _ Hb)| | |done].
    + by destruct (Hf y); [right; left|].
    + by destruct (Hf z); [right; left|].
  - intros y [Hy|[[Hy| ->]|Hy]]; [left; apply Hus; tauto..|by right|]. apply put_delegator_member in Hy as [Hy| ->]; [left; apply Hus; tauto|by right].
  - intros y [Hy|[[Hy| ->]|Hy]]; [apply (bs_u64 _ _ _ _ _ Hb); tauto..|done|]. apply put_delegator_member in Hy as [Hy| ->]; [apply (bs_u64 _ _ _ _ _ Hb); tauto|done].
Qed.
Lemma since_DeleteDelegator w0 A v w used x : base_since w0 A v w used -> dels w x -> is_Some (vals w (SubnetID x) (NodeID x)) ->
  base_since w0 A (base_DeleteDelegator x v) (remove_delegator x w) used.
Proof.
  intros Hb Hx Hv. pose proof (br_wf _ _ (bs_rep _ _ _ _ _ Hb)) as Hw.
  split; [apply base_Delete_delegator_rep; [apply Hb|done]|apply Hb|..].
  - intros s n. unfold base_DeleteDelegator. rewrite bd_update. assert (forall b (d : diffValidator), validatorStatus (if b : bool then delete_delegator x d else d) = validatorStatus d /\ validator (if b : bool then delete_delegator x d else d) = validator d) as Hd by by intros [].
    rewrite (proj1 (Hd _ _)), (proj2 (Hd _ _)). apply (bs_status _ _ _ _ _ Hb).
  - intros s n Hs. apply touched_update in Hs as [[-> ->]|Hs]; [by right|]. by apply (bs_touched _ _ _ _ _ Hb).
  - intros s n. unfold base_DeleteDelegator. rewrite bd_update. assert (forall b (d : diffValidator), addedDelegators (if b : bool then delete_delegator x d else d) = addedDelegators d) as -> by by intros [].
    apply (bs_added _ _ _ _ _ Hb).
  - intros s n t y. unfold base_DeleteDelegator. rewrite bd_update. pose proof (bs_deleted _ _ _ _ _ Hb s n t y) as Hd. pose proof (bs_dels _ _ _ _ _ Hb x Hx) as Hxk.
    cbn. case_bool_decide as Hn; [|rewrite Hd; unfold at_node in *; naive_solver]. destruct Hn as [-> ->]. cbn. destruct (decide (t = TxID x)) as [->|Ht].
    + rewrite lookup_insert_eq. split; [intros [= <-]; unfold at_node; naive_solver|]. intros (Heq & _ & Hy & _). f_equal. by eapply since_key.
    + rewrite lookup_insert_ne, Hd by done. naive_solver.
  - intros y [Hy _]. by apply (bs_dels _ _ _ _ _ Hb).
  - apply (bs_fresh _ _ _ _ _ Hb).
  - apply (bs_key _ _ _ _ _ Hb).
  - intros y Hy. apply (bs_used _ _ _ _ _ Hb). destruct Hy as [?|[?|Hy]]; [tauto..|]. apply remove_delegator_member in Hy as [? _]; tauto.
  - intros y Hy. apply (bs_u64 _ _ _ _ _ Hb). destruct Hy as [?|[?|Hy]]; [tauto..|]. apply remove_delegator_member in Hy as [? _]; tauto.
Qed.

(** Rule induction over the steps since the last commit. *)
Lemma steps_since w0 A v w used v' w' used' : rtc base_step (v, w, used) (v', w', used') -> base_since w0 A v w used -> exists A', base_since w0 A' v' w' used'.
Proof.
  intros Hs. remember (v, w, used) as a eqn:Ha. remember (v', w', used') as b eqn:Hb. revert v w used Ha A. induction Hs as [a|a c b Hstep _ IH]; intros v w used -> A Hi.
  - injection Hb as -> -> ->. by exists A.
  - inversion Hstep; subst; (eapply IH; [done..|]).
    + by apply since_PutValidator.
    + by apply since_DeleteValidator.
    + by apply since_PutDelegator.
    + by apply since_DeleteDelegator.
Qed.

(** ** What a node has gained *)
Definition node_weight w (s n : ID) (z : Z) : Prop := exists l, NoDup l /\ (forall x, x ∈ l <-> dels w x /\ at_node s n x) /\
  z = zsum Weight l + match vals w s n with Some x => Weight x | None => 0 end.
Lemma node_weight_unique w s n z z' : node_weight w s n z -> node_weight w s n z' -> z = z'.
Proof.
  intros (l & Hd & Hl & ->) (l' & Hd' & Hl' & ->). f_equal. apply zsum_perm, NoDup_Permutation; [done..|]. intros x. by rewrite Hl, Hl'.
Qed.

Lemma opt_items_list t P : opt_items (PK := PK) t P -> NoDup (ToSlice (FromTree t)) /\ forall x, x ∈ ToSlice (FromTree t) <-> P x.
Proof.
  intros Ht. destruct (lists_ToSlice Less _ _ (lists_opt _ _ Ht)) as [Hs Hl]. split; [by eapply (sorted_by_nodup Less TxID)|done].
Qed.
Lemma deleted_items (d : diffValidator (PK := PK)) (P : Staker -> Prop) : (forall t x, deletedDelegators d !! t = Some x <-> TxID x = t /\ P x) ->
  NoDup (deleted_list d) /\ forall x, x ∈ deleted_list d <-> P x.
Proof.
  intros Hd. assert (forall x, x ∈ deleted_list d <-> P x) as Hl.
  { intros x. unfold deleted_list. rewrite list_elem_of_fmap. split.
    - intros ([t y] & -> & Hin). apply elem_of_entries, Hd in Hin. tauto.
    - intros Hx. exists (TxID x, x). split; [done|]. apply elem_of_entries, Hd. done. }
  split; [|done]. unfold deleted_list. apply NoDup_fmap_2_strong; [|apply entries_nodup].
  intros [t x] [t' y] Hx Hy Heq. cbn in Heq. subst. apply elem_of_entries, Hd in Hx as [<- _]. by apply elem_of_entries, Hd in Hy as [<- _].
Qed.

Lemma gained w0 A v w used s n z0 z : base_since w0 A v w used -> node_weight w0 s n z0 -> node_weight w s n z ->
  match WeightDiff (bd v s n) with
  | Ok wd => is_u64 (Amount wd) /\ signed wd = z - z0
  | Err e => e = ErrMath SafeMath.ErrOverflow
  end.
Proof.
  intros Hb (l0 & Hd0 & Hl0 & ->) (l & Hd & Hl & ->). pose proof (bs_u64 _ _ _ _ _ Hb) as Hu.
  pose proof (bs_status _ _ _ _ _ Hb s n) as Hs. pose proof (br_wf _ _ (bs_rep _ _ _ _ _ Hb)) as Hw.
  destruct (opt_items_list _ _ (bs_added _ _ _ _ _ Hb s n)) as [HdA HlA]. fold (added_list (bd v s n)) in HdA, HlA.
  destruct (deleted_items (bd v s n) (fun x => at_node s n x /\ (dels w0 x \/ A x) /\ ~ dels w x)) as [HdD HlD]; [apply (bs_deleted _ _ _ _ _ Hb)|].
  assert (forall x, vals w0 s n = Some x -> is_validator w0 x) as Hv0 by (intros x Hx; destruct (wf_node _ (bs_wf0 _ _ _ _ _ Hb) _ _ _ Hx) as [<- <-]; done).
  assert (forall x, vals w s n = Some x -> is_validator w x) as Hv by (intros x Hx; destruct (wf_node _ Hw _ _ _ Hx) as [<- <-]; done).
  assert (zsum Weight l + zsum Weight (deleted_list (bd v s n)) = zsum Weight l0 + zsum Weight (added_list (bd v s n))) as Hsum.
  { rewrite <- !zsum_app. apply zsum_perm, NoDup_Permutation.
    - apply NoDup_app. split_and!; [done| |done]. intros x Hx Hx'. apply Hl in Hx. apply HlD in Hx'. tauto.
    - apply NoDup_app. split_and!; [done| |done]. intros x Hx Hx'. apply Hl0 in Hx. apply HlA in Hx'. by destruct (bs_fresh _ _ _ _ _ Hb x x); [tauto..|].
    - intros x. rewrite !elem_of_app, Hl, HlD, Hl0, HlA. pose proof (bs_dels _ _ _ _ _ Hb x) as Hk.
      assert (dels w0 x \/ A x -> at_node s n x -> dels w x \/ ~ dels w x) as Hdec; [|tauto]. intros Hx Hn.
      destruct (decide (TxID x ∈ TxID <$> l)) as [(y & Heq & Hy)%list_elem_of_fmap|Hni].
      + apply Hl in Hy as [Hy _]. left. rewrite (since_key w0 A v w used x y Hb Hx (bs_dels _ _ _ _ _ Hb y Hy) Heq). done.
      + right. intros Hxw. apply Hni, list_elem_of_fmap. exists x. split; [done|]. by apply Hl. }
  assert (forall x, validator (bd v s n) = Some x -> is_u64 (Weight x)) as Hvu.
  { intros x Hx. apply Hu. destruct (validatorStatus (bd v s n)); [destruct Hs as [_ Hs]; congruence|destruct Hs as (_ & _ & Hs)|destruct Hs as (_ & _ & Hs)];
      rewrite Hx in Hs; [right; right; left; by apply Hv|left; left; by apply Hv0]. }
  assert (own_weight (bd v s n) = match vals w s n with Some x => Weight x | None => 0 end - match vals w0 s n with Some x => Weight x | None => 0 end) as Hown.
  { unfold own_weight. destruct (validatorStatus (bd v s n)).
    - destruct Hs as [-> _]. lia.
    - destruct Hs as (-> & [x Hx] & ->). rewrite Hx. lia.
    - destruct Hs as ([x Hx] & -> & ->). rewrite Hx. lia. }
  assert (validatorStatus (bd v s n) <> unmodified -> is_Some (validator (bd v s n))) as Hsome.
  { intros Hne. destruct (validatorStatus (bd v s n)); [done|destruct Hs as (_ & ? & ->); done|destruct Hs as (? & _ & ->); done]. }
  pose proof (WeightDiff_spec (bd v s n) Hsome) as Hwd. destruct (WeightDiff (bd v s n)) as [wd|e]; destruct Hwd as [? Hws]; try done.
  - intros x [Hx|[Hx|Hx]]; [by apply Hvu|apply HlA in Hx|apply HlD in Hx]; apply Hu; unfold member; tauto.
  - split; [done|lia].
  - intros x [Hx|[Hx|Hx]]; [by apply Hvu|apply HlA in Hx|apply HlD in Hx]; apply Hu; unfold member; tauto.
Qed.

Lemma no_gain w0 A v w used s n z0 z : base_since w0 A v w used -> node_weight w0 s n z0 -> node_weight w s n z -> lookup2 (b_validatorDiffs v) s n = None -> z = z0.
Proof.
  intros Hb Hz0 Hz Hn. pose proof (gained w0 A v w used s n z0 z Hb Hz0 Hz) as Hg.
  assert (bd v s n = newDiffValidator) as Hbd by (unfold bd; by rewrite Hn). rewrite Hbd in Hg.
  assert (deleted_list newDiffValidator = [] /\ added_list newDiffValidator = []) as [Hd Ha].
  { split; [|by destruct (added_list newDiffValidator) as [|x l] eqn:E; [|destruct (opt_items_list None (fun _ => False)) as [_ Hx]; [by intros ? []|];
      destruct (proj1 (Hx x)); change (x ∈ added_list newDiffValidator); rewrite E; left]].
    unfold deleted_list. cbn. pose proof (entries_perm (∅ : gmap ID Staker)) as Hp. rewrite map_to_list_empty in Hp. apply Permutation_nil_r in Hp. by rewrite Hp. }
  pose proof (WeightDiff_spec newDiffValidator) as Hw. rewrite Hd, Ha in Hw. cbn in Hw. destruct (WeightDiff newDiffValidator) as [wd|e].
  - destruct Hw as [_ Hw]; [done|by intros x [[=]|[?%elem_of_nil|?%elem_of_nil]]|]. destruct Hg as [_ Hg]. lia.
  - destruct Hw as [_ Hw]; [done|by intros x [[=]|[?%elem_of_nil|?%elem_of_nil]]|]. unfold MaxUint64 in Hw. lia.
Qed.
End since.
End HistoryStakers.

(** ** The changes of the L1 validators of a height
    The second loop of [calculateValidatorDiffs] takes every changed L1 validator off
    the index that it had and adds it to the one that it has. *)
Module HistoryChanges.
Import Sorting BTree Stakers StakersFacts StakerWeights L1Validators L1Facts Chain ChainState ChainStateFacts DiffKeys ValidatorHistory HistoryFacts HistoryReplay.

(** Where an L1 validator is counted, and what it counts at an index. *)
Definition l1_index (p : L1Validator) : ID * ID := (L_SubnetID p, effectiveNodeID p).
Definition counts (i : ID * ID) (p : L1Validator) : Z := if decide (l1_index p = i) then L_Weight p else 0.
Definition l1_weight (L : gmap ID L1Validator) (i : ID * ID) : Z := msum (omap (fun p => if decide (l1_index p = i) then Some (L_Weight p) else None) L).
Definition l1_bytes (p : L1Validator) : list Z := default [] (effectivePublicKeyBytes p).

Abbreviation changeMap := (gmap (ID * ID) validatorDiff).
Abbreviation at_index := getOrSetDefault.
Definition overflows (e : HistErr) : Prop := e = ErrState (ErrMath SafeMath.ErrOverflow).

(** ** One change *)
Definition well_kept (C : changeMap) : Prop := forall i, is_u64 (Amount (weightDiff (at_index C i))).
Lemma at_insert (C : changeMap) i d j : at_index (<[i := d]> C) j = if decide (i = j) then d else at_index C j.
Proof. unfold at_index. case_decide as Hd; [by rewrite Hd, lookup_insert_eq|by rewrite lookup_insert_ne]. Qed.
Lemma insert_known {V} (C : gmap (ID * ID) V) i d j : is_Some (<[i := d]> C !! j) -> i = j \/ is_Some (C !! j).
Proof. rewrite lookup_insert_is_Some. tauto. Qed.

Lemma sub_prior_spec p C : well_kept C -> is_u64 (L_Weight p) ->
  match sub_prior p C with
  | Ok C' => well_kept C' /\ (forall i, is_Some (C' !! i) -> l1_index p = i \/ is_Some (C !! i)) /\ forall i,
      signed (weightDiff (at_index C' i)) = signed (weightDiff (at_index C i)) - counts i p /\
      prevPublicKey (at_index C' i) = (if decide (l1_index p = i) then l1_bytes p else prevPublicKey (at_index C i)) /\
      newPublicKey (at_index C' i) = newPublicKey (at_index C i)
  | Err e => overflows e
  end.
Proof.
  intros HC Hp. unfold sub_prior. fold (l1_index p). pose proof (addOrSub_spec true (L_Weight p) _ (HC (l1_index p)) Hp) as Hs. unfold wd_Sub.
  destruct (addOrSub true _ _) as [w|e]; cbn; [|by destruct Hs as [-> _]]. destruct Hs as (Hw & _ & Hs). split_and!.
  - intros i. rewrite at_insert. by case_decide.
  - intros i. apply insert_known.
  - intros i. rewrite at_insert. unfold counts. case_decide as Hd; [|rewrite Z.sub_0_r; done]. rewrite <- Hd. cbn. split_and!; [lia|done|done].
Qed.
Lemma add_new_spec p C : well_kept C -> is_u64 (L_Weight p) ->
  match add_new p C with
  | Ok C' => well_kept C' /\ (forall i, is_Some (C' !! i) -> l1_index p = i \/ is_Some (C !! i)) /\ forall i,
      signed (weightDiff (at_index C' i)) = signed (weightDiff (at_index C i)) + counts i p /\
      newPublicKey (at_index C' i) = (if decide (l1_index p = i) then l1_bytes p else newPublicKey (at_index C i)) /\
      prevPublicKey (at_index C' i) = prevPublicKey (at_index C i)
  | Err e => overflows e
  end.
Proof.
  intros HC Hp. unfold add_new. fold (l1_index p). pose proof (addOrSub_spec false (L_Weight p) _ (HC (l1_index p)) Hp) as Hs. unfold wd_Add.
  destruct (addOrSub false _ _) as [w|e]; cbn; [|by destruct Hs as [-> _]]. destruct Hs as (Hw & _ & Hs). split_and!.
  - intros i. rewrite at_insert. by case_decide.
  - intros i. apply insert_known.
  - intros i. rewrite at_insert. unfold counts. case_decide as Hd; [|rewrite Z.add_0_r; done]. rewrite <- Hd. cbn. split_and!; [lia|done|done].
Qed.

(** ** All changes *)
Section l1.
Context {T : ChainTypes} `{BTreeLaws (Staker PublicKey)} `{BTreeLaws ExpiryEntry} `{BTreeLaws L1Validator}.
Variables (s : state) (L0 L : gmap ID L1Validator).
Hypothesis (Hpers : forall id, replies (getPersistedL1Validator id s) (found (L0 !! id))) (Hinv : l1_inv L0 L (l1ValidatorsDiff s)).

(** What is lost with the earlier validator. *)
Definition prior_counts (i : ID * ID) (x : ID * L1Validator) : Z := match L0 !! x.1 with Some p => counts i p | None => 0 end.
Definition was_at (i : ID * ID) (k : list Z) (x : ID * L1Validator) : Prop := exists p, L0 !! x.1 = Some p /\ l1_index p = i /\ l1_bytes p = k.
Definition is_at (i : ID * ID) (k : list Z) (x : ID * L1Validator) : Prop := isDeleted x.2 = false /\ l1_index x.2 = i /\ l1_bytes x.2 = k.

(** A key is that of a change done, or the one before. *)
Definition key_from (P : ID * ID -> list Z -> ID * L1Validator -> Prop) (l : list (ID * L1Validator)) (i : ID * ID) (k0 k : list Z) : Prop :=
  (exists x, x ∈ l /\ P i k x) \/ k = k0 /\ forall x k', x ∈ l -> ~ P i k' x.
Lemma key_from_snoc P l x i k0 k k' : key_from P l i k0 k -> (P i k' x \/ k' = k /\ forall k2, ~ P i k2 x) -> key_from P (l ++ [x]) i k0 k'.
Proof.
  intros Hk [Hx|[-> Hx]]; [left; exists x; split; [set_solver|done]|]. destruct Hk as [(y & Hy & Hp)|[-> Hn]]; [left; exists y; split; [set_solver|done]|right].
  split; [done|]. intros y k2 [Hy| ->%list_elem_of_singleton]%elem_of_app; [by apply Hn|apply Hx].
Qed.

Record l1_done (C0 : changeMap) (l : list (ID * L1Validator)) (C : changeMap) : Prop := {
  ld_kept : well_kept C;
  ld_known i : is_Some (C !! i) -> is_Some (C0 !! i) \/ exists x p, x ∈ l /\ (L0 !! x.1 = Some p \/ x.2 = p) /\ l1_index p = i;
  ld_weight i : signed (weightDiff (at_index C i)) = signed (weightDiff (at_index C0 i)) - zsum (prior_counts i) l + zsum (fun x => counts i x.2) l;
  ld_prev i : key_from was_at l i (prevPublicKey (at_index C0 i)) (prevPublicKey (at_index C i));
  ld_new i : key_from is_at l i (newPublicKey (at_index C0 i)) (newPublicKey (at_index C i));
}.

Lemma l1_done_start C0 : well_kept C0 -> l1_done C0 [] C0.
Proof.
  intros HC. split; [done|by left|cbn; lia|..]; intros i; right; (split; [done|]); by intros ? ? ?%elem_of_nil.
Qed.

Definition lookup_fault (e : HistErr) : Prop := exists f, e = ErrState f /\ db_fault f.
Definition change_fault (e : HistErr) : Prop := overflows e \/ lookup_fault e.

Lemma l1_change_step C0 l C id v : l1_done C0 l C -> modified (l1ValidatorsDiff s) !! id = Some v ->
  match l1_change s C (id, v) with Ok C' => l1_done C0 (l ++ [(id, v)]) C' | Err e => change_fault e end.
Proof.
  intros [Hk Hkn Hw Hp Hn] Hid. destruct (li_modified _ _ _ Hinv _ _ Hid) as (_ & Hu & _). cbn [l1_change].
  set (x := (id, v)).
  assert (match (match getPersistedL1Validator id s with Ok p => sub_prior p C | Err Stakers.ErrNotFound => Ok C | Err e => Err (ErrState e) end) with
    | Ok C1 => well_kept C1 /\ (forall i, is_Some (C1 !! i) -> (exists p, L0 !! id = Some p /\ l1_index p = i) \/ is_Some (C !! i)) /\ forall i,
        signed (weightDiff (at_index C1 i)) = signed (weightDiff (at_index C i)) - prior_counts i x /\
        (was_at i (prevPublicKey (at_index C1 i)) x \/ prevPublicKey (at_index C1 i) = prevPublicKey (at_index C i) /\ forall k, ~ was_at i k x) /\
        newPublicKey (at_index C1 i) = newPublicKey (at_index C i)
    | Err e => change_fault e
    end) as Hprior.
  { destruct (Hpers id) as [Hr|(e & Hr & (f & ->))]; rewrite Hr; [|right; eexists; split; [done|by eexists]].
    unfold prior_counts, was_at, x. cbn [fst snd]. destruct (L0 !! id) as [p|] eqn:Hp0; cbn [found].
    - destruct (wl_value _ (li_wf0 _ _ _ Hinv) _ _ Hp0) as (_ & Hpu & _). pose proof (sub_prior_spec p C Hk Hpu) as Hs.
      destruct (sub_prior p C) as [C1|e]; [|by left]. destruct Hs as (Hk1 & Hkn1 & Hs). split_and!; [done| |].
      + intros i Hi. destruct (Hkn1 i Hi); [left; eauto|by right].
      + intros i. destruct (Hs i) as (Hs1 & Hs2 & Hs3). split_and!; [done| |done]. rewrite Hs2. case_decide as Hd; [left; eauto|right].
        split; [done|]. intros k (p' & [= <-] & Hi & _). done.
    - split_and!; [done|by right|]. intros i. split_and!; [lia| |done]. right. split; [done|]. by intros k (p' & ? & _). }
  destruct (match getPersistedL1Validator id s with Ok p => sub_prior p C | Err Stakers.ErrNotFound => Ok C | Err e => Err (ErrState e) end) as [C1|e]; cbn [mbind result_bind]; [|done].
  destruct Hprior as (Hk1 & Hkn1 & Hs1).
  assert (match (if isDeleted v then Ok C1 else add_new v C1) with
    | Ok C2 => well_kept C2 /\ (forall i, is_Some (C2 !! i) -> l1_index v = i \/ is_Some (C1 !! i)) /\ forall i,
        signed (weightDiff (at_index C2 i)) = signed (weightDiff (at_index C1 i)) + counts i v /\
        (is_at i (newPublicKey (at_index C2 i)) x \/ newPublicKey (at_index C2 i) = newPublicKey (at_index C1 i) /\ forall k, ~ is_at i k x) /\
        prevPublicKey (at_index C2 i) = prevPublicKey (at_index C1 i)
    | Err e => change_fault e
    end) as Hnew.
  { unfold is_at, x. cbn [snd]. destruct (isDeleted v) eqn:Hdel.
    - split_and!; [done|by right|]. intros i. split_and!; [|right; split; [done|by intros k [? _]]|done]. unfold counts. apply Z.eqb_eq in Hdel. case_decide; lia.
    - pose proof (add_new_spec v C1 Hk1 Hu) as Hs. destruct (add_new v C1) as [C2|e]; [|by left]. destruct Hs as (Hk2 & Hkn2 & Hs). split_and!; [done..|].
      intros i. destruct (Hs i) as (Hs2 & Hs3 & Hs4). split_and!; [done| |done]. rewrite Hs3. case_decide as Hd; [by left|right]. split; [done|]. intros k (_ & Hi & _). done. }
  destruct (if isDeleted v then Ok C1 else add_new v C1) as [C2|e]; [|done]. destruct Hnew as (Hk2 & Hkn2 & Hs2). split; [done|..].
  - intros i Hi. destruct (Hkn2 i Hi) as [Hv|Hi1]; [right; exists x, v; split_and!; [set_solver|by right|done]|].
    destruct (Hkn1 i Hi1) as [(p & Hp0 & Hpi)|Hi0]; [right; exists x, p; split_and!; [set_solver|by left|done]|].
    destruct (Hkn i Hi0) as [?|(y & p & Hy & ?)]; [by left|right; exists y, p; split; [set_solver|done]].
  - intros i. destruct (Hs1 i) as (Ha & _), (Hs2 i) as (Hb & _). rewrite !zsum_app, Hb, Ha, Hw. cbn. lia.
  - intros i. destruct (Hs1 i) as (_ & Ha & _), (Hs2 i) as (_ & _ & Hb). eapply key_from_snoc; [apply Hp|]. by rewrite Hb.
  - intros i. destruct (Hs1 i) as (_ & _ & Ha), (Hs2 i) as (_ & Hb & _). eapply key_from_snoc; [apply Hn|]. by rewrite <- Ha.
Qed.

Context {HK : KeyOrder ID}.
Lemma l1_changes C0 : well_kept C0 -> let l := entries (modified (l1ValidatorsDiff s)) in
  match foldR (l1_change s) C0 l with Ok C => l1_done C0 l C | Err e => change_fault e end.
Proof.
  intros HC l. apply (foldR_inv change_fault _ (fun done C => l1_done C0 done C)); [by apply l1_done_start|].
  intros done [id v] rest C Hl Hd. apply l1_change_step; [done|]. apply elem_of_entries. fold l. rewrite Hl. set_solver.
Qed.

(** The weights agree with those of the two sets. *)
Lemma l1_weight_upd K v i : is_u64 (L_Weight v) -> l1_weight (upd K v) i = l1_weight K i - match K !! ValidationID v with Some p => counts i p | None => 0 end + counts i v.
Proof.
  intros Hu. unfold l1_weight. rewrite msum_upd.
  - unfold counts. destruct (K !! ValidationID v) as [p|]; cbn; repeat case_decide; done.
  - intros Hd%Z.eqb_eq. by case_decide.
Qed.
Lemma l1_weight_changed i : let l := entries (modified (l1ValidatorsDiff s)) in
  l1_weight L i = l1_weight L0 i - zsum (prior_counts i) l + zsum (fun x => counts i x.2) l.
Proof.
  intros l. assert (forall l' : list (ID * L1Validator), NoDup l'.*1 -> (forall id v, (id, v) ∈ l' -> ValidationID v = id /\ is_u64 (L_Weight v)) ->
    (forall id, foldl upd L0 l'.*2 !! id = match list_to_map (M := gmap ID L1Validator) l' !! id with Some v => if isDeleted v then None else Some v | None => L0 !! id end) /\
    l1_weight (foldl upd L0 l'.*2) i = l1_weight L0 i - zsum (prior_counts i) l' + zsum (fun x => counts i x.2) l') as Hall.
  { induction l' as [|[id v] l' IH] using rev_ind; intros Hd Hv; [split; [done|cbn; lia]|]. rewrite fmap_app in Hd. apply NoDup_app in Hd as (Hd & Hni & _).
    destruct IH as [IHl IHw]; [done|intros; apply Hv; set_solver|]. destruct (Hv id v) as [Hid Hu]; [set_solver|]. rewrite fmap_app, foldl_app. cbn [foldl fmap list_fmap snd].
    assert (id ∉ l'.*1) as Hid' by (intros Hin; apply (Hni _ Hin); by left). split.
    - intros id'. rewrite lookup_upd, Hid, list_to_map_app. cbn. case_bool_decide as Hb.
      + subst id'. rewrite lookup_union_r by by apply not_elem_of_list_to_map_1. by rewrite lookup_insert_eq.
      + rewrite IHl. rewrite lookup_union, lookup_insert_ne, lookup_empty by congruence. by destruct (list_to_map l' !! id').
    - rewrite l1_weight_upd, IHw, IHl, Hid, !zsum_app by done. unfold prior_counts at 3. cbn.
      rewrite not_elem_of_list_to_map_1 by done. lia. }
  destruct (Hall l) as [Hlook Hw].
  - apply entries_keys_nodup.
  - intros id v Hin. apply elem_of_entries in Hin. destruct (li_modified _ _ _ Hinv _ _ Hin) as (? & ? & _). done.
  - rewrite <- Hw. f_equal. apply map_eq. intros id. rewrite Hlook.
    assert (list_to_map (M := gmap ID L1Validator) l = modified (l1ValidatorsDiff s)) as ->.
    { rewrite <- (list_to_map_to_list (modified (l1ValidatorsDiff s))). apply list_to_map_proper; [apply entries_keys_nodup|apply entries_perm]. }
    destruct (modified _ !! id) as [v|] eqn:Hid; [by destruct (li_modified _ _ _ Hinv _ _ Hid) as (_ & _ & ->)|by apply (li_same _ _ _ Hinv)].
Qed.
End l1.
End HistoryChanges.
