(* ===== verification/HistoryRecord.v ===== *)
(** * The history is recorded
    [calculateValidatorDiffs] finds how the validator sets have changed since the last
    commit, and [writeValidatorDiffs] records it. *)
From S2P Require Import Prelude SafeMath Monads Sorting GoLibrary MapOrder Database Memdb BTree Iterators Stakers StakersFacts L1Validators Chain ChainDiff ApplyFacts ChainState ChainTheorems DiffKeys ValidatorHistory HistoryTheorems HistoryChanges.

(** ** What the history records of the state
    The validator sets that the stakers and the L1 validators of the state make up, and
    [calculateValidatorDiffs], which finds how they have changed since the last commit. *)
Module HistoryViews.
Import Sorting BTree Stakers StakersFacts StakerWeights L1Validators L1Facts Chain ChainDiff ApplyStakers ChainState ChainStateFacts DiffKeys ValidatorHistory HistoryFacts HistoryReplay HistoryWrite HistoryStakers HistoryChanges.

Section views.
Context {T : ChainTypes} `{BTreeLaws (Staker PublicKey)} `{BTreeLaws ExpiryEntry} `{BTreeLaws L1Validator} `{BLS PublicKey}.

(** The key of a node of the primary network, for all legacy validators of the node. *)
Definition key_bytes (pk : option PublicKey) : list Z := match pk with None => [] | Some pk => PublicKeyToUncompressedBytes pk end.
Definition l1_key_at (L : gmap ID L1Validator) (i : ID * ID) (k : list Z) : Prop :=
  (exists id p, L !! id = Some p /\ l1_index p = i /\ IsActive p = true /\ k = L_PublicKey p) \/
  k = [] /\ forall id p, L !! id = Some p -> l1_index p = i -> IsActive p = false.

(** The entry of an index in the validator sets of the stakers [w] and the L1
    validators [L]; those that are inactive are counted under the empty node ID. *)
Record shows_view (w : view (PK := PublicKey)) (L : gmap ID L1Validator) (i : ID * ID) (x : entry) : Prop := {
  sv_weight : exists z, node_weight w i.1 i.2 z /\ e_weight x = z + l1_weight L i;
  sv_key : match vals w i.1 i.2 with
    | Some _ => exists p, vals w PrimaryNetworkID i.2 = Some p /\ e_key x = key_bytes (PubKey p)
    | None => l1_key_at L i (e_key x)
    end;
}.
(** No node is a validator twice, and none has the empty ID. *)
Record consistent (w : view (PK := PublicKey)) (L : gmap ID L1Validator) : Prop := {
  cs_conflict id p : L !! id = Some p -> vals w (l1_index p).1 (l1_index p).2 = None;
  cs_empty id p : L !! id = Some p -> L_NodeID p <> EmptyNodeID;
}.

(** *** The keys of L1 validators *)
Lemma active_index p : IsActive p = true -> l1_index p = (L_SubnetID p, L_NodeID p) /\ l1_bytes p = L_PublicKey p.
Proof. unfold l1_index, l1_bytes, effectiveNodeID, effectivePublicKeyBytes. by intros ->. Qed.
Lemma inactive_index p : IsActive p = false -> l1_index p = (L_SubnetID p, EmptyNodeID) /\ l1_bytes p = [].
Proof. unfold l1_index, l1_bytes, effectiveNodeID, effectivePublicKeyBytes. by intros ->. Qed.

Lemma index_active w L i id q id' p : consistent w L -> L !! id = Some q -> IsActive q = true -> l1_index q = i -> L !! id' = Some p -> l1_index p = i -> IsActive p = true.
Proof.
  intros Hc Hq Ha Hi Hp Hpi. destruct (IsActive p) eqn:E; [done|]. destruct (active_index q Ha) as [Hq1 _], (inactive_index p E) as [Hp1 _].
  exfalso. apply (cs_empty _ _ Hc _ _ Hq). congruence.
Qed.
Lemma index_unique w L i id q id' p : wf_l1 L -> consistent w L -> L !! id = Some q -> IsActive q = true -> l1_index q = i -> L !! id' = Some p -> l1_index p = i -> id = id' /\ q = p.
Proof.
  intros Hw Hc Hq Ha Hi Hp Hpi. pose proof (index_active w L i id q id' p Hc Hq Ha Hi Hp Hpi) as Ha'.
  destruct (active_index q Ha) as [Hq1 _], (active_index p Ha') as [Hp1 _]. assert (on_node (L_SubnetID q) (L_NodeID q) p) as Hn by (unfold on_node; split; congruence).
  pose proof (wl_node _ Hw _ _ _ _ Hq Hp Hn) as ->. split; [done|]. congruence.
Qed.
Lemma key_at_index w L i id p k : wf_l1 L -> consistent w L -> L !! id = Some p -> l1_index p = i -> l1_key_at L i k -> k = l1_bytes p.
Proof.
  intros Hw Hc Hp Hpi [(id' & q & Hq & Hqi & Ha & ->)|[-> Hn]].
  - destruct (index_unique w L i id' q id p Hw Hc Hq Ha Hqi Hp Hpi) as [_ ->]. by destruct (active_index p Ha) as [_ ->].
  - by destruct (inactive_index p (Hn _ _ Hp Hpi)) as [_ ->].
Qed.

(** ** The changes between two views *)
Context {HO : KeyOrder ID}.
Variables (s : state) (L0 L : gmap ID L1Validator) (w0 w : view (PK := PublicKey)) (A : Staker PublicKey -> Prop) (used : ID -> Prop) (V0 V1 : ID * ID -> entry).
Hypothesis (Hpers : forall id, replies (getPersistedL1Validator id s) (found (L0 !! id))) (Hinv : l1_inv L0 L (l1ValidatorsDiff s)).
Hypothesis (Hb : base_since w0 A (currentStakers s) w used).
Hypothesis (Hc0 : consistent w0 L0) (Hc : consistent w L) (HV0 : forall i, shows_view w0 L0 i (V0 i)) (HV1 : forall i, shows_view w L i (V1 i)).

Abbreviation diff_at i := (bd (currentStakers s) i.1 i.2).
Abbreviation touched i := (is_Some (lookup2 (b_validatorDiffs (currentStakers s)) i.1 i.2)).

(** The key of the node's validator of the primary network. *)
Lemma inherited n : is_Some (vals w0 PrimaryNetworkID n) \/ is_Some (vals w PrimaryNetworkID n) -> exists pk,
  getInheritedPublicKey n s = Ok pk /\ (forall p, vals w PrimaryNetworkID n = Some p \/ vals w0 PrimaryNetworkID n = Some p -> pk = PubKey p).
Proof.
  intros Hp. unfold getInheritedPublicKey. pose proof (br_vals _ _ (bs_rep _ _ _ _ _ Hb) PrimaryNetworkID n) as Hv. pose proof (bs_status _ _ _ _ _ Hb PrimaryNetworkID n) as Hs.
  assert (lookup2 (b_validatorDiffs (currentStakers s)) PrimaryNetworkID n ≫= validator = validator (bd (currentStakers s) PrimaryNetworkID n)) as Hd by (unfold bd; destruct (lookup2 (b_validatorDiffs (currentStakers s)) PrimaryNetworkID n); reflexivity).
  rewrite Hv, Hd. destruct (validatorStatus (bd (currentStakers s) PrimaryNetworkID n)).
  - destruct Hs as [Heq _]. rewrite <- Heq in *. destruct (vals w PrimaryNetworkID n) as [p|]; [|by destruct Hp as [[]|[]]]. eexists. split; [done|]. by intros p' [[= <-]|[= <-]].
  - destruct Hs as (Heq & [p Hpw] & _). rewrite Heq, Hpw. eexists. split; [done|]. by intros p' [[= <-]|[=]].
  - destruct Hs as ([p Hpw] & Heq & Hv'). rewrite Heq, Hv', Hpw. eexists. split; [done|]. by intros p' [[=]|[= <-]].
Qed.

Record legacy_ok (i : ID * ID) (c : validatorDiff) : Prop := {
  lo_amount : is_u64 (Amount (weightDiff c));
  lo_weight : signed (weightDiff c) = (e_weight (V1 i) - l1_weight L i) - (e_weight (V0 i) - l1_weight L0 i);
  lo_prev : prevPublicKey c = match vals w0 i.1 i.2 with Some _ => e_key (V0 i) | None => [] end;
  lo_new : newPublicKey c = match vals w i.1 i.2 with Some _ => e_key (V1 i) | None => [] end;
}.

Lemma legacy_step C sb n d : lookup2 (b_validatorDiffs (currentStakers s)) sb n = Some d ->
  match legacy_change s C (sb, n, d) with Ok C' => exists c, C' = <[(sb, n) := c]> C /\ legacy_ok (sb, n) c | Err e => overflows e end.
Proof.
  intros Hd. assert (bd (currentStakers s) sb n = d) as Hbd by (unfold bd; by rewrite Hd).
  destruct (HV0 (sb, n)) as [(z0 & Hz0 & He0) Hk0], (HV1 (sb, n)) as [(z & Hz & He) Hk]. cbn [fst snd] in *.
  pose proof (gained w0 A _ w used sb n z0 z Hb Hz0 Hz) as Hg. rewrite Hbd in Hg. unfold legacy_change.
  destruct (WeightDiff d) as [wd|e]; cbn [of_state mbind result_bind]; [|unfold overflows; by rewrite Hg]. destruct Hg as [Hgu Hgs].
  assert (is_Some (vals w0 sb n) \/ is_Some (vals w sb n)) as Hval by (apply (bs_touched _ _ _ _ _ Hb); by rewrite Hd).
  destruct (inherited n) as (pk & Hpk & Hpkv).
  { destruct Hval as [[x Hx]|[x Hx]]; [left; rewrite Hx in Hk0; destruct Hk0 as (p & -> & _)|right; rewrite Hx in Hk; destruct Hk as (p & -> & _)]; by eexists. }
  rewrite Hpk. cbn [mbind result_bind]. eexists. split; [done|].
  pose proof (bs_status _ _ _ _ _ Hb sb n) as Hs. rewrite Hbd in Hs.
  set (c := match pk with None => _ | Some pk => _ end).
  assert (weightDiff c = wd /\ prevPublicKey c = (if bool_decide (validatorStatus d = added) then [] else key_bytes pk) /\
    newPublicKey c = (if bool_decide (validatorStatus d = deleted) then [] else key_bytes pk)) as (Hcw & Hcp & Hcn).
  { unfold c. destruct pk; cbn; [done|]. by repeat case_bool_decide. }
  split; rewrite ?Hcw, ?Hcp, ?Hcn; cbn [fst snd]; [done|lia|..].
  - destruct (validatorStatus d); [rewrite bool_decide_false by done|rewrite bool_decide_true by done|rewrite bool_decide_false by done].
    + destruct Hs as [Hs _]. rewrite Hs in *. destruct (vals w0 sb n); [|by destruct Hval as [[]|[]]]. destruct Hk0 as (p & Hp & ->). by rewrite (Hpkv p) by by right.
    + by destruct Hs as (-> & _).
    + destruct Hs as ([x Hx] & _). rewrite Hx in Hk0 |- *. destruct Hk0 as (p & Hp & ->). by rewrite (Hpkv p) by by right.
  - destruct (validatorStatus d); [rewrite bool_decide_false by done|rewrite bool_decide_false by done|rewrite bool_decide_true by done].
    + destruct Hs as [Hs _]. rewrite <- Hs in *. destruct (vals w sb n); [|by destruct Hval as [[]|[]]]. destruct Hk as (p & Hp & ->). by rewrite (Hpkv p) by by left.
    + destruct Hs as (_ & [x Hx] & _). rewrite Hx in Hk |- *. destruct Hk as (p & Hp & ->). by rewrite (Hpkv p) by by left.
    + by destruct Hs as (_ & -> & _).
Qed.

Lemma legacy_changes : match foldR (legacy_change s) ∅ (entries2 (b_validatorDiffs (currentStakers s))) with
  | Ok C0 => forall i, (touched i -> exists c, C0 !! i = Some c /\ legacy_ok i c) /\ (~ touched i -> C0 !! i = None)
  | Err e => overflows e
  end.
Proof.
  set (l := entries2 _).
  assert (forall i, i ∈ l.*1 <-> touched i) as Hin.
  { intros [sb n]. cbn. rewrite list_elem_of_fmap. split.
    - intros ([[sb' n'] d] & [= -> ->] & Hin). apply elem_of_entries2 in Hin. by eexists.
    - intros [d Hd]. exists (sb, n, d). split; [done|]. by apply elem_of_entries2. }
  assert (match foldR (legacy_change s) ∅ l with
    | Ok C => forall i, (i ∈ l.*1 -> exists c, C !! i = Some c /\ legacy_ok i c) /\ (i ∉ l.*1 -> C !! i = None)
    | Err e => overflows e
    end) as Hf; [|destruct (foldR (legacy_change s) ∅ l); [intros i; rewrite <- Hin; apply Hf|done]].
  apply (foldR_inv overflows (legacy_change s) (fun done C => forall i, (i ∈ done.*1 -> exists c, C !! i = Some c /\ legacy_ok i c) /\ (i ∉ done.*1 -> C !! i = None)) ∅ l).
  - intros i. split; [by intros ?%elem_of_nil|intros _; apply lookup_empty].
  - intros done [[sb n] d] rest C Heq HI.
    assert (lookup2 (b_validatorDiffs (currentStakers s)) sb n = Some d) as Hd by (apply elem_of_entries2; fold l; rewrite Heq; set_solver).
    pose proof (legacy_step C sb n d Hd) as Hs. destruct (legacy_change s C (sb, n, d)) as [C'|e]; [|done]. destruct Hs as (c & -> & Hc'). intros i. rewrite fmap_app. cbn.
    destruct (decide (i = (sb, n))) as [->|Hne].
    + rewrite lookup_insert_eq. split; [intros _; by exists c|set_solver].
    + rewrite lookup_insert_ne by done. split; intros Hi; apply HI; set_solver.
Qed.

(** What the first loop leaves at an index. *)
Record first_loop (i : ID * ID) (c : validatorDiff) : Prop := {
  fl_amount : is_u64 (Amount (weightDiff c));
  fl_weight : signed (weightDiff c) = (e_weight (V1 i) - l1_weight L i) - (e_weight (V0 i) - l1_weight L0 i);
  fl_prev : prevPublicKey c = match vals w0 i.1 i.2 with Some _ => if decide (touched i) then e_key (V0 i) else [] | None => [] end;
  fl_new : newPublicKey c = match vals w i.1 i.2 with Some _ => if decide (touched i) then e_key (V1 i) else [] | None => [] end;
}.
Lemma first_loop_at C0 i : (touched i -> exists c, C0 !! i = Some c /\ legacy_ok i c) /\ (~ touched i -> C0 !! i = None) -> first_loop i (at_index C0 i).
Proof.
  intros [Ht Hn]. destruct (decide (touched i)) as [Hti|Hti] eqn:E.
  - destruct (Ht Hti) as (c & Hci & [Ha Hw Hp Hnw]). unfold at_index. rewrite Hci. cbn. split; [done|done|by rewrite E|by rewrite E].
  - unfold at_index. rewrite (Hn Hti). cbn. destruct (HV0 i) as [(z0 & Hz0 & He0) _], (HV1 i) as [(z & Hz & He) _].
    assert (z = z0) by (apply (no_gain w0 A _ w used i.1 i.2 z0 z Hb Hz0 Hz); by apply eq_None_not_Some).
    split; cbn; rewrite ?E; [by apply is_u64_max|lia|by destruct (vals w0 _ _)|by destruct (vals w _ _)].
Qed.

(** The status of a node without changes. *)
Lemma untouched_vals i : ~ touched i -> vals w i.1 i.2 = vals w0 i.1 i.2.
Proof.
  intros Hn. pose proof (bs_status _ _ _ _ _ Hb i.1 i.2) as Hs. unfold bd in Hs. rewrite (proj1 (eq_None_not_Some _) Hn) in Hs || (apply eq_None_not_Some in Hn; rewrite Hn in Hs). by destruct Hs.
Qed.

Abbreviation changed_l1 := (entries (modified (l1ValidatorsDiff s))).
Lemma changed_now id v : (id, v) ∈ changed_l1 -> isDeleted v = false -> L !! id = Some v.
Proof. intros Hin Hd. apply elem_of_entries in Hin. destruct (li_modified _ _ _ Hinv _ _ Hin) as (_ & _ & ->). by rewrite Hd. Qed.
Lemma prev_from i k0 k : key_from (was_at L0) changed_l1 i k0 k -> k = e_key (V0 i) /\ (exists id p, is_Some (modified (l1ValidatorsDiff s) !! id) /\ L0 !! id = Some p /\ l1_index p = i) \/
  k = k0 /\ forall id p, is_Some (modified (l1ValidatorsDiff s) !! id) -> L0 !! id = Some p -> l1_index p <> i.
Proof.
  intros [([id v] & Hin & p & Hp & Hi & Hk)|[-> Hn]]; [left|right; split; [done|]].
  - destruct (HV0 i) as [_ Hkey]. rewrite <- Hi in Hkey. rewrite (cs_conflict _ _ Hc0 _ _ Hp) in Hkey. rewrite Hi in Hkey.
    split; [by rewrite (key_at_index _ _ _ _ _ _ (li_wf0 _ _ _ Hinv) Hc0 Hp Hi Hkey)|]. exists id, p. split_and!; [eexists; by apply elem_of_entries|done..].
  - intros id p [v Hv] Hp Hi. apply (Hn (id, v) (l1_bytes p)); [by apply elem_of_entries|]. by exists p.
Qed.
Lemma new_from i k0 k : key_from is_at changed_l1 i k0 k -> k = e_key (V1 i) /\ (exists id p, is_Some (modified (l1ValidatorsDiff s) !! id) /\ L !! id = Some p /\ l1_index p = i) \/
  k = k0 /\ forall id p, is_Some (modified (l1ValidatorsDiff s) !! id) -> L !! id = Some p -> l1_index p <> i.
Proof.
  intros [([id v] & Hin & Hd & Hi & Hk)|[-> Hn]]; [left|right; split; [done|]].
  - cbn in Hd, Hi, Hk. pose proof (changed_now id v Hin Hd) as Hp. destruct (HV1 i) as [_ Hkey]. rewrite <- Hi in Hkey. rewrite (cs_conflict _ _ Hc _ _ Hp) in Hkey. rewrite Hi in Hkey.
    split; [by rewrite (key_at_index _ _ _ _ _ _ (li_wf _ _ _ Hinv) Hc Hp Hi Hkey)|]. exists id, v. split_and!; [eexists; by apply elem_of_entries|done..].
  - intros id p [v Hv] Hp Hi. destruct (li_modified _ _ _ Hinv _ _ Hv) as (_ & _ & Hl). rewrite Hp in Hl. destruct (isDeleted v) eqn:Hd; [done|]. injection Hl as ->.
    apply (Hn (id, v) (l1_bytes v)); [by apply elem_of_entries|]. by split_and!.
Qed.

Lemma keys_agree C0 C i : first_loop i (at_index C0 i) -> l1_done L0 C0 changed_l1 C ->
  key_entry (prevPublicKey (at_index C i)) (newPublicKey (at_index C i)) = key_entry (e_key (V0 i)) (e_key (V1 i)).
Proof.
  intros [_ _ Hp0 Hn0] Hd. pose proof (prev_from i _ _ (ld_prev _ _ _ _ Hd i)) as Hp. pose proof (new_from i _ _ (ld_new _ _ _ _ Hd i)) as Hn.
  rewrite Hp0 in Hp. rewrite Hn0 in Hn. destruct (HV0 i) as [_ Hk0], (HV1 i) as [_ Hk1].
  set (prev := prevPublicKey (at_index C i)) in *. set (new := newPublicKey (at_index C i)) in *.
  enough (prev = e_key (V0 i) /\ new = e_key (V1 i) \/ prev = new /\ e_key (V0 i) = e_key (V1 i)) as [[-> ->]|[-> ->]]; [done|unfold key_entry; by rewrite (bool_decide_true (new = new)), (bool_decide_true (e_key (V1 i) = e_key (V1 i)))|].
  clearbody prev new.
  pose proof (bs_touched _ _ _ _ _ Hb i.1 i.2) as Ht.
  destruct (decide (map_Exists (fun id q => modified (l1ValidatorsDiff s) !! id = None /\ l1_index q = i /\ IsActive q = true) L0)) as [(id & q & Hq & Hm & Hqi & Ha)|Hno].
  { assert (L !! id = Some q) as HqL by by rewrite (li_same _ _ _ Hinv _ Hm).
    pose proof (cs_conflict _ _ Hc0 _ _ Hq) as Hw0. pose proof (cs_conflict _ _ Hc _ _ HqL) as Hw. rewrite Hqi in Hw0, Hw. rewrite Hw0 in *. rewrite Hw in *. right.
    assert (prev = []) as ->.
    { destruct Hp as [[_ (id' & p & [v Hv] & Hp' & Hpi)]|[-> _]]; [|done].
      destruct (index_unique _ _ _ _ _ _ _ (li_wf0 _ _ _ Hinv) Hc0 Hq Ha Hqi Hp' Hpi) as [<- _]. by rewrite Hm in Hv. }
    assert (new = []) as ->.
    { destruct Hn as [[_ (id' & p & [v Hv] & Hp' & Hpi)]|[-> _]]; [|done].
      destruct (index_unique _ _ _ _ _ _ _ (li_wf _ _ _ Hinv) Hc HqL Ha Hqi Hp' Hpi) as [<- _]. by rewrite Hm in Hv. }
    split; [done|]. rewrite (key_at_index _ _ _ _ _ _ (li_wf0 _ _ _ Hinv) Hc0 Hq Hqi Hk0). by rewrite (key_at_index _ _ _ _ _ _ (li_wf _ _ _ Hinv) Hc HqL Hqi Hk1). }
  assert (forall id p, L0 !! id = Some p -> l1_index p = i -> vals w0 i.1 i.2 = None) as Hcon0 by (intros id p Hp' <-; by apply (cs_conflict _ _ Hc0 id p)).
  assert (forall id p, L !! id = Some p -> l1_index p = i -> vals w i.1 i.2 = None) as Hcon by (intros id p Hp' <-; by apply (cs_conflict _ _ Hc id p)).
  destruct (decide (touched i)) as [Hti|Hti].
  - left. split.
    + destruct Hp as [[-> _]|[-> Hnone]]; [done|]. destruct (vals w0 i.1 i.2); [done|]. destruct Hk0 as [(id & q & Hq & Hqi & Ha & _)|[-> _]]; [|done].
      exfalso. destruct (modified (l1ValidatorsDiff s) !! id) eqn:Hm; [by apply (Hnone id q)|]. apply Hno. by exists id, q.
    + destruct Hn as [[-> _]|[-> Hnone]]; [done|]. destruct (vals w i.1 i.2); [done|]. destruct Hk1 as [(id & q & Hq & Hqi & Ha & _)|[-> _]]; [|done].
      exfalso. destruct (modified (l1ValidatorsDiff s) !! id) eqn:Hm; [by apply (Hnone id q)|]. apply Hno. exists id, q. by rewrite <- (li_same _ _ _ Hinv _ Hm).
  - pose proof (untouched_vals i Hti) as Hsame. rewrite Hsame in *. destruct (vals w0 i.1 i.2) as [x|] eqn:Hx.
    + right. assert (prev = []) as ->.
      { destruct Hp as [[_ (id & p & _ & Hp' & Hpi)]|[-> _]]; [|done]. by specialize (Hcon0 id p Hp' Hpi). }
      assert (new = []) as ->.
      { destruct Hn as [[_ (id & p & _ & Hp' & Hpi)]|[-> _]]; [|done]. by specialize (Hcon id p Hp' Hpi). }
      split; [done|]. destruct Hk0 as (p0 & Hp0' & ->), Hk1 as (p & Hp' & ->). destruct (inherited i.2) as (pk & _ & Hpk); [left; by eexists|].
      by rewrite <- (Hpk p0), <- (Hpk p) by tauto.
    + left. split.
      * destruct Hp as [[-> _]|[-> Hnone]]; [done|]. destruct Hk0 as [(id & q & Hq & Hqi & Ha & _)|[-> _]]; [|done].
        exfalso. destruct (modified (l1ValidatorsDiff s) !! id) eqn:Hm; [by apply (Hnone id q)|]. apply Hno. by exists id, q.
      * destruct Hn as [[-> _]|[-> Hnone]]; [done|]. destruct Hk1 as [(id & q & Hq & Hqi & Ha & _)|[-> _]]; [|done].
        exfalso. destruct (modified (l1ValidatorsDiff s) !! id) eqn:Hm; [by apply (Hnone id q)|]. apply Hno. exists id, q. by rewrite <- (li_same _ _ _ Hinv _ Hm).
Qed.

(** Every index changes from the entry of the one view to that of the other. *)
Lemma calculated : match calculateValidatorDiffs s with
  | Ok C => (forall i, is_Some (C !! i) -> touched i \/ exists id p, (L0 !! id = Some p \/ modified (l1ValidatorsDiff s) !! id = Some p) /\ l1_index p = i) /\
      forall i, is_u64 (Amount (weightDiff (at_index C i))) /\ signed (weightDiff (at_index C i)) = e_weight (V1 i) - e_weight (V0 i) /\
        key_entry (prevPublicKey (at_index C i)) (newPublicKey (at_index C i)) = key_entry (e_key (V0 i)) (e_key (V1 i))
  | Err e => change_fault e
  end.
Proof.
  unfold calculateValidatorDiffs. pose proof legacy_changes as Hl. destruct (foldR (legacy_change s) ∅ _) as [C0|e]; cbn [mbind result_bind]; [|by left].
  assert (forall i, first_loop i (at_index C0 i)) as Hf by (intros i; by apply first_loop_at).
  pose proof (l1_changes s L0 L Hpers Hinv C0 (fun i => fl_amount _ _ (Hf i))) as Hd. cbn zeta in Hd. destruct (foldR (l1_change s) C0 _) as [C|e]; [|done]. split.
  - intros i Hi. destruct (ld_known _ _ _ _ Hd i Hi) as [Hi0|([id v] & p & Hin & Hp & Hpi)].
    + left. destruct (decide (touched i)) as [|Hn]; [done|]. destruct (Hl i) as [_ Hnone]. rewrite (Hnone Hn) in Hi0. by destruct Hi0.
    + right. exists id, p. split; [|done]. apply elem_of_entries in Hin. destruct Hp as [Hp|Hp]; [by left|right]. cbn in Hp. by subst.
  - intros i. split_and!; [apply (ld_kept _ _ _ _ Hd)| |by apply (keys_agree C0)].
    rewrite (ld_weight _ _ _ _ Hd), (fl_weight _ _ (Hf i)). pose proof (l1_weight_changed s L0 L Hpers Hinv i) as Hw. cbn zeta in Hw. rewrite Hw. lia.
Qed.
End views.
End HistoryViews.

(** ** The history is recorded
    When a block has changed the stakers and the L1 validators of the state,
    [writeValidatorDiffs] records its height in the four databases. *)
Module HistoryRecord.
Import Sorting BTree Stakers StakersFacts StakerWeights L1Validators L1Facts Chain ChainDiff ApplyStakers ChainState ChainStateFacts
  DiffKeys ValidatorHistory HistoryFacts HistoryReplay HistoryTheorems HistoryWrite HistoryStakers HistoryChanges HistoryViews Database.

Section record.
Context {T : ChainTypes} `{BTreeLaws (Staker PublicKey)} `{BTreeLaws ExpiryEntry} `{BTreeLaws L1Validator} `{BLS PublicKey}.

(** The state has changed since the last commit as the sets [V] do from height [top]
    to the next: [w0] and [L0] were its stakers and L1 validators. *)
Record next_height (s : state) (w0 : view (PK := PublicKey)) (L0 : gmap ID L1Validator) (V : sets) (top : Z) : Prop := {
  nh_stakers : exists v0 used0 w used, base_rep v0 w0 /\ b_validatorDiffs v0 = ∅ /\ (forall x, member w0 x -> used0 (TxID x) /\ is_u64 (Weight x)) /\
    rtc base_step (v0, w0, used0) (currentStakers s, w, used) /\ (forall x, member w0 x \/ member w x -> is_index (SubnetID x, NodeID x)) /\
    exists L, l1_inv L0 L (l1ValidatorsDiff s) /\ consistent w L /\ forall i, shows_view w L i (V (top + 1) i);
  nh_persisted id : replies (getPersistedL1Validator id s) (found (L0 !! id));
  nh_index id p : L0 !! id = Some p \/ modified (l1ValidatorsDiff s) !! id = Some p -> is_index (L_SubnetID p, L_NodeID p);
  nh_consistent : consistent w0 L0;
  nh_view i : shows_view w0 L0 i (V top i);
  nh_wf : wf_sets V;
}.

Context {HO : KeyOrder ID}.

(** Errors: of the databases, and an overflow of 64 bits. *)
Definition record_fault (e : HistErr) : Prop := db_faults e \/ change_fault e.

Lemma empty_is_node : is_node EmptyNodeID.
Proof. split; [done|]. apply Forall_replicate. unfold BigEndian.is_byte. lia. Qed.
Lemma l1_is_index p : is_index (L_SubnetID p, L_NodeID p) -> is_index (l1_index p).
Proof. intros [Hs Hn]. unfold l1_index, effectiveNodeID. split; cbn in *; [done|]. destruct (IsActive p); [done|apply empty_is_node]. Qed.

Lemma changes_described s w0 L0 V top : next_height s w0 L0 V top ->
  match calculateValidatorDiffs s with
  | Ok C => (forall i, is_Some (C !! i) -> is_index i) /\ forall i, is_change V (top + 1) i (at_index C i)
  | Err e => change_fault e
  end.
Proof.
  intros [(v0 & used0 & w & used & Hv0 & Hd0 & Hu0 & Hsteps & Hids & L & Hinv & Hc & HV1) Hpers Hidx Hc0 HV0 Hwf].
  destruct (steps_since w0 _ v0 w0 used0 _ w used Hsteps (since_start _ _ _ Hv0 Hd0 Hu0)) as [A Hb].
  pose proof (calculated s L0 L w0 w A used (V top) (V (top + 1)) Hpers Hinv Hb Hc0 Hc HV0 HV1) as Hcalc.
  destruct (calculateValidatorDiffs s) as [C|e]; [|done]. destruct Hcalc as [Hk Hch]. split.
  - intros i Hi. destruct (Hk i Hi) as [Ht|(id & p & Hp & <-)]; [|by apply l1_is_index, (Hidx id)].
    destruct i as [sb n]. destruct (bs_touched _ _ _ _ _ Hb _ _ Ht) as [[x Hx]|[x Hx]]; cbn in Hx.
    + destruct (wf_node _ (bs_wf0 _ _ _ _ _ Hb) _ _ _ Hx) as [<- <-]. apply Hids. left. by left.
    + destruct (wf_node _ (br_wf _ _ (bs_rep _ _ _ _ _ Hb)) _ _ _ Hx) as [<- <-]. apply Hids. right. by left.
  - intros i. unfold is_change, keys_of. replace (top + 1 - 1) with top by lia. apply Hch.
Qed.

Context {HP : KeyOrder (ID * ID)} `{DatabaseLaws D}.

(** C21: When a block has changed the stakers and the L1 validators, [writeValidatorDiffs]
    stores the changes of weight and public key of exactly the nodes that have changed,
    under their keys in the four databases, which then record one height more; it fails
    only with a fault of a database or when weights overflow 64 bits. *)
Theorem writeValidatorDiffs_records (s : state) (h : history D) c lo top w0 L0 V : is_u64 (top + 1) ->
  opened h c -> records c lo top V -> next_height s w0 L0 V top ->
  wp record_fault (writeValidatorDiffs s (top + 1)) (fun _ h' => exists c', opened h' c' /\ records c' lo (top + 1) V) h.
Proof.
  intros Hu Ho Hr Hn. unfold writeValidatorDiffs. apply wp_bind, wp_lift. pose proof (changes_described s w0 L0 V top Hn) as Hd.
  destruct (calculateValidatorDiffs s) as [C|e]; [|by right]. destruct Hd as [Hk Hch]. eapply (wp_weaken db_faults); [by left|].
  apply (write_changes V lo top c h (entries C)); [apply Hn|done..|apply entries_keys_nodup| |].
  - intros i d Hin. apply elem_of_entries in Hin. split; [apply Hk; by eexists|]. specialize (Hch i). unfold at_index in Hch. by rewrite Hin in Hch.
  - intros i Hi. assert (at_index C i = mkValidatorDiff (mkWeightDiff false 0) [] []) as Hz.
    { unfold at_index. destruct (C !! i) as [d|] eqn:E; [|done]. destruct Hi. apply list_elem_of_fmap. exists (i, d). split; [done|]. by apply elem_of_entries. }
    specialize (Hch i). rewrite Hz in Hch. rewrite (weight_put V (top + 1) i _ (nh_wf _ _ _ _ _ Hn) Hch). split; [done|]. by destruct Hch as (_ & _ & <-).
Qed.
End record.

(** ** The first validator
    A validator of weight 5 with the key 9 joins the primary network in the block of
    height 1; the databases are in memory, and empty. *)
Section example.
#[local] Instance one_byte_keys : BLS Z := {|
  PublicKeyToUncompressedBytes pk := [pk];
  PublicKeyFromValidUncompressedBytes b := match b with [pk] => Some pk | _ => None end;
|}.
#[local] Existing Instances ChainTheorems.demo_types list_btree list_btree_laws elements_order Memdb.memdb_database Memdb.memdb_laws.
Abbreviation demo_state := (state (T := ChainTheorems.demo_types)).
Definition no_view : view (PK := Z) := ChainTheorems.empty_view (T := ChainTheorems.demo_types).

Definition joining : Staker Z := mkStaker [1] EmptyNodeID (Some 9) PrimaryNetworkID 5 0 1000 5 1000 3.
Definition joined_state : demo_state := (s_PutValidator Current joining ChainTheorems.empty_state).1.
Definition joined_sets : sets := fun h i => if bool_decide (1 <= h /\ i = (PrimaryNetworkID, EmptyNodeID)) then mkEntry 5 [9] else mkEntry 0 [].
Definition no_db : Memdb.Memdb := Memdb.mkMemdb (Some ∅).
Definition no_history : history Memdb.Memdb := mkHistory Memdb.Memdb no_db no_db no_db no_db.
Definition no_contents : contents := mkContents ∅ ∅ ∅ ∅.

Lemma joining_index : is_index (PrimaryNetworkID, EmptyNodeID).
Proof. apply (bool_decide_unpack _). vm_compute. exact I. Qed.
Lemma joined_sets_wf : wf_sets joined_sets.
Proof.
  intros h i. unfold joined_sets. case_bool_decide as Hd; cbn; [|split; [split; [by apply is_u64_max|done]|done]].
  split; [split; [by apply is_u64_max|done]|]. destruct Hd as [_ ->]. intros Hn. destruct (Hn joining_index).
Qed.
Lemma no_index key F : index_db key 0 0 F ∅.
Proof. split; [intros k [v Hv]; by rewrite lookup_empty in Hv|intros; lia]. Qed.
Lemma l1_key_none i : l1_key_at ∅ i [].
Proof. right. by split. Qed.
Lemma joined_next : next_height joined_state no_view ∅ joined_sets 0.
Proof.
  split.
  - exists newBaseStakers, (fun _ => False), (put_validator joining no_view), (fun t => False \/ t = TxID joining).
    split; [apply ChainTheorems.empty_base|]. split; [done|]. split; [by intros x [?|?]|]. split; [|split].
    + apply rtc_once. apply (step_PutValidator _ _ _ joining); [done|done|by intros []|by apply is_u64_max].
    + intros x [[?|?]|Hx]; [done..|]. apply put_validator_member in Hx as [[?|?]| ->]; [done|done|apply joining_index|apply ChainTheorems.empty_base|done].
    + exists ∅. split; [apply l1_inv_new, ChainTheorems.empty_l1|]. split; [by split|]. intros [sb n]. split.
      * cbn [fst snd]. exists (if bool_decide (sb = PrimaryNetworkID /\ n = EmptyNodeID) then 5 else 0). split.
        -- exists []. split; [constructor|]. split; [by intros x; split; [intros ?%elem_of_nil|intros [? _]]|]. cbn. by case_bool_decide.
        -- unfold joined_sets. rewrite Z.add_0_r. repeat case_bool_decide; naive_solver lia.
      * cbn. unfold joined_sets. case_bool_decide as Hd.
        -- destruct Hd as [-> ->]. exists joining. by rewrite !bool_decide_true.
        -- rewrite bool_decide_false by naive_solver. apply l1_key_none.
  - intros id. by left.
  - intros id p Hp. change ((∅ : gmap ID L1Validator) !! id = Some p \/ (∅ : gmap ID L1Validator) !! id = Some p) in Hp. rewrite lookup_empty in Hp. by destruct Hp.
  - by split.
  - intros i. unfold joined_sets. rewrite bool_decide_false by lia. split; cbn; [|apply l1_key_none]. exists 0. split; [|done]. exists []. split; [constructor|].
    split; [by intros x; split; [intros ?%elem_of_nil|intros [? _]]|done].
  - apply joined_sets_wf.
Qed.

Lemma writeValidatorDiffs_records_witness :
  match writeValidatorDiffs joined_state 1 no_history with
  | (h', Ok _) => exists c', opened h' c' /\ records c' 0 1 joined_sets
  | (_, Err e) => False
  end.
Proof.
  pose proof (writeValidatorDiffs_records joined_state no_history no_contents 0 0 _ _ joined_sets ltac:(by apply is_u64_max)
    ltac:(by split) ltac:(split; apply no_index) joined_next) as Hw. unfold wp in Hw. change (0 + 1) with 1 in Hw.
  assert (exists h', writeValidatorDiffs joined_state 1 no_history = (h', Ok tt)) as [h' He] by (eexists; vm_compute; reflexivity).
  rewrite He in *. exact Hw.
Defined.
End example.
End HistoryRecord.
