(* ===== verification/Deque.v ===== *)
(** * Deques, bounded queues and windows
    Models [utils/buffer/unbounded_deque.go], a ring buffer that grows,
    [utils/buffer/bounded_nonblocking_queue.go] and [utils/window/window.go], which
    use it through the interface [Deque].  A slice that is indexed out of range
    panics; sizes stay far below the width of an [int]. *)
From S2P Require Import Prelude Monads.

Module Deque.

Inductive DequeErr := IndexOutOfRange | OutOfFuel.

(** The interface, and what its comments promise of the elements from left to right. *)
Class Deque (T D : Type) := {
  PushLeft : T -> M D DequeErr bool;
  PushRight : T -> M D DequeErr bool;
  PopLeft : M D DequeErr (option T);
  PopRight : M D DequeErr (option T);
  PeekLeft : M D DequeErr (option T);
  PeekRight : M D DequeErr (option T);
  Index : Z -> M D DequeErr (option T);
  Len : D -> Z;
  List : M D DequeErr (list T);
}.
Class DequeLaws (T D : Type) `{Deque T D} (rep : D -> list T -> Prop) : Prop := {
  law_PushLeft d l x : rep d l -> wp never (PushLeft x) (fun b d' => b = true /\ rep d' (x :: l)) d;
  law_PushRight d l x : rep d l -> wp never (PushRight x) (fun b d' => b = true /\ rep d' (l ++ [x])) d;
  law_PopLeft d l : rep d l -> wp never PopLeft (fun o d' => o = head l /\ rep d' (tail l)) d;
  law_PopRight d l : rep d l -> wp never PopRight (fun o d' => o = last l /\ rep d' (take (pred (length l)) l)) d;
  law_PeekLeft d l : rep d l -> PeekLeft d = (d, Ok (head l));
  law_PeekRight d l : rep d l -> PeekRight d = (d, Ok (last l));
  law_Index d l i : rep d l -> Index i d = (d, Ok (if (0 <=? i) then l !! Z.to_nat i else None));
  law_Len d l : rep d l -> Len d = Z.of_nat (length l);
  law_List d l : rep d l -> List d = (d, Ok l);
}.

(** ** Slices *)
Section slices.
Context {T : Type}.
(** [copy(dst, src)] and [l[lo:hi]]. *)
Definition copy (dst src : list T) : list T := take (length dst) src ++ drop (length src) dst.
Definition copy_at (off : nat) (dst src : list T) : list T := take off dst ++ copy (drop off dst) src.
Definition slice (lo hi : Z) (l : list T) : option (list T) :=
  if (0 <=? lo) && (lo <=? hi) && (hi <=? Z.of_nat (length l)) then Some (drop (Z.to_nat lo) (take (Z.to_nat hi) l)) else None.
End slices.

(** ** The ring buffer *)
Section ring.
Context {T : Type} (zero : T).

Record unboundedSliceDeque := mkDeque { size : Z; left : Z; right : Z; data : list T }.
Abbreviation R := (M unboundedSliceDeque DequeErr).
Abbreviation len b := (Z.of_nat (length (data b))).

Definition defaultInitSize : Z := 32.
Definition NewUnboundedDeque (initSize : Z) : unboundedSliceDeque :=
  let initSize := if initSize <? 2 then defaultInitSize else initSize in
  mkDeque 0 0 1 (replicate (Z.to_nat initSize) zero).

Definition read (i : Z) : R T :=
  b ← get;
  must IndexOutOfRange (if 0 <=? i then data b !! Z.to_nat i else None).
Definition write (i : Z) (x : T) : R unit :=
  b ← get;
  if (0 <=? i) && (i <? len b) then modify (fun b => mkDeque (size b) (left b) (right b) (<[Z.to_nat i := x]> (data b)))
  else fail IndexOutOfRange.

Definition leftmostEltIdx (b : unboundedSliceDeque) : Z := if left b =? len b - 1 then 0 else left b + 1.
Definition rightmostEltIdx (b : unboundedSliceDeque) : Z := if right b =? 0 then len b - 1 else right b - 1.

Definition resize : R unit :=
  b ← get;
  if negb (size b =? len b) then mret tt
  else
    let newData := replicate (Z.to_nat (size b * 2)) zero in
    let leftmostIdx := leftmostEltIdx b in
    l ← must IndexOutOfRange (slice leftmostIdx (len b) (data b));
    let newData := copy newData l in
    let numCopied := len b - leftmostIdx in
    r ← must IndexOutOfRange (slice 0 (right b) (data b));
    let newData := copy_at (Z.to_nat numCopied) newData r in
    modify (fun b => mkDeque (size b) (Z.of_nat (length newData) - 1) (size b) newData).

Definition ring_PushRight (elt : T) : R bool :=
  b ← get;
  write (right b) elt;;
  modify (fun b => mkDeque (size b + 1) (left b) ((right b + 1) mod len b) (data b));;
  resize;;
  mret true.
Definition ring_PushLeft (elt : T) : R bool :=
  b ← get;
  write (left b) elt;;
  modify (fun b => mkDeque (size b + 1) (if left b - 1 <? 0 then len b - 1 else left b - 1) (right b) (data b));;
  resize;;
  mret true.
Definition ring_PopLeft : R (option T) :=
  b ← get;
  if size b =? 0 then mret None
  else
    let idx := leftmostEltIdx b in
    elt ← read idx;
    write idx zero;;
    modify (fun b => mkDeque (size b - 1) ((left b + 1) mod len b) (right b) (data b));;
    mret (Some elt).
Definition ring_PeekLeft : R (option T) :=
  b ← get;
  if size b =? 0 then mret None else elt ← read (leftmostEltIdx b); mret (Some elt).
Definition ring_PopRight : R (option T) :=
  b ← get;
  if size b =? 0 then mret None
  else
    let idx := rightmostEltIdx b in
    elt ← read idx;
    write idx zero;;
    modify (fun b => mkDeque (size b - 1) (left b) (if right b - 1 <? 0 then len b - 1 else right b - 1) (data b));;
    mret (Some elt).
Definition ring_PeekRight : R (option T) :=
  b ← get;
  if size b =? 0 then mret None else elt ← read (rightmostEltIdx b); mret (Some elt).
Definition ring_Index (idx : Z) : R (option T) :=
  b ← get;
  if (idx <? 0) || (size b <=? idx) then mret None
  else elt ← read ((leftmostEltIdx b + idx) mod len b); mret (Some elt).
Definition ring_List : R (list T) :=
  b ← get;
  if size b =? 0 then mret []
  else
    let list := replicate (Z.to_nat (size b)) zero in
    let leftmostIdx := leftmostEltIdx b in
    l ← must IndexOutOfRange (slice leftmostIdx (len b) (data b));
    let numCopied := Z.min (size b) (Z.of_nat (length l)) in
    let list := copy list l in
    if numCopied <? size b then
      r ← must IndexOutOfRange (slice 0 (right b) (data b));
      mret (copy_at (Z.to_nat numCopied) list r)
    else mret list.

#[export] Instance ring_deque : Deque T unboundedSliceDeque := {|
  PushLeft := ring_PushLeft;
  PushRight := ring_PushRight;
  PopLeft := ring_PopLeft;
  PopRight := ring_PopRight;
  PeekLeft := ring_PeekLeft;
  PeekRight := ring_PeekRight;
  Index := ring_Index;
  Len b := size b;
  List := ring_List;
|}.

(** *** The elements are in the cells after [left], and [right] is behind them *)
Definition wrap_at (n a : Z) : Z := if a <? n then a else if a <? 2 * n then a - n else a - 2 * n.
Lemma wrap_mod n a : 0 <= a < 3 * n -> a mod n = wrap_at n a.
Proof.
  intros Ha. unfold wrap_at. destruct (Z.ltb_spec a n); [by apply Z.mod_small; lia|]. destruct (Z.ltb_spec a (2 * n)).
  - symmetry. apply (Z.mod_unique _ _ 1); lia.
  - symmetry. apply (Z.mod_unique _ _ 2); lia.
Qed.

Record ring_filled (b : unboundedSliceDeque) (l : list T) : Prop := {
  rf_len : 2 <= len b;
  rf_size : size b = Z.of_nat (length l);
  rf_fits : size b <= len b;
  rf_left : 0 <= left b < len b;
  rf_right : right b = wrap_at (len b) (left b + 1 + size b);
  rf_data k x : l !! k = Some x -> data b !! Z.to_nat (wrap_at (len b) (left b + 1 + Z.of_nat k)) = Some x;
}.
Definition ring_rep (b : unboundedSliceDeque) (l : list T) : Prop := ring_filled b l /\ size b < len b.

Ltac wraps := unfold wrap_at in *; repeat match goal with
  | |- context [?a <? ?b] => destruct (Z.ltb_spec a b)
  | H : context [?a <? ?b] |- _ => destruct (Z.ltb_spec a b)
  end; try lia.

Lemma leftmost_wrap b l : ring_filled b l -> leftmostEltIdx b = wrap_at (len b) (left b + 1).
Proof. intros [? ? ? ? _ _]. unfold leftmostEltIdx. destruct (Z.eqb_spec (left b) (len b - 1)); wraps. Qed.
Lemma rightmost_wrap b l : ring_filled b l -> size b <> 0 -> rightmostEltIdx b = wrap_at (len b) (left b + size b).
Proof. intros [? ? ? ? Hr _] Hs. unfold rightmostEltIdx. rewrite Hr. destruct (Z.eqb_spec (wrap_at (len b) (left b + 1 + size b)) 0); wraps. Qed.

Lemma rotated b l : ring_filled b l -> let i := Z.to_nat (leftmostEltIdx b) in take (length l) (drop i (data b) ++ take i (data b)) = l.
Proof.
  intros Hf i. pose proof (leftmost_wrap b l Hf) as Hl. destruct Hf as [H2 Hs Hfit Hleft Hr Hd].
  assert (Z.of_nat i = wrap_at (len b) (left b + 1)) as Hi by (unfold i; rewrite Hl, Z2Nat.id; [done|wraps]). clearbody i. clear Hl.
  assert (0 <= wrap_at (len b) (left b + 1) < len b) as Hrange by wraps.
  apply list_eq. intros k. destruct (decide (k < length l)%nat) as [Hk|Hk].
  - destruct (lookup_lt_is_Some_2 l k Hk) as [x Hx]. rewrite lookup_take_lt by done. rewrite Hx. specialize (Hd k x Hx).
    destruct (decide (k < length (data b) - i)%nat) as [Hki|Hki].
    + rewrite lookup_app_l by (rewrite length_drop; lia). rewrite lookup_drop. rewrite <- Hd. f_equal. wraps.
    + rewrite lookup_app_r by (rewrite length_drop; lia). rewrite length_drop, lookup_take_lt by lia. rewrite <- Hd. f_equal. wraps.
  - rewrite lookup_take_ge by lia. symmetry. apply lookup_ge_None. lia.
Qed.

Lemma new_ring initSize : ring_rep (NewUnboundedDeque initSize) [].
Proof.
  unfold NewUnboundedDeque, defaultInitSize. set (n := if initSize <? 2 then 32 else initSize). assert (2 <= n) by (unfold n; destruct (Z.ltb_spec initSize 2); lia).
  assert (Z.of_nat (length (replicate (Z.to_nat n) zero)) = n) as Hn by (rewrite length_replicate; lia).
  split; [split|]; cbn [size left right data length]; rewrite ?Hn; try lia; [wraps|by intros k x ?].
Qed.

Lemma wp_read {ok} i x b Q : 0 <= i -> data b !! Z.to_nat i = Some x -> Q x b -> wp ok (read i) Q b.
Proof. intros Hi Hx HQ. unfold read. apply wp_bind, wp_get, wp_must. exists x. destruct (Z.leb_spec 0 i); [done|lia]. Qed.
Lemma wp_write {ok} i x b Q : 0 <= i < len b -> Q tt (mkDeque (size b) (left b) (right b) (<[Z.to_nat i := x]> (data b))) -> wp ok (write i x) Q b.
Proof. intros Hi HQ. unfold write. apply wp_bind, wp_get. destruct (Z.leb_spec 0 i), (Z.ltb_spec i (len b)); try lia. exact HQ. Qed.

Lemma copy_over (n : nat) (l r : list T) : (length l + length r <= n)%nat ->
  copy_at (length l) (copy (replicate n zero) l) r = l ++ r ++ replicate (n - length l - length r) zero.
Proof.
  intros Hn. unfold copy_at, copy. rewrite length_replicate, (take_ge l) by lia. rewrite drop_replicate, take_app_length, drop_app_length.
  rewrite length_replicate, take_ge, drop_replicate by lia. done.
Qed.

Lemma resize_spec b l : ring_filled b l -> wp never resize (fun _ b' => ring_rep b' l) b.
Proof.
  intros Hf. unfold resize. apply wp_bind, wp_get. pose proof (rotated b l Hf) as Hrot. pose proof (leftmost_wrap b l Hf) as Hlm. cbn zeta in Hrot.
  pose proof Hf as [H2 Hs Hfit Hleft Hr Hd]. destruct (Z.eqb_spec (size b) (len b)) as [He|He]; cbn [negb]; [|apply wp_ret; split; [done|lia]].
  assert (0 <= leftmostEltIdx b < len b) as Hrange by (rewrite Hlm; wraps).
  assert (right b = leftmostEltIdx b) as Hrl by (rewrite Hr, Hlm; wraps).
  apply wp_bind, wp_must. exists (drop (Z.to_nat (leftmostEltIdx b)) (data b)). split.
  { unfold slice. rewrite (proj2 (Z.leb_le _ _)), (proj2 (Z.leb_le _ _)), (proj2 (Z.leb_le _ _)) by lia. cbn. by rewrite Nat2Z.id, firstn_all. }
  apply wp_bind, wp_must. exists (take (Z.to_nat (leftmostEltIdx b)) (data b)). split.
  { unfold slice. rewrite Hrl, (proj2 (Z.leb_le _ _)), (proj2 (Z.leb_le _ _)), (proj2 (Z.leb_le _ _)) by lia. done. }
  apply wp_modify. set (i := Z.to_nat (leftmostEltIdx b)) in *. assert (i < length (data b))%nat as Hi by lia.
  replace (Z.to_nat (len b - leftmostEltIdx b)) with (length (drop i (data b))) by (rewrite length_drop; lia).
  rewrite copy_over by (rewrite length_drop, length_take; lia). rewrite take_ge in Hrot by (rewrite length_app, length_drop, length_take; lia).
  rewrite app_assoc, Hrot. set (z := replicate _ zero).
  assert (Z.of_nat (length (l ++ z)) = 2 * len b) as Hlen by (unfold z; rewrite length_app, length_replicate, length_drop, length_take; lia).
  split; [split|]; cbn [size left right data]; rewrite ?Hlen; try lia; [wraps|].
  intros k x Hx. pose proof (lookup_lt_Some _ _ _ Hx). replace (Z.to_nat _) with k by wraps. by apply lookup_app_l_Some.
Qed.

Lemma push_right_filled b l x : ring_rep b l ->
  ring_filled (mkDeque (size b + 1) (left b) ((right b + 1) mod len b) (<[Z.to_nat (right b) := x]> (data b))) (l ++ [x]).
Proof.
  intros [[H2 Hs Hfit Hleft Hr Hd] Hlt]. assert (0 <= right b < len b) by (rewrite Hr; wraps).
  split; cbn [size left right data]; rewrite ?length_insert; [done|rewrite length_app; cbn; lia|lia|done|rewrite wrap_mod by lia; rewrite Hr; wraps|].
  intros k y Hk. apply lookup_app_Some in Hk as [Hk|[Hk Hy]].
  - rewrite list_lookup_insert_ne; [by apply Hd|]. pose proof (lookup_lt_Some _ _ _ Hk). rewrite Hr. wraps.
  - apply list_lookup_singleton_Some in Hy as [Hk0 <-]. assert (k = length l) as -> by lia. rewrite <- Hs, <- Hr. apply list_lookup_insert_eq. lia.
Qed.
Lemma push_left_filled b l x : ring_rep b l ->
  ring_filled (mkDeque (size b + 1) (if left b - 1 <? 0 then len b - 1 else left b - 1) (right b) (<[Z.to_nat (left b) := x]> (data b))) (x :: l).
Proof.
  intros [[H2 Hs Hfit Hleft Hr Hd] Hlt].
  split; cbn [size left right data]; rewrite ?length_insert; [done|cbn; lia|lia|wraps|rewrite Hr; wraps|].
  intros [|k] y Hk.
  - injection Hk as <-. replace (Z.to_nat _) with (Z.to_nat (left b)); [apply list_lookup_insert_eq; lia|wraps].
  - cbn in Hk. pose proof (lookup_lt_Some _ _ _ Hk). rewrite list_lookup_insert_ne by wraps. rewrite <- (Hd k y Hk). f_equal. wraps.
Qed.

Lemma leftmost_read b x l : ring_filled b (x :: l) -> 0 <= leftmostEltIdx b < len b /\ data b !! Z.to_nat (leftmostEltIdx b) = Some x.
Proof.
  intros Hf. rewrite (leftmost_wrap b _ Hf). destruct Hf as [H2 Hs Hfit Hleft Hr Hd]. split; [wraps|]. rewrite <- (Hd 0%nat x) by done. do 3 f_equal. lia.
Qed.
Lemma rightmost_read b x l : ring_filled b (l ++ [x]) -> 0 <= rightmostEltIdx b < len b /\ data b !! Z.to_nat (rightmostEltIdx b) = Some x.
Proof.
  intros Hf. pose proof Hf as [H2 Hs Hfit Hleft Hr Hd]. rewrite length_app in Hs. cbn in Hs. rewrite (rightmost_wrap b _ Hf) by lia. split; [wraps|].
  rewrite <- (Hd (length l) x); [do 3 f_equal; lia|]. by apply list_lookup_middle.
Qed.

(** *** The operations *)
Lemma ring_PushRight_spec b l x : ring_rep b l -> wp never (ring_PushRight x) (fun r b' => r = true /\ ring_rep b' (l ++ [x])) b.
Proof.
  intros Hr. pose proof (push_right_filled b l x Hr) as Hf. destruct Hr as [[H2 Hs Hfit Hleft Hr Hd] Hlt].
  unfold ring_PushRight. apply wp_bind, wp_get, wp_bind, wp_write; [rewrite Hr; wraps|]. apply wp_bind, wp_modify. cbn [size left right data]. rewrite length_insert.
  apply wp_bind. eapply wp_mono; [by apply resize_spec|]. done.
Qed.
Lemma ring_PushLeft_spec b l x : ring_rep b l -> wp never (ring_PushLeft x) (fun r b' => r = true /\ ring_rep b' (x :: l)) b.
Proof.
  intros Hr. pose proof (push_left_filled b l x Hr) as Hf. destruct Hr as [[H2 Hs Hfit Hleft Hr Hd] Hlt].
  unfold ring_PushLeft. apply wp_bind, wp_get, wp_bind, wp_write; [lia|]. apply wp_bind, wp_modify. cbn [size left right data]. rewrite length_insert.
  apply wp_bind. eapply wp_mono; [by apply resize_spec|]. done.
Qed.
Lemma ring_PopLeft_spec b l : ring_rep b l -> wp never ring_PopLeft (fun o b' => o = head l /\ ring_rep b' (tail l)) b.
Proof.
  intros [Hf Hlt]. unfold ring_PopLeft. apply wp_bind, wp_get. destruct l as [|x l]; [by rewrite (rf_size _ _ Hf)|].
  rewrite (rf_size _ _ Hf). cbn [length Z.eqb]. destruct (Z.eqb_spec (Z.of_nat (S (length l))) 0); [lia|]. destruct (leftmost_read b x l Hf) as [Hi Hx].
  apply wp_bind. apply (wp_read _ x); [lia|done|]. apply wp_bind, wp_write; [done|]. apply wp_bind, wp_modify, wp_ret. split; [done|].
  pose proof (leftmost_wrap b _ Hf) as Hlm. destruct Hf as [H2 Hs Hfit Hleft Hr Hd]. cbn [length] in Hs.
  split; [split|]; cbn [size left right data tail]; rewrite ?length_insert; try lia.
  - rewrite wrap_mod by lia. wraps.
  - rewrite wrap_mod by lia. rewrite Hr. wraps.
  - intros k y Hk. pose proof (lookup_lt_Some _ _ _ Hk). rewrite wrap_mod by lia.
    rewrite list_lookup_insert_ne by (rewrite Hlm; wraps). rewrite <- (Hd (S k) y Hk). f_equal. wraps.
Qed.
Lemma ring_PopRight_spec b l : ring_rep b l -> wp never ring_PopRight (fun o b' => o = last l /\ ring_rep b' (take (pred (length l)) l)) b.
Proof.
  intros [Hf Hlt]. unfold ring_PopRight. apply wp_bind, wp_get. destruct l as [|x l _] using rev_ind; [by rewrite (rf_size _ _ Hf)|].
  rewrite last_snoc, length_app. cbn [length]. replace (pred (length l + 1)) with (length l) by lia. rewrite take_app_length.
  pose proof (rf_size _ _ Hf) as Hs. rewrite length_app in Hs. cbn in Hs. destruct (Z.eqb_spec (size b) 0); [lia|]. destruct (rightmost_read b x l Hf) as [Hi Hx].
  apply wp_bind. apply (wp_read _ x); [lia|done|]. apply wp_bind, wp_write; [done|]. apply wp_bind, wp_modify, wp_ret. split; [done|].
  pose proof (rightmost_wrap b _ Hf ltac:(lia)) as Hrm. destruct Hf as [H2 _ Hfit Hleft Hr Hd].
  split; [split|]; cbn [size left right data]; rewrite ?length_insert; try lia.
  - rewrite Hr. wraps.
  - intros k y Hk. pose proof (lookup_lt_Some _ _ _ Hk).
    rewrite list_lookup_insert_ne by (rewrite Hrm; wraps). apply Hd. by apply lookup_app_l_Some.
Qed.

Lemma read_eq i x b : 0 <= i -> data b !! Z.to_nat i = Some x -> (elt ← read i; mret (Some elt)) b = (b, Ok (Some x)).
Proof. intros Hi Hx. unfold read, mbind, M_bind, get, must. destruct (Z.leb_spec 0 i); [|lia]. by rewrite Hx. Qed.
Lemma ring_PeekLeft_spec b l : ring_rep b l -> ring_PeekLeft b = (b, Ok (head l)).
Proof.
  intros [Hf Hlt]. unfold ring_PeekLeft. unfold mbind at 1, M_bind at 1, get. rewrite (rf_size _ _ Hf). destruct l as [|x l]; [done|].
  destruct (leftmost_read b x l Hf) as [Hi Hx]. apply read_eq; [lia|done].
Qed.
Lemma ring_PeekRight_spec b l : ring_rep b l -> ring_PeekRight b = (b, Ok (last l)).
Proof.
  intros [Hf Hlt]. unfold ring_PeekRight. unfold mbind at 1, M_bind at 1, get. rewrite (rf_size _ _ Hf). destruct l as [|x l _] using rev_ind; [done|].
  rewrite last_snoc, length_app. destruct (Z.eqb_spec (Z.of_nat (length l + length [x])) 0); [cbn in *; lia|]. destruct (rightmost_read b x l Hf) as [Hi Hx]. apply read_eq; [lia|done].
Qed.
Lemma ring_Index_spec b l i : ring_rep b l -> ring_Index i b = (b, Ok (if 0 <=? i then l !! Z.to_nat i else None)).
Proof.
  intros [Hf Hlt]. unfold ring_Index. unfold mbind at 1, M_bind at 1, get. rewrite (leftmost_wrap b l Hf). destruct Hf as [H2 Hs Hfit Hleft Hr Hd].
  destruct (Z.ltb_spec i 0), (Z.leb_spec 0 i); try lia; [done|]. cbn [orb]. destruct (Z.leb_spec (size b) i).
  - rewrite lookup_ge_None_2 by lia. done.
  - destruct (lookup_lt_is_Some_2 l (Z.to_nat i)) as [x Hx]; [lia|]. rewrite Hx.
    assert (0 <= wrap_at (len b) (left b + 1) < len b) by wraps. rewrite wrap_mod by lia.
    apply read_eq; [wraps|]. rewrite <- (Hd _ _ Hx). f_equal. wraps.
Qed.
Lemma ring_List_spec b l : ring_rep b l -> ring_List b = (b, Ok l).
Proof.
  intros [Hf Hlt]. unfold ring_List. unfold mbind at 1, M_bind at 1, get. pose proof (rotated b l Hf) as Hrot. cbn zeta in Hrot. pose proof (leftmost_wrap b l Hf) as Hlm.
  destruct Hf as [H2 Hs Hfit Hleft Hr Hd]. destruct (Z.eqb_spec (size b) 0) as [Hz|Hz]; [by destruct l; [|cbn in *; lia]|].
  assert (0 <= leftmostEltIdx b < len b) as Hrange by (rewrite Hlm; wraps). set (i := Z.to_nat (leftmostEltIdx b)) in *.
  assert (slice (leftmostEltIdx b) (len b) (data b) = Some (drop i (data b))) as ->.
  { unfold slice. rewrite (proj2 (Z.leb_le _ _)), (proj2 (Z.leb_le _ _)), (proj2 (Z.leb_le _ _)) by lia. cbn. by rewrite Nat2Z.id, firstn_all. }
  unfold must, mbind, M_bind, mret, M_ret. set (A := drop i (data b)) in *. assert (length A = (length (data b) - i)%nat) as HA by (unfold A; apply length_drop).
  destruct (Z.ltb_spec (Z.min (size b) (Z.of_nat (length A))) (size b)) as [Hmin|Hmin].
  - assert (length A < length l)%nat by lia. assert (0 <= right b <= Z.of_nat i) as Hri by (rewrite Hr, Hlm in *; wraps).
    assert (slice 0 (right b) (data b) = Some (take (Z.to_nat (right b)) (data b))) as ->.
    { unfold slice. rewrite (proj2 (Z.leb_le _ _)), (proj2 (Z.leb_le _ _)), (proj2 (Z.leb_le _ _)) by lia. done. }
    replace (Z.to_nat (Z.min (size b) (Z.of_nat (length A)))) with (length A) by lia.
    assert (Z.to_nat (right b) = length l - length A)%nat as Hrlen by (rewrite Hr; rewrite Hlm in *; wraps).
    rewrite copy_over by (rewrite length_take; lia). rewrite take_app_ge, take_take in Hrot by lia. rewrite length_take. rewrite Hrlen.
    replace (min (length l - length A) i) with (length l - length A)%nat in Hrot by lia.
    replace (Z.to_nat (size b) - length A - _)%nat with 0%nat by lia. by rewrite app_nil_r, Hrot.
  - rewrite take_app_le in Hrot by lia. unfold copy. rewrite length_replicate, drop_replicate. replace (Z.to_nat (size b)) with (length l) by lia.
    rewrite Hrot. replace (length l - length A)%nat with 0%nat by lia. by rewrite app_nil_r.
Qed.

#[export] Instance ring_laws : DequeLaws T unboundedSliceDeque ring_rep.
Proof.
  split; [exact ring_PushLeft_spec|exact ring_PushRight_spec|exact ring_PopLeft_spec|exact ring_PopRight_spec|exact ring_PeekLeft_spec|exact ring_PeekRight_spec
    |exact ring_Index_spec|intros b l Hr; apply Hr|exact ring_List_spec].
Qed.
End ring.
Arguments unboundedSliceDeque T : clear implicits.

(** ** Runs
    Calls of the methods in any order, with what they return. *)
Section runs.
Context {T : Type}.
Inductive call := CPushLeft (x : T) | CPushRight (x : T) | CPopLeft | CPopRight | CPeekLeft | CPeekRight | CIndex (i : Z) | CLen | CList.
Inductive answer := ABool (b : bool) | AElt (o : option T) | ALen (n : Z) | AList (l : list T).

Definition perform `{Deque T D} (c : call) : M D DequeErr answer :=
  match c with
  | CPushLeft x => a ← PushLeft x; mret (ABool a)
  | CPushRight x => a ← PushRight x; mret (ABool a)
  | CPopLeft => a ← PopLeft; mret (AElt a)
  | CPopRight => a ← PopRight; mret (AElt a)
  | CPeekLeft => a ← PeekLeft; mret (AElt a)
  | CPeekRight => a ← PeekRight; mret (AElt a)
  | CIndex i => a ← Index i; mret (AElt a)
  | CLen => d ← get; mret (ALen (Len d))
  | CList => a ← List; mret (AList a)
  end.
Fixpoint perform_all `{Deque T D} (cs : list call) : M D DequeErr (list answer) :=
  match cs with
  | [] => mret []
  | c :: cs => a ← perform c; l ← perform_all cs; mret (a :: l)
  end.

(** The same on a list. *)
Definition list_call (c : call) (l : list T) : list T * answer :=
  match c with
  | CPushLeft x => (x :: l, ABool true)
  | CPushRight x => (l ++ [x], ABool true)
  | CPopLeft => (tail l, AElt (head l))
  | CPopRight => (take (pred (length l)) l, AElt (last l))
  | CPeekLeft => (l, AElt (head l))
  | CPeekRight => (l, AElt (last l))
  | CIndex i => (l, AElt (if 0 <=? i then l !! Z.to_nat i else None))
  | CLen => (l, ALen (Z.of_nat (length l)))
  | CList => (l, AList l)
  end.
Fixpoint list_calls (cs : list call) (l : list T) : list answer :=
  match cs with
  | [] => []
  | c :: cs => let '(l, a) := list_call c l in a :: list_calls cs l
  end.

Lemma perform_spec `{DequeLaws T D rep} c d l : rep d l -> wp never (perform c) (fun a d' => a = (list_call c l).2 /\ rep d' (list_call c l).1) d.
Proof.
  intros Hr. destruct c; cbn.
  all: try (apply wp_bind, wp_get, wp_ret; cbn; by rewrite (law_Len _ _ Hr)).
  all: apply wp_bind.
  - eapply wp_mono; [by apply law_PushLeft|]. by intros b d' [-> ?].
  - eapply wp_mono; [by apply law_PushRight|]. by intros b d' [-> ?].
  - eapply wp_mono; [by apply law_PopLeft|]. by intros b d' [-> ?].
  - eapply wp_mono; [by apply law_PopRight|]. by intros b d' [-> ?].
  - unfold wp. by rewrite (law_PeekLeft _ _ Hr).
  - unfold wp. by rewrite (law_PeekRight _ _ Hr).
  - unfold wp. by rewrite (law_Index _ _ _ Hr).
  - unfold wp. by rewrite (law_List _ _ Hr).
Qed.
Lemma perform_all_spec `{DequeLaws T D rep} cs d l : rep d l -> wp never (perform_all cs) (fun a _ => a = list_calls cs l) d.
Proof.
  revert d l. induction cs as [|c cs IH]; intros d l Hr; cbn; [done|]. apply wp_bind. eapply wp_mono; [by apply perform_spec|]. cbn beta. intros a d' [-> Hr'].
  apply wp_bind. eapply wp_mono; [by apply IH|]. cbn beta. intros as' d2 ->. apply wp_ret. by destruct (list_call c l).
Qed.
End runs.

(** A ring buffer is a deque: whatever the initial size and whatever calls are made
    in whatever order, none indexes a slice out of range, and each returns what it
    returns on the list of the elements. *)
Theorem ring_buffer_correct {T} (zero : T) (initSize : Z) (cs : list (call (T := T))) :
  let r := perform_all (H := ring_deque zero) cs (NewUnboundedDeque zero initSize) in r.2 = Ok (list_calls cs []).
Proof.
  cbn zeta. destruct (wp_total _ _ _ (perform_all_spec (H0 := ring_laws zero) cs _ [] (new_ring zero initSize))) as (a & b & -> & ->). done.
Qed.
End Deque.
