(* ===== verification/Window.v ===== *)
(** * Bounded queues and windows
    The clients of [Deque]: [boundedQueue] of
    [utils/buffer/bounded_nonblocking_queue.go], which drops its oldest element when
    it is full, and [window] of [utils/window/window.go], which also drops the
    elements that have been in it for long.  The lock makes every method one step;
    every call of the clock is a reading of its own. *)
From S2P Require Import Prelude Monads Deque.

Module Window.
Import Deque.

(** ** Bounded queues *)
Section queue.
Context {T D : Type} `{Deque T D}.
(** [onEvict] is the log of its calls. *)
Record boundedQueue := mkQueue { deque : D; maxSize : Z; onEvict : list T }.
Abbreviation Q := (M boundedQueue DequeErr).
Definition on_deque {A} (m : M D DequeErr A) : Q A := zoom deque (fun d b => mkQueue d (maxSize b) (onEvict b)) m.

Definition NewBoundedQueue (NewUnboundedDeque : Z -> D) (size : Z) : option boundedQueue :=
  if size <? 1 then None else Some (mkQueue (NewUnboundedDeque (size + 1)) size []).
Definition Push (elt : T) : Q unit :=
  b ← get;
  (if Len (deque b) =? maxSize b then
     evicted ← on_deque PopLeft;
     match evicted with
     | Some evicted => modify (fun b => mkQueue (deque b) (maxSize b) (onEvict b ++ [evicted]))
     | None => mret tt
     end
   else mret tt);;
  on_deque (PushRight elt);;
  mret tt.
Definition Pop : Q (option T) := on_deque PopLeft.
Definition Peek : Q (option T) := on_deque PeekLeft.
Definition q_Index (i : Z) : Q (option T) := on_deque (Index i).
Definition q_Len (b : boundedQueue) : Z := Len (deque b).
Definition q_List : Q (list T) := on_deque List.

Context `{!DequeLaws T D rep}.
Definition queue_rep (b : boundedQueue) (l : list T) : Prop := rep (deque b) l /\ 1 <= maxSize b /\ Z.of_nat (length l) <= maxSize b.

Lemma Push_spec b l x : queue_rep b l -> wp never (Push x)
  (fun _ b' => maxSize b' = maxSize b /\ if Z.of_nat (length l) =? maxSize b
     then queue_rep b' (tail l ++ [x]) /\ onEvict b' = onEvict b ++ match head l with Some y => [y] | None => [] end
     else queue_rep b' (l ++ [x]) /\ onEvict b' = onEvict b) b.
Proof.
  intros (Hr & Hm & Hl). unfold Push. apply wp_bind, wp_get. rewrite (law_Len _ _ Hr). destruct (Z.eqb_spec (Z.of_nat (length l)) (maxSize b)) as [He|He].
  - destruct l as [|y l]; [cbn in He; lia|]. apply wp_bind, wp_bind, wp_zoom. eapply wp_mono; [by apply law_PopLeft|]. cbn beta. intros o d' [-> Hd']. cbn in Hd'.
    apply wp_modify. apply wp_bind, wp_zoom. eapply wp_mono; [by apply law_PushRight|]. cbn beta. intros _ d2 [_ Hd2]. apply wp_ret. split; [done|]. split; [|done]. split_and!; cbn in *; [done|done|].
    rewrite length_app. cbn. lia.
  - apply wp_bind, wp_ret, wp_bind, wp_zoom. eapply wp_mono; [by apply law_PushRight|]. cbn beta. intros _ d2 [_ Hd2]. apply wp_ret. split; [done|]. split; [|done]. split_and!; cbn; [done|done|].
    rewrite length_app. cbn. lia.
Qed.
End queue.
Arguments boundedQueue : clear implicits.

(** ** Windows *)
Section window.
Context {T D : Type} {clock : nat -> Z} (ttl maxSize minSize : Z).
Record node := mkNode { value : T; entryTime : Z }.
Context `{Deque node D}.
(** [ticks] counts the readings of the clock. *)
Record window := mkWindow { elements : D; ticks : nat }.
Abbreviation W := (M window DequeErr).
Definition on_elements {A} (m : M D DequeErr A) : W A := zoom elements (fun d w => mkWindow d (ticks w)) m.
Definition New (NewUnboundedDeque : Z -> D) : window := mkWindow (NewUnboundedDeque (maxSize + 1)) 0.
Definition Time : W Z :=
  w ← get;
  modify (fun w => mkWindow (elements w) (S (ticks w)));;
  mret (clock (ticks w)).

Fixpoint stale_loop (fuel : nat) : W unit :=
  match fuel with
  | O => fail OutOfFuel
  | S fuel =>
      w ← get;
      if Len (elements w) <=? minSize then mret tt
      else
        oldest ← on_elements PeekLeft;
        match oldest with
        | None => mret tt
        | Some oldest =>
            now ← Time;
            if now - entryTime oldest <=? ttl then mret tt
            else on_elements PopLeft;; stale_loop fuel
        end
  end.
(** Every iteration but the last removes an element. *)
Definition removeStaleNodes : W unit :=
  w ← get;
  stale_loop (S (Z.to_nat (Len (elements w)))).

Definition Add (v : T) : W unit :=
  now ← Time;
  on_elements (PushRight (mkNode v now));;
  removeStaleNodes;;
  w ← get;
  when (maxSize <? Len (elements w)) (on_elements PopLeft;; mret tt).
Definition Oldest : W (option T) :=
  removeStaleNodes;;
  oldest ← on_elements PeekLeft;
  mret (value <$> oldest).
Definition Length : W Z :=
  removeStaleNodes;;
  w ← get;
  mret (Len (elements w)).

Context `{!DequeLaws node D rep}.

(** Between two readings the elements [old] have been removed as stale, and [new] are
    left. *)
Record expired (t t' : nat) (old new : list node) : Prop := {
  ex_stale n : n ∈ old -> exists k, (t <= k < t')%nat /\ ttl < clock k - entryTime n;
  ex_min : old <> [] -> minSize <= Z.of_nat (length new);
  ex_fresh n : minSize < Z.of_nat (length new) -> head new = Some n -> exists k, (t <= k < t')%nat /\ clock k - entryTime n <= ttl;
}.

Lemma stale_loop_spec fuel w l : rep (elements w) l -> (length l < fuel)%nat ->
  wp never (stale_loop fuel) (fun _ w' => exists old new, l = old ++ new /\ rep (elements w') new /\ (ticks w <= ticks w')%nat /\ expired (ticks w) (ticks w') old new) w.
Proof.
  revert w l. induction fuel as [|fuel IH]; intros w l Hr Hf; [lia|]. cbn [stale_loop]. apply wp_bind, wp_get. rewrite (law_Len _ _ Hr).
  destruct (Z.leb_spec (Z.of_nat (length l)) minSize).
  - apply wp_ret. exists [], l. split_and!; [done..|]. split; [by intros n ?%elem_of_nil|done|lia].
  - apply wp_bind, wp_zoom. unfold wp at 1. rewrite (law_PeekLeft _ _ Hr). destruct l as [|n l]; cbn [head].
    + apply wp_ret. exists [], []. split_and!; [done..|]. by split; [intros n ?%elem_of_nil|..].
    + apply wp_bind. unfold Time. apply wp_bind, wp_get, wp_bind, wp_modify, wp_ret. cbn [elements ticks]. destruct (Z.leb_spec (clock (ticks w) - entryTime n) ttl).
      * apply wp_ret. exists [], (n :: l). cbn. split_and!; [done|done|lia|]. split; [by intros m ?%elem_of_nil|done|]. intros m _ [= <-]. exists (ticks w). split; [lia|done].
      * apply wp_bind, wp_zoom. eapply wp_mono; [by apply law_PopLeft|]. cbn beta. intros o d' [_ Hd']. cbn in Hd' |- *.
        eapply wp_mono; [apply (IH (mkWindow d' (S (ticks w))) l Hd')|]; [cbn in Hf; lia|]. cbn beta. intros [] w' (old & new & -> & Hn & Ht & [He1 He2 He3]). cbn in *.
        exists (n :: old), new. split_and!; [done|done|lia|]. split.
        -- intros m [->|Hm]%elem_of_cons; [exists (ticks w); split; [lia|done]|]. destruct (He1 m Hm) as (k & ? & ?). exists k. split; [lia|done].
        -- intros _. destruct old as [|m old]; [cbn in *; lia|by apply He2].
        -- intros m Hm Hh. destruct (He3 m Hm Hh) as (k & ? & ?). exists k. split; [lia|done].
Qed.
Lemma removeStaleNodes_spec w l : rep (elements w) l ->
  wp never removeStaleNodes (fun _ w' => exists old new, l = old ++ new /\ rep (elements w') new /\ (ticks w <= ticks w')%nat /\ expired (ticks w) (ticks w') old new) w.
Proof. intros Hr. unfold removeStaleNodes. apply wp_bind, wp_get. apply stale_loop_spec; [done|]. rewrite (law_Len _ _ Hr). lia. Qed.

(** A window is a queue of its elements: [Add] puts one at the end, all methods take
    away the oldest ones that have stayed for longer than [ttl], but never below
    [minSize] elements, and leave none of those at the front; at most [maxSize] are
    kept, and only a window that is full loses an element that is not stale. *)
Theorem window_correct (w : window) (l : list node) (v : T) : rep (elements w) l -> Z.of_nat (length l) <= maxSize -> 0 <= maxSize ->
  let n := mkNode v (clock (ticks w)) in
  (exists w' old new out, Add v w = (w', Ok tt) /\ l ++ [n] = old ++ out ++ new /\ rep (elements w') new /\ Z.of_nat (length new) <= maxSize /\
     expired (S (ticks w)) (ticks w') old (out ++ new) /\ (out = [] \/ length out = 1%nat /\ old = [] /\ Z.of_nat (length new) = maxSize)) /\
  (exists w' old new, Oldest w = (w', Ok (value <$> head new)) /\ l = old ++ new /\ rep (elements w') new /\ expired (ticks w) (ticks w') old new) /\
  (exists w' old new, Length w = (w', Ok (Z.of_nat (length new))) /\ l = old ++ new /\ rep (elements w') new /\ expired (ticks w) (ticks w') old new).
Proof.
  intros Hr Hl Hm n. split_and!.
  - destruct (wp_total (Add v) (fun _ w' => exists old new out, l ++ [n] = old ++ out ++ new /\ rep (elements w') new /\ Z.of_nat (length new) <= maxSize /\
     expired (S (ticks w)) (ticks w') old (out ++ new) /\ (out = [] \/ length out = 1%nat /\ old = [] /\ Z.of_nat (length new) = maxSize)) w) as ([] & w' & Hw & old & new & out & Hres); [|eauto 6].
    unfold Add, Time. apply wp_bind, wp_bind, wp_get, wp_bind, wp_modify, wp_ret. apply wp_bind, wp_zoom. eapply wp_mono; [by apply law_PushRight|]. cbn beta. intros _ d [_ Hd].
    apply wp_bind. eapply wp_mono; [by apply removeStaleNodes_spec|]. cbn beta. intros [] w1 (old & new & Heq & Hn & Ht & Hex). cbn [elements ticks] in *. fold n in Heq.
    apply wp_bind, wp_get. rewrite (law_Len _ _ Hn). apply wp_when; intros Hmx.
    + apply wp_bind, wp_zoom. eapply wp_mono; [by apply law_PopLeft|]. cbn beta. intros _ d2 [_ Hd2]. apply wp_ret.
      assert (length old + length new = length l + 1)%nat as Hlen by (rewrite <- length_app, <- Heq, length_app; done).
      apply Z.ltb_lt in Hmx. destruct new as [|m new]; [cbn in Hmx; lia|]. destruct old; cbn in Hlen, Hmx; [|lia]. exists [], new, [m]. cbn. split_and!; [done|done|lia|done|].
      right. split_and!; [done|done|lia].
    + apply Z.ltb_ge in Hmx. exists old, new, []. split_and!; [done..|by left].
  - destruct (wp_total Oldest (fun o w' => exists old new, o = value <$> head new /\ l = old ++ new /\ rep (elements w') new /\ expired (ticks w) (ticks w') old new) w) as (o & w' & Hw & old & new & -> & Hres); [|eauto 6].
    unfold Oldest. apply wp_bind. eapply wp_mono; [by apply removeStaleNodes_spec|]. cbn beta. intros [] w1 (old & new & Heq & Hn & Ht & Hex).
    apply wp_bind, wp_zoom. unfold wp at 1. rewrite (law_PeekLeft _ _ Hn). apply wp_ret. by exists old, new.
  - destruct (wp_total Length (fun o w' => exists old new, o = Z.of_nat (length new) /\ l = old ++ new /\ rep (elements w') new /\ expired (ticks w) (ticks w') old new) w) as (o & w' & Hw & old & new & -> & Hres); [|eauto 6].
    unfold Length. apply wp_bind. eapply wp_mono; [by apply removeStaleNodes_spec|]. cbn beta. intros [] w1 (old & new & Heq & Hn & Ht & Hex).
    apply wp_bind, wp_get, wp_ret. rewrite (law_Len _ _ Hn). by exists old, new.
Qed.
End window.

(** ** A window over a ring buffer *)
Definition second_clock (k : nat) : Z := Z.of_nat k.
Abbreviation Z_window := (window (D := unboundedSliceDeque (node (T := Z)))).
Definition new_window : Z_window := New 2 (NewUnboundedDeque (mkNode 0 0)).
#[local] Instance node_deque : Deque node (unboundedSliceDeque node) := ring_deque (mkNode (T := Z) 0 0).
#[local] Instance node_deque_laws : DequeLaws node (unboundedSliceDeque node) ring_rep := ring_laws (mkNode (T := Z) 0 0).
Lemma window_correct_witness : exists (w : Z_window) (l : list node), Add (clock := second_clock) 30 2 1 7 new_window = (w, Ok tt) /\
  ring_rep (elements w) l /\ Z.of_nat (length l) <= 2.
Proof.
  destruct (window_correct (clock := second_clock) 30 2 1 new_window [] 7 (new_ring (mkNode 0 0) 3) ltac:(cbn; lia) ltac:(lia)) as [(w & old & new & out & Hadd & _ & Hrep & Hlen & _) _].
  exists w, new. split; [exact Hadd|]. split; [exact Hrep|exact Hlen].
Defined.
End Window.
