(* ===== verification/SetBits.v ===== *)
(** * Bit sets
    Models [utils/set/bits.go]: a set of indices that a [big.Int] holds.  [math/big]
    is of the standard library: an integer is a [Z], its words have 64 bits, and its
    bytes are those of the value without leading zeros. *)
From S2P Require Import Prelude Monads GoLibrary.

Module SetBits.
Inductive BitsErr := Panic.

(** *** [math/big] *)
Definition IntBitLen (z : Z) : Z := if z =? 0 then 0 else Z.log2 z + 1.
Definition IntBytes (z : Z) : list Z := BigEndian.put (Z.to_nat ((IntBitLen z + 7) / 8)) z.
Definition SetBytes (bytes : list Z) : Z := BigEndian.be_value 0 bytes.
(** [Bits]: the words, from the least one. *)
Definition IntWords (z : Z) : list Z := (fun k => Z.shiftr z (64 * k) mod 2 ^ 64) <$> seqZ 0 ((IntBitLen z + 63) / 64).
(** [bits.OnesCount] *)
Definition OnesCount (word : Z) : Z := Z.of_nat (length (filter (fun i => Z.testbit word i = true) (seqZ 0 64))).

Abbreviation Bits := Z.
Section ops.
Abbreviation B := (M Bits BitsErr).
Definition BitsFromBytes (bytes : list Z) : Bits := SetBytes bytes.
(** [SetBit] and [Bit] panic on a negative index. *)
Definition Add (i : Z) : B unit := if i <? 0 then fail Panic else modify (fun b => Z.setbit b i).
Definition Remove (i : Z) : B unit := if i <? 0 then fail Panic else modify (fun b => Z.clearbit b i).
Definition NewBits (l : list Z) : result BitsErr Bits :=
  match forM l Add 0 with (b, Ok _) => Ok b | (_, Err e) => Err e end.
Definition Union (other : Bits) (b : Bits) : Bits := Z.lor b other.
Definition Intersection (other : Bits) (b : Bits) : Bits := Z.land b other.
Definition Difference (other : Bits) (b : Bits) : Bits := Z.ldiff b other.
Definition Clear (b : Bits) : Bits := 0.
Definition Contains (i : Z) (b : Bits) : result BitsErr bool := if i <? 0 then Err Panic else Ok (Z.testbit b i).
Definition BitLen (b : Bits) : Z := IntBitLen b.
Definition Len (b : Bits) : Z := foldl (fun result word => result + OnesCount word) 0 (IntWords b).
Definition Bytes (b : Bits) : list Z := IntBytes b.
End ops.

(** ** The indices of a set *)
Definition members (b : Bits) : list Z := filter (fun i => Z.testbit b i = true) (seqZ 0 (BitLen b)).

Lemma BitLen_nonneg b : 0 <= BitLen b.
Proof. unfold BitLen, IntBitLen. destruct (b =? 0); [done|]. pose proof (Z.log2_nonneg b). lia. Qed.
Lemma above_BitLen b i : 0 <= b -> BitLen b <= i -> Z.testbit b i = false.
Proof.
  intros Hb Hi. unfold BitLen, IntBitLen in Hi. destruct (Z.eqb_spec b 0) as [->|Hne]; [by rewrite Z.bits_0|]. apply Z.bits_above_log2; lia.
Qed.
Lemma BitLen_spec b : 0 <= b -> b < 2 ^ BitLen b /\ (b <> 0 -> 2 ^ (BitLen b - 1) <= b).
Proof.
  intros Hb. unfold BitLen, IntBitLen. destruct (Z.eqb_spec b 0) as [->|Hne]; [by split; [|intros []]|]. pose proof (Z.log2_spec b ltac:(lia)) as Hl.
  replace (Z.log2 b + 1 - 1) with (Z.log2 b) by lia. unfold Z.succ in Hl. split; [lia|intros _; lia].
Qed.
Lemma elem_of_members b i : 0 <= b -> i ∈ members b <-> 0 <= i /\ Z.testbit b i = true.
Proof.
  intros Hb. unfold members. rewrite list_elem_of_filter, elem_of_seqZ. split; [tauto|]. intros [Hi Ht]. split; [exact Ht|]. split; [lia|].
  destruct (Z.lt_ge_cases i (0 + BitLen b)); [done|]. rewrite above_BitLen in Ht by lia. done.
Qed.
Lemma members_nodup b : NoDup (members b).
Proof. apply NoDup_filter, NoDup_seqZ. Qed.

(** ** The length *)
Lemma ones_split b n : 0 <= b -> (n <= Z.to_nat (BitLen b + 63))%nat ->
  foldl (fun result word => result + OnesCount word) 0 ((fun k => Z.shiftr b (64 * k) mod 2 ^ 64) <$> seqZ 0 (Z.of_nat n)) =
  Z.of_nat (length (filter (fun i => Z.testbit b i = true) (seqZ 0 (64 * Z.of_nat n)))).
Proof.
  intros Hb. induction n as [|n IH]; intros Hn; [done|].
  rewrite seqZ_S, Nat2Z.inj_succ, fmap_app, foldl_app, IH by lia. cbn [foldl fmap list_fmap]. rewrite Z.add_0_l.
  replace (64 * Z.succ (Z.of_nat n)) with (64 * Z.of_nat n + 64) by lia. rewrite (seqZ_app 0 (64 * Z.of_nat n) 64), filter_app, length_app by lia. rewrite Nat2Z.inj_add. f_equal.
  unfold OnesCount. f_equal. rewrite Z.add_0_l. replace (seqZ (64 * Z.of_nat n) 64) with ((fun i => 64 * Z.of_nat n + i) <$> seqZ 0 64) by (rewrite fmap_add_seqZ; f_equal; lia).
  assert (forall l, (forall i, i ∈ l -> 0 <= i < 64) -> length (filter (fun i => Z.testbit (Z.shiftr b (64 * Z.of_nat n) mod 2 ^ 64) i = true) l) =
    length (filter (fun i => Z.testbit b i = true) ((fun i => 64 * Z.of_nat n + i) <$> l))) as Hl; [|apply Hl; intros i Hi; apply elem_of_seqZ in Hi; lia].
  induction l as [|i l IHl]; intros Hr; [done|]. cbn [fmap list_fmap]. rewrite !filter_cons.
  assert (Z.testbit (Z.shiftr b (64 * Z.of_nat n) mod 2 ^ 64) i = Z.testbit b (64 * Z.of_nat n + i)) as ->.
  { pose proof (Hr i ltac:(by left)). rewrite Z.mod_pow2_bits_low, Z.shiftr_spec by lia. f_equal. lia. }
  specialize (IHl ltac:(intros; apply Hr; by right)). case_decide; cbn; [f_equal|]; apply IHl.
Qed.
Lemma Len_members b : 0 <= b -> Len b = Z.of_nat (length (members b)).
Proof.
  intros Hb. unfold Len, IntWords. pose proof (BitLen_nonneg b) as Hn. change (IntBitLen b) with (BitLen b). set (k := (BitLen b + 63) / 64).
  assert (BitLen b <= 64 * k /\ 0 <= k <= BitLen b + 63) as [Hk Hk'].
  { pose proof (Z.div_mod (BitLen b + 63) 64 ltac:(lia)) as Hd. pose proof (Z.mod_pos_bound (BitLen b + 63) 64 ltac:(lia)) as Hm. fold k in Hd. lia. }
  replace k with (Z.of_nat (Z.to_nat k)) by lia. rewrite ones_split by lia. rewrite Z2Nat.id by lia. f_equal. unfold members.
  replace (64 * k) with (BitLen b + (64 * k - BitLen b)) by lia. rewrite seqZ_app, filter_app, length_app by lia.
  rewrite Z.add_0_l. set (r := filter _ (seqZ (BitLen b) _)). assert (r = []) as ->; [|cbn; lia].
  apply elem_of_nil_inv. intros i [Ht Hi]%list_elem_of_filter. apply elem_of_seqZ in Hi. rewrite above_BitLen in Ht by lia. done.
Qed.

(** ** The bytes *)
Lemma Bytes_back b : 0 <= b -> BitsFromBytes (Bytes b) = b.
Proof.
  intros Hb. unfold BitsFromBytes, SetBytes, Bytes, IntBytes. rewrite BigEndian.put_value by done. apply Z.mod_small. split; [done|].
  pose proof (BitLen_spec b Hb) as [Hlt _]. pose proof (BitLen_nonneg b). change (IntBitLen b) with (BitLen b). set (n := (BitLen b + 7) / 8).
  pose proof (Z.div_mod (BitLen b + 7) 8 ltac:(lia)) as Hd. pose proof (Z.mod_pos_bound (BitLen b + 7) 8 ltac:(lia)) as Hm. fold n in Hd.
  rewrite Z2Nat.id by lia. change 256 with (2 ^ 8). rewrite <- Z.pow_mul_r by lia. eapply Z.lt_le_trans; [exact Hlt|]. apply Z.pow_le_mono_r; lia.
Qed.
(** Bytes are kept when their length is: when there is no leading zero. *)
Lemma Bytes_canonical l : Forall BigEndian.is_byte l -> length (Bytes (BitsFromBytes l)) = length l -> Bytes (BitsFromBytes l) = l.
Proof.
  intros Hl Hlen. pose proof (BigEndian.be_value_bound l Hl) as Hv. apply BigEndian.be_value_inj; [apply BigEndian.put_bytes|done|done|].
  change (BigEndian.be_value 0 (Bytes (BitsFromBytes l))) with (BitsFromBytes (Bytes (BitsFromBytes l))). by rewrite Bytes_back by apply Hv.
Qed.
End SetBits.
