(* ===== verification/WarpSets.v ===== *)
(** * Canonical validator sets
    Models [FlattenValidatorSet] of [snow/validators/warp.go]: the validators of a set
    are grouped by their public key and the groups are sorted by it.  A [*Warp] is
    reached through the map only while the groups are built, so the map holds it. *)
From Stdlib Require Import Sorting.Sorted.
From stdpp Require Import sorting.
From S2P Require Import Prelude MapOrder Sorting Database ValidatorHistory.

Module WarpSets.
Import Sorting ValidatorHistory Database.
Abbreviation ID := (list Z).

Record Warp (PK : Type) := mkWarp { PublicKey : PK; PublicKeyBytes : bytes; Weight : Z; NodeIDs : list ID }.
Arguments mkWarp {PK}.
Arguments PublicKey {PK}.
Arguments PublicKeyBytes {PK}.
Arguments Weight {PK}.
Arguments NodeIDs {PK}.
Record WarpSet (PK : Type) := mkWarpSet { Validators : list (Warp PK); TotalWeight : Z }.
Arguments mkWarpSet {PK}.
Arguments Validators {PK}.
Arguments TotalWeight {PK}.

Section flatten.
Context {PK : Type} `{BLS PK}.
Abbreviation Output := (GetValidatorOutput PK).
Definition Warp_Compare (w o : Warp PK) : Z := bytes_Compare (PublicKeyBytes w) (PublicKeyBytes o).
Definition warp_le (w o : Warp PK) : Prop := Warp_Compare w o <= 0.
#[export] Instance warp_le_dec w o : Decision (warp_le w o) := decide (Warp_Compare w o <= 0).

Definition flatten_step (acc : gmap bytes (Warp PK) * Z) (vdr : Output) : gmap bytes (Warp PK) * Z :=
  let '(vdrs, totalWeight) := acc in
  let totalWeight := totalWeight + o_Weight vdr in
  match o_PublicKey vdr with
  | None => (vdrs, totalWeight)
  | Some pk =>
      let pkBytes := PublicKeyToUncompressedBytes pk in
      let uniqueVdr := default (mkWarp pk pkBytes 0 []) (vdrs !! pkBytes) in
      (<[pkBytes := mkWarp (PublicKey uniqueVdr) (PublicKeyBytes uniqueVdr) (wrap64 (Weight uniqueVdr + o_Weight vdr)) (NodeIDs uniqueVdr ++ [o_NodeID vdr])]> vdrs,
       totalWeight)
  end.

Context {HO : KeyOrder ID}.
Definition outputs (vdrSet : gmap ID Output) : list Output := (entries vdrSet).*2.
Definition FlattenValidatorSet (vdrSet : gmap ID Output) : WarpSet PK :=
  let '(vdrs, totalWeight) := foldl flatten_step (∅, 0) (outputs vdrSet) in
  mkWarpSet (merge_sort warp_le (entries vdrs).*2) totalWeight.

(** ** What it returns *)
Definition has_key (b : bytes) (vdr : Output) : Prop := exists pk, o_PublicKey vdr = Some pk /\ PublicKeyToUncompressedBytes pk = b.
#[export] Instance has_key_dec b vdr : Decision (has_key b vdr).
Proof.
  refine (match o_PublicKey vdr as o return o_PublicKey vdr = o -> _ with Some pk => fun Heq => cast_if (decide (PublicKeyToUncompressedBytes pk = b)) | None => fun Heq => right _ end eq_refl).
  - abstract by exists pk.
  - abstract by intros (pk' & Heq' & ?); congruence.
  - abstract by intros (pk' & Heq' & ?); congruence.
Defined.

(** The group of a key among some validators. *)
Definition group_ok (l : list Output) (b : bytes) (w : Warp PK) : Prop :=
  PublicKeyBytes w = b /\ PublicKeyToUncompressedBytes (PublicKey w) = b /\ NodeIDs w = o_NodeID <$> filter (has_key b) l /\ filter (has_key b) l <> [] /\
  Weight w = wrap64 (zsum o_Weight (filter (has_key b) l)).

Lemma group_skip (l : list Output) vdr b (o : option (Warp PK)) : ~ has_key b vdr ->
  match o with Some w => group_ok l b w | None => filter (has_key b) l = [] end ->
  match o with Some w => group_ok (l ++ [vdr]) b w | None => filter (has_key b) (l ++ [vdr]) = [] end.
Proof. intros Hn. unfold group_ok. by rewrite filter_app, filter_cons, filter_nil, decide_False, app_nil_r. Qed.

Lemma flatten_fold (l : list Output) : let r := foldl flatten_step (∅, 0) l in
  r.2 = zsum o_Weight l /\ forall b, match r.1 !! b with Some w => group_ok l b w | None => filter (has_key b) l = [] end.
Proof.
  induction l as [|vdr l IH] using rev_ind; [split; [done|intros b; cbn; by rewrite lookup_empty]|]. cbn zeta in *. rewrite foldl_app. cbn [foldl].
  destruct (foldl flatten_step (∅, 0) l) as [vdrs total]. cbn in IH. destruct IH as [-> IH]. unfold flatten_step. rewrite zsum_app. cbn [zsum foldr]. rewrite Z.add_0_r.
  destruct (o_PublicKey vdr) as [pk|] eqn:Hpk; cbn [fst snd]; (split; [done|]); intros b.
  - set (pkb := PublicKeyToUncompressedBytes pk) in *. assert (has_key pkb vdr) as Hk by by exists pk. specialize (IH b). destruct (decide (b = pkb)) as [->|Hne].
    + rewrite lookup_insert_eq. unfold group_ok. cbn. rewrite filter_app, filter_cons, filter_nil, decide_True by done. destruct (vdrs !! pkb) as [w|]; cbn.
      * destruct IH as (Hb & Hp & Hn & Hf & Hw). split_and!; [done|done|by rewrite Hn, fmap_app|by destruct (filter _ l)|].
        rewrite Hw, zsum_app. cbn. rewrite Z.add_0_r. unfold wrap. by rewrite Zplus_mod_idemp_l.
      * rewrite IH. cbn. by rewrite Z.add_0_r.
    + rewrite lookup_insert_ne by done. assert (~ has_key b vdr) as Hnk by (intros (pk' & Heq & <-); rewrite Hpk in Heq; by injection Heq as ->). by apply group_skip.
  - assert (~ has_key b vdr) as Hnk by (intros (pk' & Heq & <-); congruence). specialize (IH b). by apply group_skip.
Qed.

(** The canonical form of some validators. *)
Record canonical (l : list Output) (ws : WarpSet PK) : Prop := {
  cn_total : TotalWeight ws = zsum o_Weight l;
  cn_sorted : StronglySorted blt (PublicKeyBytes <$> Validators ws);
  cn_group w : w ∈ Validators ws -> group_ok l (PublicKeyBytes w) w;
  cn_all b : filter (has_key b) l <> [] -> exists w, w ∈ Validators ws /\ PublicKeyBytes w = b;
}.

#[export] Instance warp_le_total : Total warp_le.
Proof. intros w o. apply ble_total. Qed.
#[export] Instance warp_le_trans : Transitive warp_le.
Proof. intros w o x. apply ble_trans. Qed.

Lemma sorted_keys_fmap ws : StronglySorted warp_le ws -> StronglySorted ble (PublicKeyBytes <$> ws).
Proof. induction 1 as [|w ws Hs IH Hw]; cbn; constructor; [done|]. by apply Forall_fmap. Qed.

(** The keys of two canonical forms are the same list. *)
Lemma sorted_bytes_unique l l' : StronglySorted blt l -> StronglySorted blt l' -> (forall b, b ∈ l <-> b ∈ l') -> l = l'.
Proof.
  intros Hs Hs' Heq. assert (forall k : list bytes, (((fun b => (b, ())) <$> k).*1 = k)) as Hfst by (intros k; rewrite <- list_fmap_compose; apply list_fmap_id).
  rewrite <- (Hfst l), <- (Hfst l'). f_equal. apply sorted_unique; rewrite ?Hfst; [done..|]. intros [b []]. rewrite !list_elem_of_fmap.
  split; intros (b' & [= <-] & Hb); exists b; (split; [done|by apply Heq]).
Qed.

Lemma flatten_canonical vdrSet : canonical (outputs vdrSet) (FlattenValidatorSet vdrSet).
Proof.
  unfold FlattenValidatorSet. pose proof (flatten_fold (outputs vdrSet)) as Hf. cbn zeta in Hf. set (l := outputs vdrSet) in *.
  destruct (foldl flatten_step (∅, 0) l) as [vdrs total]. cbn in Hf. destruct Hf as [-> Hg].
  assert (forall w, w ∈ merge_sort warp_le (entries vdrs).*2 <-> vdrs !! PublicKeyBytes w = Some w) as Hin.
  { intros w. rewrite merge_sort_Permutation, list_elem_of_fmap. split.
    - intros ([b w'] & -> & Hw). apply elem_of_entries in Hw. cbn. specialize (Hg b). rewrite Hw in Hg. destruct Hg as [-> _]. done.
    - intros Hw. exists (PublicKeyBytes w, w). split; [done|]. by apply elem_of_entries. }
  split; cbn; [done| | |].
  - apply ble_sorted_blt.
    + apply sorted_keys_fmap, (StronglySorted_merge_sort warp_le).
    + rewrite merge_sort_Permutation, <- list_fmap_compose. assert ((entries vdrs).*1 = PublicKeyBytes ∘ snd <$> entries vdrs) as <-; [|apply entries_keys_nodup].
      apply list_fmap_ext. intros i [b w] Hi. apply list_elem_of_lookup_2, elem_of_entries in Hi. specialize (Hg b). rewrite Hi in Hg. cbn. by destruct Hg as [-> _].
  - intros w Hw. apply Hin in Hw. specialize (Hg (PublicKeyBytes w)). by rewrite Hw in Hg.
  - intros b Hb. specialize (Hg b). destruct (vdrs !! b) as [w|] eqn:Hw; [|done]. exists w. rewrite Hin. destruct Hg as [-> _]. done.
Qed.

(** C23: The canonical form of a validator set has the total weight of all validators,
    also of those without a public key, and lists every public key once, in the order
    of the keys, with exactly the nodes that have it and the sum of their weights in 64
    bits; two iteration orders of the map differ at most in the order of the nodes of
    a key. *)
Theorem FlattenValidatorSet_correct (vdrSet : gmap ID Output) :
  let ws := FlattenValidatorSet vdrSet in
  canonical (outputs vdrSet) ws /\
  forall ws', canonical (map_to_list vdrSet).*2 ws' -> TotalWeight ws = TotalWeight ws' /\
    Forall2 (fun w w' => PublicKeyBytes w = PublicKeyBytes w' /\ Weight w = Weight w' /\ NodeIDs w ≡ₚ NodeIDs w') (Validators ws) (Validators ws').
Proof.
  cbn zeta. pose proof (flatten_canonical vdrSet) as Hc. split; [done|]. intros ws' Hc'. set (ws := FlattenValidatorSet vdrSet) in *.
  assert (outputs vdrSet ≡ₚ (map_to_list vdrSet).*2) as Hp by (unfold outputs; by rewrite entries_perm).
  split; [rewrite (cn_total _ _ Hc), (cn_total _ _ Hc'); by apply zsum_perm|].
  assert (forall w w', w ∈ Validators ws -> w' ∈ Validators ws' -> PublicKeyBytes w = PublicKeyBytes w' -> Weight w = Weight w' /\ NodeIDs w ≡ₚ NodeIDs w') as Hgroup.
  { intros w w' Hw Hw' Hb. destruct (cn_group _ _ Hc w Hw) as (_ & _ & -> & _ & ->), (cn_group _ _ Hc' w' Hw') as (_ & _ & -> & _ & ->).
    rewrite Hb. split; [f_equal; apply zsum_perm|apply fmap_Permutation]; by apply filter_Permutation. }
  assert (PublicKeyBytes <$> Validators ws = PublicKeyBytes <$> Validators ws') as Hkeys.
  { apply sorted_bytes_unique; [apply Hc|apply Hc'|]. intros b. rewrite !list_elem_of_fmap. split; intros (w & -> & Hw).
    - destruct (cn_all _ _ Hc' (PublicKeyBytes w)) as (w' & Hw' & <-); [|by exists w']. destruct (cn_group _ _ Hc w Hw) as (_ & _ & _ & Hne & _).
      intros Hnil. apply Hne, Permutation_nil_r. by rewrite <- Hnil, Hp.
    - destruct (cn_all _ _ Hc (PublicKeyBytes w)) as (w' & Hw' & <-); [|by exists w']. destruct (cn_group _ _ Hc' w Hw) as (_ & _ & _ & Hne & _).
      intros Hnil. apply Hne, Permutation_nil_r. by rewrite <- Hnil, Hp. }
  apply Forall2_same_length_lookup_2.
  - by rewrite <- (length_fmap PublicKeyBytes (Validators ws)), Hkeys, length_fmap.
  - intros i w w' Hw Hw'. assert (PublicKeyBytes w = PublicKeyBytes w') as Hb.
    { apply (f_equal (lookup i)) in Hkeys. rewrite !list_lookup_fmap, Hw, Hw' in Hkeys. by injection Hkeys. }
    split; [done|]. apply Hgroup; [by eapply list_elem_of_lookup_2..|done].
Qed.
End flatten.
End WarpSets.
