(* ===== verification/WarpSignature.v ===== *)
(** * Signatures of warp messages
    Models [vms/platformvm/warp/signature.go], [validator.go] and [signer.go], and of
    [utils/crypto/bls] what is not of the library [blst]: a message is accepted when
    validators with a quorum of the weight have signed it.  The bytes of a message
    are those its codec gave it. *)
From Stdlib Require Import Sorting.Sorted.
From S2P Require Import Prelude Monads MapOrder Sorting GoLibrary SetBits Database ValidatorHistory WarpSets.

Module WarpSignature.
Import Sorting SetBits ValidatorHistory WarpSets Database.

Inductive WarpErr :=
  | ErrWrongSourceChainID
  | ErrWrongNetworkID
  | ErrInvalidBitSet
  | ErrUnknownValidator
  | ErrInsufficientWeight
  | ErrInvalidSignature
  | ErrParseSignature
  | ErrNoPublicKeys
  | errFailedPublicKeyAggregation
  | ErrSign
  | Panic.

(** The library [blst]. *)
Class Blst (PK Sig SK : Type) := {
  decompress : bytes -> option Sig;
  sig_validate : Sig -> bool;
  compress : Sig -> bytes;
  aggregate : list PK -> option PK;
  sig_verify : PK -> Sig -> bytes -> bool;
  sk_sign : SK -> bytes -> option Sig;
}.

Record UnsignedMessage := mkUnsigned { NetworkID : Z; SourceChainID : ID; Payload : bytes; um_Bytes : bytes }.
Record BitSetSignature := mkBitSet { Signers : bytes; Signature : bytes }.

Section warp.
Context {PK Sig SK : Type} `{BLS PK, !Blst PK Sig SK}.

(** ** [utils/crypto/bls] *)
Definition SignatureFromBytes (sigBytes : bytes) : option Sig :=
  sig ← decompress sigBytes;
  if sig_validate sig then Some sig else None.
Definition bls_AggregatePublicKeys (pks : list PK) : result WarpErr PK :=
  if (length pks =? 0)%nat then Err ErrNoPublicKeys
  else match aggregate pks with Some pk => Ok pk | None => Err errFailedPublicKeyAggregation end.

(** ** The signer of a chain *)
Definition Sign (sk : SK) (networkID : Z) (chainID : ID) (msg : UnsignedMessage) : result WarpErr bytes :=
  if negb (bool_decide (SourceChainID msg = chainID)) then Err ErrWrongSourceChainID
  else if negb (NetworkID msg =? networkID) then Err ErrWrongNetworkID
  else match sk_sign sk (um_Bytes msg) with Some sig => Ok (compress sig) | None => Err ErrSign end.

(** ** Verification *)
Definition of_bits {A} (r : result BitsErr A) : result WarpErr A := match r with Ok a => Ok a | Err _ => Err Panic end.
Definition filter_step (indices : Bits) (filteredVdrs : list (Warp PK)) (x : nat * Warp PK) : result WarpErr (list (Warp PK)) :=
  c ← of_bits (Contains (Z.of_nat x.1) indices);
  Ok (if c : bool then filteredVdrs ++ [x.2] else filteredVdrs).
Definition FilterValidators (indices : Bits) (vdrs : list (Warp PK)) : result WarpErr (list (Warp PK)) :=
  if Z.of_nat (length vdrs) <? BitLen indices then Err ErrUnknownValidator
  else foldR (filter_step indices) [] (imap pair vdrs).
Definition SumWeight (vdrs : list (Warp PK)) : Z := foldl (fun weight vdr => weight + Weight vdr) 0 vdrs.
Definition AggregatePublicKeys (vdrs : list (Warp PK)) : result WarpErr PK := bls_AggregatePublicKeys (PublicKey <$> vdrs).

(** [None] is a nil weight. *)
Definition VerifyWeight (sigWeight totalWeight : option Z) (quorumNum quorumDen : Z) : result WarpErr unit :=
  let totalWeight := default 0 totalWeight in
  let sigWeight := default 0 sigWeight in
  if sigWeight * quorumDen <? totalWeight * quorumNum then Err ErrInsufficientWeight else Ok tt.

Definition signerIndices (s : BitSetSignature) : result WarpErr Bits :=
  let signerIndices := BitsFromBytes (Signers s) in
  if negb (length (Bytes signerIndices) =? length (Signers s))%nat then Err ErrInvalidBitSet else Ok signerIndices.
Definition NumSigners (s : BitSetSignature) : result WarpErr Z := b ← signerIndices s; Ok (Len b).
Definition Verify (s : BitSetSignature) (msg : UnsignedMessage) (networkID : Z) (validators : WarpSet PK) (quorumNum quorumDen : Z) : result WarpErr unit :=
  if negb (NetworkID msg =? networkID) then Err ErrWrongNetworkID
  else
    signerIndices ← signerIndices s;
    signers ← FilterValidators signerIndices (Validators validators);
    let sigWeight := SumWeight signers in
    VerifyWeight (Some sigWeight) (Some (TotalWeight validators)) quorumNum quorumDen ≫= fun _ =>
    match SignatureFromBytes (Signature s) with
    | None => Err ErrParseSignature
    | Some aggSig =>
        aggPubKey ← AggregatePublicKeys signers;
        if sig_verify aggPubKey aggSig (um_Bytes msg) then Ok tt else Err ErrInvalidSignature
    end.

(** ** What is verified *)
(** The validators at the indices of a bit set. *)
Definition at_indices (b : Bits) (vdrs : list (Warp PK)) : list (Warp PK) := omap (fun i => vdrs !! Z.to_nat i) (members b).

Lemma filter_loop b (vdrs acc : list (Warp PK)) k : foldR (filter_step b) acc (imap (fun i w => ((k + i)%nat, w)) vdrs) =
  Ok (acc ++ (filter (fun x => Z.testbit b (Z.of_nat x.1) = true) (imap (fun i w => ((k + i)%nat, w)) vdrs)).*2).
Proof.
  revert acc k. induction vdrs as [|w vdrs IH]; intros acc k; [by rewrite app_nil_r|]. rewrite imap_cons. cbn [foldR].
  assert (forall l : list (Warp PK), imap ((fun i w => ((k + i)%nat, w)) ∘ S) l = imap (fun i w => ((S k + i)%nat, w)) l) as -> by (intros l; apply imap_ext; intros; cbn; f_equal; lia).
  unfold filter_step at 2, Contains. cbn [fst snd]. destruct (Z.ltb_spec (Z.of_nat (k + 0)) 0); [lia|]. cbn [of_bits mbind result_bind]. rewrite IH, filter_cons. cbn [fst].
  destruct (Z.testbit b (Z.of_nat (k + 0))); cbn; [by rewrite <- app_assoc|done].
Qed.

(** The loop over the validators is one over the indices. *)
Lemma filter_indices b (vdrs : list (Warp PK)) : 0 <= b -> BitLen b <= Z.of_nat (length vdrs) ->
  (filter (fun x => Z.testbit b (Z.of_nat x.1) = true) (imap pair vdrs)).*2 = at_indices b vdrs.
Proof.
  intros Hb Hlen. unfold at_indices, members. pose proof (BitLen_nonneg b).
  assert (forall n, (n <= length vdrs)%nat -> (filter (fun x => Z.testbit b (Z.of_nat x.1) = true) (imap pair (take n vdrs))).*2 =
    omap (fun i => vdrs !! Z.to_nat i) (filter (fun i => Z.testbit b i = true) (seqZ 0 (Z.of_nat n)))) as Hn.
  { induction n as [|n IH]; intros Hn; [done|]. destruct (lookup_lt_is_Some_2 vdrs n) as [w Hw]; [lia|]. rewrite (take_S_r _ _ w) by done.
    rewrite imap_app, filter_app, fmap_app, IH, seqZ_S, filter_app, omap_app by lia. f_equal.
    rewrite imap_cons, imap_nil, length_take_le, !filter_cons, !filter_nil by lia. cbn [fst compose].
    replace (Z.of_nat (n + 0)) with (0 + Z.of_nat n) by lia. destruct (decide _); [|done]. cbn [omap list_omap fmap list_fmap]. rewrite Z.add_0_l, Nat2Z.id, Hw. done. }
  specialize (Hn (length vdrs) ltac:(lia)). rewrite firstn_all in Hn. rewrite Hn. f_equal.
  replace (Z.of_nat (length vdrs)) with (BitLen b + (Z.of_nat (length vdrs) - BitLen b)) by lia. rewrite seqZ_app, filter_app by lia.
  rewrite Z.add_0_l. set (r := filter _ (seqZ (BitLen b) _)). assert (r = []) as ->; [|by rewrite app_nil_r].
  apply elem_of_nil_inv. intros i [Ht Hi]%list_elem_of_filter. apply elem_of_seqZ in Hi. rewrite above_BitLen in Ht by lia. done.
Qed.
Lemma FilterValidators_spec b vdrs : 0 <= b -> FilterValidators b vdrs =
  if Z.of_nat (length vdrs) <? BitLen b then Err ErrUnknownValidator else Ok (at_indices b vdrs).
Proof.
  intros Hb. unfold FilterValidators. destruct (Z.ltb_spec (Z.of_nat (length vdrs)) (BitLen b)); [done|]. pose proof (filter_loop b vdrs [] 0) as Hf.
  rewrite <- filter_indices by done. exact Hf.
Qed.
Lemma SumWeight_zsum vdrs : SumWeight vdrs = zsum Weight vdrs.
Proof.
  unfold SumWeight. assert (forall a, foldl (fun weight vdr => weight + Weight vdr) a vdrs = a + zsum Weight vdrs) as Hf; [|by rewrite Hf].
  induction vdrs as [|w vdrs IH]; intros a; cbn; [lia|]. rewrite IH. unfold zsum. lia.
Qed.

(** The nodes whose key is among some keys. *)
Definition signed_by (keys : list bytes) (vdr : GetValidatorOutput PK) : Prop := Exists (fun b => has_key b vdr) keys.
#[export] Instance signed_by_dec keys vdr : Decision (signed_by keys vdr).
Proof. unfold signed_by. apply _. Defined.

Lemma has_key_unique b b' (vdr : GetValidatorOutput PK) : has_key b vdr -> has_key b' vdr -> b = b'.
Proof. intros (pk & Hpk & <-) (pk' & Hpk' & <-). congruence. Qed.
Lemma signed_cons f b keys (l : list (GetValidatorOutput PK)) : b ∉ keys ->
  zsum f (filter (signed_by (b :: keys)) l) = zsum f (filter (has_key b) l) + zsum f (filter (signed_by keys) l).
Proof.
  intros Hb. induction l as [|x l IH]; [done|]. rewrite !filter_cons.
  assert (forall l' : list (GetValidatorOutput PK), zsum f (x :: l') = f x + zsum f l') as Hcons by done.
  destruct (decide (has_key b x)) as [Hk|Hk].
  - rewrite (decide_True (P := signed_by (b :: keys) x)) by by left. rewrite (decide_False (P := signed_by keys x)); [rewrite !Hcons, IH; lia|].
    intros (b' & Hb' & Hk')%Exists_exists. apply Hb. by rewrite (has_key_unique b b' x).
  - destruct (decide (signed_by keys x)) as [Hs|Hs].
    + rewrite (decide_True (P := signed_by (b :: keys) x)) by by right. rewrite !Hcons, IH. lia.
    + rewrite (decide_False (P := signed_by (b :: keys) x)); [done|]. intros Hx. inversion Hx; by subst.
Qed.

Context {HO : KeyOrder ID}.
(** Nodes that share a key weigh no more than 64 bits together. *)
Definition weights_fit (l : list (GetValidatorOutput PK)) : Prop := forall b, 0 <= zsum o_Weight (filter (has_key b) l) <= MaxUint64.

Lemma signers_weight l ws (sub : list (Warp PK)) : canonical l ws -> weights_fit l -> NoDup (PublicKeyBytes <$> sub) -> (forall w, w ∈ sub -> w ∈ Validators ws) ->
  zsum Weight sub = zsum o_Weight (filter (signed_by (PublicKeyBytes <$> sub)) l).
Proof.
  intros Hc Hf. induction sub as [|w sub IH]; cbn [fmap list_fmap]; intros Hd Hsub.
  - rewrite (zsum_zero o_Weight (filter _ l)); [done|]. intros x [Hx _]%list_elem_of_filter. by inversion Hx.
  - apply NoDup_cons in Hd as [Hni Hd]. rewrite signed_cons by done. cbn. fold (zsum Weight sub). rewrite IH by (done || intros; apply Hsub; by right). f_equal.
    destruct (cn_group _ _ Hc w ltac:(apply Hsub; by left)) as (_ & _ & _ & _ & ->). by apply wrap64_small.
Qed.
Lemma blt_nodup l : StronglySorted blt l -> NoDup l.
Proof. induction 1 as [|x l _ IH Hx]; constructor; [|done]. intros Hin. rewrite Forall_forall in Hx. by apply (blt_irrefl x), Hx. Qed.
Lemma at_indices_nodup b (vdrs : list (Warp PK)) : 0 <= b -> NoDup (PublicKeyBytes <$> vdrs) -> NoDup (PublicKeyBytes <$> at_indices b vdrs).
Proof.
  intros Hb Hv. unfold at_indices. pose proof (members_nodup b) as Hm. assert (forall i, i ∈ members b -> 0 <= i) as Hpos by (intros i [? _]%elem_of_members; done).
  revert Hm Hpos. generalize (members b). intros l. induction l as [|i l IH]; intros Hm Hpos; [constructor|]. apply NoDup_cons in Hm as [Hni Hm].
  specialize (IH Hm ltac:(intros; apply Hpos; by right)). cbn. destruct (vdrs !! Z.to_nat i) as [w|] eqn:Hw; [|done]. cbn. constructor; [|done].
  intros (w' & Heq & Hin)%list_elem_of_fmap. apply list_elem_of_omap in Hin as (j & Hj & Hw').
  assert (Z.to_nat i = Z.to_nat j) as Hij by (eapply (NoDup_lookup _ _ _ (PublicKeyBytes w) Hv); rewrite list_lookup_fmap, ?Hw, ?Hw'; cbn; congruence).
  pose proof (Hpos i ltac:(by left)). pose proof (Hpos j ltac:(by right)). assert (i = j) as -> by lia. done.
Qed.

(** C22: A warp message is accepted exactly when it is of the network, the signers are
    encoded as the shortest bytes of a set of positions in the canonical validator
    set, the nodes whose keys are at those positions weigh at least
    [quorumNum]/[quorumDen] of all validators, and the signature is one of the message
    by the aggregate of those keys, of which there is at least one; the number of
    signers is then that of the positions. *)
Theorem Verify_exact (s : BitSetSignature) (msg : UnsignedMessage) (networkID num den : Z) (vdrSet : gmap ID (GetValidatorOutput PK)) :
  Forall BigEndian.is_byte (Signers s) -> weights_fit (outputs vdrSet) ->
  let ws := FlattenValidatorSet vdrSet in
  Verify s msg networkID ws num den = Ok tt <-> NetworkID msg = networkID /\ exists b aggSig aggPubKey,
    let signers := at_indices b (Validators ws) in
    0 <= b /\ Signers s = Bytes b /\ BitLen b <= Z.of_nat (length (Validators ws)) /\ NumSigners s = Ok (Z.of_nat (length (members b))) /\
    zsum o_Weight (outputs vdrSet) * num <= zsum o_Weight (filter (signed_by (PublicKeyBytes <$> signers)) (outputs vdrSet)) * den /\
    signers <> [] /\ SignatureFromBytes (Signature s) = Some aggSig /\ aggregate (PublicKey <$> signers) = Some aggPubKey /\
    sig_verify aggPubKey aggSig (um_Bytes msg) = true.
Proof.
  intros Hbytes Hfit ws. pose proof (flatten_canonical vdrSet) as Hc. fold ws in Hc. set (l := outputs vdrSet) in *.
  assert (NoDup (PublicKeyBytes <$> Validators ws)) as Hnd by apply blt_nodup, Hc.
  assert (forall b, 0 <= b -> zsum Weight (at_indices b (Validators ws)) = zsum o_Weight (filter (signed_by (PublicKeyBytes <$> at_indices b (Validators ws))) l)) as Hsum.
  { intros b Hb. apply (signers_weight l ws); [done..|by apply at_indices_nodup|]. intros w (i & _ & Hi)%list_elem_of_omap. by eapply list_elem_of_lookup_2. }
  pose proof (BigEndian.be_value_bound _ Hbytes) as Hb0. set (b0 := BitsFromBytes (Signers s)) in *. change (0 <= b0 < 256 ^ Z.of_nat (length (Signers s))) in Hb0.
  assert (signerIndices s = if (length (Bytes b0) =? length (Signers s))%nat then Ok b0 else Err ErrInvalidBitSet) as Hidx by (unfold signerIndices; fold b0; by destruct (_ =? _)%nat).
  unfold NumSigners, Verify. rewrite Hidx. destruct (Z.eqb_spec (NetworkID msg) networkID) as [Hnet|Hnet]; cbn [negb]; [|by split; [|intros [? _]]].
  destruct (Nat.eqb_spec (length (Bytes b0)) (length (Signers s))) as [Hlen|Hlen]; cbn [mbind result_bind].
  2: { split; [done|]. intros (_ & b & aggSig & pk & Hb & Heq & _). destruct Hlen. unfold b0. rewrite Heq, Bytes_back by done. done. }
  pose proof (Bytes_canonical _ Hbytes Hlen) as Hcan. fold b0 in Hcan. rewrite FilterValidators_spec by lia.
  assert (forall P : Bits -> Prop, (exists b, 0 <= b /\ Signers s = Bytes b /\ P b) <-> P b0) as Hb.
  { intros P. split; [|intros HP; exists b0; split_and!; [lia|done|done]]. intros (b & Hb & Heq & HP). assert (b0 = b) as ->; [|done]. unfold b0. rewrite Heq. by apply Bytes_back. }
  destruct (Z.ltb_spec (Z.of_nat (length (Validators ws))) (BitLen b0)) as [Hlong|Hlong]; cbn [mbind result_bind].
  { split; [done|]. intros (_ & b & aggSig & pk & Hrest). cbn zeta in Hrest. assert (BitLen b0 <= Z.of_nat (length (Validators ws))); [|lia]. apply (Hb (fun b => BitLen b <= _)). exists b. tauto. }
  rewrite SumWeight_zsum, Hsum, (cn_total _ _ Hc) by lia. rewrite Len_members by lia.
  set (signers := at_indices b0 (Validators ws)). set (signed := zsum o_Weight (filter _ l)). unfold VerifyWeight. cbn [default from_option id].
  unfold AggregatePublicKeys, bls_AggregatePublicKeys. rewrite length_fmap. split.
  - destruct (Z.ltb_spec (signed * den) (zsum o_Weight l * num)); cbn [mbind result_bind]; [done|]. destruct (SignatureFromBytes (Signature s)) as [aggSig|] eqn:Hsig; [|done].
    destruct (length signers =? 0)%nat eqn:Hz; [done|]. destruct (aggregate (PublicKey <$> signers)) as [pk|] eqn:Hagg; cbn [mbind result_bind]; [|done].
    destruct (sig_verify pk aggSig (um_Bytes msg)) eqn:Hver; [|done]. intros _. split; [done|]. exists b0, aggSig, pk. cbn zeta. fold signers signed.
    split_and!; try done; [lia|]. intros Hnil. by rewrite Hnil in Hz.
  - intros (_ & b & aggSig & pk & Hrest). cbn zeta in Hrest. assert (b = b0) as -> by (symmetry; apply (Hb (fun b' => b' = b)); exists b; tauto). fold signers signed in Hrest.
    destruct Hrest as (_ & _ & _ & _ & Hq & Hne & -> & -> & Hver). destruct (Z.ltb_spec (signed * den) (zsum o_Weight l * num)); [lia|]. cbn [mbind result_bind].
    destruct signers; [done|]. cbn. by rewrite Hver.
Qed.
End warp.

(** ** A message of two validators
    Keys and secret keys are numbers, an aggregate is a sum, and a signature holds the
    key and the message. *)
Section example.
#[local] Instance one_byte_keys : BLS Z := {|
  PublicKeyToUncompressedBytes pk := [pk];
  PublicKeyFromValidUncompressedBytes b := match b with [pk] => Some pk | _ => None end;
|}.
#[local] Instance open_signatures : Blst Z (list Z) Z := {|
  decompress b := Some b;
  sig_validate _ := true;
  compress sig := sig;
  aggregate pks := Some (zsum id pks);
  sig_verify pk sig msg := bool_decide (sig = pk :: msg);
  sk_sign sk msg := Some (sk :: msg);
|}.
#[local] Existing Instance elements_order.
Definition two_validators : gmap ID (GetValidatorOutput Z) := {[ [1] := mkOutput [1] (Some 9) 5; [2] := mkOutput [2] (Some 8) 7 ]}.
Definition demo_message : UnsignedMessage := mkUnsigned 1 [0] [42] [1; 42].
Lemma two_weights_fit : weights_fit (outputs two_validators).
Proof.
  intros b. assert (outputs two_validators = [mkOutput [1] (Some 9) 5; mkOutput [2] (Some 8) 7]) as -> by (vm_compute; reflexivity).
  rewrite !filter_cons, filter_nil. unfold MaxUint64. repeat case_decide; cbn; lia.
Qed.
Lemma Verify_exact_witness : let s := mkBitSet [3] [17; 1; 42] in
  Verify s demo_message 1 (FlattenValidatorSet two_validators) 67 100 = Ok tt /\ exists b, Signers s = Bytes b /\ NumSigners s = Ok (Z.of_nat (length (members b))).
Proof.
  cbn zeta. assert (Verify (mkBitSet [3] [17; 1; 42]) demo_message 1 (FlattenValidatorSet two_validators) 67 100 = Ok tt) as Hv by (vm_compute; reflexivity).
  split; [exact Hv|].
  pose proof (proj1 (Verify_exact (mkBitSet [3] [17; 1; 42]) demo_message 1 67 100 two_validators ltac:(by repeat constructor) two_weights_fit) Hv) as [_ (b & aggSig & pk & Hrest)].
  exists b. cbn zeta in Hrest. destruct Hrest as (_ & Hs & _ & Hn & _). split; [exact Hs|exact Hn].
Defined.
End example.
End WarpSignature.
