(* ===== verification/PlatformValidators.v ===== *)
(** * The validator sets of the P-chain by height
    Models [vms/platformvm/validators/manager.go]: the set of a subnet at a height is
    the current one taken back through the history, and is cached.  The queries do not
    change what they have returned, so a shallow copy of a cached map is the map.
    [GetStatelessBlock] gives the height of a block; metrics are left out. *)
From S2P Require Import Prelude Monads MapOrder Sorting OrderedMap LinkedList LinkedHashmap Lru Deque Window Validators Stakers L1Validators ChainState ValidatorHistory HistoryTheorems WarpSets Database DiffKeys.

Module PlatformValidators.
Import Deque Sorting Stakers L1Validators ChainState ValidatorHistory HistoryFacts HistoryReplay HistoryTheorems WarpSets Database DiffKeys.

Definition MaxRecentlyAcceptedWindowSize : Z := 64.
Definition MinRecentlyAcceptedWindowSize : Z := 0.
(** In seconds, as the readings of the clock. *)
Definition RecentlyAcceptedWindowTTL : Z := 30.
Definition validatorSetsCacheSize : Z := 64.

Inductive ManagerErr (E : Type) :=
  | errUnfinalizedHeight
  | EHistory (e : HistErr)
  | EValidators (e : Validators.VdrErr)
  | ECache (e : E)
  | EWindow (e : DequeErr).
Arguments errUnfinalizedHeight {E}.
Arguments EHistory {E}.
Arguments EValidators {E}.
Arguments ECache {E}.
Arguments EWindow {E}.

Section manager.
Context {PK TxID Listener Sampler : Type} `{EqDecision Listener, !BLS PK, !Validators.WeightedWithoutReplacement (Sampler := Sampler)}.
Context {HO : KeyOrder ID} `{Database D}.
Abbreviation Output := (GetValidatorOutput PK).
Abbreviation vdrSet := (gmap ID Output).
(** The ordered map of a cache, and a new one; the deque of the window. *)
Context {St E It : Type} `{!OrderedMap St E Z vdrSet It} (NewHashmap : St).
Context {Dq : Type} `{!Deque (Window.node (T := ID)) Dq} (NewUnboundedDeque : Z -> Dq) (clock : nat -> Z).
Abbreviation Cache := (Lru.Cache (St := St) (K := Z) (V := vdrSet)).
Abbreviation vdr_manager := (Validators.manager (NodeID := ID) (SubnetID := ID) (PublicKey := option PK) (TxID := TxID) (Listener := Listener) (Sampler := Sampler)).

(** What the manager reads of the configuration and of the chain. *)
Record Config := mkConfig { UseCurrentHeight : bool; TrackedSubnets : gset ID }.
Record Blocks := mkBlocks { GetLastAccepted : ID; GetStatelessBlock : ID -> result HistErr Z }.

Record manager := mkManager {
  m_Validators : vdr_manager;
  m_history : history D;
  caches : gmap ID Cache;
  recentlyAccepted : Window.window (D := Dq);
}.
Abbreviation PM := (M manager (ManagerErr E)).
Definition NewManager (vdrs : vdr_manager) (h : history D) : manager :=
  mkManager vdrs h ∅ (Window.New MaxRecentlyAcceptedWindowSize NewUnboundedDeque).

Definition on_vdrs {A} (m : M vdr_manager Validators.VdrErr A) : PM A :=
  zoom_err m_Validators (fun v pm => mkManager v (m_history pm) (caches pm) (recentlyAccepted pm)) EValidators m.
Definition on_window {A} (m : M (Window.window (D := Dq)) DequeErr A) : PM A :=
  zoom_err recentlyAccepted (fun w pm => mkManager (m_Validators pm) (m_history pm) (caches pm) w) EWindow m.
Definition new_cache : Cache := Lru.NewCacheWithOnEvict NewHashmap validatorSetsCacheSize.
Definition on_cache {A} (subnetID : ID) (m : M Cache E A) : PM A :=
  zoom_err (fun pm => default new_cache (caches pm !! subnetID))
    (fun c pm => mkManager (m_Validators pm) (m_history pm) (<[subnetID := c]> (caches pm)) (recentlyAccepted pm)) ECache m.
(** Steps on a validator set that nothing else refers to. *)
Definition on_set {S} (s : S) (m : M S HistErr unit) : PM S :=
  lift (match m s with (s, Ok _) => Ok s | (_, Err e) => Err (EHistory e) end).

(** ** Heights *)
Definition getCurrentHeight (b : Blocks) : PM Z :=
  lift (match GetStatelessBlock b (GetLastAccepted b) with Ok h => Ok h | Err e => Err (EHistory e) end).
Definition GetCurrentHeight : Blocks -> PM Z := getCurrentHeight.
Definition GetMinimumHeight (cfg : Config) (b : Blocks) : PM Z :=
  if UseCurrentHeight cfg then getCurrentHeight b
  else
    oldest ← on_window (Window.Oldest (clock := clock) RecentlyAcceptedWindowTTL MinRecentlyAcceptedWindowSize);
    match oldest with
    | None => getCurrentHeight b
    | Some oldest =>
        height ← lift (match GetStatelessBlock b oldest with Ok h => Ok h | Err e => Err (EHistory e) end);
        mret (wrap64 (height - 1))
    end.
Definition OnAcceptedBlockID (blkID : ID) : PM unit :=
  on_window (Window.Add (clock := clock) RecentlyAcceptedWindowTTL MaxRecentlyAcceptedWindowSize MinRecentlyAcceptedWindowSize blkID).

(** ** Sets *)
(** The outputs that [vdrSet.Map] builds. *)
Definition as_outputs (m : gmap ID (option PK * Z)) : vdrSet := map_imap (fun n x => Some (mkOutput n x.1 x.2)) m.
Definition getCurrentValidatorSet (b : Blocks) (subnetID : ID) : PM (vdrSet * Z) :=
  subnetMap ← on_vdrs (Validators.GetMap subnetID);
  currentHeight ← getCurrentHeight b;
  mret (as_outputs subnetMap, currentHeight).
Definition getAllCurrentValidatorSets (b : Blocks) : PM (gmap ID vdrSet * Z) :=
  subnetsMap ← on_vdrs Validators.GetAllMaps;
  currentHeight ← getCurrentHeight b;
  mret (as_outputs <$> subnetsMap, currentHeight).

(** [ctx] says in which step of a loop the context is done; [fuel] bounds the loops. *)
Definition makeValidatorSet (b : Blocks) (ctx : nat -> bool) (fuel : nat) (targetHeight : Z) (subnetID : ID) : PM (vdrSet * Z) :=
  p ← getCurrentValidatorSet b subnetID;
  let '(validatorSet, currentHeight) := p in
  if currentHeight <? targetHeight then fail errUnfinalizedHeight
  else
    let lastDiffHeight := wrap64 (targetHeight + 1) in
    pm ← get;
    validatorSet ← on_set validatorSet
      (ApplyValidatorWeightDiffs ctx fuel (validatorWeightDiffsBySubnetIDDB D (m_history pm)) currentHeight lastDiffHeight subnetID;;
       ApplyValidatorPublicKeyDiffs ctx fuel (validatorPublicKeyDiffsBySubnetIDDB D (m_history pm)) currentHeight lastDiffHeight subnetID);
    mret (validatorSet, currentHeight).
Definition makeAllValidatorSets (b : Blocks) (ctx : nat -> bool) (fuel : nat) (targetHeight : Z) : PM (gmap ID vdrSet) :=
  p ← getAllCurrentValidatorSets b;
  let '(allValidators, currentHeight) := p in
  if currentHeight <? targetHeight then fail errUnfinalizedHeight
  else
    let lastDiffHeight := wrap64 (targetHeight + 1) in
    pm ← get;
    on_set allValidators
      (ApplyAllValidatorWeightDiffs ctx fuel (validatorWeightDiffsByHeightDB D (m_history pm)) currentHeight lastDiffHeight;;
       ApplyAllValidatorPublicKeyDiffs ctx fuel (validatorPublicKeyDiffsByHeightDB D (m_history pm)) currentHeight lastDiffHeight).

(** Whether the subnet has a cache, which is made on demand; it has [cache.Empty] if
    it is not tracked. *)
Definition getValidatorSetCache (cfg : Config) (subnetID : ID) : PM bool :=
  if negb (bool_decide (subnetID = PrimaryNetworkID)) && negb (bool_decide (subnetID ∈ TrackedSubnets cfg)) then mret false
  else
    pm ← get;
    when (bool_decide (caches pm !! subnetID = None))
      (modify (fun pm => mkManager (m_Validators pm) (m_history pm) (<[subnetID := new_cache]> (caches pm)) (recentlyAccepted pm)));;
    mret true.

Definition GetValidatorSet (cfg : Config) (b : Blocks) (ctx : nat -> bool) (fuel : nat) (targetHeight : Z) (subnetID : ID) : PM vdrSet :=
  cached ← getValidatorSetCache cfg subnetID;
  validatorSet ← (if cached : bool then on_cache subnetID (Lru.Get targetHeight) else mret None);
  match validatorSet with
  | Some validatorSet => mret validatorSet
  | None =>
      p ← makeValidatorSet b ctx fuel targetHeight subnetID;
      when cached (on_cache subnetID (Lru.Put targetHeight p.1));;
      mret p.1
  end.

Definition GetWarpValidatorSet (cfg : Config) (b : Blocks) (ctx : nat -> bool) (fuel : nat) (targetHeight : Z) (subnetID : ID) : PM (WarpSet PK) :=
  vdrSet ← GetValidatorSet cfg b ctx fuel targetHeight subnetID;
  mret (FlattenValidatorSet vdrSet).
(** [FlattenValidatorSet] returns no error, so no subnet is left out. *)
Definition GetWarpValidatorSets (b : Blocks) (ctx : nat -> bool) (fuel : nat) (targetHeight : Z) : PM (gmap ID (WarpSet PK)) :=
  allValidators ← makeAllValidatorSets b ctx fuel targetHeight;
  mret (FlattenValidatorSet <$> allValidators).
End manager.
End PlatformValidators.
