(* ===== verification/PlatformValidatorsFacts.v ===== *)
(** * The validator sets of the P-chain are right at every height
    [GetValidatorSet] and its companions return the sets of the height that is asked
    for, whatever the caches hold, as long as the databases have recorded it. *)
From S2P Require Import Prelude Monads MapOrder Sorting OrderedMap LinkedList LinkedHashmap Lru Deque Window Validators Stakers L1Validators ChainState ValidatorHistory HistoryTheorems HistoryChanges Memdb WarpSets Database DiffKeys PlatformValidators.

Module PlatformValidatorsFacts.
Import Deque Sorting Stakers L1Validators ChainState ValidatorHistory HistoryFacts HistoryReplay HistoryTheorems HistoryWrite WarpSets Database DiffKeys PlatformValidators.

Section facts.
Context {PK TxID Listener Sampler : Type} `{EqDecision Listener, BLSLaws PK, !Validators.WeightedWithoutReplacement (Sampler := Sampler)}.
Context {HO : KeyOrder ID} `{DatabaseLaws D}.
Abbreviation vdrSet := (gmap ID (GetValidatorOutput PK)).
Context {St E It : Type} `{!OrderedMap St E Z vdrSet It, !OrderedMapLaws St E Z vdrSet It} (NewHashmap : St) (Hnew : om_rep NewHashmap []).
Context {Dq : Type} `{!Deque (Window.node (T := ID)) Dq}.
Abbreviation manager := (manager (PK := PK) (TxID := TxID) (Listener := Listener) (Sampler := Sampler) (D := D) (St := St) (Dq := Dq)).
Variables (cfg : Config) (b : Blocks) (ctx : nat -> bool) (fuel : nat) (lo top : Z) (V : sets).

(** The manager knows the sets [V] of the heights from [lo] to the last one, [top]. *)
Record serves (pm : manager) : Prop := {
  sv_current : exists A, Validators.mrep (m_Validators pm) A /\ forall sub, shows_set V top sub (as_outputs (Validators.key_and_weight <$> A sub));
  sv_history : exists c, opened (m_history pm) c /\ records c lo top V /\ (contents_size c < fuel)%nat;
  sv_caches sub c : caches pm !! sub = Some c -> exists kvs, Lru.crep c kvs /\ forall h vdrs, (h, vdrs) ∈ kvs -> lo <= h <= top /\ shows_set V h sub vdrs;
}.
Definition tip : Prop := GetStatelessBlock b (GetLastAccepted b) = Ok top /\ 0 <= lo <= top /\ top < MaxUint64.

Definition gave_up (e : ManagerErr E) : Prop := exists e', e = EHistory e' /\ cancelled ctx e'.
Definition unfinalized (e : ManagerErr E) : Prop := e = errUnfinalizedHeight.

(** ** The current sets *)
Lemma wp_on_vdrs {A ok} (m : M _ Validators.VdrErr A) a (pm : manager) Q : m (m_Validators pm) = (m_Validators pm, Ok a) -> Q a pm -> wp ok (on_vdrs (E := E) m) Q pm.
Proof. intros Hm HQ. unfold on_vdrs. apply wp_zoom_err. unfold wp. rewrite Hm. by destruct pm. Qed.

Lemma lookup_as_outputs (m : gmap ID (option PK * Z)) n : as_outputs m !! n = (fun x => mkOutput n x.1 x.2) <$> m !! n.
Proof. unfold as_outputs. rewrite map_lookup_imap. by destruct (m !! n). Qed.

Lemma current_set sub (pm : manager) : serves pm -> tip ->
  wp never (getCurrentValidatorSet (E := E) b sub) (fun p pm' => pm' = pm /\ p.2 = top /\ shows_set V top sub p.1) pm.
Proof.
  intros Hs (Hb & _). destruct (sv_current _ Hs) as (A & Hr & Hv). unfold getCurrentValidatorSet. apply wp_bind. eapply wp_on_vdrs; [by apply Validators.GetMap_spec|].
  unfold getCurrentHeight. apply wp_bind, wp_lift. rewrite Hb. apply wp_ret. by split_and!.
Qed.
(** Only subnets that listeners have registered for may have an empty map. *)
Lemma current_sets (pm : manager) : serves pm -> tip ->
  wp never (getAllCurrentValidatorSets (E := E) b) (fun p pm' => pm' = pm /\ p.2 = top /\ shows_all V top p.1) pm.
Proof.
  intros Hs (Hb & _). destruct (sv_current _ Hs) as (A & Hr & Hv). unfold getAllCurrentValidatorSets. apply wp_bind.
  destruct (Validators.GetAllMaps_spec _ _ Hr) as (all & Hall & Hl). eapply wp_on_vdrs; [exact Hall|].
  unfold getCurrentHeight. apply wp_bind, wp_lift. rewrite Hb. apply wp_ret. split_and!; [done..|]. intros [sub n]. cbn.
  assert (look_all (as_outputs <$> all) (sub, n) = as_outputs (Validators.key_and_weight <$> A sub) !! n) as ->; [|apply (Hv sub n)].
  unfold look_all, lookup2. cbn. rewrite lookup_fmap, Hl. case_decide as Hd; [done|]. cbn.
  assert (A sub = ∅) as -> by by apply (Validators.mr_none _ _ Hr), eq_None_not_Some. by rewrite fmap_empty, lookup_as_outputs, lookup_empty.
Qed.

(** ** Going back *)
Lemma wp_on_set {S} (s : S) (m : M S HistErr unit) Q (pm : manager) : wp (cancelled ctx) m (fun _ s' => Q s' pm) s -> wp gave_up (on_set s m) Q pm.
Proof.
  unfold on_set, wp, lift. destruct (m s) as [s' [[]|e]]; [done|]. intros He. by exists e.
Qed.

Lemma make_set target sub (pm : manager) : serves pm -> tip -> wf_sets V -> is_id sub -> lo <= target <= top ->
  wp gave_up (makeValidatorSet b ctx fuel target sub) (fun p pm' => pm' = pm /\ p.2 = top /\ shows_set V target sub p.1) pm.
Proof.
  intros Hs Ht Hwf Hsub Htar. unfold makeValidatorSet. apply wp_bind, wp_never. eapply wp_mono; [by apply current_set|]. cbn beta. intros [vdrs h] pm' (-> & Hh & Hv). cbn in Hh, Hv. subst h.
  destruct (Z.ltb_spec top target); [lia|]. destruct Ht as (_ & Hlo & Hmax). rewrite wrap64_small by lia. apply wp_bind, wp_get, wp_bind, wp_on_set.
  destruct (sv_history _ Hs) as (c & Ho & Hr & Hf).
  eapply wp_mono; [apply (recover_subnet ctx (m_history pm) c lo top top (target + 1) V fuel); try done; [lia|lia|apply is_u64_max; lia|lia]|].
  cbn beta. intros [] vdrs' Hv'. apply wp_ret. split_and!; [done..|]. cbn. by replace (target + 1 - 1) with target in Hv' by lia.
Qed.
Lemma make_all target (pm : manager) : serves pm -> tip -> wf_sets V -> lo <= target <= top ->
  wp gave_up (makeAllValidatorSets b ctx fuel target) (fun all pm' => pm' = pm /\ shows_all V target all) pm.
Proof.
  intros Hs Ht Hwf Htar. unfold makeAllValidatorSets. apply wp_bind, wp_never. eapply wp_mono; [by apply current_sets|]. cbn beta. intros [all h] pm' (-> & Hh & Hv). cbn in Hh, Hv. subst h.
  destruct (Z.ltb_spec top target); [lia|]. destruct Ht as (_ & Hlo & Hmax). rewrite wrap64_small by lia. apply wp_bind, wp_get, wp_on_set.
  destruct (sv_history _ Hs) as (c & Ho & Hr & Hf).
  eapply wp_mono; [apply (recover_all ctx (m_history pm) c lo top top (target + 1) V fuel) with (X := fun _ => True); try done; [lia|lia|apply is_u64_max; lia|lia]|].
  cbn beta. intros [] all' [_ Hv']. split; [done|]. by replace (target + 1 - 1) with target in Hv' by lia.
Qed.

(** ** The caches *)
Definition holds_sets (sub : ID) (c : Lru.Cache (St := St) (K := Z) (V := vdrSet)) : Prop :=
  exists kvs, Lru.crep c kvs /\ forall h vdrs, (h, vdrs) ∈ kvs -> lo <= h <= top /\ shows_set V h sub vdrs.

Lemma with_cache (pm : manager) sub c : serves pm -> holds_sets sub c ->
  serves (mkManager (m_Validators pm) (m_history pm) (<[sub := c]> (caches pm)) (recentlyAccepted pm)).
Proof.
  intros [Hc Hh Hk] Hs. split; cbn; [done..|]. intros sub' c'. destruct (decide (sub' = sub)) as [->|Hne]; [rewrite lookup_insert_eq; by intros [= <-]|rewrite lookup_insert_ne by done; apply Hk].
Qed.
Lemma new_cache_holds sub : holds_sets sub (new_cache NewHashmap).
Proof. exists []. split; [by split|]. by intros h vdrs ?%elem_of_nil. Qed.
Lemma kput_entries (k : Z) (v : vdrSet) (kvs : list (Z * vdrSet)) (x : Z * vdrSet) : x ∈ kput k v kvs -> x = (k, v) \/ x ∈ kvs.
Proof. unfold kput, kdel. intros [[_ Hx]%list_elem_of_filter| ->%list_elem_of_singleton]%elem_of_app; tauto. Qed.

Lemma cache_get (pm : manager) (target : Z) (sub : ID) c : serves pm -> caches pm !! sub = Some c ->
  wp never (on_cache NewHashmap sub (Lru.Get target)) (fun o pm' => serves pm' /\ is_Some (caches pm' !! sub) /\
    match o with Some vdrs => lo <= target <= top /\ shows_set V target sub vdrs | None => True end) pm.
Proof.
  intros Hs Hc. destruct (sv_caches _ Hs sub c Hc) as (kvs & Hr & Hk). unfold on_cache. apply wp_zoom_err. rewrite Hc. cbn [default from_option id].
  pose proof (om_nodup _ _ (proj1 Hr)) as Hnd. apply (Lru.wp_Get _ _ kvs); [done|]. intros c' Hr' _ _.
  assert (forall h vdrs, (h, vdrs) ∈ (match kget target kvs with Some v => kput target v kvs | None => kvs end) -> lo <= h <= top /\ shows_set V h sub vdrs) as Hk'.
  { intros h vdrs. destruct (kget target kvs) as [v|] eqn:Hg; [|apply Hk]. intros [[= -> ->]|Hin]%kput_entries; [|by apply Hk].
    apply Hk. apply (kget_Some _ _ _ Hnd) in Hg as (k1 & k2 & ->). apply elem_of_app. right. by left. }
  split_and!; [apply with_cache; [done|by exists (match kget target kvs with Some v => kput target v kvs | None => kvs end)]|cbn; by rewrite lookup_insert_eq|].
  destruct (kget target kvs) as [v|] eqn:Hg; [|done]. apply Hk. apply (kget_Some _ _ _ Hnd) in Hg as (k1 & k2 & ->). apply elem_of_app. right. by left.
Qed.
Lemma cache_put (pm : manager) (target : Z) (sub : ID) (vdrs : vdrSet) : serves pm -> is_Some (caches pm !! sub) -> lo <= target <= top -> shows_set V target sub vdrs ->
  wp never (on_cache NewHashmap sub (Lru.Put target vdrs)) (fun _ pm' => serves pm') pm.
Proof.
  intros Hs [c Hc] Ht Hv. destruct (sv_caches _ Hs sub c Hc) as (kvs & Hr & Hk). unfold on_cache. apply wp_zoom_err. rewrite Hc. cbn [default from_option id].
  apply (Lru.wp_Put _ _ _ kvs); [done|]. intros c' Hr' _ _. apply with_cache; [done|]. eexists. split; [exact Hr'|].
  intros h vdrs' [[= -> ->]|Hin]%kput_entries; [done|]. apply Hk. unfold Lru.room in Hin. destruct (_ =? _); [|done]. destruct kvs; [done|by right].
Qed.

Lemma get_cache (pm : manager) sub : serves pm ->
  wp never (getValidatorSetCache (E := E) NewHashmap cfg sub) (fun cached pm' => serves pm' /\ (cached = true -> is_Some (caches pm' !! sub))) pm.
Proof.
  intros Hs. unfold getValidatorSetCache. destruct (_ && _); [apply wp_ret; by split|]. apply wp_bind, wp_get, wp_bind, wp_when; intros Hn.
  - apply wp_modify, wp_ret. split; [apply with_cache; [done|apply new_cache_holds]|]. cbn. by rewrite lookup_insert_eq.
  - apply wp_ret. split; [done|]. intros _. apply bool_decide_eq_false in Hn. by apply not_eq_None_Some.
Qed.

(** C20: The validator sets of the P-chain, at any recorded height up to the last accepted
    one: [GetValidatorSet] returns exactly the nodes that validated the subnet at that
    height, with their weights and public keys, whether it finds the set in its cache
    or takes the current set back through the history, and leaves caches that are
    right; [GetWarpValidatorSets] does so for all subnets; a height that is not yet
    accepted is refused; there is no other error but that the caller has given up. *)
Theorem past_validator_sets_exact (target : Z) (sub : ID) (pm : manager) : serves pm -> tip -> wf_sets V -> is_id sub -> lo <= target ->
  (target <= top ->
    wp gave_up (GetValidatorSet NewHashmap cfg b ctx fuel target sub) (fun vdrs pm' => shows_set V target sub vdrs /\ serves pm') pm /\
    wp gave_up (GetWarpValidatorSets b ctx fuel target) (fun warp pm' => pm' = pm /\ exists all, shows_all V target all /\ warp = FlattenValidatorSet <$> all) pm) /\
  (top < target ->
    wp unfinalized (GetValidatorSet NewHashmap cfg b ctx fuel target sub) (fun _ _ => False) pm /\
    wp unfinalized (GetWarpValidatorSets b ctx fuel target) (fun _ _ => False) pm).
Proof.
  intros Hs Ht Hwf Hsub Hlo. split.
  - intros Htop. split.
    + unfold GetValidatorSet. apply wp_bind, wp_never. eapply wp_mono; [by apply get_cache|]. cbn beta. intros cached pm1 [Hs1 Hc1].
      apply wp_bind. apply (wp_mono _ _ (fun o pm' => serves pm' /\ (cached = true -> is_Some (caches pm' !! sub)) /\
        match o with Some vdrs => shows_set V target sub vdrs | None => True end)).
      * destruct cached; [|apply wp_ret; by split_and!]. destruct (Hc1 eq_refl) as [c Hc]. apply wp_never. eapply wp_mono; [by apply (cache_get pm1 target sub c)|].
        cbn beta. intros o pm2 (Hs2 & Hc2 & Ho). split_and!; [done..|]. by destruct o; [destruct Ho|].
      * intros [vdrs|] pm2 (Hs2 & Hc2 & Ho); [by apply wp_ret|]. apply wp_bind. eapply wp_mono; [by apply (make_set target sub pm2)|].
        cbn beta. intros [vdrs h] pm3 (-> & _ & Hv). cbn [fst] in *. apply wp_bind, wp_when; intros Hcached.
        -- apply wp_never. eapply wp_mono; [apply (cache_put pm2 target sub vdrs); [done|by apply Hc2|lia|done]|]. cbn beta. intros [] pm3 Hs3. by apply wp_ret.
        -- by apply wp_ret.
    + unfold GetWarpValidatorSets. apply wp_bind. eapply wp_mono; [by apply make_all|]. cbn beta. intros all pm' [-> Hv]. apply wp_ret. split; [done|]. by exists all.
  - intros Htop. split.
    + unfold GetValidatorSet. apply wp_bind, wp_never. eapply wp_mono; [by apply get_cache|]. cbn beta. intros cached pm1 [Hs1 Hc1].
      apply wp_bind. apply (wp_mono _ _ (fun o pm' => o = None /\ serves pm')).
      * destruct cached; [|by apply wp_ret]. destruct (Hc1 eq_refl) as [c Hc]. apply wp_never. eapply wp_mono; [by apply (cache_get pm1 target sub c)|].
        cbn beta. intros o pm2 (Hs2 & _ & Ho). split; [|done]. destruct o; [|done]. lia.
      * intros o pm2 [-> Hs2]. apply wp_bind. unfold makeValidatorSet. apply wp_bind, wp_never. eapply wp_mono; [by apply current_set|].
        cbn beta. intros [vdrs h] pm' (-> & Hh & _). cbn in Hh. subst h. destruct (Z.ltb_spec top target); [|lia]. by apply wp_fail.
    + unfold GetWarpValidatorSets. apply wp_bind. unfold makeAllValidatorSets. apply wp_bind, wp_never. eapply wp_mono; [by apply current_sets|].
      cbn beta. intros [vdrs h] pm' (-> & Hh & _). cbn in Hh. subst h. destruct (Z.ltb_spec top target); [|lia]. by apply wp_fail.
Qed.
End facts.

(** ** One validator that has left
    A node of weight 5 validates the primary network up to height 0 and leaves in the
    block of height 1; the databases are in memory. *)
Section example.
#[local] Instance one_byte_keys : BLS Z := {|
  PublicKeyToUncompressedBytes pk := [pk];
  PublicKeyFromValidUncompressedBytes b := match b with [pk] => Some pk | _ => None end;
|}.
#[local] Instance one_byte_keys_laws : BLSLaws Z.
Proof. by split. Qed.
#[local] Instance height_range : LinkedHashmap.Range (K := Z) := LinkedHashmap.key_range.
#[local] Existing Instances elements_order Memdb.memdb_database Memdb.memdb_laws LinkedHashmap.hashmap_ordered LinkedHashmap.hashmap_laws Validators.first_sampler.

Definition gone : ID * ID := (PrimaryNetworkID, EmptyNodeID).
Definition gone_sets : sets := fun h i => if bool_decide (h <= 0 /\ i = gone) then mkEntry 5 [9] else mkEntry 0 [].
Definition gone_weight : bytes := marshalWeightDiff (weight_change 5 0).
Definition gone_contents : contents := mkContents {[ subnet_key 1 gone := gone_weight ]} {[ height_key 1 gone := gone_weight ]}
  {[ subnet_key 1 gone := [9] ]} {[ height_key 1 gone := [9] ]}.
Definition gone_db (m : gmap bytes bytes) : Memdb.Memdb := Memdb.mkMemdb (Some m).
Definition gone_history : history Memdb.Memdb := mkHistory Memdb.Memdb (gone_db (c_ws gone_contents)) (gone_db (c_wh gone_contents)) (gone_db (c_ks gone_contents)) (gone_db (c_kh gone_contents)).
Abbreviation Sets := (LinkedHashmap.HS (K := Z) (V := gmap ID (GetValidatorOutput Z))).
Definition no_sets : Sets := LinkedHashmap.new_state 0.
Lemma no_sets_rep : om_rep no_sets [].
Proof. exists []. split; [apply LinkedHashmap.new_state_rep|done]. Qed.
Definition gone_manager := NewManager (PK := Z) (TxID := Z) (Listener := Z) (Sampler := list Z) (St := Sets)
  (Deque.NewUnboundedDeque (Window.mkNode EmptyNodeID 0)) Validators.NewManager gone_history.
Definition gone_blocks : Blocks := mkBlocks [1] (fun _ => Ok 1).

Lemma gone_index : is_index gone.
Proof. apply (bool_decide_unpack _). vm_compute. exact I. Qed.
Lemma gone_sets_wf : wf_sets gone_sets.
Proof.
  intros h i. unfold gone_sets. case_bool_decide as Hd; cbn; [|split; [split; [by apply is_u64_max|done]|done]].
  split; [split; [by apply is_u64_max|done]|]. destruct Hd as [_ ->]. intros Hn. destruct (Hn gone_index).
Qed.
Lemma single_index key F v : key_inj key -> F 1 gone = Some v -> (forall i, i <> gone -> F 1 i = None) -> index_db key 0 1 F {[ key 1 gone := v ]}.
Proof.
  intros Hinj Hg Hn. split.
  - intros k [v' [<- _]%lookup_singleton_Some]. exists 1, gone. split; [done|]. split; [by apply is_u64_max|]. split; [lia|apply gone_index].
  - intros x i Hx Hu Hi. replace x with 1 by lia. destruct (decide (i = gone)) as [->|Hne]; [by rewrite lookup_singleton_eq|].
    rewrite Hn by done. apply lookup_singleton_ne. intros Hk. apply Hinj in Hk as [_ Hk]; [by destruct Hne|apply gone_index|done|by apply is_u64_max|by apply is_u64_max].
Qed.
Lemma gone_at h : h <= 0 -> gone_sets h gone = mkEntry 5 [9].
Proof. intros Hh. unfold gone_sets. by rewrite bool_decide_true. Qed.
Lemma others_absent h i : 0 < h \/ i <> gone -> gone_sets h i = mkEntry 0 [].
Proof. intros Hd. unfold gone_sets. rewrite bool_decide_false; [done|]. intros [? ?]. destruct Hd; [lia|done]. Qed.
Lemma gone_serves : serves 10 0 1 gone_sets gone_manager.
Proof.
  split.
  - exists (fun _ => ∅). split; [apply Validators.NewManager_rep|]. intros sub n. unfold shows_entry. rewrite others_absent by (left; lia). cbn [e_weight Z.eqb].
    by rewrite fmap_empty, lookup_as_outputs, lookup_empty.
  - exists gone_contents. split_and!; [by split| |by vm_compute; lia].
    assert (forall i, i <> gone -> weights_of gone_sets 1 i = None) as Hw by (intros i Hi; unfold weights_of; by rewrite !others_absent by by right).
    assert (forall i, i <> gone -> keys_of gone_sets 1 i = None) as Hk by (intros i Hi; unfold keys_of; by rewrite !others_absent by by right).
    split; apply single_index; try done; first [apply subnet_key_inj|apply height_key_inj].
  - cbn. intros sub c Hc. by rewrite lookup_empty in Hc.
Qed.

Lemma past_validator_sets_exact_witness :
  match GetValidatorSet no_sets (mkConfig false ∅) gone_blocks (fun _ => false) 10 0 PrimaryNetworkID gone_manager with
  | (_, Ok vdrs) => vdrs !! EmptyNodeID = Some (mkOutput EmptyNodeID (Some 9) 5)
  | (_, Err _) => False
  end.
Proof.
  destruct (past_validator_sets_exact no_sets no_sets_rep (mkConfig false ∅) gone_blocks (fun _ => false) 10 0 1 gone_sets 0 PrimaryNetworkID gone_manager
    gone_serves ltac:(split; [reflexivity|unfold MaxUint64; lia]) gone_sets_wf (proj1 gone_index) ltac:(lia)) as [Hpast _].
  destruct (Hpast ltac:(lia)) as [Hset _]. unfold wp in Hset.
  destruct (GetValidatorSet _ _ _ _ _ _ _ _) as [pm' [vdrs|e]].
  - destruct Hset as [Hset _]. specialize (Hset EmptyNodeID). unfold shows_entry in Hset. change (PrimaryNetworkID, EmptyNodeID) with gone in Hset.
    rewrite gone_at in Hset by lia. exact Hset.
  - destruct Hset as (e' & _ & _ & i & Hi). discriminate Hi.
Defined.
End example.
End PlatformValidatorsFacts.
