(* ===== verification/Interval.v ===== *)
(** * The interval tree of the bootstrapper
    Models [avalanchego/snow/engine/snowman/bootstrap/interval]: [interval.go],
    [state.go], [tree.go] and [blocks.go].

    A [Tree] keeps a set of heights as a B-tree of pointers to [Interval]s, which
    its methods change in place, and mirrors the intervals in a database.  The store
    of intervals is explicit, and the comparison of the B-tree reads it. *)
From Stdlib Require Import Sorting.Sorted.
From S2P Require Import Prelude Monads Sorting GoLibrary MapOrder Database BTree.

Module Interval.
Import Sorting Database BTree.

Record Interval := mkInterval { LowerBound : Z; UpperBound : Z }.
#[export] Instance Interval_eq_dec : EqDecision Interval.
Proof. solve_decision. Defined.
Abbreviation ref := positive.
Abbreviation store := (gmap ref Interval).

(** [Less] on pointers into the store [h]. *)
Definition Less (h : store) (i other : ref) : bool :=
  match h !! i, h !! other with
  | Some i, Some other => UpperBound i <? UpperBound other
  | _, _ => false
  end.

(** A pointer that may be nil, and the interval it points to. *)
Definition deref (h : store) (i : option ref) : option Interval := i ≫= fun i => h !! i.

Definition Contains (i : option Interval) (height : Z) : bool :=
  match i with
  | None => false
  | Some i => (LowerBound i <=? height) && (height <=? UpperBound i)
  end.
Definition AdjacentToLowerBound (i : option Interval) (height : Z) : bool :=
  match i with
  | None => false
  | Some i => (height <? MaxUint64) && (wrap64 (height + 1) =? LowerBound i)
  end.
Definition AdjacentToUpperBound (i : option Interval) (height : Z) : bool :=
  match i with
  | None => false
  | Some i => (UpperBound i <? MaxUint64) && (wrap64 (UpperBound i + 1) =? height)
  end.

(** ** state.go *)
Definition intervalPrefix : bytes := [0].
Definition blockPrefix : bytes := [1].
Definition prefixLen : nat := 1.

Definition makeIntervalKey (upperBound : Z) : bytes := intervalPrefix ++ PackUInt64 upperBound.
Definition makeBlockKey (height : Z) : bytes := blockPrefix ++ PackUInt64 height.

(** [errInvalidKeyLength] *)
Inductive TreeErr :=
  | ErrDb (e : DbErr)
  | errInvalidKeyLength
  | OutOfFuel
  | NilPointer.
Definition of_db {A} (r : result DbErr A) : result TreeErr A :=
  match r with Ok a => Ok a | Err e => Err (ErrDb e) end.

(** [database.KeyValueWriterDeleter]: a database or a batch. *)
Class KeyValueWriterDeleter (W : Type) := {
  w_Put : bytes -> bytes -> M W DbErr unit;
  w_Delete : bytes -> M W DbErr unit;
}.

Section iteratee.
Context `{Database D}.

(** [GetIntervals]: the loop over the iterator. *)
Fixpoint get_intervals (fuel : nat) (d : D) (it : Iterator D) (intervals : list Interval) : result TreeErr (list Interval) :=
  match fuel with
  | O => Err OutOfFuel
  | S fuel =>
      let '(it, more) := Next d it in
      if more then
        let dbKey := Key it in
        if (length dbKey <? prefixLen)%nat then Err errInvalidKeyLength
        else
          let intervalKey := drop prefixLen dbKey in
          upperBound ← of_db (ParseUInt64 intervalKey);
          lowerBound ← of_db (ParseUInt64 (Value it));
          get_intervals fuel d it (intervals ++ [mkInterval lowerBound upperBound])
      else match Error it with Some e => Err (ErrDb e) | None => Ok intervals end
  end.
Definition GetIntervals (fuel : nat) (d : D) : result TreeErr (list Interval) :=
  get_intervals fuel d (NewIteratorWithPrefix intervalPrefix d) [].

Definition GetBlockIterator (d : D) : Iterator D := NewIteratorWithPrefix blockPrefix d.
Definition GetBlockIteratorWithStart (d : D) (height : Z) : Iterator D :=
  NewIteratorWithStartAndPrefix (makeBlockKey height) blockPrefix d.
Definition GetBlock (d : D) (height : Z) : result DbErr bytes := Get (makeBlockKey height) d.

#[export] Instance database_writer : KeyValueWriterDeleter D := {| w_Put := Put; w_Delete := Delete |}.
End iteratee.

(** A batch is a writer. *)
Definition batch_writer D `{Database D} : KeyValueWriterDeleter (Batch D) := {| w_Put := b_Put; w_Delete := b_Delete |}.

Section writer.
Context `{KeyValueWriterDeleter W}.
Definition PutInterval (upperBound lowerBound : Z) : M W DbErr unit :=
  w_Put (makeIntervalKey upperBound) (PackUInt64 lowerBound).
Definition DeleteInterval (upperBound : Z) : M W DbErr unit := w_Delete (makeIntervalKey upperBound).
Definition PutBlock (height : Z) (blk : bytes) : M W DbErr unit := w_Put (makeBlockKey height) blk.
Definition DeleteBlock (height : Z) : M W DbErr unit := w_Delete (makeBlockKey height).
End writer.

(** ** tree.go *)
Section tree.
Context `{BTree ref}.

Record Tree := mkTree { heap : store; knownHeights : BTreeG ref; numKnownHeights : Z }.

Definition set_heap (h : store) (t : Tree) : Tree := mkTree h (knownHeights t) (numKnownHeights t).
Definition set_known (k : BTreeG ref) (t : Tree) : Tree := mkTree (heap t) k (numKnownHeights t).
Definition set_num (n : Z) (t : Tree) : Tree := mkTree (heap t) (knownHeights t) n.

(** [&Interval{...}] *)
Definition alloc (i : Interval) (t : Tree) : ref * Tree :=
  let r := fresh (dom (heap t)) in (r, set_heap (<[r := i]> (heap t)) t).

(** The tree and the database that the methods change. *)
Section ops.
Context `{KeyValueWriterDeleter W}.

Definition on_db {A} (m : M W DbErr A) : M (Tree * W) TreeErr A := fun s =>
  let '(w, r) := m s.2 in ((s.1, w), of_db r).
Definition on_tree (f : Tree -> Tree) : M (Tree * W) TreeErr unit := modify (fun s => (f s.1, s.2)).
Definition new_interval (i : Interval) : M (Tree * W) TreeErr ref := fun s =>
  let '(r, t) := alloc i s.1 in ((t, s.2), Ok r).
(** The fields of a pointer; [i.LowerBound = x] and [i.UpperBound = x] *)
Definition fields (i : ref) : M (Tree * W) TreeErr Interval :=
  s ← get; must NilPointer (heap s.1 !! i).
Definition set_lower (i : ref) (x : Z) : M (Tree * W) TreeErr unit :=
  on_tree (fun t => set_heap (alter (fun v => mkInterval x (UpperBound v)) i (heap t)) t).
Definition set_upper (i : ref) (x : Z) : M (Tree * W) TreeErr unit :=
  on_tree (fun t => set_heap (alter (fun v => mkInterval (LowerBound v) x) i (heap t)) t).
Definition insert_item (i : ref) : M (Tree * W) TreeErr unit :=
  on_tree (fun t => set_known (ReplaceOrInsert (Less (heap t)) i (knownHeights t)) t).
Definition delete_item (i : ref) : M (Tree * W) TreeErr unit :=
  on_tree (fun t => set_known (DeleteItem (Less (heap t)) i (knownHeights t)) t).
(** The items at which [AscendGreaterOrEqual] and [DescendLessOrEqual] stop. *)
Definition first_from (i : ref) : M (Tree * W) TreeErr (option ref) :=
  s ← get; mret (head (AscendGreaterOrEqual (Less (heap s.1)) i (knownHeights s.1))).
Definition last_upto (i : ref) : M (Tree * W) TreeErr (option ref) :=
  s ← get; mret (head (DescendLessOrEqual (Less (heap s.1)) i (knownHeights s.1))).

Definition Add (height : Z) : M (Tree * W) TreeErr unit :=
  newInterval ← new_interval (mkInterval height height);
  upper ← first_from newInterval;
  s ← get;
  if Contains (deref (heap s.1) upper) height then mret tt
  else
    lower ← last_upto newInterval;
    on_tree (fun t => set_num (wrap64 (numKnownHeights t + 1)) t);;
    s ← get;
    let adjacentToLowerBound := AdjacentToLowerBound (deref (heap s.1) upper) height in
    let adjacentToUpperBound := AdjacentToUpperBound (deref (heap s.1) lower) height in
    if adjacentToLowerBound && adjacentToUpperBound then
      lower ← must NilPointer lower;
      upper ← must NilPointer upper;
      l ← fields lower;
      on_db (DeleteInterval (UpperBound l));;
      set_lower upper (LowerBound l);;
      delete_item lower;;
      u ← fields upper;
      l ← fields lower;
      on_db (PutInterval (UpperBound u) (LowerBound l))
    else if adjacentToLowerBound then
      upper ← must NilPointer upper;
      set_lower upper height;;
      u ← fields upper;
      on_db (PutInterval (UpperBound u) height)
    else if adjacentToUpperBound then
      lower ← must NilPointer lower;
      l ← fields lower;
      on_db (DeleteInterval (UpperBound l));;
      set_upper lower height;;
      l ← fields lower;
      on_db (PutInterval height (LowerBound l))
    else
      insert_item newInterval;;
      on_db (PutInterval height height).

Definition Remove (height : Z) : M (Tree * W) TreeErr unit :=
  newInterval ← new_interval (mkInterval height height);
  higher ← first_from newInterval;
  s ← get;
  if negb (Contains (deref (heap s.1) higher) height) then mret tt
  else
    on_tree (fun t => set_num (wrap64 (numKnownHeights t - 1)) t);;
    higher ← must NilPointer higher;
    h ← fields higher;
    if LowerBound h =? UpperBound h then
      delete_item higher;;
      on_db (DeleteInterval (UpperBound h))
    else if LowerBound h =? height then
      set_lower higher (wrap64 (LowerBound h + 1));;
      h ← fields higher;
      on_db (PutInterval (UpperBound h) (LowerBound h))
    else if UpperBound h =? height then
      on_db (DeleteInterval (UpperBound h));;
      set_upper higher (wrap64 (UpperBound h - 1));;
      h ← fields higher;
      on_db (PutInterval (UpperBound h) (LowerBound h))
    else
      set_lower newInterval (LowerBound h);;
      set_upper newInterval (wrap64 (height - 1));;
      insert_item newInterval;;
      n ← fields newInterval;
      on_db (PutInterval (UpperBound n) (LowerBound n));;
      set_lower higher (wrap64 (height + 1));;
      h ← fields higher;
      on_db (PutInterval (UpperBound h) (LowerBound h)).
End ops.

Definition tree_Contains (height : Z) (t : Tree) : bool :=
  let '(i, t) := alloc (mkInterval height height) t in
  let higher := head (AscendGreaterOrEqual (Less (heap t)) i (knownHeights t)) in
  Contains (deref (heap t) higher) height.

(** The pointers that [Flatten] returns, and what they point to. *)
Definition Flatten (t : Tree) : list ref := Ascend (knownHeights t).
Definition Len (t : Tree) : Z := numKnownHeights t.

(** The loop of [NewTree]. *)
Definition insert_interval (t : Tree) (i : Interval) : Tree :=
  let '(r, t) := alloc i t in
  set_num (wrap64 (numKnownHeights t + (UpperBound i - LowerBound i + 1)))
    (set_known (ReplaceOrInsert (Less (heap t)) r (knownHeights t)) t).
Definition NewTree `{Database D} (fuel : nat) (d : D) : result TreeErr Tree :=
  intervals ← GetIntervals fuel d;
  Ok (foldl insert_interval (mkTree ∅ NewG 0) intervals).

(** ** blocks.go *)
Section blocks.
Context `{KeyValueWriterDeleter W}.

(** [interval.Add] *)
Definition AddBlock (lastAcceptedHeight height : Z) (blkBytes : bytes) : M (Tree * W) TreeErr bool :=
  s ← get;
  if (height <=? lastAcceptedHeight) || tree_Contains height s.1 then mret false
  else
    on_db (PutBlock height blkBytes);;
    Add height;;
    let nextHeight := wrap64 (height - 1) in
    s ← get;
    mret (negb (nextHeight =? lastAcceptedHeight) && negb (tree_Contains nextHeight s.1)).

(** [interval.Remove] *)
Definition RemoveBlock (height : Z) : M (Tree * W) TreeErr unit :=
  on_db (DeleteBlock height);; Remove height.
End blocks.
End tree.
End Interval.
