(* ===== verification/IntervalFacts.v ===== *)
(** * The interval tree is a set of heights
    The invariant of [Interval.Tree] and what its operations do to the set of
    heights and to the database that mirrors it. *)
From Stdlib Require Import Sorting.Sorted.
From S2P Require Import Prelude Monads Sorting GoLibrary MapOrder Database Memdb BTree Interval.

Module IntervalFacts.
Import Sorting Database BTree Interval.

Implicit Types (i j : Interval) (l la lb : list Interval) (h : Z).

(** ** Intervals as sets *)
Definition wf_interval i : Prop := 0 <= LowerBound i <= UpperBound i /\ UpperBound i <= MaxUint64.
Definition apart i j : Prop := UpperBound i + 1 < LowerBound j.
(** Sorted, disjoint and not adjacent: the shortest description of a set. *)
Definition normal l : Prop := Forall wf_interval l /\ StronglySorted apart l.
Definition covers l h : Prop := exists i, i ∈ l /\ LowerBound i <= h <= UpperBound i.
Definition count l : Z := zsum (fun i => UpperBound i - LowerBound i + 1) l.

Lemma covers_app la lb h : covers (la ++ lb) h <-> covers la h \/ covers lb h.
Proof. unfold covers. setoid_rewrite elem_of_app. naive_solver. Qed.
Lemma covers_cons i l h : covers (i :: l) h <-> LowerBound i <= h <= UpperBound i \/ covers l h.
Proof. unfold covers. setoid_rewrite elem_of_cons. naive_solver. Qed.
Lemma covers_nil h : ~ covers [] h.
Proof. unfold covers. set_solver. Qed.
Lemma count_app la lb : count (la ++ lb) = count la + count lb.
Proof. apply zsum_app. Qed.
Lemma count_cons i l : count (i :: l) = UpperBound i - LowerBound i + 1 + count l.
Proof. done. Qed.

Lemma normal_cons i l : normal (i :: l) <-> wf_interval i /\ Forall (apart i) l /\ normal l.
Proof.
  unfold normal. rewrite Forall_cons. split.
  - intros ([Hi Hl] & Hs). apply StronglySorted_inv in Hs as [Hs Ha]. done.
  - intros (Hi & Ha & Hl & Hs). split; [done|]. by constructor.
Qed.
Lemma normal_app la lb : normal (la ++ lb) <->
  normal la /\ normal lb /\ forall i j, i ∈ la -> j ∈ lb -> apart i j.
Proof.
  induction la as [|i la IH]; cbn [app].
  - split; [intros Hl; split; [by split; constructor|]; split; [done|set_solver]|naive_solver].
  - rewrite !normal_cons, IH, Forall_app, !Forall_forall. setoid_rewrite elem_of_cons. naive_solver.
Qed.

(** A normal description splits at every height. *)
Lemma normal_split l h : normal l -> exists la lb, l = la ++ lb /\
  Forall (fun i => UpperBound i < h) la /\ Forall (fun i => h <= UpperBound i) lb.
Proof.
  induction l as [|i l IH]; intros Hl; [by exists [], []|]. apply normal_cons in Hl as (Hi & Ha & Hl).
  destruct (Z.lt_ge_cases (UpperBound i) h) as [Hlt|Hge].
  - destruct (IH Hl) as (la & lb & -> & Hla & Hlb). exists (i :: la), lb. split_and!; [done|by constructor|done].
  - exists [], (i :: l). split_and!; [done..|]. constructor; [done|]. rewrite Forall_forall in *.
    intros j Hj. specialize (Ha j Hj). destruct Hl as [Hwf _]. rewrite Forall_forall in Hwf. specialize (Hwf j Hj).
    unfold apart, wf_interval in *. lia.
Qed.

(** The normal description of a set is unique. *)
Lemma covers_above i l h : Forall (apart i) l -> covers l h -> UpperBound i + 1 < h.
Proof. rewrite Forall_forall. intros Ha (j & Hj & Hh). specialize (Ha j Hj). unfold apart in Ha. lia. Qed.
Lemma normal_unique l l' : normal l -> normal l' -> (forall h, covers l h <-> covers l' h) -> l = l'.
Proof.
  revert l'. induction l as [|i l IH]; intros [|j l'] Hl Hl' Heq; [done|..].
  - exfalso. apply normal_cons in Hl' as (Hj & _). apply (covers_nil (UpperBound j)), Heq, covers_cons. left. unfold wf_interval in Hj. lia.
  - exfalso. apply normal_cons in Hl as (Hi & _). apply (covers_nil (UpperBound i)), Heq, covers_cons. left. unfold wf_interval in Hi. lia.
  - apply normal_cons in Hl as (Hi & Ha & Hl). apply normal_cons in Hl' as (Hj & Hb & Hl').
    assert (forall i l, wf_interval i -> Forall (apart i) l -> ~ covers (i :: l) (UpperBound i + 1)) as Hgap.
    { intros i' l1 Hi' Ha' Hc. apply covers_cons in Hc as [Hc|Hc]; [lia|]. pose proof (covers_above _ _ _ Ha' Hc). lia. }
    assert (forall i l h, wf_interval i -> Forall (apart i) l -> covers (i :: l) h -> LowerBound i <= h) as Hlow.
    { intros i' l1 h' Hi' Ha' Hc. apply covers_cons in Hc as [Hc|Hc]; [lia|]. pose proof (covers_above _ _ _ Ha' Hc). unfold wf_interval in Hi'. lia. }
    assert (LowerBound i = LowerBound j) as Hlo.
    { apply Z.le_antisymm; [apply (Hlow i l); [done..|apply Heq]|apply (Hlow j l'); [done..|apply Heq]];
        apply covers_cons; left; unfold wf_interval in *; lia. }
    assert (UpperBound i = UpperBound j) as Hup.
    { pose proof (Hgap i l Hi Ha) as Gi. pose proof (Hgap j l' Hj Hb) as Gj. unfold wf_interval in *.
      destruct (Z.lt_trichotomy (UpperBound i) (UpperBound j)) as [Hlt|[?|Hlt]]; [|done|]; exfalso.
      - apply Gi, Heq, covers_cons. lia.
      - apply Gj, Heq, covers_cons. lia. }
    assert (i = j) as -> by (destruct i, j; cbn in *; congruence). f_equal. apply IH; [done..|]. intros h.
    specialize (Heq h). rewrite !covers_cons in Heq. split; intros Hc.
    + pose proof (covers_above _ _ _ Ha Hc). destruct (proj1 Heq (or_intror Hc)); [lia|done].
    + pose proof (covers_above _ _ _ Hb Hc). destruct (proj2 Heq (or_intror Hc)); [lia|done].
Qed.

(** ** The mirror in the database *)
Definition mirror (m : gmap bytes bytes) l : Prop := forall k v, HasPrefix k intervalPrefix = true ->
  (m !! k = Some v <-> exists i, i ∈ l /\ k = makeIntervalKey (UpperBound i) /\ v = PackUInt64 (LowerBound i)).

Lemma interval_key_inj v v' : is_u64 v -> is_u64 v' -> makeIntervalKey v = makeIntervalKey v' -> v = v'.
Proof. intros Hv Hv' Heq. apply (app_inv_head intervalPrefix) in Heq. by apply pack_inj. Qed.
Lemma wf_upper i : wf_interval i -> is_u64 (UpperBound i).
Proof. intros Hi. apply is_u64_max. unfold wf_interval in Hi. lia. Qed.

Lemma mirror_insert m la lb i : Forall wf_interval (la ++ i :: lb) -> (forall j, j ∈ la ++ lb -> UpperBound j <> UpperBound i) ->
  mirror m (la ++ lb) -> mirror (<[makeIntervalKey (UpperBound i) := PackUInt64 (LowerBound i)]> m) (la ++ i :: lb).
Proof.
  intros Hwf Hne Hm k v Hk. rewrite Forall_forall in Hwf.
  destruct (decide (k = makeIntervalKey (UpperBound i))) as [->|Hneq].
  - rewrite lookup_insert_eq. split; [intros [= <-]; exists i; set_solver|]. intros (j & Hj & Heq & ->). f_equal.
    apply interval_key_inj in Heq; [|apply wf_upper, Hwf; set_solver..]. apply elem_of_app in Hj as [Hj|[->|Hj]%elem_of_cons]; [|done|];
      exfalso; apply (Hne j); [set_solver|done|set_solver|done].
  - rewrite lookup_insert_ne, (Hm k v Hk) by done. split; [set_solver|].
    intros (j & Hj & -> & ->). exists j. split; [|done]. assert (j <> i) by congruence. set_solver.
Qed.
Lemma mirror_delete m la lb i : Forall wf_interval (la ++ i :: lb) -> (forall j, j ∈ la ++ lb -> UpperBound j <> UpperBound i) ->
  mirror m (la ++ i :: lb) -> mirror (delete (makeIntervalKey (UpperBound i)) m) (la ++ lb).
Proof.
  intros Hwf Hne Hm k v Hk. rewrite Forall_forall in Hwf.
  destruct (decide (k = makeIntervalKey (UpperBound i))) as [->|Hneq].
  - rewrite lookup_delete_eq. split; [done|]. intros (j & Hj & Heq & _). exfalso. apply (Hne j Hj).
    apply interval_key_inj in Heq; [done|apply wf_upper, Hwf; set_solver..].
  - rewrite lookup_delete_ne, (Hm k v Hk) by done. split; [|set_solver].
    intros (j & Hj & -> & ->). exists j. split; [|done]. assert (j <> i) by congruence. set_solver.
Qed.
Lemma mirror_update m la lb i x : Forall wf_interval (la ++ i :: lb) -> wf_interval (mkInterval x (UpperBound i)) ->
  (forall j, j ∈ la ++ lb -> UpperBound j <> UpperBound i) -> mirror m (la ++ i :: lb) ->
  mirror (<[makeIntervalKey (UpperBound i) := PackUInt64 x]> m) (la ++ mkInterval x (UpperBound i) :: lb).
Proof.
  intros Hwf Hx Hne Hm. rewrite <- insert_delete_eq.
  apply (mirror_insert (delete _ m) la lb (mkInterval x (UpperBound i))); [|done|by apply mirror_delete].
  rewrite Forall_app, Forall_cons in *. naive_solver.
Qed.
Lemma mirror_other m l k v : HasPrefix k intervalPrefix = false -> mirror m l -> mirror (<[k := v]> m) l.
Proof. intros Hk Hm k' v' Hk'. rewrite lookup_insert_ne by congruence. by apply Hm. Qed.
Lemma mirror_other_delete m l k : HasPrefix k intervalPrefix = false -> mirror m l -> mirror (delete k m) l.
Proof. intros Hk Hm k' v' Hk'. rewrite lookup_delete_ne by congruence. by apply Hm. Qed.
Lemma upper_distinct la lb i j : normal (la ++ i :: lb) -> j ∈ la ++ lb -> UpperBound j <> UpperBound i.
Proof.
  intros Hn Hj. apply normal_app in Hn as (Hla & Hn & Hab). apply normal_cons in Hn as (Hi & Ha & [Hlb _]).
  unfold wf_interval in *. apply elem_of_app in Hj as [Hj|Hj].
  - specialize (Hab j i Hj ltac:(by left)). unfold apart in *. lia.
  - rewrite Forall_forall in *. specialize (Ha j Hj). specialize (Hlb j Hj). unfold apart in *. lia.
Qed.

(** ** The B-tree of pointers *)
Section tree.
Context `{BTreeLaws ref}.

(** The pointers of a tree with the intervals they point to. *)
Definition items (t : Tree) (rl : list (ref * Interval)) : Prop :=
  Ascend (knownHeights t) = rl.*1 /\ (forall x, x ∈ rl -> heap t !! x.1 = Some x.2) /\
  StronglySorted (fun x y => UpperBound x.2 < UpperBound y.2) rl.

(** The order among the pointers of the store [hp]. *)
Definition in_store (hp : store) (rl : list (ref * Interval)) : Prop := forall x, x ∈ rl -> hp !! x.1 = Some x.2.

Lemma Less_store hp x y i j : hp !! x = Some i -> hp !! y = Some j -> Less hp x y = (UpperBound i <? UpperBound j).
Proof. unfold Less. by intros -> ->. Qed.

Lemma items_sorted_by hp rl : in_store hp rl -> StronglySorted (fun x y => UpperBound x.2 < UpperBound y.2) rl ->
  sorted_by (Less hp) rl.*1.
Proof.
  intros Hin Hs. induction Hs as [|x rl Hs IH Hx]; constructor.
  - apply IH. intros y Hy. apply Hin. by right.
  - rewrite Forall_forall in Hx. rewrite Forall_forall. intros y [z [-> Hz]]%list_elem_of_fmap.
    rewrite (Less_store hp _ _ x.2 z.2) by (apply Hin; (by left || by right)). specialize (Hx z Hz). lia.
Qed.

(** Filters by the order against [p], on the two sides of [p]. *)
Lemma filter_all {A} (P : A -> Prop) `{!forall x, Decision (P x)} (l : list A) : Forall P l -> filter P l = l.
Proof. induction 1 as [|x l Hx _ IH]; [done|]. by rewrite filter_cons_True, IH. Qed.
Lemma filter_none {A} (P : A -> Prop) `{!forall x, Decision (P x)} (l : list A) : Forall (fun x => ~ P x) l -> filter P l = [].
Proof. induction 1 as [|x l Hx _ IH]; [done|]. by rewrite filter_cons_False, IH. Qed.

Lemma filter_sides {A} (P : A -> Prop) `{!forall x, Decision (P x)} (la lb : list A) :
  Forall P la -> Forall (fun x => ~ P x) lb -> filter P (la ++ lb) = la.
Proof. intros Ha Hb. by rewrite filter_app, filter_all, filter_none, app_nil_r. Qed.
Lemma filter_sides' {A} (P : A -> Prop) `{!forall x, Decision (P x)} (la lb : list A) :
  Forall (fun x => ~ P x) la -> Forall P lb -> filter P (la ++ lb) = lb.
Proof. intros Ha Hb. by rewrite filter_app, filter_none, filter_all. Qed.

Lemma fst_forall hp (P : ref -> Prop) (Q : Interval -> Prop) (rl : list (ref * Interval)) : in_store hp rl ->
  (forall r i, hp !! r = Some i -> Q i -> P r) -> Forall (fun x => Q x.2) rl -> Forall P rl.*1.
Proof.
  intros Hin HQ Hl. rewrite Forall_forall in Hl. rewrite Forall_forall. intros r [x [-> Hx]]%list_elem_of_fmap. apply (HQ _ x.2); [by apply Hin|by apply Hl].
Qed.

Section pivot.
Context (t : Tree) (ra rb : list (ref * Interval)) (p : ref) (pi : Interval).
Hypothesis Hsorted : sorted_by (Less (heap t)) (Ascend (knownHeights t)).
Hypothesis Hina : in_store (heap t) ra.
Hypothesis Hinb : in_store (heap t) rb.
Hypothesis Hp : heap t !! p = Some pi.
Hypothesis Ha : Forall (fun x => UpperBound x.2 < UpperBound pi) ra.

Lemma below_less : Forall (fun y => Less (heap t) y p = true) ra.*1 /\ Forall (fun y => ~ Less (heap t) p y = true) ra.*1.
Proof.
  split; (eapply (fst_forall _ _ (fun i => UpperBound i < UpperBound pi)); [done| |done]); intros r i Hr Hi;
    rewrite (Less_store _ _ _ _ _ Hr Hp) || rewrite (Less_store _ _ _ _ _ Hp Hr); lia.
Qed.
Lemma above_less : Forall (fun x => UpperBound pi < UpperBound x.2) rb ->
  Forall (fun y => ~ Less (heap t) y p = true) rb.*1 /\ Forall (fun y => Less (heap t) p y = true) rb.*1.
Proof.
  intros Hb. split; (eapply (fst_forall _ _ (fun i => UpperBound pi < UpperBound i)); [done| |done]); intros r i Hr Hi;
    rewrite (Less_store _ _ _ _ _ Hr Hp) || rewrite (Less_store _ _ _ _ _ Hp Hr); lia.
Qed.

Lemma ascend_pivot : Ascend (knownHeights t) = (ra ++ rb).*1 -> Forall (fun x => UpperBound pi <= UpperBound x.2) rb ->
  AscendGreaterOrEqual (Less (heap t)) p (knownHeights t) = rb.*1.
Proof.
  intros Hi Hb. rewrite greater_items, Hi, fmap_app by done. apply filter_sides'.
  - destruct below_less as [Hl _]. eapply Forall_impl; [exact Hl|]. cbn. congruence.
  - eapply (fst_forall _ _ (fun i => UpperBound pi <= UpperBound i)); [done| |done]. intros r i Hr Hi'.
    rewrite (Less_store _ _ _ _ _ Hr Hp). lia.
Qed.
Lemma descend_pivot : Ascend (knownHeights t) = (ra ++ rb).*1 -> Forall (fun x => UpperBound pi < UpperBound x.2) rb ->
  DescendLessOrEqual (Less (heap t)) p (knownHeights t) = reverse ra.*1.
Proof.
  intros Hi Hb. rewrite less_items, Hi, fmap_app, reverse_app by done. apply filter_sides'; rewrite Forall_reverse.
  - destruct (above_less Hb) as [_ Hl]. eapply Forall_impl; [exact Hl|]. cbn. congruence.
  - destruct below_less as [_ Hl]. eapply Forall_impl; [exact Hl|]. cbn. intros r. by destruct (Less _ _ _).
Qed.
Lemma insert_pivot : Ascend (knownHeights t) = (ra ++ rb).*1 -> Forall (fun x => UpperBound pi < UpperBound x.2) rb ->
  Ascend (ReplaceOrInsert (Less (heap t)) p (knownHeights t)) = (ra ++ (p, pi) :: rb).*1.
Proof.
  intros Hi Hb. rewrite insert_items, Hi, fmap_app by done. destruct below_less, (above_less Hb).
  by rewrite filter_sides, filter_sides', fmap_app by done.
Qed.
Lemma delete_pivot : Ascend (knownHeights t) = (ra ++ (p, pi) :: rb).*1 -> Forall (fun x => UpperBound pi < UpperBound x.2) rb ->
  Ascend (DeleteItem (Less (heap t)) p (knownHeights t)) = (ra ++ rb).*1.
Proof.
  intros Hi Hb. rewrite delete_items, Hi, fmap_app by done. destruct below_less, (above_less Hb). cbn [fmap list_fmap fst].
  rewrite filter_sides; [|done|constructor; [|done]; rewrite (Less_store _ _ _ _ _ Hp Hp); lia].
  rewrite (cons_middle p ra.*1 rb.*1), (app_assoc ra.*1 [p] rb.*1).
  rewrite filter_sides'; [by rewrite fmap_app| |done].
  apply Forall_app. split; [done|]. constructor; [|done]. rewrite (Less_store _ _ _ _ _ Hp Hp). lia.
Qed.
End pivot.

(** Changes of the store. *)
Lemma items_store t rl : items t rl -> sorted_by (Less (heap t)) (Ascend (knownHeights t)).
Proof. intros (Hi & Hin & Hs). rewrite Hi. by apply items_sorted_by. Qed.

Lemma items_alloc t rl i r t' : items t rl -> alloc i t = (r, t') ->
  items t' rl /\ heap t' !! r = Some i /\ r ∉ rl.*1 /\ numKnownHeights t' = numKnownHeights t /\ knownHeights t' = knownHeights t.
Proof.
  intros (Hi & Hin & Hs) [= <- <-]. cbn. pose proof (is_fresh (dom (heap t))) as Hf.
  assert (forall x, x ∈ rl -> x.1 <> fresh (dom (heap t))) as Hne.
  { intros x Hx Heq. apply Hf. rewrite <- Heq. apply elem_of_dom. rewrite (Hin x Hx). by eexists. }
  split_and!; [split_and!; [done| |done]|by rewrite lookup_insert_eq| |done..].
  - intros x Hx. cbn. rewrite lookup_insert_ne by (intros Heq; by apply (Hne x Hx)). by apply Hin.
  - intros [x [Heq Hx]]%list_elem_of_fmap. by apply (Hne x Hx).
Qed.

Lemma sorted_upper_unique (ra rb : list (ref * Interval)) r i x : in_store x (ra ++ (r, i) :: rb) ->
  StronglySorted (fun x y => UpperBound x.2 < UpperBound y.2) (ra ++ (r, i) :: rb) -> forall y, y ∈ ra ++ rb -> y.1 <> r.
Proof.
  intros Hin Hs y Hy Heq. assert (y.2 = i) as Hyi.
  { pose proof (Hin (r, i) ltac:(set_solver)) as H1. pose proof (Hin y ltac:(set_solver)) as H2. rewrite Heq in H2. cbn in H1. congruence. }
  clear Hin. induction ra as [|z ra IH]; cbn in *; apply StronglySorted_inv in Hs as [Hs Hx]; rewrite Forall_forall in Hx.
  - specialize (Hx y Hy). cbn in Hx. rewrite Hyi in Hx. lia.
  - apply elem_of_cons in Hy as [->|Hy]; [|by apply IH]. specialize (Hx (r, i) ltac:(set_solver)). cbn in Hx. rewrite Hyi in Hx. lia.
Qed.

Lemma items_alter t ra r i rb f : items t (ra ++ (r, i) :: rb) ->
  StronglySorted (fun x y => UpperBound x.2 < UpperBound y.2) (ra ++ (r, f i) :: rb) ->
  items (set_heap (alter f r (heap t)) t) (ra ++ (r, f i) :: rb).
Proof.
  intros (Hi & Hin & Hs) Hs'. pose proof (sorted_upper_unique _ _ _ _ _ Hin Hs) as Hne. split_and!; [|intros x Hx|done].
  - cbn. rewrite Hi. by rewrite !fmap_app.
  - cbn. apply elem_of_app in Hx as [Hx|[->|Hx]%elem_of_cons].
    + rewrite lookup_alter_ne by (intros Heq; apply (Hne x); [set_solver|done]). apply Hin. set_solver.
    + cbn [fst snd]. pose proof (Hin (r, i) ltac:(set_solver)) as Hr. cbn [fst snd] in Hr. by rewrite lookup_alter_eq, Hr.
    + rewrite lookup_alter_ne by (intros Heq; apply (Hne x); [set_solver|done]). apply Hin. set_solver.
Qed.

Lemma normal_upper_sorted (rl : list (ref * Interval)) : normal rl.*2 -> StronglySorted (fun x y => UpperBound x.2 < UpperBound y.2) rl.
Proof.
  induction rl as [|x rl IH]; intros Hn; [constructor|]. cbn in Hn. apply normal_cons in Hn as (Hx & Ha & Hn).
  constructor; [by apply IH|]. rewrite Forall_forall. intros y Hy. rewrite Forall_forall in Ha.
  specialize (Ha y.2 ltac:(by apply list_elem_of_fmap_2)). destruct Hn as [Hwf _]. rewrite Forall_forall in Hwf.
  specialize (Hwf y.2 ltac:(by apply list_elem_of_fmap_2)). unfold apart, wf_interval in *. lia.
Qed.

Lemma normal_mid la i lb : normal (la ++ i :: lb) <->
  wf_interval i /\ normal (la ++ lb) /\ (forall j, j ∈ la -> apart j i) /\ (forall j, j ∈ lb -> apart i j).
Proof.
  rewrite !normal_app, normal_cons, Forall_forall. setoid_rewrite elem_of_cons. split; [naive_solver|].
  intros (Hi & (Hla & Hlb & Hab) & Ha & Hb). split_and!; [done..|]. intros j k Hj [->|Hk]; [by apply Ha|by apply Hab].
Qed.

Lemma wf_in l j : normal l -> j ∈ l -> wf_interval j.
Proof. intros [Hwf _] Hj. rewrite Forall_forall in Hwf. by apply Hwf. Qed.

Lemma deref_Some hp r i : hp !! r = Some i -> deref hp (Some r) = Some i.
Proof. done. Qed.

(** The first interval from the height on decides membership. *)
Lemma contains_first hp ra rb h : in_store hp (ra ++ rb) -> normal (ra.*2 ++ rb.*2) -> Forall (fun i => UpperBound i < h) ra.*2 ->
  Forall (fun i => h <= UpperBound i) rb.*2 ->
  (Contains (deref hp (head rb.*1)) h = true <-> covers (ra.*2 ++ rb.*2) h) /\
  (Contains (deref hp (head rb.*1)) h = false -> forall j, j ∈ rb.*2 -> h < LowerBound j).
Proof.
  intros Hin Hn Ha Hb. rewrite covers_app. assert (~ covers ra.*2 h) as Hna.
  { intros (j & Hj & Hc). rewrite Forall_forall in Ha. specialize (Ha j Hj). lia. }
  destruct rb as [|[r i] rb]; cbn [fmap list_fmap head fst snd deref]; [split; [|set_solver]; cbn; split; [done|]; by intros [?|?%covers_nil]|].
  pose proof (Hin (r, i) ltac:(set_solver)) as Hr. cbn [fst snd] in Hr. rewrite (deref_Some _ _ _ Hr). cbn [Contains]. rewrite andb_true_iff, andb_false_iff, !Z.leb_le, !Z.leb_gt.
  cbn in Hn, Hb. apply Forall_cons in Hb as [Hi Hb]. apply normal_app in Hn as (_ & (Hwf & Hap & _)%normal_cons & _).
  rewrite Forall_forall in Hap. unfold wf_interval in Hwf. rewrite covers_cons. split.
  - split; [by intros; right; left|]. intros [?|[?|(j & Hj & Hc)]]; [done|done|]. specialize (Hap j Hj). unfold apart in Hap. lia.
  - intros Hno j [->|Hj]%elem_of_cons; [lia|]. specialize (Hap j Hj). unfold apart in Hap. lia.
Qed.

Lemma wrap_add_count n x : wrap64 (wrap64 n + x) = wrap64 (n + x).
Proof. unfold wrap. by rewrite Zplus_mod_idemp_l. Qed.

(** One changed interval in the middle of the tree. *)
Lemma upper_sorted_eq (rl rl' : list (ref * Interval)) : (fun x => UpperBound x.2) <$> rl = (fun x => UpperBound x.2) <$> rl' ->
  StronglySorted (fun x y => UpperBound x.2 < UpperBound y.2) rl -> StronglySorted (fun x y => UpperBound x.2 < UpperBound y.2) rl'.
Proof.
  revert rl'. induction rl as [|x rl IH]; intros [|y rl'] Heq Hs; [constructor|done..|]. injection Heq as Hxy Heq.
  change ((fun x => UpperBound x.2) <$> rl = (fun x => UpperBound x.2) <$> rl') in Heq.
  apply StronglySorted_inv in Hs as [Hs Hx]. constructor; [by apply IH|]. rewrite Forall_forall in *. intros z Hz.
  assert (UpperBound z.2 ∈ (fun x => UpperBound x.2) <$> rl) as Hin by (rewrite Heq; by apply (list_elem_of_fmap_2 (fun x => UpperBound x.2))).
  apply list_elem_of_fmap in Hin as (z' & Hzz & Hz'). specialize (Hx z' Hz'). rewrite <- Hxy, Hzz. done.
Qed.
Lemma items_set_lower t ra r i rb x : items t (ra ++ (r, i) :: rb) ->
  items (set_heap (alter (fun v => mkInterval x (UpperBound v)) r (heap t)) t) (ra ++ (r, mkInterval x (UpperBound i)) :: rb).
Proof.
  intros Hi. apply (items_alter _ _ _ _ _ (fun v => mkInterval x (UpperBound v))); [done|]. destruct Hi as (_ & _ & Hs).
  eapply upper_sorted_eq; [|exact Hs]. by rewrite !fmap_app.
Qed.
Lemma items_change t ra r i rb f : items t (ra ++ (r, i) :: rb) -> normal (ra.*2 ++ f i :: rb.*2) ->
  items (set_heap (alter f r (heap t)) t) (ra ++ (r, f i) :: rb).
Proof. intros Hi Hn. apply items_alter; [done|]. apply normal_upper_sorted. by rewrite fmap_app. Qed.

(** Inserting and deleting a pointer. *)
Abbreviation upper_sorted := (StronglySorted (fun x y : ref * Interval => UpperBound x.2 < UpperBound y.2)).
Lemma upper_sorted_mid ra (x : ref * Interval) rb : upper_sorted (ra ++ x :: rb) ->
  Forall (fun y => UpperBound y.2 < UpperBound x.2) ra /\ Forall (fun y => UpperBound x.2 < UpperBound y.2) rb /\ upper_sorted (ra ++ rb).
Proof.
  induction ra as [|y ra IH]; cbn; intros [Hs Hx]%StronglySorted_inv; [done|].
  rewrite Forall_app, Forall_cons in Hx. destruct Hx as (Hra & Hyx & Hrb). destruct (IH Hs) as (Ha & Hb & Hab).
  split_and!; [by constructor|done|]. constructor; [done|]. by rewrite Forall_app.
Qed.
Lemma items_insert t ra rb r i : items t (ra ++ rb) -> heap t !! r = Some i -> upper_sorted (ra ++ (r, i) :: rb) ->
  items (set_known (ReplaceOrInsert (Less (heap t)) r (knownHeights t)) t) (ra ++ (r, i) :: rb).
Proof.
  intros Hi Hr Hn'.
  pose proof (items_store _ _ Hi) as Hs. destruct Hi as (Hi & Hin & _). destruct (upper_sorted_mid _ _ _ Hn') as (Ha & Hb & _).
  split_and!; [|intros x Hx|done].
  - apply insert_pivot; try done; intros x Hx; apply Hin; set_solver.
  - apply elem_of_app in Hx as [Hx|[->|Hx]%elem_of_cons]; [apply Hin; set_solver|done|apply Hin; set_solver].
Qed.
Lemma items_delete t ra rb r i : items t (ra ++ (r, i) :: rb) ->
  items (set_known (DeleteItem (Less (heap t)) r (knownHeights t)) t) (ra ++ rb).
Proof.
  intros Hi. pose proof (items_store _ _ Hi) as Hs. destruct Hi as (Hi & Hin & Hu). destruct (upper_sorted_mid _ _ _ Hu) as (Ha & Hb & Hab).
  split_and!; [|intros x Hx; apply Hin; set_solver|done].
  apply (delete_pivot _ _ _ _ i); try done; [intros x Hx; apply Hin; set_solver..|].
  apply (Hin (r, i)). set_solver.
Qed.

Lemma items_lookup t ra r i rb : items t (ra ++ (r, i) :: rb) -> heap t !! r = Some i.
Proof. intros (_ & Hin & _). apply (Hin (r, i)). set_solver. Qed.

(** The tree holds the intervals [l]. *)
Definition tree_rep (t : Tree) l : Prop :=
  exists rl, items t rl /\ rl.*2 = l /\ normal l /\ numKnownHeights t = wrap64 (count l).

(** ** The invariant *)
Section ops.
Context `{KeyValueWriterDeleter W} (w_rep : W -> gmap bytes bytes -> Prop).

(** What the tree relies on when it writes. *)
Class WriterLaws := {
  w_put_law w m k v : w_rep w m -> writes w_rep (w_Put k v w) m (<[k := v]> m);
  w_delete_law w m k : w_rep w m -> writes w_rep (w_Delete k w) m (delete k m);
}.
Context `{!WriterLaws}.

(** The tree holds the intervals [l], and so does the database, which holds [m]. *)
Definition inv (s : Tree * W) (m : gmap bytes bytes) l : Prop := tree_rep s.1 l /\ w_rep s.2 m /\ mirror m l.

Definition db_fault (e : TreeErr) : Prop := exists e', e = ErrDb e' /\ fault e'.
Abbreviation wp_ := (wp db_fault).

Lemma wp_writes (f : M W DbErr unit) t w m m' (Q : unit -> Tree * W -> Prop) : writes w_rep (f w) m m' ->
  (forall w', w_rep w' m' -> Q tt (t, w')) -> wp_ (on_db f) Q (t, w).
Proof.
  intros Hw HQ. unfold wp, on_db. cbn. destruct (f w) as [w' [[]|e]]; cbn in *; [by apply HQ|].
  destruct Hw as [He _]. by exists e.
Qed.
Lemma wp_new_interval i t (w : W) rl (Q : ref -> Tree * W -> Prop) : items t rl ->
  (forall r t', items t' rl -> heap t' !! r = Some i -> r ∉ rl.*1 -> numKnownHeights t' = numKnownHeights t ->
     Q r (t', w)) -> wp_ (new_interval i) Q (t, w).
Proof.
  intros Hi HQ. unfold wp, new_interval. cbn [fst snd]. destruct (alloc i t) as [r t'] eqn:Ha.
  destruct (items_alloc _ _ _ _ _ Hi Ha) as (Hi' & Hr & Hf & Hn & _). by apply HQ.
Qed.
Lemma wp_fields r i t (w : W) (Q : Interval -> Tree * W -> Prop) : heap t !! r = Some i -> Q i (t, w) -> wp_ (fields r) Q (t, w).
Proof. intros Hr HQ. unfold wp, fields, mbind, M_bind, get. cbn [fst]. by rewrite Hr. Qed.

(** Keys that are not intervals are left alone. *)
Definition same_blocks (m m' : gmap bytes bytes) : Prop := forall k, HasPrefix k intervalPrefix = false -> m' !! k = m !! k.
Lemma interval_key_prefix v : HasPrefix (makeIntervalKey v) intervalPrefix = true.
Proof. by unfold makeIntervalKey; cbn; destruct (PackUInt64 v). Qed.
Lemma same_insert m m' v x : same_blocks m m' -> same_blocks m (<[makeIntervalKey v := x]> m').
Proof. intros Hs k Hk. rewrite lookup_insert_ne; [by apply Hs|]. intros <-. by rewrite interval_key_prefix in Hk. Qed.
Lemma same_delete m m' v : same_blocks m m' -> same_blocks m (delete (makeIntervalKey v) m').
Proof. intros Hs k Hk. rewrite lookup_delete_ne; [by apply Hs|]. intros <-. by rewrite interval_key_prefix in Hk. Qed.
Lemma same_refl m : same_blocks m m.
Proof. done. Qed.

(** What the last steps of [Add] and [Remove] lead to. *)
Definition ends (m : gmap bytes bytes) (n : Z) l (_ : unit) (s : Tree * W) : Prop :=
  exists m' rl, items s.1 rl /\ rl.*2 = l /\ numKnownHeights s.1 = n /\ w_rep s.2 m' /\ mirror m' l /\ same_blocks m m'.

Lemma ends_intro m n l t w rl m' : items t rl -> w_rep w m' -> rl.*2 = l -> numKnownHeights t = n ->
  mirror m' l -> same_blocks m m' -> ends m n l tt (t, w).
Proof. intros. by exists m', rl. Qed.

Lemma merge_ends m w t ra r1 i1 r2 i2 rb h : let i' := mkInterval (LowerBound i1) (UpperBound i2) in
  items t (ra ++ (r1, i1) :: (r2, i2) :: rb) -> w_rep w m -> mirror m (ra.*2 ++ i1 :: i2 :: rb.*2) ->
  normal (ra.*2 ++ i1 :: i2 :: rb.*2) -> normal (ra.*2 ++ i' :: rb.*2) ->
  wp_ (l ← fields r1;
       on_db (DeleteInterval (UpperBound l));;
       set_lower r2 (LowerBound l);;
       delete_item r1;;
       u ← fields r2;
       l ← fields r1;
       on_db (PutInterval (UpperBound u) (LowerBound l)))
    (ends m (numKnownHeights t) (ra.*2 ++ i' :: rb.*2)) (t, w).
Proof.
  intros i' Hi Hw Hm Hn Hn'. pose proof (items_lookup t _ _ _ _ Hi) as Hr1.
  apply wp_bind, (wp_fields _ i1); [done|]. apply wp_bind. eapply wp_writes; [by apply w_delete_law|]. intros w1 Hw1.
  apply (mirror_delete _ ra.*2 (i2 :: rb.*2) i1) in Hm; [|apply Hn|intros j Hj; by apply (upper_distinct _ _ _ _ Hn)].
  rewrite (cons_middle (r1, i1)), (app_assoc ra) in Hi. apply (items_set_lower _ _ _ _ _ (LowerBound i1)) in Hi.
  rewrite <- (app_assoc ra) in Hi. cbn [app] in Hi. pose proof (items_lookup _ _ _ _ _ Hi) as Hr1'.
  apply wp_bind, wp_modify. cbn [fst snd]. apply wp_bind, wp_modify. cbn [fst snd]. apply items_delete in Hi.
  pose proof (items_lookup _ _ _ _ _ Hi) as Hr2.
  apply wp_bind, (wp_fields _ i'); [done|]. apply wp_bind, (wp_fields _ i1); [done|].
  eapply wp_writes; [by apply w_put_law|]. intros w2 Hw2.
  eapply ends_intro; [exact Hi|exact Hw2|by rewrite fmap_app|done| |by apply same_insert, same_delete].
  pose proof Hn as (_ & Hn2 & _)%normal_mid. apply (mirror_update _ _ _ i2 (LowerBound i1)); [apply Hn2| | |done].
  - by apply normal_mid in Hn' as (Hi' & _).
  - intros j Hj. by apply (upper_distinct _ _ _ _ Hn2).
Qed.

Lemma lower_ends m0 m w t ra r i rb x (g : Interval -> Z) : let i' := mkInterval x (UpperBound i) in
  items t (ra ++ (r, i) :: rb) -> w_rep w m -> mirror m (ra.*2 ++ i :: rb.*2) -> same_blocks m0 m ->
  Forall wf_interval (ra.*2 ++ i :: rb.*2) -> normal (ra.*2 ++ i' :: rb.*2) -> g i' = x ->
  wp_ (set_lower r x;; u ← fields r; on_db (PutInterval (UpperBound u) (g u)))
    (ends m0 (numKnownHeights t) (ra.*2 ++ i' :: rb.*2)) (t, w).
Proof.
  intros i' Hi Hw Hm Hs Hwf Hn' Hg. apply (items_set_lower _ _ _ _ _ x) in Hi. pose proof (items_lookup _ _ _ _ _ Hi) as Hr.
  apply wp_bind, wp_modify. cbn [fst snd]. apply wp_bind, (wp_fields _ i'); [done|].
  eapply wp_writes; [by apply w_put_law|]. intros w' Hw'.
  eapply ends_intro; [exact Hi|exact Hw'|by rewrite fmap_app|done| |by apply same_insert].
  rewrite Hg. apply (mirror_update _ _ _ i x); [done| | |done].
  - by apply normal_mid in Hn' as (Hi' & _).
  - intros j Hj. by apply (upper_distinct _ _ i' _ Hn').
Qed.

Lemma upper_ends m w t ra r i rb x (f g : Interval -> Z) : let i' := mkInterval (LowerBound i) x in
  items t (ra ++ (r, i) :: rb) -> w_rep w m -> mirror m (ra.*2 ++ i :: rb.*2) ->
  normal (ra.*2 ++ i :: rb.*2) -> normal (ra.*2 ++ i' :: rb.*2) -> f i' = x -> g i' = LowerBound i ->
  wp_ (on_db (DeleteInterval (UpperBound i));; set_upper r x;; u ← fields r; on_db (PutInterval (f u) (g u)))
    (ends m (numKnownHeights t) (ra.*2 ++ i' :: rb.*2)) (t, w).
Proof.
  intros i' Hi Hw Hm Hn Hn' Hf Hg. apply wp_bind. eapply wp_writes; [by apply w_delete_law|]. intros w1 Hw1.
  apply (mirror_delete _ ra.*2 rb.*2 i) in Hm; [|apply Hn|intros j Hj; by apply (upper_distinct _ _ _ _ Hn)].
  apply (items_change _ _ _ _ _ (fun v => mkInterval (LowerBound v) x)) in Hi; [|exact Hn'].
  pose proof (items_lookup _ _ _ _ _ Hi) as Hr.
  apply wp_bind, wp_modify. cbn [fst snd]. apply wp_bind, (wp_fields _ i'); [done|].
  eapply wp_writes; [by apply w_put_law|]. intros w2 Hw2.
  eapply ends_intro; [exact Hi|exact Hw2|by rewrite fmap_app|done| |by apply same_insert, same_delete].
  rewrite Hf, Hg. apply (mirror_insert _ _ _ i'); [apply Hn'| |done]. intros j Hj. by apply (upper_distinct _ _ _ _ Hn').
Qed.

Lemma insert_ends m w t ra p i rb : items t (ra ++ rb) -> heap t !! p = Some i -> w_rep w m -> mirror m (ra.*2 ++ rb.*2) ->
  normal (ra.*2 ++ i :: rb.*2) ->
  wp_ (insert_item p;; on_db (PutInterval (UpperBound i) (LowerBound i)))
    (ends m (numKnownHeights t) (ra.*2 ++ i :: rb.*2)) (t, w).
Proof.
  intros Hi Hp Hw Hm Hn. apply wp_bind, wp_modify. cbn [fst snd].
  apply (items_insert t ra rb p i) in Hi; [|done|apply normal_upper_sorted; by rewrite fmap_app].
  eapply wp_writes; [by apply w_put_law|]. intros w' Hw'.
  eapply ends_intro; [exact Hi|exact Hw'|by rewrite fmap_app|done| |by apply same_insert].
  apply mirror_insert; [apply Hn| |done]. intros j Hj. by apply (upper_distinct _ _ _ _ Hn).
Qed.

Lemma delete_ends m w t ra r i rb : items t (ra ++ (r, i) :: rb) -> w_rep w m -> mirror m (ra.*2 ++ i :: rb.*2) ->
  normal (ra.*2 ++ i :: rb.*2) ->
  wp_ (delete_item r;; on_db (DeleteInterval (UpperBound i))) (ends m (numKnownHeights t) (ra.*2 ++ rb.*2)) (t, w).
Proof.
  intros Hi Hw Hm Hn. apply wp_bind, wp_modify. cbn [fst snd]. apply items_delete in Hi.
  eapply wp_writes; [by apply w_delete_law|]. intros w' Hw'.
  eapply ends_intro; [exact Hi|exact Hw'|by rewrite fmap_app|done| |by apply same_delete].
  apply mirror_delete; [apply Hn| |done]. intros j Hj. by apply (upper_distinct _ _ _ _ Hn).
Qed.

Lemma items_other t rl r f : items t rl -> r ∉ rl.*1 -> items (set_heap (alter f r (heap t)) t) rl.
Proof.
  intros (Hi & Hin & Hs) Hr. split_and!; [done| |done]. intros x Hx. cbn.
  rewrite lookup_alter_ne; [by apply Hin|]. intros ->. apply Hr. by apply list_elem_of_fmap_2.
Qed.

(** [Remove] inside an interval. *)
Lemma split_ends m w t ra r i rb p v h : let i1 := mkInterval (LowerBound i) (h - 1) in let i2 := mkInterval (h + 1) (UpperBound i) in
  items t (ra ++ (r, i) :: rb) -> heap t !! p = Some v -> p ∉ (ra ++ (r, i) :: rb).*1 -> w_rep w m -> mirror m (ra.*2 ++ i :: rb.*2) ->
  normal (ra.*2 ++ i :: rb.*2) -> normal (ra.*2 ++ i1 :: i2 :: rb.*2) ->
  wp_ (set_lower p (LowerBound i);;
       set_upper p (h - 1);;
       insert_item p;;
       n ← fields p;
       on_db (PutInterval (UpperBound n) (LowerBound n));;
       set_lower r (h + 1);;
       u ← fields r;
       on_db (PutInterval (UpperBound u) (LowerBound u)))
    (ends m (numKnownHeights t) (ra.*2 ++ i1 :: i2 :: rb.*2)) (t, w).
Proof.
  intros i1 i2 Hi Hp Hf Hw Hm Hn Hn'. pose proof Hn' as (Hi1 & Hn2 & Ha1 & Hb1)%normal_mid. pose proof Hn as (Hwi & Hnab & Ha & Hb)%normal_mid.
  apply wp_bind, wp_modify, wp_bind, wp_modify. cbn [fst snd].
  set (t1 := set_heap (alter _ p (heap (set_heap _ t))) (set_heap _ t)).
  assert (items t1 (ra ++ (r, i) :: rb)) as Hi' by (by apply items_other, Hf; apply items_other).
  assert (heap t1 !! p = Some i1) as Hp1 by (subst t1; cbn; rewrite !lookup_alter_eq, Hp; done).
  assert (upper_sorted (ra ++ (p, i1) :: (r, i) :: rb)) as Hus.
  { eapply upper_sorted_eq, (normal_upper_sorted (ra ++ (p, i1) :: (r, i2) :: rb)); [by rewrite !fmap_app|by rewrite fmap_app]. }
  apply (items_insert t1 ra ((r, i) :: rb) p i1) in Hi'; [|done..]. apply wp_bind, wp_modify. cbn [fst snd].
  apply wp_bind, (wp_fields _ i1); [done|]. apply wp_bind. eapply wp_writes; [by apply w_put_law|]. intros w' Hw'.
  assert (Forall wf_interval (ra.*2 ++ i1 :: i :: rb.*2)) as Hwf.
  { destruct Hn as [Hwf _]. rewrite Forall_app, !Forall_cons in *. naive_solver. }
  apply (mirror_insert _ ra.*2 (i :: rb.*2) i1) in Hm; [|done|].
  - rewrite (cons_middle (p, i1)), (app_assoc ra) in Hi'.
    pose proof (lower_ends m _ w' _ _ r i rb (h + 1) LowerBound Hi' Hw') as Hl. rewrite fmap_app in Hl. cbn [fmap list_fmap snd] in Hl.
    rewrite <- !app_assoc in Hl. cbn [app] in Hl. apply Hl; try done. by apply same_insert.
  - intros j Hj. assert (forall k, k ∈ ra.*2 ++ i2 :: rb.*2 -> UpperBound k <> UpperBound i1) as Hd
      by (intros k Hk; by apply (upper_distinct _ _ i1 _ Hn')).
    destruct (decide (j = i)) as [->|]; [by apply (Hd i2); set_solver|apply Hd; set_solver].
Qed.

(** ** Finding the neighbours of a height *)
Lemma wp_first_from t (w : W) ra rb p v (Q : option ref -> Tree * W -> Prop) : items t (ra ++ rb) -> heap t !! p = Some v ->
  Forall (fun x => UpperBound x.2 < UpperBound v) ra -> Forall (fun x => UpperBound v <= UpperBound x.2) rb ->
  Q (head rb.*1) (t, w) -> wp_ (first_from p) Q (t, w).
Proof.
  intros Hi Hp Ha Hb HQ. pose proof (items_store _ _ Hi) as Hs. destruct Hi as (Hi & Hin & _).
  apply wp_bind, wp_get, wp_ret. cbn [fst]. rewrite (ascend_pivot t ra rb p v); try done; intros x Hx; apply Hin; set_solver.
Qed.
Lemma wp_last_upto t (w : W) ra rb p v (Q : option ref -> Tree * W -> Prop) : items t (ra ++ rb) -> heap t !! p = Some v ->
  Forall (fun x => UpperBound x.2 < UpperBound v) ra -> Forall (fun x => UpperBound v < UpperBound x.2) rb ->
  Q (head (reverse ra.*1)) (t, w) -> wp_ (last_upto p) Q (t, w).
Proof.
  intros Hi Hp Ha Hb HQ. pose proof (items_store _ _ Hi) as Hs. destruct Hi as (Hi & Hin & _).
  apply wp_bind, wp_get, wp_ret. cbn [fst]. rewrite (descend_pivot t ra rb p v); try done; intros x Hx; apply Hin; set_solver.
Qed.

Lemma adjacent_first hp rb h : in_store hp rb -> normal rb.*2 -> 0 <= h -> (forall j, j ∈ rb.*2 -> h < LowerBound j) ->
  if AdjacentToLowerBound (deref hp (head rb.*1)) h then exists r i rb', rb = (r, i) :: rb' /\ LowerBound i = h + 1
  else forall j, j ∈ rb.*2 -> h + 1 < LowerBound j.
Proof.
  intros Hin Hn Hh Hlt. destruct rb as [|[r i] rb]; [cbn; set_solver|]. cbn [fmap list_fmap head fst snd deref] in *.
  pose proof (Hin (r, i) ltac:(set_solver)) as Hr. cbn [fst snd] in Hr. rewrite (deref_Some _ _ _ Hr). cbn [AdjacentToLowerBound].
  apply normal_cons in Hn as (Hwf & Hap & _). unfold wf_interval in Hwf. pose proof (Hlt i ltac:(set_solver)).
  rewrite wrap64_small by lia. destruct (Z.ltb_spec h MaxUint64), (Z.eqb_spec (h + 1) (LowerBound i)); cbn [andb]; try lia; [by eexists _, _, _|].
  intros j [->|Hj]%elem_of_cons; [lia|]. rewrite Forall_forall in Hap. specialize (Hap j Hj). unfold apart in Hap. lia.
Qed.
Lemma adjacent_last hp ra h : in_store hp ra -> normal ra.*2 -> h <= MaxUint64 -> Forall (fun i => UpperBound i < h) ra.*2 ->
  if AdjacentToUpperBound (deref hp (head (reverse ra.*1))) h then exists r i ra', ra = ra' ++ [(r, i)] /\ UpperBound i + 1 = h
  else forall j, j ∈ ra.*2 -> UpperBound j + 1 < h.
Proof.
  intros Hin Hn Hh Hlt. induction ra as [|[r i] ra _] using rev_ind; [cbn; set_solver|].
  rewrite fmap_app, reverse_app. change (head (reverse [(r, i)].*1 ++ reverse ra.*1)) with (Some r).
  pose proof (Hin (r, i) ltac:(set_solver)) as Hr. cbn [fst snd] in Hr. rewrite (deref_Some _ _ _ Hr). cbn [AdjacentToUpperBound]. rewrite fmap_app in *. cbn [fmap list_fmap snd] in *.
  apply normal_app in Hn as (_ & (Hwf & _)%normal_cons & Hap). unfold wf_interval in Hwf. rewrite Forall_forall in Hlt.
  pose proof (Hlt i ltac:(set_solver)). rewrite wrap64_small by lia.
  destruct (Z.ltb_spec (UpperBound i) MaxUint64), (Z.eqb_spec (UpperBound i + 1) h); cbn [andb]; try lia; [by eexists _, _, _|].
  intros j [Hj|[->|Hj]%elem_of_cons]%elem_of_app; [|lia|set_solver]. specialize (Hap j i Hj ltac:(set_solver)). unfold apart in Hap. lia.
Qed.

(** ** Add *)
(** An operation that ends with the set of heights described by [l']. *)
Definition becomes (m : gmap bytes bytes) (P : list Interval -> Prop) (_ : unit) (s : Tree * W) : Prop :=
  exists m' l', inv s m' l' /\ P l' /\ same_blocks m m'.

Lemma ends_becomes m n l (P : list Interval -> Prop) (x : M (Tree * W) TreeErr unit) s :
  normal l -> n = wrap64 (count l) -> P l -> wp_ x (ends m n l) s -> wp_ x (becomes m P) s.
Proof.
  intros Hn -> HP Hx. eapply wp_mono; [exact Hx|]. intros [] s' (m' & rl & Hi & Hl & Hnum & Hw & Hm & Hs).
  exists m', l. split_and!; [split_and!; [by exists rl|done..]|done..].
Qed.

Lemma items_num t rl n : items t rl -> items (set_num n t) rl.
Proof. done. Qed.

Section add.
Context (ra rb : list (ref * Interval)) (h : Z).
Hypothesis Hn : normal (ra.*2 ++ rb.*2).
Hypothesis Hh : 0 <= h <= MaxUint64.
Hypothesis Ha : Forall (fun i => UpperBound i < h) ra.*2.
Hypothesis Hb : forall j, j ∈ rb.*2 -> h < LowerBound j.

Definition adds l l' : Prop := (forall x, covers l' x <-> covers l x \/ x = h) /\ count l' = count l + 1.

Lemma adds_insert : (forall j, j ∈ ra.*2 -> UpperBound j + 1 < h) -> (forall j, j ∈ rb.*2 -> h + 1 < LowerBound j) ->
  normal (ra.*2 ++ mkInterval h h :: rb.*2) /\ adds (ra.*2 ++ rb.*2) (ra.*2 ++ mkInterval h h :: rb.*2).
Proof.
  intros Hna Hnb. split.
  - apply normal_mid. unfold wf_interval, apart. cbn. split_and!; [lia..|done|done|done].
  - split; [|rewrite !count_app, count_cons; cbn; lia]. intros x. rewrite !covers_app, covers_cons. cbn. split; [|naive_solver lia].
    intros [?|[?|?]]; [by left; left|right; lia|by left; right].
Qed.
Lemma adds_lower r i rb' : rb = (r, i) :: rb' -> LowerBound i = h + 1 -> (forall j, j ∈ ra.*2 -> UpperBound j + 1 < h) ->
  let i' := mkInterval h (UpperBound i) in
  normal (ra.*2 ++ i' :: rb'.*2) /\ adds (ra.*2 ++ i :: rb'.*2) (ra.*2 ++ i' :: rb'.*2).
Proof.
  intros -> Hi Hna i'. cbn in Hn. pose proof Hn as (Hwf & Hab & Hai & Hbi)%normal_mid. unfold wf_interval in Hwf. split.
  - apply normal_mid. unfold wf_interval, apart in *. cbn. split_and!; [lia..|done|done|done].
  - split; [|rewrite !count_app, !count_cons; cbn; lia]. intros x. rewrite !covers_app, !covers_cons. cbn. split; [|naive_solver lia].
    intros [?|[?|?]]; [by left; left| |by left; right; right]. destruct (Z.eq_dec x h); [by right|left; right; left; lia].
Qed.
Lemma adds_upper r i ra' : ra = ra' ++ [(r, i)] -> UpperBound i + 1 = h -> (forall j, j ∈ rb.*2 -> h + 1 < LowerBound j) ->
  let i' := mkInterval (LowerBound i) h in
  normal (ra'.*2 ++ i' :: rb.*2) /\ adds (ra'.*2 ++ i :: rb.*2) (ra'.*2 ++ i' :: rb.*2).
Proof.
  intros -> Hi Hnb i'. pose proof Hn as Hn1. rewrite fmap_app, <- app_assoc in Hn1. cbn in Hn1.
  pose proof Hn1 as (Hwf & Hab & Hai & Hbi)%normal_mid. unfold wf_interval in Hwf. split.
  - apply normal_mid. unfold wf_interval, apart in *. cbn. split_and!; [lia..|done|done|done].
  - split; [|rewrite !count_app, !count_cons; cbn; lia]. intros x. rewrite !covers_app, !covers_cons. cbn. split; [|naive_solver lia].
    intros [?|[?|?]]; [by left; left| |by left; right; right]. destruct (Z.eq_dec x h); [by right|left; right; left; lia].
Qed.
Lemma adds_merge r1 i1 ra' r2 i2 rb' : ra = ra' ++ [(r1, i1)] -> rb = (r2, i2) :: rb' -> UpperBound i1 + 1 = h -> LowerBound i2 = h + 1 ->
  let i' := mkInterval (LowerBound i1) (UpperBound i2) in
  normal (ra'.*2 ++ i1 :: i2 :: rb'.*2) /\ normal (ra'.*2 ++ i' :: rb'.*2) /\ adds (ra'.*2 ++ i1 :: i2 :: rb'.*2) (ra'.*2 ++ i' :: rb'.*2).
Proof.
  intros -> -> Hi1 Hi2 i'. pose proof Hn as Hn1. rewrite fmap_app, <- app_assoc in Hn1. cbn in Hn1. split; [done|].
  pose proof Hn1 as (Hwf1 & Hn2 & Ha1 & Hb1)%normal_mid. pose proof Hn2 as (Hwf2 & Hab & Ha2 & Hb2)%normal_mid. unfold wf_interval in *. split.
  - apply normal_mid. unfold wf_interval, apart in *. cbn. split_and!; [lia..|done|done|done].
  - split; [|rewrite !count_app, !count_cons; cbn; lia]. intros x. rewrite !covers_app, !covers_cons. cbn. split; [|naive_solver lia].
    intros [?|[?|?]]; [by left; left| |by left; right; right; right].
    destruct (Z.eq_dec x h); [by right|left; right]. destruct (Z.le_gt_cases x (UpperBound i1)); [left; lia|right; left; lia].
Qed.
End add.

Lemma snd_snoc ra' (r : ref) i l : (ra' ++ [(r, i)]).*2 ++ l = ra'.*2 ++ i :: l.
Proof. by rewrite fmap_app, <- app_assoc. Qed.
Lemma last_snoc ra' (r : ref) i : head (reverse (ra' ++ [(r, i)]).*1) = Some r.
Proof. by rewrite fmap_app, reverse_app. Qed.

Lemma add_height_spec t w m l h : inv (t, w) m l -> 0 <= h <= MaxUint64 ->
  wp_ (Add h) (becomes m (fun l' => forall x, covers l' x <-> covers l x \/ x = h)) (t, w).
Proof.
  intros ((rl & Hi & <- & Hn & Hnum) & Hw & Hm) Hh. cbn [fst snd] in *.
  destruct (normal_split rl.*2 h Hn) as (la & lb & Heq & Hla & Hlb). apply fmap_app_inv in Heq as (ra & rb & -> & -> & ->).
  rewrite fmap_app in *. unfold Add. apply wp_bind. eapply wp_new_interval; [exact Hi|]. intros p t1 Hi1 Hp Hf Hnum1.
  apply wp_bind, (wp_first_from _ _ ra rb p _ _ Hi1 Hp); [by rewrite Forall_fmap in Hla|by rewrite Forall_fmap in Hlb|].
  apply wp_bind, wp_get. cbn [fst].
  destruct (contains_first (heap t1) ra rb h) as [Hc Hnc]; [exact (proj1 (proj2 Hi1))|done..|].
  destruct (Contains (deref (heap t1) (head rb.*1)) h).
  { apply wp_ret. exists m, (ra.*2 ++ rb.*2). split_and!; [split_and!; [|done..]| |done].
    - exists (ra ++ rb). rewrite fmap_app. split_and!; [done..|by rewrite <- Hnum].
    - intros x. split; [by left|]. intros [?| ->]; [done|]. by apply Hc. }
  specialize (Hnc eq_refl). clear Hc. apply wp_bind, (wp_last_upto _ _ ra rb p _ _ Hi1 Hp); [by rewrite Forall_fmap in Hla| |].
  { rewrite Forall_fmap in Hlb. rewrite Forall_forall. intros x Hx. cbn. pose proof (wf_in _ x.2 Hn ltac:(set_solver)) as Hwf.
    specialize (Hnc x.2 ltac:(set_solver)). unfold wf_interval in Hwf. lia. }
  apply wp_bind, wp_modify. cbn [fst snd]. apply wp_bind, wp_get. cbn [fst heap set_num].
  set (t2 := set_num _ t1). assert (items t2 (ra ++ rb)) as Hi2 by done.
  assert (forall l', count l' = count (ra.*2 ++ rb.*2) + 1 -> numKnownHeights t2 = wrap64 (count l')) as Hcount.
  { intros l' Hl'. subst t2. cbn. by rewrite Hnum1, Hnum, wrap_add_count, Hl'. }
  destruct Hi1 as (_ & Hin & _). pose proof Hn as (Hna & Hnb & _)%normal_app.
  pose proof (adjacent_first (heap t1) rb h ltac:(intros x Hx; apply Hin; set_solver) Hnb ltac:(lia) Hnc) as Hfirst.
  pose proof (adjacent_last (heap t1) ra h ltac:(intros x Hx; apply Hin; set_solver) Hna ltac:(lia) Hla) as Hlast.
  destruct (AdjacentToLowerBound _ h), (AdjacentToUpperBound _ h); cbn [andb].
  - destruct Hfirst as (r2 & i2 & rb' & Hrb & Hi2'), Hlast as (r1 & i1 & ra' & Hra & Hi1').
    destruct (adds_merge ra rb h Hn Hh Hla Hnc r1 i1 ra' r2 i2 rb' Hra Hrb Hi1' Hi2') as (Hn0 & Hn' & Had & Hct). subst ra rb.
    rewrite (snd_snoc ra') in *. rewrite <- app_assoc in Hi2. cbn [fmap list_fmap app snd fst head] in *.
    rewrite (last_snoc ra'). cbn [must].
    eapply ends_becomes; [exact Hn'|apply Hcount; exact Hct|exact Had|]. by apply merge_ends.
  - destruct Hfirst as (r2 & i2 & rb' & Hrb & Hi2'). destruct (adds_lower ra rb h Hn Hh Hnc r2 i2 rb' Hrb Hi2' Hlast) as (Hn' & Had & Hct). subst rb.
    cbn [fmap list_fmap app snd fst head must] in *.
    eapply ends_becomes; [exact Hn'|apply Hcount; exact Hct|exact Had|]. apply (lower_ends m m w t2 ra r2 i2 rb' h (fun _ => h)); try done; apply Hn.
  - destruct Hlast as (r1 & i1 & ra' & Hra & Hi1'). destruct (adds_upper ra rb h Hn Hh Hla Hnc r1 i1 ra' Hra Hi1' Hfirst) as (Hn' & Had & Hct). subst ra.
    rewrite (snd_snoc ra') in *. rewrite <- app_assoc in Hi2. cbn [fmap list_fmap app snd fst head] in *.
    rewrite (last_snoc ra'). cbn [must].
    eapply ends_becomes; [exact Hn'|apply Hcount; exact Hct|exact Had|]. apply wp_bind, wp_ret.
    apply wp_bind, (wp_fields _ i1); [by eapply items_lookup|].
    by apply (upper_ends m w t2 ra' r1 i1 rb h (fun _ => h) LowerBound).
  - destruct (adds_insert ra rb h Hn Hh Hlast Hfirst) as (Hn' & Had & Hct).
    eapply ends_becomes; [exact Hn'|apply Hcount; exact Hct|exact Had|]. by apply (insert_ends m w t2 ra p (mkInterval h h) rb).
Qed.

(** ** Remove *)
Definition removes h l l' : Prop := (forall x, covers l' x <-> covers l x /\ x <> h) /\ count l' = count l - 1.

Section remove.
Context (la lb : list Interval) (i : Interval) (h : Z).
Hypothesis Hn : normal (la ++ i :: lb).
Hypothesis Hh : LowerBound i <= h <= UpperBound i.

(** The intervals [l] in place of [i]. *)
Lemma removes_middle l : Forall wf_interval l -> StronglySorted apart l ->
  (forall j, j ∈ l -> LowerBound i <= LowerBound j /\ UpperBound j <= UpperBound i) ->
  (forall x, covers l x <-> LowerBound i <= x <= UpperBound i /\ x <> h) -> count l = UpperBound i - LowerBound i ->
  normal (la ++ l ++ lb) /\ removes h (la ++ i :: lb) (la ++ l ++ lb).
Proof.
  intros Hwf Hs Hin Hc Hct. pose proof Hn as (Hwi & (Hna & Hnb & Hab)%normal_app & Ha & Hb)%normal_mid. unfold wf_interval in Hwi.
  split; [|split].
  - apply normal_app. split_and!; [done|apply normal_app; split_and!; [done|done|]|].
    + intros j k Hj Hk. specialize (Hin j Hj). specialize (Hb k Hk). unfold apart in *. lia.
    + intros j k Hj [Hk|Hk]%elem_of_app; [|by apply Hab]. specialize (Hin k Hk). specialize (Ha j Hj). unfold apart in *. lia.
  - intros x. rewrite !covers_app, covers_cons, Hc.
    assert (covers la x -> x <> h) by (intros (j & Hj & Hx); specialize (Ha j Hj); unfold apart in Ha; lia).
    assert (covers lb x -> x <> h) by (intros (j & Hj & Hx); specialize (Hb j Hj); unfold apart in Hb; lia). tauto.
  - rewrite !count_app, count_cons, Hct. lia.
Qed.
End remove.

Lemma covers_one i x : covers [i] x <-> LowerBound i <= x <= UpperBound i.
Proof. rewrite covers_cons. pose proof (covers_nil x). tauto. Qed.

(** Changes of the invariant of [Remove]. *)
Lemma Remove_spec t w m l h : inv (t, w) m l -> 0 <= h <= MaxUint64 ->
  wp_ (Remove h) (becomes m (fun l' => forall x, covers l' x <-> covers l x /\ x <> h)) (t, w).
Proof.
  intros ((rl & Hi & <- & Hn & Hnum) & Hw & Hm) Hh. cbn [fst snd] in *.
  destruct (normal_split rl.*2 h Hn) as (la & lb & Heq & Hla & Hlb). apply fmap_app_inv in Heq as (ra & rb & -> & -> & ->).
  rewrite fmap_app in *. unfold Remove. apply wp_bind. eapply wp_new_interval; [exact Hi|]. intros p t1 Hi1 Hp Hf Hnum1.
  apply wp_bind, (wp_first_from _ _ ra rb p _ _ Hi1 Hp); [by rewrite Forall_fmap in Hla|by rewrite Forall_fmap in Hlb|].
  apply wp_bind, wp_get. cbn [fst].
  destruct (contains_first (heap t1) ra rb h) as [Hc _]; [exact (proj1 (proj2 Hi1))|done..|].
  destruct (Contains (deref (heap t1) (head rb.*1)) h) eqn:Hcon; cbn [negb].
  2: { apply wp_ret. exists m, (ra.*2 ++ rb.*2). split_and!; [split_and!; [|done..]| |done].
       - exists (ra ++ rb). rewrite fmap_app. split_and!; [done..|by rewrite <- Hnum].
       - intros x. split; [|tauto]. intros Hx. split; [done|]. intros ->. by apply Hc in Hx. }
  destruct rb as [|[r i] rb]; [done|]. cbn [fmap list_fmap head fst snd] in *. apply wp_bind, wp_modify. cbn [fst snd].
  set (t2 := set_num _ t1). assert (items t2 (ra ++ (r, i) :: rb)) as Hi2 by done. clear Hc.
  assert (forall l', count l' = count (ra.*2 ++ i :: rb.*2) - 1 -> numKnownHeights t2 = wrap64 (count l')) as Hcount.
  { intros l' Hl'. subst t2. cbn. rewrite Hnum1, Hnum, Hl'. unfold wrap. by rewrite Zminus_mod_idemp_l. }
  pose proof (items_lookup _ _ _ _ _ Hi1) as Hr. rewrite (deref_Some _ _ i Hr) in Hcon. cbn [Contains] in Hcon.
  apply andb_true_iff in Hcon as [?%Z.leb_le ?%Z.leb_le]. pose proof (removes_middle ra.*2 rb.*2 i h Hn ltac:(lia)) as Hrem.
  pose proof Hn as (Hwi & _)%normal_mid. unfold wf_interval in Hwi.
  apply wp_bind, wp_ret. cbn [must]. apply wp_bind, (wp_fields _ i); [done|].
  destruct (Z.eqb_spec (LowerBound i) (UpperBound i)) as [Hone|Hmany]; [|destruct (Z.eqb_spec (LowerBound i) h) as [Hlo|Hlo]; [|destruct (Z.eqb_spec (UpperBound i) h) as [Hup|Hup]]].
  - destruct (Hrem []) as (Hn' & Had & Hct); [constructor|constructor|set_solver|intros x; pose proof (covers_nil x); split; [done|lia]|cbn; lia|].
    eapply ends_becomes; [exact Hn'|apply Hcount; exact Hct|exact Had|]. by apply delete_ends.
  - destruct (Hrem [mkInterval (h + 1) (UpperBound i)]) as (Hn' & Had & Hct);
      [repeat constructor; cbn; lia|repeat constructor|intros j ->%list_elem_of_singleton; cbn; lia|intros x; rewrite covers_one; cbn; lia|cbn; lia|].
    eapply ends_becomes; [exact Hn'|apply Hcount; exact Hct|exact Had|]. rewrite wrap64_small by lia. rewrite Hlo.
    apply (lower_ends m m w t2 ra r i rb (h + 1) LowerBound); try done; apply Hn.
  - destruct (Hrem [mkInterval (LowerBound i) (h - 1)]) as (Hn' & Had & Hct);
      [repeat constructor; cbn; lia|repeat constructor|intros j ->%list_elem_of_singleton; cbn; lia|intros x; rewrite covers_one; cbn; lia|cbn; lia|].
    eapply ends_becomes; [exact Hn'|apply Hcount; exact Hct|exact Had|]. rewrite wrap64_small by lia. rewrite Hup.
    rewrite <- Hup at 1. by apply (upper_ends m w t2 ra r i rb (h - 1) UpperBound LowerBound).
  - destruct (Hrem [mkInterval (LowerBound i) (h - 1); mkInterval (h + 1) (UpperBound i)]) as (Hn' & Had & Hct);
      [repeat constructor; cbn; lia|repeat constructor; unfold apart; cbn; lia|
       intros j [->|[->|?%not_elem_of_nil]%elem_of_cons]%elem_of_cons; cbn; lia|intros x; rewrite covers_cons, covers_one; cbn; lia|cbn; lia|].
    eapply ends_becomes; [exact Hn'|apply Hcount; exact Hct|exact Had|]. rewrite !wrap64_small by lia.
    by apply (split_ends m w t2 ra r i rb p (mkInterval h h) h).
Qed.
End ops.

(** ** Queries *)
Lemma tree_Contains_spec t l h : tree_rep t l -> (tree_Contains h t = true <-> covers l h).
Proof.
  intros (rl & Hi & <- & Hn & Hnum). unfold tree_Contains. destruct (alloc _ t) as [p t1] eqn:Hal.
  destruct (items_alloc _ _ _ _ _ Hi Hal) as (Hi1 & Hp & _ & _ & Hk). 
  destruct (normal_split rl.*2 h Hn) as (la & lb & Heq & Hla & Hlb). apply fmap_app_inv in Heq as (ra & rb & -> & -> & ->).
  rewrite fmap_app in *. rewrite Forall_fmap in Hla, Hlb. pose proof (items_store _ _ Hi1) as Hs. destruct Hi1 as (Ha1 & Hin & _).
  rewrite (ascend_pivot t1 ra rb p (mkInterval h h)); try done; [|intros x Hx; apply Hin; set_solver..].
  by apply (contains_first (heap t1) ra rb h); [..|rewrite Forall_fmap|rewrite Forall_fmap].
Qed.
Lemma Flatten_spec t l : tree_rep t l -> Forall2 (fun r i => heap t !! r = Some i) (Flatten t) l.
Proof.
  intros (rl & (Hi & Hin & _) & <- & _). unfold Flatten. rewrite Hi. clear Hi. induction rl as [|x rl IH]; [constructor|]. cbn.
  constructor; [apply Hin; by left|]. apply IH. intros y Hy. apply Hin. by right.
Qed.

(** ** Loading *)
Lemma insert_interval_spec t l i : tree_rep t l -> normal (l ++ [i]) -> tree_rep (insert_interval t i) (l ++ [i]).
Proof.
  intros (rl & Hi & <- & Hn & Hnum) Hn'. unfold insert_interval. destruct (alloc i t) as [p t1] eqn:Hal.
  destruct (items_alloc _ _ _ _ _ Hi Hal) as (Hi1 & Hp & _ & Hnum1 & _).
  exists (rl ++ [(p, i)]). rewrite fmap_app. split_and!; [|done|done|].
  - apply (items_insert t1 rl [] p i); [by rewrite app_nil_r|done|]. apply normal_upper_sorted. by rewrite fmap_app.
  - cbn. rewrite Hnum1, Hnum, wrap_add_count, count_app, count_cons. f_equal. cbn. lia.
Qed.
Lemma insert_intervals l0 l t : tree_rep t l0 -> normal (l0 ++ l) -> tree_rep (foldl insert_interval t l) (l0 ++ l).
Proof.
  revert l0 t. induction l as [|i l IH]; intros l0 t Ht Hn; [by rewrite app_nil_r|]. cbn.
  rewrite (cons_middle i), app_assoc in *. apply IH; [|done]. apply insert_interval_spec; [done|].
  by apply normal_app in Hn as (Hn & _).
Qed.
Lemma empty_tree : tree_rep (mkTree ∅ NewG 0) [].
Proof.
  exists []. split_and!; [split_and!; [apply new_items|set_solver|constructor]|done|by split; constructor|done].
Qed.

Definition interval_entry i : bytes * bytes := (makeIntervalKey (UpperBound i), PackUInt64 (LowerBound i)).
Lemma in_range_prefix prefix k : in_range [] prefix k <-> HasPrefix k prefix = true.
Proof. unfold in_range. split; [by intros []|]. intros Hk. split; [done|]. by destruct k. Qed.
Lemma mirror_listing m l : normal l -> mirror m l -> listing (in_range [] intervalPrefix) m (interval_entry <$> l).
Proof.
  intros Hn Hm. split.
  - clear Hm. induction l as [|i l IH]; [constructor|]. apply normal_cons in Hn as (Hi & Ha & Hn). cbn. constructor; [by apply IH|].
    rewrite Forall_forall in Ha. rewrite Forall_forall. intros k ([? v] & -> & (j & [= -> ->] & Hj)%list_elem_of_fmap)%list_elem_of_fmap. cbn [fst].
    pose proof (wf_in l j Hn Hj). apply (key_order intervalPrefix); [by apply wf_upper..|]. specialize (Ha j Hj). unfold apart, wf_interval in *. lia.
  - intros k v. rewrite in_range_prefix, list_elem_of_fmap. unfold interval_entry. split.
    + intros (i & [= -> ->] & Hi). split; [|apply interval_key_prefix]. apply (Hm _ _ (interval_key_prefix _)). by exists i.
    + intros [Hk Hp]. apply (Hm k v Hp) in Hk as (i & Hi & -> & ->). by exists i.
Qed.

Section load.
Context `{DatabaseLaws D}.

Lemma get_intervals_spec d m it c l fuel acc : db_open d m -> Forall wf_interval l -> it_at it c (interval_entry <$> l) ->
  (length l < fuel)%nat -> get_intervals fuel d it acc = Ok (acc ++ l).
Proof.
  intros Hd. revert it c l acc. induction fuel as [|fuel IH]; intros it c l acc Hwf Hat Hf; [lia|]. cbn [get_intervals].
  pose proof (next_law d m it c _ Hd Hat) as Hnx. destruct l as [|i l]; cbn [fmap list_fmap] in Hnx.
  - destruct Hnx as (it' & -> & Hat'). rewrite (error_law _ _ _ Hat'). by rewrite app_nil_r.
  - destruct Hnx as (it' & -> & Hat'). destruct (key_law _ _ _ _ Hat') as [-> ->]. apply Forall_cons in Hwf as [Hi Hwf].
    change ((length (makeIntervalKey (UpperBound i)) <? prefixLen)%nat) with false.
    change (drop prefixLen (makeIntervalKey (UpperBound i))) with (PackUInt64 (UpperBound i)). cbv zeta iota.
    unfold wf_interval in Hi. rewrite !parse_pack by (apply is_u64_max; lia). unfold mbind, result_bind. cbn [of_db].
    rewrite (IH it' (Some (interval_entry i)) l); [|done..|cbn in Hf; lia]. rewrite <- app_assoc. cbn. by destruct i.
Qed.

Lemma NewTree_spec d m l fuel : db_open d m -> mirror m l -> normal l -> (length l < fuel)%nat ->
  exists t, NewTree fuel d = Ok t /\ tree_rep t l.
Proof.
  intros Hd Hm Hn Hf. unfold NewTree, GetIntervals, NewIteratorWithPrefix.
  destruct (new_iterator_law d m [] intervalPrefix Hd) as (L & HL & Hat).
  rewrite (listing_unique _ _ _ _ HL (mirror_listing m l Hn Hm)) in Hat.
  rewrite (get_intervals_spec d m _ None l fuel []); [|done|apply Hn|done|done]. eexists. split; [done|].
  apply (insert_intervals []); [apply empty_tree|done].
Qed.
End load.

(** ** The writers *)
#[export] Instance database_writer_laws `{DatabaseLaws D} : WriterLaws (W := D) db_open.
Proof. split; intros; [by apply put_law|by apply delete_law]. Qed.

(** A batch over a database that holds [base], seen as the contents it will write. *)
Definition batch_rep `{DatabaseLaws D} (base : gmap bytes bytes) (b : Batch D) (m : gmap bytes bytes) : Prop :=
  exists ops, batch_ops b ops /\ m = apply_ops ops base.
Lemma batch_writer_laws `{DatabaseLaws D} base : @WriterLaws (Batch D) (batch_writer D) (batch_rep base).
Proof.
  assert (forall r ops op m, m = apply_ops ops base -> appends batch_ops r ops (ops ++ [op]) ->
    writes (batch_rep base) r m (apply_op m op)) as Hw.
  { intros [b [[]|e]] ops op m -> Ha; cbn in *.
    - exists (ops ++ [op]). split; [done|]. unfold apply_ops. by rewrite foldl_app.
    - destruct Ha as [He Hb]. split; [done|]. by exists ops. }
  split.
  - intros b m k v (ops & Hb & Hm). exact (Hw _ _ (mkOp k v false) m Hm (batch_put_law b ops k v Hb)).
  - intros b m k (ops & Hb & Hm). exact (Hw _ _ (mkOp k [] true) m Hm (batch_delete_law b ops k Hb)).
Qed.

(** ** The contract *)
(** C30: an interval tree is a set of heights: membership, the flattened intervals, the
    number of heights and the updates are those of a set of 64-bit numbers, and the
    intervals are always the shortest description of it, in the tree and in the
    database alike.  The changes in place of the intervals inside the B-tree never
    break its order.  An update only fails with an error of the database, and writes
    to no key but those of intervals. *)
Theorem interval_tree_correct `{KeyValueWriterDeleter W} (w_rep : W -> gmap bytes bytes -> Prop) `{!WriterLaws w_rep}
    (t : Tree) (w : W) m l h : inv w_rep (t, w) m l -> 0 <= h <= MaxUint64 ->
  (tree_Contains h t = true <-> covers l h) /\
  Forall2 (fun r i => heap t !! r = Some i) (Flatten t) l /\ normal l /\
  Len t = wrap64 (count l) /\
  match Add h (t, w) with
  | (s', Ok _) => exists m' l', inv w_rep s' m' l' /\ (forall x, covers l' x <-> covers l x \/ x = h) /\ same_blocks m m'
  | (_, Err e) => db_fault e
  end /\
  match Remove h (t, w) with
  | (s', Ok _) => exists m' l', inv w_rep s' m' l' /\ (forall x, covers l' x <-> covers l x /\ x <> h) /\ same_blocks m m'
  | (_, Err e) => db_fault e
  end.
Proof.
  intros Hinv Hh. pose proof (add_height_spec w_rep t w m l h Hinv Hh) as Hadd. pose proof (Remove_spec w_rep t w m l h Hinv Hh) as Hrem.
  destruct Hinv as (Ht & _). cbn [fst] in Ht. split_and!; [by apply tree_Contains_spec|by apply Flatten_spec| | | |].
  - by destruct Ht as (rl & _ & _ & Hn & _).
  - by destruct Ht as (rl & _ & _ & _ & Hnum).
  - unfold wp in Hadd. by destruct (Add h (t, w)) as [s' [[]|e]].
  - unfold wp in Hrem. by destruct (Remove h (t, w)) as [s' [[]|e]].
Qed.

(** C34: restarting on the database that a tree has written to gives back the tree:
    the same set, the same intervals and the same number of heights. *)
Theorem tree_reload `{DatabaseLaws D} (t : Tree) (d : D) m l : inv db_open (t, d) m l ->
  exists t', NewTree (S (length (Flatten t))) d = Ok t' /\ Len t' = Len t /\
    Forall2 (fun r r' => exists i, heap t !! r = Some i /\ heap t' !! r' = Some i) (Flatten t) (Flatten t') /\
    inv db_open (t', d) m l.
Proof.
  intros (Ht & Hd & Hm). cbn [fst snd] in *. pose proof (Flatten_spec t l Ht) as Hf.
  assert (normal l) as Hn by by destruct Ht as (rl & _ & _ & Hn & _).
  destruct (NewTree_spec d m l (S (length (Flatten t))) Hd Hm Hn) as (t' & Hnew & Ht').
  { rewrite (Forall2_length _ _ _ Hf). lia. }
  exists t'. split_and!; [done| | |by split].
  - destruct Ht as (rl & _ & _ & _ & Hnum), Ht' as (rl' & _ & _ & _ & Hnum'). unfold Len. congruence.
  - pose proof (Flatten_spec t' l Ht') as Hf'. eapply Forall2_trans; [|exact Hf|apply Forall2_flip; exact Hf'].
    cbn.
    intros r i r' Hr Hr'. by exists i.
Qed.
End tree.

(** The heights 3, 4 and 6 over a database in memory; adding 5 joins the intervals. *)
Section example.
#[local] Existing Instances elements_order Memdb.memdb_database Memdb.memdb_laws list_btree list_btree_laws database_writer.
Definition some_tree : Tree :=
  mkTree {[ 1%positive := mkInterval 3 4; 2%positive := mkInterval 6 6 ]} [1%positive; 2%positive] 3.
Definition some_contents : gmap bytes bytes :=
  {[ makeIntervalKey 4 := PackUInt64 3; makeIntervalKey 6 := PackUInt64 6 ]}.
Definition some_db : Memdb.Memdb := Memdb.mkMemdb (Some some_contents).
Definition some_intervals : list Interval := [mkInterval 3 4; mkInterval 6 6].

Lemma some_inv : inv db_open (some_tree, some_db) some_contents some_intervals.
Proof.
  split_and!; [|done|].
  - exists [(1%positive, mkInterval 3 4); (2%positive, mkInterval 6 6)]. split_and!; [split_and!|done|split|done].
    + done.
    + intros x [->|[->|?%not_elem_of_nil]%elem_of_cons]%elem_of_cons; done.
    + repeat constructor; cbn; lia.
    + repeat constructor; cbn; unfold MaxUint64; lia.
    + repeat constructor; unfold apart; cbn; lia.
  - intros k v _. unfold some_contents, some_intervals. cbn [snd]. rewrite lookup_insert_Some, lookup_singleton_Some.
    setoid_rewrite elem_of_cons. setoid_rewrite list_elem_of_singleton. split.
    + intros [[<- <-]|[_ [<- <-]]]; [exists (mkInterval 3 4)|exists (mkInterval 6 6)]; cbn; tauto.
    + intros (i & [->| ->] & -> & ->); [by left|right]. split; [|done]. vm_compute. discriminate.
Qed.

Lemma interval_tree_correct_witness :
  tree_Contains 4 some_tree = true /\
  match Add 5 (some_tree, some_db) with
  | (s', Ok _) => exists m' l', inv db_open s' m' l' /\ (forall x, covers l' x <-> covers some_intervals x \/ x = 5) /\ same_blocks some_contents m'
  | (_, Err e) => False
  end.
Proof.
  pose proof (interval_tree_correct db_open some_tree some_db _ _ 5 some_inv ltac:(unfold MaxUint64; lia)) as (_ & _ & _ & _ & Hadd & _).
  split; [vm_compute; reflexivity|].
  destruct (Add 5 (some_tree, some_db)) as [s' [[]|e]] eqn:He; [exact Hadd|]. vm_compute in He. discriminate He.
Defined.

Lemma tree_reload_witness : exists t', NewTree 3 some_db = Ok t' /\ Len t' = 3.
Proof.
  destruct (tree_reload some_tree some_db _ _ some_inv) as (t' & Hnew & Hlen & _). exists t'. split; [exact Hnew|exact Hlen].
Defined.
End example.
End IntervalFacts.
