(* ===== verification/BootstrapStorage.v ===== *)
(** * The blocks that a bootstrapping node has fetched
    Models [avalanchego/snow/engine/snowman/bootstrap/storage.go]:
    [getMissingBlockIDs], [process] and [execute], over the interval tree and the
    database of [Interval].  Parsing, verifying and accepting blocks belong to the
    VM: parsing is a function, and [vm_ok] says whether a call succeeds after the
    calls of the log.  Logging, compaction and progress estimates are left out. *)
From Stdlib Require Import Sorting.Sorted.
From stdpp Require Import sorting.
From S2P Require Import Prelude Monads Sorting GoLibrary MapOrder Database BTree Interval IntervalFacts.

Module BootstrapStorage.
Import Sorting Database BTree Interval IntervalFacts.

Section storage.
Context {ID : Type} `{Countable ID}.

Record Block := mkBlock { blk_ID : ID; Parent : ID; Height : Z; Bytes : bytes }.

Inductive Event :=
  | Verified (b : Block)
  | Accepted (b : Block).

Inductive StErr :=
  | ErrTree (e : TreeErr)
  | ErrParse
  | ErrVerify
  | ErrAccept
  | ErrFuel.
Definition of_tree {A} (r : result TreeErr A) : result StErr A :=
  match r with Ok a => Ok a | Err e => Err (ErrTree e) end.
Definition of_db' {A} (r : result DbErr A) : result StErr A := of_tree (of_db r).

Variable ParseBlock : bytes -> option Block.
Definition parse (b : bytes) : result StErr Block :=
  match ParseBlock b with Some b => Ok b | None => Err ErrParse end.

Context `{BTree ref}.

(** ** getMissingBlockIDs *)
Definition missing_step `{Database D} (db : D) (tree : Tree) (lastHeightToFetch : Z) (missingBlocks : gset ID) (i : ref) : result StErr (gset ID) :=
  match heap tree !! i with
  | None => Err (ErrTree NilPointer)
  | Some i =>
      if LowerBound i <=? lastHeightToFetch then Ok missingBlocks
      else
        blkBytes ← of_db' (GetBlock db (LowerBound i));
        blk ← parse blkBytes;
        Ok ({[Parent blk]} ∪ missingBlocks)
  end.
Definition getMissingBlockIDs `{Database D} (db : D) (tree : Tree) (lastAcceptedHeight : Z) : result StErr (gset ID) :=
  let lastHeightToFetch := wrap64 (lastAcceptedHeight + 1) in
  foldR (missing_step db tree lastHeightToFetch) ∅ (Flatten tree).

(** ** process *)
Section process.
Context `{KeyValueWriterDeleter W}.
Variables (lastAcceptedHeight : Z) (ancestors : gmap ID Block).

(** The tree and the database, and the set [missingBlockIDs] of the caller. *)
Definition on_tree_db {A} (m : M (Tree * W) TreeErr A) : M ((Tree * W) * gset ID) StErr A :=
  zoom_err fst (fun s t => (s, t.2)) ErrTree m.

(** The body of the loop: the next block, or the result. *)
Definition process_step (blk : Block) : M ((Tree * W) * gset ID) StErr (Block + option ID) :=
  modify (fun s => (s.1, s.2 ∖ {[blk_ID blk]}));;
  wantsParent ← on_tree_db (AddBlock lastAcceptedHeight (Height blk) (Bytes blk));
  if negb wantsParent then mret (inr None)
  else
    let parentID := Parent blk in
    match ancestors !! parentID with
    | None => mret (inr (Some parentID))
    | Some parent => mret (inl parent)
    end.

(** [None] is the result [ids.Empty, false]. *)
Definition process (blk : Block) : M ((Tree * W) * gset ID) StErr (option ID) :=
  loop ErrFuel (S (S (base.size ancestors))) process_step blk.
End process.

(** ** execute *)
Section execute.
Context `{Database D}.
(** [shouldHalt] at its n-th call, and the VM. *)
Variables (shouldHalt : nat -> bool) (vm_ok : list Event -> Event -> bool).

Definition batchWritePeriod : Z := 64.
Definition iteratorReleasePeriod : Z := 1024.
Definition minBlocksToCompact : Z := 5000.

(** [x_halts] counts the calls of [shouldHalt]. *)
Record ExecState := mkExec {
  x_tree : Tree;
  x_db : D;
  batch : Batch D;
  processedSinceBatchWrite : Z;
  iterator : Iterator D;
  processedSinceIteratorRelease : Z;
  x_log : list Event;
  x_halts : nat;
}.

Definition set_written (d : D) (b : Batch D) (s : ExecState) : ExecState :=
  mkExec (x_tree s) d b (processedSinceBatchWrite s) (iterator s) (processedSinceIteratorRelease s) (x_log s) (x_halts s).
Definition set_since (n : Z) (s : ExecState) : ExecState :=
  mkExec (x_tree s) (x_db s) (batch s) n (iterator s) (processedSinceIteratorRelease s) (x_log s) (x_halts s).
Definition set_iterator (i : Iterator D) (n : Z) (s : ExecState) : ExecState :=
  mkExec (x_tree s) (x_db s) (batch s) (processedSinceBatchWrite s) i n (x_log s) (x_halts s).
Definition set_tree_batch (tb : Tree * Batch D) (s : ExecState) : ExecState :=
  mkExec tb.1 (x_db s) tb.2 (processedSinceBatchWrite s) (iterator s) (processedSinceIteratorRelease s) (x_log s) (x_halts s).
Definition set_log (l : list Event) (s : ExecState) : ExecState :=
  mkExec (x_tree s) (x_db s) (batch s) (processedSinceBatchWrite s) (iterator s) (processedSinceIteratorRelease s) l (x_halts s).
Definition set_halts (n : nat) (s : ExecState) : ExecState :=
  mkExec (x_tree s) (x_db s) (batch s) (processedSinceBatchWrite s) (iterator s) (processedSinceIteratorRelease s) (x_log s) n.

Definition call_shouldHalt : M ExecState StErr bool :=
  s ← get; modify (set_halts (S (x_halts s)));; mret (shouldHalt (x_halts s)).

(** [db.Compact(nil, nil)], whose error is logged and dropped. *)
Definition compact : M ExecState StErr unit := fun s =>
  let '(d, _) := Compact [] None (x_db s) in (set_written d (batch s) s, Ok tt).

(** [writeBatch] *)
Definition writeBatch : M ExecState StErr unit :=
  s ← get;
  if processedSinceBatchWrite s =? 0 then mret tt
  else
    modify (set_since 0);;
    zoom_err x_db (fun d s => set_written d (batch s) s) (fun e => ErrTree (ErrDb e)) (b_Write (batch s));;
    modify (fun s => set_written (x_db s) (b_Reset (batch s)) s).

(** A call of the VM, which fails or is recorded. *)
Definition call_vm (err : StErr) (e : Event) : M ExecState StErr unit :=
  s ← get;
  if vm_ok (x_log s) e then
    modify (set_log (x_log s ++ [e]))
  else fail err.

(** [if processedSinceIteratorRelease >= iteratorReleasePeriod { ... }] *)
Definition renewIterator (height : Z) : M ExecState StErr unit :=
  s ← get;
  match Error (iterator s) with
  | Some e => fail (ErrTree (ErrDb e))
  | None =>
      writeBatch;;
      modify (fun s => set_iterator (Release (iterator s)) 0 s);;
      modify (fun s => set_iterator (GetBlockIteratorWithStart (x_db s) (wrap64 (height + 1))) 0 s)
  end.

(** The body of the loop for the block that the iterator is at. *)
Definition execute_block (lastAcceptedHeight : Z) : M ExecState StErr unit :=
  s ← get;
  blk ← lift (parse (Value (iterator s)));
  let height := Height blk in
  zoom_err (fun s => (x_tree s, batch s)) set_tree_batch ErrTree (@RemoveBlock _ _ (batch_writer D) height);;
  modify (fun s => set_since (processedSinceBatchWrite s + 1) s);;
  s ← get;
  when (batchWritePeriod <=? processedSinceBatchWrite s) writeBatch;;
  modify (fun s => set_iterator (iterator s) (processedSinceIteratorRelease s + 1) s);;
  s ← get;
  when (iteratorReleasePeriod <=? processedSinceIteratorRelease s) (renewIterator height);;
  if height <=? lastAcceptedHeight then mret tt
  else
    call_vm ErrVerify (Verified blk);;
    call_vm ErrAccept (Accepted blk).

(** [for !shouldHalt() && iterator.Next() { ... }] *)
Definition execute_step (lastAcceptedHeight : Z) (_ : unit) : M ExecState StErr (unit + unit) :=
  halted ← call_shouldHalt;
  if halted : bool then mret (inr tt)
  else
    s ← get;
    let '(it, more) := Next (x_db s) (iterator s) in
    modify (fun s => set_iterator it (processedSinceIteratorRelease s) s);;
    if more then execute_block lastAcceptedHeight;; mret (inl tt) else mret (inr tt).

(** What [execute] does between the declaration of its variables and the deferred
    function. *)
Definition execute_body (fuel : nat) (lastAcceptedHeight : Z) : M ExecState StErr unit :=
  loop ErrFuel fuel (execute_step lastAcceptedHeight) tt;;
  writeBatch;;
  s ← get;
  match Error (iterator s) with Some e => fail (ErrTree (ErrDb e)) | None => mret tt end.

Definition execute_deferred (totalNumberToProcess : Z) : M ExecState StErr unit :=
  modify (fun s => set_iterator (Release (iterator s)) (processedSinceIteratorRelease s) s);;
  s ← get;
  let numProcessed := wrap64 (totalNumberToProcess - Len (x_tree s)) in
  halted ← call_shouldHalt;
  when ((minBlocksToCompact <=? numProcessed) && negb halted) compact.

(** [defer d] before [m]: [d] runs whatever [m] returns. *)
Definition defer {A} (d : M ExecState StErr unit) (m : M ExecState StErr A) : M ExecState StErr A := fun s =>
  let '(s, r) := m s in ((d s).1, r).

Definition execute (fuel : nat) (lastAcceptedHeight : Z) : M ExecState StErr unit :=
  s ← get;
  let totalNumberToProcess := Len (x_tree s) in
  when (minBlocksToCompact <=? totalNumberToProcess) compact;;
  modify (fun s => mkExec (x_tree s) (x_db s) (NewBatch (x_db s)) 0 (GetBlockIterator (x_db s)) 0 (x_log s) 0);;
  defer (execute_deferred totalNumberToProcess) (execute_body fuel lastAcceptedHeight).
End execute.
End storage.
End BootstrapStorage.
