(* ===== verification/BootstrapFacts.v ===== *)
(** * The bootstrapping storage is a map of blocks
    The interval tree and the database of [BootstrapStorage] together hold a map from
    heights to blocks; what is fetched, what is still missing and what is executed
    are functions of that map. *)
From Stdlib Require Import Sorting.Sorted.
From S2P Require Import Prelude Monads Sorting GoLibrary MapOrder Database Memdb BTree Interval IntervalFacts BootstrapStorage.

Module BootstrapFacts.
Import Sorting Database BTree Interval IntervalFacts BootstrapStorage.

Section facts.
Context {ID : Type} `{Countable ID} (ParseBlock : bytes -> option (Block (ID := ID))) `{BTreeLaws ref}.
Implicit Types (B : gmap Z (Block (ID := ID))) (m : gmap bytes bytes) (h last : Z).
Abbreviation Block := (Block (ID := ID)).
Abbreviation Event := (Event (ID := ID)).

(** ** The abstract state *)
(** A block that is known by its height and parsed from its bytes. *)
Definition good (b : Block) : Prop := 0 <= Height b <= MaxUint64 /\ ParseBlock (Bytes b) = Some b.
Definition stored m B : Prop := forall k v, HasPrefix k blockPrefix = true ->
  (m !! k = Some v <-> exists h b, B !! h = Some b /\ k = makeBlockKey h /\ v = Bytes b).
Definition good_map B : Prop := forall h b, B !! h = Some b -> good b /\ Height b = h.

(** The tree and the database hold the blocks [B]. *)
Definition store_rep {W} (w_rep : W -> gmap bytes bytes -> Prop) (s : Tree * W) m B : Prop :=
  exists l, inv w_rep s m l /\ stored m B /\ good_map B /\ forall h, covers l h <-> is_Some (B !! h).

(** Fetching a block, and whether its parent is wanted then. *)
Definition fetch last (b : Block) B : gmap Z Block :=
  if (Height b <=? last) || bool_decide (is_Some (B !! Height b)) then B else <[Height b := b]> B.
Definition wants last (b : Block) B : bool :=
  negb (Height b <=? last) && bool_decide (B !! Height b = None) &&
  negb (Height b - 1 =? last) && bool_decide (B !! (Height b - 1) = None).

Lemma block_key_prefix v : HasPrefix (makeBlockKey v) blockPrefix = true.
Proof. unfold makeBlockKey. cbn. by destruct (PackUInt64 v). Qed.
Lemma block_not_interval k : HasPrefix k blockPrefix = true -> HasPrefix k intervalPrefix = false.
Proof. destruct k as [|x k]; [done|]. cbn. destruct x as [|[]|]; done. Qed.
Lemma block_key_inj v v' : is_u64 v -> is_u64 v' -> makeBlockKey v = makeBlockKey v' -> v = v'.
Proof. intros Hv Hv' Heq. apply (app_inv_head blockPrefix) in Heq. by apply pack_inj. Qed.
Lemma good_u64 b : good b -> is_u64 (Height b).
Proof. intros [Hh _]. by apply is_u64_max. Qed.

Lemma stored_same m m' B : same_blocks m m' -> stored m B -> stored m' B.
Proof. intros Hs Hst k v Hk. rewrite Hs by by apply block_not_interval. by apply Hst. Qed.
Lemma stored_insert m B b : good_map B -> good b -> stored m B ->
  stored (<[makeBlockKey (Height b) := Bytes b]> m) (<[Height b := b]> B).
Proof.
  intros HB Hb Hst k v Hk. destruct (decide (k = makeBlockKey (Height b))) as [->|Hne].
  - rewrite lookup_insert_eq. split.
    + intros [= <-]. exists (Height b), b. by rewrite lookup_insert_eq.
    + intros (h & b' & Hl & Heq & ->). destruct (decide (h = Height b)) as [->|Hne]; [rewrite lookup_insert_eq in Hl; congruence|].
      rewrite lookup_insert_ne in Hl by done. destruct (HB _ _ Hl) as [Hg <-]. exfalso. apply Hne.
      symmetry. apply block_key_inj; [by apply good_u64..|done].
  - rewrite lookup_insert_ne, (Hst k v Hk) by done. split.
    + intros (h & b' & Hl & -> & ->). exists h, b'. rewrite lookup_insert_ne; [done|]. congruence.
    + intros (h & b' & Hl & -> & ->). exists h, b'. rewrite lookup_insert_ne in Hl; [done|]. congruence.
Qed.
Lemma stored_delete m B h : good_map B -> is_u64 h -> stored m B -> stored (delete (makeBlockKey h) m) (delete h B).
Proof.
  intros HB Hu Hst k v Hk. destruct (decide (k = makeBlockKey h)) as [->|Hne].
  - rewrite lookup_delete_eq. split; [done|]. intros (h' & b' & Hl & Heq & ->). apply lookup_delete_Some in Hl as [Hne Hl].
    destruct (HB _ _ Hl) as [Hg <-]. exfalso. apply Hne. apply block_key_inj; [done|by apply good_u64|done].
  - rewrite lookup_delete_ne, (Hst k v Hk) by done. split.
    + intros (h' & b' & Hl & -> & ->). exists h', b'. rewrite lookup_delete_ne; [done|]. congruence.
    + intros (h' & b' & Hl & -> & ->). exists h', b'. apply lookup_delete_Some in Hl as [_ Hl]. done.
Qed.

(** ** The operations of blocks.go *)
Section writer.
Context `{KeyValueWriterDeleter W} (w_rep : W -> gmap bytes bytes -> Prop) `{!WriterLaws w_rep}.

Lemma AddBlock_spec last b s m B : store_rep w_rep s m B -> good b -> 0 <= last ->
  wp db_fault (AddBlock last (Height b) (Bytes b))
    (fun r s' => r = wants last b B /\ exists m', store_rep w_rep s' m' (fetch last b B)) s.
Proof.
  intros (l & ((Ht & Hw & Hm) & Hst & HB & Hc)) Hb Hlast. destruct s as [t w]. cbn [fst snd] in *.
  unfold AddBlock, fetch, wants. apply wp_bind, wp_get. cbn [fst].
  destruct (Z.leb_spec (Height b) last) as [Hle|Hgt]; cbn [orb negb andb].
  { apply wp_ret. split; [done|]. exists m, l. done. }
  pose proof (tree_Contains_spec t l (Height b) Ht) as Hcon. rewrite Hc in Hcon.
  destruct (tree_Contains (Height b) t).
  { apply wp_ret. rewrite (bool_decide_true (is_Some _)) by by apply Hcon.
    rewrite bool_decide_false by (destruct (proj1 Hcon eq_refl) as [x ->]; done). split; [done|]. exists m, l. done. }
  assert (B !! Height b = None) as Hnone by (destruct (B !! Height b); [by assert (false = true) by by apply Hcon; eexists|done]).
  rewrite Hnone, (bool_decide_false (is_Some _)) by apply is_Some_None. rewrite bool_decide_true by done. cbn [andb].
  destruct Hb as [Hh Hp].
  apply wp_bind. eapply wp_writes; [by apply w_put_law|]. intros w1 Hw1.
  assert (inv w_rep (t, w1) (<[makeBlockKey (Height b) := Bytes b]> m) l) as Hinv1.
  { split_and!; [done..|]. apply mirror_other; [apply block_not_interval, block_key_prefix|done]. }
  apply wp_bind. eapply wp_mono; [by apply (add_height_spec w_rep _ _ _ l (Height b) Hinv1)|].
  intros [] s2 (m2 & l2 & Hinv2 & Hc2 & Hs2). apply wp_bind, wp_get, wp_ret.
  assert (forall h, covers l2 h <-> is_Some (<[Height b := b]> B !! h)) as Hcov.
  { intros h. rewrite Hc2, Hc, lookup_insert_is_Some'. naive_solver. }
  rewrite wrap64_small by lia. split.
  - pose proof (tree_Contains_spec s2.1 l2 (Height b - 1) (proj1 Hinv2)) as Hc'. rewrite Hcov in Hc'.
    rewrite lookup_insert_ne in Hc' by lia. f_equal. destruct (tree_Contains _ _), (B !! (Height b - 1)); cbn.
    + done.
    + by destruct (proj1 Hc' eq_refl).
    + by assert (false = true) by by apply Hc'; eexists.
    + done.
  - exists m2, l2. split_and!; [done| | |done].
    + eapply stored_same; [exact Hs2|]. by apply stored_insert.
    + intros h b'. rewrite lookup_insert_Some. intros [[<- <-]|[_ Hl]]; [done|by apply HB].
Qed.

Lemma RemoveBlock_spec h s m B : store_rep w_rep s m B -> 0 <= h <= MaxUint64 ->
  wp db_fault (RemoveBlock h) (fun _ s' => exists m', store_rep w_rep s' m' (delete h B)) s.
Proof.
  intros (l & ((Ht & Hw & Hm) & Hst & HB & Hc)) Hh. destruct s as [t w]. cbn [fst snd] in *.
  unfold RemoveBlock. apply wp_bind. eapply wp_writes; [by apply w_delete_law|]. intros w1 Hw1.
  eapply wp_mono; [apply (Remove_spec w_rep t w1 (delete (makeBlockKey h) m) l h); [|done]|].
  - split_and!; [done..|]. apply mirror_other_delete; [apply block_not_interval, block_key_prefix|done].
  - intros [] s2 (m2 & l2 & Hinv2 & Hc2 & Hs2). exists m2, l2. split_and!; [done| | |].
    + eapply stored_same; [exact Hs2|]. apply stored_delete; [done|by apply is_u64_max|done].
    + intros h' b' [_ Hl]%lookup_delete_Some. by apply HB.
    + intros h'. rewrite Hc2, Hc, lookup_delete_is_Some. naive_solver.
Qed.
End writer.

(** ** What is missing *)
Lemma lower_iff l h : normal l -> ((exists i, i ∈ l /\ LowerBound i = h) <-> covers l h /\ ~ covers l (h - 1)).
Proof.
  intros Hn. split.
  - intros (i & Hi & <-). apply list_elem_of_split in Hi as (la & lb & ->).
    pose proof Hn as (Hwf & _ & Ha & Hb)%normal_mid. unfold wf_interval in Hwf. split.
    + apply covers_app. right. apply covers_cons. lia.
    + intros (j & [Hj|[->|Hj]%elem_of_cons]%elem_of_app & Hc); [specialize (Ha j Hj)|lia|specialize (Hb j Hj)]; unfold apart in *; lia.
  - intros ((i & Hi & Hc) & Hno). exists i. split; [done|]. destruct (Z.eq_dec (LowerBound i) h); [done|].
    exfalso. apply Hno. exists i. split; [done|lia].
Qed.

Definition db_fault' (e : StErr) : Prop := exists e', e = ErrTree e' /\ db_fault e'.

Section missing.
Context `{DatabaseLaws D}.

Lemma missing_step_eq (d : D) t x acc r i : heap t !! r = Some i ->
  missing_step ParseBlock d t x acc r =
    (if LowerBound i <=? x then Ok acc
     else blkBytes ← of_db' (GetBlock d (LowerBound i)); blk ← parse ParseBlock blkBytes; Ok ({[Parent blk]} ∪ acc)).
Proof. unfold missing_step. by intros ->. Qed.
Lemma missing_loop (d : D) t m B x refs l acc : db_open d m -> stored m B -> good_map B ->
  Forall2 (fun r i => heap t !! r = Some i) refs l -> (forall i, i ∈ l -> is_Some (B !! LowerBound i)) ->
  match foldR (missing_step ParseBlock d t x) acc refs with
  | Ok X => forall id, id ∈ X <-> id ∈ acc \/ exists i b, i ∈ l /\ x < LowerBound i /\ B !! LowerBound i = Some b /\ Parent b = id
  | Err e => db_fault' e
  end.
Proof.
  intros Hd Hst HB Hl. revert acc. induction Hl as [|r i refs l Hr Hl IH]; intros acc Hin; cbn [foldR].
  { intros id. split; [by left|]. intros [?|(i & b & Hi & _)]; [done|]. by apply elem_of_nil in Hi. }
  rewrite (missing_step_eq d t x acc r i Hr). destruct (Hin i ltac:(by left)) as [b Hb].
  specialize (fun acc => IH acc (fun j Hj => Hin j ltac:(by right))).
  destruct (Z.leb_spec (LowerBound i) x) as [Hle|Hgt].
  - cbn. specialize (IH acc). destruct (foldR _ acc refs) as [X|e]; [|done]. intros id. rewrite IH.
    setoid_rewrite elem_of_cons. split; [naive_solver|]. intros [?|(j & b' & [->|Hj] & Hx & Hrest)]; [by left|lia|right; by exists j, b'].
  - unfold GetBlock. pose proof (get_law d m (makeBlockKey (LowerBound i)) Hd) as Hget.
    rewrite (proj2 (Hst _ (Bytes b) (block_key_prefix _)) (ex_intro _ _ (ex_intro _ _ (conj Hb (conj eq_refl eq_refl))))) in Hget.
    destruct Hget as [->|(e & -> & He)]; [|exists (ErrDb e); split; [done|by exists e]].
    cbn [of_db' of_tree of_db mbind result_bind]. unfold parse. destruct (HB _ _ Hb) as [[_ ->] _]. cbn [mbind result_bind].
    specialize (IH ({[Parent b]} ∪ acc)). destruct (foldR _ _ refs) as [X|e]; [|done]. intros id. rewrite IH, elem_of_union, elem_of_singleton.
    setoid_rewrite elem_of_cons. split.
    + intros [[->|?]|(j & b' & Hj & Hrest)]; [right; exists i, b; naive_solver|by left|right; exists j, b'; naive_solver].
    + intros [?|(j & b' & [->|Hj] & Hx & Hb' & <-)]; [by left; right|left; left; congruence|right; by exists j, b'].
Qed.

Lemma missing_spec (d : D) t m B last : store_rep db_open (t, d) m B -> 0 <= last < MaxUint64 ->
  match getMissingBlockIDs ParseBlock d t last with
  | Ok X => forall id, id ∈ X <-> exists h b, B !! h = Some b /\ B !! (h - 1) = None /\ last + 1 < h /\ Parent b = id
  | Err e => db_fault' e
  end.
Proof.
  intros (l & ((Ht & Hd & Hm) & Hst & HB & Hc)) Hlast. cbn [fst snd] in *. unfold getMissingBlockIDs. rewrite wrap64_small by lia.
  assert (normal l) as Hn by by destruct Ht as (rl & _ & _ & Hn & _).
  pose proof (missing_loop d t m B (last + 1) (Flatten t) l ∅ Hd Hst HB (Flatten_spec t l Ht)) as Hloop.
  destruct (foldR _ ∅ _) as [X|e]; [|apply Hloop].
  - intros id. rewrite Hloop.
    + split.
      * intros [?%elem_of_empty|(i & b & Hi & Hx & Hb & Hp)]; [done|]. exists (LowerBound i), b. split_and!; try done.
        destruct (proj1 (lower_iff l _ Hn) (ex_intro _ i (conj Hi eq_refl))) as [_ Hno]. rewrite Hc in Hno. by apply eq_None_not_Some.
      * intros (h & b & Hb & Hno & Hx & Hp). destruct (proj2 (lower_iff l h Hn)) as (i & Hi & <-).
        { rewrite !Hc. split; [by eexists|by apply eq_None_not_Some]. }
        right. by exists i, b.
    + intros i Hi. apply Hc. by apply (lower_iff l _ Hn); exists i.
  - intros i Hi. apply Hc. by apply (lower_iff l _ Hn); exists i.
Qed.
End missing.

(** ** Processing a chain of blocks *)

(** Processing as a function of the map of blocks: the blocks that are looked at, the
    map that results, and the parent to ask for. *)
Inductive processes (last : Z) (ancestors : gmap ID Block) : gmap Z Block -> Block -> list Block -> gmap Z Block -> option ID -> Prop :=
  | Processes_stop B b : wants last b B = false -> processes last ancestors B b [b] (fetch last b B) None
  | Processes_ask B b : wants last b B = true -> ancestors !! Parent b = None ->
      processes last ancestors B b [b] (fetch last b B) (Some (Parent b))
  | Processes_next B b parent bs B' r : wants last b B = true -> ancestors !! Parent b = Some parent ->
      processes last ancestors (fetch last b B) parent bs B' r -> processes last ancestors B b (b :: bs) B' r.

Lemma fetch_mono last b B : B ⊆ fetch last b B.
Proof.
  unfold fetch. destruct (Height b <=? last); cbn [orb]; [done|]. case_bool_decide as Hs; [done|].
  apply insert_subseteq. by apply eq_None_not_Some.
Qed.
Lemma wants_spec last b B : wants last b B = true <->
  last < Height b /\ B !! Height b = None /\ Height b - 1 <> last /\ B !! (Height b - 1) = None.
Proof. unfold wants. rewrite !andb_true_iff, !negb_true_iff, !bool_decide_eq_true, Z.leb_gt, Z.eqb_neq. tauto. Qed.
Lemma fetch_wanted last b B : wants last b B = true -> fetch last b B = <[Height b := b]> B.
Proof.
  intros (Hl & Hn & _)%wants_spec. unfold fetch. rewrite Hn. destruct (Z.leb_spec (Height b) last); [lia|]. cbn [orb].
  by rewrite bool_decide_false by apply is_Some_None.
Qed.

(** The blocks that are only in [ancestors]. *)
Definition unfetched (ancestors : gmap ID Block) B : nat :=
  base.size (filter (fun x => B !! Height x.2 = None) ancestors).
Lemma unfetched_le ancestors B B' : B ⊆ B' -> (unfetched ancestors B' <= unfetched ancestors B)%nat.
Proof.
  intros Hsub. apply map_subseteq_size. apply map_subseteq_spec. intros k b. rewrite !map_lookup_filter_Some.
  intros [Hk Hn]. split; [done|]. cbn in *. destruct (B !! Height b) eqn:He; [|done]. by rewrite (lookup_weaken _ _ _ _ He Hsub) in Hn.
Qed.
Lemma unfetched_lt ancestors B b k : ancestors !! k = Some b -> B !! Height b = None ->
  (unfetched ancestors (<[Height b := b]> B) < unfetched ancestors B)%nat.
Proof.
  intros Hk Hn. apply map_subset_size. split.
  - apply map_subseteq_spec. intros k' b'. rewrite !map_lookup_filter_Some. intros [Hk' Hn']. split; [done|]. cbn in *.
    by apply lookup_insert_None in Hn' as [? _].
  - intros Hsub. rewrite map_subseteq_spec in Hsub. specialize (Hsub k b). rewrite !map_lookup_filter_Some in Hsub.
    destruct Hsub as [_ Hs]; [done|]. cbn in Hs. by rewrite lookup_insert_eq in Hs.
Qed.

Section process.
Context `{KeyValueWriterDeleter W} (w_rep : W -> gmap bytes bytes -> Prop) `{!WriterLaws w_rep}.
Variables (last : Z) (ancestors : gmap ID Block).
Hypothesis Hlast : 0 <= last.
Hypothesis Hanc : forall k b, ancestors !! k = Some b -> good b.

Lemma process_step_spec b s missing m B : store_rep w_rep s m B -> good b ->
  wp db_fault' (process_step last ancestors b)
    (fun r s' => s'.2 = missing ∖ {[blk_ID b]} /\ (exists m', store_rep w_rep s'.1 m' (fetch last b B)) /\
       r = if wants last b B then match ancestors !! Parent b with None => inr (Some (Parent b)) | Some p => inl p end else inr None)
    (s, missing).
Proof.
  intros Hs Hb. apply wp_bind, wp_modify. cbn [fst snd]. apply wp_bind, wp_zoom_err.
  pose proof (AddBlock_spec w_rep last b s m B Hs Hb Hlast) as Ha.
  eapply (wp_weaken db_fault); [intros e He; by exists e|]. eapply wp_mono; [exact Ha|].
  intros r s' [-> Hm']. cbn [fst snd]. destruct (wants last b B); cbn [negb]; [|by apply wp_ret].
  destruct (ancestors !! Parent b); by apply wp_ret.
Qed.

Lemma process_loop fuel b s missing m B : store_rep w_rep s m B -> good b ->
  (S (unfetched ancestors B) < fuel)%nat \/ ((exists k, ancestors !! k = Some b) /\ (unfetched ancestors B < fuel)%nat) ->
  wp db_fault' (loop ErrFuel fuel (process_step last ancestors) b)
    (fun r s' => exists bs m' B', processes last ancestors B b bs B' r /\ store_rep w_rep s'.1 m' B' /\
       s'.2 = missing ∖ list_to_set (blk_ID <$> bs)) (s, missing).
Proof.
  revert b s missing m B. induction fuel as [|fuel IH]; intros b s missing m B Hs Hb Hf; [lia|]. cbn [loop].
  apply wp_bind. eapply wp_mono; [exact (process_step_spec b s missing m B Hs Hb)|].
  intros r [s' missing'] (Hmiss & (m' & Hs') & ->). cbn [fst snd] in *. subst missing'.
  assert (missing ∖ {[blk_ID b]} = missing ∖ list_to_set (blk_ID <$> [b])) as Hone by (cbn; set_solver).
  destruct (wants last b B) eqn:Hw.
  2: { apply wp_ret. exists [b], m', (fetch last b B). split_and!; [by constructor|done|done]. }
  destruct (ancestors !! Parent b) as [parent|] eqn:Hp.
  2: { apply wp_ret. exists [b], m', (fetch last b B). split_and!; [by constructor|done|done]. }
  eapply wp_mono; [apply (IH parent s' _ m' (fetch last b B) Hs')|].
  - by apply (Hanc (Parent b)).
  - right. split; [by eexists|]. rewrite fetch_wanted by done.
    apply wants_spec in Hw as (_ & Hn & _). destruct Hf as [Hf|[[k Hk] Hf]].
    2: { pose proof (unfetched_lt ancestors B b k Hk Hn). lia. }
    pose proof (unfetched_le ancestors B (<[Height b := b]> B) ltac:(by apply insert_subseteq)). lia.
  - intros r s2 (bs & m2 & B2 & Hpr & Hs2 & Hmiss). exists (b :: bs), m2, B2. split_and!; [by eapply Processes_next|done|].
    rewrite Hmiss. cbn. set_solver.
Qed.
End process.

(** ** Executing the blocks *)
Definition height_sorted (bs : list Block) : Prop := StronglySorted (fun b c => Height b < Height c) bs.
Definition blocks_map (bs : list Block) : gmap Z Block := list_to_map ((fun b => (Height b, b)) <$> bs).
Definition block_entry (b : Block) : bytes * bytes := (makeBlockKey (Height b), Bytes b).
(** What the VM is told about a block. *)
Definition events last (b : Block) : list Event := if Height b <=? last then [] else [Verified b; Accepted b].

Lemma height_sorted_nodup bs : height_sorted bs -> NoDup ((fun b => (Height b, b)) <$> bs).*1.
Proof.
  induction 1 as [|b bs _ IH Hb]; cbn; constructor; [|done]. rewrite Forall_forall in Hb.
  intros (x & Heq & (c & -> & Hc)%list_elem_of_fmap)%list_elem_of_fmap. specialize (Hb c Hc). cbn in Heq. lia.
Qed.
Lemma blocks_map_Some bs h b : height_sorted bs -> blocks_map bs !! h = Some b <-> b ∈ bs /\ Height b = h.
Proof.
  intros Hs. unfold blocks_map. rewrite <- elem_of_list_to_map by by apply height_sorted_nodup.
  rewrite list_elem_of_fmap. split; [by intros (x & [= -> ->] & Hx)|]. intros [Hb <-]. by exists b.
Qed.
Lemma blocks_map_delete b bs : height_sorted (b :: bs) -> delete (Height b) (blocks_map (b :: bs)) = blocks_map bs.
Proof.
  intros Hs. pose proof Hs as [Hs' Hb]%StronglySorted_inv. rewrite Forall_forall in Hb.
  unfold blocks_map. cbn. apply delete_insert_id. apply eq_None_not_Some. intros [c Hc].
  apply (blocks_map_Some bs _ c Hs') in Hc as [Hc Heq]. specialize (Hb c Hc). lia.
Qed.

Lemma stored_listing m bs start : stored m (blocks_map bs) -> good_map (blocks_map bs) -> height_sorted bs ->
  (forall b, b ∈ bs -> 0 <= bytes_Compare (makeBlockKey (Height b)) start) ->
  listing (in_range start blockPrefix) m (block_entry <$> bs).
Proof.
  intros Hst Hg Hs Hstart. assert (forall b, b ∈ bs -> good b) as Hgood.
  { intros b Hb. by apply (Hg (Height b)), blocks_map_Some. }
  split.
  - clear Hst Hg Hstart. induction Hs as [|b bs Hs IH Hb]; [constructor|]. cbn.
    constructor; [apply IH; intros c Hc; apply Hgood; by right|]. rewrite Forall_forall in Hb. rewrite Forall_forall.
    intros k ([? v] & -> & (c & [= -> ->] & Hc)%list_elem_of_fmap)%list_elem_of_fmap. cbn [fst].
    apply (key_order blockPrefix); [apply good_u64, Hgood; by left|apply good_u64, Hgood; by right|by apply Hb].
  - intros k v. rewrite list_elem_of_fmap. unfold block_entry. split.
    + intros (b & [= -> ->] & Hb). split; [|split; [apply block_key_prefix|by apply Hstart]].
      apply (Hst _ _ (block_key_prefix _)). exists (Height b), b. by rewrite blocks_map_Some.
    + intros [Hk [Hp _]]. apply (Hst k v Hp) in Hk as (h & b & Hb & -> & ->). apply blocks_map_Some in Hb as [Hb <-]; [|done]. by exists b.
Qed.

Section execute.
Context `{DatabaseLaws D}.
Variables (shouldHalt : nat -> bool) (vm_ok : list Event -> Event -> bool).
Abbreviation ExecState := (ExecState (ID := ID) (D := D)).
Implicit Types s : ExecState.

Definition exec_ok (e : StErr) : Prop := db_fault' e \/ e = ErrVerify \/ e = ErrAccept.

(** The blocks [rs] are left once the batch is written; the database still holds [m]. *)
Definition exec_rep s (rs : list Block) m m1 : Prop :=
  db_open (x_db s) m /\ store_rep (batch_rep m) (x_tree s, batch s) m1 (blocks_map rs) /\
  0 <= processedSinceBatchWrite s /\ (processedSinceBatchWrite s = 0 -> m1 = m).

Lemma store_rep_writer {W W' : Type} (rep : W -> gmap bytes bytes -> Prop) (rep' : W' -> gmap bytes bytes -> Prop) t w w' m B :
  rep' w' m -> store_rep rep (t, w) m B -> store_rep rep' (t, w') m B.
Proof. intros Hw (l & (Ht & _ & Hm) & Hrest). by exists l. Qed.

(** Everything but the tree, the batch and the database stays. *)
Definition same_run s s' : Prop :=
  x_log s' = x_log s /\ iterator s' = iterator s /\ x_halts s' = x_halts s.

Lemma writeBatch_spec s rs m m1 : exec_rep s rs m m1 ->
  wp exec_ok writeBatch (fun _ s' => exec_rep s' rs m1 m1 /\ same_run s s') s.
Proof.
  intros (Hd & Hs & Hn & Hz). unfold writeBatch. apply wp_bind, wp_get.
  destruct (Z.eqb_spec (processedSinceBatchWrite s) 0) as [Heq|Hne].
  { apply wp_ret. split; [|done]. rewrite <- (Hz Heq) in Hd, Hs. done. }
  apply wp_bind, wp_modify. apply wp_bind, wp_zoom_err. cbn [set_since x_db batch].
  pose proof Hs as (l & (_ & (ops & Hops & Hm1) & _) & _). cbn [fst snd] in *.
  pose proof (write_law (x_db s) m (batch s) ops Hd Hops) as Hw. rewrite <- Hm1 in Hw. unfold wp.
  destruct (b_Write (batch s) (x_db s)) as [d' [[]|e]]; cbn in Hw.
  2: { destruct Hw as [He _]. left. exists (ErrDb e). split; [done|]. by exists e. }
  split; [|done]. split_and!; [exact Hw| |cbn; lia|done]. cbn [x_tree batch set_written x_db].
  eapply store_rep_writer; [|exact Hs]. exists []. split; [by eapply batch_reset_law|done].
Qed.

Lemma call_vm_spec s err e (Q : unit -> ExecState -> Prop) : exec_ok err ->
  Q tt (set_log (x_log s ++ [e]) s) ->
  wp exec_ok (call_vm vm_ok err e) Q s.
Proof.
  intros He HQ. unfold call_vm. apply wp_bind, wp_get. destruct (vm_ok (x_log s) e); [by apply wp_modify|by apply wp_fail].
Qed.

Lemma renewIterator_spec s rs m m1 h : exec_rep s rs m m1 -> Error (iterator s) = None -> height_sorted rs ->
  (forall b, b ∈ rs -> h < Height b) -> 0 <= h ->
  wp exec_ok (renewIterator h) (fun _ s' => exec_rep s' rs m1 m1 /\ x_log s' = x_log s /\ it_at (iterator s') None (block_entry <$> rs) /\ x_halts s' = x_halts s) s.
Proof.
  intros Hs He Hsort Hgt Hh. unfold renewIterator. apply wp_bind, wp_get. rewrite He. apply wp_bind.
  eapply wp_mono; [exact (writeBatch_spec s rs m m1 Hs)|]. intros [] s' (Hs' & Hlog & _ & Hhalts). apply wp_bind, wp_modify, wp_modify.
  split; [done|]. split; [done|]. split; [|done]. cbn [iterator set_iterator x_db]. destruct Hs' as (Hd & (l & _ & Hst & Hg & _) & _).
  unfold GetBlockIteratorWithStart.
  destruct (new_iterator_law (x_db s') m1 (makeBlockKey (wrap64 (h + 1))) blockPrefix Hd) as (L & HL & Hat).
  assert (forall b, b ∈ rs -> 0 <= bytes_Compare (makeBlockKey (Height b)) (makeBlockKey (wrap64 (h + 1)))) as Hstart.
  { intros b Hb. destruct (proj1 (Hg (Height b) b (proj2 (blocks_map_Some rs _ b Hsort) (conj Hb eq_refl)))) as [Hu _].
    specialize (Hgt b Hb). rewrite wrap64_small by lia. apply Z.le_ngt. intros Hlt.
    assert (is_u64 (Height b) /\ is_u64 (h + 1)) as [Hb1 Hh1] by (rewrite !is_u64_max; lia).
    apply (proj1 (key_order blockPrefix _ _ Hb1 Hh1)) in Hlt. lia. }
  by rewrite (listing_unique _ _ _ _ HL (stored_listing m1 rs _ Hst Hg Hsort Hstart)) in Hat.
Qed.

Lemma execute_block_spec last s b rs m m1 : exec_rep s (b :: rs) m m1 -> height_sorted (b :: rs) ->
  it_at (iterator s) (Some (block_entry b)) (block_entry <$> rs) ->
  wp exec_ok (execute_block ParseBlock vm_ok last)
    (fun _ s' => exists m' m1' c, exec_rep s' rs m' m1' /\ it_at (iterator s') c (block_entry <$> rs) /\
       x_log s' = x_log s ++ events last b /\ x_halts s' = x_halts s) s.
Proof.
  intros Hs Hsort Hat. pose proof Hs as (Hd & Hst & Hn & Hz). pose proof Hst as (l & _ & _ & Hg & _).
  assert (good b) as Hb by (apply (Hg (Height b)), blocks_map_Some; [done|split; [by left|done]]).
  pose proof Hsort as [Hsort' Hgt]%StronglySorted_inv. rewrite Forall_forall in Hgt.
  unfold execute_block. apply wp_bind, wp_get. destruct (key_law _ _ _ _ Hat) as [_ ->]. unfold parse.
  rewrite (proj2 Hb). apply wp_bind, wp_lift. apply wp_bind, wp_zoom_err.
  apply (wp_weaken db_fault); [intros e He; left; by exists e|].
  eapply wp_mono; [exact (@RemoveBlock_spec _ (batch_writer D) (batch_rep m) (batch_writer_laws m) (Height b) _ m1 _ Hst (proj1 Hb))|].
  intros [] [t' b'] (m1' & Hst'). rewrite blocks_map_delete in Hst' by done.
  apply wp_bind, wp_modify, wp_bind, wp_get. set (s1 := set_since _ _).
  assert (exec_rep s1 rs m m1') as Hs1 by (split_and!; [done|exact Hst'|cbn; lia|cbn; lia]).
  apply wp_bind. apply (wp_mono _ _ (fun _ s2 => exists m2, exec_rep s2 rs m2 m1' /\ x_log s2 = x_log s /\ iterator s2 = iterator s /\ x_halts s2 = x_halts s)).
  { apply wp_when; intros _; [|by exists m]. eapply wp_mono; [exact (writeBatch_spec s1 rs m m1' Hs1)|].
    intros [] s2 (Hs2 & Hlog & Hit & Hh). by exists m1'. }
  intros [] s2 (m2 & Hs2 & Hlog2 & Hit2 & Hh2). apply wp_bind, wp_modify, wp_bind, wp_get. set (s3 := set_iterator _ _ s2).
  assert (exec_rep s3 rs m2 m1') as Hs3 by done.
  apply wp_bind. apply (wp_mono _ _ (fun _ s4 => exists m4 c, exec_rep s4 rs m4 m1' /\ x_log s4 = x_log s /\ it_at (iterator s4) c (block_entry <$> rs) /\ x_halts s4 = x_halts s)).
  { apply wp_when; intros _.
    - eapply wp_mono; [apply (renewIterator_spec s3 rs m2 m1' (Height b) Hs3); [|done|done|apply Hb]|].
      + cbn. rewrite Hit2. by eapply error_law.
      + intros [] s4 (Hs4 & Hlog4 & Hat4 & Hh4). exists m1', None. split_and!; [done|rewrite Hlog4; exact Hlog2|done|rewrite Hh4; exact Hh2].
    - exists m2, (Some (block_entry b)). split_and!; [done|done| |done]. cbn. by rewrite Hit2. }
  intros [] s4 (m4 & c & Hs4 & Hlog4 & Hat4 & Hh4). unfold events. destruct (Z.leb_spec (Height b) last).
  - apply wp_ret. exists m4, m1', c. by rewrite app_nil_r, Hlog4.
  - apply wp_bind, call_vm_spec; [by right; left|]. apply call_vm_spec; [by right; right|].
    exists m4, m1', c. split_and!; [done|done| |done]. cbn. by rewrite Hlog4, <- app_assoc.
Qed.

(** The run ends with a prefix of the blocks executed. *)
Definition executed last (bs rs : list Block) (log : list Event) (n : nat) s m m1 : Prop :=
  exists ds, bs = ds ++ rs /\ exec_rep s rs m m1 /\ x_log s = log ++ (ds ≫= events last) /\
    (rs = [] \/ shouldHalt (n + length ds)%nat = true) /\ Error (iterator s) = None.

Lemma execute_loop fuel last s bs m m1 c : exec_rep s bs m m1 -> height_sorted bs ->
  it_at (iterator s) c (block_entry <$> bs) -> (length bs < fuel)%nat ->
  wp exec_ok (loop ErrFuel fuel (execute_step ParseBlock shouldHalt vm_ok last) tt)
    (fun _ s' => exists rs m' m1', executed last bs rs (x_log s) (x_halts s) s' m' m1') s.
Proof.
  revert s bs m m1 c. induction fuel as [|fuel IH]; intros s bs m m1 c Hs Hsort Hat Hf; [lia|]. cbn [loop].
  apply wp_bind. unfold execute_step at 1. apply wp_bind. unfold call_shouldHalt. apply wp_bind, wp_get, wp_bind, wp_modify, wp_ret.
  destruct (shouldHalt (x_halts s)) eqn:Hh.
  { apply wp_ret, wp_ret. exists bs, m, m1, []. cbn. rewrite app_nil_r. split_and!; [done|done|done|right; by rewrite Nat.add_0_r|by eapply error_law]. }
  apply wp_bind, wp_get. cbn [set_halts x_db iterator].
  pose proof (next_law _ _ _ _ _ (proj1 Hs) Hat) as Hnx. destruct bs as [|b bs]; cbn [fmap list_fmap] in Hnx.
  - destruct Hnx as (it' & -> & Hat'). apply wp_bind, wp_modify, wp_ret, wp_ret. exists [], m, m1, []. cbn. rewrite app_nil_r.
    split_and!; [done|done|done|by left|by eapply error_law].
  - destruct Hnx as (it' & -> & Hat'). apply wp_bind, wp_modify, wp_bind.
    eapply wp_mono; [exact (execute_block_spec last (set_iterator it' _ (set_halts (S (x_halts s)) s)) b bs m m1 Hs Hsort Hat')|].
    intros [] s1 (m2 & m3 & c' & Hs1 & Hat1 & Hlog & Hhalts). apply wp_ret. pose proof Hsort as [Hsort' _]%StronglySorted_inv.
    eapply wp_mono; [apply (IH s1 bs m2 m3 c' Hs1 Hsort' Hat1); cbn in Hf; lia|].
    intros [] s2 (rs & m4 & m5 & ds & -> & Hs2 & Hlog2 & Hend & Herr). exists rs, m4, m5, (b :: ds).
    split_and!; [done|done| | |done].
    + rewrite Hlog2, Hlog. cbn. by rewrite <- app_assoc.
    + rewrite Hhalts in Hend. cbn in *. by rewrite Nat.add_succ_r.
Qed.

(** The compactions and the deferred function do not change what is stored. *)
Lemma compact_spec (P : StErr -> Prop) s m B : store_rep db_open (x_tree s, x_db s) m B ->
  wp P compact (fun _ s' => store_rep db_open (x_tree s', x_db s') m B /\ x_log s' = x_log s /\ x_tree s' = x_tree s) s.
Proof.
  intros Hs. pose proof Hs as (l & (_ & Hd & _) & _). cbn [snd] in Hd.
  pose proof (compact_law (x_db s) m [] None Hd) as Hc. unfold wp, compact.
  destruct (Compact [] None (x_db s)) as [d' [[]|e]]; cbn in Hc |- *; (split; [|done]); (eapply store_rep_writer; [|exact Hs]); [done|apply Hc].
Qed.

Lemma deferred_spec s total m B : store_rep db_open (x_tree s, x_db s) m B ->
  let s' := (execute_deferred shouldHalt total s).1 in
  store_rep db_open (x_tree s', x_db s') m B /\ x_log s' = x_log s.
Proof.
  intros Hs. enough (wp (fun _ => False) (execute_deferred shouldHalt total)
    (fun _ s' => store_rep db_open (x_tree s', x_db s') m B /\ x_log s' = x_log s) s) as Hw.
  { unfold wp in Hw. by destruct (execute_deferred shouldHalt total s) as [s' [r|e]]. }
  unfold execute_deferred. apply wp_bind, wp_modify, wp_bind, wp_get, wp_bind. unfold call_shouldHalt.
  apply wp_bind, wp_get, wp_bind, wp_modify, wp_ret. apply wp_when; intros _; [|done].
  eapply wp_mono; [apply compact_spec; exact Hs|]. by intros [] s' (? & -> & _).
Qed.

Lemma wp_defer {A} d (m : Monads.M ExecState StErr A) Q s :
  wp exec_ok m (fun a s' => Q a (d s').1) s -> wp exec_ok (defer d m) Q s.
Proof. unfold wp, defer. by destruct (m s) as [s' [a|e]]. Qed.

Lemma execute_spec fuel last s m bs : store_rep db_open (x_tree s, x_db s) m (blocks_map bs) -> height_sorted bs -> (length bs < fuel)%nat ->
  wp exec_ok (execute ParseBlock shouldHalt vm_ok fuel last)
    (fun _ s' => exists ds rs m', bs = ds ++ rs /\ store_rep db_open (x_tree s', x_db s') m' (blocks_map rs) /\
       x_log s' = x_log s ++ (ds ≫= events last) /\ (rs = [] \/ shouldHalt (length ds) = true)) s.
Proof.
  intros Hst Hsort Hf. unfold execute. apply wp_bind, wp_get, wp_bind.
  apply (wp_mono _ _ (fun _ s1 => store_rep db_open (x_tree s1, x_db s1) m (blocks_map bs) /\ x_log s1 = x_log s)).
  { apply wp_when; intros _; [|done]. eapply wp_mono; [by apply compact_spec|]. by intros [] s' (? & ? & _). }
  clear Hst. intros [] s1 [Hst <-].
  apply wp_bind, wp_modify, wp_defer. set (s0 := mkExec _ _ _ _ _ _ _ _).
  pose proof Hst as (l & (Ht & Hd & Hm) & Hsto & Hg & Hc). cbn [fst snd] in *.
  assert (exec_rep s0 bs m m) as Hs0.
  { split_and!; [done| |done|done]. cbn. eapply store_rep_writer; [|exact Hst]. exists []. split; [by eapply new_batch_law|done]. }
  destruct (new_iterator_law (x_db s1) m [] blockPrefix Hd) as (L & HL & Hat).
  rewrite (listing_unique _ _ _ _ HL (stored_listing m bs [] Hsto Hg Hsort ltac:(intros b _; by cbn))) in Hat.
  unfold execute_body. apply wp_bind. eapply wp_mono; [exact (execute_loop fuel last s0 bs m m None Hs0 Hsort Hat Hf)|].
  intros [] s2 (rs & m1 & m2 & ds & Hbs & Hs2 & Hlog & Hend & Herr). apply wp_bind.
  eapply wp_mono; [exact (writeBatch_spec s2 rs m1 m2 Hs2)|]. intros [] s3 (Hs3 & Hlog3 & Hit3 & _). apply wp_bind, wp_get.
  rewrite Hit3, Herr. apply wp_ret. exists ds, rs, m2. destruct Hs3 as (Hd3 & Hst3 & _).
  destruct (deferred_spec s3 (Len (x_tree s)) m2 (blocks_map rs)) as [Hst4 Hlog4]; [by eapply store_rep_writer|].
  split_and!; [done|done|by rewrite Hlog4, Hlog3|by destruct Hend as [?|?]; [left|right]].
Qed.
End execute.

(** ** The contract *)
(** [getMissingBlockIDs] names the parents of exactly the fetched blocks, above
    the first height to fetch, whose parent's height is missing; when it names none,
    the fetched blocks above the last accepted height have no gap. *)
Theorem missing_exact `{DatabaseLaws D} (d : D) t m B last : store_rep db_open (t, d) m B -> 0 <= last < MaxUint64 ->
  match getMissingBlockIDs ParseBlock d t last with
  | Ok X => (forall id, id ∈ X <-> exists h b, B !! h = Some b /\ B !! (h - 1) = None /\ last + 1 < h /\ Parent b = id) /\
      (X = ∅ -> forall h h', is_Some (B !! h) -> last < h' <= h -> is_Some (B !! h'))
  | Err e => db_fault' e
  end.
Proof.
  intros Hs Hlast. pose proof (missing_spec d t m B last Hs Hlast) as Hm. destruct (getMissingBlockIDs _ _ _ _) as [X|e]; [|done].
  split; [done|]. intros -> h h' Hh Hr. assert (exists k, h' = h - Z.of_nat k) as [k ->] by (exists (Z.to_nat (h - h')); lia).
  induction k as [|k IH]; [by rewrite Z.sub_0_r|]. destruct IH as [b Hb]; [lia|]. apply not_eq_None_Some. intros Hno.
  apply (not_elem_of_empty (C := gset ID) (Parent b)), Hm. exists (h - Z.of_nat k), b. split_and!; [done| |lia|done].
  by replace (h - Z.of_nat k - 1) with (h - Z.of_nat (S k)) by lia.
Qed.

(** C32: [process] ends, whatever the blocks and the ancestors that peers have sent, and
    does what the specification [processes] says: it follows the parents through the
    ancestors as long as they are wanted, keeps every block of an unknown height
    above the last accepted one, forgets no block, removes the IDs it has met from the
    missing ones, and asks for a parent only if that is neither known nor among the
    ancestors.  It only fails with an error of the database. *)
Theorem process_correct `{KeyValueWriterDeleter W} (w_rep : W -> gmap bytes bytes -> Prop) `{!WriterLaws w_rep}
    last (ancestors : gmap ID Block) blk (s : Tree * W) missing m B :
  0 <= last -> (forall k b, ancestors !! k = Some b -> good b) -> good blk -> store_rep w_rep s m B ->
  match process last ancestors blk (s, missing) with
  | ((s', missing'), Ok r) => exists bs m' B', processes last ancestors B blk bs B' r /\ store_rep w_rep s' m' B' /\
      missing' = missing ∖ list_to_set (blk_ID <$> bs) /\ B ⊆ B' /\
      (forall h b, B' !! h = Some b -> B !! h = Some b \/ (b ∈ bs /\ last < h)) /\
      (forall p, r = Some p -> ancestors !! p = None /\
         exists b, B' !! Height b = Some b /\ Parent b = p /\ last < Height b - 1 /\ B' !! (Height b - 1) = None)
  | (_, Err e) => db_fault' e
  end.
Proof.
  intros Hlast Hanc Hb Hs. assert (unfetched ancestors B <= base.size ancestors)%nat as Hsz by apply map_subseteq_size, map_filter_subseteq.
  pose proof (process_loop w_rep last ancestors Hlast Hanc (S (S (base.size ancestors))) blk s missing m B Hs Hb ltac:(left; lia)) as Hp.
  unfold wp in Hp. unfold process. destruct (loop _ _ _ _ _) as [[s' missing'] [r|e]]; [|done].
  destruct Hp as (bs & m' & B' & Hpr & Hs' & Hmiss). exists bs, m', B'. split_and!; try done; clear - Hpr.
  - induction Hpr as [| |B b parent bs B' r Hw Hp Hpr IH]; [apply fetch_mono..|]. etransitivity; [apply (fetch_mono last b B)|done].
  - assert (forall B b h c, fetch last b B !! h = Some c -> B !! h = Some c \/ (c = b /\ last < h)) as Hf.
    { intros B0 b h c. unfold fetch. destruct (Z.leb_spec (Height b) last); cbn [orb]; [by left|]. case_bool_decide; [by left|].
      rewrite lookup_insert_Some. intros [[<- <-]|[_ Hc]]; [by right|by left]. }
    induction Hpr as [B b Hw|B b Hw Hp|B b parent bs B' r Hw Hp Hpr IH]; intros h c Hc.
    + apply Hf in Hc as [?|[-> ?]]; [by left|right; split; [by left|done]].
    + apply Hf in Hc as [?|[-> ?]]; [by left|right; split; [by left|done]].
    + apply IH in Hc as [Hc|[Hin ?]]; [|right; split; [by right|done]].
      apply Hf in Hc as [?|[-> ?]]; [by left|right; split; [by left|done]].
  - induction Hpr as [B b Hw|B b Hw Hp|B b parent bs B' r Hw Hp Hpr IH]; intros p Hr; [done| |by apply IH].
    injection Hr as <-. split; [done|]. exists b. rewrite fetch_wanted by done. apply wants_spec in Hw as (? & ? & ? & Hno).
    rewrite lookup_insert_eq, lookup_insert_ne by lia. split_and!; [done|done|lia|done].
Qed.

(** C31: [execute] runs the fetched blocks in the order of their heights, each once, and
    verifies and accepts those above the last accepted height; when it returns, the
    blocks that were run are gone from the tree and from the database and the others
    are kept, even though the writes are batched and the iterator is renewed on the
    way; it stops early only if it is told to halt.  It fails only with an error of
    the database or of the VM. *)
Theorem execute_in_order `{DatabaseLaws D} (shouldHalt : nat -> bool) (vm_ok : list Event -> Event -> bool)
    fuel last (s : ExecState (D := D)) m bs :
  store_rep db_open (x_tree s, x_db s) m (blocks_map bs) -> height_sorted bs -> (length bs < fuel)%nat ->
  match execute ParseBlock shouldHalt vm_ok fuel last s with
  | (s', Ok _) => exists done rest m', bs = done ++ rest /\ store_rep db_open (x_tree s', x_db s') m' (blocks_map rest) /\
      x_log s' = x_log s ++ (done ≫= events last) /\ (rest = [] \/ shouldHalt (length done) = true)
  | (_, Err e) => exec_ok e
  end.
Proof.
  intros Hs Hsort Hf. pose proof (execute_spec shouldHalt vm_ok fuel last s m bs Hs Hsort Hf) as He.
  unfold wp in He. by destruct (execute _ _ _ _ _ _) as [s' [[]|e]].
Qed.
End facts.

(** The blocks of heights 6, 3 and 4, above the last accepted height 3: a block is its
    height, its ID and the ID of its parent. *)
Section example.
#[local] Existing Instances elements_order Memdb.memdb_database Memdb.memdb_laws list_btree list_btree_laws database_writer.
Definition toy_parse (b : bytes) : option (Block (ID := Z)) :=
  match b with [h; i; p] => Some (mkBlock i p h b) | _ => None end.
Definition toy_block (h i p : Z) : Block := mkBlock i p h [h; i; p].
Definition toy_blocks : list Block := [toy_block 3 30 20; toy_block 4 40 30; toy_block 6 60 50].
Definition toy_entries : list (bytes * bytes) := (interval_entry <$> some_intervals) ++ (block_entry <$> toy_blocks).
Definition toy_contents : gmap bytes bytes := list_to_map toy_entries.
Definition toy_db : Memdb.Memdb := Memdb.mkMemdb (Some toy_contents).

Lemma toy_entries_nodup : NoDup toy_entries.*1.
Proof. apply (bool_decide_unpack _). vm_compute. exact I. Qed.
Lemma toy_sorted : height_sorted toy_blocks.
Proof. repeat constructor; cbn; lia. Qed.
Lemma toy_good b : b ∈ toy_blocks -> good toy_parse b.
Proof.
  unfold toy_blocks. rewrite !elem_of_cons. intros [->|[->|[->|?%elem_of_nil]]]; [| | |done]; (split; [cbn; unfold MaxUint64; lia|done]).
Qed.

Lemma toy_rep : store_rep toy_parse db_open (some_tree, toy_db) toy_contents (blocks_map toy_blocks).
Proof.
  destruct some_inv as (Ht & _ & _). cbn [fst] in Ht. pose proof toy_sorted as Hsort.
  assert (forall k v, toy_contents !! k = Some v <-> (k, v) ∈ interval_entry <$> some_intervals \/ (k, v) ∈ block_entry <$> toy_blocks) as Hlook.
  { intros k v. unfold toy_contents. rewrite <- elem_of_list_to_map by apply toy_entries_nodup. unfold toy_entries. by rewrite elem_of_app. }
  exists some_intervals. split_and!; [split_and!; [done|done|]| | |].
  - intros k v Hk. cbn [snd]. rewrite Hlook, !list_elem_of_fmap. split.
    + intros [(i & [= -> ->] & Hi)|(b & [= -> ->] & _)]; [by exists i|]. by rewrite block_not_interval in Hk by apply block_key_prefix.
    + intros (i & Hi & -> & ->). left. by exists i.
  - intros k v Hk. rewrite Hlook, !list_elem_of_fmap. split.
    + intros [(i & [= -> ->] & _)|(b & [= -> ->] & Hb)].
      * apply block_not_interval in Hk. by rewrite interval_key_prefix in Hk.
      * exists (Height b), b. by rewrite blocks_map_Some.
    + intros (h & b & Hb & -> & ->). apply blocks_map_Some in Hb as [Hb <-]; [|done]. right. by exists b.
  - intros h b [Hb <-]%blocks_map_Some; [|done]. split; [by apply toy_good|done].
  - intros h. split.
    + intros (i & Hi & Hh). assert (h = 3 \/ h = 4 \/ h = 6) as Hx.
      { unfold some_intervals in Hi. rewrite !elem_of_cons in Hi. destruct Hi as [->|[->|?%elem_of_nil]]; cbn in Hh; [lia|lia|done]. }
      destruct Hx as [->|[->| ->]]; vm_compute; by eexists.
    + intros [b [Hb <-]%blocks_map_Some]; [|done]. unfold toy_blocks in Hb. rewrite !elem_of_cons in Hb.
      destruct Hb as [->|[->|[->|?%elem_of_nil]]]; [exists (mkInterval 3 4)|exists (mkInterval 3 4)|exists (mkInterval 6 6)|done];
        (split; [set_solver|cbn; lia]).
Qed.

Lemma missing_exact_witness : getMissingBlockIDs toy_parse toy_db some_tree 3 = Ok {[50]} /\
  (exists h b, blocks_map toy_blocks !! h = Some b /\ blocks_map toy_blocks !! (h - 1) = None /\ 3 + 1 < h /\ Parent b = 50).
Proof.
  pose proof (missing_exact toy_parse toy_db some_tree _ _ 3 toy_rep ltac:(unfold MaxUint64; lia)) as Hm.
  assert (getMissingBlockIDs toy_parse toy_db some_tree 3 = Ok {[50]}) as He by (vm_compute; reflexivity).
  rewrite He in Hm. split; [exact He|]. apply Hm. set_solver.
Defined.

(** The block 5 arrives with its parent, which is known. *)
Definition toy_ancestors : gmap Z Block := {[ 40 := toy_block 4 40 30 ]}.
Lemma process_correct_witness :
  match process 3 toy_ancestors (toy_block 5 50 40) ((some_tree, toy_db), {[50; 99]}) with
  | ((s', missing'), Ok r) => r = None /\ missing' = {[99]} /\
      exists bs m' B', processes 3 toy_ancestors (blocks_map toy_blocks) (toy_block 5 50 40) bs B' r /\ store_rep toy_parse db_open s' m' B'
  | (_, Err e) => False
  end.
Proof.
  pose proof (process_correct toy_parse db_open 3 toy_ancestors (toy_block 5 50 40) (some_tree, toy_db) {[50; 99]} _ _ ltac:(lia)
    ltac:(intros k b Hk; unfold toy_ancestors in Hk; apply lookup_singleton_Some in Hk as [_ <-]; apply toy_good; set_solver) ltac:(split; [cbn; unfold MaxUint64; lia|reflexivity]) toy_rep) as Hp.
  assert (exists s', process 3 toy_ancestors (toy_block 5 50 40) ((some_tree, toy_db), {[50; 99]}) = ((s', {[99]}), Ok None)) as [s' He]
    by (eexists; vm_compute; reflexivity).
  rewrite He in *. destruct Hp as (bs & m' & B' & Hpr & Hs' & _). split; [reflexivity|]. split; [reflexivity|].
  exists bs, m', B'. split; assumption.
Defined.

Definition toy_exec : ExecState (ID := Z) (D := Memdb.Memdb) := mkExec some_tree toy_db (NewBatch toy_db) 0 (GetBlockIterator toy_db) 0 [] 0.
Lemma execute_in_order_witness :
  match execute toy_parse (fun _ => false) (fun _ _ => true) 4 3 toy_exec with
  | (s', Ok _) => x_log s' = [Verified (toy_block 4 40 30); Accepted (toy_block 4 40 30); Verified (toy_block 6 60 50); Accepted (toy_block 6 60 50)] /\
      exists m', store_rep toy_parse db_open (x_tree s', x_db s') m' (blocks_map [])
  | (_, Err e) => False
  end.
Proof.
  pose proof (execute_in_order toy_parse (fun _ => false) (fun _ _ => true) 4 3 toy_exec _ _
    toy_rep toy_sorted ltac:(cbn; lia)) as Hx.
  destruct (execute _ _ _ _ _ _) as [s' [[]|e]] eqn:He; [|vm_compute in He; discriminate He].
  destruct Hx as (ds & rs & m' & Hbs & Hs' & Hlog & [->|?]); [|discriminate]. rewrite app_nil_r in Hbs. subst ds.
  split; [exact Hlog|]. exists m'. exact Hs'.
Defined.
End example.
End BootstrapFacts.
