(* ===== verification/MerkleKey.v ===== *)
(** * Keys of the Merkle trie
    Models [x/merkledb/key.go]: a key is a string of bits, padded with zeros to whole
    bytes; paths in the trie go through it by tokens of 1, 2, 4 or 8 bits.  An index
    out of range is the error [Panic].  What the operations do is stated on the list
    of the bits of a key. *)
From S2P Require Import Prelude GoLibrary MapOrder Sorting Database.

Module MerkleKey.
Import Sorting Database BigEndian.

(** The errors of the package. *)
Inductive MerkleErr :=
  | Panic
  | OutOfFuel
  | ErrNotFound
  | ErrIO (code : Z)
  | ErrInvalid
  | ErrVisitPathToKey
  | ErrNodesAlreadyCalculated
  | ErrUnexpectedEOF
  | errChildIndexTooLarge
  | errLeadingZeroes
  | errInvalidBool
  | errNonZeroKeyPadding
  | errExtraSpace
  | errIntOverflow
  | errTooManyChildren.
Abbreviation R := (result MerkleErr).

Record Key := mkKey { k_length : nat; k_value : bytes }.
#[export] Instance Key_eq_dec : EqDecision Key.
Proof. solve_decision. Defined.
#[export] Program Instance Key_countable : Countable Key :=
  inj_countable' (fun k => (k_length k, k_value k)) (fun p => mkKey p.1 p.2) _.
Next Obligation. by intros []. Qed.
Definition empty_key : Key := mkKey 0 [].

(** ** Bytes and slices *)
(** [b << n] and [b >> n] of a byte. *)
Definition shl8 (b : Z) (n : nat) : Z := wrap 8 (Z.shiftl b (Z.of_nat n)).
Definition shr8 (b : Z) (n : nat) : Z := Z.shiftr b (Z.of_nat n).

Definition index (l : bytes) (i : nat) : R Z := match l !! i with Some b => Ok b | None => Err Panic end.
Definition set_byte (i : nat) (b : Z) (l : bytes) : R bytes := if (i <? length l)%nat then Ok (<[i := b]> l) else Err Panic.
(** [l[i:]] and [l[:i]] *)
Definition slice_from (i : nat) (l : bytes) : R bytes := if (i <=? length l)%nat then Ok (drop i l) else Err Panic.
Definition slice_to (i : nat) (l : bytes) : R bytes := if (i <=? length l)%nat then Ok (take i l) else Err Panic.
(** [copy(dst, src)] *)
Definition copy (dst src : bytes) : bytes := take (length dst) src ++ drop (length src) dst.
(** A write to the slice [l[i:]] goes to [l]. *)
Definition on_slice_from (i : nat) (f : bytes -> R bytes) (l : bytes) : R bytes :=
  s ← slice_from i l; s ← f s; Ok (take i l ++ s).

(** [dualBitIndex] of a shift of at most 8. *)
Definition dualBitIndex (shift : nat) : nat := ((8 - shift) mod 8)%nat.
Definition bytesNeeded (bits : nat) : nat := (bits / 8 + if decide (bits mod 8 = 0) then 0 else 1)%nat.

(** ** Operations *)
Definition ToToken (val : Z) (tokenSize : nat) : Key := mkKey tokenSize [shl8 val (dualBitIndex tokenSize)].
Definition Token (k : Key) (bitIndex tokenSize : nat) : R Z :=
  storageByte ← index (k_value k) (bitIndex / 8);
  let storageByte := shr8 storageByte (dualBitIndex ((bitIndex + tokenSize) mod 8)) in
  Ok (Z.land storageByte (shr8 255 (dualBitIndex tokenSize))).

(** The loop of [iteratedHasPrefix] from index [i]; [fuel] exceeds the bits left. *)
Fixpoint has_prefix_loop (k prefix : Key) (bitsOffset tokenSize fuel i : nat) : R bool :=
  if (i <? k_length prefix)%nat then
    match fuel with
    | O => Err OutOfFuel
    | S fuel =>
        a ← Token k (bitsOffset + i) tokenSize;
        b ← Token prefix i tokenSize;
        if negb (a =? b) then Ok false else has_prefix_loop k prefix bitsOffset tokenSize fuel (i + tokenSize)
    end
  else Ok true.
Definition iteratedHasPrefix (k prefix : Key) (bitsOffset tokenSize : nat) : R bool :=
  if (Z.of_nat (k_length k) - Z.of_nat bitsOffset <? Z.of_nat (k_length prefix)) then Ok false
  else has_prefix_loop k prefix bitsOffset tokenSize (S (k_length prefix)) 0.

(** [getLengthOfCommonPrefix] of view.go, from index [commonIndex]. *)
Fixpoint common_prefix_loop (first second : Key) (secondOffset tokenSize fuel commonIndex : nat) : R nat :=
  if ((commonIndex <? k_length first) && (commonIndex + secondOffset <? k_length second))%nat then
    match fuel with
    | O => Err OutOfFuel
    | S fuel =>
        a ← Token first commonIndex tokenSize;
        b ← Token second (commonIndex + secondOffset) tokenSize;
        if a =? b then common_prefix_loop first second secondOffset tokenSize fuel (commonIndex + tokenSize) else Ok commonIndex
    end
  else Ok commonIndex.
Definition getLengthOfCommonPrefix (first second : Key) (secondOffset tokenSize : nat) : R nat :=
  common_prefix_loop first second secondOffset tokenSize (S (k_length first)) 0.

Definition ToKey (keyBytes : bytes) : Key := mkKey (length keyBytes * 8) keyBytes.
Definition hasPartialByte (k : Key) : bool := (0 <? k_length k mod 8)%nat.

(** [HasPrefix] of keys; [prefix.value[len(prefix.value)-1]] panics when it is empty. *)
Definition last_index (l : bytes) : R nat := if (length l =? 0)%nat then Err Panic else Ok (length l - 1)%nat.
Definition KeyHasPrefix (k prefix : Key) : R bool :=
  if (k_length k <? k_length prefix)%nat then Ok false
  else
    let remainderBitCount := (k_length prefix mod 8)%nat in
    if (remainderBitCount =? 0)%nat then Ok (HasPrefix (k_value k) (k_value prefix))
    else
      let remainderBitsMask := shr8 255 remainderBitCount in
      last ← last_index (k_value prefix);
      p ← index (k_value prefix) last;
      b ← index (k_value k) last;
      if negb (Z.lor p remainderBitsMask =? Z.lor b remainderBitsMask) then Ok false
      else Ok (HasPrefix (k_value k) (take last (k_value prefix))).
Definition HasStrictPrefix (k prefix : Key) : R bool :=
  if bool_decide (k = prefix) then Ok false else KeyHasPrefix k prefix.

Definition Compare (k other : Key) : Z :=
  let valueCmp := bytes_Compare (k_value k) (k_value other) in
  if negb (valueCmp =? 0) then valueCmp
  else match Nat.compare (k_length k) (k_length other) with Lt => -1 | Eq => 0 | Gt => 1 end.
Definition Greater (k other : Key) : bool := Compare k other =? 1.
Definition Less (k other : Key) : bool := Compare k other =? -1.

Definition shift_step (src : bytes) (shift : nat) (dst : bytes) (i : nat) : R bytes :=
  a ← index src i;
  b ← index src (i + 1);
  set_byte i (Z.lor (shl8 a shift) (shr8 b (dualBitIndex shift))) dst.
Definition shiftCopy (dst src : bytes) (shift : nat) : R bytes :=
  let i := (length src - 1)%nat in
  dst ← foldR (shift_step src shift) dst (seq 0 i);
  if (i <? length dst)%nat then a ← index src i; set_byte i (shl8 a shift) dst else Ok dst.

Definition extendIntoBuffer (buffer : bytes) (val : Key) (bitsOffset : nat) : R bytes :=
  if (k_length val =? 0)%nat then Ok buffer
  else
    let bytesOffset := bytesNeeded bitsOffset in
    let bitsRemainder := (bitsOffset mod 8)%nat in
    if (bitsRemainder =? 0)%nat then on_slice_from bytesOffset (fun dst => Ok (copy dst (k_value val))) buffer
    else
      x ← index buffer (bytesOffset - 1);
      v ← index (k_value val) 0;
      buffer ← set_byte (bytesOffset - 1) (Z.lor x (shr8 v bitsRemainder)) buffer;
      on_slice_from bytesOffset (fun dst => shiftCopy dst (k_value val) (dualBitIndex bitsRemainder)) buffer.
Definition extend_step (acc : bytes * nat) (key : Key) : R (bytes * nat) :=
  buffer ← extendIntoBuffer acc.1 key acc.2;
  Ok (buffer, acc.2 + k_length key)%nat.
Definition Extend (k : Key) (keys : list Key) : R Key :=
  let totalBitLength := foldl (fun total key => (total + k_length key)%nat) (k_length k) keys in
  let buffer := copy (replicate (bytesNeeded totalBitLength) 0) (k_value k) in
  r ← foldR extend_step (buffer, k_length k) keys;
  Ok (mkKey totalBitLength r.1).

Definition Skip (k : Key) (bitsToSkip : nat) : R Key :=
  if (k_length k <=? bitsToSkip)%nat then Ok empty_key
  else
    value ← slice_from (bitsToSkip / 8) (k_value k);
    let length := (k_length k - bitsToSkip)%nat in
    if (bitsToSkip mod 8 =? 0)%nat then Ok (mkKey length value)
    else
      buffer ← shiftCopy (replicate (bytesNeeded length) 0) value (bitsToSkip mod 8);
      Ok (mkKey length buffer).
Definition Take (k : Key) (bitsToTake : nat) : R Key :=
  if (k_length k <=? bitsToTake)%nat then Ok k
  else
    let remainderBits := (bitsToTake mod 8)%nat in
    if (remainderBits =? 0)%nat then value ← slice_to (bitsToTake / 8) (k_value k); Ok (mkKey bitsToTake value)
    else
      let buffer := copy (replicate (bytesNeeded bitsToTake) 0) (k_value k) in
      last ← last_index buffer;
      x ← index buffer last;
      buffer ← set_byte last (Z.land x (shl8 255 (dualBitIndex remainderBits))) buffer;
      Ok (mkKey bitsToTake buffer).

(** ** Bits *)
Definition byte_bits (b : Z) : list bool := (fun i => Z.testbit b i) <$> [7; 6; 5; 4; 3; 2; 1; 0].
Definition all_bits (l : bytes) : list bool := l ≫= byte_bits.
Definition bits (k : Key) : list bool := take (k_length k) (all_bits (k_value k)).
Definition bits_val (l : list bool) : Z := foldl (fun acc b => 2 * acc + Z.b2z b) 0 l.
Abbreviation zeros n := (replicate n false).

Record valid (k : Key) : Prop := {
  v_bytes : Forall is_byte (k_value k);
  v_length : length (k_value k) = bytesNeeded (k_length k);
  v_padding : all_bits (k_value k) = bits k ++ zeros (8 * length (k_value k) - k_length k);
}.

(** *** Facts of a byte, case by case *)
Lemma byte_cases (P : Z -> bool) b : forallb P (seqZ 0 256) = true -> is_byte b -> P b = true.
Proof. rewrite forallb_forall. intros HP [? ?]. apply HP, list_elem_of_In, elem_of_seqZ. lia. Qed.
Lemma nat_cases n (P : nat -> bool) i : forallb P (seq 0 n) = true -> (i < n)%nat -> P i = true.
Proof. rewrite forallb_forall. intros HP ?. apply HP, list_elem_of_In, elem_of_seq. lia. Qed.
Lemma byte_nat_cases n (P : Z -> nat -> bool) b i : forallb (fun b => forallb (P b) (seq 0 n)) (seqZ 0 256) = true -> is_byte b -> (i < n)%nat -> P b i = true.
Proof. intros HP Hb. apply nat_cases. by apply (byte_cases (fun b => forallb (P b) (seq 0 n))). Qed.
Lemma byte_nat_prop n (P : Z -> nat -> Prop) `{!forall b i, Decision (P b i)} b i :
  forallb (fun b => forallb (fun i => bool_decide (P b i)) (seq 0 n)) (seqZ 0 256) = true -> is_byte b -> (i < n)%nat -> P b i.
Proof. intros HP Hb Hi. eapply bool_decide_eq_true_1. exact (byte_nat_cases n (fun b i => bool_decide (P b i)) b i HP Hb Hi). Qed.

Lemma byte_shl b n : is_byte b -> (n <= 8)%nat -> is_byte (shl8 b n) /\ byte_bits (shl8 b n) = drop n (byte_bits b) ++ zeros n.
Proof.
  intros Hb Hn. apply (byte_nat_prop 9 (fun b n => is_byte (shl8 b n) /\ byte_bits (shl8 b n) = drop n (byte_bits b) ++ zeros n)); [vm_compute; reflexivity|done|lia].
Qed.
Lemma byte_shr b n : is_byte b -> (n <= 8)%nat -> is_byte (shr8 b n) /\ byte_bits (shr8 b n) = zeros n ++ take (8 - n) (byte_bits b).
Proof.
  intros Hb Hn. apply (byte_nat_prop 9 (fun b n => is_byte (shr8 b n) /\ byte_bits (shr8 b n) = zeros n ++ take (8 - n) (byte_bits b))); [vm_compute; reflexivity|done|lia].
Qed.
Lemma byte_val b : is_byte b -> bits_val (byte_bits b) = b.
Proof. intros Hb. apply Z.eqb_eq. by apply (byte_cases (fun b => bits_val (byte_bits b) =? b)); [vm_compute; reflexivity|]. Qed.
Lemma byte_lor a b : byte_bits (Z.lor a b) = zip_with orb (byte_bits a) (byte_bits b).
Proof. unfold byte_bits. cbn [fmap list_fmap zip_with]. by rewrite !Z.lor_spec. Qed.
Lemma byte_land a b : byte_bits (Z.land a b) = zip_with andb (byte_bits a) (byte_bits b).
Proof. unfold byte_bits. cbn [fmap list_fmap zip_with]. by rewrite !Z.land_spec. Qed.
Lemma is_byte_bits b : is_byte b <-> 0 <= b /\ forall i, 8 <= i -> Z.testbit b i = false.
Proof.
  unfold is_byte. split.
  - intros [? ?]. split; [done|]. intros i Hi. destruct (Z.eq_dec b 0) as [->|]; [apply Z.bits_0|]. apply Z.bits_above_log2; [done|]. apply Z.log2_lt_pow2; [lia|].
    apply (Z.lt_le_trans _ (2 ^ 8)); [done|]. apply Z.pow_le_mono_r; lia.
  - intros [? Hi]. split; [done|]. destruct (Z.lt_ge_cases b 256) as [|Hge]; [done|]. exfalso. assert (b <> 0) by lia.
    assert (8 <= Z.log2 b) by (apply (Z.log2_le_mono 256) in Hge; done). specialize (Hi (Z.log2 b) ltac:(done)). rewrite Z.bit_log2 in Hi by lia. done.
Qed.
Lemma byte_lor_is a b : is_byte a -> is_byte b -> is_byte (Z.lor a b).
Proof.
  rewrite !is_byte_bits. intros [? Ha] [? Hb]. split; [by apply Z.lor_nonneg|]. intros i Hi. by rewrite Z.lor_spec, Ha, Hb.
Qed.
Lemma byte_land_is a b : is_byte a -> is_byte b -> is_byte (Z.land a b).
Proof.
  rewrite !is_byte_bits. intros [? Ha] [? Hb]. split; [apply Z.land_nonneg; tauto|]. intros i Hi. by rewrite Z.land_spec, Ha, Hb.
Qed.

(** The token of a byte, by the masks of [Token]. *)
Lemma byte_token b off ts : is_byte b -> (0 < ts)%nat -> (off + ts <= 8)%nat ->
  Z.land (shr8 b (dualBitIndex ((off + ts) mod 8))) (shr8 255 (dualBitIndex ts)) = bits_val (take ts (drop off (byte_bits b))).
Proof.
  intros Hb Ht Ho.
  assert (Forall (fun ts => (0 < ts)%nat -> (off + ts <= 8)%nat ->
    Z.land (shr8 b (dualBitIndex ((off + ts) mod 8))) (shr8 255 (dualBitIndex ts)) = bits_val (take ts (drop off (byte_bits b)))) (seq 0 9)) as Hall.
  { revert b off Hb Ht Ho. refine (fun b off Hb Ht Ho => byte_nat_prop 9 (fun b off => Forall (fun ts => (0 < ts)%nat -> (off + ts <= 8)%nat ->
      Z.land (shr8 b (dualBitIndex ((off + ts) mod 8))) (shr8 255 (dualBitIndex ts)) = bits_val (take ts (drop off (byte_bits b)))) (seq 0 9)) b off _ Hb _); [vm_compute; reflexivity|lia]. }
  rewrite Forall_forall in Hall. apply (Hall ts); [|done..]. apply elem_of_seq. lia.
Qed.

(** *** Bits of slices *)
#[local] Arguments all_bits : simpl never.
#[local] Arguments byte_bits : simpl never.
Lemma length_byte_bits b : length (byte_bits b) = 8%nat.
Proof. done. Qed.
Lemma all_bits_app l l' : all_bits (l ++ l') = all_bits l ++ all_bits l'.
Proof. apply bind_app. Qed.
Lemma all_bits_cons b l : all_bits (b :: l) = byte_bits b ++ all_bits l.
Proof. done. Qed.
Lemma length_all_bits l : length (all_bits l) = (8 * length l)%nat.
Proof. induction l as [|b l IH]; [done|]. rewrite all_bits_cons, length_app, IH, length_byte_bits. cbn [length]. lia. Qed.
Lemma split_all_bits n l : all_bits l = all_bits (take n l) ++ all_bits (drop n l).
Proof. by rewrite <- all_bits_app, take_drop. Qed.
Lemma take_all_bits n l : take (8 * n) (all_bits l) = all_bits (take n l).
Proof.
  destruct (Nat.le_gt_cases n (length l)); [|rewrite !take_ge by (rewrite ?length_all_bits; lia); done].
  rewrite (split_all_bits n l) at 1. apply take_app_length'. rewrite length_all_bits, length_take. lia.
Qed.
Lemma drop_all_bits n l : drop (8 * n) (all_bits l) = all_bits (drop n l).
Proof.
  destruct (Nat.le_gt_cases n (length l)); [|rewrite !drop_ge by (rewrite ?length_all_bits; lia); done].
  rewrite (split_all_bits n l) at 1. apply drop_app_length'. rewrite length_all_bits, length_take. lia.
Qed.
Lemma all_bits_zeros n : all_bits (replicate n 0) = zeros (8 * n).
Proof. induction n as [|n IH]; [done|]. cbn [replicate]. rewrite all_bits_cons, IH. by replace (8 * S n)%nat with (8 + 8 * n)%nat by lia. Qed.
Lemma all_bits_inj l l' : Forall is_byte l -> Forall is_byte l' -> all_bits l = all_bits l' -> l = l'.
Proof.
  revert l'. induction l as [|b l IH]; intros [|b' l'] Hl Hl' Heq; try done.
  rewrite !all_bits_cons in Heq. apply app_inj_1 in Heq as [Hb Heq]; [|done]. apply Forall_cons in Hl as [? ?], Hl' as [? ?].
  f_equal; [|by apply IH]. by rewrite <- (byte_val b), <- (byte_val b'), Hb.
Qed.
Lemma all_bits_insert i b l : (i < length l)%nat -> all_bits (<[i := b]> l) = all_bits (take i l) ++ byte_bits b ++ all_bits (drop (S i) l).
Proof. intros Hi. rewrite insert_take_drop by done. by rewrite all_bits_app, all_bits_cons. Qed.

Lemma bytesNeeded_spec n : (n <= 8 * bytesNeeded n < n + 8)%nat.
Proof. unfold bytesNeeded. pose proof (Nat.div_mod_eq n 8). pose proof (Nat.mod_upper_bound n 8). case_decide; lia. Qed.
Lemma bytesNeeded_unique n m : (n <= 8 * m < n + 8)%nat -> bytesNeeded n = m.
Proof. pose proof (bytesNeeded_spec n). lia. Qed.

Lemma length_bits k : valid k -> length (bits k) = k_length k.
Proof. intros [_ Hl _]. unfold bits. rewrite length_take, length_all_bits. pose proof (bytesNeeded_spec (k_length k)). lia. Qed.
Lemma mk_valid n l B : Forall is_byte l -> length l = bytesNeeded n -> length B = n -> all_bits l = B ++ zeros (8 * length l - n) ->
  valid (mkKey n l) /\ bits (mkKey n l) = B.
Proof.
  intros Hb Hl HB Ha. assert (bits (mkKey n l) = B) as Hbits by (unfold bits; cbn; rewrite Ha; by apply take_app_length').
  split; [|done]. split; [done..|]. rewrite Hbits. exact Ha.
Qed.
Lemma valid_eq k k' : valid k -> valid k' -> bits k = bits k' -> k = k'.
Proof.
  intros Hk Hk' Heq. pose proof (length_bits k Hk) as Hl. rewrite Heq, (length_bits k') in Hl by done.
  destruct Hk as [Hb Hn Hp], Hk' as [Hb' Hn' Hp']. destruct k as [n v], k' as [n' v']. cbn in *. subst n'. f_equal.
  apply all_bits_inj; [done..|]. rewrite Hp, Hp', Heq. by rewrite Hn, Hn'.
Qed.
Lemma valid_empty : valid empty_key.
Proof. by split. Qed.
Lemma bits_empty : bits empty_key = [].
Proof. done. Qed.

(** ** What the operations do *)
Lemma index_Some l i b : l !! i = Some b -> index l i = Ok b.
Proof. intros Hi. unfold index. by rewrite Hi. Qed.
Lemma set_byte_Ok i b l : (i < length l)%nat -> set_byte i b l = Ok (<[i := b]> l).
Proof. intros Hi. unfold set_byte. by destruct (Nat.ltb_spec i (length l)); [|lia]. Qed.
Lemma on_slice_from_Ok i f l s : (i <= length l)%nat -> f (drop i l) = Ok s -> on_slice_from i f l = Ok (take i l ++ s).
Proof. intros Hi Hf. unfold on_slice_from, slice_from. destruct (Nat.leb_spec i (length l)); [|lia]. cbn. by rewrite Hf. Qed.

Lemma bits_of_byte l q r ts b : l !! q = Some b -> (r + ts <= 8)%nat -> take ts (drop (8 * q + r) (all_bits l)) = take ts (drop r (byte_bits b)).
Proof.
  intros Hq Hr. rewrite <- drop_drop, drop_all_bits, (drop_S _ b) by done. rewrite all_bits_cons, drop_app_le by (rewrite length_byte_bits; lia).
  rewrite take_app_le; [done|]. rewrite length_drop, length_byte_bits. lia.
Qed.
Lemma Token_spec k i ts : valid k -> (0 < ts)%nat -> (i mod 8 + ts <= 8)%nat -> (i + ts <= k_length k)%nat ->
  Token k i ts = Ok (bits_val (take ts (drop i (bits k)))).
Proof.
  intros [Hb Hl _] Hts Hi Hlen. unfold Token. pose proof (bytesNeeded_spec (k_length k)). pose proof (Nat.div_mod_eq i 8) as Hd.
  destruct (lookup_lt_is_Some_2 (k_value k) (i / 8)) as [b Hib]; [lia|]. rewrite (index_Some _ _ b) by done. cbn [mbind result_bind].
  assert (is_byte b) by by eapply Forall_lookup_1. assert ((i + ts) mod 8 = (i mod 8 + ts) mod 8)%nat as -> by by rewrite Nat.Div0.add_mod_idemp_l.
  rewrite byte_token by done. do 2 f_equal. unfold bits. rewrite skipn_firstn_comm, take_take, Nat.min_l by lia.
  rewrite Hd at 2. by rewrite (bits_of_byte _ _ _ _ b).
Qed.

(** *** Shifted copies *)
Lemma zip_or_zeros l l' n : length l' = n -> zip_with orb (l ++ zeros n) (zeros (length l) ++ l') = l ++ l'.
Proof.
  intros <-. induction l as [|x l IH]; cbn; [|by rewrite IH, orb_false_r]. induction l' as [|y l' IH]; cbn; [done|]. by rewrite IH.
Qed.
(** A byte from the ends of two. *)
Lemma byte_join a b n : is_byte a -> is_byte b -> (0 < n < 8)%nat ->
  is_byte (Z.lor (shl8 a n) (shr8 b (dualBitIndex n))) /\ byte_bits (Z.lor (shl8 a n) (shr8 b (dualBitIndex n))) = drop n (byte_bits a) ++ take n (byte_bits b).
Proof.
  intros Ha Hb Hn. assert (dualBitIndex n = 8 - n)%nat as -> by (unfold dualBitIndex; apply Nat.mod_small; lia).
  destruct (byte_shl a n Ha ltac:(lia)) as [Hia Hba], (byte_shr b (8 - n) Hb ltac:(lia)) as [Hib Hbb].
  split; [by apply byte_lor_is|]. rewrite byte_lor, Hba, Hbb. replace (8 - (8 - n))%nat with n by lia.
  rewrite <- (zip_or_zeros (drop n (byte_bits a)) (take n (byte_bits b)) n) by (rewrite length_take, length_byte_bits; lia).
  by rewrite length_drop, length_byte_bits.
Qed.

Section shift.
Variables (src dst : bytes) (shift : nat).
Hypothesis (Hshift : (0 < shift < 8)%nat) (Hsrc : Forall is_byte src) (Hdst : Forall is_byte dst).
(** The bits of [src] moved to the front. *)
Definition shifted : list bool := drop shift (all_bits src) ++ zeros shift.
Lemma length_shifted : src <> [] -> length shifted = (8 * length src)%nat.
Proof. intros Hne. unfold shifted. rewrite length_app, length_drop, length_all_bits, length_replicate. destruct src; [done|]. cbn [length]. lia. Qed.

Lemma shifted_byte i a b : src !! i = Some a -> src !! S i = Some b -> take 8 (drop (8 * i) shifted) = drop shift (byte_bits a) ++ take shift (byte_bits b).
Proof.
  intros Ha Hb. assert (S i < length src)%nat as Hi by by eapply lookup_lt_Some. unfold shifted. rewrite drop_app_le by (rewrite length_drop, length_all_bits; lia).
  rewrite take_app_le by (rewrite !length_drop, length_all_bits; lia). rewrite drop_drop, Nat.add_comm, <- drop_drop, drop_all_bits, (drop_S _ a), (drop_S _ b) by done.
  rewrite !all_bits_cons, drop_app_le by (rewrite length_byte_bits; lia). rewrite take_app, take_ge by (rewrite length_drop, length_byte_bits; lia).
  f_equal. rewrite take_app_le by (rewrite length_drop, !length_byte_bits; lia). f_equal. rewrite length_drop, length_byte_bits. lia.
Qed.
Lemma shifted_last a : last src = Some a -> drop (8 * (length src - 1)) shifted = drop shift (byte_bits a) ++ zeros shift.
Proof.
  intros Ha. rewrite last_lookup in Ha. assert (pred (length src) < length src)%nat as Hi by by eapply lookup_lt_Some.
  replace (length src - 1)%nat with (pred (length src)) by lia.
  unfold shifted. rewrite drop_app_le by (rewrite length_drop, length_all_bits; lia). f_equal.
  rewrite drop_drop, Nat.add_comm, <- drop_drop, drop_all_bits, (drop_S _ a) by done. rewrite (drop_ge src) by lia. by rewrite all_bits_cons, app_nil_r.
Qed.

(** The first [n] bytes are shifted. *)
Definition shifted_to (n : nat) (dst' : bytes) : Prop :=
  length dst' = length dst /\ Forall is_byte dst' /\ all_bits dst' = take (8 * n) shifted ++ drop (8 * n) (all_bits dst).
Lemma shifted_write n b dst' : shifted_to n dst' -> (n < length dst)%nat -> (n < length src)%nat -> is_byte b -> byte_bits b = take 8 (drop (8 * n) shifted) ->
  exists dst2, set_byte n b dst' = Ok dst2 /\ shifted_to (S n) dst2.
Proof.
  intros (Hl & Hb & Ha) Hn Hns Hbyte Hbits. rewrite set_byte_Ok by lia. eexists. split; [done|]. split; [by rewrite length_insert|].
  split; [by apply Forall_insert|]. assert (length shifted = (8 * length src)%nat) as Hls by (apply length_shifted; by destruct src; cbn in Hns; [lia|]).
  rewrite all_bits_insert by lia. rewrite <- take_all_bits, <- drop_all_bits, Ha, Hbits. rewrite take_app_le, take_take, Nat.min_l by (rewrite ?length_take; lia).
  rewrite drop_app_ge by (rewrite length_take; lia). rewrite length_take, drop_drop, app_assoc. f_equal.
  - replace (8 * S n)%nat with (8 * n + 8)%nat by lia. by rewrite <- take_take_drop.
  - f_equal. lia.
Qed.
Lemma shift_loop n : (n < length src)%nat -> (n <= length dst)%nat -> exists dst', foldR (shift_step src shift) dst (seq 0 n) = Ok dst' /\ shifted_to n dst'.
Proof.
  induction n as [|n IH]; intros Hs Hd; [by exists dst|]. destruct IH as (dst' & Hf & Hd'); [lia..|]. rewrite seq_S, foldR_app, Hf. cbn [mbind result_bind foldR Nat.add].
  destruct (lookup_lt_is_Some_2 src n) as [a Ha]; [lia|]. destruct (lookup_lt_is_Some_2 src (S n)) as [b Hb]; [lia|].
  unfold shift_step. rewrite (index_Some src n a) by done. cbn [mbind result_bind]. rewrite (index_Some src (n + 1) b) by (by rewrite Nat.add_1_r). cbn [mbind result_bind].
  destruct (byte_join a b shift) as [Hj Hbits]; [exact (Forall_lookup_1 _ _ _ _ Hsrc Ha)|exact (Forall_lookup_1 _ _ _ _ Hsrc Hb)|done|].
  destruct (shifted_write n (Z.lor (shl8 a shift) (shr8 b (dualBitIndex shift))) dst' Hd') as (dst2 & -> & Hd2); [lia..|done|by rewrite (shifted_byte _ a b)|].
  by exists dst2.
Qed.

Lemma shiftCopy_spec : src <> [] -> (length src <= S (length dst))%nat -> exists dst', shiftCopy dst src shift = Ok dst' /\
  length dst' = length dst /\ Forall is_byte dst' /\ all_bits dst' = take (8 * length dst) shifted ++ drop (8 * length src) (all_bits dst).
Proof.
  intros Hne Hl. destruct (last src) as [a|] eqn:Ha; [|by apply last_None in Ha]. pose proof Ha as Hla. rewrite last_lookup in Hla.
  assert (pred (length src) < length src)%nat as Hlt by by eapply lookup_lt_Some. pose proof (length_shifted Hne) as Hls.
  destruct (shift_loop (length src - 1)) as (dst' & Hf & Hd'); [lia..|]. unfold shiftCopy. rewrite Hf. cbn [mbind result_bind].
  pose proof Hd' as (Hl' & _ & Hbits'). destruct (Nat.ltb_spec (length src - 1) (length dst')) as [Hi|Hi].
  - rewrite (index_Some _ _ a) by by replace (length src - 1)%nat with (pred (length src)) by lia. cbn [mbind result_bind].
    destruct (byte_shl a shift) as [Hia Hba]; [exact (Forall_lookup_1 _ _ _ _ Hsrc Hla)|lia|].
    destruct (shifted_write (length src - 1) (shl8 a shift) dst' Hd') as (dst2 & -> & Hd2 & Hb2 & Hbits2); [lia|lia|done| |].
    { rewrite Hba, (shifted_last a) by done. rewrite take_ge; [done|]. rewrite length_app, length_drop, length_replicate, length_byte_bits. lia. }
    exists dst2. split_and!; [done..|]. rewrite Hbits2. replace (8 * S (length src - 1))%nat with (8 * length src)%nat by lia. by rewrite !(take_ge shifted) by lia.
  - exists dst'. split_and!; [done..|apply Hd'|]. rewrite Hbits'. replace (8 * (length src - 1))%nat with (8 * length dst)%nat by lia.
    by rewrite !(drop_ge (all_bits dst)) by (rewrite length_all_bits; lia).
Qed.
End shift.

(** *** Concatenation *)
Lemma is_byte_shr v n : is_byte v -> is_byte (shr8 v n).
Proof.
  rewrite !is_byte_bits. intros [? Hv]. unfold shr8. split; [by apply Z.shiftr_nonneg|]. intros i Hi. rewrite Z.shiftr_spec by lia. apply Hv. lia.
Qed.
Lemma div_mod_8 n : (n = 8 * (n / 8) + n mod 8 /\ n mod 8 < 8)%nat.
Proof. split; [apply Nat.div_mod_eq|by apply Nat.mod_upper_bound]. Qed.
Lemma bytesNeeded_exact n : (n mod 8 = 0)%nat -> bytesNeeded n = (n / 8)%nat.
Proof. intros Hn. apply bytesNeeded_unique. pose proof (div_mod_8 n). lia. Qed.
Lemma bytesNeeded_partial n : (n mod 8 <> 0)%nat -> bytesNeeded n = S (n / 8).
Proof. intros Hn. apply bytesNeeded_unique. pose proof (div_mod_8 n). lia. Qed.

(** The bytes up to [reach] are written; those behind may hold anything before. *)
Definition reach (buffer : bytes) (val : Key) (off : nat) : nat := Nat.min (length buffer) (bytesNeeded off + length (k_value val)).
Lemma extendIntoBuffer_spec buffer val off B : valid val -> (0 < k_length val)%nat -> length B = off -> Forall is_byte buffer ->
  (bytesNeeded (off + k_length val) <= length buffer)%nat -> take (8 * bytesNeeded off) (all_bits buffer) = B ++ zeros (8 * bytesNeeded off - off) ->
  exists buffer', extendIntoBuffer buffer val off = Ok buffer' /\ length buffer' = length buffer /\ Forall is_byte buffer' /\
    all_bits buffer' = take (8 * reach buffer val off) (B ++ all_bits (k_value val) ++ zeros 8) ++ drop (8 * reach buffer val off) (all_bits buffer).
Proof.
  intros [Hv Hlv Hpv] Hpos HB Hbuf Hlen Hpre. unfold extendIntoBuffer, reach. destruct (Nat.eqb_spec (k_length val) 0); [lia|].
  pose proof (bytesNeeded_spec off). pose proof (bytesNeeded_spec (k_length val)). pose proof (bytesNeeded_spec (off + k_length val)). destruct (div_mod_8 off) as [Hoff Hrem].
  set (value := k_value val) in *. destruct (Nat.eqb_spec (off mod 8) 0) as [Hz|Hnz].
  - rewrite (bytesNeeded_exact off Hz) in *. set (q := (off / 8)%nat) in *. replace (8 * q - off)%nat with 0%nat in Hpre by lia. rewrite app_nil_r in Hpre.
    rewrite (on_slice_from_Ok q _ _ (copy (drop q buffer) value)) by (done || lia). eexists. split; [done|].
    unfold copy. rewrite (take_ge value) by (rewrite length_drop; lia). split_and!.
    + rewrite !length_app, length_take, !length_drop. lia.
    + apply Forall_app. split; [by apply Forall_take|]. apply Forall_app. split; [done|]. by do 2 apply Forall_drop.
    + rewrite !all_bits_app, <- (take_all_bits q buffer), Hpre. rewrite Nat.min_r by lia. rewrite drop_drop, <- drop_all_bits.
      rewrite (app_assoc B (all_bits value) (zeros 8)), take_app_length' by (rewrite length_app, length_all_bits; lia). by rewrite <- app_assoc.
  - rewrite (bytesNeeded_partial off Hnz) in *. set (q := (off / 8)%nat) in *. replace (S q - 1)%nat with q by lia. set (rem := (off mod 8)%nat) in *.
    destruct (lookup_lt_is_Some_2 buffer q) as [x Hx]; [lia|]. destruct value as [|v value'] eqn:Heqv; [cbn in *; lia|].
    rewrite (index_Some buffer q x) by done. cbn [mbind result_bind]. rewrite (index_Some (v :: value') 0 v) by done. cbn [mbind result_bind]. rewrite set_byte_Ok by lia. cbn [mbind result_bind].
    assert (is_byte x) as Hbx by by eapply Forall_lookup_1. assert (is_byte v) as Hbv by by apply Forall_cons in Hv as [? _].
    set (y := Z.lor x (shr8 v rem)). assert (is_byte y) as Hby by by apply byte_lor_is, is_byte_shr.
    assert (all_bits (take q buffer) = take (8 * q) B /\ byte_bits x = drop (8 * q) B ++ zeros (8 - rem)) as [Hbq Hbitx].
    { replace (8 * S q - off)%nat with (8 - rem)%nat in Hpre by lia. rewrite take_all_bits, (take_S_r _ _ x), all_bits_app in Hpre by done.
      rewrite <- (take_drop (8 * q) B), <- app_assoc in Hpre. apply app_inj_1 in Hpre as [-> Hpre]; [|rewrite length_all_bits, !length_take; lia].
      split; [done|]. rewrite all_bits_cons in Hpre. unfold all_bits in Hpre. cbn in Hpre. by rewrite app_nil_r in Hpre. }
    assert (byte_bits y = drop (8 * q) B ++ take (8 - rem) (byte_bits v)) as Hbity.
    { unfold y. rewrite byte_lor, Hbitx. destruct (byte_shr v rem Hbv) as [_ ->]; [lia|].
      rewrite <- (zip_or_zeros (drop (8 * q) B) (take (8 - rem) (byte_bits v)) (8 - rem)) by (rewrite length_take, length_byte_bits; lia).
      by replace (length (drop (8 * q) B)) with rem by (rewrite length_drop; lia). }
    assert (dualBitIndex rem = 8 - rem)%nat as -> by (unfold dualBitIndex; apply Nat.mod_small; lia).
    set (dst := drop (S q) (<[q:=y]> buffer)). assert (dst = drop (S q) buffer) as Hdst by (unfold dst; apply drop_insert_lt; lia).
    destruct (shiftCopy_spec (v :: value') dst (8 - rem)) as (dst' & Hsc & Hld & Hbd & Habd); [lia|done|rewrite Hdst; by apply Forall_drop|done|rewrite Hdst, length_drop; cbn [length] in *; lia|].
    rewrite (on_slice_from_Ok (S q) _ _ dst') by (rewrite ?length_insert; done || lia). eexists. split; [done|].
    assert (length dst = length buffer - S q)%nat as Hldst by by rewrite Hdst, length_drop. split_and!.
    + rewrite length_app, length_take, length_insert, Hld. lia.
    + apply Forall_app. split; [by apply Forall_take, Forall_insert|done].
    + assert (take (S q) (<[q:=y]> buffer) = take q buffer ++ [y]) as ->.
      { rewrite (take_S_r _ _ y) by (apply list_lookup_insert_eq; lia). by rewrite take_insert_ge by lia. }
      rewrite !all_bits_app, Hbq, Habd. assert (all_bits [y] = byte_bits y) as -> by (unfold all_bits; cbn; by rewrite app_nil_r).
      assert (take (8 - rem) (byte_bits v) = take (8 - rem) (all_bits (v :: value'))) as Hvv by (rewrite all_bits_cons, take_app_le; [done|rewrite length_byte_bits; lia]).
      rewrite Hbity, Hvv, (app_assoc (take _ B)), take_drop, Hldst, Hdst, <- drop_all_bits, drop_drop. unfold shifted.
      pose proof (length_all_bits (v :: value')) as Hla. set (a := all_bits (v :: value')) in *. set (lv := length (v :: value')) in *.
      assert (B ++ a ++ zeros 8 = (B ++ take (8 - rem) a) ++ (drop (8 - rem) a ++ zeros (8 - rem)) ++ zeros rem) as ->.
      { rewrite <- !app_assoc. f_equal. rewrite (app_assoc (take _ a)), take_drop. f_equal. rewrite <- replicate_add. f_equal. lia. }
      set (D := drop (8 - rem) a ++ zeros (8 - rem)). assert (length D = (8 * lv)%nat) as HD by (unfold D; rewrite length_app, length_drop, length_replicate; unfold lv in *; cbn [length] in *; lia).
      set (C := B ++ take (8 - rem) a). assert (length C = (8 * S q)%nat) as HC by (unfold C; rewrite length_app, length_take; unfold lv in *; cbn [length] in *; lia).
      set (r := Nat.min (length buffer) (S q + lv)). rewrite (take_app C), (take_ge C) by lia. rewrite <- app_assoc. f_equal. f_equal.
      * rewrite HC. destruct (Nat.le_gt_cases (length buffer) (S q + lv)).
        -- replace (8 * r - 8 * S q)%nat with (8 * (length buffer - S q))%nat by lia. rewrite take_app_le by lia. done.
        -- replace (8 * r - 8 * S q)%nat with (8 * lv)%nat by lia. rewrite take_app_length' by done. rewrite take_ge by lia. done.
      * destruct (Nat.le_gt_cases (length buffer) (S q + lv)); [rewrite !drop_ge by (rewrite length_all_bits; lia); done|]. f_equal. lia.
Qed.

Lemma bytesNeeded_le n m : (n <= 8 * m)%nat -> (bytesNeeded n <= m)%nat.
Proof. pose proof (bytesNeeded_spec n). lia. Qed.
(** On a buffer that holds zeros behind the bits. *)
Lemma extend_clean buffer val B : valid val -> Forall is_byte buffer -> all_bits buffer = B ++ zeros (8 * length buffer - length B) ->
  (length B + k_length val <= 8 * length buffer)%nat ->
  exists buffer', extendIntoBuffer buffer val (length B) = Ok buffer' /\ length buffer' = length buffer /\ Forall is_byte buffer' /\
    all_bits buffer' = (B ++ bits val) ++ zeros (8 * length buffer - length (B ++ bits val)).
Proof.
  intros Hv Hb Ha Hl. destruct (decide (k_length val = 0%nat)) as [Hz|Hz].
  { exists buffer. unfold extendIntoBuffer. rewrite Hz. split_and!; [done..|]. assert (bits val = []) as -> by (unfold bits; by rewrite Hz). by rewrite app_nil_r. }
  pose proof (bytesNeeded_spec (length B)). pose proof (bytesNeeded_le (length B) (length buffer) ltac:(lia)).
  destruct (extendIntoBuffer_spec buffer val (length B) B) as (buffer' & -> & Hl' & Hb' & Ha'); [done|lia|done|done|apply bytesNeeded_le; lia| |].
  { rewrite Ha, take_app, take_ge by lia. f_equal. rewrite take_replicate. f_equal. lia. }
  exists buffer'. split_and!; [done..|]. rewrite Ha', Ha, (v_padding _ Hv), length_app, (length_bits _ Hv).
  pose proof (length_bits _ Hv) as Hlb. pose proof (v_length _ Hv) as Hlv. pose proof (bytesNeeded_spec (k_length val)).
  set (r := reach buffer val (length B)). assert (length B + k_length val <= 8 * r)%nat as Hr by (subst r; unfold reach; lia).
  assert (r <= length buffer)%nat as Hr2 by (subst r; unfold reach; lia). assert (8 * r <= length B + 8 * length (k_value val) + 8)%nat as Hr3 by (subst r; unfold reach; lia).
  rewrite <- (app_assoc (bits val)), <- replicate_add, (app_assoc B), take_app, take_ge by (rewrite length_app; lia).
  rewrite take_replicate, <- app_assoc. f_equal. rewrite drop_app, drop_ge by lia. cbn [app]. rewrite drop_replicate, <- replicate_add. f_equal.
  rewrite length_app. lia.
Qed.
Lemma extend_fold keys buffer B : Forall valid keys -> Forall is_byte buffer -> all_bits buffer = B ++ zeros (8 * length buffer - length B) ->
  (foldl (fun total key => (total + k_length key)%nat) (length B) keys <= 8 * length buffer)%nat ->
  exists buffer', foldR extend_step (buffer, length B) keys = Ok (buffer', length (B ++ keys ≫= bits)) /\ length buffer' = length buffer /\ Forall is_byte buffer' /\
    all_bits buffer' = (B ++ keys ≫= bits) ++ zeros (8 * length buffer - length (B ++ keys ≫= bits)).
Proof.
  revert buffer B. induction keys as [|key keys IH]; intros buffer B Hk Hb Ha Hl; [exists buffer; cbn; by rewrite app_nil_r|].
  apply Forall_cons in Hk as [Hkey Hk]. cbn [foldl] in Hl. assert (forall n, n <= foldl (fun total key => (total + k_length key)%nat) n keys)%nat as Hmono.
  { clear. induction keys as [|x keys IH]; intros n; cbn; [lia|]. specialize (IH (n + k_length x)%nat). lia. }
  specialize (Hmono (length B + k_length key)%nat). destruct (extend_clean buffer key B) as (b1 & He & Hl1 & Hb1 & Ha1); [done..|lia|].
  cbn [foldR]. assert (extend_step (buffer, length B) key = Ok (b1, length B + k_length key)%nat) as -> by (unfold extend_step; cbn [fst snd]; by rewrite He). cbn [mbind result_bind].
  assert (length B + k_length key = length (B ++ bits key))%nat as Hlen by by rewrite length_app, length_bits.
  rewrite Hlen. destruct (IH b1 (B ++ bits key)) as (b2 & Hf & Hl2 & Hb2 & Ha2); [done|done|by rewrite Ha1, Hl1|rewrite Hl1, <- Hlen; lia|].
  rewrite bind_cons, app_assoc. exists b2. rewrite Hf. split_and!; [done|by rewrite Hl2|done|by rewrite Ha2, Hl1].
Qed.
Lemma Extend_spec k keys : valid k -> Forall valid keys -> exists k', Extend k keys = Ok k' /\ valid k' /\ bits k' = bits k ++ keys ≫= bits.
Proof.
  intros Hk Hks. unfold Extend. set (total := foldl _ _ _). assert (forall n, foldl (fun total key => (total + k_length key)%nat) n keys = n + length (keys ≫= bits))%nat as Htotal.
  { clear -Hks. induction keys as [|x keys IH]; intros n; cbn [foldl]; [cbn; lia|]. apply Forall_cons in Hks as [? ?]. rewrite IH, bind_cons, length_app, length_bits by done. lia. }
  pose proof (length_bits _ Hk) as Hlk. pose proof (bytesNeeded_spec total). pose proof (bytesNeeded_spec (k_length k)). pose proof (v_length _ Hk).
  assert (k_length k <= total)%nat as Hle by (subst total; rewrite Htotal; lia). pose proof (bytesNeeded_le (k_length k) (bytesNeeded total) ltac:(lia)).
  set (buffer := copy (replicate (bytesNeeded total) 0) (k_value k)). assert (length buffer = bytesNeeded total) as Hlb.
  { unfold buffer, copy. rewrite length_app, length_take, length_drop, length_replicate. lia. }
  assert (all_bits buffer = bits k ++ zeros (8 * length buffer - length (bits k))) as Hab.
  { rewrite Hlb. unfold buffer, copy. rewrite length_replicate, take_ge, drop_replicate, all_bits_app, (v_padding _ Hk), all_bits_zeros, <- app_assoc by lia. f_equal.
    rewrite <- replicate_add. f_equal. lia. }
  destruct (extend_fold keys buffer (bits k)) as (b' & Hf & Hl' & Hb' & Ha'); [done| |done| |].
  { unfold buffer, copy. apply Forall_app. split; [apply Forall_take, Hk|apply Forall_drop, Forall_replicate; split; lia]. }
  { rewrite Hlk. fold total. lia. }
  rewrite Hlk in Hf. rewrite Hf. cbn [mbind result_bind fst]. assert (length (bits k ++ keys ≫= bits) = total) as Hlt by (rewrite length_app, Hlk; subst total; by rewrite Htotal).
  destruct (mk_valid total b' (bits k ++ keys ≫= bits)) as [Hv' Hbits]; [done|lia|done|by rewrite Ha', Hl', Hlt|]. by exists (mkKey total b').
Qed.

(** *** Parts of a key *)
Lemma Skip_spec k n : valid k -> exists k', Skip k n = Ok k' /\ valid k' /\ bits k' = drop n (bits k).
Proof.
  intros Hk. pose proof (length_bits _ Hk) as Hlk. pose proof (v_length _ Hk) as Hlv. pose proof (bytesNeeded_spec (k_length k)). destruct (div_mod_8 n) as [Hn Hr]. unfold Skip.
  destruct (Nat.leb_spec (k_length k) n); [exists empty_key; split_and!; [done|apply valid_empty|rewrite drop_ge by lia; done]|].
  unfold slice_from. destruct (Nat.leb_spec (n / 8) (length (k_value k))); [|lia]. cbn [mbind result_bind]. set (value := drop (n / 8) (k_value k)).
  set (len := (k_length k - n)%nat). pose proof (bytesNeeded_spec len). assert (length value = length (k_value k) - n / 8)%nat as Hval by apply length_drop.
  assert (Forall is_byte value) as Hbv by apply Forall_drop, Hk.
  assert (drop (n mod 8) (all_bits value) = drop n (bits k) ++ zeros (8 * length (k_value k) - k_length k)) as Hbits.
  { unfold value. rewrite <- drop_all_bits, drop_drop, <- Hn, (v_padding _ Hk). apply drop_app_le. lia. }
  destruct (Nat.eqb_spec (n mod 8) 0) as [Hz|Hz].
  - exists (mkKey len value). split; [done|]. apply mk_valid; [done|symmetry; apply bytesNeeded_unique; lia|rewrite length_drop; lia|].
    rewrite Hz in Hbits. rewrite drop_0 in Hbits. rewrite Hbits. do 2 f_equal. lia.
  - assert (length (replicate (bytesNeeded len) 0) = bytesNeeded len) as Hlr by apply length_replicate.
    destruct (shiftCopy_spec value (replicate (bytesNeeded len) 0) (n mod 8)) as (buffer & -> & Hl' & Hb' & Ha'); [lia|done|apply Forall_replicate; split; lia| |lia|].
    { intros Hnil. apply (f_equal length) in Hnil. rewrite Hval in Hnil. cbn [length] in Hnil. lia. }
    exists (mkKey len buffer). split; [done|]. apply mk_valid; [done|lia|rewrite length_drop; lia|].
    rewrite Ha', Hl', Hlr. unfold shifted. rewrite Hbits, all_bits_zeros, drop_replicate, <- app_assoc, <- replicate_add, take_app, take_ge by (rewrite length_drop; lia).
    rewrite take_replicate, <- app_assoc, <- replicate_add. do 2 f_equal. rewrite length_drop. lia.
Qed.
Lemma zip_and_mask l r m : zip_with andb l (replicate r true ++ zeros m) = take r l ++ zeros (Nat.min m (length l - r)).
Proof.
  revert r. induction l as [|y l IH]; intros [|r]; cbn; [by rewrite Nat.min_0_r|by rewrite Nat.min_0_r| |by rewrite andb_true_r, IH].
  destruct m; [done|]. cbn. rewrite andb_false_r. f_equal. clear. revert m. induction l as [|z l IH]; intros [|m]; cbn; [done..|]. by rewrite andb_false_r, IH.
Qed.
Lemma Take_spec k n : valid k -> exists k', Take k n = Ok k' /\ valid k' /\ bits k' = take n (bits k).
Proof.
  intros Hk. pose proof (length_bits _ Hk) as Hlk. pose proof (v_length _ Hk) as Hlv. pose proof (bytesNeeded_spec (k_length k)). pose proof (bytesNeeded_spec n). destruct (div_mod_8 n) as [Hn Hr]. unfold Take.
  destruct (Nat.leb_spec (k_length k) n); [exists k; split_and!; [done..|by rewrite take_ge by lia]|].
  assert (take n (all_bits (k_value k)) = take n (bits k)) as Hbits by (rewrite (v_padding _ Hk); apply take_app_le; lia).
  destruct (Nat.eqb_spec (n mod 8) 0) as [Hz|Hz].
  - unfold slice_to. destruct (Nat.leb_spec (n / 8) (length (k_value k))); [|lia]. cbn [mbind result_bind].
    eexists. split; [done|]. apply mk_valid; [apply Forall_take, Hk|rewrite length_take, (bytesNeeded_exact n Hz); lia|rewrite length_take; lia|].
    rewrite <- take_all_bits. replace (8 * (n / 8))%nat with n by lia. rewrite Hbits, length_take. replace (8 * _ - n)%nat with 0%nat by lia. by rewrite app_nil_r.
  - pose proof (bytesNeeded_partial n Hz) as Hp. set (q := (n / 8)%nat) in *. set (r := (n mod 8)%nat) in *.
    set (buffer := copy (replicate (bytesNeeded n) 0) (k_value k)). assert (buffer = take (S q) (k_value k)) as Hbuf.
    { unfold buffer, copy. rewrite length_replicate, drop_ge, app_nil_r, Hp by (rewrite length_replicate; lia). done. }
    assert (length buffer = S q) as Hlb by (rewrite Hbuf, length_take; lia). unfold last_index. rewrite Hlb. cbn [Nat.eqb mbind result_bind]. replace (S q - 1)%nat with q by lia.
    destruct (lookup_lt_is_Some_2 buffer q) as [x Hx]; [lia|]. rewrite (index_Some buffer q x) by done. cbn [mbind result_bind]. rewrite set_byte_Ok by lia. cbn [mbind result_bind].
    assert (Forall is_byte buffer) as Hbb by (rewrite Hbuf; apply Forall_take, Hk). assert (is_byte x) as Hbx by by eapply Forall_lookup_1.
    assert (dualBitIndex r = 8 - r)%nat as -> by (unfold dualBitIndex; apply Nat.mod_small; lia). assert (is_byte 255) as H255 by (split; lia).
    destruct (byte_shl 255 (8 - r) H255 ltac:(lia)) as [Hmi Hmb]. eexists. split; [done|].
    apply mk_valid; [by apply Forall_insert, byte_land_is|rewrite length_insert; lia|rewrite length_take; lia|].
    rewrite all_bits_insert, length_insert, Hlb by lia. rewrite drop_ge, app_nil_r by lia. rewrite byte_land, Hmb.
    assert (byte_bits 255 = replicate 8 true) as -> by done. rewrite drop_replicate. replace (8 - (8 - r))%nat with r by lia.
    assert (zip_with andb (byte_bits x) (replicate r true ++ zeros (8 - r)) = take r (byte_bits x) ++ zeros (8 - r)) as ->.
    { rewrite zip_and_mask, length_byte_bits. do 2 f_equal. lia. }
    assert (take n (all_bits (k_value k)) = all_bits (take q buffer) ++ take r (byte_bits x)) as Hsplit.
    { assert (take n (all_bits (k_value k)) = take n (all_bits buffer)) as ->.
      { rewrite Hbuf, <- take_all_bits, take_take. f_equal. lia. }
      rewrite (split_all_bits q buffer), take_app, take_ge by (rewrite length_all_bits, length_take; lia). f_equal.
      rewrite (drop_S _ x), drop_ge, all_bits_cons by (done || lia). rewrite length_all_bits, length_take, take_app_le by (rewrite length_byte_bits; lia). f_equal. lia. }
    rewrite <- Hbits, Hsplit, <- app_assoc. do 3 f_equal. lia.
Qed.

(** *** Prefixes *)
Lemma prefix_take {A} (l l' : list A) : l `prefix_of` l' <-> take (length l) l' = l.
Proof. split; [intros [r ->]; by rewrite take_app_length|intros Hl; exists (drop (length l) l'); by rewrite <- Hl at 1; rewrite take_drop]. Qed.
Lemma HasPrefix_spec (l prefix : bytes) : HasPrefix l prefix = bool_decide (take (length prefix) l = prefix).
Proof.
  revert l. induction prefix as [|p prefix IH]; intros [|b l]; cbn; [done..|]. rewrite IH. destruct (Z.eqb_spec p b) as [->|Hne]; cbn.
  - apply bool_decide_ext. split; [by intros ->|by intros [= ?]].
  - symmetry. apply bool_decide_eq_false. by intros [= ? ?].
Qed.
Lemma byte_mask a b n : is_byte a -> is_byte b -> (n <= 8)%nat -> Z.lor a (shr8 255 n) = Z.lor b (shr8 255 n) <-> take n (byte_bits a) = take n (byte_bits b).
Proof.
  intros Ha Hb Hn. assert (is_byte 255) as H255 by (split; lia). destruct (byte_shr 255 n H255 Hn) as [Him Hbm].
  assert (forall x, byte_bits (Z.lor x (shr8 255 n)) = take n (byte_bits x) ++ replicate (8 - n) true) as Hx.
  { intros x. rewrite byte_lor, Hbm. pose proof (length_byte_bits x) as Hlx. assert (byte_bits 255 = replicate 8 true) as -> by done. rewrite take_replicate, Nat.min_l by lia.
    set (l := byte_bits x) in *. assert (forall m, zip_with orb l (zeros n ++ replicate m true) = take n l ++ replicate (Nat.min m (length l - n)) true)%nat as ->; [|do 2 f_equal; lia].
    intros m. clear. revert n. induction l as [|y l IH]; intros [|n]; cbn; [by rewrite Nat.min_0_r|by rewrite Nat.min_0_r| |by rewrite orb_false_r, IH].
    destruct m; [done|]. cbn. rewrite orb_true_r. f_equal. clear. revert m. induction l as [|z l IH]; intros [|m]; cbn; [done..|]. by rewrite orb_true_r, IH. }
  split.
  - intros Heq. pose proof (Hx a) as Hxa. rewrite Heq, Hx in Hxa. apply app_inj_1 in Hxa as [Hxa _]; [done|]. by rewrite !length_take, !length_byte_bits.
  - intros Heq. assert (byte_bits (Z.lor a (shr8 255 n)) = byte_bits (Z.lor b (shr8 255 n))) as Hbits by by rewrite !Hx, Heq.
    rewrite <- (byte_val (Z.lor a _)), <- (byte_val (Z.lor b _)), Hbits by by apply byte_lor_is. done.
Qed.
(** The first bits of the last byte of a prefix. *)
Lemma bits_split k q r b : (8 * q + r <= k_length k)%nat -> (r <= 8)%nat -> k_value k !! q = Some b ->
  take (8 * q + r) (bits k) = all_bits (take q (k_value k)) ++ take r (byte_bits b).
Proof.
  intros Hl Hr Hb. unfold bits. rewrite take_take, Nat.min_l by lia. assert (q < length (k_value k))%nat by by eapply lookup_lt_Some.
  rewrite (split_all_bits q (k_value k)) at 1. rewrite take_app, take_ge by (rewrite length_all_bits, length_take; lia). f_equal.
  rewrite length_all_bits, length_take, (drop_S _ b), all_bits_cons by done. rewrite take_app_le by (rewrite length_byte_bits; lia). f_equal. lia.
Qed.
Lemma KeyHasPrefix_spec k p : valid k -> valid p -> KeyHasPrefix k p = Ok (bool_decide (bits p `prefix_of` bits k)).
Proof.
  intros Hk Hp. pose proof (length_bits _ Hk) as Hlk. pose proof (length_bits _ Hp) as Hlp. pose proof (v_length _ Hk). pose proof (v_length _ Hp) as Hvp.
  pose proof (bytesNeeded_spec (k_length k)). pose proof (bytesNeeded_spec (k_length p)). destruct (div_mod_8 (k_length p)) as [Hn Hr]. unfold KeyHasPrefix.
  destruct (Nat.ltb_spec (k_length k) (k_length p)) as [Hlt|Hle].
  { rewrite bool_decide_eq_false_2; [done|]. intros Hpre%prefix_length. lia. }
  assert (forall P : Prop, forall dP : Decision P, forall dQ : Decision (bits p `prefix_of` bits k), (P <-> bits p `prefix_of` bits k) -> @bool_decide P dP = @bool_decide _ dQ) as Hext by (intros P dP dQ HPQ; by apply bool_decide_ext).
  destruct (Nat.eqb_spec (k_length p mod 8) 0) as [Hz|Hz].
  - f_equal. rewrite HasPrefix_spec. apply Hext. rewrite prefix_take, Hlp. rewrite (bytesNeeded_exact _ Hz) in Hvp. set (q := (k_length p / 8)%nat) in *.
    assert (bits p = all_bits (k_value p)) as -> by (unfold bits; apply take_ge; rewrite length_all_bits; lia).
    unfold bits. rewrite take_take, Nat.min_l, Hvp by lia. replace (k_length p) with (8 * q)%nat by lia. rewrite take_all_bits.
    split; [by intros ->|]. intros Heq. apply all_bits_inj; [apply Forall_take, Hk|apply Hp|done].
  - rewrite (bytesNeeded_partial _ Hz) in Hvp. set (q := (k_length p / 8)%nat) in *. set (r := (k_length p mod 8)%nat) in *.
    unfold last_index. rewrite Hvp. cbn [Nat.eqb mbind result_bind]. replace (S q - 1)%nat with q by lia.
    destruct (lookup_lt_is_Some_2 (k_value p) q) as [x Hx]; [lia|]. destruct (lookup_lt_is_Some_2 (k_value k) q) as [y Hy]; [lia|].
    rewrite (index_Some (k_value p) q x), (index_Some (k_value k) q y) by done. cbn [mbind result_bind].
    assert (is_byte x) as Hbx by (eapply (Forall_lookup_1 _ _ _ _ (v_bytes _ Hp)); done). assert (is_byte y) as Hby by (eapply (Forall_lookup_1 _ _ _ _ (v_bytes _ Hk)); done).
    assert (bits p = all_bits (take q (k_value p)) ++ take r (byte_bits x)) as Hbp.
    { rewrite <- (bits_split p q r x) by (done || lia). symmetry. apply take_ge. lia. }
    assert (bits p `prefix_of` bits k <-> take q (k_value k) = take q (k_value p) /\ take r (byte_bits y) = take r (byte_bits x)) as Hiff.
    { rewrite prefix_take, Hlp, Hn, (bits_split k q r y), Hbp by (done || lia). split; [|by intros [-> ->]]. intros Heq. apply app_inj_2 in Heq as [Heq ?]; [|by rewrite !length_take, !length_byte_bits].
      split; [|done]. apply all_bits_inj; [apply Forall_take, Hk|apply Forall_take, Hp|done]. }
    destruct (Z.eqb_spec (Z.lor x (shr8 255 r)) (Z.lor y (shr8 255 r))) as [Heq|Hne]; cbn [negb].
    + apply byte_mask in Heq; [|done|done|lia]. f_equal. rewrite HasPrefix_spec. apply Hext. rewrite Hiff, length_take, Nat.min_l by lia. naive_solver.
    + rewrite bool_decide_eq_false_2; [done|]. rewrite Hiff. intros [_ Heq]. apply Hne. by apply byte_mask; [| |lia|].
Qed.

(** ** The longest common prefix of two lists *)
Fixpoint lcp (l l' : list Z) : list Z :=
  match l, l' with a :: l, b :: l' => if decide (a = b) then a :: lcp l l' else [] | _, _ => [] end.
Lemma lcp_nil_r l : lcp l [] = [].
Proof. by destruct l. Qed.
Lemma lcp_prefix_l l l' : lcp l l' `prefix_of` l.
Proof. revert l'. induction l as [|a l IH]; intros [|b l']; cbn; try apply prefix_nil. case_decide; [by apply prefix_cons|apply prefix_nil]. Qed.
Lemma lcp_comm l l' : lcp l l' = lcp l' l.
Proof. revert l'. induction l as [|a l IH]; intros [|b l']; cbn; [done..|]. case_decide; subst; [by rewrite decide_True, IH|by rewrite decide_False]. Qed.
Lemma lcp_prefix_r l l' : lcp l l' `prefix_of` l'.
Proof. rewrite lcp_comm. apply lcp_prefix_l. Qed.
Lemma lcp_greatest p l l' : p `prefix_of` l -> p `prefix_of` l' -> p `prefix_of` lcp l l'.
Proof.
  intros [r ->] [r' ->]. induction p as [|a p IH]; cbn; [apply prefix_nil|]. rewrite decide_True by done. by apply prefix_cons.
Qed.

(** ** Keys as lists of tokens
    On paths of the trie the lengths are multiples of the token size. *)
Definition token_size (ts : nat) : Prop := ts ∈ [1; 2; 4; 8]%nat.
Fixpoint chunk (n ts : nat) (l : list bool) : list Z :=
  match n with O => [] | S n => bits_val (take ts l) :: chunk n ts (drop ts l) end.
Definition tokens (ts : nat) (k : Key) : list Z := chunk (k_length k / ts) ts (bits k).
Record wf_key (ts : nat) (k : Key) : Prop := { wk_valid : valid k; wk_length : (k_length k = ts * (k_length k / ts))%nat }.

Lemma bits_val_acc l acc : foldl (fun acc b => 2 * acc + Z.b2z b) acc l = acc * 2 ^ Z.of_nat (length l) + bits_val l.
Proof.
  unfold bits_val. revert acc. induction l as [|b l IH]; intros acc; [cbn; lia|]. cbn [foldl length]. rewrite IH, (IH (2 * 0 + _)). rewrite Nat2Z.inj_succ, Z.pow_succ_r by lia. lia.
Qed.
Lemma bits_val_cons b l : bits_val (b :: l) = Z.b2z b * 2 ^ Z.of_nat (length l) + bits_val l.
Proof. unfold bits_val at 1. cbn [foldl]. rewrite bits_val_acc. lia. Qed.
Lemma bits_val_bound l : 0 <= bits_val l < 2 ^ Z.of_nat (length l).
Proof.
  induction l as [|b l IH]; [cbn; lia|]. rewrite bits_val_cons. cbn [length]. rewrite Nat2Z.inj_succ, Z.pow_succ_r by lia. destruct b; cbn; lia.
Qed.
Lemma bits_val_inj l l' : length l = length l' -> bits_val l = bits_val l' -> l = l'.
Proof.
  revert l'. induction l as [|b l IH]; intros [|b' l'] Hl Hv; try done. injection Hl as Hl. rewrite !bits_val_cons, Hl in Hv.
  pose proof (bits_val_bound l) as H1. pose proof (bits_val_bound l') as H2. rewrite Hl in H1.
  assert (b = b') as -> by (destruct b, b'; cbn in Hv; (done || lia)). f_equal. apply IH; [done|lia].
Qed.

Section chunks.
Context (ts : nat) (Hts : (0 < ts)%nat).
Lemma length_chunk n l : length (chunk n ts l) = n.
Proof. revert l. induction n; intros l; cbn; [done|]. by rewrite IHn. Qed.
Lemma chunk_app n m l l' : length l = (ts * n)%nat -> chunk (n + m) ts (l ++ l') = chunk n ts l ++ chunk m ts l'.
Proof.
  revert l. induction n as [|n IH]; intros l Hl; [destruct l; [done|cbn in Hl; lia]|]. cbn. rewrite take_app_le, drop_app_le by lia. f_equal. apply IH. rewrite length_drop. lia.
Qed.
Lemma chunk_take n m l : (m <= n)%nat -> chunk m ts (take (ts * m) l) = take m (chunk n ts l).
Proof.
  revert n l. induction m as [|m IH]; intros [|n] l Hm; [done|done|lia|]. cbn. rewrite take_take, Nat.min_l, skipn_firstn_comm by lia. f_equal.
  replace (ts * S m - ts)%nat with (ts * m)%nat by lia. apply IH. lia.
Qed.
Lemma chunk_drop n m l : chunk n ts (drop (ts * m) l) = drop m (chunk (m + n) ts l).
Proof. revert l. induction m as [|m IH]; intros l; [by rewrite Nat.mul_0_r|]. cbn. rewrite <- IH, drop_drop. do 2 f_equal. lia. Qed.
Lemma chunk_lookup n i l : (i < n)%nat -> chunk n ts l !! i = Some (bits_val (take ts (drop (ts * i) l))).
Proof.
  revert i l. induction n as [|n IH]; intros [|i] l Hi; [lia|lia|by rewrite Nat.mul_0_r|]. cbn. rewrite IH by lia. rewrite drop_drop. do 4 f_equal. lia.
Qed.
Lemma chunk_inj n l l' : length l = (ts * n)%nat -> length l' = (ts * n)%nat -> chunk n ts l = chunk n ts l' -> l = l'.
Proof.
  revert l l'. induction n as [|n IH]; intros l l' Hl Hl' Heq; [destruct l, l'; (done || cbn in *; lia)|]. injection Heq as Hv Heq.
  apply bits_val_inj in Hv; [|rewrite !length_take; lia]. rewrite <- (take_drop ts l), <- (take_drop ts l'), Hv. f_equal. apply IH; [rewrite length_drop; lia..|done].
Qed.
Lemma chunk_bound n l : Forall (fun t => 0 <= t < 2 ^ Z.of_nat ts) (chunk n ts l).
Proof.
  revert l. induction n as [|n IH]; intros l; cbn; constructor; [|done]. pose proof (bits_val_bound (take ts l)) as Hb. rewrite length_take in Hb.
  assert (2 ^ Z.of_nat (Nat.min ts (length l)) <= 2 ^ Z.of_nat ts) by (apply Z.pow_le_mono_r; lia). lia.
Qed.
End chunks.

Section tokens.
Context (ts : nat) (Hsize : token_size ts).
Implicit Types k p : Key.
Lemma token_size_pos : (0 < ts)%nat.
Proof. unfold token_size in Hsize. rewrite !elem_of_cons, elem_of_nil in Hsize. lia. Qed.
Lemma token_in_byte i : ((ts * i) mod 8 + ts <= 8)%nat.
Proof.
  assert (exists q, 8 = ts * q)%nat as [q Hq].
  { unfold token_size in Hsize. rewrite !elem_of_cons, elem_of_nil in Hsize. destruct Hsize as [->|[->|[->|[->|[]]]]]; [by exists 8%nat|by exists 4%nat|by exists 2%nat|by exists 1%nat]. }
  rewrite Hq, Nat.Div0.mul_mod_distr_l. pose proof (Nat.mod_upper_bound i q). assert (i mod q < q)%nat by (destruct q; lia). nia.
Qed.
Lemma mul_div n : (ts * n / ts = n)%nat.
Proof. rewrite Nat.mul_comm. apply Nat.div_mul. pose proof token_size_pos. lia. Qed.
Lemma length_tokens k : length (tokens ts k) = (k_length k / ts)%nat.
Proof. apply length_chunk. Qed.
Lemma wk_bits k : wf_key ts k -> length (bits k) = (ts * length (tokens ts k))%nat.
Proof. intros [Hv Hl]. by rewrite length_bits, length_tokens. Qed.
Lemma wk_k_length k : wf_key ts k -> k_length k = (ts * length (tokens ts k))%nat.
Proof. intros [Hv Hl]. by rewrite length_tokens. Qed.
(** A key from its bits. *)
Lemma tokens_of k n : valid k -> length (bits k) = (ts * n)%nat -> wf_key ts k /\ tokens ts k = chunk n ts (bits k).
Proof.
  intros Hv Hl. rewrite length_bits in Hl by done. split; [split; [done|]; by rewrite Hl, mul_div|]. unfold tokens. by rewrite Hl, mul_div.
Qed.
Lemma tokens_inj k k' : wf_key ts k -> wf_key ts k' -> tokens ts k = tokens ts k' -> k = k'.
Proof.
  intros Hk Hk' Heq. apply valid_eq; [apply Hk|apply Hk'|]. pose proof (wk_bits _ Hk) as Hl. pose proof (wk_bits _ Hk') as Hl'. rewrite <- Heq in Hl'.
  apply (chunk_inj ts token_size_pos (length (tokens ts k))); [done..|]. transitivity (tokens ts k); [by rewrite length_tokens|]. rewrite Heq, length_tokens. done.
Qed.
Lemma tokens_bound k : Forall (fun t => 0 <= t < 2 ^ Z.of_nat ts) (tokens ts k).
Proof. apply chunk_bound, token_size_pos. Qed.

Lemma Token_tokens k i : wf_key ts k -> (i < length (tokens ts k))%nat -> exists t, Token k (ts * i) ts = Ok t /\ tokens ts k !! i = Some t.
Proof.
  intros Hk Hi. eexists. split; [apply Token_spec; [apply Hk|apply token_size_pos|apply token_in_byte|]|].
  - rewrite (wk_k_length _ Hk). nia.
  - unfold tokens. apply chunk_lookup; [apply token_size_pos|]. by rewrite <- length_tokens.
Qed.
Lemma Take_tokens k n : wf_key ts k -> exists k', Take k (ts * n) = Ok k' /\ wf_key ts k' /\ tokens ts k' = take n (tokens ts k).
Proof.
  intros Hk. pose proof (wk_bits _ Hk) as Hl. destruct (Take_spec k (ts * n) (wk_valid _ _ Hk)) as (k' & Ht & Hv & Hb). exists k'. split; [done|].
  destruct (Nat.le_gt_cases n (length (tokens ts k))) as [Hle|Hgt].
  - destruct (tokens_of k' n) as [? ->]; [done|rewrite Hb, length_take, Hl; nia|]. split; [done|]. rewrite Hb. apply chunk_take; [apply token_size_pos|]. by rewrite <- length_tokens.
  - rewrite take_ge in Hb by nia. apply valid_eq in Hb as ->; [|done|apply Hk]. split; [done|]. by rewrite take_ge by lia.
Qed.
Lemma Skip_tokens k n : wf_key ts k -> exists k', Skip k (ts * n) = Ok k' /\ wf_key ts k' /\ tokens ts k' = drop n (tokens ts k).
Proof.
  intros Hk. pose proof (wk_bits _ Hk) as Hl. destruct (Skip_spec k (ts * n) (wk_valid _ _ Hk)) as (k' & Ht & Hv & Hb). exists k'. split; [done|].
  destruct (Nat.le_gt_cases n (length (tokens ts k))) as [Hle|Hgt].
  - destruct (tokens_of k' (length (tokens ts k) - n)) as [? ->]; [done|rewrite Hb, length_drop, Hl; nia|]. split; [done|]. rewrite Hb, (chunk_drop ts token_size_pos).
    replace (n + (length (tokens ts k) - n))%nat with (length (tokens ts k)) by lia. by rewrite length_tokens.
  - destruct (tokens_of k' 0) as [? ->]; [done|rewrite Hb, length_drop, Hl; nia|]. split; [done|]. by rewrite drop_ge by lia.
Qed.
Lemma Extend_tokens k keys : wf_key ts k -> Forall (wf_key ts) keys -> exists k', Extend k keys = Ok k' /\ wf_key ts k' /\ tokens ts k' = tokens ts k ++ keys ≫= tokens ts.
Proof.
  intros Hk Hks. destruct (Extend_spec k keys (wk_valid _ _ Hk)) as (k' & He & Hv & Hb); [eapply Forall_impl; [done|]; by intros ? []|]. exists k'. split; [done|].
  assert (length (keys ≫= bits) = (ts * length (keys ≫= tokens ts))%nat /\ chunk (length (keys ≫= tokens ts)) ts (keys ≫= bits) = keys ≫= tokens ts) as [Hl Hc].
  { clear -Hks Hsize. induction Hks as [|x keys Hx _ [IHl IHc]]; [cbn; by rewrite Nat.mul_0_r|]. rewrite !bind_cons, !length_app, IHl, (wk_bits _ Hx). split; [lia|].
    rewrite (chunk_app ts token_size_pos) by apply (wk_bits _ Hx). rewrite IHc. f_equal. by rewrite length_tokens. }
  destruct (tokens_of k' (length (tokens ts k) + length (keys ≫= tokens ts))) as [? ->]; [done|rewrite Hb, length_app, Hl, (wk_bits _ Hk); lia|]. split; [done|].
  rewrite Hb, (chunk_app ts token_size_pos), Hc by apply (wk_bits _ Hk). f_equal. by rewrite length_tokens.
Qed.
Lemma prefix_tokens k p : wf_key ts k -> wf_key ts p -> bits p `prefix_of` bits k <-> tokens ts p `prefix_of` tokens ts k.
Proof.
  intros Hk Hp. rewrite !prefix_take. pose proof (wk_bits _ Hk) as Hlk. pose proof (wk_bits _ Hp) as Hlp.
  destruct (Nat.le_gt_cases (length (tokens ts p)) (length (tokens ts k))) as [Hle|Hgt].
  - rewrite Hlp. split.
    + intros Heq. unfold tokens at 2 3. rewrite <- (chunk_take ts token_size_pos (k_length k / ts)), Heq by by rewrite <- !length_tokens. by rewrite length_tokens.
    + intros Heq. apply (chunk_inj ts token_size_pos (length (tokens ts p))); [rewrite length_take; nia|done|]. rewrite (chunk_take ts token_size_pos (k_length k / ts)) by by rewrite <- length_tokens.
      change (chunk (k_length k / ts) ts (bits k)) with (tokens ts k). rewrite Heq, length_tokens. done.
  - pose proof token_size_pos. split; intros Heq; apply (f_equal length) in Heq; rewrite length_take in Heq; nia.
Qed.
Lemma KeyHasPrefix_tokens k p : wf_key ts k -> wf_key ts p -> KeyHasPrefix k p = Ok (bool_decide (tokens ts p `prefix_of` tokens ts k)).
Proof.
  intros Hk Hp. rewrite KeyHasPrefix_spec by (apply Hk || apply Hp). f_equal. apply bool_decide_ext. by apply prefix_tokens.
Qed.

Lemma KeyHasPrefix_loop k p n : wf_key ts k -> wf_key ts p -> (n + length (tokens ts p) <= length (tokens ts k))%nat ->
  forall fuel i, (length (tokens ts p) - i < fuel)%nat ->
  has_prefix_loop k p (ts * n) ts fuel (ts * i) = Ok (bool_decide (drop i (tokens ts p) `prefix_of` drop (n + i) (tokens ts k))).
Proof.
  intros Hk Hp Hn fuel. pose proof token_size_pos as Hpos. induction fuel as [|fuel IH]; intros i Hi; [lia|]. cbn [has_prefix_loop]. rewrite (wk_k_length _ Hp).
  destruct (Nat.ltb_spec (ts * i) (ts * length (tokens ts p))) as [Hlt|Hge]; [apply Nat.mul_lt_mono_pos_l in Hlt; [|done]|apply Nat.mul_le_mono_pos_l in Hge; [|done]].
  - replace (ts * n + ts * i)%nat with (ts * (n + i))%nat by lia.
    destruct (Token_tokens k (n + i) Hk) as (a & Ha & Hia); [lia|]. destruct (Token_tokens p i Hp) as (b & Hb & Hib); [lia|].
    rewrite Ha, Hb. cbn [mbind result_bind]. rewrite (drop_S _ a (n + i)), (drop_S _ b i) by done.
    destruct (Z.eqb_spec a b) as [->|Hne]; cbn [negb].
    + replace (ts * i + ts)%nat with (ts * S i)%nat by lia. rewrite IH by lia. replace (n + S i)%nat with (S (n + i)) by lia. f_equal. apply bool_decide_ext.
      split; [apply prefix_cons|apply prefix_cons_inv_2].
    + rewrite bool_decide_eq_false_2; [done|]. intros Hc%prefix_cons_inv_1. done.
  - rewrite drop_ge by lia. rewrite bool_decide_eq_true_2; [done|apply prefix_nil].
Qed.
Lemma iteratedHasPrefix_tokens k p n : wf_key ts k -> wf_key ts p -> (n <= length (tokens ts k))%nat ->
  iteratedHasPrefix k p (ts * n) ts = Ok (bool_decide (tokens ts p `prefix_of` drop n (tokens ts k))).
Proof.
  intros Hk Hp Hnk. pose proof token_size_pos as Hpos. unfold iteratedHasPrefix. rewrite (wk_k_length _ Hk), (wk_k_length _ Hp).
  destruct (Z.ltb_spec (Z.of_nat (ts * length (tokens ts k)) - Z.of_nat (ts * n)) (Z.of_nat (ts * length (tokens ts p)))) as [Hlt|Hge].
  - assert (length (tokens ts k) < n + length (tokens ts p) \/ n + length (tokens ts p) <= length (tokens ts k))%nat as [Hl|] by lia; [|nia].
    rewrite bool_decide_eq_false_2; [done|]. intros Hc%prefix_length. rewrite length_drop in Hc. lia.
  - assert (n + length (tokens ts p) <= length (tokens ts k))%nat by nia.
    pose proof (KeyHasPrefix_loop k p n Hk Hp ltac:(lia) (S (ts * length (tokens ts p))) 0 ltac:(nia)) as Hloop.
    rewrite Nat.mul_0_r, Nat.add_0_r in Hloop. exact Hloop.
Qed.

Lemma common_prefix_loop_spec k p n : wf_key ts k -> wf_key ts p ->
  forall fuel i, (length (tokens ts k) - i < fuel)%nat ->
  common_prefix_loop k p (ts * n) ts fuel (ts * i) = Ok (ts * (i + length (lcp (drop i (tokens ts k)) (drop (n + i) (tokens ts p)))))%nat.
Proof.
  intros Hk Hp fuel. pose proof token_size_pos as Hpos. induction fuel as [|fuel IH]; intros i Hi; [lia|]. cbn [common_prefix_loop]. rewrite (wk_k_length _ Hk), (wk_k_length _ Hp).
  replace (ts * i + ts * n)%nat with (ts * (n + i))%nat by lia. 
  destruct (Nat.ltb_spec (ts * i) (ts * length (tokens ts k))) as [Hlt|Hge]; [apply Nat.mul_lt_mono_pos_l in Hlt; [|done]|apply Nat.mul_le_mono_pos_l in Hge; [|done]]; cbn [andb].
  2:{ rewrite (drop_ge (tokens ts k)) by lia. cbn. do 2 f_equal. lia. }
  destruct (Nat.ltb_spec (ts * (n + i)) (ts * length (tokens ts p))) as [Hlt'|Hge]; [apply Nat.mul_lt_mono_pos_l in Hlt'; [|done]|apply Nat.mul_le_mono_pos_l in Hge; [|done]].
  2:{ rewrite (drop_ge (tokens ts p)), lcp_nil_r by lia. cbn. do 2 f_equal. lia. }
  destruct (Token_tokens k i Hk) as (a & Ha & Hia); [lia|]. destruct (Token_tokens p (n + i) Hp) as (b & Hb & Hib); [lia|].
  rewrite Ha, Hb. cbn [mbind result_bind]. rewrite (drop_S _ b (n + i)), (drop_S _ a i) by done. cbn [lcp].
  destruct (Z.eqb_spec a b) as [->|Hne].
  - rewrite decide_True by done. replace (ts * i + ts)%nat with (ts * S i)%nat by lia. rewrite IH by lia. replace (n + S i)%nat with (S (n + i)) by lia. cbn [length]. do 2 f_equal. lia.
  - rewrite decide_False by done. cbn. do 2 f_equal. lia.
Qed.
Lemma getLengthOfCommonPrefix_tokens k p n : wf_key ts k -> wf_key ts p ->
  getLengthOfCommonPrefix k p (ts * n) ts = Ok (ts * length (lcp (tokens ts k) (drop n (tokens ts p))))%nat.
Proof.
  intros Hk Hp. pose proof token_size_pos. unfold getLengthOfCommonPrefix. rewrite (wk_k_length _ Hk).
  pose proof (common_prefix_loop_spec k p n Hk Hp (S (ts * length (tokens ts k))) 0 ltac:(nia)) as Hl. by rewrite Nat.mul_0_r, Nat.add_0_r in Hl.
Qed.

Lemma ToToken_tokens v : 0 <= v < 2 ^ Z.of_nat ts -> wf_key ts (ToToken v ts) /\ tokens ts (ToToken v ts) = [v].
Proof.
  intros Hv. assert (Forall (fun ts => Forall (fun v => v < 2 ^ Z.of_nat ts -> is_byte (shl8 v (dualBitIndex ts)) /\
     byte_bits (shl8 v (dualBitIndex ts)) = take ts (byte_bits (shl8 v (dualBitIndex ts))) ++ zeros (8 - ts) /\ bits_val (take ts (byte_bits (shl8 v (dualBitIndex ts)))) = v) (seqZ 0 256)) [1; 2; 4; 8]%nat) as Hall.
  { apply (bool_decide_eq_true_1 _). vm_compute. reflexivity. }
  rewrite Forall_forall in Hall. specialize (Hall ts Hsize). rewrite Forall_forall in Hall.
  assert (ts <= 8)%nat as Hle by (unfold token_size in Hsize; rewrite !elem_of_cons, elem_of_nil in Hsize; lia).
  assert (2 ^ Z.of_nat ts <= 2 ^ 8) by (apply Z.pow_le_mono_r; lia). change (2 ^ 8) with 256 in *. pose proof token_size_pos.
  destruct (Hall v) as (Hb & Hbits & Hval); [apply elem_of_seqZ; lia|lia|].
  destruct (mk_valid ts [shl8 v (dualBitIndex ts)] (take ts (byte_bits (shl8 v (dualBitIndex ts))))) as [Hvd Hbs]; [repeat constructor; apply Hb|cbn; symmetry; apply bytesNeeded_unique; lia|rewrite length_take, length_byte_bits; lia|cbn [length]; rewrite all_bits_cons, app_nil_r; exact Hbits|].
  destruct (tokens_of (ToToken v ts) 1) as [? ->]; [done|unfold ToToken; rewrite Hbs, length_take, length_byte_bits; lia|]. split; [done|]. unfold ToToken. rewrite Hbs. cbn [chunk]. rewrite take_take, Nat.min_id. by rewrite Hval.
Qed.
Lemma ToKey_wf l : Forall is_byte l -> wf_key ts (ToKey l) /\ bits (ToKey l) = all_bits l.
Proof.
  intros Hl. destruct (mk_valid (length l * 8) l (all_bits l)) as [Hv Hb]; [done|symmetry; apply bytesNeeded_unique; lia|rewrite length_all_bits; lia|replace (8 * length l - length l * 8)%nat with 0%nat by lia; by rewrite app_nil_r|].
  split; [|done]. assert (exists q, 8 = ts * q)%nat as [q Hq].
  { unfold token_size in Hsize. rewrite !elem_of_cons, elem_of_nil in Hsize. destruct Hsize as [->|[->|[->|[->|[]]]]]; [by exists 8%nat|by exists 4%nat|by exists 2%nat|by exists 1%nat]. }
  apply (tokens_of (ToKey l) (length l * q)); [done|]. unfold ToKey. rewrite Hb, length_all_bits. nia.
Qed.
End tokens.
End MerkleKey.
