(* ===== verification/MerkleCodec.v ===== *)
(** * Nodes of the Merkle trie and their encodings
    Models [x/merkledb/node.go], [codec.go] and [hashing.go], with the variable-length
    integers of [encoding/binary].  A reader is a computation on the bytes that are
    left; a writer appends to a buffer.  Every decoder accepts exactly the bytes of its
    encoder, so that a node has one encoding; the input of a node's hash determines
    what it is made of. *)
From Stdlib Require Import Sorting.Sorted.
From stdpp Require Import sorting.
From S2P Require Import Prelude Monads GoLibrary MapOrder Sorting Database MerkleKey.

(** ** [binary.AppendUvarint] and [binary.Uvarint] *)
Module Varint.
Import BigEndian.

(** The bytes of an unsigned integer of 64 bits; 10 groups of 7 bits are enough. *)
Fixpoint put_loop (fuel : nat) (v : Z) : list Z :=
  match fuel with
  | O => []
  | S fuel => if v <? 128 then [v] else Z.lor (Z.land v 255) 128 :: put_loop fuel (Z.shiftr v 7)
  end.
Definition AppendUvarint (b : list Z) (v : Z) : list Z := b ++ put_loop 10 v.

Fixpoint get_loop (buf : list Z) (i : nat) (x : Z) : Z * Z :=
  match buf with
  | [] => (0, 0)
  | b :: buf =>
      if (i =? 10)%nat then (0, - (Z.of_nat i + 1))
      else if b <? 128 then
        if (i =? 9)%nat && (1 <? b) then (0, - (Z.of_nat i + 1))
        else (Z.lor x (wrap64 (Z.shiftl b (7 * Z.of_nat i))), Z.of_nat i + 1)
      else get_loop buf (S i) (Z.lor x (wrap64 (Z.shiftl (Z.land b 127) (7 * Z.of_nat i))))
  end.
(** The value and the number of bytes read, which is positive on success. *)
Definition Uvarint (buf : list Z) : Z * Z := get_loop buf 0 0.

(** *** What a group of bytes stands for *)
Inductive shape : list Z -> Prop :=
  | shape_last b : 0 <= b < 128 -> shape [b]
  | shape_more b l : 128 <= b < 256 -> shape l -> shape (b :: l).
Fixpoint val (l : list Z) : Z := match l with [] => 0 | b :: l => b mod 128 + 128 * val l end.
Definition canonical (l : list Z) : Prop := (1 < length l)%nat -> last l <> Some 0.

Lemma shape_length l : shape l -> (0 < length l)%nat.
Proof. by destruct 1; cbn; lia. Qed.
Lemma shape_bytes l : shape l -> Forall is_byte l.
Proof. unfold is_byte. induction 1; constructor; (lia || done || constructor). Qed.
Lemma shape_last_lt l b : shape l -> last l = Some b -> 0 <= b < 128.
Proof. induction 1 as [|b' l Hb' Hl IH]; [by intros [= ->]|]. destruct Hl; exact IH. Qed.
Lemma val_last l b : shape l -> last l = Some b -> b * 128 ^ Z.of_nat (length l - 1) <= val l.
Proof.
  induction 1 as [b' Hb'|b' l Hb' Hl IH]; [intros [= ->]; cbn; rewrite Z.mod_small by lia; lia|].
  intros Hb. assert (last l = Some b) as Hlb by (by destruct Hl). specialize (IH Hlb). pose proof (shape_length _ Hl).
  replace (length (b' :: l) - 1)%nat with (S (length l - 1)) by (cbn; lia). rewrite Nat2Z.inj_succ, Z.pow_succ_r by lia. cbn [val].
  pose proof (Z.mod_pos_bound b' 128). lia.
Qed.
Lemma val_bound l : shape l -> 0 <= val l < 128 ^ Z.of_nat (length l).
Proof.
  induction 1; cbn [val length]; rewrite Nat2Z.inj_succ, Z.pow_succ_r by lia; pose proof (Z.mod_pos_bound b 128); [cbn; lia|lia].
Qed.
Lemma canonical_tail b l : shape l -> canonical (b :: l) -> canonical l /\ 1 <= val l.
Proof.
  intros Hl Hc. pose proof (shape_length _ Hl) as Hlen. assert (last l <> Some 0) as Hz by (destruct Hl; apply (Hc ltac:(cbn; lia))).
  split; [by intros _|]. destruct (last l) as [c|] eqn:Hlast; [|apply last_None in Hlast; subst; by inversion Hl].
  pose proof (val_last l c Hl Hlast). pose proof (shape_last_lt l c Hl Hlast). assert (c <> 0) by congruence.
  assert (0 < 128 ^ Z.of_nat (length l - 1)) by (apply Z.pow_pos_nonneg; lia). nia.
Qed.
Lemma canonical_inj l l' : shape l -> shape l' -> canonical l -> canonical l' -> val l = val l' -> l = l'.
Proof.
  intros Hl. revert l'. induction Hl as [b Hb|b l Hb Hl IH]; intros l' Hl' Hc Hc' Hv; destruct Hl' as [b' Hb'|b' l' Hb' Hl']; cbn [val] in Hv.
  - f_equal. rewrite !Z.mod_small in Hv by lia. lia.
  - apply (canonical_tail _ _ Hl') in Hc' as [_ ?]. rewrite (Z.mod_small b) in Hv by lia. pose proof (Z.mod_pos_bound b' 128). lia.
  - apply (canonical_tail _ _ Hl) in Hc as [_ ?]. rewrite (Z.mod_small b') in Hv by lia. pose proof (Z.mod_pos_bound b 128). lia.
  - apply (canonical_tail _ _ Hl) in Hc as [? ?]. apply (canonical_tail _ _ Hl') in Hc' as [? ?].
    pose proof (Z.mod_pos_bound b 128). pose proof (Z.mod_pos_bound b' 128).
    assert (b = b') as -> by (assert (b mod 128 = b' mod 128) by lia; dlia). f_equal. apply IH; try done. lia.
Qed.

Lemma more_byte v : Z.lor (Z.land v 255) 128 = v mod 128 + 128.
Proof.
  change 255 with (Z.ones 8). rewrite Z.land_ones by lia. change (2 ^ 8) with 256.
  replace (v mod 128) with ((v mod 256) mod 128) by (change 256 with (128 * 2); rewrite Z.rem_mul_r by lia; rewrite Z.mul_comm, Z.mod_add, Z.mod_mod by lia; done).
  apply Z.eqb_eq. apply (MerkleKey.byte_cases (fun b => Z.lor b 128 =? b mod 128 + 128)); [vm_compute; reflexivity|]. apply Z.mod_pos_bound. lia.
Qed.
Lemma put_loop_spec fuel v : (0 < fuel)%nat -> 0 <= v < 128 ^ Z.of_nat fuel ->
  shape (put_loop fuel v) /\ val (put_loop fuel v) = v /\ canonical (put_loop fuel v) /\ (length (put_loop fuel v) <= fuel)%nat.
Proof.
  revert v. induction fuel as [|fuel IH]; intros v Hf Hv; [lia|]. cbn [put_loop]. destruct (Z.ltb_spec v 128) as [Hlt|Hge].
  { split_and!; [constructor; lia|cbn; rewrite Z.mod_small; lia|intros ?; cbn in *; lia|cbn; lia]. }
  rewrite Nat2Z.inj_succ, Z.pow_succ_r in Hv by lia. rewrite Z.shiftr_div_pow2 by lia. change (2 ^ 7) with 128.
  assert (fuel <> 0%nat) by (intros ->; cbn in Hv; lia).
  destruct (IH (v / 128)) as (Hs & Hval & Hc & Hl); [lia|split; [apply Z.div_pos; lia|apply Z.div_lt_upper_bound; lia]|].
  rewrite more_byte. pose proof (Z.mod_pos_bound v 128). assert (1 <= v / 128) by (apply Z.div_le_lower_bound; lia).
  split_and!.
  - constructor; [lia|done].
  - cbn [val]. rewrite Hval. replace (v mod 128 + 128) with (v mod 128 + 1 * 128) by lia. rewrite Z.mod_add, Z.mod_mod by lia. pose proof (Z.div_mod v 128). lia.
  - intros _. destruct (put_loop fuel (v / 128)) as [|c l] eqn:Hp; [inversion Hs|]. change (last (c :: l) <> Some 0). intros Hz.
    destruct (Nat.eq_dec (length l) 0%nat) as [->%nil_length_inv|Hne].
    + injection Hz as ->. change (0 = v / 128) in Hval. lia.
    + apply (Hc ltac:(cbn; lia)). done.
  - cbn. lia.
Qed.

Lemma lor_shift x b k : 0 <= k -> 0 <= x < 2 ^ k -> 0 <= b -> Z.lor x (Z.shiftl b k) = x + b * 2 ^ k.
Proof.
  intros Hk Hx Hb. rewrite <- Z.shiftl_mul_pow2 by done. assert (Z.land x (Z.shiftl b k) = 0) as Hz; [|pose proof (Z.add_lor_land x (Z.shiftl b k)); lia].
  apply Z.bits_inj'. intros i Hi. rewrite Z.bits_0, Z.land_spec. destruct (Z.lt_ge_cases i k); [by rewrite Z.shiftl_spec_low, andb_false_r|].
  destruct (Z.eq_dec x 0) as [->|]; [by rewrite Z.bits_0|]. rewrite (Z.bits_above_log2 x i); [done|lia|]. apply Z.log2_lt_pow2; [lia|].
  apply (Z.lt_le_trans _ (2 ^ k)); [lia|]. by apply Z.pow_le_mono_r.
Qed.
Lemma pow128 i : 128 ^ Z.of_nat i = 2 ^ (7 * Z.of_nat i).
Proof. by rewrite Z.pow_mul_r by lia. Qed.
Lemma group x b i : 0 <= x < 128 ^ Z.of_nat i -> 0 <= b -> b * 128 ^ Z.of_nat i < 2 ^ 64 ->
  Z.lor x (wrap64 (Z.shiftl b (7 * Z.of_nat i))) = x + b * 128 ^ Z.of_nat i.
Proof.
  intros Hx Hb Hlt. rewrite pow128 in *. rewrite wrap_small; [by apply lor_shift; lia|]. unfold is_uint. rewrite Z.shiftl_mul_pow2 by lia. lia.
Qed.
Definition fits (i : nat) (p : list Z) : Prop := (i + length p <= 10)%nat /\ ((i + length p = 10)%nat -> forall b, last p = Some b -> b <= 1).
Lemma small_group b i : (i <= 8)%nat -> 0 <= b < 128 -> b * 128 ^ Z.of_nat i < 2 ^ 64.
Proof.
  intros Hi Hb. assert (128 ^ Z.of_nat i <= 128 ^ 8) by (apply Z.pow_le_mono_r; lia). change (128 ^ 8) with (2 ^ 56) in *. change (2 ^ 64) with (256 * 2 ^ 56). nia.
Qed.
Lemma get_loop_spec p rest i x : shape p -> fits i p -> 0 <= x < 128 ^ Z.of_nat i ->
  get_loop (p ++ rest) i x = (x + 128 ^ Z.of_nat i * val p, Z.of_nat (i + length p)).
Proof.
  intros Hp. revert i x. induction Hp as [b Hb|b l Hb Hl IH]; intros i x [Hlen Hlast] Hx; cbn [app get_loop length] in *; (destruct (Nat.eqb_spec i 10); [lia|]).
  - destruct (Z.ltb_spec b 128); [|lia]. cbn [val]. rewrite (Z.mod_small b) by lia. assert ((i =? 9)%nat && (1 <? b) = false) as ->.
    { destruct (Nat.eqb_spec i 9); [|done]. cbn. apply Z.ltb_ge. apply Hlast; [lia|done]. }
    rewrite group; [f_equal; lia|done|lia|]. destruct (Nat.eq_dec i 9%nat) as [->|]; [|apply small_group; lia]. specialize (Hlast eq_refl b eq_refl). change (128 ^ Z.of_nat 9) with (2 ^ 63). change (2 ^ 64) with (2 * 2 ^ 63). nia.
  - destruct (Z.ltb_spec b 128); [lia|]. pose proof (shape_length _ Hl). change 127 with (Z.ones 7). rewrite Z.land_ones by lia. change (2 ^ 7) with 128.
    pose proof (Z.mod_pos_bound b 128 ltac:(lia)). rewrite group by (done || apply small_group || lia; lia).
    rewrite IH; [|split; [lia|intros ?; destruct Hl; apply Hlast; lia]|rewrite Nat2Z.inj_succ, Z.pow_succ_r by lia; nia].
    cbn [val]. rewrite (Nat2Z.inj_succ i), Z.pow_succ_r by lia. f_equal; lia.
Qed.
Lemma get_loop_shape buf i x : Forall is_byte buf -> (i <= 10)%nat -> 0 < (get_loop buf i x).2 -> exists p rest, buf = p ++ rest /\ shape p /\ fits i p.
Proof.
  intros Hb. revert i x. induction Hb as [|b buf Hb _ IH]; intros i x Hi; cbn [get_loop]; [done|].
  destruct (Nat.eqb_spec i 10) as [|Hne]; [cbn; lia|]. destruct (Z.ltb_spec b 128) as [Hlt|Hge].
  - destruct ((i =? 9)%nat && (1 <? b)) eqn:H9; [cbn; lia|]. intros _. exists [b], buf. split; [done|]. split; [constructor; unfold is_byte in Hb; lia|].
    split; [cbn; lia|]. intros Hi9 c [= <-]. cbn in Hi9. replace i with 9%nat in H9 by lia. by apply Z.ltb_ge in H9.
  - intros Hn. destruct (IH (S i) _ ltac:(lia) Hn) as (p & rest & -> & Hp & Hl & Hlast). exists (b :: p), rest. split; [done|].
    split; [constructor; [unfold is_byte in Hb; lia|done]|]. split; [cbn; lia|]. cbn [length]. intros ? c Hc. apply Hlast; [lia|]. by destruct Hp.
Qed.

(** A writer and its reader. *)
Lemma put_fits v : is_u64 v -> shape (put_loop 10 v) /\ val (put_loop 10 v) = v /\ canonical (put_loop 10 v) /\ fits 0 (put_loop 10 v).
Proof.
  intros Hv. destruct (put_loop_spec 10 v) as (Hs & Hval & Hc & Hl); [lia|unfold is_uint in Hv; change (128 ^ Z.of_nat 10) with (64 * 2 ^ 64); lia|].
  split_and!; [done..|]. split; [lia|]. intros Hlen b Hb. pose proof (val_last _ _ Hs Hb) as Hvl. rewrite Nat.add_0_l in Hlen. rewrite Hlen, Hval in Hvl.
  change (128 ^ Z.of_nat (10 - 1)) with (2 ^ 63) in Hvl. unfold is_uint in Hv. change (2 ^ 64) with (2 * 2 ^ 63) in Hv. nia.
Qed.
Lemma fits_u64 p : shape p -> fits 0 p -> is_u64 (val p).
Proof.
  intros Hp [Hl Hlast]. pose proof (val_bound p Hp) as [? Hb]. split; [done|]. cbn in *. destruct (Nat.eq_dec (length p) 10%nat) as [Heq|Hne].
  - clear Hb. assert (forall i p, shape p -> (length p = S i) -> (forall b, last p = Some b -> b <= 1) -> val p < 2 * 128 ^ Z.of_nat i) as Hgen.
    { clear. intros i p Hp. revert i. induction Hp as [b Hb|b l Hb Hl IH]; intros i Hlen Hlast.
      - cbn in Hlen. replace i with 0%nat by lia. cbn. rewrite Z.mod_small by lia. specialize (Hlast b eq_refl). lia.
      - pose proof (shape_length _ Hl). destruct i as [|i]; [cbn in Hlen; lia|]. cbn [val]. rewrite Nat2Z.inj_succ, Z.pow_succ_r by lia.
        assert (val l < 2 * 128 ^ Z.of_nat i) by (apply IH; [cbn in Hlen; lia|]; intros c Hc; apply Hlast; by destruct Hl). pose proof (Z.mod_pos_bound b 128). lia. }
    specialize (Hgen 9%nat p Hp Heq (Hlast Heq)). change (2 * 128 ^ Z.of_nat 9) with (2 ^ 64) in Hgen. lia.
  - assert (128 ^ Z.of_nat (length p) <= 128 ^ 9) by (apply Z.pow_le_mono_r; lia). change (128 ^ 9) with (2 ^ 63) in *. change (2 ^ 64) with (2 * 2 ^ 63). lia.
Qed.
Lemma Uvarint_put v rest : is_u64 v -> Uvarint (put_loop 10 v ++ rest) = (v, Z.of_nat (length (put_loop 10 v))).
Proof.
  intros Hv. destruct (put_fits v Hv) as (Hs & Hval & _ & Hf). unfold Uvarint. rewrite get_loop_spec by (done || cbn; lia). rewrite Hval, Nat.add_0_l. f_equal. lia.
Qed.
End Varint.

(** ** Nodes *)
Module MerkleNode.
Import Sorting Database MerkleKey.
Abbreviation is_byte := BigEndian.is_byte.

Definition ID := bytes.
Definition IDLen : nat := 32.
Definition Empty : ID := replicate 32 0.
Definition is_id (id : ID) : Prop := length id = IDLen /\ Forall is_byte id.
Definition HashLength : nat := 32.

Record child := mkChild { compressedKey : Key; c_id : ID; c_hasValue : bool }.
Record dbNode := mkDbNode { value : option bytes; children : gmap Z child }.
Record node := mkNode { n_db : dbNode; n_key : Key; valueDigest : option bytes }.
#[export] Instance child_eq_dec : EqDecision child.
Proof. solve_decision. Defined.
#[export] Instance dbNode_eq_dec : EqDecision dbNode.
Proof. solve_decision. Defined.
#[export] Instance node_eq_dec : EqDecision node.
Proof. solve_decision. Defined.

Class Hasher := { HashNode : node -> ID; HashValue : bytes -> ID }.

Definition n_value (n : node) : option bytes := value (n_db n).
Definition n_children (n : node) : gmap Z child := children (n_db n).
Definition newNode (key : Key) : node := mkNode (mkDbNode None ∅) key None.
Definition n_hasValue (n : node) : bool := bool_decide (is_Some (n_value n)).
Definition digest `{Hasher} (v : option bytes) : option bytes :=
  match v with
  | None => None
  | Some v => if (length v <? HashLength)%nat then Some v else Some (HashValue v)
  end.
Definition setValueDigest `{Hasher} (n : node) : node := mkNode (n_db n) (n_key n) (digest (n_value n)).
Definition setValue `{Hasher} (val : option bytes) (n : node) : node :=
  setValueDigest (mkNode (mkDbNode val (n_children n)) (n_key n) (valueDigest n)).
Definition set_children (m : gmap Z child) (n : node) : node := mkNode (mkDbNode (n_value n) m) (n_key n) (valueDigest n).
Definition setChildEntry (index : Z) (childEntry : child) (n : node) : node := set_children (<[index := childEntry]> (n_children n)) n.
Definition addChildWithID (childNode : node) (tokenSize : nat) (childID : ID) (n : node) : R node :=
  index ← Token (n_key childNode) (k_length (n_key n)) tokenSize;
  compressed ← Skip (n_key childNode) (k_length (n_key n) + tokenSize);
  Ok (setChildEntry index (mkChild compressed childID (n_hasValue childNode)) n).
Definition addChild (childNode : node) (tokenSize : nat) (n : node) : R node := addChildWithID childNode tokenSize Empty n.
Definition removeChild (c : node) (tokenSize : nat) (n : node) : R node :=
  index ← Token (n_key c) (k_length (n_key n)) tokenSize;
  Ok (set_children (delete index (n_children n)) n).
(** [clone]: a new node with new entries for the children; nodes are values here. *)
Definition clone (n : node) : node := mkNode (mkDbNode (n_value n) (n_children n)) (n_key n) (valueDigest n).
End MerkleNode.

(** ** Encodings *)
Module MerkleCodec.
Import Sorting Database Varint MerkleKey MerkleNode.

Definition MaxInt : Z := 9223372036854775807.
Definition BranchFactorLargest : Z := 256.

(** [bits.Len64] *)
Definition Len64 (v : Z) : Z := if v =? 0 then 0 else Z.log2 v + 1.
Definition uintSize (value : Z) : Z := if value =? 0 then 1 else (Len64 value + 6) / 7.
Definition keySize (p : Key) : Z := uintSize (Z.of_nat (k_length p)) + Z.of_nat (bytesNeeded (k_length p)).
Definition childSize (index : Z) (childEntry : child) : Z :=
  uintSize index + Z.of_nat IDLen + keySize (compressedKey childEntry) + 1.

(** *** Writers *)
Definition w_Bool (v : bool) (w : bytes) : bytes := w ++ [if v then 1 else 0].
Definition w_Uvarint (v : Z) (w : bytes) : bytes := AppendUvarint w v.
Definition w_ID (v : ID) (w : bytes) : bytes := w ++ v.
Definition w_Bytes (v w : bytes) : bytes := w_Uvarint (Z.of_nat (length v)) w ++ v.
Definition w_MaybeBytes (v : option bytes) (w : bytes) : bytes :=
  let w := w_Bool (bool_decide (is_Some v)) w in
  match v with Some v => w_Bytes v w | None => w end.
Definition w_Key (v : Key) (w : bytes) : bytes := w_Uvarint (Z.of_nat (k_length v)) w ++ k_value v.

Section encode.
Context {ko : KeyOrder Z}.
(** [slices.Sort] of the keys of a map. *)
Definition sorted_keys {A} (m : gmap Z A) : list Z := merge_sort Z.le (keys (dom m)).
Definition encodedDBNodeSize (n : dbNode) : Z :=
  let size := uintSize (Z.of_nat (base.size (children n))) + 1 in
  let size := match value n with
              | Some v => size + (uintSize (Z.of_nat (length v)) + Z.of_nat (length v))
              | None => size
              end in
  foldl (fun size e => size + childSize e.1 e.2) size (entries (children n)).
Definition encode_child (n : dbNode) (w : bytes) (index : Z) : bytes :=
  match children n !! index with
  | Some entry => w_Bool (c_hasValue entry) (w_ID (c_id entry) (w_Key (compressedKey entry) (w_Uvarint index w)))
  | None => w
  end.
Definition encodeDBNode (n : dbNode) : bytes :=
  let w := w_MaybeBytes (value n) [] in
  let numChildren := base.size (children n) in
  let w := w_Uvarint (Z.of_nat numChildren) w in
  if (numChildren =? 0)%nat then w
  else foldl (encode_child n) w (sorted_keys (children n)).
Definition n_bytes (n : node) : bytes := encodeDBNode (n_db n).

(** What [sha256Hasher.HashNode] hashes, one write after the other. *)
Definition hash_child (n : node) (w : bytes) (index : Z) : bytes :=
  match n_children n !! index with
  | Some entry => w_ID (c_id entry) (w_Uvarint index w)
  | None => w
  end.
Definition hash_input (n : node) : bytes :=
  let numChildren := base.size (n_children n) in
  let w := w_Uvarint (Z.of_nat numChildren) [] in
  let w := if (numChildren =? 0)%nat then w else foldl (hash_child n) w (sorted_keys (n_children n)) in
  let w := match valueDigest n with
           | Some value => w_Uvarint (Z.of_nat (length value)) (w ++ [1]) ++ value
           | None => w ++ [0]
           end in
  w_Uvarint (Z.of_nat (k_length (n_key n))) w ++ k_value (n_key n).
Definition sha256Hasher (sha256 : bytes -> ID) : Hasher := {|
  HashNode n := sha256 (hash_input n);
  HashValue value := sha256 value;
|}.
End encode.
Definition encodeKey (key : Key) : bytes := w_Key key [].

(** *** Readers *)
Abbreviation Reader := (M bytes MerkleErr).
Definition r_Bool : Reader bool :=
  r ← get;
  if (length r <? 1)%nat then fail ErrUnexpectedEOF
  else
    boolByte ← lift (index r 0);
    if 1 <? boolByte then fail errInvalidBool
    else _ ← modify (drop 1); mret (boolByte =? 1).
Definition r_Uvarint : Reader Z :=
  r ← get;
  let '(length, bytesRead) := Uvarint r in
  if bytesRead <=? 0 then fail ErrUnexpectedEOF
  else
    last ← lift (index r (Z.to_nat bytesRead - 1));
    if (1 <? bytesRead) && (last =? 0) then fail errLeadingZeroes
    else _ ← modify (drop (Z.to_nat bytesRead)); mret length.
Definition r_ID : Reader ID :=
  r ← get;
  if (length r <? IDLen)%nat then fail ErrUnexpectedEOF
  else _ ← modify (drop IDLen); mret (take IDLen r).
Definition r_Bytes : Reader bytes :=
  len ← r_Uvarint;
  r ← get;
  if Z.of_nat (length r) <? len then fail ErrUnexpectedEOF
  else _ ← modify (drop (Z.to_nat len)); mret (take (Z.to_nat len) r).
Definition r_MaybeBytes : Reader (option bytes) :=
  hasValue ← r_Bool;
  if negb hasValue then mret None else bytes ← r_Bytes; mret (Some bytes).
Definition r_Key : Reader Key :=
  bitLen ← r_Uvarint;
  if MaxInt <? bitLen then fail errIntOverflow
  else
    let length := Z.to_nat bitLen in
    let byteLen := bytesNeeded length in
    r ← get;
    if (List.length r <? byteLen)%nat then fail ErrUnexpectedEOF
    else
      _ ← (if (0 <? length mod 8)%nat then
             let paddingMask := shr8 255 (length mod 8) in
             last ← lift (index r (byteLen - 1));
             if negb (Z.land last paddingMask =? 0) then fail errNonZeroKeyPadding else mret tt
           else mret tt);
      _ ← modify (drop byteLen);
      mret (mkKey length (take byteLen r)).

Definition decode_child (acc : gmap Z child * Z) (i : Z) : Reader (gmap Z child * Z) :=
  let '(m, previousChild) := acc in
  index ← r_Uvarint;
  if (negb (i =? 0) && (index <=? previousChild)) || (255 <? index) then fail errChildIndexTooLarge
  else
    compressed ← r_Key;
    childID ← r_ID;
    hasValue ← r_Bool;
    mret (<[wrap 8 index := mkChild compressed childID hasValue]> m, index).
Definition read_node : Reader dbNode :=
  v ← r_MaybeBytes;
  numChildren ← r_Uvarint;
  if BranchFactorLargest <? numChildren then fail errTooManyChildren
  else
    r ← foldM decode_child (seqZ 0 numChildren) (∅, 0);
    rest ← get;
    if negb (length rest =? 0)%nat then fail errExtraSpace else mret (mkDbNode v r.1).
Definition decodeDBNode (b : bytes) : R dbNode := (read_node b).2.
Definition read_key : Reader Key :=
  key ← r_Key;
  rest ← get;
  if negb (length rest =? 0)%nat then fail errExtraSpace else mret key.
Definition decodeKey (b : bytes) : R Key := (read_key b).2.
Definition parseNode `{Hasher} (key : Key) (nodeBytes : bytes) : R node :=
  n ← decodeDBNode nodeBytes;
  Ok (setValueDigest (mkNode n key None)).

(** ** A decoder reads exactly what its encoder writes *)
Lemma M_bind_ok {St E A B} (m : M St E A) (k : A -> M St E B) s s' b :
  (m ≫= k) s = (s', Ok b) <-> exists a s1, m s = (s1, Ok a) /\ k a s1 = (s', Ok b).
Proof. unfold mbind, M_bind. destruct (m s) as [s1 [a|e]]; naive_solver. Qed.

Record codes {A} (P : A -> Prop) (enc : A -> bytes) (dec : Reader A) : Prop := {
  codes_bytes a : P a -> Forall is_byte (enc a);
  codes_iff l a l' : Forall is_byte l -> dec l = (l', Ok a) <-> P a /\ l = enc a ++ l';
}.
Lemma codes_enc {A} (P : A -> Prop) enc dec a l : @codes A P enc dec -> P a -> Forall is_byte l -> dec (enc a ++ l) = (l, Ok a).
Proof. intros [Hb Hc] Ha Hl. apply Hc; [|done]. apply Forall_app. auto. Qed.
Lemma codes_dec {A} (P : A -> Prop) enc dec l a l' : @codes A P enc dec -> Forall is_byte l -> dec l = (l', Ok a) -> P a /\ l = enc a ++ l' /\ Forall is_byte l'.
Proof. intros [Hb Hc] Hl Hd. apply Hc in Hd as [Ha ->]; [|done]. apply Forall_app in Hl as [_ ?]. done. Qed.
(** An encoding is not the beginning of another. *)
Lemma codes_inj {A} (P : A -> Prop) enc dec a a' l l' : @codes A P enc dec -> P a -> P a' -> Forall is_byte l -> Forall is_byte l' ->
  enc a ++ l = enc a' ++ l' -> a = a' /\ l = l'.
Proof.
  intros Hc Ha Ha' Hl Hl' Heq. pose proof (codes_enc _ _ _ a l Hc Ha Hl) as H1. rewrite Heq, (codes_enc _ _ _ a' l' Hc) in H1 by done. by injection H1.
Qed.

Definition e_Uvarint (v : Z) : bytes := put_loop 10 v.
Definition e_Bool (v : bool) : bytes := [if v then 1 else 0].
Definition e_Bytes (v : bytes) : bytes := e_Uvarint (Z.of_nat (length v)) ++ v.
Definition e_Maybe (v : option bytes) : bytes := e_Bool (bool_decide (is_Some v)) ++ match v with Some v => e_Bytes v | None => [] end.
Definition e_Key (k : Key) : bytes := e_Uvarint (Z.of_nat (k_length k)) ++ k_value k.

Definition P_bytes (v : bytes) : Prop := Forall is_byte v /\ is_u64 (Z.of_nat (length v)).
Definition P_maybe (v : option bytes) : Prop := forall b, v = Some b -> P_bytes b.
Definition P_key (k : Key) : Prop := valid k /\ Z.of_nat (k_length k) <= MaxInt.

Lemma c_Uvarint : codes is_u64 e_Uvarint r_Uvarint.
Proof.
  split; [intros v Hv; apply shape_bytes, put_fits, Hv|]. intros l v l' Hl. unfold r_Uvarint. rewrite M_bind_ok. split.
  - intros (r & l1 & [= <- <-] & Hd). destruct (Uvarint l) as [y n] eqn:HU. destruct (Z.leb_spec n 0) as [|Hn]; [done|].
    destruct (get_loop_shape l 0 0 Hl ltac:(lia)) as (p & rest & -> & Hp & Hf); [unfold Uvarint in HU; by rewrite HU|].
    unfold Uvarint in HU. rewrite get_loop_spec in HU by (done || cbn; lia). injection HU as Hy Hlp. rewrite Z.mul_1_l, Z.add_0_l in Hy. change (Z.of_nat (length p) = n) in Hlp. subst y n. rewrite Nat2Z.id in Hd.
    pose proof (shape_length _ Hp). apply M_bind_ok in Hd as (c & l1 & Hlast & Hd). unfold lift in Hlast. injection Hlast as <- Hlast.
    destruct (last p) as [b|] eqn:Hlp; [|apply last_None in Hlp as ->; inversion Hp]. rewrite last_lookup in Hlp.
    rewrite (index_Some (p ++ rest) (length p - 1) b) in Hlast by (rewrite lookup_app_l by lia; by replace (length p - 1)%nat with (pred (length p)) by lia). injection Hlast as <-.
    destruct ((1 <? Z.of_nat (length p)) && (b =? 0)) eqn:Hz; [done|]. apply M_bind_ok in Hd as ([] & l1 & [= <-] & [= <- <-]).
    rewrite drop_app_length. assert (is_u64 (val p)) as Hu by by apply fits_u64. split; [done|]. f_equal. destruct (put_fits (val p) Hu) as (Hs & Hv & Hc & _).
    apply canonical_inj; [done|done| |done|done]. intros Hlen. rewrite last_lookup, Hlp. intros [= ->]. apply andb_false_iff in Hz as [Hz|Hz]; [apply Z.ltb_ge in Hz; lia|done].
  - intros [Hv ->]. destruct (put_fits v Hv) as (Hs & _ & Hc & _). pose proof (shape_length _ Hs). exists (e_Uvarint v ++ l'), (e_Uvarint v ++ l'). split; [done|]. unfold e_Uvarint.
    rewrite Uvarint_put by done. destruct (Z.leb_spec (Z.of_nat (length (put_loop 10 v))) 0); [lia|]. rewrite Nat2Z.id. apply M_bind_ok.
    destruct (last (put_loop 10 v)) as [b|] eqn:Hlp; [|apply last_None in Hlp; rewrite Hlp in Hs; inversion Hs]. pose proof Hlp as Hlk. rewrite last_lookup in Hlk.
    exists b, (put_loop 10 v ++ l'). unfold lift. rewrite (index_Some (put_loop 10 v ++ l') (length (put_loop 10 v) - 1) b) by (rewrite lookup_app_l by lia; by replace (length (put_loop 10 v) - 1)%nat with (pred (length (put_loop 10 v))) by lia). split; [done|].
    destruct ((1 <? Z.of_nat (length (put_loop 10 v))) && (b =? 0)) eqn:Hz; [|apply M_bind_ok; exists tt, l'; split; [unfold modify; by rewrite drop_app_length|done]].
    apply andb_true_iff in Hz as [Hz ->%Z.eqb_eq]. apply Z.ltb_lt in Hz. exfalso. apply Hc; [lia|done].
Qed.
Lemma c_Bool : codes (fun _ => True) e_Bool r_Bool.
Proof.
  split; [intros [] _; repeat constructor; lia|]. intros l v l' Hl. unfold r_Bool. rewrite M_bind_ok. split.
  - intros (r & l1 & [= <- <-] & Hd). destruct l as [|b l]; [done|]. cbn in Hd. apply M_bind_ok in Hd as (c & l1 & [= <- <-] & Hd). destruct (Z.ltb_spec 1 b); [done|].
    apply M_bind_ok in Hd as ([] & l1 & [= <-] & [= <- <-]). apply Forall_cons in Hl as [[? ?] _]. split; [done|]. cbn. f_equal. destruct (Z.eqb_spec b 1); lia.
  - intros [_ ->]. do 2 eexists. split; [done|]. destruct v; done.
Qed.
Lemma c_ID : codes is_id id r_ID.
Proof.
  split; [by intros v [_ ?]|]. intros l v l' Hl. unfold r_ID. rewrite M_bind_ok. split.
  - intros (r & l1 & [= <- <-] & Hd). destruct (Nat.ltb_spec (length l) IDLen) as [|Hge]; [done|]. apply M_bind_ok in Hd as ([] & l1 & [= <-] & [= <- <-]).
    split; [split; [rewrite length_take; lia|by apply Forall_take]|]. symmetry. apply take_drop.
  - intros [[Hlen Hv] ->]. unfold id. do 2 eexists. split; [done|]. rewrite length_app, Hlen. destruct (Nat.ltb_spec (IDLen + length l') IDLen); [lia|]. apply M_bind_ok. exists tt, l'. unfold modify. rewrite <- Hlen, drop_app_length, take_app_length. done.
Qed.
Lemma c_Bytes : codes P_bytes e_Bytes r_Bytes.
Proof.
  split; [intros v [Hv Hl]; apply Forall_app; split; [by apply (codes_bytes _ _ _ c_Uvarint)|done]|]. intros l v l' Hl. unfold r_Bytes. rewrite M_bind_ok. split.
  - intros (len & l1 & Hlen & Hd). destruct (codes_dec _ _ _ _ _ _ c_Uvarint Hl Hlen) as (Hu & -> & Hl1). apply M_bind_ok in Hd as (r & l2 & [= <- <-] & Hd).
    destruct (Z.ltb_spec (Z.of_nat (length l1)) len) as [|Hge]; [done|]. apply M_bind_ok in Hd as ([] & l2 & [= <-] & [= <- <-]).
    assert (length (take (Z.to_nat len) l1) = Z.to_nat len) as Hlt by (rewrite length_take; unfold is_uint in Hu; lia). unfold P_bytes, e_Bytes. rewrite Hlt, Z2Nat.id by apply Hu.
    split; [split; [by apply Forall_take|done]|]. by rewrite <- app_assoc, take_drop.
  - intros [[Hv Hu] ->]. unfold e_Bytes. rewrite <- app_assoc. do 2 eexists. split; [apply (codes_enc _ _ _ _ _ c_Uvarint); [done|apply Forall_app in Hl as [_ ?]; by apply Forall_app]|].
    apply M_bind_ok. do 2 eexists. split; [done|]. rewrite length_app. destruct (Z.ltb_spec (Z.of_nat (length v + length l')) (Z.of_nat (length v))); [lia|]. rewrite Nat2Z.id.
    apply M_bind_ok. exists tt, l'. unfold modify. rewrite drop_app_length, take_app_length. done.
Qed.
Lemma c_Maybe : codes P_maybe e_Maybe r_MaybeBytes.
Proof.
  split.
  { intros v Hv. apply Forall_app. split; [by apply (codes_bytes _ _ _ c_Bool)|]. destruct v; [|constructor]. by apply (codes_bytes _ _ _ c_Bytes), Hv. }
  intros l v l' Hl. unfold r_MaybeBytes. rewrite M_bind_ok. split.
  - intros (b & l1 & Hb & Hd). destruct (codes_dec _ _ _ _ _ _ c_Bool Hl Hb) as (_ & -> & Hl1). destruct b; cbn [negb] in Hd.
    + apply M_bind_ok in Hd as (v' & l2 & Hv & [= <- <-]). destruct (codes_dec _ _ _ _ _ _ c_Bytes Hl1 Hv) as (Hp & -> & _). split; [by intros ? [= <-]|]. unfold e_Maybe. by rewrite bool_decide_true, <- app_assoc by done.
    + injection Hd as <- <-. split; [done|done].
  - intros [Hv ->]. unfold e_Maybe in *. rewrite <- app_assoc in *. exists (bool_decide (is_Some v)). eexists. apply Forall_app in Hl as [_ Hl]. split; [by apply (codes_enc _ _ _ _ _ c_Bool)|].
    destruct v as [v|]; cbn; [|done]. apply M_bind_ok. do 2 eexists. split; [|done]. apply (codes_enc _ _ _ _ _ c_Bytes); [by apply Hv|]. by apply Forall_app in Hl as [_ ?].
Qed.

(** *** Keys *)
Lemma byte_padding b r : is_byte b -> (r < 8)%nat -> Z.land b (shr8 255 r) = 0 <-> drop r (byte_bits b) = replicate (8 - r) false.
Proof.
  intros Hb Hr. apply (byte_nat_prop 8 (fun b r => Z.land b (shr8 255 r) = 0 <-> drop r (byte_bits b) = replicate (8 - r) false)); [vm_compute; reflexivity|done|done].
Qed.
Lemma valid_padding n v : Forall is_byte v -> length v = bytesNeeded n ->
  valid (mkKey n v) <-> ((n mod 8 <> 0)%nat -> exists b, v !! (length v - 1)%nat = Some b /\ Z.land b (shr8 255 (n mod 8)) = 0).
Proof.
  intros Hv Hl. assert (valid (mkKey n v) <-> drop n (all_bits v) = replicate (8 * length v - n) false) as ->.
  { split.
    - intros [_ _ Hp]. unfold bits in Hp. cbn [k_length k_value] in Hp. rewrite <- (take_drop n (all_bits v)) in Hp at 1. by apply app_inv_head in Hp.
    - intros Hd. split; [done|done|]. unfold bits. cbn [k_length k_value]. by rewrite <- Hd, take_drop. }
  pose proof (Nat.div_mod_eq n 8) as Hn. pose proof (Nat.mod_upper_bound n 8 ltac:(lia)). destruct (Nat.eq_dec (n mod 8)%nat 0%nat) as [Hz|Hz].
  - rewrite (bytesNeeded_exact _ Hz) in Hl. split; [done|]. intros _. rewrite drop_ge by (rewrite length_all_bits; lia). by replace (8 * length v - n)%nat with 0%nat by lia.
  - rewrite (bytesNeeded_partial _ Hz) in Hl. set (q := (n / 8)%nat) in *. set (r := (n mod 8)%nat) in *. replace (length v - 1)%nat with q by lia.
    destruct (lookup_lt_is_Some_2 v q) as [b Hb]; [lia|]. rewrite Hb. assert (is_byte b) as Hbb by by eapply (Forall_lookup_1 _ _ _ _ Hv).
    assert (drop n (all_bits v) = drop r (byte_bits b)) as ->.
    { rewrite Hn, <- drop_drop, drop_all_bits, (drop_S _ b) by done. rewrite (drop_ge v) by lia. by rewrite all_bits_cons, app_nil_r. }
    replace (8 * length v - n)%nat with (8 - r)%nat by lia. rewrite <- byte_padding by done. split; [eauto|]. intros Hx. by destruct (Hx Hz) as (? & [= <-] & ?).
Qed.
Lemma c_Key : codes P_key e_Key r_Key.
Proof.
  split.
  { intros k [[Hb _ _] Hl]. apply Forall_app. split; [|done]. apply (codes_bytes _ _ _ c_Uvarint). unfold MaxInt in Hl. unfold is_uint. lia. }
  intros l k l' Hl. unfold r_Key. rewrite M_bind_ok. split.
  - intros (n & l1 & Hn & Hd). destruct (codes_dec _ _ _ _ _ _ c_Uvarint Hl Hn) as (Hu & -> & Hl1). destruct (Z.ltb_spec MaxInt n) as [|Hmax]; [done|].
    apply M_bind_ok in Hd as (r & l2 & [= <- <-] & Hd). remember (Z.to_nat n) as len eqn:Hlen. assert (n = Z.of_nat len) as -> by (unfold is_uint in Hu; lia). clear Hlen.
    destruct (Nat.ltb_spec (length l1) (bytesNeeded len)) as [|Hge]; [done|]. apply M_bind_ok in Hd as ([] & l2 & Hpad & Hd). apply M_bind_ok in Hd as ([] & l3 & [= <-] & [= <- <-]).
    assert (length (take (bytesNeeded len) l1) = bytesNeeded len) as Hlt by (rewrite length_take; lia).
    assert (l2 = l1 /\ valid (mkKey len (take (bytesNeeded len) l1))) as [-> Hv].
    { rewrite valid_padding by (done || by apply Forall_take). destruct (Nat.ltb_spec 0 (len mod 8)); [|injection Hpad as ->; split; [done|lia]].
      apply M_bind_ok in Hpad as (b & l3 & Hlast & Hpad). unfold lift in Hlast. injection Hlast as <- Hlast. destruct (Z.eqb_spec (Z.land b (shr8 255 (len mod 8))) 0) as [Hz|]; [|done]. injection Hpad as <-. split; [done|].
      intros _. exists b. split; [|done]. rewrite Hlt. unfold index in Hlast. pose proof (bytesNeeded_spec len). pose proof (Nat.div_mod_eq len 8). rewrite lookup_take_lt by lia. destruct (l1 !! _); [by injection Hlast as ->|done]. }
    split; [split; [done|exact Hmax]|]. unfold e_Key. cbn [k_length k_value]. by rewrite <- app_assoc, take_drop.
  - intros [[Hv Hmax] ->]. unfold e_Key in *. rewrite <- app_assoc in *. apply Forall_app in Hl as [_ Hl]. destruct k as [n v]. cbn [k_length k_value] in *. assert (is_u64 (Z.of_nat n)) as Hu by (unfold MaxInt in Hmax; unfold is_uint; lia).
    do 2 eexists. split; [by apply (codes_enc _ _ _ _ _ c_Uvarint)|]. destruct (Z.ltb_spec MaxInt (Z.of_nat n)); [lia|]. rewrite Nat2Z.id. apply M_bind_ok. do 2 eexists. split; [done|].
    assert (length v = bytesNeeded n) as Hlen by apply Hv. rewrite length_app, <- Hlen. destruct (Nat.ltb_spec (length v + length l') (length v)); [lia|]. apply M_bind_ok. exists tt, (v ++ l').
    split; [|apply M_bind_ok; exists tt, l'; unfold modify; by rewrite drop_app_length, take_app_length].
    pose proof (proj1 (valid_padding n v (v_bytes _ Hv) Hlen) Hv) as Hpad. destruct (Nat.ltb_spec 0 (n mod 8)); [|done]. destruct (Hpad ltac:(lia)) as (b & Hb & Hz). apply M_bind_ok. exists b, (v ++ l').
    unfold lift. rewrite (index_Some (v ++ l') (length v - 1) b); [|rewrite lookup_app_l; [done|]; by apply lookup_lt_Some in Hb]. by rewrite Hz.
Qed.

(** *** The entries of the children, sorted *)
Section sorted.
Context {ko : KeyOrder Z} {A : Type}.
Implicit Types (m : gmap Z A) (es : list (Z * A)).
Definition before : Z * A -> Z * A -> Prop := fun a b => a.1 < b.1.
#[local] Instance before_trans : Transitive before.
Proof. intros ? ? ?. unfold before. lia. Qed.
Definition sorted_entries m : list (Z * A) := omap (fun k => pair k <$> m !! k) (sorted_keys m).
Definition lists m es : Prop := forall k a, (k, a) ∈ es <-> m !! k = Some a.

Lemma sorted_entries_lists m : lists m (sorted_entries m).
Proof.
  intros k a. unfold sorted_entries. rewrite list_elem_of_omap. split.
  - intros (k' & _ & Hk). destruct (m !! k') eqn:Hm; [|done]. by injection Hk as <- <-.
  - intros Hk. exists k. rewrite Hk. split; [|done]. unfold sorted_keys. rewrite merge_sort_Permutation, elem_of_keys. by apply elem_of_dom.
Qed.
Lemma sorted_keys_spec m : StronglySorted Z.lt (sorted_keys m).
Proof.
  assert (NoDup (sorted_keys m)) as Hn by (unfold sorted_keys; rewrite merge_sort_Permutation; apply keys_nodup).
  pose proof (StronglySorted_merge_sort Z.le (keys (dom m))) as Hs.
  change (merge_sort Z.le (keys (dom m))) with (sorted_keys m) in Hs. revert Hn. induction Hs as [|x l Hs IH Hx]; intros Hn; constructor.
  - apply IH. by apply NoDup_cons in Hn as [_ ?].
  - apply NoDup_cons in Hn as [Hn _]. rewrite Forall_forall in *. intros y Hy. specialize (Hx y Hy). assert (x <> y) by (by intros ->). lia.
Qed.
Lemma sorted_entries_sorted m : StronglySorted before (sorted_entries m).
Proof.
  unfold sorted_entries. pose proof (sorted_keys_spec m) as Hs. induction Hs as [|k l Hl IH Hk]; [constructor|]. cbn. destruct (m !! k) eqn:Hm; cbn; [|done].
  constructor; [done|]. rewrite Forall_forall in Hk. apply Forall_forall. intros [k' a'] Hin. apply list_elem_of_omap in Hin as (k2 & Hk2 & He). destruct (m !! k2); [|done]. injection He as <- <-. by apply (Hk k2).
Qed.
Lemma before_nodup es : StronglySorted before es -> NoDup es.
Proof. induction 1 as [|e es Hs IH He]; constructor; [|done]. intros Hin. rewrite Forall_forall in He. specialize (He e Hin). unfold before in He. lia. Qed.
Lemma sorted_entries_unique m es : StronglySorted before es -> lists m es -> es = sorted_entries m.
Proof.
  intros Hs Hl. apply (StronglySorted_unique_strong before); [unfold before; intros; lia|done|apply sorted_entries_sorted|].
  apply NoDup_Permutation; [by apply before_nodup|apply before_nodup, sorted_entries_sorted|]. intros [k a]. rewrite (Hl k a). symmetry. apply sorted_entries_lists.
Qed.
Lemma length_sorted_entries m : length (sorted_entries m) = base.size m.
Proof.
  rewrite <- length_map_to_list. apply Permutation_length, NoDup_Permutation; [apply before_nodup, sorted_entries_sorted|apply NoDup_map_to_list|].
  intros [k a]. rewrite elem_of_map_to_list. apply sorted_entries_lists.
Qed.
Definition insert_all m es : gmap Z A := foldl (fun m e => <[e.1 := e.2]> m) m es.
Lemma lookup_insert_all es m k a : StronglySorted before es -> insert_all m es !! k = Some a <-> (k, a) ∈ es \/ (k ∉ es.*1 /\ m !! k = Some a).
Proof.
  intros Hs. revert m. induction Hs as [|[k' a'] es Hs IH Hk]; intros m; cbn; [set_solver|]. rewrite IH, elem_of_cons, not_elem_of_cons. rewrite Forall_forall in Hk.
  destruct (decide (k' = k)) as [->|Hne].
  - rewrite lookup_insert_eq. assert (forall b, (k, b) ∉ es) as Hni by (intros b Hb; specialize (Hk _ Hb); unfold before in Hk; cbn in Hk; lia).
    assert (k ∉ es.*1) by (intros ([? ?] & -> & ?)%list_elem_of_fmap; by eapply Hni). split.
    + intros [?|[_ [= ->]]]; [by edestruct Hni|by left; left].
    + intros [[[= ->]|?]|[[? _] _]]; [by right|by edestruct Hni|done].
  - rewrite lookup_insert_ne by done. split.
    + intros [?|[? ?]]; [by left; right|]. right. split; [split; [congruence|done]|done].
    + intros [[[= -> _]|?]|[[_ ?] ?]]; [done|by left|by right].
Qed.
Lemma insert_all_entries es : StronglySorted before es -> lists (insert_all ∅ es) es.
Proof. intros Hs k a. rewrite lookup_insert_all by done. rewrite lookup_empty. naive_solver. Qed.
Lemma insert_all_sorted m : insert_all ∅ (sorted_entries m) = m.
Proof.
  apply map_eq. intros k. apply option_eq. intros a. rewrite <- (insert_all_entries _ (sorted_entries_sorted m) k a). apply sorted_entries_lists.
Qed.
Lemma foldl_sorted m (f : bytes -> Z -> bytes) (e : Z * A -> bytes) w :
  (forall w k a, m !! k = Some a -> f w k = w ++ e (k, a)) ->
  foldl f w (sorted_keys m) = w ++ (sorted_entries m ≫= e).
Proof.
  intros Hf. unfold sorted_entries. assert (forall k, k ∈ sorted_keys m -> is_Some (m !! k)) as Hk.
  { intros k Hk. unfold sorted_keys in Hk. rewrite merge_sort_Permutation, elem_of_keys in Hk. by apply elem_of_dom. }
  revert w Hk. induction (sorted_keys m) as [|k l IH]; intros w Hk; cbn; [by rewrite app_nil_r|]. destruct (Hk k) as [a Ha]; [by left|]. rewrite Ha. cbn.
  rewrite (Hf _ _ _ Ha), IH by (intros; apply Hk; by right). by rewrite app_assoc.
Qed.
End sorted.

(** *** Nodes *)
Section nodes.
Context {ko : KeyOrder Z}.
Definition wf_child (c : child) : Prop := P_key (compressedKey c) /\ is_id (c_id c).
(** A node of a trie whose numbers fit the types of the source. *)
Definition wf_db (n : dbNode) : Prop := P_maybe (value n) /\ map_Forall (fun i c => is_byte i /\ wf_child c) (children n).
Definition P_entry (e : Z * child) : Prop := is_byte e.1 /\ wf_child e.2.
Definition e_entry (e : Z * child) : bytes :=
  e_Uvarint e.1 ++ e_Key (compressedKey e.2) ++ c_id e.2 ++ e_Bool (c_hasValue e.2).
Definition follows (i prev : Z) (es : list (Z * child)) : Prop := i = 0 \/ Forall (fun e => prev < e.1) es.

Lemma byte_u64 i : is_byte i -> is_u64 i.
Proof. unfold is_byte, BigEndian.is_byte, is_uint. lia. Qed.
Lemma e_entry_bytes e : P_entry e -> Forall is_byte (e_entry e).
Proof.
  intros [Hi [Hk Hid]]. unfold e_entry. rewrite !Forall_app. split_and!; [by apply (codes_bytes _ _ _ c_Uvarint), byte_u64|by apply (codes_bytes _ _ _ c_Key)|apply Hid|by apply (codes_bytes _ _ _ c_Bool)].
Qed.
Lemma decode_child_iff m prev i l l1 acc : Forall is_byte l ->
  decode_child (m, prev) i l = (l1, Ok acc) <->
  exists e, P_entry e /\ (i = 0 \/ prev < e.1) /\ l = e_entry e ++ l1 /\ acc = (<[e.1 := e.2]> m, e.1).
Proof.
  intros Hl. unfold decode_child. rewrite M_bind_ok. split.
  - intros (k & l2 & Hk & Hd). destruct (codes_dec _ _ _ _ _ _ c_Uvarint Hl Hk) as (Hu & -> & Hl2).
    destruct ((negb (i =? 0) && (k <=? prev)) || (255 <? k)) eqn:Hg; [done|]. apply orb_false_iff in Hg as [Hg Hmax]. apply Z.ltb_ge in Hmax.
    apply M_bind_ok in Hd as (ck & l3 & Hck & Hd). destruct (codes_dec _ _ _ _ _ _ c_Key Hl2 Hck) as (HPk & -> & Hl3).
    apply M_bind_ok in Hd as (cid & l4 & Hid & Hd). destruct (codes_dec _ _ _ _ _ _ c_ID Hl3 Hid) as (HPid & -> & Hl4).
    apply M_bind_ok in Hd as (b & l5 & Hb & Hd). destruct (codes_dec _ _ _ _ _ _ c_Bool Hl4 Hb) as (_ & -> & Hl5).
    injection Hd as <- <-. exists (k, mkChild ck cid b). unfold P_entry, e_entry, wf_child. cbn [fst snd compressedKey c_id c_hasValue]. assert (is_byte k) as Hkb by (unfold is_byte, BigEndian.is_byte; unfold is_uint in Hu; lia).
    split_and!; try done; [| |rewrite wrap_small by (unfold is_uint, is_byte, BigEndian.is_byte in *; lia); done].
    + apply andb_false_iff in Hg as [Hg|Hg]; [left; apply negb_false_iff in Hg; lia|right; lia].
    + by rewrite <- !app_assoc.
  - intros ([k [ck cid b]] & [Hk [HPk HPid]] & Hprev & -> & ->). unfold e_entry in *. cbn [fst snd compressedKey c_id c_hasValue] in *. rewrite <- !app_assoc in *. rewrite !Forall_app in Hl. destruct Hl as (_ & H2 & H3 & H4 & H5).
    do 2 eexists. split; [apply (codes_enc _ _ _ _ _ c_Uvarint); [by apply byte_u64|by rewrite !Forall_app]|].
    assert ((negb (i =? 0) && (k <=? prev)) || (255 <? k) = false) as ->.
    { apply orb_false_iff. unfold is_byte, BigEndian.is_byte in Hk. split; [|lia]. destruct Hprev as [->|?]; [done|]. apply andb_false_iff. right. lia. }
    apply M_bind_ok. do 2 eexists. split; [apply (codes_enc _ _ _ _ _ c_Key); [done|by rewrite !Forall_app]|].
    apply M_bind_ok. do 2 eexists. split; [apply (codes_enc is_id id r_ID cid _ c_ID); [done|by rewrite !Forall_app]|].
    apply M_bind_ok. do 2 eexists. split; [by apply (codes_enc _ _ _ _ _ c_Bool)|]. rewrite wrap_small by (unfold is_uint, is_byte, BigEndian.is_byte in *; lia). done.
Qed.
Lemma decode_children_iff n i m prev l l' m' : 0 <= i -> Forall is_byte l ->
  (exists prev', foldM decode_child (seqZ i (Z.of_nat n)) (m, prev) l = (l', Ok (m', prev'))) <->
  exists es, length es = n /\ Forall P_entry es /\ StronglySorted before es /\ follows i prev es /\ l = (es ≫= e_entry) ++ l' /\ m' = insert_all m es.
Proof.
  revert i m prev l. induction n as [|n IH]; intros i m prev l Hi Hl.
  { cbn. split; [intros (p & [= -> -> ->]); exists []; split_and!; (done || by right || constructor)|]. intros ([|??] & ? & _ & _ & _ & -> & ->); [by eexists|done]. }
  rewrite seqZ_cons, Nat2Z.inj_succ, Z.pred_succ by lia. cbn [foldM]. split.
  - intros (prev' & Hd). apply M_bind_ok in Hd as (acc & l1 & Hc & Hd). apply decode_child_iff in Hc as (e & He & Hprev & -> & ->); [|done]. apply Forall_app in Hl as [_ Hl].
    destruct (proj1 (IH (Z.succ i) _ _ _ ltac:(lia) Hl) (ex_intro _ _ Hd)) as (es & Hlen & Hes & Hs & Hf & -> & ->). destruct Hf as [|Hf]; [lia|].
    exists (e :: es). split_and!; [cbn; lia|by constructor|constructor; [done|eapply Forall_impl; [exact Hf|done]]| |by rewrite bind_cons, <- app_assoc|done].
    destruct Hprev as [|Hp]; [by left|right]. constructor; [done|]. eapply Forall_impl; [exact Hf|]. cbn. lia.
  - intros ([|e es] & Hlen & Hes & Hs & Hf & -> & ->); [done|]. apply Forall_cons in Hes as [He Hes]. inversion Hs as [|? ? Hs' Hbe]; subst. rewrite bind_cons, <- app_assoc in *. pose proof Hl as Hl2. apply Forall_app in Hl2 as [_ Hl2].
    destruct (proj2 (IH (Z.succ i) (<[e.1 := e.2]> m) e.1 _ ltac:(lia) Hl2)) as [prev' Hd]; [exists es; split_and!; (done || by right || (cbn in Hlen; lia))|].
    exists prev'. apply M_bind_ok. do 2 eexists. split; [|exact Hd]. apply decode_child_iff; [done|]. exists e. split_and!; try done. destruct Hf as [|Hf]; [by left|right]. by apply Forall_cons in Hf as [? _].
Qed.

Definition e_node (n : dbNode) : bytes := e_Maybe (value n) ++ e_Uvarint (Z.of_nat (base.size (children n))) ++ (sorted_entries (children n) ≫= e_entry).
Lemma w_Maybe_enc v w : w_MaybeBytes v w = w ++ e_Maybe v.
Proof. unfold w_MaybeBytes, e_Maybe, w_Bool, w_Bytes, e_Bytes, w_Uvarint, AppendUvarint. destruct v; cbn; by rewrite <- ?app_assoc. Qed.
Lemma encode_enc n : encodeDBNode n = e_node n.
Proof.
  unfold encodeDBNode, e_node. rewrite w_Maybe_enc. cbn [app]. unfold w_Uvarint, AppendUvarint. destruct (Nat.eqb_spec (base.size (children n)) 0) as [Hz|].
  - pose proof (length_sorted_entries (children n)) as Hl. rewrite Hz in Hl. apply nil_length_inv in Hl. rewrite Hl. cbn. by rewrite app_nil_r.
  - rewrite (foldl_sorted _ _ e_entry); [by rewrite <- app_assoc|]. intros w k c Hc. unfold encode_child. rewrite Hc. unfold w_Bool, w_ID, w_Key, w_Uvarint, AppendUvarint, e_entry, e_Key, e_Uvarint, e_Bool. cbn [fst snd]. by rewrite <- !app_assoc.
Qed.
Lemma wf_entries n : wf_db n -> Forall P_entry (sorted_entries (children n)).
Proof. intros [_ Hc]. apply Forall_forall. intros [k c] Hin. apply sorted_entries_lists in Hin. exact (Hc _ _ Hin). Qed.
Lemma entries_size n : wf_db n -> (base.size (children n) <= 256)%nat.
Proof.
  intros [_ Hc]. rewrite <- size_dom. transitivity (base.size (list_to_set (seqZ 0 256) : gset Z)); [|by vm_compute].
  apply subseteq_size. intros k [c Hk]%elem_of_dom. apply elem_of_list_to_set, elem_of_seqZ. destruct (Hc _ _ Hk) as [Hb _]. unfold is_byte, BigEndian.is_byte in Hb. lia.
Qed.

(** Every node has one encoding, and a decoder accepts nothing else. *)
Lemma read_node_iff b n : Forall is_byte b -> decodeDBNode b = Ok n <-> wf_db n /\ encodeDBNode n = b.
Proof.
  intros Hb. unfold decodeDBNode. rewrite encode_enc. split.
  - intros Hd. destruct (read_node b) as [l' r] eqn:Hr. cbn in Hd. subst r. unfold read_node in Hr. apply M_bind_ok in Hr as (v & l1 & Hv & Hr). destruct (codes_dec _ _ _ _ _ _ c_Maybe Hb Hv) as (HPv & -> & Hl1).
    apply M_bind_ok in Hr as (k & l2 & Hk & Hr). destruct (codes_dec _ _ _ _ _ _ c_Uvarint Hl1 Hk) as (Hu & -> & Hl2). destruct (Z.ltb_spec BranchFactorLargest k) as [|Hmax]; [done|].
    apply M_bind_ok in Hr as ([m' prev'] & l3 & Hc & Hr). apply M_bind_ok in Hr as (rest & l4 & [= <- <-] & Hr). destruct (Nat.eqb_spec (length l3) 0) as [->%nil_length_inv|]; [|done]. injection Hr as <- <-. cbn [fst].
    remember (Z.to_nat k) as kn eqn:Hkn. assert (k = Z.of_nat kn) as -> by (unfold is_uint in Hu; lia). clear Hkn.
    destruct (proj1 (decode_children_iff kn 0 ∅ 0 l2 [] m' ltac:(lia) Hl2) (ex_intro _ _ Hc)) as (es & Hlen & Hes & Hs & _ & -> & ->).
    pose proof (sorted_entries_unique (insert_all ∅ es) es Hs (insert_all_entries es Hs)) as Heq. split.
    + split; [done|]. intros i c Hic. apply (insert_all_entries es Hs) in Hic. rewrite Forall_forall in Hes. exact (Hes _ Hic).
    + unfold e_node. cbn [value children]. rewrite <- length_sorted_entries, <- Heq, Hlen, app_nil_r. done.
  - intros [Hwf <-]. destruct (read_node (e_node n)) as [l' r] eqn:Hr. cbn. enough (read_node (e_node n) = ([], Ok n)) as Hx by (rewrite Hx in Hr; by injection Hr). clear Hr. unfold read_node, e_node in *.
    pose proof Hwf as [HPv _]. apply Forall_app in Hb as [_ Hb]. apply M_bind_ok. do 2 eexists. split; [by apply (codes_enc _ _ _ _ _ c_Maybe)|]. pose proof (entries_size n Hwf). apply Forall_app in Hb as [_ Hb].
    apply M_bind_ok. do 2 eexists. split; [apply (codes_enc _ _ _ _ _ c_Uvarint); [unfold is_uint; lia|done]|]. destruct (Z.ltb_spec BranchFactorLargest (Z.of_nat (base.size (children n)))); [unfold BranchFactorLargest in *; lia|].
    destruct (proj2 (decode_children_iff (base.size (children n)) 0 ∅ 0 (sorted_entries (children n) ≫= e_entry) [] (children n) ltac:(lia) Hb)) as [prev' Hd].
    { exists (sorted_entries (children n)). split_and!; [apply length_sorted_entries|by apply wf_entries|apply sorted_entries_sorted|by left|by rewrite app_nil_r|by rewrite insert_all_sorted]. }
    apply M_bind_ok. do 2 eexists. split; [exact Hd|]. apply M_bind_ok. do 2 eexists. split; [done|]. cbn. by destruct n.
Qed.
Lemma decodeKey_iff b k : Forall is_byte b -> decodeKey b = Ok k <-> P_key k /\ encodeKey k = b.
Proof.
  intros Hb. unfold decodeKey. change (encodeKey k) with (e_Key k). split.
  - intros Hd. destruct (read_key b) as [l' r] eqn:Hr. cbn in Hd. subst r. apply M_bind_ok in Hr as (k' & l1 & Hk & Hr). destruct (codes_dec _ _ _ _ _ _ c_Key Hb Hk) as (HPk & -> & Hl1).
    apply M_bind_ok in Hr as (rest & l4 & [= <- <-] & Hr). destruct (Nat.eqb_spec (length l1) 0) as [->%nil_length_inv|]; [|done]. injection Hr as <- <-. by rewrite app_nil_r.
  - intros [HPk <-]. enough (read_key (e_Key k) = ([], Ok k)) as -> by done. unfold read_key. apply M_bind_ok. exists k, []. split; [|done]. rewrite <- (app_nil_r (e_Key k)). by apply (codes_enc _ _ _ _ _ c_Key).
Qed.

(** *** Sizes *)
Lemma length_uvarint fuel v : 1 <= v < 128 ^ Z.of_nat fuel -> Z.of_nat (length (put_loop fuel v)) = Z.log2 v / 7 + 1.
Proof.
  revert v. induction fuel as [|fuel IH]; intros v Hv; [cbn in Hv; lia|]. cbn [put_loop]. destruct (Z.ltb_spec v 128) as [Hlt|Hge].
  - rewrite Z.div_small; [done|]. split; [apply Z.log2_nonneg|]. apply Z.log2_lt_pow2; lia.
  - rewrite Nat2Z.inj_succ, Z.pow_succ_r in Hv by lia. cbn [length]. rewrite Nat2Z.inj_succ, IH.
    + rewrite Z.log2_shiftr by lia. assert (7 <= Z.log2 v) by (change 7 with (Z.log2 128); by apply Z.log2_le_mono). rewrite Z.max_r by lia.
      set (k := Z.log2 v) in *. dlia.
    + rewrite Z.shiftr_div_pow2 by lia. change (2 ^ 7) with 128. split; [apply Z.div_le_lower_bound; lia|apply Z.div_lt_upper_bound; lia].
Qed.
Lemma uintSize_spec v : is_u64 v -> uintSize v = Z.of_nat (length (e_Uvarint v)).
Proof.
  intros [? ?]. unfold uintSize, Len64, e_Uvarint. destruct (Z.eqb_spec v 0) as [->|]; [done|]. rewrite length_uvarint by (change (128 ^ Z.of_nat 10) with (64 * 2 ^ 64); lia).
  replace (Z.log2 v + 1 + 6) with (Z.log2 v + 1 * 7) by lia. rewrite Z.div_add by lia. done.
Qed.
Lemma P_key_u64 k : P_key k -> is_u64 (Z.of_nat (k_length k)).
Proof. intros [_ Hl]. unfold MaxInt in Hl. unfold is_uint. lia. Qed.
Lemma childSize_spec e : P_entry e -> childSize e.1 e.2 = Z.of_nat (length (e_entry e)).
Proof.
  intros (Hi & Hk & Hid). unfold childSize, keySize, e_entry, e_Key. rewrite !length_app, (uintSize_spec e.1), (uintSize_spec (Z.of_nat (k_length (compressedKey e.2)))) by first [by apply byte_u64|by apply P_key_u64].
  rewrite (proj1 Hid), (v_length _ (proj1 Hk)). cbn [e_Bool length]. lia.
Qed.
Lemma size_sum es w : Forall P_entry es -> foldl (fun size e => size + childSize e.1 e.2) w es = w + Z.of_nat (length (es ≫= e_entry)).
Proof.
  intros Hes. revert w. induction Hes as [|e es He _ IH]; intros w; cbn [foldl]; [cbn; lia|]. rewrite IH, bind_cons, length_app, childSize_spec by done. lia.
Qed.
Lemma encodedDBNodeSize_spec n : wf_db n -> encodedDBNodeSize n = Z.of_nat (length (encodeDBNode n)).
Proof.
  intros Hwf. pose proof (entries_size n Hwf). rewrite encode_enc. unfold encodedDBNodeSize, e_node.
  assert (entries (children n) ≡ₚ sorted_entries (children n)) as Hp.
  { apply NoDup_Permutation; [apply entries_nodup|apply before_nodup, sorted_entries_sorted|]. intros [k c]. rewrite elem_of_entries. symmetry. apply sorted_entries_lists. }
  rewrite size_sum by (rewrite Hp; by apply wf_entries). assert (length (entries (children n) ≫= e_entry) = length (sorted_entries (children n) ≫= e_entry)) as -> by (apply Permutation_length; by rewrite Hp).
  rewrite !length_app, !uintSize_spec by (unfold is_uint; lia). unfold e_Maybe. rewrite length_app. destruct Hwf as [Hv _]. destruct (value n) as [v|]; [|cbn; lia].
  destruct (Hv v eq_refl) as [_ Hu]. unfold e_Bytes. rewrite length_app, !uintSize_spec by done. cbn [e_Bool length]. lia.
Qed.

(** *** The input of a node's hash *)
Definition e_hash (e : Z * child) : bytes := e_Uvarint e.1 ++ c_id e.2.
Record wf_hash (n : node) : Prop := {
  wh_digest : P_maybe (valueDigest n);
  wh_key : P_key (n_key n);
  wh_children : map_Forall (fun i c => is_byte i /\ is_id (c_id c)) (n_children n);
}.
Lemma hash_input_enc n :
  hash_input n = e_Uvarint (Z.of_nat (base.size (n_children n))) ++ (sorted_entries (n_children n) ≫= e_hash) ++ e_Maybe (valueDigest n) ++ e_Key (n_key n).
Proof.
  unfold hash_input. set (w := if (_ =? 0)%nat then _ else _). assert (w = e_Uvarint (Z.of_nat (base.size (n_children n))) ++ (sorted_entries (n_children n) ≫= e_hash)) as ->.
  { subst w. destruct (Nat.eqb_spec (base.size (n_children n)) 0) as [Hz|].
    - pose proof (length_sorted_entries (n_children n)) as Hl. rewrite Hz in Hl. apply nil_length_inv in Hl. rewrite Hl, Hz. done.
    - apply foldl_sorted. intros w k c Hc. unfold hash_child. rewrite Hc. unfold w_ID, w_Uvarint, AppendUvarint, e_hash, e_Uvarint. cbn [fst snd]. by rewrite <- app_assoc. }
  unfold w_Uvarint, AppendUvarint, e_Maybe, e_Key, e_Bytes, e_Bool, e_Uvarint. destruct (valueDigest n); [rewrite bool_decide_true by done|rewrite bool_decide_false by (by intros [? ?])]; by rewrite <- !app_assoc.
Qed.
Definition P_hash (e : Z * child) : Prop := is_byte e.1 /\ is_id (c_id e.2).
Lemma e_hash_bytes es : Forall P_hash es -> Forall is_byte (es ≫= e_hash).
Proof.
  induction 1 as [|e es [Hi Hid] _ IH]; [constructor|]. rewrite bind_cons. apply Forall_app. split; [|done]. apply Forall_app. split; [by apply (codes_bytes _ _ _ c_Uvarint), byte_u64|apply Hid].
Qed.
Lemma e_hash_inj es es' r r' : length es = length es' -> Forall P_hash es -> Forall P_hash es' -> Forall is_byte r -> Forall is_byte r' ->
  (es ≫= e_hash) ++ r = (es' ≫= e_hash) ++ r' -> prod_map id c_id <$> es = prod_map id c_id <$> es' /\ r = r'.
Proof.
  intros Hlen Hes. revert es' Hlen. induction Hes as [|e es [Hi Hid] Hes IH]; intros [|e' es'] Hlen Hes' Hr Hr' Heq; try done.
  apply Forall_cons in Hes' as [[Hi' Hid'] Hes']. rewrite !bind_cons in Heq. unfold e_hash at 1 3 in Heq. rewrite <- !app_assoc in Heq.
  apply (codes_inj _ _ _ _ _ _ _ c_Uvarint) in Heq as [Hk Heq]; [|by apply byte_u64|by apply byte_u64|rewrite !Forall_app; split_and!; [apply Hid|by apply e_hash_bytes|done]|rewrite !Forall_app; split_and!; [apply Hid'|by apply e_hash_bytes|done]].
  apply app_inj_1 in Heq as [Hc Heq]; [|by rewrite (proj1 Hid), (proj1 Hid')]. destruct (IH es') as [Hes2 ->]; [by injection Hlen|done..|].
  split; [|done]. rewrite !fmap_cons, Hes2. f_equal. unfold prod_map. by rewrite Hk, Hc.
Qed.
Lemma hash_input_inj n n' : wf_hash n -> wf_hash n' -> hash_input n = hash_input n' ->
  n_key n = n_key n' /\ valueDigest n = valueDigest n' /\ c_id <$> n_children n = c_id <$> n_children n'.
Proof.
  assert (forall n, wf_hash n -> (base.size (n_children n) <= 256)%nat /\ Forall P_hash (sorted_entries (n_children n)) /\ Forall is_byte (e_Maybe (valueDigest n) ++ e_Key (n_key n))) as Hgen.
  { intros m [Hd Hk Hc]. split_and!.
    - rewrite <- size_dom. transitivity (base.size (list_to_set (seqZ 0 256) : gset Z)); [|by vm_compute].
      apply subseteq_size. intros k [c Hkc]%elem_of_dom. apply elem_of_list_to_set, elem_of_seqZ. destruct (Hc _ _ Hkc) as [Hb _]. unfold is_byte, BigEndian.is_byte in Hb. lia.
    - apply Forall_forall. intros [k c] Hin. apply sorted_entries_lists in Hin. exact (Hc _ _ Hin).
    - apply Forall_app. split; [by apply (codes_bytes _ _ _ c_Maybe)|by apply (codes_bytes _ _ _ c_Key)]. }
  intros Hn Hn' Heq. destruct (Hgen n Hn) as (Hs & He & Hr), (Hgen n' Hn') as (Hs' & He' & Hr'). rewrite !hash_input_enc in Heq.
  apply (codes_inj _ _ _ _ _ _ _ c_Uvarint) in Heq as [Hsize Heq]; [|unfold is_uint; lia|unfold is_uint; lia|apply Forall_app; split; [by apply e_hash_bytes|done]|apply Forall_app; split; [by apply e_hash_bytes|done]].
  apply e_hash_inj in Heq as [Hes Heq]; [|rewrite !length_sorted_entries; lia|done..]. apply Forall_app in Hr as [_ Hr], Hr' as [_ Hr'].
  apply (codes_inj _ _ _ _ _ _ _ c_Maybe) in Heq as [Hd Heq]; [|apply Hn|apply Hn'|done|done]. rewrite <- (app_nil_r (e_Key (n_key n))), <- (app_nil_r (e_Key (n_key n'))) in Heq.
  apply (codes_inj _ _ _ _ _ _ _ c_Key) in Heq as [Hk _]; [|apply Hn|apply Hn'|constructor|constructor]. split_and!; [done..|].
  apply map_eq. intros k. apply option_eq. intros h. rewrite !lookup_fmap. assert (forall m : gmap Z child, c_id <$> m !! k = Some h <-> (k, h) ∈ prod_map id c_id <$> sorted_entries m) as Hlk; [|by rewrite !Hlk, Hes].
  intros m. rewrite fmap_Some, list_elem_of_fmap. split.
  - intros (c & Hc & ->). exists (k, c). split; [done|]. by apply sorted_entries_lists.
  - intros ([k2 c] & [= -> ->] & Hin). exists c. split; [|done]. by apply sorted_entries_lists.
Qed.
End nodes.

(** C37: the stored form of a node, and of a key, is unique: decoding accepts a string of bytes exactly when it is the encoding
    of a well-formed node (key), and returns that one; the size that caches charge a node with is the length of its encoding. *)
Theorem node_codec_exact {ko : KeyOrder Z} (b : bytes) : Forall is_byte b ->
  (forall n, decodeDBNode b = Ok n <-> wf_db n /\ encodeDBNode n = b) /\
  (forall k, decodeKey b = Ok k <-> P_key k /\ encodeKey k = b) /\
  (forall n, wf_db n -> encodedDBNodeSize n = Z.of_nat (length (encodeDBNode n))).
Proof. intros Hb. split_and!; [intros n; by apply read_node_iff|intros k; by apply decodeKey_iff|apply encodedDBNodeSize_spec]. Qed.
(** A node with a value and a child, whose compressed key has 4 bits. *)
Definition sample_bytes : bytes := [1; 2; 9; 255; 1; 200; 1; 4; 160] ++ replicate 32 7 ++ [1].
Lemma node_codec_exact_witness :
  Forall is_byte sample_bytes /\
  exists n, wf_db n /\ encodeDBNode (ko := elements_order) n = sample_bytes /\ value n = Some [9; 255] /\
    children n = {[200 := mkChild (mkKey 4 [160]) (replicate 32 7) true]} /\
    encodedDBNodeSize (ko := elements_order) n = 42.
Proof.
  assert (Forall is_byte sample_bytes) as Hb by (apply (bool_decide_unpack _); vm_compute; exact I). split; [done|].
  destruct (node_codec_exact (ko := elements_order) sample_bytes Hb) as (Hn & _ & Hs).
  destruct (decodeDBNode sample_bytes) as [n|] eqn:Hd; [|by vm_compute in Hd]. exists n.
  destruct (proj1 (Hn n) eq_refl) as [Hw He]. split_and!; [done|done| | |].
  - vm_compute in Hd. injection Hd as <-. reflexivity.
  - vm_compute in Hd. injection Hd as <-. reflexivity.
  - rewrite (Hs n Hw), He. reflexivity.
Defined.
End MerkleCodec.
