(* ===== verification/MerkleSpec.v ===== *)
(** * What a Merkle trie stands for
    The contents of a trie map paths (lists of tokens) to values.  They determine the
    trie: there is a node at a path when the keys below it have no longer prefix in
    common ([under]); its children are the nodes found below each next token; identifiers
    are the hashes of these nodes from the bottom up ([tnode], [root_id]). *)
From S2P Require Import Prelude MapOrder GoLibrary Sorting Database MerkleKey MerkleCodec.

Module MerkleSpec.
Import Sorting Database MerkleKey MerkleNode.

Abbreviation path := (list Z).
#[local] Notation "p ≼ q" := (prefix p q) (at level 70).

(** ** Prefixes *)
Lemma lcp_spec r a b : r ≼ lcp a b <-> r ≼ a /\ r ≼ b.
Proof.
  split; [intros Hr|intros [? ?]; by apply lcp_greatest]. split; (etransitivity; [exact Hr|]); [apply lcp_prefix_l|apply lcp_prefix_r].
Qed.
Lemma prefix_eq (a b : path) : a ≼ b -> b ≼ a -> a = b.
Proof. intros Hab Hba. by apply (anti_symm prefix). Qed.
Lemma lcp_l a b : a ≼ b -> lcp a b = a.
Proof. intros Hab. apply prefix_eq; [apply lcp_prefix_l|]. by apply lcp_spec. Qed.
Lemma lcp_r a b : b ≼ a -> lcp a b = b.
Proof. intros. rewrite lcp_comm. by apply lcp_l. Qed.
Lemma prefix_snoc (p q : path) t : p ++ [t] ≼ q <-> p ≼ q /\ q !! length p = Some t.
Proof.
  split.
  - intros [r ->]. split; [rewrite <- app_assoc; by eexists|]. by rewrite <- app_assoc, lookup_app_r, Nat.sub_diag by lia.
  - intros [[r ->] Hl]. rewrite lookup_app_r, Nat.sub_diag in Hl by lia. destruct r as [|t' r]; [done|]. injection Hl as ->. exists r. by rewrite <- app_assoc.
Qed.
Lemma prefix_strict_snoc (p q : path) : p ≼ q -> p <> q -> exists t, p ++ [t] ≼ q.
Proof. intros [[|t r] ->] Hne; [by rewrite app_nil_r in Hne|]. exists t, r. by rewrite <- app_assoc. Qed.
Lemma prefix_total (p q x : path) : p ≼ x -> q ≼ x -> p ≼ q \/ q ≼ p.
Proof. apply prefix_weak_total. Qed.
Lemma prefix_cases (p q x : path) : p ≼ x -> q ≼ x -> (length p <= length q)%nat -> p ≼ q.
Proof. intros Hp Hq Hl. destruct (prefix_total p q x Hp Hq) as [|Hqp]; [done|]. by rewrite (prefix_length_eq q p Hqp Hl). Qed.
Lemma not_snoc_prefix (p : path) t : ~ p ++ [t] ≼ p.
Proof. intros Hp%prefix_length. rewrite length_app in Hp. cbn in Hp. lia. Qed.
(** Where a key leaves a path. *)
Lemma lcp_lookup a b t : ~ a ≼ b -> a !! length (lcp a b) = Some t -> b !! length (lcp a b) <> Some t.
Proof.
  intros Hn Ha Hb. apply (not_snoc_prefix (lcp a b) t), lcp_spec. split; apply prefix_snoc; (split; [|done]); [apply lcp_prefix_l|apply lcp_prefix_r].
Qed.

(** ** The longest common prefix of the keys below a path *)
Section under.
Context {A : Type}.
Implicit Types (C : gmap path A) (p q r k x : path).

Definition under C p : option path :=
  foldr (fun k acc => if decide (p ≼ k) then Some (match acc with None => k | Some q => lcp k q end) else acc) None (elements (dom C)).
Definition agree C C' p : Prop := forall k, p ≼ k -> C !! k = C' !! k.
Definition is_under C p q : Prop :=
  (exists k, is_Some (C !! k) /\ p ≼ k) /\ forall r, (forall k, is_Some (C !! k) -> p ≼ k -> r ≼ k) <-> r ≼ q.

Lemma under_fold p (l : list path) :
  match foldr (fun k acc => if decide (p ≼ k) then Some (match acc with None => k | Some q => lcp k q end) else acc) None l with
  | None => forall k, k ∈ l -> ~ p ≼ k
  | Some q => (exists k, k ∈ l /\ p ≼ k) /\ forall r, (forall k, k ∈ l -> p ≼ k -> r ≼ k) <-> r ≼ q
  end.
Proof.
  induction l as [|k l IH]; [intros k Hk; by apply not_elem_of_nil in Hk|]. cbn [foldr]. set (f := foldr _ None l) in *.
  destruct (decide (p ≼ k)) as [Hk|Hk]; destruct f as [q|].
  - destruct IH as [_ Hq]. split; [exists k; split; [by left|done]|]. intros r. rewrite lcp_spec, <- Hq. split.
    + intros Hr. split; [apply Hr; [by left|done]|]. intros k' ? ?. apply Hr; [by right|done].
    + intros [Hr Hr'] k' [->|Hin]%elem_of_cons Hpk; [done|by apply Hr'].
  - split; [exists k; split; [by left|done]|]. intros r. split; [intros Hr; apply Hr; [by left|done]|]. intros Hr k' [->|Hin]%elem_of_cons Hpk; [done|]. by destruct (IH k').
  - destruct IH as [(k' & Hk' & Hpk) Hq]. split; [exists k'; split; [by right|done]|]. intros r. rewrite <- Hq. split.
    + intros Hr k2 ? ?. apply Hr; [by right|done].
    + intros Hr k2 [->|Hin]%elem_of_cons Hp2; [done|by apply Hr].
  - intros k' [->|Hin]%elem_of_cons; [done|by apply IH].
Qed.
Lemma under_None C p : under C p = None <-> forall k, is_Some (C !! k) -> ~ p ≼ k.
Proof.
  pose proof (under_fold p (elements (dom C))) as Hf. unfold under. destruct (foldr _ _ _) as [q|].
  - destruct Hf as [(k & Hk & Hpk) _]. apply elem_of_elements, elem_of_dom in Hk. split; [done|]. intros Hn. by destruct (Hn k Hk).
  - split; [|done]. intros _ k Hk. apply Hf. by apply elem_of_elements, elem_of_dom.
Qed.
Lemma under_Some C p q : under C p = Some q -> is_under C p q.
Proof.
  pose proof (under_fold p (elements (dom C))) as Hf. unfold under. destruct (foldr _ _ _) as [q'|]; [|done]. intros [= <-]. destruct Hf as [(k & Hk & Hpk) Hq].
  split; [exists k; split; [by apply elem_of_dom, elem_of_elements|done]|]. intros r. rewrite <- Hq. split.
  - intros Hr k' Hk'. apply Hr. by apply elem_of_dom, elem_of_elements.
  - intros Hr k' Hk'. apply Hr. by apply elem_of_elements, elem_of_dom.
Qed.
Lemma is_under_unique C p q q' : is_under C p q -> is_under C p q' -> q = q'.
Proof. intros [_ H1] [_ H2]. apply prefix_eq; [by apply (proj1 (H2 q)), (proj2 (H1 q))|by apply (proj1 (H1 q')), (proj2 (H2 q'))]. Qed.
Lemma under_iff C p q : under C p = Some q <-> is_under C p q.
Proof.
  split; [apply under_Some|]. intros Hu. destruct (under C p) as [q'|] eqn:Hq.
  - apply under_Some in Hq. by rewrite (is_under_unique _ _ _ _ Hu Hq).
  - destruct Hu as [(k & Hk & Hp) _]. by destruct (proj1 (under_None C p) Hq k Hk).
Qed.
Lemma under_below C p q k : under C p = Some q -> is_Some (C !! k) -> p ≼ k -> q ≼ k.
Proof. intros [_ Hq]%under_Some. by apply (proj2 (Hq q)). Qed.
Lemma under_prefix C p q : under C p = Some q -> p ≼ q.
Proof. intros [_ Hq]%under_Some. by apply (proj1 (Hq p)). Qed.
Lemma under_key C p q : under C p = Some q -> exists k, is_Some (C !! k) /\ q ≼ k.
Proof. intros Hu. pose proof Hu as [(k & Hk & Hp) _]%under_Some. exists k. split; [done|]. by eapply under_below. Qed.
Lemma under_is_Some C p : is_Some (under C p) <-> exists k, is_Some (C !! k) /\ p ≼ k.
Proof.
  split; [intros [q [? _]%under_Some]; done|]. intros (k & Hk & Hp). destruct (under C p) eqn:Hu; [done|]. by destruct (proj1 (under_None C p) Hu k Hk).
Qed.
Lemma is_under_congr C C' p p' q : (forall k, is_Some (C !! k) /\ p ≼ k <-> is_Some (C' !! k) /\ p' ≼ k) -> is_under C p q -> is_under C' p' q.
Proof.
  intros Hiff [(k & Hk) Hq]. split; [exists k; by apply Hiff|]. intros r. rewrite <- Hq. split; intros Hr k' Hk' Hp'; apply Hr; by apply Hiff.
Qed.
(** Paths with the same keys below. *)
Lemma under_congr C C' p p' : (forall k, is_Some (C !! k) /\ p ≼ k <-> is_Some (C' !! k) /\ p' ≼ k) -> under C p = under C' p'.
Proof.
  intros Hiff. apply option_eq. intros q. rewrite !under_iff. split; apply is_under_congr; [done|]. intros k. by rewrite Hiff.
Qed.
Lemma under_agree C C' p : agree C C' p -> under C p = under C' p.
Proof. intros Ha. apply under_congr. intros k. split; intros [Hk Hp]; (split; [|done]); [by rewrite <- Ha|by rewrite Ha]. Qed.
Lemma under_between C p q r : under C p = Some q -> p ≼ r -> r ≼ q -> under C r = Some q.
Proof.
  intros Hu Hpr Hrq. rewrite <- Hu. apply under_congr. intros k. split; intros [Hk Hp]; (split; [done|]); [by transitivity r|]. transitivity q; [done|]. by eapply under_below.
Qed.
Lemma under_node C p q : under C p = Some q -> under C q = Some q.
Proof. intros Hu. eapply under_between; [done|by eapply under_prefix|done]. Qed.
Lemma under_mono C p p' q' : p ≼ p' -> under C p' = Some q' -> exists q, under C p = Some q /\ q ≼ q'.
Proof.
  intros Hp Hu. destruct (under_key _ _ _ Hu) as (k & Hk & Hqk). pose proof (under_prefix _ _ _ Hu).
  destruct (under C p) as [q|] eqn:Hq.
  - exists q. split; [done|]. apply under_Some in Hu as [_ Hu]. apply (proj1 (Hu q)). intros k' Hk' Hp'. eapply under_below; [done|done|]. by transitivity p'.
  - destruct (proj1 (under_None C p) Hq k Hk). by do 2 (etransitivity; [done|]).
Qed.
Lemma under_insert C p x v :
  under (<[x := v]> C) p = if decide (p ≼ x) then Some (match under C p with None => x | Some q => lcp q x end) else under C p.
Proof.
  destruct (decide (p ≼ x)) as [Hp|Hp]; cycle 1.
  { apply under_congr. intros k. destruct (decide (k = x)) as [->|Hne]; [split; by intros [_ ?]|by rewrite lookup_insert_ne]. }
  apply under_iff. split; [exists x; rewrite lookup_insert_eq; by split|]. intros r. destruct (under C p) as [q|] eqn:Hq.
  - apply under_Some in Hq as [_ Hq]. rewrite lcp_spec, <- Hq. split.
    + intros Hr. split; [|apply Hr; [by rewrite lookup_insert_eq|done]]. intros k Hk Hpk. apply Hr; [|done]. destruct (decide (k = x)) as [->|]; [by rewrite lookup_insert_eq|by rewrite lookup_insert_ne].
    + intros [Hr Hx] k Hk Hpk. destruct (decide (k = x)) as [->|]; [done|]. rewrite lookup_insert_ne in Hk by done. by apply Hr.
  - rewrite under_None in Hq. split.
    + intros Hr. apply Hr; [by rewrite lookup_insert_eq|done].
    + intros Hx k Hk Hpk. destruct (decide (k = x)) as [->|]; [done|]. rewrite lookup_insert_ne in Hk by done. by destruct (Hq k Hk).
Qed.
Lemma agree_insert C p x v : ~ p ≼ x -> agree (<[x := v]> C) C p.
Proof. intros Hn k Hk. by rewrite lookup_insert_ne by (intros ->; done). Qed.
Lemma agree_delete C p x : ~ p ≼ x -> agree (delete x C) C p.
Proof. intros Hn k Hk. by rewrite lookup_delete_ne by (intros ->; done). Qed.
Lemma agree_mono C C' p q : agree C C' p -> p ≼ q -> agree C C' q.
Proof. intros Ha Hp k Hk. apply Ha. by transitivity q. Qed.
Lemma below_trans C C' C'' p : agree C C' p -> agree C' C'' p -> agree C C'' p.
Proof. intros H1 H2 k Hk. by rewrite H1, H2. Qed.
Lemma below_sym C C' p : agree C C' p -> agree C' C p.
Proof. intros Ha k Hk. by rewrite Ha. Qed.

(** *** A node by its value and its children *)
Lemma under_value C q : is_Some (C !! q) -> under C q = Some q.
Proof. intros Hq. apply under_iff. split; [by exists q|]. intros r. split; [intros Hr; by apply Hr|]. intros Hr k Hk Hp. by transitivity q. Qed.
Lemma under_two C q t t' : t <> t' -> is_Some (under C (q ++ [t])) -> is_Some (under C (q ++ [t'])) -> under C q = Some q.
Proof.
  intros Hne Ht Ht'. rewrite under_is_Some in Ht, Ht'. destruct Ht as (k & Hk & Hp), Ht' as (k' & Hk' & Hp').
  pose proof Hp as [Hqk Hlk]%prefix_snoc. pose proof Hp' as [Hqk' Hlk']%prefix_snoc.
  apply under_iff. split; [by exists k|]. intros r. split; [|by intros ? ? ? ?; transitivity q]. intros Hr. pose proof (Hr k Hk Hqk) as Hrk. pose proof (Hr k' Hk' Hqk') as Hrk'.
  destruct (prefix_total r q k Hrk Hqk) as [|Hqr]; [done|]. destruct (decide (q = r)) as [->|Hqne]; [done|]. destruct (prefix_strict_snoc q r Hqr Hqne) as [t2 Ht2].
  assert (q ++ [t2] ≼ k) as [_ H1]%prefix_snoc by by transitivity r. assert (q ++ [t2] ≼ k') as [_ H2]%prefix_snoc by by transitivity r. congruence.
Qed.
Lemma under_one C q t : C !! q = None -> (forall t', t' <> t -> under C (q ++ [t']) = None) -> under C q = under C (q ++ [t]).
Proof.
  intros Hv Hn. apply under_congr. intros k. split; intros [Hk Hp]; (split; [done|]); [|by apply prefix_snoc in Hp as [? _]].
  destruct (decide (q = k)) as [->|Hne]; [rewrite Hv in Hk; by destruct Hk|]. destruct (prefix_strict_snoc q k Hp Hne) as [t' Ht'].
  destruct (decide (t' = t)) as [->|Htne]; [done|]. specialize (Hn t' Htne). by destruct (proj1 (under_None _ _) Hn k Hk).
Qed.
Lemma under_none C q : C !! q = None -> (forall t, under C (q ++ [t]) = None) -> under C q = None.
Proof.
  intros Hv Hn. rewrite (under_one C q 0) by (done || intros; apply Hn). apply Hn.
Qed.
(** A node without value has two children. *)
Lemma node_two C q t : under C q = Some q -> C !! q = None -> exists t', t' <> t /\ is_Some (under C (q ++ [t'])).
Proof.
  intros Hq Hv. destruct (decide (Forall (fun k => q ≼ k -> q ++ [t] ≼ k) (elements (dom C)))) as [Hall|Hn].
  - exfalso. apply (not_snoc_prefix q t). apply under_Some in Hq as [_ Hq]. apply (proj1 (Hq (q ++ [t]))). intros k Hk Hp. rewrite Forall_forall in Hall. apply Hall; [by apply elem_of_elements, elem_of_dom|done].
  - apply not_Forall_Exists in Hn; [|apply _]. apply Exists_exists in Hn as (k & Hk & Hn). cbv beta in Hn. apply elem_of_elements, elem_of_dom in Hk.
    assert (q ≼ k /\ ~ q ++ [t] ≼ k) as [Hp Ht] by (split; [apply dec_stable; intros ?; by apply Hn|intros ?; by apply Hn]).
    destruct (prefix_strict_snoc q k Hp) as [t' Ht']; [intros ->; rewrite Hv in Hk; by destruct Hk|]. exists t'. split; [by intros ->|]. apply under_is_Some. by exists k.
Qed.
End under.

(** ** The key of a path *)
Section keys.
Context (ts : nat) (Hsize : token_size ts).
Definition is_token (t : Z) : Prop := 0 <= t < 2 ^ Z.of_nat ts.
Definition wf_path (p : path) : Prop := Forall is_token p.
Definition key_of (p : path) : Key := foldl (fun k t => match Extend k [ToToken t ts] with Ok k' => k' | Err _ => k end) empty_key p.

Lemma empty_key_wf : wf_key ts empty_key /\ tokens ts empty_key = [].
Proof.
  destruct (tokens_of ts Hsize empty_key 0) as [? ->]; [|cbn; lia|done]. split; [constructor|done|done].
Qed.
Lemma key_of_spec p : wf_path p -> wf_key ts (key_of p) /\ tokens ts (key_of p) = p.
Proof.
  unfold key_of. assert (forall k, wf_key ts k -> wf_path p -> let k' := foldl (fun k t => match Extend k [ToToken t ts] with Ok k' => k' | Err _ => k end) k p in wf_key ts k' /\ tokens ts k' = tokens ts k ++ p) as Hgen.
  { induction p as [|t p IH]; intros k Hk Hp; cbn [foldl]; [by rewrite app_nil_r|]. apply Forall_cons in Hp as [Ht Hp].
    destruct (ToToken_tokens ts Hsize t Ht) as [Hwt Htt]. destruct (Extend_tokens ts Hsize k [ToToken t ts] Hk) as (k' & -> & Hk' & Htk); [by apply Forall_singleton|].
    destruct (IH k' Hk' Hp) as [? Heq]. split; [done|]. rewrite Heq, Htk. cbn. rewrite Htt, app_nil_r. by rewrite <- app_assoc. }
  intros Hp. destruct (Hgen empty_key (proj1 empty_key_wf) Hp) as [? Heq]. split; [done|]. by rewrite Heq, (proj2 empty_key_wf).
Qed.
Lemma key_of_wf p : wf_path p -> wf_key ts (key_of p).
Proof. intros Hp. apply key_of_spec, Hp. Qed.
Lemma tokens_key_of p : wf_path p -> tokens ts (key_of p) = p.
Proof. intros Hp. apply key_of_spec, Hp. Qed.
Lemma tokens_wf k : wf_path (tokens ts k).
Proof. apply tokens_bound, Hsize. Qed.
Lemma key_of_tokens k : wf_key ts k -> key_of (tokens ts k) = k.
Proof. intros Hk. pose proof (tokens_wf k). by apply (tokens_inj ts Hsize); [apply key_of_wf| |apply tokens_key_of]. Qed.
Lemma key_of_inj p q : wf_path p -> wf_path q -> key_of p = key_of q -> p = q.
Proof. intros Hp Hq Heq. by rewrite <- (tokens_key_of p Hp), Heq, tokens_key_of. Qed.
Lemma wf_path_prefix p q : p ≼ q -> wf_path q -> wf_path p.
Proof. intros [r ->] Hq. by apply Forall_app in Hq as [? _]. Qed.
Lemma wf_path_drop n p : wf_path p -> wf_path (drop n p).
Proof. apply Forall_drop. Qed.
Lemma key_of_length p : wf_path p -> k_length (key_of p) = (ts * length p)%nat.
Proof. intros Hp. by rewrite (wk_k_length ts _ (key_of_wf p Hp)), tokens_key_of. Qed.
(** A key operation whose result has the tokens of [p] returns [key_of p]. *)
Lemma key_of_result (r : R Key) p : (exists k, r = Ok k /\ wf_key ts k /\ tokens ts k = p) -> r = Ok (key_of p).
Proof. intros (k & -> & Hk & <-). by rewrite key_of_tokens. Qed.
Lemma Take_key_of p n : wf_path p -> Take (key_of p) (ts * n) = Ok (key_of (take n p)).
Proof. intros Hp. apply key_of_result. destruct (Take_tokens ts Hsize _ n (key_of_wf p Hp)) as (k & Hk & Hw & Ht). exists k. by rewrite Ht, tokens_key_of. Qed.
Lemma Skip_key_of p n : wf_path p -> Skip (key_of p) (ts * n) = Ok (key_of (drop n p)).
Proof. intros Hp. apply key_of_result. destruct (Skip_tokens ts Hsize _ n (key_of_wf p Hp)) as (k & Hk & Hw & Ht). exists k. by rewrite Ht, tokens_key_of. Qed.
Lemma Token_key_of p i t : wf_path p -> p !! i = Some t -> Token (key_of p) (ts * i) ts = Ok t.
Proof.
  intros Hp Hi. destruct (Token_tokens ts Hsize (key_of p) i (key_of_wf p Hp)) as (t' & -> & Ht); [rewrite tokens_key_of by done; by eapply lookup_lt_Some|]. rewrite tokens_key_of in Ht by done. congruence.
Qed.
Lemma Extend_key_of p t q : wf_path p -> is_token t -> wf_path q -> Extend (key_of p) [ToToken t ts; key_of q] = Ok (key_of (p ++ t :: q)).
Proof.
  intros Hp Ht Hq. apply key_of_result. destruct (ToToken_tokens ts Hsize t Ht) as [Hwt Htt].
  destruct (Extend_tokens ts Hsize (key_of p) [ToToken t ts; key_of q] (key_of_wf p Hp)) as (k & Hk & Hw & Htk); [apply Forall_cons; split; [done|]; apply Forall_singleton; by apply key_of_wf|].
  exists k. split; [done|]. split; [done|]. rewrite Htk, tokens_key_of by done. cbn. by rewrite Htt, app_nil_r, tokens_key_of.
Qed.
Lemma HasPrefix_key_of p q : wf_path p -> wf_path q -> KeyHasPrefix (key_of p) (key_of q) = Ok (bool_decide (q ≼ p)).
Proof. intros Hp Hq. rewrite (KeyHasPrefix_tokens ts Hsize) by by apply key_of_wf. by rewrite !tokens_key_of. Qed.
Lemma iteratedHasPrefix_key_of p q n : wf_path p -> wf_path q -> (n <= length p)%nat ->
  iteratedHasPrefix (key_of p) (key_of q) (ts * n) ts = Ok (bool_decide (q ≼ drop n p)).
Proof. intros Hp Hq Hn. rewrite (iteratedHasPrefix_tokens ts Hsize) by (by rewrite ?tokens_key_of || by apply key_of_wf). by rewrite !tokens_key_of. Qed.
Lemma commonPrefix_key_of p q n : wf_path p -> wf_path q -> getLengthOfCommonPrefix (key_of p) (key_of q) (ts * n) ts = Ok (ts * length (lcp p (drop n q)))%nat.
Proof. intros Hp Hq. rewrite (getLengthOfCommonPrefix_tokens ts Hsize) by by apply key_of_wf. by rewrite !tokens_key_of. Qed.
End keys.

(** ** The trie of some contents *)
Section trie.
Context {H : Hasher} (ts : nat) (Hsize : token_size ts).
Implicit Types (C : gmap path bytes) (p q r k : path).
Definition wf_contents C : Prop := forall k, is_Some (C !! k) -> wf_path ts k.
Definition has C q : bool := bool_decide (is_Some (C !! q)).

(** The children of the node at [q], with identifiers from [ident]. *)
Definition entry C q (ident : path -> ID) r : child := mkChild (key_of ts (drop (S (length q)) r)) (ident r) (has C r).
Definition children_of C q (ident : path -> ID) : gmap Z child :=
  list_to_map (omap (fun t => (fun r => (t, entry C q ident r)) <$> under C (q ++ [t])) (seqZ 0 (2 ^ Z.of_nat ts))).
Definition node_of C q (ident : path -> ID) : node := mkNode (mkDbNode (C !! q) (children_of C q ident)) (key_of ts q) (digest (C !! q)).
Fixpoint cnode (fuel : nat) C q : node :=
  node_of C q (fun r => match fuel with O => Empty | S fuel => HashNode (cnode fuel C r) end).
Definition height C : nat := foldr (fun k m => Nat.max (length k) m) 0%nat (elements (dom C)).
Definition tnode C q : node := cnode (S (height C) - length q) C q.
Definition root_path C : option path := under C [].
Definition root_id C : ID := match root_path C with None => Empty | Some q => HashNode (tnode C q) end.

Lemma under_wf C p q : wf_contents C -> under C p = Some q -> wf_path ts q.
Proof. intros Hw Hu. destruct (under_key _ _ _ Hu) as (k & Hk & Hq). eapply wf_path_prefix; [done|by apply Hw]. Qed.
Lemma lookup_children C q ident t : wf_contents C -> children_of C q ident !! t = entry C q ident <$> under C (q ++ [t]).
Proof.
  intros Hw. unfold children_of. apply option_eq. intros c. rewrite <- elem_of_list_to_map.
  - rewrite list_elem_of_omap. split.
    + intros (t' & _ & Ht). destruct (under C (q ++ [t'])) as [r|] eqn:Hu; [|done]. injection Ht as <- <-. by rewrite Hu.
    + intros Hc. destruct (under C (q ++ [t])) as [r|] eqn:Hu; [|done]. injection Hc as <-. exists t. rewrite Hu. split; [|done]. apply elem_of_seqZ.
      assert (wf_path ts (q ++ [t])) as Ht by (eapply wf_path_prefix; [by eapply under_prefix|by eapply under_wf]). apply Forall_app in Ht as [_ Ht]. apply Forall_cons in Ht as [[? ?] _]. lia.
  - generalize (NoDup_seqZ 0 (2 ^ Z.of_nat ts)). generalize (seqZ 0 (2 ^ Z.of_nat ts)) as l. intros l Hl. induction Hl as [|t' l Hn _ IH]; [constructor|]. cbn.
    destruct (under C (q ++ [t'])) as [r|]; cbn; [|done]. constructor; [|done]. intros (e & He & Hin)%list_elem_of_fmap. apply list_elem_of_omap in Hin as (t2 & Ht2 & Hu).
    destruct (under C (q ++ [t2])); [|done]. injection Hu as <-. cbn in He. by subst t2.
Qed.
Lemma height_spec C k : is_Some (C !! k) -> (length k <= height C)%nat.
Proof.
  intros Hk%elem_of_dom%elem_of_elements. unfold height. induction (elements (dom C)) as [|k' l IH]; [by apply not_elem_of_nil in Hk|]. cbn.
  apply elem_of_cons in Hk as [->|Hk]; [lia|]. specialize (IH Hk). lia.
Qed.
Lemma under_height C p q : under C p = Some q -> (length q <= height C)%nat.
Proof. intros Hu. destruct (under_key _ _ _ Hu) as (k & Hk & Hq%prefix_length). pose proof (height_spec _ _ Hk). lia. Qed.
Lemma node_of_ext C C' q ident ident' : wf_contents C -> wf_contents C' -> agree C C' q -> (forall t r, under C (q ++ [t]) = Some r -> ident r = ident' r) -> node_of C q ident = node_of C' q ident'.
Proof.
  intros Hw Hw' Ha Hi. unfold node_of. rewrite (Ha q) by done. f_equal. f_equal. apply map_eq. intros t. rewrite !lookup_children by done.
  assert (agree C C' (q ++ [t])) as Hat by (eapply agree_mono; [done|by eexists]). rewrite <- (under_agree _ _ _ Hat). destruct (under C (q ++ [t])) as [r|] eqn:Hr; [|done]. cbn. unfold entry, has. f_equal.
  rewrite (Hi t r Hr), (Ha r); [done|]. apply under_prefix in Hr. etransitivity; [|exact Hr]. by eexists.
Qed.
Lemma cnode_fuel C fuel fuel' q : wf_contents C -> (S (height C) - length q <= fuel)%nat -> (S (height C) - length q <= fuel')%nat -> cnode fuel C q = cnode fuel' C q.
Proof.
  intros Hw. revert fuel' q. assert (forall q t r, under C (q ++ [t]) = Some r -> (length q < length r <= height C)%nat) as Hlen.
  { intros q t r Hr. split; [|by eapply under_height]. apply under_prefix, prefix_length in Hr. rewrite length_app in Hr. cbn in Hr. lia. }
  induction fuel as [|fuel IH]; intros [|fuel'] q Hf Hf'; cbn [cnode]; [done|apply node_of_ext; try done; intros t r Hr%Hlen; lia..|].
  apply node_of_ext; try done. intros t r Hr%Hlen. f_equal. apply IH; lia.
Qed.
Lemma cnode_agree C C' fuel q : wf_contents C -> wf_contents C' -> agree C C' q -> cnode fuel C q = cnode fuel C' q.
Proof.
  intros Hw Hw'. revert q. induction fuel as [|fuel IH]; intros q Ha; cbn [cnode]; apply node_of_ext; try done. intros t r Hr. f_equal. apply IH. eapply agree_mono; [done|].
  apply under_prefix in Hr. etransitivity; [|exact Hr]. by eexists.
Qed.
(** A node depends on the contents below it only. *)
Lemma tnode_agree C C' q : wf_contents C -> wf_contents C' -> agree C C' q -> tnode C q = tnode C' q.
Proof.
  intros Hw Hw' Ha. unfold tnode. set (f := (S (height C) + S (height C'))%nat).
  rewrite (cnode_fuel C _ f) by (done || subst f; lia). rewrite (cnode_agree C C') by done. apply cnode_fuel; (done || subst f; lia).
Qed.
Lemma tnode_unfold C q : wf_contents C -> tnode C q = node_of C q (fun r => HashNode (tnode C r)).
Proof.
  intros Hw. unfold tnode at 1. rewrite (cnode_fuel C _ (S (S (height C)))) by (done || lia).
  change (cnode (S (S (height C))) C q) with (node_of C q (fun r => HashNode (cnode (S (height C)) C r))). apply node_of_ext; try done. intros t r Hr. f_equal. apply cnode_fuel; (done || lia).
Qed.
Lemma tnode_child C q t : wf_contents C -> n_children (tnode C q) !! t = entry C q (fun r => HashNode (tnode C r)) <$> under C (q ++ [t]).
Proof. intros Hw. rewrite tnode_unfold by done. by apply lookup_children. Qed.
Lemma tnode_fields C q : wf_contents C -> n_key (tnode C q) = key_of ts q /\ n_value (tnode C q) = C !! q /\ valueDigest (tnode C q) = digest (C !! q).
Proof. intros Hw. by rewrite tnode_unfold. Qed.
End trie.
End MerkleSpec.
