(* ===== verification/MerkleView.v ===== *)
(** * Views of the Merkle trie
    Models [x/merkledb/view.go] and the walk of [trie.go].  A view holds the changes to
    its parent trie: the nodes it has changed, by key, and the root.  Nodes are shared
    between the root, the changes and the local variables of the methods, so they live
    in a heap and the methods handle locations; an editable copy from the parent gets a
    location of its own.  The parent is an interface; sums of key lengths are [int]s. *)
From stdpp Require Import sorting.
From S2P Require Import Prelude Monads GoLibrary MapOrder Sorting Database MerkleKey MerkleCodec.

Module MerkleView.
Import Sorting Database MerkleKey MerkleNode.

(** What a view asks of its parent, another view or the database. *)
Class ParentTrie := {
  p_getValue : Key -> R bytes;
  p_getEditableNode : Key -> bool -> R node;
  p_getRoot : option node;
}.

Abbreviation loc := nat.
Record nchange := mkNChange { nc_before : option node; nc_after : option loc }.
Record vchange := mkVChange { vc_before : option bytes; vc_after : option bytes }.
(** [once]: the function of [applyValueChangesOnce] has run.  The before and after of
    [rootChange] are a copy and the root itself. *)
Record view := mkView {
  heap : gmap loc node;
  next : loc;
  root : option loc;
  nodes : gmap Key nchange;
  keyChanges : gmap Key vchange;
  sortedKeys : list Key;
  rootID : ID;
  rootChange : option node * option loc;
  valueChangesApplied : bool;
  once : bool;
  invalidated : bool;
}.
Definition set_heap h v := mkView h (next v) (root v) (nodes v) (keyChanges v) (sortedKeys v) (rootID v) (rootChange v) (valueChangesApplied v) (once v) (invalidated v).
Definition push_heap n v := mkView (<[next v := n]> (heap v)) (S (next v)) (root v) (nodes v) (keyChanges v) (sortedKeys v) (rootID v) (rootChange v) (valueChangesApplied v) (once v) (invalidated v).
Definition set_root r v := mkView (heap v) (next v) r (nodes v) (keyChanges v) (sortedKeys v) (rootID v) (rootChange v) (valueChangesApplied v) (once v) (invalidated v).
Definition set_nodes m v := mkView (heap v) (next v) (root v) m (keyChanges v) (sortedKeys v) (rootID v) (rootChange v) (valueChangesApplied v) (once v) (invalidated v).
Definition set_keyChanges m l v := mkView (heap v) (next v) (root v) (nodes v) m l (rootID v) (rootChange v) (valueChangesApplied v) (once v) (invalidated v).
Definition set_rootID i v := mkView (heap v) (next v) (root v) (nodes v) (keyChanges v) (sortedKeys v) i (rootChange v) (valueChangesApplied v) (once v) (invalidated v).
Definition set_rootChange c v := mkView (heap v) (next v) (root v) (nodes v) (keyChanges v) (sortedKeys v) (rootID v) c (valueChangesApplied v) (once v) (invalidated v).
Definition set_applied b v := mkView (heap v) (next v) (root v) (nodes v) (keyChanges v) (sortedKeys v) (rootID v) (rootChange v) b (once v) (invalidated v).
Definition set_once b v := mkView (heap v) (next v) (root v) (nodes v) (keyChanges v) (sortedKeys v) (rootID v) (rootChange v) (valueChangesApplied v) b (invalidated v).
Abbreviation MV := (M view MerkleErr).

Definition deref (l : loc) : MV node := v ← get; must Panic (heap v !! l).
Definition store (l : loc) (n : node) : MV unit := modify (fun v => set_heap (<[l := n]> (heap v)) v).
Definition alloc (n : node) : MV loc := v ← get; _ ← modify (push_heap n); mret (next v).
Definition update (l : loc) (f : node -> R node) : MV unit := n ← deref l; n ← lift (f n); store l n.

Section view.
Context {H : Hasher} {P : ParentTrie} {okeys : KeyOrder Key} {ochildren : KeyOrder Z}.
Context (tokenSize : nat).

(** ** Nodes and the changes to them *)
Definition recordKeyChange (key : Key) (after : option loc) (hadValue newNode : bool) : MV unit :=
  v ← get;
  if valueChangesApplied v then fail ErrNodesAlreadyCalculated
  else
    match nodes v !! key with
    | Some existing => modify (set_nodes (<[key := mkNChange (nc_before existing) after]> (nodes v)))
    | None =>
        if newNode then modify (set_nodes (<[key := mkNChange None after]> (nodes v)))
        else
          before ← lift (p_getEditableNode key hadValue);
          modify (set_nodes (<[key := mkNChange (Some before) after]> (nodes v)))
    end.
Definition recordNewNode (after : loc) : MV unit :=
  n ← deref after; recordKeyChange (n_key n) (Some after) (n_hasValue n) true.
Definition recordNodeChange (after : loc) : MV unit :=
  n ← deref after; recordKeyChange (n_key n) (Some after) (n_hasValue n) false.
Definition recordNodeDeleted (after : loc) (hadValue : bool) : MV unit :=
  n ← deref after; recordKeyChange (n_key n) None hadValue false.
Definition getNode (key : Key) (hasValue : bool) : MV loc :=
  v ← get;
  match nodes v !! key with
  | Some nodeChange => must ErrNotFound (nc_after nodeChange)
  | None => n ← lift (p_getEditableNode key hasValue); alloc n
  end.

(** [visitPathToKey]; what [visitNode] assigns to the variables of its caller is the
    accumulator.  Every turn lengthens the key of the current node. *)
Definition visit_step {A} (key : Key) (visitNode : A -> loc -> MV A) (s : loc * A) : MV (loc * A + A) :=
  let '(currentNode, a) := s in
  n ← deref currentNode;
  if (k_length (n_key n) <? k_length key)%nat then
    index ← lift (Token key (k_length (n_key n)) tokenSize);
    match n_children n !! index with
    | None => mret (inr a)
    | Some nextChildEntry =>
        onPath ← lift (iteratedHasPrefix key (compressedKey nextChildEntry) (k_length (n_key n) + tokenSize) tokenSize);
        if negb onPath then mret (inr a)
        else
          k ← lift (Take key (k_length (n_key n) + tokenSize + k_length (compressedKey nextChildEntry)));
          currentNode ← getNode k (c_hasValue nextChildEntry);
          a ← visitNode a currentNode;
          mret (inl (currentNode, a))
    end
  else mret (inr a).
Definition visitPathToKey {A} (key : Key) (visitNode : A -> loc -> MV A) (a : A) : MV A :=
  v ← get;
  match root v with
  | None => mret a
  | Some l =>
      n ← deref l;
      b ← lift (KeyHasPrefix key (n_key n));
      if negb b then mret a
      else
        a ← visitNode a l;
        loop OutOfFuel (S (k_length key)) (visit_step key visitNode) (l, a)
  end.

(** ** Insertion *)
Definition visit_closest (closestNode : option loc) (n : loc) : MV (option loc) := _ ← recordNodeChange n; mret (Some n).
(** The root's key is not a prefix of [key]: a new root above both. *)
Definition split_root (key : Key) : MV loc :=
  v ← get;
  l ← must Panic (root v);
  oldRoot ← deref l;
  commonPrefixLength ← lift (getLengthOfCommonPrefix (n_key oldRoot) key 0 tokenSize);
  commonPrefix ← lift (Take (n_key oldRoot) commonPrefixLength);
  newRoot ← lift (addChildWithID oldRoot tokenSize (HashNode oldRoot) (newNode commonPrefix));
  l' ← alloc newRoot;
  _ ← recordNewNode l';
  _ ← modify (set_root (Some l'));
  mret l'.
(** The entry of [closestNode] towards [key] leads past it: a branch between them. *)
Definition insert_branch (closestNode : loc) (key : Key) (value : option bytes) (existingChildEntry : child) : MV loc :=
  n ← deref closestNode;
  commonPrefixLength ← lift (getLengthOfCommonPrefix (compressedKey existingChildEntry) key (k_length (n_key n) + tokenSize) tokenSize);
  if (k_length (compressedKey existingChildEntry) <=? commonPrefixLength)%nat then fail ErrVisitPathToKey
  else
    k ← lift (Take key (k_length (n_key n) + tokenSize + commonPrefixLength));
    branchNode ← alloc (newNode k);
    b ← deref branchNode;
    _ ← update closestNode (addChild b tokenSize);
    nodeWithValue ←
      (if (k_length key =? k_length (n_key b))%nat then
         _ ← update branchNode (fun b => Ok (setValue value b));
         mret branchNode
       else
         newNode ← alloc (setValue value (newNode key));
         c ← deref newNode;
         _ ← update branchNode (addChild c tokenSize);
         _ ← recordNewNode newNode;
         mret newNode);
    index ← lift (Token (compressedKey existingChildEntry) commonPrefixLength tokenSize);
    compressed ← lift (Skip (compressedKey existingChildEntry) (commonPrefixLength + tokenSize));
    _ ← update branchNode (fun b => Ok (setChildEntry index (mkChild compressed (c_id existingChildEntry) (c_hasValue existingChildEntry)) b));
    _ ← recordNewNode branchNode;
    mret nodeWithValue.
Definition insert_at (closestNode : loc) (key : Key) (value : option bytes) : MV loc :=
  n ← deref closestNode;
  if bool_decide (n_key n = key) then
    _ ← update closestNode (fun n => Ok (setValue value n));
    mret closestNode
  else
    index ← lift (Token key (k_length (n_key n)) tokenSize);
    match n_children n !! index with
    | None =>
        newNode ← alloc (setValue value (newNode key));
        c ← deref newNode;
        _ ← update closestNode (addChild c tokenSize);
        _ ← recordNewNode newNode;
        mret newNode
    | Some existingChildEntry => insert_branch closestNode key value existingChildEntry
    end.
Definition insert (key : Key) (value : option bytes) : MV loc :=
  v ← get;
  if valueChangesApplied v then fail ErrNodesAlreadyCalculated
  else
    match root v with
    | None =>
        root ← alloc (setValue value (newNode key));
        _ ← modify (set_root (Some root));
        _ ← recordNewNode root;
        mret root
    | Some _ =>
        closestNode ← visitPathToKey key visit_closest None;
        closestNode ← match closestNode with Some l => mret l | None => split_root key end;
        insert_at closestNode key value
    end.

(** ** Removal *)
(** [compressNodePath] *)
Definition child_key (n : node) (acc : option (Key * child)) (e : Z * child) : MV (option (Key * child)) :=
  k ← lift (Extend (n_key n) [ToToken e.1 tokenSize; compressedKey e.2]);
  mret (Some (k, e.2)).
Definition compressNodePath (parent : option loc) (l : loc) : MV unit :=
  v ← get;
  if valueChangesApplied v then fail ErrNodesAlreadyCalculated
  else
    n ← deref l;
    if negb (base.size (n_children n) =? 1)%nat || n_hasValue n then mret tt
    else
      _ ← recordNodeDeleted l false;
      c ← foldM (child_key n) (entries (n_children n)) None;
      '(childKey, childEntry) ← must Panic c;
      match parent with
      | None =>
          root ← getNode childKey (c_hasValue childEntry);
          modify (set_root (Some root))
      | Some parent =>
          p ← deref parent;
          index ← lift (Token childKey (k_length (n_key p)) tokenSize);
          compressed ← lift (Skip childKey (k_length (n_key p) + tokenSize));
          _ ← update parent (fun p => Ok (setChildEntry index (mkChild compressed (c_id childEntry) (c_hasValue childEntry)) p));
          recordNodeChange parent
      end.
Record ancestors := mkAnc { grandParent : option loc; parent : option loc; nodeToDelete : option loc }.
Definition visit_ancestors (a : ancestors) (n : loc) : MV ancestors :=
  _ ← recordNodeChange n; mret (mkAnc (parent a) (nodeToDelete a) (Some n)).
Definition remove_found (key : Key) : MV unit :=
  a ← visitPathToKey key visit_ancestors (mkAnc None None None);
  l ← must Panic (nodeToDelete a);
  n ← deref l;
  let hadValue := n_hasValue n in
  _ ← update l (fun n => Ok (setValue None n));
  n ← deref l;
  if (base.size (n_children n) =? 0)%nat then
    _ ← recordNodeDeleted l hadValue;
    v ← get;
    r ← must Panic (root v);
    rn ← deref r;
    if bool_decide (n_key n = n_key rn) then modify (set_root None)
    else
      p ← must Panic (parent a);
      _ ← update p (removeChild n tokenSize);
      compressNodePath (grandParent a) p
  else compressNodePath (parent a) l.
Definition catch_not_found {A} (m : MV A) : MV (option A) := fun v =>
  match m v with
  | (v', Ok a) => (v', Ok (Some a))
  | (v', Err ErrNotFound) => (v', Ok None)
  | (v', Err e) => (v', Err e)
  end.
Definition remove (key : Key) : MV unit :=
  v ← get;
  if valueChangesApplied v then fail ErrNodesAlreadyCalculated
  else
    found ← catch_not_found (getNode key true);
    match found with
    | None => mret tt
    | Some l =>
        keyNode ← deref l;
        if negb (n_hasValue keyNode) then mret tt else remove_found key
    end.

(** ** Hashing
    [keyBuffer] is the whole array behind the slice of the source, from which the slices
    of the keys are taken.  [pool] says for which children a buffer of the pool is free;
    their subtree is then hashed by another goroutine, which works on nodes of its own
    and is waited for.  What [append] reserves beyond the requested size is not used. *)
Context (pool : Key -> option bytes).
Definition setBytesLength (b : bytes) (size : nat) : bytes :=
  if (size <=? length b)%nat then b else b ++ replicate (size - length b) 0.
Definition setLengthForChildren (n : node) (keyBuffer : bytes) : bytes :=
  let maxBitLength := foldl (fun m (e : Z * child) => Nat.max m (k_length (compressedKey e.2))) 0%nat (entries (n_children n)) in
  setBytesLength keyBuffer (bytesNeeded (k_length (n_key n) + tokenSize + maxBitLength)).
Definition setKeyBuffer (n : node) (keyBuffer : bytes) : bytes :=
  copy (setLengthForChildren n keyBuffer) (k_value (n_key n)).

Definition update_entry (l : loc) (index : Z) (f : child -> child) : MV unit :=
  update l (fun n => Ok (set_children (alter f index (n_children n)) n)).
Definition with_id (id : ID) (c : child) : child := mkChild (compressedKey c) id (c_hasValue c).
Definition with_hasValue (b : bool) (c : child) : child := mkChild (compressedKey c) (c_id c) b.

Section hash_child.
Context (hashChangedNode : loc -> bytes -> MV (ID * bytes)) (l : loc) (key : Key) (lastKeyByte : Z).
(** The buffer with the key of a child, and that key. *)
Definition child_buffer (keyBuffer : bytes) (e : Z * child) : R (bytes * Key) :=
  let childIndexAsKey := mkKey tokenSize [shl8 e.1 (dualBitIndex tokenSize)] in
  let totalBitLength := (k_length key + tokenSize + k_length (compressedKey e.2))%nat in
  let bytesForKey := bytesNeeded (k_length key) in
  let size := bytesNeeded totalBitLength in
  slice ← slice_to size keyBuffer;
  slice ← (if (0 <? bytesForKey)%nat then set_byte (bytesForKey - 1) lastKeyByte slice else Ok slice);
  slice ← extendIntoBuffer slice childIndexAsKey (k_length key);
  slice ← extendIntoBuffer slice (compressedKey e.2) (k_length key + tokenSize);
  Ok (slice ++ drop size keyBuffer, mkKey totalBitLength slice).
Definition hash_child (keyBuffer : bytes) (e : Z * child) : MV bytes :=
  r ← lift (child_buffer keyBuffer e);
  let '(keyBuffer, childKey) := r in
  v ← get;
  match nodes v !! childKey with
  | None => mret keyBuffer
  | Some childNodeChange =>
      lc ← must Panic (nc_after childNodeChange);
      childNode ← deref lc;
      _ ← update_entry l e.1 (with_hasValue (n_hasValue childNode));
      if (base.size (n_children childNode) =? 0)%nat then
        _ ← update_entry l e.1 (with_id (HashNode childNode));
        mret keyBuffer
      else
        match pool childKey with
        | Some childKeyBuffer =>
            r ← hashChangedNode lc (setKeyBuffer childNode childKeyBuffer);
            _ ← update_entry l e.1 (with_id r.1);
            mret keyBuffer
        | None =>
            r ← hashChangedNode lc (setLengthForChildren childNode keyBuffer);
            _ ← update_entry l e.1 (with_id r.1);
            mret r.2
        end
  end.
End hash_child.
Fixpoint hashChangedNode (fuel : nat) (l : loc) (keyBuffer : bytes) : MV (ID * bytes) :=
  match fuel with
  | O => fail OutOfFuel
  | S fuel =>
      n ← deref l;
      let bytesForKey := bytesNeeded (k_length (n_key n)) in
      lastKeyByte ← (if (0 <? bytesForKey)%nat then lift (index keyBuffer (bytesForKey - 1)) else mret 0);
      keyBuffer ← foldM (hash_child (hashChangedNode fuel) l (n_key n) lastKeyByte) (entries (n_children n)) keyBuffer;
      n ← deref l;
      mret (HashNode n, keyBuffer)
  end.
(** Every call goes to a changed node with a longer key. *)
Definition hash_fuel (v : view) : nat := S (S (map_fold (fun k (_ : nchange) m => Nat.max (k_length k) m) 0%nat (nodes v))).
Definition hashChangedNodes (keyBuffer : bytes) : MV unit :=
  v ← get;
  match root v with
  | None => modify (set_rootID Empty)
  | Some l =>
      root ← deref l;
      if (base.size (n_children root) =? 0)%nat then modify (set_rootID (HashNode root))
      else
        r ← hashChangedNode (hash_fuel v) l (setKeyBuffer root keyBuffer);
        modify (set_rootID r.1)
  end.

(** ** The changes of a view *)
Definition calculate_change (e : Key * vchange) : MV unit :=
  match vc_after e.2 with
  | None => remove e.1
  | Some value => _ ← insert e.1 (Some value); mret tt
  end.
Definition calculateNodeChanges : MV unit := v ← get; forM (entries (keyChanges v)) calculate_change.
Definition root_node (v : view) : option node := root v ≫= fun l => heap v !! l.
(** The body of [applyValueChangesOnce]; [valueChangesApplied] is set when it returns,
    with an error or without. *)
Definition apply_body (keyBuffer : bytes) : MV unit :=
  v ← get;
  let oldRoot := root_node v in
  _ ← calculateNodeChanges;
  _ ← hashChangedNodes keyBuffer;
  _ ← modify (fun v => set_rootChange (oldRoot, root v) v);
  v ← get;
  if invalidated v then fail ErrInvalid else mret tt.
Definition deferred {A} (d : view -> view) (m : MV A) : MV A := fun v => let '(v', r) := m v in (d v', r).
Definition applyValueChanges (keyBuffer : bytes) : MV unit :=
  v ← get;
  if once v then mret tt
  else
    deferred (set_once true)
      (if invalidated v then fail ErrInvalid else deferred (set_applied true) (apply_body keyBuffer)).
Definition GetMerkleRoot (keyBuffer : bytes) : MV ID := _ ← applyValueChanges keyBuffer; v ← get; mret (rootID v).

(** ** New views and reads *)
Definition recordValueChange (key : Key) (value : option bytes) (m : gmap Key vchange) : R (gmap Key vchange) :=
  match m !! key with
  | Some existing => Ok (<[key := mkVChange (vc_before existing) value]> m)
  | None =>
      match p_getValue key with
      | Ok before => Ok (<[key := mkVChange (Some before) value]> m)
      | Err ErrNotFound => Ok (<[key := mkVChange None value]> m)
      | Err e => Err e
      end
  end.
Definition key_le (a b : Key) : Prop := Compare a b <= 0.
#[local] Instance key_le_dec : RelDecision key_le.
Proof. intros a b. unfold key_le. apply _. Defined.
(** The operations of a batch, then those of a map in any order. *)
Definition newView (BatchOps : list BatchOp) (MapOps : list (bytes * option bytes)) : R view :=
  m ← foldR (fun m op => recordValueChange (ToKey (op_Key op)) (if op_Delete op then None else Some (op_Value op)) m) ∅ BatchOps;
  m ← foldR (fun m op => recordValueChange (ToKey op.1) op.2 m) m MapOps;
  let sorted := merge_sort key_le (keys (dom m)) in
  Ok (match p_getRoot with
      | Some r => mkView {[0%nat := clone r]} 1 (Some 0%nat) ∅ m sorted Empty (None, None) false false false
      | None => mkView ∅ 0 None ∅ m sorted Empty (None, None) false false false
      end).
Definition v_getValue (v : view) (key : Key) : R bytes :=
  if invalidated v then Err ErrInvalid
  else
    match keyChanges v !! key with
    | Some change => match vc_after change with None => Err ErrNotFound | Some value => Ok value end
    | None =>
        value ← p_getValue key;
        if invalidated v then Err ErrInvalid else Ok value
    end.
(** [getEditableNode]: a copy of the node that [getNode] finds. *)
Definition v_getEditableNode (v : view) (key : Key) (hadValue : bool) : R node :=
  if invalidated v then Err ErrInvalid
  else
    n ← match nodes v !! key with
        | Some nodeChange =>
            match nc_after nodeChange with
            | None => Err ErrNotFound
            | Some l => match heap v !! l with Some n => Ok n | None => Err Panic end
            end
        | None => p_getEditableNode key hadValue
        end;
    if invalidated v then Err ErrInvalid else Ok (clone n).
(** A view is the parent of the views on it. *)
Definition view_trie (v : view) : ParentTrie := {|
  p_getValue := v_getValue v;
  p_getEditableNode := v_getEditableNode v;
  p_getRoot := root_node v;
|}.
End view.
End MerkleView.
