(* ===== verification/MerkleViewFacts.v ===== *)
(** * The nodes of a view are the trie of its contents
    While a view applies its changes one by one, the nodes it has recorded are those of
    the trie of the current contents, up to the identifiers of recorded children, and
    everything it has not recorded is as in the parent ([inv]). *)
From stdpp Require Import sorting.
From S2P Require Import Prelude Monads GoLibrary MapOrder Sorting Database MerkleKey MerkleCodec MerkleSpec MerkleView.

Module MerkleViewFacts.
Import Sorting Database MerkleKey MerkleNode MerkleSpec MerkleView.
#[local] Notation "p ≼ q" := (prefix p q) (at level 70).

(** What a parent promises: it is the trie of some contents.  A node asked for in the
    wrong one of the two databases may be missing; [ok] are the faults of the storage. *)
Record trie_spec {H : Hasher} (ts : nat) (ok : MerkleErr -> Prop) (C : gmap path bytes) (P : ParentTrie) : Prop := {
  law_wf : wf_contents ts C;
  law_value k : wf_key ts k ->
    match p_getValue k with
    | Ok v => C !! tokens ts k = Some v
    | Err e => ok e \/ (e = ErrNotFound /\ C !! tokens ts k = None)
    end;
  law_node k hasValue : wf_key ts k ->
    match p_getEditableNode k hasValue with
    | Ok n => under C (tokens ts k) = Some (tokens ts k) /\ n = tnode ts C (tokens ts k)
    | Err e => ok e \/ (e = ErrNotFound /\ (under C (tokens ts k) = Some (tokens ts k) -> has C (tokens ts k) <> hasValue))
    end;
  law_root : p_getRoot = tnode ts C <$> root_path C;
}.

Section facts.
Context {H : Hasher} {P : ParentTrie} {okeys : KeyOrder Key} {ochildren : KeyOrder Z}.
Context (ts : nat) (Hsize : token_size ts) (ok : MerkleErr -> Prop) (Hok : ~ ok ErrNotFound).
Context (C0 : gmap path bytes) (HP : trie_spec ts ok C0 P).
Implicit Types (C : gmap path bytes) (p q r x : path) (v : view) (n : node) (l : loc) (S R : path -> Prop).
Abbreviation key_of := (key_of ts).
Abbreviation tnode := (tnode ts).
Abbreviation wf_path := (wf_path ts).
Abbreviation wf_contents := (wf_contents ts).

(** ** Nodes up to the identifiers of recorded children *)
Definition good_child R C p (t : Z) (c : option child) : Prop :=
  match c, under C (p ++ [t]) with
  | None, None => True
  | Some c, Some r =>
      compressedKey c = key_of (drop (length p + 1) r) /\
      (~ R r -> c_hasValue c = has C r /\ c_id c = HashNode (tnode C r))
  | _, _ => False
  end.
Record good R C p n : Prop := {
  g_key : n_key n = key_of p;
  g_value : n_value n = C !! p;
  g_digest : valueDigest n = digest (C !! p);
  g_children t : good_child R C p t (n_children n !! t);
}.
Definition recorded v p : Prop := is_Some (nodes v !! key_of p).
Definition after v p : option (option loc) := nc_after <$> nodes v !! key_of p.
Definition frame v := (keyChanges v, sortedKeys v, (valueChangesApplied v, once v, invalidated v)).

Record inv (F : gmap Key vchange * list Key * (bool * bool * bool)) v C : Prop := {
  i_wf : wf_contents C;
  i_frame : frame v = F;
  i_applied : valueChangesApplied v = false;
  i_fresh l : is_Some (heap v !! l) -> (l < next v)%nat;
  i_keys k : is_Some (nodes v !! k) -> wf_key ts k;
  i_nodes p a : wf_path p -> after v p = Some a ->
    match a with
    | Some l => under C p = Some p /\ exists n, heap v !! l = Some n /\ good (recorded v) C p n
    | None => under C p <> Some p
    end;
  i_clean p : wf_path p -> ~ recorded v p -> under C p = Some p \/ under C0 p = Some p -> agree C C0 p;
  i_up p q : wf_path p -> recorded v p -> under C p = Some p -> q ≼ p -> under C q = Some q -> recorded v q;
  i_root : match root v with
           | None => C = ∅
           | Some l => exists r n, root_path C = Some r /\ heap v !! l = Some n /\
               match after v r with Some a => a = Some l | None => n = tnode C r end
           end;
}.
(** [l] is the node of the trie at [q]. *)
Record at_node v C q l : Prop := {
  an_node : under C q = Some q;
  an_heap : exists n, heap v !! l = Some n /\ match after v q with Some a => a = Some l | None => n = tnode C q end;
  an_root : root_path C = Some q -> root v = Some l;
}.

Lemma has_value n R C p : good R C p n -> n_hasValue n = has C p.
Proof. intros Hg. unfold n_hasValue, has. by rewrite (g_value _ _ _ _ Hg). Qed.
Lemma good_tnode R C p : wf_contents C -> good R C p (tnode C p).
Proof.
  intros Hw. destruct (tnode_fields ts C p Hw) as (? & ? & ?). split; [done..|]. intros t. rewrite tnode_child by done. unfold good_child. destruct (under C (p ++ [t])) as [r|]; [|done]. cbn.
  split; [|done]. f_equal. f_equal. lia.
Qed.
Lemma good_mono R R' C p n : (forall r, R r -> R' r) -> good R C p n -> good R' C p n.
Proof.
  intros HR [? ? ? Hc]. split; [done..|]. intros t. specialize (Hc t). unfold good_child in *. destruct (n_children n !! t), (under C (p ++ [t])); try done.
  destruct Hc as [? Hc]. split; [done|]. intros Hn. apply Hc. auto.
Qed.
Lemma node_ext n n' : n_key n = n_key n' -> n_value n = n_value n' -> valueDigest n = valueDigest n' -> (forall t, n_children n !! t = n_children n' !! t) -> n = n'.
Proof.
  destruct n as [[vl ch] k d], n' as [[vl' ch'] k' d']. unfold n_value, n_children. cbn. intros -> -> -> Hc. do 2 f_equal. by apply map_eq.
Qed.
(** Without recorded children a node is that of the trie. *)
Lemma good_exact R C p n : wf_contents C -> good R C p n -> (forall t r, under C (p ++ [t]) = Some r -> ~ R r) -> n = tnode C p.
Proof.
  intros Hw [Hk Hv Hd Hc] Hn. destruct (tnode_fields ts C p Hw) as (Hk' & Hv' & Hd'). apply node_ext; [congruence..|]. intros t. rewrite tnode_child by done. specialize (Hc t). unfold good_child in Hc.
  destruct (n_children n !! t) as [[ck i b]|], (under C (p ++ [t])) as [r|] eqn:Hr; try done. cbn in *. destruct Hc as [-> Hc]. destruct (Hc (Hn t r Hr)) as [-> ->].
  unfold entry. by rewrite Nat.add_1_r.
Qed.
Lemma after_None v p : after v p = None <-> ~ recorded v p.
Proof. unfold after, recorded. destruct (nodes v !! key_of p); cbn; [|by split; [intros _ [? ?]|]]. split; [done|]. intros Hn. by destruct Hn. Qed.
Lemma after_recorded v p a : after v p = Some a -> recorded v p.
Proof. unfold after, recorded. by destruct (nodes v !! key_of p). Qed.
Lemma recorded_after v p : recorded v p -> exists a, after v p = Some a.
Proof. intros [ch Hch]. unfold after. rewrite Hch. by eexists. Qed.

Section inv.
Context {F : gmap Key vchange * list Key * (bool * bool * bool)}.
Implicit Types (Hi : forall v C, inv F v C).
Lemma node_wf v C p : inv F v C -> under C p = Some p -> wf_path p.
Proof. intros Hi Hu. eapply under_wf; [apply Hi|done]. Qed.
Lemma at_good v C q l : inv F v C -> at_node v C q l -> exists n, heap v !! l = Some n /\ good (recorded v) C q n.
Proof.
  intros Hi [Hu (n & Hn & Ha) _]. exists n. split; [done|]. pose proof (node_wf _ _ _ Hi Hu) as Hw. destruct (after v q) as [a|] eqn:Haq.
  - subst a. destruct (i_nodes _ _ _ Hi q (Some l) Hw Haq) as (_ & n' & Hn' & Hg). congruence.
  - subst n. apply good_tnode, Hi.
Qed.

(** ** Recording a node *)
Definition put v q b a : view := set_nodes (<[key_of q := mkNChange b a]> (nodes v)) v.
Lemma after_put v p q b a : wf_path p -> wf_path q -> after (put v q b a) p = if decide (p = q) then Some a else after v p.
Proof.
  intros Hp Hq. unfold after, put. cbn. destruct (decide (p = q)) as [->|Hne]; [by rewrite lookup_insert_eq|]. rewrite lookup_insert_ne; [done|]. intros Heq. by apply (key_of_inj ts Hsize) in Heq.
Qed.
Lemma recorded_put v p q b a : wf_path p -> wf_path q -> recorded (put v q b a) p <-> p = q \/ recorded v p.
Proof.
  intros Hp Hq. pose proof (after_put v p q b a Hp Hq) as Ha. pose proof (after_None (put v q b a) p) as H1. pose proof (after_None v p) as H2. rewrite Ha in H1.
  destruct (decide (p = q)) as [->|Hne]; [split; [by left|]; intros _; apply dec_stable; by intros Hn%H1|].
  assert (recorded (put v q b a) p <-> recorded v p) as ->; [|tauto].
  unfold recorded, put. cbn. rewrite lookup_insert_ne; [done|]. intros Heq. by apply (key_of_inj ts Hsize) in Heq.
Qed.
Lemma recordKeyChange_put v q a hv isnew : valueChangesApplied v = false ->
  (recorded v q \/ isnew = true \/ match p_getEditableNode (key_of q) hv with Ok _ => True | Err e => ok e end) ->
  wp ok (recordKeyChange (key_of q) a hv isnew) (fun _ v' => exists b, v' = put v q b a) v.
Proof.
  intros Hv Hc. unfold recordKeyChange. apply wp_bind, wp_get. rewrite Hv. destruct (nodes v !! key_of q) as [ch|] eqn:Hch; [apply wp_modify; by eexists|].
  destruct isnew; [apply wp_modify; by eexists|]. destruct Hc as [[? Hc]|[?|Hc]]; [congruence|done|]. apply wp_bind, wp_lift. destruct (p_getEditableNode (key_of q) hv); [|done]. apply wp_modify. by eexists.
Qed.
(** The parent has every node that is not recorded. *)
Lemma parent_node v C q : inv F v C -> under C q = Some q -> ~ recorded v q ->
  match p_getEditableNode (key_of q) (has C q) with Ok n => n = tnode C q | Err e => ok e end.
Proof.
  intros Hi Hu Hn. pose proof (node_wf _ _ _ Hi Hu) as Hw. pose proof (i_clean _ _ _ Hi q Hw Hn (or_introl Hu)) as Ha.
  pose proof (law_node _ _ _ _ HP (key_of q) (has C q) (key_of_wf ts Hsize q Hw)) as Hl. rewrite (tokens_key_of ts Hsize q Hw) in Hl.
  destruct (p_getEditableNode (key_of q) (has C q)) as [n|e].
  - destruct Hl as [_ ->]. symmetry. apply tnode_agree; [apply Hi|apply (law_wf _ _ _ _ HP)|done].
  - destruct Hl as [|[_ Hl]]; [done|]. exfalso. apply Hl; [by rewrite <- (under_agree _ _ _ Ha)|]. unfold has. by rewrite (Ha q) by done.
Qed.
Lemma inv_record v C q l b : inv F v C -> at_node v C q l -> (forall q', q' ≼ q -> q' <> q -> under C q' = Some q' -> recorded v q') -> inv F (put v q b (Some l)) C.
Proof.
  intros Hi Ha Hup. pose proof (node_wf _ _ _ Hi (an_node _ _ _ _ Ha)) as Hwq. destruct (at_good _ _ _ _ Hi Ha) as (n & Hn & Hg).
  assert (forall p, wf_path p -> recorded v p -> recorded (put v q b (Some l)) p) as Hmono by (intros p Hp Hr; apply recorded_put; tauto).
  assert (forall p n, good (recorded v) C p n -> good (recorded (put v q b (Some l))) C p n) as Hgood.
  { intros p m [? ? ? Hc]. split; [done..|]. intros t. specialize (Hc t). unfold good_child in *. destruct (n_children m !! t), (under C (p ++ [t])) as [r|] eqn:Hr; try done. destruct Hc as [? Hc]. split; [done|].
    intros Hnr. apply Hc. intros Hrr. apply Hnr, Hmono; [|done]. eapply under_wf; [apply Hi|done]. }
  split.
  - apply Hi.
  - rewrite <- (i_frame _ _ _ Hi). done.
  - apply Hi.
  - apply Hi.
  - intros k [ch Hk]. cbn in Hk. destruct (decide (k = key_of q)) as [->|Hne]; [by apply key_of_wf|]. rewrite lookup_insert_ne in Hk by done. eapply i_keys; [exact Hi|]. by eexists.
  - intros p a Hp. rewrite after_put by done. destruct (decide (p = q)) as [->|Hne].
    + intros [= <-]. split; [apply Ha|]. exists n. split; [done|by apply Hgood].
    + intros Hap. pose proof (i_nodes _ _ _ Hi p a Hp Hap) as Hin. destruct a as [l'|]; [|done]. destruct Hin as (? & n' & ? & ?). split; [done|]. exists n'. split; [done|by apply Hgood].
  - intros p Hp Hnr. apply (i_clean _ _ _ Hi p Hp). intros Hr. by apply Hnr, Hmono.
  - intros p q' Hp Hr Hu Hq Hu'. pose proof (node_wf _ _ _ Hi Hu') as Hw'. apply recorded_put; [done..|]. destruct (proj1 (recorded_put v p q b (Some l) Hp Hwq) Hr) as [->|Hr'].
    + destruct (decide (q' = q)); [by left|right; by apply Hup].
    + right. by apply (i_up _ _ _ Hi p).
  - pose proof (i_root _ _ _ Hi) as Hroot. change (root (put v q b (Some l))) with (root v). destruct (root v) as [lr|] eqn:Hr; [|done]. destruct Hroot as (r & m & Hrp & Hm & Haf).
    exists r, m. split; [done|]. split; [done|]. rewrite after_put by (done || by apply (under_wf ts C [] r (i_wf _ _ _ Hi))). destruct (decide (r = q)) as [->|]; [|done].
    pose proof (an_root _ _ _ _ Ha Hrp) as Hl. congruence.
Qed.
Lemma record_spec v C q l : inv F v C -> at_node v C q l -> (forall q', q' ≼ q -> q' <> q -> under C q' = Some q' -> recorded v q') ->
  wp ok (recordNodeChange l) (fun _ v' => inv F v' C /\ exists b, v' = put v q b (Some l)) v.
Proof.
  intros Hi Ha Hup. destruct (at_good _ _ _ _ Hi Ha) as (n & Hn & Hg). unfold recordNodeChange, deref. apply wp_bind, wp_bind, wp_get, wp_must. exists n. split; [done|].
  rewrite (g_key _ _ _ _ Hg), (has_value _ _ _ _ Hg). eapply wp_mono; [apply recordKeyChange_put; [apply Hi|]|].
  - destruct (after v q) as [a|] eqn:Haq; [left; by eapply after_recorded|]. apply after_None in Haq. right; right.
    pose proof (parent_node _ _ _ Hi (an_node _ _ _ _ Ha) Haq). by destruct (p_getEditableNode _ _).
  - intros [] v' [b ->]. split; [by apply inv_record|by eexists].
Qed.

(** ** The walk to a key *)
Lemma deref_wp l v n (Q : node -> view -> Prop) : heap v !! l = Some n -> Q n v -> wp ok (deref l) Q v.
Proof. intros Hl HQ. unfold deref. apply wp_bind, wp_get, wp_must. by exists n. Qed.
Lemma inv_push v C n : inv F v C -> inv F (push_heap n v) C.
Proof.
  intros Hi. assert (forall l m, heap v !! l = Some m -> heap (push_heap n v) !! l = Some m) as Hheap.
  { intros l m Hl. cbn. rewrite lookup_insert_ne; [done|]. pose proof (i_fresh _ _ _ Hi l ltac:(by eexists)). lia. }
  split; try apply Hi.
  - intros l. cbn. destruct (decide (l = next v)) as [->|Hne]; [lia|]. rewrite lookup_insert_ne by done. intros Hl. pose proof (i_fresh _ _ _ Hi l Hl). lia.
  - intros p a Hp Ha. pose proof (i_nodes _ _ _ Hi p a Hp Ha) as Hin. destruct a as [l|]; [|done]. destruct Hin as (? & m & ? & ?). split; [done|]. exists m. split; [by apply Hheap|done].
  - pose proof (i_root _ _ _ Hi) as Hr. change (root (push_heap n v)) with (root v). destruct (root v); [|done]. destruct Hr as (r & m & ? & ? & ?). exists r, m. split; [done|]. split; [by apply Hheap|done].
Qed.
Lemma at_node_push v C q l n : inv F v C -> at_node v C q l -> at_node (push_heap n v) C q l.
Proof.
  intros Hi [? (m & Hm & ?) ?]. split; [done| |done]. exists m. split; [|done]. cbn. rewrite lookup_insert_ne; [done|]. pose proof (i_fresh _ _ _ Hi l ltac:(by eexists)). lia.
Qed.
(** [getNode] finds the node of the trie, in the view or in the parent. *)
Lemma getNode_cases v C r hv : inv F v C -> under C r = Some r -> (~ recorded v r -> hv = has C r) ->
  wp ok (getNode (key_of r) hv) (fun l v' => (after v r = Some (Some l) /\ v' = v) \/ (after v r = None /\ l = next v /\ v' = push_heap (tnode C r) v)) v.
Proof.
  intros Hi Hu Hhv. pose proof (node_wf _ _ _ Hi Hu) as Hw. unfold getNode. apply wp_bind, wp_get. destruct (nodes v !! key_of r) as [ch|] eqn:Hch.
  - assert (after v r = Some (nc_after ch)) as Ha by (unfold after; by rewrite Hch). pose proof (i_nodes _ _ _ Hi r _ Hw Ha) as Hin. destruct (nc_after ch) as [l|]; [|done].
    apply wp_must. exists l. split; [done|]. by left.
  - assert (after v r = None) as Ha by (unfold after; by rewrite Hch). pose proof (proj1 (after_None v r) Ha) as Hn. pose proof (parent_node _ _ _ Hi Hu Hn) as Hp. rewrite (Hhv Hn).
    apply wp_bind, wp_lift. destruct (p_getEditableNode (key_of r) (has C r)) as [n|e]; [|done]. subst n. unfold alloc. apply wp_bind, wp_get, wp_bind, wp_modify, wp_ret. by right.
Qed.

Record walk v C x (vs : list (path * loc)) : Prop := {
  walk_nodes q : q ∈ vs.*1 <-> q ≼ x /\ under C q = Some q;
  walk_sorted : StronglySorted (fun a b : path => a ≼ b /\ a <> b) vs.*1;
  walk_after q l : (q, l) ∈ vs -> after v q = Some (Some l);
}.
(** Nodes on the way to a key lie above a given one, or below its entry. *)
Lemma node_dichotomy C q q' x : q ≼ x -> q' ≼ x -> under C q' = Some q' ->
  q' ≼ q \/ exists t r, x !! length q = Some t /\ under C (q ++ [t]) = Some r /\ r ≼ q'.
Proof.
  intros Hq Hq' Hu. destruct (prefix_total q' q x Hq' Hq) as [|Hqq]; [by left|]. destruct (decide (q = q')) as [->|Hne]; [by left|]. right.
  destruct (prefix_strict_snoc q q' Hqq Hne) as [t Ht]. destruct (under_mono C _ _ _ Ht Hu) as (r & Hr & Hrq). exists t, r. split_and!; [|done|done].
  assert (q ++ [t] ≼ x) as [_ ?]%prefix_snoc by by transitivity q'. done.
Qed.
Lemma walk_extend v C q l b vs x t r l' : inv F v C -> walk v C q (vs ++ [(q, l)]) -> under C q = Some q -> q ≼ x -> x !! length q = Some t ->
  under C (q ++ [t]) = Some r -> r ≼ x -> walk (put v r b (Some l')) C r ((vs ++ [(q, l)]) ++ [(r, l')]).
Proof.
  intros Hi [Hwn Hws Hwa] Hu Hq Ht Hr Hrx. pose proof (under_prefix _ _ _ Hr) as Hqr. assert (q ≼ r /\ q <> r) as [Hqr1 Hqr2].
  { split; [by apply prefix_snoc in Hqr as [? _]|]. intros ->. by apply not_snoc_prefix in Hqr. } pose proof (under_node _ _ _ Hr) as Hur.
  assert (wf_path r) as Hwr by by eapply node_wf. split.
  - intros q'. rewrite fmap_app, elem_of_app, Hwn. cbn. rewrite list_elem_of_singleton. split.
    + intros [[? ?]| ->]; [|done]. split; [by transitivity q|done].
    + intros [Hq' Hu']. destruct (node_dichotomy C q q' x Hq) as [?|(t' & r' & Ht' & Hr' & Hrq)]; [by transitivity r|done|by left|]. right. assert (t' = t) as -> by congruence. assert (r' = r) as -> by congruence. by apply prefix_eq.
  - rewrite fmap_app. apply StronglySorted_app_2; [|done|repeat constructor]. intros a c Ha Hc. cbn in Hc. apply list_elem_of_singleton in Hc as ->. apply Hwn in Ha as [Ha _].
    split; [by transitivity q|]. intros ->. apply Hqr2. by apply prefix_eq.
  - intros q' l2. rewrite elem_of_app, list_elem_of_singleton. intros [Hin|[= -> ->]]; [|by rewrite after_put, decide_True by done].
    assert (q' ≼ q /\ under C q' = Some q') as [Hq' Hu'] by (apply Hwn, list_elem_of_fmap; exists (q', l2); done). rewrite after_put, decide_False; [by apply Hwa| |by eapply node_wf|done].
    intros ->. apply Hqr2. by apply prefix_eq.
Qed.
Lemma walk_stop v C q vs x : walk v C q vs -> q ≼ x -> (forall q', q' ≼ x -> under C q' = Some q' -> q' ≼ q) -> walk v C x vs.
Proof.
  intros [Hn Hs Ha] Hq Hstop. split; [|done|done]. intros q'. rewrite Hn. split; intros [? ?]; (split; [|done]); [by transitivity q|by apply Hstop].
Qed.
Lemma walk_last_up v C q l vs q' : walk v C q (vs ++ [(q, l)]) -> q' ≼ q -> under C q' = Some q' -> recorded v q'.
Proof.
  intros Hw Hq Hu. assert (q' ∈ (vs ++ [(q, l)]).*1) as Hin by by apply (walk_nodes _ _ _ _ Hw). apply list_elem_of_fmap in Hin as ([q2 l2] & -> & Hin). apply (walk_after _ _ _ _ Hw) in Hin. by eapply after_recorded.
Qed.

Lemma ts_pos : (0 < ts)%nat.
Proof. by apply token_size_pos. Qed.
Lemma after_node v C q l : inv F v C -> wf_path q -> after v q = Some (Some l) -> under C q = Some q /\ exists n, heap v !! l = Some n /\ good (recorded v) C q n.
Proof. intros Hi Hq Ha. exact (i_nodes _ _ _ Hi q (Some l) Hq Ha). Qed.
Lemma after_at v C q l : inv F v C -> wf_path q -> after v q = Some (Some l) -> at_node v C q l.
Proof.
  intros Hi Hq Ha. destruct (after_node _ _ _ _ Hi Hq Ha) as (Hu & n & Hn & _). split; [done|exists n; by rewrite Ha|]. intros Hr. pose proof (i_root _ _ _ Hi) as Hroot.
  destruct (root v) as [lr|]; [|subst C; by destruct (under_key ∅ [] q Hr) as (k & [? Hk] & _)]. destruct Hroot as (r & m & Hrr & _ & Har). assert (r = q) as -> by congruence. rewrite Ha in Har. congruence.
Qed.
Lemma walk_nil v C x : (forall q, q ≼ x -> under C q <> Some q) -> walk v C x [].
Proof.
  intros Hn. split; [|constructor|].
  - intros q. split; [by intros ?%not_elem_of_nil|]. intros [? ?]. by destruct (Hn q).
  - by intros q l ?%not_elem_of_nil.
Qed.
Lemma root_below C q : under C q = Some q -> exists r, root_path C = Some r /\ r ≼ q.
Proof. intros Hu. apply (under_mono C [] q q); [apply prefix_nil|done]. Qed.
Lemma child_path q r x t : q ++ [t] ≼ r -> q ++ [t] ≼ x -> drop (length q + 1) r ≼ drop (length q + 1) x <-> r ≼ x.
Proof.
  intros [r' ->] [x' ->]. assert (length q + 1 = length (q ++ [t]))%nat as -> by (rewrite length_app; cbn; lia). rewrite !drop_app_length. split; [by apply prefix_app|apply prefix_app_inv].
Qed.

Section visit.
Context {A : Type} (f : A -> loc -> A) (a0 : A) (C : gmap path bytes) (x : path) (Hx : wf_path x).
Definition visitor (a : A) (l : loc) : MV A := _ ← recordNodeChange l; mret (f a l).
Definition visiting (k : nat) (s : loc * A) v : Prop :=
  inv F v C /\ exists vs q, s.2 = foldl f a0 (vs ++ [(q, s.1)]).*2 /\ walk v C q (vs ++ [(q, s.1)]) /\ q ≼ x /\ under C q = Some q /\ k = (length x - length q)%nat.
Definition visited (a : A) v : Prop := inv F v C /\ exists vs, a = foldl f a0 vs.*2 /\ walk v C x vs.
Lemma visit_turn k s v : visiting k s v ->
  wp ok (visit_step ts (key_of x) visitor s) (fun o v' => match o with inl s' => exists k', (k' < k)%nat /\ visiting k' s' v' | inr a => visited a v' end) v.
Proof.
  destruct s as [l a]. intros (Hi & vs & q & Hfold & Hwalk & Hq & Hu & ->). cbn [fst snd] in Hfold, Hwalk. subst a. pose proof (node_wf _ _ _ Hi Hu) as Hwq. assert ((q, l) ∈ vs ++ [(q, l)]) as Hin by (apply elem_of_app; right; by left).
  destruct (after_node _ _ _ _ Hi Hwq (walk_after _ _ _ _ Hwalk _ _ Hin)) as (_ & n & Hn & Hg). unfold visit_step. apply wp_bind. eapply deref_wp; [exact Hn|].
  rewrite (g_key _ _ _ _ Hg), !(key_of_length ts Hsize) by done. pose proof ts_pos as Hts. destruct (Nat.ltb_spec (ts * length q) (ts * length x)) as [Hlt|Hge].
  2: { apply Nat.mul_le_mono_pos_l in Hge; [|done]. apply wp_ret. split; [done|]. exists (vs ++ [(q, l)]). split; [done|]. by rewrite <- (prefix_length_eq q x Hq Hge). }
  apply Nat.mul_lt_mono_pos_l in Hlt; [|done]. destruct (lookup_lt_is_Some_2 x (length q) Hlt) as [t Ht]. assert (q ++ [t] ≼ x) as Hqt by (by apply prefix_snoc).
  apply wp_bind, wp_lift. rewrite (Token_key_of ts Hsize x (length q) t Hx Ht). pose proof (g_children _ _ _ _ Hg t) as Hc. unfold good_child in Hc.
  destruct (n_children n !! t) as [c|], (under C (q ++ [t])) as [r|] eqn:Hr; try done.
  2: { apply wp_ret. split; [done|]. eexists. split; [done|]. eapply walk_stop; [done|done|]. intros q' Hq' Hu'. destruct (node_dichotomy C q q' x Hq Hq' Hu') as [?|(t' & r & ? & Hr' & _)]; [done|]. by assert (t' = t) as -> by congruence; rewrite Hr in Hr'. }
  destruct Hc as [Hck Hcid]. assert (wf_path r) as Hwr by (eapply under_wf; [apply Hi|done]). pose proof (under_prefix _ _ _ Hr) as Hqr. pose proof (wf_path_drop ts (length q + 1) r Hwr) as Hwd.
  apply wp_bind, wp_lift. rewrite Hck. replace (ts * length q + ts)%nat with (ts * (length q + 1))%nat by lia. rewrite (iteratedHasPrefix_key_of ts Hsize) by (done || lia).
  destruct (bool_decide_reflect (drop (length q + 1) r ≼ drop (length q + 1) x)) as [Hpre|Hpre]; rewrite (child_path q r x t Hqr Hqt) in Hpre; cbn [negb].
  2: { apply wp_ret. split; [done|]. eexists. split; [done|]. eapply walk_stop; [done|done|]. intros q' Hq' Hu'. destruct (node_dichotomy C q q' x Hq Hq' Hu') as [?|(t' & r' & ? & Hr' & Hrq)]; [done|]. destruct Hpre.
       assert (t' = t) as -> by congruence. assert (r' = r) as -> by congruence. by transitivity q'. }
  assert (length q + 1 <= length r)%nat as Hlr by (apply prefix_length in Hqr; by rewrite length_app in Hqr).
  apply wp_bind, wp_lift. rewrite (key_of_length ts Hsize) by done. rewrite length_drop. replace (ts * (length q + 1) + ts * (length r - (length q + 1)))%nat with (ts * length r)%nat by nia.
  rewrite (Take_key_of ts Hsize) by done. assert (take (length r) x = r) as -> by (destruct Hpre as [? ->]; by rewrite take_app_length).
  pose proof (under_node _ _ _ Hr) as Hur. apply wp_bind. eapply wp_mono; [apply (getNode_cases v C r (c_hasValue c) Hi Hur)|].
  { intros Hnr. by apply Hcid. }
  assert (q <> r) as Hqne by (intros ->; by apply not_snoc_prefix in Hqr). assert (root_path C <> Some r) as Hnroot.
  { intros Hroot. destruct (root_below C q Hu) as (r' & Hr' & Hrq). assert (r' = r) as -> by congruence. apply Hqne, prefix_eq; [|done]. by apply prefix_snoc in Hqr as [? _]. }
  intros l' v1 Hv1. assert (inv F v1 C /\ at_node v1 C r l' /\ walk v1 C q (vs ++ [(q, l)])) as (Hi1 & Hat & Hwalk1).
  { destruct Hv1 as [[Har ->]|(Har & -> & ->)]; [split_and!; [done|by apply after_at|done]|]. split_and!; [by apply inv_push| |by destruct Hwalk; split].
    split; [done| |done]. exists (tnode C r). cbn. rewrite lookup_insert_eq. split; [done|]. change (after (push_heap (tnode C r) v) r) with (after v r). by rewrite Har. }
  apply wp_bind. unfold visitor. apply wp_bind. eapply wp_mono; [apply (record_spec v1 C r l' Hi1 Hat)|].
  { intros q' Hq' Hne Hu'. destruct (node_dichotomy C q q' x Hq) as [Hqq|(t' & r' & ? & Hr' & Hrq)]; [by transitivity r|done|by eapply walk_last_up|]. destruct Hne. assert (t' = t) as -> by congruence. assert (r' = r) as -> by congruence. by apply prefix_eq. }
  intros [] v2 [Hi2 [b ->]]. apply wp_ret, wp_ret. exists (length x - length r)%nat. split; [lia|]. split; [done|]. exists (vs ++ [(q, l)]), r. split_and!; try done.
  - cbn [fst snd]. by rewrite (fmap_app snd (vs ++ _)), foldl_app.
  - by eapply walk_extend.
Qed.
Lemma visit_spec v : inv F v C -> wp ok (visitPathToKey ts (key_of x) visitor a0) visited v.
Proof.
  intros Hi. unfold visitPathToKey. apply wp_bind, wp_get. pose proof (i_root _ _ _ Hi) as Hroot. destruct (root v) as [l|] eqn:Hrv.
  2: { apply wp_ret. split; [done|]. exists []. split; [done|]. apply walk_nil. intros q _ Hu. destruct (under_key _ _ _ Hu) as (k & [? Hk] & _). by subst C. }
  destruct Hroot as (r & n & Hr & Hn & Har). pose proof (under_node C [] r Hr) as Hur. pose proof (node_wf _ _ _ Hi Hur) as Hwr.
  assert (at_node v C r l) as Hat by (split; [done|by exists n|done]). destruct (at_good _ _ _ _ Hi Hat) as (n' & Hn' & Hg). assert (n' = n) as -> by congruence.
  apply wp_bind. eapply deref_wp; [exact Hn|]. apply wp_bind, wp_lift. rewrite (g_key _ _ _ _ Hg), (HasPrefix_key_of ts Hsize) by done. destruct (bool_decide_reflect (r ≼ x)) as [Hrx|Hrx]; cbn [negb].
  2: { apply wp_ret. split; [done|]. exists []. split; [done|]. apply walk_nil. intros q Hq Hu. destruct (root_below C q Hu) as (r' & Hr' & Hrq). assert (r' = r) as -> by congruence. apply Hrx. by transitivity q. }
  assert (forall q', q' ≼ r -> under C q' = Some q' -> q' = r) as Htop.
  { intros q' Hq' Hu'. destruct (root_below C q' Hu') as (r' & Hr' & Hrq). assert (r' = r) as -> by congruence. by apply prefix_eq. }
  apply wp_bind. unfold visitor at 1. apply wp_bind. eapply wp_mono; [apply (record_spec v C r l Hi Hat); intros q' Hq' Hne Hu'; by destruct Hne; apply Htop|].
  intros [] v1 [Hi1 [b ->]]. apply wp_ret. eapply (wp_loop ok OutOfFuel visiting _ _ _ _ (length x - length r)); [| |intros k s v2; apply visit_turn].
  - split; [done|]. exists [], r. split_and!; try done. split.
    + intros q. cbn. rewrite list_elem_of_singleton. split; [by intros ->|]. intros [? ?]. by apply Htop.
    + cbn. repeat constructor.
    + intros q l2 Hin. apply list_elem_of_singleton in Hin as [= -> ->]. by rewrite after_put, decide_True.
  - rewrite (key_of_length ts Hsize) by done. pose proof ts_pos. nia.
Qed.
End visit.

(** ** Changing the contents at one key
    What is off the way to the key stays; the nodes on the way are all recorded and are
    checked one by one. *)
Lemma agree_off C C' x p : (forall k, k <> x -> C' !! k = C !! k) -> ~ p ≼ x -> agree C C' p.
Proof. intros Ha Hn k Hk. symmetry. apply Ha. by intros ->. Qed.
Lemma good_child_off R R' C C' x p t c : wf_contents C -> wf_contents C' -> (forall k, k <> x -> C' !! k = C !! k) -> ~ p ++ [t] ≼ x ->
  (forall r, wf_path r -> R r -> R' r) -> good_child R C p t c -> good_child R' C' p t c.
Proof.
  intros Hw Hw' Hoff Hn HR Hc. pose proof (agree_off _ _ _ _ Hoff Hn) as Ha. unfold good_child in *. rewrite <- (under_agree _ _ _ Ha). destruct c as [c|], (under C (p ++ [t])) as [r|] eqn:Hr; try done.
  destruct Hc as [Hk Hc]. split; [done|]. intros Hnr. pose proof (under_wf ts C _ _ Hw Hr) as Hwr. pose proof (under_prefix _ _ _ Hr) as Hpr.
  assert (tnode C' r = tnode C r) as -> by (symmetry; apply tnode_agree; [done..|]; exact (agree_mono _ _ _ _ Ha Hpr)). unfold has. rewrite <- (Ha r Hpr). apply Hc. intros Hrr. by apply Hnr, HR.
Qed.
(** The child on the way to the key. *)
Lemma good_child_on R C p t c r : under C (p ++ [t]) = Some r -> compressedKey c = key_of (drop (length p + 1) r) ->
  (R r \/ (c_hasValue c = has C r /\ c_id c = HashNode (tnode C r))) -> good_child R C p t (Some c).
Proof. intros Hr Hk Hc. unfold good_child. rewrite Hr. split; [done|]. intros Hn. by destruct Hc. Qed.
Lemma good_intro R C p n : n_key n = key_of p -> n_value n = C !! p -> valueDigest n = digest (C !! p) -> (forall t, good_child R C p t (n_children n !! t)) -> good R C p n.
Proof. by intros; split. Qed.
Lemma root_clause v C r l n : root_path C = Some r -> root v = Some l -> heap v !! l = Some n -> after v r = Some (Some l) ->
  match root v with
  | None => C = ∅
  | Some l => exists r n, root_path C = Some r /\ heap v !! l = Some n /\ match after v r with Some a => a = Some l | None => n = tnode C r end
  end.
Proof. intros Hr Hv Hn Ha. rewrite Hv. exists r, n. by rewrite Ha. Qed.
Lemma rebuild v C v' C' x : inv F v C -> wf_path x -> wf_contents C' -> (forall k, k <> x -> C' !! k = C !! k) ->
  frame v' = F -> (forall l, is_Some (heap v' !! l) -> (l < next v')%nat) -> (forall k, is_Some (nodes v' !! k) -> wf_key ts k) ->
  (forall p, wf_path p -> recorded v p -> recorded v' p) ->
  (forall q, q ≼ x -> under C q = Some q \/ under C' q = Some q -> recorded v' q) ->
  (forall p, wf_path p -> ~ p ≼ x -> after v' p = after v p /\ forall l, after v p = Some (Some l) -> heap v' !! l = heap v !! l) ->
  (forall p a, p ≼ x -> after v' p = Some a -> match a with
     | Some l => under C' p = Some p /\ exists n, heap v' !! l = Some n /\ good (recorded v') C' p n
     | None => under C' p <> Some p end) ->
  match root v' with
  | None => C' = ∅
  | Some l => exists r n, root_path C' = Some r /\ heap v' !! l = Some n /\ match after v' r with Some a => a = Some l | None => n = tnode C' r end
  end ->
  inv F v' C'.
Proof.
  intros Hi Hx Hw' Hoff HF Hfresh Hkeys H0 H1 H2 H3 H4. split; try done.
  - unfold frame in HF. rewrite <- (i_frame _ _ _ Hi) in HF. unfold frame in HF. injection HF as _ _ -> _ _. apply Hi.
  - intros p a Hp Ha. destruct (decide (p ≼ x)) as [Hpx|Hpx]; [by apply H3|]. destruct (H2 p Hp Hpx) as [Heq Hheap]. rewrite Heq in Ha. pose proof (i_nodes _ _ _ Hi p a Hp Ha) as Hin.
    pose proof (agree_off _ _ _ _ Hoff Hpx) as Hag. rewrite <- (under_agree _ _ _ Hag). destruct a as [l|]; [|done]. destruct Hin as (Hu & n & Hn & Hg). split; [done|]. exists n. split; [by rewrite Hheap|].
    destruct Hg as [Hk Hv Hd Hc]. apply good_intro; [done|by rewrite <- (Hag p)|by rewrite <- (Hag p)|]. intros t. eapply (good_child_off _ _ C); [apply Hi|done|done| |done|apply Hc]. intros Hpt. apply Hpx. by apply prefix_snoc in Hpt as [? _].
  - intros p Hp Hnr Hu. assert (~ recorded v p) as Hnv by (intros ?; by apply Hnr, H0). destruct (decide (p ≼ x)) as [Hpx|Hpx].
    + exfalso. apply Hnr, H1; [done|]. destruct Hu as [Hu|Hu]; [by right|]. left. pose proof (i_clean _ _ _ Hi p Hp Hnv (or_intror Hu)) as Ha. by rewrite (under_agree _ _ _ Ha).
    + pose proof (agree_off _ _ _ _ Hoff Hpx) as Hag. apply (below_trans _ C); [by apply below_sym|]. apply (i_clean _ _ _ Hi p Hp Hnv). rewrite (under_agree _ _ _ Hag). done.
  - intros p q Hp Hr Hu Hq Hu'. destruct (decide (q ≼ x)) as [Hqx|Hqx]; [by apply H1; [|right]|]. assert (~ p ≼ x) as Hpx by (intros ?; apply Hqx; by transitivity p).
    pose proof (wf_path_prefix ts q p Hq Hp) as Hwq. apply H0; [done|].
    apply (i_up _ _ _ Hi p q Hp); [|rewrite (under_agree _ _ _ (agree_off _ _ _ _ Hoff Hpx)); done|done|rewrite (under_agree _ _ _ (agree_off _ _ _ _ Hoff Hqx)); done].
    destruct (recorded_after _ _ Hr) as [a Ha]. destruct (H2 p Hp Hpx) as [Heq _]. rewrite Heq in Ha. by eapply after_recorded.
Qed.

(** ** Insertion *)
Definition hset l n v : view := set_heap (<[l := n]> (heap v)) v.
Definition leaf x w : node := setValue (Some w) (newNode (key_of x)).
Definition child_to p r (id : ID) (b : bool) : child := mkChild (key_of (drop (length p + 1) r)) id b.

Lemma update_wp l v n (f : node -> R node) n' (Q : unit -> view -> Prop) : heap v !! l = Some n -> f n = Ok n' -> Q tt (hset l n' v) -> wp ok (update l f) Q v.
Proof. intros Hl Hf HQ. unfold update. apply wp_bind. eapply deref_wp; [exact Hl|]. apply wp_bind, wp_lift. rewrite Hf. by apply wp_modify. Qed.
Lemma alloc_wp n v (Q : loc -> view -> Prop) : Q (next v) (push_heap n v) -> wp ok (alloc n) Q v.
Proof. intros HQ. unfold alloc. by apply wp_bind, wp_get, wp_bind, wp_modify, wp_ret. Qed.
Lemma recordNewNode_wp l v n q (Q : unit -> view -> Prop) : heap v !! l = Some n -> n_key n = key_of q -> valueChangesApplied v = false -> (forall b, Q tt (put v q b (Some l))) -> wp ok (recordNewNode l) Q v.
Proof.
  intros Hl Hk Ha HQ. unfold recordNewNode. apply wp_bind. eapply deref_wp; [exact Hl|]. rewrite Hk. eapply wp_mono; [apply recordKeyChange_put; [done|by right; left]|]. intros [] v' [b ->]. apply HQ.
Qed.
Lemma push_lookup v n l m : heap v !! l = Some m -> (l < next v)%nat -> heap (push_heap n v) !! l = Some m.
Proof. intros Hl Hlt. cbn. rewrite lookup_insert_ne by lia. done. Qed.
Lemma snoc_length (p : path) (t : Z) : (length (p ++ [t]) = length p + 1)%nat.
Proof. by rewrite length_app. Qed.
(** The index and the rest of the key that lead from [p] to [r]. *)
Lemma entry_keys p r t : p ++ [t] ≼ r -> wf_path r ->
  Token (key_of r) (ts * length p) ts = Ok t /\ Skip (key_of r) (ts * length p + ts) = Ok (key_of (drop (length p + 1) r)).
Proof.
  intros [Hp Hl]%prefix_snoc Hr. split; [by apply (Token_key_of ts Hsize)|]. replace (ts * length p + ts)%nat with (ts * (length p + 1))%nat by lia. by apply (Skip_key_of ts Hsize).
Qed.
Lemma addChildWithID_to n c p r t id : n_key n = key_of p -> n_key c = key_of r -> p ++ [t] ≼ r -> wf_path r ->
  addChildWithID c ts id n = Ok (setChildEntry t (child_to p r id (n_hasValue c)) n).
Proof.
  intros Hn Hc Hp Hr. destruct (entry_keys p r t Hp Hr) as [Ht Hs]. assert (wf_path p) as Hwp by (eapply wf_path_prefix; [|exact Hr]; by apply prefix_snoc in Hp as [? _]).
  unfold addChildWithID. rewrite Hn, Hc, (key_of_length ts Hsize p) by done. rewrite Ht. cbn [mbind result_bind]. by rewrite Hs.
Qed.
Lemma insert_at_same l n v x w (Q : loc -> view -> Prop) : heap v !! l = Some n -> n_key n = key_of x -> Q l (hset l (setValue (Some w) n) v) -> wp ok (insert_at ts l (key_of x) (Some w)) Q v.
Proof.
  intros Hl Hk HQ. unfold insert_at. apply wp_bind. eapply deref_wp; [exact Hl|]. rewrite bool_decide_true by done. apply wp_bind. eapply update_wp; [exact Hl|done|]. by apply wp_ret.
Qed.
Lemma insert_at_leaf l n v p x t w (Q : loc -> view -> Prop) : heap v !! l = Some n -> (l < next v)%nat -> valueChangesApplied v = false -> n_key n = key_of p -> p ++ [t] ≼ x -> wf_path x ->
  n_children n !! t = None ->
  (forall b, Q (next v) (put (hset l (setChildEntry t (child_to p x Empty true) n) (push_heap (leaf x w) v)) x b (Some (next v)))) ->
  wp ok (insert_at ts l (key_of x) (Some w)) Q v.
Proof.
  intros Hl Hlt Ha Hk Hpx Hx Hn HQ. assert (wf_path p) as Hp by (eapply wf_path_prefix; [|exact Hx]; by apply prefix_snoc in Hpx as [? _]). unfold insert_at. apply wp_bind. eapply deref_wp; [exact Hl|].
  rewrite bool_decide_false by (rewrite Hk; intros Heq%(key_of_inj ts Hsize); [subst; by apply not_snoc_prefix in Hpx|done|done]).
  apply wp_bind, wp_lift. rewrite Hk, (key_of_length ts Hsize p Hp). destruct (entry_keys p x t Hpx Hx) as [-> _]. rewrite Hn.
  apply wp_bind, alloc_wp, wp_bind. eapply deref_wp; [cbn; by rewrite lookup_insert_eq|]. apply wp_bind. eapply update_wp; [by apply push_lookup| |].
  { unfold addChild. by apply (addChildWithID_to n (leaf x w) p x t). }
  apply wp_bind. eapply (recordNewNode_wp _ _ (leaf x w) x); [cbn; rewrite lookup_insert_ne by lia; by rewrite lookup_insert_eq|done|done|]. intros b. apply wp_ret. change (n_hasValue (leaf x w)) with true. apply HQ.
Qed.

Lemma good_patch R R' C C' x p n n' : wf_contents C -> wf_contents C' -> (forall k, k <> x -> C' !! k = C !! k) -> (forall r, wf_path r -> R r -> R' r) ->
  good R C p n -> n_key n' = n_key n -> n_value n' = C' !! p -> valueDigest n' = digest (C' !! p) ->
  (forall t, ~ p ++ [t] ≼ x -> n_children n' !! t = n_children n !! t) ->
  (forall t, p ++ [t] ≼ x -> good_child R' C' p t (n_children n' !! t)) -> good R' C' p n'.
Proof.
  intros Hw Hw' Hoff HR [Hk _ _ Hc] Hk' Hv Hd Hc1 Hc2. apply good_intro; [congruence|done..|]. intros t. destruct (decide (p ++ [t] ≼ x)) as [Ht|Ht]; [by apply Hc2|].
  rewrite (Hc1 t Ht). by apply (good_child_off R R' C C' x).
Qed.
Lemma insert_wf C x w : wf_contents C -> wf_path x -> wf_contents (<[x := w]> C).
Proof. intros Hw Hx k. destruct (decide (k = x)) as [->|Hne]; [done|]. rewrite lookup_insert_ne by done. apply Hw. Qed.
Lemma insert_off C x w k : k <> x -> <[x := w]> C !! k = C !! k.
Proof. intros Hne. by rewrite lookup_insert_ne. Qed.

(** A node above the last one on the way keeps its children. *)
Lemma node_above R v C x w cl p l' : inv F v C -> wf_path x -> (forall q, q ≼ x -> under C q = Some q -> recorded v q) -> under C cl = Some cl -> cl ≼ x ->
  p ≼ cl -> p <> cl -> after v p = Some (Some l') -> (forall r, wf_path r -> recorded v r -> R r) ->
  p <> x /\ under (<[x := w]> C) p = Some p /\ exists m, heap v !! l' = Some m /\ good R (<[x := w]> C) p m.
Proof.
  intros Hi Hx Hrec Hucl Hclx Hpcl Hne Ha HR. assert (p ≼ x) as Hp by by transitivity cl. assert (wf_path p) as Hwp by (eapply wf_path_prefix; [exact Hp|done]).
  destruct (after_node _ _ _ _ Hi Hwp Ha) as (Hu & m & Hm & Hg).
  assert (p <> x) as Hpx by (intros ->; by apply Hne, prefix_eq). split; [done|]. split; [rewrite under_insert, decide_True, Hu by done; by rewrite lcp_l|].
  exists m. split; [done|]. eapply (good_patch _ _ C); [apply Hi|apply insert_wf; [apply Hi|done]|apply insert_off|exact HR|exact Hg|done|rewrite insert_off by done; apply Hg|rewrite insert_off by done; apply Hg|done|].
  intros t Ht. assert (p ++ [t] ≼ cl) as Htcl.
  { destruct (prefix_strict_snoc p cl Hpcl Hne) as [t' Ht']. assert (p ++ [t'] ≼ x) as Htx by by transitivity cl. apply prefix_snoc in Ht as [_ Ht], Htx as [_ Htx]. by assert (t = t') as -> by congruence. }
  destruct (under_mono C _ _ _ Htcl Hucl) as (r & Hr & Hrcl). pose proof (g_children _ _ _ _ Hg t) as Hc. unfold good_child in Hc. rewrite Hr in Hc. destruct (n_children m !! t) as [c|]; [|done]. destruct Hc as [Hck _].
  eapply good_child_on; [|exact Hck|].
  - rewrite under_insert, decide_True, Hr by done. rewrite lcp_l; [done|by transitivity cl].
  - left. pose proof (under_node _ _ _ Hr) as Hur. apply HR; [by eapply node_wf|]. apply Hrec; [by transitivity cl|done].
Qed.
(** The state in which the entry for [x] goes into the node [n] at [cl]: the nodes on the
    way are recorded, and [n] is the last of them or a new root. *)
Record closest v C x w v1 cl l n : Prop := {
  cl_inv : inv F v C;
  cl_rec q : q ≼ x -> under C q = Some q -> recorded v q;
  cl_x : cl ≼ x;
  cl_last q : q ≼ x -> under C q = Some q -> q ≼ cl /\ under C cl = Some cl;
  cl_heap : heap v1 !! l = Some n;
  cl_good : good (recorded v1) C cl n;
  cl_frame : frame v1 = F;
  cl_fresh l' : is_Some (heap v1 !! l') -> (l' < next v1)%nat;
  cl_keys k : is_Some (nodes v1 !! k) -> wf_key ts k;
  cl_mono p : wf_path p -> recorded v p -> recorded v1 p;
  cl_after : after v1 cl = Some (Some l);
  cl_off p : wf_path p -> p <> cl -> after v1 p = after v p /\ forall l', after v p = Some (Some l') -> heap v1 !! l' = heap v !! l' /\ l' <> l;
  cl_root : exists r lr, root_path (<[x := w]> C) = Some r /\ root v1 = Some lr /\ after v1 r = Some (Some lr);
  cl_node : under (<[x := w]> C) cl = Some cl;
  cl_new p : p ≼ x -> under (<[x := w]> C) p = Some p -> under C p = Some p \/ p = x \/ p = cl;
}.
Section closest.
Context v C x w v1 cl l n (Hcl : closest v C x w v1 cl l n) (Hx : wf_path x).
Abbreviation C' := (<[x := w]> C).
Lemma cl_wf : wf_path cl.
Proof. eapply wf_path_prefix; [apply Hcl|done]. Qed.
Lemma cl_applied : valueChangesApplied v1 = false.
Proof. pose proof (i_applied _ _ _ (cl_inv _ _ _ _ _ _ _ _ Hcl)) as Ha. pose proof (cl_frame _ _ _ _ _ _ _ _ Hcl) as Hf. rewrite <- (i_frame _ _ _ (cl_inv _ _ _ _ _ _ _ _ Hcl)) in Hf. unfold frame in Hf. injection Hf. congruence. Qed.
Lemma cl_lt : (l < next v1)%nat.
Proof. eapply cl_fresh; [exact Hcl|]. rewrite (cl_heap _ _ _ _ _ _ _ _ Hcl). by eexists. Qed.
(** The other nodes on the way are as before. *)
Lemma cl_above R p a : p ≼ x -> p <> cl -> after v p = Some a -> (forall r, wf_path r -> recorded v r -> R r) ->
  match a with
  | Some l' => p <> x /\ under C' p = Some p /\ exists m, heap v !! l' = Some m /\ good R C' p m
  | None => p = x \/ under C' p <> Some p
  end.
Proof.
  pose proof (cl_inv _ _ _ _ _ _ _ _ Hcl) as Hi. intros Hp Hne Ha HR. assert (wf_path p) as Hwp by (eapply wf_path_prefix; [exact Hp|done]). pose proof (i_nodes _ _ _ Hi p a Hwp Ha) as Hin. destruct a as [l'|].
  - destruct Hin as (Hu & _). destruct (cl_last _ _ _ _ _ _ _ _ Hcl p Hp Hu) as [Hpcl Hucl]. apply (node_above _ v C x w cl); try done; apply Hcl.
  - destruct (decide (p = x)) as [|Hpx]; [by left|right]. intros Hu. by destruct (cl_new _ _ _ _ _ _ _ _ Hcl p Hp Hu) as [?|[?|?]].
Qed.
Lemma cl_root_heap r lr : after v1 r = Some (Some lr) -> wf_path r -> exists m, heap v1 !! lr = Some m.
Proof.
  intros Ha Hr. destruct (decide (r = cl)) as [->|Hne].
  - rewrite (cl_after _ _ _ _ _ _ _ _ Hcl) in Ha. injection Ha as <-. exists n. apply Hcl.
  - destruct (cl_off _ _ _ _ _ _ _ _ Hcl r Hr Hne) as [Heq Hh]. rewrite Heq in Ha. destruct (Hh lr Ha) as [-> _]. destruct (after_node _ _ _ _ (cl_inv _ _ _ _ _ _ _ _ Hcl) Hr Ha) as (_ & m & Hm & _). by exists m.
Qed.
Lemma finish_same : cl = x -> inv F (hset l (setValue (Some w) n) v1) C'.
Proof.
  intros Heq. pose proof (cl_inv _ _ _ _ _ _ _ _ Hcl) as Hi. assert (forall p, recorded (hset l (setValue (Some w) n) v1) p <-> recorded v1 p) as Hrec by done.
  apply (rebuild v C _ _ x Hi Hx); [apply insert_wf; [apply Hi|done]|apply insert_off|apply Hcl| |apply Hcl|apply Hcl| | | |].
  - intros l'. cbn. destruct (decide (l' = l)) as [->|Hne]; [intros _; apply cl_lt|]. rewrite lookup_insert_ne by done. apply Hcl.
  - intros q Hq Hu. destruct (decide (under C q = Some q)) as [Huq|Huq].
    { apply Hcl; [eapply wf_path_prefix; [exact Hq|done]|]. by apply (cl_rec _ _ _ _ _ _ _ _ Hcl). }
    destruct Hu as [|Hu]; [done|]. assert (q = cl) as -> by (destruct (cl_new _ _ _ _ _ _ _ _ Hcl q Hq Hu) as [?|[?|?]]; congruence). eapply after_recorded. apply Hcl.
  - intros p Hp Hpx. assert (p <> cl) as Hne by (intros ->; by apply Hpx, (cl_x _ _ _ _ _ _ _ _ Hcl)). destruct (cl_off _ _ _ _ _ _ _ _ Hcl p Hp Hne) as [Ha Hh]. split; [exact Ha|]. intros l' Hl'. destruct (Hh l' Hl') as [<- Hne'].
    cbn. by rewrite lookup_insert_ne.
  - intros p a Hp Ha. change (after v1 p = Some a) in Ha. assert (wf_path p) as Hwp by (eapply wf_path_prefix; [exact Hp|done]). destruct (decide (p = cl)) as [->|Hne].
    + rewrite (cl_after _ _ _ _ _ _ _ _ Hcl) in Ha. injection Ha as <-. split; [apply Hcl|]. exists (setValue (Some w) n). split; [cbn; by rewrite lookup_insert_eq|].
      eapply (good_patch (recorded v1) _ C _ x); [apply Hi|apply insert_wf; [apply Hi|done]|apply insert_off|done|apply Hcl|done| | |done|].
      * by rewrite Heq, lookup_insert_eq.
      * by rewrite Heq, lookup_insert_eq.
      * intros t Ht. exfalso. rewrite Heq in Ht. by apply not_snoc_prefix in Ht.
    + destruct (cl_off _ _ _ _ _ _ _ _ Hcl p Hwp Hne) as [Heqa Hh]. rewrite Heqa in Ha. pose proof (cl_above (recorded v1) p a Hp Hne Ha) as Hab. specialize (Hab (cl_mono _ _ _ _ _ _ _ _ Hcl)). destruct a as [l'|].
      * destruct Hab as (_ & Hu & m & Hm & Hg). split; [done|]. exists m. split; [|done]. destruct (Hh l' Ha) as [Hl Hne']. cbn. rewrite lookup_insert_ne by done. congruence.
      * destruct Hab as [->|]; [congruence|done].
  - destruct (cl_root _ _ _ _ _ _ _ _ Hcl) as (r & lr & Hr & Hlr & Har). assert (wf_path r) as Hwr by (eapply (under_wf ts C' []); [apply insert_wf; [apply Hi|done]|exact Hr]).
    destruct (cl_root_heap r lr Har Hwr) as [m Hm]. destruct (decide (lr = l)) as [->|Hne].
    + eapply (root_clause _ _ r l); [done|exact Hlr|cbn; by rewrite lookup_insert_eq|exact Har].
    + eapply (root_clause _ _ r lr); [done|exact Hlr|cbn; by rewrite lookup_insert_ne|exact Har].
Qed.
Lemma finish_leaf t b : cl ++ [t] ≼ x -> n_children n !! t = None ->
  inv F (put (hset l (setChildEntry t (child_to cl x Empty true) n) (push_heap (leaf x w) v1)) x b (Some (next v1))) C'.
Proof.
  intros Ht Hn. pose proof (cl_inv _ _ _ _ _ _ _ _ Hcl) as Hi. pose proof cl_lt as Hlt. set (v' := put _ _ _ _). pose proof cl_wf as Hwcl.
  assert (x <> cl) as Hxcl by (intros ->; by apply not_snoc_prefix in Ht).
  assert (forall p, wf_path p -> after v' p = if decide (p = x) then Some (Some (next v1)) else after v1 p) as Haf by (intros p Hp; subst v'; by rewrite after_put).
  assert (forall p, wf_path p -> recorded v' p <-> p = x \/ recorded v1 p) as Hrec by (intros p Hp; subst v'; by rewrite recorded_put).
  assert (under C (cl ++ [t]) = None) as Hnone. { pose proof (g_children _ _ _ _ (cl_good _ _ _ _ _ _ _ _ Hcl) t) as Hc. unfold good_child in Hc. rewrite Hn in Hc. by destruct (under C (cl ++ [t])). }
  assert (forall l' m, l' <> l -> heap v1 !! l' = Some m -> heap v' !! l' = Some m) as Hheap.
  { intros l' m Hne Hm. pose proof (cl_fresh _ _ _ _ _ _ _ _ Hcl l' ltac:(by eexists)). cbn. rewrite !lookup_insert_ne by (done || lia). done. }
  assert (heap v' !! l = Some (setChildEntry t (child_to cl x Empty true) n)) as Hl by (cbn; by rewrite lookup_insert_eq).
  apply (rebuild v C _ _ x Hi Hx); [apply insert_wf; [apply Hi|done]|apply insert_off|apply Hcl| | | | | | |].
  - intros l'. cbn. destruct (decide (l' = l)) as [->|Hne]; [lia|]. rewrite lookup_insert_ne by done. destruct (decide (l' = next v1)) as [->|Hne']; [lia|]. rewrite lookup_insert_ne by done. intros Hs. pose proof (cl_fresh _ _ _ _ _ _ _ _ Hcl l' Hs). lia.
  - intros k [ch Hk]. cbn in Hk. destruct (decide (k = key_of x)) as [->|Hne]; [by apply key_of_wf|]. rewrite lookup_insert_ne in Hk by done. eapply cl_keys; [exact Hcl|]. by eexists.
  - intros p Hp Hr. apply Hrec; [done|]. right. by apply Hcl.
  - intros q Hq Hu. assert (wf_path q) as Hwq by (eapply wf_path_prefix; [exact Hq|done]). apply Hrec; [done|]. destruct (decide (under C q = Some q)) as [Huq|Huq].
    { right. apply Hcl; [done|]. by apply (cl_rec _ _ _ _ _ _ _ _ Hcl). }
    destruct Hu as [|Hu]; [done|]. destruct (cl_new _ _ _ _ _ _ _ _ Hcl q Hq Hu) as [?|[->| ->]]; [done|by left|right]. eapply after_recorded. apply Hcl.
  - intros p Hp Hpx. assert (p <> cl) as Hne by (intros ->; by apply Hpx, (cl_x _ _ _ _ _ _ _ _ Hcl)). destruct (cl_off _ _ _ _ _ _ _ _ Hcl p Hp Hne) as [Ha Hh]. split.
    + rewrite Haf, decide_False by (done || by intros ->). done.
    + intros l' Hl'. destruct (Hh l' Hl') as [Heq Hne']. destruct (after_node _ _ _ _ Hi Hp Hl') as (_ & m & Hm & _). rewrite Hm in Heq. rewrite (Hheap l' m Hne' Heq). done.
  - intros p a Hp Ha. assert (wf_path p) as Hwp by (eapply wf_path_prefix; [exact Hp|done]). rewrite Haf in Ha by done. destruct (decide (p = x)) as [->|Hpx].
    + injection Ha as <-. split; [apply under_value; by rewrite lookup_insert_eq|]. exists (leaf x w). split; [cbn; rewrite lookup_insert_ne by lia; by rewrite lookup_insert_eq|].
      apply good_intro; [done|by rewrite lookup_insert_eq|by rewrite lookup_insert_eq|]. intros t'. unfold good_child. cbn. rewrite lookup_empty. rewrite under_insert, decide_False by apply not_snoc_prefix.
      destruct (under C (x ++ [t'])) as [r|] eqn:Hr; [|done]. destruct (under_mono C (cl ++ [t]) _ _ ltac:(etransitivity; [exact Ht|by eexists]) Hr) as (r' & Hr' & _). congruence.
    + destruct (decide (p = cl)) as [->|Hne].
      * rewrite (cl_after _ _ _ _ _ _ _ _ Hcl) in Ha. injection Ha as <-. split; [apply Hcl|]. eexists. split; [exact Hl|].
        eapply (good_patch (recorded v1) _ C _ x); [apply Hi|apply insert_wf; [apply Hi|done]|apply insert_off| |apply Hcl|done| | | |].
        -- intros r Hr Hrr. apply Hrec; [done|by right].
        -- rewrite insert_off by done. apply Hcl.
        -- rewrite insert_off by done. apply Hcl.
        -- intros t' Ht'. cbn. rewrite lookup_insert_ne; [done|]. by intros ->.
        -- intros t' Ht'. assert (t' = t) as -> by (apply prefix_snoc in Ht as [_ ?], Ht' as [_ ?]; congruence). cbn. rewrite lookup_insert_eq. eapply (good_child_on _ _ _ _ _ x); [|done|left; apply Hrec; [done|by left]].
           by rewrite under_insert, decide_True, Hnone by done.
      * destruct (cl_off _ _ _ _ _ _ _ _ Hcl p Hwp Hne) as [Heqa Hh]. rewrite Heqa in Ha. pose proof (cl_above (recorded v') p a Hp Hne Ha) as Hab. destruct a as [l'|].
        -- destruct Hab as (_ & Hu & m & Hm & Hg); [intros r Hr Hrr; apply Hrec; [done|right; by apply Hcl]|]. split; [done|]. exists m. split; [|done]. destruct (Hh l' Ha) as [Heq Hne']. apply Hheap; [done|congruence].
        -- destruct Hab as [->|]; [|done|done]. intros r Hr Hrr. apply Hrec; [done|right; by apply Hcl].
  - destruct (cl_root _ _ _ _ _ _ _ _ Hcl) as (r & lr & Hr & Hlr & Har). assert (wf_path r) as Hwr by (eapply (under_wf ts C' []); [apply insert_wf; [apply Hi|done]|exact Hr]).
    destruct (cl_root_heap r lr Har Hwr) as [m Hm]. assert (r <> x) as Hrx.
    { intros ->. destruct (under_mono C' [] cl cl (prefix_nil _) (cl_node _ _ _ _ _ _ _ _ Hcl)) as (r2 & Hr2 & Hr2cl). assert (r2 = x) as -> by (unfold root_path in Hr; congruence). by apply Hxcl, prefix_eq; [|apply Hcl]. }
    assert (after v' r = Some (Some lr)) as Har' by (rewrite Haf, decide_False by done; done). destruct (decide (lr = l)) as [->|Hne].
    + eapply (root_clause _ _ r l); [done|exact Hlr|exact Hl|exact Har'].
    + eapply (root_clause _ _ r lr); [done|exact Hlr|by eapply Hheap|exact Har'].
Qed.
End closest.

Lemma walk_last v C x vs cl l : walk v C x (vs ++ [(cl, l)]) ->
  cl ≼ x /\ under C cl = Some cl /\ after v cl = Some (Some l) /\ forall q, q ≼ x -> under C q = Some q -> q ≼ cl.
Proof.
  intros [Hn Hs Ha]. assert (cl ∈ (vs ++ [(cl, l)]).*1) as Hin by (rewrite fmap_app; apply elem_of_app; right; by left). destruct (proj1 (Hn cl) Hin) as [Hx Hu]. split_and!; [done|done|apply Ha, elem_of_app; right; by left|].
  intros q Hq Huq. pose proof (proj2 (Hn q) (conj Hq Huq)) as Hqin. rewrite fmap_app in Hqin, Hs. apply elem_of_app in Hqin as [Hqin|Hqin].
  - by destruct (StronglySorted_app_1_elem_of _ _ _ q cl Hs Hqin) as [? _]; [left|].
  - cbn in Hqin. by apply list_elem_of_singleton in Hqin as ->.
Qed.
Lemma walk_rec v C x vs q : walk v C x vs -> q ≼ x -> under C q = Some q -> recorded v q.
Proof.
  intros Hw Hq Hu. assert (q ∈ vs.*1) as Hin by by apply (walk_nodes _ _ _ _ Hw). apply list_elem_of_fmap in Hin as ([q2 l2] & -> & Hin). apply (walk_after _ _ _ _ Hw) in Hin. by eapply after_recorded.
Qed.
Lemma root_after v C r : inv F v C -> root_path C = Some r -> recorded v r -> exists lr, root v = Some lr /\ after v r = Some (Some lr).
Proof.
  intros Hi Hr Hrec. pose proof (i_root _ _ _ Hi) as Hroot. destruct (root v) as [lr|].
  - destruct Hroot as (r' & n & Hr' & _ & Ha). assert (r' = r) as -> by congruence. destruct (recorded_after _ _ Hrec) as [a Har]. rewrite Har in Ha. subst a. by exists lr.
  - subst C. by destruct (under_key ∅ [] r Hr) as (k & [? Hk] & _).
Qed.
Lemma new_node C x w p : p ≼ x -> under (<[x := w]> C) p = Some p -> under C p <> Some p -> p = x \/ exists q, under C p = Some q /\ ~ q ≼ x /\ p = lcp q x.
Proof.
  intros Hp Hu Hn. rewrite under_insert, decide_True in Hu by done. destruct (under C p) as [q|] eqn:Hq; [|left; congruence]. right. exists q. injection Hu as Hu. split_and!; [done| |done].
  intros Hqx. rewrite lcp_l in Hu by done. congruence.
Qed.
Lemma root_insert C x w r : root_path C = Some r -> root_path (<[x := w]> C) = Some (lcp r x).
Proof. intros Hr. unfold root_path in *. by rewrite under_insert, decide_True, Hr by apply prefix_nil. Qed.
Lemma closest_walk v C x w vs cl l : inv F v C -> walk v C x (vs ++ [(cl, l)]) -> (forall t, cl ++ [t] ≼ x -> under C (cl ++ [t]) = None) ->
  exists n, closest v C x w v cl l n.
Proof.
  intros Hi Hwalk Hnone. destruct (walk_last _ _ _ _ _ _ Hwalk) as (Hx & Hu & Ha & Hlast). pose proof (node_wf _ _ _ Hi Hu) as Hw. destruct (after_node _ _ _ _ Hi Hw Ha) as (_ & n & Hn & Hg). exists n.
  destruct (root_below C cl Hu) as (r & Hr & Hrcl). pose proof (under_node C [] r Hr) as Hur. assert (r ≼ x) as Hrx by by transitivity cl.
  split; try done; try apply Hi.
  - intros q. by eapply walk_rec.
  - intros q Hq Huq. split; [by apply Hlast|done].
  - intros p Hp Hne. split; [done|]. intros l' Hl'. split; [done|]. intros ->. destruct (after_node _ _ _ _ Hi Hp Hl') as (_ & n' & Hn' & Hg'). assert (n' = n) as -> by congruence.
    apply Hne. apply (key_of_inj ts Hsize); [done|done|]. rewrite <- (g_key _ _ _ _ Hg), <- (g_key _ _ _ _ Hg'). done.
  - destruct (root_after v C r Hi Hr) as (lr & ? & ?); [by eapply walk_rec|]. exists r, lr. split; [|done]. rewrite (root_insert C x w r Hr). by rewrite lcp_l.
  - rewrite under_insert, decide_True, Hu by done. by rewrite lcp_l.
  - intros p Hp Hup. destruct (decide (under C p = Some p)) as [|Hn']; [by left|right]. destruct (new_node C x w p Hp Hup Hn') as [?|(q & Hq & Hqx & ->)]; [by left|right].
    destruct (prefix_total (lcp q x) cl x Hp Hx) as [Hle|Hle].
    + destruct (under_mono C _ _ _ Hle Hu) as (q' & Hq' & Hqcl). assert (q' = q) as -> by congruence. destruct Hqx. by transitivity cl.
    + destruct (decide (cl = lcp q x)) as [|Hne]; [done|]. destruct (prefix_strict_snoc _ _ Hle Hne) as [t Ht]. assert (cl ++ [t] ≼ x) as Htx by by transitivity (lcp q x).
      destruct (under_mono C _ _ _ Ht Hq) as (r' & Hr' & _). by rewrite (Hnone t Htx) in Hr'.
Qed.
Lemma lcp_beyond r q x : ~ r ≼ x -> r ≼ q -> lcp q x = lcp r x.
Proof.
  intros Hr Hrq. apply prefix_eq.
  - apply lcp_spec. split; [|apply lcp_prefix_r]. destruct (prefix_total (lcp q x) r q (lcp_prefix_l _ _) Hrq) as [|Hle]; [done|]. destruct Hr. etransitivity; [exact Hle|apply lcp_prefix_r].
  - apply lcp_spec. split; [|apply lcp_prefix_r]. etransitivity; [apply lcp_prefix_l|done].
Qed.
Lemma lcp_next r x : ~ r ≼ x -> exists t, lcp r x ++ [t] ≼ r /\ ~ lcp r x ++ [t] ≼ x.
Proof.
  intros Hr. assert (lcp r x <> r) as Hne by (intros Heq; apply Hr; rewrite <- Heq; apply lcp_prefix_r). destruct (prefix_strict_snoc _ _ (lcp_prefix_l r x) Hne) as [t Ht].
  exists t. split; [done|]. intros Htx. apply (not_snoc_prefix (lcp r x) t). by apply lcp_spec.
Qed.
(** Between the entry towards [r] and the keys below there is nothing else. *)
Lemma under_only C p q r t : under C p = Some r -> p ≼ q -> q ++ [t] ≼ r -> under C (q ++ [t]) = Some r /\ forall t', t' <> t -> under C (q ++ [t']) = None.
Proof.
  intros Hu Hp Ht. split.
  - eapply under_between; [exact Hu| |exact Ht]. etransitivity; [exact Hp|]. by eexists.
  - intros t' Hne. apply under_None. intros k Hk Hk'. assert (r ≼ k) as Hrk. { eapply under_below; [exact Hu|done|]. etransitivity; [exact Hp|]. etransitivity; [|exact Hk']. by eexists. }
    assert (q ++ [t] ≼ k) as Htk by by transitivity r. apply prefix_snoc in Htk as [_ ?], Hk' as [_ ?]. congruence.
Qed.

(** A new root above the old one. *)
Lemma split_root_wp v C x w : inv F v C -> wf_path x -> walk v C x [] -> C <> ∅ ->
  wp ok (split_root ts (key_of x)) (fun l v1 => exists cl n, closest v C x w v1 cl l n /\ forall t, cl ++ [t] ≼ x -> n_children n !! t = None) v.
Proof.
  intros Hi Hx Hwalk HC. pose proof (i_root _ _ _ Hi) as Hroot. unfold split_root. apply wp_bind, wp_get, wp_bind, wp_must. destruct (root v) as [lr|] eqn:Hlr; [|done]. destruct Hroot as (r & n & Hr & Hn & Har). exists lr. split; [done|].
  pose proof (under_node C [] r Hr) as Hur. pose proof (node_wf _ _ _ Hi Hur) as Hwr. assert (at_node v C r lr) as Hat by (split; [done|by exists n|done]).
  assert (forall q, q ≼ x -> under C q <> Some q) as Hno. { intros q Hq Hu. assert (q ∈ @nil path) as Hin%not_elem_of_nil by by apply (walk_nodes _ _ _ _ Hwalk). done. }
  assert (~ r ≼ x) as Hrx by (intros ?; by apply (Hno r)). destruct (lcp_next r x Hrx) as (t & Ht & Htx). set (b := lcp r x) in *. assert (b ≼ x) as Hbx by apply lcp_prefix_r.
  assert (wf_path b) as Hwb by (eapply wf_path_prefix; [exact Hbx|done]). destruct (under_only C [] b r t Hr (prefix_nil _) Ht) as [Hut Hother].
  assert (under C b = Some r) as Hub by (eapply (under_between C []); [exact Hr|apply prefix_nil|apply lcp_prefix_l]).
  assert (C !! b = None) as Hvb. { destruct (C !! b) eqn:Hvb; [|done]. exfalso. apply (Hno b Hbx), under_value. by eexists. }
  destruct (at_good _ _ _ _ Hi Hat) as (n' & Hn' & Hg). assert (n' = n) as -> by congruence.
  apply wp_bind. eapply deref_wp; [exact Hn|]. apply wp_bind, wp_lift. rewrite (g_key _ _ _ _ Hg). replace 0%nat with (ts * 0)%nat by lia. rewrite (commonPrefix_key_of ts Hsize) by done. change (lcp r (drop 0 x)) with b.
  apply wp_bind, wp_lift. rewrite (Take_key_of ts Hsize) by done. assert (take (length b) r = b) as -> by (destruct (lcp_prefix_l r x) as [y Hy]; fold b in Hy; rewrite Hy at 1; by rewrite take_app_length).
  apply wp_bind, wp_lift. rewrite (addChildWithID_to _ n b r t) by (done || apply Hg). rewrite (has_value _ _ _ _ Hg).
  set (nr := setChildEntry t (child_to b r (HashNode n) (has C r)) (newNode (key_of b))). apply wp_bind, alloc_wp, wp_bind.
  eapply (recordNewNode_wp _ _ nr b); [cbn; by rewrite lookup_insert_eq|done|apply Hi|]. intros bb. apply wp_bind, wp_modify, wp_ret. exists b, nr.
  split; [|intros t' Ht'; cbn; rewrite lookup_insert_ne; [done|by intros ->]]. set (v1 := set_root _ _).
  assert (forall p, wf_path p -> after v1 p = if decide (p = b) then Some (Some (next v)) else after v p) as Haf by (intros p Hp; by apply (after_put (push_heap nr v))).
  assert (forall p, wf_path p -> recorded v1 p <-> p = b \/ recorded v p) as Hrec by (intros p Hp; by apply (recorded_put (push_heap nr v))).
  split; try done.
  - intros q Hq Hu. by destruct (Hno q).
  - intros q Hq Hu. by destruct (Hno q).
  - cbn. by rewrite lookup_insert_eq.
  - apply good_intro; [done|by rewrite Hvb|by rewrite Hvb|]. intros t'. cbn. destruct (decide (t' = t)) as [->|Hne].
    + rewrite lookup_insert_eq. eapply good_child_on; [exact Hut|done|]. destruct (decide (r = b)) as [Heq|Hrb]; [left; apply Hrec; [done|by left]|]. destruct (after v r) as [a|] eqn:Haa; [left; apply Hrec; [done|right; by eapply after_recorded]|].
      right. cbn. split; [done|]. by rewrite Har.
    + rewrite lookup_insert_ne by done. unfold good_child. rewrite (Hother t' Hne). done.
  - rewrite <- (i_frame _ _ _ Hi). done.
  - intros l'. cbn. destruct (decide (l' = next v)) as [->|Hne]; [lia|]. rewrite lookup_insert_ne by done. intros Hs. pose proof (i_fresh _ _ _ Hi l' Hs). lia.
  - intros k [ch Hk]. cbn in Hk. destruct (decide (k = key_of b)) as [->|Hne]; [by apply key_of_wf|]. rewrite lookup_insert_ne in Hk by done. eapply i_keys; [exact Hi|]. by eexists.
  - intros p Hp Hrp. apply Hrec; [done|by right].
  - rewrite Haf by done. by rewrite decide_True.
  - intros p Hp Hne. rewrite Haf, decide_False by done. split; [done|]. intros l' Hl'. destruct (after_node _ _ _ _ Hi Hp Hl') as (_ & m & Hm & _). pose proof (i_fresh _ _ _ Hi l' ltac:(by eexists)).
    split; [|lia]. cbn. by rewrite lookup_insert_ne by lia.
  - exists b, (next v). split; [by apply root_insert|]. split; [done|]. rewrite Haf by done. by rewrite decide_True.
  - rewrite under_insert, decide_True, Hub by done. done.
  - intros p Hp Hup. right. destruct (new_node C x w p Hp Hup (Hno p Hp)) as [?|(q & Hq & Hqx & ->)]; [by left|right]. apply lcp_beyond; [done|].
    destruct (under_mono C [] _ _ (prefix_nil _) Hq) as (r' & Hr' & Hrq). assert (r' = r) as -> by (unfold root_path in Hr; congruence). done.
Qed.

(** A branch [b] between the node at [p] and its child at [r], which [x] leaves. *)
Section branch.
Context v C x (w : bytes) (Hi : inv F v C) (Hx : wf_path x) vs p l (Hwalk : walk v C x (vs ++ [(p, l)])) n (Hn : heap v !! l = Some n) (Hg : good (recorded v) C p n).
Context t (Htx : p ++ [t] ≼ x) r (Hr : under C (p ++ [t]) = Some r) (Hrx : ~ r ≼ x) c (Hc : n_children n !! t = Some c).
Abbreviation C' := (<[x := w]> C).
Abbreviation b := (lcp r x).
Context t1 (Ht1 : b ++ [t1] ≼ r) (Ht1x : ~ b ++ [t1] ≼ x).
Definition branch_child : child := child_to b r (c_id c) (c_hasValue c).

Lemma br_pb : p ++ [t] ≼ b.
Proof. apply lcp_spec. split; [by eapply under_prefix|done]. Qed.
Lemma br_p : p ≼ x /\ under C p = Some p /\ after v p = Some (Some l) /\ forall q, q ≼ x -> under C q = Some q -> q ≼ p.
Proof. by eapply walk_last. Qed.
Lemma br_wf : wf_path r /\ wf_path b /\ wf_path p.
Proof.
  pose proof (under_wf ts C _ _ (i_wf _ _ _ Hi) Hr) as Hwr. split_and!; [done|by eapply wf_path_prefix; [apply lcp_prefix_l|]|]. eapply wf_path_prefix; [exact (proj1 br_p)|done].
Qed.
Lemma br_ne : p <> b /\ p <> x.
Proof. pose proof br_pb as Hpb. split; [intros Heq; rewrite <- Heq in Hpb; by apply not_snoc_prefix in Hpb|intros Heq; pose proof Htx as Ht; rewrite <- Heq in Ht; by apply not_snoc_prefix in Ht]. Qed.
Lemma br_under : under C b = Some r /\ under C (b ++ [t1]) = Some r /\ (forall t', t' <> t1 -> under C (b ++ [t']) = None) /\ C !! b = None.
Proof.
  pose proof br_pb as Hpb. destruct (under_only C (p ++ [t]) b r t1 Hr Hpb Ht1) as [? ?]. assert (under C b = Some r) as Hub by (eapply under_between; [exact Hr|done|apply lcp_prefix_l]). split_and!; try done.
  destruct (C !! b) eqn:Hv; [|done]. exfalso. assert (under C b = Some b) as Hub' by (apply under_value; by eexists). rewrite Hub in Hub'. injection Hub' as Heq. apply Hrx. rewrite Heq. apply lcp_prefix_r.
Qed.
Lemma br_new q : q ≼ x -> under C' q = Some q -> under C q <> Some q -> q = x \/ q = b.
Proof.
  intros Hq Hu Hnq. destruct (new_node C x w q Hq Hu Hnq) as [?|(q' & Hq' & Hqx & Heq)]; [by left|right]. destruct br_p as (Hpx & Hup & _ & _).
  destruct (prefix_total q p x Hq Hpx) as [Hle|Hle].
  - destruct (under_mono C _ _ _ Hle Hup) as (q2 & Hq2 & Hq2p). destruct Hqx. assert (q' = q2) as -> by congruence. by transitivity p.
  - assert (p <> q) as Hpq by (intros <-; done). destruct (prefix_strict_snoc _ _ Hle Hpq) as [t' Ht']. assert (p ++ [t'] ≼ x) as Htx' by by transitivity q.
    assert (t' = t) as -> by (apply prefix_snoc in Htx' as [_ ?]; pose proof Htx as [_ ?]%prefix_snoc; congruence). destruct (under_mono C _ _ _ Ht' Hq') as (r' & Hr' & Hrq). assert (r' = r) as -> by congruence.
    rewrite Heq. by apply lcp_beyond.
Qed.

(** The state after the branch is made: [n'] has the branch for the child, the branch
    leads to the child and, unless it is [x] itself, to the new leaf. *)
Context v' (lx : loc) (bn : node) (HF : frame v' = F) (Hfresh : forall l', is_Some (heap v' !! l') -> (l' < next v')%nat) (Hkeys : forall k, is_Some (nodes v' !! k) -> wf_key ts k) (Hroot : root v' = root v).
Context (Haf : forall q, wf_path q -> after v' q = if decide (q = b) then Some (Some (next v)) else if decide (q = x) then Some (Some lx) else after v q).
Context (Hl : heap v' !! l = Some (setChildEntry t (child_to p b Empty false) n)) (Hb : heap v' !! next v = Some bn) (Hlx : b <> x -> heap v' !! lx = Some (leaf x w)).
Context (Hsame : forall l', (l' < next v)%nat -> l' <> l -> heap v' !! l' = heap v !! l').
Context (Hbk : n_key bn = key_of b) (Hbv : n_value bn = if decide (b = x) then Some w else None) (Hbd : valueDigest bn = digest (n_value bn)) (Hb1 : n_children bn !! t1 = Some branch_child).
Context (Hbx : forall t2, b ++ [t2] ≼ x -> n_children bn !! t2 = Some (child_to b x Empty true)) (Hbo : forall t', t' <> t1 -> ~ b ++ [t'] ≼ x -> n_children bn !! t' = None).

Lemma br_recorded q : wf_path q -> recorded v' q <-> q = b \/ q = x \/ recorded v q.
Proof.
  intros Hq. pose proof (Haf q Hq) as Ha. destruct (decide (q = b)) as [Hqb|Hqb]; [split; [by left|intros _; by eapply after_recorded]|]. destruct (decide (q = x)) as [Hqx|Hqx]; [split; [by right; left|intros _; by eapply after_recorded]|].
  split; [intros [a Hr']%recorded_after; right; right; rewrite Ha in Hr'; by eapply after_recorded|]. intros [|[|Hr']]; [done|done|]. apply recorded_after in Hr' as [a Hr']. rewrite <- Ha in Hr'. by eapply after_recorded.
Qed.
Lemma br_mono q : wf_path q -> recorded v q -> recorded v' q.
Proof. intros Hq Hr'. apply br_recorded; [done|by right; right]. Qed.
Lemma br_good_b : under C' b = Some b /\ good (recorded v') C' b bn.
Proof.
  destruct br_under as (Hub & Hu1 & Hother & Hvb). destruct br_wf as (Hwr & Hwb & Hwp). pose proof (lcp_prefix_r r x) as Hbpx.
  assert (under C' b = Some b) as Hub' by (by rewrite under_insert, decide_True, Hub by done). split; [done|].
  assert (C' !! b = if decide (b = x) then Some w else None) as Hvb'. { case_decide as Hd; [rewrite Hd; by rewrite lookup_insert_eq|]. by rewrite lookup_insert_ne by done. }
  apply good_intro; [done|by rewrite Hbv, Hvb'|by rewrite Hbd, Hbv, Hvb'|]. intros t'. destruct (decide (t' = t1)) as [->|Hne].
  - rewrite Hb1. eapply (good_child_off (recorded v) _ C _ x); [apply Hi|apply insert_wf; [apply Hi|done]|apply insert_off|done|apply br_mono|]. eapply good_child_on; [exact Hu1|done|].
    pose proof (g_children _ _ _ _ Hg t) as Hcg. unfold good_child in Hcg. rewrite Hc, Hr in Hcg. destruct Hcg as [_ Hcg]. destruct (after v r) as [a|] eqn:Har; [left; by eapply after_recorded|right]. apply Hcg. by apply after_None.
  - destruct (decide (b ++ [t'] ≼ x)) as [Htb|Htb].
    + rewrite (Hbx t' Htb). eapply (good_child_on _ _ _ _ _ x); [|done|left; apply br_recorded; [done|by right; left]]. by rewrite under_insert, decide_True, Hother by done.
    + rewrite (Hbo t' Hne Htb). unfold good_child. by rewrite under_insert, decide_False, Hother by done.
Qed.
Lemma br_good_x : b <> x -> good (recorded v') C' x (leaf x w).
Proof.
  intros Hbne. apply good_intro; [done|by rewrite lookup_insert_eq|by rewrite lookup_insert_eq|]. intros t'. unfold good_child. cbn. rewrite lookup_empty, under_insert, decide_False by apply not_snoc_prefix.
  destruct (under C (x ++ [t'])) as [q|] eqn:Hq; [|done]. exfalso. assert (p ++ [t] ≼ x ++ [t']) as Hpt by (etransitivity; [exact Htx|by eexists]). destruct (under_mono C _ _ _ Hpt Hq) as (r' & Hr' & Hrq). assert (r' = r) as -> by congruence.
  apply under_prefix in Hq. assert (x ≼ q) as Hxq by by apply prefix_snoc in Hq as [? _]. destruct (prefix_total r x q Hrq Hxq) as [|Hxr]; [done|]. apply Hbne. by apply lcp_r.
Qed.
Lemma branch_inv : inv F v' C'.
Proof.
  destruct br_under as (Hub & Hu1 & Hother & Hvb). destruct br_wf as (Hwr & Hwb & Hwp). destruct br_p as (Hpx & Hup & Hap & Hlast). destruct br_ne as [Hpb Hpnx]. pose proof (lcp_prefix_r r x) as Hbpx.
  assert (forall q, q ≼ x -> under C q = Some q -> recorded v q) as Hrec by (intros q; by eapply walk_rec).
  assert (l < next v)%nat as Hlt by (apply (i_fresh _ _ _ Hi); by eexists).
  apply (rebuild v C _ _ x Hi Hx); [apply insert_wf; [apply Hi|done]|apply insert_off|done|done|done|apply br_mono| | | |].
  - intros q Hq Hu. assert (wf_path q) as Hwq by (eapply wf_path_prefix; [exact Hq|done]). apply br_recorded; [done|]. destruct (decide (under C q = Some q)) as [Huq|Huq]; [right; right; by apply Hrec|].
    destruct Hu as [|Hu]; [done|]. destruct (br_new q Hq Hu Huq); [by right; left|by left].
  - intros q Hq Hqx. rewrite Haf, !decide_False by (done || by intros ->). split; [done|]. intros l' Hl'. destruct (after_node _ _ _ _ Hi Hq Hl') as (_ & m & Hm & Hgm). apply Hsame; [apply (i_fresh _ _ _ Hi); by eexists|].
    intros ->. apply Hqx. assert (q = p) as ->; [|done]. apply (key_of_inj ts Hsize); [done..|]. rewrite <- (g_key _ _ _ _ Hg), <- (g_key _ _ _ _ Hgm). congruence.
  - intros q a Hq Ha. assert (wf_path q) as Hwq by (eapply wf_path_prefix; [exact Hq|done]). rewrite Haf in Ha by done. destruct (decide (q = b)) as [->|Hqb].
    { injection Ha as <-. destruct br_good_b as [? ?]. split; [done|]. by exists bn. }
    destruct (decide (q = x)) as [->|Hqx].
    { injection Ha as <-. split; [apply under_value; by rewrite lookup_insert_eq|]. exists (leaf x w). assert (b <> x) by (intros Heq; by apply Hqb). split; [by apply Hlx|by apply br_good_x]. }
    destruct (decide (q = p)) as [->|Hqp].
    + rewrite Hap in Ha. injection Ha as <-. split; [rewrite under_insert, decide_True, Hup by done; by rewrite lcp_l|]. eexists. split; [exact Hl|].
      eapply (good_patch (recorded v) _ C _ x); [apply Hi|apply insert_wf; [apply Hi|done]|apply insert_off|apply br_mono|exact Hg|done|rewrite insert_off by done; apply Hg|rewrite insert_off by done; apply Hg| |].
      * intros t' Ht'. cbn. rewrite lookup_insert_ne; [done|]. by intros ->.
      * intros t' Ht'. assert (t' = t) as -> by (pose proof Htx as [_ ?]%prefix_snoc; apply prefix_snoc in Ht' as [_ ?]; congruence). cbn. rewrite lookup_insert_eq.
        eapply good_child_on; [by rewrite under_insert, decide_True, Hr by done|done|left; apply br_recorded; [done|by left]].
    + pose proof (i_nodes _ _ _ Hi q a Hwq Ha) as Hin. destruct a as [l'|].
      * destruct Hin as (Huq & m0 & Hm0 & Hgm0). destruct (node_above (recorded v') v C x w p q l' Hi Hx Hrec Hup Hpx (Hlast q Hq Huq) Hqp Ha br_mono) as (_ & Hu' & m & Hm & Hgm). split; [done|]. exists m. split; [|done].
        rewrite Hsame; [done|apply (i_fresh _ _ _ Hi); by eexists|]. intros ->. apply Hqp. apply (key_of_inj ts Hsize); [done..|]. rewrite <- (g_key _ _ _ _ Hg), <- (g_key _ _ _ _ Hgm). congruence.
      * intros Hu'. by destruct (br_new q Hq Hu' Hin).
  - destruct (root_below C p Hup) as (r0 & Hr0 & Hr0p). pose proof (under_node C [] r0 Hr0) as Hur0. assert (r0 ≼ x) as Hr0x by by transitivity p. destruct (root_after v C r0 Hi Hr0 (Hrec _ Hr0x Hur0)) as (lr & Hlr & Har).
    assert (wf_path r0) as Hw0 by (eapply wf_path_prefix; [exact Hr0x|done]). pose proof br_pb as Hpbb.
    assert (r0 <> b) as Hr0b by (intros ->; apply (not_snoc_prefix p t); by etransitivity). assert (r0 <> x) as Hr0ne by (intros ->; apply Hpnx, prefix_eq; done).
    destruct (after_node _ _ _ _ Hi Hw0 Har) as (_ & m & Hm & _). assert (after v' r0 = Some (Some lr)) as Har' by (rewrite Haf, !decide_False by done; done).
    assert (root_path C' = Some r0) as Hrp by (rewrite (root_insert C x w r0 Hr0); by rewrite lcp_l).
    destruct (decide (lr = l)) as [->|Hne]; [eapply (root_clause _ _ r0 l); [done|by rewrite Hroot|exact Hl|done]|].
    eapply (root_clause _ _ r0 lr); [done|by rewrite Hroot|rewrite Hsame; [exact Hm|apply (i_fresh _ _ _ Hi); by eexists|done]|done].
Qed.
End branch.

Lemma lcp_drop (p r x : path) : p ≼ r -> p ≼ x -> lcp r x = p ++ lcp (drop (length p) r) (drop (length p) x).
Proof.
  intros [r' ->] [x' ->]. rewrite !drop_app_length. induction p as [|a p IH]; [done|]. cbn. by rewrite decide_True, IH.
Qed.
Lemma set_nodes_apps v m : frame (set_nodes m v) = frame v /\ next (set_nodes m v) = next v.
Proof. done. Qed.
Lemma keys_put v q b a : wf_path q -> (forall k, is_Some (nodes v !! k) -> wf_key ts k) -> forall k, is_Some (nodes (put v q b a) !! k) -> wf_key ts k.
Proof. intros Hq Hk k. cbn. destruct (decide (k = key_of q)) as [->|Hne]; [intros _; by apply key_of_wf|]. rewrite lookup_insert_ne by done. apply Hk. Qed.
Lemma fresh_push v n : (forall l, is_Some (heap v !! l) -> (l < next v)%nat) -> forall l, is_Some (heap (push_heap n v) !! l) -> (l < next (push_heap n v))%nat.
Proof. intros Hf l. cbn. destruct (decide (l = next v)) as [->|Hne]; [lia|]. rewrite lookup_insert_ne by done. intros Hs%Hf. lia. Qed.
Lemma fresh_hset v l n : (l < next v)%nat -> (forall l, is_Some (heap v !! l) -> (l < next v)%nat) -> forall l', is_Some (heap (hset l n v) !! l') -> (l' < next (hset l n v))%nat.
Proof. intros Hl Hf l'. cbn. destruct (decide (l' = l)) as [->|Hne]; [done|]. rewrite lookup_insert_ne by done. apply Hf. Qed.
Ltac heap_lookup := cbn [heap put hset set_nodes set_heap set_root push_heap next]; repeat (rewrite lookup_insert_eq || rewrite lookup_insert_ne by lia); try done.

Lemma insert_branch_wp v C x w vs p l n t r c : inv F v C -> wf_path x -> walk v C x (vs ++ [(p, l)]) -> heap v !! l = Some n -> good (recorded v) C p n ->
  p ++ [t] ≼ x -> under C (p ++ [t]) = Some r -> ~ r ≼ x -> n_children n !! t = Some c ->
  wp ok (insert_branch ts l (key_of x) (Some w) c) (fun _ v' => inv F v' (<[x := w]> C)) v.
Proof.
  intros Hi Hx Hwalk Hn Hg Htx Hr Hrx Hc. destruct (lcp_next r x Hrx) as (t1 & Ht1 & Ht1x). destruct (br_wf v C x Hi Hx vs p l Hwalk t r Hr) as (Hwr & Hwb & Hwp).
  pose proof (br_pb C x p t Htx r Hr) as Hpb. destruct (br_ne C x p t Htx r Hr) as [Hpb' Hpnx].
  pose proof (under_prefix _ _ _ Hr) as Hpr. pose proof (i_fresh _ _ _ Hi l ltac:(by eexists)) as Hlt. pose proof (lcp_prefix_l r x) as Hbr. pose proof (lcp_prefix_r r x) as Hbx.
  assert (compressedKey c = key_of (drop (length p + 1) r)) as Hck. { pose proof (g_children _ _ _ _ Hg t) as Hcg. unfold good_child in Hcg. rewrite Hc, Hr in Hcg. apply Hcg. }
  set (d := drop (length p + 1) r) in *. pose proof (wf_path_drop ts (length p + 1) r Hwr) as Hwd. fold d in Hwd.
  assert (lcp r x = (p ++ [t]) ++ lcp d (drop (length p + 1) x)) as Hlcp by (rewrite (lcp_drop (p ++ [t])) by done; by rewrite snoc_length).
  set (m := length (lcp d (drop (length p + 1) x))) in *. assert (length (lcp r x) = length p + 1 + m)%nat as Hlen by (rewrite Hlcp, !length_app; cbn; lia).
  pose proof Ht1 as [_ Ht1l]%prefix_snoc. pose proof ts_pos as Hts.
  assert (d !! m = Some t1) as Hdm. { subst d. rewrite lookup_drop. by replace (length p + 1 + m)%nat with (length (lcp r x)) by lia. } pose proof (lookup_lt_Some _ _ _ Hdm) as Hmd.
  unfold insert_branch. apply wp_bind. eapply deref_wp; [exact Hn|]. rewrite (g_key _ _ _ _ Hg), Hck, (key_of_length ts Hsize p) by done. replace (ts * length p + ts)%nat with (ts * (length p + 1))%nat by lia.
  apply wp_bind, wp_lift. rewrite (commonPrefix_key_of ts Hsize) by done. fold m. rewrite (key_of_length ts Hsize d) by done. destruct (Nat.leb_spec (ts * length d) (ts * m)) as [Hle|_]; [nia|].
  apply wp_bind, wp_lift. replace (ts * (length p + 1) + ts * m)%nat with (ts * length (lcp r x))%nat by nia. rewrite (Take_key_of ts Hsize) by done.
  assert (take (length (lcp r x)) x = lcp r x) as -> by (destruct Hbx as [y Hy]; rewrite Hy at 2; by rewrite take_app_length).
  apply wp_bind, alloc_wp, wp_bind. eapply deref_wp; [cbn; by rewrite lookup_insert_eq|]. apply wp_bind. eapply update_wp; [by apply push_lookup| |].
  { unfold addChild. by apply (addChildWithID_to n (newNode (key_of (lcp r x))) p (lcp r x) t); [apply Hg| | |]. }
  change (n_hasValue (newNode (key_of (lcp r x)))) with false. cbn [n_key newNode]. rewrite !(key_of_length ts Hsize) by done.
  assert (Token (key_of d) (ts * m) ts = Ok t1 /\ Skip (key_of d) (ts * m + ts) = Ok (key_of (drop (length (lcp r x) + 1) r))) as [Htok Hskip].
  { split; [by apply (Token_key_of ts Hsize)|]. replace (ts * m + ts)%nat with (ts * (m + 1))%nat by lia. rewrite (Skip_key_of ts Hsize) by done. subst d. rewrite drop_drop. do 3 f_equal. lia. }
  destruct (Nat.eqb_spec (ts * length x) (ts * length (lcp r x))) as [Heq|Hne].
  - assert (lcp r x = x) as Hbeq by (apply (prefix_length_eq _ _ Hbx); nia). apply wp_bind, wp_bind. eapply update_wp; [heap_lookup|done|]. apply wp_ret.
    apply wp_bind, wp_lift. rewrite Htok. apply wp_bind, wp_lift. rewrite Hskip. apply wp_bind. eapply update_wp; [heap_lookup|done|]. apply wp_bind.
    eapply (recordNewNode_wp _ _ _ (lcp r x)); [heap_lookup|done|apply Hi|]. intros b2. apply wp_ret.
    eapply (branch_inv v C x w Hi Hx vs p l Hwalk n Hn Hg t Htx r Hr Hrx c Hc t1 Ht1 Ht1x _ (next v)).
    + rewrite <- (i_frame _ _ _ Hi). done.
    + repeat (apply fresh_hset; [cbn; lia|] || apply fresh_push || apply Hi).
    + apply keys_put; [done|]. apply Hi.
    + done.
    + intros q Hq. rewrite after_put by done. destruct (decide (q = lcp r x)); [done|]. rewrite decide_False by congruence. done.
    + heap_lookup.
    + heap_lookup.
    + done.
    + intros l' Hl' Hne. heap_lookup.
    + done.
    + by rewrite decide_True.
    + done.
    + cbn. by rewrite lookup_insert_eq.
    + intros t2 Ht2. rewrite Hbeq in Ht2. by apply not_snoc_prefix in Ht2.
    + intros t' Hne _. cbn. by rewrite lookup_insert_ne by done.
  - assert (lcp r x <> x) as Hbne by (intros Heq; apply Hne; by rewrite Heq). destruct (prefix_strict_snoc _ _ Hbx Hbne) as [t2 Ht2].
    apply wp_bind, wp_bind, alloc_wp, wp_bind. eapply deref_wp; [heap_lookup|]. apply wp_bind. eapply update_wp; [heap_lookup| |].
    { unfold addChild. by apply (addChildWithID_to _ (leaf x w) (lcp r x) x t2). }
    apply wp_bind. eapply (recordNewNode_wp _ _ (leaf x w) x); [heap_lookup|done|apply Hi|]. intros b1. apply wp_ret.
    apply wp_bind, wp_lift. rewrite Htok. apply wp_bind, wp_lift. rewrite Hskip. apply wp_bind. eapply update_wp; [heap_lookup|done|]. apply wp_bind.
    eapply (recordNewNode_wp _ _ _ (lcp r x)); [heap_lookup|done|apply Hi|]. intros b2. apply wp_ret.
    assert (t2 <> t1) as Ht12 by (intros ->; done).
    eapply (branch_inv v C x w Hi Hx vs p l Hwalk n Hn Hg t Htx r Hr Hrx c Hc t1 Ht1 Ht1x _ (S (next v))).
    + rewrite <- (i_frame _ _ _ Hi). done.
    + repeat (apply fresh_hset; [cbn; lia|] || apply fresh_push || apply Hi).
    + apply keys_put; [done|]. apply keys_put; [done|]. apply Hi.
    + done.
    + intros q Hq. rewrite after_put by done. destruct (decide (q = lcp r x)); [done|]. change (after (hset _ _ (put ?a ?b0 ?c0 ?d0)) q) with (after (put a b0 c0 d0) q).
      rewrite after_put by done. done.
    + heap_lookup.
    + heap_lookup.
    + intros _. heap_lookup.
    + intros l' Hl' Hne'. heap_lookup.
    + done.
    + by rewrite decide_False.
    + done.
    + cbn. by rewrite lookup_insert_eq.
    + intros t3 Ht3. assert (t3 = t2) as -> by (apply prefix_snoc in Ht3 as [_ ?], Ht2 as [_ ?]; congruence). cbn. rewrite lookup_insert_ne by done. by rewrite lookup_insert_eq.
    + intros t' Hne' Htx'. cbn. rewrite lookup_insert_ne by done. rewrite lookup_insert_ne by (intros ->; done). done.
Qed.

Lemma foldl_last {A} (vs : list (path * A)) (a : option A) : foldl (fun _ (e : A) => Some e) a vs.*2 = match last vs with Some e => Some e.2 | None => a end.
Proof.
  revert a. induction vs as [|e vs IH]; intros a; [done|]. cbn [fmap list_fmap foldl]. rewrite IH. destruct vs as [|y vs]; [done|]. change (last (e :: y :: vs)) with (last (y :: vs)).
  destruct (last (y :: vs)) eqn:Hl; [done|by apply last_None in Hl].
Qed.
Lemma insert_empty v x w : inv F v ∅ -> root v = None -> wf_path x -> forall b, inv F (put (set_root (Some (next v)) (push_heap (leaf x w) v)) x b (Some (next v))) (<[x := w]> ∅).
Proof.
  intros Hi Hroot Hx b. set (v' := put _ _ _ _). assert (forall p, under (∅ : gmap path bytes) p = None) as Hnone by (intros p; apply under_None; by intros k [? ?]).
  assert (wf_contents (<[x := w]> ∅)) as Hw' by (apply insert_wf; [apply Hi|done]).
  assert (forall p, p ≼ x -> under (<[x := w]> (∅ : gmap path bytes)) p = Some x) as Hunder by (intros p Hp; by rewrite under_insert, decide_True, Hnone).
  assert (forall p, wf_path p -> after v' p = if decide (p = x) then Some (Some (next v)) else after v p) as Haf by (intros p Hp; by apply (after_put (set_root (Some (next v)) (push_heap (leaf x w) v)))).
  assert (heap v' !! next v = Some (leaf x w)) as Hl by (cbn; by rewrite lookup_insert_eq).
  apply (rebuild v ∅ _ _ x Hi Hx); [done|apply insert_off|rewrite <- (i_frame _ _ _ Hi); done| | | | | | |].
  - apply (fresh_push v). apply Hi.
  - apply keys_put; [done|apply Hi].
  - intros p Hp [a Ha]%recorded_after. apply (recorded_put (set_root (Some (next v)) (push_heap (leaf x w) v))); [done..|right; by eapply after_recorded].
  - intros q Hq [Hu|Hu]; [by rewrite Hnone in Hu|]. rewrite Hunder in Hu by done. injection Hu as <-. eapply after_recorded. rewrite Haf, decide_True by done. done.
  - intros p Hp Hpx. rewrite Haf, decide_False by (done || by intros ->). split; [done|]. intros l Hl'. destruct (after_node _ _ _ _ Hi Hp Hl') as (Hu & _). by rewrite Hnone in Hu.
  - intros p a Hp Ha. assert (wf_path p) as Hwp by (eapply wf_path_prefix; [exact Hp|done]). rewrite Haf in Ha by done. destruct (decide (p = x)) as [->|Hne].
    + injection Ha as <-. split; [by apply Hunder|]. exists (leaf x w). split; [done|]. apply good_intro; [done|by rewrite lookup_insert_eq|by rewrite lookup_insert_eq|]. intros t. unfold good_child. cbn.
      by rewrite lookup_empty, under_insert, decide_False, Hnone by apply not_snoc_prefix.
    + pose proof (i_nodes _ _ _ Hi p a Hwp Ha) as Hin. destruct a as [l|]; [destruct Hin as [Hu _]; by rewrite Hnone in Hu|]. rewrite Hunder by done. congruence.
  - eapply (root_clause _ _ x (next v)); [by apply Hunder, prefix_nil|done|exact Hl|]. by rewrite Haf, decide_True by done.
Qed.
(** [insert] of a value puts it into the trie. *)
Lemma insert_spec v C x w : inv F v C -> wf_path x -> wp ok (insert ts (key_of x) (Some w)) (fun _ v' => inv F v' (<[x := w]> C)) v.
Proof.
  intros Hi Hx. unfold insert. apply wp_bind, wp_get. rewrite (i_applied _ _ _ Hi). pose proof (i_root _ _ _ Hi) as Hroot. destruct (root v) as [l0|] eqn:Hrv.
  2: { subst C. apply wp_bind, alloc_wp, wp_bind, wp_modify, wp_bind. eapply (recordNewNode_wp _ _ (leaf x w) x); [heap_lookup|done|apply Hi|]. intros b. apply wp_ret. by apply insert_empty. }
  assert (C <> ∅) as HC. { destruct Hroot as (r & _ & Hr & _). intros ->. by destruct (under_key ∅ [] r Hr) as (k & [? Hk] & _). } clear l0 Hrv Hroot.
  apply wp_bind. eapply wp_mono; [apply (visit_spec (fun _ l => Some l) None C x Hx v Hi)|]. intros o v1 (Hi1 & vs & -> & Hwalk). rewrite foldl_last. clear v Hi.
  destruct vs as [|[cl l] vs _] using rev_ind.
  - apply wp_bind. eapply wp_mono; [apply (split_root_wp v1 C x w); done|]. intros l v2 (cl & n & Hcl & Hno). destruct (decide (cl = x)) as [Heq|Hne].
    + eapply insert_at_same; [apply Hcl|rewrite (g_key _ _ _ _ (cl_good _ _ _ _ _ _ _ _ Hcl)); by rewrite Heq|]. by eapply finish_same.
    + destruct (prefix_strict_snoc cl x (cl_x _ _ _ _ _ _ _ _ Hcl) Hne) as [t Ht]. eapply (insert_at_leaf l n _ cl x t w); [apply Hcl|by eapply cl_lt|by eapply cl_applied|apply Hcl|done|done|by apply Hno|].
      intros b. by eapply finish_leaf; [..|apply Hno].
  - rewrite last_snoc. cbn [snd]. apply wp_bind, wp_ret. destruct (walk_last _ _ _ _ _ _ Hwalk) as (Hclx & Hu & Ha & Hlast). pose proof (node_wf _ _ _ Hi1 Hu) as Hw. destruct (after_node _ _ _ _ Hi1 Hw Ha) as (_ & n & Hn & Hg).
    destruct (decide (cl = x)) as [Heq|Hne].
    + destruct (closest_walk v1 C x w vs cl l Hi1 Hwalk) as (n' & Hcl); [intros t Ht; rewrite Heq in Ht; by apply not_snoc_prefix in Ht|]. eapply insert_at_same; [apply Hcl|rewrite (g_key _ _ _ _ (cl_good _ _ _ _ _ _ _ _ Hcl)); by rewrite Heq|]. by eapply finish_same.
    + destruct (prefix_strict_snoc cl x Hclx Hne) as [t Ht]. pose proof (g_children _ _ _ _ Hg t) as Hc. unfold good_child in Hc. destruct (n_children n !! t) as [c|] eqn:Hnt, (under C (cl ++ [t])) as [r|] eqn:Hr; try done.
      * assert (~ r ≼ x) as Hrx. { intros Hrx. pose proof (under_node _ _ _ Hr) as Hur. pose proof (Hlast r Hrx Hur) as Hrcl. apply under_prefix in Hr. apply (not_snoc_prefix cl t). by transitivity r. }
        unfold insert_at. apply wp_bind. eapply deref_wp; [exact Hn|]. rewrite bool_decide_false by (rewrite (g_key _ _ _ _ Hg); by intros Heq%(key_of_inj ts Hsize)).
        apply wp_bind, wp_lift. rewrite (g_key _ _ _ _ Hg), (key_of_length ts Hsize cl) by done. destruct (entry_keys cl x t Ht Hx) as [-> _]. rewrite Hnt. by eapply insert_branch_wp.
      * destruct (closest_walk v1 C x w vs cl l Hi1 Hwalk) as (n' & Hcl). { intros t' Ht'. by assert (t' = t) as -> by (apply prefix_snoc in Ht' as [_ ?], Ht as [_ ?]; congruence). }
        assert (n' = n) as -> by (pose proof (cl_heap _ _ _ _ _ _ _ _ Hcl); congruence).
        eapply (insert_at_leaf l n _ cl x t w); [exact Hn|by eapply cl_lt|by eapply cl_applied|apply Hcl|done|done|done|]. intros b. by eapply finish_leaf.
Qed.

(** ** Removal
    Putting the key back undoes a removal, so [under_insert] ties what is below a path
    before and after. *)
Section removal.
Context v C x (w : bytes) (Hi : inv F v C) (Hw : C !! x = Some w) (Hrec : forall q, q ≼ x -> under C q = Some q -> recorded v q).
Abbreviation C' := (delete x C).

Lemma rm_off k : k <> x -> C' !! k = C !! k.
Proof. intros Hne. by rewrite lookup_delete_ne. Qed.
Lemma rm_wf : wf_contents C'.
Proof. intros k Hk. apply (i_wf _ _ _ Hi). destruct (decide (k = x)) as [->|Hne]; [by eexists|]. by rewrite lookup_delete_ne in Hk. Qed.
Lemma rm_x : wf_path x.
Proof. apply (i_wf _ _ _ Hi). by eexists. Qed.
Lemma rm_path p : p ≼ x -> wf_path p.
Proof. intros Hp. eapply wf_path_prefix; [exact Hp|apply rm_x]. Qed.
Lemma rm_under p : p ≼ x -> under C p = Some (match under C' p with None => x | Some q => lcp q x end).
Proof. intros Hp. rewrite <- (insert_delete_id C x w Hw) at 1. by rewrite under_insert, decide_True. Qed.
Lemma rm_back p : p ≼ x -> under C' p = Some p -> under C p = Some p.
Proof. intros Hp Hu. rewrite rm_under, Hu by done. by rewrite lcp_l. Qed.
Lemma rm_next p r : p ≼ x -> under C p = Some r -> under C' r = Some r -> under C' p = Some r.
Proof.
  intros Hp Hu Hr. destruct (under_mono C' p r r (under_prefix _ _ _ Hu) Hr) as (r' & Hr' & Hle). rewrite rm_under, Hr' in Hu by done. injection Hu as Heq.
  assert (r' = r) as ->; [|done]. apply prefix_eq; [done|]. rewrite <- Heq. apply lcp_prefix_l.
Qed.
Lemma rm_lost p : p ≼ x -> under C p = Some p -> under C' p <> Some p -> p = x \/ exists r, under C' p = Some r /\ ~ r ≼ x /\ p = lcp r x.
Proof. intros Hp Hu Hn. eapply (new_node _ _ w); [done| |done]. by rewrite insert_delete_id. Qed.

(** What has changed on the way to the key is enough. *)
Lemma remove_inv v' : frame v' = F -> (forall l, is_Some (heap v' !! l) -> (l < next v')%nat) -> (forall k, is_Some (nodes v' !! k) -> wf_key ts k) ->
  (forall p, wf_path p -> after v' p = after v p \/ (after v' p = Some None /\ p ≼ x /\ under C' p <> Some p)) ->
  (forall p l, p ≼ x -> under C p = Some p -> after v p = Some (Some l) -> after v' p = Some (Some l) -> under C' p = Some p /\ exists n, heap v' !! l = Some n /\ good (recorded v') C' p n) ->
  (forall p l, wf_path p -> ~ p ≼ x -> after v p = Some (Some l) -> heap v' !! l = heap v !! l) ->
  match root v' with
  | None => C' = ∅
  | Some l => exists r n, root_path C' = Some r /\ heap v' !! l = Some n /\ match after v' r with Some a => a = Some l | None => n = tnode C' r end
  end -> inv F v' C'.
Proof.
  intros HF Hfresh Hkeys Haf Hnodes Hheap Hroot.
  assert (forall p, wf_path p -> recorded v p -> recorded v' p) as Hmono.
  { intros p Hp [a Ha]%recorded_after. destruct (Haf p Hp) as [Heq|[Heq _]]; rewrite ?Ha in Heq; by eapply after_recorded. }
  apply (rebuild v C _ _ x Hi rm_x rm_wf rm_off); try done.
  - intros q Hq Hu. apply Hmono; [by apply rm_path|]. apply Hrec; [done|]. destruct Hu as [|Hu]; [done|by apply rm_back].
  - intros p Hp Hn. destruct (Haf p Hp) as [Heq|(_ & ? & _)]; [|done]. split; [done|]. intros l. by apply Hheap.
  - intros p a Hp Ha. destruct (Haf p (rm_path p Hp)) as [Heq|(Heq & _ & Hn)].
    + rewrite Ha in Heq. symmetry in Heq. destruct a as [l|].
      * destruct (after_node _ _ _ _ Hi (rm_path p Hp) Heq) as [Hu _]. by apply Hnodes.
      * pose proof (i_nodes _ _ _ Hi p None (rm_path p Hp) Heq) as Hin. intros Hu. by apply Hin, rm_back.
    + rewrite Ha in Heq. by injection Heq as ->.
Qed.
Lemma rm_root_keep v' r : root v' = root v -> root_path C = Some r -> under C' r = Some r ->
  (forall l, after v r = Some (Some l) -> after v' r = Some (Some l) /\ exists n, heap v' !! l = Some n) ->
  match root v' with
  | None => C' = ∅
  | Some l => exists r n, root_path C' = Some r /\ heap v' !! l = Some n /\ match after v' r with Some a => a = Some l | None => n = tnode C' r end
  end.
Proof.
  intros Hrv Hr Hu' Hl. pose proof (rm_next [] r (prefix_nil _) Hr Hu') as Hr'.
  assert (r ≼ x) as Hrx. { pose proof Hr as Hrr. unfold root_path in Hrr. rewrite (rm_under [] (prefix_nil _)) in Hrr. injection Hrr as <-. destruct (under C' []); [apply lcp_prefix_r|done]. }
  destruct (root_after v C r Hi Hr) as (lr & Hlr & Ha); [apply Hrec; [done|by apply rm_back]|]. destruct (Hl lr Ha) as (Ha' & n & Hn). eapply (root_clause _ _ r lr); [done|by rewrite Hrv|done|done].
Qed.

(** The state before the path is compressed at [c], which is [x] or the parent of the
    deleted leaf [x]; [m] is the node of [c] without what was removed. *)
Record removing v2 c l m : Prop := {
  rm_c : c ≼ x;
  rm_node : under C c = Some c;
  rm_last q : q ≼ x -> under C q = Some q -> q ≼ c \/ q = x;
  rm_loc : after v c = Some (Some l);
  rm_heap : heap v2 !! l = Some m;
  rm_key : n_key m = key_of c;
  rm_value : n_value m = C' !! c;
  rm_digest : valueDigest m = digest (C' !! c);
  rm_children t : good_child (recorded v) C' c t (n_children m !! t);
  rm_below t : c ++ [t] ≼ x -> under C' (c ++ [t]) = None;
  rm_some : exists k, is_Some (C' !! k) /\ c ≼ k;
  rm_after p : wf_path p -> after v2 p = if decide (p = x /\ c <> x) then Some None else after v p;
  rm_same p l' : wf_path p -> p <> x -> p <> c -> after v p = Some (Some l') -> heap v2 !! l' = heap v !! l' /\ l' <> l;
  rm_frame : frame v2 = F;
  rm_fresh l' : is_Some (heap v2 !! l') -> (l' < next v2)%nat;
  rm_keys k : is_Some (nodes v2 !! k) -> wf_key ts k;
  rm_root : root v2 = root v;
}.
Section compress.
Context v2 c l m (Hrm : removing v2 c l m).

Lemma rm_applied : valueChangesApplied v2 = false.
Proof. pose proof (i_applied _ _ _ Hi) as Ha. pose proof (rm_frame _ _ _ _ Hrm) as Hf. rewrite <- (i_frame _ _ _ Hi) in Hf. unfold frame in Hf. injection Hf. congruence. Qed.
Lemma rm_wfc : wf_path c.
Proof. apply rm_path, Hrm. Qed.
Lemma rm_gone : c <> x -> under C' x = None.
Proof.
  intros Hne. destruct (prefix_strict_snoc c x (rm_c _ _ _ _ Hrm) Hne) as [t Ht]. pose proof (rm_below _ _ _ _ Hrm t Ht) as Hn.
  apply under_None. intros k Hk Hx. apply (proj1 (under_None _ _) Hn k Hk). by transitivity x.
Qed.
Lemma rm_kept p : p ≼ c -> p <> c -> under C p = Some p -> under C' p = Some p.
Proof.
  intros Hp Hne Hu. destruct (decide (under C' p = Some p)) as [|Hn]; [done|]. exfalso. pose proof (rm_c _ _ _ _ Hrm) as Hc.
  destruct (rm_lost p ltac:(by transitivity c) Hu Hn) as [->|(r & Hr & Hrx & Heq)]; [by apply Hne, prefix_eq|].
  destruct (proj2 (under_is_Some C' c) (rm_some _ _ _ _ Hrm)) as [rc Hrc]. destruct (under_mono C' p c rc Hp Hrc) as (r' & Hr' & Hle). assert (r' = r) as -> by congruence.
  destruct (prefix_total r c rc Hle (under_prefix _ _ _ Hrc)) as [Hrc'|Hcr]; [apply Hrx; by transitivity c|].
  destruct (prefix_strict_snoc p c Hp Hne) as [t Ht]. apply (not_snoc_prefix p t). rewrite Heq at 2. apply lcp_spec. split; by transitivity c.
Qed.
(** A node above [c] whose child towards [x] is not touched. *)
Lemma rm_above R p l' : p ≼ c -> p <> c -> after v p = Some (Some l') -> (forall t, p ++ [t] ≼ c -> under C (p ++ [t]) = Some c -> under C' c = Some c) ->
  (forall r, wf_path r -> recorded v r -> R r) -> under C' p = Some p /\ exists n, heap v2 !! l' = Some n /\ good R C' p n.
Proof.
  intros Hp Hne Ha Hnext HR. pose proof (rm_c _ _ _ _ Hrm) as Hc. assert (p ≼ x) as Hpx by by transitivity c. destruct (after_node _ _ _ _ Hi (rm_path p Hpx) Ha) as (Hu & n & Hn & Hg).
  assert (p <> x) as Hnx by (intros ->; by apply Hne, prefix_eq). split; [by apply rm_kept|]. exists n. split; [by rewrite (proj1 (rm_same _ _ _ _ Hrm p l' (rm_path p Hpx) Hnx Hne Ha))|].
  eapply (good_patch _ _ C _ x); [apply Hi|apply rm_wf|apply rm_off|exact HR|exact Hg|done|rewrite rm_off by done; apply Hg|rewrite rm_off by done; apply Hg|done|].
  intros t Ht. destruct (prefix_strict_snoc p c Hp Hne) as [t' Ht']. assert (t' = t) as ->.
  { assert (p ++ [t'] ≼ x) as [_ H1]%prefix_snoc by by transitivity c. apply prefix_snoc in Ht as [_ H2]. congruence. }
  destruct (under_mono C _ _ _ Ht' (rm_node _ _ _ _ Hrm)) as (r & Hr & Hrc). pose proof (under_node _ _ _ Hr) as Hur.
  pose proof (g_children _ _ _ _ Hg t) as Hgc. unfold good_child in Hgc. rewrite Hr in Hgc. destruct (n_children n !! t) as [e|]; [|done]. destruct Hgc as [He _].
  assert (r ≼ x) as Hrx by by transitivity c. eapply good_child_on; [|exact He|left; apply HR; [by apply rm_path|by apply Hrec]]. apply rm_next; [done|done|].
  destruct (decide (r = c)) as [->|]; [by eapply Hnext|by apply rm_kept].
Qed.
Lemma rm_up_root r : root_path C = Some r -> r ≼ c.
Proof. intros Hr. destruct (root_below C c (rm_node _ _ _ _ Hrm)) as (r' & Hr' & ?). congruence. Qed.
Lemma rm_after_up p : p ≼ c -> after v2 p = after v p.
Proof.
  intros Hp. pose proof (rm_c _ _ _ _ Hrm) as Hc. rewrite (rm_after _ _ _ _ Hrm) by (apply rm_path; by transitivity c). rewrite decide_False; [done|]. intros [-> Hne]. by apply Hne, prefix_eq.
Qed.
Lemma rm_good R : under C' c = Some c -> (forall r, wf_path r -> recorded v r -> R r) -> good R C' c m.
Proof.
  intros Hu HR. apply good_intro; [apply Hrm..|]. intros t. pose proof (rm_children _ _ _ _ Hrm t) as Hc. unfold good_child in *. destruct (n_children m !! t) as [e|], (under C' (c ++ [t])) as [r|] eqn:Hr; try done.
  destruct Hc as [? Hc]. split; [done|]. intros Hn. apply Hc. intros Hrr. apply Hn, HR; [by eapply under_wf; [apply rm_wf|]|done].
Qed.
Lemma rm_recorded v' : (forall p, wf_path p -> after v' p = after v2 p \/ after v' p = Some None) -> forall p, wf_path p -> recorded v p -> recorded v' p.
Proof.
  intros Ha p Hp [a Hr]%recorded_after. pose proof (rm_after _ _ _ _ Hrm p Hp) as H2. destruct (Ha p Hp) as [Heq|Heq]; [|by eapply after_recorded].
  rewrite H2 in Heq. rewrite Hr in Heq. case_decide; by eapply after_recorded.
Qed.
(** [c] stays a node. *)
Lemma rm_keep : under C' c = Some c -> inv F v2 C'.
Proof.
  intros Hu. pose proof (rm_c _ _ _ _ Hrm) as Hc. pose proof (rm_recorded v2 ltac:(by left)) as Hmono. apply remove_inv; [apply Hrm|apply Hrm|apply Hrm| | | |].
  - intros p Hp. rewrite (rm_after _ _ _ _ Hrm p Hp). case_decide as Hd; [|by left]. right. destruct Hd as [-> Hne]. by rewrite rm_gone.
  - intros p l' Hp Hup Ha Ha'. destruct (decide (p = c)) as [->|Hne].
    + rewrite (rm_loc _ _ _ _ Hrm) in Ha. injection Ha as <-. split; [done|]. exists m. split; [apply Hrm|by apply rm_good].
    + destruct (rm_last _ _ _ _ Hrm p Hp Hup) as [Hpc|Hpx]; [by apply rm_above|]. rewrite (rm_after _ _ _ _ Hrm), decide_True in Ha' by (by apply rm_path || subst; naive_solver). done.
  - intros p l' Hp Hn Ha. apply (rm_same _ _ _ _ Hrm p); [done|by intros ->|by intros ->|done].
  - destruct (root_below C c (rm_node _ _ _ _ Hrm)) as (r & Hr & Hrc). pose proof (under_node C [] r Hr) as Hur. apply (rm_root_keep v2 r); [apply Hrm|done| |].
    + destruct (decide (r = c)) as [->|]; [done|by apply rm_kept].
    + intros lr Ha. split; [by rewrite rm_after_up|]. destruct (decide (r = c)) as [->|Hne]; [rewrite (rm_loc _ _ _ _ Hrm) in Ha; injection Ha as <-; exists m; apply Hrm|].
      assert (r ≼ x) as Hrx by by transitivity c. rewrite (proj1 (rm_same _ _ _ _ Hrm r lr (rm_path r Hrx) ltac:(intros ->; by apply Hne, prefix_eq) Hne Ha)).
      destruct (after_node _ _ _ _ Hi (rm_path r Hrx) Ha) as (_ & n & ? & _). by exists n.
Qed.

(** The only child [r] that is left takes the place of [c]. *)
Record collapsed t r (e : child) : Prop := {
  co_children : n_children m = {[t := e]};
  co_value : C' !! c = None;
  co_child : under C' (c ++ [t]) = Some r;
  co_under : under C' c = Some r;
  co_off : ~ r ≼ x;
  co_key : compressedKey e = key_of (drop (length c + 1) r);
  co_id : ~ recorded v r -> c_hasValue e = has C' r /\ c_id e = HashNode (tnode C' r);
}.
Lemma rm_cases : ((base.size (n_children m) <> 1)%nat \/ n_hasValue m = true) /\ under C' c = Some c \/
  base.size (n_children m) = 1%nat /\ n_hasValue m = false /\ exists t r e, collapsed t r e.
Proof.
  assert (n_hasValue m = bool_decide (is_Some (C' !! c))) as Hhv by (unfold n_hasValue; by rewrite (rm_value _ _ _ _ Hrm)).
  destruct (decide (is_Some (C' !! c))) as [Hv|Hv%eq_None_not_Some]; [left; split; [right; rewrite Hhv; by apply bool_decide_eq_true_2|by apply under_value]|].
  destruct (rm_some _ _ _ _ Hrm) as (k & Hk & Hck). assert (c <> k) as Hne by (intros ->; rewrite Hv in Hk; by destruct Hk).
  destruct (prefix_strict_snoc c k Hck Hne) as [t Ht]. assert (is_Some (under C' (c ++ [t]))) as Hst by (apply under_is_Some; by exists k). pose proof Hst as [r Hr].
  pose proof (rm_children _ _ _ _ Hrm t) as Hc. unfold good_child in Hc. rewrite Hr in Hc. destruct (n_children m !! t) as [e|] eqn:He; [|done]. destruct Hc as [Hkey Hid].
  assert (forall t', is_Some (n_children m !! t') <-> is_Some (under C' (c ++ [t']))) as Hiff.
  { intros t'. pose proof (rm_children _ _ _ _ Hrm t') as Hc. unfold good_child in Hc. destruct (n_children m !! t'), (under C' (c ++ [t'])); by try (split; intros [? ?]). }
  pose proof (map_size_delete t (n_children m)) as Hsize'. rewrite He in Hsize'. destruct (decide (delete t (n_children m) = ∅)) as [Hd|Hd].
  - assert (n_children m = {[t := e]}) as Hm by (rewrite <- (insert_delete_id _ _ _ He), Hd; done). right. split_and!; [by rewrite Hm, map_size_singleton|rewrite Hhv, Hv; done|].
    assert (forall t', t' <> t -> under C' (c ++ [t']) = None) as Hother.
    { intros t' Ht'. apply eq_None_not_Some. intros Hs%Hiff. rewrite Hm, lookup_singleton_ne in Hs by done. by destruct Hs. }
    exists t, r, e. split; try done.
    + by rewrite (under_one C' c t).
    + intros Hrx. assert (c ++ [t] ≼ x) as Htx by (etransitivity; [by eapply under_prefix|done]). by rewrite (rm_below _ _ _ _ Hrm t Htx) in Hr.
  - left. apply map_choose in Hd as (t' & e' & He'). rewrite lookup_delete_Some in He'. destruct He' as [Hne' He']. split.
    + left. assert (base.size (delete t (n_children m)) <> 0%nat) as Hz by (intros Hz%map_size_empty_inv; pose proof (lookup_delete_ne (n_children m) t t' Hne') as Hl; rewrite Hz, He', lookup_empty in Hl; done). lia.
    + apply (under_two C' c t t'); [done|done|]. apply Hiff. by eexists.
Qed.
Section collapse.
Context t r e (Hco : collapsed t r e).
Lemma co_wf : wf_path r /\ under C r = Some r /\ r <> x /\ ~ r ≼ c /\ c ++ [t] ≼ r /\ agree C C' r.
Proof.
  pose proof (co_off _ _ _ Hco) as Hoff. pose proof (co_child _ _ _ Hco) as Hu. pose proof (under_prefix _ _ _ Hu) as Hcr. pose proof (under_node _ _ _ Hu) as Hur.
  assert (agree C C' r) as Ha by (apply below_sym, agree_delete; done). split_and!; [|by rewrite (under_agree _ _ _ Ha)|by intros ->| |done|done].
  - eapply under_wf; [apply rm_wf|exact Hur].
  - intros Hrc. apply Hoff. by transitivity c; [|apply Hrm].
Qed.
Lemma co_lost : under C' c <> Some c.
Proof. rewrite (co_under _ _ _ Hco). intros [= Heq]. apply (co_off _ _ _ Hco). rewrite Heq. apply Hrm. Qed.
Lemma rm_collapse v' : frame v' = F -> (forall l', is_Some (heap v' !! l') -> (l' < next v')%nat) -> (forall k, is_Some (nodes v' !! k) -> wf_key ts k) ->
  (forall p, wf_path p -> after v' p = if decide (p = c) then Some None else after v2 p) ->
  (forall p l', p ≼ c -> p <> c -> under C p = Some p -> after v p = Some (Some l') -> under C' p = Some p /\ exists n, heap v' !! l' = Some n /\ good (recorded v') C' p n) ->
  (forall p l', wf_path p -> ~ p ≼ x -> after v p = Some (Some l') -> heap v' !! l' = heap v2 !! l') ->
  match root v' with
  | None => C' = ∅
  | Some l => exists r n, root_path C' = Some r /\ heap v' !! l = Some n /\ match after v' r with Some a => a = Some l | None => n = tnode C' r end
  end -> inv F v' C'.
Proof.
  intros HF Hfresh Hkeys Ha Hnodes Hheap Hroot. pose proof (rm_c _ _ _ _ Hrm) as Hc. apply remove_inv; try done.
  - intros p Hp. rewrite (Ha p Hp), (rm_after _ _ _ _ Hrm p Hp). destruct (decide (p = c)) as [->|Hne]; [right; split_and!; [done|done|apply co_lost]|].
    case_decide as Hd; [|by left]. right. destruct Hd as [-> Hne']. by rewrite rm_gone.
  - intros p l' Hp Hup Hap Hap'. rewrite (Ha p (rm_path p Hp)) in Hap'. destruct (decide (p = c)) as [|Hne]; [done|].
    destruct (rm_last _ _ _ _ Hrm p Hp Hup) as [Hpc|Hpx]; [by apply Hnodes|]. rewrite (rm_after _ _ _ _ Hrm), decide_True in Hap' by (by apply rm_path || subst; naive_solver). done.
  - intros p l' Hp Hn Hap. rewrite (Hheap p l' Hp Hn Hap). apply (rm_same _ _ _ _ Hrm p); [done|by intros ->|by intros ->|done].
Qed.

Lemma loc_inj p q l' : wf_path p -> wf_path q -> after v p = Some (Some l') -> after v q = Some (Some l') -> p = q.
Proof.
  intros Hp Hq Hap Haq. destruct (after_node _ _ _ _ Hi Hp Hap) as (_ & n & Hn & Hg), (after_node _ _ _ _ Hi Hq Haq) as (_ & n' & Hn' & Hg'). assert (n' = n) as -> by congruence.
  apply (key_of_inj ts Hsize); [done..|]. by rewrite <- (g_key _ _ _ _ Hg), <- (g_key _ _ _ _ Hg').
Qed.
(** What led to [c] leads to [r]. *)
Lemma co_next p : p ≼ c -> under C p = Some c -> under C' p = Some r.
Proof.
  intros Hp Hu. destruct (under_mono C' p c r Hp (co_under _ _ _ Hco)) as (r' & Hr' & Hle). pose proof (rm_c _ _ _ _ Hrm) as Hc. rewrite rm_under, Hr' in Hu by by transitivity c. injection Hu as Heq.
  assert (c ≼ r') as Hcr by (rewrite <- Heq; apply lcp_prefix_l). pose proof (under_between C' p r' c Hr' Hp Hcr) as Hb. rewrite (co_under _ _ _ Hco) in Hb. congruence.
Qed.
Lemma co_after p b : wf_path p -> after (put v2 c b None) p = if decide (p = c) then Some None else after v2 p.
Proof. intros Hp. apply after_put; [done|apply rm_wfc]. Qed.
Lemma co_after_r b : after (put v2 c b None) r = after v r.
Proof. destruct co_wf as (Hr & _ & Hrx & Hrc & _). rewrite co_after, decide_False, (rm_after _ _ _ _ Hrm), decide_False; [done|naive_solver|done|by intros ->|done]. Qed.
Lemma co_root b : (forall q, q ≼ c -> under C q = Some q -> q = c) ->
  wp ok (root ← getNode (key_of r) (c_hasValue e); modify (set_root (Some root))) (fun _ v' => inv F v' C') (put v2 c b None).
Proof.
  intros Htop. destruct co_wf as (Hr & Hur & Hrx & Hrc & _ & Hag). set (v3 := put v2 c b None). pose proof (co_after_r b) as Har. fold v3 in Har.
  assert (root_path C' = Some r) as Hroot. { destruct (root_below C c (rm_node _ _ _ _ Hrm)) as (r0 & Hr0 & Hle). pose proof (Htop r0 Hle (under_node C [] r0 Hr0)) as ->. apply (co_next []); [apply prefix_nil|done]. }
  assert (forall v', frame v' = F -> (forall l', is_Some (heap v' !! l') -> (l' < next v')%nat) -> nodes v' = nodes v3 -> (forall l' n, heap v2 !! l' = Some n -> heap v' !! l' = Some n) ->
    (exists l' n, root v' = Some l' /\ heap v' !! l' = Some n /\ match after v r with Some a => a = Some l' | None => n = tnode C' r end) -> inv F v' C') as Hfin.
  { intros v' HF Hfresh Hn Hheap (lr & n & Hlr & Hn' & Ha). assert (forall p, after v' p = after v3 p) as Haf by (intros p; unfold after; by rewrite Hn). apply rm_collapse; [done|done| | | | |].
    - rewrite Hn. apply keys_put; [apply rm_wfc|apply Hrm].
    - intros p Hp. rewrite Haf. by apply co_after.
    - intros p l' Hp Hne Hu. by destruct Hne; apply Htop.
    - intros p l' Hp Hpx Hap. destruct (after_node _ _ _ _ Hi Hp Hap) as (_ & n0 & Hn0 & _). rewrite <- (proj1 (rm_same _ _ _ _ Hrm p l' Hp ltac:(by intros ->) ltac:(intros ->; by apply Hpx, (rm_c _ _ _ _ Hrm)) Hap)) in Hn0. rewrite Hn0. by apply Hheap.
    - rewrite Hlr. exists r, n. by rewrite Haf, Har. }
  apply wp_bind. unfold getNode. apply wp_bind, wp_get. destruct (nodes v3 !! key_of r) as [ch|] eqn:Hch.
  - assert (after v r = Some (nc_after ch)) as Ha by (rewrite <- Har; unfold after; by rewrite Hch). pose proof (i_nodes _ _ _ Hi r _ Hr Ha) as Hin. destruct (nc_after ch) as [lr|]; [|done]. destruct Hin as (_ & n & Hn & _).
    apply wp_must. exists lr. split; [done|]. apply wp_modify, Hfin; [apply Hrm|apply Hrm|done|done|]. exists lr, n. split; [done|]. rewrite Ha. split; [|done].
    cbn. rewrite (proj1 (rm_same _ _ _ _ Hrm r lr Hr Hrx ltac:(by intros ->) Ha)). done.
  - assert (after v r = None) as Ha by (rewrite <- Har; unfold after; by rewrite Hch). pose proof (proj1 (after_None v r) Ha) as Hnr. pose proof (parent_node _ _ _ Hi Hur Hnr) as Hp.
    destruct (co_id _ _ _ Hco Hnr) as [Hhv _]. assert (has C' r = has C r) as Hhas by (unfold has; by rewrite (Hag r)). rewrite Hhv, Hhas. apply wp_bind, wp_lift.
    destruct (p_getEditableNode (key_of r) (has C r)) as [n|er]; [|done]. subst n. apply alloc_wp, wp_modify, Hfin; [apply Hrm| |done| |].
    + apply (fresh_push v3). apply Hrm.
    + intros l' n Hl. apply (push_lookup v3); [done|]. apply (rm_fresh _ _ _ _ Hrm). by eexists.
    + exists (next v3), (tnode C r). split; [done|]. rewrite Ha. split; [cbn; by rewrite lookup_insert_eq|]. apply tnode_agree; [apply Hi|apply rm_wf|done].
Qed.
Lemma co_inner g lg b : after v g = Some (Some lg) -> g ≼ c -> g <> c -> (forall q, q ≼ c -> q <> c -> under C q = Some q -> q ≼ g) ->
  wp ok (n ← deref lg; index ← lift (Token (key_of r) (k_length (n_key n)) ts); compressed ← lift (Skip (key_of r) (k_length (n_key n) + ts));
         _ ← update lg (fun n => Ok (setChildEntry index (mkChild compressed (c_id e) (c_hasValue e)) n)); recordNodeChange lg)
    (fun _ v' => inv F v' C') (put v2 c b None).
Proof.
  intros Hag Hg Hgc Hlast. destruct co_wf as (Hr & Hur & Hrx & Hrc & Hcr & Hagr). pose proof (rm_c _ _ _ _ Hrm) as Hc. assert (g ≼ x) as Hgx by by transitivity c.
  pose proof (rm_path g Hgx) as Hwg. assert (g <> x) as Hgnx by (intros ->; by apply Hgc, prefix_eq). destruct (after_node _ _ _ _ Hi Hwg Hag) as (Hug & n & Hn & Hgood).
  destruct (rm_same _ _ _ _ Hrm g lg Hwg Hgnx Hgc Hag) as [Hheap _]. rewrite <- Hheap in Hn. destruct (prefix_strict_snoc g c Hg Hgc) as [tg Htg].
  assert (c ≼ r) as Hcr' by by apply prefix_snoc in Hcr as [? _]. assert (g ++ [tg] ≼ r) as Htr by by transitivity c. destruct (entry_keys g r tg Htr Hr) as [Htok Hskip].
  assert (under C (g ++ [tg]) = Some c) as Hugc. { destruct (under_mono C _ _ _ Htg (rm_node _ _ _ _ Hrm)) as (c' & Hc' & Hle). destruct (decide (c' = c)) as [->|Hne]; [done|]. exfalso. apply (not_snoc_prefix g tg). transitivity c'; [by eapply under_prefix|]. apply Hlast; [done|done|by eapply under_node]. }
  pose proof (co_next _ Htg Hugc) as Hugr. set (v3 := put v2 c b None).
  apply wp_bind. eapply deref_wp; [exact Hn|]. rewrite (g_key _ _ _ _ Hgood), (key_of_length ts Hsize g) by done. rewrite Htok, Hskip. do 2 apply wp_bind, wp_lift. apply wp_bind. eapply update_wp; [exact Hn|done|].
  set (ce := mkChild _ _ _). unfold recordNodeChange. apply wp_bind. eapply deref_wp; [cbn; by rewrite lookup_insert_eq|]. change (n_key (setChildEntry tg ce n)) with (n_key n). rewrite (g_key _ _ _ _ Hgood).
  eapply wp_mono; [apply recordKeyChange_put; [exact rm_applied|left]|].
  { apply (after_recorded v3 g (Some lg)). unfold v3. by rewrite co_after, decide_False, rm_after_up. }
  intros [] v' [b' ->]. set (v' := put _ _ _ _).
  assert (forall p, wf_path p -> after v' p = if decide (p = c) then Some None else after v2 p) as Haf.
  { intros p Hp. unfold v'. rewrite after_put by done. case_decide as Hd; [subst p; rewrite decide_False by done; by rewrite rm_after_up|]. by apply co_after. }
  assert (forall p, wf_path p -> recorded v p -> recorded v' p) as Hmono.
  { apply rm_recorded. intros p Hp. rewrite Haf by done. case_decide; [by right|by left]. }
  assert (forall p l' n, wf_path p -> p <> g -> after v p = Some (Some l') -> heap v2 !! l' = Some n -> heap v' !! l' = Some n) as Hkeep.
  { intros p l' n' Hp Hne Ha Hl. cbn. rewrite lookup_insert_ne; [done|]. intros <-. by apply Hne, (loc_inj p g lg). }
  assert (forall p l', p ≼ c -> p <> c -> under C p = Some p -> after v p = Some (Some l') -> under C' p = Some p /\ exists n, heap v' !! l' = Some n /\ good (recorded v') C' p n) as Hnodes.
  { intros p l' Hp Hne Hu Ha. assert (wf_path p) as Hwp by (apply rm_path; by transitivity c). destruct (decide (p = g)) as [->|Hpg].
    - assert (l' = lg) as -> by congruence. split; [by eapply rm_kept|]. exists (setChildEntry tg ce n). split; [cbn; by rewrite lookup_insert_eq|].
      eapply (good_patch (recorded v) _ C _ x); [apply Hi|apply rm_wf|apply rm_off|exact Hmono|exact Hgood|done|rewrite rm_off by done; apply Hgood|rewrite rm_off by done; apply Hgood| |].
      + intros t' Ht'. cbn. rewrite lookup_insert_ne; [done|]. intros <-. apply Ht'. by transitivity c.
      + intros t' Ht'. assert (g ++ [tg] ≼ x) as [_ H1]%prefix_snoc by by transitivity c. apply prefix_snoc in Ht' as [_ H2]. assert (t' = tg) as -> by congruence. cbn. rewrite lookup_insert_eq.
        eapply good_child_on; [exact Hugr|done|]. destruct (after v r) as [a|] eqn:Har; [left; apply Hmono; [done|by eapply after_recorded]|right]. apply (co_id _ _ _ Hco). by apply after_None.
    - destruct (rm_above (recorded v') p l' Hp Hne Ha) as (Hu' & n' & Hn' & Hg'); [|exact Hmono|split; [done|]; exists n'; split; [by eapply Hkeep|done]].
      intros t' Ht' Hu'. exfalso. pose proof (Hlast p Hp Hne Hu) as Hle. destruct (prefix_strict_snoc p g Hle Hpg) as [t2 Ht2].
      assert (p ++ [t2] ≼ c) as [_ H1]%prefix_snoc by by transitivity g. apply prefix_snoc in Ht' as [_ H2]. assert (t2 = t') as -> by congruence.
      destruct (under_mono C _ _ _ Ht2 Hug) as (c' & Hc' & Hle'). assert (c' = c) as -> by congruence. by apply Hgc, prefix_eq. }
  apply rm_collapse; [apply Hrm| | |exact Haf|exact Hnodes| |].
  - apply fresh_hset; [|apply Hrm]. apply (rm_fresh _ _ _ _ Hrm). by eexists.
  - do 2 (apply keys_put; [done || apply rm_wfc|]). apply Hrm.
  - intros p l' Hp Hpx Ha. destruct (after_node _ _ _ _ Hi Hp Ha) as (_ & n' & Hn' & _). rewrite <- (proj1 (rm_same _ _ _ _ Hrm p l' Hp ltac:(by intros ->) ltac:(by intros ->) Ha)) in Hn'.
    rewrite Hn'. apply (Hkeep p); [done|by intros ->|done|done].
  - destruct (root_below C g Hug) as (r0 & Hr0 & Hr0g). pose proof (under_node C [] r0 Hr0) as Hur0. assert (r0 ≼ c) as Hr0c by by transitivity g. assert (r0 <> c) as Hne by (intros ->; by apply Hgc, prefix_eq).
    apply (rm_root_keep v' r0); [apply Hrm|done|by eapply rm_kept|]. intros lr Ha. destruct (Hnodes r0 lr Hr0c Hne Hur0 Ha) as (_ & n' & Hn' & _). split; [|by exists n'].
    rewrite Haf, decide_False by (done || apply rm_path; by transitivity c). by rewrite rm_after_up.
Qed.
End collapse.

Lemma entries_singleton {A} (i : Z) (a : A) : entries ({[i := a]} : gmap Z A) = [(i, a)].
Proof. apply Permutation_singleton_r. by rewrite entries_perm, map_to_list_singleton. Qed.
(** The node above, if any. *)
Definition up (par : option loc) : Prop :=
  match par with
  | None => forall q, q ≼ c -> under C q = Some q -> q = c
  | Some lg => exists g, after v g = Some (Some lg) /\ g ≼ c /\ g <> c /\ forall q, q ≼ c -> q <> c -> under C q = Some q -> q ≼ g
  end.
Lemma compress_wp par : up par -> wp ok (compressNodePath ts par l) (fun _ v' => inv F v' C') v2.
Proof.
  intros Hup. unfold compressNodePath. apply wp_bind, wp_get. rewrite rm_applied. apply wp_bind. eapply deref_wp; [apply Hrm|].
  destruct rm_cases as [[Hsz Hu]|(Hsz & Hv & t & r & e & Hco)].
  { assert (negb (base.size (n_children m) =? 1)%nat || n_hasValue m = true) as ->; [|by apply wp_ret, rm_keep]. destruct Hsz as [Hsz| ->]; [|apply orb_true_r]. apply Nat.eqb_neq in Hsz. by rewrite Hsz. }
  rewrite Hsz, Hv. cbn [negb orb Nat.eqb]. destruct (co_wf _ _ _ Hco) as (Hr & _ & _ & _ & Hcr & _). pose proof rm_wfc as Hwc.
  assert (recorded v2 c) as Hrc by (eapply after_recorded; rewrite rm_after_up by done; apply Hrm).
  apply wp_bind. unfold recordNodeDeleted. apply wp_bind. eapply deref_wp; [apply Hrm|]. rewrite (rm_key _ _ _ _ Hrm). eapply wp_mono; [apply recordKeyChange_put; [apply rm_applied|by left]|]. intros [] v3 [b ->].
  rewrite (co_children _ _ _ Hco), entries_singleton. cbn [foldM]. unfold child_key at 1. cbn [fst snd]. rewrite (rm_key _ _ _ _ Hrm), (co_key _ _ _ Hco).
  pose proof Hcr as Hcr'. destruct Hcr' as [y Hy]. assert (drop (length c + 1) r = y) as Hd by (rewrite Hy, <- (snoc_length c t); apply drop_app_length). rewrite Hd.
  assert (r = c ++ t :: y) as Hry by (rewrite Hy, <- app_assoc; done). assert (is_token ts t /\ wf_path y) as [Ht Hwy]. { rewrite Hry in Hr. apply Forall_app in Hr as [_ Hr]. by apply Forall_cons in Hr. }
  apply wp_bind, wp_bind, wp_bind, wp_lift. rewrite (Extend_key_of ts Hsize) by done. rewrite <- Hry. apply wp_ret, wp_ret. apply wp_bind, wp_must. exists (key_of r, e). split; [done|].
  destruct par as [lg|]; cbn in Hup.
  - destruct Hup as (g & Hg & Hgc & Hne & Hlast). by apply (co_inner t r e Hco g).
  - by apply (co_root t r e Hco).
Qed.
End compress.
End removal.

Definition visited_node (a : ancestors) (l : loc) : ancestors := mkAnc (MerkleView.parent a) (nodeToDelete a) (Some l).
Abbreviation no_ancestors := (mkAnc None None None).
Lemma visited_last (vs : list (path * loc)) : nodeToDelete (foldl visited_node no_ancestors vs.*2) = snd <$> last vs.
Proof. destruct vs as [|e vs _] using rev_ind; [done|]. by rewrite fmap_app, foldl_app, last_snoc. Qed.
Lemma walk_cut v C x vs c lc l : walk v C x ((vs ++ [(c, lc)]) ++ [(x, l)]) -> walk v C c (vs ++ [(c, lc)]) /\ c ≼ x /\ c <> x /\ forall q, q ≼ x -> under C q = Some q -> q ≼ c \/ q = x.
Proof.
  intros [Hn Hs Ha]. rewrite fmap_app in Hs. pose proof (StronglySorted_app_1_elem_of _ _ _ c x Hs) as Hcx. destruct Hcx as [Hcx Hne]; [rewrite fmap_app; apply elem_of_app; right; by left|by left|].
  pose proof (StronglySorted_app_1_l _ _ _ Hs) as Hs1. assert (forall q, q ∈ (vs ++ [(c, lc)]).*1 -> q ≼ c) as Hle.
  { intros q Hq. rewrite fmap_app in Hq, Hs1. apply elem_of_app in Hq as [Hq|Hq]; [|by apply list_elem_of_singleton in Hq as ->]. by destruct (StronglySorted_app_1_elem_of _ _ _ q c Hs1 Hq) as [? _]; [left|]. }
  assert (forall q, q ≼ x -> under C q = Some q -> q ∈ (vs ++ [(c, lc)]).*1 \/ q = x) as Hall.
  { intros q Hq Hu. pose proof (proj2 (Hn q) (conj Hq Hu)) as Hin. rewrite fmap_app in Hin. apply elem_of_app in Hin as [Hin|Hin]; [by left|right]. by apply list_elem_of_singleton in Hin. }
  split_and!; [|done|done|intros q Hq Hu; destruct (Hall q Hq Hu); [left; by apply Hle|by right]]. split; [|done|].
  - intros q. split.
    + intros Hq. split; [by apply Hle|]. apply Hn. rewrite fmap_app. apply elem_of_app. by left.
    + intros [Hq Hu]. destruct (Hall q) as [|Heq]; [by transitivity c|done|done|]. exfalso. rewrite Heq in Hq. by apply Hne, prefix_eq.
  - intros q l' Hin. apply Ha, elem_of_app. by left.
Qed.
Lemma walk_up v C c vs l : walk v C c (vs ++ [(c, l)]) -> up v C c (snd <$> last vs).
Proof.
  intros Hw. destruct vs as [|[g lg] vs _] using rev_ind.
  - intros q Hq Hu. assert (q ∈ ([] ++ [(c, l)]).*1) as Hin by by apply (walk_nodes _ _ _ _ Hw). by apply list_elem_of_singleton in Hin.
  - rewrite last_snoc. destruct (walk_cut _ _ _ _ _ _ _ Hw) as (Hwg & Hg & Hne & Hall). exists g. split_and!; [|done|done|].
    + apply (walk_after _ _ _ _ Hwg), elem_of_app. right. by left.
    + intros q Hq Hqc Hu. by destruct (Hall q Hq Hu).
Qed.
Lemma catch_wp {A} (m : MV A) (Q : option A -> view -> Prop) v :
  match m v with (v', Ok a) => Q (Some a) v' | (v', Err e) => ok e \/ (e = ErrNotFound /\ Q None v') end -> wp ok (catch_not_found m) Q v.
Proof. unfold wp, catch_not_found. destruct (m v) as [v' [a|e]]; [done|]. intros [He|[-> HQ]]; [|done]. by destruct e. Qed.

(** The leaf [x] and its entry in the node above are taken out. *)
Lemma remove_leaf_root v C x w l n b : inv F v C -> C !! x = Some w -> walk v C x [(x, l)] -> after v x = Some (Some l) -> heap v !! l = Some n -> good (recorded v) C x n -> n_children n = ∅ ->
  inv F (set_root None (put (hset l (setValue None n) v) x b None)) (delete x C).
Proof.
  intros Hi Hw Hwalk Ha Hn Hg Hch. pose proof (rm_x v C x w Hi Hw) as Hx. assert (forall q, q ≼ x -> under C q = Some q -> q = x) as Htop.
  { intros q Hq Hu. assert (q ∈ [(x, l)].*1) as Hin by by apply (walk_nodes _ _ _ _ Hwalk). by apply list_elem_of_singleton in Hin. }
  assert (delete x C = ∅) as Hempty.
  { apply map_eq. intros k. rewrite lookup_empty. destruct (decide (k = x)) as [->|Hne]; [by rewrite lookup_delete_eq|]. rewrite lookup_delete_ne by done. apply eq_None_not_Some. intros Hk.
    destruct (root_below C k (under_value _ _ Hk)) as (r & Hr & Hrk). assert (under C x = Some x) as Hux by (apply under_value; by eexists). destruct (root_below C x Hux) as (r' & Hr' & Hrx). assert (r' = r) as -> by congruence.
    pose proof (Htop r Hrx (under_node C [] r Hr)) as ->. destruct (prefix_strict_snoc x k Hrk ltac:(done)) as [t Ht]. pose proof (g_children _ _ _ _ Hg t) as Hc. unfold good_child in Hc. rewrite Hch, lookup_empty in Hc.
    assert (is_Some (under C (x ++ [t]))) as [r2 Hr2] by (apply under_is_Some; by exists k). by rewrite Hr2 in Hc. }
  assert (forall p, wf_path p -> after (put (hset l (setValue None n) v) x b None) p = if decide (p = x) then Some None else after v p) as Haf by (intros p Hp; by apply (after_put (hset l (setValue None n) v))).
  apply (remove_inv v C x w Hi Hw); [intros q; by eapply walk_rec|rewrite <- (i_frame _ _ _ Hi); done| | | | | |].
  - apply (fresh_hset v); [|apply Hi]. apply (i_fresh _ _ _ Hi). by eexists.
  - apply (keys_put v); [done|apply Hi].
  - intros p Hp. change (after (set_root ?r0 ?v0) p) with (after v0 p). rewrite Haf by done. destruct (decide (p = x)) as [->|]; [right|by left]. split_and!; [done|done|]. rewrite Hempty. intros Hu. by destruct (under_key ∅ _ _ Hu) as (k & [? Hk] & _).
  - intros p l' Hp Hu _. change (after (set_root ?r0 ?v0) p) with (after v0 p). rewrite (Htop p Hp Hu), Haf, decide_True by done. done.
  - intros p l' Hp Hpx Hap. cbn. rewrite lookup_insert_ne; [done|]. intros <-. apply Hpx. by rewrite (loc_inj v C Hi p x l).
  - exact Hempty.
Qed.
Lemma remove_leaf v C x w vs c lc l n nc b t : inv F v C -> C !! x = Some w -> walk v C x ((vs ++ [(c, lc)]) ++ [(x, l)]) -> heap v !! l = Some n -> good (recorded v) C x n -> n_children n = ∅ ->
  heap v !! lc = Some nc -> c ++ [t] ≼ x ->
  removing v C x (hset lc (set_children (delete t (n_children nc)) nc) (put (hset l (setValue None n) v) x b None)) c lc (set_children (delete t (n_children nc)) nc).
Proof.
  intros Hi Hw Hwalk Hn Hg Hch Hnc Ht. pose proof (rm_x v C x w Hi Hw) as Hx. destruct (walk_cut _ _ _ _ _ _ _ Hwalk) as (Hwc & Hcx & Hne & Hlast). destruct (walk_last _ _ _ _ _ _ Hwc) as (_ & Hu & Hac & _).
  assert (after v x = Some (Some l)) as Hax by (apply (walk_after _ _ _ _ Hwalk), elem_of_app; right; by left). pose proof (node_wf _ _ _ Hi Hu) as Hwfc.
  destruct (after_node _ _ _ _ Hi Hwfc Hac) as (_ & nc' & Hnc' & Hgc). assert (nc' = nc) as -> by congruence. assert (lc <> l) as Hll by (intros ->; by apply Hne, (loc_inj v C Hi c x l)).
  assert (forall t', under C (x ++ [t']) = None) as Hleaf. { intros t'. pose proof (g_children _ _ _ _ Hg t') as Hc. unfold good_child in Hc. rewrite Hch, lookup_empty in Hc. by destruct (under C (x ++ [t'])). }
  assert (under (delete x C) x = None) as Hgone. { apply under_none; [apply lookup_delete_eq|]. intros t'. rewrite <- (Hleaf t'). apply under_agree, agree_delete, not_snoc_prefix. }
  assert (under C (c ++ [t]) = Some x) as Hct.
  { destruct (under_mono C _ _ _ Ht (under_value C x ltac:(by eexists))) as (r & Hr & Hrx). destruct (Hlast r Hrx (under_node _ _ _ Hr)) as [Hrc| ->]; [|done]. exfalso. apply (not_snoc_prefix c t). transitivity r; [by eapply under_prefix|done]. }
  assert (under (delete x C) (c ++ [t]) = None) as Hnone.
  { apply under_None. intros k [wk Hk] Hp. rewrite lookup_delete_Some in Hk. destruct Hk as [Hkx Hk]. assert (x ≼ k) as Hxk by (eapply under_below; [exact Hct|by eexists|done]).
    destruct (prefix_strict_snoc x k Hxk ltac:(done)) as [t' Ht']. assert (is_Some (under C (x ++ [t']))) as [? Hs] by (apply under_is_Some; exists k; split; [by eexists|done]). by rewrite Hleaf in Hs. }
  split; try done.
  - cbn. by rewrite lookup_insert_eq.
  - apply Hgc.
  - rewrite lookup_delete_ne by done. apply Hgc.
  - rewrite lookup_delete_ne by done. apply Hgc.
  - intros t'. cbn. destruct (decide (t' = t)) as [->|Htt]; [rewrite lookup_delete_eq; unfold good_child; by rewrite Hnone|]. rewrite lookup_delete_ne by done.
    eapply (good_child_off (recorded v) _ C); [apply Hi|by apply (rm_wf v _ _ w)|apply rm_off|intros Htx; apply prefix_snoc in Ht as [_ ?], Htx as [_ ?]; congruence|done|apply Hgc].
  - intros t' Ht'. assert (t' = t) as -> by (apply prefix_snoc in Ht as [_ ?], Ht' as [_ ?]; congruence). done.
  - destruct (decide (is_Some (C !! c))) as [Hv|Hv%eq_None_not_Some]; [exists c; split; [by rewrite lookup_delete_ne|done]|]. destruct (node_two C c t Hu Hv) as (t' & Htt & Hs).
    apply under_is_Some in Hs as (k & Hk & Hp). exists k. assert (k <> x) as Hkx by (intros ->; apply prefix_snoc in Ht as [_ ?], Hp as [_ ?]; congruence). split; [by rewrite lookup_delete_ne|]. by apply prefix_snoc in Hp as [? _].
  - intros p Hp. change (after (hset ?l0 ?n0 ?v0) p) with (after v0 p). rewrite (after_put (hset l (setValue None n) v)) by done. change (after (hset ?l0 ?n0 ?v0) p) with (after v0 p).
    destruct (decide (p = x)) as [->|Hpx]; [by rewrite decide_True|rewrite decide_False; [done|by intros [? _]]].
  - intros p l' Hp Hpx Hpc Ha. assert (l' <> lc) as H1 by (intros ->; by apply Hpc, (loc_inj v C Hi p c lc)). split; [|done]. cbn. rewrite lookup_insert_ne by done. rewrite lookup_insert_ne; [done|].
    intros <-. by apply Hpx, (loc_inj v C Hi p x l).
  - rewrite <- (i_frame _ _ _ Hi). done.
  - assert (l < next v)%nat by (apply (i_fresh _ _ _ Hi); by eexists). assert (lc < next v)%nat by (apply (i_fresh _ _ _ Hi); by eexists). repeat (apply fresh_hset; [done|]). apply Hi.
  - apply keys_put; [done|apply Hi].
Qed.
Lemma remove_inner v C x w l n t0 : inv F v C -> C !! x = Some w -> after v x = Some (Some l) -> heap v !! l = Some n -> good (recorded v) C x n -> is_Some (n_children n !! t0) ->
  removing v C x (hset l (setValue None n) v) x l (setValue None n).
Proof.
  intros Hi Hw Ha Hn Hg Hch. pose proof (rm_x v C x w Hi Hw) as Hx. split; try done.
  - apply under_value. by eexists.
  - by left.
  - cbn. by rewrite lookup_insert_eq.
  - apply Hg.
  - by rewrite lookup_delete_eq.
  - by rewrite lookup_delete_eq.
  - intros t. eapply (good_child_off (recorded v) _ C); [apply Hi|by apply (rm_wf v _ _ w)|apply rm_off|apply not_snoc_prefix|done|apply Hg].
  - intros t Ht. by apply not_snoc_prefix in Ht.
  - pose proof (g_children _ _ _ _ Hg t0) as Hc. unfold good_child in Hc. destruct Hch as [e He]. rewrite He in Hc. destruct (under C (x ++ [t0])) as [r|] eqn:Hr; [|done].
    destruct (under_key _ _ _ Hr) as (k & Hk & Hrk). pose proof (under_prefix _ _ _ Hr) as Hxr. assert (x ++ [t0] ≼ k) as Hxk by by transitivity r. exists k. split; [|by apply prefix_snoc in Hxk as [? _]].
    rewrite lookup_delete_ne; [done|]. intros <-. by apply not_snoc_prefix in Hxk.
  - intros p Hp. rewrite decide_False by (by intros [_ ?]). done.
  - intros p l' Hp Hpx _ Hap. assert (l' <> l) as Hne by (intros ->; by apply Hpx, (loc_inj v C Hi p x l)). split; [|done]. cbn. by rewrite lookup_insert_ne.
  - rewrite <- (i_frame _ _ _ Hi). done.
  - apply fresh_hset; [|apply Hi]. apply (i_fresh _ _ _ Hi). by eexists.
  - apply Hi.
Qed.

Lemma removeChild_at n nc c x t : n_key nc = key_of c -> n_key n = key_of x -> c ++ [t] ≼ x -> wf_path x -> removeChild n ts nc = Ok (set_children (delete t (n_children nc)) nc).
Proof.
  intros Hc Hx Ht Hw. assert (wf_path c) as Hwc by (eapply wf_path_prefix; [|exact Hw]; by apply prefix_snoc in Ht as [? _]). destruct (entry_keys c x t Ht Hw) as [Htok _].
  unfold removeChild. by rewrite Hc, Hx, (key_of_length ts Hsize c), Htok.
Qed.
Lemma remove_found_wp v C x w : inv F v C -> C !! x = Some w -> wp ok (remove_found ts (key_of x)) (fun _ v' => inv F v' (delete x C)) v.
Proof.
  intros Hi0 Hw. pose proof (rm_x v C x w Hi0 Hw) as Hx. unfold remove_found. apply wp_bind. eapply wp_mono; [apply (visit_spec visited_node no_ancestors C x Hx v Hi0)|].
  intros a v1 (Hi & vs & -> & Hwalk). clear v Hi0. assert (under C x = Some x) as Hux by (apply under_value; by eexists).
  destruct vs as [|[y l] vs _] using rev_ind; [pose proof (proj2 (walk_nodes _ _ _ _ Hwalk x) (conj (reflexivity x) Hux)) as Hin%not_elem_of_nil; done|].
  destruct (walk_last _ _ _ _ _ _ Hwalk) as (Hyx & _ & Ha & Hlast). assert (y = x) as -> by (apply prefix_eq; [done|by apply Hlast]). destruct (after_node _ _ _ _ Hi Hx Ha) as (_ & n & Hn & Hg).
  assert (forall q, q ≼ x -> under C q = Some q -> recorded v1 q) as Hrec by (intros q; by eapply walk_rec).
  rewrite fmap_app, foldl_app. cbn [fmap list_fmap foldl]. set (anc := foldl _ _ _). assert (nodeToDelete anc = snd <$> last vs) as Hanc by apply visited_last. cbn [nodeToDelete visited_node MerkleView.parent snd].
  apply wp_bind, wp_must. exists l. split; [done|]. apply wp_bind. eapply deref_wp; [exact Hn|]. apply wp_bind. eapply update_wp; [exact Hn|done|]. apply wp_bind. eapply deref_wp; [cbn; by rewrite lookup_insert_eq|].
  change (n_children (setValue None n)) with (n_children n). destruct (Nat.eqb_spec (base.size (n_children n)) 0) as [Hch%map_size_empty_inv|Hch].
  - apply wp_bind. unfold recordNodeDeleted. apply wp_bind. eapply deref_wp; [cbn; by rewrite lookup_insert_eq|]. change (n_key (setValue None n)) with (n_key n). rewrite (g_key _ _ _ _ Hg).
    eapply wp_mono; [apply recordKeyChange_put; [apply Hi|left; by eapply (after_recorded v1)]|]. intros [] v2 [b ->].
    destruct (root_below C x Hux) as (r & Hr & Hrx). pose proof (under_node C [] r Hr) as Hur. destruct (root_after v1 C r Hi Hr (Hrec r Hrx Hur)) as (lr & Hlr & Har). pose proof (node_wf _ _ _ Hi Hur) as Hwr.
    apply wp_bind, wp_get, wp_bind, wp_must. exists lr. split; [done|]. destruct (after_node _ _ _ _ Hi Hwr Har) as (_ & nr & Hnr & Hgr).
    destruct vs as [|[c lc] vs _] using rev_ind.
    + assert (r = x) as -> by (assert (r ∈ ([] ++ [(x, l)]).*1) as Hin by (by apply (walk_nodes _ _ _ _ Hwalk)); by apply list_elem_of_singleton in Hin).
      assert (lr = l) as -> by congruence. apply wp_bind. eapply deref_wp; [cbn; by rewrite lookup_insert_eq|]. rewrite bool_decide_true by (symmetry; exact (g_key _ _ _ _ Hg)). by apply wp_modify, remove_leaf_root with w.
    + destruct (walk_cut _ _ _ _ _ _ _ Hwalk) as (Hwc & Hcx & Hne & _). destruct (walk_last _ _ _ _ _ _ Hwc) as (_ & Huc & Hac & _). pose proof (node_wf _ _ _ Hi Huc) as Hwfc. destruct (after_node _ _ _ _ Hi Hwfc Hac) as (_ & nc & Hnc & Hgc).
      assert (r <> x) as Hrnx. { intros ->. destruct (root_below C c Huc) as (r' & Hr' & Hrc). assert (r' = x) as -> by congruence. by apply Hne, prefix_eq. }
      assert (lr <> l) as Hlrl by (intros ->; by apply Hrnx, (loc_inj v1 C Hi r x l)). assert (lc <> l) as Hlcl by (intros ->; by apply Hne, (loc_inj v1 C Hi c x l)).
      apply wp_bind. eapply deref_wp; [cbn; by rewrite lookup_insert_ne|]. rewrite (g_key _ _ _ _ Hgr), bool_decide_false by (intros Heq; by apply Hrnx; symmetry; apply (key_of_inj ts Hsize)).
      rewrite last_snoc in Hanc. cbn in Hanc. rewrite Hanc. apply wp_bind, wp_must. exists lc. split; [done|]. destruct (prefix_strict_snoc c x Hcx Hne) as [t Ht].
      apply wp_bind. eapply update_wp; [cbn; by rewrite lookup_insert_ne|by apply (removeChild_at (setValue None n) nc c x t); [apply Hgc|apply Hg| |]|].
      apply (compress_wp v1 C x w Hi Hw Hrec _ c lc _ (remove_leaf v1 C x w vs c lc l n nc b t Hi Hw Hwalk Hn Hg Hch Hnc Ht)).
      subst anc. rewrite fmap_app, foldl_app. cbn [fmap list_fmap foldl]. change (grandParent (visited_node (visited_node ?a ?l1) ?l2)) with (nodeToDelete a). rewrite visited_last. by apply (walk_up v1 C c vs lc).
  - assert (exists t0, is_Some (n_children n !! t0)) as [t0 Ht0]. { destruct (map_choose (n_children n)) as (t0 & e & He); [intros Hz; apply Hch; by rewrite Hz|]. exists t0. by eexists. }
    rewrite Hanc. apply (compress_wp v1 C x w Hi Hw Hrec _ x l _ (remove_inner v1 C x w l n t0 Hi Hw Ha Hn Hg Ht0)). by apply (walk_up v1 C x vs l).
Qed.
(** [remove] takes the key out of the trie; a key without value is no error. *)
Lemma remove_spec v C x : inv F v C -> wf_path x -> wp ok (remove ts (key_of x)) (fun _ v' => inv F v' (delete x C)) v.
Proof.
  intros Hi Hx. unfold remove. apply wp_bind, wp_get. rewrite (i_applied _ _ _ Hi).
  assert (forall v', inv F v' C -> C !! x = None -> inv F v' (delete x C)) as Hid by (intros v' Hi' Hn; by rewrite delete_id).
  apply wp_bind, catch_wp. unfold getNode. unfold mbind at 1, M_bind at 1, get at 1. destruct (nodes v !! key_of x) as [ch|] eqn:Hch.
  - assert (after v x = Some (nc_after ch)) as Ha by (unfold after; by rewrite Hch). pose proof (i_nodes _ _ _ Hi x _ Hx Ha) as Hin. destruct (nc_after ch) as [l|]; cbn.
    + destruct Hin as (_ & n & Hn & Hg). apply wp_bind. eapply deref_wp; [exact Hn|]. rewrite (has_value _ _ _ _ Hg). unfold has. destruct (C !! x) as [w|] eqn:Hw; [rewrite bool_decide_true by (by eexists); by apply remove_found_wp with w|rewrite bool_decide_false by (by intros [? ?]); apply wp_ret; by apply Hid].
    + right. split; [done|]. change (inv F v (delete x C)). apply Hid; [done|]. destruct (C !! x) eqn:Hw; [|done]. exfalso. apply Hin, under_value. by eexists.
  - assert (~ recorded v x) as Hnr by (apply after_None; unfold after; by rewrite Hch). pose proof (law_node _ _ _ _ HP (key_of x) true (key_of_wf ts Hsize x Hx)) as Hl. rewrite (tokens_key_of ts Hsize x Hx) in Hl.
    unfold mbind, M_bind, lift. destruct (p_getEditableNode (key_of x) true) as [n|e].
    + destruct Hl as [Hu ->]. pose proof (i_clean _ _ _ Hi x Hx Hnr (or_intror Hu)) as Ha. cbn. apply (wp_bind _ (deref (next v))). eapply deref_wp; [cbn; by rewrite lookup_insert_eq|].
      rewrite (has_value _ (fun _ => False) C0 x) by (apply good_tnode, (law_wf _ _ _ _ HP)). unfold has. rewrite <- (Ha x) by done. pose proof (inv_push v C (tnode C0 x) Hi) as Hi'.
      destruct (C !! x) as [w|] eqn:Hw; [rewrite bool_decide_true by (by eexists); by apply remove_found_wp with w|rewrite bool_decide_false by (by intros [? ?]); apply wp_ret; by apply Hid].
    + destruct Hl as [He|[-> Hl]]; [by left|right]. split; [done|]. change (inv F v (delete x C)). apply Hid; [done|]. destruct (C !! x) as [w|] eqn:Hw; [|done]. exfalso.
      assert (under C x = Some x) as Hu by (apply under_value; by eexists). pose proof (i_clean _ _ _ Hi x Hx Hnr (or_introl Hu)) as Ha. apply Hl; [by rewrite <- (under_agree _ _ _ Ha)|]. unfold has. by rewrite <- (Ha x), Hw.
Qed.
End inv.
End facts.
End MerkleViewFacts.
