(* ===== verification/MerkleHash.v ===== *)
(** * Hashing the changed nodes of a view
    [hashChangedNode] rebuilds the key of every child in a buffer that earlier children
    have written to ([holds]), goes to the changed ones and fills in their identifiers:
    afterwards all recorded nodes are those of the trie, and the identifier of the root
    is the one of its contents. *)
From stdpp Require Import sorting.
From S2P Require Import Prelude Monads GoLibrary MapOrder Sorting Database MerkleKey MerkleCodec MerkleSpec MerkleView MerkleViewFacts.

Module MerkleHash.
Import Sorting Database MerkleKey MerkleNode MerkleSpec MerkleView MerkleViewFacts.
#[local] Notation "p ≼ q" := (prefix p q) (at level 70).

(** ** Buffers of keys *)
Abbreviation size k := (bytesNeeded (k_length k)).
(** The buffer starts with the bits [B], padded to a byte; what follows is arbitrary. *)
Definition holds (buffer : bytes) (B : list bool) : Prop :=
  Forall is_byte buffer /\ (length B <= 8 * length buffer)%nat /\
  take (8 * bytesNeeded (length B)) (all_bits buffer) = B ++ replicate (8 * bytesNeeded (length B) - length B) false.

Lemma extend_holds buffer val B : valid val -> holds buffer B -> (length B + k_length val <= 8 * length buffer)%nat ->
  exists buffer', extendIntoBuffer buffer val (length B) = Ok buffer' /\ length buffer' = length buffer /\ holds buffer' (B ++ bits val) /\
    take (bytesNeeded (length B) - 1) buffer' = take (bytesNeeded (length B) - 1) buffer.
Proof.
  intros Hv (Hb & Hlb & Ht) Hl. destruct (decide (k_length val = 0%nat)) as [Hz|Hz].
  { exists buffer. unfold extendIntoBuffer. rewrite Hz. assert (bits val = []) as -> by (unfold bits; by rewrite Hz). rewrite app_nil_r. done. }
  pose proof (length_bits _ Hv) as Hlv. pose proof (v_length _ Hv) as Hvl. pose proof (bytesNeeded_spec (length B)) as H1. pose proof (bytesNeeded_spec (k_length val)) as H2. pose proof (bytesNeeded_spec (length B + k_length val)) as H3.
  destruct (extendIntoBuffer_spec buffer val (length B) B) as (buffer' & -> & Hl' & Hb' & Ha'); [done|lia|done|done|apply bytesNeeded_le; lia|done|]. exists buffer'. split; [done|]. split; [done|].
  set (X := B ++ all_bits (k_value val) ++ replicate 8 false) in *. set (m := reach buffer val (length B)) in *. pose proof (bytesNeeded_le _ _ Hl).
  assert (m = Nat.min (length buffer) (bytesNeeded (length B) + length (k_value val))) as Hm by done. assert (length X = length B + 8 * length (k_value val) + 8)%nat as HX by (subst X; rewrite !length_app, length_all_bits, length_replicate; lia).
  assert (forall j, (j <= m)%nat -> take (8 * j) (all_bits buffer') = take (8 * j) X) as Htake.
  { intros j Hj. rewrite Ha', take_app_le by (rewrite length_take; lia). rewrite take_take. f_equal. lia. }
  split; [split; [done|]; split; [rewrite length_app; lia|]|].
  - rewrite length_app, Hlv, Htake by lia. subst X. rewrite (v_padding _ Hv), <- (app_assoc (bits val)), <- replicate_add, (app_assoc B), take_app_ge by (rewrite length_app; lia).
    rewrite take_replicate, length_app, Hlv. f_equal. f_equal. lia.
  - apply all_bits_inj; [by apply Forall_take|by apply Forall_take|]. rewrite <- !take_all_bits, Htake by lia. subst X. rewrite take_app_le by lia.
    replace (8 * (bytesNeeded (length B) - 1))%nat with (Nat.min (8 * (bytesNeeded (length B) - 1)) (8 * bytesNeeded (length B))) by lia. rewrite <- (take_take (all_bits buffer)), Ht, take_app_le by lia. f_equal. lia.
Qed.
Lemma holds_key k : valid k -> holds (k_value k) (bits k).
Proof.
  intros Hv. pose proof (bytesNeeded_spec (k_length k)). pose proof (v_length _ Hv). split; [apply Hv|]. rewrite (length_bits _ Hv). split; [lia|].
  rewrite take_ge by (rewrite length_all_bits; lia). rewrite (v_padding _ Hv). do 2 f_equal. lia.
Qed.
Lemma holds_take b b' B : Forall is_byte b -> (bytesNeeded (length B) <= length b)%nat -> take (bytesNeeded (length B)) b = take (bytesNeeded (length B)) b' -> holds b' B -> holds b B.
Proof.
  intros Hb Hl Ht (Hb' & Hl' & Ha). pose proof (bytesNeeded_spec (length B)). split; [done|]. split; [lia|]. by rewrite take_all_bits, Ht, <- take_all_bits.
Qed.

Section buffer.
Context (ts : nat) (Hsize : token_size ts).
Abbreviation key_of := (key_of ts).
Abbreviation wf_path := (wf_path ts).
Lemma key_of_bits p t r : wf_path r -> p ++ [t] ≼ r -> bits (key_of r) = bits (key_of p) ++ bits (ToToken t ts) ++ bits (key_of (drop (length p + 1) r)).
Proof.
  intros Hr Hp. pose proof Hp as [y Hy]. assert (drop (length p + 1) r = y) as Hd by (rewrite Hy, <- (snoc_length p t); apply drop_app_length). rewrite Hd.
  assert (r = p ++ t :: y) as Hry by (rewrite Hy, <- app_assoc; done). pose proof Hr as Hr'. rewrite Hry in Hr'. apply Forall_app in Hr' as [Hwp Hr']. apply Forall_cons in Hr' as [Ht Hwy].
  destruct (ToToken_tokens ts Hsize t Ht) as [Hwt _]. pose proof (Extend_key_of ts Hsize p t y Hwp Ht Hwy) as He.
  destruct (Extend_spec (key_of p) [ToToken t ts; key_of y]) as (k & Hk & _ & Hb); [exact (wk_valid _ _ (key_of_wf ts Hsize p Hwp))|apply Forall_cons; split; [exact (wk_valid _ _ Hwt)|apply Forall_singleton, (wk_valid _ _ (key_of_wf ts Hsize y Hwy))]|].
  rewrite He in Hk. injection Hk as <-. rewrite Hry, Hb. cbn. by rewrite app_nil_r.
Qed.
Lemma child_buffer_spec p t r e kb last : wf_path r -> p ++ [t] ≼ r -> compressedKey e = key_of (drop (length p + 1) r) -> Forall is_byte kb -> (size (key_of r) <= length kb)%nat ->
  take (size (key_of p) - 1) kb = take (size (key_of p) - 1) (k_value (key_of p)) -> ((0 < size (key_of p))%nat -> k_value (key_of p) !! (size (key_of p) - 1)%nat = Some last) ->
  exists kb', child_buffer ts (key_of p) last kb (t, e) = Ok (kb', key_of r) /\ length kb' = length kb /\ Forall is_byte kb' /\
    take (size (key_of r)) kb' = k_value (key_of r) /\ take (size (key_of p) - 1) kb' = take (size (key_of p) - 1) kb.
Proof.
  intros Hr Hp Hek Hkb Hlen Hpre Hlast. pose proof Hp as [Hpr _]%prefix_snoc. pose proof (wf_path_prefix ts p r Hpr Hr) as Hwp. pose proof (key_of_bits p t r Hr Hp) as Hbits.
  pose proof (key_of_length ts Hsize p Hwp) as Hlp. pose proof (key_of_length ts Hsize r Hr) as Hlr. pose proof (wf_path_drop ts (length p + 1) r Hr) as Hwd. pose proof (key_of_length ts Hsize _ Hwd) as Hld. rewrite length_drop in Hld.
  pose proof (wk_valid _ _ (key_of_wf ts Hsize p Hwp)) as Hvp. pose proof (wk_valid _ _ (key_of_wf ts Hsize r Hr)) as Hvr. pose proof (wk_valid _ _ (key_of_wf ts Hsize _ Hwd)) as Hvd.
  assert (is_token ts t) as Ht. { apply (wf_path_prefix ts _ _ Hp), Forall_app in Hr as [_ Hr]. by apply Forall_cons in Hr as [? _]. } destruct (ToToken_tokens ts Hsize t Ht) as [Hwt _]. pose proof (wk_valid _ _ Hwt) as Hvt.
  pose proof Hp as Hpl%prefix_length. rewrite length_app in Hpl. cbn in Hpl. pose proof (length_bits _ Hvp) as Hbp. pose proof (length_bits _ Hvt) as Hbt. pose proof (length_bits _ Hvd) as Hbd. change (k_length (ToToken t ts)) with ts in Hbt.
  assert (k_length (key_of p) + ts + k_length (compressedKey e) = k_length (key_of r))%nat as Htotal by (rewrite Hek, Hlp, Hlr, Hld; nia).
  pose proof (bytesNeeded_spec (k_length (key_of p))) as Hs1. pose proof (bytesNeeded_spec (k_length (key_of r))) as Hs2. pose proof (v_length _ Hvp) as Hvlp.
  unfold child_buffer. cbn [fst snd]. rewrite Htotal. unfold slice_to. destruct (Nat.leb_spec (size (key_of r)) (length kb)); [|lia]. cbn [mbind result_bind].
  set (s0 := take (size (key_of r)) kb). assert (length s0 = size (key_of r)) as Hl0 by (subst s0; rewrite length_take; lia). assert (Forall is_byte s0) as Hb0 by by apply Forall_take.
  assert (forall j, (j <= size (key_of r))%nat -> take j s0 = take j kb) as Ht0 by (intros j Hj; subst s0; rewrite take_take; f_equal; lia). assert (size (key_of p) <= size (key_of r))%nat as Hsle by (apply bytesNeeded_le; lia).
  assert (exists s1, (if (0 <? size (key_of p))%nat then set_byte (size (key_of p) - 1) last s0 else Ok s0) = Ok s1 /\ length s1 = size (key_of r) /\ holds s1 (bits (key_of p)) /\ take (size (key_of p) - 1) s1 = take (size (key_of p) - 1) kb) as (s1 & -> & Hl1 & Hh1 & Hp1).
  { destruct (Nat.ltb_spec 0 (size (key_of p))) as [Hpos|Hz].
    - specialize (Hlast Hpos). set (i := (size (key_of p) - 1)%nat) in *. rewrite set_byte_Ok by lia. eexists. split; [done|]. split; [by rewrite length_insert|]. assert (is_byte last) as Hbl by (eapply Forall_lookup_1; [apply Hvp|exact Hlast]).
      split; [|rewrite take_insert_ge by lia; apply Ht0; lia]. eapply holds_take; [by apply Forall_insert|rewrite length_insert, Hbp; lia| |by apply holds_key].
      rewrite Hbp. replace (size (key_of p)) with (S i) by lia. rewrite (take_S_r _ _ last) by (apply list_lookup_insert_eq; lia). rewrite (take_S_r (k_value _) _ last) by done. rewrite take_insert_ge by lia. rewrite Ht0 by lia. by rewrite Hpre.
    - exists s0. split; [done|]. split; [done|]. split; [|apply Ht0; lia]. eapply holds_take; [done| | |by apply holds_key]; rewrite Hbp; [lia|]. by replace (size (key_of p)) with 0%nat by lia. }
  cbn [mbind result_bind]. change (mkKey ts [shl8 t (dualBitIndex ts)]) with (ToToken t ts).
  destruct (extend_holds s1 (ToToken t ts) (bits (key_of p)) Hvt Hh1) as (s2 & He2 & Hl2 & Hh2 & Hp2); [rewrite Hbp; change (k_length (ToToken t ts)) with ts; lia|]. rewrite Hbp in He2, Hp2. rewrite He2. cbn [mbind result_bind].
  assert (length (bits (key_of p) ++ bits (ToToken t ts)) = k_length (key_of p) + ts)%nat as Hb2 by (rewrite length_app; lia). rewrite Hek in *.
  destruct (extend_holds s2 (key_of (drop (length p + 1) r)) _ Hvd Hh2) as (s3 & He3 & Hl3 & Hh3 & Hp3); [lia|]. rewrite Hb2 in He3, Hp3. rewrite He3. cbn [mbind result_bind].
  rewrite <- app_assoc, <- Hbits in Hh3. destruct Hh3 as (Hb3 & _ & Ha3). rewrite (length_bits _ Hvr) in Ha3. assert (length s3 = size (key_of r)) as Hls by congruence. rewrite take_ge in Ha3 by (rewrite length_all_bits; lia).
  destruct (mk_valid (k_length (key_of r)) s3 (bits (key_of r))) as [Hv3 Hbits3]; [done|done|by apply length_bits|by rewrite Hls|]. assert (mkKey (k_length (key_of r)) s3 = key_of r) as Hk3 by by apply valid_eq.
  eexists. rewrite Hk3. split; [done|]. assert (k_value (key_of r) = s3) as Hv by by rewrite <- Hk3. split; [rewrite length_app, length_drop; lia|]. split; [apply Forall_app; split; [done|by apply Forall_drop]|].
  split; [rewrite take_app_le, take_ge by lia; done|]. rewrite take_app_le by lia. pose proof (bytesNeeded_le (k_length (key_of p)) (bytesNeeded (k_length (key_of p) + ts)) ltac:(pose proof (bytesNeeded_spec (k_length (key_of p) + ts)); lia)).
  replace (size (key_of p) - 1)%nat with (Nat.min (size (key_of p) - 1) (bytesNeeded (k_length (key_of p) + ts) - 1)) at 1 by lia. rewrite <- take_take, Hp3, take_take. rewrite Nat.min_l by lia. by rewrite Hp2.
Qed.
End buffer.

(** ** The nodes while identifiers are filled in *)
Lemma foldl_max_le {A} (f : A -> nat) (l : list A) a : (a <= foldl (fun m e => Nat.max m (f e)) a l)%nat.
Proof. revert a. induction l as [|y l IH]; intros a; cbn; [done|]. specialize (IH (Nat.max a (f y))). lia. Qed.
Lemma foldl_max {A} (f : A -> nat) (l : list A) a x : x ∈ l -> (f x <= foldl (fun m e => Nat.max m (f e)) a l)%nat.
Proof.
  revert a. induction l as [|y l IH]; intros a Hx; [by apply not_elem_of_nil in Hx|]. cbn. apply elem_of_cons in Hx as [->|Hx]; [|by apply IH].
  pose proof (foldl_max_le f l (Nat.max a (f y))). lia.
Qed.
Lemma key_not_before {A B} (es done : list (A * B)) e rest : es = done ++ e :: rest -> NoDup es.*1 -> e.1 ∉ done.*1.
Proof.
  intros -> Hn. rewrite fmap_app, fmap_cons in Hn. apply NoDup_app in Hn as (_ & Hd & _). intros Hin. apply (Hd _ Hin). by left.
Qed.

Section hashing.
Context {H : Hasher} {ochildren : KeyOrder Z} (ts : nat) (Hsize : token_size ts) (ok : MerkleErr -> Prop) (pool : Key -> option bytes) (Hpool : forall k b, pool k = Some b -> Forall is_byte b).
Context (C0 C : gmap path bytes) (F : gmap Key vchange * list Key * (bool * bool * bool)) (v0 : view) (Hi : inv ts C0 F v0 C).
Abbreviation key_of := (key_of ts).
Abbreviation tnode := (tnode ts).
Abbreviation wf_path := (wf_path ts).
Abbreviation at_loc q l := (after ts v0 q = Some (Some l)).
Abbreviation changed := (recorded ts v0).
Abbreviation good := (good ts changed C).
Implicit Types (p q r : path) (v : view) (n : node) (l : loc) (kb : bytes).

Record hstate v : Prop := {
  h_set : v = set_heap (heap v) v0;
  h_good q l : wf_path q -> at_loc q l -> exists n, heap v !! l = Some n /\ good q n;
  h_other l : (forall q, wf_path q -> ~ at_loc q l) -> heap v !! l = heap v0 !! l;
  h_dom l : is_Some (heap v !! l) -> is_Some (heap v0 !! l);
}.
(** What a call on the node at [p] does. *)
Record hashed p v v' : Prop := {
  hd_state : hstate v';
  hd_below q l : wf_path q -> p ≼ q -> at_loc q l -> heap v' !! l = Some (tnode C q);
  hd_same q l : wf_path q -> ~ p ≼ q -> at_loc q l -> heap v' !! l = heap v !! l;
  hd_other l : (forall q, wf_path q -> ~ at_loc q l) -> heap v' !! l = heap v !! l;
}.
Definition buf_ok kb p : Prop :=
  Forall is_byte kb /\ (size (key_of p) <= length kb)%nat /\ take (size (key_of p)) kb = k_value (key_of p) /\ forall t r, under C (p ++ [t]) = Some r -> (size (key_of r) <= length kb)%nat.
Definition kept p kb kb' : Prop := Forall is_byte kb' /\ (length kb <= length kb')%nat /\ take (size (key_of p) - 1) kb' = take (size (key_of p) - 1) kb.
(** [n] is the node at [p]. *)
Record here p l n v : Prop := {
  he_heap : heap v !! l = Some n;
  he_good : good p n;
  he_loc : changed p -> at_loc p l;
}.

Lemma C_wf : wf_contents ts C.
Proof. apply Hi. Qed.
Lemma node_wf' q : under C q = Some q -> wf_path q.
Proof. apply (under_wf ts C), C_wf. Qed.
Lemma at_node' q l : wf_path q -> at_loc q l -> under C q = Some q /\ changed q.
Proof. intros Hq Ha. split; [by apply (after_node ts C0 v0 C q l Hi)|by eapply after_recorded]. Qed.
Lemma changed_up p q : changed q -> under C q = Some q -> p ≼ q -> under C p = Some p -> changed p.
Proof. intros Hq Hu Hp Hup. apply (i_up _ _ _ _ _ Hi q p); [by apply node_wf'|done..]. Qed.
Lemma at_inj p q l : wf_path p -> wf_path q -> at_loc p l -> at_loc q l -> p = q.
Proof. intros. by apply (loc_inj ts Hsize C0 v0 C Hi p q l). Qed.
Lemma h_nodes v : hstate v -> nodes v = nodes v0.
Proof. intros Hs. by rewrite (h_set _ Hs). Qed.
Lemma h_update v l n q : hstate v -> wf_path q -> at_loc q l -> good q n -> hstate (hset l n v).
Proof.
  intros Hs Hq Ha Hg. split.
  - unfold hset. rewrite (h_set _ Hs) at 2. done.
  - intros q' l' Hq' Ha'. cbn. destruct (decide (l' = l)) as [->|Hne]; [|rewrite lookup_insert_ne by done; by apply (h_good _ Hs)].
    rewrite lookup_insert_eq. exists n. split; [done|]. by rewrite (at_inj q' q l).
  - intros l' Hl'. cbn. rewrite lookup_insert_ne; [by apply Hs|]. intros <-. by apply (Hl' q).
  - intros l'. cbn. destruct (decide (l' = l)) as [->|Hne]; [intros _; destruct (after_node ts C0 v0 C q l Hi Hq Ha) as (_ & m & Hm & _); by eexists|]. rewrite lookup_insert_ne by done. apply Hs.
Qed.
Lemma under_child p t r : under C (p ++ [t]) = Some r -> under C r = Some r /\ wf_path r /\ p ++ [t] ≼ r /\ p ≼ r /\ ~ r ≼ p.
Proof.
  intros Hr. pose proof (under_node _ _ _ Hr) as Hu. pose proof (under_prefix _ _ _ Hr) as Hp. split_and!; [done|by apply node_wf'|done|by apply prefix_snoc in Hp as [? _]|].
  intros Hrp. apply (not_snoc_prefix p t). by transitivity r.
Qed.
Lemma child_of p n t c : good p n -> n_children n !! t = Some c -> exists r, under C (p ++ [t]) = Some r /\ compressedKey c = key_of (drop (length p + 1) r) /\
  (~ changed r -> n_children (tnode C p) !! t = Some c) /\ n_children (tnode C p) !! t = Some (mkChild (compressedKey c) (HashNode (tnode C r)) (has C r)).
Proof.
  intros Hg Hc. pose proof (g_children _ _ _ _ _ Hg t) as Hgc. unfold good_child in Hgc. rewrite Hc in Hgc. destruct (under C (p ++ [t])) as [r|] eqn:Hr; [|done]. destruct Hgc as [Hk Hid].
  assert (n_children (tnode C p) !! t = Some (mkChild (compressedKey c) (HashNode (tnode C r)) (has C r))) as Ht.
  { rewrite (tnode_child ts C p t C_wf), Hr. cbn. unfold entry. rewrite Hk. by rewrite Nat.add_1_r. }
  exists r. split_and!; [done|done| |done]. intros Hn. destruct (Hid Hn) as [Hh Hi']. rewrite Ht. destruct c as [k i b]. cbn in *. by rewrite Hh, Hi'.
Qed.
Lemma good_alter p n t r (f : child -> child) : good p n -> (forall c, compressedKey (f c) = compressedKey c) -> under C (p ++ [t]) = Some r -> changed r -> good p (set_children (alter f t (n_children n)) n).
Proof.
  intros [Hk Hv Hd Hc] Hf Hr Hch. split; [done..|]. intros t'. cbn. destruct (decide (t' = t)) as [->|Hne]; [|by rewrite lookup_alter_ne].
  rewrite lookup_alter_eq. specialize (Hc t). unfold good_child in *. rewrite Hr in *. destruct (n_children n !! t) as [c|]; [|done]. cbn. rewrite Hf. destruct Hc as [? _]. by split.
Qed.

(** *** Room for the children *)
Lemma setLength_spec p n kb : good p n -> under C p = Some p -> Forall is_byte kb ->
  exists z, setLengthForChildren ts n kb = kb ++ z /\ Forall is_byte z /\ (size (key_of p) <= length (kb ++ z))%nat /\ forall t r, under C (p ++ [t]) = Some r -> (size (key_of r) <= length (kb ++ z))%nat.
Proof.
  intros Hg Hu Hkb. unfold setLengthForChildren. set (m := foldl _ _ _). pose proof (node_wf' p Hu) as Hw. rewrite (g_key _ _ _ _ _ Hg). set (s := bytesNeeded _).
  assert (exists z, setBytesLength kb s = kb ++ z /\ Forall is_byte z /\ (s <= length (kb ++ z))%nat) as (z & -> & Hz & Hs).
  { unfold setBytesLength. destruct (Nat.leb_spec s (length kb)); [exists []; by rewrite app_nil_r|]. exists (replicate (s - length kb) 0). rewrite length_app, length_replicate. split_and!; [done|apply Forall_replicate; split; lia|lia]. }
  assert (forall k, (k <= k_length (key_of p) + ts + m)%nat -> (bytesNeeded k <= s)%nat) as Hle by (intros k Hk; apply bytesNeeded_le; pose proof (bytesNeeded_spec (k_length (key_of p) + ts + m)); subst s; lia).
  exists z. split_and!; [done|done|etransitivity; [apply Hle; lia|done]|]. intros t r Hr. etransitivity; [apply Hle|exact Hs]. destruct (under_child p t r Hr) as (_ & Hwr & Hpr & _ & _).
  pose proof (g_children _ _ _ _ _ Hg t) as Hc. unfold good_child in Hc. rewrite Hr in Hc. destruct (n_children n !! t) as [c|] eqn:Hct; [|done]. destruct Hc as [Hk _].
  assert (k_length (compressedKey c) <= m)%nat as Hm by (apply (foldl_max (fun e : Z * child => k_length (compressedKey e.2)) _ 0 (t, c)); by apply elem_of_entries).
  rewrite Hk in Hm. rewrite (key_of_length ts Hsize) in Hm by by apply wf_path_drop. rewrite length_drop in Hm. rewrite !(key_of_length ts Hsize) by done. apply prefix_length in Hpr. rewrite length_app in Hpr. cbn in Hpr. nia.
Qed.
Lemma extended_ok p n kb : good p n -> under C p = Some p -> Forall is_byte kb -> (size (key_of p) <= length kb)%nat -> take (size (key_of p)) kb = k_value (key_of p) ->
  buf_ok (setLengthForChildren ts n kb) p /\ kept p kb (setLengthForChildren ts n kb).
Proof.
  intros Hg Hu Hkb Hl Ht. destruct (setLength_spec p n kb Hg Hu Hkb) as (z & -> & Hz & Hs & Hc). assert (Forall is_byte (kb ++ z)) as Hb by by apply Forall_app.
  split; split_and!; [done|done|by rewrite take_app_le|done|done|rewrite length_app; lia|rewrite take_app_le; [done|lia]].
Qed.
Lemma setKeyBuffer_ok p n kb : good p n -> under C p = Some p -> Forall is_byte kb -> buf_ok (setKeyBuffer ts n kb) p.
Proof.
  intros Hg Hu Hkb. unfold setKeyBuffer. destruct (setLength_spec p n kb Hg Hu Hkb) as (z & -> & Hz & Hs & Hc). rewrite (g_key _ _ _ _ _ Hg). set (b := kb ++ z) in *.
  pose proof (wk_valid _ _ (key_of_wf ts Hsize p (node_wf' p Hu))) as Hv. pose proof (v_length _ Hv) as Hl. assert (length (copy b (k_value (key_of p))) = length b) as Hlen by (unfold copy; rewrite length_app, length_take, length_drop; lia).
  assert (Forall is_byte b) as Hb by by apply Forall_app. split_and!; [|by rewrite Hlen| |by rewrite Hlen].
  - unfold copy. apply Forall_app. split; [apply Forall_take, Hv|by apply Forall_drop].
  - unfold copy. rewrite (take_ge (k_value _)) by lia. by rewrite <- Hl, take_app_length.
Qed.

(** *** One child *)
Section loop.
Context p l n kb v (Hv : hstate v) (Hu : under C p = Some p) (Hn : here p l n v).
Record looped (ds : list Z) v' kb' : Prop := {
  lp_state : hstate v';
  lp_node : exists n', heap v' !! l = Some n' /\ n_key n' = n_key n /\ n_value n' = n_value n /\ valueDigest n' = valueDigest n /\
    forall t, n_children n' !! t = if decide (t ∈ ds) then n_children (tnode C p) !! t else n_children n !! t;
  lp_done t q lq : t ∈ ds -> p ++ [t] ≼ q -> wf_path q -> at_loc q lq -> heap v' !! lq = Some (tnode C q);
  lp_rest q lq : q <> p -> (forall t, t ∈ ds -> ~ p ++ [t] ≼ q) -> wf_path q -> at_loc q lq -> heap v' !! lq = heap v !! lq;
  lp_other lq : (forall q, wf_path q -> ~ at_loc q lq) -> heap v' !! lq = heap v !! lq;
  lp_kept : kept p kb kb';
}.
Lemma looped_start : Forall is_byte kb -> looped [] v kb.
Proof.
  intros Hkb. split; [done| |by intros t q lq ?%not_elem_of_nil|done|done|done]. exists n. split; [apply Hn|]. split_and!; [done..|]. intros t. rewrite decide_False; [done|apply not_elem_of_nil].
Qed.
Lemma p_wf : wf_path p.
Proof. by apply node_wf'. Qed.
Lemma p_not_below t q : p ++ [t] ≼ q -> q <> p.
Proof. intros Hp ->. by apply not_snoc_prefix in Hp. Qed.
Lemma other_child t t' q : p ++ [t] ≼ q -> p ++ [t'] ≼ q -> t = t'.
Proof. intros [_ H1]%prefix_snoc [_ H2]%prefix_snoc. congruence. Qed.
(** A child that has not changed. *)
Lemma looped_skip ds t c r v1 kb1 kb2 : looped ds v1 kb1 -> t ∉ ds -> n_children n !! t = Some c -> under C (p ++ [t]) = Some r -> ~ changed r -> kept p kb kb2 -> looped (ds ++ [t]) v1 kb2.
Proof.
  intros Hl Ht Hc Hr Hnr Hkb. destruct (under_child p t r Hr) as (Hur & Hwr & Hpr & Hp & _). split; [apply Hl| | | |apply Hl|done].
  - destruct (lp_node _ _ _ Hl) as (n' & Hn' & Hk & Hval & Hd & Hch). exists n'. split_and!; [done..|]. intros t'. rewrite Hch. destruct (decide (t' ∈ ds)) as [Hin|Hin]; [rewrite decide_True; [done|apply elem_of_app; by left]|].
    destruct (decide (t' = t)) as [->|Hne]; [|rewrite decide_False; [done|intros [?|?%list_elem_of_singleton]%elem_of_app; done]]. rewrite decide_True by (apply elem_of_app; right; by left).
    destruct (child_of p n t c (he_good _ _ _ _ Hn) Hc) as (r' & Hr' & _ & Hsame & _). assert (r' = r) as -> by congruence. by rewrite Hsame.
  - intros t' q lq [Hin|Hin]%elem_of_app Hq Hwq Ha; [by apply (lp_done _ _ _ Hl t' q)|]. apply list_elem_of_singleton in Hin as ->. exfalso. destruct (at_node' q lq Hwq Ha) as [Huq Hcq].
    destruct (under_mono C _ _ _ Hq Huq) as (r' & Hr' & Hle). assert (r' = r) as -> by congruence. apply Hnr. by apply (changed_up r q).
  - intros q lq Hq Hno Hwq Ha. apply (lp_rest _ _ _ Hl q lq); [done| |done|done]. intros t' Ht'. apply Hno, elem_of_app. by left.
Qed.
(** A child whose subtree has been hashed in between. *)
Lemma looped_step ds t c r lr v1 kb1 kb2 n1 v2 : looped ds v1 kb1 -> t ∉ ds -> n_children n !! t = Some c -> under C (p ++ [t]) = Some r -> at_loc r lr ->
  heap v1 !! l = Some n1 -> hashed r (hset l (set_children (alter (with_hasValue (has C r)) t (n_children n1)) n1) v1) v2 -> kept p kb kb2 ->
  exists n2, heap v2 !! l = Some n2 /\ looped (ds ++ [t]) (hset l (set_children (alter (with_id (HashNode (tnode C r))) t (n_children n2)) n2) v2) kb2.
Proof.
  intros Hl Ht Hc Hr Hlr Hn1 Hh Hkb. destruct (under_child p t r Hr) as (Hur & Hwr & Hpr & Hp & Hrp). pose proof p_wf as Hwp. assert (changed r) as Hcr by by eapply after_recorded.
  assert (at_loc p l) as Hpl by (by apply (he_loc _ _ _ _ Hn), (changed_up p r)). set (n2 := set_children (alter (with_hasValue (has C r)) t (n_children n1)) n1) in *.
  assert (heap v2 !! l = Some n2) as Hl2 by (rewrite (hd_same _ _ _ Hh p l Hwp Hrp Hpl); cbn; by rewrite lookup_insert_eq). exists n2. split; [done|]. set (n3 := set_children _ n2).
  destruct (lp_node _ _ _ Hl) as (n' & Hn' & Hk & Hval & Hd & Hch). assert (n' = n1) as -> by congruence.
  destruct (h_good _ (lp_state _ _ _ Hl) p l Hwp Hpl) as (n1' & Hn1' & Hg1). assert (n1' = n1) as -> by congruence.
  destruct (child_of p n t c (he_good _ _ _ _ Hn) Hc) as (r' & Hr' & _ & _ & Htn). assert (r' = r) as -> by congruence.
  assert (good p n3) as Hg3 by (apply (good_alter p n2 t r); [by apply (good_alter p n1 t r)|done|done|done]).
  assert (forall q lq, q <> p -> wf_path q -> at_loc q lq -> lq <> l) as Hneq by (intros q lq Hq Hwq Ha ->; by apply Hq, (at_inj q p l)).
  assert (forall q lq, q <> p -> ~ r ≼ q -> wf_path q -> at_loc q lq -> heap (hset l n3 v2) !! lq = heap v1 !! lq) as Hoff.
  { intros q lq Hq Hrq Hwq Ha. pose proof (Hneq q lq Hq Hwq Ha). cbn. rewrite lookup_insert_ne by done. rewrite (hd_same _ _ _ Hh q lq Hwq Hrq Ha). cbn. by rewrite lookup_insert_ne. }
  split; [apply (h_update _ _ _ p); [apply Hh|done|done|done]| | | | |done].
  - exists n3. split; [cbn; by rewrite lookup_insert_eq|]. split_and!; [done|done|done|]. intros t'. cbn. destruct (decide (t' = t)) as [->|Hne].
    + rewrite !lookup_alter_eq, Hch, decide_False, Hc by done. cbn. rewrite decide_True by (apply elem_of_app; right; by left). by rewrite Htn.
    + rewrite !lookup_alter_ne, Hch by done. destruct (decide (t' ∈ ds)); [rewrite decide_True; [done|apply elem_of_app; by left]|]. rewrite decide_False; [done|]. intros [?|?%list_elem_of_singleton]%elem_of_app; done.
  - intros t' q lq Hin Hq Hwq Ha. pose proof (p_not_below t' q Hq) as Hqp. apply elem_of_app in Hin as [Hin|Hin].
    + rewrite (Hoff q lq); [by apply (lp_done _ _ _ Hl t' q)|done| |done|done]. intros Hrq. apply Ht. rewrite (other_child t t' q); [done|by transitivity r|done].
    + apply list_elem_of_singleton in Hin as ->. destruct (at_node' q lq Hwq Ha) as [Huq _]. destruct (under_mono C _ _ _ Hq Huq) as (r' & Hr2 & Hle). assert (r' = r) as -> by congruence.
      cbn. rewrite lookup_insert_ne by (by apply not_eq_sym, (Hneq q)). by apply (hd_below _ _ _ Hh).
  - intros q lq Hqp Hno Hwq Ha. rewrite (Hoff q lq); [apply (lp_rest _ _ _ Hl q lq); [done| |done|done]; intros t' Ht'; apply Hno, elem_of_app; by left|done| |done|done].
    intros Hrq. apply (Hno t); [apply elem_of_app; right; by left|by transitivity r].
  - intros lq Hlq. assert (lq <> l) as Hne by (intros ->; by apply (Hlq p)). cbn. rewrite lookup_insert_ne by done. rewrite (hd_other _ _ _ Hh lq Hlq). cbn. rewrite lookup_insert_ne by done. by apply (lp_other _ _ _ Hl).
Qed.
End loop.

(** *** The recursion *)
Lemma kept_trans p kb kb1 kb2 : kept p kb kb1 -> kept p kb1 kb2 -> kept p kb kb2.
Proof. intros (_ & Hl & Ht) (Hb & Hl' & Ht'). split_and!; [done|lia|by rewrite Ht']. Qed.
Lemma kept_up p r kb kb' : wf_path r -> p ≼ r -> kept r kb kb' -> kept p kb kb'.
Proof.
  intros Hr Hp (Hb & Hl & Ht). split_and!; [done|done|]. pose proof (wf_path_prefix ts p r Hp Hr) as Hwp. apply prefix_length in Hp.
  assert (size (key_of p) <= size (key_of r))%nat by (apply bytesNeeded_le; pose proof (bytesNeeded_spec (k_length (key_of r))); rewrite !(key_of_length ts Hsize) in * by done; nia).
  replace (size (key_of p) - 1)%nat with (Nat.min (size (key_of p) - 1) (size (key_of r) - 1)) by lia. by rewrite <- !take_take, Ht.
Qed.
Lemma leaf_hashed r lr n v : hstate v -> wf_path r -> at_loc r lr -> heap v !! lr = Some n -> good r n -> n_children n = ∅ -> n = tnode C r /\ hashed r v v.
Proof.
  intros Hv Hr Ha Hn Hg Hch. assert (forall t, under C (r ++ [t]) = None) as Hnone.
  { intros t. pose proof (g_children _ _ _ _ _ Hg t) as Hc. unfold good_child in Hc. rewrite Hch, lookup_empty in Hc. by destruct (under C (r ++ [t])). }
  assert (n = tnode C r) as -> by (eapply good_exact; [apply C_wf|exact Hg|]; intros t r' Hr'; by rewrite Hnone in Hr'). split; [done|]. split; [done| |done|done].
  intros q lq Hq Hrq Haq. destruct (decide (r = q)) as [->|Hne]; [by assert (lq = lr) as -> by congruence|]. destruct (prefix_strict_snoc r q Hrq Hne) as [t Ht].
  destruct (at_node' q lq Hq Haq) as [Huq _]. destruct (under_mono C _ _ _ Ht Huq) as (r' & Hr' & _). by rewrite Hnone in Hr'.
Qed.
Definition bounded fuel p : Prop := forall q, changed q -> wf_path q -> (length q < fuel + length p)%nat.
Definition hash_post p kb v (res : ID * bytes) v' : Prop := res.1 = HashNode (tnode C p) /\ hashed p v v' /\ kept p kb res.2.
Definition hash_correct fuel : Prop := forall p l n kb v, hstate v -> under C p = Some p -> here p l n v -> buf_ok kb p -> bounded fuel p -> (0 < fuel)%nat ->
  wp ok (hashChangedNode ts pool fuel l kb) (hash_post p kb v) v.

Lemma hash_child_wp fuel p l n kb v last ds v1 kb1 t c : hash_correct fuel -> hstate v -> under C p = Some p -> here p l n v -> buf_ok kb p -> bounded (S fuel) p ->
  ((0 < size (key_of p))%nat -> k_value (key_of p) !! (size (key_of p) - 1)%nat = Some last) ->
  looped p l n kb v ds v1 kb1 -> t ∉ ds -> n_children n !! t = Some c ->
  wp ok (hash_child ts pool (hashChangedNode ts pool fuel) l (key_of p) last kb1 (t, c)) (fun kb2 v2 => looped p l n kb v (ds ++ [t]) v2 kb2) v1.
Proof.
  intros IH Hv Hu Hn (Hb & Hs & Htk & Hroom) Hfuel Hlast Hl Ht Hc. pose proof (node_wf' p Hu) as Hwp. destruct (child_of p n t c (he_good _ _ _ _ Hn) Hc) as (r & Hr & Hck & _ & _).
  destruct (under_child p t r Hr) as (Hur & Hwr & Hpr & Hp & Hrp). pose proof (lp_kept _ _ _ _ _ _ _ _ Hl) as (Hb1 & Hl1 & Ht1).
  assert (take (size (key_of p) - 1) kb = take (size (key_of p) - 1) (k_value (key_of p))) as Hpre by (rewrite <- Htk, take_take; f_equal; lia).
  destruct (child_buffer_spec ts Hsize p t r c kb1 last) as (kb' & He & Hl' & Hb' & Htr & Htp); [done|done|done|done|by etransitivity; [eapply Hroom|]|by rewrite Ht1|done|].
  assert (kept p kb kb') as Hkept by (eapply kept_trans; [apply (lp_kept _ _ _ _ _ _ _ _ Hl)|split_and!; [done|lia|done]]).
  unfold hash_child. apply wp_bind, wp_lift. rewrite He. apply wp_bind, wp_get. rewrite (h_nodes _ (lp_state _ _ _ _ _ _ _ _ Hl)).
  destruct (nodes v0 !! key_of r) as [ch|] eqn:Hch.
  2: { apply wp_ret. eapply looped_skip; try done. intros [x Hx]. unfold is_Some in Hx. congruence. }
  assert (after ts v0 r = Some (nc_after ch)) as Har by (unfold after; by rewrite Hch). pose proof (i_nodes _ _ _ _ _ Hi r _ Hwr Har) as Hin. destruct (nc_after ch) as [lr|]; [|done].
  apply wp_bind, wp_must. exists lr. split; [done|]. destruct (h_good _ (lp_state _ _ _ _ _ _ _ _ Hl) r lr Hwr Har) as (nr & Hnr & Hgr). apply wp_bind. eapply deref_wp; [exact Hnr|].
  destruct (lp_node _ _ _ _ _ _ _ _ Hl) as (n1 & Hn1 & _). rewrite (has_value ts nr _ C r Hgr). apply wp_bind. unfold update_entry. eapply update_wp; [exact Hn1|done|]. cbn [fst snd].
  set (n2 := set_children (alter (with_hasValue (has C r)) t (n_children n1)) n1). set (v2 := hset l n2 v1). assert (changed r) as Hcr by by eapply after_recorded.
  assert (at_loc p l) as Hpl by (by apply (he_loc _ _ _ _ Hn), (changed_up p r)). destruct (h_good _ (lp_state _ _ _ _ _ _ _ _ Hl) p l Hwp Hpl) as (n1' & Hn1' & Hg1). assert (n1' = n1) as -> by congruence.
  assert (hstate v2) as Hv2 by (apply (h_update _ _ _ p); [apply Hl|done|done|by apply (good_alter p n1 t r)]).
  assert (lr <> l) as Hlr by (intros ->; apply Hrp; rewrite (at_inj r p l) by done; done). assert (heap v2 !! lr = Some nr) as Hnr2 by (cbn; by rewrite lookup_insert_ne).
  assert (forall kb2 v3, hashed r v2 v3 -> kept p kb kb2 -> wp ok (_ ← update l (fun n => Ok (set_children (alter (with_id (HashNode (tnode C r))) t (n_children n)) n)); mret kb2) (fun kb2 v2 => looped p l n kb v (ds ++ [t]) v2 kb2) v3) as Hend.
  { intros kb2 v3 Hh Hk. destruct (looped_step p l n kb v Hu Hn ds t c r lr v1 kb1 kb2 n1 v3) as (n3 & Hn3 & Hfin); try done. apply wp_bind. eapply update_wp; [exact Hn3|done|]. by apply wp_ret. }
  destruct (Nat.eqb_spec (base.size (n_children nr)) 0) as [Hz%map_size_empty_inv|Hz].
  { destruct (leaf_hashed r lr nr v2 Hv2 Hwr Har Hnr2 Hgr Hz) as [-> Hh]. by apply Hend. }
  assert (bounded fuel r) as Hbr by (intros q Hq Hwq; specialize (Hfuel q Hq Hwq); apply prefix_length in Hpr; rewrite length_app in Hpr; cbn in Hpr; lia). assert (0 < fuel)%nat as Hpos by (specialize (Hbr r Hcr Hwr); lia).
  assert (here r lr nr v2) as Hhr by by split. destruct (pool (key_of r)) as [b|] eqn:Hpool'.
  - apply wp_bind. eapply wp_mono; [apply (IH r lr nr); [done|done|done|apply setKeyBuffer_ok; [done|done|by eapply Hpool]|done|done]|]. intros [i kb3] v3 (Heq & Hh & _). cbn in Heq. subst i. by apply Hend.
  - destruct (extended_ok r nr kb') as [Hok' Hk']; [done|done|done|by rewrite Hl'; etransitivity; [eapply Hroom|]|done|]. apply wp_bind. eapply wp_mono; [by apply (IH r lr nr)|].
    intros [i kb3] v3 (Heq & Hh & Hk3). cbn in Heq. subst i. apply Hend; [done|]. eapply kept_trans; [exact Hkept|]. eapply kept_up; [exact Hwr|exact Hp|]. by eapply kept_trans.
Qed.
Lemma hash_all fuel : hash_correct fuel.
Proof.
  induction fuel as [|fuel IH]; intros p l n kb v Hv Hu Hn Hb Hfuel Hpos; [lia|]. cbn [hashChangedNode]. pose proof (node_wf' p Hu) as Hwp. apply wp_bind. eapply deref_wp; [apply Hn|].
  rewrite (g_key _ _ _ _ _ (he_good _ _ _ _ Hn)). pose proof Hb as (Hkb & Hlen & Htk & Hroom). pose proof (wk_valid _ _ (key_of_wf ts Hsize p Hwp)) as Hvp. pose proof (v_length _ Hvp) as Hvl.
  assert (exists last, (if (0 <? size (key_of p))%nat then lift (index kb (size (key_of p) - 1)) else mret 0) v = (v, Ok last) /\ ((0 < size (key_of p))%nat -> k_value (key_of p) !! (size (key_of p) - 1)%nat = Some last)) as (last & Hl & Hlast).
  { destruct (Nat.ltb_spec 0 (size (key_of p))) as [Hs|]; [|exists 0; split; [done|lia]]. destruct (lookup_lt_is_Some_2 (k_value (key_of p)) (size (key_of p) - 1)) as [b Hbl]; [lia|]. exists b. split; [|done].
    unfold lift. rewrite (index_Some kb _ b); [done|]. rewrite <- Hbl, <- Htk. symmetry. apply lookup_take_lt. lia. }
  apply wp_bind. unfold wp at 1. rewrite Hl. apply wp_bind.
  eapply (wp_foldM ok _ _ _ _ (fun ds kb' v' => looped p l n kb v ds.*1 v' kb')); [by apply looped_start| |].
  - intros ds [t c] rest kb1 v1 Heq Hlp. pose proof (key_not_before _ _ _ _ Heq (entries_keys_nodup _)) as Ht. assert (n_children n !! t = Some c) as Hc by (apply elem_of_entries; rewrite Heq; apply elem_of_app; right; by left).
    rewrite fmap_app. cbn [fmap list_fmap fst]. by apply hash_child_wp.
  - intros kb' v' Hlp. destruct (lp_node _ _ _ _ _ _ _ _ Hlp) as (n' & Hn' & Hk & Hval & Hd & Hch). apply wp_bind. eapply deref_wp; [exact Hn'|]. apply wp_ret.
    assert (forall t, is_Some (n_children n !! t) <-> t ∈ (entries (n_children n)).*1) as Hin.
    { intros t. split; [intros [c Hc]; apply list_elem_of_fmap; exists (t, c); split; [done|by apply elem_of_entries]|]. intros ([t' c] & -> & Hc%elem_of_entries)%list_elem_of_fmap. by exists c. }
    assert (forall t, is_Some (n_children n !! t) <-> is_Some (under C (p ++ [t]))) as Hiff.
    { intros t. pose proof (g_children _ _ _ _ _ (he_good _ _ _ _ Hn) t) as Hc. unfold good_child in Hc. destruct (n_children n !! t), (under C (p ++ [t])); by try (split; intros [? ?]). }
    assert (n' = tnode C p) as ->.
    { destruct (tnode_fields ts C p C_wf) as (H1 & H2 & H3). destruct (he_good _ _ _ _ Hn) as [G1 G2 G3 _]. apply node_ext; [congruence..|]. intros t. rewrite Hch. case_decide as Ht; [done|].
      rewrite <- Hin in Ht. rewrite (proj2 (eq_None_not_Some _) Ht). rewrite Hiff in Ht. rewrite (tnode_child ts C p t C_wf). by rewrite (proj2 (eq_None_not_Some _) Ht). }
    split; [done|]. split; [|apply Hlp]. split; [apply Hlp| | |apply Hlp].
    + intros q lq Hwq Hq Ha. destruct (decide (p = q)) as [->|Hne]; [assert (lq = l) as ->; [|done]; pose proof (he_loc _ _ _ _ Hn ltac:(by eapply after_recorded)); congruence|].
      destruct (prefix_strict_snoc p q Hq Hne) as [t Ht]. apply (lp_done _ _ _ _ _ _ _ _ Hlp t q); [|done|done|done]. apply Hin, Hiff. destruct (at_node' q lq Hwq Ha) as [Huq _].
      destruct (under_mono C _ _ _ Ht Huq) as (r & Hr & _). by exists r.
    + intros q lq Hwq Hq Ha. apply (lp_rest _ _ _ _ _ _ _ _ Hlp q lq); [by intros ->| |done|done]. intros t _ Ht. apply Hq. by apply prefix_snoc in Ht as [? _].
Qed.

(** *** From the root *)
Record finished v' : Prop := {
  fi_state : v' = set_rootID (root_id ts C) (set_heap (heap v') v0);
  fi_nodes q l : wf_path q -> at_loc q l -> heap v' !! l = Some (tnode C q);
  fi_root : root_node v' = tnode C <$> root_path C;
}.
Lemma view_eta v : v = set_heap (heap v) v.
Proof. by destruct v. Qed.
Lemma hstate_start : hstate v0.
Proof. split; [apply view_eta| |done|done]. intros q l Hq Ha. by destruct (after_node ts C0 v0 C q l Hi Hq Ha). Qed.
Lemma fuel_bound p : bounded (hash_fuel v0) p.
Proof.
  assert (forall k ch, nodes v0 !! k = Some ch -> (k_length k <= map_fold (fun k (_ : nchange) m => Nat.max (k_length k) m) 0 (nodes v0))%nat) as Hmax.
  { apply (map_fold_weak_ind (fun b (m : gmap Key nchange) => forall k ch, m !! k = Some ch -> (k_length k <= b)%nat)); [by intros k ch|]. intros i x m b _ IH k ch. destruct (decide (k = i)) as [->|Hne]; [lia|].
    rewrite lookup_insert_ne by done. intros Hk%IH. lia. }
  intros q [ch Hq] Hwq. specialize (Hmax _ _ Hq). rewrite (key_of_length ts Hsize q Hwq) in Hmax. pose proof (token_size_pos ts Hsize). unfold hash_fuel. nia.
Qed.
Lemma hashChangedNodes_wp kb : Forall is_byte kb -> wp ok (hashChangedNodes ts pool kb) (fun _ v' => finished v') v0.
Proof.
  intros Hkb. unfold hashChangedNodes. apply wp_bind, wp_get. pose proof (i_root _ _ _ _ _ Hi) as Hroot. destruct (root v0) as [l|] eqn:Hl.
  2: { apply wp_modify. assert (forall q, under C q = None) as Hnone by (intros q; apply under_None; rewrite Hroot; by intros k [? ?]). split.
       - unfold root_id, root_path. rewrite Hnone. by destruct v0.
       - intros q l Hq Ha. destruct (at_node' q l Hq Ha) as [Hu _]. by rewrite Hnone in Hu.
       - unfold root_node, root_path. rewrite Hnone. cbn. by rewrite Hl. }
  destruct Hroot as (r & n & Hr & Hn & Ha). pose proof (under_node C [] r Hr) as Hu. pose proof (node_wf' r Hu) as Hwr.
  assert (changed r -> at_loc r l) as Hloc by (intros [a Har]%recorded_after; rewrite Har in Ha; by subst a).
  assert (forall q lq, wf_path q -> at_loc q lq -> r ≼ q /\ changed r) as Hbelow.
  { intros q lq Hq Haq. destruct (at_node' q lq Hq Haq) as [Huq Hcq]. destruct (root_below C q Huq) as (r' & Hr' & Hle). assert (r' = r) as -> by congruence. split; [done|by apply (changed_up r q)]. }
  assert (~ changed r -> n = tnode C r) as Hun by (intros Hc%after_None; by rewrite Hc in Ha).
  assert (good r n) as Hg. { destruct (decide (is_Some (nodes v0 !! key_of r))) as [Hc|Hc]; [|rewrite (Hun Hc); apply good_tnode, C_wf]. destruct (h_good _ hstate_start r l Hwr (Hloc Hc)) as (n' & Hn' & ?). congruence. }
  assert (forall v' i, hashed r v0 v' -> i = HashNode (tnode C r) -> finished (set_rootID i v')) as Hfin.
  { intros v' i Hh ->. pose proof (h_set _ (hd_state _ _ _ Hh)) as Hset. split.
    - assert (root_id ts C = HashNode (tnode C r)) as -> by (unfold root_id; by rewrite Hr). rewrite Hset at 1. by destruct v0.
    - intros q lq Hq Haq. apply (hd_below _ _ _ Hh); [done| |done]. by destruct (Hbelow q lq).
    - unfold root_node. rewrite Hr. cbn. rewrite Hset. cbn. rewrite Hl. cbn. destruct (decide (is_Some (nodes v0 !! key_of r))) as [Hc|Hc]; [by apply (hd_below _ _ _ Hh); [| |apply Hloc]|].
      rewrite (hd_other _ _ _ Hh), Hn, (Hun Hc); [done|]. intros q Hq Haq. by destruct (Hbelow q l Hq Haq). }
  apply wp_bind. eapply deref_wp; [exact Hn|]. destruct (Nat.eqb_spec (base.size (n_children n)) 0) as [Hz%map_size_empty_inv|Hz].
  - apply wp_modify. destruct (decide (is_Some (nodes v0 !! key_of r))) as [Hc|Hc].
    + destruct (leaf_hashed r l n v0 hstate_start Hwr (Hloc Hc) Hn Hg Hz) as [-> Hh]. by apply Hfin.
    + rewrite (Hun Hc). apply Hfin; [|done]. split; [apply hstate_start| |done|done]. intros q lq Hq _ Haq. by destruct (Hbelow q lq Hq Haq).
  - apply wp_bind. eapply wp_mono; [apply (hash_all _ r l n); [apply hstate_start|done|by split|by apply setKeyBuffer_ok|apply fuel_bound|unfold hash_fuel; lia]|].
    intros [i kb'] v' (Heq & Hh & _). apply wp_modify, Hfin; done.
Qed.
End hashing.
End MerkleHash.
