(* ===== verification/MerkleTheorems.v ===== *)
(** * What a view of the Merkle trie shows
    A view over a parent trie, once its changes are applied, is the trie of the changed
    contents and can be a parent itself; its root identifier depends on the contents
    alone, and it determines them unless SHA-256 has a collision. *)
From stdpp Require Import sorting.
From S2P Require Import Prelude Monads GoLibrary MapOrder Sorting Database MerkleKey MerkleCodec MerkleSpec MerkleView MerkleViewFacts MerkleHash.

Module MerkleTheorems.
Import Sorting Database MerkleKey MerkleNode MerkleSpec MerkleView MerkleViewFacts MerkleHash.
#[local] Notation "p ≼ q" := (prefix p q) (at level 70).

(** ** The contents after some changes *)
Section updates.
Context (ts : nat) (Hsize : token_size ts).
Implicit Types (C : gmap path bytes) (k : Key) (m : gmap Key vchange).
Definition change_at C k (o : option bytes) : gmap path bytes :=
  match o with Some w => <[tokens ts k := w]> C | None => delete (tokens ts k) C end.
Definition updated C (ops : list (Key * option bytes)) : gmap path bytes := foldl (fun C e => change_at C e.1 e.2) C ops.
(** The operations of a view, in order. *)
Definition ops_of (BatchOps : list BatchOp) (MapOps : list (bytes * option bytes)) : list (Key * option bytes) :=
  ((fun op => (ToKey (op_Key op), if op_Delete op then None else Some (op_Value op))) <$> BatchOps) ++ ((fun op => (ToKey op.1, op.2)) <$> MapOps).

Lemma lookup_change_at C k o p : change_at C k o !! p = if decide (p = tokens ts k) then o else C !! p.
Proof.
  destruct o; cbn; (case_decide as Hd; [subst p; by rewrite ?lookup_insert_eq, ?lookup_delete_eq|]); [by rewrite lookup_insert_ne|by rewrite lookup_delete_ne].
Qed.
(** [m] has the last change of every key since [C0]. *)
Record tracks C0 m C : Prop := {
  tr_keys k : is_Some (m !! k) -> wf_key ts k;
  tr_lookup p : C !! p = match m !! key_of ts p with
                         | Some ch => if decide (tokens ts (key_of ts p) = p) then vc_after ch else C0 !! p
                         | None => C0 !! p
                         end;
}.
Lemma tracks_empty C0 : tracks C0 ∅ C0.
Proof. split; [intros k; rewrite lookup_empty; by intros [? ?]|intros p; by rewrite lookup_empty]. Qed.
Lemma tracks_insert C0 m C k ch : wf_key ts k -> tracks C0 m C -> tracks C0 (<[k := ch]> m) (change_at C k (vc_after ch)).
Proof.
  intros Hk [Hm Hl]. split.
  - intros k'. destruct (decide (k' = k)) as [->|Hne]; [done|]. rewrite lookup_insert_ne by done. apply Hm.
  - intros p. rewrite lookup_change_at. destruct (decide (key_of ts p = k)) as [Heq|Hne].
    + rewrite Heq, lookup_insert_eq. destruct (decide (tokens ts k = p)) as [<-|Hne]; [by rewrite decide_True|]. rewrite decide_False by done. rewrite Hl, Heq. destruct (m !! k); [by rewrite decide_False|done].
    + rewrite lookup_insert_ne by done. rewrite decide_False; [apply Hl|]. intros ->. by rewrite (key_of_tokens ts Hsize) in Hne.
Qed.
Lemma tracks_unique C0 m C C' : tracks C0 m C -> tracks C0 m C' -> C = C'.
Proof. intros [_ H1] [_ H2]. apply map_eq. intros p. by rewrite H1, H2. Qed.
Lemma tracks_value C0 m C k : tracks C0 m C -> wf_key ts k -> C !! tokens ts k = match m !! k with Some ch => vc_after ch | None => C0 !! tokens ts k end.
Proof. intros [_ Hl] Hk. rewrite Hl, (key_of_tokens ts Hsize k Hk). destruct (m !! k); [by rewrite decide_True|done]. Qed.
Lemma ToKey_wf_key l : Forall is_byte l -> wf_key ts (ToKey l).
Proof. apply ToKey_wf, Hsize. Qed.
End updates.

(** ** From the operations to the trie *)
Section view.
Context {H : Hasher} {P : ParentTrie} {okeys : KeyOrder Key} {ochildren : KeyOrder Z}.
Context (ts : nat) (Hsize : token_size ts) (ok : MerkleErr -> Prop) (Hok : ~ ok ErrNotFound).
Context (C0 : gmap path bytes) (HP : trie_spec ts ok C0 P).
Context (pool : Key -> option bytes) (Hpool : forall k b, pool k = Some b -> Forall is_byte b).
Implicit Types (C : gmap path bytes) (v : view) (m : gmap Key vchange).

Lemma recordValueChange_tracks m C key value : wf_key ts key -> tracks ts C0 m C ->
  match recordValueChange key value m with Ok m' => tracks ts C0 m' (change_at ts C key value) | Err e => ok e end.
Proof.
  intros Hk Ht. unfold recordValueChange. destruct (m !! key) as [ch|]; [by apply (tracks_insert ts Hsize _ _ _ _ (mkVChange (vc_before ch) value))|].
  pose proof (law_value _ _ _ _ HP key Hk) as Hv. destruct (p_getValue key) as [before|e]; [by apply (tracks_insert ts Hsize _ _ _ _ (mkVChange (Some before) value))|].
  destruct Hv as [Hv|[-> _]]; [by destruct e|]. by apply (tracks_insert ts Hsize _ _ _ _ (mkVChange None value)).
Qed.
Lemma record_all {A} (f : A -> Key * option bytes) (ops : list A) m C : Forall (fun op => wf_key ts (f op).1) ops -> tracks ts C0 m C ->
  match foldR (fun m op => recordValueChange (f op).1 (f op).2 m) m ops with Ok m' => tracks ts C0 m' (updated ts C (f <$> ops)) | Err e => ok e end.
Proof.
  intros Hops. revert m C. induction Hops as [|op ops Hop _ IH]; intros m C Ht; [done|]. cbn [foldR]. pose proof (recordValueChange_tracks m C (f op).1 (f op).2 Hop Ht) as Hr.
  destruct (recordValueChange _ _ _) as [m'|e]; [|done]. cbn [mbind result_bind]. by apply IH.
Qed.
Definition new_state v m : Prop :=
  keyChanges v = m /\ nodes v = ∅ /\ valueChangesApplied v = false /\ once v = false /\ invalidated v = false /\ match root v with Some l => exists n, heap v !! l = Some n /\ p_getRoot = Some n | None => p_getRoot = None end /\
  (forall l, is_Some (heap v !! l) -> (l < next v)%nat).
Lemma newView_spec BatchOps MapOps : Forall (fun op => Forall is_byte (op_Key op)) BatchOps -> Forall (fun op => Forall is_byte op.1) MapOps ->
  match newView BatchOps MapOps with
  | Ok v => exists m, tracks ts C0 m (updated ts C0 (ops_of BatchOps MapOps)) /\ new_state v m
  | Err e => ok e
  end.
Proof.
  intros Hb Hm. unfold newView. pose proof (record_all (fun op => (ToKey (op_Key op), if op_Delete op then None else Some (op_Value op))) BatchOps ∅ C0) as H1.
  specialize (H1 ltac:(eapply Forall_impl; [exact Hb|]; intros op; apply (ToKey_wf_key ts Hsize)) (tracks_empty ts C0)). cbn [fst snd] in H1. destruct (foldR _ ∅ BatchOps) as [m1|e]; [|done]. cbn [mbind result_bind].
  pose proof (record_all (fun op : bytes * option bytes => (ToKey op.1, op.2)) MapOps m1 _ ltac:(eapply Forall_impl; [exact Hm|]; intros op; apply (ToKey_wf_key ts Hsize)) H1) as H2. cbn [fst snd] in H2.
  destruct (foldR _ m1 MapOps) as [m2|e]; [|done]. cbn [mbind result_bind]. exists m2. split; [unfold ops_of, updated; by rewrite foldl_app|].
  destruct p_getRoot as [r|] eqn:Hr; split_and!; try done.
  - exists r. split; [|done]. cbn. rewrite lookup_singleton_eq. by destruct r as [[] ? ?].
  - intros l [n Hl]. cbn in *. apply lookup_singleton_Some in Hl as [<- _]. lia.
  - intros l [n Hl]. cbn in Hl. by rewrite lookup_empty in Hl.
Qed.
Lemma start_inv v m : new_state v m -> inv ts C0 (frame v) v C0.
Proof.
  intros (_ & Hn & Ha & _ & _ & Hr & Hf). assert (forall p, after ts v p = None) as Haf by (intros p; unfold after; by rewrite Hn, lookup_empty).
  assert (forall p, ~ recorded ts v p) as Hrec by (intros p; apply after_None, Haf). split; try done; try apply HP.
  - intros k. rewrite Hn, lookup_empty. by intros [? ?].
  - intros p a _ Hpa. by rewrite Haf in Hpa.
  - intros p q _ Hp. by destruct (Hrec p).
  - destruct (root v) as [l|].
    + destruct Hr as (n & Hn' & Hr). rewrite (law_root _ _ _ _ HP) in Hr. destruct (root_path C0) as [r|] eqn:Hrp; [|done]. injection Hr as <-. exists r, (tnode ts C0 r). by rewrite Haf.
    + rewrite (law_root _ _ _ _ HP) in Hr. destruct (root_path C0) as [r|] eqn:Hrp; [done|]. apply map_eq. intros k. rewrite lookup_empty. apply eq_None_not_Some. intros Hk.
      apply (proj1 (under_None C0 []) Hrp k Hk). apply prefix_nil.
Qed.

(** *** Applying the changes *)
Lemma wp_deferred {A} (d : view -> view) (m : MV A) Q v : wp ok m (fun a v' => Q a (d v')) v -> wp ok (deferred d m) Q v.
Proof. unfold wp, deferred. by destruct (m v) as [v' [a|e]]. Qed.
Lemma calculate_wp v m C : keyChanges v = m -> inv ts C0 (frame v) v C0 -> tracks ts C0 m C -> wp ok (calculateNodeChanges ts) (fun _ v' => inv ts C0 (frame v) v' C) v.
Proof.
  intros Hm Hi Ht. unfold calculateNodeChanges. apply wp_bind, wp_get. rewrite Hm.
  eapply wp_mono; [apply (wp_forM ok _ _ (fun done v' => exists m' C', inv ts C0 (frame v) v' C' /\ tracks ts C0 m' C' /\ forall k, m' !! k = if decide (k ∈ done.*1) then m !! k else None))|].
  - exists ∅, C0. split; [done|]. split; [apply tracks_empty|]. intros k. by rewrite lookup_empty, decide_False by apply not_elem_of_nil.
  - intros done [k ch] rest v1 Heq (m' & C' & Hi' & Ht' & Hm'). assert (m !! k = Some ch) as Hk by (apply elem_of_entries; rewrite Heq; apply elem_of_app; right; by left).
    assert (wf_key ts k) as Hwk by (apply (tr_keys _ _ _ _ Ht); by eexists). pose proof (tokens_wf ts Hsize k) as Hwt.
    eapply (wp_mono ok _ (fun _ v' => inv ts C0 (frame v) v' (change_at ts C' k (vc_after ch)))).
    + unfold calculate_change. cbn [fst snd]. pose proof (key_of_tokens ts Hsize k Hwk) as Hkt. destruct (vc_after ch) as [w|]; cbn [change_at].
      * pose proof (insert_spec ts Hsize ok C0 HP v1 C' (tokens ts k) w Hi' Hwt) as Hs. rewrite Hkt in Hs. apply wp_bind. eapply wp_mono; [exact Hs|]. intros l v2 Hi2. by apply wp_ret.
      * pose proof (remove_spec ts Hsize ok Hok C0 HP v1 C' (tokens ts k) Hi' Hwt) as Hs. by rewrite Hkt in Hs.
    + intros [] v2 Hi2. exists (<[k := ch]> m'), (change_at ts C' k (vc_after ch)). split; [done|]. split; [by apply tracks_insert|]. intros k'. rewrite fmap_app. destruct (decide (k' = k)) as [->|Hne].
      * rewrite lookup_insert_eq, decide_True; [done|]. apply elem_of_app. right. by left.
      * rewrite lookup_insert_ne by done. rewrite Hm'. destruct (decide (k' ∈ done.*1)); [rewrite decide_True; [done|apply elem_of_app; by left]|]. rewrite decide_False; [done|]. intros [?|?%list_elem_of_singleton]%elem_of_app; done.
  - intros [] v' (m' & C' & Hi' & Ht' & Hm'). assert (m' = m) as ->; [|by rewrite (tracks_unique _ _ _ _ _ Ht Ht')]. apply map_eq. intros k. rewrite Hm'. destruct (m !! k) as [ch|] eqn:Hk; [|by case_decide].
    rewrite decide_True; [done|]. apply list_elem_of_fmap. exists (k, ch). split; [done|]. by apply elem_of_entries.
Qed.
(** A view whose changes are applied. *)
Record applied v C : Prop := {
  ap_tracks : tracks ts C0 (keyChanges v) C;
  ap_wf : wf_contents ts C;
  ap_id : rootID v = root_id ts C;
  ap_once : once v = true;
  ap_valid : invalidated v = false;
  ap_root : root_node v = tnode ts C <$> root_path C;
  ap_node p : wf_path ts p ->
    match after ts v p with
    | Some (Some l) => under C p = Some p /\ heap v !! l = Some (tnode ts C p)
    | Some None => under C p <> Some p
    | None => under C p = Some p \/ under C0 p = Some p -> agree C C0 p
    end;
}.
Lemma apply_wp v m C kb : Forall is_byte kb -> new_state v m -> tracks ts C0 m C -> wp ok (applyValueChanges ts pool kb) (fun _ v' => applied v' C) v.
Proof.
  intros Hkb Hnew Ht. pose proof (start_inv v m Hnew) as Hi. destruct Hnew as (Hm & _ & _ & Honce & Hinv & _ & _).
  unfold applyValueChanges. apply wp_bind, wp_get. rewrite Honce. apply wp_deferred. rewrite Hinv. apply wp_deferred. unfold apply_body. apply wp_bind, wp_get, wp_bind.
  eapply wp_mono; [by apply (calculate_wp v m C)|]. intros [] v1 Hi1. pose proof (i_frame _ _ _ _ _ Hi1) as Hf. unfold frame in Hf. injection Hf as Hk _ _ _ Hv.
  apply wp_bind. eapply wp_mono; [by apply (hashChangedNodes_wp ts Hsize ok pool Hpool C0 C (frame v) v1 Hi1)|]. intros [] v2 [Hs Hn Hr].
  assert (invalidated v2 = false) as Hv2 by (rewrite Hs; cbn; congruence). assert (nodes v2 = nodes v1) as Hn2 by by rewrite Hs.
  apply wp_bind, wp_modify, wp_bind, wp_get. cbn. rewrite Hv2. apply wp_ret. split; cbn.
  - rewrite Hs. cbn. by rewrite Hk, Hm.
  - apply Hi1.
  - by rewrite Hs.
  - done.
  - done.
  - exact Hr.
  - intros p Hp. assert (forall c, after ts (set_once true (set_applied true (set_rootChange c v2))) p = after ts v1 p) as -> by (intros c; unfold after; cbn; by rewrite Hn2).
    destruct (after ts v1 p) as [[l|]|] eqn:Ha.
    + split; [by apply (after_node ts C0 v1 C p l Hi1)|by apply Hn].
    + exact (i_nodes _ _ _ _ _ Hi1 p None Hp Ha).
    + apply (i_clean _ _ _ _ _ Hi1 p Hp). by apply after_None.
Qed.
(** It is a trie again. *)
Lemma applied_trie v C : applied v C -> trie_spec ts ok C (view_trie v).
Proof.
  intros Ha. pose proof (ap_valid _ _ Ha) as Hv. pose proof (law_wf _ _ _ _ HP) as Hw0. pose proof (ap_wf _ _ Ha) as Hw. split; [done| | |apply Ha].
  - intros k Hk. cbn. unfold v_getValue. rewrite Hv, (tracks_value ts Hsize _ _ _ _ (ap_tracks _ _ Ha) Hk). destruct (keyChanges v !! k) as [ch|]; [destruct (vc_after ch); [done|by right]|].
    pose proof (law_value _ _ _ _ HP k Hk) as Hl. by destruct (p_getValue k) as [w|e].
  - intros k hv Hk. cbn. unfold v_getEditableNode. rewrite Hv. pose proof (tokens_wf ts Hsize k) as Hwt. pose proof (ap_node _ _ Ha (tokens ts k) Hwt) as Hn. unfold after in Hn. rewrite (key_of_tokens ts Hsize k Hk) in Hn.
    destruct (nodes v !! k) as [ch|]; cbn in Hn.
    + destruct (nc_after ch) as [l|]; cbn; [|right; split; [done|by intros ?]]. destruct Hn as [Hu ->]. cbn. split; [done|]. by destruct (tnode ts C (tokens ts k)) as [[] ? ?].
    + pose proof (law_node _ _ _ _ HP k hv Hk) as Hl. destruct (p_getEditableNode k hv) as [n|e]; cbn.
      * destruct Hl as [Hu ->]. specialize (Hn (or_intror Hu)). rewrite (under_agree _ _ _ Hn). split; [done|]. rewrite (tnode_agree ts C C0 (tokens ts k) Hw Hw0 Hn). by destruct (tnode ts C0 (tokens ts k)) as [[] ? ?].
      * destruct Hl as [|[-> Hl]]; [by left|right]. split; [done|]. intros Hu. specialize (Hn (or_introl Hu)). unfold has. rewrite (Hn (tokens ts k)) by done. apply Hl. by rewrite <- (under_agree _ _ _ Hn).
Qed.

(** C26: a view of the Merkle trie over a parent that is the trie of some contents (a database, or another view) is the trie
    of the contents after its operations, whatever the order of the maps and whichever subtrees other goroutines hash: its
    root identifier is the one of these contents, however they came about, every value and every node is that of their trie,
    also for the views on it, and a second call changes nothing.  The calculation ends, indexes no key or buffer out of
    range, follows no nil pointer, and fails only if the parent's storage does. *)
Theorem views_are_tries (BatchOps : list BatchOp) (MapOps : list (bytes * option bytes)) (kb : bytes) :
  Forall (fun op => Forall is_byte (op_Key op)) BatchOps -> Forall (fun op => Forall is_byte op.1) MapOps -> Forall is_byte kb ->
  let C := updated ts C0 (ops_of BatchOps MapOps) in
  match newView BatchOps MapOps with
  | Ok v => wp ok (GetMerkleRoot ts pool kb) (fun id v' =>
      id = root_id ts C /\ trie_spec ts ok C (view_trie v') /\ forall kb', GetMerkleRoot ts pool kb' v' = (v', Ok id)) v
  | Err e => ok e
  end.
Proof.
  intros Hb Hm Hkb C. pose proof (newView_spec BatchOps MapOps Hb Hm) as Hn. destruct (newView BatchOps MapOps) as [v|e]; [|done]. destruct Hn as (m & Ht & Hnew).
  unfold GetMerkleRoot at 1. apply wp_bind. eapply wp_mono; [by apply (apply_wp v m C kb)|]. intros [] v' Ha. apply wp_bind, wp_get, wp_ret. split; [apply Ha|]. split; [by apply applied_trie|].
  intros kb'. unfold GetMerkleRoot, applyValueChanges, mbind, M_bind, get. by rewrite (ap_once _ _ Ha).
Qed.
End view.

(** ** What a root identifier commits to *)
Section commitment.
Context {ko : KeyOrder Z} (sha256 : bytes -> ID) (Hsha : forall b, is_id (sha256 b)) (ts : nat) (Hsize : token_size ts).
#[local] Instance commit_hasher : Hasher := MerkleCodec.sha256Hasher sha256.
Implicit Types (C : gmap path bytes) (p q r k : path).
(** What is hashed of a trie: its nodes, and the values that are not shorter than their
    digests; a collision of two tries is one of two inputs that were hashed for them. *)
Definition hashed C (b : bytes) : Prop :=
  (exists p, under C p = Some p /\ b = MerkleCodec.hash_input (tnode ts C p)) \/ (exists k, C !! k = Some b /\ (HashLength <= length b)%nat).
Definition collision C C' : Prop := exists a b, hashed C a /\ hashed C' b /\ a <> b /\ sha256 a = sha256 b.
(** Values and keys whose lengths fit into the integers of the encoding. *)
Definition storable C : Prop :=
  wf_contents ts C /\ forall k w, C !! k = Some w -> MerkleCodec.P_bytes w /\ Z.of_nat (ts * length k) <= MerkleCodec.MaxInt.

Lemma ts_small : (ts <= 8)%nat.
Proof. unfold token_size in Hsize. set_solver by lia. Qed.
Lemma id_bytes b : MerkleCodec.P_bytes (sha256 b).
Proof. destruct (Hsha b) as [Hl Hb]. split; [done|]. rewrite Hl. by vm_compute. Qed.
Lemma tnode_wf_hash C p : storable C -> under C p = Some p -> MerkleCodec.wf_hash (tnode ts C p).
Proof.
  intros [Hw Hst] Hu. destruct (tnode_fields ts C p Hw) as (Hk & _ & Hd). pose proof (under_wf ts C p p Hw Hu) as Hwp. destruct (under_key _ _ _ Hu) as (k & [w Hkw] & Hpk). destruct (Hst k w Hkw) as [_ Hlen]. split.
  - rewrite Hd. intros b Hb. destruct (C !! p) as [v|] eqn:Hv; [|done]. unfold digest in Hb. destruct (length v <? HashLength)%nat; injection Hb as <-; [by apply (Hst p)|apply id_bytes].
  - rewrite Hk. split; [exact (wk_valid _ _ (key_of_wf ts Hsize p Hwp))|]. rewrite (key_of_length ts Hsize p Hwp). apply prefix_length in Hpk. nia.
  - intros t c Hc. rewrite (tnode_child ts C p t Hw) in Hc. destruct (under C (p ++ [t])) as [r|] eqn:Hr; [|done]. injection Hc as <-. split; [|apply Hsha].
    assert (wf_path ts (p ++ [t])) as Hwt by (eapply wf_path_prefix; [by eapply under_prefix|by apply (under_wf ts C _ _ Hw Hr)]). apply Forall_app in Hwt as [_ Hwt]. apply Forall_cons in Hwt as [[H0 H1] _]. split; [done|].
    pose proof ts_small. assert (2 ^ Z.of_nat ts <= 2 ^ 8) by (apply Z.pow_le_mono_r; lia). lia.
Qed.
Lemma digest_inj C C' k : digest (C !! k) = digest (C' !! k) -> C !! k = C' !! k \/ collision C C'.
Proof.
  unfold digest. destruct (C !! k) as [v|] eqn:Hv, (C' !! k) as [v'|] eqn:Hv'; try (repeat case_match; done || by left).
  destruct (Nat.ltb_spec (length v) HashLength), (Nat.ltb_spec (length v') HashLength); intros [= Heq].
  - left. by subst.
  - exfalso. subst v. cbn in *. pose proof (proj1 (Hsha v')). unfold HashLength, IDLen in *. lia.
  - exfalso. subst v'. cbn in *. pose proof (proj1 (Hsha v)). unfold HashLength, IDLen in *. lia.
  - destruct (decide (v = v')) as [->|Hne]; [by left|right]. exists v, v'. split_and!; [right; by exists k|right; by exists k|done|done].
Qed.
Lemma hash_eq C C' p p' : storable C -> storable C' -> under C p = Some p -> under C' p' = Some p' -> HashNode (tnode ts C p) = HashNode (tnode ts C' p') ->
  collision C C' \/ p = p' /\ digest (C !! p) = digest (C' !! p) /\ c_id <$> n_children (tnode ts C p) = c_id <$> n_children (tnode ts C' p).
Proof.
  intros HC HC' Hu Hu' Heq. destruct (decide (MerkleCodec.hash_input (tnode ts C p) = MerkleCodec.hash_input (tnode ts C' p'))) as [Hin|Hin]; [right|left; do 2 eexists; split_and!; [left; by exists p|left; by exists p'|exact Hin|exact Heq]].
  destruct (MerkleCodec.hash_input_inj _ _ (tnode_wf_hash C p HC Hu) (tnode_wf_hash C' p' HC' Hu') Hin) as (Hk & Hd & Hc). destruct HC as [Hw _], HC' as [Hw' _].
  destruct (tnode_fields ts C p Hw) as (Hk1 & _ & Hd1), (tnode_fields ts C' p' Hw') as (Hk2 & _ & Hd2). assert (p = p') as <-; [|split; [done|split; congruence]].
  apply (key_of_inj ts Hsize); [by apply (under_wf ts C p)|by apply (under_wf ts C' p')|congruence].
Qed.
Lemma commit_below n C C' p k : (length k - length p < n)%nat -> storable C -> storable C' -> under C p = Some p -> under C' p = Some p -> HashNode (tnode ts C p) = HashNode (tnode ts C' p) ->
  p ≼ k -> C !! k <> C' !! k -> collision C C'.
Proof.
  revert p. induction n as [|n IH]; intros p Hn HC HC' Hu Hu' Heq Hp Hne; [lia|]. destruct (hash_eq C C' p p HC HC' Hu Hu' Heq) as [?|(_ & Hd & Hc)]; [done|].
  destruct (decide (p = k)) as [->|Hpk]; [by destruct (digest_inj C C' k Hd)|]. destruct (prefix_strict_snoc p k Hp Hpk) as [t Ht]. pose proof HC as [Hw _]. pose proof HC' as [Hw' _].
  apply (f_equal (fun m : gmap Z ID => m !! t)) in Hc. rewrite !lookup_fmap, !(tnode_child ts _ p t) in Hc by done.
  assert (forall (D : gmap path bytes) o, under D (p ++ [t]) = o -> match o with None => D !! k = None | Some r => r ≼ k \/ D !! k = None end) as Hlook.
  { intros D o Ho. destruct (D !! k) as [w|] eqn:Hw0; [|destruct o; by try right]. destruct o as [r|]; [left; eapply under_below; [exact Ho|by eexists|done]|]. exfalso. apply (proj1 (under_None D _) Ho k); [by eexists|done]. }
  pose proof (Hlook C _ eq_refl) as H1. pose proof (Hlook C' _ eq_refl) as H2. clear Hlook. destruct (under C (p ++ [t])) as [r|] eqn:Hr, (under C' (p ++ [t])) as [r'|] eqn:Hr'; cbn in Hc; try done; [|congruence].
  injection Hc as Hc. pose proof (under_node _ _ _ Hr) as Hur. pose proof (under_node _ _ _ Hr') as Hur'. destruct (hash_eq C C' r r' HC HC' Hur Hur' Hc) as [?|[<- _]]; [done|].
  destruct (decide (r ≼ k)) as [Hrk|Hrk]; [|destruct H1, H2; congruence]. apply (IH r); try done. apply under_prefix, prefix_length in Hr. rewrite length_app in Hr. cbn in Hr. apply prefix_length in Ht. rewrite length_app in Ht. cbn in Ht. lia.
Qed.
Lemma differ C C' : C <> C' -> exists k, C !! k <> C' !! k.
Proof.
  intros Hne. destruct (decide (Forall (fun k => C !! k = C' !! k) (elements (dom C ∪ dom C')))) as [Hall|Hn].
  - destruct Hne. apply map_eq. intros k. destruct (decide (k ∈ dom C ∪ dom C')) as [Hk|Hk]; [rewrite Forall_forall in Hall; by apply Hall, elem_of_elements|].
    apply not_elem_of_union in Hk as [Hk Hk']. apply not_elem_of_dom in Hk, Hk'. congruence.
  - apply not_Forall_Exists in Hn; [|apply _]. apply Exists_exists in Hn as (k & _ & Hk). by exists k.
Qed.
Lemma no_root C : root_path C = None -> C = ∅.
Proof. intros Hn. apply map_eq. intros k. rewrite lookup_empty. apply eq_None_not_Some. intros Hk. apply (proj1 (under_None C []) Hn k Hk), prefix_nil. Qed.

(** C27: a root identifier made with SHA-256 commits to all keys and values: tries with the same root identifier have the same
    contents, or two different inputs that were hashed for them, encodings of nodes or values of these very tries, have the
    same SHA-256, or the encoding of a node of theirs hashes to the zero hash that stands for the empty trie. *)
Theorem root_commits (C C' : gmap path bytes) : storable C -> storable C' -> root_id ts C = root_id ts C' ->
  C = C' \/ collision C C' \/ exists b, (hashed C b \/ hashed C' b) /\ sha256 b = Empty.
Proof.
  intros HC HC' Heq. unfold root_id in Heq. destruct (root_path C) as [r|] eqn:Hr, (root_path C') as [r'|] eqn:Hr'.
  - pose proof (under_node C [] r Hr) as Hu. pose proof (under_node C' [] r' Hr') as Hu'. destruct (hash_eq C C' r r' HC HC' Hu Hu' Heq) as [?|[<- _]]; [by right; left|].
    destruct (decide (C = C')) as [|Hne]; [by left|right; left]. destruct (differ C C' Hne) as [k Hk]. apply (commit_below (S (length k)) C C' r k); try done; [lia|].
    destruct (C !! k) as [w|] eqn:Hw; [eapply (under_below C []); [exact Hr|by eexists|apply prefix_nil]|]. destruct (C' !! k) as [w|] eqn:Hw'; [|done]. eapply (under_below C' []); [exact Hr'|by eexists|apply prefix_nil].
  - right; right. exists (MerkleCodec.hash_input (tnode ts C r)). split; [left; left; by exists r; split; [eapply under_node|]|exact Heq].
  - right; right. exists (MerkleCodec.hash_input (tnode ts C' r')). split; [right; left; by exists r'; split; [eapply under_node|]|symmetry; exact Heq].
  - left. by rewrite (no_root C), (no_root C').
Qed.
End commitment.

(** ** Examples
    A view on the empty trie and a view on that view: the second deletes a key, which
    joins a node with its child, and writes one that parts a key in the middle. *)
Definition empty_trie : ParentTrie := {| p_getValue _ := Err ErrNotFound; p_getEditableNode _ _ := Err ErrNotFound; p_getRoot := None |}.
Lemma empty_trie_spec {H : Hasher} ts : trie_spec ts (fun _ => False) ∅ empty_trie.
Proof.
  assert (forall p : path, under (∅ : gmap path bytes) p = None) as Hn by (intros p; apply under_None; by intros k [? ?]). split.
  - by intros k [? ?].
  - intros k _. by right.
  - intros k hv _. right. split; [done|]. by rewrite Hn.
  - unfold root_path. by rewrite Hn.
Qed.
(** The first 32 bytes stand for the hash. *)
Definition first_bytes (b : bytes) : ID := take 32 (wrap 8 <$> (b ++ replicate 32 0)).
Definition demo_hasher : Hasher := MerkleCodec.sha256Hasher (ko := elements_order) first_bytes.
Definition first_ops : list BatchOp := [mkOp [1; 16] [10] false; mkOp [1; 17] [11] false; mkOp [2] [12] false].
Definition second_ops : list BatchOp := [mkOp [1; 17] [] true; mkOp [1] [13] false].
Abbreviation demo_view P := (newView (P := P) (okeys := elements_order)).
Abbreviation demo_root P := (GetMerkleRoot (H := demo_hasher) (P := P) (okeys := elements_order) (ochildren := elements_order) 4 (fun _ => None) []).
Definition no_fault (e : MerkleErr) : Prop := False.
Lemma no_fault_result {A} (m : MV A) (Q : A -> view -> Prop) v : wp no_fault m Q v -> exists v' a, m v = (v', Ok a) /\ Q a v'.
Proof. unfold wp. destruct (m v) as [v' [a|e]]; [|done]. intros HQ. by exists v', a. Qed.
Lemma views_are_tries_witness :
  match demo_view empty_trie first_ops [] with
  | Err _ => False
  | Ok v => exists v1 id1, demo_root empty_trie v = (v1, Ok id1) /\ id1 = root_id (H := demo_hasher) 4 (updated 4 ∅ (ops_of first_ops [])) /\
      match demo_view (view_trie (P := empty_trie) v1) second_ops [([2], None)] with
      | Err _ => False
      | Ok w => exists w1 id2, demo_root (view_trie (P := empty_trie) v1) w = (w1, Ok id2) /\ id2 = root_id (H := demo_hasher) 4 (updated 4 (updated 4 ∅ (ops_of first_ops [])) (ops_of second_ops [([2], None)]))
      end
  end.
Proof.
  assert (token_size 4) as Hts by (unfold token_size; set_solver). assert (forall (k : Key) b, (fun _ : Key => None) k = Some b -> Forall BigEndian.is_byte b) as Hpool by done.
  assert (Forall (fun op => Forall BigEndian.is_byte (op_Key op)) first_ops /\ Forall (fun op => Forall BigEndian.is_byte (op_Key op)) second_ops /\ Forall (fun op : bytes * option bytes => Forall BigEndian.is_byte op.1) [([2], None)]) as (H1 & H2 & H3)
    by (split_and!; apply (bool_decide_unpack _); vm_compute; exact I).
  pose proof (views_are_tries (H := demo_hasher) (P := empty_trie) (okeys := elements_order) (ochildren := elements_order) 4 Hts no_fault ltac:(by intros []) ∅ (empty_trie_spec 4) (fun _ => None) Hpool first_ops [] [] H1 ltac:(constructor) ltac:(constructor)) as Hv.
  cbv zeta in Hv. destruct (demo_view empty_trie first_ops []) as [v|]; [|done]. apply no_fault_result in Hv as (v1 & id1 & Hrun & Hid & Hspec & _). exists v1, id1. split; [exact Hrun|]. split; [exact Hid|]. clear Hrun Hid.
  pose proof (views_are_tries (H := demo_hasher) (P := view_trie v1) (okeys := elements_order) (ochildren := elements_order) 4 Hts no_fault ltac:(by intros []) _ Hspec (fun _ => None) Hpool second_ops [([2], None)] [] H2 H3 ltac:(constructor)) as Hw.
  cbv zeta in Hw. destruct (demo_view (view_trie (P := empty_trie) v1) second_ops _) as [w|]; [|done]. apply no_fault_result in Hw as (w1 & id2 & Hrun2 & Hid2 & _). exists w1, id2. split; [exact Hrun2|exact Hid2].
Defined.
(** The model runs: the two views and one view with what is left have the same root. *)
Example views_run :
  match demo_view empty_trie first_ops [] with
  | Ok v => match demo_view (view_trie (P := empty_trie) (demo_root empty_trie v).1) second_ops [([2], None)], demo_view empty_trie [mkOp [1] [13] false; mkOp [1; 16] [10] false] [] with
            | Ok w, Ok u => (demo_root (view_trie (P := empty_trie) (demo_root empty_trie v).1) w).2 = (demo_root empty_trie u).2 /\ is_ok (demo_root empty_trie u).2 = true
            | _, _ => False
            end
  | _ => False
  end.
Proof. vm_compute. split; reflexivity. Qed.

(** Values of 31 bytes whose last bytes are not part of the first 32 that are hashed. *)
Definition one_value (b : Z) : gmap path bytes := {[ [1; 2] := replicate 30 7 ++ [b] ]}.
Lemma root_commits_witness :
  let _ := commit_hasher (ko := elements_order) first_bytes in
  root_id 4 (one_value 8) = root_id 4 (one_value 9) /\ (collision (ko := elements_order) first_bytes 4 (one_value 8) (one_value 9) \/ exists b, (hashed (ko := elements_order) first_bytes 4 (one_value 8) b \/ hashed (ko := elements_order) first_bytes 4 (one_value 9) b) /\ first_bytes b = Empty).
Proof.
  assert (token_size 4) as Hts by (unfold token_size; set_solver).
  assert (forall b, 0 <= b < 256 -> storable 4 (one_value b)) as Hst.
  { intros b Hb. split.
    - intros k Hk. unfold one_value in Hk. destruct Hk as [w Hk]. apply lookup_singleton_Some in Hk as [<- _]. repeat constructor; done.
    - intros k w Hk. unfold one_value in Hk. apply lookup_singleton_Some in Hk as [<- <-]. split; [|by vm_compute]. split; [|by vm_compute]. apply Forall_app. split; [apply Forall_replicate; done|]. by apply Forall_singleton. }
  assert (root_id (H := commit_hasher (ko := elements_order) first_bytes) 4 (one_value 8) = root_id (H := commit_hasher (ko := elements_order) first_bytes) 4 (one_value 9)) as Heq by (vm_compute; reflexivity).
  split; [exact Heq|]. assert (forall b, is_id (first_bytes b)) as Hid.
  { intros b. unfold first_bytes. split; [rewrite length_take, length_fmap, length_app, length_replicate; unfold IDLen; lia|]. apply Forall_take, Forall_fmap, Forall_true. intros z. apply (wrap_uint 8). lia. }
  destruct (root_commits (ko := elements_order) first_bytes Hid 4 Hts (one_value 8) (one_value 9)) as [Hc|Hc]; [apply Hst; lia|apply Hst; lia|exact Heq| |exact Hc].
  exfalso. apply (f_equal (fun C : gmap path bytes => C !! [1; 2])) in Hc. vm_compute in Hc. discriminate Hc.
Defined.
End MerkleTheorems.
